(* ===== verification/_CoqProject ===== *)
-Q . S2P
Prelude.v
RetryTypes.v
RetryFold.v
RetryBounds.v
RetryDecide.v
RetryContract.v
RetryAdmission.v
RetryLedger.v
RetryClassify.v
LogVisit.v
LogCoverage.v
LogAccount.v
LogChunks.v
LogIngest.v
LogSeam.v
LogRead.v
EvidenceOutcome.v
EvidencePull.v
EvidenceRouting.v
AuthToken.v
AuthLayer.v
SchedState.v
SchedDag.v
SchedCycle.v
SchedRollback.v
SchedWalk.v
SchedTopo.v
SchedCutoff.v
SchedReap.v
NixBytes.v
NixBase32.v
NixStorePath.v
NixRefScan.v
NixNar.v
NixNarLs.v
NixNarFs.v
NixAterm.v
NixDrvHash.v
NixNarInfo.v
NixWire.v
NixFramed.v
LeaseElection.v
LeaseState.v
LeaseRound.v
LeaseCluster.v
LeaseSafety.v
LeaseDual.v
StoreManifest.v
StoreCastore.v
StoreWalk.v
StoreNar.v
StoreValid.v
StoreBuild.v
StoreRoundTrip.v
StorePut.v
StorePutSound.v
StoreVerify.v
StoreVerifySound.v
StoreUpload.v
StoreGet.v
StoreGetSound.v
StoreServe.v
BuilderWalk.v
BuilderUpload.v
BuilderAgree.v
NixStderr.v
NixHandshake.v
NixBuildWire.v
