(* ===== verification/Prelude.v ===== *)
(** * rio-build: a verification development of its decision code

    rio-build is a distributed build backend for Nix.  A gateway accepts builds,
    a scheduler decides what runs where, builders run derivations and stream
    their logs, a store holds outputs, logs and evidence.  The decisions that
    must not be wrong live in pure kernels and in the small stateful objects
    around them; this library models those and proves what they promise.

    ** Parts and files

    - Retry kernel, [src/rio-retry-kernel/src/lib.rs].  The scheduler folds a
      derivation's ledger of attempts into counters and a verdict (requeue,
      poison, cancel, TTL-expired).  [RetryTypes] has the events, rows, budget
      and counters; [RetryFold] the per-event transition [apply] (one definition
      per arm) and [reference_fold]; [RetryDecide] the ledger-row decision
      [decide] ([decide_fn]) and the uncharged-admission counters; [RetryLedger]
      the retention sweep, the loader's window and the materialization lane;
      [RetryClassify] the failure classifier and placement.  [RetryBounds],
      [RetryContract] and [RetryAdmission] hold the theorems.
    - Log kernel and log store, [src/rio-log-kernel/src/lib.rs] and
      [src/rio-store/src/logs/].  A builder appends numbered lines to an ingest
      session, the session cuts contiguous runs into chunk objects with manifest
      rows, readers walk the manifest with a cursor.  [LogVisit] is the dedup
      visit and the cursor, [LogCoverage] the interval map and the manifest
      predicates, [LogAccount] the byte and chunk accounting, [LogChunks] the
      framing and its bounds, [LogIngest] the session ([accept], [cut], the
      in-flight restore, [should_abort]), [LogRead] the read of one chunk, the
      manifest walk, the anomaly ledgers and the completeness claim.  [LogSeam]
      composes sessions with the durable store as a transition system.
    - Evidence kernel, [src/rio-evidence-kernel/src/].  [EvidenceOutcome] folds
      upstream, path and tenant evidence ([outcome.rs], and the upstream loop of
      [src/rio-store/src/substitute.rs]); [EvidencePull] decides what a pulling
      worker is told ([pull.rs]) together with the answering half of the
      scheduler's handler ([src/rio-scheduler/src/actor/pull.rs]);
      [EvidenceRouting] holds closure evidence, establishment, routing,
      visibility, content and settlement.
    - Tokens and authorization, [src/rio-auth/src/hmac.rs],
      [src/rio-authz-kernel/src/lib.rs], [src/rio-store/src/authz.rs].
      [AuthToken] is the signed envelope, the claims' wire shapes, the minting
      interceptor and the handler gate; [AuthLayer] the method table, the boot
      coherence law and the transport check.
    - Scheduler DAG, [src/rio-scheduler/src/dag/mod.rs] and
      [src/rio-scheduler/src/state/derivation.rs].  Builds merge their
      derivations into one global graph.  [SchedState] is the state of a node:
      its status machine, construction, transitions and attempt release.
      [SchedDag] is [merge] with its cycle search and [rollback_merge];
      [SchedWalk] the readiness queries, the topological order, the initial
      states, the cutoff cascade, reaping and roots.  [SchedCycle],
      [SchedRollback], [SchedTopo], [SchedCutoff] and [SchedReap] hold the
      theorems.
    - Nix formats, [src/rio-nix/src/].  What the gateway, the store and the
      builders exchange with Nix.  [NixBytes] has byte strings, UTF-8 and hex;
      [NixBase32] and [NixStorePath] store paths, hashes and the computed paths
      ([store_path.rs], [hash.rs]); [NixRefScan] the streaming reference scanner
      ([refscan.rs]); [NixNar] and [NixNarLs] the archive reader, writer and index,
      [NixNarFs] the streaming dump of a file system object and its restoration
      ([nar/], [nar/fs.rs]); [NixAterm] the derivation parser and printers and [NixDrvHash] the
      modular hash and the deferred outputs ([derivation/], with the memo of
      [src/rio-gateway/src/translate.rs]); [NixNarInfo] cache metadata and its
      signatures ([narinfo.rs]); [NixWire] the worker protocol's strings,
      collections and framed streams, [NixFramed] the streaming framed reader
      ([protocol/wire/]); [NixStderr] the log loop of a call, written by the server
      and read by the client ([stderr.rs], [client.rs]), [NixHandshake] both sides
      of the handshake ([handshake.rs], [client.rs]), [NixBuildWire] the wire forms
      of derivations, build results and path infos, and derived paths ([build.rs],
      [pathinfo.rs], [derived_path.rs]).
    - Leader election, [src/rio-lease/src/].  Replicas of the scheduler compete
      for a lease object.  [LeaseElection] is one round against the object
      ([election.rs]); [LeaseState] the shared leader state; [LeaseRound] the
      standing, the routing law, the derivation of a completed round and every arm
      of the loop body ([lib.rs]).  [LeaseCluster] runs many such loops against one
      server as a transition system, [LeaseSafety] proves its invariant and
      [LeaseDual] has executable runs of it.
    - Store contents, [src/rio-store/src/] and [src/rio-proto/src/castore_util.rs].
      An output is stored as a tree of content-addressed directories and a list of
      chunks, and served as an archive regenerated from both.  [StoreManifest] is
      the chunk list ([manifest.rs]); [StoreCastore] the directory messages, their
      validation and the bounded walk ([castore_util.rs], [castore_nar.rs]);
      [StoreNar] the framing iterator and the index of an uploaded tree
      ([castore_nar.rs], [put_path_chunked/commit.rs]); [StoreBuild] the bottom-up
      pass from an archive index to directories and back ([castore.rs]).
      [StorePut] validates the first frame of a chunked upload
      ([put_path_chunked/validate.rs]); [StoreVerify] receives its chunks and
      proves the deferred file digests ([verify.rs], [file_digest.rs]); [StoreGet]
      ingests a whole archive and serves a path ([cas.rs], [chunker.rs],
      [ingest.rs], [metadata/queries.rs], [grpc/get_path.rs]).  [StoreWalk],
      [StoreValid], [StoreRoundTrip], [StorePutSound], [StoreVerifySound],
      [StoreUpload], [StoreGetSound] and [StoreServe] hold the theorems.
    - Builder upload, [src/rio-builder/src/upload/].  When a build ends, the
      builder finds its outputs and sends them to the store in pieces that the
      store does not have.  [BuilderWalk] is the walk that computes the archive's
      hash, size and references, the directories and the chunks of an output in
      one pass over the disk ([walk.rs]); [BuilderUpload] the scan for outputs, the
      durability probe, the first frame, the reader of the novel chunks and the
      retry loop ([mod.rs], [chunked.rs], [common.rs]).  [BuilderAgree] composes
      them with the store: walk, frame, validation, reception, commit, read.

    ** How the model corresponds to the code

    Unsigned and signed integers are [Z] with the source's saturating, checked
    or wrapping operation written out ([u64_saturating_add],
    [u32_wrapping_add], ...).  Records and enums keep the source's fields and
    constructors, an enum in a module of its own name.  Loops are structural
    recursions over the slice they iterate.  The worklist loops of the scheduler
    DAG (the cycle search, the topological order, the cascade) carry a fuel
    computed from the graph, two steps per node and edge or one per node; their
    theorems prove that it never runs out.  Hash sets are iterated in an order
    that is a parameter ([iter]).  Mutable state is passed explicitly; [&mut self]
    operations return the new state.  Metrics, tracing and message texts are
    left out, except where a text is data (the error messages of the boot
    check, the method table).  Outcomes of I/O are inputs: the result of a PUT,
    an INSERT or a fence write, the clock, the entropy of a nonce.  Third-party
    code is a parameter with laws: zstd in [LogChunks] and [LogRead], the
    subscriber channel in [LogIngest], HMAC, base64url, JSON text and header
    values in [AuthToken], SHA-256 and base64 in [NixStorePath], BLAKE3 in
    [NixNarLs], Ed25519 in [NixNarInfo].  Each such law has a concrete instance
    used by the witnesses.

    A Rust string or byte vector of the Nix formats is a list of [Z] between 0 and
    255, a string being one that is valid UTF-8 ([utf8_valid]).  A reader is the
    bytes that are left and the position; a parser is a function from a reader to
    a result and the reader after it, or an error.  Recursion into nested nodes is
    on the depth that the source's limit leaves, directory and list loops on the
    entries that it leaves, reads of a stream on the bytes that are left; none of
    these bounds can be reached before the source's own refusal.  An asynchronous
    read is a poll whose outcome is an input: not ready, failed, or some bytes.  A
    writer is a sink ([Sink]) that can fail at any byte, with an output of which
    only the flushed part has surely left.  A side of the handshake is a function
    from the bytes of its peer to what it has flushed when it returns, fails or
    waits for more; two sides run by exchanging these until nothing changes.  The
    JSON of a realisation and hexadecimal are interfaces ([RealisationJson],
    [HexDecode]).

    The API server and the clocks of the lease are interfaces ([LeaseServer],
    [Clocks]) with laws: optimistic concurrency on fresh resource versions, drift
    within the documented budget, ticks that come in time and not in bursts.  A
    replica's loop body is cut at its awaits; an abandoned request stays in the
    network.  Ghost fields count the renewals and remember when a read was
    answered; no step depends on them.

    In the store, prost's encoding, FastCDC and BLAKE3 are interfaces ([Prost],
    [FastCDC], [Blake3]) with laws; where a theorem needs it, that BLAKE3 does not
    collide on the directories or chunks of one archive is a hypothesis of that
    theorem.  Iterators are a [next] function run until it ends; their fuel is
    computed from the caps the source enforces (the node cap for the walk, twice
    the number of events for the pieces, the number of bodies for the reachability
    search, the writes in flight for the pipeline, the slice length for the binary
    search) and is proved to be enough.  Which chunk write completes next and
    whether it succeeds, what the chunk cache holds at each fetch, and the answers
    of the database are functions given as inputs.

    A file system object is a tree ([Inode]) and the kernel an interface
    ([Kernel]): which calls fail, how many bytes each read gives, the umask.  The
    dump writes to any sink and calls any observer ([Write], [WalkObserver]), as
    the source's traits have it; the builder's are instances.  The length that
    [fstat] reports and the bytes that reads find are separate, so that a file
    can shrink or grow during the walk.  A Rust panic (an index, a missing source,
    an [expect]) is [None]; in a callback of the dump it is the outcome [Panicked],
    apart from an [io::Error], and it unwinds through the walk ([Panic]); theorems
    show that it does not occur.  The [debug_assert] of the builder's observer is
    left out.  Chunking a file in
    pieces relies on a further law of FastCDC ([FastCDCLocal]): the first boundary
    in a slice longer than the largest chunk does not depend on what follows the
    slice, and cutting starts afresh after a boundary.
    The fuel of a read loop is the number of bytes that are left.

    ** What the theorems show

    - Retry: the caps hold over every history and bound the attempts that charge
      a budget; executions that end without a report cost exactly the exclusion
      budget, which an attempt without a recorded executor escapes when distinct
      workers count; the verdict, the exclusion set and the counters agree
      with the contract clauses the source states; materialization and
      store-degraded rows charge nothing; the retention sweep cannot change a
      decision; the marker search is substring containment; backoff is the
      documented curve.
    - Logs: in every reachable state of sessions, crashes, lost responses and
      retries, an accepted line is buffered, staged or durable, and a durable
      acknowledgement only covers lines a reader can fetch; a read that succeeds,
      while none of its rows is swept,
      delivered every promised line from [since] on, intact storage always reads
      back, and the completeness claim is sound; chunking round-trips; coverage,
      accounting and the object policy equal their set-theoretic meaning.
    - Evidence: each fold equals its declarative reading (exists a path for all
      tenants, most severe evidence, first charge then best transient, ...); a
      token that was told to exit never receives fresh work; delivery,
      re-delivery, adoption and fail-fast happen exactly under their stated
      conditions.
    - Authorization: sign and verify round-trip with the lifetime clamp, the
      claims families cannot be confused, the transport layer admits exactly the
      requests that carry the declared credential, and a minted service call
      goes through.
    - Scheduler DAG: [merge] accepts exactly the submissions that keep the graph
      acyclic, keeps it well formed, and when it fails leaves it as it was; the
      topological order is one; initial states condemn exactly the nodes above a
      co-owned failure and queue the others that wait; the cutoff cascade and the reap touch exactly the nodes
      they should; every node a build wants hangs below one of its roots.
    - Nix formats: the archive reader accepts exactly what the writer emits for a
      well-formed tree, and the index lists that tree with offsets that point at
      the contents; a derivation reads back from its text, and the memoised modular
      hash equals the recursive definition whatever the memo holds; a narinfo whose
      signature verifies is one the key's owner published, field by field; the
      chunked reference scan finds exactly the candidates that occur; store paths
      parse exactly when they are well formed, and computed ones are; the wire
      readers accept exactly the encodings within their limits, and the streaming
      framed reader agrees with the eager one under every split of its reads;
      dumping an object writes exactly its archive however reads are split, and
      restoring and dumping are inverse; a handshake accepts exactly the peers it
      should and two sides of this code always complete it; the client of a call
      reads exactly the messages that were accepted, of which at most one is
      terminal and it is the last; build results, derivations, path infos and
      requests are read back as written, and derived paths parse exactly when they
      are well formed.
    - Leader election: outside the service of a step-down a replica whose leader
      flag is up is the one the lease names, so no two lead at once, whatever is
      delayed, lost, restarted or applied late; the served step-down is the
      exception, with a run that shows it; the loop's belief, the shared flag and
      the hooks agree after every tick and no tick panics; a leader stands down in
      a completed round only on evidence; a recovery or a step-down request of an
      older tenure never counts for the current one.
    - Store contents: the directory walk ends on every map of bodies and yields
      exactly the trees within its bounds; an archive survives the directory form
      bit for bit; what ingest accepts is what a later read sends, from a backend
      that kept it and a cache without corrupted entries; a validated
      upload has the structure its tree claims, never puts a body under a wrong
      key, is accepted when it is honest, and is served as the archive its tree and
      chunks describe when the file digests committed before are honest; a read either sends bytes of the promised hash and size or
      ends with an error.
    - Builder upload: the fused walk returns what separate passes over the whole
      archive would, and no [expect] of it fails whatever the kernel answers; it and the store's ingest of the archive
      compute one castore form; the outcome of an upload says what its attempts
      met; and an honest upload goes through end to end: the store accepts the
      frame and the stream that the builder makes, whatever is durable already,
      and a reader of the path gets exactly the archive of what the build left.

    ** Not modelled

    The actor loop, sizing and database layer of the scheduler; the store's SQL
    transactions, placeholder claims, garbage collection and upstream fetches, and
    timeouts and disconnects while it serves; the live phases of the log tail; the
    opcode handlers of the worker protocol, which are the gateway's; of leader
    election the pod marks and the shutdown release; of the builder the sandbox,
    FUSE and the runtime around the upload, and of the upload the deadlines (only
    their status is seen), the concurrency of the walks and metrics; and the
    gateway, controller, CLI and dashboard, which are I/O around the parts above.

    This file has the machine-integer operations, the iterator adaptors, the
    tactics and the generic lemmas shared by all components. *)

From Stdlib Require Export ZArith Lia.
From stdpp Require Export base tactics list gmap sets strings numbers relations.

#[global] Open Scope Z_scope.

(** ** Machine integers

    A Rust [u32], [u64], [usize] or [i64] is a [Z] kept in range by the
    operations that produce it.  Unchecked [+=] on a [u32] wraps (the release
    profile of [src/Cargo.toml] leaves overflow checks off). *)

Definition u32_max : Z := 4294967295.
Definition u64_max : Z := 18446744073709551615.
Definition i64_max : Z := 9223372036854775807.
Definition i64_min : Z := -9223372036854775808.

Definition u32_ok (z : Z) : Prop := 0 <= z <= u32_max.
Definition u64_ok (z : Z) : Prop := 0 <= z <= u64_max.
Definition i64_ok (z : Z) : Prop := i64_min <= z <= i64_max.

(** A value that round-trips through a PostgreSQL [BIGINT] column. *)
Definition bigint_ok (z : Z) : Prop := 0 <= z <= i64_max.

Definition u32_of_Z (z : Z) : Z := z mod (u32_max + 1).
Definition u32_wrapping_add (a b : Z) : Z := u32_of_Z (a + b).
Definition u32_saturating_add (a b : Z) : Z := Z.min (a + b) u32_max.
Definition u32_saturating_sub (a b : Z) : Z := Z.max (a - b) 0.
Definition u64_saturating_add (a b : Z) : Z := Z.min (a + b) u64_max.
Definition u64_saturating_sub (a b : Z) : Z := Z.max (a - b) 0.
Definition u64_saturating_mul (a b : Z) : Z := Z.min (a * b) u64_max.
Definition u64_checked_add (a b : Z) : option Z :=
  if a + b <=? u64_max then Some (a + b) else None.
Definition u64_checked_sub (a b : Z) : option Z :=
  if b <=? a then Some (a - b) else None.
Definition i64_saturating_add (a b : Z) : Z := Z.max i64_min (Z.min (a + b) i64_max).

(** Unfold every machine-integer operation and finish by linear arithmetic. *)
Ltac mach_unfold :=
  unfold u32_saturating_add, u32_saturating_sub, u64_saturating_add,
    u64_saturating_sub, i64_saturating_add, u32_ok, u64_ok, i64_ok, bigint_ok,
    u32_max, u64_max, i64_max, i64_min in *.
Ltac mach := mach_unfold; lia.

(** Turn boolean comparisons on [Z] in the context and the goal into the
    propositions they decide. *)
Ltac zbool :=
  repeat match goal with
  | H : (_ <? _) = true |- _ => apply Z.ltb_lt in H
  | H : (_ <? _) = false |- _ => apply Z.ltb_ge in H
  | H : (_ <=? _) = true |- _ => apply Z.leb_le in H
  | H : (_ <=? _) = false |- _ => apply Z.leb_gt in H
  | H : (_ =? _) = true |- _ => apply Z.eqb_eq in H
  | H : (_ =? _) = false |- _ => apply Z.eqb_neq in H
  | H : _ && _ = true |- _ => apply andb_true_iff in H as [? ?]
  | H : _ || _ = false |- _ => apply orb_false_iff in H as [? ?]
  | H : negb _ = true |- _ => apply negb_true_iff in H
  | H : negb _ = false |- _ => apply negb_false_iff in H
  end.

(** Split on every [if] and [match] scrutinee of the goal. *)
Ltac split_ifs :=
  repeat match goal with
  | |- context [if ?b then _ else _] => destruct b eqn:?
  end; zbool.

Lemma u32_of_Z_small z : u32_ok z -> u32_of_Z z = z.
Proof. intros H. unfold u32_of_Z. apply Z.mod_small. mach. Qed.

Lemma u32_of_Z_ok z : u32_ok (u32_of_Z z).
Proof.
  unfold u32_of_Z, u32_ok, u32_max.
  pose proof (Z.mod_pos_bound z (4294967295 + 1)). lia.
Qed.

Lemma u32_wrapping_add_small a b :
  u32_ok (a + b) -> u32_wrapping_add a b = a + b.
Proof. apply u32_of_Z_small. Qed.

Lemma u32_wrapping_add_ok a b : u32_ok (u32_wrapping_add a b).
Proof. apply u32_of_Z_ok. Qed.

(** The increment guarded by a cap below [u32::MAX] never wraps. *)
Lemma u32_incr_below a cap :
  0 <= a -> a < cap -> cap <= u32_max -> u32_wrapping_add a 1 = a + 1.
Proof. intros. apply u32_wrapping_add_small. mach. Qed.

(** [to_le_bytes] and [from_le_bytes] of an [n]-byte unsigned integer. *)
Fixpoint to_le_bytes (n : nat) (z : Z) : list Z :=
  match n with
  | O => []
  | S n' => Z.land z 255 :: to_le_bytes n' (Z.shiftr z 8)
  end.

Fixpoint from_le_bytes (l : list Z) : Z :=
  match l with
  | [] => 0
  | b :: t => b + Z.shiftl (from_le_bytes t) 8
  end.

Lemma to_le_bytes_length n z : length (to_le_bytes n z) = n.
Proof. revert z. induction n; simpl; auto. Qed.

Lemma from_to_le_bytes n z :
  0 <= z < 2 ^ (8 * Z.of_nat n) -> from_le_bytes (to_le_bytes n z) = z.
Proof.
  revert z. induction n as [|n IH]; intros z Hz.
  { change (2 ^ (8 * Z.of_nat 0)) with 1 in Hz. simpl. lia. }
  cbn [to_le_bytes from_le_bytes]. rewrite IH.
  - change 255 with (Z.ones 8). rewrite Z.land_ones, Z.shiftl_mul_pow2, Z.shiftr_div_pow2 by lia.
    rewrite Z.add_comm, Z.mul_comm. symmetry. by apply Z.div_mod.
  - rewrite Z.shiftr_div_pow2 by lia. split; [apply Z.div_pos; lia|].
    apply Z.div_lt_upper_bound; [lia|]. rewrite <- Z.pow_add_r by lia.
    replace (8 + 8 * Z.of_nat n) with (8 * Z.of_nat (S n)) by lia. apply Hz.
Qed.

Create HintDb mach.
#[export] Hint Resolve u32_of_Z_ok u32_wrapping_add_ok : mach.

(** ** Iterator adaptors over slices *)

(** [Iterator::take_while]. *)
Fixpoint take_while {A} (f : A -> bool) (l : list A) : list A :=
  match l with
  | [] => []
  | x :: t => if f x then x :: take_while f t else []
  end.

(** [Iterator::rposition]: the index of the last element satisfying [f]. *)
Fixpoint rposition {A} (f : A -> bool) (l : list A) : option nat :=
  match l with
  | [] => None
  | x :: t =>
      match rposition f t with
      | Some i => Some (S i)
      | None => if f x then Some O else None
      end
  end.

Section IteratorLemmas.
Context {A : Type}.
Implicit Types (f g : A -> bool) (l : list A).

Lemma find_none_iff f l :
  List.find f l = None <-> Forall (fun x => f x = false) l.
Proof.
  induction l as [|x l IH]; simpl; [by split|].
  destruct (f x) eqn:E; rewrite Forall_cons.
  - split; [done|]. intros [H _]. congruence.
  - rewrite IH. naive_solver.
Qed.

Lemma find_filter_same f l : List.find f (List.filter f l) = List.find f l.
Proof.
  induction l as [|x l IH]; simpl; [done|].
  destruct (f x) eqn:E; simpl; [by rewrite E|done].
Qed.

Lemma find_app_bool f l k :
  List.find f (l ++ k) =
  match List.find f l with Some x => Some x | None => List.find f k end.
Proof. induction l as [|x l IH]; simpl; [done|]. by destruct (f x). Qed.

Lemma rposition_none f l :
  rposition f l = None <-> Forall (fun x => f x = false) l.
Proof.
  induction l as [|x l IH]; simpl; [by split|].
  rewrite Forall_cons, <- IH.
  destruct (rposition f l), (f x); naive_solver.
Qed.

Lemma rposition_some f l i :
  rposition f l = Some i ->
  exists x, l !! i = Some x /\ f x = true /\
    Forall (fun y => f y = false) (drop (S i) l).
Proof.
  revert i. induction l as [|x l IH]; simpl; [done|]. intros i.
  destruct (rposition f l) as [j|] eqn:E.
  - intros [= <-]. apply (IH j eq_refl).
  - destruct (f x) eqn:Ex; [|done]. intros [= <-].
    exists x. rewrite drop_0. by apply rposition_none in E.
Qed.

Lemma rposition_app f l k :
  rposition f (l ++ k) =
  match rposition f k with
  | Some i => Some (length l + i)%nat
  | None => rposition f l
  end.
Proof.
  induction l as [|x l IH]; simpl; [by destruct (rposition f k)|].
  rewrite IH. by destruct (rposition f k).
Qed.

Lemma filter_all f l : Forall (fun x => f x = true) l -> List.filter f l = l.
Proof. induction 1 as [|x l E _ IH]; simpl; [done|]. by rewrite E, IH. Qed.

Lemma filter_none f l : Forall (fun x => f x = false) l -> List.filter f l = [].
Proof. induction 1 as [|x l E _ IH]; simpl; [done|]. by rewrite E, IH. Qed.

Lemma filter_comm f g l :
  List.filter f (List.filter g l) = List.filter g (List.filter f l).
Proof.
  induction l as [|x l IH]; simpl; [done|].
  destruct (g x) eqn:Eg, (f x) eqn:Ef; simpl; rewrite ?Eg, ?Ef, ?IH; done.
Qed.

Lemma filter_idem f l : List.filter f (List.filter f l) = List.filter f l.
Proof.
  apply filter_all, Forall_forall. intros x Hx%list_elem_of_In.
  by apply List.filter_In in Hx as [_ ?].
Qed.

Lemma filter_app_bool f l k :
  List.filter f (l ++ k) = List.filter f l ++ List.filter f k.
Proof. apply List.filter_app. Qed.

(** The last element satisfying [f] ends the filtered list. *)
Lemma find_rev_filter f l r :
  List.find f (rev l) = Some r ->
  f r = true /\ exists pre, List.filter f l = pre ++ [r].
Proof.
  induction l as [|x l IH] using rev_ind; [done|].
  rewrite rev_app_distr, filter_app_bool. simpl.
  destruct (f x) eqn:E; [naive_solver|]. rewrite app_nil_r. apply IH.
Qed.

(** A fold that ignores the elements failing [f] is the fold of the filter. *)
Lemma fold_left_filter {B} (step : B -> A -> B) f l b :
  (forall b x, f x = false -> step b x = b) ->
  fold_left step l b = fold_left step (List.filter f l) b.
Proof.
  intros Hskip. revert b. induction l as [|x l IH]; simpl; [done|].
  intros b. destruct (f x) eqn:E; simpl; [apply IH|].
  rewrite Hskip by done. apply IH.
Qed.

(** Invariants of left folds, by induction on the prefix already folded. *)
Lemma fold_left_inv {B} (step : B -> A -> B) (P : list A -> B -> Prop) l b :
  P [] b ->
  (forall pre x b, P pre b -> P (pre ++ [x]) (step b x)) ->
  P l (fold_left step l b).
Proof.
  intros H0 Hstep. rewrite <- (app_nil_l l) at 1. revert b H0.
  generalize (@nil A) as pre. induction l as [|x l IH]; intros pre b Hb; simpl.
  - by rewrite app_nil_r.
  - rewrite cons_middle, app_assoc. by apply IH, Hstep.
Qed.

Lemma fold_left_ind {B} (step : B -> A -> B) (P : B -> Prop) l b :
  P b -> (forall b x, P b -> P (step b x)) -> P (fold_left step l b).
Proof. intros H0 Hs. revert b H0. induction l; simpl; eauto. Qed.

End IteratorLemmas.
