(* ===== verification/RetryTypes.v ===== *)
(** * Retry kernel: data model

    The vocabulary of [src/rio-retry-kernel/src/lib.rs]: the budget, the ten
    retry counters, the observed events, the verdicts, and the ledger rows of
    [drv_attempts].  Executor identities are a type parameter [Id] exactly as
    in the source; an [IdSet] (a [BTreeSet]) is a [gset Id].  Fields named
    [at] in the source carry their owner's prefix, [at] being a keyword. *)

From S2P Require Import Prelude.

(** Abstract clock: whole seconds, a [u64]. *)
Definition AbsTime : Type := Z.

Record Budget : Type := mkBudget {
  max_retries : Z;
  max_infra_retries : Z;
  max_timeout_retries : Z;
  max_exempt_infra_retries : Z;
  backoff_base_secs : Z;
  backoff_multiplier : Z;
  backoff_max_secs : Z;
  poison_threshold : Z;
  require_distinct_workers : bool;
  poison_resubmit_retry_limit : Z;
  poison_ttl_secs : Z
}.

(** [impl Default for Budget]: the production defaults. *)
Definition Budget_default : Budget := {|
  max_retries := 2;
  max_infra_retries := 10;
  max_timeout_retries := 4;
  max_exempt_infra_retries := 50;
  backoff_base_secs := 5;
  backoff_multiplier := 2;
  backoff_max_secs := 300;
  poison_threshold := 3;
  require_distinct_workers := true;
  poison_resubmit_retry_limit := 2;
  poison_ttl_secs := 24 * 60 * 60
|}.

(** The fields are machine integers of the width the struct declares. *)
Definition Budget_ok (b : Budget) : Prop :=
  u32_ok (max_retries b) /\ u32_ok (max_infra_retries b) /\
  u32_ok (max_timeout_retries b) /\ u32_ok (max_exempt_infra_retries b) /\
  u64_ok (backoff_base_secs b) /\ u64_ok (backoff_multiplier b) /\
  u64_ok (backoff_max_secs b) /\ u32_ok (poison_threshold b) /\
  u32_ok (poison_resubmit_retry_limit b) /\ u64_ok (poison_ttl_secs b).

(** Which budget's exhaustion produced a [Poison] verdict. *)
Module PoisonReason.
Inductive PoisonReason : Type :=
| Threshold
| FleetExhausted
| TransientBudget
| InfraBudget
| ExemptInfraBudget
| Permanent
| ComputeBoundAtCap.
#[global] Instance PoisonReason_eq_dec : EqDecision PoisonReason.
Proof. solve_decision. Defined.
End PoisonReason.
Export (hints) PoisonReason.
Abbreviation PoisonReason := PoisonReason.PoisonReason.

(** The budget verdict of a derivation given its failure history. *)
Module Verdict.
Inductive Verdict : Type :=
| Requeue
| Poison (reason : PoisonReason)
| Cancel
| TtlExpire.
#[global] Instance Verdict_eq_dec : EqDecision Verdict.
Proof. solve_decision. Defined.
End Verdict.
Export (hints) Verdict.
Abbreviation Verdict := Verdict.Verdict.

(** One observed accounting event. *)
Module AttemptEvent.
Inductive AttemptEvent (Id : Type) : Type :=
| Transient (ev_at : AbsTime) (executor : option Id)
| Infra (ev_at : AbsTime) (executor : option Id) (exempt at_cap : bool)
| ExecutorVariant (ev_at : AbsTime) (executor : option Id) (at_cap : bool)
| Permanent (ev_at : AbsTime) (executor : option Id)
| WorkerTimeout (ev_at : AbsTime) (executor : option Id)
| Disconnect (ev_at : AbsTime) (executor : option Id)
| ControllerTermination (ev_at : AbsTime) (executor : option Id) (promoted at_cap : bool)
| ControllerDeadlineExceeded (ev_at : AbsTime) (executor : option Id)
| BackstopTimeout (ev_at : AbsTime) (executor : option Id)
| EstablishedCrash (ev_at : AbsTime) (executor : option Id)
| Dispatched (ev_at : AbsTime) (executor : option Id)
| ResubmitReset (ev_at : AbsTime)
| CacheHitClear (ev_at : AbsTime)
| PoisonCleared (ev_at : AbsTime).
Arguments Transient {Id} _ _.
Arguments Infra {Id} _ _ _ _.
Arguments ExecutorVariant {Id} _ _ _.
Arguments Permanent {Id} _ _.
Arguments WorkerTimeout {Id} _ _.
Arguments Disconnect {Id} _ _.
Arguments ControllerTermination {Id} _ _ _ _.
Arguments ControllerDeadlineExceeded {Id} _ _.
Arguments BackstopTimeout {Id} _ _.
Arguments EstablishedCrash {Id} _ _.
Arguments Dispatched {Id} _ _.
Arguments ResubmitReset {Id} _.
Arguments CacheHitClear {Id} _.
Arguments PoisonCleared {Id} _.

(** [AttemptEvent::at]: the observation time. *)
Definition event_at {Id} (ev : AttemptEvent Id) : AbsTime :=
  match ev with
  | Transient t _ | Infra t _ _ _ | ExecutorVariant t _ _ | Permanent t _
  | WorkerTimeout t _ | Disconnect t _ | ControllerTermination t _ _ _
  | ControllerDeadlineExceeded t _ | BackstopTimeout t _ | EstablishedCrash t _
  | Dispatched t _ | ResubmitReset t | CacheHitClear t | PoisonCleared t => t
  end.
End AttemptEvent.
Abbreviation AttemptEvent := AttemptEvent.AttemptEvent.

(** Row kind in the durable attempt ledger. *)
Module AttemptEventKind.
Inductive AttemptEventKind : Type := Attempt | Reset.
#[global] Instance AttemptEventKind_eq_dec : EqDecision AttemptEventKind.
Proof. solve_decision. Defined.
End AttemptEventKind.
Export (hints) AttemptEventKind.
Abbreviation AttemptEventKind := AttemptEventKind.AttemptEventKind.

(** Outcome classification of one attempt-ledger row. *)
Module OutcomeClass.
Inductive OutcomeClass : Type :=
| Transient
| Infra
| ExemptInfra
| Timeout
| Permanent
| ExecutorVariant
| Cascade
| Backstop
| Disconnected
| ExecutorCrash
| FleetExhaust
| ResubmitReset
| CacheHitClear
| PoisonCleared
| MaterializationUnobtainable
| MaterializationInfra
| MaterializationReset
| StoreDegraded.
#[global] Instance OutcomeClass_eq_dec : EqDecision OutcomeClass.
Proof. solve_decision. Defined.
End OutcomeClass.
Export (hints) OutcomeClass.
Abbreviation OutcomeClass := OutcomeClass.OutcomeClass.

(** Which party observed the event behind a ledger row. *)
Module ReportingParty.
Inductive ReportingParty : Type := Worker | Controller | Scheduler | Admin.
#[global] Instance ReportingParty_eq_dec : EqDecision ReportingParty.
Proof. solve_decision. Defined.
End ReportingParty.
Export (hints) ReportingParty.
Abbreviation ReportingParty := ReportingParty.ReportingParty.

(** The work class (lane) of an attempt row. *)
Module AttemptKind.
Inductive AttemptKind : Type := Build | Materialization.
#[global] Instance AttemptKind_eq_dec : EqDecision AttemptKind.
Proof. solve_decision. Defined.
End AttemptKind.
Export (hints) AttemptKind.
Abbreviation AttemptKind := AttemptKind.AttemptKind.

(** The decision-relevant projection of one [drv_attempts] row. *)
Record LedgerRow (Id : Type) : Type := mkLedgerRow {
  event_kind : AttemptEventKind;
  outcome_class : OutcomeClass;
  row_executor : option Id;
  reporting_party : ReportingParty;
  floor_promoted : bool;
  floor_at_cap : bool;
  resubmit_cycle : Z;
  row_at : AbsTime;
  row_kind : AttemptKind
}.
Arguments mkLedgerRow {Id} _ _ _ _ _ _ _ _ _.
Arguments event_kind {Id} _.
Arguments outcome_class {Id} _.
Arguments row_executor {Id} _.
Arguments reporting_party {Id} _.
Arguments floor_promoted {Id} _.
Arguments floor_at_cap {Id} _.
Arguments resubmit_cycle {Id} _.
Arguments row_at {Id} _.
Arguments row_kind {Id} _.

(** Guards on rows, as the code spells them: [r.kind == Build],
    [r.event_kind == Reset], ... *)
Definition is_kind {Id} (k : AttemptKind) (r : LedgerRow Id) : bool :=
  bool_decide (row_kind r = k).
Definition is_event {Id} (k : AttemptEventKind) (r : LedgerRow Id) : bool :=
  bool_decide (event_kind r = k).
Definition is_class {Id} (c : OutcomeClass) (r : LedgerRow Id) : bool :=
  bool_decide (outcome_class r = c).
Definition is_party {Id} (p : ReportingParty) (r : LedgerRow Id) : bool :=
  bool_decide (reporting_party r = p).

Section Counters.
Context {Id : Type} `{Countable Id}.

(** The live eligible fleet, as the fleet-exhaust check sees it. *)
Record FleetView : Type := mkFleetView { eligible : gset Id }.

Definition FleetView_default : FleetView := {| eligible := ∅ |}.

(** The ten [RetryState] counters. *)
Record Counters : Type := mkCounters {
  count : Z;
  resubmit_cycles : Z;
  infra_count : Z;
  timeout_count : Z;
  last_infra_failure_at : option AbsTime;
  exempt_infra_count : Z;
  failed_builders : gset Id;
  failure_count : Z;
  poisoned_at : option AbsTime;
  backoff_until : option AbsTime
}.

Definition Counters_default : Counters := {|
  count := 0;
  resubmit_cycles := 0;
  infra_count := 0;
  timeout_count := 0;
  last_infra_failure_at := None;
  exempt_infra_count := 0;
  failed_builders := ∅;
  failure_count := 0;
  poisoned_at := None;
  backoff_until := None
|}.

(** Assignments to single fields of [&mut Counters]. *)
Definition set_count (v : Z) (c : Counters) : Counters :=
  mkCounters v (resubmit_cycles c) (infra_count c) (timeout_count c)
    (last_infra_failure_at c) (exempt_infra_count c) (failed_builders c)
    (failure_count c) (poisoned_at c) (backoff_until c).
Definition set_resubmit_cycles (v : Z) (c : Counters) : Counters :=
  mkCounters (count c) v (infra_count c) (timeout_count c)
    (last_infra_failure_at c) (exempt_infra_count c) (failed_builders c)
    (failure_count c) (poisoned_at c) (backoff_until c).
Definition set_infra_count (v : Z) (c : Counters) : Counters :=
  mkCounters (count c) (resubmit_cycles c) v (timeout_count c)
    (last_infra_failure_at c) (exempt_infra_count c) (failed_builders c)
    (failure_count c) (poisoned_at c) (backoff_until c).
Definition set_timeout_count (v : Z) (c : Counters) : Counters :=
  mkCounters (count c) (resubmit_cycles c) (infra_count c) v
    (last_infra_failure_at c) (exempt_infra_count c) (failed_builders c)
    (failure_count c) (poisoned_at c) (backoff_until c).
Definition set_last_infra_failure_at (v : option AbsTime) (c : Counters) : Counters :=
  mkCounters (count c) (resubmit_cycles c) (infra_count c) (timeout_count c)
    v (exempt_infra_count c) (failed_builders c)
    (failure_count c) (poisoned_at c) (backoff_until c).
Definition set_exempt_infra_count (v : Z) (c : Counters) : Counters :=
  mkCounters (count c) (resubmit_cycles c) (infra_count c) (timeout_count c)
    (last_infra_failure_at c) v (failed_builders c)
    (failure_count c) (poisoned_at c) (backoff_until c).
Definition set_failed_builders (v : gset Id) (c : Counters) : Counters :=
  mkCounters (count c) (resubmit_cycles c) (infra_count c) (timeout_count c)
    (last_infra_failure_at c) (exempt_infra_count c) v
    (failure_count c) (poisoned_at c) (backoff_until c).
Definition set_failure_count (v : Z) (c : Counters) : Counters :=
  mkCounters (count c) (resubmit_cycles c) (infra_count c) (timeout_count c)
    (last_infra_failure_at c) (exempt_infra_count c) (failed_builders c)
    v (poisoned_at c) (backoff_until c).
Definition set_poisoned_at (v : option AbsTime) (c : Counters) : Counters :=
  mkCounters (count c) (resubmit_cycles c) (infra_count c) (timeout_count c)
    (last_infra_failure_at c) (exempt_infra_count c) (failed_builders c)
    (failure_count c) v (backoff_until c).
Definition set_backoff_until (v : option AbsTime) (c : Counters) : Counters :=
  mkCounters (count c) (resubmit_cycles c) (infra_count c) (timeout_count c)
    (last_infra_failure_at c) (exempt_infra_count c) (failed_builders c)
    (failure_count c) (poisoned_at c) v.

(** [Counters::poison_threshold_reached]: the check over either the distinct
    worker set ([len() as u32]) or the flat counter. *)
Definition poison_threshold_reached (c : Counters) (budget : Budget) : bool :=
  let n :=
    if require_distinct_workers budget
    then u32_of_Z (Z.of_nat (size (failed_builders c)))
    else failure_count c in
  poison_threshold budget <=? n.

(** [Counters::clear_for_cache_hit]: wipes nine of the ten fields. *)
Definition clear_for_cache_hit (c : Counters) : Counters :=
  set_backoff_until (backoff_until c) Counters_default.

(** The decision-surface output. *)
Record Decision_t : Type := mkDecision {
  d_verdict : Verdict;
  d_exclusion : gset Id;
  d_backoff_until : option AbsTime;
  d_counters : Counters
}.

End Counters.

Arguments FleetView Id {_ _}.
Arguments Counters Id {_ _}.
Arguments Decision_t Id {_ _}.
