(* ===== verification/RetryFold.v ===== *)
(** * Retry kernel: the reference fold

    [reference_fold], [fold_events], [ttl_downgrade] and the arms of [apply]
    of [src/rio-retry-kernel/src/lib.rs], with the backoff curve and the
    fleet-exhaust predicate they consult.  Each match arm of [apply] is a
    definition of its own, in the order of its statements; an early [return]
    is the result of the branch that returns. *)

From S2P Require Import Prelude RetryTypes.

(** [Budget::backoff_secs]: the loop body multiplies and may return early. *)
Fixpoint backoff_loop (budget : Budget) (iters : nat) (d : Z) : Z :=
  match iters with
  | O => Z.min d (backoff_max_secs budget)
  | S iters' =>
      let d := u64_saturating_mul d (backoff_multiplier budget) in
      if backoff_max_secs budget <=? d then backoff_max_secs budget
      else backoff_loop budget iters' d
  end.

Definition backoff_secs (budget : Budget) (attempt : Z) : Z :=
  backoff_loop budget (Z.to_nat attempt) (backoff_base_secs budget).

Section Fold.
Context {Id : Type} `{Countable Id}.
Implicit Types (c : Counters Id) (budget : Budget) (fleet : FleetView Id)
  (ev : AttemptEvent Id) (executor : option Id) (now ts : AbsTime).

(** [exhausts_fleet]: every eligible worker has already failed. *)
Definition exhausts_fleet (failed : gset Id) fleet : bool :=
  if bool_decide (failed = ∅) || bool_decide (eligible fleet = ∅) then false
  else bool_decide (eligible fleet ⊆ failed).

(** [if let Some(executor) = executor { c.failed_builders.insert(..) }]. *)
Definition insert_builder executor c : Counters Id :=
  match executor with
  | Some e => set_failed_builders ({[ e ]} ∪ failed_builders c) c
  | None => c
  end.

(** E1: [handle_transient_failure]. *)
Definition apply_transient ts executor budget fleet c : Counters Id * Verdict :=
  let c := set_infra_count 0 c in
  let c := insert_builder executor c in
  let c := set_failure_count (u32_wrapping_add (failure_count c) 1) c in
  if poison_threshold_reached c budget then
    (set_poisoned_at (Some ts) c, Verdict.Poison PoisonReason.Threshold)
  else if exhausts_fleet (failed_builders c) fleet then
    (set_poisoned_at (Some ts) c, Verdict.Poison PoisonReason.FleetExhausted)
  else if count c <? max_retries budget then
    let backoff := backoff_secs budget (count c) in
    let c := set_count (u32_wrapping_add (count c) 1) c in
    (set_backoff_until (Some (u64_saturating_add ts backoff)) c, Verdict.Requeue)
  else
    (set_poisoned_at (Some ts) c, Verdict.Poison PoisonReason.TransientBudget).

(** E2: [handle_infrastructure_failure].  The exempt block does not return on
    its under-cap path; the second [if *exempt] does. *)
Definition apply_infra ts (exempt : bool) budget c : Counters Id * Verdict :=
  let c :=
    if exempt
    then set_exempt_infra_count (u32_wrapping_add (exempt_infra_count c) 1) c
    else c in
  if exempt && (max_exempt_infra_retries budget <=? exempt_infra_count c) then
    (set_poisoned_at (Some ts) c, Verdict.Poison PoisonReason.ExemptInfraBudget)
  else if exempt then (c, Verdict.Requeue)
  else if max_infra_retries budget <=? infra_count c then
    (set_poisoned_at (Some ts) c, Verdict.Poison PoisonReason.InfraBudget)
  else
    let c := set_infra_count (u32_wrapping_add (infra_count c) 1) c in
    (set_last_infra_failure_at (Some ts) c, Verdict.Requeue).

(** E3a: [handle_executor_variant_failure]. *)
Definition apply_executor_variant ts executor (at_cap : bool) budget c
    : Counters Id * Verdict :=
  let c := set_infra_count 0 c in
  let c := insert_builder executor c in
  let c := set_failure_count (u32_wrapping_add (failure_count c) 1) c in
  if at_cap then
    (set_poisoned_at (Some ts) c, Verdict.Poison PoisonReason.ComputeBoundAtCap)
  else if poison_threshold_reached c budget then
    (set_poisoned_at (Some ts) c, Verdict.Poison PoisonReason.Permanent)
  else if count c <? max_retries budget then
    let backoff := backoff_secs budget (count c) in
    let c := set_count (u32_wrapping_add (count c) 1) c in
    (set_backoff_until (Some (u64_saturating_add ts backoff)) c, Verdict.Requeue)
  else
    (set_poisoned_at (Some ts) c, Verdict.Poison PoisonReason.TransientBudget).

(** E3b: [handle_permanent_failure]. *)
Definition apply_permanent ts executor c : Counters Id * Verdict :=
  let c := set_poisoned_at (Some ts) c in
  (insert_builder executor c, Verdict.Poison PoisonReason.Permanent).

(** E4: [handle_timeout_failure]. *)
Definition apply_worker_timeout budget c : Counters Id * Verdict :=
  let c := set_infra_count 0 c in
  if timeout_count c <? max_timeout_retries budget then
    (set_timeout_count (u32_wrapping_add (timeout_count c) 1) c, Verdict.Requeue)
  else (c, Verdict.Cancel).

(** E5: [reassign_derivations]. *)
Definition apply_disconnect ts budget c : Counters Id * Verdict :=
  if poison_threshold_reached c budget then
    (set_poisoned_at (Some ts) c, Verdict.Poison PoisonReason.Threshold)
  else (c, Verdict.Requeue).

(** E6: [handle_executor_termination]. *)
Definition apply_controller_termination ts (promoted at_cap : bool) budget c
    : Counters Id * Verdict :=
  if at_cap then
    if max_infra_retries budget <=? infra_count c then
      (set_poisoned_at (Some ts) c, Verdict.Poison PoisonReason.InfraBudget)
    else
      let c := set_infra_count (u32_wrapping_add (infra_count c) 1) c in
      (set_last_infra_failure_at (Some ts) c, Verdict.Requeue)
  else if promoted then
    let c := set_exempt_infra_count (u32_wrapping_add (exempt_infra_count c) 1) c in
    if max_exempt_infra_retries budget <=? exempt_infra_count c then
      (set_poisoned_at (Some ts) c, Verdict.Poison PoisonReason.ExemptInfraBudget)
    else (c, Verdict.Requeue)
  else (c, Verdict.Requeue).

(** E7: [handle_deadline_exceeded]. *)
Definition apply_controller_deadline budget c : Counters Id * Verdict :=
  let c := set_infra_count 0 c in
  if max_timeout_retries budget <=? timeout_count c then (c, Verdict.Cancel)
  else (set_timeout_count (u32_wrapping_add (timeout_count c) 1) c, Verdict.Requeue).

(** E8, historical backstop rows. *)
Definition apply_backstop ts executor budget c : Counters Id * Verdict :=
  let c := insert_builder executor c in
  let c := set_failure_count (u32_wrapping_add (failure_count c) 1) c in
  if poison_threshold_reached c budget then
    (set_poisoned_at (Some ts) c, Verdict.Poison PoisonReason.Threshold)
  else (c, Verdict.Requeue).

(** The establishment sweep. *)
Definition apply_established_crash ts executor budget c : Counters Id * Verdict :=
  let c := insert_builder executor c in
  let c := set_failure_count (u32_wrapping_add (failure_count c) 1) c in
  if poison_threshold_reached c budget then
    (set_poisoned_at (Some ts) c, Verdict.Poison PoisonReason.Threshold)
  else (c, Verdict.Requeue).

(** The [dag::merge] resubmit reset. *)
Definition apply_resubmit_reset c : Counters Id * Verdict :=
  let cycles := resubmit_cycles c in
  (set_resubmit_cycles (u32_wrapping_add cycles 1) Counters_default, Verdict.Requeue).

(** [apply]: one event, the mutated counters and the verdict. *)
Definition apply (c : Counters Id) ev budget fleet : Counters Id * Verdict :=
  match ev with
  | AttemptEvent.Transient t executor => apply_transient t executor budget fleet c
  | AttemptEvent.Infra t _ exempt _ => apply_infra t exempt budget c
  | AttemptEvent.ExecutorVariant t executor at_cap =>
      apply_executor_variant t executor at_cap budget c
  | AttemptEvent.Permanent t executor => apply_permanent t executor c
  | AttemptEvent.WorkerTimeout _ _ => apply_worker_timeout budget c
  | AttemptEvent.Disconnect t _ => apply_disconnect t budget c
  | AttemptEvent.ControllerTermination t _ promoted at_cap =>
      apply_controller_termination t promoted at_cap budget c
  | AttemptEvent.ControllerDeadlineExceeded _ _ => apply_controller_deadline budget c
  | AttemptEvent.BackstopTimeout t executor => apply_backstop t executor budget c
  | AttemptEvent.EstablishedCrash t executor => apply_established_crash t executor budget c
  | AttemptEvent.Dispatched _ _ => (set_backoff_until None c, Verdict.Requeue)
  | AttemptEvent.ResubmitReset _ => apply_resubmit_reset c
  | AttemptEvent.CacheHitClear _ => (clear_for_cache_hit c, Verdict.Requeue)
  | AttemptEvent.PoisonCleared _ => (Counters_default, Verdict.Requeue)
  end.

(** [ttl_downgrade]. *)
Definition ttl_downgrade c (verdict : Verdict) now budget : Verdict :=
  match verdict, poisoned_at c with
  | Verdict.Poison _, Some p =>
      if poison_ttl_secs budget <? u64_saturating_sub now p
      then Verdict.TtlExpire else verdict
  | _, _ => verdict
  end.

(** The loop of [fold_events]. *)
Definition fold_loop (initial : Counters Id) (history : list (AttemptEvent Id))
    budget fleet : Counters Id * Verdict :=
  fold_left (fun s ev => apply (fst s) ev budget fleet) history
    (initial, Verdict.Requeue).

Definition fold_events (initial : Counters Id) (history : list (AttemptEvent Id))
    now budget fleet : Counters Id * Verdict :=
  let s := fold_loop initial history budget fleet in
  (fst s, ttl_downgrade (fst s) (snd s) now budget).

Definition reference_fold (history : list (AttemptEvent Id)) now budget fleet
    : Counters Id * Verdict :=
  fold_events Counters_default history now budget fleet.


(** ** Case analysis on one event *)

(** The three reset events of the alphabet. *)
Definition is_reset_event ev : bool :=
  match ev with
  | AttemptEvent.ResubmitReset _ | AttemptEvent.CacheHitClear _
  | AttemptEvent.PoisonCleared _ => true
  | _ => false
  end.

End Fold.

Ltac unfold_apply :=
  unfold apply, apply_transient, apply_infra, apply_executor_variant,
    apply_permanent, apply_worker_timeout, apply_disconnect,
    apply_controller_termination, apply_controller_deadline, apply_backstop,
    apply_established_crash, apply_resubmit_reset, clear_for_cache_hit in *.

(** One goal per path through [apply], with the guards taken as hypotheses. *)
Ltac apply_cases ev :=
  destruct ev; unfold_apply; cbn [andb] in *;
  repeat match goal with
  | |- context [if ?b then _ else _] => destruct b eqn:?
  | H : context [if ?b then _ else _] |- _ => destruct b eqn:?
  end; cbn in *; zbool.

(** ** The backoff curve *)

Section Backoff.
Variable budget : Budget.
Hypothesis Hb : Budget_ok budget.

(** The loop computes the saturating geometric curve. *)
Lemma backoff_loop_closed iters d :
  0 <= d ->
  backoff_loop budget iters d =
  Z.min (d * backoff_multiplier budget ^ Z.of_nat iters) (backoff_max_secs budget).
Proof.
  destruct Hb as (_ & _ & _ & _ & _ & [Hm _] & [Hx Hx'] & _).
  revert d. induction iters as [|n IH]; intros d Hd.
  { simpl. by rewrite Z.mul_1_r. }
  cbn [backoff_loop].
  rewrite Nat2Z.inj_succ, Z.pow_succ_r, Z.mul_assoc by lia.
  generalize dependent (backoff_multiplier budget); intros m Hm IH.
  generalize dependent (backoff_max_secs budget); intros cap Hx Hx' IH.
  unfold u64_saturating_mul.
  assert (Hdm : 0 <= d * m) by (by apply Z.mul_nonneg_nonneg).
  destruct (cap <=? Z.min (d * m) u64_max) eqn:E; zbool.
  - destruct (Z.eq_dec m 0) as [->|Hm0]; [lia|].
    pose proof (Z.pow_pos_nonneg m (Z.of_nat n)).
    assert (Hp : 1 <= m ^ Z.of_nat n) by lia.
    apply (Z.mul_le_mono_nonneg_l _ _ (d * m)) in Hp; lia.
  - rewrite (Z.min_l (d * m)) by lia. by apply IH.
Qed.

Lemma backoff_secs_le attempt : backoff_secs budget attempt <= backoff_max_secs budget.
Proof.
  unfold backoff_secs. rewrite backoff_loop_closed; [lia|].
  destruct Hb as (_ & _ & _ & _ & H & _). mach.
Qed.

End Backoff.

(** ** Counter invariant *)

Section FoldFacts.
Context {Id : Type} `{Countable Id}.
Variable budget : Budget.
Hypothesis Hb : Budget_ok budget.
Implicit Types (c : Counters Id) (ev : AttemptEvent Id) (fleet : FleetView Id).

(** Every counter is a [u32], and the three capped ones stay under their cap. *)
Definition counters_ok c : Prop :=
  0 <= count c <= max_retries budget /\
  0 <= infra_count c <= max_infra_retries budget /\
  0 <= timeout_count c <= max_timeout_retries budget /\
  u32_ok (exempt_infra_count c) /\ u32_ok (failure_count c).

Lemma counters_ok_default : counters_ok Counters_default.
Proof. destruct Hb as (?&?&?&?&_). unfold counters_ok. simpl. mach. Qed.

Lemma apply_ok c ev fleet :
  counters_ok c -> counters_ok (fst (apply c ev budget fleet)).
Proof.
  destruct Hb as (?&?&?&?&_). intros (?&?&?&?&?).
  apply_cases ev; unfold counters_ok; cbn;
    try (destruct executor; cbn in *);
    try rewrite (u32_incr_below _ (max_retries budget)) by mach;
    try rewrite (u32_incr_below _ (max_infra_retries budget)) by mach;
    try rewrite (u32_incr_below _ (max_timeout_retries budget)) by mach;
    split_and!; auto with mach; mach.
Qed.

(** A terminal verdict names a budget that is at its bound in the counters it
    was returned with, and every poison stamps [poisoned_at]. *)
Definition verdict_justified fleet (s : Counters Id * Verdict) : Prop :=
  let c := fst s in
  match snd s with
  | Verdict.Requeue => True
  | Verdict.Poison PoisonReason.Threshold =>
      is_Some (poisoned_at c) /\ poison_threshold_reached c budget = true
  | Verdict.Poison PoisonReason.FleetExhausted =>
      is_Some (poisoned_at c) /\ exhausts_fleet (failed_builders c) fleet = true
  | Verdict.Poison PoisonReason.TransientBudget =>
      is_Some (poisoned_at c) /\ max_retries budget <= count c
  | Verdict.Poison PoisonReason.InfraBudget =>
      is_Some (poisoned_at c) /\ max_infra_retries budget <= infra_count c
  | Verdict.Poison PoisonReason.ExemptInfraBudget =>
      is_Some (poisoned_at c) /\ max_exempt_infra_retries budget <= exempt_infra_count c
  | Verdict.Poison PoisonReason.Permanent
  | Verdict.Poison PoisonReason.ComputeBoundAtCap => is_Some (poisoned_at c)
  | Verdict.Cancel => max_timeout_retries budget <= timeout_count c
  | Verdict.TtlExpire => False
  end.

Lemma apply_justified c ev fleet :
  verdict_justified fleet (apply c ev budget fleet).
Proof.
  apply_cases ev; unfold verdict_justified; cbn;
    try (destruct executor; cbn in *); split_and?; eauto; lia.
Qed.

(** The threshold gates an executor-variant conclusion (E3a): [Permanent] is
    never reached on first observation. *)
Lemma apply_variant_permanent c t executor at_cap fleet :
  let s := apply c (AttemptEvent.ExecutorVariant t executor at_cap) budget fleet in
  snd s = Verdict.Poison PoisonReason.Permanent ->
  poison_threshold_reached (fst s) budget = true.
Proof. unfold_apply. cbn. split_ifs; cbn; intros; first [assumption | congruence]. Qed.


(** ** Lifting to whole histories *)

Lemma fold_loop_ok initial evs fleet :
  counters_ok initial -> counters_ok (fst (fold_loop initial evs budget fleet)).
Proof.
  intros H0. unfold fold_loop.
  apply (fold_left_ind _ (fun s => counters_ok (fst s))); [done|].
  intros s ev. apply apply_ok.
Qed.

Lemma fold_loop_justified initial evs fleet :
  verdict_justified fleet (fold_loop initial evs budget fleet).
Proof.
  unfold fold_loop.
  apply (fold_left_ind _ (verdict_justified fleet)); [done|].
  intros s ev _. apply apply_justified.
Qed.

Lemma fold_loop_snoc initial evs ev fleet :
  fold_loop initial (evs ++ [ev]) budget fleet =
  apply (fst (fold_loop initial evs budget fleet)) ev budget fleet.
Proof. unfold fold_loop. by rewrite fold_left_app. Qed.

End FoldFacts.
