(* ===== verification/RetryBounds.v ===== *)
(** * Retry kernel: how long a derivation can keep being requeued

    Theorems about [apply] and [reference_fold] of
    [src/rio-retry-kernel/src/lib.rs] over whole histories: the closed form of
    the backoff curve, and explicit bounds on the number of charged events a
    reset-free history can hold while every verdict along it is [Requeue], and
    the exact verdict on a history whose executions end without a report. *)

From S2P Require Import Prelude RetryTypes RetryFold.

(** [Budget::backoff_secs] is the documented curve
    [min(base * mult^attempt, cap)] for every retry index, despite the
    saturating product and the early return of its loop. *)
Theorem backoff_secs_closed (budget : Budget) (attempt : Z) :
  Budget_ok budget -> 0 <= attempt ->
  backoff_secs budget attempt =
  Z.min (backoff_base_secs budget * backoff_multiplier budget ^ attempt)
    (backoff_max_secs budget).
Proof.
  intros Hb Ha. unfold backoff_secs.
  rewrite backoff_loop_closed, Z2Nat.id; [done..|].
  destruct Hb as (_&_&_&_&H&_). mach.
Qed.

Lemma backoff_secs_closed_witness :
  backoff_secs Budget_default 4 = Z.min (5 * 2 ^ 4) 300.
Proof.
  apply (backoff_secs_closed Budget_default 4); [|lia].
  unfold Budget_ok. simpl. mach.
Defined.

Section Bounds.
Context {Id : Type} `{Countable Id}.
Implicit Types (c : Counters Id) (ev : AttemptEvent Id) (evs : list (AttemptEvent Id))
  (fleet : FleetView Id).

(** Which events charge which counter. *)
Definition charges_retry ev : bool :=
  match ev with
  | AttemptEvent.Transient _ _ | AttemptEvent.ExecutorVariant _ _ _ => true
  | _ => false
  end.
Definition charges_timeout ev : bool :=
  match ev with
  | AttemptEvent.WorkerTimeout _ _ | AttemptEvent.ControllerDeadlineExceeded _ _ => true
  | _ => false
  end.
Definition charges_exempt ev : bool :=
  match ev with
  | AttemptEvent.Infra _ _ exempt _ => exempt
  | AttemptEvent.ControllerTermination _ _ promoted at_cap => promoted && negb at_cap
  | _ => false
  end.
Definition charges_infra ev : bool :=
  match ev with
  | AttemptEvent.Infra _ _ exempt _ => negb exempt
  | AttemptEvent.ControllerTermination _ _ _ at_cap => at_cap
  | _ => false
  end.
Definition charges_flat ev : bool :=
  match ev with
  | AttemptEvent.Transient _ _ | AttemptEvent.ExecutorVariant _ _ _
  | AttemptEvent.BackstopTimeout _ _ | AttemptEvent.EstablishedCrash _ _ => true
  | _ => false
  end.
(** The executor an event adds to the exclusion set. *)
Definition charged_executor ev : option Id :=
  match ev with
  | AttemptEvent.Transient _ e | AttemptEvent.ExecutorVariant _ e _
  | AttemptEvent.Permanent _ e | AttemptEvent.BackstopTimeout _ e
  | AttemptEvent.EstablishedCrash _ e => e
  | _ => None
  end.

Definition tally (f : AttemptEvent Id -> bool) evs : Z :=
  Z.of_nat (length (List.filter f evs)).

Definition charged_executors evs : gset Id := list_to_set (omap charged_executor evs).

(** Every prefix of the history folds to [Requeue]. *)
Definition all_requeue budget fleet evs : Prop :=
  forall pre, pre `prefix_of` evs ->
    snd (fold_loop Counters_default pre budget fleet) = Verdict.Requeue.

Lemma tally_snoc f evs ev :
  tally f (evs ++ [ev]) = tally f evs + (if f ev then 1 else 0).
Proof.
  unfold tally. rewrite filter_app_bool, length_app. simpl.
  destruct (f ev); simpl; lia.
Qed.

Lemma tally_nonneg f evs : 0 <= tally f evs.
Proof. unfold tally. lia. Qed.

Lemma charged_executors_snoc evs ev :
  charged_executors (evs ++ [ev]) =
  match charged_executor ev with
  | Some e => {[ e ]} ∪ charged_executors evs
  | None => charged_executors evs
  end.
Proof.
  unfold charged_executors. rewrite omap_app, list_to_set_app_L. simpl.
  destruct (charged_executor ev); simpl; set_solver.
Qed.

(** What the counters record of a reset-free history on which no budget has
    tripped. *)
Definition counters_track budget evs c : Prop :=
  count c = tally charges_retry evs /\
  timeout_count c = tally charges_timeout evs /\
  exempt_infra_count c = tally charges_exempt evs /\
  tally charges_exempt evs <= Z.max 0 (max_exempt_infra_retries budget - 1) /\
  tally charges_infra evs <=
    max_infra_retries budget * (tally charges_retry evs + tally charges_timeout evs)
    + infra_count c /\
  failed_builders c = charged_executors evs /\
  (if require_distinct_workers budget
   then Z.of_nat (size (charged_executors evs)) <= Z.max 0 (poison_threshold budget - 1)
   else failure_count c = tally charges_flat evs /\
        tally charges_flat evs <= Z.max 0 (poison_threshold budget - 1)).

Lemma counters_track_default budget : counters_track budget [] Counters_default.
Proof.
  unfold counters_track, tally.
  replace (charged_executors []) with (∅ : gset Id) by done.
  rewrite size_empty. cbn.
  destruct (require_distinct_workers budget); split_and!; done || lia.
Qed.

Lemma insert_builder_failed executor c :
  failed_builders (insert_builder executor c) =
  match executor with
  | Some e => {[ e ]} ∪ failed_builders c
  | None => failed_builders c
  end.
Proof. by destruct executor. Qed.

Lemma apply_failed_builders c ev budget fleet :
  is_reset_event ev = false ->
  failed_builders (fst (apply c ev budget fleet)) =
  match charged_executor ev with
  | Some e => {[ e ]} ∪ failed_builders c
  | None => failed_builders c
  end.
Proof. intros Hr. apply_cases ev; try done; by destruct executor. Qed.

Lemma apply_failure_count c ev budget fleet :
  is_reset_event ev = false ->
  failure_count (fst (apply c ev budget fleet)) =
  if charges_flat ev then u32_wrapping_add (failure_count c) 1 else failure_count c.
Proof. intros Hr. apply_cases ev; try done; by destruct executor. Qed.

(** A requeued event that touches the exclusion budget left it below the
    threshold. *)
Lemma apply_requeue_below c ev budget fleet :
  snd (apply c ev budget fleet) = Verdict.Requeue ->
  charges_flat ev = true \/ is_Some (charged_executor ev) ->
  poison_threshold_reached (fst (apply c ev budget fleet)) budget = false.
Proof.
  intros Hq Hf. apply_cases ev; try done; destruct Hf as [|[]]; done.
Qed.

Lemma poison_threshold_flat c budget :
  require_distinct_workers budget = false ->
  poison_threshold_reached c budget = false ->
  failure_count c < poison_threshold budget.
Proof. unfold poison_threshold_reached. intros -> ?. by zbool. Qed.

Lemma poison_threshold_distinct c budget :
  require_distinct_workers budget = true ->
  u32_ok (Z.of_nat (size (failed_builders c))) ->
  poison_threshold_reached c budget = false ->
  Z.of_nat (size (failed_builders c)) < poison_threshold budget.
Proof.
  unfold poison_threshold_reached. intros -> Hok Hp.
  rewrite u32_of_Z_small in Hp by done. by zbool.
Qed.

(** The tallied counters advance with the event's own charge. *)
Lemma apply_requeue_counts c ev budget fleet :
  Budget_ok budget -> counters_ok budget c ->
  is_reset_event ev = false ->
  snd (apply c ev budget fleet) = Verdict.Requeue ->
  exempt_infra_count c <= Z.max 0 (max_exempt_infra_retries budget - 1) ->
  let c' := fst (apply c ev budget fleet) in
  let one (f : AttemptEvent Id -> bool) := if f ev then 1 else 0 in
  count c' = count c + one charges_retry /\
  timeout_count c' = timeout_count c + one charges_timeout /\
  exempt_infra_count c' = exempt_infra_count c + one charges_exempt /\
  exempt_infra_count c' <= Z.max 0 (max_exempt_infra_retries budget - 1) /\
  infra_count c + one charges_infra
    <= max_infra_retries budget * (one charges_retry + one charges_timeout) + infra_count c'.
Proof.
  intros (?&?&?&?&_) (?&?&?&?&_) Hr Hq Hx.
  apply_cases ev; try done; try (destruct executor; cbn in *);
    try rewrite (u32_incr_below _ (max_retries budget)) in * by mach;
    try rewrite (u32_incr_below _ (max_infra_retries budget)) in * by mach;
    try rewrite (u32_incr_below _ (max_timeout_retries budget)) in * by mach;
    try rewrite (u32_incr_below (exempt_infra_count c) u32_max) in * by mach;
    split_and!; mach.
Qed.

Lemma size_union_singleton_le (x : Id) (X : gset Id) :
  (size ({[ x ]} ∪ X) <= S (size X))%nat.
Proof.
  rewrite size_union_alt, size_singleton.
  pose proof (subseteq_size (X ∖ {[ x ]}) X ltac:(set_solver)). lia.
Qed.

(** The exclusion budget after a requeued event. *)
Lemma requeue_exclusion_below budget fleet evs ev c :
  Budget_ok budget ->
  counters_track budget evs c ->
  is_reset_event ev = false ->
  snd (apply c ev budget fleet) = Verdict.Requeue ->
  let c' := fst (apply c ev budget fleet) in
  failed_builders c' = charged_executors (evs ++ [ev]) /\
  (if require_distinct_workers budget
   then Z.of_nat (size (charged_executors (evs ++ [ev])))
          <= Z.max 0 (poison_threshold budget - 1)
   else failure_count c' = tally charges_flat (evs ++ [ev]) /\
        tally charges_flat (evs ++ [ev]) <= Z.max 0 (poison_threshold budget - 1)).
Proof.
  intros (_&_&_&_&_&_&_&Ht&_) (_&_&_&_&_&Hfb&Hthr) Hr Hq. cbn zeta.
  pose proof (apply_requeue_below c ev budget fleet Hq) as Hlow.
  pose proof (apply_failed_builders c ev budget fleet Hr) as Hfb'.
  pose proof (apply_failure_count c ev budget fleet Hr) as Hfc'.
  assert (failed_builders (fst (apply c ev budget fleet)) = charged_executors (evs ++ [ev]))
    as Hset by (rewrite charged_executors_snoc, Hfb', Hfb; by destruct (charged_executor ev)).
  split; [done|].
  destruct (require_distinct_workers budget) eqn:Hd.
  - destruct (charged_executor ev) as [e|] eqn:He.
    + rewrite <- Hset. rewrite charged_executors_snoc, He in Hset.
      pose proof (size_union_singleton_le e (charged_executors evs)).
      pose proof (poison_threshold_distinct (fst (apply c ev budget fleet)) budget Hd) as Hp.
      rewrite Hset in *. specialize (Hp ltac:(mach) (Hlow ltac:(right; eauto))). lia.
    + rewrite charged_executors_snoc, He. done.
  - destruct Hthr as [Hcnt Hle]. pose proof (tally_nonneg charges_flat evs).
    rewrite tally_snoc, Hfc', Hcnt.
    destruct (charges_flat ev) eqn:Hf; [|split; lia].
    pose proof (poison_threshold_flat _ budget Hd (Hlow (or_introl eq_refl))) as Hp.
    rewrite Hfc', Hcnt, (u32_incr_below _ u32_max) in * by mach. split; lia.
Qed.

Lemma counters_track_step budget fleet evs ev c :
  Budget_ok budget -> counters_ok budget c ->
  counters_track budget evs c ->
  is_reset_event ev = false ->
  snd (apply c ev budget fleet) = Verdict.Requeue ->
  counters_track budget (evs ++ [ev]) (fst (apply c ev budget fleet)).
Proof.
  intros Hb Hok Htr Hr Hq.
  pose proof (requeue_exclusion_below budget fleet evs ev c Hb Htr Hr Hq) as [Hf Hx].
  destruct Htr as (H1&H2&H3&H4&H5&_).
  destruct (apply_requeue_counts c ev budget fleet) as (G1&G2&G3&G4&G5); [done..|lia|].
  unfold counters_track. rewrite !tally_snoc in *.
  split_and!; [lia..| |done|done].
  rewrite Z.mul_add_distr_l in *. lia.
Qed.

Lemma all_requeue_track budget fleet evs :
  Budget_ok budget -> Forall (fun ev => is_reset_event ev = false) evs ->
  all_requeue budget fleet evs ->
  counters_track budget evs (fst (fold_loop Counters_default evs budget fleet)).
Proof.
  intros Hb. induction evs as [|ev evs IH] using rev_ind; intros Hr Hq.
  { apply counters_track_default. }
  rewrite Forall_app, Forall_singleton in Hr. destruct Hr as [Hr Hev].
  rewrite fold_loop_snoc. apply counters_track_step; [done| | |exact Hev|].
  - apply fold_loop_ok; [done|]. by apply counters_ok_default.
  - apply IH; [done|]. intros pre Hpre. apply Hq. by apply prefix_app_r.
  - rewrite <- fold_loop_snoc. by apply Hq.
Qed.

(** *** Executions that end without a report *)

(** The events of a derivation whose executors die silently: dispatches,
    disconnects that nothing has classified yet, and deaths established later. *)
Definition reportless ev : bool :=
  match ev with
  | AttemptEvent.Dispatched _ _ | AttemptEvent.Disconnect _ _
  | AttemptEvent.BackstopTimeout _ _ | AttemptEvent.EstablishedCrash _ _ => true
  | _ => false
  end.

(** What the threshold is compared with. *)
Definition exclusion_charge budget evs : Z :=
  if require_distinct_workers budget
  then Z.of_nat (size (charged_executors evs)) else tally charges_flat evs.

(** The verdict on the last event, by the charge of the whole history. *)
Definition silent_verdict budget evs (now : AbsTime) : Verdict :=
  match last evs with
  | None | Some (AttemptEvent.Dispatched _ _) => Verdict.Requeue
  | Some ev =>
      if poison_threshold budget <=? exclusion_charge budget evs then
        if poison_ttl_secs budget <? u64_saturating_sub now (AttemptEvent.event_at ev)
        then Verdict.TtlExpire else Verdict.Poison PoisonReason.Threshold
      else Verdict.Requeue
  end.

Lemma reportless_not_reset ev : reportless ev = true -> is_reset_event ev = false.
Proof. by destruct ev. Qed.

Lemma tally_length f evs : tally f evs <= Z.of_nat (length evs).
Proof. unfold tally. pose proof (List.filter_length_le f evs). lia. Qed.

Lemma charged_executors_size evs : Z.of_nat (size (charged_executors evs)) <= Z.of_nat (length evs).
Proof.
  induction evs as [|ev evs IH] using rev_ind; [done|]. rewrite charged_executors_snoc, length_app. cbn [length].
  destruct (charged_executor ev) as [e|]; [|lia]. pose proof (size_union_singleton_le e (charged_executors evs)). lia.
Qed.

(** The counters of the exclusion budget over a history without resets. *)
Lemma exclusion_counters budget fleet evs :
  Forall (fun ev => is_reset_event ev = false) evs -> Z.of_nat (length evs) <= u32_max ->
  let c := fst (fold_loop Counters_default evs budget fleet) in
  failed_builders c = charged_executors evs /\ failure_count c = tally charges_flat evs.
Proof.
  induction evs as [|ev evs IH] using rev_ind; [done|]. rewrite Forall_app, Forall_singleton, length_app. cbn [length].
  intros [Hr Hev] Hl. destruct IH as [Hf Hc]; [done|lia|]. cbv zeta. rewrite fold_loop_snoc, apply_failed_builders, apply_failure_count by done.
  rewrite Hf, Hc, charged_executors_snoc, tally_snoc. split; [done|]. pose proof (tally_length charges_flat evs). pose proof (tally_nonneg charges_flat evs).
  destruct (charges_flat ev); [|lia]. rewrite u32_wrapping_add_small by mach. done.
Qed.

Lemma threshold_of_charge budget evs c :
  failed_builders c = charged_executors evs -> failure_count c = tally charges_flat evs -> Z.of_nat (length evs) <= u32_max ->
  poison_threshold_reached c budget = (poison_threshold budget <=? exclusion_charge budget evs).
Proof.
  intros Hf Hc Hl. unfold poison_threshold_reached, exclusion_charge. rewrite Hf, Hc. destruct (require_distinct_workers budget); [|done].
  pose proof (charged_executors_size evs). by rewrite u32_of_Z_small by mach.
Qed.

(** One such event answers by the threshold of the counters that it leaves. *)
Lemma apply_reportless c ev budget fleet :
  reportless ev = true ->
  let s := apply c ev budget fleet in
  count (fst s) = count c /\ infra_count (fst s) = infra_count c /\ timeout_count (fst s) = timeout_count c /\
  exempt_infra_count (fst s) = exempt_infra_count c /\
  match ev with
  | AttemptEvent.Dispatched _ _ => snd s = Verdict.Requeue
  | _ => if poison_threshold_reached (fst s) budget
         then snd s = Verdict.Poison PoisonReason.Threshold /\ poisoned_at (fst s) = Some (AttemptEvent.event_at ev)
         else snd s = Verdict.Requeue
  end.
Proof.
  intros Hr. destruct ev; try done; unfold_apply; try destruct executor; cbn zeta;
    try (destruct (poison_threshold_reached _ _) eqn:E); cbn; unfold poison_threshold_reached in *; cbn in *; rewrite ?E; done.
Qed.

End Bounds.

(** C21: the charged attempts of a derivation are bounded.  On any history
    without resets every prefix of which folds to [Requeue], for a budget whose
    fields are within their machine widths, the number of retry-charging
    events is at most [max_retries], of timeouts at most
    [max_timeout_retries], of exempt infra events below
    [max_exempt_infra_retries] (none, when that cap is zero), and of counted
    infra events at most [max_infra_retries] per unbroken streak, with at most
    [1 + max_retries + max_timeout_retries] streaks; the exclusion budget
    (the distinct recorded executors when the budget requires distinct workers,
    the flat failures otherwise) stays below [poison_threshold] (at zero, when
    the threshold is zero).  The theorem
    bounds these classes of events only: an event that charges none of them, such
    as a dispatch, an unclassified disconnect, or an established death without a
    recorded executor where distinct workers count, may occur any number of
    times. *)
Theorem attempts_bounded {Id : Type} `{Countable Id} (budget : Budget)
    (fleet : FleetView Id) (evs : list (AttemptEvent Id)) :
  Budget_ok budget ->
  Forall (fun ev => is_reset_event ev = false) evs ->
  all_requeue budget fleet evs ->
  tally charges_retry evs <= max_retries budget /\
  tally charges_timeout evs <= max_timeout_retries budget /\
  tally charges_exempt evs <= Z.max 0 (max_exempt_infra_retries budget - 1) /\
  tally charges_infra evs <=
    max_infra_retries budget * (1 + max_retries budget + max_timeout_retries budget) /\
  (if require_distinct_workers budget
   then Z.of_nat (size (charged_executors evs)) <= Z.max 0 (poison_threshold budget - 1)
   else tally charges_flat evs <= Z.max 0 (poison_threshold budget - 1)).
Proof.
  intros Hb Hr Hq.
  pose proof (all_requeue_track budget fleet evs Hb Hr Hq) as (H1&H2&H3&H4&H5&_&Hx).
  pose proof (fold_loop_ok budget Hb Counters_default evs fleet
    (counters_ok_default budget Hb)) as (B1&B2&B3&_).
  split_and!; [lia|lia|done| |destruct (require_distinct_workers budget); naive_solver].
  assert (tally charges_retry evs + tally charges_timeout evs
    <= max_retries budget + max_timeout_retries budget) as Hs by lia.
  apply (Z.mul_le_mono_nonneg_l _ _ (max_infra_retries budget)) in Hs; lia.
Qed.

Lemma attempts_bounded_witness :
  let evs := [AttemptEvent.Infra 10 (Some 1%nat) false false;
              AttemptEvent.Transient 20 (Some 1%nat);
              AttemptEvent.WorkerTimeout 30 None;
              AttemptEvent.Transient 40 (Some 2%nat)] in
  tally charges_retry evs <= 2 /\ tally charges_infra evs <= 10 * (1 + 2 + 4).
Proof.
  intros evs.
  destruct (attempts_bounded Budget_default (FleetView_default (Id := nat)) evs)
    as (H1&_&_&H4&_).
  - unfold Budget_ok; simpl; mach.
  - by repeat constructor.
  - intros pre [suf Hsuf].
    do 5 (destruct pre as [|? pre]; [reflexivity|]; injection Hsuf as <- Hsuf || done).
  - split; [exact H1|exact H4].
Defined.

(** C40: what executions that die without a report cost.  Over any history of
    dispatches, disconnects and established deaths, of fewer than [2^32] events,
    the fold charges the exclusion budget and nothing else: the excluded executors
    are exactly those that an established death recorded, the flat counter is the
    number of established deaths, and every retry counter stays zero.  A dispatch
    is answered [Requeue]; a disconnect or a death is answered by the charge so
    far: below [poison_threshold] it is requeued, and from the threshold on it
    poisons the derivation, or is answered [TtlExpire] when more than
    [poison_ttl_secs] have passed since it.  The charge is the number of distinct recorded executors when the budget requires
    distinct workers, so there a death without a recorded executor is free, and
    the number of established deaths otherwise; an unestablished disconnect is
    always free. *)
Theorem silent_deaths_exact {Id : Type} `{Countable Id} (budget : Budget)
    (fleet : FleetView Id) (evs : list (AttemptEvent Id)) (now : AbsTime) :
  Forall (fun ev => reportless ev = true) evs -> Z.of_nat (length evs) <= u32_max ->
  let s := reference_fold evs now budget fleet in
  failed_builders (fst s) = charged_executors evs /\
  failure_count (fst s) = tally charges_flat evs /\
  count (fst s) = 0 /\ infra_count (fst s) = 0 /\ timeout_count (fst s) = 0 /\ exempt_infra_count (fst s) = 0 /\
  snd s = silent_verdict budget evs now.
Proof.
  intros Hr Hl. cbv zeta. unfold reference_fold, fold_events. cbn zeta. cbn [fst snd].
  destruct (exclusion_counters budget fleet evs) as [Hf Hc]; [eapply Forall_impl; [exact Hr|apply reportless_not_reset]|done|].
  pose proof (threshold_of_charge budget evs _ Hf Hc Hl) as Ht. split; [done|]. split; [done|].
  assert (Hz : let c := fst (fold_loop Counters_default evs budget fleet) in
    count c = 0 /\ infra_count c = 0 /\ timeout_count c = 0 /\ exempt_infra_count c = 0).
  { clear -Hr. induction evs as [|ev evs IH] using rev_ind; [done|]. rewrite Forall_app, Forall_singleton in Hr. destruct Hr as [Hr Hev].
    cbv zeta. rewrite fold_loop_snoc. destruct (apply_reportless (fst (fold_loop Counters_default evs budget fleet)) ev budget fleet Hev) as (-> & -> & -> & -> & _).
    by apply IH. }
  cbv zeta in Hz. do 4 (split; [by apply Hz|]). clear Hz Hf Hc.
  destruct evs as [|ev evs _] using rev_ind; [done|]. rewrite Forall_app, Forall_singleton in Hr. destruct Hr as [_ Hev].
  unfold silent_verdict. rewrite last_snoc, <- Ht, fold_loop_snoc. clear Ht.
  destruct (apply_reportless (fst (fold_loop Counters_default evs budget fleet)) ev budget fleet Hev) as (_ & _ & _ & _ & Hv).
  unfold ttl_downgrade. destruct ev; try done;
    (destruct (poison_threshold_reached _ _); [destruct Hv as [Hv Hp]; rewrite Hv, Hp|rewrite Hv]; done).
Qed.

Lemma silent_deaths_exact_witness :
  let crash t e := AttemptEvent.EstablishedCrash t e in
  let evs := [AttemptEvent.Dispatched 1 (Some 1%nat); AttemptEvent.Disconnect 2 (Some 1%nat); crash 5 (Some 1%nat); crash 6 None;
              AttemptEvent.Dispatched 7 (Some 2%nat); crash 9 (Some 2%nat); crash 11 (Some 2%nat); crash 12 (Some 3%nat)] in
  snd (reference_fold (take 7 evs) 12 Budget_default FleetView_default) = Verdict.Requeue /\
  snd (reference_fold evs 12 Budget_default FleetView_default) = Verdict.Poison PoisonReason.Threshold /\
  snd (reference_fold evs (13 + poison_ttl_secs Budget_default) Budget_default FleetView_default) = Verdict.TtlExpire.
Proof.
  intros crash evs. split_and!.
  - refine (proj2 (proj2 (proj2 (proj2 (proj2 (proj2 (silent_deaths_exact Budget_default FleetView_default (take 7 evs) 12 _ _))))))); [by repeat constructor|by vm_compute].
  - refine (proj2 (proj2 (proj2 (proj2 (proj2 (proj2 (silent_deaths_exact Budget_default FleetView_default evs 12 _ _))))))); [by repeat constructor|by vm_compute].
  - refine (proj2 (proj2 (proj2 (proj2 (proj2 (proj2 (silent_deaths_exact Budget_default FleetView_default evs (13 + poison_ttl_secs Budget_default) _ _)))))));
      [by repeat constructor|by vm_compute].
Defined.
