(* ===== verification/RetryDecide.v ===== *)
(** * Retry kernel: the decision surface

    [decide], [row_to_event], the bounded-uncharged run law ([run_step],
    [BOUNDED_UNCHARGED]) and the two worker-report admissions of
    [src/rio-retry-kernel/src/lib.rs].  [decide] folds ledger rows through the
    [apply] arms of RetryFold; the loop body is [decide_step], its three
    mutable locals the components of [DecideState]. *)

From S2P Require Import Prelude RetryTypes RetryFold.

Definition WORKER_ABORT_FREE_CLOSES : Z := 3.
Definition STORE_DEGRADED_FREE_RUN : Z := 12.

(** The registry of uncharged outcome classes and their per-class bounds. *)
Definition BOUNDED_UNCHARGED : list (OutcomeClass * Z) :=
  [(OutcomeClass.Disconnected, WORKER_ABORT_FREE_CLOSES);
   (OutcomeClass.StoreDegraded, STORE_DEGRADED_FREE_RUN)].

Module WorkerAbortAdmission.
Inductive WorkerAbortAdmission : Type := Uncharged | ChargedFallthrough.
#[global] Instance WorkerAbortAdmission_eq_dec : EqDecision WorkerAbortAdmission.
Proof. solve_decision. Defined.
End WorkerAbortAdmission.
Abbreviation WorkerAbortAdmission := WorkerAbortAdmission.WorkerAbortAdmission.

Module RunStep.
Inductive RunStep : Type := LaneSkip | Pace | Extend | Break.
End RunStep.
Abbreviation RunStep := RunStep.RunStep.

Section RunLaw.
Context {Id : Type}.
Implicit Types (r : LedgerRow Id) (rows : list (LedgerRow Id)) (class : OutcomeClass).

(** [is_bounded_uncharged_row]: membership in the trailing union run. *)
Definition is_bounded_uncharged_row r : bool :=
  is_kind AttemptKind.Build r
  && is_event AttemptEventKind.Attempt r
  && is_party ReportingParty.Worker r
  && existsb (fun p => bool_decide (fst p = outcome_class r)) BOUNDED_UNCHARGED.

(** [run_step]: one row against the run law for [paced_class]. *)
Definition run_step r (paced_class : OutcomeClass) : RunStep :=
  if negb (is_kind AttemptKind.Build r) then RunStep.LaneSkip
  else if negb (is_bounded_uncharged_row r) then RunStep.Break
  else if is_class paced_class r then RunStep.Pace
  else RunStep.Extend.

(** The reverse scan of [trailing_uncharged_class_count]; [count] is a [u32]. *)
Fixpoint uncharged_scan (rev_rows : list (LedgerRow Id)) class (count : Z) : Z :=
  match rev_rows with
  | [] => count
  | r :: rest =>
      match run_step r class with
      | RunStep.LaneSkip => uncharged_scan rest class count
      | RunStep.Break => count
      | RunStep.Pace => uncharged_scan rest class (u32_wrapping_add count 1)
      | RunStep.Extend => uncharged_scan rest class count
      end
  end.

Definition trailing_uncharged_class_count rows class : Z :=
  uncharged_scan (rev rows) class 0.

(** [admit_bounded_uncharged] and the two public admissions. *)
Definition admit_bounded_uncharged rows class (bound : Z) : WorkerAbortAdmission :=
  if bound <=? trailing_uncharged_class_count rows class
  then WorkerAbortAdmission.ChargedFallthrough
  else WorkerAbortAdmission.Uncharged.

Definition admit_worker_abort rows (bound : Z) : WorkerAbortAdmission :=
  admit_bounded_uncharged rows OutcomeClass.Disconnected bound.

Definition admit_store_degraded rows (bound : Z) : WorkerAbortAdmission :=
  admit_bounded_uncharged rows OutcomeClass.StoreDegraded bound.

(** [row_to_event]: a reset row maps by its class, an attempt row by class and
    reporting party; the remaining classes fold to no event. *)
Definition row_to_event r : option (AttemptEvent Id) :=
  let t := row_at r in
  let executor := row_executor r in
  if is_event AttemptEventKind.Reset r then
    match outcome_class r with
    | OutcomeClass.ResubmitReset => Some (AttemptEvent.ResubmitReset t)
    | OutcomeClass.CacheHitClear => Some (AttemptEvent.CacheHitClear t)
    | OutcomeClass.PoisonCleared => Some (AttemptEvent.PoisonCleared t)
    | _ => None
    end
  else
    let worker_reported := is_party ReportingParty.Worker r in
    match outcome_class r with
    | OutcomeClass.Transient => Some (AttemptEvent.Transient t executor)
    | OutcomeClass.Infra | OutcomeClass.ExemptInfra =>
        let exempt := is_class OutcomeClass.ExemptInfra r in
        if worker_reported
        then Some (AttemptEvent.Infra t executor exempt (floor_at_cap r))
        else Some (AttemptEvent.ControllerTermination t executor
                     (exempt || floor_promoted r) (floor_at_cap r))
    | OutcomeClass.Timeout =>
        if worker_reported
        then Some (AttemptEvent.WorkerTimeout t executor)
        else Some (AttemptEvent.ControllerDeadlineExceeded t executor)
    | OutcomeClass.Permanent => Some (AttemptEvent.Permanent t executor)
    | OutcomeClass.ExecutorVariant =>
        Some (AttemptEvent.ExecutorVariant t executor (floor_at_cap r))
    | OutcomeClass.Backstop => Some (AttemptEvent.BackstopTimeout t executor)
    | OutcomeClass.Disconnected => Some (AttemptEvent.Disconnect t executor)
    | OutcomeClass.ExecutorCrash => Some (AttemptEvent.EstablishedCrash t executor)
    | OutcomeClass.Cascade | OutcomeClass.FleetExhaust => None
    | OutcomeClass.StoreDegraded => None
    | OutcomeClass.ResubmitReset | OutcomeClass.CacheHitClear
    | OutcomeClass.PoisonCleared => None
    | OutcomeClass.MaterializationUnobtainable | OutcomeClass.MaterializationInfra
    | OutcomeClass.MaterializationReset => None
    end.

End RunLaw.

Section Decide.
Context {Id : Type} `{Countable Id}.
Implicit Types (r : LedgerRow Id) (history : list (LedgerRow Id)) (budget : Budget)
  (now : AbsTime).

(** The mutable locals of [decide]: [counters], [verdict] and
    [store_degraded_run]. *)
Record DecideState : Type := mkDecideState {
  st_counters : Counters Id;
  st_verdict : Verdict;
  st_run : Z
}.

(** The pre-fold counters: a suffix that starts at a resubmit-reset row carries
    the new cycle index on the row ([u32::try_from(..).unwrap_or(0)]). *)
Definition decide_initial history : Counters Id :=
  match List.find (is_kind AttemptKind.Build) history with
  | Some first =>
      if is_event AttemptEventKind.Reset first
         && is_class OutcomeClass.ResubmitReset first
      then set_resubmit_cycles
             (u32_saturating_sub
                (if 0 <=? resubmit_cycle first then resubmit_cycle first else 0) 1)
             Counters_default
      else Counters_default
  | None => Counters_default
  end.

(** Folding the row's event, when it has one. *)
Definition fold_row budget r (s : DecideState) : DecideState :=
  match row_to_event r with
  | Some ev =>
      let cv := apply (st_counters s) ev budget FleetView_default in
      mkDecideState (fst cv) (snd cv) (st_run s)
  | None => s
  end.

(** The loop body. *)
Definition decide_step budget (s : DecideState) r : DecideState :=
  match run_step r OutcomeClass.StoreDegraded with
  | RunStep.LaneSkip => s
  | RunStep.Pace =>
      let until := u64_saturating_add (row_at r) (backoff_secs budget (st_run s)) in
      let b' :=
        match backoff_until (st_counters s) with
        | Some b => if until <? b then b else until
        | None => until
        end in
      mkDecideState (set_backoff_until (Some b') (st_counters s)) (st_verdict s)
        (u32_saturating_add (st_run s) 1)
  | RunStep.Extend => fold_row budget r s
  | RunStep.Break =>
      fold_row budget r (mkDecideState (st_counters s) (st_verdict s) 0)
  end.

Definition decide_loop history budget : DecideState :=
  fold_left (decide_step budget) history
    (mkDecideState (decide_initial history) Verdict.Requeue 0).

Definition decide_fn history budget now : Decision_t Id :=
  let s := decide_loop history budget in
  {| d_verdict := ttl_downgrade (st_counters s) (st_verdict s) now budget;
     d_exclusion := failed_builders (st_counters s);
     d_backoff_until := backoff_until (st_counters s);
     d_counters := st_counters s |}.

End Decide.
Arguments DecideState Id {_ _}.
