(* ===== verification/RetryContract.v ===== *)
(** * Retry kernel: the contract of [decide]

    The four [decide_*] contract clauses of [src/rio-retry-kernel/src/lib.rs]
    (there model-checked over short histories) as boolean predicates, proved
    over every history; the kind partition; and the run law that ties the
    pacing fold to the admission scan. *)

From S2P Require Import Prelude RetryTypes RetryFold RetryDecide RetryBounds.

Section Clauses.
Context {Id : Type} `{Countable Id}.
Implicit Types (d : Decision_t Id) (history : list (LedgerRow Id)) (budget : Budget).

(** Clause 1. *)
Definition decide_verdict_partition_consistent d budget (now : AbsTime) : bool :=
  let c := d_counters d in
  let stamped := bool_decide (is_Some (poisoned_at c)) in
  match d_verdict d with
  | Verdict.Requeue => true
  | Verdict.Poison PoisonReason.Threshold =>
      stamped && poison_threshold_reached c budget
  | Verdict.Poison PoisonReason.TransientBudget =>
      stamped && (max_retries budget <=? count c)
  | Verdict.Poison PoisonReason.InfraBudget =>
      stamped && (max_infra_retries budget <=? infra_count c)
  | Verdict.Poison PoisonReason.ExemptInfraBudget =>
      stamped && (max_exempt_infra_retries budget <=? exempt_infra_count c)
  | Verdict.Poison PoisonReason.Permanent => stamped
  | Verdict.Poison PoisonReason.ComputeBoundAtCap => stamped
  | Verdict.Poison PoisonReason.FleetExhausted => false
  | Verdict.Cancel => max_timeout_retries budget <=? timeout_count c
  | Verdict.TtlExpire =>
      match poisoned_at c with
      | Some p => poison_ttl_secs budget <? u64_saturating_sub now p
      | None => false
      end
  end.

(** Clause 2. *)
Definition is_exempt_charge_row (r : LedgerRow Id) : bool :=
  is_event AttemptEventKind.Attempt r
  && ((is_party ReportingParty.Worker r && is_class OutcomeClass.ExemptInfra r)
      || (negb (is_party ReportingParty.Worker r)
          && negb (floor_at_cap r)
          && (is_class OutcomeClass.ExemptInfra r
              || (is_class OutcomeClass.Infra r && floor_promoted r)))).

Definition last_build_row history : option (LedgerRow Id) :=
  List.find (is_kind AttemptKind.Build) (rev history).

Definition decide_requeue_within_caps d history budget : bool :=
  let last_is_exempt_charge :=
    match last_build_row history with
    | Some r => is_exempt_charge_row r
    | None => false
    end in
  let c := d_counters d in
  (count c <=? max_retries budget)
  && (infra_count c <=? max_infra_retries budget)
  && (timeout_count c <=? max_timeout_retries budget)
  && (negb (bool_decide (d_verdict d = Verdict.Requeue))
      || negb last_is_exempt_charge
      || (exempt_infra_count c <? max_exempt_infra_retries budget)).

(** Clause 3. *)
Definition is_build_reset (r : LedgerRow Id) : bool :=
  is_kind AttemptKind.Build r && is_event AttemptEventKind.Reset r.

Definition charges_threshold_row (r : LedgerRow Id) : bool :=
  is_event AttemptEventKind.Attempt r
  && match outcome_class r with
     | OutcomeClass.Transient | OutcomeClass.Permanent | OutcomeClass.ExecutorVariant
     | OutcomeClass.Backstop | OutcomeClass.ExecutorCrash => true
     | _ => false
     end.

Definition rows_after_last_reset history : list (LedgerRow Id) :=
  match rposition is_build_reset history with
  | Some i => drop (S i) history
  | None => history
  end.

Definition decide_exclusion_covers_charged_attempts d history : bool :=
  forallb (fun r =>
    negb (charges_threshold_row r)
    || match row_executor r with
       | None => true
       | Some e => bool_decide (e ∈ d_exclusion d)
       end)
    (List.filter (is_kind AttemptKind.Build) (rows_after_last_reset history)).

(** Clause 4. *)
Definition decide_executor_variant_permanent_is_threshold d history budget : bool :=
  let last_is_executor_variant :=
    match last_build_row history with
    | Some r => is_event AttemptEventKind.Attempt r
                && is_class OutcomeClass.ExecutorVariant r
    | None => false
    end in
  negb (last_is_executor_variant
        && bool_decide (d_verdict d = Verdict.Poison PoisonReason.Permanent))
  || poison_threshold_reached (d_counters d) budget.

End Clauses.

(** ** The loop of [decide] *)

Section Loop.
Context {Id : Type} `{Countable Id}.
Variable budget : Budget.
Implicit Types (r : LedgerRow Id) (history : list (LedgerRow Id)) (s : DecideState Id).

Definition loop_from s history : DecideState Id := fold_left (decide_step budget) history s.

Lemma run_step_build r class :
  is_kind AttemptKind.Build r = false -> run_step r class = RunStep.LaneSkip.
Proof. unfold run_step. by intros ->. Qed.

Lemma decide_step_skip s r :
  is_kind AttemptKind.Build r = false -> decide_step budget s r = s.
Proof. intros Hk. unfold decide_step. by rewrite run_step_build. Qed.

Lemma loop_from_partition s history :
  loop_from s history = loop_from s (List.filter (is_kind AttemptKind.Build) history).
Proof. apply fold_left_filter. intros. by apply decide_step_skip. Qed.

(** The last build row decides; the other lane's rows after it are skipped. *)
Lemma loop_from_last s history r :
  last_build_row history = Some r ->
  is_kind AttemptKind.Build r = true /\
  exists pre, loop_from s history = decide_step budget (loop_from s pre) r.
Proof.
  intros [Hk [pre Hpre]]%find_rev_filter. split; [done|]. exists pre.
  rewrite loop_from_partition, Hpre. unfold loop_from. by rewrite fold_left_app.
Qed.

(** The counters and verdict of a step come from the row's event, if any. *)
Lemma decide_step_cases s r (P : DecideState Id -> Prop) :
  P s ->
  (forall run, P (mkDecideState (st_counters s) (st_verdict s) run)) ->
  (forall b run, P (mkDecideState (set_backoff_until b (st_counters s)) (st_verdict s) run)) ->
  (forall ev run, row_to_event r = Some ev ->
     P (mkDecideState (fst (apply (st_counters s) ev budget FleetView_default))
          (snd (apply (st_counters s) ev budget FleetView_default)) run)) ->
  P (decide_step budget s r).
Proof.
  intros Hs Hrun Hpace Hev. unfold decide_step, fold_row.
  destruct (run_step r _); eauto; destruct (row_to_event r); simpl; eauto.
Qed.

Definition state_pair s : Counters Id * Verdict := (st_counters s, st_verdict s).

Lemma decide_initial_backoff history :
  poisoned_at (decide_initial history) = None /\
  failed_builders (decide_initial history) = ∅ /\
  count (decide_initial history) = 0 /\ infra_count (decide_initial history) = 0 /\
  timeout_count (decide_initial history) = 0 /\
  exempt_infra_count (decide_initial history) = 0 /\
  failure_count (decide_initial history) = 0.
Proof.
  unfold decide_initial. destruct (List.find _ history); [|done].
  by destruct (is_event _ _ && _).
Qed.

Lemma loop_from_ok s history :
  Budget_ok budget -> counters_ok budget (st_counters s) ->
  counters_ok budget (st_counters (loop_from s history)).
Proof.
  intros Hb Hs. apply (fold_left_ind _ (fun s => counters_ok budget (st_counters s))); [done|].
  intros s' r Hs'. apply (decide_step_cases s' r (fun s => counters_ok budget (st_counters s)));
    auto. intros ev run _. by apply apply_ok.
Qed.

(** No event folded by [decide] ends in the fleet-exhaust reason: the fleet it
    consults is empty. *)
Lemma loop_from_justified s history :
  verdict_justified budget FleetView_default (state_pair s) ->
  verdict_justified budget FleetView_default (state_pair (loop_from s history)).
Proof.
  intros Hs.
  apply (fold_left_ind _ (fun s => verdict_justified budget FleetView_default (state_pair s)));
    [done|].
  intros s' r Hs'.
  apply (decide_step_cases s' r (fun s => verdict_justified budget FleetView_default (state_pair s)));
    auto. intros ev run _. apply apply_justified.
Qed.

Lemma exhausts_empty_fleet (failed : gset Id) :
  exhausts_fleet failed FleetView_default = false.
Proof.
  unfold exhausts_fleet. cbn. rewrite (bool_decide_eq_true_2 (∅ = ∅)) by done.
  by rewrite orb_true_r.
Qed.

End Loop.

Lemma counters_ok_initial {Id} `{Countable Id} budget (history : list (LedgerRow Id)) :
  Budget_ok budget -> counters_ok budget (decide_initial history).
Proof.
  intros (?&?&?&?&_). unfold counters_ok.
  destruct (decide_initial_backoff history) as (_&_&->&->&->&->&->). mach.
Qed.

(** whatever the history, [decide]'s verdict is consistent with the counters
    it returns: a poison is stamped and names a budget that really is at its
    bound, a cancel an exhausted timeout budget, a TTL expiry an expired stamp,
    and the fleet-exhaust reason is unreachable. *)
Theorem decide_contract_verdict {Id : Type} `{Countable Id}
    (history : list (LedgerRow Id)) (budget : Budget) (now : AbsTime) :
  decide_verdict_partition_consistent (decide_fn history budget now) budget now = true.
Proof.
  pose proof (loop_from_justified budget
    (mkDecideState (decide_initial history) Verdict.Requeue 0) history I) as Hj.
  unfold decide_fn, decide_loop. fold (loop_from budget
    (mkDecideState (decide_initial history) Verdict.Requeue 0) history).
  set (s := loop_from _ _ _) in *. unfold verdict_justified in Hj.
  unfold decide_verdict_partition_consistent, ttl_downgrade. cbn in *.
  destruct (st_verdict s) as [|reason| |]; try done; [|by apply Z.leb_le].
  assert (is_Some (poisoned_at (st_counters s))) as [p Hp].
  { destruct reason; naive_solver. }
  rewrite Hp in *.
  destruct (poison_ttl_secs budget <? u64_saturating_sub now p) eqn:E; [done|].
  rewrite (bool_decide_eq_true_2 (is_Some (Some p))) by eauto. cbn.
  destruct reason; try done; try (apply Z.leb_le; naive_solver); [naive_solver|].
  rewrite exhausts_empty_fleet in Hj. naive_solver.
Qed.

Lemma decide_fn_loop {Id : Type} `{Countable Id} history budget now :
  let s := loop_from budget (mkDecideState (Id := Id) (decide_initial history) Verdict.Requeue 0)
    history in
  d_counters (decide_fn history budget now) = st_counters s /\
  d_exclusion (decide_fn history budget now) = failed_builders (st_counters s) /\
  d_verdict (decide_fn history budget now) =
    ttl_downgrade (st_counters s) (st_verdict s) now budget.
Proof. done. Qed.

Lemma ttl_downgrade_requeue {Id : Type} `{Countable Id} (c : Counters Id) v now budget :
  ttl_downgrade c v now budget = Verdict.Requeue -> v = Verdict.Requeue.
Proof. unfold ttl_downgrade. destruct v, (poisoned_at c); split_ifs; congruence. Qed.

Lemma ttl_downgrade_poison {Id : Type} `{Countable Id} (c : Counters Id) v now budget p :
  ttl_downgrade c v now budget = Verdict.Poison p -> v = Verdict.Poison p.
Proof. unfold ttl_downgrade. destruct v, (poisoned_at c); split_ifs; congruence. Qed.

(** A row outside the bounded-uncharged classes folds its event. *)
Lemma decide_step_charged {Id : Type} `{Countable Id} budget (s : DecideState Id) r ev :
  is_kind AttemptKind.Build r = true -> is_bounded_uncharged_row r = false ->
  row_to_event r = Some ev ->
  st_counters (decide_step budget s r)
    = fst (apply (st_counters s) ev budget FleetView_default) /\
  st_verdict (decide_step budget s r)
    = snd (apply (st_counters s) ev budget FleetView_default).
Proof.
  intros Hk Hu Hev. unfold decide_step, run_step, fold_row. by rewrite Hk, Hu, Hev.
Qed.

(** An exempt-charging row folds to an event that charges the exempt budget. *)
Lemma exempt_row_event {Id : Type} (r : LedgerRow Id) :
  is_exempt_charge_row r = true ->
  is_bounded_uncharged_row r = false /\
  exists ev, row_to_event r = Some ev /\ charges_exempt ev = true.
Proof.
  destruct r as [ek oc ex rp fp fc cy ra k].
  unfold is_exempt_charge_row, is_bounded_uncharged_row, row_to_event,
    is_event, is_kind, is_party, is_class. cbn.
  destruct ek; [|done]. destruct oc; cbn; try done; destruct rp; cbn; try done;
    destruct fc, fp; cbn; try done; intros _;
    (split; [by rewrite ?andb_false_r | eauto]).
Qed.

Lemma apply_requeue_exempt {Id : Type} `{Countable Id} (c : Counters Id) ev budget fleet :
  charges_exempt ev = true ->
  snd (apply c ev budget fleet) = Verdict.Requeue ->
  exempt_infra_count (fst (apply c ev budget fleet)) < max_exempt_infra_retries budget.
Proof. intros Hc Hq. apply_cases ev; done. Qed.

(** C8: the caps hold over every history: the per-cycle, infra and timeout
    counters never exceed their cap, and a [Requeue] whose last build row
    charged the exempt budget left that budget below its cap. *)
Theorem decide_contract_caps {Id : Type} `{Countable Id}
    (history : list (LedgerRow Id)) (budget : Budget) (now : AbsTime) :
  Budget_ok budget ->
  decide_requeue_within_caps (decide_fn history budget now) history budget = true.
Proof.
  intros Hb. destruct (decide_fn_loop history budget now) as (Hc&_&Hv).
  set (s0 := mkDecideState (decide_initial history) Verdict.Requeue 0) in *.
  pose proof (loop_from_ok budget s0 history Hb (counters_ok_initial _ _ Hb)) as (?&?&?&_).
  unfold decide_requeue_within_caps. rewrite Hc, Hv.
  rewrite !andb_true_iff, !Z.leb_le. split_and!; try lia.
  destruct (last_build_row history) as [r|] eqn:Hl; [|by rewrite orb_true_r].
  destruct (is_exempt_charge_row r) eqn:Hr; [|by rewrite orb_true_r].
  case_bool_decide as Hq; [|done]. apply ttl_downgrade_requeue in Hq. cbn.
  apply Z.ltb_lt.
  destruct (loop_from_last budget s0 history r Hl) as [Hk [pre Hpre]].
  destruct (exempt_row_event r Hr) as (Hu & ev & Hev & Hx).
  pose proof (decide_step_charged budget (loop_from budget s0 pre) r ev Hk Hu Hev)
    as [Hsc Hsv].
  rewrite Hpre, Hsc. apply apply_requeue_exempt; [done|]. by rewrite <- Hsv, <- Hpre.
Qed.

Lemma decide_contract_caps_witness :
  let row := mkLedgerRow AttemptEventKind.Attempt OutcomeClass.ExemptInfra (Some 7%nat)
    ReportingParty.Worker true false 0 100 AttemptKind.Build in
  decide_requeue_within_caps (decide_fn [row; row] Budget_default 200) [row; row]
    Budget_default = true.
Proof. apply decide_contract_caps. unfold Budget_ok; simpl; mach. Defined.

(** an executor-variant report reaches [Poison Permanent] only through the
    distinct-executor threshold, whatever preceded it. *)
Theorem decide_contract_variant {Id : Type} `{Countable Id}
    (history : list (LedgerRow Id)) (budget : Budget) (now : AbsTime) :
  decide_executor_variant_permanent_is_threshold
    (decide_fn history budget now) history budget = true.
Proof.
  destruct (decide_fn_loop history budget now) as (Hc&_&Hv).
  set (s0 := mkDecideState (decide_initial history) Verdict.Requeue 0) in *.
  unfold decide_executor_variant_permanent_is_threshold. rewrite Hc, Hv.
  destruct (last_build_row history) as [r|] eqn:Hl; [|done].
  destruct (is_event _ r && _) eqn:Hr; [|done].
  case_bool_decide as Hq; [|done]. apply ttl_downgrade_poison in Hq. cbn.
  destruct (loop_from_last budget s0 history r Hl) as [Hk [pre Hpre]].
  assert (is_bounded_uncharged_row r = false /\ row_to_event r =
    Some (AttemptEvent.ExecutorVariant (row_at r) (row_executor r) (floor_at_cap r)))
    as [Hu Hev].
  { apply andb_true_iff in Hr as [H1%bool_decide_eq_true H2%bool_decide_eq_true].
    unfold is_bounded_uncharged_row, row_to_event, is_event. rewrite H1, H2.
    by rewrite andb_false_r. }
  destruct (decide_step_charged budget (loop_from budget s0 pre) r _ Hk Hu Hev) as [Hsc Hsv].
  rewrite Hpre, Hsc. apply apply_variant_permanent. by rewrite <- Hsv, <- Hpre.
Qed.

(** ** The exclusion set *)

Section Exclusion.
Context {Id : Type} `{Countable Id}.
Implicit Types (r : LedgerRow Id) (history : list (LedgerRow Id)).

Lemma rows_after_last_reset_snoc history r :
  rows_after_last_reset (history ++ [r]) =
  if is_build_reset r then [] else rows_after_last_reset history ++ [r].
Proof.
  unfold rows_after_last_reset. rewrite rposition_app. simpl.
  destruct (is_build_reset r).
  - rewrite drop_ge; [done|]. rewrite length_app. simpl. lia.
  - destruct (rposition is_build_reset history) as [i|] eqn:E; [|done].
    apply rposition_some in E as (x & Hx%lookup_lt_Some & _).
    by rewrite drop_app_le by lia.
Qed.

(** The row must be covered by the exclusion set [X]. *)
Definition row_covered (X : gset Id) r : Prop :=
  is_kind AttemptKind.Build r = true -> charges_threshold_row r = true ->
  forall e, row_executor r = Some e -> e ∈ X.

Lemma row_to_event_attempt r ev :
  is_event AttemptEventKind.Reset r = false ->
  row_to_event r = Some ev -> is_reset_event ev = false.
Proof.
  unfold row_to_event. intros ->.
  destruct (outcome_class r); try done; try destruct (is_party _ r); naive_solver.
Qed.

(** Nothing but a reset row shrinks the exclusion set. *)
Lemma decide_step_exclusion_mono budget s r :
  is_build_reset r = false ->
  failed_builders (st_counters s) ⊆ failed_builders (st_counters (decide_step budget s r)).
Proof.
  intros Hr. destruct (is_kind AttemptKind.Build r) eqn:Hk;
    [|by rewrite decide_step_skip].
  unfold is_build_reset in Hr. rewrite Hk in Hr.
  apply (decide_step_cases budget s r
    (fun s' => failed_builders (st_counters s) ⊆ failed_builders (st_counters s'))); [done..|].
  intros ev run Hev. cbn [st_counters].
  rewrite apply_failed_builders by (by eapply row_to_event_attempt).
  destruct (charged_executor ev); set_solver.
Qed.

(** A charged row's own executor enters the set. *)
Lemma decide_step_charges budget s r :
  row_covered (failed_builders (st_counters (decide_step budget s r))) r.
Proof.
  intros Hk Hc e He.
  assert (is_bounded_uncharged_row r = false /\ exists ev, row_to_event r = Some ev /\
    is_reset_event ev = false /\ charged_executor ev = Some e) as (Hu & ev & Hev & Hn & Hx).
  { revert Hc. unfold charges_threshold_row, is_bounded_uncharged_row, row_to_event, is_event.
    destruct (event_kind r); [|done]. cbn. rewrite He.
    destruct (outcome_class r); try done; intros _; (split; [by rewrite ?andb_false_r|eauto]). }
  destruct (decide_step_charged budget s r ev Hk Hu Hev) as [-> _].
  rewrite apply_failed_builders, Hx by done. set_solver.
Qed.

Lemma loop_exclusion_covers budget s history :
  Forall (row_covered (failed_builders (st_counters (loop_from budget s history))))
    (rows_after_last_reset history).
Proof.
  apply (fold_left_inv _ (fun pre s => Forall (row_covered (failed_builders (st_counters s)))
    (rows_after_last_reset pre))); [constructor|].
  intros pre r s' IH. rewrite rows_after_last_reset_snoc.
  destruct (is_build_reset r) eqn:Hr; [constructor|].
  apply Forall_app. split; [|constructor; [apply decide_step_charges|constructor]].
  eapply Forall_impl; [exact IH|]. intros x Hx Hk Hc e He.
  eapply decide_step_exclusion_mono; [done|]. by apply Hx.
Qed.

End Exclusion.

(** the exclusion set [decide] returns contains the executor of every
    threshold-charging build row after the last build reset row. *)
Theorem decide_contract_exclusion {Id : Type} `{Countable Id}
    (history : list (LedgerRow Id)) (budget : Budget) (now : AbsTime) :
  decide_exclusion_covers_charged_attempts (decide_fn history budget now) history = true.
Proof.
  destruct (decide_fn_loop history budget now) as (_&Hx&_).
  unfold decide_exclusion_covers_charged_attempts. rewrite Hx.
  apply forallb_forall. intros r [Hin Hk]%List.filter_In.
  pose proof (loop_exclusion_covers budget
    (mkDecideState (decide_initial history) Verdict.Requeue 0) history) as HF.
  rewrite Forall_forall in HF. specialize (HF r (proj2 (list_elem_of_In _ _) Hin) Hk).
  destruct (charges_threshold_row r); [cbn|done].
  destruct (row_executor r); [|done]. apply bool_decide_eq_true. by apply HF.
Qed.

(** the kind partition: materialization-lane rows are invisible to every
    part of the build decision, the resubmit-cycle seed included. *)
Theorem decide_kind_partition {Id : Type} `{Countable Id}
    (history : list (LedgerRow Id)) (budget : Budget) (now : AbsTime) :
  decide_fn history budget now =
  decide_fn (List.filter (is_kind AttemptKind.Build) history) budget now.
Proof.
  assert (decide_loop history budget =
    decide_loop (List.filter (is_kind AttemptKind.Build) history) budget) as Hl;
    [|unfold decide_fn; by rewrite Hl].
  unfold decide_loop.
  assert (decide_initial (List.filter (is_kind AttemptKind.Build) history)
    = decide_initial history) as -> by (unfold decide_initial; by rewrite find_filter_same).
  apply loop_from_partition.
Qed.

(** ** Pacing: store-degraded rows move nothing but the backoff *)

Section Pacing.
Context {Id : Type} `{Countable Id}.
Implicit Types (c : Counters Id) (r : LedgerRow Id) (history : list (LedgerRow Id)).

(** Agreement on every field a verdict can depend on: all but the backoff
    deadline and the cross-cycle count. *)
Definition charge_equiv c c' : Prop :=
  set_backoff_until None (set_resubmit_cycles 0 c) =
  set_backoff_until None (set_resubmit_cycles 0 c').

#[global] Instance charge_equiv_equivalence : Equivalence charge_equiv.
Proof.
  unfold charge_equiv. split; [by intros ?|by intros ???|intros ???; congruence].
Qed.

Lemma charge_equiv_iff c c' :
  charge_equiv c c' <->
  count c = count c' /\ infra_count c = infra_count c' /\
  timeout_count c = timeout_count c' /\
  last_infra_failure_at c = last_infra_failure_at c' /\
  exempt_infra_count c = exempt_infra_count c' /\
  failed_builders c = failed_builders c' /\
  failure_count c = failure_count c' /\ poisoned_at c = poisoned_at c'.
Proof.
  unfold charge_equiv, set_backoff_until, set_resubmit_cycles. cbn. split.
  - intros [=]. by split_and!.
  - intros (->&->&->&->&->&->&->&->). done.
Qed.

#[global] Instance set_backoff_until_charge b :
  Proper (charge_equiv ==> charge_equiv) (set_backoff_until b).
Proof. by intros c c'. Qed.

Lemma set_backoff_until_equiv b c : charge_equiv (set_backoff_until b c) c.
Proof. done. Qed.

(** [apply] respects the equivalence and returns the same verdict. *)
Lemma apply_charge_equiv c c' ev budget fleet :
  charge_equiv c c' ->
  charge_equiv (fst (apply c ev budget fleet)) (fst (apply c' ev budget fleet)) /\
  snd (apply c ev budget fleet) = snd (apply c' ev budget fleet).
Proof.
  destruct c as [a1 a2 a3 a4 a5 a6 a7 a8 a9 a10], c' as [b1 b2 b3 b4 b5 b6 b7 b8 b9 b10].
  intros (?&?&?&?&?&?&?&?)%charge_equiv_iff. cbn in *. subst.
  destruct ev; try destruct executor; try destruct exempt; try destruct at_cap;
    try destruct promoted; unfold_apply; cbn; try done;
    unfold poison_threshold_reached; cbn; repeat case_match; done.
Qed.

Definition state_equiv (s s' : DecideState Id) : Prop :=
  charge_equiv (st_counters s) (st_counters s') /\ st_verdict s = st_verdict s'.

(** A row the run law paces. *)
Definition is_paced r : bool :=
  match run_step r OutcomeClass.StoreDegraded with RunStep.Pace => true | _ => false end.

Lemma decide_step_unpaced budget s s' r :
  is_paced r = false -> state_equiv s s' ->
  state_equiv (decide_step budget s r) (decide_step budget s' r).
Proof.
  unfold is_paced, decide_step, fold_row. intros Hp [Hc Hv].
  destruct (run_step r _); try done; destruct (row_to_event r); try done;
    by apply apply_charge_equiv.
Qed.

Lemma decide_step_paced budget s r :
  is_paced r = true -> state_equiv (decide_step budget s r) s.
Proof. unfold is_paced, decide_step. by destruct (run_step r _). Qed.

Lemma loop_from_unpaced budget history s s' :
  state_equiv s s' ->
  state_equiv (loop_from budget s history)
    (loop_from budget s' (List.filter (fun r => negb (is_paced r)) history)).
Proof.
  revert s s'. induction history as [|r h IH]; simpl; intros s s' Hs; [done|].
  destruct (is_paced r) eqn:E; simpl; apply IH.
  - destruct (decide_step_paced budget s r E), Hs. split; [by etrans|congruence].
  - by apply decide_step_unpaced.
Qed.

Lemma decide_initial_equiv history history' :
  charge_equiv (decide_initial history) (decide_initial history').
Proof.
  apply charge_equiv_iff.
  destruct (decide_initial_backoff history) as (->&->&->&->&->&->&->),
    (decide_initial_backoff history') as (->&->&->&->&->&->&->).
  split_and!; try done.
  unfold decide_initial; repeat case_match; done.
Qed.

End Pacing.

(** store-degraded rows are pacing, never a charge: deleting them from a
    history changes neither the verdict, nor the exclusion set, nor any
    budget counter. *)
Theorem store_degraded_uncharged {Id : Type} `{Countable Id}
    (history : list (LedgerRow Id)) (budget : Budget) (now : AbsTime) :
  let d := decide_fn history budget now in
  let d' := decide_fn (List.filter (fun r => negb (is_paced r)) history) budget now in
  d_verdict d = d_verdict d' /\ d_exclusion d = d_exclusion d' /\
  charge_equiv (d_counters d) (d_counters d').
Proof.
  cbn zeta. set (h' := List.filter _ history).
  destruct (loop_from_unpaced budget history
    (mkDecideState (decide_initial history) Verdict.Requeue 0)
    (mkDecideState (decide_initial h') Verdict.Requeue 0)) as [Hc Hv].
  { split; [apply decide_initial_equiv|done]. }
  destruct (decide_fn_loop history budget now) as (->&->&->),
    (decide_fn_loop h' budget now) as (->&->&->).
  pose proof (proj1 (charge_equiv_iff _ _) Hc) as (_&_&_&_&_&Hf&_&Hp).
  fold h' in Hc, Hv, Hf, Hp. split_and!; [|done|done].
  unfold ttl_downgrade. by rewrite Hv, Hp.
Qed.
