(* ===== verification/RetryAdmission.v ===== *)
(** * Retry kernel: the bounded-uncharged run law

    [run_step], [trailing_uncharged_class_count] and the two admissions of
    [src/rio-retry-kernel/src/lib.rs]: the pacing fold of [decide] and the
    admission scan count the same run, and a worker can only mint a bounded
    number of uncharged requeues in a row. *)

From S2P Require Import Prelude RetryTypes RetryFold RetryDecide RetryBounds RetryContract.

Section Run.
Context {Id : Type}.
Implicit Types (r : LedgerRow Id) (rows : list (LedgerRow Id)) (class : OutcomeClass).

(** The number of [class] rows of the trailing run, newest row first. *)
Fixpoint run_tally (rev_rows : list (LedgerRow Id)) class : nat :=
  match rev_rows with
  | [] => O
  | r :: rest =>
      match run_step r class with
      | RunStep.LaneSkip | RunStep.Extend => run_tally rest class
      | RunStep.Break => O
      | RunStep.Pace => S (run_tally rest class)
      end
  end.

Lemma run_tally_le rev_rows class : (run_tally rev_rows class <= length rev_rows)%nat.
Proof.
  induction rev_rows as [|r l IH]; simpl; [done|]. destruct (run_step r class); lia.
Qed.

Lemma uncharged_scan_tally rev_rows class n :
  0 <= n -> Z.of_nat (run_tally rev_rows class) + n <= u32_max ->
  uncharged_scan rev_rows class n = Z.of_nat (run_tally rev_rows class) + n.
Proof.
  revert n. induction rev_rows as [|r l IH]; simpl; intros n Hn Hle; [lia|].
  destruct (run_step r class); try (by apply IH); [|lia].
  rewrite u32_wrapping_add_small by mach. rewrite IH; lia.
Qed.

(** Below [u32::MAX] rows the [u32] counter is exact. *)
Lemma trailing_tally rows class :
  Z.of_nat (length rows) <= u32_max ->
  trailing_uncharged_class_count rows class = Z.of_nat (run_tally (rev rows) class).
Proof.
  intros Hl. unfold trailing_uncharged_class_count.
  pose proof (run_tally_le (rev rows) class). rewrite length_rev in *.
  rewrite uncharged_scan_tally; lia.
Qed.

Lemma trailing_snoc rows r class :
  Z.of_nat (length (rows ++ [r])) <= u32_max ->
  trailing_uncharged_class_count (rows ++ [r]) class =
  match run_step r class with
  | RunStep.LaneSkip | RunStep.Extend => trailing_uncharged_class_count rows class
  | RunStep.Break => 0
  | RunStep.Pace => trailing_uncharged_class_count rows class + 1
  end.
Proof.
  intros Hl. rewrite length_app in Hl. simpl in Hl.
  rewrite !trailing_tally by (rewrite ?length_app; simpl; lia).
  rewrite rev_app_distr. simpl. destruct (run_step r class); lia.
Qed.

Lemma run_step_pace r class :
  run_step r class = RunStep.Pace ->
  is_kind AttemptKind.Build r = true /\ is_event AttemptEventKind.Reset r = false.
Proof.
  unfold run_step, is_bounded_uncharged_row, is_event.
  destruct (is_kind _ r); [|done]. by destruct (event_kind r).
Qed.

End Run.

Section Agreement.
Context {Id : Type} `{Countable Id}.
Implicit Types (r : LedgerRow Id) (history : list (LedgerRow Id)).

Lemma fold_row_run budget r (s : DecideState Id) : st_run (fold_row budget r s) = st_run s.
Proof. unfold fold_row. by destruct (row_to_event r). Qed.

(** The pacing counter of the fold is the admission scan's count. *)
Lemma loop_run budget s history :
  st_run s = 0 -> Z.of_nat (length history) <= u32_max ->
  st_run (loop_from budget s history) =
  trailing_uncharged_class_count history OutcomeClass.StoreDegraded.
Proof.
  intros H0. induction history as [|r h IH] using rev_ind; [done|].
  intros Hl. rewrite trailing_snoc by done. rewrite length_app in Hl. simpl in Hl.
  unfold loop_from in *. rewrite fold_left_app. simpl.
  specialize (IH ltac:(lia)).
  set (s' := fold_left _ h s) in *. unfold decide_step.
  destruct (run_step r _); rewrite ?fold_row_run; cbn; try done.
  rewrite IH, trailing_tally by lia.
  pose proof (run_tally_le (rev h) OutcomeClass.StoreDegraded). rewrite length_rev in *. mach.
Qed.

End Agreement.

(** one run law.  Appending a paced store-degraded report to a history
    leaves the verdict and exclusion set alone and defers re-dispatch to the
    later of the current deadline and the backoff curve evaluated at exactly
    the count [admit_store_degraded] compares with its bound. *)
Theorem pacing_follows_admission_count {Id : Type} `{Countable Id}
    (history : list (LedgerRow Id)) (r : LedgerRow Id) (budget : Budget) (now : AbsTime) :
  Z.of_nat (length history) <= u32_max ->
  run_step r OutcomeClass.StoreDegraded = RunStep.Pace ->
  let d := decide_fn history budget now in
  let d' := decide_fn (history ++ [r]) budget now in
  let until := u64_saturating_add (row_at r)
    (backoff_secs budget
       (trailing_uncharged_class_count history OutcomeClass.StoreDegraded)) in
  d_backoff_until d' =
    Some (match d_backoff_until d with Some b => Z.max b until | None => until end) /\
  d_verdict d' = d_verdict d /\ d_exclusion d' = d_exclusion d.
Proof.
  intros Hl Hp. cbn zeta.
  assert (decide_initial (history ++ [r]) = decide_initial history) as Hi.
  { unfold decide_initial. rewrite find_app_bool.
    destruct (List.find _ history); [done|]. simpl.
    destruct (run_step_pace r _ Hp) as [-> ->]. done. }
  unfold decide_fn, decide_loop. rewrite Hi, fold_left_app. cbn [fold_left].
  pose proof (loop_run budget (mkDecideState (decide_initial history) Verdict.Requeue 0)
    history eq_refl Hl) as Hrun. unfold loop_from in Hrun.
  set (s := fold_left _ _ _) in *. unfold decide_step. rewrite Hp, Hrun. cbn.
  split_and!; try done. f_equal. destruct (backoff_until (st_counters s)); [|done].
  split_ifs; lia.
Qed.

Lemma pacing_follows_admission_count_witness :
  let r := mkLedgerRow AttemptEventKind.Attempt OutcomeClass.StoreDegraded (Some 1%nat)
    ReportingParty.Worker false false 0 1000 AttemptKind.Build in
  d_backoff_until (decide_fn [r; r] Budget_default 1000) =
    Some (Z.max 1005 (u64_saturating_add 1000 (backoff_secs Budget_default 1))).
Proof.
  intros r.
  destruct (pacing_follows_admission_count [r] r Budget_default 1000) as [Hb _];
    [simpl; mach|reflexivity|exact Hb].
Defined.

(** ** How many uncharged requeues a worker can mint *)

Section Mint.
Context {Id : Type}.
Implicit Types (r : LedgerRow Id) (rows : list (LedgerRow Id)).

(** The rows the two uncharged closes append: build lane, attempt, worker
    reported, of the admitted class. *)
Definition is_uncharged_close (class : OutcomeClass) r : bool :=
  is_kind AttemptKind.Build r && is_event AttemptEventKind.Attempt r
  && is_party ReportingParty.Worker r && is_class class r.

(** Ledger growth with no charge: the other lane, or an admitted uncharged
    close. *)
Inductive uncharged_append : list (LedgerRow Id) -> list (LedgerRow Id) -> Prop :=
| append_other_lane rows r :
    is_kind AttemptKind.Build r = false -> uncharged_append rows (rows ++ [r])
| append_worker_abort rows r :
    is_uncharged_close OutcomeClass.Disconnected r = true ->
    admit_worker_abort rows WORKER_ABORT_FREE_CLOSES = WorkerAbortAdmission.Uncharged ->
    uncharged_append rows (rows ++ [r])
| append_store_degraded rows r :
    is_uncharged_close OutcomeClass.StoreDegraded r = true ->
    admit_store_degraded rows STORE_DEGRADED_FREE_RUN = WorkerAbortAdmission.Uncharged ->
    uncharged_append rows (rows ++ [r]).

Lemma uncharged_close_step class r :
  is_uncharged_close class r = true ->
  class = OutcomeClass.Disconnected \/ class = OutcomeClass.StoreDegraded ->
  is_kind AttemptKind.Build r = true /\
  (forall class', run_step r class' =
     if bool_decide (class = class') then RunStep.Pace else RunStep.Extend).
Proof.
  unfold is_uncharged_close, run_step, is_bounded_uncharged_row, is_class.
  intros Hc Hcl. rewrite !andb_true_iff in Hc.
  destruct Hc as [[[Hk He] Hp] Hx%bool_decide_eq_true].
  split; [done|]. intros class'. rewrite Hk, He, Hp, Hx. cbn.
  by destruct Hcl as [-> | ->]; destruct class'.
Qed.

Definition closes (class : OutcomeClass) rows : Z :=
  Z.of_nat (length (List.filter (is_uncharged_close class) rows)).

Definition build_rows rows : Z :=
  Z.of_nat (length (List.filter (is_kind AttemptKind.Build) rows)).

(** What an uncharged extension [ext] of [base] did to one class's count. *)
Definition class_track (class : OutcomeClass) (bound : Z) base ext : Prop :=
  trailing_uncharged_class_count (base ++ ext) class
    = trailing_uncharged_class_count base class + closes class ext /\
  closes class ext <= bound.

Definition ext_track base ext : Prop :=
  class_track OutcomeClass.Disconnected WORKER_ABORT_FREE_CLOSES base ext /\
  class_track OutcomeClass.StoreDegraded STORE_DEGRADED_FREE_RUN base ext /\
  build_rows ext = closes OutcomeClass.Disconnected ext + closes OutcomeClass.StoreDegraded ext.

Lemma trailing_nonneg rows class :
  Z.of_nat (length rows) <= u32_max -> 0 <= trailing_uncharged_class_count rows class.
Proof. intros. rewrite trailing_tally by done. lia. Qed.

Lemma closes_snoc class rows r :
  closes class (rows ++ [r]) = closes class rows + (if is_uncharged_close class r then 1 else 0).
Proof.
  unfold closes. rewrite filter_app_bool, length_app. simpl.
  destruct (is_uncharged_close class r); simpl; lia.
Qed.

Lemma build_rows_snoc rows r :
  build_rows (rows ++ [r]) = build_rows rows + (if is_kind AttemptKind.Build r then 1 else 0).
Proof.
  unfold build_rows. rewrite filter_app_bool, length_app. simpl.
  destruct (is_kind AttemptKind.Build r); simpl; lia.
Qed.

Lemma not_close_other_lane class r :
  is_kind AttemptKind.Build r = false -> is_uncharged_close class r = false.
Proof. unfold is_uncharged_close. by intros ->. Qed.

Lemma close_class_unique class class' r :
  is_uncharged_close class r = true ->
  is_uncharged_close class' r = bool_decide (class = class').
Proof.
  unfold is_uncharged_close, is_class. intros Hc.
  rewrite !andb_true_iff in Hc. destruct Hc as [[[-> ->] ->] ->%bool_decide_eq_true]. done.
Qed.

(** One admitted close of [class], which its own bound [b] admitted. *)
Lemma ext_track_close class base ext r :
  (class = OutcomeClass.Disconnected /\
     trailing_uncharged_class_count (base ++ ext) class < WORKER_ABORT_FREE_CLOSES \/
   class = OutcomeClass.StoreDegraded /\
     trailing_uncharged_class_count (base ++ ext) class < STORE_DEGRADED_FREE_RUN) ->
  is_uncharged_close class r = true ->
  Z.of_nat (length ((base ++ ext) ++ [r])) <= u32_max ->
  ext_track base ext -> ext_track base (ext ++ [r]).
Proof.
  intros Hcl Hr Hlen ((HD&HDb)&(HS&HSb)&Hb).
  assert (0 <= trailing_uncharged_class_count base OutcomeClass.Disconnected /\
    0 <= trailing_uncharged_class_count base OutcomeClass.StoreDegraded) as [H1 H2].
  { rewrite !length_app in Hlen. split; apply trailing_nonneg; lia. }
  destruct (uncharged_close_step class r Hr) as [Hk Hstep]; [naive_solver|].
  unfold ext_track, class_track.
  rewrite !app_assoc, !trailing_snoc, !Hstep, !closes_snoc, build_rows_snoc, Hk by done.
  rewrite !(close_class_unique class _ r Hr).
  destruct Hcl as [[-> Hlt]|[-> Hlt]]; repeat case_bool_decide; try done; lia.
Qed.

Lemma uncharged_append_track base rows :
  rtc uncharged_append base rows -> Z.of_nat (length rows) <= u32_max ->
  exists ext, rows = base ++ ext /\ ext_track base ext.
Proof.
  revert rows. apply (rtc_ind_r (fun rows => Z.of_nat (length rows) <= u32_max ->
    exists ext, rows = base ++ ext /\ ext_track base ext)).
  { intros _. exists []. rewrite app_nil_r. split; [done|]. unfold ext_track, class_track, closes.
    rewrite !app_nil_r. cbn. split_and!; done || lia. }
  intros rows rows' Hrtc Hstep IH Hlen.
  assert (Z.of_nat (length rows) <= u32_max) as Hlen'.
  { destruct Hstep; rewrite length_app in Hlen; lia. }
  destruct (IH Hlen') as (ext & -> & Htr). clear IH.
  inversion Hstep as [? r Hk|? r Hr Ha|? r Hr Ha]; subst; rewrite <- app_assoc;
    exists (ext ++ [r]); (split; [done|]).
  - destruct Htr as ((HD&HDb)&(HS&HSb)&Hb). unfold ext_track, class_track.
    rewrite !app_assoc, !trailing_snoc, !closes_snoc, build_rows_snoc, Hk by done.
    rewrite !run_step_build, !not_close_other_lane by done. lia.
  - apply (ext_track_close OutcomeClass.Disconnected); try done. left. split; [done|].
    unfold admit_worker_abort, admit_bounded_uncharged in Ha. by split_ifs; case_match; zbool.
  - apply (ext_track_close OutcomeClass.StoreDegraded); try done. right. split; [done|].
    unfold admit_store_degraded, admit_bounded_uncharged in Ha. by split_ifs; case_match; zbool.
Qed.

End Mint.

(** C38: the uncharged mints compose.  From any history, growing the ledger only
    by other-lane rows and by worker reports the two admissions let through
    uncharged, in any interleaving, adds at most
    [WORKER_ABORT_FREE_CLOSES + STORE_DEGRADED_FREE_RUN] build rows: the next
    such report falls through to the charged path. *)
Theorem uncharged_requeues_bounded {Id : Type} (base rows : list (LedgerRow Id)) :
  rtc uncharged_append base rows -> Z.of_nat (length rows) <= u32_max ->
  exists ext, rows = base ++ ext /\
    build_rows ext <= WORKER_ABORT_FREE_CLOSES + STORE_DEGRADED_FREE_RUN.
Proof.
  intros Hr Hl. destruct (uncharged_append_track base rows Hr Hl) as (ext & -> & Htr).
  exists ext. split; [done|]. destruct Htr as ((_&HD)&(_&HS)&Hb). lia.
Qed.

(** Three aborts and twelve store-degraded reports in a row are all admitted. *)
Lemma uncharged_requeues_bounded_witness :
  let row c := mkLedgerRow (Id := nat) AttemptEventKind.Attempt c None
    ReportingParty.Worker false false 0 0 AttemptKind.Build in
  exists ext, replicate 3 (row OutcomeClass.Disconnected)
      ++ replicate 12 (row OutcomeClass.StoreDegraded) = [] ++ ext /\
    build_rows ext <= 15.
Proof.
  intros row.
  apply (uncharged_requeues_bounded [] _); [|vm_compute; discriminate].
  assert (forall rows,
    admit_worker_abort rows WORKER_ABORT_FREE_CLOSES = WorkerAbortAdmission.Uncharged ->
    uncharged_append rows (rows ++ [row OutcomeClass.Disconnected])) as HD
    by (intros; by apply append_worker_abort).
  assert (forall rows,
    admit_store_degraded rows STORE_DEGRADED_FREE_RUN = WorkerAbortAdmission.Uncharged ->
    uncharged_append rows (rows ++ [row OutcomeClass.StoreDegraded])) as HS
    by (intros; by apply append_store_degraded).
  do 3 (eapply rtc_l; [apply HD; reflexivity|]).
  do 12 (eapply rtc_l; [apply HS; reflexivity|]).
  apply rtc_refl.
Defined.
