(* ===== verification/RetryLedger.v ===== *)
(** * Retry kernel: materialization budget and ledger retention

    [materialization_counters], [materialization_decide], the per-lane suffix
    cut ([ledger_suffix_start], [row_survives_load]) and the GC sweep
    eligibility of [src/rio-retry-kernel/src/lib.rs].  Indexing a slice out of
    range panics in the source: the index-taking predicates are partial here
    ([None] for the panic).  [loaded_view] is the order-preserving filter the
    loaders apply; [sweep_rows] deletes an arbitrary set of indices. *)

From S2P Require Import Prelude RetryTypes RetryFold RetryDecide.

Module MaterializationVerdict.
Inductive MaterializationVerdict : Type := Claimable | Park.
End MaterializationVerdict.
Abbreviation MaterializationVerdict := MaterializationVerdict.MaterializationVerdict.

Record MatCounters : Type := mkMatCounters {
  infra_since_reset : Z;
  worker_infra_since_reset : Z;
  unobtainable_since_reset : Z
}.

Section Ledger.
Context {Id : Type}.
Implicit Types (r : LedgerRow Id) (rows : list (LedgerRow Id)) (lane : AttemptKind).

(** [r.kind == lane && r.event_kind == Reset]. *)
Definition is_lane_reset lane r : bool :=
  is_kind lane r && is_event AttemptEventKind.Reset r.

Definition mat_step (c : MatCounters) r : MatCounters :=
  match outcome_class r with
  | OutcomeClass.MaterializationInfra =>
      mkMatCounters (u32_wrapping_add (infra_since_reset c) 1)
        (if is_party ReportingParty.Worker r
         then u32_wrapping_add (worker_infra_since_reset c) 1
         else worker_infra_since_reset c)
        (unobtainable_since_reset c)
  | OutcomeClass.MaterializationUnobtainable =>
      mkMatCounters (infra_since_reset c) (worker_infra_since_reset c)
        (u32_wrapping_add (unobtainable_since_reset c) 1)
  | _ => c
  end.

Definition materialization_counters rows : MatCounters :=
  fold_left mat_step
    (List.filter (is_kind AttemptKind.Materialization)
       (take_while (fun r => negb (is_lane_reset AttemptKind.Materialization r)) (rev rows)))
    (mkMatCounters 0 0 0).

Definition materialization_decide rows (max_materialization_attempts : Z)
    : MaterializationVerdict :=
  if max_materialization_attempts <=? infra_since_reset (materialization_counters rows)
  then MaterializationVerdict.Park else MaterializationVerdict.Claimable.

Definition sweep_horizon_secs (budget : Budget) (retention_floor_secs : Z) : Z :=
  Z.max retention_floor_secs (poison_ttl_secs budget).

Definition ledger_suffix_start rows lane : nat :=
  default O (rposition (is_lane_reset lane) rows).

Definition row_survives_load rows (index : nat) : option bool :=
  r ← rows !! index;
  Some (ledger_suffix_start rows (row_kind r) <=? index)%nat.

Definition sweep_eligible rows (index : nat) (now : AbsTime) (horizon_secs : Z)
    : option bool :=
  r ← rows !! index;
  Some (is_event AttemptEventKind.Attempt r
        && (index <? ledger_suffix_start rows (row_kind r))%nat
        && (horizon_secs <? u64_saturating_sub now (row_at r))).

(** Keep the rows whose index satisfies [keep]. *)
Fixpoint keep_rows (keep : nat -> bool) (i : nat) rows : list (LedgerRow Id) :=
  match rows with
  | [] => []
  | r :: rest =>
      if keep i then r :: keep_rows keep (S i) rest else keep_rows keep (S i) rest
  end.

(** The view both suffix loaders return. *)
Definition loaded_view rows : list (LedgerRow Id) :=
  keep_rows (fun i => default false (row_survives_load rows i)) 0 rows.

(** One retention pass deleting the indices [del] picks. *)
Definition sweep_rows (del : nat -> bool) rows : list (LedgerRow Id) :=
  keep_rows (fun i => negb (del i)) 0 rows.

(** ** The cut, without indices *)

(** A row is in the view iff no reset row of its own lane follows it. *)
Fixpoint view rows : list (LedgerRow Id) :=
  match rows with
  | [] => []
  | r :: rest =>
      if existsb (is_lane_reset (row_kind r)) rest then view rest else r :: view rest
  end.

Lemma rposition_lt {A} (f : A -> bool) (l : list A) (i : nat) :
  (i <? default O (rposition f l))%nat = existsb f (drop (S i) l).
Proof.
  revert i. induction l as [|x l IH]; intros i; simpl; [by destruct i|].
  destruct i as [|i]; rewrite ?drop_0.
  - destruct (rposition f l) as [p|] eqn:E; simpl.
    + apply rposition_some in E as (y & Hy & Hf & _). symmetry. apply existsb_exists.
      exists y. split; [|done]. apply list_elem_of_In. by eapply list_elem_of_lookup_2.
    + apply rposition_none in E. destruct (f x); simpl; symmetry;
        apply not_true_is_false; rewrite existsb_exists; intros (y & Hy & Hf);
        rewrite Forall_forall in E; apply list_elem_of_In, E in Hy; congruence.
  - specialize (IH i). simpl in IH. rewrite <- IH.
    destruct (rposition f l) as [p|]; simpl; [done|].
    destruct (f x); simpl; by destruct i.
Qed.

Lemma drop_S_app {A} (pre : list A) x rest : drop (S (length pre)) (pre ++ x :: rest) = rest.
Proof.
  rewrite cons_middle, app_assoc. apply drop_app_length'.
  rewrite length_app. simpl. lia.
Qed.

Lemma loaded_view_aux pre rest :
  keep_rows (fun i => default false (row_survives_load (pre ++ rest) i))
    (length pre) rest = view rest.
Proof.
  revert pre. induction rest as [|r rest IH]; intros pre; [done|].
  cbn [keep_rows view].
  specialize (IH (pre ++ [r])).
  rewrite length_app, Nat.add_comm, <- app_assoc in IH. simpl in IH. rewrite IH.
  unfold row_survives_load at 1. rewrite (list_lookup_middle pre rest r (length pre) eq_refl). cbn [mbind option_bind].
  pose proof (rposition_lt (is_lane_reset (row_kind r)) (pre ++ r :: rest) (length pre)) as Hlt.
  replace (drop (S (length pre)) (pre ++ r :: rest)) with rest in Hlt.
  2:{ by rewrite drop_S_app. }
  rewrite <- Hlt. unfold ledger_suffix_start. cbn [default].
  rewrite Nat.leb_antisym. by destruct (_ <? _)%nat.
Qed.

Lemma loaded_view_alt rows : loaded_view rows = view rows.
Proof. apply (loaded_view_aux [] rows). Qed.

(** ** Sweeping *)

(** [swept rows rows']: [rows'] drops some attempt rows that a later reset of
    their own lane has already cut. *)
Inductive swept : list (LedgerRow Id) -> list (LedgerRow Id) -> Prop :=
| swept_nil : swept [] []
| swept_keep r rest rest' : swept rest rest' -> swept (r :: rest) (r :: rest')
| swept_drop r rest rest' :
    is_event AttemptEventKind.Attempt r = true ->
    existsb (is_lane_reset (row_kind r)) rest = true ->
    swept rest rest' -> swept (r :: rest) rest'.

Lemma is_event_exclusive r :
  is_event AttemptEventKind.Attempt r = true -> is_event AttemptEventKind.Reset r = false.
Proof. unfold is_event. by destruct (event_kind r). Qed.

Lemma swept_resets rows rows' lane :
  swept rows rows' -> existsb (is_lane_reset lane) rows' = existsb (is_lane_reset lane) rows.
Proof.
  induction 1 as [|r rest rest' _ IH|r rest rest' Ha _ _ IH]; simpl; [done|by rewrite IH|].
  unfold is_lane_reset at 2. by rewrite is_event_exclusive, andb_false_r.
Qed.

Lemma swept_view rows rows' : swept rows rows' -> view rows' = view rows.
Proof.
  induction 1 as [|r rest rest' Hs IH|r rest rest' Ha He Hs IH]; simpl; [done| |by rewrite He].
  by rewrite (swept_resets rest rest') , IH.
Qed.

Lemma sweep_rows_aux del now horizon pre rest :
  (forall i, del i = true -> sweep_eligible (pre ++ rest) i now horizon = Some true) ->
  swept rest (keep_rows (fun i => negb (del i)) (length pre) rest).
Proof.
  revert pre. induction rest as [|r rest IH]; intros pre Hdel; [constructor|].
  specialize (IH (pre ++ [r])).
  rewrite length_app, Nat.add_comm, <- app_assoc in IH. specialize (IH Hdel).
  cbn [keep_rows]. destruct (del (length pre)) eqn:E; simpl; [|by constructor].
  apply Hdel in E. unfold sweep_eligible in E.
  rewrite (list_lookup_middle pre rest r (length pre) eq_refl) in E. cbn [mbind option_bind] in E.
  injection E as [[Ha Hlt]%andb_true_iff _]%andb_true_iff.
  unfold ledger_suffix_start in Hlt. rewrite rposition_lt, drop_S_app in Hlt.
  by constructor.
Qed.

Lemma sweep_rows_swept del now horizon rows :
  (forall i, del i = true -> sweep_eligible rows i now horizon = Some true) ->
  swept rows (sweep_rows del rows).
Proof. apply (sweep_rows_aux del now horizon []). Qed.

(** ** The materialization window *)

Lemma take_while_filter_prefix (f g : LedgerRow Id -> bool) rows :
  (forall r, g r = false -> f r = true) ->
  List.filter g (take_while f rows) = take_while f (List.filter g rows).
Proof.
  intros Hfg. induction rows as [|r rows IH]; simpl; [done|].
  destruct (g r) eqn:Eg; simpl.
  - destruct (f r); simpl; [by rewrite Eg, IH|done].
  - rewrite Hfg by done. simpl. by rewrite Eg.
Qed.

(** The materialization rows since the last reset of their lane, oldest first. *)
Lemma materialization_counters_lane rows :
  materialization_counters rows =
  fold_left mat_step
    (take_while (fun r => negb (is_lane_reset AttemptKind.Materialization r))
       (rev (List.filter (is_kind AttemptKind.Materialization) rows)))
    (mkMatCounters 0 0 0).
Proof.
  unfold materialization_counters. f_equal.
  rewrite take_while_filter_prefix, List.filter_rev; [done|].
  intros r Hk. unfold is_lane_reset. by rewrite Hk.
Qed.

End Ledger.

(** ** Theorems *)

(** C11: the retention sweep cannot change a decision.  Deleting any set of rows
    that are each sweep-eligible leaves the loaded suffix, element for element,
    and with it both lanes' verdicts. *)
Theorem sweep_preserves_decisions {Id : Type} `{Countable Id}
    (rows : list (LedgerRow Id)) (del : nat -> bool) (now horizon : Z)
    (budget : Budget) (at_time : AbsTime) (max_materialization_attempts : Z) :
  (forall i, del i = true -> sweep_eligible rows i now horizon = Some true) ->
  loaded_view (sweep_rows del rows) = loaded_view rows /\
  decide_fn (loaded_view (sweep_rows del rows)) budget at_time
    = decide_fn (loaded_view rows) budget at_time /\
  materialization_decide (loaded_view (sweep_rows del rows)) max_materialization_attempts
    = materialization_decide (loaded_view rows) max_materialization_attempts.
Proof.
  intros Hdel. apply sweep_rows_swept, swept_view in Hdel.
  rewrite <- !loaded_view_alt in Hdel. by rewrite Hdel.
Qed.

Lemma sweep_preserves_decisions_witness :
  let row e c k t := mkLedgerRow e c (Some 1%nat) ReportingParty.Worker false false 0 t k in
  let rows := [row AttemptEventKind.Attempt OutcomeClass.Transient AttemptKind.Build 1;
               row AttemptEventKind.Attempt OutcomeClass.MaterializationInfra
                 AttemptKind.Materialization 2;
               row AttemptEventKind.Reset OutcomeClass.ResubmitReset AttemptKind.Build 3;
               row AttemptEventKind.Attempt OutcomeClass.Transient AttemptKind.Build 4] in
  let del := fun i => (i =? 0)%nat in
  sweep_rows del rows <> rows /\
  loaded_view (sweep_rows del rows) = loaded_view rows.
Proof.
  intros row rows del. split; [discriminate|].
  destruct (sweep_preserves_decisions rows del 1000 100 Budget_default 1000 3) as [Hv _];
    [|exact Hv].
  intros i Hi. by apply Nat.eqb_eq in Hi as ->.
Defined.

Section LaneCut.
Context {Id : Type}.
Implicit Types (r : LedgerRow Id) (rows : list (LedgerRow Id)).

Lemma view_lane_filter rows lane :
  List.filter (is_kind lane) (view rows) = view (List.filter (is_kind lane) rows).
Proof.
  induction rows as [|r rows IH]; simpl; [done|].
  assert (is_kind lane r = true -> existsb (is_lane_reset (row_kind r)) rows =
    existsb (is_lane_reset (row_kind r)) (List.filter (is_kind lane) rows)) as Hex.
  { intros Hk%bool_decide_eq_true. subst lane. clear. induction rows as [|x l IHl]; simpl; [done|].
    rewrite IHl. unfold is_lane_reset at 1.
    destruct (is_kind (row_kind r) x) eqn:E; simpl; [|done]. unfold is_lane_reset. by rewrite E. }
  destruct (is_kind lane r) eqn:Hk; simpl.
  - rewrite <- Hex by done. destruct (existsb _ rows); simpl; [done|]. by rewrite Hk, IH.
  - destruct (existsb _ rows); simpl; [done|]. by rewrite Hk.
Qed.

Lemma kind_reset r lane :
  is_kind lane r = true -> is_lane_reset (row_kind r) r = is_lane_reset lane r.
Proof. unfold is_lane_reset, is_kind. intros ->%bool_decide_eq_true. done. Qed.

(** On one lane the cut keeps the rows from the last reset on, so the window
    before it is unchanged. *)
Lemma view_window lane rows :
  Forall (fun r => is_kind lane r = true) rows ->
  take_while (fun r => negb (is_lane_reset lane r)) (rev (view rows)) =
  take_while (fun r => negb (is_lane_reset lane r)) (rev rows).
Proof.
  set (f := fun r => negb (is_lane_reset lane r)).
  assert (forall l k, existsb (is_lane_reset lane) l = true ->
    take_while f (rev l ++ k) = take_while f (rev l)) as Hcut.
  { intros l k. rewrite existsb_exists. setoid_rewrite in_rev.
    generalize (rev l) as l'. clear. intros l' (x & Hin & Hx).
    induction l' as [|y l' IH]; simpl in *; [done|]. unfold f at 1 3.
    destruct (is_lane_reset lane y) eqn:E; simpl; [done|].
    f_equal. apply IH. destruct Hin; [congruence|done]. }
  induction 1 as [|r rows Hk HF IH]; simpl; [done|].
  assert (row_kind r = lane) as Hl by (by apply bool_decide_eq_true in Hk).
  rewrite Hl. destruct (existsb (is_lane_reset lane) rows) eqn:E.
  - by rewrite IH, Hcut.
  - simpl. assert (view rows = rows) as ->; [|done].
    clear -HF E. induction HF as [|x rows Hx HF IH]; simpl in *; [done|].
    apply orb_false_iff in E as [_ E]. rewrite IH by done.
    assert (row_kind x = lane) as -> by (by apply bool_decide_eq_true in Hx).
    by rewrite E.
Qed.

End LaneCut.

(** the materialization budget sees exactly its own lane and window: neither
    the build rows nor the loader's per-lane cut change its counters. *)
Theorem materialization_lane_cut {Id : Type} (rows : list (LedgerRow Id)) :
  materialization_counters (List.filter (is_kind AttemptKind.Materialization) rows)
    = materialization_counters rows /\
  materialization_counters (loaded_view rows) = materialization_counters rows.
Proof.
  rewrite !materialization_counters_lane, filter_idem. split; [done|].
  rewrite loaded_view_alt, view_lane_filter, view_window; [done|].
  apply Forall_forall. intros r Hr%list_elem_of_In. by apply List.filter_In in Hr as [_ ?].
Qed.
