(* ===== verification/RetryClassify.v ===== *)
(** * Retry kernel: classification and placement

    [classify] with its CONCURRENT_PUTPATH substring search, [placeable], and
    the [drv_executions] row sweep of [src/rio-retry-kernel/src/lib.rs].  A
    [&str] is its bytes ([list ascii]); the nested search loops are written
    with their indices, and [inner_loop]'s fuel is the needle's length, which
    bounds the number of its iterations. *)

From Stdlib Require Import Ascii String.
From S2P Require Import Prelude RetryTypes RetryFold RetryDecide.

Definition CONCURRENT_PUTPATH_MSG : list ascii :=
  list_ascii_of_string "concurrent PutPath in progress".

Section Marker.
Variables (hay needle : list ascii).

(** [while offset < needle.len() && hay[start + offset] == needle[offset]]. *)
Fixpoint inner_loop (fuel start offset : nat) : nat :=
  match fuel with
  | O => offset
  | S fuel' =>
      if (offset <? length needle)%nat
         && bool_decide (hay !! (start + offset)%nat = needle !! offset)
      then inner_loop fuel' start (S offset)
      else offset
  end.

(** [while start <= last_start]; [left] counts the remaining start positions. *)
Fixpoint outer_loop (left start : nat) : bool :=
  match left with
  | O => false
  | S left' =>
      if (inner_loop (length needle) start 0 =? length needle)%nat then true
      else outer_loop left' (S start)
  end.

Definition windowed_contains : bool :=
  if (length hay <? length needle)%nat then false
  else outer_loop (S (length hay - length needle)) 0.

(** The inner loop stops at the needle's end iff the window matches. *)
Lemma inner_loop_spec fuel start offset :
  (offset + fuel = length needle)%nat ->
  inner_loop fuel start offset = length needle <->
  (forall k, (offset <= k < length needle)%nat -> hay !! (start + k)%nat = needle !! k).
Proof.
  revert offset. induction fuel as [|fuel IH]; simpl; intros offset Hf.
  { split; intros; lia. }
  destruct (Nat.ltb_spec offset (length needle)); [|lia]. simpl.
  case_bool_decide as Hm.
  - rewrite IH by lia. split; intros Hk k Hr; [|apply Hk; lia].
    destruct (decide (k = offset)) as [->|]; [done|]. apply Hk. lia.
  - split; [lia|]. intros Hk. exfalso. apply Hm, Hk. lia.
Qed.

Definition window_at (start : nat) : Prop :=
  take (length needle) (drop start hay) = needle.

Lemma window_at_lookup start :
  (start + length needle <= length hay)%nat ->
  window_at start <->
  (forall k, (k < length needle)%nat -> hay !! (start + k)%nat = needle !! k).
Proof.
  intros Hl. unfold window_at. split.
  - intros Hw k Hk. rewrite <- Hw at 1. by rewrite lookup_take_lt, lookup_drop.
  - intros Hk. apply list_eq. intros k.
    destruct (decide (k < length needle)%nat).
    + rewrite lookup_take_lt, lookup_drop by done. by apply Hk.
    + rewrite lookup_take_ge by lia. symmetry. apply lookup_ge_None. lia.
Qed.

Lemma outer_loop_spec left start :
  (start + left + length needle <= S (length hay))%nat ->
  outer_loop left start = true <->
  exists i, (start <= i < start + left)%nat /\ window_at i.
Proof.
  revert start. induction left as [|left IH]; simpl; intros start Hl.
  { split; [done|]. intros (i & Hi & _). lia. }
  destruct (Nat.eqb_spec (inner_loop (length needle) start 0) (length needle)) as [He|He].
  - split; [|done]. intros _. exists start. split; [lia|].
    apply window_at_lookup; [lia|]. intros k Hk.
    apply (proj1 (inner_loop_spec (length needle) start 0 ltac:(lia)) He). lia.
  - rewrite IH by lia. split.
    + intros (i & Hi & Hw). exists i. split; [lia|done].
    + intros (i & Hi & Hw). exists i. split; [|done].
      destruct (decide (i = start)) as [->|]; [|lia]. exfalso. apply He.
      apply inner_loop_spec; [lia|]. intros k Hk.
      apply window_at_lookup; [lia|done|lia].
Qed.

Lemma windowed_contains_spec :
  windowed_contains = true <-> exists pre post, hay = pre ++ needle ++ post.
Proof.
  unfold windowed_contains.
  destruct (Nat.ltb_spec (length hay) (length needle)) as [Hlt|Hge].
  { split; [done|]. intros (pre & post & ->). rewrite !length_app in Hlt. lia. }
  rewrite outer_loop_spec by lia. split.
  - intros (i & Hi & Hw). exists (take i hay), (drop (length needle) (drop i hay)).
    unfold window_at in Hw. rewrite <- Hw at 1. by rewrite !take_drop.
  - intros (pre & post & Heq). exists (length pre). split.
    + rewrite Heq, !length_app. lia.
    + unfold window_at. rewrite Heq, drop_app_length. by rewrite take_app_length.
Qed.

End Marker.

(** [contains_concurrent_putpath_marker]. *)
Definition contains_concurrent_putpath_marker (msg : list ascii) : bool :=
  windowed_contains msg CONCURRENT_PUTPATH_MSG.

Record FloorOutcomeView : Type := mkFloorOutcomeView { promoted : bool; at_cap : bool }.

Module ObservedFailure.
Inductive ObservedFailure : Type :=
| WorkerTransient
| WorkerInfra (error_msg : list ascii)
| WorkerPermanent
| WorkerExecutorVariant
| WorkerTimeout
| Disconnect
| ControllerResourceTermination
| ControllerDeadlineExceeded
| BackstopTimeout
| UnreportedCrash
| WorkerStoreDegraded.
End ObservedFailure.
Abbreviation ObservedFailure := ObservedFailure.ObservedFailure.

(** [classify]. *)
Definition classify (event : ObservedFailure) (floor : FloorOutcomeView) : OutcomeClass :=
  match event with
  | ObservedFailure.WorkerTransient => OutcomeClass.Transient
  | ObservedFailure.WorkerInfra error_msg =>
      if promoted floor || contains_concurrent_putpath_marker error_msg
      then OutcomeClass.ExemptInfra else OutcomeClass.Infra
  | ObservedFailure.WorkerPermanent => OutcomeClass.Permanent
  | ObservedFailure.WorkerExecutorVariant => OutcomeClass.ExecutorVariant
  | ObservedFailure.WorkerTimeout => OutcomeClass.Timeout
  | ObservedFailure.Disconnect => OutcomeClass.Disconnected
  | ObservedFailure.ControllerResourceTermination =>
      if promoted floor then OutcomeClass.ExemptInfra else OutcomeClass.Infra
  | ObservedFailure.ControllerDeadlineExceeded => OutcomeClass.Timeout
  | ObservedFailure.BackstopTimeout => OutcomeClass.Backstop
  | ObservedFailure.UnreportedCrash => OutcomeClass.ExecutorCrash
  | ObservedFailure.WorkerStoreDegraded => OutcomeClass.StoreDegraded
  end.

Module Placement.
Inductive Placement : Type := Placeable | FleetExhausted | NoEligibleWorkers.
End Placement.
Abbreviation Placement := Placement.Placement.

(** [placeable]. *)
Definition placeable {Id : Type} `{Countable Id} (excluded eligible : gset Id) : Placement :=
  if bool_decide (eligible = ∅) then Placement.NoEligibleWorkers
  else if negb (bool_decide (excluded = ∅)) && bool_decide (eligible ⊆ excluded)
  then Placement.FleetExhausted
  else Placement.Placeable.

Module IngestSessionObservation.
Inductive IngestSessionObservation : Type := Absent | Live | Stale.
#[global] Instance IngestSessionObservation_eq_dec : EqDecision IngestSessionObservation.
Proof. solve_decision. Defined.
End IngestSessionObservation.
Abbreviation IngestSessionObservation := IngestSessionObservation.IngestSessionObservation.

(** [exec_row_sweep_eligible]. *)
Definition exec_row_sweep_eligible (terminal has_active_assignment referenced_by_ledger
    has_log_chunks : bool) (session : IngestSessionObservation) (aged_out : bool) : bool :=
  terminal && negb has_active_assignment && negb referenced_by_ledger
  && negb has_log_chunks
  && negb (bool_decide (session = IngestSessionObservation.Live))
  && aged_out.

(** the hand-written marker search is substring containment: it answers
    [true] exactly when the message contains the CONCURRENT_PUTPATH marker, and
    a worker-reported infra failure is classified exempt exactly when its
    message does or the floor was promoted. *)
Theorem marker_search_is_containment (msg : list ascii) (floor : FloorOutcomeView) :
  (contains_concurrent_putpath_marker msg = true <->
   exists pre post, msg = pre ++ CONCURRENT_PUTPATH_MSG ++ post) /\
  (classify (ObservedFailure.WorkerInfra msg) floor = OutcomeClass.ExemptInfra <->
   promoted floor = true \/
   exists pre post, msg = pre ++ CONCURRENT_PUTPATH_MSG ++ post).
Proof.
  assert (contains_concurrent_putpath_marker msg = true <->
    exists pre post, msg = pre ++ CONCURRENT_PUTPATH_MSG ++ post) as Hc
    by apply windowed_contains_spec.
  split; [done|]. rewrite <- Hc. simpl. rewrite <- orb_true_iff.
  destruct (promoted floor || contains_concurrent_putpath_marker msg); naive_solver.
Qed.

(** Placement agrees with the fold's own fleet check and never poisons an
    empty fleet: it is [Placeable] exactly when some eligible worker is not
    excluded, and [FleetExhausted] exactly when [exhausts_fleet] holds. *)
Theorem placeable_correct {Id : Type} `{Countable Id} (excluded eligible : gset Id) :
  (placeable excluded eligible = Placement.Placeable <->
   exists w, w ∈ eligible /\ w ∉ excluded) /\
  (placeable excluded eligible = Placement.FleetExhausted <->
   exhausts_fleet excluded (mkFleetView eligible) = true) /\
  (placeable excluded eligible = Placement.NoEligibleWorkers <-> eligible = ∅).
Proof.
  unfold placeable, exhausts_fleet. cbn.
  destruct (decide (eligible = ∅)) as [->|Hne].
  { rewrite bool_decide_eq_true_2, orb_true_r by done. split_and!; split; try done. set_solver. }
  rewrite (bool_decide_eq_false_2 (eligible = ∅)), orb_false_r by done.
  apply set_choose_L in Hne as Hw. destruct Hw as [w Hw].
  destruct (decide (eligible ⊆ excluded)) as [Hs|Hs].
  - assert (excluded <> ∅) by set_solver.
    rewrite (bool_decide_eq_false_2 (excluded = ∅)), (bool_decide_eq_true_2 (_ ⊆ _)) by done.
    cbn. split_and!; split; try done. intros (v & Hv & Hn). set_solver.
  - rewrite (bool_decide_eq_false_2 (_ ⊆ _)), andb_false_r by done.
    split_and!; split; try done; [|by case_bool_decide]. intros _.
    destruct (set_choose_or_empty (eligible ∖ excluded)) as [[v Hv]|He]; [set_solver|].
    exfalso. apply Hs. intros x Hx. destruct (decide (x ∈ excluded)); set_solver.
Qed.
