(* ===== verification/LogVisit.v ===== *)
(** * Log kernel: the overlap-dedup walk

    The read-side decisions of [src/rio-log-kernel/src/lib.rs]: [visit_chunk]
    and the variants built on it (keyed, manifest/object clamped, fan-out
    classified), the sealed cursor advance, the [LineCursor] of
    [src/rio-store/src/logs/tail.rs], and the walk that folds [visit_chunk]
    over a manifest read in [ORDER BY first_line] order.  Line numbers and
    counts are [u64] values in [Z]; the [BIGINT] precondition of the module
    header is [bigint_ok]. *)

From Stdlib Require Import Sorted.
From S2P Require Import Prelude.

Module ChunkVisit.
Inductive ChunkVisit : Type :=
| Skip (next_line : Z)
| Serve (yield_from yield_until next_line : Z)
| GapThenServe (gap_from gap_until yield_from yield_until next_line : Z).
End ChunkVisit.
Abbreviation ChunkVisit := ChunkVisit.ChunkVisit.

#[export] Instance ChunkVisit_eq_dec : EqDecision ChunkVisit.
Proof. solve_decision. Defined.

(** [ChunkVisit::is_empty]. *)
Definition is_empty (v : ChunkVisit) : bool :=
  match v with ChunkVisit.Skip _ => true | _ => false end.

(** [ChunkVisit::next_line]. *)
Definition visit_next_line (v : ChunkVisit) : Z :=
  match v with
  | ChunkVisit.Skip n => n
  | ChunkVisit.Serve _ _ n => n
  | ChunkVisit.GapThenServe _ _ _ _ n => n
  end.

(** [CursorAdvance], minted only by [advance]. *)
Record CursorAdvance : Type := mkCursorAdvance { to : Z; adv_gap_crossed : bool }.

Definition advance (v : ChunkVisit) : CursorAdvance :=
  mkCursorAdvance (visit_next_line v)
    (match v with ChunkVisit.GapThenServe _ _ _ _ _ => true | _ => false end).

Definition visit_chunk (next_line first_line n_lines : Z) : ChunkVisit :=
  let end_ := u64_saturating_add first_line n_lines in
  let last_line := u64_saturating_sub end_ 1 in
  if (n_lines =? 0) || (last_line <? next_line) then ChunkVisit.Skip next_line
  else if next_line <? first_line then
    ChunkVisit.GapThenServe next_line first_line first_line end_ end_
  else ChunkVisit.Serve next_line end_ end_.

Module CursorKey.
Inductive CursorKey : Type := Matches | Differs | Unkeyed.
End CursorKey.
Abbreviation CursorKey := CursorKey.CursorKey.

Module KeyedVisit.
Inductive KeyedVisit : Type := ExecSwitch | Visit (v : ChunkVisit).
End KeyedVisit.
Abbreviation KeyedVisit := KeyedVisit.KeyedVisit.

Definition visit_chunk_keyed (key : CursorKey) (next_line first_line n_lines : Z) : KeyedVisit :=
  match key with
  | CursorKey.Differs => KeyedVisit.ExecSwitch
  | CursorKey.Matches => KeyedVisit.Visit (visit_chunk next_line first_line n_lines)
  | CursorKey.Unkeyed =>
      if (next_line =? 0) || (first_line =? next_line)
      then KeyedVisit.Visit (visit_chunk next_line first_line n_lines)
      else KeyedVisit.ExecSwitch
  end.

Module ObjectDivergence.
Inductive ObjectDivergence : Type :=
| ShortObject (missing_from missing_until : Z)
| LongObject (excess : Z).
End ObjectDivergence.
Abbreviation ObjectDivergence := ObjectDivergence.ObjectDivergence.

Record ObjectVisit : Type := mkObjectVisit {
  ov_visit : ChunkVisit;
  ov_divergence : option ObjectDivergence;
}.

Definition visit_object (next_line first_line manifest_count object_count : Z) : ObjectVisit :=
  let served := Z.min manifest_count object_count in
  let divergence :=
    if object_count <? manifest_count then
      Some (ObjectDivergence.ShortObject
              (u64_saturating_add first_line object_count)
              (u64_saturating_add first_line manifest_count))
    else if manifest_count <? object_count then
      Some (ObjectDivergence.LongObject (object_count - manifest_count))
    else None in
  mkObjectVisit (visit_chunk next_line first_line served) divergence.

Module GapProvenance.
Inductive GapProvenance : Type := AdmittedHole | DroppedSpan (dropped_until : Z).
End GapProvenance.
Abbreviation GapProvenance := GapProvenance.GapProvenance.

Record FanoutVisit : Type := mkFanoutVisit {
  fv_visit : ChunkVisit;
  fv_provenance : option GapProvenance;
}.

Definition visit_fanout_batch (next_line first_line n_lines coverage_floor : Z) : FanoutVisit :=
  let visit := visit_chunk next_line first_line n_lines in
  let provenance :=
    match visit with
    | ChunkVisit.Skip _ | ChunkVisit.Serve _ _ _ => None
    | ChunkVisit.GapThenServe gap_from gap_until _ _ _ =>
        Some (if gap_from <? coverage_floor
              then GapProvenance.DroppedSpan (Z.min coverage_floor gap_until)
              else GapProvenance.AdmittedHole)
    end in
  mkFanoutVisit visit provenance.

(** ** [LineCursor] *)

Record LineCursor : Type := mkLineCursor { next_line : Z; gap_crossed : bool }.

Definition LineCursor_new (since_line : Z) : LineCursor := mkLineCursor since_line false.

Definition advance_to (c : LineCursor) (adv : CursorAdvance) : LineCursor :=
  mkLineCursor (Z.max (next_line c) (to adv)) (gap_crossed c || adv_gap_crossed adv).

(** The half-open range a visit contributes. *)
Definition yielded (v : ChunkVisit) : Z * Z :=
  match v with
  | ChunkVisit.Skip n => (n, n)
  | ChunkVisit.Serve yf yu _ => (yf, yu)
  | ChunkVisit.GapThenServe _ _ yf yu _ => (yf, yu)
  end.

Definition in_range (r : Z * Z) (l : Z) : Prop := fst r <= l < snd r.

(** A manifest row [(first_line, line_count)] and the lines it claims. *)
Abbreviation row := (Z * Z)%type.
Definition row_ok (r : row) : Prop := bigint_ok (fst r) /\ bigint_ok (snd r).
Definition row_holds (r : row) (l : Z) : Prop := fst r <= l < fst r + snd r.
Definition rows_hold (rs : list row) (l : Z) : Prop := exists r, r ∈ rs /\ row_holds r l.
Definition by_first (r s : row) : Prop := fst r <= fst s.

(** The dedup walk over a manifest: the cursor after it, and the yielded
    ranges in order. *)
Definition walk_step (st : LineCursor * list (Z * Z)) (r : row) : LineCursor * list (Z * Z) :=
  let v := visit_chunk (next_line (fst st)) (fst r) (snd r) in
  (advance_to (fst st) (advance v), snd st ++ [yielded v]).

Definition walk (rs : list row) (c : LineCursor) : LineCursor * list (Z * Z) :=
  fold_left walk_step rs (c, []).

Section Visit.
Implicit Types (n f k l : Z).

(** The exact case split of [visit_chunk] under the [BIGINT] precondition. *)
Lemma visit_chunk_cases n f k :
  row_ok (f, k) ->
  visit_chunk n f k =
  if (k =? 0) || (f + k <=? n) then ChunkVisit.Skip n
  else if n <? f then ChunkVisit.GapThenServe n f f (f + k) (f + k)
  else ChunkVisit.Serve n (f + k) (f + k).
Proof.
  intros [Hf Hk]. simpl in *. unfold visit_chunk, u64_saturating_add, u64_saturating_sub.
  rewrite Z.min_l by mach.
  destruct (Z.eqb_spec k 0); simpl; [done|].
  replace (Z.max (f + k - 1) 0 <? n) with (f + k <=? n); [done|].
  apply eq_true_iff_eq. rewrite Z.leb_le, Z.ltb_lt. mach.
Qed.

(** The lines a visit yields are exactly the chunk's lines at or above the
    watermark. *)
Lemma visit_yields n f k l :
  row_ok (f, k) ->
  in_range (yielded (visit_chunk n f k)) l <-> row_holds (f, k) l /\ n <= l.
Proof.
  intros Hr. rewrite visit_chunk_cases by done. destruct Hr as [Hf Hk]; simpl in *.
  unfold in_range, row_holds.
  destruct (Z.eqb_spec k 0); simpl; [mach|].
  destruct (Z.leb_spec (f + k) n); simpl; [mach|].
  destruct (Z.ltb_spec n f); simpl; mach.
Qed.

(** Where the watermark lands. *)
Lemma visit_lands n f k :
  row_ok (f, k) ->
  visit_next_line (visit_chunk n f k) =
  if k =? 0 then n else Z.max n (f + k).
Proof.
  intros Hr. rewrite visit_chunk_cases by done. destruct Hr as [Hf Hk]; simpl in *.
  destruct (Z.eqb_spec k 0); simpl; [done|].
  destruct (Z.leb_spec (f + k) n); simpl; [lia|].
  destruct (Z.ltb_spec n f); simpl; lia.
Qed.

(** A visit that does not report a gap serves a contiguous extension. *)
Lemma visit_gap_free n f k :
  row_ok (f, k) ->
  adv_gap_crossed (advance (visit_chunk n f k)) = false ->
  forall l, n <= l < visit_next_line (visit_chunk n f k) -> row_holds (f, k) l.
Proof.
  intros Hr. rewrite visit_chunk_cases by done. destruct Hr as [Hf Hk]; simpl in *.
  unfold row_holds. destruct (Z.eqb_spec k 0); simpl; [lia|].
  destruct (Z.leb_spec (f + k) n); simpl; [lia|].
  destruct (Z.ltb_spec n f); simpl; [done|]. lia.
Qed.

Lemma visit_monotone n f k :
  row_ok (f, k) -> n <= visit_next_line (visit_chunk n f k).
Proof. intros Hr. rewrite visit_lands by done. destruct (k =? 0); lia. Qed.

(** A gap is reported exactly when the chunk has lines and starts past the
    watermark. *)
Lemma visit_gap_iff n f k :
  row_ok (f, k) ->
  adv_gap_crossed (advance (visit_chunk n f k)) = true <-> 0 < k /\ n < f.
Proof.
  intros Hr. rewrite visit_chunk_cases by done. destruct Hr as [Hf Hk]; simpl in *.
  destruct (Z.eqb_spec k 0); simpl; [split; [done|lia]|].
  destruct (Z.leb_spec (f + k) n); simpl; [split; [done|mach]|].
  destruct (Z.ltb_spec n f); simpl; split; try done; mach.
Qed.

End Visit.

(** ** The walk *)

Section Walk.
Variable since : Z.

(** The lines served by a walk, in the order they are emitted. *)
Definition served (ranges : list (Z * Z)) : list Z :=
  flat_map (fun r => seqZ (fst r) (snd r - fst r)) ranges.

Record walk_inv (pre : list row) (st : LineCursor * list (Z * Z)) : Prop := {
  wi_since : since <= next_line (fst st);
  wi_top : next_line (fst st) = since \/
           exists p, p ∈ pre /\ 0 < snd p /\ next_line (fst st) = fst p + snd p;
  wi_below : Forall (fun l => since <= l < next_line (fst st)) (served (snd st));
  wi_exact : forall l, l ∈ served (snd st) <-> since <= l /\ rows_hold pre l;
  wi_sorted : StronglySorted Z.lt (served (snd st));
  wi_gap_free : gap_crossed (fst st) = false ->
    forall l, since <= l < next_line (fst st) -> rows_hold pre l;
}.

Lemma served_app rs r : served (rs ++ [r]) = served rs ++ seqZ (fst r) (snd r - fst r).
Proof. unfold served. rewrite flat_map_app. simpl. by rewrite app_nil_r. Qed.

Lemma seqZ_sorted a n : StronglySorted Z.lt (seqZ a n).
Proof.
  destruct (decide (0 <= n)) as [Hn|]; [|rewrite seqZ_nil by lia; constructor].
  revert a. pattern n. apply natlike_ind; [intros; rewrite seqZ_nil by lia; constructor| |done].
  intros k Hk IH a. rewrite seqZ_cons by lia. rewrite Z.pred_succ. constructor; [done|].
  apply Forall_forall. intros x Hx%elem_of_seqZ. lia.
Qed.

Lemma sorted_app_lt (l k : list Z) b :
  StronglySorted Z.lt l -> StronglySorted Z.lt k ->
  Forall (fun x => x < b) l -> Forall (fun x => b <= x) k ->
  StronglySorted Z.lt (l ++ k).
Proof.
  intros Hl Hk Hlb Hkb. induction Hl as [|x l Hl IH Hx]; simpl; [done|].
  apply Forall_cons in Hlb as [Hb Hlb]. constructor; [by apply IH|].
  apply Forall_app. split; [done|]. eapply Forall_impl; [done|]. simpl. lia.
Qed.

Lemma rows_hold_app pre r l :
  rows_hold (pre ++ [r]) l <-> rows_hold pre l \/ row_holds r l.
Proof.
  unfold rows_hold. setoid_rewrite elem_of_app. setoid_rewrite list_elem_of_singleton.
  naive_solver.
Qed.

(** A row of a sorted manifest adds no line below the watermark. *)
Lemma walk_below_watermark pre st r l :
  walk_inv pre st -> Forall (fun p => by_first p r) pre ->
  row_holds r l -> since <= l < next_line (fst st) -> rows_hold pre l.
Proof.
  intros Hinv Hs Hr Hl. destruct (wi_top _ _ Hinv) as [E|(p & Hp & Hk & E)]; [lia|].
  exists p. split; [done|]. rewrite Forall_forall in Hs. specialize (Hs p Hp).
  unfold row_holds, by_first in *. lia.
Qed.

Lemma walk_step_inv pre st r :
  walk_inv pre st -> row_ok r -> Forall (fun p => by_first p r) pre ->
  walk_inv (pre ++ [r]) (walk_step st r).
Proof.
  intros Hinv Hok Hs.
  pose proof (fun l => walk_below_watermark pre st r l Hinv Hs) as Hb.
  destruct r as [f k], st as [[n g] ranges]. simpl in *.
  pose proof (visit_yields n f k) as Hy. pose proof (visit_lands n f k Hok) as Hland.
  pose proof (visit_gap_free n f k Hok) as Hgf.
  pose proof (visit_monotone n f k Hok) as Hmono.
  destruct Hinv as [Hsince Htop Hbelow Hexact Hsorted Hgap]; simpl in *.
  unfold walk_step; simpl. set (v := visit_chunk n f k) in *.
  assert (Hrange : forall l, l ∈ seqZ (fst (yielded v)) (snd (yielded v) - fst (yielded v))
             <-> row_holds (f, k) l /\ n <= l).
  { intros l. rewrite elem_of_seqZ, <- Hy by done. unfold in_range. lia. }
  constructor; simpl.
  - lia.
  - rewrite Z.max_r by lia. rewrite Hland. destruct (Z.eqb_spec k 0).
    + destruct Htop as [|(p & ? & ? & ?)]; [by left|right; exists p].
      rewrite elem_of_app. by split; [left|].
    + destruct (decide (f + k <= n)).
      * rewrite Z.max_l by lia. destruct Htop as [|(p & ? & ? & ?)]; [by left|right; exists p].
        rewrite elem_of_app. by split; [left|].
      * right. exists (f, k). rewrite elem_of_app, list_elem_of_singleton. simpl.
        destruct Hok as [_ Hk]. simpl in Hk. split; [by right|]. mach.
  - rewrite served_app. apply Forall_app. split.
    + eapply Forall_impl; [done|]. simpl. lia.
    + apply Forall_forall. intros l Hl%Hrange. rewrite Z.max_r by lia. rewrite Hland.
      unfold row_holds in Hl. simpl in Hl. destruct (Z.eqb_spec k 0); lia.
  - intros l. rewrite served_app, elem_of_app, Hexact, Hrange, rows_hold_app.
    split; [intros [[? ?]|[? ?]]; auto with lia|].
    intros [Hl [?|Hr]]; [by left|]. destruct (decide (n <= l)); [by right|].
    left. split; [done|]. apply Hb; [done|lia].
  - rewrite served_app. apply (sorted_app_lt _ _ n); [done|apply seqZ_sorted| |].
    + eapply Forall_impl; [done|]. simpl. lia.
    + apply Forall_forall. intros l Hl%Hrange. lia.
  - intros [Hg Hv]%orb_false_iff l Hl. rewrite Z.max_r in Hl by lia.
    apply rows_hold_app. destruct (decide (l < n)); [left; apply Hgap; [done|lia]|].
    right. apply Hgf; [done|lia].
Qed.

Lemma walk_inv_holds rs :
  StronglySorted by_first rs -> Forall row_ok rs ->
  walk_inv rs (walk rs (LineCursor_new since)).
Proof.
  unfold walk. intros Hs Hok.
  assert (H : forall pre st, walk_inv pre st -> Forall (fun p => Forall (by_first p) rs) pre ->
            walk_inv (pre ++ rs) (fold_left walk_step rs st)).
  { induction rs as [|r rs IH]; intros pre st Hi Hpre; simpl; [by rewrite app_nil_r|].
    apply StronglySorted_inv in Hs as [Hs Hr]. apply Forall_cons in Hok as [Hrok Hok].
    rewrite cons_middle, app_assoc. apply (IH Hs Hok).
    - apply walk_step_inv; [done|done|]. eapply Forall_impl; [done|].
      intros p Hp. by apply Forall_cons in Hp as [? _].
    - apply Forall_app. split; [|by constructor].
      eapply Forall_impl; [done|]. intros p Hp. by apply Forall_cons in Hp as [_ ?]. }
  apply (H []); [|constructor]. constructor; simpl; try done.
  - by left.
  - split; [by intros ?%not_elem_of_nil|]. intros [_ (r & []%not_elem_of_nil & _)].
  - constructor.
  - lia.
Qed.

End Walk.

(** The overlap-dedup walk over an [ORDER BY first_line] manifest serves
    every stored line at or above [since] exactly once, in ascending order, and
    nothing else; and if the cursor it leaves never crossed a gap, every line
    from [since] up to its watermark was served. *)
Theorem dedup_walk_exact since rs :
  StronglySorted by_first rs -> Forall row_ok rs ->
  let out := walk rs (LineCursor_new since) in
  StronglySorted Z.lt (served (snd out)) /\
  (forall l, l ∈ served (snd out) <-> since <= l /\ rows_hold rs l) /\
  (gap_crossed (fst out) = false ->
   forall l, since <= l < next_line (fst out) -> l ∈ served (snd out)).
Proof.
  intros Hs Hok out. destruct (walk_inv_holds since rs Hs Hok) as [_ _ _ He Hst Hg].
  split; [done|]. split; [done|]. intros Hf l Hl. apply He. split; [lia|by apply Hg].
Qed.

Lemma dedup_walk_exact_witness :
  let rs := [(0, 4); (2, 5); (2, 1); (9, 2)] in
  served (snd (walk rs (LineCursor_new 1))) = [1; 2; 3; 4; 5; 6; 9; 10] /\
  StronglySorted Z.lt (served (snd (walk rs (LineCursor_new 1)))).
Proof.
  split; [vm_compute; reflexivity|].
  apply (dedup_walk_exact 1 [(0, 4); (2, 5); (2, 1); (9, 2)]).
  - repeat first [constructor | (unfold by_first; simpl; lia)].
  - repeat constructor; simpl; mach.
Defined.
