(* ===== verification/LogCoverage.v ===== *)
(** * Log kernel: coverage folds and the durable account

    The frontier scans over an ordered manifest ([short_object_policy],
    [manifest_covers_contiguously]), the normalized [CoverageMap] and the
    dual-axis [log_account] of [src/rio-log-kernel/src/lib.rs].  A loop with
    early exits is a [Fixpoint] whose recursion is the slice. *)

From Stdlib Require Import Sorted.
From stdpp Require Import sorting.
From S2P Require Import Prelude LogVisit.

Module ShortObjectPolicy.
Inductive ShortObjectPolicy : Type := ServeClamped | UnservableHole.
End ShortObjectPolicy.
Abbreviation ShortObjectPolicy := ShortObjectPolicy.ShortObjectPolicy.

#[export] Instance ShortObjectPolicy_eq_dec : EqDecision ShortObjectPolicy.
Proof. solve_decision. Defined.

(** The [for] loop of [short_object_policy]: [covered_to] on exit. *)
Fixpoint policy_loop (covered_to missing_until : Z) (remaining : list row) : Z :=
  match remaining with
  | [] => covered_to
  | (first, count) :: rest =>
      if missing_until <=? covered_to then covered_to
      else
        let end_ := u64_saturating_add first count in
        if covered_to <? first then covered_to
        else policy_loop (Z.max covered_to end_) missing_until rest
  end.

Definition short_object_policy (cursor_next_line missing_from missing_until : Z)
    (remaining : list row) : ShortObjectPolicy :=
  let needed_from := Z.max missing_from cursor_next_line in
  if missing_until <=? needed_from then ShortObjectPolicy.ServeClamped
  else if missing_until <=? policy_loop needed_from missing_until remaining
       then ShortObjectPolicy.ServeClamped
       else ShortObjectPolicy.UnservableHole.

(** The [for] loop of [manifest_covers_contiguously] with its two returns. *)
Fixpoint covers_loop (covered up_to : Z) (chunks : list row) : bool :=
  match chunks with
  | [] => up_to <=? covered
  | (first_line, line_count) :: rest =>
      if covered <? first_line then false
      else
        let covered' := Z.max covered (i64_saturating_add first_line line_count) in
        if up_to <=? covered' then true else covers_loop covered' up_to rest
  end.

Definition manifest_covers_contiguously (chunks : list row) (up_to : Z) : bool :=
  covers_loop 0 up_to chunks.

Section Frontier.
Implicit Types (rs : list row) (c u l : Z).

Lemma rows_hold_cons r rs l : rows_hold (r :: rs) l <-> row_holds r l \/ rows_hold rs l.
Proof. unfold rows_hold. setoid_rewrite elem_of_cons. naive_solver. Qed.

Lemma rows_hold_nil l : ~ rows_hold [] l.
Proof. by intros (r & []%not_elem_of_nil & _). Qed.

(** In an ordered manifest, nothing before the first row's start is held. *)
Lemma sorted_not_held f k rs l :
  StronglySorted by_first ((f, k) :: rs) -> l < f -> ~ rows_hold ((f, k) :: rs) l.
Proof.
  intros [Hs Hf]%StronglySorted_inv Hl (r & Hr & Hh).
  apply elem_of_cons in Hr as [->|Hr]; unfold row_holds in Hh; simpl in *; [lia|].
  rewrite Forall_forall in Hf. specialize (Hf r Hr). unfold by_first in Hf. simpl in Hf. lia.
Qed.

(** The scan reaches [u] iff every line of [[c, u)] is held. *)
Lemma policy_loop_spec rs c u :
  StronglySorted by_first rs -> Forall row_ok rs ->
  u <= policy_loop c u rs <-> (forall l, c <= l < u -> rows_hold rs l).
Proof.
  revert c. induction rs as [|[f k] rs IH]; intros c Hs Hok; simpl.
  - split; [lia|]. intros H. destruct (decide (u <= c)); [done|].
    destruct (rows_hold_nil c). apply H. lia.
  - apply Forall_cons in Hok as [[Hf Hk] Hok]. simpl in Hf, Hk.
    destruct (Z.leb_spec u c); [split; [intros; lia|lia]|].
    destruct (Z.ltb_spec c f).
    + split; [lia|]. intros Hall. exfalso.
      eapply sorted_not_held; [done..|]. apply Hall. lia.
    + apply StronglySorted_inv in Hs as [Hs _]. rewrite (IH _ Hs Hok).
      unfold u64_saturating_add. rewrite Z.min_l by mach. split; intros Hall l Hl.
      * rewrite rows_hold_cons. destruct (decide (l < f + k)).
        -- left. unfold row_holds. simpl. lia.
        -- right. apply Hall. lia.
      * assert (Hh : rows_hold ((f, k) :: rs) l) by (apply Hall; lia).
        rewrite rows_hold_cons in Hh. unfold row_holds in Hh. simpl in Hh.
        destruct Hh; [lia|done].
Qed.

(** The [i64] fold is the same scan: its saturation is unobservable. *)
Lemma covers_loop_policy rs c u :
  Forall row_ok rs -> 0 <= c < u -> u <= i64_max ->
  covers_loop c u rs = (u <=? policy_loop c u rs).
Proof.
  revert c. induction rs as [|[f k] rs IH]; intros c Hok Hc Hu; simpl; [done|].
  apply Forall_cons in Hok as [[Hf Hk] Hok]. simpl in Hf, Hk.
  destruct (Z.leb_spec u c); [lia|].
  destruct (Z.ltb_spec c f); [symmetry; apply Z.leb_gt; lia|].
  unfold u64_saturating_add, i64_saturating_add. rewrite (Z.min_l (f + k) u64_max) by mach.
  destruct (decide (f + k <= i64_max)).
  - rewrite Z.min_l, (Z.max_r i64_min) by mach.
    destruct (Z.leb_spec u (Z.max c (f + k))) as [Hge|Hlt]; [|apply IH; [done|lia|done]].
    symmetry. apply Z.leb_le.
    destruct rs as [|[f' k'] rs']; simpl; [done|].
    destruct (Z.leb_spec u (Z.max c (f + k))); lia.
  - rewrite Z.min_r, (Z.max_r i64_min) by mach.
    destruct (Z.leb_spec u (Z.max c i64_max)); [|lia].
    symmetry. apply Z.leb_le.
    destruct rs as [|[f' k'] rs']; simpl; [lia|].
    destruct (Z.leb_spec u (Z.max c (f + k))); lia.
Qed.

End Frontier.

(** For an ordered manifest, the short-object policy serves iff every
    missing line was either already served to this reader (it is below the
    cursor) or is held by a remaining row; an unservable hole is refused iff
    some missing line is held nowhere. *)
Theorem short_object_policy_exact cursor missing_from missing_until remaining :
  StronglySorted by_first remaining -> Forall row_ok remaining ->
  short_object_policy cursor missing_from missing_until remaining
    = ShortObjectPolicy.ServeClamped <->
  (forall l, missing_from <= l < missing_until -> l < cursor \/ rows_hold remaining l).
Proof.
  intros Hs Hok. unfold short_object_policy.
  destruct (Z.leb_spec missing_until (Z.max missing_from cursor)).
  { split; [|done]. intros _ l Hl. left. lia. }
  pose proof (policy_loop_spec remaining (Z.max missing_from cursor) missing_until Hs Hok) as Hp.
  destruct (Z.leb_spec missing_until
    (policy_loop (Z.max missing_from cursor) missing_until remaining)) as [Hle|Hgt].
  - split; [|done]. intros _ l Hl. destruct (decide (l < cursor)); [by left|right].
    apply Hp; [done|lia].
  - split; [done|]. intros Hall. exfalso.
    assert (missing_until <= policy_loop (Z.max missing_from cursor) missing_until remaining)
      by (apply Hp; intros l Hl; destruct (Hall l); [lia|lia|done]). lia.
Qed.

Lemma short_object_policy_exact_witness :
  short_object_policy 3 2 8 [(1, 4); (5, 3)] = ShortObjectPolicy.ServeClamped /\
  (forall l, 2 <= l < 8 -> l < 3 \/ rows_hold [(1, 4); (5, 3)] l).
Proof.
  split; [reflexivity|]. apply short_object_policy_exact.
  - repeat first [constructor | (unfold by_first; simpl; lia)].
  - repeat constructor; simpl; mach.
  - reflexivity.
Defined.

(** The completeness fold answers [true] iff every line of a non-empty
    [[0, up_to)] is held by some row of the ordered manifest. *)
Theorem manifest_covers_exact chunks up_to :
  StronglySorted by_first chunks -> Forall row_ok chunks -> 0 < up_to <= i64_max ->
  manifest_covers_contiguously chunks up_to = true <->
  (forall l, 0 <= l < up_to -> rows_hold chunks l).
Proof.
  intros Hs Hok Hu. unfold manifest_covers_contiguously.
  rewrite covers_loop_policy by (done || lia). rewrite Z.leb_le. by apply policy_loop_spec.
Qed.

Lemma manifest_covers_exact_witness :
  manifest_covers_contiguously [(0, 3); (1, 2); (3, 4)] 7 = true /\
  (forall l, 0 <= l < 7 -> rows_hold [(0, 3); (1, 2); (3, 4)] l).
Proof.
  split; [reflexivity|]. apply manifest_covers_exact.
  - repeat first [constructor | (unfold by_first; simpl; lia)].
  - repeat constructor; simpl; mach.
  - mach.
  - reflexivity.
Defined.

(** The empty prefix is the one case outside the exact fold: a manifest whose
    first row starts past line 0 does not "cover" [[0, 0)], although the empty
    manifest does. *)
Example empty_prefix_needs_line_zero :
  manifest_covers_contiguously [(5, 1)] 0 = false /\ manifest_covers_contiguously [] 0 = true.
Proof. done. Qed.

(** ** [CoverageMap] *)

Abbreviation span := (Z * Z)%type.
Abbreviation CoverageMap := (list span).

(** The derived tuple order of [sort_unstable]. *)
Definition span_le (a b : span) : Prop :=
  fst a < fst b \/ (fst a = fst b /\ snd a <= snd b).

#[export] Instance span_le_dec : RelDecision span_le.
Proof. intros a b. unfold span_le. apply _. Defined.
#[export] Instance span_le_trans : Transitive span_le.
Proof. intros a b c. unfold span_le. lia. Qed.
#[export] Instance span_le_total : Total span_le.
Proof. intros [a b] [c d]. unfold span_le. simpl. lia. Qed.

(** The body of the normalizing loop: extend the last span or push. *)
Definition push_span (spans : CoverageMap) (s : span) : CoverageMap :=
  match last spans with
  | Some (prev_start, prev_end) =>
      if fst s <=? prev_end
      then removelast spans ++ [(prev_start, Z.max prev_end (snd s))]
      else spans ++ [s]
  | None => spans ++ [s]
  end.

Definition raw_spans (intervals : list row) : list span :=
  List.map (fun '(first, count) => (first, u64_saturating_add first count))
    (List.filter (fun '(_, count) => 0 <? count) intervals).

Definition from_intervals (intervals : list row) : CoverageMap :=
  fold_left push_span (merge_sort span_le (raw_spans intervals)) [].

Definition covers_range (m : CoverageMap) (first end_ : Z) : bool :=
  if end_ <=? first then false
  else
    (* [partition_point] on the sorted spans *)
    match length (take_while (fun s : span => fst s <=? first) m) with
    | O => false
    | S i => match m !! i with Some s => end_ <=? snd s | None => false end
    end.

Definition contiguous_prefix_end (m : CoverageMap) : Z :=
  match m with
  | (start, end_) :: _ => if start =? 0 then end_ else 0
  | [] => 0
  end.

Definition contiguous_durable_frontier (m : CoverageMap) : option Z :=
  u64_checked_sub (contiguous_prefix_end m) 1.

Definition insert_interval (m : CoverageMap) (first_line line_count : Z) : CoverageMap :=
  if line_count =? 0 then m
  else from_intervals
         (List.map (fun '(start, end_) => (start, end_ - start)) m ++ [(first_line, line_count)]).

(** Sorted, disjoint, non-adjacent, non-empty spans of representable lines. *)
Definition span_ok (s : span) : Prop := 0 <= fst s < snd s /\ snd s <= u64_max.
Definition span_before (s t : span) : Prop := snd s < fst t.
Definition normal (m : CoverageMap) : Prop :=
  Forall span_ok m /\ StronglySorted span_before m.
Definition covered_line (m : CoverageMap) (l : Z) : Prop :=
  exists s, s ∈ m /\ in_range s l.

(** An interval whose end is representable: saturation does not engage. *)
Definition row_fits (r : row) : Prop := 0 <= fst r /\ 0 <= snd r /\ fst r + snd r <= u64_max.

Section Coverage.
Implicit Types (m : CoverageMap) (s : span) (l : Z).

Lemma covered_app m k l : covered_line (m ++ k) l <-> covered_line m l \/ covered_line k l.
Proof. unfold covered_line. setoid_rewrite elem_of_app. naive_solver. Qed.

Lemma covered_cons s m l : covered_line (s :: m) l <-> in_range s l \/ covered_line m l.
Proof. unfold covered_line. setoid_rewrite elem_of_cons. naive_solver. Qed.

Lemma covered_single s l : covered_line [s] l <-> in_range s l.
Proof. unfold covered_line. setoid_rewrite list_elem_of_singleton. naive_solver. Qed.

Lemma covered_perm m k l : m ≡ₚ k -> covered_line m l <-> covered_line k l.
Proof. intros Hp. unfold covered_line. by setoid_rewrite Hp. Qed.

Lemma removelast_snoc m s : removelast (m ++ [s]) = m.
Proof. apply removelast_last. Qed.

Lemma sorted_snoc {A} (R : A -> A -> Prop) (m : list A) (s : A) :
  StronglySorted R (m ++ [s]) <-> StronglySorted R m /\ Forall (fun t => R t s) m.
Proof.
  induction m as [|t m IH]; simpl.
  - split; [intros _; split; constructor|]. intros _. repeat constructor.
  - split.
    + intros [Hs Hf]%StronglySorted_inv. apply IH in Hs as [Hs Hm].
      apply Forall_app in Hf as [Hf Hl]. apply Forall_cons in Hl as [Hl _].
      split; [by constructor|by constructor].
    + intros [[Hs Hf]%StronglySorted_inv Hm]. apply Forall_cons in Hm as [Ht Hm].
      constructor; [by apply IH|]. apply Forall_app. split; [done|by constructor].
Qed.

(** The loop invariant: the spans so far are normal, the last one starts at or
    before everything still to come, and nothing is gained or lost. *)
Lemma push_span_normal m s :
  normal m -> span_ok s -> Forall (fun t => fst t <= fst s) m ->
  normal (push_span m s) /\
  Forall (fun t => fst t <= fst s) (push_span m s) /\
  (forall l, covered_line (push_span m s) l <-> covered_line m l \/ in_range s l).
Proof.
  intros [Hok Hs] Hsok Hf. unfold push_span.
  destruct m as [|[p pe] m _] using rev_ind; simpl.
  { split; [split; [by apply Forall_singleton|repeat constructor]|].
    split; [by apply Forall_singleton|].
    intros l. rewrite covered_single. split; [by right|].
    intros [(t & []%not_elem_of_nil & _)|?]; done. }
  rewrite last_snoc, removelast_snoc.
  apply Forall_app in Hok as [Hok Hp]. apply Forall_cons in Hp as [Hp _].
  pose proof Hs as [Hm Hb]%sorted_snoc.
  apply Forall_app in Hf as [Hf Hpf]. apply Forall_cons in Hpf as [Hpf _].
  unfold span_ok in *. simpl in *. destruct (Z.leb_spec (fst s) pe) as [Hle|Hgt].
  - split; [split|split].
    + apply Forall_app. split; [done|]. constructor; [|done]. unfold span_ok. simpl. lia.
    + apply sorted_snoc. by split.
    + apply Forall_app. split; [done|by constructor].
    + intros l. rewrite !covered_app, !covered_single. unfold in_range. simpl.
      split; intros [|]; try lia; naive_solver lia.
  - split; [split|split].
    + apply Forall_app. split; [|by constructor]. apply Forall_app. split; [done|by constructor].
    + apply sorted_snoc. split; [done|]. apply Forall_app. split; [|by constructor].
      rewrite Forall_forall in *. intros t Ht. specialize (Hb t Ht). unfold span_before in *.
      simpl in *. lia.
    + apply Forall_app. split; [|by constructor]. apply Forall_app. split; [done|by constructor].
    + intros l. by rewrite !covered_app, !covered_single.
Qed.

Lemma push_spans_normal raw m :
  StronglySorted span_le raw -> Forall span_ok raw -> normal m ->
  Forall (fun t => Forall (fun s => fst t <= fst s) raw) m ->
  normal (fold_left push_span raw m) /\
  (forall l, covered_line (fold_left push_span raw m) l <->
             covered_line m l \/ covered_line raw l).
Proof.
  revert m. induction raw as [|s raw IH]; intros m Hs Hok Hm Hf; simpl.
  { split; [done|]. intros l. split; [by left|].
    by intros [|(t & []%not_elem_of_nil & _)]. }
  apply StronglySorted_inv in Hs as [Hs Hr]. apply Forall_cons in Hok as [Hsok Hok].
  destruct (push_span_normal m s Hm Hsok) as (Hn & Hb & Hc).
  { eapply Forall_impl; [done|]. intros t Ht. by apply Forall_cons in Ht as [? _]. }
  destruct (IH (push_span m s) Hs Hok Hn) as [Hn' Hc'].
  { eapply Forall_impl; [exact Hb|]. intros t Ht. simpl in Ht. eapply Forall_impl; [exact Hr|].
    unfold span_le. intros u Hu. lia. }
  split; [done|]. intros l. rewrite Hc', Hc.
  rewrite covered_cons. tauto.
Qed.

Lemma raw_spans_ok rs : Forall row_fits rs -> Forall span_ok (raw_spans rs).
Proof.
  intros Hok. apply Forall_forall. intros s (r & Er & Hr)%list_elem_of_In%in_map_iff.
  apply List.filter_In in Hr as [Hr%list_elem_of_In Hc]. rewrite Forall_forall in Hok.
  specialize (Hok r Hr). destruct r as [f k]. apply Z.ltb_lt in Hc. subst s.
  unfold span_ok, row_fits in *. simpl in *. mach.
Qed.

Lemma raw_spans_cover rs l :
  Forall row_fits rs -> covered_line (raw_spans rs) l <-> rows_hold rs l.
Proof.
  induction 1 as [|[f k] rs [Hf [Hk Hfk]] _ IH].
  - split; [by intros (s & []%not_elem_of_nil & _)|by intros ?%rows_hold_nil].
  - simpl in *. rewrite rows_hold_cons. unfold raw_spans in *. simpl.
    destruct (Z.ltb_spec 0 k); simpl.
    + rewrite covered_cons, IH. unfold in_range, row_holds. simpl. mach_unfold.
      rewrite Z.min_l by lia. done.
    + rewrite IH. unfold row_holds. simpl. intuition lia.
Qed.

(** The normalizer: canonical form, and exactly the union of the intervals. *)
Lemma from_intervals_spec rs :
  Forall row_fits rs ->
  normal (from_intervals rs) /\
  (forall l, covered_line (from_intervals rs) l <-> rows_hold rs l).
Proof.
  intros Hok. unfold from_intervals.
  assert (Hp : merge_sort span_le (raw_spans rs) ≡ₚ raw_spans rs) by apply merge_sort_Permutation.
  destruct (push_spans_normal (merge_sort span_le (raw_spans rs)) []) as [Hn Hc].
  - apply (StronglySorted_merge_sort _).
  - rewrite Hp. by apply raw_spans_ok.
  - split; constructor.
  - constructor.
  - split; [done|]. intros l. rewrite Hc, (covered_perm _ _ l Hp), raw_spans_cover by done.
    split; [|by right]. by intros [(t & []%not_elem_of_nil & _)|].
Qed.

(** In a normal map a line is covered iff the last span starting at or before it
    holds it. *)
Lemma normal_last_span m first :
  normal m ->
  match length (take_while (fun s : span => fst s <=? first) m) with
  | O => Forall (fun s => first < fst s) m
  | S i => exists s, m !! i = Some s /\ fst s <= first /\
      (forall t, t ∈ m -> fst t <= first -> snd t < fst s \/ t = s) /\
      (forall t, t ∈ m -> first < fst t -> snd s < fst t)
  end.
Proof.
  induction m as [|s m IH]; [by constructor|]. intros [Hok Hs].
  apply Forall_cons in Hok as [Hsok Hok]. apply StronglySorted_inv in Hs as [Hs Hb].
  specialize (IH (conj Hok Hs)). simpl. destruct (Z.leb_spec (fst s) first); simpl.
  - destruct (length (take_while _ m)) as [|i].
    + exists s. simpl. split; [done|]. split; [done|]. rewrite Forall_forall in IH, Hb.
      split; intros t [->|Ht]%elem_of_cons Hle; [by right|specialize (IH t Ht); lia|lia|].
      specialize (Hb t Ht). unfold span_before in Hb. lia.
    + destruct IH as (u & Hu & Hle & H1 & H2). exists u. simpl. split; [done|]. split; [done|].
      split; intros t [->|Ht]%elem_of_cons Ht'; [|by apply H1|lia|by apply H2].
      left. rewrite Forall_forall in Hb. apply (Hb u). by eapply list_elem_of_lookup_2.
  - constructor; [lia|]. rewrite Forall_forall in *. intros t Ht.
    specialize (Hb t Ht). unfold span_before, span_ok in *. lia.
Qed.

Lemma covers_range_spec m first end_ :
  normal m ->
  covers_range m first end_ = true <->
  first < end_ /\ (forall l, first <= l < end_ -> covered_line m l).
Proof.
  intros Hm. unfold covers_range. destruct (Z.leb_spec end_ first); [split; [done|lia]|].
  pose proof (normal_last_span m first Hm) as Hl.
  destruct (length (take_while _ m)) as [|i].
  - split; [done|]. intros [_ Hc]. destruct (Hc first ltac:(lia)) as (s & Hs & Hin).
    rewrite Forall_forall in Hl. specialize (Hl s Hs). unfold in_range in Hin. lia.
  - destruct Hl as (s & Hi & Hle & H1 & H2). rewrite Hi, Z.leb_le. split.
    + intros He. split; [done|]. intros l Hl. exists s.
      split; [by eapply list_elem_of_lookup_2|]. unfold in_range. lia.
    + intros [_ Hc]. destruct (decide (end_ <= snd s)); [done|]. exfalso.
      assert (Hfs : first < snd s).
      { destruct (Hc first ltac:(lia)) as (t & Ht & Hin). unfold in_range in Hin.
        destruct (H1 t Ht ltac:(lia)) as [? | ->]; lia. }
      destruct (Hc (snd s) ltac:(lia)) as (t & Ht & Hin). unfold in_range in Hin.
      destruct (decide (fst t <= first)) as [Hf|Hf].
      * destruct (H1 t Ht Hf) as [? | ->]; lia.
      * specialize (H2 t Ht ltac:(lia)). lia.
Qed.

Lemma prefix_end_spec m :
  normal m ->
  0 <= contiguous_prefix_end m /\
  (forall l, 0 <= l < contiguous_prefix_end m -> covered_line m l) /\
  ~ covered_line m (contiguous_prefix_end m).
Proof.
  intros [Hok Hs]. destruct m as [|[a b] m]; simpl.
  { split; [done|]. split; [lia|]. by intros (s & []%not_elem_of_nil & _). }
  apply Forall_cons in Hok as [Ha Hok]. apply StronglySorted_inv in Hs as [Hs Hb].
  unfold span_ok in Ha. simpl in Ha. rewrite Forall_forall in Hb, Hok.
  unfold span_before in Hb. simpl in Hb. destruct (Z.eqb_spec a 0).
  - split; [lia|]. split.
    + intros l Hl. rewrite covered_cons. left. unfold in_range. simpl. lia.
    + rewrite covered_cons. intros [?|(s & Hin & ?)]; unfold in_range in *; simpl in *; [lia|].
      specialize (Hb s Hin). lia.
  - split; [done|]. split; [lia|]. rewrite covered_cons.
    intros [?|(s & Hin & ?)]; unfold in_range in *; simpl in *; [lia|].
    specialize (Hb s Hin). lia.
Qed.

Lemma frontier_spec m :
  normal m ->
  match contiguous_durable_frontier m with
  | Some v => 0 <= v /\ (forall l, 0 <= l <= v -> covered_line m l) /\ ~ covered_line m (v + 1)
  | None => ~ covered_line m 0
  end.
Proof.
  intros (H0 & Hc & Hn)%prefix_end_spec.
  unfold contiguous_durable_frontier, u64_checked_sub.
  destruct (Z.leb_spec 1 (contiguous_prefix_end m)).
  - split; [lia|]. split; [intros; apply Hc; lia|].
    by replace (contiguous_prefix_end m - 1 + 1) with (contiguous_prefix_end m) by lia.
  - by replace 0 with (contiguous_prefix_end m) by lia.
Qed.

Lemma spans_as_rows m l :
  rows_hold (List.map (fun '(start, end_) => (start, end_ - start)) m) l <-> covered_line m l.
Proof.
  induction m as [|[a b] m IH]; simpl.
  - split; [by intros ?%rows_hold_nil|by intros (s & []%not_elem_of_nil & _)].
  - rewrite rows_hold_cons, covered_cons, IH. unfold row_holds, in_range. simpl.
    by replace (a + (b - a)) with b by lia.
Qed.

Lemma insert_interval_spec m f k :
  normal m -> row_fits (f, k) ->
  normal (insert_interval m f k) /\
  (forall l, covered_line (insert_interval m f k) l <-> covered_line m l \/ row_holds (f, k) l).
Proof.
  intros Hm Hr. unfold insert_interval. destruct (Z.eqb_spec k 0) as [->|].
  { split; [done|]. intros l. unfold row_holds. simpl. intuition lia. }
  destruct (from_intervals_spec
    (List.map (fun '(start, end_) => (start, end_ - start)) m ++ [(f, k)])) as [Hn Hc].
  { apply Forall_app. split; [|by constructor]. apply Forall_forall.
    intros r ([a b] & <- & Hab%list_elem_of_In)%list_elem_of_In%in_map_iff.
    destruct Hm as [Hok _]. rewrite Forall_forall in Hok. specialize (Hok _ Hab).
    unfold span_ok, row_fits in *. simpl in *. lia. }
  split; [done|]. intros l. by rewrite Hc, rows_hold_app, spans_as_rows.
Qed.

End Coverage.

(** ** The interface the ingest session relies on

    What a durable-coverage map promises its client: the set of covered lines,
    the exact covered-range consult, the maximal contiguous frontier from line
    0 and the effect of inserting a committed run. *)
Class DurableCoverage (M : Type) := {
  cov_wf : M -> Prop;
  cov_line : M -> Z -> Prop;
  cov_covers_range : M -> Z -> Z -> bool;
  cov_prefix_end : M -> Z;
  cov_insert : M -> Z -> Z -> M;
  cov_covers_spec m first end_ : cov_wf m ->
    cov_covers_range m first end_ = true <->
    first < end_ /\ (forall l, first <= l < end_ -> cov_line m l);
  cov_prefix_spec m : cov_wf m ->
    0 <= cov_prefix_end m /\ (forall l, 0 <= l < cov_prefix_end m -> cov_line m l) /\
    ~ cov_line m (cov_prefix_end m);
  cov_insert_spec m f k : cov_wf m -> row_fits (f, k) ->
    cov_wf (cov_insert m f k) /\
    (forall l, cov_line (cov_insert m f k) l <-> cov_line m l \/ row_holds (f, k) l);
}.

#[export] Instance CoverageMap_durable : DurableCoverage CoverageMap := {|
  cov_wf := normal;
  cov_line := covered_line;
  cov_covers_range := covers_range;
  cov_prefix_end := contiguous_prefix_end;
  cov_insert := insert_interval;
  cov_covers_spec := covers_range_spec;
  cov_prefix_spec := prefix_end_spec;
  cov_insert_spec := insert_interval_spec;
|}.

(** The normalized map of any intervals: the covered-range consult is true
    iff the range is non-empty and every line of it lies in some interval, and
    the durable frontier is the greatest [v] with every line [<= v] covered
    ([None] iff line 0 is not). *)
Theorem coverage_map_exact rs first end_ :
  Forall row_fits rs ->
  (covers_range (from_intervals rs) first end_ = true <->
   first < end_ /\ (forall l, first <= l < end_ -> rows_hold rs l)) /\
  match contiguous_durable_frontier (from_intervals rs) with
  | Some v => 0 <= v /\ (forall l, 0 <= l <= v -> rows_hold rs l) /\ ~ rows_hold rs (v + 1)
  | None => ~ rows_hold rs 0
  end.
Proof.
  intros Hok. destruct (from_intervals_spec rs Hok) as [Hn Hc]. split.
  - rewrite covers_range_spec by done. by setoid_rewrite Hc.
  - pose proof (frontier_spec _ Hn) as Hf.
    destruct (contiguous_durable_frontier _); by setoid_rewrite Hc in Hf.
Qed.

Lemma coverage_map_exact_witness :
  let rs := [(6, 2); (0, 3); (2, 2); (9, 0)] in
  Forall row_fits rs /\ from_intervals rs = [(0, 4); (6, 8)] /\
  covers_range (from_intervals rs) 1 4 = true /\
  (forall l, 1 <= l < 4 -> rows_hold rs l).
Proof.
  assert (Hr : Forall row_fits [(6, 2); (0, 3); (2, 2); (9, 0)])
    by (repeat constructor; simpl; mach).
  split; [exact Hr|]. split; [reflexivity|]. split; [reflexivity|].
  refine (proj2 (proj1 (proj1 (coverage_map_exact _ 1 4 Hr)) _)). vm_compute. reflexivity.
Defined.
