(* ===== verification/LogAccount.v ===== *)
(** * Log kernel: the durable log account

    [AccountRow], [LogAccount] and [log_account] of
    [src/rio-log-kernel/src/lib.rs].  The [(u128, u32)] tiebreak key is a pair
    of [Z] in lexicographic order; the O(n^2) redundancy predicate is kept
    with its index test. *)

From stdpp Require Import well_founded.
From S2P Require Import Prelude LogVisit.

Record AccountRow : Type := mkAccountRow {
  first_line : Z;
  line_count : Z;
  accounted_bytes : Z;
  key : Z * Z;
}.

#[export] Instance AccountRow_eq_dec : EqDecision AccountRow.
Proof. solve_decision. Defined.

(** [AccountRow::end]. *)
Definition row_end (r : AccountRow) : Z := u64_saturating_add (first_line r) (line_count r).

Record LogAccount : Type := mkLogAccount {
  merged_bytes : Z;
  merged_chunks : Z;
  raw_bytes : Z;
  raw_rows : Z;
}.

(** The derived order of the key tuple. *)
Definition key_ltb (a b : Z * Z) : bool :=
  (fst a <? fst b) || ((fst a =? fst b) && (snd a <? snd b)).

(** The closure of [any] after the index test. *)
Definition dominates (o r : AccountRow) : bool :=
  negb (bool_decide (key o = key r))
  && (first_line o <=? first_line r)
  && (row_end r <=? row_end o)
  && ((first_line o <? first_line r) || (row_end r <? row_end o) || key_ltb (key r) (key o)).

Definition redundant (rows : list AccountRow) (i : nat) (r : AccountRow) : bool :=
  existsb (fun '(j, o) => negb (j =? i)%nat && dominates o r) (imap pair rows).

Definition account_step (rows : list AccountRow) (acct : LogAccount)
    (ir : nat * AccountRow) : LogAccount :=
  let '(i, r) := ir in
  let raw_b := u64_saturating_add (raw_bytes acct) (accounted_bytes r) in
  let raw_r := u64_saturating_add (raw_rows acct) 1 in
  if redundant rows i r
  then mkLogAccount (merged_bytes acct) (merged_chunks acct) raw_b raw_r
  else mkLogAccount (u64_saturating_add (merged_bytes acct) (accounted_bytes r))
         (u64_saturating_add (merged_chunks acct) 1) raw_b raw_r.

Definition log_account (rows : list AccountRow) : LogAccount :=
  fold_left (account_step rows) (imap pair rows) (mkLogAccount 0 0 0 0).

(** The rows of the merged pair. *)
Definition survivors (rows : list AccountRow) : list AccountRow :=
  List.filter (fun r => negb (existsb (fun o => dominates o r) rows)) rows.

Definition sum_bytes (rows : list AccountRow) : Z :=
  foldr (fun r acc => accounted_bytes r + acc) 0 rows.

Section Account.
Implicit Types (rows : list AccountRow) (o p r : AccountRow).

Lemma dominates_spec o r :
  dominates o r = true <->
  key o <> key r /\ first_line o <= first_line r /\ row_end r <= row_end o /\
  (first_line o < first_line r \/ row_end r < row_end o \/ key_ltb (key r) (key o) = true).
Proof.
  unfold dominates. rewrite !andb_true_iff, !orb_true_iff, negb_true_iff, bool_decide_eq_false.
  rewrite !Z.leb_le, !Z.ltb_lt. tauto.
Qed.

Lemma key_ltb_spec a b :
  key_ltb a b = true <-> fst a < fst b \/ (fst a = fst b /\ snd a < snd b).
Proof.
  unfold key_ltb. rewrite orb_true_iff, andb_true_iff, !Z.ltb_lt, Z.eqb_eq. done.
Qed.

Lemma dominates_irrefl r : dominates r r = false.
Proof. apply not_true_iff_false. rewrite dominates_spec. naive_solver. Qed.

Lemma dominates_trans p o r :
  (key p = key r -> p = r) ->
  dominates p o = true -> dominates o r = true -> dominates p r = true.
Proof.
  rewrite !dominates_spec, !key_ltb_spec. intros Hinj (Hk1 & H1) (Hk2 & H2).
  split; [|lia]. intros E. specialize (Hinj E). subst r. lia.
Qed.

(** The manifest's primary key: no two rows share a key. *)
Definition keys_distinct rows : Prop :=
  forall o r, o ∈ rows -> r ∈ rows -> key o = key r -> o = r.

Lemma keys_distinct_nodup rows : NoDup (List.map key rows) -> keys_distinct rows.
Proof.
  intros Hn o r [i Hi]%list_elem_of_lookup_1 [j Hj]%list_elem_of_lookup_1 Hk.
  assert (i = j) as ->; [|congruence].
  change (List.map key rows) with (key <$> rows) in Hn.
  eapply NoDup_lookup; [done| |]; rewrite list_lookup_fmap, ?Hi, ?Hj; simpl; [done|].
  by rewrite Hk.
Qed.

(** The index test is implied by the key test. *)
Lemma redundant_existsb rows i r :
  rows !! i = Some r -> redundant rows i r = existsb (fun o => dominates o r) rows.
Proof.
  intros Hi. unfold redundant. apply eq_true_iff_eq. rewrite !existsb_exists. split.
  - intros ([j o] & Hin%list_elem_of_In & Hd). apply andb_true_iff in Hd as [_ Hd].
    apply list_elem_of_lookup_1 in Hin as [k Hk]. rewrite list_lookup_imap in Hk.
    apply fmap_Some in Hk as (x & Hx & [= -> ->]). exists x.
    split; [by eapply list_elem_of_In, list_elem_of_lookup_2|done].
  - intros (o & Hin%list_elem_of_In & Hd). apply list_elem_of_lookup_1 in Hin as [j Hj].
    exists (j, o). split.
    + apply list_elem_of_In, (list_elem_of_lookup_2 _ j).
      by rewrite list_lookup_imap, Hj.
    + rewrite Hd, andb_true_r. apply negb_true_iff, Nat.eqb_neq. intros ->.
      rewrite Hi in Hj. injection Hj as ->. by rewrite dominates_irrefl in Hd.
Qed.

(** The fold, on any suffix of the enumeration. *)
Lemma account_fold rows (l : list (nat * AccountRow)) acct :
  Forall (fun ir => rows !! fst ir = Some (snd ir)) l ->
  Forall (fun ir => 0 <= accounted_bytes (snd ir)) l ->
  0 <= merged_bytes acct -> 0 <= merged_chunks acct ->
  raw_bytes acct + sum_bytes (List.map snd l) <= u64_max ->
  raw_rows acct + Z.of_nat (length l) <= u64_max ->
  merged_bytes acct <= raw_bytes acct -> merged_chunks acct <= raw_rows acct ->
  let live := List.filter (fun r => negb (existsb (fun o => dominates o r) rows)) (List.map snd l) in
  fold_left (account_step rows) l acct =
  mkLogAccount (merged_bytes acct + sum_bytes live)
    (merged_chunks acct + Z.of_nat (length live))
    (raw_bytes acct + sum_bytes (List.map snd l)) (raw_rows acct + Z.of_nat (length l)).
Proof.
  revert acct. induction l as [|[i r] l IH]; simpl; intros [mb mc rb rr] Hl Hb; simpl.
  { intros. f_equal; lia. }
  apply Forall_cons in Hl as [Hi Hl]. apply Forall_cons in Hb as [Hr Hb]. simpl in *.
  intros H1 H2 H3 H4 H5 H6.
  assert (Hs : 0 <= sum_bytes (List.map snd l)).
  { clear -Hb. induction Hb as [|x l Hx _ IH]; simpl in *; lia. }
  rewrite redundant_existsb by done. unfold u64_saturating_add.
  destruct (existsb _ rows) eqn:E; simpl; rewrite (IH _ Hl Hb); simpl;
    first [f_equal; lia | lia].
Qed.

Lemma imap_pair_snd rows : List.map snd (imap pair rows) = rows.
Proof.
  apply list_eq. intros i. change (List.map snd) with (fmap (M := list) (@snd nat AccountRow)).
  rewrite list_lookup_fmap, list_lookup_imap. by destruct (rows !! i).
Qed.

(** Moving from a row to one that dominates it loses a dominator. *)
Lemma dominators_decrease rows o r :
  keys_distinct rows -> o ∈ rows -> r ∈ rows -> dominates o r = true ->
  (length (List.filter (fun p => dominates p o) rows) <
   length (List.filter (fun p => dominates p r) rows))%nat.
Proof.
  intros Hk Ho Hr Hd.
  assert (Hi : forall x, x ∈ rows -> dominates x o = true -> dominates x r = true).
  { intros x Hx Hxo. eapply dominates_trans; [|done..]. by apply Hk. }
  clear Hk Hr. induction rows as [|x rows IH]; simpl; [by apply not_elem_of_nil in Ho|].
  assert (Hle : (length (List.filter (fun p => dominates p o) rows) <=
                 length (List.filter (fun p => dominates p r) rows))%nat).
  { assert (Hi' : forall y, y ∈ rows -> dominates y o = true -> dominates y r = true)
      by (intros; apply Hi; [by right|done]).
    clear -Hi'. induction rows as [|y rows IH]; simpl; [done|].
    pose proof (Hi' y ltac:(left)) as Hy.
    specialize (IH (fun z Hz => Hi' z ltac:(by right))).
    destruct (dominates y o), (dominates y r); simpl; lia. }
  pose proof (Hi x ltac:(left)) as Hx.
  apply elem_of_cons in Ho as [<-|Ho].
  - rewrite dominates_irrefl, Hd. simpl. lia.
  - specialize (IH Ho (fun z Hz => Hi z ltac:(by right))).
    destruct (dominates x o), (dominates x r); simpl; lia.
Qed.

Lemma survivors_elem rows r :
  r ∈ survivors rows <-> r ∈ rows /\ forall o, o ∈ rows -> dominates o r = false.
Proof.
  unfold survivors. rewrite list_elem_of_In, List.filter_In, <- list_elem_of_In.
  rewrite negb_true_iff, <- not_true_iff_false, existsb_exists.
  setoid_rewrite <- list_elem_of_In. setoid_rewrite <- not_true_iff_false. naive_solver.
Qed.

(** Every row is, or is dominated by, a survivor. *)
Lemma dominated_by_survivor rows r :
  keys_distinct rows -> r ∈ rows ->
  exists o, o ∈ survivors rows /\ (o = r \/ dominates o r = true).
Proof.
  intros Hk. remember (length (List.filter (fun o => dominates o r) rows)) as n eqn:Hn.
  revert r Hn. induction (Nat.lt_wf_0 n) as [n _ IH]. intros r -> Hr.
  destruct (existsb (fun o => dominates o r) rows) eqn:E.
  - apply existsb_exists in E as (o & Ho%list_elem_of_In & Hd).
    destruct (IH _ (dominators_decrease rows o r Hk Ho Hr Hd) o eq_refl Ho) as (p & Hp & Hpo).
    exists p. split; [done|]. right. destruct Hpo as [->|Hpo]; [done|].
    eapply dominates_trans; [|done..]. apply survivors_elem in Hp as [Hp _]. by apply Hk.
  - exists r. split; [|by left]. apply survivors_elem. split; [done|].
    intros o Ho. apply not_true_iff_false. intros Hd. apply not_true_iff_false in E. apply E.
    apply existsb_exists. exists o. by rewrite <- list_elem_of_In.
Qed.

Lemma survivors_antichain rows o r :
  o ∈ survivors rows -> r ∈ survivors rows -> key o <> key r ->
  ~ (first_line o <= first_line r /\ row_end r <= row_end o).
Proof.
  rewrite !survivors_elem. intros [Ho Hod] [Hr Hrd] Hne [H1 H2].
  pose proof (Hrd o Ho) as Hd1. pose proof (Hod r Hr) as Hd2.
  apply not_true_iff_false in Hd1, Hd2. rewrite dominates_spec, key_ltb_spec in Hd1, Hd2.
  apply Hd1. split; [done|]. split; [done|]. split; [done|].
  destruct (decide (first_line o < first_line r)); [by left|].
  destruct (decide (row_end r < row_end o)); [by right; left|]. right. right.
  destruct (decide (fst (key r) < fst (key o) \/ fst (key r) = fst (key o) /\ snd (key r) < snd (key o)));
    [done|]. exfalso. apply Hd2. split; [congruence|]. split; [lia|]. split; [lia|].
  right. right. destruct (key o) as [a b], (key r) as [c d]. simpl in *.
  destruct (decide (a = c)); [|lia]. subst. right. split; [done|].
  assert (b <> d) by congruence. lia.
Qed.

Lemma log_account_eq rows :
  Forall (fun r => 0 <= accounted_bytes r) rows ->
  sum_bytes rows <= u64_max -> Z.of_nat (length rows) <= u64_max ->
  log_account rows =
  mkLogAccount (sum_bytes (survivors rows)) (Z.of_nat (length (survivors rows)))
    (sum_bytes rows) (Z.of_nat (length rows)).
Proof.
  intros Hb Hs Hl. unfold log_account. rewrite account_fold; simpl; try lia.
  - by rewrite imap_pair_snd, length_imap.
  - apply Forall_forall. intros [i r] [k Hk]%list_elem_of_lookup_1.
    rewrite list_lookup_imap in Hk. by apply fmap_Some in Hk as (x & Hx & [= -> ->]).
  - rewrite <- (imap_pair_snd rows) in Hb. by rewrite List.Forall_map in Hb.
  - by rewrite imap_pair_snd.
  - by rewrite length_imap.
Qed.

(** A row dominated by an existing one changes no survivor. *)
Lemma survivors_contained rows o r :
  keys_distinct (rows ++ [r]) -> o ∈ rows -> dominates o r = true ->
  survivors (rows ++ [r]) = survivors rows.
Proof.
  intros Hk Ho Hd. unfold survivors. rewrite filter_app_bool. simpl. rewrite existsb_app. simpl.
  replace (existsb (fun o0 => dominates o0 r) rows) with true; simpl.
  - rewrite app_nil_r. apply filter_ext_in. intros p Hp%list_elem_of_In.
    rewrite existsb_app. simpl. f_equal. rewrite orb_false_r.
    destruct (dominates r p) eqn:Erp; [|by rewrite orb_false_r].
    rewrite orb_true_r. symmetry. apply existsb_exists. exists o.
    split; [by apply list_elem_of_In|]. eapply dominates_trans; [|done..].
    intros E. apply Hk; [apply elem_of_app; by left..|done].
  - symmetry. apply existsb_exists. exists o. by rewrite <- list_elem_of_In.
Qed.

End Account.

(** The account of a manifest with distinct keys: the raw pair sums every
    row, the merged pair sums a set of surviving rows in which every row's
    interval is contained and no survivor's interval is contained in another's,
    so each covered interval is charged once. *)
Theorem log_account_exact rows :
  NoDup (List.map key rows) ->
  Forall (fun r => 0 <= accounted_bytes r) rows ->
  sum_bytes rows <= u64_max -> Z.of_nat (length rows) <= u64_max ->
  log_account rows =
    mkLogAccount (sum_bytes (survivors rows)) (Z.of_nat (length (survivors rows)))
      (sum_bytes rows) (Z.of_nat (length rows)) /\
  (forall r, r ∈ rows -> exists o, o ∈ survivors rows /\
     first_line o <= first_line r /\ row_end r <= row_end o) /\
  (forall o r, o ∈ survivors rows -> r ∈ survivors rows -> o <> r ->
     ~ (first_line o <= first_line r /\ row_end r <= row_end o)).
Proof.
  intros Hn%keys_distinct_nodup Hb Hs Hl. split; [by apply log_account_eq|]. split.
  - intros r Hr. destruct (dominated_by_survivor rows r Hn Hr) as (o & Ho & [->|Hd]).
    + exists r. split; [done|lia].
    + exists o. split; [done|]. apply dominates_spec in Hd as (_ & ? & ? & _). done.
  - intros o r Ho Hr Hne. apply (survivors_antichain rows); [done|done|].
    intros E. apply Hne. apply survivors_elem in Ho as [Ho _], Hr as [Hr _]. by apply Hn.
Qed.

Definition account_example : list AccountRow :=
  [mkAccountRow 0 10 320 (1, 0); mkAccountRow 2 3 96 (2, 0);
   mkAccountRow 0 10 320 (2, 1); mkAccountRow 8 4 128 (3, 0)].

Lemma log_account_exact_witness :
  log_account account_example = mkLogAccount 448 2 864 4 /\
  (forall r, r ∈ account_example -> exists o, o ∈ survivors account_example /\
     first_line o <= first_line r /\ row_end r <= row_end o).
Proof.
  split; [vm_compute; reflexivity|]. apply (log_account_exact account_example).
  - unfold account_example. simpl. apply (bool_decide_unpack _). vm_compute. exact I.
  - repeat constructor; simpl; lia.
  - vm_compute. discriminate.
  - vm_compute. discriminate.
Defined.

(** Re-observing an interval already covered by a committed row (a wider one,
    or the same one under a greater key) adds nothing to the merged account and
    its full charge to the raw account. *)
Theorem covered_row_charged_raw_only rows o r :
  NoDup (List.map key (rows ++ [r])) ->
  Forall (fun r => 0 <= accounted_bytes r) (rows ++ [r]) ->
  sum_bytes (rows ++ [r]) <= u64_max -> Z.of_nat (length (rows ++ [r])) <= u64_max ->
  o ∈ rows -> dominates o r = true ->
  log_account (rows ++ [r]) =
    mkLogAccount (merged_bytes (log_account rows)) (merged_chunks (log_account rows))
      (raw_bytes (log_account rows) + accounted_bytes r) (raw_rows (log_account rows) + 1).
Proof.
  intros Hn Hb Hs Hl Ho Hd.
  assert (Hsum : sum_bytes (rows ++ [r]) = sum_bytes rows + accounted_bytes r).
  { unfold sum_bytes. clear. induction rows; simpl in *; lia. }
  pose proof Hb as [Hb' Hr]%Forall_app. apply Forall_cons in Hr as [Hr _].
  rewrite length_app in Hl. simpl in Hl.
  rewrite !log_account_eq; try done; try lia; [|by rewrite length_app; simpl; lia].
  rewrite (survivors_contained rows o r) by (done || by apply keys_distinct_nodup).
  simpl. rewrite Hsum, length_app. simpl. f_equal. lia.
Qed.

Lemma covered_row_charged_raw_only_witness :
  let o := mkAccountRow 0 10 320 (1, 0) in
  let r := mkAccountRow 2 3 96 (2, 0) in
  dominates o r = true /\
  log_account ([o] ++ [r]) =
    mkLogAccount (merged_bytes (log_account [o])) (merged_chunks (log_account [o]))
      (raw_bytes (log_account [o]) + 96) (raw_rows (log_account [o]) + 1).
Proof.
  split; [reflexivity|].
  apply (covered_row_charged_raw_only _ (mkAccountRow 0 10 320 (1, 0))).
  - apply (bool_decide_unpack _). vm_compute. exact I.
  - repeat constructor; simpl; lia.
  - vm_compute. discriminate.
  - vm_compute. discriminate.
  - apply list_elem_of_singleton. reflexivity.
  - reflexivity.
Defined.
