(* ===== verification/LogChunks.v ===== *)
(** * Log chunks: the cutter and the chunk codec

    The cutter decisions of [src/rio-log-kernel/src/lib.rs]
    ([contiguous_prefix_len], [bounded_contiguous_prefix_len] and the byte
    constants) and the length-prefixed chunk codec of
    [src/rio-store/src/logs/chunks.rs].  A byte is a [Z]; the zstd library is a
    pair of section variables: the encoder over the concatenated writes, and
    the decoder as the byte stream it yields with a flag telling whether the
    stream ended cleanly. *)

From S2P Require Import Prelude.

Abbreviation bytes := (list Z).

Definition LINE_LEN_PREFIX_BYTES : Z := 4.
Definition MAX_CHUNK_PAYLOAD_BYTES : Z := 16 * 1024 * 1024.
Definition PER_LINE_OVERHEAD_BYTES : Z := 32.
Definition charged_line_cost (content_len : Z) : Z :=
  u64_saturating_add content_len PER_LINE_OVERHEAD_BYTES.
Definition MAX_CHUNK_LINES : Z :=
  MAX_CHUNK_PAYLOAD_BYTES / (PER_LINE_OVERHEAD_BYTES + LINE_LEN_PREFIX_BYTES).
Definition MAX_CHUNK_LINES_ABS : Z := MAX_CHUNK_PAYLOAD_BYTES / LINE_LEN_PREFIX_BYTES.
Definition MAX_LINE_CONTENT_BYTES : Z := 64 * 1024.
Definition MAX_BATCH_LINES : Z := MAX_CHUNK_LINES.

(** ** The cutter *)

(** [prev.checked_add(1) == Some(n)]. *)
Definition follows (prev n : Z) : bool := bool_decide (u64_checked_add prev 1 = Some n).

Fixpoint prefix_loop (prev : Z) (line_numbers : list Z) : nat :=
  match line_numbers with
  | [] => O
  | n :: rest => if follows prev n then S (prefix_loop n rest) else O
  end.

Definition contiguous_prefix_len (line_numbers : list Z) : nat :=
  match line_numbers with
  | [] => O
  | prev :: rest => S (prefix_loop prev rest)
  end.

Definition framed_cost (content_len : Z) : Z :=
  u64_saturating_add (charged_line_cost content_len) LINE_LEN_PREFIX_BYTES.

Fixpoint bounded_loop (prev framed max_payload : Z) (lines : list (Z * Z)) : nat :=
  match lines with
  | [] => O
  | (n, content_len) :: rest =>
      if negb (follows prev n) then O
      else
        let next_framed := u64_saturating_add framed (framed_cost content_len) in
        if max_payload <? next_framed then O
        else S (bounded_loop n next_framed max_payload rest)
  end.

Definition bounded_contiguous_prefix_len (lines : list (Z * Z)) (max_payload : Z) : nat :=
  match lines with
  | [] => O
  | (prev, first_len) :: rest => S (bounded_loop prev (framed_cost first_len) max_payload rest)
  end.

(** The charged payload of a run, without saturation. *)
Definition charge (lines : list (Z * Z)) : Z :=
  foldr (fun ln acc => snd ln + 36 + acc) 0 lines.

(** A run of consecutive line numbers. *)
Fixpoint consecutive (lines : list Z) : Prop :=
  match lines with
  | x :: ((y :: _) as rest) => y = x + 1 /\ consecutive rest
  | _ => True
  end.

(** Lines the cutter meets: representable numbers and truncated contents. *)
Definition line_small (ln : Z * Z) : Prop :=
  0 <= fst ln <= i64_max /\ 0 <= snd ln <= MAX_LINE_CONTENT_BYTES.

Section Cutter.
Implicit Types (ls : list (Z * Z)) (prev n framed mp : Z).

Lemma follows_spec prev n : prev < u64_max -> follows prev n = true <-> n = prev + 1.
Proof.
  intros Hp. unfold follows, u64_checked_add. rewrite bool_decide_eq_true.
  destruct (Z.leb_spec (prev + 1) u64_max); [naive_solver|lia].
Qed.

Lemma framed_cost_small n : 0 <= n <= MAX_LINE_CONTENT_BYTES -> framed_cost n = n + 36.
Proof.
  unfold framed_cost, charged_line_cost, MAX_LINE_CONTENT_BYTES, PER_LINE_OVERHEAD_BYTES,
    LINE_LEN_PREFIX_BYTES. mach.
Qed.

Lemma charge_nonneg ls : Forall line_small ls -> 0 <= charge ls.
Proof. induction 1 as [|x ls [_ Hx] _ IH]; simpl; lia. Qed.

Lemma last_cons_default (l : list Z) x d : List.last (x :: l) d = List.last l x.
Proof. revert x. induction l as [|y l IH]; intros x; [done|]. simpl in *. by destruct l. Qed.

Lemma bounded_loop_cons n len ls prev framed mp :
  0 <= prev <= i64_max -> 0 <= framed -> framed <= mp -> mp <= i64_max ->
  0 <= len <= MAX_LINE_CONTENT_BYTES ->
  bounded_loop prev framed mp ((n, len) :: ls) =
  if bool_decide (n = prev + 1) && (framed + (len + 36) <=? mp)
  then S (bounded_loop n (framed + (len + 36)) mp ls) else O.
Proof.
  intros Hp Hf Hfm Hm Hlen. simpl. rewrite framed_cost_small by done.
  replace (u64_saturating_add framed (len + 36)) with (framed + (len + 36)).
  2:{ unfold MAX_LINE_CONTENT_BYTES in Hlen. mach. }
  replace (follows prev n) with (bool_decide (n = prev + 1)).
  2:{ apply eq_true_iff_eq. rewrite follows_spec, bool_decide_eq_true by mach. done. }
  case_bool_decide; simpl; [|done].
  rewrite Z.ltb_antisym. by destruct (_ <=? _).
Qed.

(** The loop drains a consecutive continuation within the bound, and the line it
    stops at either breaks the run or would exceed the bound. *)
Lemma bounded_loop_spec ls prev framed mp :
  Forall line_small ls -> 0 <= prev <= i64_max -> 0 <= framed -> mp <= i64_max ->
  framed <= mp ->
  let k := bounded_loop prev framed mp ls in
  (k <= length ls)%nat /\
  consecutive (prev :: List.map fst (take k ls)) /\
  framed + charge (take k ls) <= mp /\
  (forall n len, ls !! k = Some (n, len) ->
     n <> List.last (List.map fst (take k ls)) prev + 1 \/
     mp < framed + charge (take k ls) + (len + 36)).
Proof.
  revert prev framed. induction ls as [|[n len] ls IH]; intros prev framed Hl Hp Hf Hm Hfm.
  { simpl. split; [done|]. split; [done|]. split; [lia|done]. }
  apply Forall_cons in Hl as [[Hn Hlen] Hl]. cbn [fst snd] in *.
  rewrite bounded_loop_cons by done.
  case_bool_decide as Ef; simpl.
  2:{ split; [lia|]. split; [done|]. split; [lia|]. intros n' len' [= <- <-]. by left. }
  destruct (Z.leb_spec (framed + (len + 36)) mp) as [Hle|Hgt]; simpl.
  2:{ split; [lia|]. split; [done|]. split; [lia|]. intros n' len' [= <- <-]. right. lia. }
  destruct (IH n (framed + (len + 36)) Hl Hn ltac:(lia) Hm Hle) as (H1 & H2 & H3 & H4).
  split; [lia|]. split; [done|]. split; [lia|]. intros n' len' Hk.
  destruct (H4 n' len' Hk) as [H5|H5]; [left|right; lia].
  intros E. apply H5. rewrite E. f_equal. apply last_cons_default.
Qed.

Lemma consecutive_index (l : list Z) x i y :
  consecutive (x :: l) -> (x :: l) !! i = Some y -> y = x + Z.of_nat i.
Proof.
  revert x i. induction l as [|z l IH]; intros x [|i] Hc Hi; simpl in Hi; simplify_eq; try lia.
  destruct Hc as [-> Hc]. rewrite (IH _ _ Hc Hi). lia.
Qed.

(** The line-count anchor: a run within the bound has at most [MAX_CHUNK_LINES]
    lines. *)
Lemma charge_lines ls :
  Forall line_small ls -> 36 * Z.of_nat (length ls) <= charge ls.
Proof. induction 1 as [|x ls [_ Hx] _ IH]; simpl; lia. Qed.

Lemma bounded_prefix_spec ls :
  Forall line_small ls -> ls <> [] ->
  let k := bounded_contiguous_prefix_len ls MAX_CHUNK_PAYLOAD_BYTES in
  (0 < k <= length ls)%nat /\
  consecutive (List.map fst (take k ls)) /\
  charge (take k ls) <= MAX_CHUNK_PAYLOAD_BYTES /\
  Z.of_nat k <= MAX_CHUNK_LINES /\
  (forall n len, ls !! k = Some (n, len) ->
     n <> List.last (List.map fst (take k ls)) 0 + 1 \/
     MAX_CHUNK_PAYLOAD_BYTES < charge (take k ls) + (len + 36)).
Proof.
  intros Hl Hne. destruct ls as [|[n len] ls]; [done|]. simpl.
  pose proof Hl as [[Hn Hlen] Hls]%Forall_cons. simpl in Hn, Hlen.
  rewrite framed_cost_small by done.
  destruct (bounded_loop_spec ls n (len + 36) MAX_CHUNK_PAYLOAD_BYTES) as (H1 & H2 & H3 & H4);
    [done|done|lia|done|unfold MAX_LINE_CONTENT_BYTES, MAX_CHUNK_PAYLOAD_BYTES in *; lia|].
  set (k := bounded_loop n (len + 36) MAX_CHUNK_PAYLOAD_BYTES ls) in *.
  split; [lia|]. split; [done|]. split; [lia|]. split.
  - pose proof (charge_lines (take k ls) ltac:(by apply Forall_take)) as Hc.
    rewrite length_take_le in Hc by done. unfold MAX_CHUNK_LINES, PER_LINE_OVERHEAD_BYTES,
      LINE_LEN_PREFIX_BYTES. apply Z.div_le_lower_bound; lia.
  - intros n' len' Hk. destruct (H4 n' len' Hk) as [H5|H5]; [left|right; lia].
    intros E. apply H5. rewrite E. f_equal. apply last_cons_default.
Qed.

End Cutter.

(** ** The chunk codec *)

(** [slice::split_at_checked]. *)
Definition split_at_checked (l : bytes) (n : Z) : option (bytes * bytes) :=
  if n <=? Z.of_nat (length l) then Some (take (Z.to_nat n) l, drop (Z.to_nat n) l) else None.

Section Codec.
(** The zstd encoder over the bytes written to it, and the decoder: the bytes
    it yields before it stops, and whether it stopped at a clean end. *)
Variable zstd_encode : bytes -> option bytes.
Variable zstd_decode : bytes -> option (bytes * bool).

Definition payload_len (lines : list bytes) : Z :=
  foldr (fun l acc => Z.of_nat (length l) + LINE_LEN_PREFIX_BYTES + acc) 0 lines.

(** The framing loop: [None] is the [u32::try_from] failure. *)
Fixpoint frame_lines (lines : list bytes) : option bytes :=
  match lines with
  | [] => Some []
  | line :: rest =>
      let len := Z.of_nat (length line) in
      if len <=? u32_max then
        match frame_lines rest with
        | Some tail => Some (to_le_bytes 4 len ++ line ++ tail)
        | None => None
        end
      else None
  end.

Definition compress_lines (lines : list bytes) : option bytes :=
  if MAX_CHUNK_PAYLOAD_BYTES <? payload_len lines then None
  else match frame_lines lines with
       | Some payload => zstd_encode payload
       | None => None
       end.

(** The parse loop; [n] counts the lines pushed so far.  Each iteration consumes
    at least the four prefix bytes, so the payload's length is enough fuel. *)
Fixpoint unframe_loop (fuel : nat) (n : Z) (rest : bytes) : option (list bytes) :=
  match rest with
  | [] => Some []
  | _ =>
      match fuel with
      | O => None
      | S fuel' =>
          if MAX_CHUNK_LINES_ABS <=? n then None
          else match split_at_checked rest LINE_LEN_PREFIX_BYTES with
               | None => None
               | Some (prefix, after_prefix) =>
                   match split_at_checked after_prefix (from_le_bytes prefix) with
                   | None => None
                   | Some (content, after_content) =>
                       match unframe_loop fuel' (n + 1) after_content with
                       | Some lines => Some (content :: lines)
                       | None => None
                       end
                   end
               end
      end
  end.

(** [decoder.take(N + 1).read_to_end]: an error past the limit is not seen. *)
Definition read_bounded (blob : bytes) : option bytes :=
  match zstd_decode blob with
  | None => None
  | Some (out, clean) =>
      if MAX_CHUNK_PAYLOAD_BYTES + 1 <=? Z.of_nat (length out)
      then Some (take (Z.to_nat (MAX_CHUNK_PAYLOAD_BYTES + 1)) out)
      else if clean then Some out else None
  end.

Definition decompress_lines (blob : bytes) : option (list bytes) :=
  match read_bounded blob with
  | None => None
  | Some decoded =>
      if MAX_CHUNK_PAYLOAD_BYTES <? Z.of_nat (length decoded) then None
      else unframe_loop (length decoded) 0 decoded
  end.

Lemma split_at_checked_app (a b : bytes) n :
  n = Z.of_nat (length a) -> split_at_checked (a ++ b) n = Some (a, b).
Proof.
  intros ->. unfold split_at_checked. rewrite length_app.
  destruct (Z.leb_spec (Z.of_nat (length a)) (Z.of_nat (length a + length b))); [|lia].
  by rewrite Nat2Z.id, take_app_length, drop_app_length.
Qed.

Lemma frame_lines_length lines payload :
  frame_lines lines = Some payload -> Z.of_nat (length payload) = payload_len lines.
Proof.
  revert payload. induction lines as [|line lines IH]; simpl; intros payload Hp; [by simplify_eq|].
  destruct (_ <=? _); [|done]. destruct (frame_lines lines) as [tail|]; [|done].
  simplify_eq. rewrite <- (IH _ eq_refl). simpl. rewrite length_app.
  unfold LINE_LEN_PREFIX_BYTES. lia.
Qed.

(** Parsing a framed payload gives back its lines, given room on the count. *)
Lemma unframe_frame lines payload n fuel :
  frame_lines lines = Some payload ->
  n + Z.of_nat (length lines) <= MAX_CHUNK_LINES_ABS ->
  (length payload <= fuel)%nat ->
  unframe_loop fuel n payload = Some lines.
Proof.
  revert payload n fuel. induction lines as [|line lines IH]; intros payload n fuel Hp Hn Hf.
  { simpl in Hp. simplify_eq. by destruct fuel. }
  cbn [frame_lines] in Hp. cbv zeta in Hp.
  destruct (Z.leb_spec (Z.of_nat (length line)) u32_max) as [Hl|]; [|done].
  destruct (frame_lines lines) as [tail|]; [|done].
  apply (inj Some) in Hp. rewrite <- Hp in *. clear payload Hp. cbn [length] in Hn. assert (Hlen := to_le_bytes_length 4 (Z.of_nat (length line))).
  rewrite !length_app, Hlen in Hf. destruct fuel as [|fuel]; [lia|].
  cbn [unframe_loop]. destruct (_ ++ _) as [|b rest] eqn:E.
  { apply (f_equal length) in E. rewrite length_app, Hlen in E. simpl in E. lia. }
  rewrite <- E. destruct (Z.leb_spec MAX_CHUNK_LINES_ABS n); [lia|].
  rewrite split_at_checked_app by (rewrite Hlen; done).
  rewrite from_to_le_bytes by (simpl; mach).
  rewrite split_at_checked_app by done.
  rewrite (IH tail) by (done || lia). done.
Qed.

Lemma payload_len_lines lines : 4 * Z.of_nat (length lines) <= payload_len lines.
Proof. induction lines; simpl; unfold LINE_LEN_PREFIX_BYTES in *; lia. Qed.

(** The parse loop never holds more than the absolute line bound. *)
Lemma unframe_bound fuel n rest lines :
  n <= MAX_CHUNK_LINES_ABS -> unframe_loop fuel n rest = Some lines ->
  n + Z.of_nat (length lines) <= MAX_CHUNK_LINES_ABS.
Proof.
  revert n rest lines. induction fuel as [|fuel IH]; intros n rest lines Hn; simpl;
    (destruct rest as [|b rest]; [intros [= <-]; simpl; lia|]); [done|].
  destruct (Z.leb_spec MAX_CHUNK_LINES_ABS n); [done|].
  destruct (split_at_checked _ _) as [[p a]|]; [|done].
  destruct (split_at_checked a _) as [[c a']|]; [|done].
  destruct (unframe_loop fuel (n + 1) a') as [ls|] eqn:E; [|done]. intros [= <-].
  apply IH in E; [|lia]. simpl. lia.
Qed.

Lemma decompress_lines_bound blob lines :
  decompress_lines blob = Some lines -> Z.of_nat (length lines) <= MAX_CHUNK_LINES_ABS.
Proof.
  unfold decompress_lines. destruct (read_bounded blob) as [d|]; [|done].
  destruct (_ <? _); [done|]. intros Hu. by apply unframe_bound in Hu.
Qed.

Hypothesis zstd_roundtrip : forall payload blob,
  zstd_encode payload = Some blob -> zstd_decode blob = Some (payload, true).

(** What the codec writes, it reads back. *)
Lemma codec_roundtrip lines blob :
  compress_lines lines = Some blob -> decompress_lines blob = Some lines.
Proof.
  unfold compress_lines, decompress_lines, read_bounded.
  destruct (Z.ltb_spec MAX_CHUNK_PAYLOAD_BYTES (payload_len lines)) as [|Hb]; [done|].
  destruct (frame_lines lines) as [payload|] eqn:Hp; [|done]. intros Hz.
  rewrite (zstd_roundtrip _ _ Hz). pose proof (frame_lines_length _ _ Hp) as Hlen.
  destruct (Z.leb_spec (MAX_CHUNK_PAYLOAD_BYTES + 1) (Z.of_nat (length payload))); [lia|].
  destruct (Z.ltb_spec MAX_CHUNK_PAYLOAD_BYTES (Z.of_nat (length payload))); [lia|].
  apply (unframe_frame _ _ _ _ Hp); [|done]. pose proof (payload_len_lines lines).
  unfold MAX_CHUNK_LINES_ABS, LINE_LEN_PREFIX_BYTES. apply Z.div_le_lower_bound; lia.
Qed.

End Codec.

(** A buffered line as the cutter sees it: [(n, l.len())]. *)
Definition line_view (nl : Z * bytes) : Z * Z := (fst nl, Z.of_nat (length (snd nl))).

Section WriteRead.
Variables (zstd_encode : bytes -> option bytes) (zstd_decode : bytes -> option (bytes * bool)).
Implicit Types (buffer : list (Z * bytes)).

Lemma charge_payload buffer :
  charge (List.map line_view buffer) =
  payload_len (List.map snd buffer) + 32 * Z.of_nat (length buffer).
Proof.
  induction buffer as [|[n l] buffer IH]; simpl; [done|]. unfold LINE_LEN_PREFIX_BYTES. lia.
Qed.

Lemma frame_lines_total (lines : list bytes) :
  Forall (fun l => Z.of_nat (length l) <= MAX_LINE_CONTENT_BYTES) lines ->
  exists payload, frame_lines lines = Some payload.
Proof.
  induction 1 as [|l lines Hl _ [p IH]]; simpl; [by eexists|].
  rewrite IH. destruct (Z.leb_spec (Z.of_nat (length l)) u32_max); [by eexists|].
  unfold MAX_LINE_CONTENT_BYTES in Hl. mach.
Qed.

(** The write/read bound.  Take any non-empty buffer of truncated lines with
    representable numbers: the run the cutter drains is a non-empty consecutive
    prefix of at most [MAX_CHUNK_LINES] lines, it is maximal (the next line
    breaks the run or would exceed the payload bound), the codec's size guard
    never refuses it, and whatever blob the encoder writes for it decompresses
    to exactly its lines. *)
Theorem cut_run_readable buffer :
  (forall payload, exists blob, zstd_encode payload = Some blob) ->
  (forall payload blob,
     zstd_encode payload = Some blob -> zstd_decode blob = Some (payload, true)) ->
  buffer <> [] -> Forall (fun nl => line_small (line_view nl)) buffer ->
  let view := List.map line_view buffer in
  let k := bounded_contiguous_prefix_len view MAX_CHUNK_PAYLOAD_BYTES in
  let run := take k buffer in
  (0 < k <= length buffer)%nat /\ Z.of_nat k <= MAX_CHUNK_LINES /\
  consecutive (List.map fst run) /\
  (forall n l, buffer !! k = Some (n, l) ->
     n <> List.last (List.map fst run) 0 + 1 \/
     MAX_CHUNK_PAYLOAD_BYTES < charge (take k view) + (Z.of_nat (length l) + 36)) /\
  exists blob, compress_lines zstd_encode (List.map snd run) = Some blob /\
    decompress_lines zstd_decode blob = Some (List.map snd run).
Proof.
  intros Htot Hrt Hne Hsm view k run.
  assert (Hv : Forall line_small view) by by apply List.Forall_map.
  destruct (bounded_prefix_spec view Hv) as (H1 & H2 & H3 & H4 & H5).
  { intros E. apply Hne. by apply (map_eq_nil line_view). }
  fold k in H1, H2, H3, H4, H5. unfold view in H1. rewrite length_map in H1.
  assert (Htake : take k view = List.map line_view run) by apply firstn_map.
  assert (Hfst : List.map fst (take k view) = List.map fst run)
    by (rewrite Htake, map_map; by apply map_ext).
  rewrite Hfst in H2, H5. split; [done|]. split; [done|]. split; [done|]. split.
  { intros n l Hk. apply H5. unfold view. change (List.map line_view) with (fmap (M := list) line_view).
    by rewrite list_lookup_fmap, Hk. }
  assert (Hp : payload_len (List.map snd run) <= MAX_CHUNK_PAYLOAD_BYTES).
  { rewrite Htake, charge_payload in H3. lia. }
  destruct (frame_lines_total (List.map snd run)) as [payload Hf].
  { apply List.Forall_map, Forall_take. eapply Forall_impl; [exact Hsm|].
    intros x [_ Hx]. simpl in Hx. lia. }
  destruct (Htot payload) as [blob Hb]. exists blob.
  assert (Hc : compress_lines zstd_encode (List.map snd run) = Some blob).
  { unfold compress_lines. destruct (Z.ltb_spec MAX_CHUNK_PAYLOAD_BYTES
      (payload_len (List.map snd run))); [lia|]. by rewrite Hf. }
  split; [done|]. by apply (codec_roundtrip zstd_encode).
Qed.

End WriteRead.

Lemma cut_run_readable_witness :
  let buffer := [(4, [104; 105]); (5, []); (7, [33])] in
  bounded_contiguous_prefix_len (List.map line_view buffer) MAX_CHUNK_PAYLOAD_BYTES = 2%nat /\
  exists blob, compress_lines Some [[104; 105]; []] = Some blob /\
    decompress_lines (fun b => Some (b, true)) blob = Some [[104; 105]; []].
Proof.
  split; [vm_compute; reflexivity|].
  destruct (cut_run_readable Some (fun b => Some (b, true)) [(4, [104; 105]); (5, []); (7, [33])])
    as (_ & _ & _ & _ & H).
  - intros payload. exists payload. reflexivity.
  - intros payload blob [= ->]. reflexivity.
  - discriminate.
  - repeat constructor; simpl; unfold MAX_LINE_CONTENT_BYTES; mach.
  - exact H.
Defined.
