(* ===== verification/LogIngest.v ===== *)
(** * Log ingest: one [AppendLog] session

    [accept_verdict] of [src/rio-log-kernel/src/lib.rs] and the per-stream
    state machine of [src/rio-store/src/logs/ingest.rs]: [accept], [cut] with
    [commit_chunk], the failure and abandonment paths, [subscribe] and
    [should_abort].  Metrics and logging are omitted.

    - The coverage map is any implementation of [DurableCoverage].
    - A subscriber channel is a section variable with its [try_send].
    - An [Instant] is a [Z] of nanoseconds.
    - The object store and the [drv_log_chunks] table are explicit state; what
      they answer to one commit is the [CommitEnv] argument, so a lost response
      after a durable insert is one of the outcomes.
    - [&mut self] excludes an [accept] during a [cut], but the cut's future may
      be dropped at its await: [cut_abandoned]. *)

From S2P Require Import Prelude LogVisit LogCoverage LogChunks.

Definition u64_wrapping_add (a b : Z) : Z := (a + b) mod (u64_max + 1).
Definition u64_wrapping_sub (a b : Z) : Z := (a - b) mod (u64_max + 1).

Module AcceptVerdict.
Inductive AcceptVerdict : Type :=
| RejectedOverflow
| RejectedNonMonotone
| RejectedPastFinal
| RejectedOversizedBatch
| Accepted (end_ : Z).
End AcceptVerdict.
Abbreviation AcceptVerdict := AcceptVerdict.AcceptVerdict.

Definition accept_verdict (high_water_line : Z) (final_line_count : option Z)
    (first_line_number line_count : Z) : AcceptVerdict :=
  match u64_checked_add first_line_number line_count with
  | Some end_ =>
      if end_ <=? i64_max then
        if MAX_BATCH_LINES <? line_count then AcceptVerdict.RejectedOversizedBatch
        else if first_line_number <? high_water_line then AcceptVerdict.RejectedNonMonotone
        else match final_line_count with
             | Some ceiling =>
                 if ceiling <=? first_line_number then AcceptVerdict.RejectedPastFinal
                 else AcceptVerdict.Accepted (Z.min end_ ceiling)
             | None => AcceptVerdict.Accepted end_
             end
      else AcceptVerdict.RejectedOverflow
  | None => AcceptVerdict.RejectedOverflow
  end.

Module AcceptOutcome.
Inductive AcceptOutcome : Type :=
| Accepted (cut_due : bool)
| RejectedNonMonotone
| RejectedOverflow
| RejectedPastFinal
| RejectedOversizedBatch
| CoveredReplay (durable_through : option Z).
End AcceptOutcome.
Abbreviation AcceptOutcome := AcceptOutcome.AcceptOutcome.

Module AbortReason.
Inductive AbortReason : Type := ConsecutiveCutFailures | StaleBuffer.
End AbortReason.
Abbreviation AbortReason := AbortReason.AbortReason.

Module CutError.
Inductive CutError : Type := Compress | Join | Store | Manifest.
End CutError.
Abbreviation CutError := CutError.CutError.

Record IngestConfig : Type := mkIngestConfig {
  per_exec_byte_cap : Z;
  cut_threshold_bytes : Z;
  cut_interval : Z;
}.

Definition MAX_CONSECUTIVE_CUT_FAILURES : Z := 3.

Record BuildLogBatch : Type := mkBuildLogBatch {
  derivation_path : string;
  lines : list bytes;
  first_line_number : Z;
  executor_id : string;
}.

Record FanBatch : Type := mkFanBatch { coverage_floor : Z; fan_batch : BuildLogBatch }.

(** [accounted_len]. *)
Definition accounted_len (line : bytes) : Z := charged_line_cost (Z.of_nat (length line)).
Definition accounted_sum (ls : list bytes) : Z :=
  foldr (fun l acc => accounted_len l + acc) 0 ls.

(** [TrySendError] and success. *)
Inductive SendResult : Type := Sent | Full | Closed.

(** One [drv_log_chunks] row of the execution, keyed by [(session_id, chunk_seq)],
    and the bucket, keyed by the same pair ([log_chunk_key] is injective in it). *)
Record ManifestRow : Type := mkManifestRow {
  mr_session : Z;
  mr_seq : Z;
  mr_first : Z;
  mr_count : Z;
  mr_accounted : Z;
}.

Record Durable : Type := mkDurable {
  rows : list ManifestRow;
  objects : gmap (Z * Z) bytes;
}.

(** What the environment answers to one commit. *)
Inductive InsertOutcome : Type := InsertOk | InsertFailed | InsertedResponseLost.
Inductive PutOutcome : Type := PutOk | PutFailed | PutStoredResponseLost.
Record CommitEnv : Type := mkCommitEnv {
  join_ok : bool;
  put_outcome : PutOutcome;
  insert_outcome : InsertOutcome;
}.

Section Session.
Context {M : Type} `{DurableCoverage M} {Sender : Type}.
Variable try_send : Sender -> FanBatch -> Sender * SendResult.
Variable zstd_encode : bytes -> option bytes.

Record IngestShared : Type := mkIngestShared {
  buffer : list (Z * bytes);
  in_flight : list (Z * bytes);
  buffer_bytes : Z;
  oldest_pending_since : option Z;
  subscribers : list Sender;
  tail_dropped : Z;
  drop_epoch : Z;
}.

Record IngestSession : Type := mkIngestSession {
  session_id : Z;
  shared : IngestShared;
  config : IngestConfig;
  next_seq : Z;
  prior_chunks : Z;
  high_water_line : Z;
  final_line_count : option Z;
  accepted_bytes : Z;
  covered : M;
  session_floor : Z;
  consecutive_cut_failures : Z;
}.

Definition with_shared (s : IngestSession) (sh : IngestShared) : IngestSession :=
  mkIngestSession (session_id s) sh (config s) (next_seq s) (prior_chunks s)
    (high_water_line s) (final_line_count s) (accepted_bytes s) (covered s)
    (session_floor s) (consecutive_cut_failures s).
Definition with_high_water (s : IngestSession) (hw : Z) : IngestSession :=
  mkIngestSession (session_id s) (shared s) (config s) (next_seq s) (prior_chunks s)
    hw (final_line_count s) (accepted_bytes s) (covered s)
    (session_floor s) (consecutive_cut_failures s).
Definition with_failures (s : IngestSession) (n : Z) : IngestSession :=
  mkIngestSession (session_id s) (shared s) (config s) (next_seq s) (prior_chunks s)
    (high_water_line s) (final_line_count s) (accepted_bytes s) (covered s)
    (session_floor s) n.

(** [set_final_line_count]: the first value wins. *)
Definition set_final_line_count (s : IngestSession) (n : Z) : IngestSession :=
  mkIngestSession (session_id s) (shared s) (config s) (next_seq s) (prior_chunks s)
    (high_water_line s)
    (match final_line_count s with Some c => Some c | None => Some n end)
    (accepted_bytes s) (covered s) (session_floor s) (consecutive_cut_failures s).

(** [IngestSession::new], from the gate's merged seed, coverage and recorded end. *)
Definition session_new (sid : Z) (cfg : IngestConfig) (merged_bytes merged_chunks : Z)
    (cov : M) (gate_final : option Z) : IngestSession :=
  let s := mkIngestSession sid (mkIngestShared [] [] 0 None [] 0 0) cfg 0 merged_chunks
             0 None merged_bytes cov (cov_prefix_end cov) 0 in
  match gate_final with
  | Some n => set_final_line_count s (Z.max n 0)
  | None => s
  end.

(** [durable_frontier] and [clamped_durable_ack]. *)
Definition durable_frontier (s : IngestSession) : option Z :=
  u64_checked_sub (cov_prefix_end (covered s)) 1.
Definition clamped_durable_ack (s : IngestSession) (natural_last_line : Z) : option Z :=
  match durable_frontier s with
  | Some frontier => Some (Z.min natural_last_line frontier)
  | None => None
  end.

Definition cut_due (s : IngestSession) : bool :=
  cut_threshold_bytes (config s) <=? buffer_bytes (shared s).

Definition chunk_attempts (s : IngestSession) : Z :=
  u32_saturating_add (prior_chunks s) (next_seq s).

(** [no_pending_lines]. *)
Definition no_pending_lines (s : IngestSession) : bool :=
  match oldest_pending_since (shared s) with None => true | Some _ => false end.

(** [snapshot_since] and [subscribe]. *)
Definition snapshot_since (sh : IngestShared) (since : Z) : list (Z * bytes) :=
  List.filter (fun nl => since <=? fst nl) (in_flight sh ++ buffer sh).

Definition subscribe (sh : IngestShared) (tx : Sender) (since : Z)
    : IngestShared * list (Z * bytes) :=
  (mkIngestShared (buffer sh) (in_flight sh) (buffer_bytes sh) (oldest_pending_since sh)
     (subscribers sh ++ [tx]) (tail_dropped sh) (drop_epoch sh), snapshot_since sh since).

Definition restore_in_flight (sh : IngestShared) : IngestShared :=
  match in_flight sh with
  | [] => sh
  | _ =>
      mkIngestShared (in_flight sh ++ buffer sh) []
        (u64_wrapping_add (buffer_bytes sh) (accounted_sum (List.map snd (in_flight sh))))
        (oldest_pending_since sh) (subscribers sh) (tail_dropped sh) (drop_epoch sh)
  end.

(** The [retain] of the fan-out: kept senders, and the batches dropped. *)
Fixpoint fan_out (fb : FanBatch) (txs : list Sender) : list Sender * Z :=
  match txs with
  | [] => ([], 0)
  | tx :: rest =>
      let '(kept, dropped) := fan_out fb rest in
      let '(tx', res) := try_send tx fb in
      match res with
      | Sent => (tx' :: kept, dropped)
      | Full => (tx' :: kept, dropped + 1)
      | Closed => (kept, dropped)
      end
  end.

(** [(first..).zip(lines)]. *)
Fixpoint number_lines (first : Z) (ls : list bytes) : list (Z * bytes) :=
  match ls with
  | [] => []
  | l :: rest => (first, l) :: number_lines (first + 1) rest
  end.

Definition truncate_line (line : bytes) : bytes :=
  if MAX_LINE_CONTENT_BYTES <? Z.of_nat (length line)
  then take (Z.to_nat MAX_LINE_CONTENT_BYTES) line else line.

(** The critical section of [accept]: stamp, fan out, buffer. *)
Definition buffer_batch (now : Z) (s : IngestSession) (batch : BuildLogBatch)
    (ls : list bytes) (batch_bytes : Z) : IngestShared :=
  let sh := shared s in
  let stamp := match buffer sh, in_flight sh with
               | [], [] => Some now
               | _, _ => oldest_pending_since sh
               end in
  let '(subs, dropped) :=
    match subscribers sh with
    | [] => ([], 0)
    | _ => fan_out (mkFanBatch (high_water_line s)
             (mkBuildLogBatch (derivation_path batch) ls (first_line_number batch)
                (executor_id batch))) (subscribers sh)
    end in
  mkIngestShared (buffer sh ++ number_lines (first_line_number batch) ls) (in_flight sh)
    (u64_wrapping_add (buffer_bytes sh) batch_bytes) stamp subs
    (if 0 <? dropped then u64_wrapping_add (tail_dropped sh) dropped else tail_dropped sh)
    (if 0 <? dropped then u64_wrapping_add (drop_epoch sh) 1 else drop_epoch sh).

(** [accept] from the kernel verdict on: [Err] is the byte-cap status. *)
Definition accept_above_floor (now : Z) (s : IngestSession) (batch : BuildLogBatch)
    : IngestSession * (AcceptOutcome + unit) :=
  let line_count := Z.of_nat (length (lines batch)) in
  let first := first_line_number batch in
  match accept_verdict (high_water_line s) (final_line_count s) first line_count with
  | AcceptVerdict.RejectedOverflow => (s, inl AcceptOutcome.RejectedOverflow)
  | AcceptVerdict.RejectedNonMonotone => (s, inl AcceptOutcome.RejectedNonMonotone)
  | AcceptVerdict.RejectedPastFinal => (s, inl AcceptOutcome.RejectedPastFinal)
  | AcceptVerdict.RejectedOversizedBatch => (s, inl AcceptOutcome.RejectedOversizedBatch)
  | AcceptVerdict.Accepted end_ =>
      let batch_lines :=
        if end_ <? first + line_count then take (Z.to_nat (end_ - first)) (lines batch)
        else lines batch in
      if cov_covers_range (covered s) first end_ then
        let s' := with_high_water s end_ in
        (s', inl (AcceptOutcome.CoveredReplay (clamped_durable_ack s' (end_ - 1))))
      else
        let ls := List.map truncate_line batch_lines in
        let batch_bytes := accounted_sum ls in
        if per_exec_byte_cap (config s)
             <? u64_saturating_add (accepted_bytes s) batch_bytes
        then (s, inr tt)
        else
          let sh := buffer_batch now s batch ls batch_bytes in
          let s' :=
            mkIngestSession (session_id s) sh (config s) (next_seq s) (prior_chunks s)
              end_ (final_line_count s)
              (u64_wrapping_add (accepted_bytes s) batch_bytes) (covered s)
              (session_floor s) (consecutive_cut_failures s) in
          (s', inl (AcceptOutcome.Accepted (cut_due s')))
  end.

(** [accept]: the empty batch, the durable-floor trim, then the verdict. *)
Definition accept (now : Z) (s : IngestSession) (batch : BuildLogBatch)
    : IngestSession * (AcceptOutcome + unit) :=
  match lines batch with
  | [] => (s, inl (AcceptOutcome.Accepted (cut_due s)))
  | _ =>
      let first := first_line_number batch in
      if first <? session_floor s then
        let last := u64_saturating_add first (Z.of_nat (length (lines batch)) - 1) in
        if last <? session_floor s then
          let s' := with_high_water s (Z.max (high_water_line s) (last + 1)) in
          (s', inl (AcceptOutcome.CoveredReplay (clamped_durable_ack s' last)))
        else
          let cut := Z.to_nat (session_floor s - first) in
          accept_above_floor now s
            (mkBuildLogBatch (derivation_path batch) (drop cut (lines batch))
               (session_floor s) (executor_id batch))
      else accept_above_floor now s batch
  end.

(** [cut] up to the commit: [None] when there is nothing to cut. *)
Definition cut_begin (s : IngestSession)
    : IngestSession * option (Z * Z * list bytes) :=
  let sh := restore_in_flight (shared s) in
  match buffer sh with
  | [] => (with_shared s sh, None)
  | _ =>
      let run_len := bounded_contiguous_prefix_len (List.map line_view (buffer sh))
                       MAX_CHUNK_PAYLOAD_BYTES in
      let run := take run_len (buffer sh) in
      let sh' := mkIngestShared (drop run_len (buffer sh)) run
                   (u64_wrapping_sub (buffer_bytes sh) (accounted_sum (List.map snd run)))
                   (oldest_pending_since sh) (subscribers sh) (tail_dropped sh) (drop_epoch sh) in
      let first_line := match run with (n, _) :: _ => n | [] => 0 end in
      (mkIngestSession (session_id s) sh' (config s) (u32_wrapping_add (next_seq s) 1)
         (prior_chunks s) (high_water_line s) (final_line_count s) (accepted_bytes s)
         (covered s) (session_floor s) (consecutive_cut_failures s),
       Some (next_seq s, first_line, List.map snd run))
  end.

(** [commit_chunk]: compress, PUT (never overwriting), INSERT .. ON CONFLICT DO
    NOTHING. *)
Definition put_object (d : Durable) (k : Z * Z) (blob : bytes) : Durable :=
  match objects d !! k with
  | Some _ => d
  | None => mkDurable (rows d) (<[k := blob]> (objects d))
  end.

Definition insert_row (d : Durable) (r : ManifestRow) : Durable :=
  if existsb (fun o => (mr_session o =? mr_session r) && (mr_seq o =? mr_seq r)) (rows d)
  then d else mkDurable (rows d ++ [r]) (objects d).

Definition commit_chunk (env : CommitEnv) (d : Durable) (sid seq first_line : Z)
    (ls : list bytes) : Durable * option CutError :=
  if negb (join_ok env) then (d, Some CutError.Join)
  else match compress_lines zstd_encode ls with
       | None => (d, Some CutError.Compress)
       | Some blob =>
           let d' := put_object d (sid, seq) blob in
           match put_outcome env with
           | PutFailed => (d, Some CutError.Store)
           | PutStoredResponseLost => (d', Some CutError.Store)
           | PutOk =>
               let r := mkManifestRow sid seq first_line (Z.of_nat (length ls))
                          (Z.min (accounted_sum ls) i64_max) in
               match insert_outcome env with
               | InsertFailed => (d', Some CutError.Manifest)
               | InsertedResponseLost => (insert_row d' r, Some CutError.Manifest)
               | InsertOk => (insert_row d' r, None)
               end
           end
       end.

(** The two arms after the commit resolves. *)
Definition cut_ok (now : Z) (s : IngestSession) (first_line line_count : Z)
    : IngestSession * option Z :=
  let sh := shared s in
  let sh' := mkIngestShared (buffer sh) [] (buffer_bytes sh)
               (match buffer sh with [] => None | _ => Some now end)
               (subscribers sh) (tail_dropped sh) (drop_epoch sh) in
  let s' := mkIngestSession (session_id s) sh' (config s) (next_seq s) (prior_chunks s)
              (high_water_line s) (final_line_count s) (accepted_bytes s)
              (cov_insert (covered s) first_line line_count) (session_floor s) 0 in
  (s', clamped_durable_ack s' (first_line + line_count - 1)).

Definition u8_saturating_succ (n : Z) : Z := Z.min (n + 1) 255.

Definition cut_failed (s : IngestSession) : IngestSession :=
  with_failures (with_shared s (restore_in_flight (shared s)))
    (u8_saturating_succ (consecutive_cut_failures s)).

(** [cut]: [inl None] nothing to cut, [inl (Some ack)] a commit, [inr e] a failure. *)
Definition cut (now : Z) (env : CommitEnv) (s : IngestSession) (d : Durable)
    : IngestSession * Durable * (option (option Z) + CutError) :=
  match cut_begin s with
  | (s', None) => (s', d, inl None)
  | (s', Some (seq, first_line, ls)) =>
      match commit_chunk env d (session_id s) seq first_line ls with
      | (d', None) =>
          let '(s'', ack) := cut_ok now s' first_line (Z.of_nat (length ls)) in
          (s'', d', inl (Some ack))
      | (d', Some e) => (cut_failed s', d', inr e)
      end
  end.

(** [note_cut_abandoned]. *)
Definition note_cut_abandoned (s : IngestSession) : IngestSession :=
  with_failures s (u8_saturating_succ (consecutive_cut_failures s)).

(** The cut's future dropped at its await: the run stays staged, the commit's
    effects may still land. *)
Definition cut_abandoned (env : CommitEnv) (s : IngestSession) (d : Durable)
    : IngestSession * Durable :=
  match cut_begin s with
  | (s', None) => (s', d)
  | (s', Some (seq, first_line, ls)) =>
      (note_cut_abandoned s', fst (commit_chunk env d (session_id s) seq first_line ls))
  end.

Definition should_abort (now : Z) (s : IngestSession) : option AbortReason :=
  if MAX_CONSECUTIVE_CUT_FAILURES <=? consecutive_cut_failures s
  then Some AbortReason.ConsecutiveCutFailures
  else match oldest_pending_since (shared s) with
       | Some since =>
           if (0 <? consecutive_cut_failures s)
              && (2 * cut_interval (config s) <? now - since)
           then Some AbortReason.StaleBuffer else None
       | None => None
       end.

End Session.
