(* ===== verification/LogSeam.v ===== *)
(** * Log ingest: the seam invariant and the durable acks

    The ingest session of [LogIngest] as a transition system over the session
    and the durable state, with a ghost log of every accepted line.  The
    invariant is proved by rule induction; its consequences are that no
    accepted line is ever lost and that every ack is a true prefix claim. *)

From Stdlib Require Import Sorted.
From S2P Require Import Prelude LogVisit LogCoverage LogChunks LogIngest.

Section Seam.
Context {M : Type} `{DurableCoverage M} {Sender : Type}.
Variable try_send : Sender -> FanBatch -> Sender * SendResult.
Variable zstd_encode : bytes -> option bytes.
Variable zstd_decode : bytes -> option (bytes * bool).

Abbreviation Session := (@IngestSession M Sender).

Record World : Type := mkWorld {
  sess : Session;
  dur : Durable;
  log : list (Z * bytes);
}.

(** The not-yet-durable lines, oldest first. *)
Definition pending (s : Session) : list (Z * bytes) :=
  in_flight (shared s) ++ buffer (shared s).

(** The ack an accept outcome carries. *)
Definition outcome_ack (o : AcceptOutcome + unit) : option Z :=
  match o with
  | inl (AcceptOutcome.CoveredReplay a) => a
  | _ => None
  end.

Definition cut_ack (o : option (option Z) + CutError) : option Z :=
  match o with inl (Some a) => a | _ => None end.

(** Line [n] of manifest row [r] has content [c]. *)
Definition row_line (d : Durable) (r : ManifestRow) (n : Z) (c : bytes) : Prop :=
  exists blob ls, objects d !! (mr_session r, mr_seq r) = Some blob /\
    decompress_lines zstd_decode blob = Some ls /\
    0 <= n - mr_first r /\ ls !! Z.to_nat (n - mr_first r) = Some c.

Definition durable_line (d : Durable) (n : Z) (c : bytes) : Prop :=
  exists r, r ∈ rows d /\ row_line d r n c.

Definition row_of (r : ManifestRow) : row := (mr_first r, mr_count r).

(** A line is covered by the manifest. *)
Definition manifest_line (d : Durable) (l : Z) : Prop :=
  exists r, r ∈ rows d /\ row_holds (row_of r) l.

(** Every row's object decodes to exactly the claimed lines. *)
Definition row_intact (d : Durable) (r : ManifestRow) : Prop :=
  0 <= mr_first r /\ mr_first r + mr_count r <= i64_max /\
  exists blob ls, objects d !! (mr_session r, mr_seq r) = Some blob /\
    decompress_lines zstd_decode blob = Some ls /\ Z.of_nat (length ls) = mr_count r.

(** Durable state only grows: rows are added, objects are never overwritten. *)
Definition grows (d d' : Durable) : Prop :=
  (forall r, r ∈ rows d -> r ∈ rows d') /\ objects d ⊆ objects d'.

(** One step, with the ack it sends. *)
Inductive step : World -> option Z -> World -> Prop :=
| step_accept w now batch s' o :
    0 <= first_line_number batch ->
    accept try_send now (sess w) batch = (s', o) ->
    step w (outcome_ack o)
      (mkWorld s' (dur w)
         (log w ++ drop (length (buffer (shared (sess w)))) (buffer (shared s'))))
| step_cut w now env s' d' o :
    next_seq (sess w) < u32_max ->
    cut zstd_encode now env (sess w) (dur w) = (s', d', o) ->
    step w (cut_ack o) (mkWorld s' d' (log w))
| step_abandon w env s' d' :
    next_seq (sess w) < u32_max ->
    cut_abandoned zstd_encode env (sess w) (dur w) = (s', d') ->
    step w None (mkWorld s' d' (log w))
| step_final w n :
    step w None (mkWorld (set_final_line_count (sess w) n) (dur w) (log w))
| step_subscribe w tx since :
    step w None
      (mkWorld (with_shared (sess w) (fst (subscribe (shared (sess w)) tx since))) (dur w) (log w))
| step_other_session w d' :
    grows (dur w) d' ->
    (forall r, r ∈ rows d' -> row_intact d' r) ->
    (forall r, r ∈ rows d' -> mr_session r = session_id (sess w) -> r ∈ rows (dur w)) ->
    (forall k, objects d' !! (session_id (sess w), k) = objects (dur w) !! (session_id (sess w), k)) ->
    step w None (mkWorld (sess w) d' (log w)).

Inductive reachable (w0 : World) : World -> Prop :=
| reach_start : reachable w0 w0
| reach_step w a w' : reachable w0 w -> step w a w' -> reachable w0 w'.

(** The session's own invariant. *)
Record sess_ok (s : Session) : Prop := {
  so_cov : cov_wf (covered s);
  so_seq : 0 <= next_seq s <= u32_max;
  so_floor : 0 <= session_floor s;
  so_sorted : StronglySorted Z.lt (List.map fst (pending s));
  so_small : Forall (fun nl => line_small (line_view nl) /\ fst nl < i64_max) (pending s);
  so_below : Forall (fun nl => fst nl < high_water_line s) (pending s);
  so_bytes : buffer_bytes (shared s) = accounted_sum (List.map snd (buffer (shared s)));
  so_charged : accounted_sum (List.map snd (pending s)) <= accepted_bytes s <= u64_max;
  so_cap : per_exec_byte_cap (config s) < u64_max;
}.

(** Every burned sequence number is below [next_seq]. *)
Definition seqs_fresh (s : Session) (d : Durable) : Prop :=
  (forall r, r ∈ rows d -> mr_session r = session_id s -> mr_seq r < next_seq s) /\
  (forall k, next_seq s <= k -> objects d !! (session_id s, k) = None).

Record seam_inv (w : World) : Prop := {
  si_sess : sess_ok (sess w);
  si_rows : forall r, r ∈ rows (dur w) -> row_intact (dur w) r;
  si_cov : forall l, cov_line (covered (sess w)) l -> manifest_line (dur w) l;
  si_fresh : seqs_fresh (sess w) (dur w);
  si_log_sorted : StronglySorted Z.lt (List.map fst (log w));
  si_log_below : Forall (fun nl => fst nl < high_water_line (sess w)) (log w);
  si_seam : forall n c, (n, c) ∈ log w ->
    (n, c) ∈ pending (sess w) \/ durable_line (dur w) n c;
}.

Implicit Types (s : Session) (w : World) (d : Durable) (nls : list (Z * bytes)).

(** ** Accounting *)

Lemma accounted_sum_app a b : accounted_sum (a ++ b) = accounted_sum a + accounted_sum b.
Proof. unfold accounted_sum. induction a; simpl; lia. Qed.

Lemma accounted_len_nonneg l : 0 <= accounted_len l.
Proof. unfold accounted_len, charged_line_cost, PER_LINE_OVERHEAD_BYTES. mach. Qed.

Lemma accounted_sum_nonneg ls : 0 <= accounted_sum ls.
Proof.
  unfold accounted_sum. induction ls as [|l ls IH]; simpl; [lia|].
  pose proof (accounted_len_nonneg l). lia.
Qed.

Lemma wrapping_add_small a b : 0 <= a + b <= u64_max -> u64_wrapping_add a b = a + b.
Proof. intros. unfold u64_wrapping_add. apply Z.mod_small. lia. Qed.

Lemma wrapping_sub_small a b : 0 <= a - b <= u64_max -> u64_wrapping_sub a b = a - b.
Proof. intros. unfold u64_wrapping_sub. apply Z.mod_small. lia. Qed.

(** ** Numbered lines *)

Lemma number_lines_fst first ls n :
  n ∈ List.map fst (number_lines first ls) -> first <= n < first + Z.of_nat (length ls).
Proof.
  revert first. induction ls as [|l ls IH]; simpl; intros first Hn.
  - by apply not_elem_of_nil in Hn.
  - apply elem_of_cons in Hn as [->|Hn]; [lia|]. specialize (IH _ Hn). lia.
Qed.

Lemma number_lines_sorted first ls : StronglySorted Z.lt (List.map fst (number_lines first ls)).
Proof.
  revert first. induction ls as [|l ls IH]; simpl; intros first; [constructor|].
  constructor; [done|]. apply Forall_forall. intros n Hn%number_lines_fst. lia.
Qed.

Lemma number_lines_snd first ls : List.map snd (number_lines first ls) = ls.
Proof. revert first. induction ls as [|l ls IH]; simpl; intros first; [done|]. by rewrite IH. Qed.

(** A consecutive run is its contents numbered from its first line. *)
Lemma consecutive_number nls first :
  consecutive (List.map fst nls) ->
  match nls with [] => True | (n, _) :: _ => n = first end ->
  nls = number_lines first (List.map snd nls).
Proof.
  revert first. induction nls as [|[n c] nls IH]; simpl; intros first Hc Hf; [done|].
  subst n. f_equal. apply IH; destruct nls as [|[m c'] nls]; simpl in *; try done.
  - by destruct Hc as [_ ?].
  - by destruct Hc as [? _].
Qed.

Lemma number_lines_lookup first ls n c :
  (n, c) ∈ number_lines first ls ->
  0 <= n - first /\ ls !! Z.to_nat (n - first) = Some c.
Proof.
  revert first. induction ls as [|l ls IH]; simpl; intros first Hn.
  - by apply not_elem_of_nil in Hn.
  - apply elem_of_cons in Hn as [[= -> ->]|Hn].
    + split; [lia|]. by replace (first - first) with 0 by lia.
    + destruct (IH _ Hn) as [H1 H2]. split; [lia|].
      replace (Z.to_nat (n - first)) with (S (Z.to_nat (n - (first + 1)))) by lia. done.
Qed.

Lemma truncate_line_small l : Z.of_nat (length (truncate_line l)) <= MAX_LINE_CONTENT_BYTES.
Proof.
  unfold truncate_line. destruct (Z.ltb_spec MAX_LINE_CONTENT_BYTES (Z.of_nat (length l))); [|done].
  rewrite length_take. assert (0 <= MAX_LINE_CONTENT_BYTES) by done. lia.
Qed.

(** ** Durable state *)

Lemma grows_refl d : grows d d.
Proof. by split. Qed.

Lemma row_line_grows d d' r n c : grows d d' -> row_line d r n c -> row_line d' r n c.
Proof.
  intros [_ Hobj] (blob & ls & Ho & Hd). exists blob, ls.
  split; [|done]. by eapply lookup_weaken.
Qed.

Lemma durable_line_grows d d' n c : grows d d' -> durable_line d n c -> durable_line d' n c.
Proof.
  intros Hg (r & Hr & Hl). exists r. split; [by apply Hg|by eapply row_line_grows].
Qed.

Lemma manifest_line_grows d d' l : grows d d' -> manifest_line d l -> manifest_line d' l.
Proof. intros Hg (r & Hr & Hl). exists r. split; [by apply Hg|done]. Qed.

Lemma put_object_fresh d k blob :
  objects d !! k = None -> put_object d k blob = mkDurable (rows d) (<[k := blob]> (objects d)).
Proof. intros E. unfold put_object. by rewrite E. Qed.

Lemma insert_row_fresh d r :
  (forall o, o ∈ rows d -> mr_session o = mr_session r -> mr_seq o <> mr_seq r) ->
  insert_row d r = mkDurable (rows d ++ [r]) (objects d).
Proof.
  intros Hf. unfold insert_row. destruct (existsb _ _) eqn:E; [|done].
  apply existsb_exists in E as (o & Ho%list_elem_of_In & Hk). zbool. by destruct (Hf o Ho).
Qed.

Hypothesis zstd_roundtrip : forall payload blob,
  zstd_encode payload = Some blob -> zstd_decode blob = Some (payload, true).

(** What any commit attempt under [(sid, seq)] leaves of the durable state: it
    grows, stays intact, and touches only that key. *)
Definition commit_effect (sid seq : Z) (d d' : Durable) : Prop :=
  grows d d' /\ (forall r, r ∈ rows d' -> row_intact d' r) /\
  (forall r, r ∈ rows d' -> mr_session r = sid -> mr_seq r <= seq) /\
  (forall k, k <> seq -> objects d' !! (sid, k) = objects d !! (sid, k)).

(** The key is unused: what the burned sequence number guarantees. *)
Definition key_fresh (sid seq : Z) (d : Durable) : Prop :=
  (forall r, r ∈ rows d -> mr_session r = sid -> mr_seq r < seq) /\
  objects d !! (sid, seq) = None.

Section Commit.
Variables (sid seq first : Z) (ls : list bytes) (d : Durable).
Hypothesis Hintact : forall r, r ∈ rows d -> row_intact d r.
Hypothesis Hfresh : key_fresh sid seq d.
Hypothesis Hfirst : 0 <= first /\ first + Z.of_nat (length ls) <= i64_max.

Lemma commit_none : commit_effect sid seq d d.
Proof.
  split; [apply grows_refl|]. split; [done|]. split; [|done].
  intros r Hr E. destruct Hfresh as [Hs _]. specialize (Hs r Hr E). lia.
Qed.

Lemma commit_put blob : commit_effect sid seq d (put_object d (sid, seq) blob).
Proof.
  destruct Hfresh as [Hs Ho]. rewrite put_object_fresh by done.
  assert (Hsub : objects d ⊆ <[(sid, seq) := blob]> (objects d)) by by apply insert_subseteq.
  split; [by split|]. split; [|split].
  - intros r Hr. destruct (Hintact r Hr) as (? & ? & b & l & Hb & ?).
    split; [done|]. split; [done|]. exists b, l. split; [|done]. by eapply lookup_weaken.
  - intros r Hr E. specialize (Hs r Hr E). lia.
  - intros k Hk. simpl. rewrite lookup_insert_ne; congruence.
Qed.

Lemma commit_insert blob acct :
  decompress_lines zstd_decode blob = Some ls ->
  let r := mkManifestRow sid seq first (Z.of_nat (length ls)) acct in
  let d' := insert_row (put_object d (sid, seq) blob) r in
  commit_effect sid seq d d' /\ r ∈ rows d' /\
  (forall n c, (n, c) ∈ number_lines first ls -> row_line d' r n c).
Proof.
  intros Hdec r d'. destruct (commit_put blob) as (Hg & Hi & Hs & Hk). destruct Hfresh as [Hf Ho].
  assert (E : d' = mkDurable (rows d ++ [r]) (<[(sid, seq) := blob]> (objects d))).
  { unfold d'. rewrite put_object_fresh by done. apply insert_row_fresh.
    intros o Hin Es. specialize (Hf o Hin Es). simpl. lia. }
  rewrite put_object_fresh in Hg, Hi, Hs, Hk by done.
  assert (Hr : objects d' !! (sid, seq) = Some blob) by (rewrite E; apply lookup_insert_eq).
  split; [split; [|split; [|split]]|split].
  - rewrite E. split; [|apply Hg]. intros o Hin. simpl. apply elem_of_app. by left.
  - rewrite E. intros o [Hin| ->%list_elem_of_singleton]%elem_of_app; [by apply Hi|].
    split; [apply Hfirst|]. split; [apply Hfirst|]. exists blob, ls. rewrite E in Hr. done.
  - rewrite E. intros o [Hin| ->%list_elem_of_singleton]%elem_of_app Es; [by apply Hs|done].
  - rewrite E. apply Hk.
  - rewrite E. simpl. apply elem_of_app. right. by apply list_elem_of_singleton.
  - intros n c [? ?]%number_lines_lookup. by exists blob, ls.
Qed.

(** [commit_chunk] on every path; on success the run is durable with its
    contents. *)
Lemma commit_chunk_spec env d' e :
  commit_chunk zstd_encode env d sid seq first ls = (d', e) ->
  commit_effect sid seq d d' /\
  (e = None -> exists r, r ∈ rows d' /\ row_of r = (first, Z.of_nat (length ls)) /\
     forall n c, (n, c) ∈ number_lines first ls -> row_line d' r n c).
Proof.
  unfold commit_chunk. pose proof commit_none as H0.
  destruct (negb (join_ok env)); [by intros [= <- <-]|].
  destruct (compress_lines zstd_encode ls) as [b|] eqn:Hc; [|by intros [= <- <-]].
  pose proof (codec_roundtrip _ zstd_decode zstd_roundtrip _ _ Hc) as Hdec.
  pose proof (commit_put b) as H1.
  pose proof (commit_insert b (Z.min (accounted_sum ls) i64_max) Hdec) as (H2 & H3 & H4).
  destruct (put_outcome env); [|by intros [= <- <-]..].
  destruct (insert_outcome env); intros [= <- <-]; [|by split..].
  split; [done|]. intros _. by eexists.
Qed.

End Commit.

(** ** The session's operations *)

Lemma with_shared_same s : with_shared s (shared s) = s.
Proof. by destruct s. Qed.

Lemma restore_spec s :
  sess_ok s ->
  let s' := with_shared s (restore_in_flight (shared s)) in
  sess_ok s' /\ pending s' = pending s /\ in_flight (shared s') = [].
Proof.
  intros Hs s'. unfold restore_in_flight in s'.
  destruct (in_flight (shared s)) as [|x infl] eqn:E.
  { unfold s'. by rewrite with_shared_same. }
  assert (Hp : pending s' = pending s) by (unfold pending; simpl; by rewrite E).
  destruct Hs as [H1 H2 H3 H4 H5 H6 H7 H8 H9].
  split; [|done]. constructor; rewrite ?Hp; try done. unfold s'. cbn [shared with_shared
    buffer_bytes buffer]. unfold pending in H8. rewrite E, map_app, accounted_sum_app in H8.
  pose proof (accounted_sum_nonneg (List.map snd (x :: infl))).
  pose proof (accounted_sum_nonneg (List.map snd (buffer (shared s)))).
  rewrite H7, wrapping_add_small by lia. rewrite map_app, accounted_sum_app. lia.
Qed.

Lemma number_lines_last first ls :
  ls <> [] -> first + Z.of_nat (length ls) - 1 ∈ List.map fst (number_lines first ls).
Proof.
  revert first. induction ls as [|l ls IH]; [done|]. intros first _. simpl.
  destruct ls as [|l' ls]; [simpl; apply elem_of_cons; left; lia|].
  apply elem_of_cons. right. specialize (IH (first + 1) ltac:(done)).
  replace (first + Z.of_nat (S (length (l' :: ls))) - 1)
    with (first + 1 + Z.of_nat (length (l' :: ls)) - 1) by lia. done.
Qed.

(** The drained run of a non-empty buffer is its contents numbered from its
    first line, within the representable range. *)
Lemma drained_run (buf : list (Z * bytes)) :
  buf <> [] -> Forall (fun nl => line_small (line_view nl) /\ fst nl < i64_max) buf ->
  let run := take (bounded_contiguous_prefix_len (List.map line_view buf)
                     MAX_CHUNK_PAYLOAD_BYTES) buf in
  let first := match run with (n, _) :: _ => n | [] => 0 end in
  run = number_lines first (List.map snd run) /\
  0 <= first /\ first + Z.of_nat (length (List.map snd run)) <= i64_max.
Proof.
  intros Hne Hsm run first. set (view := List.map line_view buf) in *.
  destruct (bounded_prefix_spec view) as (Hk & Hcons & _).
  { apply List.Forall_map. eapply Forall_impl; [exact Hsm|]. naive_solver. }
  { intros E. by apply map_eq_nil in E. }
  assert (Hrun : run = number_lines first (List.map snd run)).
  { apply consecutive_number; [|unfold first; by destruct run as [|[? ?] ?]].
    unfold view in Hcons at 2. rewrite firstn_map, map_map in Hcons. exact Hcons. }
  assert (Hall : Forall (fun nl => 0 <= fst nl < i64_max) run).
  { apply Forall_take. eapply Forall_impl; [exact Hsm|]. intros ? [[[? _] _] ?]. by simpl in *. }
  assert (Hrne : run <> []).
  { intros E. apply (f_equal length) in E. unfold run in E. rewrite length_take in E.
    unfold view in Hk. rewrite length_map in Hk. fold view in Hk. simpl in E. lia. }
  split; [done|]. rewrite Forall_forall in Hall. split.
  - destruct run as [|[n c] r] eqn:Er; [done|]. apply (Hall (n, c)). by left.
  - assert (Hl : first + Z.of_nat (length (List.map snd run)) - 1 ∈ List.map fst run).
    { rewrite Hrun at 2. apply number_lines_last. by destruct run. }
    apply list_elem_of_In, in_map_iff in Hl as (nl & E & Hnl%list_elem_of_In).
    specialize (Hall nl Hnl). lia.
Qed.

(** Staging a run changes no pending line, and what it hands to the commit is
    the staged run, numbered. *)
Lemma cut_begin_spec s s' res :
  sess_ok s -> next_seq s < u32_max -> cut_begin s = (s', res) ->
  sess_ok s' /\ pending s' = pending s /\
  session_id s' = session_id s /\ covered s' = covered s /\
  high_water_line s' = high_water_line s /\
  match res with
  | None => next_seq s' = next_seq s
  | Some (seq, first, ls) =>
      seq = next_seq s /\ next_seq s' = next_seq s + 1 /\
      in_flight (shared s') = number_lines first ls /\
      0 <= first /\ first + Z.of_nat (length ls) <= i64_max
  end.
Proof.
  intros Hs Hseq. destruct (restore_spec s Hs) as (Hr & Hpend & Hin).
  unfold cut_begin. set (sh := restore_in_flight (shared s)) in *. simpl in Hin.
  assert (Hbuf : pending s = buffer sh) by (rewrite <- Hpend; unfold pending; simpl; by rewrite Hin).
  pose proof (so_small _ Hs) as Hsm. rewrite Hbuf in Hsm.
  pose proof (drained_run (buffer sh)) as Hd.
  destruct (buffer sh) as [|x buf] eqn:Eb; intros [<- <-]%pair_eq; [by split_and!|].
  destruct (Hd ltac:(done) Hsm) as (Hrun & H0 & Hmax). clear Hd. rewrite <- Eb in *.
  set (k := bounded_contiguous_prefix_len _ _) in *. set (run := take k (buffer sh)) in *.
  set (first := match run with (n, _) :: _ => n | [] => 0 end) in *.
  assert (Hseq' : u32_wrapping_add (next_seq s) 1 = next_seq s + 1).
  { apply u32_wrapping_add_small. destruct (so_seq _ Hs). mach. }
  match goal with |- sess_ok ?x /\ _ => set (s' := x) end.
  assert (Hp' : pending s' = pending s).
  { unfold pending at 1. simpl. unfold run. rewrite take_drop. by rewrite Hbuf. }
  split_and!; try done. destruct Hs as [H1 H2 H3 H4 H5 H6 H7 H8 H9].
  constructor; rewrite ?Hp'; try done.
  - simpl. rewrite Hseq'. mach.
  - pose proof (so_bytes _ Hr) as Hb. simpl in Hb. simpl. rewrite Hb.
    set (rest := drop k (buffer sh)) in *.
    assert (Es : accounted_sum (List.map snd (buffer sh)) =
                 accounted_sum (List.map snd run) + accounted_sum (List.map snd rest)).
    { rewrite <- accounted_sum_app, <- map_app. unfold run, rest. by rewrite take_drop. }
    rewrite Hbuf in H8. pose proof (accounted_sum_nonneg (List.map snd run)).
    pose proof (accounted_sum_nonneg (List.map snd rest)).
    rewrite wrapping_sub_small by lia. lia.
Qed.

(** The accepting verdict. *)
Lemma accept_verdict_accepted hw fin first n e :
  0 <= first -> 0 < n -> accept_verdict hw fin first n = AcceptVerdict.Accepted e ->
  hw <= first < e /\ e <= first + n /\ e <= i64_max /\
  match fin with Some c => e <= c | None => e = first + n end.
Proof.
  intros H0 Hn. unfold accept_verdict, u64_checked_add.
  destruct (Z.leb_spec (first + n) u64_max); [|done].
  destruct (Z.leb_spec (first + n) i64_max); [|done].
  destruct (Z.ltb_spec MAX_BATCH_LINES n); [done|].
  destruct (Z.ltb_spec first hw); [done|].
  destruct fin as [c|]; [destruct (Z.leb_spec c first); [done|]|]; intros [= <-]; lia.
Qed.

(** What one [accept] does: it appends new lines at or above the old high-water
    mark and below the new one, within the recorded end, and touches nothing
    durable; an ack it carries went through the frontier clamp. *)
Definition accept_effect (s s' : Session) (o : AcceptOutcome + unit) : Prop :=
  sess_ok s' /\ session_id s' = session_id s /\ next_seq s' = next_seq s /\
  covered s' = covered s /\ in_flight (shared s') = in_flight (shared s) /\
  high_water_line s <= high_water_line s' /\
  (exists new, buffer (shared s') = buffer (shared s) ++ new /\
     StronglySorted Z.lt (List.map fst new) /\
     Forall (fun nl => high_water_line s <= fst nl < high_water_line s' /\
       forall c, final_line_count s = Some c -> fst nl < c) new) /\
  (outcome_ack o = None \/ exists last, outcome_ack o = clamped_durable_ack s' last).

Lemma sess_ok_high_water s hw :
  sess_ok s -> high_water_line s <= hw -> sess_ok (with_high_water s hw).
Proof.
  intros [H1 H2 H3 H4 H5 H6 H7 H8 H9] Hle. constructor; try done. simpl.
  eapply Forall_impl; [exact H6|]. simpl. lia.
Qed.

Lemma accept_effect_noop s o : sess_ok s -> outcome_ack o = None -> accept_effect s s o.
Proof.
  intros Hs Ho. split_and!; try done; [|by left]. exists []. rewrite app_nil_r. split; [done|].
  split; constructor.
Qed.

Lemma accept_effect_covered s hw last :
  sess_ok s -> high_water_line s <= hw ->
  accept_effect s (with_high_water s hw)
    (inl (AcceptOutcome.CoveredReplay (clamped_durable_ack (with_high_water s hw) last))).
Proof.
  intros Hs Hle. split_and!; try done; [by apply sess_ok_high_water| |right; by exists last].
  exists []. rewrite app_nil_r. split; [done|]. split; constructor.
Qed.

Lemma sorted_app_below (a b : list (Z * bytes)) hw :
  StronglySorted Z.lt (List.map fst a) -> StronglySorted Z.lt (List.map fst b) ->
  Forall (fun nl => fst nl < hw) a -> Forall (fun nl => hw <= fst nl) b ->
  StronglySorted Z.lt (List.map fst (a ++ b)).
Proof.
  intros. rewrite map_app. apply (sorted_app_lt _ _ hw); try done; by apply List.Forall_map.
Qed.

Lemma number_lines_forall first ls (P : Z * bytes -> Prop) :
  (forall n c, first <= n < first + Z.of_nat (length ls) -> c ∈ ls -> P (n, c)) ->
  Forall P (number_lines first ls).
Proof.
  revert first. induction ls as [|l ls IH]; simpl; intros first HP; constructor.
  - apply HP; [lia|by left].
  - apply IH. intros n c Hn Hc. apply HP; [lia|by right].
Qed.

(** Buffering a verified batch. *)
Lemma accept_effect_buffer now s batch ls e cd :
  sess_ok s -> 0 <= first_line_number batch ->
  high_water_line s <= first_line_number batch ->
  first_line_number batch + Z.of_nat (length ls) = e -> e <= i64_max -> ls <> [] ->
  (forall c, final_line_count s = Some c -> e <= c) ->
  Forall (fun l => Z.of_nat (length l) <= MAX_LINE_CONTENT_BYTES) ls ->
  u64_saturating_add (accepted_bytes s) (accounted_sum ls) <= per_exec_byte_cap (config s) ->
  accept_effect s
    (mkIngestSession (session_id s) (buffer_batch try_send now s batch ls (accounted_sum ls))
       (config s) (next_seq s) (prior_chunks s) e (final_line_count s)
       (u64_wrapping_add (accepted_bytes s) (accounted_sum ls)) (covered s)
       (session_floor s) (consecutive_cut_failures s))
    (inl (AcceptOutcome.Accepted cd)).
Proof.
  intros Hs H0 Hhw He Hi Hne Hfin Hlen Hcap. set (first := first_line_number batch) in *.
  match goal with |- accept_effect _ ?x _ => set (s' := x) end.
  assert (Hlt : first < e) by (destruct ls; [done|simpl in He; lia]).
  assert (Hsh : buffer (shared s') = buffer (shared s) ++ number_lines first ls /\
    in_flight (shared s') = in_flight (shared s) /\
    buffer_bytes (shared s') = u64_wrapping_add (buffer_bytes (shared s)) (accounted_sum ls)).
  { unfold s', buffer_batch. simpl. by destruct (match subscribers (shared s) with [] => _ | _ => _ end). }
  destruct Hsh as (Hb & Hf & Hbb).
  assert (Hp : pending s' = pending s ++ number_lines first ls)
    by (unfold pending; by rewrite Hb, Hf, app_assoc).
  destruct Hs as [H1 H2 H3 H4 H5 H6 H7 H8 H9].
  pose proof (accounted_sum_nonneg ls) as Hnn.
  pose proof (accounted_sum_nonneg (List.map snd (in_flight (shared s)))) as Hnf.
  pose proof (accounted_sum_nonneg (List.map snd (buffer (shared s)))) as Hnb.
  assert (Hsum : accounted_sum (List.map snd (pending s)) =
    accounted_sum (List.map snd (in_flight (shared s))) +
    accounted_sum (List.map snd (buffer (shared s))))
    by (unfold pending; by rewrite map_app, accounted_sum_app).
  assert (Hadd : accepted_bytes s + accounted_sum ls <= u64_max)
    by (unfold u64_saturating_add in Hcap; lia).
  assert (Hok : sess_ok s').
  { constructor; try done.
    - rewrite Hp. apply (sorted_app_below _ _ (high_water_line s));
        [done|apply number_lines_sorted|done|].
      apply number_lines_forall. intros n c Hn _. simpl. lia.
    - rewrite Hp. apply Forall_app. split; [done|]. apply number_lines_forall.
      intros n c Hn Hc. rewrite Forall_forall in Hlen. specialize (Hlen c Hc).
      unfold line_small, line_view. simpl. lia.
    - rewrite Hp. apply Forall_app. simpl. split.
      + eapply Forall_impl; [exact H6|]. simpl. lia.
      + apply number_lines_forall. intros n c Hn _. simpl. lia.
    - rewrite Hb, Hbb, map_app, accounted_sum_app, number_lines_snd, H7.
      apply wrapping_add_small. lia.
    - rewrite Hp, map_app, accounted_sum_app, number_lines_snd. simpl.
      rewrite wrapping_add_small by lia. lia. }
  split_and!; try done; [simpl; lia| |by left].
  exists (number_lines first ls). split; [done|]. split; [apply number_lines_sorted|].
  apply number_lines_forall. intros n c Hn _. simpl. split; [lia|].
  intros fc Hfc. specialize (Hfin fc Hfc). lia.
Qed.

Lemma accept_above_floor_spec now s batch s' o :
  sess_ok s -> 0 <= first_line_number batch -> lines batch <> [] ->
  accept_above_floor try_send now s batch = (s', o) -> accept_effect s s' o.
Proof.
  intros Hs H0 Hne. unfold accept_above_floor.
  destruct (accept_verdict _ _ _ _) as [| | | |e] eqn:Ev;
    try (intros [= <- <-]; by apply accept_effect_noop).
  apply accept_verdict_accepted in Ev as (Hhw & He & Hi & Hfin);
    [|done|destruct (lines batch); [done|simpl; lia]].
  destruct (cov_covers_range _ _ _).
  { intros [<- <-]%pair_eq. apply accept_effect_covered; [done|lia]. }
  set (bl := if e <? _ then _ else _).
  assert (Hbl : first_line_number batch + Z.of_nat (length bl) = e).
  { unfold bl. destruct (Z.ltb_spec e (first_line_number batch + Z.of_nat (length (lines batch))));
      [|lia]. rewrite length_take. lia. }
  destruct (Z.ltb_spec (per_exec_byte_cap (config s))
    (u64_saturating_add (accepted_bytes s) (accounted_sum (List.map truncate_line bl)))) as [|Hcap].
  { intros [<- <-]%pair_eq. by apply accept_effect_noop. }
  intros [<- <-]%pair_eq. apply accept_effect_buffer; try done.
  - lia.
  - by rewrite length_map.
  - intros E. apply map_eq_nil in E. rewrite E in Hbl. simpl in Hbl. lia.
  - intros c Hc. by rewrite Hc in Hfin.
  - apply List.Forall_map, Forall_forall. intros l _. apply truncate_line_small.
Qed.

Lemma accept_spec now s batch s' o :
  sess_ok s -> 0 <= first_line_number batch ->
  accept try_send now s batch = (s', o) -> accept_effect s s' o.
Proof.
  intros Hs H0. unfold accept. destruct (lines batch) as [|l ls] eqn:El.
  { intros [<- <-]%pair_eq. by apply accept_effect_noop. }
  rewrite <- El. assert (Hne : lines batch <> []) by by rewrite El.
  destruct (Z.ltb_spec (first_line_number batch) (session_floor s));
    [|by apply accept_above_floor_spec].
  set (last := u64_saturating_add _ _). destruct (Z.ltb_spec last (session_floor s)).
  { intros [<- <-]%pair_eq. apply accept_effect_covered; [done|lia]. }
  apply accept_above_floor_spec; [done|apply Hs|]. simpl. intros E.
  apply (f_equal length) in E. rewrite length_drop in E. simpl in E.
  unfold last, u64_saturating_add in *. rewrite El in *. simpl in *. lia.
Qed.

Lemma sorted_map_drop_app (a b : list (Z * bytes)) :
  StronglySorted Z.lt (List.map fst (a ++ b)) -> StronglySorted Z.lt (List.map fst b).
Proof.
  induction a as [|x a IH]; simpl; [done|].
  intros [? _]%StronglySorted_inv. by apply IH.
Qed.

(** The success arm: the staged run leaves, the coverage map gains it. *)
Lemma cut_ok_spec now s first n s' ack :
  sess_ok s -> row_fits (first, n) -> cut_ok now s first n = (s', ack) ->
  sess_ok s' /\ session_id s' = session_id s /\ next_seq s' = next_seq s /\
  high_water_line s' = high_water_line s /\
  pending s = in_flight (shared s) ++ pending s' /\
  (forall l, cov_line (covered s') l <-> cov_line (covered s) l \/ row_holds (first, n) l) /\
  ack = clamped_durable_ack s' (first + n - 1).
Proof.
  intros [H1 H2 H3 H4 H5 H6 H7 H8 H9] Hfit [<- <-]%pair_eq. unfold pending in *.
  destruct (cov_insert_spec _ _ _ H1 Hfit) as [Hwf Hcov].
  pose proof (accounted_sum_nonneg (List.map snd (in_flight (shared s)))).
  split; [|by split_and!]. constructor; simpl; try done.
  - by apply sorted_map_drop_app in H4.
  - by apply Forall_app in H5 as [_ ?].
  - by apply Forall_app in H6 as [_ ?].
  - rewrite map_app, accounted_sum_app in H8. unfold pending. simpl. lia.
Qed.

(** A true prefix claim: every line at or below an ack is in the manifest. *)
Definition ack_sound (a : option Z) (d : Durable) : Prop :=
  match a with
  | Some v => forall l, 0 <= l <= v -> manifest_line d l
  | None => True
  end.

Lemma clamped_ack_sound s last d :
  cov_wf (covered s) -> (forall l, cov_line (covered s) l -> manifest_line d l) ->
  ack_sound (clamped_durable_ack s last) d.
Proof.
  intros Hwf Hc. unfold clamped_durable_ack, durable_frontier, u64_checked_sub.
  destruct (Z.leb_spec 1 (cov_prefix_end (covered s))); [|done]. simpl. intros l Hl.
  apply Hc. destruct (cov_prefix_spec _ Hwf) as (_ & Hp & _). apply Hp. lia.
Qed.

Lemma seam_accept w now batch s' o :
  seam_inv w -> 0 <= first_line_number batch ->
  accept try_send now (sess w) batch = (s', o) ->
  seam_inv (mkWorld s' (dur w)
    (log w ++ drop (length (buffer (shared (sess w)))) (buffer (shared s')))) /\
  ack_sound (outcome_ack o) (dur w).
Proof.
  intros [Hs Hrows Hcov [Hf1 Hf2] Hls Hlb Hseam] H0 Ha.
  apply accept_spec in Ha as (Hok & Hid & Hseq & Hcv & Hfl & Hhw & (new & Hb & Hns & Hnew) & Hack);
    [|done..].
  assert (Hdrop : drop (length (buffer (shared (sess w)))) (buffer (shared s')) = new)
    by by rewrite Hb, drop_app_length.
  assert (Hp : pending s' = pending (sess w) ++ new)
    by (unfold pending; by rewrite Hfl, Hb, app_assoc).
  assert (Hc' : forall l, cov_line (covered s') l -> manifest_line (dur w) l) by by rewrite Hcv.
  split.
  - rewrite Hdrop. constructor; simpl; try done.
    + unfold seqs_fresh. by rewrite Hid, Hseq.
    + apply (sorted_app_below _ _ (high_water_line (sess w))); [done..|].
      eapply Forall_impl; [exact Hnew|]. simpl. naive_solver lia.
    + apply Forall_app. split.
      * eapply Forall_impl; [exact Hlb|]. simpl. lia.
      * eapply Forall_impl; [exact Hnew|]. simpl. naive_solver lia.
    + intros n c [Hin|Hin]%elem_of_app; rewrite Hp, elem_of_app; [|by left; right].
      destruct (Hseam n c Hin); [by left; left|by right].
  - destruct Hack as [->|(last & ->)]; [done|]. apply clamped_ack_sound; [apply Hok|done].
Qed.

(** Any commit attempt preserves everything but the session. *)
Lemma seam_commit w s' seq d' :
  seam_inv w -> sess_ok s' -> session_id s' = session_id (sess w) ->
  next_seq s' = next_seq (sess w) + 1 -> seq = next_seq (sess w) ->
  high_water_line s' = high_water_line (sess w) ->
  commit_effect (session_id (sess w)) seq (dur w) d' ->
  (forall l, cov_line (covered s') l -> manifest_line d' l) ->
  (forall n c, (n, c) ∈ pending (sess w) -> (n, c) ∈ pending s' \/ durable_line d' n c) ->
  seam_inv (mkWorld s' d' (log w)).
Proof.
  intros [Hs Hrows Hcov [Hf1 Hf2] Hls Hlb Hseam] Hok Hid Hseq -> Hhw (Hg & Hi & Hr & Hk) Hc Hp.
  constructor; simpl; try done.
  - split; rewrite Hid, Hseq.
    + intros r Hin E. specialize (Hr r Hin E). lia.
    + intros k Hle. rewrite Hk by lia. apply Hf2. lia.
  - by rewrite Hhw.
  - intros n c Hin. destruct (Hseam n c Hin); [by apply Hp|].
    right. by eapply durable_line_grows.
Qed.

Lemma key_fresh_next w : seam_inv w -> key_fresh (session_id (sess w)) (next_seq (sess w)) (dur w).
Proof. intros [_ _ _ [H1 H2] _ _ _]. split; [done|]. by apply H2. Qed.

Lemma seam_same_durable w s' :
  seam_inv w -> sess_ok s' -> session_id s' = session_id (sess w) ->
  next_seq s' = next_seq (sess w) -> covered s' = covered (sess w) ->
  high_water_line s' = high_water_line (sess w) -> pending s' = pending (sess w) ->
  seam_inv (mkWorld s' (dur w) (log w)).
Proof.
  intros [Hs Hrows Hcov Hf Hls Hlb Hseam] Hok Hid Hseq Hcv Hhw Hp.
  constructor; simpl; try done; [by rewrite Hcv| |by rewrite Hhw|by rewrite Hp].
  unfold seqs_fresh in *. by rewrite Hid, Hseq.
Qed.

Lemma cut_failed_spec s :
  sess_ok s -> sess_ok (cut_failed s) /\ pending (cut_failed s) = pending s.
Proof.
  intros (Hok & Hp & _)%restore_spec. split; [|done].
  destruct Hok. by constructor.
Qed.

Lemma seam_cut w now env s' d' o :
  seam_inv w -> next_seq (sess w) < u32_max ->
  cut zstd_encode now env (sess w) (dur w) = (s', d', o) ->
  seam_inv (mkWorld s' d' (log w)) /\ ack_sound (cut_ack o) d'.
Proof.
  intros Hinv Hseq. unfold cut. destruct (cut_begin (sess w)) as [s1 res] eqn:Eb.
  apply cut_begin_spec in Eb as (Hok & Hp & Hid & Hcv & Hhw & Hres); [|apply Hinv|done].
  destruct res as [[[seq first] ls]|].
  2:{ intros [[<- <-]%pair_eq <-]%pair_eq. split; [|done]. by apply seam_same_durable. }
  destruct Hres as (-> & Hn & Hfl & H0 & Hmax).
  destruct (commit_chunk _ _ _ _ _ _ _) as [d1 e] eqn:Ec.
  apply commit_chunk_spec in Ec as [Heff Hsucc];
    [|apply Hinv|by apply key_fresh_next|done].
  assert (Hcov1 : forall l, cov_line (covered (sess w)) l -> manifest_line d1 l).
  { intros l Hl. eapply manifest_line_grows; [apply Heff|]. by apply Hinv. }
  destruct e as [e|].
  - intros [[<- <-]%pair_eq <-]%pair_eq. split; [|done].
    destruct (cut_failed_spec s1 Hok) as [Hok' Hp'].
    eapply (seam_commit w); try done; simpl; [by rewrite Hcv|].
    intros n c Hin. left. by rewrite Hp', Hp.
  - destruct (cut_ok now s1 first _) as [s2 ack] eqn:Eo.
    intros [[<- <-]%pair_eq <-]%pair_eq. destruct (Hsucc eq_refl) as (r & Hr & Hro & Hrl).
    apply cut_ok_spec in Eo as (Hok2 & Hid2 & Hn2 & Hhw2 & Hp2 & Hcov2 & ->);
      [|done|unfold row_fits; simpl; mach].
    assert (Hc2 : forall l, cov_line (covered s2) l -> manifest_line d1 l).
    { intros l [Hl|Hl]%Hcov2; [by apply Hcov1; rewrite <- Hcv|]. exists r. by rewrite Hro. }
    split; [|apply clamped_ack_sound; [apply Hok2|done]].
    eapply (seam_commit w); try done; try congruence.
    intros n c Hin. rewrite <- Hp, Hp2, elem_of_app, Hfl in Hin.
    destruct Hin as [Hin|?]; [right|by left]. exists r. split; [done|by apply Hrl].
Qed.

Lemma seam_abandon w env s' d' :
  seam_inv w -> next_seq (sess w) < u32_max ->
  cut_abandoned zstd_encode env (sess w) (dur w) = (s', d') ->
  seam_inv (mkWorld s' d' (log w)).
Proof.
  intros Hinv Hseq. unfold cut_abandoned. destruct (cut_begin (sess w)) as [s1 res] eqn:Eb.
  apply cut_begin_spec in Eb as (Hok & Hp & Hid & Hcv & Hhw & Hres); [|apply Hinv|done].
  destruct res as [[[seq first] ls]|].
  2:{ intros [<- <-]%pair_eq. by apply seam_same_durable. }
  destruct Hres as (-> & Hn & Hfl & H0 & Hmax).
  destruct (commit_chunk _ _ _ _ _ _ _) as [d1 e] eqn:Ec.
  apply commit_chunk_spec in Ec as [Heff _]; [|apply Hinv|by apply key_fresh_next|done].
  intros [<- <-]%pair_eq. eapply (seam_commit w); try done; simpl.
  - destruct Hok. by constructor.
  - rewrite Hcv. intros l Hl. eapply manifest_line_grows; [apply Heff|]. by apply Hinv.
  - intros n c Hin. left. unfold pending. simpl. by rewrite <- Hp in Hin.
Qed.

Lemma seam_step w a w' : seam_inv w -> step w a w' -> seam_inv w' /\ ack_sound a (dur w').
Proof.
  intros Hinv Hstep.
  destruct Hstep as [w now batch s' o H0 Ha|w now env s' d' o Hq Hc|w env s' d' Hq Hc
                    |w n|w tx since|w d' Hg Hi Hr Ho].
  - exact (seam_accept w now batch s' o Hinv H0 Ha).
  - exact (seam_cut w now env s' d' o Hinv Hq Hc).
  - split; [exact (seam_abandon w env s' d' Hinv Hq Hc)|done].
  - split; [|done]. apply seam_same_durable; try done. destruct Hinv as [[] _ _ _ _ _ _].
    by constructor.
  - split; [|done]. apply seam_same_durable; try done. destruct Hinv as [[] _ _ _ _ _ _].
    by constructor.
  - split; [|done]. destruct Hinv as [Hs Hrows Hcov [Hf1 Hf2] Hls Hlb Hseam].
    constructor; simpl; try done.
    + intros l Hl. eapply manifest_line_grows; [done|by apply Hcov].
    + split; [intros r Hin E; apply Hf1; [by apply Hr|done]|].
      intros k Hk. rewrite Ho. by apply Hf2.
    + intros n c Hin. destruct (Hseam n c Hin); [by left|right].
      by eapply durable_line_grows.
Qed.

Lemma seam_reachable w0 w : seam_inv w0 -> reachable w0 w -> seam_inv w.
Proof. intros H0. induction 1 as [|w a w' _ IH Hs]; [done|]. by eapply seam_step. Qed.

(** A session opened by the gate over an intact durable state: its coverage map
    claims only manifest lines, its id is unused, its cap is below [u64::MAX]. *)
Record opens (w : World) : Prop := {
  op_session : exists sid cfg mb mc cov fin, sess w = session_new sid cfg mb mc cov fin /\
    0 <= mb <= u64_max /\ per_exec_byte_cap cfg < u64_max /\ cov_wf cov /\
    (forall l, cov_line cov l -> manifest_line (dur w) l) /\
    (forall r, r ∈ rows (dur w) -> mr_session r <> sid) /\
    (forall k, objects (dur w) !! (sid, k) = None);
  op_rows : forall r, r ∈ rows (dur w) -> row_intact (dur w) r;
  op_log : log w = [];
}.

Lemma opens_inv w : opens w -> seam_inv w.
Proof.
  intros [(sid & cfg & mb & mc & cov & fin & Hs & Hmb & Hcap & Hwf & Hcov & Hr & Ho) Hrows Hlog].
  assert (Hp : pending (sess w) = []) by (rewrite Hs; by destruct fin).
  assert (Hf : session_id (sess w) = sid /\ next_seq (sess w) = 0 /\ covered (sess w) = cov /\
    session_floor (sess w) = cov_prefix_end cov /\ buffer (shared (sess w)) = [] /\
    buffer_bytes (shared (sess w)) = 0 /\ accepted_bytes (sess w) = mb /\ config (sess w) = cfg)
    by (rewrite Hs; by destruct fin).
  destruct Hf as (F1 & F2 & F3 & F4 & F5 & F6 & F7 & F8).
  destruct (cov_prefix_spec _ Hwf) as [Hpe _].
  constructor; [| done | by rewrite F3 | split | rewrite Hlog; constructor
               | rewrite Hlog; constructor | by rewrite Hlog; intros n c ?%not_elem_of_nil].
  - constructor; rewrite ?Hp, ?F2, ?F3, ?F4, ?F5, ?F6, ?F7, ?F8; simpl; try done; constructor.
  - rewrite F1, F2. intros r Hin E. by destruct (Hr r Hin).
  - rewrite F1. intros k _. apply Ho.
Qed.

(** C6: The seam invariant: in every state a session can reach, over any
    interleaving of accepts, successful, failed and abandoned cuts (with the
    commit's effects landing or not), seals, subscriptions and other sessions'
    commits, every line ever accepted is still pending in memory or is durable
    under a manifest row whose object decodes to that content; accepted line
    numbers strictly increase, and the buffer's byte count is exact. *)
Theorem no_accepted_line_lost w0 w :
  opens w0 -> reachable w0 w ->
  (forall n c, (n, c) ∈ log w -> (n, c) ∈ pending (sess w) \/ durable_line (dur w) n c) /\
  StronglySorted Z.lt (List.map fst (log w)) /\
  buffer_bytes (shared (sess w)) = accounted_sum (List.map snd (buffer (shared (sess w)))).
Proof.
  intros H0%opens_inv Hr. pose proof (seam_reachable _ _ H0 Hr) as Hw.
  split_and!; [apply Hw..|]. apply (si_sess _ Hw).
Qed.

(** C9: Every durable ack a session sends, from a covered replay or from a cut, is a
    true prefix claim: each line at or below it lies in a manifest row. *)
Theorem durable_ack_sound w0 w v w' :
  opens w0 -> reachable w0 w -> step w (Some v) w' ->
  forall l, 0 <= l <= v -> manifest_line (dur w') l.
Proof.
  intros H0%opens_inv Hr Hs. pose proof (seam_reachable _ _ H0 Hr) as Hw.
  destruct (seam_step _ _ _ Hw Hs) as [_ Ha]. exact Ha.
Qed.

End Seam.

(** ** A concrete run: one batch accepted, one cut committed. *)

Definition demo_send (tx : unit) (_ : FanBatch) : unit * SendResult := (tx, Sent).
Definition demo_zstd (b : bytes) : option bytes := Some b.
Definition demo_unzstd (b : bytes) : option (bytes * bool) := Some (b, true).
Definition demo_env : CommitEnv := mkCommitEnv true PutOk InsertOk.
Definition demo_batch : BuildLogBatch := mkBuildLogBatch "" [[104; 105]; []] 0 "".
Definition demo_w0 : @World CoverageMap unit :=
  mkWorld (session_new 7 (mkIngestConfig 1000000 1024 60) 0 0 (from_intervals []) None)
    (mkDurable [] ∅) [].
Definition demo_s1 : @IngestSession CoverageMap unit :=
  Eval vm_compute in fst (accept demo_send 1 (sess demo_w0) demo_batch).
Definition demo_w1 : @World CoverageMap unit :=
  mkWorld demo_s1 (mkDurable [] ∅) [(0, [104; 105]); (1, [])].
Definition demo_cut := Eval vm_compute in cut demo_zstd 2 demo_env demo_s1 (mkDurable [] ∅).
Definition demo_w2 : @World CoverageMap unit :=
  mkWorld (fst (fst demo_cut)) (snd (fst demo_cut)) [(0, [104; 105]); (1, [])].

Lemma demo_opens : opens demo_unzstd demo_w0.
Proof.
  split; [|by intros r ?%not_elem_of_nil|done].
  exists 7, (mkIngestConfig 1000000 1024 60), 0, 0, (from_intervals []), None.
  split_and!; try done; try (by intros r ?%not_elem_of_nil).
  - split; constructor.
  - intros l (s & []%not_elem_of_nil & _).
Qed.

Lemma demo_step1 : step demo_send demo_zstd demo_unzstd demo_w0 None demo_w1.
Proof.
  exact (step_accept demo_send demo_zstd demo_unzstd demo_w0 1 demo_batch demo_s1
    (inl (AcceptOutcome.Accepted false)) ltac:(vm_compute; discriminate) eq_refl).
Qed.

Lemma demo_step2 : step demo_send demo_zstd demo_unzstd demo_w1 (Some 1) demo_w2.
Proof.
  exact (step_cut demo_send demo_zstd demo_unzstd demo_w1 2 demo_env (fst (fst demo_cut))
    (snd (fst demo_cut)) (snd demo_cut) ltac:(vm_compute; reflexivity) eq_refl).
Qed.

Lemma demo_roundtrip payload blob :
  demo_zstd payload = Some blob -> demo_unzstd blob = Some (payload, true).
Proof. by intros [= ->]. Qed.

Lemma demo_reach1 : reachable demo_send demo_zstd demo_unzstd demo_w0 demo_w1.
Proof. eapply reach_step; [apply reach_start|apply demo_step1]. Qed.

Lemma no_accepted_line_lost_witness :
  log demo_w1 <> [] /\
  Forall (fun nc => nc ∈ pending (sess demo_w1) \/
    durable_line demo_unzstd (dur demo_w1) (fst nc) (snd nc)) (log demo_w1).
Proof.
  split; [discriminate|]. apply Forall_forall. intros [n c].
  exact (proj1 (no_accepted_line_lost demo_send demo_zstd demo_unzstd demo_roundtrip
    demo_w0 demo_w1 demo_opens demo_reach1) n c).
Defined.

Lemma durable_ack_sound_witness :
  manifest_line (dur demo_w2) 0 /\ manifest_line (dur demo_w2) 1.
Proof.
  split; apply (durable_ack_sound demo_send demo_zstd demo_unzstd demo_roundtrip
    demo_w0 demo_w1 1 demo_w2 demo_opens demo_reach1 demo_step2); lia.
Defined.
