(* ===== verification/LogRead.v ===== *)
(** * Log read path: [read_chunk], the loss ledger, the final claim

    [src/rio-store/src/logs/tail.rs] ([read_chunk] and the loop that drives it
    over a manifest), the anomaly ledger of [src/rio-store/src/logs/loss.rs],
    [final_claim] and [tail_next] of the log kernel and [final_claim_for] of
    [src/rio-store/src/logs/gate.rs].  The bucket and the sweep-race re-check
    are functions given to the read; zstd is the decoder variable of
    [LogChunks].  Metrics and logging are omitted. *)

From Stdlib Require Import Sorted.
From S2P Require Import Prelude LogVisit LogCoverage LogChunks.

Record ChunkRef : Type := mkChunkRef {
  exec_id : Z;
  s3_key : string;
  cr_first_line : Z;
  cr_line_count : Z;
}.

Definition ref_row (r : ChunkRef) : row := (cr_first_line r, cr_line_count r).

(** ** The anomaly ledger *)

Definition LOSS_LEDGER_CAP : nat := 1024.
Definition DIVERGENCE_LEDGER_CAP : nat := Z.to_nat 8192.

Abbreviation Hole := (Z * string)%type.

Record Partition : Type := mkPartition { seen : gset Hole; order : list Hole }.

Definition first_sighting (p : Partition) (cap : nat) (h : Hole) : Partition * bool :=
  if bool_decide (h ∈ seen p) then (p, false)
  else
    let p' :=
      if (cap <=? length (order p))%nat then
        match order p with
        | evicted :: rest => mkPartition (seen p ∖ {[evicted]}) rest
        | [] => p
        end
      else p in
    (mkPartition ({[h]} ∪ seen p') (order p' ++ [h]), true).

Record Ledger : Type := mkLedger { loss : Partition; divergence : Partition }.

Definition note_hole (l : Ledger) (h : Hole) : Ledger * bool :=
  let '(p, first) := first_sighting (loss l) LOSS_LEDGER_CAP h in
  (mkLedger p (divergence l), first).

Definition note_divergence (l : Ledger) (h : Hole) : Ledger * bool :=
  let '(p, first) := first_sighting (divergence l) DIVERGENCE_LEDGER_CAP h in
  (mkLedger (loss l) p, first).

(** The queue and the set agree, and the queue never exceeds the cap. *)
Record partition_ok (cap : nat) (p : Partition) : Prop := {
  po_agree : forall h : Hole, h ∈ seen p <-> h ∈ order p;
  po_nodup : NoDup (order p);
  po_cap : (length (order p) <= cap)%nat;
}.

Lemma first_sighting_ok cap p (h : Hole) :
  (0 < cap)%nat -> partition_ok cap p ->
  partition_ok cap (fst (first_sighting p cap h)) /\
  h ∈ seen (fst (first_sighting p cap h)) /\
  (snd (first_sighting p cap h) = true <-> h ∉ seen p).
Proof.
  intros Hcap [Ha Hn Hc]. unfold first_sighting. case_bool_decide as Hin.
  { split; [done|]. split; [done|]. split; [done|]. by intros []. }
  set (p' := if (cap <=? _)%nat then _ else _).
  assert (Hp' : (forall x : Hole, x ∈ seen p' <-> x ∈ order p') /\ NoDup (order p') /\
    (length (order p') < cap)%nat /\ h ∉ order p').
  { rewrite Ha in Hin. unfold p'. destruct (Nat.leb_spec cap (length (order p))) as [Hle|]; [|done].
    destruct (order p) as [|e rest] eqn:E; [simpl in Hle; lia|]. simpl.
    apply NoDup_cons in Hn as [He Hn]. simpl in Hc.
    split; [|split; [done|split; [lia|]]].
    - intros x. rewrite elem_of_difference, Ha, elem_of_cons, elem_of_singleton.
      split; [naive_solver|]. intros Hx. split; [by right|]. by intros ->.
    - by intros ?; apply Hin; right. }
  destruct Hp' as (A1 & A2 & A3 & A4). simpl. split; [|split; [set_solver|done]].
  constructor; simpl.
  - intros x. rewrite elem_of_union, elem_of_singleton, elem_of_app, list_elem_of_singleton, A1. tauto.
  - apply NoDup_app. split; [done|]. split; [|apply NoDup_singleton].
    intros x Hx ->%list_elem_of_singleton. done.
  - rewrite length_app. simpl. lia.
Qed.

(** ** [read_chunk] *)

Module UnservableKind.
Inductive UnservableKind : Type :=
| OversizedChunk | MissingObject | ShortObject | UndecodableChunk.
End UnservableKind.
Abbreviation UnservableKind := UnservableKind.UnservableKind.

(** The [Status] of a failed read: the retryable fetch failure, or the
    typed-permanent refusal. *)
Inductive ReadStatus : Type := FetchFailed | Unservable (kind : UnservableKind).

Inductive GetResult : Type := GetOk (blob : bytes) | GetNotFound | GetBackendError.

Section Read.
Variable zstd_decode : bytes -> option (bytes * bool).
(** [LogChunkStore::get]. *)
Variable get : string -> GetResult.
(** The sweep-race re-check: [None] without a pool, otherwise per key whether the
    row still stands, or a query error. *)
Variable manifest : option (string -> option bool).

(** [refuse_permanent]. *)
Definition refuse_permanent {A} (st : Ledger * LineCursor) (chunk : ChunkRef)
    (kind : UnservableKind) : Ledger * LineCursor * (A + ReadStatus) :=
  (fst (note_hole (fst st) (exec_id chunk, s3_key chunk)), snd st, inr (Unservable kind)).

Definition noted (st : Ledger * LineCursor) (chunk : ChunkRef) : Ledger * LineCursor :=
  (fst (note_divergence (fst st) (exec_id chunk, s3_key chunk)), snd st).

(** The final loop: the object's lines inside the yielded range, numbered. *)
Fixpoint emit (first_line i yield_from yield_until : Z) (ls : list bytes) : list (Z * bytes) :=
  match ls with
  | [] => []
  | l :: rest =>
      let line_no := u64_saturating_add first_line i in
      if (line_no <? yield_from) || (yield_until <=? line_no)
      then emit first_line (i + 1) yield_from yield_until rest
      else (line_no, l) :: emit first_line (i + 1) yield_from yield_until rest
  end.

(** The tail of [read_chunk], once the divergence is disposed of. *)
Definition serve (st : Ledger * LineCursor) (chunk : ChunkRef) (visit : ChunkVisit)
    (ls : list bytes) : Ledger * LineCursor * (list (Z * bytes) + ReadStatus) :=
  let cursor' := advance_to (snd st) (advance visit) in
  match visit with
  | ChunkVisit.Skip _ => (fst st, cursor', inl [])
  | ChunkVisit.Serve yf yu _ | ChunkVisit.GapThenServe _ _ yf yu _ =>
      (fst st, cursor', inl (emit (cr_first_line chunk) 0 yf yu ls))
  end.

(** The decoded object against its manifest row. *)
Definition read_object (st : Ledger * LineCursor) (chunk : ChunkRef) (remaining : list ChunkRef)
    (ls : list bytes) : Ledger * LineCursor * (list (Z * bytes) + ReadStatus) :=
  let ov := visit_object (next_line (snd st)) (cr_first_line chunk) (cr_line_count chunk)
              (Z.of_nat (length ls)) in
  match ov_divergence ov with
  | Some (ObjectDivergence.ShortObject missing_from missing_until) =>
      match short_object_policy (next_line (snd st)) missing_from missing_until
              (List.map ref_row remaining) with
      | ShortObjectPolicy.ServeClamped => serve (noted st chunk) chunk (ov_visit ov) ls
      | ShortObjectPolicy.UnservableHole => refuse_permanent st chunk UnservableKind.ShortObject
      end
  | Some (ObjectDivergence.LongObject _) => serve (noted st chunk) chunk (ov_visit ov) ls
  | None => serve st chunk (ov_visit ov) ls
  end.

(** The [NotFound] arm. *)
Definition read_missing (st : Ledger * LineCursor) (chunk : ChunkRef) (remaining : list ChunkRef)
    : Ledger * LineCursor * (list (Z * bytes) + ReadStatus) :=
  let policy :=
    match short_object_policy (next_line (snd st)) (cr_first_line chunk)
            (u64_saturating_add (cr_first_line chunk) (cr_line_count chunk))
            (List.map ref_row remaining) with
    | ShortObjectPolicy.ServeClamped => (noted st chunk, inl [])
    | ShortObjectPolicy.UnservableHole => refuse_permanent st chunk UnservableKind.MissingObject
    end in
  match manifest with
  | None => policy
  | Some row_stands =>
      match row_stands (s3_key chunk) with
      | None => (st, inr FetchFailed)
      | Some false => (st, inl [])
      | Some true => policy
      end
  end.

Definition read_chunk (st : Ledger * LineCursor) (chunk : ChunkRef) (remaining : list ChunkRef)
    : Ledger * LineCursor * (list (Z * bytes) + ReadStatus) :=
  if is_empty (visit_chunk (next_line (snd st)) (cr_first_line chunk) (cr_line_count chunk))
  then (st, inl [])
  else if MAX_CHUNK_LINES_ABS <? cr_line_count chunk
  then refuse_permanent st chunk UnservableKind.OversizedChunk
  else match get (s3_key chunk) with
       | GetNotFound => read_missing st chunk remaining
       | GetBackendError => (st, inr FetchFailed)
       | GetOk blob =>
           match decompress_lines zstd_decode blob with
           | None => refuse_permanent st chunk UnservableKind.UndecodableChunk
           | Some ls => read_object st chunk remaining ls
           end
       end.

(** The loop of [stream_chunks] and of the [TailLog] manifest walk. *)
Fixpoint stream_chunks (st : Ledger * LineCursor) (refs : list ChunkRef)
    : Ledger * LineCursor * (list (Z * bytes) + ReadStatus) :=
  match refs with
  | [] => (st, inl [])
  | chunk :: rest =>
      match read_chunk st chunk rest with
      | (st', inr e) => (st', inr e)
      | (st', inl out) =>
          match stream_chunks st' rest with
          | (st'', inr e) => (st'', inr e)
          | (st'', inl out') => (st'', inl (out ++ out'))
          end
      end
  end.

(** ** What one [read_chunk] delivers *)

(** Line [n] with content [c] comes from the object of [chunk]. *)
Definition from_object (chunk : ChunkRef) (n : Z) (c : bytes) : Prop :=
  exists blob ls, get (s3_key chunk) = GetOk blob /\
    decompress_lines zstd_decode blob = Some ls /\
    cr_first_line chunk <= n /\ ls !! Z.to_nat (n - cr_first_line chunk) = Some c.

(** The chunk's row was not swept between the manifest read and the GET. *)
Definition not_swept (chunk : ChunkRef) : Prop :=
  forall f, manifest = Some f -> f (s3_key chunk) <> Some false.

Record read_effect (chunk : ChunkRef) (remaining : list ChunkRef)
    (c c' : LineCursor) (out : list (Z * bytes)) : Prop := {
  re_mono : next_line c <= next_line c';
  re_sorted : StronglySorted Z.lt (List.map fst out);
  re_sound : forall n x, (n, x) ∈ out ->
    next_line c <= n < next_line c' /\ row_holds (ref_row chunk) n /\ from_object chunk n x;
  re_total : forall l, cr_first_line chunk <= l -> next_line c <= l < next_line c' ->
    l ∈ List.map fst out;
  re_loss : StronglySorted by_first (List.map ref_row remaining) ->
    Forall row_ok (List.map ref_row remaining) -> not_swept chunk ->
    forall l, row_holds (ref_row chunk) l -> next_line c' <= l ->
    rows_hold (List.map ref_row remaining) l;
  re_gap : gap_crossed c' = false -> gap_crossed c = false /\
    forall l, next_line c <= l < next_line c' -> l ∈ List.map fst out;
}.

Implicit Types (chunk : ChunkRef) (ls : list bytes).

(** [emit] below the top of the [u64] range: plain consecutive numbering. *)
Fixpoint numbered (line_no yield_from yield_until : Z) (ls : list bytes) : list (Z * bytes) :=
  match ls with
  | [] => []
  | l :: rest =>
      if (line_no <? yield_from) || (yield_until <=? line_no)
      then numbered (line_no + 1) yield_from yield_until rest
      else (line_no, l) :: numbered (line_no + 1) yield_from yield_until rest
  end.

Lemma emit_numbered first i yf yu ls :
  yu <= u64_max -> emit first i yf yu ls = numbered (first + i) yf yu ls.
Proof.
  intros Hyu. revert i. induction ls as [|l ls IH]; intros i; [done|]. simpl.
  rewrite IH, Z.add_assoc. unfold u64_saturating_add.
  destruct (Z.le_gt_cases (first + i) u64_max).
  - by rewrite Z.min_l by lia.
  - rewrite Z.min_r by lia.
    rewrite (proj2 (Z.leb_le yu u64_max)), (proj2 (Z.leb_le yu (first + i))) by lia.
    by rewrite !orb_true_r.
Qed.

Lemma numbered_elem a yf yu ls n x :
  (n, x) ∈ numbered a yf yu ls <->
  yf <= n < yu /\ a <= n /\ ls !! Z.to_nat (n - a) = Some x.
Proof.
  revert a. induction ls as [|l ls IH]; simpl; intros a.
  { split; [by intros ?%not_elem_of_nil|]. by intros (_ & _ & ?). }
  assert (Hrest : (n, x) ∈ numbered (a + 1) yf yu ls <->
    a < n /\ yf <= n < yu /\ a <= n /\ (l :: ls) !! Z.to_nat (n - a) = Some x).
  { rewrite IH. split.
    - intros (? & ? & E). split_and!; try lia.
      by replace (Z.to_nat (n - a)) with (S (Z.to_nat (n - (a + 1)))) by lia.
    - intros (? & ? & ? & E). split_and!; try lia.
      by replace (Z.to_nat (n - a)) with (S (Z.to_nat (n - (a + 1)))) in E by lia. }
  destruct ((a <? yf) || (yu <=? a)) eqn:Eb.
  - rewrite Hrest. split; [tauto|]. intros (? & ? & ?). split_and!; try done; try lia.
  - apply orb_false_iff in Eb as [?%Z.ltb_ge ?%Z.leb_gt].
    rewrite elem_of_cons, Hrest. split.
    + intros [[= -> ->]|?]; [|tauto]. split_and!; try lia.
      by replace (Z.to_nat (a - a)) with O by lia.
    + intros (? & ? & E). destruct (decide (n = a)) as [->|]; [left|right; split_and!; try done; lia].
      replace (Z.to_nat (a - a)) with O in E by lia. by injection E as ->.
Qed.

Lemma numbered_sorted a yf yu ls : StronglySorted Z.lt (List.map fst (numbered a yf yu ls)).
Proof.
  revert a. induction ls as [|l ls IH]; simpl; intros a; [constructor|].
  destruct (_ || _); [done|]. simpl. constructor; [done|].
  apply List.Forall_map, Forall_forall. intros [n x] Hn%numbered_elem. simpl. lia.
Qed.

Lemma visit_shape n f k :
  row_ok (f, k) ->
  match visit_chunk n f k with
  | ChunkVisit.Skip m => m = n /\ (k = 0 \/ f + k <= n)
  | ChunkVisit.Serve yf yu m => yf = n /\ yu = f + k /\ m = yu /\ f <= n < f + k
  | ChunkVisit.GapThenServe _ _ yf yu m => yf = f /\ yu = f + k /\ m = yu /\ n < f /\ 0 < k
  end.
Proof.
  intros Hr. rewrite visit_chunk_cases by done. destruct Hr as [_ Hk]. simpl in Hk.
  destruct (Z.eqb_spec k 0); simpl; [lia|].
  destruct (Z.leb_spec (f + k) n); simpl; [lia|].
  destruct (Z.ltb_spec n f); simpl; mach.
Qed.

(** Serving [k] lines of an object that holds at least [k]. *)
Lemma serve_effect st st' chunk remaining k ls out blob :
  row_ok (cr_first_line chunk, k) -> k <= cr_line_count chunk -> k <= Z.of_nat (length ls) ->
  get (s3_key chunk) = GetOk blob -> decompress_lines zstd_decode blob = Some ls ->
  (not_swept chunk ->
   StronglySorted by_first (List.map ref_row remaining) ->
   Forall row_ok (List.map ref_row remaining) ->
   forall l, cr_first_line chunk + k <= l < cr_first_line chunk + cr_line_count chunk ->
     next_line (snd st) <= l -> rows_hold (List.map ref_row remaining) l) ->
  serve st chunk (visit_chunk (next_line (snd st)) (cr_first_line chunk) k) ls = (st', inl out) ->
  read_effect chunk remaining (snd st) (snd st') out.
Proof.
  intros Hok Hk Hlen Hget Hdec Hcov Hserve.
  pose proof (visit_shape (next_line (snd st)) _ _ Hok) as Hv.
  destruct Hok as [Hf Hk0]. simpl in Hf, Hk0. unfold serve in Hserve.
  assert (Hfrom : forall n x, cr_first_line chunk <= n < cr_first_line chunk + k ->
    ls !! Z.to_nat (n - cr_first_line chunk) = Some x ->
    row_holds (ref_row chunk) n /\ from_object chunk n x).
  { intros n x Hn Hx. split; [unfold row_holds; simpl; lia|]. exists blob, ls. split_and!; try done. lia. }
  assert (Hin : forall yf n, yf <= n < cr_first_line chunk + k -> cr_first_line chunk <= n ->
    n ∈ List.map fst (numbered (cr_first_line chunk) yf (cr_first_line chunk + k) ls)).
  { intros yf n Hn Hn'. destruct (lookup_lt_is_Some_2 ls (Z.to_nat (n - cr_first_line chunk)))
      as [x Hx]; [lia|]. apply list_elem_of_In, in_map_iff. exists (n, x). split; [done|].
    apply list_elem_of_In, numbered_elem. split_and!; try done; lia. }
  destruct (visit_chunk _ _ _) as [m|yf yu m|gf gu yf yu m]; simpl in Hserve;
    injection Hserve as <- <-; simpl.
  - destruct Hv as [-> Hv]. constructor; simpl.
    + lia.
    + constructor.
    + by intros n x ?%not_elem_of_nil.
    + lia.
    + intros Hs Hr Hsw l Hl Hle. unfold row_holds in Hl. simpl in Hl.
      apply Hcov; try done; lia.
    + rewrite orb_false_r. intros ->. split; [done|lia].
  - destruct Hv as (-> & -> & -> & Hv). rewrite emit_numbered by mach.
    rewrite Z.add_0_r. constructor; simpl; rewrite ?Z.max_r by lia.
    + lia.
    + apply numbered_sorted.
    + intros n x (H1 & H2 & H3)%numbered_elem. split; [lia|]. apply Hfrom; [lia|done].
    + intros l Hl Hr. by apply Hin.
    + intros Hs Hr Hsw l Hl Hle. unfold row_holds in Hl. simpl in Hl. apply Hcov; try done; lia.
    + rewrite orb_false_r. intros ->. split; [done|]. intros l Hl. apply Hin; lia.
  - destruct Hv as (-> & -> & -> & Hv). rewrite emit_numbered by mach.
    rewrite Z.add_0_r. constructor; simpl; rewrite ?Z.max_r by lia.
    + lia.
    + apply numbered_sorted.
    + intros n x (H1 & H2 & H3)%numbered_elem. split; [lia|]. apply Hfrom; [lia|done].
    + intros l Hl Hr. apply Hin; lia.
    + intros Hs Hr Hsw l Hl Hle. unfold row_holds in Hl. simpl in Hl. apply Hcov; try done; lia.
    + by rewrite orb_true_r.
Qed.

(** Delivering nothing without moving the cursor. *)
Lemma idle_effect chunk remaining c :
  (not_swept chunk ->
   StronglySorted by_first (List.map ref_row remaining) ->
   Forall row_ok (List.map ref_row remaining) ->
   forall l, row_holds (ref_row chunk) l -> next_line c <= l ->
     rows_hold (List.map ref_row remaining) l) ->
  read_effect chunk remaining c c [].
Proof.
  intros Hcov. constructor; try done; simpl; try lia.
  - constructor.
  - by intros n x ?%not_elem_of_nil.
  - intros Hs Hr Hsw. by apply Hcov.
  - intros ->. split; [done|lia].
Qed.

Lemma policy_covers c mf mu remaining l :
  short_object_policy c mf mu (List.map ref_row remaining) = ShortObjectPolicy.ServeClamped ->
  StronglySorted by_first (List.map ref_row remaining) ->
  Forall row_ok (List.map ref_row remaining) ->
  mf <= l < mu -> c <= l -> rows_hold (List.map ref_row remaining) l.
Proof.
  intros Hp Hs Hok Hl Hc. unfold short_object_policy in Hp.
  destruct (Z.leb_spec mu (Z.max mf c)); [lia|].
  destruct (Z.leb_spec mu (policy_loop (Z.max mf c) mu (List.map ref_row remaining))) as [Hle|]; [|done].
  apply (proj1 (policy_loop_spec _ _ _ Hs Hok) Hle). lia.
Qed.

Lemma read_object_effect st st' chunk remaining ls blob out :
  row_ok (ref_row chunk) -> Z.of_nat (length ls) <= i64_max ->
  get (s3_key chunk) = GetOk blob -> decompress_lines zstd_decode blob = Some ls ->
  read_object st chunk remaining ls = (st', inl out) ->
  read_effect chunk remaining (snd st) (snd st') out.
Proof.
  intros [Hf Hk] Hlen Hget Hdec. simpl in Hf, Hk. unfold read_object, visit_object.
  cbn [ov_visit ov_divergence]. unfold u64_saturating_add.
  rewrite !Z.min_l by mach.
  destruct (Z.ltb_spec (Z.of_nat (length ls)) (cr_line_count chunk)).
  - destruct (short_object_policy _ _ _ _) eqn:Ep; [|done]. intros Hs.
    eapply (serve_effect (noted st chunk)); [| | |done|done| |exact Hs]; try lia.
    + split; simpl; mach.
    + intros _ Hs' Hr l Hl Hc. eapply policy_covers; try done. simpl in Hl. lia.
  - destruct (Z.ltb_spec (cr_line_count chunk) (Z.of_nat (length ls))); intros Hs.
    + eapply (serve_effect (noted st chunk)); [| | |done|done| |exact Hs]; try (intros; lia).
      split; simpl; mach.
    + eapply (serve_effect st); [| | |done|done| |exact Hs]; try (intros; lia).
      split; simpl; mach.
Qed.

Lemma read_missing_effect st st' chunk remaining out :
  row_ok (ref_row chunk) ->
  read_missing st chunk remaining = (st', inl out) ->
  read_effect chunk remaining (snd st) (snd st') out.
Proof.
  intros [Hf Hk]. simpl in Hf, Hk. unfold read_missing. unfold u64_saturating_add.
  rewrite Z.min_l by mach.
  assert (Hpol : match short_object_policy (next_line (snd st)) (cr_first_line chunk)
      (cr_first_line chunk + cr_line_count chunk) (List.map ref_row remaining) with
    | ShortObjectPolicy.ServeClamped => (noted st chunk, inl [])
    | ShortObjectPolicy.UnservableHole => refuse_permanent st chunk UnservableKind.MissingObject
    end = (st', inl out) -> read_effect chunk remaining (snd st) (snd st') out).
  { destruct (short_object_policy _ _ _ _) eqn:Ep; [|done]. intros [= <- <-].
    apply idle_effect. intros _ Hs Hr l Hl Hc. by eapply policy_covers. }
  destruct manifest as [f|] eqn:Em; [|done].
  destruct (f (s3_key chunk)) as [[]|] eqn:Ek; [done| |done].
  intros [= <- <-]. apply idle_effect. intros Hsw. by destruct (Hsw f).
Qed.

Lemma read_chunk_effect st st' chunk remaining out :
  row_ok (ref_row chunk) ->
  read_chunk st chunk remaining = (st', inl out) ->
  read_effect chunk remaining (snd st) (snd st') out.
Proof.
  intros Hok. unfold read_chunk.
  pose proof (visit_shape (next_line (snd st)) _ _ Hok) as Hv.
  destruct (is_empty _) eqn:Ee.
  { intros [= <- <-]. apply idle_effect. intros _ _ _ l Hl Hc. unfold row_holds in Hl.
    simpl in Hl. destruct (visit_chunk _ _ _); try done. lia. }
  destruct (_ <? _); [done|]. destruct (get (s3_key chunk)) as [blob| |] eqn:Eg; [| |done].
  - destruct (decompress_lines zstd_decode blob) as [ls|] eqn:Ed; [|done].
    intros Hr. eapply read_object_effect; try done.
    apply decompress_lines_bound in Ed. etransitivity; [exact Ed|done].
  - by apply read_missing_effect.
Qed.

(** ** The whole manifest walk *)

Record stream_effect (refs : list ChunkRef) (c c' : LineCursor) (out : list (Z * bytes)) : Prop := {
  se_mono : next_line c <= next_line c';
  se_sorted : StronglySorted Z.lt (List.map fst out);
  se_sound : forall n x, (n, x) ∈ out -> next_line c <= n < next_line c' /\
    exists r, r ∈ refs /\ row_holds (ref_row r) n /\ from_object r n x;
  se_loss : StronglySorted by_first (List.map ref_row refs) -> Forall not_swept refs ->
    forall l, next_line c <= l -> rows_hold (List.map ref_row refs) l -> l ∈ List.map fst out;
  se_gap : gap_crossed c' = false -> gap_crossed c = false /\
    forall l, next_line c <= l < next_line c' -> l ∈ List.map fst out;
}.

Lemma map_fst_in (out : list (Z * bytes)) n : n ∈ List.map fst out -> exists x, (n, x) ∈ out.
Proof.
  intros ([m x] & <- & Hin%list_elem_of_In)%list_elem_of_In%in_map_iff. by exists x.
Qed.

Lemma stream_cons chunk rest c c1 c2 out1 out2 :
  Forall row_ok (List.map ref_row rest) ->
  read_effect chunk rest c c1 out1 -> stream_effect rest c1 c2 out2 ->
  stream_effect (chunk :: rest) c c2 (out1 ++ out2).
Proof.
  intros Hok [R1 R2 R3 R4 R5 R6] [S1 S2 S3 S4 S5].
  assert (Happ : forall l, l ∈ List.map fst (out1 ++ out2) <->
    l ∈ List.map fst out1 \/ l ∈ List.map fst out2) by (intros l; rewrite map_app; apply elem_of_app).
  constructor.
  - lia.
  - rewrite map_app. apply (sorted_app_lt _ _ (next_line c1)); [done|done| |].
    + apply List.Forall_map, Forall_forall. intros [n x] Hin. simpl. apply R3 in Hin. lia.
    + apply List.Forall_map, Forall_forall. intros [n x] Hin. simpl. apply S3 in Hin. lia.
  - intros n x [Hin|Hin]%elem_of_app.
    + apply R3 in Hin as (? & ? & ?). split; [lia|]. exists chunk. split; [by left|done].
    + apply S3 in Hin as (? & r & ? & ?). split; [lia|]. exists r. split; [by right|done].
  - simpl. intros [Hs Hf]%StronglySorted_inv [Hsw Hsws]%Forall_cons l Hl Hh. apply Happ.
    apply rows_hold_cons in Hh. destruct (decide (l < next_line c1)).
    + left. apply R4; [|lia]. destruct Hh as [Hh|(r & Hr & Hh)].
      * unfold row_holds in Hh. simpl in Hh. lia.
      * rewrite Forall_forall in Hf. specialize (Hf r Hr). unfold by_first, row_holds in *.
        simpl in *. lia.
    + right. apply S4; [done|done|lia|]. destruct Hh as [Hh|Hh]; [|done].
      apply R5; try done. lia.
  - intros Hg. destruct (S5 Hg) as [Hg1 Hs2]. destruct (R6 Hg1) as [Hg0 Hs1].
    split; [done|]. intros l Hl. apply Happ. destruct (decide (l < next_line c1)).
    + left. apply Hs1. lia.
    + right. apply Hs2. lia.
Qed.

Lemma stream_chunks_effect refs st st' out :
  Forall row_ok (List.map ref_row refs) ->
  stream_chunks st refs = (st', inl out) ->
  stream_effect refs (snd st) (snd st') out.
Proof.
  revert st st' out. induction refs as [|chunk rest IH]; simpl; intros st st' out Hok.
  { intros [= <- <-]. constructor; try done; try lia.
    - constructor.
    - by intros n x ?%not_elem_of_nil.
    - intros _ _ l _ (r & []%not_elem_of_nil & _).
    - intros ->. split; [done|lia]. }
  apply Forall_cons in Hok as [Hc Hok].
  destruct (read_chunk st chunk rest) as [st1 [out1|e]] eqn:E1; [|done].
  destruct (stream_chunks st1 rest) as [st2 [out2|e]] eqn:E2; [|done].
  intros [= <- <-]. apply (stream_cons _ _ _ (snd st1)); [done| |by apply IH].
  by apply read_chunk_effect.
Qed.

(** C7: No silent loss on read.  Over any bucket contents (objects missing, short,
    long or undecodable), a manifest walk in [first_line] order that succeeds
    delivers every line at or above [since] that any of its rows claims, provided
    that the rows are well formed and that none of them was swept while the walk
    ran; line numbers strictly increase, and each
    delivered content is the line of that number in the object of a row that
    claims it. *)
Theorem read_no_silent_loss refs ledger since st' out :
  StronglySorted by_first (List.map ref_row refs) ->
  Forall row_ok (List.map ref_row refs) -> Forall not_swept refs ->
  stream_chunks (ledger, LineCursor_new since) refs = (st', inl out) ->
  StronglySorted Z.lt (List.map fst out) /\
  (forall l, since <= l -> rows_hold (List.map ref_row refs) l -> exists x, (l, x) ∈ out) /\
  (forall n x, (n, x) ∈ out -> since <= n /\
     exists r, r ∈ refs /\ row_holds (ref_row r) n /\ from_object r n x).
Proof.
  intros Hs Hok Hsw Hst. apply stream_chunks_effect in Hst as [_ E2 E3 E4 _]; [|done].
  split; [done|]. split.
  - intros l Hl Hh. apply map_fst_in. by apply E4.
  - intros n x Hin. apply E3 in Hin as [? ?]. simpl in *. split; [lia|done].
Qed.

(** An intact row: its object decodes to exactly the claimed lines. *)
Definition intact (chunk : ChunkRef) : Prop :=
  exists blob ls, get (s3_key chunk) = GetOk blob /\
    decompress_lines zstd_decode blob = Some ls /\
    Z.of_nat (length ls) = cr_line_count chunk.

(** Reading an intact chunk never fails. *)
Lemma read_chunk_intact st chunk remaining :
  intact chunk -> exists st' out, read_chunk st chunk remaining = (st', inl out).
Proof.
  intros (blob & ls & Hg & Hd & Hl). unfold read_chunk.
  destruct (is_empty _); [by do 2 eexists|].
  pose proof (decompress_lines_bound _ _ _ Hd) as Hb.
  destruct (Z.ltb_spec MAX_CHUNK_LINES_ABS (cr_line_count chunk)); [lia|].
  rewrite Hg, Hd. unfold read_object, visit_object. cbn [ov_divergence ov_visit].
  destruct (Z.ltb_spec (Z.of_nat (length ls)) (cr_line_count chunk)); [lia|].
  destruct (Z.ltb_spec (cr_line_count chunk) (Z.of_nat (length ls))); [lia|].
  unfold serve. destruct (visit_chunk _ _ _); by do 2 eexists.
Qed.

(** Over a bucket where every row's object decodes to exactly the lines the row
    claims, the walk succeeds (whatever the rows' order). *)
Theorem read_intact_succeeds refs st :
  Forall intact refs -> exists st' out, stream_chunks st refs = (st', inl out).
Proof.
  intros Hi. revert st. induction Hi as [|chunk refs Hc _ IH]; intros st; simpl.
  { by do 2 eexists. }
  destruct (read_chunk_intact st chunk refs Hc) as (st1 & out1 & ->).
  destruct (IH st1) as (st2 & out2 & ->). by do 2 eexists.
Qed.

End Read.

(** ** The final claim *)

Record FinalClaim : Type := mkFinalClaim {
  complete : bool;
  cursor_next : Z;
  claim_gap_crossed : bool;
}.

Definition final_claim (cursor_next : Z) (sealed_final_line_count : option Z)
    (manifest_covers_sealed gap_crossed : bool) : FinalClaim :=
  let complete :=
    match sealed_final_line_count with
    | Some n => (n <=? cursor_next) && manifest_covers_sealed
    | None => false
    end && negb gap_crossed in
  mkFinalClaim complete cursor_next gap_crossed.

(** [i64 as u64]. *)
Definition u64_of_i64 (n : Z) : Z := n mod (u64_max + 1).

(** [final_claim_for]: the sealed count of the lifecycle row and the ordered
    manifest, correlated with the served cursor. *)
Definition final_claim_for (sealed : option Z) (chunks : list row) (cursor : LineCursor)
    : FinalClaim :=
  let covers := match sealed with
                | Some n => manifest_covers_contiguously chunks n
                | None => false
                end in
  final_claim (next_line cursor) (option_map u64_of_i64 sealed) covers (gap_crossed cursor).

(** A [complete] final claim is never a lie.  Whatever rows, objects and sweeps
    the walk met, if it succeeded and its cursor mints a complete claim, then
    the execution is sealed at some [n], its manifest covers [[0, n)], and every
    line from [since] to [n] was delivered to this reader. *)
Theorem complete_claim_delivered zstd_decode get manifest refs ledger since st' out sealed chunks :
  Forall row_ok (List.map ref_row refs) ->
  stream_chunks zstd_decode get manifest (ledger, LineCursor_new since) refs = (st', inl out) ->
  complete (final_claim_for sealed chunks (snd st')) = true ->
  exists n, sealed = Some n /\ manifest_covers_contiguously chunks n = true /\
    forall l, since <= l < u64_of_i64 n -> exists x, (l, x) ∈ out.
Proof.
  intros Hok Hst Hc. apply stream_chunks_effect in Hst as [_ _ _ _ E5]; [|done].
  unfold final_claim_for, final_claim in Hc. destruct sealed as [n|]; [|done].
  simpl in Hc. apply andb_true_iff in Hc as [Hc Hg%negb_true_iff].
  apply andb_true_iff in Hc as [Hn%Z.leb_le Hm]. exists n. split; [done|]. split; [done|].
  intros l Hl. apply map_fst_in. destruct (E5 Hg) as [_ Hall]. apply Hall. simpl. lia.
Qed.

(** ** The relay's exit law *)

Module TailStopCause.
Inductive TailStopCause : Type :=
| NaturalEnd | TransportErr | OpenFailed | GapObserved | Orphaned | PermanentErr.
End TailStopCause.
Abbreviation TailStopCause := TailStopCause.TailStopCause.

Module TailNext.
Inductive TailNext : Type := Reopen | Exit (disclose_truncation : bool).
End TailNext.
Abbreviation TailNext := TailNext.TailNext.

Definition tail_next (cause : TailStopCause)
    (terminal grace_expired served_complete consumer_alive : bool) : TailNext :=
  let verdict := TailNext.Exit (negb served_complete && consumer_alive) in
  if grace_expired then verdict
  else match cause with
       | TailStopCause.Orphaned | TailStopCause.PermanentErr => verdict
       | TailStopCause.NaturalEnd =>
           if terminal && served_complete then verdict else TailNext.Reopen
       | TailStopCause.TransportErr | TailStopCause.OpenFailed
       | TailStopCause.GapObserved => TailNext.Reopen
       end.

(** The relay stops only with the log complete, the grace spent, no consumer
    left or a permanent refusal; and when it stops with an incomplete log in
    front of a live consumer it discloses the truncation, and only then. *)
Theorem tail_exit_law cause terminal grace served alive disclose :
  tail_next cause terminal grace served alive = TailNext.Exit disclose <->
  (grace = true \/ cause = TailStopCause.Orphaned \/ cause = TailStopCause.PermanentErr \/
   (cause = TailStopCause.NaturalEnd /\ terminal = true /\ served = true)) /\
  disclose = (negb served && alive).
Proof.
  destruct cause, terminal, grace, served, alive, disclose; simpl;
    (split; [intros [=]; intuition congruence | intros [H [=]]; try done; naive_solver]).
Qed.

(** ** A concrete read: an overlap, a missing object covered by a later row. *)

Definition demo_blob (ls : list bytes) : bytes :=
  match frame_lines ls with Some b => b | None => [] end.
Definition demo_get (key : string) : GetResult :=
  if bool_decide (key = "a"%string) then GetOk (demo_blob [[1]; [2]; [3]])
  else if bool_decide (key = "c"%string) then GetOk (demo_blob [[2]; [3]; [4]; [5]])
  else GetNotFound.
Definition demo_refs : list ChunkRef :=
  [mkChunkRef 0 "a" 0 3; mkChunkRef 0 "b" 1 3; mkChunkRef 0 "c" 1 4].
Definition demo_ledger : Ledger := mkLedger (mkPartition ∅ []) (mkPartition ∅ []).
Definition demo_decode (b : bytes) : option (bytes * bool) := Some (b, true).
Definition demo_out : list (Z * bytes) := [(0, [1]); (1, [2]); (2, [3]); (3, [4]); (4, [5])].

Definition demo_st : Ledger * LineCursor := Eval vm_compute in
  fst (stream_chunks demo_decode demo_get None (demo_ledger, LineCursor_new 0) demo_refs).

Lemma demo_stream :
  stream_chunks demo_decode demo_get None (demo_ledger, LineCursor_new 0) demo_refs
  = (demo_st, inl demo_out).
Proof. vm_compute. reflexivity. Qed.

Lemma demo_refs_ok : Forall row_ok (List.map ref_row demo_refs).
Proof. repeat constructor; simpl; mach. Qed.

Lemma read_no_silent_loss_witness :
  rows_hold (List.map ref_row demo_refs) 3 /\ exists x, (3, x) ∈ demo_out.
Proof.
  assert (rows_hold (List.map ref_row demo_refs) 3) as H3.
  { eexists (_, _). split; [apply list_elem_of_further, list_elem_of_further, list_elem_of_here|].
    unfold row_holds. simpl. lia. }
  split; [exact H3|].
  refine (proj1 (proj2 (read_no_silent_loss demo_decode demo_get None demo_refs demo_ledger 0
    demo_st demo_out _ demo_refs_ok _ demo_stream)) 3 _ H3); [| |lia].
  - repeat first [constructor | (unfold by_first; simpl; lia)].
  - repeat constructor; discriminate.
Defined.

Lemma read_intact_succeeds_witness :
  exists st' out, stream_chunks demo_decode demo_get None demo_st [mkChunkRef 0 "a" 0 3] = (st', inl out).
Proof.
  apply read_intact_succeeds. constructor; [|constructor].
  exists (demo_blob [[1]; [2]; [3]]), [[1]; [2]; [3]]. split; [reflexivity|].
  split; vm_compute; reflexivity.
Defined.

Lemma complete_claim_delivered_witness :
  complete (final_claim_for (Some 5) [(0, 3); (1, 3); (1, 4)] (snd demo_st)) = true /\
  exists n, Some 5 = Some n /\ manifest_covers_contiguously [(0, 3); (1, 3); (1, 4)] n = true /\
    forall l, 0 <= l < u64_of_i64 n -> exists x, (l, x) ∈ demo_out.
Proof.
  split; [vm_compute; reflexivity|].
  apply (complete_claim_delivered demo_decode demo_get None demo_refs demo_ledger 0 demo_st);
    [exact demo_refs_ok|exact demo_stream|vm_compute; reflexivity].
Defined.
