(* ===== verification/EvidenceOutcome.v ===== *)
(** * Evidence kernel: substitution outcomes

    [src/rio-evidence-kernel/src/outcome.rs]: the failure classification and its
    tiers, the per-upstream evidence cells and their fold, the per-tenant cells
    and their fold, the settlement re-probe fold and the generation-stamped
    verdict cells.  A [Duration] is a [Z] of nanoseconds; a [while] loop over a
    slice is a [Fixpoint] over the list with its index. *)

From S2P Require Import Prelude.

Module SubstituteFailureClass.
Inductive SubstituteFailureClass : Type :=
| Raced | RateLimited | Stalled | AdmissionSaturated | Fetch | Integrity | Ingest
| Untrusted | ContentMismatch.
End SubstituteFailureClass.
Abbreviation SubstituteFailureClass := SubstituteFailureClass.SubstituteFailureClass.

#[export] Instance SubstituteFailureClass_eq_dec : EqDecision SubstituteFailureClass.
Proof. solve_decision. Defined.

Module FailureDisposition.
Inductive FailureDisposition : Type :=
| RetryUncharged | ChargeInfra | TrustRefusal | ContentRefusal.
End FailureDisposition.
Abbreviation FailureDisposition := FailureDisposition.FailureDisposition.

Definition classify_substitute_failure (class : SubstituteFailureClass) : FailureDisposition :=
  match class with
  | SubstituteFailureClass.Raced | SubstituteFailureClass.RateLimited =>
      FailureDisposition.RetryUncharged
  | SubstituteFailureClass.Stalled | SubstituteFailureClass.AdmissionSaturated
  | SubstituteFailureClass.Fetch | SubstituteFailureClass.Integrity
  | SubstituteFailureClass.Ingest => FailureDisposition.ChargeInfra
  | SubstituteFailureClass.Untrusted => FailureDisposition.TrustRefusal
  | SubstituteFailureClass.ContentMismatch => FailureDisposition.ContentRefusal
  end.

Definition disposition_tier (d : FailureDisposition) : Z :=
  match d with
  | FailureDisposition.ChargeInfra => 0
  | FailureDisposition.RetryUncharged => 1
  | FailureDisposition.TrustRefusal => 2
  | FailureDisposition.ContentRefusal => 3
  end.

(** ** The re-probe fold *)

Module ReprobeAnswer.
Inductive ReprobeAnswer : Type := Obtainable | ConfirmedMissing.
End ReprobeAnswer.
Abbreviation ReprobeAnswer := ReprobeAnswer.ReprobeAnswer.

Module PathProbeCell.
Inductive PathProbeCell : Type := Present | Substitutable | Indeterminate | Missing.
End PathProbeCell.
Abbreviation PathProbeCell := PathProbeCell.PathProbeCell.

Record TenantPathAnswers : Type := mkTenantPathAnswers {
  cells : list PathProbeCell;
  can_confirm : bool;
}.

Definition is_missing (c : option PathProbeCell) : bool :=
  match c with Some PathProbeCell.Missing => true | _ => false end.

(** The path loop; [left] counts the paths from [p] on.  The inner tenant loop
    stops at the first tenant under which the path is not missing. *)
Fixpoint path_loop (tenants : list TenantPathAnswers) (left p : nat) : ReprobeAnswer :=
  match left with
  | O => ReprobeAnswer.Obtainable
  | S left' =>
      if forallb (fun t => is_missing (cells t !! p)) tenants
      then ReprobeAnswer.ConfirmedMissing
      else path_loop tenants left' (S p)
  end.

(** [!can_confirm || cells.len() != tenants[0].cells.len()]. *)
Definition unusable (n : nat) (t : TenantPathAnswers) : bool :=
  negb (can_confirm t) || negb (length (cells t) =? n)%nat.

Definition fold_path_reprobes (tenants : list TenantPathAnswers) : ReprobeAnswer :=
  match tenants with
  | [] => ReprobeAnswer.Obtainable
  | t0 :: _ =>
      if existsb (unusable (length (cells t0))) tenants
      then ReprobeAnswer.Obtainable
      else path_loop tenants (length (cells t0)) 0
  end.

Lemma path_loop_spec tenants left p :
  path_loop tenants left p = ReprobeAnswer.ConfirmedMissing <->
  exists i, (p <= i < p + left)%nat /\
    Forall (fun t => cells t !! i = Some PathProbeCell.Missing) tenants.
Proof.
  revert p. induction left as [|left IH]; simpl; intros p.
  { split; [done|]. intros (i & Hi & _). lia. }
  assert (Hb : forallb (fun t => is_missing (cells t !! p)) tenants = true <->
    Forall (fun t => cells t !! p = Some PathProbeCell.Missing) tenants).
  { rewrite forallb_forall, Forall_forall. setoid_rewrite list_elem_of_In.
    split; intros Ht t Hin; specialize (Ht t Hin);
      destruct (cells t !! p) as [[]|]; by simplify_eq/=. }
  destruct (forallb _ _) eqn:E.
  - split; [|done]. intros _. exists p. split; [lia|]. by apply Hb.
  - rewrite IH. split; intros (i & Hi & Hf); exists i; (split; [|done]); [lia|].
    destruct (decide (i = p)) as [->|]; [|lia]. by apply Hb in Hf.
Qed.

Lemma all_usable n tenants :
  existsb (unusable n) tenants = false <->
  Forall (fun t => can_confirm t = true /\ length (cells t) = n) tenants.
Proof.
  induction tenants as [|t ts IH]; simpl; [by split; constructor|].
  rewrite orb_false_iff, IH, Forall_cons. unfold unusable.
  rewrite orb_false_iff, !negb_false_iff, Nat.eqb_eq. done.
Qed.

(** The re-probe confirms a path missing exactly when there is at least one
    tenant, every tenant's probe could confirm and answered over the same
    paths, and one and the same path is missing under every tenant. *)
Theorem reprobe_exists_path_for_all_tenants tenants :
  fold_path_reprobes tenants = ReprobeAnswer.ConfirmedMissing <->
  exists n, tenants <> [] /\
    Forall (fun t => can_confirm t = true /\ length (cells t) = n) tenants /\
    exists p, Forall (fun t => cells t !! p = Some PathProbeCell.Missing) tenants.
Proof.
  unfold fold_path_reprobes. destruct tenants as [|t0 ts].
  { split; [done|]. by intros (n & ? & _). }
  destruct (existsb _ (t0 :: ts)) eqn:Ee.
  - split; [done|]. intros (n & _ & Hall & _). pose proof Hall as [[_ <-] _]%Forall_cons.
    apply all_usable in Hall. congruence.
  - apply all_usable in Ee. rewrite path_loop_spec. split.
    + intros (i & Hi & Hf). exists (length (cells t0)). split; [done|].
      split; [done|]. by exists i.
    + intros (n & _ & _ & p & Hp). exists p. split; [|done].
      apply Forall_cons in Hp as [Hp _]. apply lookup_lt_Some in Hp. lia.
Qed.

(** ** The upstream loop *)

Module LoopControl.
Inductive LoopControl : Type := Continue | AbortRaced.
End LoopControl.
Abbreviation LoopControl := LoopControl.LoopControl.

Record SubstituteLoopCells : Type := mkSubstituteLoopCells {
  any_stall : option Z;
  any_429 : option (option Z);
  any_errored : bool;
  any_untrusted : bool;
  any_content_mismatch : bool;
}.

Definition SubstituteLoopCells_new : SubstituteLoopCells :=
  mkSubstituteLoopCells None None false false false.

(** [SubstituteLoopCells::record]. *)
Definition record (c : SubstituteLoopCells) (class : SubstituteFailureClass) (advice : option Z)
    : SubstituteLoopCells * LoopControl :=
  match class with
  | SubstituteFailureClass.Raced => (c, LoopControl.AbortRaced)
  | SubstituteFailureClass.Stalled =>
      let window := default 0 advice in
      (mkSubstituteLoopCells
         (Some (match any_stall c with Some prev => Z.max prev window | None => window end))
         (any_429 c) (any_errored c) (any_untrusted c) (any_content_mismatch c),
       LoopControl.Continue)
  | SubstituteFailureClass.RateLimited =>
      (mkSubstituteLoopCells (any_stall c)
         (Some (match mjoin (any_429 c), advice with
                | Some prev, Some ra => Some (Z.max prev ra)
                | Some prev, None => Some prev
                | None, ra => ra
                end))
         (any_errored c) (any_untrusted c) (any_content_mismatch c),
       LoopControl.Continue)
  | SubstituteFailureClass.AdmissionSaturated | SubstituteFailureClass.Fetch
  | SubstituteFailureClass.Integrity | SubstituteFailureClass.Ingest =>
      (mkSubstituteLoopCells (any_stall c) (any_429 c) true (any_untrusted c)
         (any_content_mismatch c), LoopControl.Continue)
  | SubstituteFailureClass.Untrusted =>
      (mkSubstituteLoopCells (any_stall c) (any_429 c) (any_errored c) true
         (any_content_mismatch c), LoopControl.Continue)
  | SubstituteFailureClass.ContentMismatch =>
      (mkSubstituteLoopCells (any_stall c) (any_429 c) (any_errored c) (any_untrusted c) true,
       LoopControl.Continue)
  end.

Module SubstituteLoopVerdict.
Inductive SubstituteLoopVerdict : Type :=
| CleanMiss
| Stalled (window : Z)
| RateLimited (retry_after : option Z)
| Errored
| UntrustedPresent
| ContentMismatch.
End SubstituteLoopVerdict.
Abbreviation SubstituteLoopVerdict := SubstituteLoopVerdict.SubstituteLoopVerdict.

Definition fold_substitute_loop (c : SubstituteLoopCells) : SubstituteLoopVerdict :=
  match any_stall c with
  | Some window => SubstituteLoopVerdict.Stalled window
  | None =>
      if any_errored c then SubstituteLoopVerdict.Errored
      else match any_429 c with
           | Some retry_after => SubstituteLoopVerdict.RateLimited retry_after
           | None =>
               if any_untrusted c then SubstituteLoopVerdict.UntrustedPresent
               else if any_content_mismatch c then SubstituteLoopVerdict.ContentMismatch
               else SubstituteLoopVerdict.CleanMiss
           end
  end.

(** What one [try_upstream] answered: its [UpstreamOutcome], or the evidence
    [substitute_error_evidence] derives from its error. *)
Module UpstreamOutcome.
Inductive UpstreamOutcome (Info : Type) : Type :=
| Hit (info : Info)
| Miss
| UntrustedPresent
| ContentMismatch
| Raced
| Failed (class : SubstituteFailureClass) (advice : option Z).
Arguments Hit {Info} _.
Arguments Miss {Info}.
Arguments UntrustedPresent {Info}.
Arguments ContentMismatch {Info}.
Arguments Raced {Info}.
Arguments Failed {Info} _ _.
End UpstreamOutcome.
Abbreviation UpstreamOutcome := UpstreamOutcome.UpstreamOutcome.

Inductive LoopResult (Info : Type) : Type :=
| Served (info : Info)
| StoppedRaced
| Folded (verdict : SubstituteLoopVerdict).
Arguments Served {Info} _.
Arguments StoppedRaced {Info}.
Arguments Folded {Info} _.

Section UpstreamLoop.
Context {Info : Type}.
Implicit Types (answers : list (UpstreamOutcome Info)).

(** The [for upstream in &upstreams] loop of [do_substitute] and its fold. *)
Fixpoint upstream_loop (c : SubstituteLoopCells) answers : LoopResult Info :=
  match answers with
  | [] => Folded (fold_substitute_loop c)
  | UpstreamOutcome.Hit info :: _ => Served info
  | UpstreamOutcome.Miss :: rest => upstream_loop c rest
  | UpstreamOutcome.UntrustedPresent :: rest =>
      upstream_loop (fst (record c SubstituteFailureClass.Untrusted None)) rest
  | UpstreamOutcome.ContentMismatch :: rest =>
      upstream_loop (fst (record c SubstituteFailureClass.ContentMismatch None)) rest
  | UpstreamOutcome.Raced :: _ => StoppedRaced
  | UpstreamOutcome.Failed class advice :: rest =>
      match record c class advice with
      | (_, LoopControl.AbortRaced) => StoppedRaced
      | (c', LoopControl.Continue) => upstream_loop c' rest
      end
  end.

(** The evidence an answer records. *)
Definition evidence (a : UpstreamOutcome Info) : option (SubstituteFailureClass * option Z) :=
  match a with
  | UpstreamOutcome.Hit _ | UpstreamOutcome.Miss => None
  | UpstreamOutcome.UntrustedPresent => Some (SubstituteFailureClass.Untrusted, None)
  | UpstreamOutcome.ContentMismatch => Some (SubstituteFailureClass.ContentMismatch, None)
  | UpstreamOutcome.Raced => Some (SubstituteFailureClass.Raced, None)
  | UpstreamOutcome.Failed class advice => Some (class, advice)
  end.

(** Neither served nor raced. *)
Definition unserved (a : UpstreamOutcome Info) : Prop :=
  match a with
  | UpstreamOutcome.Hit _ | UpstreamOutcome.Raced
  | UpstreamOutcome.Failed SubstituteFailureClass.Raced _ => False
  | _ => True
  end.

(** The tier of a verdict: the tier of the class it surfaces as, 4 for the miss. *)
Definition verdict_tier (v : SubstituteLoopVerdict) : Z :=
  match v with
  | SubstituteLoopVerdict.Stalled _ =>
      disposition_tier (classify_substitute_failure SubstituteFailureClass.Stalled)
  | SubstituteLoopVerdict.Errored =>
      disposition_tier (classify_substitute_failure SubstituteFailureClass.Fetch)
  | SubstituteLoopVerdict.RateLimited _ =>
      disposition_tier (classify_substitute_failure SubstituteFailureClass.RateLimited)
  | SubstituteLoopVerdict.UntrustedPresent =>
      disposition_tier (classify_substitute_failure SubstituteFailureClass.Untrusted)
  | SubstituteLoopVerdict.ContentMismatch =>
      disposition_tier (classify_substitute_failure SubstituteFailureClass.ContentMismatch)
  | SubstituteLoopVerdict.CleanMiss => 4
  end.

Definition answer_tier (a : UpstreamOutcome Info) : Z :=
  match evidence a with
  | None => 4
  | Some (class, _) => disposition_tier (classify_substitute_failure class)
  end.

Definition cells_tier (c : SubstituteLoopCells) : Z := verdict_tier (fold_substitute_loop c).

Lemma record_tier c class advice :
  class <> SubstituteFailureClass.Raced ->
  cells_tier (fst (record c class advice)) =
  Z.min (cells_tier c) (disposition_tier (classify_substitute_failure class)).
Proof.
  intros Hr. destruct c as [st rl er un cm]. unfold cells_tier, fold_substitute_loop.
  destruct class; try done; simpl; destruct st, er, rl, un, cm; done.
Qed.

(** The stall window and the retry advice kept are the maxima observed. *)
Lemma record_advice c class advice :
  any_stall (fst (record c class advice)) =
    (if bool_decide (class = SubstituteFailureClass.Stalled)
     then Some (match any_stall c with
                | Some p => Z.max p (default 0 advice) | None => default 0 advice end)
     else any_stall c).
Proof. by destruct class. Qed.

(** The stall windows a sequence of answers reports. *)
Definition stall_windows answers : list Z :=
  omap (fun a => match evidence a with
                 | Some (SubstituteFailureClass.Stalled, advice) => Some (default 0 advice)
                 | _ => None
                 end) answers.

Lemma stall_windows_cons a answers :
  stall_windows (a :: answers) =
  match evidence a with
  | Some (SubstituteFailureClass.Stalled, advice) => default 0 advice :: stall_windows answers
  | _ => stall_windows answers
  end.
Proof. unfold stall_windows. simpl. by destruct (evidence a) as [[[] ?]|]. Qed.

Definition join_max (o : option Z) (w : Z) : option Z :=
  Some (match o with Some p => Z.max p w | None => w end).

(** One unserved answer: a recorded class, or nothing. *)
Lemma upstream_loop_cons c a rest :
  unserved a ->
  upstream_loop c (a :: rest) =
  upstream_loop (match evidence a with
                 | Some (class, advice) => fst (record c class advice)
                 | None => c
                 end) rest /\
  match evidence a with Some (class, _) => class <> SubstituteFailureClass.Raced | None => True end.
Proof. by destruct a as [| | | | |[] ?]. Qed.

Lemma upstream_loop_spec answers c :
  Forall unserved answers ->
  exists c', upstream_loop c answers = Folded (fold_substitute_loop c') /\
    cells_tier c' = foldr (fun a acc => Z.min (answer_tier a) acc) (cells_tier c) answers /\
    any_stall c' = fold_left join_max (stall_windows answers) (any_stall c).
Proof.
  revert c. induction answers as [|a answers IH]; intros c Hf; [by exists c|].
  apply Forall_cons in Hf as [Ha Hf].
  destruct (upstream_loop_cons c a answers Ha) as [-> Hne].
  assert (Hmin : forall z y, foldr (fun a acc => Z.min (answer_tier a) acc) (Z.min y z) answers =
    Z.min z (foldr (fun a acc => Z.min (answer_tier a) acc) y answers)).
  { clear. intros z y. induction answers as [|b answers IHl]; simpl; lia. }
  rewrite stall_windows_cons. cbn [foldr]. unfold answer_tier at 1.
  destruct (evidence a) as [[class advice]|].
  - destruct (IH (fst (record c class advice)) Hf) as (c' & Hl & Hc & Hw). exists c'.
    split; [done|]. rewrite (record_tier c class advice Hne), Hmin in Hc. split; [done|].
    rewrite Hw, record_advice. by destruct class.
  - destruct (IH c Hf) as (c' & Hl & Hc & Hw). exists c'. split; [done|]. split; [|done].
    assert (Hle : cells_tier c <= 4)
      by (unfold cells_tier; destruct (fold_substitute_loop c); simpl; lia).
    rewrite <- Hmin, Z.min_l by lia. done.
Qed.

Lemma tiers_all_miss answers :
  Forall unserved answers ->
  foldr (fun a acc => Z.min (answer_tier a) acc) 4 answers = 4 <->
  Forall (fun a => a = UpstreamOutcome.Miss) answers.
Proof.
  induction 1 as [|a answers Ha _ IH]; simpl; [by split|].
  assert (Hle : foldr (fun a acc => Z.min (answer_tier a) acc) 4 answers <= 4)
    by (clear; induction answers; simpl; lia).
  rewrite Forall_cons, <- IH. unfold answer_tier at 1.
  destruct a as [| | | | |class advice]; try done; simpl.
  - split; [intros; split; [done|lia]|]. intros [_ ->]. done.
  - split; [lia|naive_solver].
  - split; [lia|naive_solver].
  - split; [destruct class; simpl; lia|naive_solver].
Qed.

(** C37: The upstream fold surfaces the most severe evidence observed: when no
    upstream serves or races, the loop ends in a verdict whose precedence tier
    is the minimum of the answers' tiers (a charge is never hidden behind
    back-off advice or a refusal), it is the cacheable clean miss exactly when
    every upstream answered a miss, and a stall carries the widest window. *)
Theorem substitute_loop_most_severe answers :
  Forall unserved answers ->
  exists v, upstream_loop SubstituteLoopCells_new answers = Folded v /\
    verdict_tier v = foldr (fun a acc => Z.min (answer_tier a) acc) 4 answers /\
    (v = SubstituteLoopVerdict.CleanMiss <->
       Forall (fun a => a = UpstreamOutcome.Miss) answers) /\
    (forall w, v = SubstituteLoopVerdict.Stalled w <->
       fold_left join_max (stall_windows answers) None = Some w).
Proof.
  intros Hf. destruct (upstream_loop_spec answers SubstituteLoopCells_new Hf) as (c & Hl & Ht & Hs).
  exists (fold_substitute_loop c). split; [done|].
  change (cells_tier SubstituteLoopCells_new) with 4 in Ht. split; [done|]. split.
  - rewrite <- tiers_all_miss, <- Ht by done. unfold cells_tier.
    by destruct (fold_substitute_loop c).
  - simpl in Hs. intros w. rewrite <- Hs. unfold fold_substitute_loop.
    destruct (any_stall c) as [w'|], (any_errored c), (any_429 c), (any_untrusted c),
      (any_content_mismatch c); split; intros E; by simplify_eq.
Qed.

End UpstreamLoop.

Lemma substitute_loop_most_severe_witness :
  exists v, upstream_loop (Info := unit) SubstituteLoopCells_new
      [UpstreamOutcome.Failed SubstituteFailureClass.RateLimited (Some 30); UpstreamOutcome.Miss;
       UpstreamOutcome.Failed SubstituteFailureClass.Fetch None] = Folded v /\ verdict_tier v = 0.
Proof.
  destruct (substitute_loop_most_severe (Info := unit)
    [UpstreamOutcome.Failed SubstituteFailureClass.RateLimited (Some 30); UpstreamOutcome.Miss;
     UpstreamOutcome.Failed SubstituteFailureClass.Fetch None]) as (v & Hv & Ht & _).
  - repeat constructor.
  - exists v. split; [exact Hv|exact Ht].
Defined.

(** ** The tenant loop *)

Module TenantAttemptEvidence.
Inductive TenantAttemptEvidence : Type :=
| Charge (class : SubstituteFailureClass)
| Transient (retry_after : option Z)
| CleanMiss
| UntrustedPresent
| ContentMismatch.
End TenantAttemptEvidence.
Abbreviation TenantAttemptEvidence := TenantAttemptEvidence.TenantAttemptEvidence.

Definition record_clean_miss (c : list TenantAttemptEvidence) : list TenantAttemptEvidence :=
  c ++ [TenantAttemptEvidence.CleanMiss].

Definition record_failure (c : list TenantAttemptEvidence) (class : SubstituteFailureClass)
    (retry_after : option Z) : list TenantAttemptEvidence * LoopControl :=
  match classify_substitute_failure class with
  | FailureDisposition.RetryUncharged =>
      (c ++ [TenantAttemptEvidence.Transient retry_after],
       if bool_decide (class = SubstituteFailureClass.Raced)
       then LoopControl.AbortRaced else LoopControl.Continue)
  | FailureDisposition.ChargeInfra =>
      (c ++ [TenantAttemptEvidence.Charge class], LoopControl.Continue)
  | FailureDisposition.TrustRefusal =>
      (c ++ [TenantAttemptEvidence.UntrustedPresent], LoopControl.Continue)
  | FailureDisposition.ContentRefusal =>
      (c ++ [TenantAttemptEvidence.ContentMismatch], LoopControl.Continue)
  end.

Module TenantAttemptsVerdict.
Inductive TenantAttemptsVerdict : Type :=
| ChargeInfra (idx : nat)
| RetryTransient (idx : nat) (max : option Z)
| UntrustedPresent (idx : nat)
| ContentMismatch (idx : nat)
| AllCleanMiss.
End TenantAttemptsVerdict.
Abbreviation TenantAttemptsVerdict := TenantAttemptsVerdict.TenantAttemptsVerdict.

Record FoldState : Type := mkFoldState {
  first_charge : option nat;
  best_transient : option (nat * option Z);
  first_untrusted : option nat;
  first_content : option nat;
}.

Definition or_first (o : option nat) (i : nat) : option nat :=
  match o with Some j => Some j | None => Some i end.

(** Keep the cell with the larger advice; ties keep the earlier cell. *)
Definition better_transient (best : option (nat * option Z)) (i : nat) (retry_after : option Z)
    : option (nat * option Z) :=
  Some (match best with
        | Some (pi, prev) =>
            match prev, retry_after with
            | None, Some _ => (i, retry_after)
            | Some p, Some r => if p <? r then (i, retry_after) else (pi, prev)
            | _, _ => (pi, prev)
            end
        | None => (i, retry_after)
        end).

(** The [while i < cells.len()] loop. *)
Fixpoint tenant_loop (st : FoldState) (i : nat) (c : list TenantAttemptEvidence) : FoldState :=
  match c with
  | [] => st
  | x :: rest =>
      let st' :=
        match x with
        | TenantAttemptEvidence.Charge _ =>
            mkFoldState (or_first (first_charge st) i) (best_transient st)
              (first_untrusted st) (first_content st)
        | TenantAttemptEvidence.Transient ra =>
            mkFoldState (first_charge st) (better_transient (best_transient st) i ra)
              (first_untrusted st) (first_content st)
        | TenantAttemptEvidence.UntrustedPresent =>
            mkFoldState (first_charge st) (best_transient st)
              (or_first (first_untrusted st) i) (first_content st)
        | TenantAttemptEvidence.ContentMismatch =>
            mkFoldState (first_charge st) (best_transient st)
              (first_untrusted st) (or_first (first_content st) i)
        | TenantAttemptEvidence.CleanMiss => st
        end in
      tenant_loop st' (S i) rest
  end.

Definition fold_tenant_attempts (c : list TenantAttemptEvidence) : TenantAttemptsVerdict :=
  let st := tenant_loop (mkFoldState None None None None) 0 c in
  match first_charge st, best_transient st, first_untrusted st, first_content st with
  | Some idx, _, _, _ => TenantAttemptsVerdict.ChargeInfra idx
  | None, Some (idx, max), _, _ => TenantAttemptsVerdict.RetryTransient idx max
  | None, None, Some idx, _ => TenantAttemptsVerdict.UntrustedPresent idx
  | None, None, None, Some idx => TenantAttemptsVerdict.ContentMismatch idx
  | None, None, None, None => TenantAttemptsVerdict.AllCleanMiss
  end.

(** [Option<Duration>]'s order on advice: bare transients below advised ones. *)
Definition advice_le (a b : option Z) : Prop :=
  match a, b with
  | None, _ => True
  | Some x, Some y => x <= y
  | Some _, None => False
  end.

Lemma advice_le_refl a : advice_le a a.
Proof. destruct a; simpl; [lia|done]. Qed.

Section TenantFold.
Implicit Types (c : list TenantAttemptEvidence) (st : FoldState).

(** One iteration of the loop. *)
Definition tenant_step st (i : nat) (x : TenantAttemptEvidence) : FoldState :=
  tenant_loop st i [x].

Lemma tenant_loop_snoc st i c x :
  tenant_loop st i (c ++ [x]) = tenant_step (tenant_loop st i c) (i + length c) x.
Proof.
  revert st i. induction c as [|y c IH]; intros st i.
  { by rewrite Nat.add_0_r. }
  cbn [app tenant_loop length]. rewrite IH. f_equal. lia.
Qed.

Definition first_of (P : TenantAttemptEvidence -> Prop) c (o : option nat) : Prop :=
  match o with
  | Some i => (exists x, c !! i = Some x /\ P x) /\
      forall j y, c !! j = Some y -> P y -> (i <= j)%nat
  | None => Forall (fun x => ~ P x) c
  end.

Lemma first_of_snoc P c x o :
  first_of P c o ->
  (P x -> first_of P (c ++ [x]) (or_first o (length c))) /\
  (~ P x -> first_of P (c ++ [x]) o).
Proof.
  intros Ho. assert (Hlt : forall j y, (c ++ [x]) !! j = Some y ->
    c !! j = Some y \/ (j = length c /\ y = x)).
  { intros j y [?|[? Hj]]%lookup_app_Some; [by left|right].
    apply list_lookup_singleton_Some in Hj as [Hj ->]. split; [lia|done]. }
  destruct o as [i|]; simpl in *.
  - destruct Ho as [(y & Hi & Hy) Hmin]. pose proof (lookup_lt_Some _ _ _ Hi).
    split; intros Hx; (split; [exists y; split; [by apply lookup_app_l_Some|done]|]);
      intros j z [Hj|[-> ->]]%Hlt Hz; [by eapply Hmin|lia|by eapply Hmin|lia].
  - rewrite Forall_forall in Ho.
    assert (Hno : forall j y, c !! j = Some y -> ~ P y)
      by (intros j y Hj; apply Ho; by eapply list_elem_of_lookup_2).
    split; intros Hx.
    + split; [exists x; split; [apply list_lookup_middle; lia|done]|].
      intros j z [Hj|[-> ->]]%Hlt Hz; [by destruct (Hno j z)|lia].
    + apply Forall_app. split; [by apply Forall_forall|by constructor].
Qed.

Definition is_charge (x : TenantAttemptEvidence) : Prop :=
  exists class, x = TenantAttemptEvidence.Charge class.

(** The best transient so far: the first of those with maximal advice. *)
Definition best_of c (o : option (nat * option Z)) : Prop :=
  match o with
  | Some (i, m) => c !! i = Some (TenantAttemptEvidence.Transient m) /\
      forall j ra, c !! j = Some (TenantAttemptEvidence.Transient ra) ->
        advice_le ra m /\ (advice_le m ra -> (i <= j)%nat)
  | None => forall j ra, c !! j <> Some (TenantAttemptEvidence.Transient ra)
  end.

Lemma best_of_snoc c o x :
  best_of c o ->
  match x with
  | TenantAttemptEvidence.Transient ra => best_of (c ++ [x]) (better_transient o (length c) ra)
  | _ => best_of (c ++ [x]) o
  end.
Proof.
  intros Ho. assert (Hlt : forall j y, (c ++ [x]) !! j = Some y ->
    c !! j = Some y \/ (j = length c /\ y = x)).
  { intros j y [?|[? Hj]]%lookup_app_Some; [by left|right].
    apply list_lookup_singleton_Some in Hj as [Hj ->]. split; [lia|done]. }
  assert (Hlast : (c ++ [x]) !! length c = Some x) by (apply list_lookup_middle; lia).
  assert (Hkeep : (forall ra, x <> TenantAttemptEvidence.Transient ra) -> best_of (c ++ [x]) o).
  { intros Hx. destruct o as [[i m]|]; simpl in *.
    - destruct Ho as [Hi Hb]. split; [by apply lookup_app_l_Some|].
      intros j ra [Hj|[_ E]]%Hlt; [by apply Hb|by destruct (Hx ra)].
    - intros j ra [Hj|[_ E]]%Hlt; [by destruct (Ho j ra)|by destruct (Hx ra)]. }
  destruct x as [cl|ra| | |]; try (apply Hkeep; by intros ?). clear Hkeep.
  unfold better_transient. destruct o as [[i m]|]; simpl in Ho |- *.
  2:{ split; [done|]. intros j z [Hj|[-> [= ->]]]%Hlt; [by destruct (Ho j z)|].
      split; [apply advice_le_refl|lia]. }
  destruct Ho as [Hi Hb]. pose proof (lookup_lt_Some _ _ _ Hi) as Hil.
  pose proof (fun j z => Hb j z) as Hb'.
  assert (Hc : (exists r, ra = Some r /\ (forall p, m = Some p -> p < r)) \/ advice_le ra m).
  { destruct ra as [r|]; [|by right]. destruct m as [p|]; simpl; [|left; exists r; by split].
    destruct (decide (p < r)); [left; exists r; split; [done|by intros ? [= <-]]|right; lia]. }
  assert (Hkeep : advice_le ra m -> best_of (c ++ [TenantAttemptEvidence.Transient ra]) (Some (i, m))).
  { intros Hle. split; [by apply lookup_app_l_Some|].
    intros j z [Hj|[-> [= ->]]]%Hlt; [by apply Hb|]. split; [done|lia]. }
  assert (Hnew : forall r, ra = Some r -> (forall p, m = Some p -> p < r) ->
    best_of (c ++ [TenantAttemptEvidence.Transient ra]) (Some (length c, ra))).
  { intros r -> Hlt'. split; [done|]. intros j z [Hj|[-> [= ->]]]%Hlt; [|split; [apply advice_le_refl|lia]].
    destruct (Hb j z Hj) as [Hz _]. destruct m as [p|], z as [z|]; simpl in *; try done;
      try specialize (Hlt' p eq_refl); split; try done; lia. }
  destruct m as [p|], ra as [r|]; try (by apply Hkeep).
  - destruct (Z.ltb_spec p r); [apply (Hnew r); [done|by intros ? [= <-]]|by apply Hkeep].
  - by apply (Hnew r).
Qed.

Record tenant_inv c st : Prop := {
  ti_charge : first_of is_charge c (first_charge st);
  ti_best : best_of c (best_transient st);
  ti_untrusted : first_of (fun x => x = TenantAttemptEvidence.UntrustedPresent) c (first_untrusted st);
  ti_content : first_of (fun x => x = TenantAttemptEvidence.ContentMismatch) c (first_content st);
}.

Lemma tenant_loop_inv c : tenant_inv c (tenant_loop (mkFoldState None None None None) 0 c).
Proof.
  induction c as [|x c [H1 H2 H3 H4]] using rev_ind.
  { constructor; simpl; done. }
  rewrite tenant_loop_snoc. set (st := tenant_loop _ 0 c) in *. simpl.
  pose proof (first_of_snoc _ c x _ H1) as [A1 A2]. pose proof (best_of_snoc c _ x H2) as B.
  pose proof (first_of_snoc _ c x _ H3) as [C1 C2]. pose proof (first_of_snoc _ c x _ H4) as [D1 D2].
  assert (Hnc : forall y, x = y -> (forall cl, y <> TenantAttemptEvidence.Charge cl) -> ~ is_charge x)
    by (intros y -> Hy [cl E]; by destruct (Hy cl)).
  destruct x as [cl|ra| | |]; constructor; simpl;
    first [apply A1; by eexists | apply A2; by eapply Hnc | exact B
          | by apply C1 | by apply C2 | by apply D1 | by apply D2].
Qed.

End TenantFold.

(** The tenant fold decides only after every consulted tenant, in precedence
    order: the first charging cell; else the earliest of the transient cells
    with the largest retry advice; else the first trust refusal; else the first
    content refusal; and the miss lane only when every tenant cleanly missed. *)
Theorem tenant_fold_exact c :
  match fold_tenant_attempts c with
  | TenantAttemptsVerdict.ChargeInfra i => first_of is_charge c (Some i)
  | TenantAttemptsVerdict.RetryTransient i m =>
      Forall (fun x => ~ is_charge x) c /\ best_of c (Some (i, m))
  | TenantAttemptsVerdict.UntrustedPresent i =>
      Forall (fun x => ~ is_charge x) c /\ best_of c None /\
      first_of (fun x => x = TenantAttemptEvidence.UntrustedPresent) c (Some i)
  | TenantAttemptsVerdict.ContentMismatch i =>
      Forall (fun x => x = TenantAttemptEvidence.ContentMismatch \/
                       x = TenantAttemptEvidence.CleanMiss) c /\
      first_of (fun x => x = TenantAttemptEvidence.ContentMismatch) c (Some i)
  | TenantAttemptsVerdict.AllCleanMiss => Forall (fun x => x = TenantAttemptEvidence.CleanMiss) c
  end.
Proof.
  destruct (tenant_loop_inv c) as [H1 H2 H3 H4]. unfold fold_tenant_attempts.
  destruct (tenant_loop _ 0 c) as [fc bt fu ft]. simpl in *.
  destruct fc as [i|]; [done|]. destruct bt as [[i m]|]; [done|]. destruct fu as [i|]; [done|].
  assert (Hrest : Forall (fun x => x = TenantAttemptEvidence.ContentMismatch \/
                       x = TenantAttemptEvidence.CleanMiss) c).
  { simpl in *. rewrite Forall_forall in *. intros x Hx. specialize (H1 x Hx). specialize (H3 x Hx).
    apply list_elem_of_lookup_1 in Hx as [j Hj]. pose proof (fun ra => H2 j ra) as H2j.
    destruct x as [cl|ra| | |]; try done; [by destruct H1; eexists|by destruct (H2j ra)|by right|by left]. }
  destruct ft as [i|]; [done|]. simpl in H4. rewrite Forall_forall in *. intros x Hx.
  destruct (Hrest x Hx) as [->|]; [by destruct (H4 _ Hx)|done].
Qed.

(** ** Generation-stamped verdicts *)

Record StaleVerdictCell : Type := mkStaleVerdictCell {
  cell_generation : Z;
  final_generation : Z;
}.

Abbreviation GenStampedCells := (list (string * Z)).

Definition gen_record (c : GenStampedCells) (path : string) (generation : Z) : GenStampedCells :=
  c ++ [(path, generation)].

Definition drain_stale (c : GenStampedCells) (current : Z) : GenStampedCells * list string :=
  (List.filter (fun pg => negb (snd pg <? current)) c,
   List.map fst (List.filter (fun pg => snd pg <? current) c)).

Fixpoint fold_guard (c : GenStampedCells) (final : Z) : unit + StaleVerdictCell :=
  match c with
  | [] => inl tt
  | (_, g) :: rest =>
      if g =? final then fold_guard rest final else inr (mkStaleVerdictCell g final)
  end.

(** A closure walk over one registry: a verdict recorded under the current
    tenant-set generation, or the tenant set grows and the stale verdicts go
    back to the frontier. *)
Record Walk : Type := mkWalk { generation : Z; registry : GenStampedCells; requeued : list string }.

Inductive walk_step : Walk -> Walk -> Prop :=
| walk_record w path :
    walk_step w (mkWalk (generation w) (gen_record (registry w) path (generation w)) (requeued w))
| walk_grow w g' :
    generation w < g' ->
    walk_step w (mkWalk g' (fst (drain_stale (registry w) g'))
                   (requeued w ++ snd (drain_stale (registry w) g'))).

Lemma fold_guard_ok c g :
  fold_guard c g = inl tt <-> Forall (fun pg => snd pg = g) c.
Proof.
  induction c as [|[p h] c IH]; simpl; [by split|]. rewrite Forall_cons. simpl.
  destruct (Z.eqb_spec h g); [rewrite IH; tauto|naive_solver].
Qed.

(** A walk that drains at every growth of the tenant set never folds a stale
    verdict: at any point the guard at the current generation passes, and each
    path ever recorded is still recorded or was handed back for re-probing. *)
Theorem walk_guard_never_fires w :
  rtc walk_step (mkWalk 0 [] []) w ->
  fold_guard (registry w) (generation w) = inl tt /\
  (forall w' path, walk_step w w' -> path ∈ List.map fst (registry w) ->
     path ∈ List.map fst (registry w') \/ path ∈ requeued w').
Proof.
  intros Hr. split.
  - apply fold_guard_ok.
    remember (mkWalk 0 [] []) as w0 eqn:E0.
    assert (H0 : Forall (fun pg => snd pg = generation w0) (registry w0)) by (subst; constructor).
    clear E0. induction Hr as [|w0 w1 w2 Hs _ IH]; [done|]. apply IH. clear IH.
    destruct Hs as [w path|w g' Hg]; simpl.
    + apply Forall_app. split; [done|by constructor].
    + apply Forall_forall. intros x Hx%list_elem_of_In.
      apply List.filter_In in Hx as [Hx Hb]. rewrite Forall_forall in H0.
      apply negb_true_iff, Z.ltb_ge in Hb. apply list_elem_of_In, H0 in Hx. lia.
  - intros w' path Hs Hp. apply list_elem_of_In, in_map_iff in Hp as (pg & <- & Hin).
    destruct Hs as [w q|w g' Hg]; simpl.
    + left. unfold gen_record. rewrite map_app, elem_of_app. left.
      by apply list_elem_of_In, in_map.
    + destruct (snd pg <? g') eqn:E.
      * right. apply elem_of_app. right. apply list_elem_of_In, in_map, List.filter_In. done.
      * left. apply list_elem_of_In, in_map, List.filter_In. by rewrite E.
Qed.

Lemma walk_guard_never_fires_witness :
  fold_guard [("b"%string, 1)] 1 = inl tt.
Proof.
  refine (proj1 (walk_guard_never_fires (mkWalk 1 [("b"%string, 1)] ["a"%string]) _)).
  eapply rtc_l; [exact (walk_record (mkWalk 0 [] []) "a")|].
  eapply rtc_l; [apply (walk_grow _ 1); reflexivity|].
  eapply rtc_l; [apply (walk_record _ "b")|]. apply rtc_refl.
Defined.
