(* ===== verification/EvidencePull.v ===== *)
(** * Evidence kernel: pull admission and the confirm-exit fence

    [src/rio-evidence-kernel/src/pull.rs]: the base admission gates, the kinded
    table [admit_pull], the re-delivery credential, the report fold and the
    fence law.  Identity types are section variables with decidable equality,
    as the source is generic over them. *)

From S2P Require Import Prelude.

Module PullNodeStatus.
Inductive PullNodeStatus : Type :=
| Created | Queued | Ready | Assigned | Running | Completed | Failed | Poisoned
| DependencyFailed | Cancelled | Skipped.
End PullNodeStatus.
Abbreviation PullNodeStatus := PullNodeStatus.PullNodeStatus.

Module PullKind.
Inductive PullKind : Type := Build | Materialization.
End PullKind.
Abbreviation PullKind := PullKind.PullKind.

Module JobView.
Inductive JobView : Type := None | Pending (parked : bool) | Claimed (held_by_puller : bool).
End JobView.
Abbreviation JobView := JobView.JobView.

Module FenceLaneKind.
Inductive FenceLaneKind : Type := Keyed | Unfenced | Materialization.
End FenceLaneKind.
Abbreviation FenceLaneKind := FenceLaneKind.FenceLaneKind.

Module FenceObligation.
Inductive FenceObligation : Type := WriteAhead | ScreenRead | None.
End FenceObligation.
Abbreviation FenceObligation := FenceObligation.FenceObligation.

Section Pull.
Context {IntentId ExecutorIdent ExecId : Type}
  `{EqDecision IntentId, EqDecision ExecutorIdent, EqDecision ExecId}.

Inductive PullAdmission : Type :=
| DeliverNew
| DeliverExisting (exec_id : ExecId)
| Gone
| NotYetReady
| RejectToken
| RejectStaleGeneration.

Record PullRequest : Type := mkPullRequest {
  intent_id : IntentId;
  auth_intent : option IntentId;
  serving_generation : Z;
  generation_floor : option Z;
  status : option PullNodeStatus;
  open_attempt : option (ExecutorIdent * ExecId);
  pulling_identity : ExecutorIdent;
  build_backoff_expired : bool;
}.

Record MaterializationInputs : Type := mkMaterializationInputs {
  kind : PullKind;
  job : JobView;
  resume_exec_id : option ExecId;
  presented_nonce : option Z;
  attempt_nonce : option Z;
}.

Definition token_mismatch (r : PullRequest) : bool :=
  match auth_intent r with
  | Some auth => negb (bool_decide (auth = intent_id r))
  | None => false
  end.

Definition stale_generation (r : PullRequest) : bool :=
  match generation_floor r with
  | Some floor => (0 <=? floor) && (serving_generation r <? floor)
  | None => false
  end.

Definition base_admission (r : PullRequest) : PullAdmission :=
  if token_mismatch r then RejectToken
  else if stale_generation r then RejectStaleGeneration
  else match status r with
       | None => Gone
       | Some st =>
           match st with
           | PullNodeStatus.Completed | PullNodeStatus.Cancelled | PullNodeStatus.Skipped
           | PullNodeStatus.Poisoned | PullNodeStatus.DependencyFailed => Gone
           | PullNodeStatus.Created | PullNodeStatus.Queued | PullNodeStatus.Failed => NotYetReady
           | PullNodeStatus.Ready => DeliverNew
           | PullNodeStatus.Assigned | PullNodeStatus.Running =>
               match open_attempt r with
               | Some (executor, exec_id) =>
                   if bool_decide (executor = pulling_identity r)
                   then DeliverExisting exec_id else NotYetReady
               | None => NotYetReady
               end
           end
       end.

Definition redelivery_credential_ok (presented_resume : option ExecId) (attempt_exec_id : ExecId)
    (presented_nonce attempt_nonce : option Z) : bool :=
  bool_decide (presented_resume = Some attempt_exec_id)
  || (bool_decide (is_Some presented_nonce) && bool_decide (presented_nonce = attempt_nonce)).

Definition is_queued_or_ready (st : option PullNodeStatus) : bool :=
  match st with
  | Some PullNodeStatus.Queued | Some PullNodeStatus.Ready => true
  | _ => false
  end.

Definition admit_pull (r : PullRequest) (mat : MaterializationInputs) : PullAdmission :=
  match kind mat, job mat with
  | PullKind.Build, (JobView.Pending _ | JobView.Claimed _) =>
      match base_admission r with
      | RejectToken => RejectToken
      | RejectStaleGeneration => RejectStaleGeneration
      | Gone => Gone
      | DeliverNew | DeliverExisting _ | NotYetReady => NotYetReady
      end
  | PullKind.Build, JobView.None =>
      match base_admission r with
      | DeliverNew => if negb (build_backoff_expired r) then NotYetReady else DeliverNew
      | other => other
      end
  | PullKind.Materialization, JobView.None =>
      match base_admission r with
      | RejectToken => RejectToken
      | RejectStaleGeneration => RejectStaleGeneration
      | _ => Gone
      end
  | PullKind.Materialization, JobView.Pending parked =>
      match base_admission r with
      | RejectToken => RejectToken
      | RejectStaleGeneration => RejectStaleGeneration
      | Gone => Gone
      | DeliverNew => if negb parked then DeliverNew else NotYetReady
      | NotYetReady =>
          if negb parked && is_queued_or_ready (status r) then DeliverNew else NotYetReady
      | DeliverExisting _ => NotYetReady
      end
  | PullKind.Materialization, JobView.Claimed held_by_puller =>
      match base_admission r with
      | RejectToken => RejectToken
      | RejectStaleGeneration => RejectStaleGeneration
      | Gone => Gone
      | DeliverExisting exec_id =>
          if held_by_puller && redelivery_credential_ok (resume_exec_id mat) exec_id
                                 (presented_nonce mat) (attempt_nonce mat)
          then DeliverExisting exec_id else NotYetReady
      | DeliverNew | NotYetReady => NotYetReady
      end
  end.

(** Live states of the node an open attempt can be in. *)
Definition in_flight_status (st : option PullNodeStatus) : Prop :=
  st = Some PullNodeStatus.Assigned \/ st = Some PullNodeStatus.Running.

Definition credential (mat : MaterializationInputs) (e : ExecId) : Prop :=
  resume_exec_id mat = Some e \/
  exists n, presented_nonce mat = Some n /\ attempt_nonce mat = Some n.

Lemma credential_ok mat e :
  redelivery_credential_ok (resume_exec_id mat) e (presented_nonce mat) (attempt_nonce mat) = true
  <-> credential mat e.
Proof.
  unfold redelivery_credential_ok, credential.
  rewrite orb_true_iff, andb_true_iff, !bool_decide_eq_true. split.
  - intros [?|[[n Hn] E]]; [by left|right]. exists n. split; congruence.
  - intros [?|(n & -> & ->)]; [by left|right]. done.
Qed.

Lemma base_deliver_new r :
  base_admission r = DeliverNew <->
  token_mismatch r = false /\ stale_generation r = false /\ status r = Some PullNodeStatus.Ready.
Proof.
  unfold base_admission. destruct (token_mismatch r), (stale_generation r); try naive_solver.
  destruct (status r) as [[]|]; try naive_solver;
    destruct (open_attempt r) as [[x e]|]; try case_bool_decide; naive_solver.
Qed.

Lemma base_deliver_existing r e :
  base_admission r = DeliverExisting e <->
  token_mismatch r = false /\ stale_generation r = false /\ in_flight_status (status r) /\
  open_attempt r = Some (pulling_identity r, e).
Proof.
  unfold base_admission, in_flight_status.
  destruct (token_mismatch r), (stale_generation r); try naive_solver.
  destruct (status r) as [[]|]; try naive_solver;
    destruct (open_attempt r) as [[x e']|]; try case_bool_decide; naive_solver.
Qed.

Lemma base_queued r :
  base_admission r = NotYetReady /\ is_queued_or_ready (status r) = true <->
  token_mismatch r = false /\ stale_generation r = false /\
  status r = Some PullNodeStatus.Queued.
Proof.
  unfold base_admission. destruct (token_mismatch r), (stale_generation r); try naive_solver.
  destruct (status r) as [[]|]; naive_solver.
Qed.

(** Fresh work is minted for a pull exactly when its token is bound to the
    intent, the serving generation is not below the claims floor, and either it
    is a build pull of a Ready node with no unresolved materialization job and
    an expired backoff, or a materialization claim on an unparked pending job
    whose node is Ready or Queued. *)
Theorem deliver_new_exact r mat :
  admit_pull r mat = DeliverNew <->
  token_mismatch r = false /\ stale_generation r = false /\
  ((kind mat = PullKind.Build /\ job mat = JobView.None /\
    status r = Some PullNodeStatus.Ready /\ build_backoff_expired r = true) \/
   (kind mat = PullKind.Materialization /\ job mat = JobView.Pending false /\
    (status r = Some PullNodeStatus.Ready \/ status r = Some PullNodeStatus.Queued))).
Proof.
  assert (Hcase : admit_pull r mat = DeliverNew <->
    (kind mat = PullKind.Build /\ job mat = JobView.None /\
       base_admission r = DeliverNew /\ build_backoff_expired r = true) \/
    (kind mat = PullKind.Materialization /\ job mat = JobView.Pending false /\
       (base_admission r = DeliverNew \/
        (base_admission r = NotYetReady /\ is_queued_or_ready (status r) = true)))).
  { unfold admit_pull.
    destruct (kind mat), (job mat) as [|[]|h], (base_admission r); simpl;
      try (split; [done|]; by intros [(? & ? & ? & ?)|(? & ? & [?|[? ?]])]).
    - destruct (build_backoff_expired r); simpl; naive_solver.
    - split; [intros _; right; split_and!; try done; by left|done].
    - destruct (is_queued_or_ready (status r)); simpl; naive_solver.
    - destruct (h && _); naive_solver. }
  rewrite Hcase, base_deliver_new, base_queued. tauto.
Qed.

(** An open attempt is re-delivered only to the identity it is bound to, on a
    node still in flight, past the token and generation gates; a build pull
    additionally needs no unresolved job, and a materialization claim needs the
    job's own holder view and a credential: the attempt's execution id, or a
    presented nonce equal to a persisted one (two absent nonces never match). *)
Theorem redelivery_exact r mat e :
  admit_pull r mat = DeliverExisting e <->
  token_mismatch r = false /\ stale_generation r = false /\ in_flight_status (status r) /\
  open_attempt r = Some (pulling_identity r, e) /\
  ((kind mat = PullKind.Build /\ job mat = JobView.None) \/
   (kind mat = PullKind.Materialization /\ job mat = JobView.Claimed true /\ credential mat e)).
Proof.
  assert (Hcase : admit_pull r mat = DeliverExisting e <->
    base_admission r = DeliverExisting e /\
    ((kind mat = PullKind.Build /\ job mat = JobView.None) \/
     (kind mat = PullKind.Materialization /\ job mat = JobView.Claimed true /\ credential mat e))).
  { rewrite <- credential_ok. unfold admit_pull.
    destruct (kind mat), (job mat) as [|p|[]], (base_admission r) as [|e'| | | |]; simpl;
      try (split; naive_solver).
    - destruct (build_backoff_expired r); simpl; naive_solver.
    - destruct p; simpl; naive_solver.
    - destruct (negb p && _); naive_solver.
    - destruct (redelivery_credential_ok (resume_exec_id mat) e' _ _) eqn:E; split.
      + intros [= ->]. split; [done|]. by right.
      + by intros [? _].
      + done.
      + intros [[= ->] [[? _]|(_ & _ & Hc)]]; congruence. }
  rewrite Hcase, base_deliver_existing. tauto.
Qed.

(** ** The confirm-exit fence *)

Definition fence_obligation (admission : PullAdmission) (confirm_only : bool)
    (lane : FenceLaneKind) : FenceObligation :=
  match lane with
  | FenceLaneKind.Unfenced | FenceLaneKind.Materialization => FenceObligation.None
  | FenceLaneKind.Keyed =>
      match admission with
      | Gone => FenceObligation.WriteAhead
      | NotYetReady => if confirm_only then FenceObligation.WriteAhead else FenceObligation.None
      | DeliverNew => FenceObligation.ScreenRead
      | DeliverExisting _ | RejectToken | RejectStaleGeneration => FenceObligation.None
      end
  end.

(** [fold_report]: [true] is [Process]. *)
Definition fold_report (assignment_active attempt_already_classified : bool) : bool :=
  assignment_active && negb attempt_already_classified.

(** ** Answering a pull

    The answering half of [pull_assignment_inner]
    ([src/rio-scheduler/src/actor/pull.rs]) over the durable set of confirm
    fences: the confirm-only screen, the write-ahead, the screen read and the
    mint.  What the database answers is the [FenceDb] argument. *)

Context {Key : Type} `{Countable Key}.

Inductive FenceLane : Type := LaneKeyed (hash : Key) | LaneNonKeyed (lane : FenceLaneKind).

Definition kernel_lane (l : FenceLane) : FenceLaneKind :=
  match l with LaneKeyed _ => FenceLaneKind.Keyed | LaneNonKeyed k => k end.

Inductive FenceWrite : Type := WriteDurable | WriteFenced | WriteError.
Record FenceDb : Type := mkFenceDb { fence_write : FenceWrite; fence_read_ok : bool }.

Inductive PullOutcome : Type :=
| OutGone
| OutNotYetReady
| OutDeliverExisting (exec_id : ExecId)
| OutMint
| OutRejectedToken
| OutRejectedStale
| OutNotDurable
| OutInternal.

(** The confirm-only screen. *)
Definition screen (confirm_only : bool) (d : PullAdmission) : PullAdmission :=
  if confirm_only then match d with DeliverNew => NotYetReady | d => d end else d.

(** The answer once the write-ahead is settled; [witness] is the durable fence. *)
Definition answer (fences : gset Key) (lane : FenceLane) (db : FenceDb)
    (decision : PullAdmission) (witness : bool) : PullOutcome :=
  match decision with
  | RejectToken => OutRejectedToken
  | RejectStaleGeneration => OutRejectedStale
  | Gone =>
      match lane with
      | LaneNonKeyed _ => OutGone
      | LaneKeyed _ => if witness then OutGone else OutInternal
      end
  | NotYetReady => OutNotYetReady
  | DeliverExisting e => OutDeliverExisting e
  | DeliverNew =>
      match lane with
      | LaneKeyed hash =>
          if negb (fence_read_ok db) then OutNotYetReady
          else if bool_decide (hash ∈ fences) then OutGone else OutMint
      | LaneNonKeyed _ => OutMint
      end
  end.

Definition answer_pull (fences : gset Key) (lane : FenceLane) (confirm_only : bool)
    (db : FenceDb) (admission : PullAdmission) : gset Key * PullOutcome :=
  let decision := screen confirm_only admission in
  match fence_obligation decision confirm_only (kernel_lane lane), lane with
  | FenceObligation.WriteAhead, LaneKeyed hash =>
      match fence_write db with
      | WriteDurable =>
          let fences' := {[hash]} ∪ fences in
          (fences', answer fences' lane db decision true)
      | WriteFenced => (fences, OutRejectedStale)
      | WriteError => (fences, OutNotDurable)
      end
  | _, _ => (fences, answer fences lane db decision false)
  end.

(** A history of pulls: the fences accumulate. *)
Record PullEvent : Type := mkPullEvent {
  ev_lane : FenceLane;
  ev_confirm : bool;
  ev_db : FenceDb;
  ev_admission : PullAdmission;
}.

Fixpoint run_pulls (fences : gset Key) (evs : list PullEvent) : list PullOutcome :=
  match evs with
  | [] => []
  | e :: rest =>
      let '(fences', out) :=
        answer_pull fences (ev_lane e) (ev_confirm e) (ev_db e) (ev_admission e) in
      out :: run_pulls fences' rest
  end.

(** The answers on which a builder exits 0: [Gone], or a confirm probe told that
    nothing is held. *)
Definition licenses_exit (e : PullEvent) (o : PullOutcome) : Prop :=
  o = OutGone \/ (ev_confirm e = true /\ o = OutNotYetReady).

Lemma answer_pull_grows fences e :
  fences ⊆ fst (answer_pull fences (ev_lane e) (ev_confirm e) (ev_db e) (ev_admission e)).
Proof.
  unfold answer_pull. destruct (fence_obligation _ _ _), (ev_lane e) as [hash|k]; simpl; try done.
  destruct (fence_write (ev_db e)); simpl; set_solver.
Qed.

Lemma license_is_fenced fences e hash :
  ev_lane e = LaneKeyed hash ->
  licenses_exit e (snd (answer_pull fences (ev_lane e) (ev_confirm e) (ev_db e) (ev_admission e))) ->
  hash ∈ fst (answer_pull fences (ev_lane e) (ev_confirm e) (ev_db e) (ev_admission e)).
Proof.
  intros Hl. unfold answer_pull, licenses_exit. rewrite Hl. simpl.
  destruct (ev_confirm e); simpl; destruct (ev_admission e); simpl;
    try (destruct (fence_write (ev_db e)); simpl; [set_solver|intuition congruence..]);
    try (intuition congruence).
  destruct (negb _); [intuition congruence|]. case_bool_decide; [done|intuition congruence].
Qed.

Lemma fenced_never_mints fences e hash :
  ev_lane e = LaneKeyed hash -> hash ∈ fences ->
  snd (answer_pull fences (ev_lane e) (ev_confirm e) (ev_db e) (ev_admission e)) <> OutMint.
Proof.
  intros Hl Hin. unfold answer_pull. rewrite Hl. simpl.
  destruct (ev_confirm e); simpl; destruct (ev_admission e); simpl; try done;
    try (by destruct (fence_write (ev_db e))).
  destruct (negb _); [done|]. by rewrite bool_decide_true.
Qed.

Lemma run_fenced fences evs hash j e :
  hash ∈ fences -> evs !! j = Some e -> ev_lane e = LaneKeyed hash ->
  run_pulls fences evs !! j <> Some OutMint.
Proof.
  revert fences j. induction evs as [|e0 evs IH]; intros fences j Hin Hj Hl; [done|].
  simpl. pose proof (answer_pull_grows fences e0) as Hg.
  pose proof (fenced_never_mints fences e0 hash) as Hn.
  destruct (answer_pull _ _ _ _ _) as [fences' out]. simpl in Hg, Hn.
  destruct j as [|j]; simpl in *.
  - injection Hj as ->. intros [= ->]. by apply Hn.
  - apply (IH fences'); [set_solver|done|done].
Qed.

(** C12: The confirm-exit fence: in any history of pulls, with any database failures
    in between, once a keyed executor token has received an answer that licenses
    its clean exit, no later pull with that token ever mints fresh work. *)
Theorem licensed_exit_never_mints fences evs i j e e' o hash :
  evs !! i = Some e -> evs !! j = Some e' -> (i < j)%nat ->
  ev_lane e = LaneKeyed hash -> ev_lane e' = LaneKeyed hash ->
  run_pulls fences evs !! i = Some o -> licenses_exit e o ->
  run_pulls fences evs !! j <> Some OutMint.
Proof.
  revert fences i j. induction evs as [|e0 evs IH]; intros fences i j Hi Hj Hij Hl Hl' Ho Hlic; [done|].
  simpl in *. pose proof (license_is_fenced fences e0 hash) as Hf.
  destruct (answer_pull _ _ _ _ _) as [fences' out]. simpl in Hf.
  destruct j as [|j]; [lia|]. destruct i as [|i]; simpl in *.
  - simplify_eq. eapply run_fenced; [|done..]. by apply Hf.
  - by eapply (IH fences' i j); [| |lia|..].
Qed.

End Pull.

Lemma licensed_exit_never_mints_witness :
  let ev := fun a => mkPullEvent (ExecId := Z) (LaneKeyed 7%Z) false (mkFenceDb WriteDurable true) a in
  run_pulls ∅ [ev Gone; ev DeliverNew] !! 1%nat <> Some OutMint.
Proof.
  intros ev.
  refine (licensed_exit_never_mints ∅ [ev Gone; ev DeliverNew] 0 1 (ev Gone) (ev DeliverNew)
    OutGone 7%Z eq_refl eq_refl _ eq_refl eq_refl _ _).
  - lia.
  - vm_compute. reflexivity.
  - left. reflexivity.
Defined.
