(* ===== verification/EvidenceRouting.v ===== *)
(** * Evidence kernel: closure evidence, establishment and routing

    The set-level decisions of [src/rio-evidence-kernel/src/]: [lib.rs]
    ([closure_evidence]), [establish.rs] (the disposition of an expired open
    attempt), [routing.rs] (the four-arm [Unobtainable] routing and the success
    coverage check), [visibility.rs], [content.rs] and [settle.rs].  Paths are
    [string]s; a [HashSet] is a [gset]. *)

From S2P Require Import Prelude EvidenceOutcome EvidencePull.

(** ** Closure evidence *)

Module ClosureEvidence.
Inductive ClosureEvidence : Type := Vouched | Pending | ChildlessLeaf | Holed.
End ClosureEvidence.
Abbreviation ClosureEvidence := ClosureEvidence.ClosureEvidence.

(** The short-circuiting loop: [(any_child, all_produced)] on exit. *)
Fixpoint children_loop (any_child : bool) (children : list bool) : bool * bool :=
  match children with
  | [] => (any_child, true)
  | produced :: rest => if negb produced then (true, false) else children_loop true rest
  end.

Definition closure_evidence (present : bool) (children : option (list bool)) : ClosureEvidence :=
  if negb present then ClosureEvidence.Holed
  else match children with
       | None => ClosureEvidence.Holed
       | Some cs =>
           let '(any_child, all_produced) := children_loop false cs in
           if negb any_child then ClosureEvidence.ChildlessLeaf
           else if all_produced then ClosureEvidence.Vouched else ClosureEvidence.Pending
       end.

(** ** Establishment of an expired attempt *)

Module NodeDisposition.
Inductive NodeDisposition : Type := WantedLive | Cancelled | TerminalSettled | Absent.
End NodeDisposition.
Abbreviation NodeDisposition := NodeDisposition.NodeDisposition.

Module NodeStatusClass.
Inductive NodeStatusClass : Type := Live | Cancelled | Settled.
End NodeStatusClass.
Abbreviation NodeStatusClass := NodeStatusClass.NodeStatusClass.

Inductive NodeProjection : Type := Node (d : NodeDisposition) | NoAuthority.

Definition project_node (status : option NodeStatusClass) (dag_authoritative : bool)
    : NodeProjection :=
  if negb dag_authoritative then NoAuthority
  else Node (match status with
             | None => NodeDisposition.Absent
             | Some NodeStatusClass.Live => NodeDisposition.WantedLive
             | Some NodeStatusClass.Cancelled => NodeDisposition.Cancelled
             | Some NodeStatusClass.Settled => NodeDisposition.TerminalSettled
             end).

Module ProbeEvidence.
Inductive ProbeEvidence : Type :=
| Verified (missing : gset string)
| Unavailable
| NoStoreConfigured.
End ProbeEvidence.
Abbreviation ProbeEvidence := ProbeEvidence.ProbeEvidence.

Module ProbeClass.
Inductive ProbeClass : Type :=
| VerifiedAllWantedPresent | VerifiedMissingWanted | VerifiedNothingVerifiable
| Unavailable | NoStoreConfigured.
End ProbeClass.
Abbreviation ProbeClass := ProbeClass.ProbeClass.

Module EstablishmentDisposition.
Inductive EstablishmentDisposition : Type :=
| AdoptCompleted | ChargeExecutorCrash | ChargeMaterializationInfra | Defer | CloseChargeFree.
End EstablishmentDisposition.
Abbreviation EstablishmentDisposition := EstablishmentDisposition.EstablishmentDisposition.

Module EstablishmentAction.
Inductive EstablishmentAction : Type :=
| AdoptCompleted (verified_present : list string)
| ChargeExecutorCrash | ChargeMaterializationInfra | Defer | CloseChargeFree.
End EstablishmentAction.
Abbreviation EstablishmentAction := EstablishmentAction.EstablishmentAction.

Definition classify_probe (probe : ProbeEvidence) (verifiable_wanted : option (list string))
    : ProbeClass :=
  match probe with
  | ProbeEvidence.Unavailable => ProbeClass.Unavailable
  | ProbeEvidence.NoStoreConfigured => ProbeClass.NoStoreConfigured
  | ProbeEvidence.Verified missing =>
      match verifiable_wanted with
      | Some ((_ :: _) as wanted) =>
          if forallb (fun p => negb (bool_decide (p ∈ missing))) wanted
          then ProbeClass.VerifiedAllWantedPresent
          else ProbeClass.VerifiedMissingWanted
      | _ => ProbeClass.VerifiedNothingVerifiable
      end
  end.

Definition establish_from_classes (kind : PullKind) (node : NodeDisposition) (probe : ProbeClass)
    : EstablishmentDisposition :=
  match node, kind with
  | (NodeDisposition.Cancelled | NodeDisposition.Absent), _ =>
      EstablishmentDisposition.CloseChargeFree
  | NodeDisposition.TerminalSettled, _ => EstablishmentDisposition.CloseChargeFree
  | NodeDisposition.WantedLive, PullKind.Materialization =>
      EstablishmentDisposition.ChargeMaterializationInfra
  | NodeDisposition.WantedLive, PullKind.Build =>
      match probe with
      | ProbeClass.Unavailable => EstablishmentDisposition.Defer
      | ProbeClass.NoStoreConfigured => EstablishmentDisposition.ChargeExecutorCrash
      | ProbeClass.VerifiedAllWantedPresent => EstablishmentDisposition.AdoptCompleted
      | ProbeClass.VerifiedMissingWanted | ProbeClass.VerifiedNothingVerifiable =>
          EstablishmentDisposition.ChargeExecutorCrash
      end
  end.

(** [None] is the panic of [expect] on an adopt without a wanted set. *)
Definition establish_expired_attempt (kind : PullKind) (node : NodeDisposition)
    (probe : ProbeEvidence) (verifiable_wanted : option (list string))
    : option EstablishmentAction :=
  match establish_from_classes kind node (classify_probe probe verifiable_wanted) with
  | EstablishmentDisposition.AdoptCompleted =>
      match verifiable_wanted with
      | Some paths => Some (EstablishmentAction.AdoptCompleted paths)
      | None => None
      end
  | EstablishmentDisposition.ChargeExecutorCrash => Some EstablishmentAction.ChargeExecutorCrash
  | EstablishmentDisposition.ChargeMaterializationInfra =>
      Some EstablishmentAction.ChargeMaterializationInfra
  | EstablishmentDisposition.Defer => Some EstablishmentAction.Defer
  | EstablishmentDisposition.CloseChargeFree => Some EstablishmentAction.CloseChargeFree
  end.

(** ** Unobtainable routing *)

Module UnobtainableRouting.
Inductive UnobtainableRouting : Type :=
| CompleteForLiveInterest | ReArm | ResolveFromSource | FailFast.
End UnobtainableRouting.
Abbreviation UnobtainableRouting := UnobtainableRouting.UnobtainableRouting.

Module Refusal.
Inductive Refusal : Type := None | Trust | Content | TrustAndContent | Unrecognized.
End Refusal.
Abbreviation Refusal := Refusal.Refusal.

Definition is_refused (r : Refusal) : bool :=
  match r with
  | Refusal.None => false
  | Refusal.Trust | Refusal.Content | Refusal.TrustAndContent | Refusal.Unrecognized => true
  end.

(** [LiveWanted], minted only by [LiveWanted_new]. *)
Record LiveWanted : Type := mkLiveWanted { wanted_paths : list string }.

Definition LiveWanted_new (paths : list string) : option LiveWanted :=
  if bool_decide (paths = []) || existsb (fun p => bool_decide (p = EmptyString)) paths
  then None else Some (mkLiveWanted paths).

Definition path_in (p : string) (l : list string) : bool :=
  existsb (fun q => bool_decide (q = p)) l.

Record RoutingInputs : Type := mkRoutingInputs {
  missing_paths : list string;
  missing_references : list string;
  verified_paths : list string;
  live_wanted_paths : LiveWanted;
  durable_evidence : ClosureEvidence;
  prior_unobtainable_count : Z;
  reprobe : option ReprobeAnswer;
  pruned_origin : bool;
  refusal : Refusal;
}.

Definition route_from_classes (missing_live refs_missing covered : bool)
    (evidence : ClosureEvidence) (one_shot_spent : bool) (reprobe : option ReprobeAnswer)
    (pruned_origin : bool) (refusal : Refusal) : UnobtainableRouting :=
  if negb missing_live && negb refs_missing then
    if covered then UnobtainableRouting.CompleteForLiveInterest else UnobtainableRouting.ReArm
  else
    match evidence with
    | ClosureEvidence.Vouched | ClosureEvidence.Pending => UnobtainableRouting.ResolveFromSource
    | ClosureEvidence.ChildlessLeaf | ClosureEvidence.Holed =>
        match refusal with
        | Refusal.Trust | Refusal.Content | Refusal.TrustAndContent | Refusal.Unrecognized =>
            UnobtainableRouting.ResolveFromSource
        | Refusal.None =>
            match reprobe, one_shot_spent with
            | Some ReprobeAnswer.Obtainable, false => UnobtainableRouting.ReArm
            | _, _ => if pruned_origin then UnobtainableRouting.FailFast
                      else UnobtainableRouting.ResolveFromSource
            end
        end
    end.

Definition route_unobtainable (i : RoutingInputs) : UnobtainableRouting :=
  let missing_live :=
    existsb (fun p => path_in p (wanted_paths (live_wanted_paths i))) (missing_paths i) in
  let covered :=
    forallb (fun w => path_in w (verified_paths i)) (wanted_paths (live_wanted_paths i)) in
  route_from_classes missing_live
    (negb (bool_decide (missing_references i = []))) covered (durable_evidence i)
    (0 <? prior_unobtainable_count i) (reprobe i) (pruned_origin i) (refusal i).

Definition success_covers_live_wanted (ingested verified : list string) (w : LiveWanted) : bool :=
  forallb (fun p => path_in p ingested || path_in p verified) (wanted_paths w).

(** ** Visibility, content binding, settlement *)

Module VisibilityVerdict.
Inductive VisibilityVerdict : Type := Visible | Hidden.
End VisibilityVerdict.
Abbreviation VisibilityVerdict := VisibilityVerdict.VisibilityVerdict.

Definition visibility_verdict (owned any_built sig_trusted : bool) : VisibilityVerdict :=
  if owned then VisibilityVerdict.Visible
  else if any_built then VisibilityVerdict.Hidden
  else if sig_trusted then VisibilityVerdict.Visible
  else VisibilityVerdict.Hidden.

Record ContentFacts : Type := mkContentFacts {
  nar_hash : list Z;
  nar_size : Z;
  references : gset string;
}.

Definition already_complete_agrees (stored claimed : ContentFacts) : bool :=
  bool_decide (nar_hash stored = nar_hash claimed)
  && (nar_size stored =? nar_size claimed)
  && bool_decide (references stored = references claimed).

Module WriteDisposition.
Inductive WriteDisposition : Type := Applied | AlreadyResolved | Fenced | Failed.
End WriteDisposition.
Abbreviation WriteDisposition := WriteDisposition.WriteDisposition.

Definition settled (d : WriteDisposition) : bool :=
  match d with WriteDisposition.Applied | WriteDisposition.AlreadyResolved => true | _ => false end.

Module ConsumptionAck.
Inductive ConsumptionAck : Type := Ack | NackRetryable.
End ConsumptionAck.
Abbreviation ConsumptionAck := ConsumptionAck.ConsumptionAck.

Definition consumption_ack (close : WriteDisposition) : ConsumptionAck :=
  match close with
  | WriteDisposition.Applied | WriteDisposition.AlreadyResolved
  | WriteDisposition.Fenced => ConsumptionAck.Ack
  | WriteDisposition.Failed => ConsumptionAck.NackRetryable
  end.

Module CompanionFollowUp.
Inductive CompanionFollowUp : Type := Settled | Inert | ReleaseClaimFallback.
End CompanionFollowUp.
Abbreviation CompanionFollowUp := CompanionFollowUp.CompanionFollowUp.

Definition companion_follow_up (companion : WriteDisposition) : CompanionFollowUp :=
  match companion with
  | WriteDisposition.Applied | WriteDisposition.AlreadyResolved => CompanionFollowUp.Settled
  | WriteDisposition.Fenced => CompanionFollowUp.Inert
  | WriteDisposition.Failed => CompanionFollowUp.ReleaseClaimFallback
  end.

Section Laws.
Implicit Types (l : list string) (p : string).

Lemma path_in_spec p l : path_in p l = true <-> p ∈ l.
Proof.
  unfold path_in. rewrite existsb_exists. setoid_rewrite <- list_elem_of_In.
  setoid_rewrite bool_decide_eq_true. naive_solver.
Qed.

Lemma children_loop_spec any cs :
  children_loop any cs = (any || negb (bool_decide (cs = [])), forallb (fun b => b) cs).
Proof.
  revert any. induction cs as [|[] cs IH]; intros any; simpl.
  - by rewrite orb_false_r.
  - rewrite IH. simpl. by rewrite orb_true_r.
  - by rewrite orb_true_r.
Qed.

(** Evidence vouches exactly for a present node with a non-empty, fully produced
    child set. *)
Lemma vouched_iff present children :
  closure_evidence present children = ClosureEvidence.Vouched <->
  present = true /\ exists cs, children = Some cs /\ cs <> [] /\ Forall (fun b => b = true) cs.
Proof.
  unfold closure_evidence. destruct present, children as [cs|]; simpl; try naive_solver.
  rewrite children_loop_spec. simpl. case_bool_decide as Hnil; simpl; [naive_solver|].
  destruct (forallb (fun b => b) cs) eqn:E.
  - split; [|done]. intros _. split; [done|]. exists cs. split; [done|]. split; [done|].
    apply Forall_forall. intros b Hb. rewrite forallb_forall in E. by apply E, list_elem_of_In.
  - split; [done|]. intros (_ & cs' & [= <-] & _ & Hall). apply not_true_iff_false in E.
    destruct E. apply forallb_forall. intros b Hb. rewrite Forall_forall in Hall.
    by apply Hall, list_elem_of_In.
Qed.

Lemma missing_live_spec i :
  existsb (fun p => path_in p (wanted_paths (live_wanted_paths i))) (missing_paths i) = true <->
  exists w, w ∈ wanted_paths (live_wanted_paths i) /\ w ∈ missing_paths i.
Proof.
  rewrite existsb_exists. setoid_rewrite <- list_elem_of_In. setoid_rewrite path_in_spec.
  naive_solver.
Qed.

Lemma covered_spec i :
  forallb (fun w => path_in w (verified_paths i)) (wanted_paths (live_wanted_paths i)) = true <->
  forall w, w ∈ wanted_paths (live_wanted_paths i) -> w ∈ verified_paths i.
Proof.
  rewrite forallb_forall. setoid_rewrite <- list_elem_of_In. by setoid_rewrite path_in_spec.
Qed.

Lemma route_complete ml rm cov ev os rp po rf :
  route_from_classes ml rm cov ev os rp po rf = UnobtainableRouting.CompleteForLiveInterest <->
  ml || rm = false /\ cov = true.
Proof.
  unfold route_from_classes. rewrite <- negb_orb. destruct (ml || rm); simpl.
  - split; [by destruct ev, rf, rp as [[]|], os, po|by intros []].
  - destruct cov; split; try done; intros []; done.
Qed.

Lemma route_fail_fast ml rm cov ev os rp po rf :
  route_from_classes ml rm cov ev os rp po rf = UnobtainableRouting.FailFast <->
  ml || rm = true /\ (ev = ClosureEvidence.ChildlessLeaf \/ ev = ClosureEvidence.Holed) /\
  is_refused rf = false /\ po = true /\ ~ (rp = Some ReprobeAnswer.Obtainable /\ os = false).
Proof.
  unfold route_from_classes. rewrite <- negb_orb. destruct (ml || rm); simpl.
  - destruct ev, rf, po, os, rp as [[]|]; simpl; intuition congruence.
  - destruct cov; intuition congruence.
Qed.

End Laws.

(** A wanted path or a closure reference is confirmed absent. *)
Definition hole (i : RoutingInputs) : Prop :=
  (exists w, w ∈ wanted_paths (live_wanted_paths i) /\ w ∈ missing_paths i) \/
  missing_references i <> [].

(** The routing of an unobtainable report.  It completes exactly when no wanted
    path and no closure reference is missing and every wanted path was verified;
    it fails the builds fast exactly when something is missing, the closure
    evidence does not vouch, no refusal was observed, the job is of pruned
    origin, and the re-probe did not find the paths obtainable on its first
    try. *)
Theorem route_unobtainable_exact i :
  (route_unobtainable i = UnobtainableRouting.CompleteForLiveInterest <->
   ~ hole i /\ (forall w, w ∈ wanted_paths (live_wanted_paths i) -> w ∈ verified_paths i)) /\
  (route_unobtainable i = UnobtainableRouting.FailFast <->
   hole i /\
   (durable_evidence i = ClosureEvidence.ChildlessLeaf \/ durable_evidence i = ClosureEvidence.Holed) /\
   is_refused (refusal i) = false /\ pruned_origin i = true /\
   ~ (reprobe i = Some ReprobeAnswer.Obtainable /\ prior_unobtainable_count i <= 0)).
Proof.
  unfold route_unobtainable. rewrite route_complete, route_fail_fast, covered_spec, Z.ltb_ge.
  assert (Hh : existsb (fun p => path_in p (wanted_paths (live_wanted_paths i))) (missing_paths i)
      || negb (bool_decide (missing_references i = [])) = true <-> hole i).
  { rewrite orb_true_iff, missing_live_spec, negb_true_iff, bool_decide_eq_false. done. }
  rewrite <- not_true_iff_false, Hh. done.
Qed.

(** The establishment sweep is total and adopts exactly what it verified: it
    never panics, and it adopts a completion iff the attempt is a build of a
    still-wanted node, the probe ran, and the stamped paths are a non-empty
    wanted set of which none was reported missing. *)
Theorem adopt_exactly_verified kind node probe wanted :
  (exists a, establish_expired_attempt kind node probe wanted = Some a) /\
  (forall paths,
     establish_expired_attempt kind node probe wanted
       = Some (EstablishmentAction.AdoptCompleted paths) <->
     kind = PullKind.Build /\ node = NodeDisposition.WantedLive /\
     wanted = Some paths /\ paths <> [] /\
     exists missing, probe = ProbeEvidence.Verified missing /\
       forall p, p ∈ paths -> p ∉ missing).
Proof.
  assert (Hall : forall paths (missing : gset string),
    forallb (fun p => negb (bool_decide (p ∈ missing))) paths = true <->
    forall p, p ∈ paths -> p ∉ missing).
  { intros paths missing. rewrite forallb_forall. setoid_rewrite <- list_elem_of_In.
    by setoid_rewrite negb_true_iff; setoid_rewrite bool_decide_eq_false. }
  unfold establish_expired_attempt.
  destruct node, kind; simpl; try (split; [by eexists|naive_solver]).
  destruct probe as [missing| |]; simpl; try (split; [by eexists|naive_solver]).
  destruct wanted as [[|w ws]|]; simpl; try (split; [by eexists|naive_solver]).
  specialize (Hall (w :: ws) missing). simpl in Hall. destruct (_ && _) eqn:E.
  - split; [by eexists|]. intros paths. split.
    + intros [= <-]. split_and!; try done. exists missing. split; [done|]. by apply Hall.
    + by intros (_ & _ & [= <-] & _).
  - split; [by eexists|]. intros paths. split; [done|].
    intros (_ & _ & [= <-] & _ & m & [= <-] & Hp). apply Hall in Hp. congruence.
Qed.
