(* ===== verification/AuthToken.v ===== *)
(** * HMAC tokens: the signed-claims envelope

    [src/rio-auth/src/hmac.rs]: the claims types with their serde wire shapes,
    [HmacKey::{sign, verify}], the key-file trim, and the two ends of the
    service token ([ServiceTokenInterceptor] and [ensure_service_caller]).

    The crates the source calls are section variables: the MAC, base64url, the
    JSON text codec and HTTP header values, with their documented laws as named
    hypotheses.  The serde derive shapes (field names, [default],
    [skip_serializing_if], [deny_unknown_fields]) are read off the source's
    attributes and modelled on a JSON value type. *)

From Stdlib Require Import Strings.Byte Strings.Ascii.
From stdpp Require Import countable.
From S2P Require Import Prelude.

#[local] Open Scope string_scope.
#[local] Open Scope list_scope.
#[local] Open Scope Z_scope.

(** ** JSON values as serde sees them *)

Inductive Json : Type :=
| JNull
| JBool (b : bool)
| JNum (n : Z)
| JFloat (lexeme : string)
| JStr (s : string)
| JArr (l : list Json)
| JObj (kvs : list (string * Json)).

(** The values a text codec reproduces exactly: integers in the range
    [serde_json] keeps as integers, and no floats. *)
Fixpoint json_exact (j : Json) : bool :=
  match j with
  | JFloat _ => false
  | JNum n => (i64_min <=? n) && (n <=? u64_max)
  | JArr l => forallb json_exact l
  | JObj kvs => forallb (fun kv => json_exact kv.2) kvs
  | _ => true
  end.

Definition de_string (j : Json) : option string :=
  match j with JStr s => Some s | _ => None end.
Definition de_bool (j : Json) : option bool :=
  match j with JBool b => Some b | _ => None end.
Definition de_u64 (j : Json) : option Z :=
  match j with JNum n => if (0 <=? n) && (n <=? u64_max) then Some n else None | _ => None end.
Definition de_i32 (j : Json) : option Z :=
  match j with
  | JNum n => if (-2147483648 <=? n) && (n <=? 2147483647) then Some n else None
  | _ => None
  end.
Definition de_vec_string (j : Json) : option (list string) :=
  match j with JArr l => mapM de_string l | _ => None end.
Definition de_opt_string (j : Json) : option (option string) :=
  match j with JNull => Some None | JStr s => Some (Some s) | _ => None end.

Definition key_eqb (a b : string) : bool := String.eqb a b.

(** A derived [visit_map] under [deny_unknown_fields]: an unknown key or a
    repeated key is an error; otherwise the fields are looked up by name. *)
Definition lookup_field (kvs : list (string * Json)) (k : string) : option Json :=
  snd <$> List.find (fun kv => key_eqb kv.1 k) kvs.

Fixpoint keys_known (fields : list string) (kvs : list (string * Json)) : bool :=
  match kvs with
  | [] => true
  | (k, _) :: t =>
      existsb (key_eqb k) fields
      && negb (existsb (fun kv => key_eqb kv.1 k) t)
      && keys_known fields t
  end.

(** The named values of a struct read from an object or, as a derived
    [Deserialize] also allows, from an array in field order. *)
Fixpoint zip_fields (fields : list string) (l : list Json) : option (list (string * Json)) :=
  match fields, l with
  | _, [] => Some []
  | [], _ :: _ => None
  | k :: ks, j :: js => cons (k, j) <$> zip_fields ks js
  end.

Definition struct_fields (fields : list string) (j : Json) : option (list (string * Json)) :=
  match j with
  | JObj kvs => if keys_known fields kvs then Some kvs else None
  | JArr l => zip_fields fields l
  | _ => None
  end.

Definition required {A} (de : Json -> option A) (kvs : list (string * Json)) (k : string) : option A :=
  match lookup_field kvs k with Some j => de j | None => None end.
Definition defaulted {A} (de : Json -> option A) (d : A) (kvs : list (string * Json)) (k : string) : option A :=
  match lookup_field kvs k with Some j => de j | None => Some d end.

(** ** The claims types *)

(** The [HmacClaims] trait with its serde supertraits.  [serialize] is given
    the entropy a [Serialize] implementation may draw. *)
Class HmacClaims (C : Type) : Type := {
  expiry_unix : C -> Z;
  set_expiry_unix : Z -> C -> C;
  serialize : string -> C -> Json;
  deserialize : Json -> option C;
}.

(** What every implementation owes [sign] and [verify]: the expiry accessors
    agree, and a claim whose fields are in range survives its wire shape. *)
Class LawfulClaims (C : Type) `{HmacClaims C} (ok : C -> Prop) : Prop := {
  expiry_set e c : expiry_unix (set_expiry_unix e c) = e;
  ok_expiry c : ok c -> u64_ok (expiry_unix c);
  ok_set e c : ok c -> u64_ok e -> ok (set_expiry_unix e c);
  serialize_exact n c : ok c -> json_exact (serialize n c) = true;
  serde_round_trip n c : ok c -> deserialize (serialize n c) = Some c;
}.

Module AssignmentClaims.
Record AssignmentClaims : Type := mk {
  executor_id : string;
  drv_hash : string;
  expected_outputs : list string;
  is_ca : bool;
  expiry : Z;
  tenant : option string;
  input_closure_digest : string;
}.

Definition fields : list string :=
  ["executor_id"; "drv_hash"; "expected_outputs"; "is_ca"; "expiry_unix"; "tenant";
   "input_closure_digest"].

Definition set_expiry (e : Z) (c : AssignmentClaims) : AssignmentClaims :=
  mk (executor_id c) (drv_hash c) (expected_outputs c) (is_ca c) e (tenant c)
    (input_closure_digest c).

(** [tenant] is omitted when [None], the digest when empty. *)
Definition to_json (_ : string) (c : AssignmentClaims) : Json :=
  JObj ([("executor_id", JStr (executor_id c)); ("drv_hash", JStr (drv_hash c));
         ("expected_outputs", JArr (JStr <$> expected_outputs c));
         ("is_ca", JBool (is_ca c)); ("expiry_unix", JNum (expiry c))]
        ++ match tenant c with Some t => [("tenant", JStr t)] | None => [] end
        ++ if key_eqb (input_closure_digest c) "" then []
           else [("input_closure_digest", JStr (input_closure_digest c))]).

Definition of_json (j : Json) : option AssignmentClaims :=
  kvs ← struct_fields fields j;
  executor_id ← required de_string kvs "executor_id";
  drv_hash ← required de_string kvs "drv_hash";
  expected_outputs ← required de_vec_string kvs "expected_outputs";
  is_ca ← required de_bool kvs "is_ca";
  expiry ← required de_u64 kvs "expiry_unix";
  tenant ← defaulted de_opt_string None kvs "tenant";
  digest ← defaulted de_string "" kvs "input_closure_digest";
  Some (mk executor_id drv_hash expected_outputs is_ca expiry tenant digest).
End AssignmentClaims.
Abbreviation AssignmentClaims := AssignmentClaims.AssignmentClaims.

#[export] Instance AssignmentClaims_claims : HmacClaims AssignmentClaims := {
  expiry_unix := AssignmentClaims.expiry;
  set_expiry_unix := AssignmentClaims.set_expiry;
  serialize := AssignmentClaims.to_json;
  deserialize := AssignmentClaims.of_json;
}.

Module ServiceClaims.
Record ServiceClaims : Type := mk {
  caller : string;
  expiry : Z;
  instance : option string;
}.

Definition fields : list string := ["caller"; "expiry_unix"; "instance"].

Definition set_expiry (e : Z) (c : ServiceClaims) : ServiceClaims :=
  mk (caller c) e (instance c).

Definition to_json (_ : string) (c : ServiceClaims) : Json :=
  JObj ([("caller", JStr (caller c)); ("expiry_unix", JNum (expiry c))]
        ++ match instance c with Some i => [("instance", JStr i)] | None => [] end).

Definition of_json (j : Json) : option ServiceClaims :=
  kvs ← struct_fields fields j;
  caller ← required de_string kvs "caller";
  expiry ← required de_u64 kvs "expiry_unix";
  instance ← defaulted de_opt_string None kvs "instance";
  Some (mk caller expiry instance).
End ServiceClaims.
Abbreviation ServiceClaims := ServiceClaims.ServiceClaims.

#[export] Instance ServiceClaims_claims : HmacClaims ServiceClaims := {
  expiry_unix := ServiceClaims.expiry;
  set_expiry_unix := ServiceClaims.set_expiry;
  serialize := ServiceClaims.to_json;
  deserialize := ServiceClaims.of_json;
}.

Module ExecutorClaims.
Record ExecutorClaims : Type := mk {
  intent_id : string;
  kind : Z;
  expiry : Z;
}.

Definition fields : list string := ["intent_id"; "kind"; "expiry_unix"; "spawn"].

Definition set_expiry (e : Z) (c : ExecutorClaims) : ExecutorClaims :=
  mk (intent_id c) (kind c) e.

(** The wire form carries a fourth field, a nonce fresh per serialization. *)
Definition to_json (nonce : string) (c : ExecutorClaims) : Json :=
  JObj [("intent_id", JStr (intent_id c)); ("kind", JNum (kind c));
        ("expiry_unix", JNum (expiry c)); ("spawn", JStr nonce)].

(** The nonce is required and discarded. *)
Definition of_json (j : Json) : option ExecutorClaims :=
  kvs ← struct_fields fields j;
  intent_id ← required de_string kvs "intent_id";
  kind ← required de_i32 kvs "kind";
  expiry ← required de_u64 kvs "expiry_unix";
  _ ← required de_string kvs "spawn";
  Some (mk intent_id kind expiry).
End ExecutorClaims.
Abbreviation ExecutorClaims := ExecutorClaims.ExecutorClaims.

#[export] Instance ExecutorClaims_claims : HmacClaims ExecutorClaims := {
  expiry_unix := ExecutorClaims.expiry;
  set_expiry_unix := ExecutorClaims.set_expiry;
  serialize := ExecutorClaims.to_json;
  deserialize := ExecutorClaims.of_json;
}.

(** The field ranges of the Rust structs. *)
Definition assignment_ok (c : AssignmentClaims) : Prop := u64_ok (AssignmentClaims.expiry c).
Definition service_ok (c : ServiceClaims) : Prop := u64_ok (ServiceClaims.expiry c).
Definition executor_ok (c : ExecutorClaims) : Prop :=
  u64_ok (ExecutorClaims.expiry c) /\ -2147483648 <= ExecutorClaims.kind c <= 2147483647.

Lemma mapM_de_string l : mapM de_string (JStr <$> l) = Some l.
Proof. apply mapM_Some_2. induction l; by constructor. Qed.

Lemma forallb_jstr l : forallb json_exact (JStr <$> l) = true.
Proof. by induction l. Qed.

Lemma de_u64_ok n : u64_ok n -> de_u64 (JNum n) = Some n.
Proof. intros H. unfold de_u64. split_ifs; [done|]. apply andb_false_iff in Heqb as []; zbool; mach. Qed.

Lemma de_i32_ok n : -2147483648 <= n <= 2147483647 -> de_i32 (JNum n) = Some n.
Proof. intros H. unfold de_i32. split_ifs; [done|]. apply andb_false_iff in Heqb as []; zbool; lia. Qed.

Lemma exact_num n : -2147483648 <= n <= u64_max -> (i64_min <=? n) && (n <=? u64_max) = true.
Proof. intros H. apply andb_true_iff. rewrite !Z.leb_le. mach. Qed.

#[export] Instance AssignmentClaims_lawful : LawfulClaims AssignmentClaims assignment_ok.
Proof.
  split; try done.
  - intros n [e d o ca x t g] Hx. unfold assignment_ok in Hx. cbn in Hx |- *. rewrite forallb_jstr, exact_num by mach.
    rewrite forallb_app. by destruct t, g.
  - intros n [e d o ca x t g] Hx. unfold assignment_ok in Hx. cbn [AssignmentClaims.expiry] in Hx.
    cbn [deserialize serialize AssignmentClaims_claims].
    unfold AssignmentClaims.of_json, AssignmentClaims.to_json, key_eqb.
    cbn [AssignmentClaims.executor_id AssignmentClaims.drv_hash AssignmentClaims.expected_outputs
      AssignmentClaims.is_ca AssignmentClaims.expiry AssignmentClaims.tenant
      AssignmentClaims.input_closure_digest].
    assert (de_vec_string (JArr (JStr <$> o)) = Some o) as Ho by apply mapM_de_string.
    pose proof (de_u64_ok x Hx) as Hd. generalize dependent (JArr (JStr <$> o)). intros jo Ho.
    destruct t as [t|], (String.eqb_spec g "") as [->|Hg]; cbn -[de_u64 de_vec_string];
      rewrite Ho; cbn -[de_u64]; rewrite Hd; reflexivity.
Qed.

#[export] Instance ServiceClaims_lawful : LawfulClaims ServiceClaims service_ok.
Proof.
  split; try done.
  - intros n [c x i] Hx. unfold service_ok in Hx. cbn in Hx |- *. rewrite exact_num by mach. by destruct i.
  - intros n [c x i] Hx. unfold service_ok in Hx. cbn in Hx. pose proof (de_u64_ok x Hx) as Hd.
    destruct i; cbn -[de_u64]; by rewrite Hd.
Qed.

#[export] Instance ExecutorClaims_lawful : LawfulClaims ExecutorClaims executor_ok.
Proof.
  split; try done.
  - by intros c [? _].
  - by intros e c [_ ?] ?.
  - intros n [i k x] [Hx Hk]. cbn in Hx, Hk. cbn. rewrite !exact_num by mach. done.
  - intros n [i k x] [Hx Hk]. cbn in Hx, Hk. pose proof (de_u64_ok x Hx) as Hd.
    pose proof (de_i32_ok k Hk) as Hi. cbn -[de_u64 de_i32]. rewrite Hi. cbn -[de_u64].
    by rewrite Hd.
Qed.

(** ** The crates under the envelope *)

#[export] Instance byte_eq_decision : EqDecision byte := Byte.byte_eq_dec.

(** [hmac]+[sha2], [base64] (URL_SAFE_NO_PAD), the [serde_json] text form, and
    the HTTP header value conversions of [http] and [tonic]. *)
Class TokenCrates : Type := {
  mac : list byte -> list byte -> list byte;
  b64_encode : list byte -> string;
  b64_decode : string -> option (list byte);
  json_to_vec : Json -> list byte;
  json_from_slice : list byte -> option Json;
  HeaderValue : Type;
  header_parse : string -> option HeaderValue;
  header_to_str : HeaderValue -> option string;
}.

Definition in_range (lo c hi : Ascii.ascii) : bool :=
  (Ascii.N_of_ascii lo <=? Ascii.N_of_ascii c)%N && (Ascii.N_of_ascii c <=? Ascii.N_of_ascii hi)%N.

(** The URL-safe base64 alphabet. *)
Definition b64_char (c : Ascii.ascii) : bool :=
  in_range "A"%char c "Z"%char || in_range "a"%char c "z"%char || in_range "0"%char c "9"%char
  || Ascii.eqb c "-"%char || Ascii.eqb c "_"%char.

(** The characters a header value accepts and returns as a string. *)
Definition visible_char (c : Ascii.ascii) : bool := in_range " "%char c "~"%char.

Fixpoint all_chars (f : Ascii.ascii -> bool) (s : string) : bool :=
  match s with
  | String.EmptyString => true
  | String.String c s' => f c && all_chars f s'
  end.

Class TokenCratesLaws (X : TokenCrates) : Prop := {
  b64_round_trip b : b64_decode (b64_encode b) = Some b;
  b64_alphabet b : all_chars b64_char (b64_encode b) = true;
  json_round_trip j : json_exact j = true -> json_from_slice (json_to_vec j) = Some j;
  header_round_trip s :
    all_chars visible_char s = true ->
    exists v, header_parse s = Some v /\ header_to_str v = Some s;
}.

Module HmacError.
Inductive HmacError : Type :=
| Io
| EmptyKey
| Format (parts : Z)
| Base64
| Json
| InvalidSignature
| Expired (expiry_unix now_unix : Z)
| Clock.
End HmacError.
Abbreviation HmacError := HmacError.HmacError.

#[export] Instance HmacError_eq_dec : EqDecision HmacError.
Proof. solve_decision. Defined.

Definition MAX_HMAC_LIFETIME_SECS : Z := 7 * 86400.

(** [str::split('.')]. *)
Fixpoint split_dot (s : string) : list string :=
  match s with
  | String.EmptyString => [""]
  | String.String c s' =>
      if Ascii.eqb c "."%char then "" :: split_dot s'
      else match split_dot s' with
           | p :: ps => String.String c p :: ps
           | [] => [String.String c ""]
           end
  end.

(** [slice::strip_suffix]. *)
Definition strip_suffix {A} `{EqDecision A} (suf l : list A) : option (list A) :=
  let n := (length l - length suf)%nat in
  if bool_decide (length suf <= length l)%nat && bool_decide (drop n l = suf)
  then Some (take n l) else None.

(** The key file's content, or the read error, under an optional path. *)
Definition load_key (path : option (list byte + unit)) : option (list byte) + HmacError :=
  match path with
  | None => inl None
  | Some (inr _) => inr HmacError.Io
  | Some (inl key) =>
      let key :=
        match strip_suffix [Byte.x0d; Byte.x0a] key with
        | Some s => s
        | None => match strip_suffix [Byte.x0a] key with Some s => s | None => key end
        end in
      match key with
      | [] => inr HmacError.EmptyKey
      | _ => inl (Some key)
      end
  end.

Section Envelope.
Context {X : TokenCrates}.

(** [HmacKey::sign].  [now] is [now_unix()], [None] before the epoch; [nonce]
    is the entropy the claims' [Serialize] draws. *)
Definition clamp_expiry {C} `{HmacClaims C} (now : option Z) (claims : C) : C :=
  let cap := u64_saturating_add (default 0 now) MAX_HMAC_LIFETIME_SECS in
  if cap <? expiry_unix claims then set_expiry_unix cap claims else claims.

Definition sign {C} `{HmacClaims C} (key : list byte) (now : option Z) (nonce : string)
    (claims : C) : string :=
  let claims_json := json_to_vec (serialize nonce (clamp_expiry now claims)) in
  let tag := mac key claims_json in
  String.append (b64_encode claims_json) (String.append "." (b64_encode tag)).

(** [HmacKey::verify]. *)
Definition verify C `{HmacClaims C} (key : list byte) (now : option Z) (token : string)
    : C + HmacError :=
  match split_dot token with
  | [p0; p1] =>
      match b64_decode p0 with
      | None => inr HmacError.Base64
      | Some claims_json =>
          match b64_decode p1 with
          | None => inr HmacError.Base64
          | Some tag =>
              if negb (bool_decide (mac key claims_json = tag)) then inr HmacError.InvalidSignature
              else match json_from_slice claims_json ≫= deserialize with
              | None => inr HmacError.Json
              | Some claims =>
                  match now with
                  | None => inr HmacError.Clock
                  | Some now_unix =>
                      if expiry_unix claims <? now_unix
                      then inr (HmacError.Expired (expiry_unix claims) now_unix)
                      else inl claims
                  end
              end
          end
      end
  | parts => inr (HmacError.Format (Z.of_nat (length parts)))
  end.

(** *** The service token's two ends *)

Definition SERVICE_TOKEN_HEADER : string := "x-rio-service-token".
Definition ASSIGNMENT_TOKEN_HEADER : string := "x-rio-assignment-token".

(** An HTTP header map in wire order; [get] is the first value of a name and
    [insert] replaces every value of the name. *)
Definition Headers : Type := list (string * HeaderValue).
Definition headers_get (name : string) (h : Headers) : option HeaderValue :=
  snd <$> List.find (fun kv => key_eqb kv.1 name) h.
Definition headers_insert (name : string) (v : HeaderValue) (h : Headers) : Headers :=
  List.filter (fun kv => negb (key_eqb kv.1 name)) h ++ [(name, v)].

Record ServiceTokenInterceptor : Type := mkServiceTokenInterceptor {
  signer : option (list byte);
  sti_caller : string;
  sti_instance : option string;
}.

(** [ServiceTokenInterceptor::call]: [inr tt] is the internal status of a
    pre-epoch clock.  The clock is read again inside [sign]. *)
Definition intercept (i : ServiceTokenInterceptor) (now sign_now : option Z) (h : Headers)
    : Headers + unit :=
  match signer i with
  | None => inl h
  | Some key =>
      match now with
      | None => inr tt
      | Some t =>
          let claims :=
            ServiceClaims.mk (sti_caller i) ((t + 60) mod (u64_max + 1)) (sti_instance i) in
          match header_parse (sign key sign_now "" claims) with
          | Some v => inl (headers_insert SERVICE_TOKEN_HEADER v h)
          | None => inl h
          end
      end
  end.

Inductive ServiceDenied : Type :=
| HeaderRequired
| TokenRejected (e : HmacError)
| CallerNotAllowed (caller : string).

(** [ensure_service_caller]. *)
Definition ensure_service_caller (md : Headers) (verifier : option (list byte)) (now : option Z)
    (allowed : list string) : ServiceClaims + ServiceDenied :=
  match verifier with
  | None => inl (ServiceClaims.mk "dev-mode" u64_max None)
  | Some key =>
      match headers_get SERVICE_TOKEN_HEADER md ≫= header_to_str with
      | None => inr HeaderRequired
      | Some tok =>
          match verify ServiceClaims key now tok with
          | inr e => inr (TokenRejected e)
          | inl claims =>
              if negb (existsb (key_eqb (ServiceClaims.caller claims)) allowed)
              then inr (CallerNotAllowed (ServiceClaims.caller claims))
              else inl claims
          end
      end
  end.

(** *** Lemmas on the envelope *)

Lemma all_chars_impl f g s :
  (forall c, f c = true -> g c = true) -> all_chars f s = true -> all_chars g s = true.
Proof.
  intros Hfg. induction s as [|c s IH]; simpl; [done|].
  intros [Hc Hs]%andb_true_iff. by rewrite (Hfg c Hc), IH.
Qed.

Lemma all_chars_append f a b :
  all_chars f (String.append a b) = all_chars f a && all_chars f b.
Proof. induction a as [|c a IH]; simpl; [done|]. by rewrite IH, andb_assoc. Qed.

Lemma b64_char_visible c : b64_char c = true -> visible_char c = true /\ Ascii.eqb c "."%char = false.
Proof. destruct c as [[] [] [] [] [] [] [] []]; vm_compute; done. Qed.

Lemma split_dot_plain s : all_chars b64_char s = true -> split_dot s = [s].
Proof.
  induction s as [|c s IH]; simpl; [done|]. intros [Hc Hs]%andb_true_iff.
  by rewrite (proj2 (b64_char_visible c Hc)), IH.
Qed.

Lemma split_dot_two a b :
  all_chars b64_char a = true -> all_chars b64_char b = true ->
  split_dot (String.append a (String.append "." b)) = [a; b].
Proof.
  intros Ha Hb. induction a as [|c a IH]; simpl in *.
  - by rewrite split_dot_plain.
  - apply andb_true_iff in Ha as [Hc Ha]. by rewrite (proj2 (b64_char_visible c Hc)), (IH Ha).
Qed.

Section Laws.
Context `{!TokenCratesLaws X}.

Lemma sign_visible {C} `{HmacClaims C} key now nonce (c : C) :
  all_chars visible_char (sign key now nonce c) = true.
Proof.
  unfold sign. rewrite !all_chars_append, !andb_true_iff.
  repeat split; try apply (all_chars_impl b64_char), b64_alphabet;
    intros ch Hc; apply (b64_char_visible ch Hc).
Qed.

(** What [verify] computes on any signed envelope, whatever the claims type it
    was signed as and under whatever key. *)
Lemma verify_sign {C D} `{HmacClaims C, HmacClaims D} key key' now t0 nonce (c : C) :
  json_exact (serialize nonce (clamp_expiry t0 c)) = true ->
  let wire := serialize nonce (clamp_expiry t0 c) in
  verify D key' now (sign key t0 nonce c) =
  if bool_decide (mac key' (json_to_vec wire) = mac key (json_to_vec wire)) then
    match deserialize wire with
    | None => inr HmacError.Json
    | Some d =>
        match now with
        | None => inr HmacError.Clock
        | Some t => if expiry_unix (d : D) <? t then inr (HmacError.Expired (expiry_unix d) t)
                    else inl d
        end
    end
  else inr HmacError.InvalidSignature.
Proof.
  intros He wire. unfold verify, sign. fold wire.
  rewrite split_dot_two by apply b64_alphabet. rewrite !b64_round_trip.
  case_bool_decide; simpl; [|done]. by rewrite json_round_trip.
Qed.

Lemma clamp_expiry_ok {C} `{LawfulClaims C ok} t0 (c : C) :
  ok c -> (forall t, t0 = Some t -> u64_ok t) -> ok (clamp_expiry t0 c).
Proof.
  intros Hc Ht. unfold clamp_expiry. split_ifs; [|done]. apply ok_set; [done|].
  destruct t0 as [t|]; simpl; [specialize (Ht t eq_refl)|]; unfold MAX_HMAC_LIFETIME_SECS; mach.
Qed.

Lemma clamp_expiry_min {C} `{LawfulClaims C ok} t0 (c : C) :
  expiry_unix (clamp_expiry t0 c) =
  Z.min (expiry_unix c) (u64_saturating_add (default 0 t0) MAX_HMAC_LIFETIME_SECS).
Proof. unfold clamp_expiry. split_ifs; [rewrite expiry_set|]; lia. Qed.

End Laws.

(** An accepted token is two base64url parts whose second is the MAC of the
    first under the verifier's key, unexpired at a readable clock. *)
Lemma verify_accepts {C} `{HmacClaims C} key now token (c : C) :
  verify C key now token = inl c ->
  exists p0 p1 json t,
    split_dot token = [p0; p1] /\ b64_decode p0 = Some json /\
    b64_decode p1 = Some (mac key json) /\
    json_from_slice json ≫= deserialize = Some c /\ now = Some t /\ t <= expiry_unix c.
Proof.
  unfold verify. destruct (split_dot token) as [|p0 [|p1 [|]]]; try done.
  destruct (b64_decode p0) as [json|] eqn:E0; [|done].
  destruct (b64_decode p1) as [tag|] eqn:E1; [|done].
  case_bool_decide as Htag; simpl; [|done].
  destruct (json_from_slice json ≫= deserialize) as [c'|] eqn:Ed; [|done].
  destruct now as [t|]; [|done]. split_ifs; [done|]. intros [= ->].
  exists p0, p1, json, t. subst tag. naive_solver.
Qed.

Lemma headers_get_insert name v h :
  headers_get name (headers_insert name v h) = Some v.
Proof.
  unfold headers_get, headers_insert. rewrite find_app_bool.
  assert (List.find (fun kv => key_eqb kv.1 name)
    (List.filter (fun kv => negb (key_eqb kv.1 name)) h) = None) as ->.
  { apply find_none_iff, Forall_forall. intros kv Hkv%list_elem_of_In.
    apply List.filter_In in Hkv as [_ ?]. by apply negb_true_iff. }
  simpl. unfold key_eqb. by rewrite String.eqb_refl.
Qed.

End Envelope.

(** ** A concrete instance of the crates

    A model of the laws: hexadecimal for base64url, a self-delimiting bit
    string for the JSON text and the string itself for a header value. *)

Module ToyCrates.

Fixpoint json_to_tree (j : Json) : gen_tree (string + Z) :=
  match j with
  | JNull => GenNode 0 []
  | JBool true => GenNode 1 []
  | JBool false => GenNode 2 []
  | JNum n => GenNode 3 [GenLeaf (inr n)]
  | JFloat s => GenNode 4 [GenLeaf (inl s)]
  | JStr s => GenNode 5 [GenLeaf (inl s)]
  | JArr l => GenNode 6 (json_to_tree <$> l)
  | JObj kvs => GenNode 7 ((fun kv => GenNode 8 [GenLeaf (inl kv.1); json_to_tree kv.2]) <$> kvs)
  end.

Fixpoint tree_to_json (t : gen_tree (string + Z)) : Json :=
  match t with
  | GenNode 1 _ => JBool true
  | GenNode 2 _ => JBool false
  | GenNode 3 [GenLeaf (inr n)] => JNum n
  | GenNode 4 [GenLeaf (inl s)] => JFloat s
  | GenNode 5 [GenLeaf (inl s)] => JStr s
  | GenNode 6 l => JArr (tree_to_json <$> l)
  | GenNode 7 l =>
      JObj ((fun t => match t with
                      | GenNode _ [GenLeaf (inl k); v] => (k, tree_to_json v)
                      | _ => ("", JNull)
                      end) <$> l)
  | _ => JNull
  end.

Fixpoint tree_json (j : Json) : tree_to_json (json_to_tree j) = j.
Proof.
  destruct j as [|[]|n|s|s|l|kvs]; simpl; try done; f_equal.
  - induction l as [|x l IH]; simpl; f_equal; auto.
  - induction kvs as [|[k x] l IH]; simpl; f_equal; auto. by rewrite tree_json.
Qed.

Fixpoint pos_to_bytes (p : positive) : list byte :=
  match p with
  | xH => []
  | xO p => Byte.x00 :: pos_to_bytes p
  | xI p => Byte.x01 :: pos_to_bytes p
  end.

Fixpoint bytes_to_pos (l : list byte) : positive :=
  match l with
  | [] => xH
  | Byte.x00 :: t => xO (bytes_to_pos t)
  | _ :: t => xI (bytes_to_pos t)
  end.

Lemma pos_bytes p : bytes_to_pos (pos_to_bytes p) = p.
Proof. induction p; simpl; congruence. Qed.

Definition nibble (n : N) : Ascii.ascii := Ascii.ascii_of_N (97 + n)%N.
Definition unnibble (c : Ascii.ascii) : N := (Ascii.N_of_ascii c - 97)%N.

Fixpoint hex (l : list byte) : string :=
  match l with
  | [] => ""
  | b :: t =>
      String.String (nibble (Byte.to_N b / 16)%N)
        (String.String (nibble (Byte.to_N b mod 16)%N) (hex t))
  end.

Fixpoint unhex (s : string) : option (list byte) :=
  match s with
  | String.EmptyString => Some []
  | String.String c1 (String.String c2 s') =>
      b ← Byte.of_N (unnibble c1 * 16 + unnibble c2)%N; cons b <$> unhex s'
  | _ => None
  end.

Lemma unhex_hex l : unhex (hex l) = Some l.
Proof.
  induction l as [|b l IH]; [done|]. cbn [hex unhex]. rewrite IH.
  by destruct b.
Qed.

Lemma hex_alphabet l : all_chars b64_char (hex l) = true.
Proof. induction l as [|b l IH]; [done|]. cbn [hex all_chars]. rewrite IH. by destruct b. Qed.

Definition toy_crates : TokenCrates := {|
  mac key msg := key ++ msg;
  b64_encode := hex;
  b64_decode := unhex;
  json_to_vec j := pos_to_bytes (encode (json_to_tree j));
  json_from_slice l := tree_to_json <$> decode (bytes_to_pos l);
  HeaderValue := string;
  header_parse := Some;
  header_to_str := Some;
|}.

#[global] Instance toy_crates_laws : TokenCratesLaws toy_crates.
Proof.
  split; cbn.
  - apply unhex_hex.
  - apply hex_alphabet.
  - intros j _. rewrite pos_bytes, decode_encode. cbn. by rewrite tree_json.
  - intros s _. by exists s.
Qed.

End ToyCrates.

(** ** Theorems *)

(** C22: signing then verifying under the same key is exact.  The claims come
    back with their expiry clamped to seven days after the signing clock; the
    verifier answers [Expired] with exactly those two numbers once its clock
    passes that expiry, and [Clock] when its own clock predates the epoch. *)
Theorem sign_verify_exact {X : TokenCrates} `{!TokenCratesLaws X} `{LawfulClaims C ok} key t0 now nonce (c : C) :
  ok c -> (forall t, t0 = Some t -> u64_ok t) ->
  let expiry := Z.min (expiry_unix c)
                  (u64_saturating_add (default 0 t0) MAX_HMAC_LIFETIME_SECS) in
  expiry_unix (clamp_expiry t0 c) = expiry /\
  verify C key now (sign key t0 nonce c) =
  match now with
  | None => inr HmacError.Clock
  | Some t => if expiry <? t then inr (HmacError.Expired expiry t) else inl (clamp_expiry t0 c)
  end.
Proof.
  intros Hc Ht. cbn zeta. pose proof (clamp_expiry_ok t0 c Hc Ht) as Hk.
  split; [apply clamp_expiry_min|].
  rewrite verify_sign by by apply serialize_exact.
  by rewrite bool_decide_true, serde_round_trip, clamp_expiry_min.
Qed.

Definition demo_service : ServiceClaims := ServiceClaims.mk "rio-gateway" 1060 None.
Definition demo_key : list byte := [Byte.x6b].

Lemma sign_verify_exact_witness :
  verify (X := ToyCrates.toy_crates) ServiceClaims demo_key (Some 1030)
    (sign (X := ToyCrates.toy_crates) demo_key (Some 1000) "" demo_service) = inl demo_service /\
  verify (X := ToyCrates.toy_crates) ServiceClaims demo_key (Some 1061)
    (sign (X := ToyCrates.toy_crates) demo_key (Some 1000) "" demo_service) = inr (HmacError.Expired 1060 1061).
Proof.
  assert (service_ok demo_service) by (unfold service_ok; simpl; mach).
  assert (forall t, Some 1000 = Some t -> u64_ok t) by (intros t [= <-]; mach).
  split.
  - by destruct (sign_verify_exact (X := ToyCrates.toy_crates) demo_key (Some 1000) (Some 1030) "" demo_service) as [_ ->].
  - by destruct (sign_verify_exact (X := ToyCrates.toy_crates) demo_key (Some 1000) (Some 1061) "" demo_service) as [_ ->].
Defined.

(** Each family's wire shape is refused by the other families' decoders. *)
Lemma wire_shapes_disjoint nonce (a : AssignmentClaims) (s : ServiceClaims) (e : ExecutorClaims) :
  deserialize (C := ServiceClaims) (serialize nonce a) = None /\
  deserialize (C := ExecutorClaims) (serialize nonce a) = None /\
  deserialize (C := AssignmentClaims) (serialize nonce s) = None /\
  deserialize (C := ExecutorClaims) (serialize nonce s) = None /\
  deserialize (C := AssignmentClaims) (serialize nonce e) = None /\
  deserialize (C := ServiceClaims) (serialize nonce e) = None.
Proof.
  destruct a as [ei dh o ca x t g], s as [ca' x' i], e as [ii k x''].
  cbn. repeat split.
Qed.

(** the three claims families are isolated by their wire shapes.  A token
    of one family, signed under any key and presented to a verifier holding
    the very same key (assignment and executor tokens do share one), is refused
    as [Json] by the other two families' verifiers, at every clock. *)
Theorem claims_families_isolated {X : TokenCrates} `{!TokenCratesLaws X} key t0 now nonce
    (a : AssignmentClaims) (s : ServiceClaims) (e : ExecutorClaims) :
  assignment_ok a -> service_ok s -> executor_ok e ->
  (forall t, t0 = Some t -> u64_ok t) ->
  verify ExecutorClaims key now (sign key t0 nonce a) = inr HmacError.Json /\
  verify ServiceClaims key now (sign key t0 nonce a) = inr HmacError.Json /\
  verify AssignmentClaims key now (sign key t0 nonce e) = inr HmacError.Json /\
  verify ServiceClaims key now (sign key t0 nonce e) = inr HmacError.Json /\
  verify AssignmentClaims key now (sign key t0 nonce s) = inr HmacError.Json /\
  verify ExecutorClaims key now (sign key t0 nonce s) = inr HmacError.Json.
Proof.
  intros Ha Hs He Ht.
  pose proof (wire_shapes_disjoint nonce (clamp_expiry t0 a) (clamp_expiry t0 s)
    (clamp_expiry t0 e)) as (Da & Db & Dc & Dd & De & Df).
  repeat split; (rewrite verify_sign;
    [rewrite bool_decide_true by done; rewrite ?Da, ?Db, ?Dc, ?Dd, ?De, ?Df; reflexivity
    |by eapply serialize_exact, clamp_expiry_ok]).
Qed.

Lemma claims_families_isolated_witness :
  verify (X := ToyCrates.toy_crates) ExecutorClaims demo_key (Some 1001)
    (sign (X := ToyCrates.toy_crates) demo_key (Some 1000) "nonce"
       (AssignmentClaims.mk "b1" "drv" ["/nix/store/a"] false 2000 None "")) =
  inr HmacError.Json.
Proof.
  destruct (claims_families_isolated (X := ToyCrates.toy_crates) demo_key (Some 1000) (Some 1001)
    "nonce" (AssignmentClaims.mk "b1" "drv" ["/nix/store/a"] false 2000 None "")
    demo_service (ExecutorClaims.mk "drv" 0 2000)) as [H _];
    [| | | |exact H]; unfold assignment_ok, service_ok, executor_ok; simpl; try mach.
  intros t [= <-]. mach.
Defined.

(** A key file read with or without its line terminator is the same key. *)
Lemma load_key_newline key :
  key <> [] -> strip_suffix [Byte.x0a] key = None ->
  load_key (Some (inl key)) = inl (Some key) /\
  load_key (Some (inl (key ++ [Byte.x0d; Byte.x0a]))) = inl (Some key).
Proof.
  intros Hne Hs. unfold load_key.
  assert (strip_suffix [Byte.x0d; Byte.x0a] key = None) as Hc.
  { revert Hs. unfold strip_suffix. cbn [length].
    case_bool_decide as L1; case_bool_decide as D1; case_bool_decide as L2;
      case_bool_decide as D2; cbn; try done; exfalso; [|lia..].
    apply D1. replace (length key - 1)%nat with (length key - 2 + 1)%nat by lia.
    by rewrite <- drop_drop, D2. }
  split.
  - rewrite Hc, Hs. by destruct key.
  - assert (strip_suffix [Byte.x0d; Byte.x0a] (key ++ [Byte.x0d; Byte.x0a]) = Some key) as ->.
    { unfold strip_suffix. rewrite length_app. cbn [length].
      replace (length key + 2 - 2)%nat with (length key) by lia.
      by rewrite drop_app_length, take_app_length, !bool_decide_true by (done || lia). }
    by destruct key.
Qed.
