(* ===== verification/AuthLayer.v ===== *)
(** * The store's transport authorization layer

    [src/rio-authz-kernel/src/lib.rs] (the total layer verdict and the boot
    coherence law) and [src/rio-store/src/authz.rs] (the method table, the
    per-family classification and the tower layer's [check]/[call]). *)

From Stdlib Require Import Strings.Byte.
From S2P Require Import Prelude AuthToken.

#[local] Open Scope string_scope.
#[local] Open Scope list_scope.
#[local] Open Scope Z_scope.

(** ** The authorization kernel *)

Module VerifierFamily.
Inductive VerifierFamily : Type := TenantJwt | Service | Assignment.
End VerifierFamily.
Abbreviation VerifierFamily := VerifierFamily.VerifierFamily.

Module HandlerCheck.
Inductive HandlerCheck : Type := IngestToken | SigVisibility | ServiceCaller | EndUserRejected.
End HandlerCheck.
Abbreviation HandlerCheck := HandlerCheck.HandlerCheck.

Module CredentialClass.
Inductive CredentialClass : Type :=
| AssignmentToken
| TenantJwt
| Service
| Public (rationale : string)
| HandlerEnforced (check : HandlerCheck).
End CredentialClass.
Abbreviation CredentialClass := CredentialClass.CredentialClass.

Definition consumes (class : CredentialClass) : option VerifierFamily :=
  match class with
  | CredentialClass.AssignmentToken => Some VerifierFamily.Assignment
  | CredentialClass.TenantJwt => Some VerifierFamily.TenantJwt
  | CredentialClass.Service => Some VerifierFamily.Service
  | CredentialClass.Public _ | CredentialClass.HandlerEnforced _ => None
  end.

Record VerifierConfig : Type := mkVerifierConfig {
  jwt : bool;
  service : bool;
  hmac : bool;
}.

Module Presented.
Inductive Presented : Type :=
| None | TenantClaims | ServiceVerified | ServiceGarbage | AssignmentHeader.
End Presented.
Abbreviation Presented := Presented.Presented.

Module RejectReason.
Inductive RejectReason : Type :=
| MissingTenantToken | MissingAssignmentToken | MissingServiceToken | ServiceVerificationFailed.
End RejectReason.
Abbreviation RejectReason := RejectReason.RejectReason.

Inductive LayerVerdict : Type :=
| Admit
| Reject (r : RejectReason).

(** The arms take the one knob they may read. *)
Definition arm_assignment (knob : bool) (presented : Presented) : LayerVerdict :=
  if negb knob then Admit
  else match presented with
       | Presented.AssignmentHeader => Admit
       | _ => Reject RejectReason.MissingAssignmentToken
       end.

Definition arm_tenant_jwt (knob : bool) (presented : Presented) : LayerVerdict :=
  if negb knob then Admit
  else match presented with
       | Presented.TenantClaims => Admit
       | _ => Reject RejectReason.MissingTenantToken
       end.

Definition arm_service (knob : bool) (presented : Presented) : LayerVerdict :=
  if negb knob then Admit
  else match presented with
       | Presented.ServiceVerified => Admit
       | Presented.ServiceGarbage => Reject RejectReason.ServiceVerificationFailed
       | _ => Reject RejectReason.MissingServiceToken
       end.

Definition decide_layer (class : CredentialClass) (cfg : VerifierConfig) (presented : Presented)
    : LayerVerdict :=
  match class with
  | CredentialClass.AssignmentToken => arm_assignment (hmac cfg) presented
  | CredentialClass.TenantJwt => arm_tenant_jwt (jwt cfg) presented
  | CredentialClass.Service => arm_service (service cfg) presented
  | CredentialClass.Public _ | CredentialClass.HandlerEnforced _ => Admit
  end.

Module KeyCoherence.
Inductive KeyCoherence : Type :=
| Coherent | MissingServiceKey | MissingAssignmentKey | MissingBothKeys.
End KeyCoherence.
Abbreviation KeyCoherence := KeyCoherence.KeyCoherence.

Definition key_coherence (cfg : VerifierConfig) : KeyCoherence :=
  if negb (jwt cfg) then KeyCoherence.Coherent
  else match service cfg, hmac cfg with
       | true, true => KeyCoherence.Coherent
       | false, true => KeyCoherence.MissingServiceKey
       | true, false => KeyCoherence.MissingAssignmentKey
       | false, false => KeyCoherence.MissingBothKeys
       end.

(** ** The store's method table *)

Definition METHOD_CREDENTIALS : list (string * CredentialClass) :=
  [("/grpc.health.v1.Health/Check",
    CredentialClass.Public
      "kubelet liveness/readiness probe; no caller identity exists");
   ("/grpc.health.v1.Health/Watch",
    CredentialClass.Public
      "kubelet liveness/readiness probe; no caller identity exists");
   ("/grpc.health.v1.Health/List",
    CredentialClass.Public
      "kubelet liveness/readiness probe; no caller identity exists");
   ("/rio.store.StoreService/PutPath", CredentialClass.HandlerEnforced HandlerCheck.IngestToken);
   ("/rio.store.StoreService/PutPathBatch", CredentialClass.HandlerEnforced HandlerCheck.IngestToken);
   ("/rio.store.StoreService/PutPathChunked", CredentialClass.HandlerEnforced HandlerCheck.IngestToken);
   ("/rio.store.StoreService/GetPath", CredentialClass.HandlerEnforced HandlerCheck.SigVisibility);
   ("/rio.store.StoreService/QueryPathInfo", CredentialClass.HandlerEnforced HandlerCheck.SigVisibility);
   ("/rio.store.StoreService/BatchQueryPathInfo", CredentialClass.HandlerEnforced HandlerCheck.EndUserRejected);
   ("/rio.store.StoreService/BatchGetManifest", CredentialClass.HandlerEnforced HandlerCheck.EndUserRejected);
   ("/rio.store.StoreService/GetNarIndex", CredentialClass.HandlerEnforced HandlerCheck.EndUserRejected);
   ("/rio.store.StoreService/GetNarIndexBatch", CredentialClass.HandlerEnforced HandlerCheck.EndUserRejected);
   ("/rio.store.StoreService/FindMissingPaths", CredentialClass.HandlerEnforced HandlerCheck.SigVisibility);
   ("/rio.store.StoreService/QueryPathFromHashPart", CredentialClass.HandlerEnforced HandlerCheck.SigVisibility);
   ("/rio.store.StoreService/AddSignatures", CredentialClass.HandlerEnforced HandlerCheck.SigVisibility);
   ("/rio.store.StoreService/RegisterRealisation", CredentialClass.HandlerEnforced HandlerCheck.ServiceCaller);
   ("/rio.store.StoreService/QueryRealisation",
    CredentialClass.Public
      "content-addressed CA realisation cache lookup served to gateway/tenant callers; the returned signatures are themselves the trust mechanism (clients verify against trusted keys)");
   ("/rio.store.StoreService/TenantQuota", CredentialClass.TenantJwt);
   ("/rio.store.StoreService/AppendHwPerfSample", CredentialClass.HandlerEnforced HandlerCheck.IngestToken);
   ("/rio.store.ChunkService/GetChunk",
    CredentialClass.Public
      "chunk reads are keyed by content hash — possession of the hash is the capability (manifest access is what the gated methods protect); S3-presigned URLs serve the same bytes");
   ("/rio.store.ChunkService/GetChunks",
    CredentialClass.Public
      "bulk variant of GetChunk; same content-hash-is-capability rationale");
   ("/rio.store.ChunkService/HasChunks",
    CredentialClass.Public
      "presence probe by content hash; same content-hash-is-capability rationale (does not reveal which paths reference the chunk)");
   ("/rio.store.DirectoryService/GetDirectory", CredentialClass.HandlerEnforced HandlerCheck.SigVisibility);
   ("/rio.store.DirectoryService/HasDirectories", CredentialClass.HandlerEnforced HandlerCheck.SigVisibility);
   ("/rio.store.DirectoryService/HasBlobs", CredentialClass.HandlerEnforced HandlerCheck.SigVisibility);
   ("/rio.store.DirectoryService/ReadBlob", CredentialClass.HandlerEnforced HandlerCheck.SigVisibility);
   ("/rio.store.DirectoryService/StatBlob", CredentialClass.HandlerEnforced HandlerCheck.SigVisibility);
   ("/rio.store.StoreAdminService/TriggerGC", CredentialClass.Service);
   ("/rio.store.StoreAdminService/VerifyChunks", CredentialClass.Service);
   ("/rio.store.StoreAdminService/ListUpstreams", CredentialClass.Service);
   ("/rio.store.StoreAdminService/AddUpstream", CredentialClass.Service);
   ("/rio.store.StoreAdminService/RemoveUpstream", CredentialClass.Service);
   ("/rio.store.StoreAdminService/GetLoad", CredentialClass.Service);
   ("/rio.store.LogService/AppendLog", CredentialClass.AssignmentToken);
   ("/rio.store.LogService/TailLog", CredentialClass.TenantJwt)].

Definition class_for (path : string) : option CredentialClass :=
  snd <$> List.find (fun row => key_eqb row.1 path) METHOD_CREDENTIALS.

Definition validate_key_coherence (cfg : VerifierConfig) : unit + string :=
  match key_coherence cfg with
  | KeyCoherence.Coherent => inl tt
  | KeyCoherence.MissingServiceKey =>
      inr "refusing to serve: JWT pubkey is configured but the service HMAC key (RIO_STORE_SERVICE_HMAC_KEY_FILE / store.serviceHmacKey) is not — Service-class methods would be silently unenforced while callers believe the store authenticated (jwt => service && hmac)"
  | KeyCoherence.MissingAssignmentKey =>
      inr "refusing to serve: JWT pubkey is configured but the assignment HMAC key (RIO_STORE_LOG_HMAC_KEY_FILE / store.logHmacKey) is not — AssignmentToken-class methods would be silently unenforced while callers believe the store authenticated (jwt => service && hmac)"
  | KeyCoherence.MissingBothKeys =>
      inr "refusing to serve: JWT pubkey is configured but BOTH HMAC keys are missing (service: RIO_STORE_SERVICE_HMAC_KEY_FILE / store.serviceHmacKey; assignment: RIO_STORE_LOG_HMAC_KEY_FILE / store.logHmacKey) — every keyed class except TenantJwt would be silently unenforced (jwt => service && hmac)"
  end.

(** ** The tower layer *)

Section Layer.
Context {X : TokenCrates} {TenantClaims : Type}.

(** What the layer reads of a request: the path, the headers, and the tenant
    claims the JWT interceptor attached after verifying them. *)
Record Request : Type := mkRequest {
  uri_path : string;
  headers : Headers;
  tenant_claims : option TenantClaims;
}.

Record AuthzService : Type := mkAuthzService {
  jwt_configured : bool;
  hmac_configured : bool;
  service_verifier : option (list byte);
}.

(** A Trailers-Only response: HTTP 200 with the gRPC status in the headers. *)
Record Response : Type := mkResponse {
  http_status : Z;
  content_type : string;
  grpc_status : Z;
  grpc_message : string;
}.

Definition PermissionDenied : Z := 7.
Definition Unauthenticated : Z := 16.

Definition grpc_reject (code : Z) (msg : string) : Response :=
  mkResponse 200 "application/grpc" code
    match header_parse msg with Some _ => msg | None => "rejected" end.

Definition reject_response (reason : RejectReason) : Response :=
  match reason with
  | RejectReason.MissingTenantToken => grpc_reject Unauthenticated "tenant token required"
  | RejectReason.MissingAssignmentToken => grpc_reject Unauthenticated "assignment token required"
  | RejectReason.MissingServiceToken => grpc_reject Unauthenticated "service token required"
  | RejectReason.ServiceVerificationFailed =>
      grpc_reject Unauthenticated "service token verification failed"
  end.

Definition verifier_config (s : AuthzService) : VerifierConfig :=
  mkVerifierConfig (jwt_configured s) (bool_decide (is_Some (service_verifier s)))
    (hmac_configured s).

(** [classify]: only the declared family's material is inspected.  [now] is
    the clock [verify] reads. *)
Definition classify (s : AuthzService) (now : option Z) (class : CredentialClass) (req : Request)
    : Presented :=
  match consumes class with
  | Some VerifierFamily.TenantJwt =>
      match tenant_claims req with
      | Some _ => Presented.TenantClaims
      | None => Presented.None
      end
  | Some VerifierFamily.Service =>
      match headers_get SERVICE_TOKEN_HEADER (headers req) with
      | Some raw =>
          let ok :=
            match header_to_str raw, service_verifier s with
            | Some tok, Some sv =>
                match verify ServiceClaims sv now tok with inl _ => true | inr _ => false end
            | _, _ => false
            end in
          if ok then Presented.ServiceVerified else Presented.ServiceGarbage
      | None => Presented.None
      end
  | Some VerifierFamily.Assignment =>
      match headers_get ASSIGNMENT_TOKEN_HEADER (headers req) with
      | Some _ => Presented.AssignmentHeader
      | None => Presented.None
      end
  | None => Presented.None
  end.

Definition check (s : AuthzService) (now : option Z) (req : Request) : option Response :=
  match class_for (uri_path req) with
  | None => Some (grpc_reject PermissionDenied "method has no declared credential class")
  | Some class =>
      match decide_layer class (verifier_config s) (classify s now class req) with
      | Admit => None
      | Reject reason => Some (reject_response reason)
      end
  end.

(** [Service::call]: the inner service runs only on an admitted request. *)
Definition call (inner : Request -> Response) (s : AuthzService) (now : option Z) (req : Request)
    : Response :=
  match check s now req with
  | Some reject => reject
  | None => inner req
  end.

(** ** The contract *)

(** A family is enforced exactly when its own verifier is configured. *)
Definition enforced (s : AuthzService) (f : VerifierFamily) : Prop :=
  match f with
  | VerifierFamily.TenantJwt => jwt_configured s = true
  | VerifierFamily.Service => is_Some (service_verifier s)
  | VerifierFamily.Assignment => hmac_configured s = true
  end.

(** The credential a family demands.  A service token must be MAC'd by the
    configured key, decode as [ServiceClaims] and be unexpired. *)
Definition presents (s : AuthzService) (now : option Z) (req : Request) (f : VerifierFamily) : Prop :=
  match f with
  | VerifierFamily.TenantJwt => is_Some (tenant_claims req)
  | VerifierFamily.Assignment => is_Some (headers_get ASSIGNMENT_TOKEN_HEADER (headers req))
  | VerifierFamily.Service =>
      exists raw tok key claims,
        headers_get SERVICE_TOKEN_HEADER (headers req) = Some raw /\
        header_to_str raw = Some tok /\ service_verifier s = Some key /\
        verify ServiceClaims key now tok = inl claims
  end.

Lemma classify_service s now req :
  classify s now CredentialClass.Service req = Presented.ServiceVerified <->
  presents s now req VerifierFamily.Service.
Proof.
  cbn. destruct (headers_get _ _) as [raw|]; [|naive_solver].
  destruct (header_to_str raw) as [tok|] eqn:Et; [|naive_solver].
  destruct (service_verifier s) as [key|]; [|naive_solver].
  destruct (verify _ key now tok) as [c|] eqn:Ev.
  - split; [|done]. intros _. by exists raw, tok, key, c.
  - split; [done|]. intros (? & ? & ? & ? & ? & ? & ? & ?). simplify_eq. congruence.
Qed.

Lemma admits_keyed s now class f req :
  consumes class = Some f ->
  decide_layer class (verifier_config s) (classify s now class req) = Admit <->
  (enforced s f -> presents s now req f).
Proof.
  intros Hf. destruct class; simplify_eq/=.
  - unfold arm_assignment, classify. cbn [consumes]. destruct (hmac_configured s), (headers_get _ _);
      split; intros H; try done; by destruct (H eq_refl).
  - unfold arm_tenant_jwt, classify. cbn [consumes]. destruct (jwt_configured s), (tenant_claims req);
      split; intros H; try done; by destruct (H eq_refl).
  - pose proof (classify_service s now req) as Hc. unfold arm_service.
    case_bool_decide as Hs; cbn [negb]; [|naive_solver].
    rewrite <- Hc. destruct (classify s now CredentialClass.Service req);
      split; intros H; try done; by specialize (H Hs).
Qed.

Lemma coherent_enforces s f :
  validate_key_coherence (verifier_config s) = inl tt -> jwt_configured s = true -> enforced s f.
Proof.
  unfold validate_key_coherence, key_coherence. cbn. intros H Hj. rewrite Hj in H. cbn in H.
  case_bool_decide; destruct (hmac_configured s) eqn:?, f; naive_solver.
Qed.

End Layer.

(** Every row of the table is found under its own path. *)
Lemma table_rows_found :
  Forall (fun row => class_for row.1 = Some row.2) METHOD_CREDENTIALS.
Proof. repeat (constructor; [reflexivity|]). constructor. Qed.

Lemma check_admits {X : TokenCrates} {TenantClaims : Type} (s : AuthzService) (now : option Z)
    (req : Request (TenantClaims := TenantClaims)) :
  check s now req = None <->
  exists class, class_for (uri_path req) = Some class /\
    forall f, consumes class = Some f -> enforced s f -> presents s now req f.
Proof.
  unfold check. destruct (class_for (uri_path req)) as [class|]; [|naive_solver].
  destruct (consumes class) as [f|] eqn:Hf.
  - pose proof (admits_keyed s now class f req Hf) as Ha.
    destruct (decide_layer _ _ _); naive_solver.
  - destruct class; simplify_eq/=; split; try done; intros _; by eexists.
Qed.

(** A header map carrying a token minted by the shared key within its minute. *)
Lemma minted_token_verifies {X : TokenCrates} `{!TokenCratesLaws X} key t0 t0' t1 claims :
  ServiceClaims.expiry claims = t0 + 60 ->
  0 <= t0 <= t0' -> t0' <= u64_max -> t1 <= t0 + 60 <= u64_max ->
  verify ServiceClaims key (Some t1) (sign key (Some t0') "" claims) = inl claims.
Proof.
  intros Hx H0 H0' H1.
  assert (clamp_expiry (Some t0') claims = claims) as Hc.
  { unfold clamp_expiry. cbn [expiry_unix ServiceClaims_claims]. rewrite Hx.
    rewrite (proj2 (Z.ltb_ge _ _)); [done|].
    unfold MAX_HMAC_LIFETIME_SECS. cbn [from_option id]. unfold id. mach. }
  assert (service_ok claims) by (unfold service_ok; rewrite Hx; mach).
  rewrite verify_sign by (rewrite Hc; by apply serialize_exact).
  rewrite Hc, bool_decide_true, serde_round_trip by done. cbn [expiry_unix ServiceClaims_claims].
  by rewrite Hx, (proj2 (Z.ltb_ge (t0 + 60) t1)) by lia.
Qed.

(** C10: the transport layer dispatches a request exactly when its method is
    declared and, if the method's class consumes a verifier family that is
    configured, the request carries that family's credential (for a service
    token: authenticated by the configured key, decoded as service claims and
    unexpired); every other presentation is irrelevant.  An undeclared method
    is refused as [PermissionDenied], a missing credential as
    [Unauthenticated], and in both cases the inner service does not run.  Once
    the boot check passes with the JWT key set, every keyed family is
    enforced. *)
Theorem authz_admission_exact {X : TokenCrates} {TenantClaims : Type} (s : AuthzService)
    (now : option Z) (req : Request (TenantClaims := TenantClaims)) :
  (check s now req = None <->
   exists class, class_for (uri_path req) = Some class /\
     forall f, consumes class = Some f -> enforced s f -> presents s now req f) /\
  (forall r, check s now req = Some r ->
     grpc_status r = (if class_for (uri_path req) then Unauthenticated else PermissionDenied) /\
     forall inner, call inner s now req = r) /\
  (validate_key_coherence (verifier_config s) = inl tt -> jwt_configured s = true ->
   forall f, enforced s f).
Proof.
  split; [|split].
  - apply check_admits.
  - intros r Hr. split; [|by unfold call; rewrite Hr]. revert Hr. unfold check.
    destruct (class_for (uri_path req)); [|by intros [= <-]].
    destruct (decide_layer _ _ _) as [|[]]; by intros [= <-].
  - intros Hv Hj f. by apply coherent_enforces.
Qed.

Definition demo_store : AuthzService := mkAuthzService true true (Some demo_key).

Lemma authz_admission_exact_witness :
  enforced demo_store VerifierFamily.Service /\ enforced demo_store VerifierFamily.Assignment.
Proof.
  pose proof (authz_admission_exact (X := ToyCrates.toy_crates) demo_store (Some 1000)
    (mkRequest (X := ToyCrates.toy_crates) (TenantClaims := unit)
       "/rio.store.LogService/TailLog" [] None)) as (_ & _ & H).
  split; apply H; reflexivity.
Defined.

(** a control-plane call authenticated by the shared key goes through.
    The interceptor's token, presented within the minute it is minted for,
    passes the store's transport check on every [Service]-class method, and the
    handler's own gate then returns the minted claims exactly when the caller
    is on its allowlist. *)
Theorem service_call_admitted {X : TokenCrates} `{!TokenCratesLaws X} {TenantClaims : Type}
    (i : ServiceTokenInterceptor) key (s : AuthzService) t0 t0' t1 h path
    (tc : option TenantClaims) allowed :
  signer i = Some key -> service_verifier s = Some key ->
  class_for path = Some CredentialClass.Service ->
  0 <= t0 <= t0' -> t0' <= u64_max -> t1 <= t0 + 60 <= u64_max ->
  exists h',
    intercept i (Some t0) (Some t0') h = inl h' /\
    check s (Some t1) (mkRequest path h' tc) = None /\
    ensure_service_caller h' (Some key) (Some t1) allowed =
      if existsb (key_eqb (sti_caller i)) allowed
      then inl (ServiceClaims.mk (sti_caller i) (t0 + 60) (sti_instance i))
      else inr (CallerNotAllowed (sti_caller i)).
Proof.
  intros Hi Hs Hp H0 H0' H1.
  set (claims := ServiceClaims.mk (sti_caller i) (t0 + 60) (sti_instance i)).
  pose proof (minted_token_verifies key t0 t0' t1 claims eq_refl H0 H0' H1) as Hv.
  destruct (header_round_trip (sign key (Some t0') "" claims)) as (v & Ev & Etok);
    [apply sign_visible|].
  exists (headers_insert SERVICE_TOKEN_HEADER v h). unfold intercept. rewrite Hi.
  rewrite Z.mod_small by mach. fold claims. rewrite Ev. split; [done|].
  split.
  - apply check_admits. exists CredentialClass.Service. split; [exact Hp|].
    intros f [= <-] _. exists v, (sign key (Some t0') "" claims), key, claims. cbn [headers].
    by rewrite headers_get_insert.
  - unfold ensure_service_caller. rewrite headers_get_insert. cbn [mbind option_bind].
    rewrite Etok, Hv. by destruct (existsb _ allowed).
Qed.

Lemma service_call_admitted_witness :
  exists h',
    intercept (X := ToyCrates.toy_crates)
      (mkServiceTokenInterceptor (Some demo_key) "rio-controller" None)
      (Some 1000) (Some 1000) [] = inl h' /\
    ensure_service_caller h' (Some demo_key) (Some 1030) ["rio-controller"] =
      inl (ServiceClaims.mk "rio-controller" 1060 None).
Proof.
  destruct (service_call_admitted (X := ToyCrates.toy_crates) (TenantClaims := unit)
    (mkServiceTokenInterceptor (Some demo_key) "rio-controller" None) demo_key demo_store
    1000 1000 1030 [] "/rio.store.StoreAdminService/TriggerGC" None ["rio-controller"])
    as (h' & Hi & _ & He); [reflexivity|reflexivity|reflexivity|lia|mach|mach|].
  exists h'. split; [exact Hi|exact He].
Defined.
