(* ===== verification/SchedState.v ===== *)
(** * Scheduler: the derivation state machine and a node's state

    [src/rio-scheduler/src/state/derivation.rs]: the status alphabet with its
    transition table, the kind-aware deltas, the resubmission classification,
    the feature chokepoint, and [DerivationState] with the operations the DAG
    uses.  [src/rio-common/src/wanted_outputs.rs]: the saturating union.

    [DerivationState] is flat in the source; here its fields are grouped by the
    operations that touch them.  The payload types no modelled operation looks
    into, the store-path check, the ATerm parser and the iteration order of a
    hash set are the class [SchedEnv]. *)

From S2P Require Import Prelude.

#[local] Open Scope string_scope.
#[local] Open Scope list_scope.
#[local] Open Scope Z_scope.

Module DerivationStatus.
Inductive DerivationStatus : Type :=
| Created | Queued | Ready | Assigned | Running | Completed | Failed | Poisoned
| DependencyFailed | Cancelled | Skipped.
End DerivationStatus.
Abbreviation DerivationStatus := DerivationStatus.DerivationStatus.

#[export] Instance DerivationStatus_eq_dec : EqDecision DerivationStatus.
Proof. solve_decision. Defined.

Definition status_eqb (a b : DerivationStatus) : bool := bool_decide (a = b).

Definition from_str (s : string) : option DerivationStatus :=
  if String.eqb s "created" then Some DerivationStatus.Created
  else if String.eqb s "queued" then Some DerivationStatus.Queued
  else if String.eqb s "ready" then Some DerivationStatus.Ready
  else if String.eqb s "assigned" then Some DerivationStatus.Assigned
  else if String.eqb s "running" then Some DerivationStatus.Running
  else if String.eqb s "completed" then Some DerivationStatus.Completed
  else if String.eqb s "failed" then Some DerivationStatus.Failed
  else if String.eqb s "poisoned" then Some DerivationStatus.Poisoned
  else if String.eqb s "dependency_failed" then Some DerivationStatus.DependencyFailed
  else if String.eqb s "cancelled" then Some DerivationStatus.Cancelled
  else if String.eqb s "skipped" then Some DerivationStatus.Skipped
  else None.

Definition as_str (s : DerivationStatus) : string :=
  match s with
  | DerivationStatus.Created => "created"
  | DerivationStatus.Queued => "queued"
  | DerivationStatus.Ready => "ready"
  | DerivationStatus.Assigned => "assigned"
  | DerivationStatus.Running => "running"
  | DerivationStatus.Completed => "completed"
  | DerivationStatus.Failed => "failed"
  | DerivationStatus.Poisoned => "poisoned"
  | DerivationStatus.DependencyFailed => "dependency_failed"
  | DerivationStatus.Cancelled => "cancelled"
  | DerivationStatus.Skipped => "skipped"
  end.

Definition is_terminal (s : DerivationStatus) : bool :=
  match s with
  | DerivationStatus.Completed | DerivationStatus.Poisoned | DerivationStatus.DependencyFailed
  | DerivationStatus.Cancelled | DerivationStatus.Skipped => true
  | _ => false
  end.

Module TransitionError.
Inductive TransitionError : Type :=
| Invalid (from to : DerivationStatus) (reason : string)
| TerminalToNonTerminal (from to : DerivationStatus).
End TransitionError.
Abbreviation TransitionError := TransitionError.TransitionError.

(** The valid-transition table, once the self and terminal-exit cases are out. *)
Definition transition_table (from to : DerivationStatus) : bool :=
  match from, to with
  | DerivationStatus.Created, DerivationStatus.Completed
  | DerivationStatus.Ready, DerivationStatus.Completed
  | DerivationStatus.Queued, DerivationStatus.Completed
  | DerivationStatus.Poisoned, DerivationStatus.Completed
  | DerivationStatus.DependencyFailed, DerivationStatus.Completed
  | DerivationStatus.Failed, DerivationStatus.Completed
  | DerivationStatus.Created, DerivationStatus.Queued
  | DerivationStatus.Queued, DerivationStatus.Ready
  | DerivationStatus.Ready, DerivationStatus.Queued
  | DerivationStatus.Queued, DerivationStatus.DependencyFailed
  | DerivationStatus.Ready, DerivationStatus.DependencyFailed
  | DerivationStatus.Created, DerivationStatus.DependencyFailed
  | (DerivationStatus.Completed | DerivationStatus.Skipped), DerivationStatus.DependencyFailed
  | DerivationStatus.Ready, DerivationStatus.Assigned
  | DerivationStatus.Assigned, DerivationStatus.Running
  | DerivationStatus.Assigned, DerivationStatus.Ready
  | DerivationStatus.Running, DerivationStatus.Completed
  | DerivationStatus.Running, DerivationStatus.Failed
  | DerivationStatus.Running, DerivationStatus.Poisoned
  | DerivationStatus.Ready, DerivationStatus.Poisoned
  | DerivationStatus.Failed, DerivationStatus.Ready
  | DerivationStatus.Failed, DerivationStatus.Queued
  | DerivationStatus.Assigned, DerivationStatus.Cancelled
  | DerivationStatus.Running, DerivationStatus.Cancelled
  | DerivationStatus.Ready, DerivationStatus.Cancelled
  | (DerivationStatus.Queued | DerivationStatus.Ready), DerivationStatus.Skipped => true
  | _, _ => false
  end.

(** [validate_transition]: [None] is [Ok(())]. *)
Definition validate_transition (self to : DerivationStatus) : option TransitionError :=
  if status_eqb self to then
    match self with
    | DerivationStatus.Completed | DerivationStatus.Poisoned => None
    | DerivationStatus.DependencyFailed | DerivationStatus.Cancelled
    | DerivationStatus.Skipped => None
    | _ => Some (TransitionError.Invalid self to "non-terminal self-transition is not allowed")
    end
  else if is_terminal self && negb (is_terminal to) then
    if status_eqb self DerivationStatus.Poisoned && status_eqb to DerivationStatus.Created then None
    else if (status_eqb self DerivationStatus.Completed || status_eqb self DerivationStatus.Skipped)
            && (status_eqb to DerivationStatus.Ready || status_eqb to DerivationStatus.Queued)
    then None
    else if (status_eqb self DerivationStatus.Poisoned
             || status_eqb self DerivationStatus.DependencyFailed)
            && status_eqb to DerivationStatus.Queued
    then None
    else Some (TransitionError.TerminalToNonTerminal self to)
  else if transition_table self to then None
  else Some (TransitionError.Invalid self to "transition not in state machine").

Module AttemptKind.
Inductive AttemptKind : Type := Build | Materialization.
End AttemptKind.
Abbreviation AttemptKind := AttemptKind.AttemptKind.

Definition validate_transition_for_mint (self to : DerivationStatus) (kind : AttemptKind)
    : option TransitionError :=
  match kind, self, to with
  | AttemptKind.Materialization, DerivationStatus.Queued, DerivationStatus.Assigned => None
  | _, _, _ => validate_transition self to
  end.

Definition validate_transition_for_release (self to : DerivationStatus) (kind : AttemptKind)
    : option TransitionError :=
  match kind, self, to with
  | AttemptKind.Materialization, DerivationStatus.Assigned, DerivationStatus.Queued => None
  | _, _, _ => validate_transition self to
  end.

Definition status_retriable_on_resubmit (s : DerivationStatus) : bool :=
  match s with
  | DerivationStatus.Cancelled | DerivationStatus.Failed | DerivationStatus.DependencyFailed => true
  | _ => false
  end.

Definition is_giveup_abandoned (s : DerivationStatus) : bool :=
  match s with
  | DerivationStatus.Created | DerivationStatus.Queued | DerivationStatus.Ready => true
  | DerivationStatus.Assigned | DerivationStatus.Running => false
  | DerivationStatus.Cancelled | DerivationStatus.Failed | DerivationStatus.DependencyFailed
  | DerivationStatus.Poisoned => false
  | DerivationStatus.Completed | DerivationStatus.Skipped => false
  end.

(** ** Features *)

Definition FETCHER_FEATURE : string := "fetcher".

(** [EffectiveFeatures::derive]. *)
Definition derive_features (is_fixed_output : bool) (raw : list string) : list string :=
  if is_fixed_output then [FETCHER_FEATURE]
  else List.filter (fun f => negb (String.eqb f FETCHER_FEATURE)) raw.

(** ** Wanted outputs *)

Fixpoint insert_sorted (x : string) (l : list string) : list string :=
  match l with
  | [] => [x]
  | y :: t => if String.leb x y then x :: l else y :: insert_sorted x t
  end.

(** [sort_unstable] on strings. *)
Definition sort_strings (l : list string) : list string := fold_right insert_sorted [] l.

Definition contains_str (l : list string) (s : string) : bool := existsb (String.eqb s) l.

Definition union_wanted_saturating (dst src : list string) : list string :=
  match dst, src with
  | [], _ => []
  | _, [] => []
  | _, _ => sort_strings (fold_left (fun d n => if contains_str d n then d else d ++ [n]) src dst)
  end.

(** ** A node's state *)

(** Payload types and functions the modelled code passes through: the attempt
    records, the realisation lookups, the scheduling hint and its default; the
    acceptance of [StorePath::parse]; [parse_input_srcs] (the ATerm parser); the
    order in which a hash set is iterated. *)
Class SchedEnv : Type := {
  AttemptRecord : Type;
  RealisationLookup : Type;
  SchedHint : Type;
  SchedHint_default : SchedHint;
  store_path_ok : string -> bool;
  parse_input_srcs : list Z -> option (list string);
  iter : gset string -> list string;
}.

(** A hash set is iterated in some order, each member once; no ATerm is empty. *)
Class SchedEnvLaws (E : SchedEnv) : Prop := {
  iter_elements s : iter s ≡ₚ elements s;
  parse_input_srcs_nil : parse_input_srcs [] = None;
}.

Definition Uuid : Type := Z.

Record RetryState : Type := mkRetryState {
  count : Z;
  resubmit_cycles : Z;
  infra_count : Z;
  timeout_count : Z;
  last_infra_failure_at : option Z;
  exempt_infra_count : Z;
  failed_builders : gset string;
  failure_count : Z;
  poisoned_at : option Z;
  backoff_until : option Z;
}.

Definition RetryState_default : RetryState := mkRetryState 0 0 0 0 None 0 ∅ 0 None None.

Definition with_resubmit_cycles (n : Z) (r : RetryState) : RetryState :=
  mkRetryState (count r) n (infra_count r) (timeout_count r) (last_infra_failure_at r)
    (exempt_infra_count r) (failed_builders r) (failure_count r) (poisoned_at r) (backoff_until r).

Definition POISON_RESUBMIT_RETRY_LIMIT : Z := 2.

(** [domain::DerivationNode]. *)
Record DerivationNode : Type := mkDerivationNode {
  n_drv_path : string;
  n_drv_hash : string;
  n_pname : string;
  n_system : string;
  n_required_features : list string;
  n_output_names : list string;
  n_is_fixed_output : bool;
  n_expected_output_paths : list string;
  wanted_output_names : list string;
  explicitly_requested : bool;
  n_drv_content : list Z;
  is_content_addressed : bool;
  ca_modular_hash : option (list Z);
  n_needs_resolve : bool;
  n_version : option string;
  n_enable_parallel_building : option bool;
  n_enable_parallel_checking : option bool;
  n_prefer_local_build : option bool;
}.

Record DerivationEdge : Type := mkDerivationEdge {
  parent_drv_path : string;
  child_drv_path : string;
}.

Module EpochMintBand.
Inductive EpochMintBand : Type := Retriable | VerdictFree.
End EpochMintBand.

Module ResubmitDisposition.
Inductive ResubmitDisposition : Type :=
| MintsEpoch (band : EpochMintBand.EpochMintBand)
| InFlightVerdictPending
| ServedTerminal
| BoundedRefusal.
End ResubmitDisposition.

Module ReleaseOutcome.
Inductive ReleaseOutcome : Type :=
| Released (to : DerivationStatus)
| AlreadyReleased (st : DerivationStatus).
End ReleaseOutcome.

Section NodeState.
Context {E : SchedEnv}.

Record CaState : Type := mkCaState {
  is_ca : bool;
  needs_resolve : bool;
  modular_hash : option (list Z);
  pending_realisation_deps : list RealisationLookup;
  output_unchanged : bool;
}.

(** Fields copied from the submission and never changed. *)
Record NodeIdent : Type := mkNodeIdent {
  drv_hash : string;
  drv_path : string;
  pname : option string;
  version : option string;
  enable_parallel_building : option bool;
  enable_parallel_checking : option bool;
  prefer_local_build : option bool;
  system : string;
  output_names : list string;
  is_fixed_output : bool;
  expected_output_paths : list string;
}.

Record NodeFeatures : Type := mkNodeFeatures {
  required_features : list string;
  effective_features : list string;
  soft_features : list string;
}.

Record NodeLife : Type := mkNodeLife {
  status : DerivationStatus;
  assigned_executor : option string;
  exec_id : option Uuid;
  open_attempt_kind : option AttemptKind;
  claim_nonce : option Uuid;
  ready_at : option Z;
  running_since : option Z;
}.

Record NodeDemand : Type := mkNodeDemand {
  interested_builds : gset Uuid;
  wanted_by_build : gmap Uuid (list string);
  traceparent : string;
}.

Record NodeAterm : Type := mkNodeAterm {
  drv_content : list Z;
  drv_fetch_attempted : bool;
  input_srcs : list string;
}.

Record NodeRest : Type := mkNodeRest {
  ca : CaState;
  sched : SchedHint;
  attempt_history : list AttemptRecord;
  output_paths : list string;
  db_id : option Uuid;
  probed_generation : Z;
}.

Record DerivationState : Type := mkDerivationState {
  ident : NodeIdent;
  features : NodeFeatures;
  life : NodeLife;
  demand : NodeDemand;
  aterm : NodeAterm;
  retry : RetryState;
  rest : NodeRest;
}.

Definition st_status (s : DerivationState) : DerivationStatus := status (life s).

Definition with_features (f : NodeFeatures) (s : DerivationState) : DerivationState :=
  mkDerivationState (ident s) f (life s) (demand s) (aterm s) (retry s) (rest s).
Definition with_life (l : NodeLife) (s : DerivationState) : DerivationState :=
  mkDerivationState (ident s) (features s) l (demand s) (aterm s) (retry s) (rest s).
Definition with_demand (d : NodeDemand) (s : DerivationState) : DerivationState :=
  mkDerivationState (ident s) (features s) (life s) d (aterm s) (retry s) (rest s).
Definition with_aterm (a : NodeAterm) (s : DerivationState) : DerivationState :=
  mkDerivationState (ident s) (features s) (life s) (demand s) a (retry s) (rest s).
Definition with_retry (r : RetryState) (s : DerivationState) : DerivationState :=
  mkDerivationState (ident s) (features s) (life s) (demand s) (aterm s) r (rest s).

Definition with_interest (b : gset Uuid) (s : DerivationState) : DerivationState :=
  with_demand (mkNodeDemand b (wanted_by_build (demand s)) (traceparent (demand s))) s.
Definition with_wanted (w : gmap Uuid (list string)) (s : DerivationState) : DerivationState :=
  with_demand (mkNodeDemand (interested_builds (demand s)) w (traceparent (demand s))) s.
Definition with_traceparent (t : string) (s : DerivationState) : DerivationState :=
  with_demand (mkNodeDemand (interested_builds (demand s)) (wanted_by_build (demand s)) t) s.
Definition with_fetch_attempted (b : bool) (s : DerivationState) : DerivationState :=
  with_aterm (mkNodeAterm (drv_content (aterm s)) b (input_srcs (aterm s))) s.

(** [DerivationState::try_from_node]. *)
Definition try_from_node (node : DerivationNode) : option DerivationState :=
  if negb (store_path_ok (n_drv_path node)) then None
  else Some (mkDerivationState
    (mkNodeIdent (n_drv_hash node) (n_drv_path node)
       (if String.eqb (n_pname node) "" then None else Some (n_pname node))
       (n_version node) (n_enable_parallel_building node) (n_enable_parallel_checking node)
       (n_prefer_local_build node) (n_system node) (n_output_names node)
       (n_is_fixed_output node) (n_expected_output_paths node))
    (mkNodeFeatures (n_required_features node)
       (derive_features (n_is_fixed_output node) (n_required_features node)) [])
    (mkNodeLife DerivationStatus.Created None None None None None None)
    (mkNodeDemand ∅ ∅ "")
    (mkNodeAterm (n_drv_content node) false (default [] (parse_input_srcs (n_drv_content node))))
    RetryState_default
    (mkNodeRest (mkCaState (is_content_addressed node) (n_needs_resolve node)
                   (ca_modular_hash node) [] false)
       SchedHint_default [] [] None 0)).

Definition set_required_features (raw : list string) (s : DerivationState) : DerivationState :=
  with_features (mkNodeFeatures raw (derive_features (is_fixed_output (ident s)) raw)
                   (soft_features (features s))) s.

Definition set_soft_features (soft : list string) (s : DerivationState) : DerivationState :=
  with_features (mkNodeFeatures (required_features (features s))
                   (effective_features (features s)) soft) s.

(** [rehydrate_from_aterm]: [None] is [false], nothing written. *)
Definition rehydrate_from_aterm (bytes : list Z) (s : DerivationState) : option DerivationState :=
  match parse_input_srcs bytes with
  | None => None
  | Some srcs => Some (with_aterm (mkNodeAterm bytes (drv_fetch_attempted (aterm s)) srcs) s)
  end.

Definition clear_aterm (s : DerivationState) : DerivationState :=
  with_aterm (mkNodeAterm [] (drv_fetch_attempted (aterm s)) []) s.

Definition resubmit_disposition (s : DerivationState) : ResubmitDisposition.ResubmitDisposition :=
  match st_status s with
  | DerivationStatus.Created | DerivationStatus.Queued | DerivationStatus.Ready =>
      ResubmitDisposition.MintsEpoch EpochMintBand.VerdictFree
  | DerivationStatus.Cancelled | DerivationStatus.Failed | DerivationStatus.DependencyFailed =>
      ResubmitDisposition.MintsEpoch EpochMintBand.Retriable
  | DerivationStatus.Poisoned =>
      if resubmit_cycles (retry s) <? POISON_RESUBMIT_RETRY_LIMIT
      then ResubmitDisposition.MintsEpoch EpochMintBand.Retriable
      else ResubmitDisposition.BoundedRefusal
  | DerivationStatus.Assigned | DerivationStatus.Running =>
      ResubmitDisposition.InFlightVerdictPending
  | DerivationStatus.Completed | DerivationStatus.Skipped => ResubmitDisposition.ServedTerminal
  end.

Definition mints_epoch_on_resubmit (s : DerivationState) (explicit_root : bool) : bool :=
  match resubmit_disposition s with
  | ResubmitDisposition.MintsEpoch EpochMintBand.Retriable => true
  | ResubmitDisposition.MintsEpoch EpochMintBand.VerdictFree => explicit_root
  | ResubmitDisposition.InFlightVerdictPending | ResubmitDisposition.ServedTerminal
  | ResubmitDisposition.BoundedRefusal => false
  end.

(** [DerivationState::is_retriable_on_resubmit]. *)
Definition is_retriable_on_resubmit (s : DerivationState) : bool :=
  status_retriable_on_resubmit (st_status s)
  || (status_eqb (st_status s) DerivationStatus.Poisoned
      && (resubmit_cycles (retry s) <? POISON_RESUBMIT_RETRY_LIMIT)).

(** ** Transitions *)

(** [apply_validated_transition], with [now] the instant it reads. *)
Definition apply_validated_transition (now : Z) (from to : DerivationStatus) (s : DerivationState)
    : DerivationState :=
  if status_eqb from to then s
  else
    let l := life s in
    let leaves_terminal := is_terminal from && negb (is_terminal to) in
    with_life
      (mkNodeLife to (assigned_executor l)
         (if leaves_terminal then None else exec_id l)
         (if leaves_terminal then None else open_attempt_kind l)
         (if leaves_terminal then None else claim_nonce l)
         (if status_eqb to DerivationStatus.Ready then Some now else ready_at l)
         (if status_eqb to DerivationStatus.Running then Some now
          else if status_eqb from DerivationStatus.Running then None else running_since l)) s.

Definition transition (now : Z) (to : DerivationStatus) (s : DerivationState)
    : DerivationState + TransitionError :=
  match validate_transition (st_status s) to with
  | Some e => inr e
  | None => inl (apply_validated_transition now (st_status s) to s)
  end.

Definition transition_for_mint (now : Z) (to : DerivationStatus) (kind : AttemptKind)
    (s : DerivationState) : DerivationState + TransitionError :=
  match validate_transition_for_mint (st_status s) to kind with
  | Some e => inr e
  | None => inl (apply_validated_transition now (st_status s) to s)
  end.

Definition clear_attempt (s : DerivationState) : DerivationState :=
  let l := life s in
  with_life (mkNodeLife (status l) None None None None (ready_at l) (running_since l)) s.

(** A second transition after a first that may fail. *)
Definition and_then (r : DerivationState + TransitionError)
    (f : DerivationState -> DerivationState + TransitionError) : DerivationState + TransitionError :=
  match r with inl s => f s | inr e => inr e end.

Definition reset_to_ready (now : Z) (s : DerivationState) : DerivationState + TransitionError :=
  match st_status s with
  | DerivationStatus.Assigned =>
      and_then (transition now DerivationStatus.Ready s) (fun s => inl (clear_attempt s))
  | DerivationStatus.Running =>
      and_then (transition now DerivationStatus.Failed s) (fun s =>
      and_then (transition now DerivationStatus.Ready s) (fun s => inl (clear_attempt s)))
  | st => inr (TransitionError.Invalid st DerivationStatus.Ready
                 "reset_to_ready only valid from Assigned or Running")
  end.

Definition release_step (now : Z) (to : DerivationStatus) (kind : AttemptKind) (s : DerivationState)
    : DerivationState + TransitionError :=
  match validate_transition_for_release (st_status s) to kind with
  | Some e => inr e
  | None => inl (apply_validated_transition now (st_status s) to s)
  end.

Definition reset_after_attempt (now : Z) (kind : AttemptKind) (deps_completed : bool)
    (s : DerivationState)
    : (DerivationState * ReleaseOutcome.ReleaseOutcome) + TransitionError :=
  let already :=
    match kind with
    | AttemptKind.Build => status_eqb (st_status s) DerivationStatus.Ready
    | AttemptKind.Materialization =>
        status_eqb (st_status s) DerivationStatus.Ready
        || status_eqb (st_status s) DerivationStatus.Queued
    end in
  if already then inl (s, ReleaseOutcome.AlreadyReleased (st_status s))
  else match kind with
  | AttemptKind.Build =>
      match reset_to_ready now s with
      | inl s' => inl (s', ReleaseOutcome.Released DerivationStatus.Ready)
      | inr e => inr e
      end
  | AttemptKind.Materialization =>
      let target := if deps_completed then DerivationStatus.Ready else DerivationStatus.Queued in
      let r :=
        match st_status s with
        | DerivationStatus.Assigned => release_step now target kind s
        | DerivationStatus.Running =>
            and_then (release_step now DerivationStatus.Failed kind s)
              (release_step now target kind)
        | st => inr (TransitionError.Invalid st target
                       "reset_after_attempt only valid from Assigned or Running")
        end in
      match r with
      | inl s' => inl (clear_attempt s', ReleaseOutcome.Released target)
      | inr e => inr e
      end
  end.

Definition ensure_running (now : Z) (s : DerivationState) : DerivationState * bool :=
  if status_eqb (st_status s) DerivationStatus.Assigned then
    match transition now DerivationStatus.Running s with
    | inl s' => (s', true)
    | inr _ => (s, false)
    end
  else (s, true).

End NodeState.

(** releasing an attempt is exact.  From [Assigned] or [Running] it always
    succeeds: the node lands in [Ready], or for a materialization whose
    dependencies are not done in [Queued], its four attempt fields are cleared,
    the running clock stops, and nothing else of the node changes.  A node already
    released is left as it is and reported so; from any other state the release is
    refused.  A refusal or a no-op never changes the node. *)
Theorem reset_after_attempt_exact {E : SchedEnv} now kind (deps_completed : bool) (s : DerivationState) :
  let target := match kind with
    | AttemptKind.Build => DerivationStatus.Ready
    | AttemptKind.Materialization => if deps_completed then DerivationStatus.Ready else DerivationStatus.Queued
    end in
  match st_status s with
  | DerivationStatus.Assigned | DerivationStatus.Running =>
      exists s', reset_after_attempt now kind deps_completed s = inl (s', ReleaseOutcome.Released target) /\
        life s' = mkNodeLife target None None None None
          (if status_eqb target DerivationStatus.Ready then Some now else ready_at (life s))
          (if status_eqb (st_status s) DerivationStatus.Running then None else running_since (life s)) /\
        ident s' = ident s /\ features s' = features s /\ demand s' = demand s /\
        aterm s' = aterm s /\ retry s' = retry s /\ rest s' = rest s
  | DerivationStatus.Ready =>
      reset_after_attempt now kind deps_completed s = inl (s, ReleaseOutcome.AlreadyReleased DerivationStatus.Ready)
  | DerivationStatus.Queued =>
      match kind with
      | AttemptKind.Materialization => reset_after_attempt now kind deps_completed s
          = inl (s, ReleaseOutcome.AlreadyReleased DerivationStatus.Queued)
      | AttemptKind.Build => exists e, reset_after_attempt now kind deps_completed s = inr e
      end
  | _ => exists e, reset_after_attempt now kind deps_completed s = inr e
  end.
Proof.
  destruct s as [idn ft [st ex eid ok nonce ra rs] dm at_ rt re].
  destruct st, kind, deps_completed; cbn; try done; eexists; split_and?; reflexivity.
Qed.
