(* ===== verification/SchedDag.v ===== *)
(** * Scheduler: the derivation DAG

    [src/rio-scheduler/src/dag/mod.rs]: the global DAG of derivations, its two
    edge maps and path index, [merge] with its cycle check and its rollback, the
    readiness queries, the topological order, the cutoff cascade, and the
    removal of a build's interest.

    A hash set or map of the source is a [gset] or [gmap]; where the code
    iterates one, the order is [iter] of the environment class.  The worklist
    loops carry a fuel argument computed from the DAG; [SchedCycle] and
    [SchedWalk] prove it suffices. *)

From S2P Require Import Prelude SchedState.

#[local] Open Scope string_scope.
#[local] Open Scope list_scope.
#[local] Open Scope Z_scope.

Definition MAX_CASCADE_NODES : nat := 1000.

Section Dag.
Context {E : SchedEnv}.

Record DerivationDag : Type := mkDerivationDag {
  nodes : gmap string DerivationState;
  children : gmap string (gset string);
  parents : gmap string (gset string);
  path_to_hash : gmap string string;
  dag_soft_features : list string;
  resubmit_floors : gmap string Z;
}.

Definition DerivationDag_new : DerivationDag := mkDerivationDag ∅ ∅ ∅ ∅ [] ∅.

Definition with_nodes (n : gmap string DerivationState) (d : DerivationDag) : DerivationDag :=
  mkDerivationDag n (children d) (parents d) (path_to_hash d) (dag_soft_features d)
    (resubmit_floors d).
Definition with_edges (c p : gmap string (gset string)) (d : DerivationDag) : DerivationDag :=
  mkDerivationDag (nodes d) c p (path_to_hash d) (dag_soft_features d) (resubmit_floors d).
Definition with_index (n : gmap string DerivationState) (i : gmap string string)
    (d : DerivationDag) : DerivationDag :=
  mkDerivationDag n (children d) (parents d) i (dag_soft_features d) (resubmit_floors d).
Definition with_floors (f : gmap string Z) (d : DerivationDag) : DerivationDag :=
  mkDerivationDag (nodes d) (children d) (parents d) (path_to_hash d) (dag_soft_features d) f.

(** The set stored under a key, empty when the key is absent. *)
Definition edge_set (m : gmap string (gset string)) (k : string) : gset string :=
  default ∅ (m !! k).

Definition note_resubmit_floor (h : string) (floor : Z) (d : DerivationDag) : DerivationDag :=
  with_floors (<[h := floor]> (resubmit_floors d)) d.

Definition apply_soft_features (d : DerivationDag) (s : DerivationState) : DerivationState :=
  match dag_soft_features d with
  | [] => s
  | softs =>
      let soft := List.filter (contains_str softs) (required_features (features s)) in
      let hard := List.filter (fun f => negb (contains_str softs f)) (required_features (features s)) in
      set_soft_features soft (set_required_features hard s)
  end.

Definition insert_recovered_node (s : DerivationState) (d : DerivationDag) : DerivationDag :=
  let h := drv_hash (ident s) in
  match nodes d !! h with
  | Some _ => d
  | None =>
      let s := apply_soft_features d s in
      with_index (<[h := s]> (nodes d)) (<[drv_path (ident s) := h]> (path_to_hash d)) d
  end.

(** [entry(k).or_default().insert(v)]. *)
Definition edge_insert (m : gmap string (gset string)) (k v : string) : gmap string (gset string) :=
  <[k := {[v]} ∪ edge_set m k]> m.

Definition insert_recovered_edge (parent child : string) (d : DerivationDag) : DerivationDag :=
  with_edges (edge_insert (children d) parent child) (edge_insert (parents d) child parent) d.

(** ** Merge *)

Inductive DagError : Type :=
| CycleDetected
| InvalidDrvPath (path : string).

Record MergeResult : Type := mkMergeResult {
  newly_inserted : gset string;
  new_edges : list (string * string);
  interest_added : list string;
  reset_on_resubmit : list string;
  removed_retriable : list (string * DerivationState);
  traceparent_upgraded : list string;
  contributions_recorded : list (string * option (list string));
  floors_consumed : list (string * Z);
  drv_content_backfilled : list (string * bool);
}.

Definition MergeResult_empty : MergeResult := mkMergeResult ∅ [] [] [] [] [] [] [] [].

(** *** Rollback *)

(** [get_mut(k)], remove the member, drop an emptied set. *)
Definition edge_remove_drop (m : gmap string (gset string)) (k v : string)
    : gmap string (gset string) :=
  match m !! k with
  | None => m
  | Some s =>
      let s' := s ∖ {[v]} in
      if bool_decide (s' = ∅) then delete k m else <[k := s']> m
  end.

Definition rollback_edge (d : DerivationDag) (e : string * string) : DerivationDag :=
  with_edges (edge_remove_drop (children d) e.1 e.2) (edge_remove_drop (parents d) e.2 e.1) d.

(** Remove a newly inserted node; scrub its edge entries unless a prior node is
    being restored under the same hash. *)
Definition rollback_node (restoring : gset string) (d : DerivationDag) (h : string) : DerivationDag :=
  let d :=
    match nodes d !! h with
    | Some s => with_index (delete h (nodes d)) (delete (drv_path (ident s)) (path_to_hash d)) d
    | None => d
    end in
  if bool_decide (h ∈ restoring) then d
  else with_edges (delete h (children d)) (delete h (parents d)) d.

Definition rollback_restore (d : DerivationDag) (hs : string * DerivationState) : DerivationDag :=
  with_index (<[hs.1 := hs.2]> (nodes d))
    (<[drv_path (ident hs.2) := hs.1]> (path_to_hash d)) d.

Definition update_node (h : string) (f : DerivationState -> DerivationState) (d : DerivationDag)
    : DerivationDag :=
  match nodes d !! h with
  | Some s => with_nodes (<[h := f s]> (nodes d)) d
  | None => d
  end.

Definition rollback_interest (build_id : Uuid) (d : DerivationDag) (h : string) : DerivationDag :=
  update_node h (fun s => with_interest (interested_builds (demand s) ∖ {[build_id]}) s) d.

Definition rollback_traceparent (d : DerivationDag) (h : string) : DerivationDag :=
  update_node h (with_traceparent "") d.

Definition rollback_content (restoring : gset string) (d : DerivationDag) (e : string * bool)
    : DerivationDag :=
  if bool_decide (e.1 ∈ restoring) then d
  else update_node e.1 (fun s => with_fetch_attempted e.2 (clear_aterm s)) d.

Definition rollback_contribution (build_id : Uuid) (restoring : gset string) (d : DerivationDag)
    (e : string * option (list string)) : DerivationDag :=
  if bool_decide (e.1 ∈ restoring) then d
  else update_node e.1 (fun s =>
    match e.2 with
    | Some w => with_wanted (<[build_id := w]> (wanted_by_build (demand s))) s
    | None => with_wanted (delete build_id (wanted_by_build (demand s))) s
    end) d.

Definition rollback_merge (r : MergeResult) (build_id : Uuid) (d : DerivationDag) : DerivationDag :=
  let d := fold_left (fun d e => with_floors (<[e.1 := e.2]> (resubmit_floors d)) d)
             (floors_consumed r) d in
  let d := fold_left rollback_edge (new_edges r) d in
  let restoring : gset string := list_to_set (List.map fst (removed_retriable r)) in
  let d := fold_left (rollback_node restoring) (iter (newly_inserted r)) d in
  let d := fold_left rollback_restore (removed_retriable r) d in
  let d := fold_left (rollback_interest build_id) (interest_added r) d in
  let d := fold_left rollback_traceparent (traceparent_upgraded r) d in
  let d := fold_left (rollback_content restoring) (drv_content_backfilled r) d in
  fold_left (rollback_contribution build_id restoring) (rev (contributions_recorded r)) d.

(** *** The node loop *)

(** An existing node gains the build's interest, content, contribution and trace. *)
Definition merge_existing (build_id : Uuid) (tp : string) (node : DerivationNode) (h : string)
    (s : DerivationState) (r : MergeResult) : DerivationState * MergeResult :=
  let gains := bool_decide (build_id ∉ interested_builds (demand s)) in
  let s1 := with_interest ({[build_id]} ∪ interested_builds (demand s)) s in
  let '(s2, backfilled) :=
    match drv_content (aterm s1), n_drv_content node with
    | [], _ :: _ =>
        match rehydrate_from_aterm (n_drv_content node) s1 with
        | Some s' => (with_fetch_attempted false s', [(h, drv_fetch_attempted (aterm s1))])
        | None => (s1, [])
        end
    | _, _ => (s1, [])
    end in
  let prior := wanted_by_build (demand s2) !! build_id in
  let contribution :=
    match prior with
    | Some w => union_wanted_saturating w (wanted_output_names node)
    | None => wanted_output_names node
    end in
  let s3 := with_wanted (<[build_id := contribution]> (wanted_by_build (demand s2))) s2 in
  let upgrades := String.eqb (traceparent (demand s3)) "" && negb (String.eqb tp "") in
  let s4 := if upgrades then with_traceparent tp s3 else s3 in
  (s4, mkMergeResult (newly_inserted r) (new_edges r)
         (interest_added r ++ if gains then [h] else [])
         (reset_on_resubmit r) (removed_retriable r)
         (traceparent_upgraded r ++ if upgrades then [h] else [])
         (contributions_recorded r ++ [(h, prior)])
         (floors_consumed r) (drv_content_backfilled r ++ backfilled)).

(** What a fresh insert carries over from the node it replaces. *)
Definition Carry : Type := gset Uuid * Z * gmap Uuid (list string).

(** A fresh node from the submission, with the carried or floored cycle. *)
Definition merge_fresh (build_id : Uuid) (tp : string) (node : DerivationNode) (h : string)
    (prior : option Carry) (s : DerivationState) (d : DerivationDag) (r : MergeResult)
    : DerivationDag * MergeResult :=
  let s := apply_soft_features d s in
  let s := with_interest ({[build_id]} ∪ interested_builds (demand s)) s in
  let s := with_wanted (<[build_id := wanted_output_names node]> (wanted_by_build (demand s))) s in
  let '(s, floors, reset, consumed) :=
    match prior with
    | Some (interest, cycles, wanted) =>
        let s := with_interest (interested_builds (demand s) ∪ interest) s in
        let s := with_retry (with_resubmit_cycles (u32_wrapping_add cycles 1) (retry s)) s in
        (with_wanted (wanted_by_build (demand s) ∪ wanted) s, resubmit_floors d, [h], [])
    | None =>
        match resubmit_floors d !! h with
        | Some floor =>
            (with_retry (with_resubmit_cycles floor (retry s)) s,
             delete h (resubmit_floors d), [h], [(h, floor)])
        | None => (s, resubmit_floors d, [], [])
        end
    end in
  let s := with_traceparent tp s in
  (mkDerivationDag (<[h := s]> (nodes d)) (children d) (parents d)
     (<[drv_path (ident s) := h]> (path_to_hash d)) (dag_soft_features d) floors,
   mkMergeResult ({[h]} ∪ newly_inserted r) (new_edges r) (interest_added r)
     (reset_on_resubmit r ++ reset) (removed_retriable r) (traceparent_upgraded r)
     (contributions_recorded r) (floors_consumed r ++ consumed) (drv_content_backfilled r)).

(** The resubmit-reset gate: remove a mintable node and carry its demand. *)
Definition merge_reset (is_root : bool) (h : string) (d : DerivationDag) (r : MergeResult)
    : DerivationDag * MergeResult * option Carry :=
  match nodes d !! h with
  | Some old =>
      if bool_decide (h ∉ newly_inserted r) && mints_epoch_on_resubmit old is_root
      then (with_nodes (delete h (nodes d)) d,
            mkMergeResult (newly_inserted r) (new_edges r) (interest_added r)
              (reset_on_resubmit r) (removed_retriable r ++ [(h, old)])
              (traceparent_upgraded r) (contributions_recorded r) (floors_consumed r)
              (drv_content_backfilled r),
            Some (interested_builds (demand old), resubmit_cycles (retry old),
                  wanted_by_build (demand old)))
      else (d, r, None)
  | None => (d, r, None)
  end.

(** One iteration; [true] reports an invalid path. *)
Definition merge_node (build_id : Uuid) (tp : string) (submission_children : gset string)
    (d : DerivationDag) (r : MergeResult) (node : DerivationNode)
    : DerivationDag * MergeResult * bool :=
  let h := n_drv_hash node in
  let is_root := bool_decide (n_drv_path node ∉ submission_children) in
  let '(d, r, prior) := merge_reset is_root h d r in
  match nodes d !! h with
  | Some existing =>
      let '(s, r) := merge_existing build_id tp node h existing r in
      (with_nodes (<[h := s]> (nodes d)) d, r, false)
  | None =>
      match try_from_node node with
      | None => (d, r, true)
      | Some s => let '(d, r) := merge_fresh build_id tp node h prior s d r in (d, r, false)
      end
  end.

Fixpoint merge_nodes (build_id : Uuid) (tp : string) (submission_children : gset string)
    (d : DerivationDag) (r : MergeResult) (ns : list DerivationNode)
    : DerivationDag * MergeResult * option string :=
  match ns with
  | [] => (d, r, None)
  | n :: rest =>
      match merge_node build_id tp submission_children d r n with
      | (d, r, true) => (d, r, Some (n_drv_path n))
      | (d, r, false) => merge_nodes build_id tp submission_children d r rest
      end
  end.

(** *** The edge loop *)

Definition merge_edge (d : DerivationDag) (r : MergeResult) (e : DerivationEdge)
    : DerivationDag * MergeResult :=
  match path_to_hash d !! parent_drv_path e, path_to_hash d !! child_drv_path e with
  | Some p, Some c =>
      let inserted := bool_decide (c ∉ edge_set (children d) p) in
      (with_edges (edge_insert (children d) p c) (edge_insert (parents d) c p) d,
       if inserted then
         mkMergeResult (newly_inserted r) (new_edges r ++ [(p, c)]) (interest_added r)
           (reset_on_resubmit r) (removed_retriable r) (traceparent_upgraded r)
           (contributions_recorded r) (floors_consumed r) (drv_content_backfilled r)
       else r)
  | _, _ => (d, r)
  end.

Fixpoint merge_edges (d : DerivationDag) (r : MergeResult) (es : list DerivationEdge)
    : DerivationDag * MergeResult :=
  match es with
  | [] => (d, r)
  | e :: rest => let '(d, r) := merge_edge d r e in merge_edges d r rest
  end.

(** *** The cycle check *)

Record Frame : Type := mkFrame {
  f_node : string;
  f_children : list string;
  f_next : nat;
}.

Definition children_of (d : DerivationDag) (n : string) : list string :=
  iter (edge_set (children d) n).

(** Three-colour iterative DFS: 1 is gray, 2 is black.  The head of the list is
    the top of the stack.  [None]: the fuel ran out. *)
Fixpoint dfs_loop (fuel : nat) (d : DerivationDag) (stack : list Frame) (color : gmap string Z)
    : option (bool * gmap string Z) :=
  match fuel with
  | O => None
  | S fuel =>
      match stack with
      | [] => Some (false, color)
      | frame :: below =>
          match f_children frame !! f_next frame with
          | Some child =>
              let frame' := mkFrame (f_node frame) (f_children frame) (S (f_next frame)) in
              match color !! child with
              | Some 1 => Some (true, color)
              | Some 2 => dfs_loop fuel d (frame' :: below) color
              | _ =>
                  dfs_loop fuel d (mkFrame child (children_of d child) 0 :: frame' :: below)
                    (<[child := 1]> color)
              end
          | None => dfs_loop fuel d below (<[f_node frame := 2]> color)
          end
      end
  end.

(** Two steps per node and two per edge bound the search. *)
Definition dfs_weight (d : DerivationDag) (n : string) : nat :=
  (2 + 2 * size (edge_set (children d) n))%nat.

Definition dfs_universe (d : DerivationDag) : gset string := dom (children d).

Definition sum_weight (d : DerivationDag) (l : list string) : nat :=
  sum_list_with (dfs_weight d) l.

Definition dfs_fuel (d : DerivationDag) : nat :=
  (3 + sum_weight d (elements (dfs_universe d)))%nat.

Definition has_cycle_from (d : DerivationDag) (start : string) (color : gmap string Z)
    : option (bool * gmap string Z) :=
  match color !! start with
  | Some 1 => Some (true, color)
  | Some 2 => Some (false, color)
  | _ => dfs_loop (dfs_fuel d) d [mkFrame start (children_of d start) 0] (<[start := 1]> color)
  end.

Fixpoint cycle_check (d : DerivationDag) (starts : list string) (color : gmap string Z)
    : option bool :=
  match starts with
  | [] => Some false
  | s :: rest =>
      match has_cycle_from d s color with
      | None => None
      | Some (true, _) => Some true
      | Some (false, color) => cycle_check d rest color
      end
  end.

Definition dfs_starts (r : MergeResult) : list string :=
  iter (newly_inserted r)
  ++ List.filter (fun p => negb (bool_decide (p ∈ newly_inserted r))) (List.map fst (new_edges r)).

(** *** [merge]: the new DAG with the outcome; [None] only if the search ran out
    of fuel. *)
Definition merge (build_id : Uuid) (ns : list DerivationNode) (es : list DerivationEdge)
    (tp : string) (d : DerivationDag) : option (DerivationDag * (MergeResult + DagError)) :=
  let submission_children : gset string := list_to_set (List.map child_drv_path es) in
  match merge_nodes build_id tp submission_children d MergeResult_empty ns with
  | (d, r, Some path) => Some (rollback_merge r build_id d, inr (InvalidDrvPath path))
  | (d, r, None) =>
      let '(d, r) := merge_edges d r es in
      match cycle_check d (dfs_starts r) ∅ with
      | None => None
      | Some true => Some (rollback_merge r build_id d, inr CycleDetected)
      | Some false => Some (d, inl r)
      end
  end.

End Dag.
