(* ===== verification/SchedCycle.v ===== *)
(** * Scheduler: merge keeps the DAG acyclic

    The iterative three-colour search terminates within its fuel, reports a
    cycle only where there is one and misses none, and [merge] therefore accepts
    exactly the submissions that keep the graph acyclic. *)

From S2P Require Import Prelude SchedState SchedDag.

#[local] Arguments dfs_weight : simpl never.

Section Cycle.
Context {E : SchedEnv} `{!SchedEnvLaws E}.
Implicit Types (d : DerivationDag) (color : gmap string Z) (stack : list Frame).

Definition edge d (p c : string) : Prop := c ∈ edge_set (children d) p.
Definition acyclic d : Prop := forall n, ~ tc (edge d) n n.

Lemma children_of_elem d n c : c ∈ children_of d n <-> edge d n c.
Proof. unfold children_of, edge. by rewrite iter_elements, elem_of_elements. Qed.

Lemma children_of_length d n : length (children_of d n) = size (edge_set (children d) n).
Proof. unfold children_of. by rewrite iter_elements. Qed.

Lemma edge_set_absent (m : gmap string (gset string)) k : k ∉ dom m -> edge_set m k = ∅.
Proof. intros H%not_elem_of_dom. unfold edge_set. by rewrite H. Qed.

(** ** Termination *)

Definition white color (n : string) : bool :=
  match color !! n with Some 1 | Some 2 => false | _ => true end.

Definition frame_weight (f : Frame) : nat := (1 + 2 * (length (f_children f) - f_next f))%nat.

Definition potential d stack color : nat :=
  (sum_weight d (List.filter (white color) (elements (dfs_universe d)))
   + sum_list_with frame_weight stack)%nat.

Lemma sum_weight_drop d (f g : string -> bool) l x :
  (forall y, g y = true -> f y = true) -> f x = true -> g x = false ->
  (sum_weight d (List.filter g l) + (if bool_decide (x ∈ l) then dfs_weight d x else 0)
   <= sum_weight d (List.filter f l))%nat.
Proof.
  intros Hgf Hx Hgx. unfold sum_weight.
  induction l as [|y l IH]; [done|]. cbn [List.filter].
  assert (Hy : g y = true -> f y = true) by auto.
  destruct (decide (x = y)) as [<-|Hne].
  - rewrite Hgx, Hx. cbn [sum_list_with]. rewrite bool_decide_eq_true_2 by set_solver.
    revert IH. case_bool_decide; lia.
  - replace (bool_decide (x ∈ y :: l)) with (bool_decide (x ∈ l))
      by (apply bool_decide_ext; set_solver).
    destruct (g y), (f y); cbn [sum_list_with]; try lia; by discriminate Hy.
Qed.

Lemma white_mono color x v y :
  v = 1 \/ v = 2 -> white (<[x := v]> color) y = true -> white color y = true.
Proof.
  intros Hv. unfold white. destruct (decide (x = y)) as [->|];
    [rewrite lookup_insert_eq; by destruct Hv; subst|by rewrite lookup_insert_ne].
Qed.

Lemma white_marked color x v : v = 1 \/ v = 2 -> white (<[x := v]> color) x = false.
Proof. intros Hv. unfold white. rewrite lookup_insert_eq. by destruct Hv; subst. Qed.

Lemma sum_weight_le d (f g : string -> bool) l :
  (forall y, g y = true -> f y = true) ->
  (sum_weight d (List.filter g l) <= sum_weight d (List.filter f l))%nat.
Proof.
  intros Hgf. unfold sum_weight. induction l as [|y l IH]; [done|]. cbn [List.filter].
  pose proof (Hgf y). destruct (g y), (f y); cbn [sum_list_with]; try lia; by discriminate H.
Qed.

(** Marking a white node pays for the frame it opens. *)
Lemma weight_descend d color x :
  white color x = true ->
  (sum_weight d (List.filter (white (<[x := 1%Z]> color)) (elements (dfs_universe d)))
   + frame_weight (mkFrame x (children_of d x) 0)
   <= sum_weight d (List.filter (white color) (elements (dfs_universe d))) + 1)%nat.
Proof.
  intros Hw. pose proof (sum_weight_drop d (white color) (white (<[x := 1%Z]> color))
    (elements (dfs_universe d)) x) as H.
  specialize (H (fun y => white_mono color x 1 y (or_introl eq_refl)) Hw
    (white_marked color x 1 (or_introl eq_refl))).
  unfold frame_weight. simpl. rewrite children_of_length. revert H.
  case_bool_decide as Hin; unfold dfs_weight; [lia|].
  rewrite elem_of_elements in Hin. unfold dfs_universe in Hin.
  rewrite (edge_set_absent _ _ Hin), size_empty. lia.
Qed.

Lemma frame_advance f :
  (f_next f < length (f_children f))%nat ->
  (frame_weight (mkFrame (f_node f) (f_children f) (S (f_next f))) + 2 = frame_weight f)%nat.
Proof. unfold frame_weight. simpl. lia. Qed.

Lemma dfs_loop_total fuel d stack color :
  (potential d stack color < fuel)%nat -> is_Some (dfs_loop fuel d stack color).
Proof.
  revert stack color. induction fuel as [|fuel IH]; intros stack color Hf; [lia|].
  cbn [dfs_loop]. destruct stack as [|f below]; [by eexists|].
  unfold potential in Hf. cbn [sum_list_with] in Hf.
  destruct (f_children f !! f_next f) as [child|] eqn:Ec.
  - apply lookup_lt_Some, frame_advance in Ec.
    assert (Hdown : white color child = true -> is_Some (dfs_loop fuel d
      (mkFrame child (children_of d child) 0
       :: mkFrame (f_node f) (f_children f) (S (f_next f)) :: below) (<[child := 1%Z]> color))).
    { intros Hw. apply IH. unfold potential. cbn [sum_list_with].
      pose proof (weight_descend d color child Hw). lia. }
    unfold white in Hdown. destruct (color !! child) as [[|[[]|[]|]|]|]; try by apply Hdown.
    + apply IH. unfold potential. cbn [sum_list_with]. lia.
    + by eexists.
  - apply IH. unfold potential.
    pose proof (sum_weight_le d (white color) (white (<[f_node f := 2%Z]> color))
      (elements (dfs_universe d)) (fun y => white_mono color _ 2 y (or_intror eq_refl))).
    unfold frame_weight in Hf at 1. lia.
Qed.

Lemma has_cycle_from_total d start color : is_Some (has_cycle_from d start color).
Proof.
  unfold has_cycle_from.
  assert (white color start = true -> is_Some (dfs_loop (dfs_fuel d) d
    [mkFrame start (children_of d start) 0] (<[start := 1]> color))) as Hd.
  { intros Hw. apply dfs_loop_total. unfold potential, dfs_fuel. cbn [sum_list_with].
    pose proof (weight_descend d color start Hw).
    assert (sum_weight d (List.filter (white color) (elements (dfs_universe d)))
      <= sum_weight d (elements (dfs_universe d)))%nat; [|lia].
    clear. unfold sum_weight. induction (elements (dfs_universe d)) as [|y l IH]; [done|].
    cbn [List.filter]. destruct (white color y); cbn [sum_list_with]; lia. }
  unfold white in Hd. destruct (color !! start) as [[|[[]|[]|]|]|]; try by apply Hd.
  all: by eexists.
Qed.

Lemma cycle_check_total d starts color : is_Some (cycle_check d starts color).
Proof.
  revert color. induction starts as [|s rest IH]; intros color; simpl; [by eexists|].
  destruct (has_cycle_from_total d s color) as [[[] color'] ->]; [by eexists|]. apply IH.
Qed.

(** ** Correctness *)

(** Finished nodes: closed under edges and on no cycle. *)
Record black_ok d color : Prop := {
  bo_colors : forall n v, color !! n = Some v -> v = 1 \/ v = 2;
  bo_closed : forall n c, color !! n = Some 2 -> edge d n c -> color !! c = Some 2;
  bo_acyclic : forall n, color !! n = Some 2 -> ~ tc (edge d) n n;
}.

(** The frames below [above] (the node just entered from the first frame). *)
Fixpoint frames_ok d color (above : option string) stack : Prop :=
  match stack with
  | [] => True
  | f :: below =>
      f_children f = children_of d (f_node f) /\
      (forall i c, (i < f_next f)%nat -> f_children f !! i = Some c ->
         color !! c = Some 2 \/ above = Some c) /\
      match below with [] => True | g :: _ => edge d (f_node g) (f_node f) end /\
      frames_ok d color (Some (f_node f)) below
  end.

Record dfs_inv d stack color : Prop := {
  di_black : black_ok d color;
  di_gray : forall n, color !! n = Some 1 <-> n ∈ List.map f_node stack;
  di_nodup : NoDup (List.map f_node stack);
  di_frames : frames_ok d color None stack;
}.

Lemma black_reach d color n m :
  black_ok d color -> color !! n = Some 2 -> rtc (edge d) n m -> color !! m = Some 2.
Proof. intros Hb Hn Hr. induction Hr; [done|]. apply IHHr. by eapply bo_closed. Qed.

Lemma frames_reach d color above f below n :
  frames_ok d color above (f :: below) -> n ∈ List.map f_node (f :: below) ->
  rtc (edge d) n (f_node f).
Proof.
  revert above f. induction below as [|g below IH]; intros above f Hf Hn.
  - apply list_elem_of_singleton in Hn as ->. apply rtc_refl.
  - cbn [List.map] in Hn. apply elem_of_cons in Hn as [->|Hn]; [apply rtc_refl|].
    destruct Hf as (_ & _ & He & Hg). eapply rtc_r; [|exact He]. by eapply IH.
Qed.

Lemma frames_recolor d color color' above stack :
  (forall n, color !! n = Some 2 -> color' !! n = Some 2) ->
  frames_ok d color above stack -> frames_ok d color' above stack.
Proof.
  intros Hc. revert above. induction stack as [|f below IH]; [done|].
  intros above (Hch & Hp & He & Hb). split_and!; auto. intros i c Hi Hl.
  destruct (Hp i c Hi Hl); auto.
Qed.

(** Leaving the top frame: everything it pointed at is finished. *)
Lemma frames_below d color above f below :
  color !! f_node f = Some 2 ->
  frames_ok d color above (f :: below) -> frames_ok d color None below.
Proof.
  intros Hf (_ & _ & _ & Hb). destruct below as [|g below]; [done|].
  destruct Hb as (Hch & Hp & He & Hb). split_and!; auto. intros i c Hi Hl. left.
  destruct (Hp i c Hi Hl) as [|[= <-]]; done.
Qed.

Lemma black_finish d color x :
  black_ok d color -> color !! x <> Some 2 ->
  (forall c, edge d x c -> color !! c = Some 2) ->
  black_ok d (<[x := 2]> color).
Proof.
  intros Hb Hx Hc. split.
  - intros n v. destruct (decide (x = n)) as [->|];
      [rewrite lookup_insert_eq; intros [= <-]; by right|
       rewrite lookup_insert_ne by done; by eapply bo_colors].
  - intros n c. destruct (decide (x = n)) as [->|].
    + intros _ He. destruct (decide (n = c)) as [->|];
        [apply lookup_insert_eq|rewrite lookup_insert_ne by done; auto].
    + rewrite lookup_insert_ne by done. intros Hn He.
      destruct (decide (x = c)) as [->|]; [apply lookup_insert_eq|].
      rewrite lookup_insert_ne by done. by eapply bo_closed.
  - intros n Hn Ht. destruct (decide (x = n)) as [->|].
    + apply Hx. apply tc_rtc in Ht as Hr.
      assert (exists c, edge d n c /\ rtc (edge d) c n) as (c & He & Hcn).
      { inversion Ht; subst; [exists n; split; [done|apply rtc_refl]|].
        eexists. split; [done|by apply tc_rtc]. }
      eapply (black_reach d color c n); eauto.
    + rewrite lookup_insert_ne in Hn by done. by eapply bo_acyclic.
Qed.

Lemma black_descend d color x :
  black_ok d color -> color !! x <> Some 2 -> black_ok d (<[x := 1]> color).
Proof.
  intros Hb Hx. split.
  - intros n v. destruct (decide (x = n)) as [->|];
      [rewrite lookup_insert_eq; intros [= <-]; by left|
       rewrite lookup_insert_ne by done; by eapply bo_colors].
  - intros n c Hn He. destruct (decide (x = n)) as [->|]; [by rewrite lookup_insert_eq in Hn|].
    rewrite lookup_insert_ne in Hn by done. pose proof (bo_closed _ _ Hb n c Hn He) as Hcb.
    rewrite lookup_insert_ne; [done|]. by intros ->.
  - intros n Hn. destruct (decide (x = n)) as [->|]; [by rewrite lookup_insert_eq in Hn|].
    rewrite lookup_insert_ne in Hn by done. by eapply bo_acyclic.
Qed.

Lemma dfs_inv_pop d f below color :
  dfs_inv d (f :: below) color -> f_children f !! f_next f = None ->
  dfs_inv d below (<[f_node f := 2]> color).
Proof.
  intros [Hb Hg Hn Hf] Hl. cbn [List.map] in *. apply NoDup_cons in Hn as [Hnf Hn].
  assert (color !! f_node f = Some 1) as H1 by (apply Hg; set_solver).
  pose proof Hf as (Hch & Hp & _ & _). split.
  - apply black_finish; [done|by rewrite H1|]. intros c He.
    apply children_of_elem in He. rewrite <- Hch in He.
    apply list_elem_of_lookup in He as [i Hi].
    destruct (Hp i c) as [|]; try done.
    apply lookup_lt_Some in Hi. apply lookup_ge_None in Hl. lia.
  - intros n. destruct (decide (f_node f = n)) as [<-|].
    + rewrite lookup_insert_eq. split; [done|]. by intros ?.
    + rewrite lookup_insert_ne by done. rewrite Hg. set_solver.
  - done.
  - eapply frames_below; [apply lookup_insert_eq|]. eapply frames_recolor; [|exact Hf].
    intros n Hn2. destruct (decide (f_node f = n)) as [<-|]; [apply lookup_insert_eq|].
    by rewrite lookup_insert_ne.
Qed.

Lemma dfs_inv_skip d f below color child :
  dfs_inv d (f :: below) color -> f_children f !! f_next f = Some child ->
  color !! child = Some 2 ->
  dfs_inv d (mkFrame (f_node f) (f_children f) (S (f_next f)) :: below) color.
Proof.
  intros [Hb Hg Hn Hf] Hl Hc. split; try done.
  destruct Hf as (Hch & Hp & He & Hbel). split_and!; try done. cbn [f_next f_children].
  intros i c Hi Hil. destruct (decide (i = f_next f)) as [->|]; [left; congruence|].
  apply (Hp i); [lia|done].
Qed.

Lemma dfs_inv_descend d f below color child :
  dfs_inv d (f :: below) color -> f_children f !! f_next f = Some child ->
  white color child = true ->
  dfs_inv d (mkFrame child (children_of d child) 0
    :: mkFrame (f_node f) (f_children f) (S (f_next f)) :: below) (<[child := 1]> color).
Proof.
  intros [Hb Hg Hn Hf] Hl Hw.
  assert (color !! child <> Some 1 /\ color !! child <> Some 2) as [H1 H2].
  { unfold white in Hw. split; intros E0; by rewrite E0 in Hw. }
  destruct Hf as (Hch & Hp & He & Hbel). split.
  - by apply black_descend.
  - intros n. cbn [List.map f_node]. destruct (decide (child = n)) as [<-|].
    + rewrite lookup_insert_eq. split; [intros _; apply list_elem_of_here|done].
    + rewrite lookup_insert_ne by done. rewrite Hg. cbn [List.map]. set_solver.
  - cbn [List.map f_node]. apply NoDup_cons. split; [|done]. by rewrite <- Hg.
  - assert (forall n, color !! n = Some 2 -> <[child := 1]> color !! n = Some 2) as Hmono.
    { intros n Hn2. rewrite lookup_insert_ne; [done|]. by intros ->. }
    split_and!; try done; cbn [f_children f_node f_next]; [lia| | ].
    + apply children_of_elem. rewrite <- Hch. by eapply list_elem_of_lookup_2.
    + split_and!; try done; [|by eapply frames_recolor].
      cbn [f_children f_next]. intros i c Hi Hil.
      destruct (decide (i = f_next f)) as [->|]; [right; congruence|].
      left. destruct (Hp i c) as [|]; [lia|done|by apply Hmono|done].
Qed.

Lemma dfs_loop_correct fuel d stack color b color' :
  dfs_inv d stack color -> dfs_loop fuel d stack color = Some (b, color') ->
  if b then exists n, tc (edge d) n n
  else dfs_inv d [] color' /\
    forall n, n ∈ List.map f_node stack \/ color !! n = Some 2 -> color' !! n = Some 2.
Proof.
  revert stack color. induction fuel as [|fuel IH]; intros stack color Hinv; [done|].
  cbn [dfs_loop]. destruct stack as [|f below].
  { intros [= <- <-]. split; [done|]. intros n [Hn|Hn]; [by apply not_elem_of_nil in Hn|done]. }
  destruct (f_children f !! f_next f) as [child|] eqn:Ec.
  - assert (Hdown : white color child = true ->
      dfs_loop fuel d (mkFrame child (children_of d child) 0
        :: mkFrame (f_node f) (f_children f) (S (f_next f)) :: below) (<[child := 1]> color)
        = Some (b, color') ->
      if b then exists n, tc (edge d) n n
      else dfs_inv d [] color' /\
        forall n, n ∈ List.map f_node (f :: below) \/ color !! n = Some 2 -> color' !! n = Some 2).
    { intros Hw H. apply IH in H; [|by eapply dfs_inv_descend]. destruct b; [done|].
      destruct H as [? H]. split; [done|]. intros n Hn. apply H. cbn [List.map f_node] in *.
      destruct Hn as [Hn|Hn]; [left; set_solver|].
      right. rewrite lookup_insert_ne; [done|]. intros ->. unfold white in Hw. by rewrite Hn in Hw. }
    unfold white in Hdown. destruct (color !! child) as [[|[[]|[]|]|]|] eqn:Ecol;
      try by apply Hdown.
    + intros H. eapply IH in H; [|by eapply dfs_inv_skip]. done.
    + intros [= <- <-]. exists child. pose proof Hinv as [Hb Hg Hn Hf].
      apply Hg in Ecol. eapply frames_reach in Ecol; [|exact Hf].
      eapply tc_rtc_l; [exact Ecol|]. apply tc_once, children_of_elem.
      destruct Hf as (Hch & _). rewrite <- Hch. by eapply list_elem_of_lookup_2.
  - intros H. apply IH in H; [|by apply dfs_inv_pop]. destruct b; [done|].
    destruct H as [? H]. split; [done|]. intros n Hn. apply H. cbn [List.map] in Hn.
    destruct (decide (f_node f = n)) as [<-|]; [right; apply lookup_insert_eq|].
    rewrite lookup_insert_ne by done. set_solver.
Qed.

Lemma dfs_inv_empty d : dfs_inv d [] ∅.
Proof.
  split; [split| | |done]; try (intros n; intros; by rewrite lookup_empty in *).
  - intros n. rewrite lookup_empty. split; [done|]. by intros ?%not_elem_of_nil.
  - constructor.
Qed.

Lemma has_cycle_from_correct d start color b color' :
  dfs_inv d [] color -> has_cycle_from d start color = Some (b, color') ->
  if b then exists n, tc (edge d) n n
  else dfs_inv d [] color' /\ color' !! start = Some 2 /\
    forall n, color !! n = Some 2 -> color' !! n = Some 2.
Proof.
  intros Hinv. pose proof Hinv as [Hb Hg _ _]. unfold has_cycle_from.
  assert (Hgo : white color start = true ->
    dfs_loop (dfs_fuel d) d [mkFrame start (children_of d start) 0] (<[start := 1]> color)
      = Some (b, color') ->
    if b then exists n, tc (edge d) n n
    else dfs_inv d [] color' /\ color' !! start = Some 2 /\
      forall n, color !! n = Some 2 -> color' !! n = Some 2).
  { intros Hw H. assert (color !! start <> Some 2) as H2.
    { intros E0. unfold white in Hw. by rewrite E0 in Hw. }
    apply dfs_loop_correct in H.
    - destruct b; [done|]. destruct H as [? H]. split_and!; [done| |].
      + apply H. left. apply list_elem_of_here.
      + intros n Hn. apply H. right. rewrite lookup_insert_ne; [done|]. by intros ->.
    - split.
      + by apply black_descend.
      + intros n. cbn [List.map f_node]. destruct (decide (start = n)) as [<-|].
        * rewrite lookup_insert_eq. split; [intros _; apply list_elem_of_here|done].
        * rewrite lookup_insert_ne by done. rewrite Hg. cbn [List.map]. set_solver.
      + apply NoDup_singleton.
      + split_and!; try done. cbn. lia. }
  unfold white in Hgo. destruct (color !! start) as [[|[[]|[]|]|]|] eqn:Ecol; try by apply Hgo.
  - intros [= <- <-]. done.
  - apply Hg in Ecol. by apply not_elem_of_nil in Ecol.
Qed.

Lemma cycle_check_correct d starts color b :
  dfs_inv d [] color -> cycle_check d starts color = Some b ->
  if b then exists n, tc (edge d) n n
  else forall n, n ∈ starts \/ color !! n = Some 2 -> ~ tc (edge d) n n.
Proof.
  revert color. induction starts as [|s rest IH]; intros color Hinv; cbn [cycle_check].
  { intros [= <-] n [Hn|Hn]; [by apply not_elem_of_nil in Hn|].
    by eapply bo_acyclic; [apply Hinv|]. }
  destruct (has_cycle_from d s color) as [[[] color']|] eqn:Eh; [| |done].
  - intros [= <-]. by apply (has_cycle_from_correct d s color true color').
  - apply has_cycle_from_correct in Eh as (Hinv' & Hs & Hmono); [|done].
    intros H. apply IH in H; [|done]. destruct b; [done|]. intros n Hn. apply H.
    rewrite elem_of_cons in Hn. destruct Hn as [[->|]|]; auto.
Qed.

(** ** Merge *)

Implicit Types (r : MergeResult) (es : list DerivationEdge).

Lemma edge_set_insert m k v k' :
  edge_set (edge_insert m k v) k' = if decide (k = k') then {[v]} ∪ edge_set m k else edge_set m k'.
Proof.
  unfold edge_insert, edge_set at 1. destruct (decide (k = k')) as [->|].
  - by rewrite lookup_insert_eq.
  - by rewrite lookup_insert_ne.
Qed.

Lemma merge_edge_spec d r e d' r' :
  merge_edge d r e = (d', r') ->
  nodes d' = nodes d /\ path_to_hash d' = path_to_hash d /\ newly_inserted r' = newly_inserted r /\
  exists ext, new_edges r' = new_edges r ++ ext /\
    forall p c, edge d' p c <-> edge d p c \/ (p, c) ∈ ext.
Proof.
  unfold merge_edge.
  destruct (path_to_hash d !! parent_drv_path e) as [p0|],
    (path_to_hash d !! child_drv_path e) as [c0|];
    try (intros [<- <-]%pair_eq; split_and!; try done; exists []; rewrite app_nil_r;
         split; [done|]; set_solver).
  intros [<- <-]%pair_eq. case_bool_decide as Hin; cbn; split_and!; try done.
  - exists [(p0, c0)]. split; [done|]. intros p c. unfold edge. cbn [children with_edges].
    rewrite edge_set_insert. destruct (decide (p0 = p)) as [<-|]; set_solver.
  - exists []. rewrite app_nil_r. split; [done|]. intros p c. unfold edge. cbn [children with_edges].
    rewrite edge_set_insert. destruct (decide (p0 = p)) as [<-|]; set_solver.
Qed.

Lemma merge_edges_spec d r es d' r' :
  merge_edges d r es = (d', r') ->
  nodes d' = nodes d /\ path_to_hash d' = path_to_hash d /\ newly_inserted r' = newly_inserted r /\
  exists ext, new_edges r' = new_edges r ++ ext /\
    forall p c, edge d' p c <-> edge d p c \/ (p, c) ∈ ext.
Proof.
  revert d r. induction es as [|e es IH]; intros d r; cbn [merge_edges].
  { intros [<- <-]%pair_eq. split_and!; try done. exists []. rewrite app_nil_r. set_solver. }
  destruct (merge_edge d r e) as [d1 r1] eqn:E1. intros H2.
  apply merge_edge_spec in E1 as (Hn1 & Hp1 & Hi1 & ext1 & He1 & Hed1).
  apply IH in H2 as (Hn2 & Hp2 & Hi2 & ext2 & He2 & Hed2).
  split_and!; try congruence. exists (ext1 ++ ext2). split; [by rewrite He2, He1, app_assoc|].
  intros p c. rewrite Hed2, Hed1, elem_of_app. tauto.
Qed.

Lemma merge_node_edges b tp sc d r n d' r' err :
  merge_node b tp sc d r n = (d', r', err) ->
  children d' = children d /\ parents d' = parents d /\ new_edges r' = new_edges r.
Proof.
  unfold merge_node. set (root := bool_decide _).
  assert (Hr : forall d1 r1 pr, merge_reset root (n_drv_hash n) d r = (d1, r1, pr) ->
    children d1 = children d /\ parents d1 = parents d /\ new_edges r1 = new_edges r).
  { intros d1 r1 pr. unfold merge_reset. destruct (nodes d !! _) as [old|]; [|by intros [= <- <- _]].
    destruct (_ && _); by intros [= <- <- _]. }
  destruct (merge_reset root (n_drv_hash n) d r) as [[d1 r1] pr]. cbn beta iota zeta in *.
  specialize (Hr d1 r1 pr eq_refl) as (Hc & Hp & Hn).
  destruct (nodes d1 !! n_drv_hash n) as [ex|].
  - destruct (merge_existing _ _ _ _ ex r1) as [s r2] eqn:Em. intros [= <- <- _].
    unfold merge_existing in Em. cbn in Em.
    repeat case_match; injection Em as <- <-; cbn; auto.
  - destruct (try_from_node n) as [s|]; [|by intros [= <- <- _]].
    destruct (merge_fresh _ _ _ _ _ s d1 r1) as [d2 r2] eqn:Em. intros [= <- <- _].
    unfold merge_fresh in Em. repeat case_match; injection Em as <- <-; cbn; auto.
Qed.

Lemma merge_nodes_edges b tp sc ns d r d' r' err :
  merge_nodes b tp sc d r ns = (d', r', err) ->
  children d' = children d /\ parents d' = parents d /\ new_edges r' = new_edges r.
Proof.
  revert d r. induction ns as [|n ns IH]; intros d r; cbn [merge_nodes]; [by intros [= <- <- _]|].
  destruct (merge_node b tp sc d r n) as [[d1 r1] e1] eqn:E1.
  apply merge_node_edges in E1 as (Hc & Hp & Hn).
  destruct e1; [intros [= <- <- _]; done|]. intros (Hc' & Hp' & Hn')%IH. split_and!; congruence.
Qed.

(** A path in a graph with extra edges either avoids them or enters one. *)
Lemma tc_union {A} (R U : relation A) (S : A -> A -> Prop) x y :
  (forall p c, U p c <-> R p c \/ S p c) -> tc U x y ->
  tc R x y \/ exists p c, S p c /\ rtc U x p /\ U p c /\ rtc U c y.
Proof.
  intros HU. induction 1 as [x y Hxy|x z y Hxz _ IH].
  - pose proof Hxy as [HR|HS]%HU; [left; by apply tc_once|].
    right. exists x, y. split_and!; try done; apply rtc_refl.
  - pose proof Hxz as [HR|HS]%HU.
    + destruct IH as [IH|(p & c & ? & ? & ? & ?)].
      * left. eapply tc_l; eauto.
      * right. exists p, c. split_and!; try done. by eapply rtc_l.
    + right. exists x, z. split_and!; try done.
      destruct IH as [IH|(p & c & ? & Hzp & Hpc & Hcy)].
      * apply tc_rtc in IH. clear -IH HU. induction IH as [|a b y Hab _ IH]; [apply rtc_refl|].
        eapply rtc_l; [apply HU; by left|done].
      * etrans; [exact Hzp|]. by eapply rtc_l.
Qed.

Lemma checked_acyclic d d' r :
  acyclic d ->
  (forall p c, edge d' p c <-> edge d p c \/ (p, c) ∈ new_edges r) ->
  cycle_check d' (dfs_starts r) ∅ = Some false -> acyclic d'.
Proof.
  intros Ha He Hc n Hn.
  pose proof (cycle_check_correct d' _ ∅ false (dfs_inv_empty d') Hc) as Hfree.
  eapply (tc_union (edge d) (edge d') (fun p c => (p, c) ∈ new_edges r)) in Hn
    as [Hn|(p & c & Hnew & Hnp & Hpc & Hcn)]; [by apply (Ha n)| |done].
  apply (Hfree p).
  - left. unfold dfs_starts. rewrite elem_of_app.
    destruct (decide (p ∈ newly_inserted r)) as [Hi|Hi].
    + left. by rewrite iter_elements, elem_of_elements.
    + right. apply list_elem_of_In, List.filter_In. split.
      * apply list_elem_of_In in Hnew. by apply (in_map fst) in Hnew.
      * by rewrite bool_decide_eq_false_2.
  - eapply tc_rtc_r; [by apply tc_once|]. by etrans.
Qed.

End Cycle.

(** C24: [merge] always decides, and decides by acyclicity.  On an acyclic DAG it
    refuses with the first invalid path, or else inserts the nodes and resolved
    edges and answers [CycleDetected] only if the resulting graph has a cycle;
    when it accepts, the DAG it leaves is that graph and is acyclic, including
    for new edges between two nodes that were there before. *)
Theorem merge_acyclic_exact {E : SchedEnv} `{!SchedEnvLaws E} build_id ns es tp (d : DerivationDag) :
  acyclic d ->
  exists d' out, merge build_id ns es tp d = Some (d', out) /\
    match merge_nodes build_id tp (list_to_set (List.map child_drv_path es)) d MergeResult_empty ns with
    | (_, _, Some path) => out = inr (InvalidDrvPath path)
    | (dn, r, None) =>
        let '(dm, rm) := merge_edges dn r es in
        (out = inr CycleDetected /\ exists n, tc (edge dm) n n) \/
        (out = inl rm /\ d' = dm /\ acyclic dm)
    end.
Proof.
  intros Ha. unfold merge.
  destruct (merge_nodes _ _ _ _ _ ns) as [[dn r] [path|]] eqn:En; [by do 2 eexists|].
  destruct (merge_edges dn r es) as [dm rm] eqn:Ee.
  apply merge_nodes_edges in En as (Hch & _ & Hne). cbn in Hne.
  apply merge_edges_spec in Ee as (_ & _ & _ & ext & Hext & Hedge). rewrite Hne in Hext.
  destruct (cycle_check_total dm (dfs_starts rm) ∅) as [[] Hc]; rewrite Hc;
    do 2 eexists; (split; [reflexivity|]).
  - left. split; [done|]. by apply (cycle_check_correct dm (dfs_starts rm) ∅ true (dfs_inv_empty dm)).
  - right. split_and!; [done..|]. apply (checked_acyclic d dm rm); [done| |done].
    intros p c. rewrite Hedge, Hext. unfold edge. by rewrite Hch.
Qed.

(** ** A small DAG, for the examples *)

(** The parameters at concrete functions: paths below a prefix parse, an ATerm is
    its own length, hash sets are iterated in canonical order. *)
Definition example_env : SchedEnv := {|
  AttemptRecord := unit;
  RealisationLookup := unit;
  SchedHint := unit;
  SchedHint_default := tt;
  store_path_ok := String.prefix "/nix/store/";
  parse_input_srcs := fun bytes => match bytes with [] => None | _ => Some ["/nix/store/src"%string] end;
  iter := elements;
|}.

#[export] Instance example_env_laws : SchedEnvLaws example_env.
Proof. by split. Qed.

Definition example_node (name : string) (content : list Z) : DerivationNode :=
  mkDerivationNode ("/nix/store/" ++ name) name name "x86_64-linux" [] ["out"%string] false [] [] false
    content false None false None None None None.

Definition example_edge (p c : string) : DerivationEdge :=
  mkDerivationEdge ("/nix/store/" ++ p) ("/nix/store/" ++ c).

(** Build 1 asks for [a], which depends on [b]. *)
Definition example_dag : @DerivationDag example_env :=
  match @merge example_env 1 [example_node "a" []; example_node "b" []] [example_edge "a" "b"] ""
          DerivationDag_new with
  | Some (d, _) => d
  | None => DerivationDag_new
  end.

Lemma example_dag_edge p c : edge (E := example_env) example_dag p c <-> p = "a"%string /\ c = "b"%string.
Proof.
  unfold edge, edge_set.
  replace (children example_dag) with ({["a"%string := {["b"%string]}]} : gmap string (gset string))
    by (by vm_compute).
  destruct (decide (p = "a"%string)) as [->|Hp].
  - rewrite lookup_singleton_eq. cbn. set_solver.
  - rewrite lookup_singleton_ne by done. cbn. set_solver.
Qed.

Lemma example_dag_acyclic : acyclic (E := example_env) example_dag.
Proof.
  assert (Hend : forall x y, tc (edge (E := example_env) example_dag) x y ->
    x = "a"%string /\ y = "b"%string).
  { induction 1 as [x y [-> ->]%example_dag_edge|x y z [-> ->]%example_dag_edge _ [? ?]]; done. }
  intros n [-> ?]%Hend. discriminate.
Qed.

Lemma merge_acyclic_exact_witness :
  acyclic (E := example_env) example_dag /\
  option_map snd (@merge example_env 2 [example_node "b" []; example_node "a" []]
    [example_edge "b" "a"] "" example_dag) = Some (inr CycleDetected) /\
  exists d' out, @merge example_env 2 [example_node "c" []; example_node "a" []]
    [example_edge "c" "a"] "" example_dag = Some (d', out) /\ acyclic (E := example_env) d'.
Proof.
  split; [exact example_dag_acyclic|]. split; [by vm_compute|].
  destruct (merge_acyclic_exact (E := example_env) 2 [example_node "c" []; example_node "a" []]
    [example_edge "c" "a"] "" example_dag example_dag_acyclic) as (d' & out & Hm & Hout).
  exists d', out. split; [exact Hm|].
  assert (Hok : option_map (fun x => match snd x with inl _ => true | inr _ => false end)
    (@merge example_env 2 [example_node "c" []; example_node "a" []]
    [example_edge "c" "a"] "" example_dag) = Some true) by (by vm_compute).
  rewrite Hm in Hok. destruct out as [r|]; [|discriminate Hok].
  destruct (merge_nodes _ _ _ _ _ _) as [[dn rn] [p|]]; [discriminate Hout|].
  destruct (merge_edges dn rn _) as [dm rm].
  destruct Hout as [[H _]|(_ & -> & Hac)]; [discriminate H|exact Hac].
Defined.
