(* ===== verification/SchedRollback.v ===== *)
(** * Scheduler: a failed merge restores the DAG

    [rollback_merge] undoes everything [merge] did: nodes inserted or replaced,
    edges, interest, contributions, content backfills, trace parents, parked
    epoch floors and the path index.  Edge maps are compared by the sets they
    hold, since an emptied set and an absent key mean the same. *)

From S2P Require Import Prelude SchedState SchedDag SchedCycle.

#[local] Open Scope string_scope.
#[local] Open Scope list_scope.
#[local] Open Scope Z_scope.

Section Rollback.
Context {E : SchedEnv} `{!SchedEnvLaws E}.
Implicit Types (d : DerivationDag) (r : MergeResult) (h p : string) (s : DerivationState)
  (n : DerivationNode) (b : Uuid).

(** ** Well-formed DAGs and submissions *)

Record dag_wf d : Prop := {
  wf_index : forall p h, path_to_hash d !! p = Some h <->
    exists s, nodes d !! h = Some s /\ drv_path (ident s) = p;
  wf_sym : forall p c, c ∈ edge_set (children d) p <-> p ∈ edge_set (parents d) c;
  wf_ends : forall p c, edge d p c -> is_Some (nodes d !! p) /\ is_Some (nodes d !! c);
  wf_aterm : forall h s, nodes d !! h = Some s -> drv_content (aterm s) = [] ->
    input_srcs (aterm s) = [];
}.

(** The hashes of a submission are distinct (the service refuses duplicates), so
    are its paths, and both agree with the DAG's index. *)
Record submission_ok d (ns : list DerivationNode) : Prop := {
  so_hashes : NoDup (List.map n_drv_hash ns);
  so_paths : NoDup (List.map n_drv_path ns);
  so_node : forall n s, n ∈ ns -> nodes d !! n_drv_hash n = Some s ->
    drv_path (ident s) = n_drv_path n;
  so_index : forall n h, n ∈ ns -> path_to_hash d !! n_drv_path n = Some h -> h = n_drv_hash n;
}.

Record dag_equiv (d1 d2 : DerivationDag) : Prop := {
  de_nodes : nodes d1 = nodes d2;
  de_index : path_to_hash d1 = path_to_hash d2;
  de_soft : dag_soft_features d1 = dag_soft_features d2;
  de_floors : resubmit_floors d1 = resubmit_floors d2;
  de_children : forall k, edge_set (children d1) k = edge_set (children d2) k;
  de_parents : forall k, edge_set (parents d1) k = edge_set (parents d2) k;
}.

#[export] Instance dag_equiv_equivalence : Equivalence dag_equiv.
Proof.
  split.
  - by intros d.
  - intros d1 d2 []. by split.
  - intros d1 d2 d3 [] []. split; intros; etrans; eauto.
Qed.

(** ** [rollback_merge], key by key *)

Definition fold_at {A} (key : A -> string) (skip : A -> bool)
    (f : A -> DerivationState -> DerivationState) h (l : list A) s : DerivationState :=
  fold_left (fun s e => if skip e then s else if decide (key e = h) then f e s else s) l s.

Lemma fold_update {A} (key : A -> string) (skip : A -> bool)
    (f : A -> DerivationState -> DerivationState) (l : list A) d :
  let d' := fold_left (fun d e => if skip e then d else update_node (key e) (f e) d) l d in
  (forall h, nodes d' !! h = fold_at key skip f h l <$> nodes d !! h) /\
  children d' = children d /\ parents d' = parents d /\ path_to_hash d' = path_to_hash d /\
  dag_soft_features d' = dag_soft_features d /\ resubmit_floors d' = resubmit_floors d.
Proof.
  revert d. induction l as [|e l IH]; intros d; cbn zeta; cbn [fold_left].
  { split_and!; try done. intros h. by destruct (nodes d !! h). }
  set (d1 := if skip e then d else update_node (key e) (f e) d).
  assert (H1 : (forall h, nodes d1 !! h =
      (fun s => if skip e then s else if decide (key e = h) then f e s else s) <$> nodes d !! h) /\
    children d1 = children d /\ parents d1 = parents d /\ path_to_hash d1 = path_to_hash d /\
    dag_soft_features d1 = dag_soft_features d /\ resubmit_floors d1 = resubmit_floors d).
  { unfold d1. destruct (skip e).
    { split_and!; try done. intros h. by destruct (nodes d !! h). }
    unfold update_node. destruct (nodes d !! key e) as [s|] eqn:Es; cbn; split_and!; try done.
    - intros h. destruct (decide (key e = h)) as [<-|];
        [by rewrite lookup_insert_eq, Es|rewrite lookup_insert_ne by done; by destruct (nodes d !! h)].
    - intros h. destruct (decide (key e = h)) as [<-|]; [by rewrite Es|by destruct (nodes d !! h)]. }
  destruct H1 as (Hn & Hc & Hp & Hi & Hs & Hf).
  destruct (IH d1) as (Hn' & Hc' & Hp' & Hi' & Hs' & Hf').
  split_and!; try congruence. intros h. rewrite Hn', Hn, <- option_fmap_compose. done.
Qed.

Lemma fold_at_skip {A} (key : A -> string) (skip : A -> bool) f h (l : list A) s :
  h ∉ List.map key l -> fold_at key skip f h l s = s.
Proof.
  unfold fold_at. revert s. induction l as [|e l IH]; intros s Hh; [done|].
  cbn [List.map fold_left] in *. rewrite decide_False by set_solver.
  replace (if skip e then s else s) with s by (by destruct (skip e)). apply IH. set_solver.
Qed.

Lemma edge_set_delete (m : gmap string (gset string)) k k' :
  edge_set (delete k m) k' = if decide (k = k') then ∅ else edge_set m k'.
Proof.
  unfold edge_set. destruct (decide (k = k')) as [<-|];
    [by rewrite lookup_delete_eq|by rewrite lookup_delete_ne].
Qed.

Lemma edge_set_remove_drop (m : gmap string (gset string)) k v k' :
  edge_set (edge_remove_drop m k v) k' =
  if decide (k = k') then edge_set m k' ∖ {[v]} else edge_set m k'.
Proof.
  unfold edge_remove_drop. destruct (m !! k) as [x|] eqn:Ex.
  - case_bool_decide as He.
    + rewrite edge_set_delete. destruct (decide (k = k')) as [<-|]; [|done].
      unfold edge_set. rewrite Ex. cbn. set_solver.
    + unfold edge_set. destruct (decide (k = k')) as [<-|];
        [by rewrite lookup_insert_eq, Ex|by rewrite lookup_insert_ne].
  - destruct (decide (k = k')) as [<-|]; [|done]. unfold edge_set. rewrite Ex. cbn. set_solver.
Qed.

Lemma fold_rollback_edge l d :
  let d' := fold_left rollback_edge l d in
  nodes d' = nodes d /\ path_to_hash d' = path_to_hash d /\
  resubmit_floors d' = resubmit_floors d /\ dag_soft_features d' = dag_soft_features d /\
  (forall k c, c ∈ edge_set (children d') k <-> c ∈ edge_set (children d) k /\ (k, c) ∉ l) /\
  (forall k q, q ∈ edge_set (parents d') k <-> q ∈ edge_set (parents d) k /\ (q, k) ∉ l).
Proof.
  revert d. induction l as [|[p c] l IH]; intros d; cbn zeta; cbn [fold_left].
  { split_and!; try done; intros; set_solver. }
  destruct (IH (rollback_edge d (p, c))) as (Hn & Hi & Hf & Hs & Hc & Hp).
  rewrite Hn, Hi, Hf, Hs. split_and!; try done.
  - intros k x. rewrite Hc. unfold rollback_edge. cbn. rewrite edge_set_remove_drop.
    destruct (decide (p = k)) as [<-|]; set_solver.
  - intros k x. rewrite Hp. unfold rollback_edge. cbn. rewrite edge_set_remove_drop.
    destruct (decide (c = k)) as [<-|]; set_solver.
Qed.

Lemma rollback_node_spec restoring d x :
  let d1 := rollback_node restoring d x in
  nodes d1 = delete x (nodes d) /\
  (forall s, nodes d !! x = Some s -> path_to_hash d1 = delete (drv_path (ident s)) (path_to_hash d)) /\
  (nodes d !! x = None -> path_to_hash d1 = path_to_hash d) /\
  resubmit_floors d1 = resubmit_floors d /\ dag_soft_features d1 = dag_soft_features d /\
  children d1 = (if bool_decide (x ∈ restoring) then children d else delete x (children d)) /\
  parents d1 = (if bool_decide (x ∈ restoring) then parents d else delete x (parents d)).
Proof.
  unfold rollback_node. destruct (nodes d !! x) as [s|] eqn:Ex; case_bool_decide; cbn;
    split_and!; try done; try (intros s0 Hs0; by injection Hs0 as ->); by rewrite delete_id.
Qed.

Lemma scrub_step (m : gmap string (gset string)) (restoring : gset string) x l k :
  (if bool_decide (k ∈ l /\ k ∉ restoring) then ∅
   else edge_set (if bool_decide (x ∈ restoring) then m else delete x m) k) =
  if bool_decide (k ∈ x :: l /\ k ∉ restoring) then ∅ else edge_set m k.
Proof.
  destruct (decide (x = k)) as [<-|Hne].
  - destruct (decide (x ∈ restoring)) as [Hr|Hr].
    + rewrite (bool_decide_eq_true_2 (x ∈ restoring)) by done. by rewrite !bool_decide_eq_false_2 by tauto.
    + rewrite (bool_decide_eq_false_2 (x ∈ restoring)), edge_set_delete, decide_True by done.
      rewrite (bool_decide_eq_true_2 (x ∈ x :: l /\ _)) by set_solver. by destruct (bool_decide _).
  - rewrite (bool_decide_ext (k ∈ x :: l /\ k ∉ restoring) (k ∈ l /\ k ∉ restoring)) by set_solver.
    destruct (bool_decide (k ∈ l /\ _)); [done|]. destruct (bool_decide (x ∈ restoring)); [done|].
    by rewrite edge_set_delete, decide_False.
Qed.

Lemma fold_rollback_node restoring l d :
  let d' := fold_left (rollback_node restoring) l d in
  (forall h, nodes d' !! h = if bool_decide (h ∈ l) then None else nodes d !! h) /\
  (forall p, path_to_hash d !! p = None -> path_to_hash d' !! p = None) /\
  (forall h s, h ∈ l -> nodes d !! h = Some s -> path_to_hash d' !! drv_path (ident s) = None) /\
  (forall p, (forall h s, h ∈ l -> nodes d !! h = Some s -> drv_path (ident s) <> p) ->
     path_to_hash d' !! p = path_to_hash d !! p) /\
  resubmit_floors d' = resubmit_floors d /\ dag_soft_features d' = dag_soft_features d /\
  (forall k, edge_set (children d') k =
     if bool_decide (k ∈ l /\ k ∉ restoring) then ∅ else edge_set (children d) k) /\
  (forall k, edge_set (parents d') k =
     if bool_decide (k ∈ l /\ k ∉ restoring) then ∅ else edge_set (parents d) k).
Proof.
  revert d. induction l as [|x l IH]; intros d; cbn zeta; cbn [fold_left].
  { split_and!; try done; intros; try by rewrite bool_decide_eq_false_2 by set_solver.
    by apply not_elem_of_nil in H. }
  destruct (rollback_node_spec restoring d x) as (Hn1 & Hps & Hpn & Hf1 & Hs1 & Hc1 & Hq1).
  destruct (IH (rollback_node restoring d x)) as (Hn & Hm & Hi & Ho & Hf & Hs & Hc & Hq).
  set (d1 := rollback_node restoring d x) in *. rewrite Hf, Hs, Hf1, Hs1.
  assert (Hm1 : forall p, path_to_hash d !! p = None -> path_to_hash d1 !! p = None).
  { intros p Hp. destruct (nodes d !! x) as [s|] eqn:Ex; [|by rewrite Hpn].
    rewrite (Hps s eq_refl). by apply lookup_delete_None; right. }
  assert (Hmem : forall h, h <> x -> (h ∈ x :: l <-> h ∈ l)) by set_solver.
  split_and!; try done.
  - intros h. rewrite Hn, Hn1. destruct (decide (x = h)) as [<-|Hne].
    + rewrite lookup_delete_eq, (bool_decide_eq_true_2 (x ∈ x :: l)) by set_solver.
      by destruct (bool_decide (x ∈ l)).
    + rewrite lookup_delete_ne by done. by rewrite (bool_decide_ext (h ∈ x :: l) (h ∈ l)) by auto.
  - auto.
  - intros h s0 Hh Hs0. destruct (decide (x = h)) as [<-|Hne].
    + apply Hm. rewrite (Hps _ Hs0). apply lookup_delete_eq.
    + apply (Hi h); [apply Hmem; auto|]. by rewrite Hn1, lookup_delete_ne.
  - intros p Hp. rewrite Ho.
    + destruct (nodes d !! x) as [s|] eqn:Ex; [|by rewrite Hpn].
      rewrite (Hps s eq_refl), lookup_delete_ne; [done|]. apply (Hp x); [set_solver|done].
    + intros h s0 Hl Hs0. rewrite Hn1 in Hs0. apply lookup_delete_Some in Hs0 as [? Hs0].
      apply (Hp h); [set_solver|done].
  - intros k. rewrite Hc, Hc1. apply scrub_step.
  - intros k. rewrite Hq, Hq1. apply scrub_step.
Qed.

(** The last entry of a list under a key, over a default. *)
Definition last_of {A B} (key : A -> string) (val : A -> B) h (l : list A) (o : option B) : option B :=
  fold_left (fun o e => if decide (key e = h) then Some (val e) else o) l o.

Lemma last_of_absent {A B} (key : A -> string) (val : A -> B) h l o :
  h ∉ List.map key l -> last_of key val h l o = o.
Proof.
  unfold last_of. revert o. induction l as [|e l IH]; intros o Hh; [done|].
  cbn [List.map fold_left] in *. rewrite decide_False by set_solver. apply IH. set_solver.
Qed.

Lemma last_of_snoc {A B} (key : A -> string) (val : A -> B) h l e o :
  last_of key val h (l ++ [e]) o = if decide (key e = h) then Some (val e) else last_of key val h l o.
Proof. unfold last_of. by rewrite fold_left_app. Qed.

Lemma fold_rollback_restore l d :
  let d' := fold_left rollback_restore l d in
  (forall h, nodes d' !! h = last_of fst snd h l (nodes d !! h)) /\
  (forall p, path_to_hash d' !! p =
     last_of (fun e => drv_path (ident e.2)) fst p l (path_to_hash d !! p)) /\
  children d' = children d /\ parents d' = parents d /\
  dag_soft_features d' = dag_soft_features d /\ resubmit_floors d' = resubmit_floors d.
Proof.
  revert d. induction l as [|[k s] l IH]; intros d; cbn zeta; cbn [fold_left]; [done|].
  destruct (IH (rollback_restore d (k, s))) as (Hn & Hi & Hc & Hp & Hs & Hf).
  rewrite Hc, Hp, Hs, Hf. split_and!; try done.
  - intros h. rewrite Hn. unfold last_of. cbn. f_equal. apply lookup_insert.
  - intros p. rewrite Hi. unfold last_of. cbn. f_equal. apply lookup_insert.
Qed.

Lemma fold_floors (l : list (string * Z)) d :
  let d' := fold_left (fun d e => with_floors (<[e.1 := e.2]> (resubmit_floors d)) d) l d in
  (forall h, resubmit_floors d' !! h = last_of fst snd h l (resubmit_floors d !! h)) /\
  nodes d' = nodes d /\ path_to_hash d' = path_to_hash d /\ children d' = children d /\
  parents d' = parents d /\ dag_soft_features d' = dag_soft_features d.
Proof.
  revert d. induction l as [|[k v] l IH]; intros d; cbn zeta; cbn [fold_left]; [done|].
  destruct (IH (with_floors (<[(k, v).1 := (k, v).2]> (resubmit_floors d)) d))
    as (Hf & Hn & Hi & Hc & Hp & Hs).
  rewrite Hn, Hi, Hc, Hp, Hs. split_and!; try done.
  intros h. rewrite Hf. unfold last_of. cbn. f_equal. apply lookup_insert.
Qed.

(** What the last four passes do to the node under one hash. *)
Definition restoring_of r : gset string := list_to_set (List.map fst (removed_retriable r)).

Definition undo_contribution b (e : string * option (list string)) s : DerivationState :=
  match e.2 with
  | Some w => with_wanted (<[b := w]> (wanted_by_build (demand s))) s
  | None => with_wanted (delete b (wanted_by_build (demand s))) s
  end.

Definition undo b r h s : DerivationState :=
  fold_at fst (fun e => bool_decide (e.1 ∈ restoring_of r)) (undo_contribution b) h
    (rev (contributions_recorded r))
  (fold_at fst (fun e => bool_decide (e.1 ∈ restoring_of r))
    (fun e s => with_fetch_attempted e.2 (clear_aterm s)) h (drv_content_backfilled r)
  (fold_at id (fun _ => false) (fun _ => with_traceparent "") h (traceparent_upgraded r)
  (fold_at id (fun _ => false)
    (fun _ s => with_interest (interested_builds (demand s) ∖ {[b]}) s) h (interest_added r) s))).

#[local] Arguments undo : simpl never.
#[local] Arguments restoring_of : simpl never.

(** Some inserted node has this path. *)
Definition newly_at r d p : Prop :=
  set_Exists (fun h => (fun s => drv_path (ident s)) <$> nodes d !! h = Some p) (newly_inserted r).

#[local] Instance newly_at_dec r d p : Decision (newly_at r d p).
Proof. unfold newly_at. apply _. Defined.

Lemma rollback_undo r b d :
  let d' :=
    fold_left (rollback_contribution b (restoring_of r)) (rev (contributions_recorded r))
    (fold_left (rollback_content (restoring_of r)) (drv_content_backfilled r)
    (fold_left rollback_traceparent (traceparent_upgraded r)
    (fold_left (rollback_interest b) (interest_added r) d))) in
  (forall h, nodes d' !! h = undo b r h <$> nodes d !! h) /\
  children d' = children d /\ parents d' = parents d /\ path_to_hash d' = path_to_hash d /\
  dag_soft_features d' = dag_soft_features d /\ resubmit_floors d' = resubmit_floors d.
Proof.
  cbn zeta.
  destruct (fold_update id (fun _ => false)
    (fun _ s => with_interest (interested_builds (demand s) ∖ {[b]}) s) (interest_added r) d)
    as (I1 & I2 & I3 & I4 & I5 & I6).
  change (fold_left _ (interest_added r) d)
    with (fold_left (rollback_interest b) (interest_added r) d) in *.
  set (d5 := fold_left (rollback_interest b) _ d) in *.
  destruct (fold_update id (fun _ => false) (fun _ => with_traceparent "") (traceparent_upgraded r) d5)
    as (T1 & T2 & T3 & T4 & T5 & T6).
  change (fold_left _ (traceparent_upgraded r) d5)
    with (fold_left rollback_traceparent (traceparent_upgraded r) d5) in *.
  set (d6 := fold_left rollback_traceparent _ d5) in *.
  destruct (fold_update fst (fun e => bool_decide (e.1 ∈ restoring_of r))
    (fun e s => with_fetch_attempted e.2 (clear_aterm s)) (drv_content_backfilled r) d6)
    as (C1 & C2 & C3 & C4 & C5 & C6).
  change (fold_left _ (drv_content_backfilled r) d6)
    with (fold_left (rollback_content (restoring_of r)) (drv_content_backfilled r) d6) in *.
  set (d7 := fold_left (rollback_content _) _ d6) in *.
  destruct (fold_update fst (fun e => bool_decide (e.1 ∈ restoring_of r))
    (undo_contribution b) (rev (contributions_recorded r)) d7)
    as (W1 & W2 & W3 & W4 & W5 & W6).
  change (fold_left _ (rev (contributions_recorded r)) d7)
    with (fold_left (rollback_contribution b (restoring_of r)) (rev (contributions_recorded r)) d7) in *.
  split_and!; try congruence. intros h. rewrite W1, C1, T1, I1. by destruct (nodes d !! h).
Qed.

Lemma rollback_merge_spec r b d :
  let D := rollback_merge r b d in
  (forall h, nodes D !! h = undo b r h <$>
     last_of fst snd h (removed_retriable r)
       (if bool_decide (h ∈ newly_inserted r) then None else nodes d !! h)) /\
  (forall p, path_to_hash D !! p =
     last_of (fun e => drv_path (ident e.2)) fst p (removed_retriable r)
       (if decide (newly_at r d p) then None else path_to_hash d !! p)) /\
  dag_soft_features D = dag_soft_features d /\
  (forall h, resubmit_floors D !! h = last_of fst snd h (floors_consumed r) (resubmit_floors d !! h)) /\
  (forall k c, c ∈ edge_set (children D) k <->
     ~ (k ∈ newly_inserted r /\ k ∉ restoring_of r) /\ c ∈ edge_set (children d) k
     /\ (k, c) ∉ new_edges r) /\
  (forall k q, q ∈ edge_set (parents D) k <->
     ~ (k ∈ newly_inserted r /\ k ∉ restoring_of r) /\ q ∈ edge_set (parents d) k
     /\ (q, k) ∉ new_edges r).
Proof.
  unfold rollback_merge. cbn zeta.
  destruct (fold_floors (floors_consumed r) d) as (F1 & F2 & F3 & F4 & F5 & F6).
  set (d1 := fold_left _ (floors_consumed r) d) in *.
  destruct (fold_rollback_edge (new_edges r) d1) as (G1 & G2 & G3 & G4 & G5 & G6).
  set (d2 := fold_left rollback_edge _ d1) in *.
  change (list_to_set (List.map fst (removed_retriable r))) with (restoring_of r).
  destruct (fold_rollback_node (restoring_of r) (iter (newly_inserted r)) d2)
    as (N1 & N2 & N3 & N4 & N5 & N6 & N7 & N8).
  set (d3 := fold_left _ (iter _) d2) in *.
  destruct (fold_rollback_restore (removed_retriable r) d3) as (R1 & R2 & R3 & R4 & R5 & R6).
  set (d4 := fold_left rollback_restore _ d3) in *.
  destruct (rollback_undo r b d4) as (U1 & U2 & U3 & U4 & U5 & U6).
  set (d8 := fold_left (rollback_contribution _ _) _ _) in *.
  assert (Hit : forall h, h ∈ iter (newly_inserted r) <-> h ∈ newly_inserted r)
    by (intros h; by rewrite iter_elements, elem_of_elements).
  split_and!.
  - intros h. rewrite U1, R1, N1, G1, F2. by rewrite (bool_decide_ext _ _ (Hit h)).
  - intros p. rewrite U4, R2. f_equal. case_decide as Hp.
    + destruct Hp as (h & Hh & (s & Hs & ->)%fmap_Some_1).
      apply (N3 h); [by apply Hit|]. by rewrite G1, F2.
    + rewrite N4, G2, F3; [done|]. intros h s Hh%Hit Hs Hd. apply Hp. exists h.
      split; [done|]. rewrite <- F2, <- G1, Hs. by rewrite <- Hd.
  - congruence.
  - intros h. by rewrite U6, R6, N5, G3, F1.
  - intros k c. rewrite U2, R3, N7, <- F4. rewrite (bool_decide_ext _ (k ∈ newly_inserted r /\ k ∉ restoring_of r))
      by (rewrite Hit; done).
    case_bool_decide; [set_solver|]. rewrite G5. tauto.
  - intros k c. rewrite U3, R4, N8, <- F5. rewrite (bool_decide_ext _ (k ∈ newly_inserted r /\ k ∉ restoring_of r))
      by (rewrite Hit; done).
    case_bool_decide; [set_solver|]. rewrite G6. tauto.
Qed.

(** ** One step of the merge is undone by the longer record *)

(** The hashes a merge record mentions outside its inserted set. *)
Definition undo_keys r : list string :=
  interest_added r ++ traceparent_upgraded r ++ List.map fst (contributions_recorded r) ++
  List.map fst (drv_content_backfilled r).
Definition keys r : list string :=
  undo_keys r ++ List.map fst (removed_retriable r) ++ List.map fst (floors_consumed r).

Lemma keys_split r h :
  h ∉ keys r <-> h ∉ undo_keys r /\ h ∉ List.map fst (removed_retriable r) /\
    h ∉ List.map fst (floors_consumed r).
Proof. unfold keys. by rewrite !not_elem_of_app. Qed.

Lemma undo_untouched b r h s : h ∉ undo_keys r -> undo b r h s = s.
Proof.
  unfold undo_keys. intros Hk. unfold undo.
  rewrite !fold_at_skip; [done|..]; rewrite ?map_rev, ?map_id; try set_solver.
  rewrite list_elem_of_In, <- in_rev, <- list_elem_of_In. set_solver.
Qed.

Lemma fold_at_app {A} (key : A -> string) skip f h (l l' : list A) s :
  fold_at key skip f h (l ++ l') s = fold_at key skip f h l' (fold_at key skip f h l s).
Proof. apply fold_left_app. Qed.

Lemma fold_at_ext {A} (key : A -> string) (skip skip' : A -> bool) f h (l : list A) s :
  (forall e, key e = h -> skip e = skip' e) -> fold_at key skip f h l s = fold_at key skip' f h l s.
Proof.
  intros Hs. unfold fold_at. revert s. induction l as [|e l IH]; intros s; [done|].
  cbn [fold_left]. rewrite IH. f_equal. destruct (decide (key e = h)) as [He|]; [by rewrite Hs|].
  by destruct (skip e), (skip' e).
Qed.

Lemma last_of_present {A B} (key : A -> string) (val : A -> B) h l o o' :
  h ∈ List.map key l -> last_of key val h l o = last_of key val h l o'.
Proof.
  unfold last_of. revert o o'. induction l as [|e l IH]; intros o o' Hh; [by apply not_elem_of_nil in Hh|].
  cbn [List.map fold_left] in *. destruct (decide (key e = h)); [done|]. apply IH. set_solver.
Qed.

Lemma undo_other b r r1 h s i t c w :
  interest_added r1 = interest_added r ++ i -> traceparent_upgraded r1 = traceparent_upgraded r ++ t ->
  drv_content_backfilled r1 = drv_content_backfilled r ++ c ->
  contributions_recorded r1 = contributions_recorded r ++ w ->
  h ∉ i -> h ∉ t -> h ∉ List.map fst c -> h ∉ List.map fst w ->
  (h ∈ restoring_of r1 <-> h ∈ restoring_of r) ->
  undo b r1 h s = undo b r h s.
Proof.
  intros Hi Ht Hc Hw Hi' Ht' Hc' Hw' Hr. unfold undo.
  assert (Hw2 : h ∉ List.map fst (rev w))
    by (by rewrite map_rev, list_elem_of_In, <- in_rev, <- list_elem_of_In).
  rewrite Hi, Ht, Hc, Hw, rev_app_distr, !fold_at_app.
  rewrite (fold_at_skip fst _ _ h (rev w)) by done. rewrite (fold_at_skip fst _ _ h c) by done.
  rewrite (fold_at_skip id _ _ h t), (fold_at_skip id _ _ h i) by (by rewrite map_id).
  erewrite fold_at_ext; [f_equal; apply fold_at_ext|]; cbn beta; intros e He;
    apply bool_decide_ext; by rewrite He.
Qed.

Definition paths_removed r : list string :=
  List.map (fun e => drv_path (ident e.2)) (removed_retriable r).

(** Removing a node that mints a new epoch. *)
Lemma reset_rollback b d r h old :
  nodes d !! h = Some old -> h ∉ newly_inserted r -> h ∉ keys r ->
  path_to_hash d !! drv_path (ident old) = Some h ->
  ~ newly_at r d (drv_path (ident old)) -> drv_path (ident old) ∉ paths_removed r ->
  dag_equiv
    (rollback_merge
       (mkMergeResult (newly_inserted r) (new_edges r) (interest_added r) (reset_on_resubmit r)
          (removed_retriable r ++ [(h, old)]) (traceparent_upgraded r) (contributions_recorded r)
          (floors_consumed r) (drv_content_backfilled r)) b (with_nodes (delete h (nodes d)) d))
    (rollback_merge r b d).
Proof.
  intros Hold Hnew Hk Hidx Hat Hpr. apply keys_split in Hk as (Hk & Hkr & _).
  set (r1 := mkMergeResult _ _ _ _ _ _ _ _ _). set (d1 := with_nodes _ d).
  destruct (rollback_merge_spec r b d) as (N & P & S & F & C & Q).
  destruct (rollback_merge_spec r1 b d1) as (N' & P' & S' & F' & C' & Q').
  assert (Hres : forall k, k <> h -> k ∈ restoring_of r1 <-> k ∈ restoring_of r).
  { intros k Hne. unfold restoring_of, r1. cbn. rewrite map_app. set_solver. }
  assert (Hu : forall h' s, h' <> h -> undo b r1 h' s = undo b r h' s).
  { intros h' s Hne. apply (undo_other b r r1 h' s [] [] [] []); rewrite ?app_nil_r; try done;
      try apply not_elem_of_nil. by apply Hres. }
  assert (Hna : forall p, newly_at r1 d1 p <-> newly_at r d p).
  { intros p. unfold newly_at. split; intros (h' & Hn & Hs); exists h'; (split; [done|]);
      cbn in *; rewrite lookup_delete_ne in *; congruence. }
  split.
  - apply map_eq. intros h'. rewrite N, N'. cbn [newly_inserted removed_retriable r1].
    rewrite last_of_snoc. cbn [fst snd d1 nodes with_nodes].
    destruct (decide (h = h')) as [<-|Hne].
    + rewrite bool_decide_eq_false_2, last_of_absent, Hold by done. cbn. by rewrite !undo_untouched.
    + rewrite lookup_delete_ne by done. destruct (last_of fst snd h' _ _); cbn; [|done].
      f_equal. apply Hu. congruence.
  - apply map_eq. intros p. rewrite P, P'. rewrite (decide_ext _ _ _ _ (Hna p)).
    cbn [removed_retriable r1]. rewrite last_of_snoc. cbn [fst snd].
    destruct (decide (drv_path (ident old) = p)) as [<-|]; [|done].
    by rewrite last_of_absent, decide_False.
  - by rewrite S, S'.
  - apply map_eq. intros h'. by rewrite F, F'.
  - intros k. apply set_eq. intros c. rewrite C, C'. cbn.
    destruct (decide (k = h)) as [->|Hne]; [tauto|]. by rewrite (Hres k Hne).
  - intros k. apply set_eq. intros c. rewrite Q, Q'. cbn.
    destruct (decide (k = h)) as [->|Hne]; [tauto|]. by rewrite (Hres k Hne).
Qed.


(** Inserting a node from the submission, after a reset or for the first time. *)
Lemma fresh_rollback b d r h s reset consumed :
  nodes d !! h = None -> h ∉ newly_inserted r -> h ∉ List.map fst (floors_consumed r) ->
  ~ newly_at r d (drv_path (ident s)) ->
  (h ∈ restoring_of r /\ drv_path (ident s) ∈ paths_removed r) \/
  (path_to_hash d !! drv_path (ident s) = None /\
   edge_set (children d) h = ∅ /\ edge_set (parents d) h = ∅) ->
  (consumed = [] \/ exists f, resubmit_floors d !! h = Some f /\ consumed = [(h, f)]) ->
  dag_equiv
    (rollback_merge
       (mkMergeResult ({[h]} ∪ newly_inserted r) (new_edges r) (interest_added r)
          (reset_on_resubmit r ++ reset) (removed_retriable r) (traceparent_upgraded r)
          (contributions_recorded r) (floors_consumed r ++ consumed) (drv_content_backfilled r)) b
       (mkDerivationDag (<[h := s]> (nodes d)) (children d) (parents d)
          (<[drv_path (ident s) := h]> (path_to_hash d)) (dag_soft_features d)
          (match consumed with [] => resubmit_floors d | _ => delete h (resubmit_floors d) end)))
    (rollback_merge r b d).
Proof.
  intros Hn Hnew Hfl Hat Hor Hcons.
  set (r1 := mkMergeResult _ _ _ _ _ _ _ _ _). set (d1 := mkDerivationDag _ _ _ _ _ _).
  assert (Hmem : forall k, k ∈ {[h]} ∪ newly_inserted r <-> k = h \/ k ∈ newly_inserted r)
    by (clear; set_solver).
  destruct (rollback_merge_spec r b d) as (N & P & S & F & C & Q).
  destruct (rollback_merge_spec r1 b d1) as (N' & P' & S' & F' & C' & Q').
  assert (Hna : forall p, p <> drv_path (ident s) -> newly_at r1 d1 p <-> newly_at r d p).
  { intros p Hp. unfold newly_at. split; intros (h' & Hin & Hs); exists h'; cbn in *.
    - destruct (decide (h' = h)) as [->|]; [|rewrite lookup_insert_ne in Hs by done; by apply Hmem in Hin as [->|]].
      rewrite lookup_insert_eq in Hs. cbn in Hs. congruence.
    - split; [apply Hmem; by right|]. rewrite lookup_insert_ne; congruence. }
  assert (Hself : newly_at r1 d1 (drv_path (ident s))).
  { exists h. cbn. split; [apply Hmem; by left|]. by rewrite lookup_insert_eq. }
  split.
  - apply map_eq. intros h'. rewrite N, N'. change (undo b r1 h') with (undo b r h'). cbn.
    destruct (decide (h' = h)) as [->|Hne].
    + rewrite (bool_decide_eq_true_2 (h ∈ {[h]} ∪ _)) by (apply Hmem; by left).
      by rewrite bool_decide_eq_false_2, Hn.
    + rewrite lookup_insert_ne by done.
      by rewrite (bool_decide_ext _ (h' ∈ newly_inserted r)) by (rewrite Hmem; tauto).
  - apply map_eq. intros p. rewrite P, P'. cbn [removed_retriable path_to_hash r1 d1].
    destruct (decide (p = drv_path (ident s))) as [->|Hne].
    + destruct Hor as [[_ Hp]|[Hp _]]; [by apply last_of_present|].
      by rewrite decide_True, decide_False, Hp.
    + rewrite lookup_insert_ne by done. by rewrite (decide_ext _ _ _ _ (Hna p Hne)).
  - by rewrite S, S'.
  - apply map_eq. intros h'. rewrite F, F'. cbn [resubmit_floors floors_consumed r1 d1].
    destruct Hcons as [->|(f & Hf & ->)]; [by rewrite app_nil_r|].
    rewrite last_of_snoc. cbn. destruct (decide (h = h')) as [<-|];
      [by rewrite last_of_absent|by rewrite lookup_delete_ne].
  - intros k. apply set_eq. intros c. rewrite C, C'. change (restoring_of r1) with (restoring_of r). cbn.
    rewrite Hmem. destruct (decide (k = h)) as [->|]; [|tauto].
    destruct Hor as [[Hr _]|(_ & He & _)]; [tauto|]. rewrite He, elem_of_empty. tauto.
  - intros k. apply set_eq. intros c. rewrite Q, Q'. change (restoring_of r1) with (restoring_of r). cbn.
    rewrite Hmem. destruct (decide (k = h)) as [->|]; [|tauto].
    destruct Hor as [[Hr _]|(_ & _ & He)]; [tauto|]. rewrite He, elem_of_empty. tauto.
Qed.

(** An existing node that gains the build's demand. *)
Lemma undo_new b r r1 h s i t c w :
  interest_added r1 = interest_added r ++ i -> traceparent_upgraded r1 = traceparent_upgraded r ++ t ->
  drv_content_backfilled r1 = drv_content_backfilled r ++ c ->
  contributions_recorded r1 = contributions_recorded r ++ w -> h ∉ undo_keys r ->
  undo b r1 h s = undo b (mkMergeResult ∅ [] i [] (removed_retriable r1) t w [] c) h s.
Proof.
  intros Hi Ht Hc Hw Hk. unfold undo_keys in Hk. rewrite !not_elem_of_app in Hk.
  destruct Hk as (Ki & Kt & Kw & Kc). unfold undo.
  assert (Hw2 : h ∉ List.map fst (rev (contributions_recorded r)))
    by (by rewrite map_rev, list_elem_of_In, <- in_rev, <- list_elem_of_In).
  rewrite Hi, Ht, Hc, Hw, rev_app_distr, !fold_at_app.
  rewrite (fold_at_skip fst _ _ h (rev (contributions_recorded r))) by done.
  rewrite (fold_at_skip fst _ _ h (drv_content_backfilled r)) by done.
  rewrite (fold_at_skip id _ _ h (traceparent_upgraded r)),
    (fold_at_skip id _ _ h (interest_added r)) by (by rewrite map_id).
  done.
Qed.

Lemma fold_at_one {A} (key : A -> string) skip f h e s :
  key e = h -> skip e = false -> fold_at key skip f h [e] s = f e s.
Proof. intros He Hs. unfold fold_at. cbn. by rewrite Hs, decide_True. Qed.

Lemma undo_existing b tp n h s r s4 r1 :
  h ∉ undo_keys r -> h ∉ restoring_of r ->
  (drv_content (aterm s) = [] -> input_srcs (aterm s) = []) ->
  merge_existing b tp n h s r = (s4, r1) -> undo b r1 h s4 = s /\ ident s4 = ident s.
Proof.
  intros Hk Hr Ha Hm.
  assert (Hskip : bool_decide (h ∈ restoring_of r) = false) by (by apply bool_decide_eq_false_2).
  unfold merge_existing in Hm.
  set (s1 := with_interest _ s) in Hm.
  set (X := match drv_content (aterm s1) with [] => _ | _ => _ end) in Hm.
  assert (HX : exists a2 c, X = (with_aterm a2 s1, c) /\
    ((c = [] /\ a2 = aterm s) \/
     (c = [(h, drv_fetch_attempted (aterm s))] /\ drv_content (aterm s) = []))).
  { assert (Hs1 : s1 = with_aterm (aterm s) s1) by done.
    unfold X, rehydrate_from_aterm. destruct (drv_content (aterm s1)) eqn:Ec; cbn in Ec;
      [destruct (n_drv_content n); [|destruct (parse_input_srcs _)]|];
      do 2 eexists; (split; [try reflexivity; by rewrite Hs1|]); auto. }
  destruct HX as (a2 & c & -> & Hc). injection Hm as <- <-. split; [|by destruct (_ && _)].
  erewrite undo_new; try done.
  unfold undo. cbn [rev app contributions_recorded drv_content_backfilled traceparent_upgraded
    interest_added removed_retriable].
  change (restoring_of (mkMergeResult _ _ _ _ _ _ _ _ _)) with (restoring_of r).
  rewrite (fold_at_one fst _ _ h (h, _)) by done.
  destruct (_ && _) eqn:Eu; [apply andb_prop in Eu as [Ht%String.eqb_eq _]|clear Eu];
    (destruct (decide (b ∈ interested_builds (demand s))) as [Hb|Hb];
     [rewrite bool_decide_eq_false_2 by (intros Hx; by apply Hx)
     |rewrite bool_decide_eq_true_2, (fold_at_one id) by done]);
    rewrite ?(fold_at_one id) by done; cbn [fold_at fold_left];
    (destruct Hc as [[-> ->]|[-> Hct]]; [|rewrite (fold_at_one fst) by done]);
    try (specialize (Ha Hct)); unfold fold_at;
    destruct s as [idn ft lf [ib wb tr] [ct fa sr] rt rs]; cbn in *; subst;
    unfold undo_contribution; cbn; destruct (wb !! b) eqn:Ew; cbn.
  all: unfold with_wanted, with_demand; cbn; unfold with_demand; cbn; do 2 f_equal;
    first [ by rewrite insert_insert_eq, insert_id
          | by rewrite delete_insert_eq, delete_id
          | clear -Hb; set_solver ].
Qed.

(** What an existing node's merge writes. *)
Lemma merge_existing_record b tp n h s r s4 r1 :
  merge_existing b tp n h s r = (s4, r1) ->
  newly_inserted r1 = newly_inserted r /\ new_edges r1 = new_edges r /\
  removed_retriable r1 = removed_retriable r /\ floors_consumed r1 = floors_consumed r /\
  exists i t c w,
    interest_added r1 = interest_added r ++ i /\ traceparent_upgraded r1 = traceparent_upgraded r ++ t /\
    drv_content_backfilled r1 = drv_content_backfilled r ++ c /\
    contributions_recorded r1 = contributions_recorded r ++ w /\
    (forall k, k ∈ i ++ t ++ List.map fst c ++ List.map fst w -> k = h).
Proof.
  unfold merge_existing. intros Hm. repeat case_match; simplify_eq/=; split_and!; try done;
    do 4 eexists; split_and!; try reflexivity; cbn; set_solver.
Qed.

Lemma existing_rollback b tp d r n h s s4 r1 :
  nodes d !! h = Some s -> h ∉ newly_inserted r -> h ∉ keys r ->
  (drv_content (aterm s) = [] -> input_srcs (aterm s) = []) ->
  merge_existing b tp n h s r = (s4, r1) ->
  dag_equiv (rollback_merge r1 b (with_nodes (<[h := s4]> (nodes d)) d)) (rollback_merge r b d).
Proof.
  intros Hs Hnew (Hk & Hkr & _)%keys_split Ha Hm.
  assert (Hnr : h ∉ restoring_of r) by (unfold restoring_of; by rewrite elem_of_list_to_set).
  destruct (undo_existing b tp n h s r s4 r1 Hk Hnr Ha Hm) as [Hundo Hid].
  apply merge_existing_record in Hm
    as (En & Ee & Er & Ef & i & t & c & w & Hi & Ht & Hc & Hw & Hkeys).
  set (d1 := with_nodes _ d).
  assert (Hres : restoring_of r1 = restoring_of r) by (unfold restoring_of; by rewrite Er).
  assert (Hu : forall h' s', h' <> h -> undo b r1 h' s' = undo b r h' s').
  { intros h' s' Hne. eapply undo_other; eauto; try (by rewrite Hres); intros Hin; apply Hne, Hkeys;
      rewrite !elem_of_app; tauto. }
  assert (Hna : forall p, newly_at r1 d1 p <-> newly_at r d p).
  { intros p. unfold newly_at. rewrite En. split; intros (h' & Hn & Hp); exists h'; (split; [done|]);
      cbn in *; rewrite lookup_insert_ne in *; congruence. }
  destruct (rollback_merge_spec r b d) as (N & P & S & F & C & Q).
  destruct (rollback_merge_spec r1 b d1) as (N' & P' & S' & F' & C' & Q').
  split.
  - apply map_eq. intros h'. rewrite N, N', En, Er. cbn [nodes d1 with_nodes].
    destruct (decide (h' = h)) as [->|Hne].
    + rewrite lookup_insert_eq, bool_decide_eq_false_2, !last_of_absent, Hs by done. cbn.
      by rewrite Hundo, undo_untouched.
    + rewrite lookup_insert_ne by done. destruct (last_of fst snd h' _ _); cbn; [|done].
      by rewrite Hu.
  - apply map_eq. intros p. rewrite P, P', Er. by rewrite (decide_ext _ _ _ _ (Hna p)).
  - by rewrite S, S'.
  - apply map_eq. intros h'. by rewrite F, F', Ef.
  - intros k. apply set_eq. intros x. by rewrite C, C', En, Ee, Hres.
  - intros k. apply set_eq. intros x. by rewrite Q, Q', En, Ee, Hres.
Qed.


(** ** The node loop *)

Lemma merge_fresh_shape b tp n h prior s d r d1 r1 :
  merge_fresh b tp n h prior s d r = (d1, r1) ->
  exists s' reset consumed, drv_path (ident s') = drv_path (ident s) /\
    (consumed = [] \/ exists f, resubmit_floors d !! h = Some f /\ consumed = [(h, f)]) /\
    d1 = mkDerivationDag (<[h := s']> (nodes d)) (children d) (parents d)
           (<[drv_path (ident s') := h]> (path_to_hash d)) (dag_soft_features d)
           (match consumed with [] => resubmit_floors d | _ => delete h (resubmit_floors d) end) /\
    r1 = mkMergeResult ({[h]} ∪ newly_inserted r) (new_edges r) (interest_added r)
           (reset_on_resubmit r ++ reset) (removed_retriable r) (traceparent_upgraded r)
           (contributions_recorded r) (floors_consumed r ++ consumed) (drv_content_backfilled r).
Proof.
  assert (Hid : ident (apply_soft_features d s) = ident s)
    by (unfold apply_soft_features; by destruct (dag_soft_features d)).
  unfold merge_fresh. intros Hm.
  destruct prior as [[[interest cycles] wanted]|]; [|destruct (resubmit_floors d !! h) as [f|] eqn:Ef];
    apply pair_eq in Hm as [<- <-].
  - eexists _, [h], []. rewrite app_nil_r. split_and!; [|by left|reflexivity..]. cbn. by rewrite Hid.
  - eexists _, [h], [(h, f)]. split_and!; [|by right; exists f|reflexivity..]. cbn. by rewrite Hid.
  - eexists _, [], []. rewrite app_nil_r. split_and!; [|by left|reflexivity..]. cbn. by rewrite Hid.
Qed.

Lemma merge_fresh_rollback b tp n h prior s d r d1 r1 :
  merge_fresh b tp n h prior s d r = (d1, r1) ->
  nodes d !! h = None -> h ∉ newly_inserted r -> h ∉ List.map fst (floors_consumed r) ->
  ~ newly_at r d (drv_path (ident s)) ->
  (h ∈ restoring_of r /\ drv_path (ident s) ∈ paths_removed r) \/
  (path_to_hash d !! drv_path (ident s) = None /\
   edge_set (children d) h = ∅ /\ edge_set (parents d) h = ∅) ->
  dag_equiv (rollback_merge r1 b d1) (rollback_merge r b d).
Proof.
  intros (s' & reset & consumed & Hs' & Hcons & -> & ->)%merge_fresh_shape. rewrite <- Hs'. intros.
  by apply fresh_rollback.
Qed.

(** Where the loop is after the nodes of [done]. *)
Record node_inv (d0 : DerivationDag) (done : list DerivationNode) d r : Prop := {
  ni_nodes : forall h, h ∉ List.map n_drv_hash done -> nodes d !! h = nodes d0 !! h;
  ni_index : forall p, p ∉ List.map n_drv_path done -> path_to_hash d !! p = path_to_hash d0 !! p;
  ni_new : forall h, h ∈ newly_inserted r -> h ∈ List.map n_drv_hash done;
  ni_keys : forall h, h ∈ keys r -> h ∈ List.map n_drv_hash done;
  ni_removed : forall p, p ∈ paths_removed r -> p ∈ List.map n_drv_path done;
  ni_at : forall p, newly_at r d p -> p ∈ List.map n_drv_path done;
  ni_children : children d = children d0;
  ni_parents : parents d = parents d0;
}.

Lemma node_inv_weaken d0 done n d r : node_inv d0 done d r -> node_inv d0 (done ++ [n]) d r.
Proof.
  intros [In Ii Iw Ik Ir Ia Ic Ip].
  split; try done; intros x Hx; rewrite map_app, ?elem_of_app in *; eauto;
    apply not_elem_of_app in Hx as [Hx _]; eauto.
Qed.

(** Each write concerns the hash and the path of one node of the list. *)
Section OneNode.
Context (d0 : DerivationDag) (done : list DerivationNode) (d : DerivationDag) (r : MergeResult)
  (h : string).
Hypothesis Hinv : node_inv d0 done d r.
Hypothesis Hh : h ∈ List.map n_drv_hash done.
Hypothesis Hnew : h ∉ newly_inserted r.

Lemma existing_inv b tp n s s4 r1 :
  merge_existing b tp n h s r = (s4, r1) ->
  node_inv d0 done (with_nodes (<[h := s4]> (nodes d)) d) r1.
Proof using All.
  intros (En & _ & Er & Ef & i & t & c & w & Hi & Ht & Hc & Hw & Hk)%merge_existing_record.
  destruct Hinv as [In Ii Iw Ik Ir Ia Ic Ip]. split; cbn; try done.
  - intros k Hk'. rewrite lookup_insert_ne; [auto|congruence].
  - intros k. rewrite En. auto.
  - intros k Hkk. destruct (decide (k = h)) as [->|Hne]; [done|]. apply Ik. revert Hkk.
    specialize (Hk k). unfold keys, undo_keys. rewrite Hi, Ht, Hc, Hw, Er, Ef, !map_app, !elem_of_app in *.
    tauto.
  - intros p. unfold paths_removed. rewrite Er. apply Ir.
  - intros p (k & Hkn & Hp). rewrite En in Hkn. cbn in Hp. apply Ia. exists k. split; [done|].
    rewrite lookup_insert_ne in Hp; [done|congruence].
Qed.

Lemma reset_inv old :
  drv_path (ident old) ∈ List.map n_drv_path done ->
  node_inv d0 done (with_nodes (delete h (nodes d)) d)
    (mkMergeResult (newly_inserted r) (new_edges r) (interest_added r) (reset_on_resubmit r)
       (removed_retriable r ++ [(h, old)]) (traceparent_upgraded r) (contributions_recorded r)
       (floors_consumed r) (drv_content_backfilled r)).
Proof using All.
  intros Hpath. destruct Hinv as [In Ii Iw Ik Ir Ia Ic Ip]. split; cbn; try done.
  - intros k Hk. rewrite lookup_delete_ne; [auto|congruence].
  - intros k Hk. destruct (decide (k = h)) as [->|Hne]; [done|]. apply Ik. revert Hk.
    unfold keys, undo_keys. cbn. rewrite map_app, !elem_of_app. cbn. rewrite list_elem_of_singleton. tauto.
  - intros p. unfold paths_removed. cbn. rewrite map_app, elem_of_app. cbn.
    rewrite list_elem_of_singleton. intros [Hp| ->]; [by apply Ir|done].
  - intros p (k & Hkn & Hp). cbn in *. apply Ia. exists k. split; [done|].
    rewrite lookup_delete_ne in Hp; [done|congruence].
Qed.

Lemma fresh_inv b tp n prior s d1 r1 :
  drv_path (ident s) ∈ List.map n_drv_path done ->
  merge_fresh b tp n h prior s d r = (d1, r1) -> node_inv d0 done d1 r1.
Proof using All.
  intros Hpath (s' & reset & consumed & Hs' & Hcons & -> & ->)%merge_fresh_shape.
  rewrite <- Hs' in Hpath.
  destruct Hinv as [In Ii Iw Ik Ir Ia Ic Ip]. split; cbn; try done.
  - intros k Hk. rewrite lookup_insert_ne; [auto|congruence].
  - intros p Hp. rewrite lookup_insert_ne; [auto|congruence].
  - intros k [->%elem_of_singleton|Hk]%elem_of_union; auto.
  - intros k Hk. destruct (decide (k = h)) as [->|Hne]; [done|]. apply Ik. revert Hk.
    unfold keys, undo_keys. cbn. rewrite map_app, !elem_of_app.
    destruct Hcons as [->|(f & _ & ->)]; cbn; [rewrite elem_of_nil|rewrite list_elem_of_singleton]; tauto.
  - intros p (k & Hkn & Hp). cbn in *. destruct (decide (k = h)) as [->|Hne].
    + rewrite lookup_insert_eq in Hp. cbn in Hp. congruence.
    + rewrite lookup_insert_ne in Hp by done. apply Ia. exists k. split; [|done].
      by apply elem_of_union in Hkn as [?%elem_of_singleton|].
Qed.
End OneNode.

(** [n] is the next node: new to [done], and consistent with the DAG's index. *)
Record next_ok (d0 : DerivationDag) (done : list DerivationNode) n : Prop := {
  nx_hash : n_drv_hash n ∉ List.map n_drv_hash done;
  nx_path : n_drv_path n ∉ List.map n_drv_path done;
  nx_node : forall s, nodes d0 !! n_drv_hash n = Some s -> drv_path (ident s) = n_drv_path n;
  nx_index : forall h, path_to_hash d0 !! n_drv_path n = Some h -> h = n_drv_hash n;
}.

Lemma try_from_node_path n s : try_from_node n = Some s -> drv_path (ident s) = n_drv_path n.
Proof. unfold try_from_node. destruct (negb _); [done|]. by intros [= <-]. Qed.

Lemma wf_no_edges d h :
  dag_wf d -> nodes d !! h = None -> edge_set (children d) h = ∅ /\ edge_set (parents d) h = ∅.
Proof.
  intros Hwf Hn. split; apply elem_of_equiv_empty_L; intros x Hx.
  - destruct (wf_ends d Hwf h x Hx) as [[? H] _]. congruence.
  - apply (wf_sym d Hwf) in Hx. destruct (wf_ends d Hwf x h Hx) as [_ [? H]]. congruence.
Qed.

Lemma merge_node_rollback d0 done b tp sc d r n d1 r1 err :
  dag_wf d0 -> next_ok d0 done n -> node_inv d0 done d r ->
  merge_node b tp sc d r n = (d1, r1, err) ->
  dag_equiv (rollback_merge r1 b d1) (rollback_merge r b d) /\
  (err = false -> node_inv d0 (done ++ [n]) d1 r1).
Proof.
  intros Hwf [Xh Xp Xn Xi] Hinv. pose proof (node_inv_weaken _ _ n _ _ Hinv) as Hinv'.
  assert (Hhd : n_drv_hash n ∈ List.map n_drv_hash (done ++ [n])) by (rewrite map_app; set_solver).
  assert (Hpd : n_drv_path n ∈ List.map n_drv_path (done ++ [n])) by (rewrite map_app; set_solver).
  assert (Hnew : n_drv_hash n ∉ newly_inserted r) by (intros H; by apply Xh, (ni_new _ _ _ _ Hinv)).
  assert (Hk : n_drv_hash n ∉ keys r) by (intros H; by apply Xh, (ni_keys _ _ _ _ Hinv)).
  assert (Hat : ~ newly_at r d (n_drv_path n)) by (intros H; by apply Xp, (ni_at _ _ _ _ Hinv)).
  assert (Hpr : n_drv_path n ∉ paths_removed r) by (intros H; by apply Xp, (ni_removed _ _ _ _ Hinv)).
  pose proof (ni_nodes _ _ _ _ Hinv _ Xh) as Hnode. pose proof (ni_index _ _ _ _ Hinv _ Xp) as Hidx.
  unfold merge_node, merge_reset. set (root := bool_decide _).
  destruct (nodes d !! n_drv_hash n) as [old|] eqn:Eold.
  - assert (Hop : drv_path (ident old) = n_drv_path n) by (apply Xn; congruence).
    assert (Hoi : path_to_hash d !! drv_path (ident old) = Some (n_drv_hash n)).
    { rewrite Hop, Hidx, <- Hop. apply (wf_index d0 Hwf). exists old. split; [congruence|done]. }
    destruct (_ && _).
    + cbn [nodes with_nodes]. rewrite lookup_delete_eq.
      pose proof (reset_rollback b d r _ old Eold Hnew Hk Hoi) as Hrb. rewrite Hop in Hrb.
      specialize (Hrb Hat Hpr).
      destruct (try_from_node n) as [s|] eqn:Es; [|by intros [= <- <- <-]].
      destruct (merge_fresh _ _ _ _ _ s _ _) as [d2 r2] eqn:Ef. intros [= <- <- <-].
      apply try_from_node_path in Es. split; [|intros _; eapply fresh_inv; [..|exact Ef]; try done;
        [apply reset_inv; [done..|by rewrite Hop]|by rewrite Es]].
      etrans; [|exact Hrb]. apply keys_split in Hk as (_ & _ & Hkf).
      apply (merge_fresh_rollback _ _ _ _ _ _ _ _ _ _ Ef); [apply lookup_delete_eq|done|done|..].
      * rewrite Es. intros (k & Hkn & Hp). apply Hat. exists k. split; [done|]. cbn in Hp, Hkn.
        rewrite lookup_delete_ne in Hp; [done|congruence].
      * left. rewrite Es, <- Hop. unfold restoring_of, paths_removed. cbn. rewrite !map_app.
        split; [rewrite elem_of_list_to_set|]; apply elem_of_app; right; by left.
    + rewrite Eold. destruct (merge_existing _ _ _ _ old r) as [s4 r2] eqn:Em. intros [= <- <- <-].
      split; [|intros _; by eapply existing_inv].
      eapply existing_rollback; eauto. apply (wf_aterm d0 Hwf (n_drv_hash n)). congruence.
  - rewrite Eold. destruct (try_from_node n) as [s|] eqn:Es; [|by intros [= <- <- <-]].
    destruct (merge_fresh _ _ _ _ _ s d r) as [d2 r2] eqn:Ef. intros [= <- <- <-].
    apply try_from_node_path in Es. split; [|intros _; eapply fresh_inv; eauto; congruence].
    apply keys_split in Hk as (_ & _ & Hkf).
    apply (merge_fresh_rollback _ _ _ _ _ _ _ _ _ _ Ef); rewrite ?Es; try done. right. split.
    + rewrite Hidx. destruct (path_to_hash d0 !! n_drv_path n) as [h|] eqn:Eh; [|done].
      pose proof (Xi _ eq_refl) as ->. apply (wf_index d0 Hwf) in Eh as (s0 & Hs0 & _). congruence.
    + rewrite (ni_children _ _ _ _ Hinv), (ni_parents _ _ _ _ Hinv). by apply wf_no_edges.
Qed.

Lemma submission_next d0 done n ns : submission_ok d0 (done ++ n :: ns) -> next_ok d0 done n.
Proof.
  intros [Hh Hp Hn Hi]. rewrite map_app in Hh, Hp. cbn in Hh, Hp.
  apply NoDup_app in Hh as (_ & Hh & _). apply NoDup_app in Hp as (_ & Hp & _).
  split; [set_solver|set_solver|..]; intros; [eapply Hn|eapply Hi]; eauto; set_solver.
Qed.

Lemma merge_nodes_rollback d0 done ns b tp sc d r d1 r1 err :
  dag_wf d0 -> submission_ok d0 (done ++ ns) -> node_inv d0 done d r ->
  merge_nodes b tp sc d r ns = (d1, r1, err) ->
  dag_equiv (rollback_merge r1 b d1) (rollback_merge r b d).
Proof.
  intros Hwf. revert done d r. induction ns as [|n ns IH]; intros done d r Hso Hinv; cbn [merge_nodes].
  { by intros [= <- <- _]. }
  destruct (merge_node b tp sc d r n) as [[d2 r2] e] eqn:En.
  pose proof (submission_next _ _ _ _ Hso) as Hnx.
  destruct (merge_node_rollback d0 done b tp sc d r n d2 r2 e Hwf Hnx Hinv En) as [Heq Hinv2].
  destruct e; [by intros [= <- <- _]|]. intros H. etrans; [|exact Heq].
  apply (IH (done ++ [n]) d2 r2); [by rewrite <- app_assoc|auto|done].
Qed.

(** ** The edge loop *)

Definition edges_sym d : Prop :=
  forall p c, c ∈ edge_set (children d) p <-> p ∈ edge_set (parents d) c.

Lemma merge_edge_rollback b d r e d1 r1 :
  edges_sym d -> merge_edge d r e = (d1, r1) ->
  edges_sym d1 /\ dag_equiv (rollback_merge r1 b d1) (rollback_merge r b d).
Proof.
  intros Hsym. unfold merge_edge.
  destruct (path_to_hash d !! parent_drv_path e) as [p0|]; [|by intros [= <- <-]].
  destruct (path_to_hash d !! child_drv_path e) as [c0|]; [|by intros [= <- <-]].
  set (d2 := with_edges _ _ d). set (r2 := if bool_decide _ then _ else r). intros [= <- <-].
  assert (HC : forall k c, c ∈ edge_set (children d2) k <-> (k = p0 /\ c = c0) \/ c ∈ edge_set (children d) k).
  { intros k c. unfold d2. cbn. rewrite edge_set_insert. destruct (decide (p0 = k)); set_solver. }
  assert (HP : forall k q, q ∈ edge_set (parents d2) k <-> (k = c0 /\ q = p0) \/ q ∈ edge_set (parents d) k).
  { intros k c. unfold d2. cbn. rewrite edge_set_insert. destruct (decide (c0 = k)); set_solver. }
  split; [intros p c; rewrite HC, HP, (Hsym p c); tauto|].
  assert (Hr : newly_inserted r2 = newly_inserted r /\ restoring_of r2 = restoring_of r /\
    removed_retriable r2 = removed_retriable r /\ floors_consumed r2 = floors_consumed r /\
    (forall h s, undo b r2 h s = undo b r h s) /\
    (forall p, newly_at r2 d2 p <-> newly_at r d p)) by (unfold r2; case_bool_decide; done).
  assert (HE : forall k c, (k, c) ∈ new_edges r2 <->
    (k, c) ∈ new_edges r \/ ((k = p0 /\ c = c0) /\ c ∉ edge_set (children d) k)).
  { intros k c. unfold r2. case_bool_decide; cbn; [rewrite elem_of_app, list_elem_of_singleton, pair_eq|];
      (split; [|naive_solver]); intuition subst; auto. }
  destruct Hr as (R1 & R2 & R3 & R4 & R5 & R6). clearbody r2.
  destruct (rollback_merge_spec r b d) as (N & P & S & F & C & Q).
  destruct (rollback_merge_spec r2 b d2) as (N' & P' & S' & F' & C' & Q').
  split.
  - apply map_eq. intros h. rewrite N, N', R1, R3. cbn [nodes d2 with_edges].
    destruct (last_of _ _ _ _ _); cbn; [by rewrite R5|done].
  - apply map_eq. intros p. rewrite P, P', R3. by rewrite (decide_ext _ _ _ _ (R6 p)).
  - by rewrite S, S'.
  - apply map_eq. intros h. by rewrite F, F', R4.
  - intros k. apply set_eq. intros c. rewrite C, C', R1, R2, HC, HE.
    destruct (decide (c ∈ edge_set (children d) k)); tauto.
  - intros k. apply set_eq. intros q. rewrite Q, Q', R1, R2, HP, HE, <- (Hsym q k).
    destruct (decide (k ∈ edge_set (children d) q)); tauto.
Qed.

Lemma merge_edges_rollback b d r es d1 r1 :
  edges_sym d -> merge_edges d r es = (d1, r1) ->
  dag_equiv (rollback_merge r1 b d1) (rollback_merge r b d).
Proof.
  revert d r. induction es as [|e es IH]; intros d r Hs; cbn [merge_edges]; [by intros [= <- <-]|].
  destruct (merge_edge d r e) as [d2 r2] eqn:Ee. intros H.
  destruct (merge_edge_rollback b d r e d2 r2 Hs Ee) as [Hs2 Heq]. etrans; [|exact Heq]. by apply IH.
Qed.

Lemma rollback_empty b d : rollback_merge MergeResult_empty b d = d.
Proof.
  unfold rollback_merge. cbn. enough (iter ∅ = []) as -> by done.
  apply Permutation_nil. symmetry. by rewrite iter_elements, elements_empty.
Qed.

Lemma node_inv_start d : node_inv d [] d MergeResult_empty.
Proof.
  split; try done; cbn; try set_solver.
Qed.

Lemma merged_rollback d b tp sc es ns dn r err :
  dag_wf d -> submission_ok d ns -> merge_nodes b tp sc d MergeResult_empty ns = (dn, r, err) ->
  dag_equiv (rollback_merge r b dn) d /\
  let '(dm, rm) := merge_edges dn r es in dag_equiv (rollback_merge rm b dm) d.
Proof.
  intros Hwf Hso En.
  pose proof (merge_nodes_rollback d [] ns _ _ _ _ _ _ _ _ Hwf Hso (node_inv_start d) En) as Hn.
  rewrite rollback_empty in Hn. split; [done|]. apply merge_nodes_edges in En as (Hc & Hp & _).
  destruct (merge_edges dn r es) as [dm rm] eqn:Ee. etrans; [|exact Hn].
  eapply merge_edges_rollback; [|exact Ee]. intros p c. rewrite Hc, Hp. apply Hwf.
Qed.

(** ** An accepted merge keeps the DAG well formed *)

Lemma wf_put d h s fl :
  dag_wf d ->
  (forall s0, nodes d !! h = Some s0 -> drv_path (ident s0) = drv_path (ident s)) ->
  (forall h', path_to_hash d !! drv_path (ident s) = Some h' -> h' = h) ->
  (drv_content (aterm s) = [] -> input_srcs (aterm s) = []) ->
  dag_wf (mkDerivationDag (<[h := s]> (nodes d)) (children d) (parents d)
            (<[drv_path (ident s) := h]> (path_to_hash d)) (dag_soft_features d) fl).
Proof.
  intros [Wi Ws We Wa] Hn Hi Ha. split; unfold edge; cbn; [|done|..].
  - intros p k. destruct (decide (drv_path (ident s) = p)) as [<-|Hp].
    + rewrite lookup_insert_eq. split.
      * intros [= <-]. exists s. by rewrite lookup_insert_eq.
      * intros (s0 & Hs0 & Hp). destruct (decide (h = k)) as [<-|Hne]; [done|].
        rewrite lookup_insert_ne in Hs0 by done. exfalso. apply Hne. symmetry. apply Hi, Wi. eauto.
    + rewrite lookup_insert_ne by done. rewrite Wi. destruct (decide (h = k)) as [<-|Hne].
      * rewrite lookup_insert_eq. split; intros (s0 & Hs0 & Hp0); exfalso; [|naive_solver].
        apply Hp. rewrite <- Hp0. symmetry. auto.
      * by rewrite lookup_insert_ne.
  - intros p c Hpc. destruct (We p c Hpc). by rewrite !lookup_insert_is_Some'; auto.
  - intros k s0. destruct (decide (h = k)) as [<-|];
      [rewrite lookup_insert_eq; by intros [= <-]|rewrite lookup_insert_ne by done; apply Wa].
Qed.

Lemma merge_existing_aterm b tp n h s r s4 r1 :
  merge_existing b tp n h s r = (s4, r1) -> (drv_content (aterm s) = [] -> input_srcs (aterm s) = []) ->
  drv_content (aterm s4) = [] -> input_srcs (aterm s4) = [].
Proof.
  unfold merge_existing, rehydrate_from_aterm. intros Hm. repeat case_match; simplify_eq/=; auto;
    discriminate.
Qed.

Lemma fresh_aterm n s : try_from_node n = Some s -> drv_content (aterm s) = [] -> input_srcs (aterm s) = [].
Proof.
  unfold try_from_node. destruct (negb _); [done|]. intros [= <-]. cbn. intros ->.
  by rewrite parse_input_srcs_nil.
Qed.

Lemma merge_fresh_aterm b tp n h prior s d r d1 r1 s' :
  merge_fresh b tp n h prior s d r = (d1, r1) -> nodes d1 !! h = Some s' -> aterm s' = aterm s.
Proof.
  assert (Ha : aterm (apply_soft_features d s) = aterm s)
    by (unfold apply_soft_features; by destruct (dag_soft_features d)).
  unfold merge_fresh. intros Hm Hs'. repeat case_match; simplify_eq/=;
    rewrite lookup_insert_eq in Hs'; injection Hs' as <-; cbn; exact Ha.
Qed.

Lemma merge_node_wf b tp sc d r n d1 r1 :
  dag_wf d -> (forall s, nodes d !! n_drv_hash n = Some s -> drv_path (ident s) = n_drv_path n) ->
  (forall h, path_to_hash d !! n_drv_path n = Some h -> h = n_drv_hash n) ->
  merge_node b tp sc d r n = (d1, r1, false) -> dag_wf d1.
Proof.
  intros Hwf Hn Hi. unfold merge_node, merge_reset. set (root := bool_decide (n_drv_path n ∉ sc)).
  assert (Hfresh : forall prior s d' r' d2 r2, try_from_node n = Some s ->
    merge_fresh b tp n (n_drv_hash n) prior s d' r' = (d2, r2) ->
    (d' = d \/ d' = with_nodes (delete (n_drv_hash n) (nodes d)) d) -> dag_wf d2).
  { intros prior s d' r' d2 r2 Hs Hm Hd'. pose proof (try_from_node_path _ _ Hs) as Hp.
    pose proof (merge_fresh_aterm _ _ _ _ _ _ _ _ _ _ (default s (nodes d2 !! n_drv_hash n)) Hm) as Ha.
    apply merge_fresh_shape in Hm as (s' & reset & cons & Hs' & _ & -> & _). cbn in Ha.
    rewrite lookup_insert_eq in Ha. specialize (Ha eq_refl). cbn in Ha.
    assert (Hput : forall fl, dag_wf (mkDerivationDag (<[n_drv_hash n := s']> (nodes d)) (children d)
      (parents d) (<[drv_path (ident s') := n_drv_hash n]> (path_to_hash d)) (dag_soft_features d) fl)).
    { intros fl. apply wf_put; rewrite ?Hs', ?Hp, ?Ha; auto. by apply fresh_aterm with n. }
    destruct Hd' as [->| ->]; cbn; [apply Hput|rewrite insert_delete_eq; apply Hput]. }
  destruct (nodes d !! n_drv_hash n) as [old|] eqn:Eold; [destruct (_ && _)|].
  - cbn [nodes with_nodes]. rewrite lookup_delete_eq. destruct (try_from_node n) as [s|]; [|done].
    destruct (merge_fresh _ _ _ _ _ s _ _) as [d2 r2] eqn:Ef. intros [= <- _]. eauto.
  - rewrite Eold. destruct (merge_existing _ _ _ _ old r) as [s4 r2] eqn:Em. intros [= <- _].
    assert (Hid : ident s4 = ident old) by (unfold merge_existing, rehydrate_from_aterm in Em;
      repeat case_match; by simplify_eq/=).
    assert (Hput := wf_put d (n_drv_hash n) s4 (resubmit_floors d) Hwf). rewrite Hid, (Hn _ eq_refl) in Hput.
    rewrite (insert_id (path_to_hash d)) in Hput by (apply (wf_index d Hwf); eauto).
    apply Hput; [|done|].
    + intros s0 Hs0. apply Hn. congruence.
    + eapply merge_existing_aterm; [exact Em|]. by apply (wf_aterm d Hwf (n_drv_hash n)).
  - rewrite Eold. destruct (try_from_node n) as [s|]; [|done].
    destruct (merge_fresh _ _ _ _ _ s d r) as [d2 r2] eqn:Ef. intros [= <- _]. eauto.
Qed.

Lemma merge_edge_wf d r e d1 r1 : dag_wf d -> merge_edge d r e = (d1, r1) -> dag_wf d1.
Proof.
  intros [Wi Ws We Wa]. unfold merge_edge.
  destruct (path_to_hash d !! parent_drv_path e) as [p0|] eqn:Ep; [|by intros [= <- _]].
  destruct (path_to_hash d !! child_drv_path e) as [c0|] eqn:Ec; [|by intros [= <- _]].
  intros [= <- _]. apply Wi in Ep as (sp & Hsp & _), Ec as (sc & Hsc & _).
  split; cbn; [done|..|done]; unfold edge; cbn; intros p c; rewrite !edge_set_insert.
  - destruct (decide (p0 = p)) as [<-|], (decide (c0 = c)) as [<-|]; set_unfold; rewrite ?Ws; naive_solver.
  - destruct (decide (p0 = p)) as [<-|]; [|apply We].
    intros [->%elem_of_singleton|H]%elem_of_union; [by rewrite Hsp, Hsc|by apply We].
Qed.

Lemma merge_nodes_wf d0 done ns b tp sc d r d1 r1 :
  dag_wf d0 -> submission_ok d0 (done ++ ns) -> node_inv d0 done d r -> dag_wf d ->
  merge_nodes b tp sc d r ns = (d1, r1, None) -> dag_wf d1.
Proof.
  intros Hwf0. revert done d r. induction ns as [|n ns IH]; intros done d r Hso Hinv Hwf; cbn [merge_nodes].
  { by intros [= <- _]. }
  destruct (merge_node b tp sc d r n) as [[d2 r2] []] eqn:En; [done|].
  pose proof (submission_next _ _ _ _ Hso) as Hnx.
  destruct (merge_node_rollback d0 done b tp sc d r n d2 r2 false Hwf0 Hnx Hinv En) as [_ Hinv2].
  apply (IH (done ++ [n])); [by rewrite <- app_assoc|auto|].
  destruct Hnx as [Xh Xp Xn Xi]. eapply merge_node_wf; [exact Hwf|..|exact En].
  - by rewrite (ni_nodes _ _ _ _ Hinv).
  - by rewrite (ni_index _ _ _ _ Hinv).
Qed.

Lemma merge_edges_wf d r es d1 r1 : dag_wf d -> merge_edges d r es = (d1, r1) -> dag_wf d1.
Proof.
  revert d r. induction es as [|e es IH]; intros d r Hwf; cbn [merge_edges]; [by intros [= <- _]|].
  destruct (merge_edge d r e) as [d2 r2] eqn:Ee. apply IH. by eapply merge_edge_wf.
Qed.

Lemma merged_wf d b tp sc es ns dn r :
  dag_wf d -> submission_ok d ns -> merge_nodes b tp sc d MergeResult_empty ns = (dn, r, None) ->
  dag_wf (merge_edges dn r es).1.
Proof.
  intros Hwf Hso En. destruct (merge_edges dn r es) as [dm rm] eqn:Ee.
  eapply merge_edges_wf; [|exact Ee].
  by apply (merge_nodes_wf d [] ns _ _ _ _ _ _ _ Hwf Hso (node_inv_start d) Hwf En).
Qed.

Lemma dag_wf_new : dag_wf DerivationDag_new.
Proof.
  split; cbn; try done.
  - split; [done|]. by intros (s & Hs & _).
Qed.

(** A decision procedure for [submission_ok]. *)
Definition submission_check d (ns : list DerivationNode) : bool :=
  bool_decide (NoDup (List.map n_drv_hash ns)) && bool_decide (NoDup (List.map n_drv_path ns)) &&
  forallb (fun n =>
    match nodes d !! n_drv_hash n with
    | Some s => String.eqb (drv_path (ident s)) (n_drv_path n) | None => true end &&
    match path_to_hash d !! n_drv_path n with
    | Some h => String.eqb h (n_drv_hash n) | None => true end) ns.

Lemma submission_ok_check d ns : submission_check d ns = true -> submission_ok d ns.
Proof.
  unfold submission_check. rewrite !andb_true_iff, !bool_decide_eq_true, forallb_forall.
  intros [[Hh Hp] Ha]. split; [done..| |];
    intros n x Hn%list_elem_of_In Hx; specialize (Ha n Hn); rewrite Hx in Ha;
    apply andb_prop in Ha as [A1 A2]; by apply String.eqb_eq.
Qed.

Lemma dag_wf_equiv d1 d2 : dag_equiv d1 d2 -> dag_wf d2 -> dag_wf d1.
Proof.
  intros [Hn Hi _ _ Hc Hp] [Wi Ws We Wa]. unfold edge in *.
  split; unfold edge; intros *; rewrite ?Hn, ?Hi, ?Hc, ?Hp; eauto.
Qed.

End Rollback.

(** C23: a merge that fails leaves the DAG as it was: on a well-formed DAG and a
    submission whose hashes and paths are distinct and agree with the path index,
    a merge refused for an invalid path or a cycle restores every node, the path
    index, the parked epoch floors and every edge set, including nodes it had
    already replaced, content it had backfilled and demand it had recorded.  The
    same rollback, run later on the record of an accepted merge, restores the DAG
    too. *)
Theorem merge_rollback_exact {E : SchedEnv} `{!SchedEnvLaws E} build_id ns es tp (d : DerivationDag) :
  dag_wf d -> submission_ok d ns ->
  match merge build_id ns es tp d with
  | Some (d', inr _) => dag_equiv d' d
  | Some (d', inl r) => dag_equiv (rollback_merge r build_id d') d
  | None => False
  end.
Proof.
  intros Hwf Hso. unfold merge.
  destruct (merge_nodes _ _ _ d MergeResult_empty ns) as [[dn r] err] eqn:En.
  destruct (merged_rollback _ _ _ _ es _ _ _ _ Hwf Hso En) as [Hn He].
  destruct err as [path|]; [done|]. destruct (merge_edges dn r es) as [dm rm].
  by destruct (cycle_check_total dm (dfs_starts rm) ∅) as [[] ->].
Qed.

(** C31: [merge] keeps a well-formed DAG well formed, whether it accepts or
    refuses, for a submission whose nodes have distinct hashes and distinct paths
    that agree with the nodes and the path index of the DAG: the path index stays
    the inverse of the nodes' paths, the two edge maps stay mirror images, no edge
    dangles, and a node without content has no inputs. *)
Theorem merge_preserves_wf {E : SchedEnv} `{!SchedEnvLaws E} build_id ns es tp (d d' : DerivationDag) out :
  dag_wf d -> submission_ok d ns -> merge build_id ns es tp d = Some (d', out) -> dag_wf d'.
Proof.
  intros Hwf Hso. unfold merge.
  destruct (merge_nodes _ _ _ d MergeResult_empty ns) as [[dn rn] err] eqn:En.
  destruct (merged_rollback _ _ _ _ es _ _ _ _ Hwf Hso En) as [Hn He].
  destruct err as [path|]; [intros [= <- _]; by apply (dag_wf_equiv _ d)|].
  pose proof (merged_wf _ _ _ _ es _ _ _ Hwf Hso En) as Hwf'.
  destruct (merge_edges dn rn es) as [dm rm].
  destruct (cycle_check _ _ _) as [[]|]; intros [= <- _]; [by apply (dag_wf_equiv _ d)|done].
Qed.

(** ** Examples *)

Lemma example_dag_wf : dag_wf (E := example_env) example_dag.
Proof.
  set (ns := [example_node "a" []; example_node "b" []]).
  set (m := merge_nodes (E := example_env) 1 "" {["/nix/store/b"%string]} DerivationDag_new
              MergeResult_empty ns).
  assert (Hso : submission_ok (E := example_env) DerivationDag_new ns)
    by (apply submission_ok_check; by vm_compute).
  assert (Hm : m = (m.1.1, m.1.2, None)).
  { assert (Hnone : m.2 = None) by (by vm_compute). destruct m as [[dn r] err]. cbn in *. congruence. }
  change example_dag with (merge_edges (E := example_env) m.1.1 m.1.2 [example_edge "a" "b"]).1.
  exact (merged_wf _ 1 "" {["/nix/store/b"%string]} _ ns _ _ dag_wf_new Hso Hm).
Qed.

(** Build 2 brings content for [b], asks again for [a], then for a bad path. *)
Definition example_submission : list DerivationNode :=
  [example_node "b" [1]; example_node "a" [2];
   mkDerivationNode "/tmp/c" "c" "c" "x86_64-linux" [] ["out"%string] false [] [] false
    [] false None false None None None None].

Lemma merge_rollback_exact_witness :
  option_map snd (@merge example_env 2 example_submission [] "tp" example_dag)
    = Some (inr (InvalidDrvPath "/tmp/c")) /\
  match @merge example_env 2 example_submission [] "tp" example_dag with
  | Some (d', inr _) => dag_equiv d' example_dag
  | Some (d', inl r) => dag_equiv (rollback_merge r 2 d') example_dag
  | None => False
  end.
Proof.
  split; [by vm_compute|].
  apply (merge_rollback_exact (E := example_env) 2 example_submission [] "tp" example_dag
    example_dag_wf). apply submission_ok_check; by vm_compute.
Defined.

Lemma merge_preserves_wf_witness :
  exists d' out, @merge example_env 2 [example_node "c" [3]; example_node "a" [2]]
    [example_edge "c" "a"] "tp" example_dag = Some (d', out) /\
    nodes example_dag !! "c"%string = None /\ is_Some (nodes d' !! "c"%string) /\
    dag_wf (E := example_env) d'.
Proof.
  set (m := @merge example_env 2 [example_node "c" [3]; example_node "a" [2]]
    [example_edge "c" "a"] "tp" example_dag).
  assert (Hc : option_map (fun x => bool_decide (is_Some (nodes x.1 !! "c"%string))) m = Some true)
    by (by vm_compute).
  destruct m as [[d' out]|] eqn:Em; [|discriminate Hc]. injection Hc as Hc%bool_decide_eq_true.
  exists d', out. split; [done|]. split; [by vm_compute|]. split; [exact Hc|].
  refine (merge_preserves_wf (E := example_env) 2 _ _ _ example_dag d' out example_dag_wf _ Em).
  apply submission_ok_check; by vm_compute.
Defined.
