(* ===== verification/SchedWalk.v ===== *)
(** * Scheduler: walks over the DAG

    [src/rio-scheduler/src/dag/mod.rs]: readiness queries, the topological order
    and the initial states it drives, the cutoff cascade, the removal of a node
    and of a build's interest, and the roots of a build. *)

From S2P Require Import Prelude SchedState SchedDag.

#[local] Open Scope string_scope.
#[local] Open Scope list_scope.
#[local] Open Scope Z_scope.

Section Walk.
Context {E : SchedEnv}.
Implicit Types (d : DerivationDag) (h : string).

Definition dag_set_soft_features (soft : list string) d : DerivationDag :=
  mkDerivationDag (nodes d) (children d) (parents d) (path_to_hash d) soft (resubmit_floors d).

(** ** Readiness *)

Definition dep_completed d (c : string) : bool :=
  match nodes d !! c with
  | Some n => match st_status n with
              | DerivationStatus.Completed | DerivationStatus.Skipped => true
              | _ => false
              end
  | None => false
  end.

Definition all_deps_completed d h : bool :=
  match children d !! h with
  | None => true
  | Some cs => forallb (dep_completed d) (iter cs)
  end.

Definition failed_status (s : DerivationStatus) : bool :=
  match s with
  | DerivationStatus.Poisoned | DerivationStatus.DependencyFailed | DerivationStatus.Cancelled => true
  | _ => false
  end.

Definition any_dep_terminally_failed d h : bool :=
  match children d !! h with
  | None => false
  | Some cs => existsb (fun c =>
      match nodes d !! c with Some n => failed_status (st_status n) | None => false end) (iter cs)
  end.

Definition interests_meet (a b : DerivationState) : bool :=
  negb (bool_decide (interested_builds (demand a) ## interested_builds (demand b))).

Definition builds_co_own d (a b : string) : bool :=
  match nodes d !! a, nodes d !! b with
  | Some na, Some nb => interests_meet na nb
  | _, _ => false
  end.

Definition any_co_owned_dep_terminally_failed d h : bool :=
  match nodes d !! h with
  | None => false
  | Some parent =>
      match children d !! h with
      | None => false
      | Some cs => existsb (fun c =>
          match nodes d !! c with
          | Some n => failed_status (st_status n) && interests_meet parent n
          | None => false
          end) (iter cs)
      end
  end.

Definition revert_target_for d h : DerivationStatus :=
  if any_dep_terminally_failed d h then DerivationStatus.DependencyFailed
  else if all_deps_completed d h then DerivationStatus.Ready
  else DerivationStatus.Queued.

Definition get_parents d h : list string := iter (edge_set (parents d) h).
Definition get_children d h : list string := iter (edge_set (children d) h).
Definition parents_count d h : nat := size (edge_set (parents d) h).

Definition has_status (st : DerivationStatus) d h : bool :=
  match nodes d !! h with Some n => status_eqb (st_status n) st | None => false end.

Definition find_newly_ready d (completed : string) : list string :=
  List.filter (fun p => has_status DerivationStatus.Queued d p && all_deps_completed d p)
    (get_parents d completed).

(** ** Topological order *)

(** [usize] decrement. *)
Definition usize_dec (n : Z) : Z := (n - 1) mod (u64_max + 1).

Definition scope_degree d (scope : gset string) h : Z :=
  match children d !! h with
  | Some cs => Z.of_nat (length (List.filter (fun c => bool_decide (c ∈ scope)) (iter cs)))
  | None => 0
  end.

Definition initial_degrees d (scope : gset string) : gmap string Z :=
  list_to_map (List.map (fun h => (h, scope_degree d scope h)) (iter scope)).

Fixpoint kahn_parents (ps : list string) (deg : gmap string Z) (queue : list string)
    : gmap string Z * list string :=
  match ps with
  | [] => (deg, queue)
  | p :: rest =>
      match deg !! p with
      | Some n =>
          let n' := usize_dec n in
          kahn_parents rest (<[p := n']> deg) (if n' =? 0 then queue ++ [p] else queue)
      | None => kahn_parents rest deg queue
      end
  end.

(** [None]: the fuel ran out. *)
Fixpoint kahn_loop (fuel : nat) d (deg : gmap string Z) (queue order : list string)
    : option (list string) :=
  match fuel with
  | O => None
  | S fuel =>
      match queue with
      | [] => Some order
      | h :: queue =>
          let '(deg, queue) := kahn_parents (get_parents d h) deg queue in
          kahn_loop fuel d deg queue (order ++ [h])
      end
  end.

Definition kahn_topo d (scope : gset string) : option (list string) :=
  let deg := initial_degrees d scope in
  let queue := List.filter (fun h => match deg !! h with Some n => n =? 0 | None => false end)
                 (iter (dom deg)) in
  kahn_loop (S (size scope)) d deg queue [].

(** ** Initial states *)

Fixpoint initial_states_loop d (order : list string) (will_fail : gset string)
    : list (string * DerivationStatus) :=
  match order with
  | [] => []
  | h :: rest =>
      let dep_failed_in_this_call :=
        match children d !! h with
        | Some cs => existsb (fun c => bool_decide (c ∈ will_fail) && builds_co_own d h c) (iter cs)
        | None => false
        end in
      if all_deps_completed d h then
        (h, DerivationStatus.Ready) :: initial_states_loop d rest will_fail
      else if any_co_owned_dep_terminally_failed d h || dep_failed_in_this_call then
        (h, DerivationStatus.DependencyFailed) :: initial_states_loop d rest ({[h]} ∪ will_fail)
      else (h, DerivationStatus.Queued) :: initial_states_loop d rest will_fail
  end.

Definition compute_initial_states d (newly : gset string)
    : option (list (string * DerivationStatus)) :=
  match kahn_topo d newly with
  | Some order => Some (initial_states_loop d order ∅)
  | None => None
  end.

(** ** Cutoff cascade *)

Definition find_cutoff_eligible_speculative d (completed : string) (provisional : gset string)
    : list string :=
  List.filter (fun p =>
    has_status DerivationStatus.Queued d p && negb (bool_decide (p ∈ provisional)) &&
    match children d !! p with
    | Some deps => forallb (fun c => bool_decide (c ∈ provisional)
        || match nodes d !! c with Some n => is_terminal (st_status n) | None => false end) (iter deps)
    | None => true
    end) (get_parents d completed).

(** One [expand] result; [true] when the result-size cap was reached. *)
Fixpoint cascade_take (max_nodes : nat) (next : list string) (visited : gset string)
    (reachable frontier : list string) : gset string * list string * list string * bool :=
  match next with
  | [] => (visited, reachable, frontier, false)
  | n :: rest =>
      if bool_decide (n ∈ visited) then cascade_take max_nodes rest visited reachable frontier
      else
        let reachable := reachable ++ [n] in
        if (max_nodes <=? length reachable)%nat then ({[n]} ∪ visited, reachable, frontier, true)
        else cascade_take max_nodes rest ({[n]} ∪ visited) reachable (n :: frontier)
  end.

(** The head of [frontier] is the end the code pops. *)
Fixpoint cascade_loop (fuel max_nodes : nat) (expand : string -> gset string -> list string)
    (visited : gset string) (reachable frontier : list string) : option (list string * bool) :=
  match fuel with
  | O => None
  | S fuel =>
      match frontier with
      | [] => Some (reachable, false)
      | current :: frontier =>
          match cascade_take max_nodes (expand current visited) visited reachable frontier with
          | (_, reachable, _, true) => Some (reachable, true)
          | (visited, reachable, frontier, false) =>
              cascade_loop fuel max_nodes expand visited reachable frontier
          end
      end
  end.

Definition speculative_cascade_reachable (trigger : string) (max_nodes : nat)
    (expand : string -> gset string -> list string) : option (list string * bool) :=
  cascade_loop (S (S max_nodes)) max_nodes expand ∅ [] [trigger].

Fixpoint skip_candidates (now : Z) (candidates : list string) d : DerivationDag * list string :=
  match candidates with
  | [] => (d, [])
  | h :: rest =>
      match nodes d !! h with
      | Some s =>
          match transition now DerivationStatus.Skipped s with
          | inl s' =>
              let '(d, skipped) := skip_candidates now rest (with_nodes (<[h := s']> (nodes d)) d) in
              (d, h :: skipped)
          | inr _ => skip_candidates now rest d
          end
      | None => skip_candidates now rest d
      end
  end.

Definition cascade_cutoff (now : Z) (trigger : string) (verify : string -> bool) d
    : option (DerivationDag * list string * bool) :=
  match nodes d !! trigger with
  | None => Some (d, [], false)
  | Some _ =>
      match speculative_cascade_reachable trigger MAX_CASCADE_NODES (fun current visited =>
              List.filter verify (find_cutoff_eligible_speculative d current visited)) with
      | None => None
      | Some (candidates, cap_hit) =>
          let '(d, skipped) := skip_candidates now candidates d in Some (d, skipped, cap_hit)
      end
  end.

(** ** Removal *)

Definition drop_build (build_id : Uuid) (s : DerivationState) : DerivationState :=
  with_wanted (delete build_id (wanted_by_build (demand s)))
    (with_interest (interested_builds (demand s) ∖ {[build_id]}) s).

Definition remove_build_interest (build_id : Uuid) d : DerivationDag * list string :=
  let nodes' := drop_build build_id <$> nodes d in
  (with_nodes nodes' d,
   List.filter (fun h =>
     match nodes' !! h with
     | Some s => bool_decide (interested_builds (demand s) = ∅) && negb (is_terminal (st_status s))
     | None => false
     end) (iter (dom (nodes d)))).

(** [get_mut(k)] and remove a member; the emptied set stays. *)
Definition edge_remove_keep (m : gmap string (gset string)) (k v : string)
    : gmap string (gset string) :=
  match m !! k with Some s => <[k := s ∖ {[v]}]> m | None => m end.

Definition remove_node h d : DerivationDag :=
  let d :=
    match nodes d !! h with
    | Some s => with_index (delete h (nodes d)) (delete (drv_path (ident s)) (path_to_hash d)) d
    | None => d
    end in
  let cs := edge_set (children d) h in
  let d := with_edges (delete h (children d))
             (fold_left (fun m c => edge_remove_keep m c h) (iter cs) (parents d)) d in
  let ps := edge_set (parents d) h in
  with_edges (fold_left (fun m p => edge_remove_keep m p h) (iter ps) (children d))
    (delete h (parents d)) d.

Record ReapOutcome : Type := mkReapOutcome {
  reaped_paths : list string;
  surviving_parents : list string;
}.

Definition reapable (s : DerivationState) : bool :=
  bool_decide (interested_builds (demand s) = ∅) && is_terminal (st_status s)
  && negb (status_eqb (st_status s) DerivationStatus.Poisoned).

Fixpoint reap_loop (to_reap : list (string * string)) (survivors : gset string)
    (paths : list string) d : DerivationDag * gset string * list string :=
  match to_reap with
  | [] => (d, survivors, paths)
  | (h, path) :: rest =>
      reap_loop rest (survivors ∪ edge_set (parents d) h) (paths ++ [path]) (remove_node h d)
  end.

Definition remove_build_interest_and_reap (build_id : Uuid) d : DerivationDag * ReapOutcome :=
  let nodes' := drop_build build_id <$> nodes d in
  let d := with_nodes nodes' d in
  let to_reap := omap (fun h =>
    match nodes' !! h with
    | Some s => if reapable s then Some (h, drv_path (ident s)) else None
    | None => None
    end) (iter (dom nodes')) in
  let '(d, survivors, paths) := reap_loop to_reap ∅ [] d in
  let retained := filter (fun p => is_Some (nodes d !! p)) survivors in
  (d, mkReapOutcome paths (sort_strings (elements retained))).

(** ** Roots *)

Definition interested (build_id : Uuid) d h : bool :=
  match nodes d !! h with
  | Some s => bool_decide (build_id ∈ interested_builds (demand s))
  | None => false
  end.

Definition find_roots (build_id : Uuid) d : list string :=
  List.filter (fun h => interested build_id d h &&
    negb (match parents d !! h with
          | Some ps => existsb (interested build_id d) (iter ps)
          | None => false
          end)) (iter (dom (nodes d))).

End Walk.
