(* ===== verification/SchedTopo.v ===== *)
(** * Scheduler: the topological order and the initial states

    Kahn's algorithm emits every node of its scope once, children first, without
    underflow of a degree counter; [compute_initial_states] then condemns exactly
    the nodes above a co-owned failure. *)

From S2P Require Import Prelude SchedState SchedDag SchedCycle SchedRollback SchedWalk.

#[local] Open Scope Z_scope.

Section Topo.
Context {E : SchedEnv} `{!SchedEnvLaws E}.
Implicit Types (d : DerivationDag) (scope : gset string) (h p c : string) (order queue : list string).

#[export] Instance edge_dec d p c : Decision (edge d p c).
Proof. unfold edge. apply _. Defined.

Lemma elem_iter (s : gset string) x : x ∈ iter s <-> x ∈ s.
Proof. by rewrite iter_elements, elem_of_elements. Qed.

Lemma NoDup_iter (s : gset string) : NoDup (iter s).
Proof. rewrite iter_elements. apply NoDup_elements. Qed.

Lemma elem_filter (f : string -> bool) l x : x ∈ List.filter f l <-> x ∈ l /\ f x = true.
Proof. by rewrite !list_elem_of_In, List.filter_In. Qed.

Lemma NoDup_filter_list (f : string -> bool) l : NoDup l -> NoDup (List.filter f l).
Proof. rewrite !NoDup_ListNoDup. apply List.NoDup_filter. Qed.

(** The in-scope children of [h] not yet emitted. *)
Definition rem d scope order h : gset string :=
  (edge_set (children d) h ∩ scope) ∖ list_to_set order.

Lemma elem_rem d scope order h c :
  c ∈ rem d scope order h <-> edge d h c /\ c ∈ scope /\ c ∉ order.
Proof. unfold rem, edge. set_solver. Qed.

Lemma scope_degree_rem d scope h : scope_degree d scope h = Z.of_nat (size (rem d scope [] h)).
Proof.
  unfold scope_degree, rem, edge_set. destruct (children d !! h) as [cs|]; cbn.
  - f_equal. rewrite <- (size_list_to_set (C := gset string)) by apply NoDup_filter_list, NoDup_iter.
    f_equal. apply set_eq. intros x. rewrite elem_of_list_to_set, elem_filter, elem_iter, bool_decide_eq_true.
    set_solver.
  - replace (_ ∖ _) with (∅ : gset string) by set_solver. by rewrite size_empty.
Qed.

Lemma initial_degrees_spec d scope h :
  initial_degrees d scope !! h =
  if bool_decide (h ∈ scope) then Some (Z.of_nat (size (rem d scope [] h))) else None.
Proof.
  unfold initial_degrees. set (l := List.map _ _).
  assert (Hl : NoDup l.*1).
  { unfold l. rewrite <- list_fmap_compose. cbn. rewrite list_fmap_id. apply NoDup_iter. }
  case_bool_decide as Hh.
  - apply elem_of_list_to_map; [done|]. unfold l. rewrite <- scope_degree_rem.
    apply list_elem_of_fmap. exists h. by rewrite elem_iter.
  - apply not_elem_of_list_to_map. unfold l. rewrite <- list_fmap_compose. cbn.
    by rewrite list_fmap_id, elem_iter.
Qed.

Lemma kahn_parents_spec ps deg queue deg' queue' :
  NoDup ps -> kahn_parents ps deg queue = (deg', queue') ->
  (forall p, deg' !! p = if bool_decide (p ∈ ps) then usize_dec <$> deg !! p else deg !! p) /\
  queue' = queue ++ List.filter (fun p =>
    match deg !! p with Some n => usize_dec n =? 0 | None => false end) ps.
Proof.
  revert deg queue. induction ps as [|x ps IH]; intros deg queue Hnd; cbn [kahn_parents List.filter].
  { intros [= <- <-]. split; [done|by rewrite app_nil_r]. }
  apply NoDup_cons in Hnd as [Hx Hnd]. intros H.
  assert (Hext : forall v, List.filter (fun p => match <[x := v]> deg !! p with
      Some n => usize_dec n =? 0 | None => false end) ps =
    List.filter (fun p => match deg !! p with Some n => usize_dec n =? 0 | None => false end) ps).
  { intros v. apply List.filter_ext_in. intros y Hy%list_elem_of_In.
    rewrite lookup_insert_ne by set_solver. done. }
  assert (Hmem : forall p, p <> x -> bool_decide (p ∈ x :: ps) = bool_decide (p ∈ ps))
    by (intros p Hp; apply bool_decide_ext; set_solver).
  destruct (deg !! x) as [n|] eqn:Ex; apply IH in H as [Hd ->]; [|done| |done].
  - split.
    + intros p. rewrite Hd. destruct (decide (p = x)) as [->|Hne].
      * rewrite bool_decide_eq_false_2, bool_decide_eq_true_2 by set_solver.
        by rewrite lookup_insert_eq, Ex.
      * by rewrite lookup_insert_ne, Hmem by done.
    + rewrite Hext. destruct (usize_dec n =? 0); [by rewrite <- app_assoc|done].
  - split; [|done]. intros p. rewrite Hd. destruct (decide (p = x)) as [->|Hne].
    + rewrite bool_decide_eq_false_2, bool_decide_eq_true_2 by set_solver. by rewrite Ex.
    + by rewrite Hmem.
Qed.

Record kahn_inv d scope (deg : gmap string Z) queue order : Prop := {
  ki_deg : forall h, deg !! h =
    if bool_decide (h ∈ scope) then Some (Z.of_nat (size (rem d scope order h))) else None;
  ki_nodup : NoDup (order ++ queue);
  ki_mem : forall h, h ∈ order ++ queue <-> h ∈ scope /\ rem d scope order h = ∅;
  ki_sorted : forall o1 p o2, order = o1 ++ p :: o2 -> forall c, edge d p c -> c ∈ scope -> c ∈ o1;
}.

Lemma rem_snoc_hit d scope order p h :
  h ∈ rem d scope order p -> size (rem d scope order p) = S (size (rem d scope (order ++ [h]) p)).
Proof.
  intros Hh. replace (rem d scope (order ++ [h]) p) with (rem d scope order p ∖ {[h]})
    by (apply set_eq; intros x; rewrite elem_of_difference, !elem_rem; set_solver).
  rewrite size_difference by set_solver. rewrite size_singleton.
  assert (size (rem d scope order p) <> 0)%nat by (apply size_non_empty_iff; set_solver). lia.
Qed.

Lemma rem_snoc_miss d scope order p h : ~ edge d p h -> rem d scope (order ++ [h]) p = rem d scope order p.
Proof. intros Hh. apply set_eq. intros x. rewrite !elem_rem. set_solver. Qed.

Lemma rem_size d scope order h : (size (rem d scope order h) <= size scope)%nat.
Proof. apply subseteq_size. intros x. rewrite elem_rem. tauto. Qed.

Lemma usize_dec_of_nat n : Z.of_nat (S n) <= u64_max -> usize_dec (Z.of_nat (S n)) = Z.of_nat n.
Proof.
  intros Hn. unfold usize_dec. replace (Z.of_nat (S n) - 1) with (Z.of_nat n) by lia.
  apply Z.mod_small. lia.
Qed.

Lemma kahn_step d scope deg h queue order deg' queue' :
  edges_sym d -> Z.of_nat (size scope) <= u64_max -> kahn_inv d scope deg (h :: queue) order ->
  kahn_parents (get_parents d h) deg queue = (deg', queue') ->
  kahn_inv d scope deg' queue' (order ++ [h]).
Proof.
  intros Hsym Hbig [Id In Im Is] Hk.
  apply kahn_parents_spec in Hk as [Hd' ->]; [|apply NoDup_iter].
  assert (Hh : h ∈ scope /\ rem d scope order h = ∅) by (apply Im; set_solver).
  destruct Hh as [Hhs Hhr].
  assert (Hho : h ∉ order) by (apply NoDup_app in In as (_ & In & _); set_solver).
  assert (Hpar : forall p, p ∈ get_parents d h <-> edge d p h)
    by (intros p; unfold get_parents, edge; rewrite elem_iter; symmetry; apply Hsym).
  assert (Hdec : forall p, edge d p h -> p ∈ scope ->
    usize_dec (Z.of_nat (size (rem d scope order p))) = Z.of_nat (size (rem d scope (order ++ [h]) p))).
  { intros p Hp Hps. assert (Hin : h ∈ rem d scope order p) by (by apply elem_rem).
    pose proof (rem_size d scope order p). rewrite (rem_snoc_hit _ _ _ _ _ Hin) in *.
    apply usize_dec_of_nat. lia. }
  set (fresh := List.filter _ (get_parents d h)).
  assert (Hfresh : forall p, p ∈ fresh <-> edge d p h /\ p ∈ scope /\ rem d scope (order ++ [h]) p = ∅).
  { intros p. unfold fresh. rewrite elem_filter, Hpar, Id. case_bool_decide as Hps; [|naive_solver].
    split.
    - intros [He Hz]. rewrite Hdec in Hz by done. split_and!; [done..|]. apply leibniz_equiv, size_empty_iff. lia.
    - intros (He & _ & Hz). split; [done|]. by rewrite Hdec, Hz. }
  assert (Hnew : forall p, p ∈ fresh -> p ∉ order ++ h :: queue).
  { intros p (He & Hps & _)%Hfresh [_ Hr]%Im. apply (not_elem_of_empty (C := gset string) h).
    rewrite <- Hr. by apply elem_rem. }
  assert (Hperm : (order ++ [h]) ++ queue ++ fresh = (order ++ h :: queue) ++ fresh)
    by (by rewrite <- !app_assoc).
  split.
  - intros p. rewrite Hd', Id. rewrite (bool_decide_ext _ _ (Hpar p)).
    case_bool_decide as He; case_bool_decide as Hps; cbn; try done; [by rewrite Hdec|].
    by rewrite rem_snoc_miss.
  - rewrite Hperm. apply NoDup_app. split; [done|]. split; [set_solver|].
    apply NoDup_filter_list, NoDup_iter.
  - intros p. rewrite Hperm, elem_of_app, Im, Hfresh. destruct (decide (edge d p h)) as [He|He].
    + split; [|tauto]. intros [[Hps Hr]|]; [|tauto]. exfalso.
      apply (not_elem_of_empty (C := gset string) h). rewrite <- Hr. by apply elem_rem.
    + rewrite rem_snoc_miss by done. tauto.
  - intros o1 p o2 Ho c Hc Hcs. destruct (decide (o2 = [])) as [->|Hne].
    + apply app_inj_2 in Ho as [-> [= ->]]; [|done].
      destruct (decide (c ∈ o1)) as [|Hco]; [done|]. exfalso.
      apply (not_elem_of_empty (C := gset string) c). rewrite <- Hhr. by apply elem_rem.
    + destruct (exists_last Hne) as (o3 & x & ->). change (p :: o3 ++ [x]) with ((p :: o3) ++ [x]) in Ho.
      rewrite app_assoc in Ho. apply app_inj_2 in Ho as [-> _]; [|done]. by eapply Is.
Qed.

Lemma kahn_start d scope :
  kahn_inv d scope (initial_degrees d scope)
    (List.filter (fun h => match initial_degrees d scope !! h with Some n => n =? 0 | None => false end)
       (iter (dom (initial_degrees d scope)))) [].
Proof.
  split.
  - intros h. apply initial_degrees_spec.
  - cbn. apply NoDup_filter_list, NoDup_iter.
  - intros h. cbn. rewrite elem_filter, elem_iter, elem_of_dom, initial_degrees_spec.
    case_bool_decide as Hh.
    + rewrite Z.eqb_eq. split.
      * intros [_ Hz]. split; [done|]. apply leibniz_equiv, size_empty_iff. lia.
      * intros [_ ->]. by rewrite size_empty.
    + split; [by intros [_ ?]|by intros [? _]].
  - intros o1 p o2 Ho. by destruct o1.
Qed.

Lemma kahn_loop_spec fuel d scope deg queue order :
  edges_sym d -> Z.of_nat (size scope) <= u64_max -> kahn_inv d scope deg queue order ->
  (size scope < fuel + length order)%nat ->
  exists deg' order', kahn_loop fuel d deg queue order = Some order' /\ kahn_inv d scope deg' [] order'.
Proof.
  intros Hsym Hbig. revert deg queue order.
  induction fuel as [|fuel IH]; intros deg queue order Hinv Hf.
  - exfalso. assert (length order <= size scope)%nat; [|lia].
    destruct Hinv as [_ Hnd Hm _]. apply NoDup_app in Hnd as (Hnd & _).
    rewrite <- (size_list_to_set (C := gset string) order) by done. apply subseteq_size.
    intros x Hx%elem_of_list_to_set. apply (Hm x). set_solver.
  - cbn [kahn_loop]. destruct queue as [|h queue]; [by exists deg, order|].
    destruct (kahn_parents (get_parents d h) deg queue) as [deg' queue'] eqn:Ek.
    apply IH; [by eapply kahn_step|]. rewrite length_app. cbn. lia.
Qed.

(** An emptied queue leaves nothing behind: an unemitted node would sit above an
    infinite chain of unemitted children. *)
Lemma kahn_complete d scope deg order :
  acyclic d -> kahn_inv d scope deg [] order -> forall h, h ∈ scope -> h ∈ order.
Proof.
  intros Hac [_ _ Hm _]. set (R p c := edge d p c /\ c ∈ scope).
  assert (Htc : forall x y, tc R x y -> tc (edge d) x y /\ y ∈ scope).
  { induction 1 as [x y [? ?]|x y z [? ?] _ [? ?]];
      [split; [by apply tc_once|done]|split; [by eapply tc_l|done]]. }
  assert (Hsn : forall h, sn R h).
  { intros h. apply tc_finite_sn.
    - intros x Hx. by apply Htc in Hx as [Hx%Hac _].
    - exists (elements scope). intros y [_ Hy]%Htc. by apply elem_of_elements. }
  intros h. induction (Hsn h) as [h _ IH]. intros Hh.
  rewrite <- (app_nil_r order). apply Hm. split; [done|]. apply elem_of_equiv_empty_L.
  intros c (Hc & Hcs & Hco)%elem_rem. apply Hco, (IH c); [split; done|done].
Qed.

Lemma kahn_topo_spec d scope :
  edges_sym d -> acyclic d -> Z.of_nat (size scope) <= u64_max ->
  exists order, kahn_topo d scope = Some order /\ order ≡ₚ elements scope /\
    forall o1 p o2 c, order = o1 ++ p :: o2 -> edge d p c -> c ∈ scope -> c ∈ o1.
Proof.
  intros Hsym Hac Hbig.
  destruct (kahn_loop_spec (S (size scope)) d scope _ _ [] Hsym Hbig (kahn_start d scope))
    as (deg & order & Hk & Hinv); [cbn; lia|].
  exists order. split; [exact Hk|]. split.
  - apply NoDup_Permutation; [|apply NoDup_elements|].
    + pose proof (ki_nodup _ _ _ _ _ Hinv) as H. by rewrite app_nil_r in H.
    + intros x. rewrite elem_of_elements. split; [|by eapply kahn_complete].
      intros Hx. apply (ki_mem _ _ _ _ _ Hinv). by rewrite app_nil_r.
  - intros o1 p o2 c Ho. by eapply (ki_sorted _ _ _ _ _ Hinv).
Qed.

(** ** Initial states *)

(** Every dependency has its output available. *)
Definition deps_done d h : Prop :=
  forall c, edge d h c -> exists n, nodes d !! c = Some n /\
    (st_status n = DerivationStatus.Completed \/ st_status n = DerivationStatus.Skipped).

(** Some live build wants both. *)
Definition co_owned d h c : Prop :=
  exists b nh nc, nodes d !! h = Some nh /\ nodes d !! c = Some nc /\
    b ∈ interested_builds (demand nh) /\ b ∈ interested_builds (demand nc).

(** The nodes of [scope] that cannot complete: above a co-owned dependency that
    has failed for good, or above a co-owned one that is itself condemned. *)
Inductive condemned d scope : string -> Prop :=
| condemned_failed h c n : h ∈ scope -> ~ deps_done d h -> edge d h c -> co_owned d h c ->
    nodes d !! c = Some n -> failed_status (st_status n) = true -> condemned d scope h
| condemned_above h c : h ∈ scope -> ~ deps_done d h -> edge d h c -> co_owned d h c ->
    condemned d scope c -> condemned d scope h.

Lemma all_deps_completed_spec d h : all_deps_completed d h = true <-> deps_done d h.
Proof.
  unfold all_deps_completed, deps_done, edge, edge_set. destruct (children d !! h) as [cs|]; cbn; [|set_solver].
  rewrite forallb_forall. setoid_rewrite <- list_elem_of_In. setoid_rewrite elem_iter.
  split; intros H c Hc; specialize (H c Hc); unfold dep_completed in *.
  - destruct (nodes d !! c) as [n|]; [|done]. exists n. destruct (st_status n); auto; done.
  - destruct H as (n & -> & [-> | ->]); done.
Qed.

Lemma interests_meet_spec (a b : DerivationState) : interests_meet a b = true <->
  exists x, x ∈ interested_builds (demand a) /\ x ∈ interested_builds (demand b).
Proof.
  unfold interests_meet. rewrite negb_true_iff, bool_decide_eq_false. split.
  - intros H. destruct (set_choose_or_empty (interested_builds (demand a) ∩ interested_builds (demand b)))
      as [[x Hx]|He]; [exists x; set_solver|]. exfalso. apply H. set_solver.
  - intros (x & Ha & Hb) Hd. by apply (Hd x).
Qed.

Lemma builds_co_own_spec d a b : builds_co_own d a b = true <-> co_owned d a b.
Proof.
  unfold builds_co_own, co_owned. destruct (nodes d !! a) as [na|], (nodes d !! b) as [nb|];
    rewrite ?interests_meet_spec; naive_solver.
Qed.

Lemma any_co_owned_spec d h : any_co_owned_dep_terminally_failed d h = true <->
  exists c n, edge d h c /\ co_owned d h c /\ nodes d !! c = Some n /\ failed_status (st_status n) = true.
Proof.
  unfold any_co_owned_dep_terminally_failed, edge, edge_set, co_owned.
  destruct (nodes d !! h) as [nh|] eqn:Eh; [|split; [done|naive_solver]].
  destruct (children d !! h) as [cs|]; cbn; [|split; [done|set_solver]].
  rewrite existsb_exists. setoid_rewrite <- list_elem_of_In. setoid_rewrite elem_iter. split.
  - intros (c & Hc & H). destruct (nodes d !! c) as [n|] eqn:Ec; [|done].
    apply andb_prop in H as [Hf (b & ? & ?)%interests_meet_spec]. exists c, n. split_and!; eauto 10.
  - intros (c & n & Hc & (b & nh' & nc & [= <-] & Hn & ? & ?) & Hn' & Hf). simplify_eq.
    exists c. split; [done|]. rewrite Hn, Hf. apply interests_meet_spec. eauto.
Qed.

Definition initial_spec d scope h (st : DerivationStatus) : Prop :=
  (deps_done d h /\ st = DerivationStatus.Ready) \/
  (condemned d scope h /\ st = DerivationStatus.DependencyFailed) \/
  (~ deps_done d h /\ ~ condemned d scope h /\ st = DerivationStatus.Queued).

Lemma initial_states_loop_spec d scope pre order (will_fail : gset string) :
  (forall x, x ∈ scope <-> x ∈ pre ++ order) ->
  (forall o1 p o2 c, pre ++ order = o1 ++ p :: o2 -> edge d p c -> c ∈ scope -> c ∈ o1) ->
  NoDup (pre ++ order) -> (forall x, x ∈ will_fail <-> x ∈ pre /\ condemned d scope x) ->
  Forall2 (fun h r => r.1 = h /\ initial_spec d scope h r.2) order (initial_states_loop d order will_fail).
Proof.
  revert pre will_fail. induction order as [|h order IH]; intros pre wf Hmem Hsort Hnd Hwf;
    cbn [initial_states_loop]; [constructor|].
  assert (Hnext : forall wf', (forall x, x ∈ wf' <-> x ∈ pre ++ [h] /\ condemned d scope x) ->
    Forall2 (fun h r => r.1 = h /\ initial_spec d scope h r.2) order (initial_states_loop d order wf')).
  { intros wf' Hwf'. apply (IH (pre ++ [h])); rewrite <- ?app_assoc; auto. }
  assert (Hcons : forall c, condemned d scope c -> c ∈ scope) by (by intros c []).
  assert (Hndone : forall c, condemned d scope c -> ~ deps_done d c) by (by intros c []).
  set (dep := match children d !! h with Some cs => _ | None => false end).
  assert (Hdep : dep = true <-> exists c, edge d h c /\ condemned d scope c /\ co_owned d h c).
  { unfold dep, edge, edge_set. destruct (children d !! h) as [cs|] eqn:Ecs; cbn; [|split; [done|set_solver]].
    rewrite existsb_exists. setoid_rewrite <- list_elem_of_In. setoid_rewrite elem_iter.
    setoid_rewrite andb_true_iff. setoid_rewrite bool_decide_eq_true. setoid_rewrite builds_co_own_spec.
    setoid_rewrite Hwf. split; [naive_solver|]. intros (c & Hc & Hcc & Hco). exists c. split_and!; try done.
    apply (Hsort pre h order c); [done| |by apply Hcons]. unfold edge, edge_set. by rewrite Ecs. }
  assert (Hh : h ∈ scope) by (apply Hmem; set_solver).
  assert (Hpre : h ∉ pre) by (apply NoDup_app in Hnd; set_solver).
  clearbody dep. pose proof (all_deps_completed_spec d h) as Hall.
  destruct (all_deps_completed d h).
  { constructor; [split; [done|left; split; [by apply Hall|done]]|]. apply Hnext. intros x. rewrite Hwf.
    rewrite elem_of_app, list_elem_of_singleton. split; [tauto|]. intros [[?| ->] Hc]; [done|].
    exfalso. by apply (Hndone _ Hc), Hall. }
  assert (Hnd' : ~ deps_done d h) by (intros H; apply Hall in H; done).
  pose proof (any_co_owned_spec d h) as Hany.
  destruct (any_co_owned_dep_terminally_failed d h || dep) eqn:Eor.
  - assert (Hc : condemned d scope h).
    { apply orb_prop in Eor as [Ho|Ho].
      - apply Hany in Ho as (c & n & ? & ? & ? & ?). by eapply condemned_failed.
      - apply Hdep in Ho as (c & ? & ? & ?). by eapply condemned_above. }
    constructor; [split; [done|right; by left]|]. apply Hnext. intros x.
    rewrite elem_of_union, elem_of_singleton, Hwf, elem_of_app, list_elem_of_singleton. naive_solver.
  - apply orb_false_elim in Eor as [Ha Hb].
    assert (Hc : ~ condemned d scope h).
    { intros Hc. destruct Hc as [h c n ? ? ? ? ? ?|h c ? ? ? ? ?].
      - rewrite (proj2 Hany) in Ha; [done|]. eauto 10.
      - rewrite (proj2 Hdep) in Hb; [done|]. eauto. }
    constructor; [split; [done|right; right; done]|]. apply Hnext. intros x. rewrite Hwf.
    rewrite elem_of_app, list_elem_of_singleton. split; [tauto|]. intros [[?| ->] Hx]; done.
Qed.

End Topo.

(** the topological order is one: on an acyclic DAG whose edge maps mirror
    each other, Kahn's algorithm terminates with no degree counter underflowing,
    emits every node of its scope exactly once, and emits each node after every
    one of its children in the scope. *)
Theorem kahn_topo_exact {E : SchedEnv} `{!SchedEnvLaws E} (d : DerivationDag) (scope : gset string) :
  edges_sym d -> acyclic d -> Z.of_nat (size scope) <= u64_max ->
  exists order, kahn_topo d scope = Some order /\ order ≡ₚ elements scope /\
    forall i j p c, order !! i = Some p -> order !! j = Some c -> edge d p c -> (j < i)%nat.
Proof.
  intros Hsym Hac Hbig. destruct (kahn_topo_spec d scope Hsym Hac Hbig) as (order & Hk & Hp & Hs).
  exists order. split_and!; [done..|]. intros i j p c Hi Hj He.
  assert (Hc : c ∈ scope) by (apply elem_of_elements; rewrite <- Hp; by eapply list_elem_of_lookup_2).
  assert (Hnd : NoDup order) by (rewrite Hp; apply NoDup_elements).
  pose proof (take_drop_middle _ _ _ Hi) as Hsplit.
  pose proof (Hs (take i order) p (drop (S i) order) c (eq_sym Hsplit) He Hc) as Hin.
  apply list_elem_of_lookup_1 in Hin as [k Hk']. apply lookup_take_Some in Hk' as [Hk' Hlt].
  by rewrite (NoDup_lookup _ _ _ _ Hnd Hj Hk').
Qed.

(** C30: initial states are exact.  In a DAG whose edge maps mirror each other and
    which has no cycle, and for at most [u64::MAX] newly inserted nodes, the
    function ends, and each newly inserted node gets one verdict:
    ready when every dependency has its output, failed when it stands above a
    dependency that failed for good, or above a newly condemned one, with every
    link of the chain wanted by a common live build, and [Queued] otherwise, as
    the code returns it (the comment of the function says [Created] there).  A
    failure owned by another build never condemns it. *)
Theorem compute_initial_states_exact {E : SchedEnv} `{!SchedEnvLaws E} (d : DerivationDag)
    (newly : gset string) :
  edges_sym d -> acyclic d -> Z.of_nat (size newly) <= u64_max ->
  exists ts, compute_initial_states d newly = Some ts /\ List.map fst ts ≡ₚ elements newly /\
    forall h st, (h, st) ∈ ts -> initial_spec d newly h st.
Proof.
  intros Hsym Hac Hbig. destruct (kahn_topo_spec d newly Hsym Hac Hbig) as (order & Hk & Hp & Hs).
  unfold compute_initial_states. rewrite Hk. eexists. split; [reflexivity|].
  assert (Hall : Forall2 (fun h r => r.1 = h /\ initial_spec d newly h r.2) order
    (initial_states_loop d order ∅)).
  { apply (initial_states_loop_spec d newly []); cbn; [|done| |set_solver].
    - intros x. by rewrite Hp, elem_of_elements.
    - rewrite Hp. apply NoDup_elements. }
  clear Hs Hk. split.
  - rewrite <- Hp. clear Hp. induction Hall as [|h r l l' [H _] _ IH]; cbn; [done|]. by rewrite H, IH.
  - intros h st Hin. apply list_elem_of_lookup_1 in Hin as [i Hi].
    destruct (Forall2_lookup_r _ _ _ _ _ Hall Hi) as (h' & _ & Heq & Hsp). cbn in *. by subst.
Qed.

(** ** Examples *)

Definition example_scope : gset string := {["a"%string; "b"%string]}.

Lemma kahn_topo_exact_witness :
  kahn_topo (E := example_env) example_dag example_scope = Some ["b"%string; "a"%string] /\
  exists order, kahn_topo (E := example_env) example_dag example_scope = Some order /\
    order ≡ₚ elements example_scope /\
    forall i j p c, order !! i = Some p -> order !! j = Some c ->
      edge (E := example_env) example_dag p c -> (j < i)%nat.
Proof.
  split; [by vm_compute|].
  apply (kahn_topo_exact (E := example_env) example_dag example_scope);
    [exact (wf_sym _ example_dag_wf)|exact example_dag_acyclic|by vm_compute].
Defined.

Lemma compute_initial_states_exact_witness :
  compute_initial_states (E := example_env) example_dag example_scope =
    Some [("b"%string, DerivationStatus.Ready); ("a"%string, DerivationStatus.Queued)] /\
  exists ts, compute_initial_states (E := example_env) example_dag example_scope = Some ts /\
    List.map fst ts ≡ₚ elements example_scope /\
    forall h st, (h, st) ∈ ts -> initial_spec (E := example_env) example_dag example_scope h st.
Proof.
  split; [by vm_compute|].
  apply (compute_initial_states_exact (E := example_env) example_dag example_scope);
    [exact (wf_sym _ example_dag_wf)|exact example_dag_acyclic|by vm_compute].
Defined.
