(* ===== verification/SchedCutoff.v ===== *)
(** * Scheduler: the cutoff cascade

    [cascade_cutoff] terminates, skips only queued nodes whose store check
    passed and whose dependencies are all settled, and, unless it hits its cap,
    skips every one of them. *)

From S2P Require Import Prelude SchedState SchedDag SchedCycle SchedRollback SchedWalk SchedTopo.

#[local] Open Scope Z_scope.

Section Cascade.
Context {E : SchedEnv} `{!SchedEnvLaws E}.
Implicit Types (d : DerivationDag) (vis : gset string) (reach front : list string).

(** The [children]-driven part: what one expansion adds. *)
Lemma cascade_take_spec m next vis reach front vis' reach' front' cap :
  cascade_take m next vis reach front = (vis', reach', front', cap) -> (length reach < m)%nat ->
  exists added, reach' = reach ++ added /\ NoDup added /\ (forall x, x ∈ added -> x ∈ next /\ x ∉ vis) /\
    if cap then length reach' = m
    else vis' = list_to_set added ∪ vis /\ front' = rev added ++ front /\
         (forall x, x ∈ next -> x ∈ vis') /\ (length reach' < m)%nat.
Proof.
  revert vis reach front. induction next as [|n next IH]; intros vis reach front; cbn [cascade_take].
  { intros [= <- <- <- <-] Hm. exists []. rewrite app_nil_r. split_and!; try done; try constructor; set_solver. }
  case_bool_decide as Hn.
  { intros H Hm. apply IH in H as (added & -> & Hnd & Hin & Hrest); [|done]. exists added.
    split_and!; try done; [intros x Hx; apply Hin in Hx; set_solver|].
    destruct cap; [done|]. destruct Hrest as (-> & -> & Hnext & Hlen). split_and!; try done. set_solver. }
  assert (Hlen : length (reach ++ [n]) = S (length reach)) by (rewrite length_app; cbn; lia).
  destruct (Nat.leb_spec m (length (reach ++ [n]))) as [Hc|Hc].
  { intros [= <- <- <- <-] Hm. exists [n]. split_and!; [done|apply NoDup_singleton|set_solver|lia]. }
  intros H _. apply IH in H as (added & -> & Hnd & Hin & Hrest); [|done]. exists (n :: added).
  rewrite <- app_assoc in *. split_and!; [done|constructor; [|done]; intros Hx; apply Hin in Hx; set_solver| |].
  { intros x [->|Hx]%elem_of_cons; [set_solver|]. apply Hin in Hx. set_solver. }
  destruct cap; [done|]. destruct Hrest as (-> & -> & Hnext & Hl). split_and!; try done.
  - cbn. set_solver.
  - cbn. by rewrite <- app_assoc.
  - set_solver.
Qed.

(** ** The walk over one DAG *)

Section OneDag.
Context (d : DerivationDag) (verify : string -> bool) (trigger : string).
Hypothesis Hsym : edges_sym d.

Definition queued p : Prop := exists s, nodes d !! p = Some s /\ st_status s = DerivationStatus.Queued.
Definition terminal c : Prop := exists s, nodes d !! c = Some s /\ is_terminal (st_status s) = true.

#[local] Instance terminal_dec c : Decision (terminal c).
Proof.
  unfold terminal. destruct (nodes d !! c) as [s|]; [|right; by intros (s & [=] & _)].
  destruct (is_terminal (st_status s)) eqn:Es; [left; by exists s|right; intros (s' & [= <-] & H); congruence].
Defined.

Definition expand current visited : list string :=
  List.filter verify (find_cutoff_eligible_speculative d current visited).

Lemma has_status_spec st p :
  has_status st d p = true <-> exists s, nodes d !! p = Some s /\ st_status s = st.
Proof.
  unfold has_status. destruct (nodes d !! p) as [s|]; [|naive_solver].
  assert (Hb : status_eqb (st_status s) st = true <-> st_status s = st)
    by (destruct (st_status s), st; split; intros H; try done; try discriminate).
  rewrite Hb. naive_solver.
Qed.

Lemma elem_expand current vis p :
  p ∈ expand current vis <-> edge d p current /\ queued p /\ p ∉ vis /\ verify p = true /\
    forall c, edge d p c -> c ∈ vis \/ terminal c.
Proof.
  unfold expand, find_cutoff_eligible_speculative. rewrite !elem_filter, !andb_true_iff, has_status_spec.
  unfold get_parents. rewrite elem_iter, negb_true_iff, bool_decide_eq_false.
  assert (Hch : match children d !! p with
    | Some deps => forallb (fun c => bool_decide (c ∈ vis) ||
        match nodes d !! c with Some n => is_terminal (st_status n) | None => false end) (iter deps)
    | None => true end = true <-> forall c, edge d p c -> c ∈ vis \/ terminal c).
  { unfold edge, edge_set. destruct (children d !! p) as [cs|]; cbn; [|set_solver].
    rewrite forallb_forall. setoid_rewrite <- list_elem_of_In. setoid_rewrite elem_iter.
    setoid_rewrite orb_true_iff. setoid_rewrite bool_decide_eq_true. unfold terminal.
    split; intros H c Hc; (destruct (H c Hc) as [|Ht]; [by left|right]);
      destruct (nodes d !! c); naive_solver. }
  rewrite Hch. unfold queued, edge. rewrite <- (Hsym p current). tauto.
Qed.

Record cascade_inv vis reach front : Prop := {
  ca_vis : vis = list_to_set reach;
  ca_nodup : NoDup reach;
  ca_sound : forall r1 p r2, reach = r1 ++ p :: r2 -> queued p /\ verify p = true /\
    (exists x, x ∈ trigger :: r1 /\ edge d p x) /\ forall c, edge d p c -> c ∈ r1 \/ terminal c;
  ca_front : forall x, x ∈ front -> x ∈ trigger :: reach;
}.

(** A candidate still missing has an unsettled dependency, or one in the frontier. *)
Definition pending vis reach front : Prop :=
  forall p x, queued p -> verify p = true -> p ∉ vis -> edge d p x -> x ∈ trigger :: reach -> x ∉ front ->
    exists c, edge d p c /\ ~ terminal c /\ (c ∉ vis \/ c ∈ front).

Lemma sound_extend vis reach current added :
  cascade_inv vis reach (current :: []) -> (forall x, x ∈ added -> x ∈ expand current vis) ->
  forall r1 p r2, reach ++ added = r1 ++ p :: r2 -> queued p /\ verify p = true /\
    (exists x, x ∈ trigger :: r1 /\ edge d p x) /\ forall c, edge d p c -> c ∈ r1 \/ terminal c.
Proof.
  intros [Hv _ Hs Hf] Hadd r1 p r2 Heq.
  apply app_eq_app in Heq as (l & [[-> Heq]|[-> Heq]]).
  - destruct l as [|y l]; cbn in Heq.
    + rewrite app_nil_r in *. subst added.
      destruct (proj1 (elem_expand current vis p) (Hadd p ltac:(set_solver))) as (He & Hq & _ & Hver & Hc).
      split_and!; try done; [exists current; split; [apply Hf; set_solver|done]|].
      intros c Hc'. destruct (Hc c Hc') as [Hin|]; [left|by right]. subst vis. set_solver.
    + injection Heq as -> ->. by apply (Hs r1 y l).
  - assert (Hp : p ∈ added) by (rewrite Heq; set_solver).
    apply Hadd, elem_expand in Hp as (He & Hq & _ & Hver & Hc).
    split_and!; try done; [exists current; split; [|done]|].
    + assert (Hin : current ∈ trigger :: reach) by (apply Hf; set_solver). set_solver.
    + intros c Hc'. destruct (Hc c Hc') as [Hin|]; [left|by right]. subst vis. set_solver.
Qed.

Lemma pending_extend vis reach current front added :
  pending vis reach (current :: front) -> (forall x, x ∈ expand current vis -> x ∈ added \/ x ∈ vis) ->
  pending (list_to_set added ∪ vis) (reach ++ added) (rev added ++ front).
Proof.
  intros Hpend Hall p x Hq Hver Hpv Hpx Hx Hxf.
  assert (Hrev : forall y, y ∈ rev added <-> y ∈ added)
    by (intros y; by rewrite !list_elem_of_In, <- in_rev).
  assert (Hlift : forall c, c ∉ vis -> c ∉ (list_to_set added ∪ vis : gset string) \/ c ∈ rev added ++ front).
  { intros c Hc. destruct (decide (c ∈ added)); [right; apply elem_of_app; left; by apply Hrev|left; set_solver]. }
  destruct (decide (edge d p current)) as [He|He].
  - destruct (decide (Forall (fun c => c ∈ vis \/ terminal c) (elements (edge_set (children d) p)))) as [Hf|Hf].
    + exfalso. rewrite Forall_forall in Hf.
      assert (Hin : p ∈ expand current vis).
      { apply elem_expand. split_and!; try done; [set_solver|]. intros c Hc. apply Hf. by apply elem_of_elements. }
      apply Hall in Hin. set_solver.
    + apply not_Forall_Exists, Exists_exists in Hf as (c & Hc & Hn); [|apply _].
      cbn in Hn. exists c. split_and!; [by apply elem_of_elements|tauto|]. apply Hlift. tauto.
  - assert (Hxr : x ∈ trigger :: reach /\ x ∉ current :: front).
    { rewrite elem_of_app, Hrev in Hxf. split; [set_solver|].
      intros [->|Hx']%elem_of_cons; [done|]. apply Hxf. by right. }
    destruct (Hpend p x Hq Hver ltac:(set_solver) Hpx (proj1 Hxr) (proj2 Hxr)) as (c & Hc & Ht & Hor).
    exists c. split_and!; try done. destruct Hor as [Hor|[->|Hor]%elem_of_cons]; [by apply Hlift|done|].
    right. apply elem_of_app. by right.
Qed.

Lemma cascade_loop_spec fuel m vis reach front :
  cascade_inv vis reach front -> pending vis reach front -> (length reach < m)%nat ->
  (length front + (m - length reach) < fuel)%nat ->
  exists reach' cap, cascade_loop fuel m expand vis reach front = Some (reach', cap) /\
    NoDup reach' /\ (length reach' <= m)%nat /\
    (forall r1 p r2, reach' = r1 ++ p :: r2 -> queued p /\ verify p = true /\
      (exists x, x ∈ trigger :: r1 /\ edge d p x) /\ forall c, edge d p c -> c ∈ r1 \/ terminal c) /\
    if cap then length reach' = m else pending (list_to_set reach') reach' [].
Proof.
  revert vis reach front. induction fuel as [|fuel IH]; intros vis reach front Hinv Hpend Hm Hf; [lia|].
  cbn [cascade_loop]. destruct front as [|current front].
  { exists reach, false. destruct Hinv as [-> ? ? ?]. split_and!; try done. lia. }
  destruct (cascade_take m (expand current vis) vis reach front) as [[[vis' reach'] front'] cap] eqn:Et.
  apply cascade_take_spec in Et as (added & -> & Hnd & Hin & Hrest); [|done].
  assert (Hinv1 : cascade_inv vis reach [current]).
  { destruct Hinv as [? ? ? Hfr]. split; try done. intros x Hx. apply Hfr. set_solver. }
  pose proof (sound_extend vis reach current added Hinv1 (fun x Hx => proj1 (Hin x Hx))) as Hsound.
  assert (Hnd' : NoDup (reach ++ added)).
  { apply NoDup_app. destruct Hinv as [-> ? _ _]. split_and!; try done.
    intros x Hx Hx'. destruct (Hin x Hx') as [_ Hn]. set_solver. }
  destruct cap.
  { exists (reach ++ added), true. split_and!; try done. lia. }
  destruct Hrest as (-> & -> & Hnext & Hlen). apply IH; try done.
  - split; try done.
    + destruct Hinv as [-> _ _ _]. set_solver.
    + intros x. rewrite elem_of_app, list_elem_of_In, <- in_rev, <- list_elem_of_In.
      intros [Hx|Hx]; [set_solver|]. destruct Hinv as [_ _ _ Hfr]. specialize (Hfr x). set_solver.
  - apply pending_extend with current; [done|]. intros x Hx. apply Hnext in Hx. set_solver.
  - rewrite length_app, length_rev, !length_app in *. cbn in Hf. lia.
Qed.

Lemma reachable_spec m :
  (0 < m)%nat ->
  exists reach cap, speculative_cascade_reachable trigger m expand = Some (reach, cap) /\
    NoDup reach /\ (length reach <= m)%nat /\
    (forall r1 p r2, reach = r1 ++ p :: r2 -> queued p /\ verify p = true /\
      (exists x, x ∈ trigger :: r1 /\ edge d p x) /\ forall c, edge d p c -> c ∈ r1 \/ terminal c) /\
    if cap then length reach = m else pending (list_to_set reach) reach [].
Proof.
  intros Hm. apply cascade_loop_spec; [split| |done|cbn; lia].
  - done.
  - constructor.
  - intros r1 p r2 Hr. by destruct r1.
  - set_solver.
  - intros p x _ _ _ _ Hx Hx'. set_solver.
Qed.
End OneDag.

Definition skip_state (now : Z) : DerivationState -> DerivationState :=
  apply_validated_transition now DerivationStatus.Queued DerivationStatus.Skipped.

Lemma skip_candidates_spec now l d :
  NoDup l -> (forall p, p ∈ l -> queued d p) ->
  let '(d', skipped) := skip_candidates now l d in
  skipped = l /\
  (forall h, nodes d' !! h = if bool_decide (h ∈ l) then skip_state now <$> nodes d !! h else nodes d !! h) /\
  children d' = children d /\ parents d' = parents d /\ path_to_hash d' = path_to_hash d /\
  dag_soft_features d' = dag_soft_features d /\ resubmit_floors d' = resubmit_floors d.
Proof.
  revert d. induction l as [|h l IH]; intros d Hnd Hq; cbn [skip_candidates]; [done|].
  apply NoDup_cons in Hnd as [Hh Hnd]. destruct (Hq h ltac:(set_solver)) as (s & Hs & Hst).
  rewrite Hs. unfold transition. rewrite Hst.
  change (validate_transition DerivationStatus.Queued DerivationStatus.Skipped) with (@None TransitionError).
  cbn iota.
  set (d1 := with_nodes _ d). specialize (IH d1 Hnd).
  destruct (skip_candidates now l d1) as [d' skipped]. destruct IH as (-> & Hn & Hrest).
  { intros p Hp. destruct (Hq p ltac:(set_solver)) as (s' & Hs' & Hst'). exists s'. split; [|done].
    cbn. rewrite lookup_insert_ne by set_solver. done. }
  split; [done|]. split; [|done]. intros k. rewrite Hn. cbn [nodes d1 with_nodes].
  destruct (decide (h = k)) as [<-|Hne].
  - rewrite bool_decide_eq_false_2, bool_decide_eq_true_2 by set_solver. by rewrite lookup_insert_eq, Hs.
  - rewrite lookup_insert_ne by done. rewrite (bool_decide_ext (k ∈ h :: l) (k ∈ l)) by set_solver. done.
Qed.

End Cascade.

(** the cutoff cascade is exact.  From a node whose output did not change it
    terminates, touches at most [MAX_CASCADE_NODES] nodes and each once, and moves
    to [Skipped] only nodes that were queued, that passed the store check and whose
    dependencies are all settled or were skipped before them; nothing else in the
    DAG changes.  Unless the cap was hit, no node it could have skipped is left. *)
Theorem cascade_cutoff_exact {E : SchedEnv} `{!SchedEnvLaws E} now trigger verify (d : DerivationDag) :
  edges_sym d -> is_Some (nodes d !! trigger) ->
  exists d' skipped cap, cascade_cutoff now trigger verify d = Some (d', skipped, cap) /\
    NoDup skipped /\ (length skipped <= MAX_CASCADE_NODES)%nat /\
    (forall r1 p r2, skipped = r1 ++ p :: r2 -> queued d p /\ verify p = true /\
      (exists x, x ∈ trigger :: r1 /\ edge d p x) /\
      forall c, edge d p c -> c ∈ r1 \/ terminal d c) /\
    (if cap then length skipped = MAX_CASCADE_NODES
     else forall p x, queued d p -> verify p = true -> edge d p x -> x ∈ trigger :: skipped ->
       (forall c, edge d p c -> c ∈ skipped \/ terminal d c) -> p ∈ skipped) /\
    (forall h, nodes d' !! h =
       if bool_decide (h ∈ skipped) then skip_state now <$> nodes d !! h else nodes d !! h) /\
    children d' = children d /\ parents d' = parents d /\ path_to_hash d' = path_to_hash d.
Proof.
  intros Hsym [s Hs]. unfold cascade_cutoff. rewrite Hs.
  destruct (reachable_spec d verify trigger Hsym MAX_CASCADE_NODES)
    as (reach & cap & Hr & Hnd & Hlen & Hsound & Hrest); [unfold MAX_CASCADE_NODES; lia|].
  unfold expand in Hr. rewrite Hr.
  pose proof (skip_candidates_spec now reach d Hnd) as Hskip.
  destruct (skip_candidates now reach d) as [d' skipped]. destruct Hskip as (-> & Hn & Hc & Hp & Hi & _).
  { intros p (r1 & r2 & ->)%list_elem_of_split. by eapply Hsound. }
  exists d', reach, cap. split_and!; try done.
  destruct cap; [done|]. intros p x Hq Hv Hpx Hx Hall.
  destruct (decide (p ∈ reach)) as [|Hp']; [done|]. exfalso.
  destruct (Hrest p x Hq Hv) as (c & Hc' & Ht & [Hn'|Hn']); try done; try set_solver.
Qed.

(** Three nodes in a chain; the bottom one is done. *)
Definition example_chain : @DerivationDag example_env :=
  let d := match @merge example_env 1 [example_node "a" []; example_node "b" []; example_node "c" []]
    [example_edge "a" "b"; example_edge "b" "c"] "" DerivationDag_new with
    | Some (d, _) => d | None => DerivationDag_new end in
  let set st h d := match nodes d !! h with
    | Some s => with_nodes (<[h := with_life (mkNodeLife st None None None None None None) s]> (nodes d)) d
    | None => d end in
  set DerivationStatus.Queued "a"%string
    (set DerivationStatus.Queued "b"%string (set DerivationStatus.Completed "c"%string d)).

Lemma cascade_cutoff_exact_witness :
  option_map (fun r => (snd (fst r), snd r)) (cascade_cutoff (E := example_env) 7 "c" (fun _ => true) example_chain)
    = Some (["b"%string; "a"%string], false) /\
  exists d' skipped cap,
    cascade_cutoff (E := example_env) 7 "c" (fun _ => true) example_chain = Some (d', skipped, cap) /\
    (length skipped <= MAX_CASCADE_NODES)%nat /\ parents d' = parents example_chain.
Proof.
  split; [by vm_compute|].
  destruct (cascade_cutoff_exact (E := example_env) 7 "c" (fun _ => true) example_chain)
    as (d' & skipped & cap & Hrun & _ & Hlen & _ & _ & _ & _ & Hp & _).
  - intros p c. unfold edge_set.
    replace (children example_chain) with
      ({["a"%string := {["b"%string]}; "b"%string := {["c"%string]}]} : gmap string (gset string))
      by (by vm_compute).
    replace (parents example_chain) with
      ({["b"%string := {["a"%string]}; "c"%string := {["b"%string]}]} : gmap string (gset string))
      by (by vm_compute).
    rewrite !lookup_insert, !lookup_singleton. repeat case_decide; subst; cbn; set_solver.
  - apply (bool_decide_eq_true_1 (is_Some (nodes example_chain !! "c"%string))). by vm_compute.
  - exists d', skipped, cap. by split_and!.
Defined.
