(* ===== verification/SchedReap.v ===== *)
(** * Scheduler: removal, reaping and roots

    Removing a node by its own degree scrubs every reference to it; reaping a
    build's terminal orphans keeps the DAG well formed and reports exactly the
    parents that lost a child; every node a build wants hangs below one of its
    roots. *)

From S2P Require Import Prelude SchedState SchedDag SchedCycle SchedRollback SchedWalk SchedTopo.

#[local] Open Scope Z_scope.

Section Reap.
Context {E : SchedEnv} `{!SchedEnvLaws E}.
Implicit Types (d : DerivationDag) (h p c : string).

Lemma edge_set_remove_keep (m : gmap string (gset string)) k v k' :
  edge_set (edge_remove_keep m k v) k' = if decide (k = k') then edge_set m k' ∖ {[v]} else edge_set m k'.
Proof.
  unfold edge_remove_keep, edge_set. destruct (m !! k) as [x|] eqn:Ex.
  - rewrite lookup_insert. destruct (decide (k = k')) as [<-|]; [by rewrite Ex|done].
  - destruct (decide (k = k')) as [<-|]; [rewrite Ex; cbn; set_solver|done].
Qed.

Lemma fold_remove_keep v l (m : gmap string (gset string)) k x :
  x ∈ edge_set (fold_left (fun m c => edge_remove_keep m c v) l m) k <->
  x ∈ edge_set m k /\ ~ (k ∈ l /\ x = v).
Proof.
  revert m. induction l as [|y l IH]; intros m; cbn [fold_left]; [set_solver|].
  rewrite IH, edge_set_remove_keep. destruct (decide (y = k)) as [<-|]; set_solver.
Qed.

(** The degree-driven scrub removes every edge at [h]. *)
Lemma remove_node_edges d h :
  edges_sym d ->
  (forall p c, c ∈ edge_set (children (remove_node h d)) p <->
     c ∈ edge_set (children d) p /\ p <> h /\ c <> h) /\
  (forall p c, p ∈ edge_set (parents (remove_node h d)) c <->
     p ∈ edge_set (parents d) c /\ p <> h /\ c <> h).
Proof.
  intros Hsym. unfold remove_node. set (d1 := match nodes d !! h with Some s => _ | None => d end).
  assert (Hc1 : children d1 = children d) by (unfold d1; by destruct (nodes d !! h)).
  assert (Hp1 : parents d1 = parents d) by (unfold d1; by destruct (nodes d !! h)).
  clearbody d1. cbn. rewrite Hc1, Hp1. split; intros p c.
  - rewrite fold_remove_keep, edge_set_delete, elem_iter, fold_remove_keep, elem_iter, <- (Hsym p h).
    destruct (decide (h = p)) as [<-|Hne]; [set_solver|].
    destruct (decide (c = h)) as [->|]; [|naive_solver]. split; [|tauto]. intros [Hin Hn]. exfalso.
    apply Hn. split; [|done]. split; [done|]. intros [_ ->]. done.
  - rewrite edge_set_delete. destruct (decide (h = c)) as [<-|Hne]; [set_solver|].
    rewrite fold_remove_keep, elem_iter, (Hsym h c). split; [|naive_solver].
    intros [Hin Hn]. split_and!; [done| |done]. intros ->. by apply Hn.
Qed.

Lemma remove_node_nodes d h :
  nodes (remove_node h d) = delete h (nodes d) /\
  path_to_hash (remove_node h d) =
    (match nodes d !! h with
     | Some s => delete (drv_path (ident s)) (path_to_hash d) | None => path_to_hash d end).
Proof. unfold remove_node. destruct (nodes d !! h) as [s|] eqn:Es; cbn; [done|by rewrite delete_id]. Qed.

Lemma remove_node_wf d h : dag_wf d -> dag_wf (remove_node h d).
Proof.
  intros [Wi Ws We Wa]. destruct (remove_node_edges d h Ws) as [Hc Hp].
  destruct (remove_node_nodes d h) as [Hn Hi]. split.
  - intros p k. rewrite Hn, Hi. destruct (nodes d !! h) as [s|] eqn:Es.
    + destruct (decide (drv_path (ident s) = p)) as [<-|Hne].
      * rewrite lookup_delete_eq. split; [done|]. intros (s' & [Hk Hs']%lookup_delete_Some & Hp').
        exfalso. apply Hk.
        assert (H1 : path_to_hash d !! drv_path (ident s) = Some h) by (apply Wi; eauto).
        assert (H2 : path_to_hash d !! drv_path (ident s) = Some k) by (apply Wi; eauto). congruence.
      * rewrite lookup_delete_ne by done. rewrite Wi. setoid_rewrite lookup_delete_Some.
        split; [|naive_solver]. intros (s' & Hs' & <-). exists s'. split_and!; try done. intros <-. congruence.
    + rewrite delete_id by done. apply Wi.
  - intros p c. by rewrite Hc, Hp, (Ws p c).
  - intros p c (He & Hp' & Hc')%Hc. destruct (We p c He). by rewrite Hn, !lookup_delete_ne.
  - intros k s. rewrite Hn. intros [_ Hs]%lookup_delete_Some. by eapply Wa.
Qed.

Lemma reap_loop_spec l d surv paths :
  dag_wf d ->
  let '(d', surv', paths') := reap_loop l surv paths d in
  dag_wf d' /\ paths' = paths ++ List.map snd l /\
  (forall h, nodes d' !! h = if bool_decide (h ∈ List.map fst l) then None else nodes d !! h) /\
  (forall p c, edge d' p c <-> edge d p c /\ p ∉ List.map fst l /\ c ∉ List.map fst l) /\
  (forall p, p ∉ List.map fst l ->
     p ∈ surv' <-> p ∈ surv \/ exists c, c ∈ List.map fst l /\ edge d p c).
Proof.
  revert d surv paths. induction l as [|[h path] l IH]; intros d surv paths Hwf; cbn [reap_loop List.map fst snd].
  { split_and!; try done; try set_solver. by rewrite app_nil_r. }
  specialize (IH (remove_node h d) (surv ∪ edge_set (parents d) h) (paths ++ [path]) (remove_node_wf d h Hwf)).
  destruct (reap_loop l _ _ _) as [[d' surv'] paths'].
  destruct IH as (Hwf' & -> & Hn & He & Hs).
  destruct (remove_node_edges d h (wf_sym d Hwf)) as [Hc _]. unfold edge in *.
  split_and!; [done|by rewrite <- app_assoc|..].
  - intros k. rewrite Hn, (proj1 (remove_node_nodes d h)). destruct (decide (h = k)) as [<-|Hne].
    + rewrite lookup_delete_eq, (bool_decide_eq_true_2 (h ∈ h :: _)) by set_solver. by destruct (bool_decide _).
    + rewrite lookup_delete_ne by done.
      by rewrite (bool_decide_ext (k ∈ h :: List.map fst l) (k ∈ List.map fst l)) by set_solver.
  - intros p c. rewrite He, Hc. set_solver.
  - intros p Hp. rewrite Hs by set_solver. rewrite elem_of_union, <- (wf_sym d Hwf p h). split.
    + intros [[Hin|Hin]|(c & Hcl & Hpc)]; [by left|right; exists h; set_solver|right].
      apply Hc in Hpc as (Hpc & _). exists c. set_solver.
    + intros [Hin|(c & [->|Hcl]%elem_of_cons & Hpc)]; [tauto|tauto|].
      destruct (decide (c = h)) as [->|Hne]; [tauto|]. right. exists c. split; [done|].
      apply Hc. set_solver.
Qed.

Lemma insert_sorted_perm x l : insert_sorted x l ≡ₚ x :: l.
Proof.
  induction l as [|y l IH]; cbn; [done|]. destruct (String.leb x y); [done|]. rewrite IH. constructor.
Qed.

Lemma sort_strings_perm l : sort_strings l ≡ₚ l.
Proof. induction l as [|x l IH]; cbn; [done|]. by rewrite insert_sorted_perm, IH. Qed.

Lemma drop_build_wf b d : dag_wf d -> dag_wf (with_nodes (drop_build b <$> nodes d) d).
Proof.
  intros [Wi Ws We Wa]. unfold edge in *. split; cbn; unfold edge; cbn.
  - intros p k. rewrite Wi. rewrite lookup_fmap. destruct (nodes d !! k) as [s|]; cbn; naive_solver.
  - done.
  - intros p c He. destruct (We p c He). by rewrite !lookup_fmap, !fmap_is_Some.
  - intros h s. rewrite lookup_fmap. intros (s0 & Hs0 & ->)%fmap_Some. cbn. by eapply Wa.
Qed.

(** The orphans the reap takes: those no build wants any more, settled, not
    poisoned. *)
Definition reap_result b (s : DerivationState) : option DerivationState :=
  let s := drop_build b s in if reapable s then None else Some s.

Lemma reap_list_spec b d x :
  x ∈ omap (fun h => match (drop_build b <$> nodes d) !! h with
      | Some s => if reapable s then Some (h, drv_path (ident s)) else None | None => None end)
      (iter (dom (drop_build b <$> nodes d))) <->
  exists s, nodes d !! x.1 = Some s /\ reap_result b s = None /\ x.2 = drv_path (ident s).
Proof.
  rewrite list_elem_of_omap. setoid_rewrite elem_iter. setoid_rewrite elem_of_dom. setoid_rewrite lookup_fmap.
  unfold reap_result. split.
  - intros (h & [s' Hs'] & H). destruct (nodes d !! h) as [s|] eqn:Es; cbn in *; [|done].
    destruct (reapable (drop_build b s)) eqn:Er; [|done]. injection H as <-. cbn. exists s. by rewrite Er.
  - intros (s & Hs & Hr & Hp). exists x.1. rewrite Hs. cbn. split; [by eexists|].
    destruct (reapable (drop_build b s)); [|done]. destruct x as [k q]. cbn in *. by rewrite Hp.
Qed.

(** ** Roots *)

Lemma find_roots_spec b d h :
  edges_sym d ->
  h ∈ find_roots b d <-> interested b d h = true /\ forall p, edge d p h -> interested b d p = false.
Proof.
  intros Hsym. unfold find_roots. rewrite elem_filter, elem_iter, elem_of_dom, andb_true_iff, negb_true_iff.
  assert (Hpar : match parents d !! h with Some ps => existsb (interested b d) (iter ps) | None => false end
    = false <-> forall p, edge d p h -> interested b d p = false).
  { unfold edge. setoid_rewrite (Hsym _ h). unfold edge_set. destruct (parents d !! h) as [ps|]; cbn;
      [|set_solver]. split.
    - intros H p Hp. destruct (interested b d p) eqn:Ep; [|done]. rewrite <- H. symmetry.
      apply existsb_exists. exists p. split; [apply list_elem_of_In; by apply elem_iter|done].
    - intros H. apply not_true_iff_false. intros (p & Hp & Hi)%existsb_exists.
      apply list_elem_of_In, elem_iter, H in Hp. congruence. }
  rewrite Hpar. unfold interested. destruct (nodes d !! h); naive_solver.
Qed.

(** An edge between two nodes the build wants. *)
Definition wanted_edge b d p c : Prop := edge d p c /\ interested b d p = true /\ interested b d c = true.

Lemma roots_above b d h :
  edges_sym d -> acyclic d -> interested b d h = true ->
  exists r, r ∈ find_roots b d /\ rtc (wanted_edge b d) r h.
Proof.
  intros Hsym Hac. set (R x y := edge d y x /\ interested b d y = true).
  assert (Htc : forall x y, tc R x y -> tc (edge d) y x /\ interested b d y = true).
  { intros x y H. induction H as [x y [? ?]|x y z [? ?] _ [? ?]];
      [split; [by apply tc_once|done]|split; [by eapply tc_r|done]]. }
  assert (Hsn : sn R h).
  { apply tc_finite_sn.
    - intros x Hx. by apply Htc in Hx as [Hx%Hac _].
    - exists (elements (dom (nodes d))). intros y [_ Hy]%Htc. apply elem_of_elements, elem_of_dom.
      unfold interested in Hy. by destruct (nodes d !! y). }
  induction Hsn as [h _ IH]. intros Hh.
  destruct (decide (Exists (fun p => interested b d p = true) (elements (edge_set (parents d) h)))) as [Hx|Hx].
  - apply Exists_exists in Hx as (p & Hp%elem_of_elements%Hsym & Hi).
    destruct (IH p) as (r & Hr & Hrp); [split; done|done|]. exists r. split; [done|].
    eapply rtc_r; [exact Hrp|]. by split_and!.
  - exists h. split; [|apply rtc_refl]. apply find_roots_spec; [done|]. split; [done|].
    intros p Hp. apply not_true_iff_false. intros Hi. apply Hx, Exists_exists. exists p.
    split; [by apply elem_of_elements, Hsym|done].
Qed.

End Reap.

(** reaping is exact.  Removing a build's interest and reaping its orphans
    keeps the DAG well formed; the nodes that remain are exactly those that some
    other build wants, that are unsettled or that are poisoned, each minus this
    build's interest and contribution; the edges that remain are those between
    remaining nodes; the paths reported are those of the reaped nodes; and the
    parents reported for re-evaluation are exactly the remaining ones that lost a
    child. *)
Theorem reap_exact {E : SchedEnv} `{!SchedEnvLaws E} build_id (d d' : DerivationDag) out :
  dag_wf d -> remove_build_interest_and_reap build_id d = (d', out) ->
  dag_wf d' /\
  (forall h, nodes d' !! h = nodes d !! h ≫= reap_result build_id) /\
  (forall p c, edge d' p c <-> edge d p c /\ is_Some (nodes d' !! p) /\ is_Some (nodes d' !! c)) /\
  (forall path, path ∈ reaped_paths out <-> exists h s,
     nodes d !! h = Some s /\ nodes d' !! h = None /\ path = drv_path (ident s)) /\
  (forall p, p ∈ surviving_parents out <->
     is_Some (nodes d' !! p) /\ exists c, edge d p c /\ nodes d' !! c = None).
Proof.
  intros Hwf Hrun. unfold remove_build_interest_and_reap in Hrun. cbn zeta in Hrun.
  set (l := omap _ _) in Hrun.
  pose proof (reap_list_spec build_id d) as Hl. fold l in Hl.
  pose proof (reap_loop_spec l _ ∅ [] (drop_build_wf build_id d Hwf)) as Hloop.
  destruct (reap_loop l ∅ [] _) as [[dm surv] paths]. injection Hrun as <- <-.
  destruct Hloop as (Hwf' & -> & Hn & He & Hs). cbn [reaped_paths surviving_parents app].
  assert (Hkey : forall h, h ∈ List.map fst l <-> exists s, nodes d !! h = Some s /\ reap_result build_id s = None).
  { intros h. rewrite list_elem_of_fmap. setoid_rewrite Hl. split.
    - intros ([k q] & -> & s & Hs' & Hr & _). by exists s.
    - intros (s & Hs' & Hr). exists (h, drv_path (ident s)). split; [done|]. by exists s. }
  assert (Hnodes : forall h, nodes dm !! h = nodes d !! h ≫= reap_result build_id).
  { intros h. rewrite Hn. cbn. rewrite lookup_fmap. case_bool_decide as Hb.
    - apply Hkey in Hb as (s & -> & Hr). done.
    - destruct (nodes d !! h) as [s|] eqn:Es; cbn; [|done]. unfold reap_result. cbn zeta.
      destruct (reapable (drop_build build_id s)) eqn:Er; [|done]. exfalso. apply Hb, Hkey.
      exists s. unfold reap_result. by rewrite Er. }
  assert (Hgone : forall h, is_Some (nodes d !! h) -> nodes dm !! h = None <-> h ∈ List.map fst l).
  { intros h [s Hs']. rewrite Hnodes, Hkey, Hs'. cbn. naive_solver. }
  assert (Hstay : forall h, is_Some (nodes d !! h) -> is_Some (nodes dm !! h) <-> h ∉ List.map fst l).
  { intros h Hh. rewrite <- Hgone by done. rewrite <- not_eq_None_Some. done. }
  assert (Hends : forall p c, edge d p c -> is_Some (nodes d !! p) /\ is_Some (nodes d !! c)) by apply Hwf.
  split_and!; [done|done|..].
  - intros p c. rewrite He. unfold edge. cbn. split.
    + intros (Hpc & Hp & Hc). destruct (Hends p c Hpc). by rewrite !Hstay.
    + intros (Hpc & Hp & Hc). destruct (Hends p c Hpc). by rewrite !Hstay in *.
  - intros path. rewrite list_elem_of_fmap. setoid_rewrite Hl. split.
    + intros ([k q] & -> & s & Hs' & Hr & Hq). exists k, s. split_and!; try done.
      cbn in Hs'. by rewrite Hnodes, Hs'.
    + intros (h & s & Hs' & Hnone & ->). exists (h, drv_path (ident s)). split; [done|]. exists s.
      split_and!; try done. by rewrite Hnodes, Hs' in Hnone.
  - intros p. rewrite sort_strings_perm, elem_of_elements, elem_of_filter. split.
    + intros [Hp Hps]. split; [done|]. assert (Hpn : is_Some (nodes d !! p)).
      { destruct Hp as [s Hs']. rewrite Hnodes in Hs'. by destruct (nodes d !! p). }
      apply Hs in Hps as [?|(c & Hc & Hpc)]; [set_solver| |by apply Hstay].
      exists c. split; [done|]. apply Hgone; [by destruct (Hends p c Hpc)|done].
    + intros [Hp (c & Hpc & Hc)]. split; [done|]. destruct (Hends p c Hpc) as [Hpn Hcn].
      apply Hs; [by apply Hstay|]. right. exists c. split; [by apply Hgone|done].
Qed.

(** a build's roots cover it.  In an acyclic DAG every node the build wants
    is reached from one of [find_roots] along edges between nodes that build
    wants, so a build with any node left has a root; and a root is wanted by the
    build while none of the parents that build wants depends on it, whatever other
    builds hang above it. *)
Theorem find_roots_cover {E : SchedEnv} `{!SchedEnvLaws E} build_id (d : DerivationDag) :
  edges_sym d -> acyclic d ->
  (forall h, interested build_id d h = true ->
     exists r, r ∈ find_roots build_id d /\ rtc (wanted_edge build_id d) r h) /\
  (forall r, r ∈ find_roots build_id d <->
     interested build_id d r = true /\ forall p, edge d p r -> interested build_id d p = false).
Proof.
  intros Hsym Hac. split.
  - intros h. by apply roots_above.
  - intros r. by apply find_roots_spec.
Qed.

(** ** Examples *)

Lemma reap_exact_witness :
  exists d' out, remove_build_interest_and_reap (E := example_env) 1 example_dag = (d', out) /\
    dag_wf (E := example_env) d' /\
    forall p, p ∈ surviving_parents out <->
     is_Some (nodes d' !! p) /\ exists c, edge (E := example_env) example_dag p c /\ nodes d' !! c = None.
Proof.
  destruct (remove_build_interest_and_reap (E := example_env) 1 example_dag) as [d' out] eqn:Er.
  exists d', out. split; [done|].
  destruct (reap_exact (E := example_env) 1 example_dag d' out example_dag_wf Er) as (Hwf & _ & _ & _ & Hs).
  by split.
Defined.

Lemma find_roots_cover_witness :
  find_roots (E := example_env) 1 example_dag = ["a"%string] /\
  exists r, r ∈ find_roots (E := example_env) 1 example_dag /\
    rtc (wanted_edge (E := example_env) 1 example_dag) r "b"%string.
Proof.
  split; [by vm_compute|].
  apply (find_roots_cover (E := example_env) 1 example_dag (wf_sym _ example_dag_wf) example_dag_acyclic).
  by vm_compute.
Defined.
