(* ===== verification/NixBytes.v ===== *)
(** * Nix formats: byte strings

    Bytes are [Z] in 0..255 and a Rust [str], [String], [Vec<u8>] or byte slice
    is a list of them; a [str] is moreover valid UTF-8, which only [from_utf8]
    checks.  The file has the standard-library operations the formats use:
    prefixes, splitting, the byte-wise order, UTF-8 validation, hexadecimal, and
    the bit view of a byte list. *)

From Stdlib Require Import Ascii.
From Stdlib Require Export Zify ZifyNat.
From S2P Require Import Prelude.

#[local] Open Scope Z_scope.

Ltac Zify.zify_post_hook ::= Z.div_mod_to_equations.

Abbreviation bytes := (list Z).

Definition byte_ok (b : Z) : Prop := 0 <= b < 256.
Abbreviation bytes_ok := (Forall byte_ok).

Definition str (s : string) : bytes :=
  List.map (fun a => Z.of_nat (nat_of_ascii a)) (String.list_ascii_of_string s).

Lemma str_ok s : bytes_ok (str s).
Proof.
  unfold str. apply Forall_forall. intros b (a & <- & _)%list_elem_of_In%in_map_iff.
  unfold byte_ok. pose proof (nat_ascii_bounded a). lia.
Qed.

(** [strip_prefix]. *)
Fixpoint strip_prefix (p s : bytes) : option bytes :=
  match p, s with
  | [], _ => Some s
  | x :: p, y :: s => if x =? y then strip_prefix p s else None
  | _ :: _, [] => None
  end.

Lemma strip_prefix_Some p s r : strip_prefix p s = Some r <-> s = p ++ r.
Proof.
  revert s. induction p as [|x p IH]; intros [|y s]; cbn; try naive_solver.
  destruct (Z.eqb_spec x y) as [->|]; [rewrite IH|]; naive_solver.
Qed.

(** [split_once] at a one-byte separator. *)
Fixpoint split_once (sep : Z) (s : bytes) : option (bytes * bytes) :=
  match s with
  | [] => None
  | b :: s =>
      if b =? sep then Some ([], s)
      else match split_once sep s with Some (l, r) => Some (b :: l, r) | None => None end
  end.

Lemma split_once_Some sep s l r : split_once sep s = Some (l, r) <-> s = l ++ sep :: r /\ sep ∉ l.
Proof.
  revert l. induction s as [|b s IH]; intros l; cbn.
  { split; [done|]. intros [H _]. by destruct l. }
  destruct (Z.eqb_spec b sep) as [->|Hne].
  - split; [intros [= <- <-]; set_solver|]. intros [H Hl]. destruct l as [|x l]; cbn in H; simplify_eq; [done|].
    set_solver.
  - split.
    + destruct (split_once sep s) as [[l' r']|]; [|done]. intros [= <- <-].
      destruct (proj1 (IH l') eq_refl) as [-> Hl]. split; [done|]. set_solver.
    + intros [H Hl]. destruct l as [|x l]; cbn in H; simplify_eq.
      rewrite (proj2 (IH l)); [done|]. set_solver.
Qed.

Lemma split_once_None sep s : split_once sep s = None <-> sep ∉ s.
Proof.
  induction s as [|b s IH]; cbn; [set_solver|]. destruct (Z.eqb_spec b sep) as [->|]; [set_solver|].
  destruct (split_once sep s) as [[l r]|]; [|set_solver]. split; [done|].
  intros H. assert (sep ∉ s) by set_solver. by apply IH in H0.
Qed.

Definition bytes_eqb (a b : bytes) : bool := bool_decide (a = b).

(** The order of [str] and [[u8]]. *)
Fixpoint bytes_ltb (a b : bytes) : bool :=
  match a, b with
  | _, [] => false
  | [], _ :: _ => true
  | x :: a, y :: b => if x <? y then true else if x =? y then bytes_ltb a b else false
  end.

Lemma bytes_ltb_irrefl a : bytes_ltb a a = false.
Proof. induction a as [|x a IH]; cbn; [done|]. by rewrite Z.ltb_irrefl, Z.eqb_refl. Qed.

Lemma bytes_ltb_trans a b c : bytes_ltb a b = true -> bytes_ltb b c = true -> bytes_ltb a c = true.
Proof.
  revert b c. induction a as [|x a IH]; intros [|y b] [|z c]; cbn; try done.
  destruct (Z.ltb_spec x y), (Z.ltb_spec y z), (Z.eqb_spec x y), (Z.eqb_spec y z),
    (Z.ltb_spec x z), (Z.eqb_spec x z); try lia; try done; subst; eauto.
Qed.

Lemma bytes_ltb_total a b : bytes_ltb a b = true \/ a = b \/ bytes_ltb b a = true.
Proof.
  revert b. induction a as [|x a IH]; intros [|y b]; cbn; auto.
  destruct (Z.ltb_spec x y), (Z.eqb_spec x y), (Z.ltb_spec y x), (Z.eqb_spec y x); auto; try lia.
  subst. destruct (IH b) as [|[->|]]; auto.
Qed.

(** The order in which the code sorts names. *)
Definition bytes_le (a b : bytes) : Prop := bytes_ltb b a = false.

#[export] Instance bytes_le_dec : RelDecision bytes_le := fun a b => decide (bytes_ltb b a = false).

#[export] Instance bytes_le_total : Total bytes_le.
Proof.
  intros a b. unfold bytes_le. destruct (bytes_ltb_total a b) as [H|[->|H]].
  - left. destruct (bytes_ltb b a) eqn:E; [|done]. pose proof (bytes_ltb_trans _ _ _ H E) as Hc. by rewrite bytes_ltb_irrefl in Hc.
  - left. apply bytes_ltb_irrefl.
  - right. destruct (bytes_ltb a b) eqn:E; [|done]. pose proof (bytes_ltb_trans _ _ _ H E) as Hc. by rewrite bytes_ltb_irrefl in Hc.
Qed.

#[export] Instance bytes_le_trans : Transitive bytes_le.
Proof.
  intros a b c. unfold bytes_le. intros H1 H2. destruct (bytes_ltb c a) eqn:E; [|done].
  destruct (bytes_ltb_total a b) as [H|[H|H]]; [|congruence..]. pose proof (bytes_ltb_trans _ _ _ E H). congruence.
Qed.

(** ** UTF-8 *)

Definition in_range (lo hi : Z) (b : option Z) : bool :=
  match b with Some b => (lo <=? b) && (b <=? hi) | None => false end.

(** The length of the well-formed sequence at the head, if there is one
    (the table of [core::str::from_utf8]). *)
Definition utf8_len (s : bytes) : option nat :=
  match s with
  | [] => None
  | b0 :: rest =>
      let b1 := rest !! 0%nat in let b2 := rest !! 1%nat in let b3 := rest !! 2%nat in
      let cont := in_range 128 191 in
      if b0 <? 128 then Some 1%nat
      else if (194 <=? b0) && (b0 <=? 223) then if cont b1 then Some 2%nat else None
      else if b0 =? 224 then if in_range 160 191 b1 && cont b2 then Some 3%nat else None
      else if ((225 <=? b0) && (b0 <=? 236)) || ((238 <=? b0) && (b0 <=? 239)) then
        if cont b1 && cont b2 then Some 3%nat else None
      else if b0 =? 237 then if in_range 128 159 b1 && cont b2 then Some 3%nat else None
      else if b0 =? 240 then if in_range 144 191 b1 && cont b2 && cont b3 then Some 4%nat else None
      else if (241 <=? b0) && (b0 <=? 243) then if cont b1 && cont b2 && cont b3 then Some 4%nat else None
      else if b0 =? 244 then if in_range 128 143 b1 && cont b2 && cont b3 then Some 4%nat else None
      else None
  end.

(** The scalar value of the sequence at the head of a valid string. *)
Definition decode_char (s : bytes) : Z :=
  let low n := Z.land (nth n s 0) 63 in
  let b0 := nth 0 s 0 in
  if b0 <? 128 then b0
  else if b0 <? 224 then Z.lor (Z.shiftl (Z.land b0 31) 6) (low 1%nat)
  else if b0 <? 240 then Z.lor (Z.shiftl (Z.land b0 15) 12) (Z.lor (Z.shiftl (low 1%nat) 6) (low 2%nat))
  else Z.lor (Z.shiftl (Z.land b0 7) 18)
         (Z.lor (Z.shiftl (low 1%nat) 12) (Z.lor (Z.shiftl (low 2%nat) 6) (low 3%nat))).

Fixpoint utf8_scan (fuel : nat) (s : bytes) (pos : nat) : option nat :=
  match s with
  | [] => None
  | _ :: _ =>
      match fuel, utf8_len s with
      | S fuel, Some n => utf8_scan fuel (drop n s) (pos + n)
      | _, _ => Some pos
      end
  end.

(** [valid_up_to] of [String::from_utf8]; [None] when the bytes are valid. *)
Definition utf8_invalid_at (s : bytes) : option nat := utf8_scan (length s) s 0.

Definition utf8_valid (s : bytes) : bool :=
  match utf8_invalid_at s with None => true | Some _ => false end.

(** ** Hexadecimal *)

Definition hex_digit (n : Z) : Z := if n <? 10 then 48 + n else 87 + n.

Definition hex_encode (s : bytes) : bytes :=
  flat_map (fun b => [hex_digit (b / 16); hex_digit (b mod 16)]) s.

Lemma hex_encode_length s : length (hex_encode s) = (2 * length s)%nat.
Proof. induction s as [|b s IH]; cbn; [done|]. fold (hex_encode s). lia. Qed.

Lemma hex_encode_inj a b : bytes_ok a -> bytes_ok b -> hex_encode a = hex_encode b -> a = b.
Proof.
  intros Ha. revert b. induction Ha as [|x a Hx _ IH]; intros b Hb; destruct Hb as [|y b Hy Hb]; cbn; try done.
  intros [= H1 H2 H3]. f_equal; [|by apply IH]. unfold hex_digit, byte_ok in *.
  destruct (Z.ltb_spec (x / 16) 10), (Z.ltb_spec (y / 16) 10),
    (Z.ltb_spec (x mod 16) 10), (Z.ltb_spec (y mod 16) 10); lia.
Qed.

(** ** Bits *)

(** Bit [k] of a byte list, least significant first. *)
Definition bitat (l : bytes) (k : nat) : bool :=
  Z.testbit (nth (k / 8) l 0) (Z.of_nat (k mod 8)).

Lemma byte_high b n : byte_ok b -> 8 <= n -> Z.testbit b n = false.
Proof.
  intros Hb Hn. rewrite <- (Z.mod_small b (2 ^ 8)) by (unfold byte_ok in Hb; cbn; lia).
  apply Z.mod_pow2_bits_high. lia.
Qed.

Lemma byte_bits_eq a b :
  byte_ok a -> byte_ok b -> (forall j, (j < 8)%nat -> Z.testbit a (Z.of_nat j) = Z.testbit b (Z.of_nat j)) ->
  a = b.
Proof.
  intros Ha Hb H. apply Z.bits_inj'. intros n Hn. destruct (Z.lt_ge_cases n 8).
  - rewrite <- (Z2Nat.id n) by lia. apply H. lia.
  - by rewrite !byte_high.
Qed.

Lemma byte_of_bits x : 0 <= x -> (forall n, 8 <= n -> Z.testbit x n = false) -> byte_ok x.
Proof.
  intros Hx Hb. split; [done|]. destruct (Z.eq_dec x 0) as [->|]; [lia|].
  apply (Z.log2_lt_pow2 _ 8); [lia|]. destruct (Z.lt_ge_cases (Z.log2 x) 8) as [|Hge]; [done|].
  specialize (Hb _ Hge). rewrite Z.bit_log2 in Hb by lia. done.
Qed.

Lemma byte_ok_lor x y : byte_ok x -> byte_ok y -> byte_ok (Z.lor x y).
Proof.
  intros Hx Hy. apply byte_of_bits; [apply Z.lor_nonneg; unfold byte_ok in *; lia|].
  intros n Hn. by rewrite Z.lor_spec, !byte_high.
Qed.

Lemma byte_ok_lxor x y : byte_ok x -> byte_ok y -> byte_ok (Z.lxor x y).
Proof.
  intros Hx Hy. apply byte_of_bits; [apply Z.lxor_nonneg; unfold byte_ok in *; lia|].
  intros n Hn. by rewrite Z.lxor_spec, !byte_high.
Qed.

Lemma nth_ok l i : bytes_ok l -> byte_ok (nth i l 0).
Proof.
  intros Hl. destruct (Nat.lt_ge_cases i (length l)).
  - eapply Forall_forall; [exact Hl|]. apply list_elem_of_In, nth_In. done.
  - rewrite nth_overflow by done. unfold byte_ok. lia.
Qed.

Lemma bits_eq a b :
  bytes_ok a -> bytes_ok b -> length a = length b ->
  (forall k, (k < 8 * length a)%nat -> bitat a k = bitat b k) -> a = b.
Proof.
  intros Ha Hb Hl H. apply (nth_ext _ _ 0 0); [done|]. intros n Hn.
  apply byte_bits_eq; [by apply nth_ok..|]. intros j Hj. specialize (H (8 * n + j)%nat ltac:(lia)).
  unfold bitat in H. replace ((8 * n + j) / 8)%nat with n in H by lia.
  by replace ((8 * n + j) mod 8)%nat with j in H by lia.
Qed.

Lemma bitat_overflow l k : (8 * length l <= k)%nat -> bitat l k = false.
Proof. intros Hk. unfold bitat. rewrite nth_overflow by lia. apply Z.testbit_0_l. Qed.
