(* ===== verification/NixBase32.v ===== *)
(** * Nix formats: nixbase32

    [src/rio-nix/src/store_path.rs], module [nixbase32].  Every byte list
    decodes back from its encoding, and a decoded string of a canonical length is
    the encoding of what it decoded to, so the accepted text of a hash is unique. *)

From S2P Require Import Prelude NixBytes.

#[local] Open Scope Z_scope.

Module StorePathError.
(** An invalid character is recorded by its first byte. *)
Inductive StorePathError : Type :=
| InvalidPrefix
| TooShort
| MissingDash
| EmptyName
| NameStartsWithDot
| NameTooLong (n : nat)
| InvalidNameChar (c : Z)
| InvalidBase32Char (c : Z)
| InvalidBase32Length (expected got : nat)
| InvalidBase32Padding
| FixedOutputRefsNotAllowed (algo : bytes) (recursive : bool)
| TextHashMustBeSha256 (got : bytes).
End StorePathError.
Abbreviation StorePathError := StorePathError.StorePathError.

Definition CHARS : bytes := str "0123456789abcdfghijklmnpqrsvwxyz".

(** [usize::div_ceil]. *)
Definition div_ceil (a b : nat) : nat := ((a + b - 1) / b)%nat.

(** Five bits at bit position [5 i]. *)
Definition encode_digit (input : bytes) (i : nat) : Z :=
  let bit_pos := (i * 5)%nat in
  let byte_idx := (bit_pos / 8)%nat in
  let bit_offset := (bit_pos mod 8)%nat in
  let val := if (byte_idx <? length input)%nat
             then Z.shiftr (nth byte_idx input 0) (Z.of_nat bit_offset) else 0 in
  let val := if (3 <? bit_offset)%nat && (byte_idx + 1 <? length input)%nat
             then Z.lor val (Z.shiftl (nth (byte_idx + 1) input 0) (Z.of_nat (8 - bit_offset)))
             else val in
  Z.land val 31.

Definition encode (input : bytes) : bytes :=
  match input with
  | [] => []
  | _ => rev (List.map (fun i => nth (Z.to_nat (encode_digit input i)) CHARS 0)
                (seq 0 (div_ceil (length input * 8) 5)))
  end.

Definition char_to_digit (c : Z) : Z + StorePathError :=
  if (48 <=? c) && (c <=? 57) then inl (c - 48)
  else if (97 <=? c) && (c <=? 100) then inl (c - 97 + 10)
  else if (102 <=? c) && (c <=? 110) then inl (c - 102 + 14)
  else if (112 <=? c) && (c <=? 115) then inl (c - 112 + 23)
  else if (118 <=? c) && (c <=? 122) then inl (c - 118 + 27)
  else inr (StorePathError.InvalidBase32Char c).

(** One digit of the loop body: its low bits, then the spill. *)
Definition place_digit (out_len : nat) (digit : Z) (i : nat) (out : bytes) : bytes + StorePathError :=
  let bit_pos := (i * 5)%nat in
  let byte_idx := (bit_pos / 8)%nat in
  let bit_offset := (bit_pos mod 8)%nat in
  let lo := Z.shiftl digit (Z.of_nat bit_offset) mod 256 in
  match (if (byte_idx <? out_len)%nat then inl (<[byte_idx := Z.lor (nth byte_idx out 0) lo]> out)
         else if negb (lo =? 0) then inr StorePathError.InvalidBase32Padding else inl out) with
  | inr e => inr e
  | inl out =>
      if (3 <? bit_offset)%nat then
        let hi := Z.shiftr digit (Z.of_nat (8 - bit_offset)) in
        if (byte_idx + 1 <? out_len)%nat
        then inl (<[(byte_idx + 1)%nat := Z.lor (nth (byte_idx + 1) out 0) hi]> out)
        else if negb (hi =? 0) then inr StorePathError.InvalidBase32Padding
        else inl out
      else inl out
  end.

(** The characters from the last to the first. *)
Fixpoint decode_loop (out_len : nat) (cs : bytes) (i : nat) (out : bytes) : bytes + StorePathError :=
  match cs with
  | [] => inl out
  | c :: cs =>
      match char_to_digit c with
      | inr e => inr e
      | inl digit =>
          match place_digit out_len digit i out with
          | inr e => inr e
          | inl out => decode_loop out_len cs (S i) out
          end
      end
  end.

Definition decode (input : bytes) : bytes + StorePathError :=
  let out_len := (length input * 5 / 8)%nat in
  decode_loop out_len (rev input) 0 (repeat 0 out_len).

(** ** Digits *)

Lemma digit_char d : 0 <= d < 32 -> char_to_digit (nth (Z.to_nat d) CHARS 0) = inl d.
Proof.
  intros Hd. assert (Hall : forallb (fun n => match char_to_digit (nth n CHARS 0) with
    | inl x => x =? Z.of_nat n | inr _ => false end) (seq 0 32) = true) by (by vm_compute).
  rewrite forallb_forall in Hall. specialize (Hall (Z.to_nat d)). rewrite in_seq in Hall.
  specialize (Hall ltac:(lia)). destruct (char_to_digit _) as [x|]; [|done].
  apply Z.eqb_eq in Hall. f_equal. lia.
Qed.

Lemma char_digit c d : char_to_digit c = inl d -> 0 <= d < 32 /\ nth (Z.to_nat d) CHARS 0 = c.
Proof.
  intros H. assert (Hc : 0 <= c < 256).
  { unfold char_to_digit in H. repeat case_match; try discriminate; lia. }
  assert (Hall : forallb (fun n => match char_to_digit (Z.of_nat n) with
    | inl x => (0 <=? x) && (x <? 32) && (nth (Z.to_nat x) CHARS 0 =? Z.of_nat n) | inr _ => true end)
    (seq 0 256) = true) by (by vm_compute).
  rewrite forallb_forall in Hall. specialize (Hall (Z.to_nat c)). rewrite in_seq in Hall.
  specialize (Hall ltac:(lia)). rewrite Z2Nat.id, H in Hall by lia. lia.
Qed.

Lemma encode_digit_range input i : 0 <= encode_digit input i < 32.
Proof.
  unfold encode_digit. cbn zeta. set (v := if _ && _ then _ else _). change 31 with (Z.ones 5).
  rewrite Z.land_ones by lia. apply Z.mod_pos_bound. done.
Qed.

(** A digit is five consecutive bits of the input. *)
Lemma encode_digit_bit input i j :
  bytes_ok input -> (j < 5)%nat -> Z.testbit (encode_digit input i) (Z.of_nat j) = bitat input (5 * i + j).
Proof.
  intros Hin Hj. unfold encode_digit. cbn zeta.
  set (q := (i * 5 / 8)%nat). set (o := (i * 5 mod 8)%nat).
  assert (Hq : (i * 5 = 8 * q + o /\ o < 8)%nat) by (unfold q, o; lia). clearbody q o.
  rewrite Z.land_spec. change 31 with (Z.ones 5). rewrite Z.ones_spec_low by lia. rewrite andb_true_r.
  assert (Hlow : Z.testbit (if (q <? length input)%nat then Z.shiftr (nth q input 0) (Z.of_nat o) else 0)
    (Z.of_nat j) = Z.testbit (nth q input 0) (Z.of_nat (j + o))).
  { destruct (Nat.ltb_spec q (length input)).
    - rewrite Z.shiftr_spec by lia. f_equal. lia.
    - rewrite nth_overflow by lia. by rewrite !Z.testbit_0_l. }
  destruct (Nat.lt_ge_cases (j + o) 8) as [Hs|Hs].
  - replace (bitat input (5 * i + j)) with (Z.testbit (nth q input 0) (Z.of_nat (j + o))).
    2:{ unfold bitat. replace ((5 * i + j) / 8)%nat with q by lia.
        by replace ((5 * i + j) mod 8)%nat with (j + o)%nat by lia. }
    destruct (_ && _); [|done]. rewrite Z.lor_spec, Hlow, Z.shiftl_spec by lia.
    rewrite (Z.testbit_neg_r _ (Z.of_nat j - _)) by lia. apply orb_false_r.
  - replace (bitat input (5 * i + j)) with (Z.testbit (nth (q + 1) input 0) (Z.of_nat (j + o - 8))).
    2:{ unfold bitat. replace ((5 * i + j) / 8)%nat with (q + 1)%nat by lia.
        by replace ((5 * i + j) mod 8)%nat with (j + o - 8)%nat by lia. }
    rewrite (proj2 (Nat.ltb_lt 3 o)) by lia. cbn [andb].
    destruct (Nat.ltb_spec (q + 1) (length input)).
    + rewrite Z.lor_spec, Hlow, Z.shiftl_spec by lia.
      rewrite byte_high by (try apply nth_ok; try done; lia). cbn. f_equal. lia.
    + rewrite Hlow, (nth_overflow input 0 (n := q + 1)) by lia.
      rewrite byte_high by (try apply nth_ok; try done; lia). by rewrite Z.testbit_0_l.
Qed.

(** ** Placing a digit *)

(** The bit a digit at index [i] contributes at position [k]. *)
Definition digit_bit (digit : Z) (i k : nat) : bool :=
  (5 * i <=? k)%nat && Z.testbit digit (Z.of_nat (k - 5 * i)).

Lemma nth_insert (l : bytes) q x k :
  (q < length l)%nat -> nth k (<[q := x]> l) 0 = if (k =? q)%nat then x else nth k l 0.
Proof.
  intros Hq. rewrite !nth_lookup. destruct (Nat.eqb_spec k q) as [->|].
  - by rewrite list_lookup_insert_eq.
  - by rewrite list_lookup_insert_ne.
Qed.

Lemma or_byte_bit l q x k :
  (q < length l)%nat -> bitat (<[q := Z.lor (nth q l 0) x]> l) k =
    bitat l k || ((k / 8 =? q)%nat && Z.testbit x (Z.of_nat (k mod 8))).
Proof.
  intros Hq. unfold bitat. rewrite nth_insert by done.
  destruct (Nat.eqb_spec (k / 8) q) as [->|]; [by rewrite Z.lor_spec|by rewrite orb_false_r].
Qed.

Lemma or_byte_ok l q x : bytes_ok l -> byte_ok x -> bytes_ok (<[q := Z.lor (nth q l 0) x]> l).
Proof.
  intros Hl Hx. apply Forall_insert; [done|]. by apply byte_ok_lor; [apply nth_ok|].
Qed.

Lemma nonzero_bit x : 0 <= x -> x <> 0 -> exists n, 0 <= n /\ Z.testbit x n = true.
Proof. intros H0 Hx. exists (Z.log2 x). split; [apply Z.log2_nonneg|]. apply Z.bit_log2. lia. Qed.

Lemma digit_high d n : 0 <= d < 32 -> 5 <= n -> Z.testbit d n = false.
Proof. intros Hd Hn. rewrite <- (Z.mod_small d (2 ^ 5)) by (cbn; lia). apply Z.mod_pow2_bits_high. lia. Qed.

Section Place.
Context (out_len : nat) (digit : Z) (i : nat).
Hypothesis Hd : 0 <= digit < 32.

#[local] Abbreviation q := (i * 5 / 8)%nat.
#[local] Abbreviation o := (i * 5 mod 8)%nat.
#[local] Abbreviation lo := (Z.shiftl digit (Z.of_nat o) mod 256).
#[local] Abbreviation hi := (Z.shiftr digit (Z.of_nat (8 - o))).

Lemma lo_ok : byte_ok lo.
Proof. unfold byte_ok. apply Z.mod_pos_bound. lia. Qed.

Lemma hi_ok : byte_ok hi.
Proof.
  unfold byte_ok. rewrite Z.shiftr_div_pow2 by lia. split; [apply Z.div_pos; lia|].
  apply Z.div_lt_upper_bound; [lia|]. assert (1 <= 2 ^ Z.of_nat (8 - o)) by (apply (Z.pow_le_mono_r 2 0); lia). lia.
Qed.

(** Where the two halves land. *)
Lemma lo_bit k : (k / 8 =? q)%nat && Z.testbit lo (Z.of_nat (k mod 8)) =
  (k / 8 =? q)%nat && digit_bit digit i k.
Proof.
  destruct (Nat.eqb_spec (k / 8) q) as [Hk|]; [|done]. cbn [andb]. unfold digit_bit.
  change 256 with (2 ^ 8). rewrite Z.mod_pow2_bits_low by lia. rewrite Z.shiftl_spec by lia.
  destruct (Nat.leb_spec (5 * i) k).
  - cbn [andb]. f_equal. lia.
  - rewrite Z.testbit_neg_r by lia. done.
Qed.

Lemma hi_bit k : (k / 8 =? q + 1)%nat && Z.testbit hi (Z.of_nat (k mod 8)) =
  (k / 8 =? q + 1)%nat && digit_bit digit i k.
Proof.
  destruct (Nat.eqb_spec (k / 8) (q + 1)) as [Hk|]; [|done]. cbn [andb]. unfold digit_bit.
  rewrite (proj2 (Nat.leb_le (5 * i) k)) by lia. rewrite Z.shiftr_spec by lia. cbn [andb]. f_equal. lia.
Qed.

Lemma digit_bit_span k : digit_bit digit i k = true -> (5 * i <= k < 5 * i + 5)%nat.
Proof.
  unfold digit_bit. intros [Hk%Nat.leb_le Hb]%andb_prop. split; [done|].
  destruct (Nat.lt_ge_cases k (5 * i + 5)) as [|Hge]; [done|]. rewrite digit_high in Hb by lia. done.
Qed.

(** A half is zero exactly when the digit has no bit in its byte. *)
Lemma half_zero x idx :
  byte_ok x ->
  (forall k, (k / 8 =? idx)%nat && Z.testbit x (Z.of_nat (k mod 8)) = (k / 8 =? idx)%nat && digit_bit digit i k) ->
  if x =? 0 then forall k, (k / 8 = idx)%nat -> digit_bit digit i k = false
  else exists k, (k / 8 = idx)%nat /\ digit_bit digit i k = true.
Proof.
  intros Hok Hx. destruct (Z.eqb_spec x 0) as [->|Hne].
  - intros k Hk. specialize (Hx k). rewrite (proj2 (Nat.eqb_eq _ _) Hk), Z.testbit_0_l in Hx. done.
  - destruct (nonzero_bit x ltac:(unfold byte_ok in Hok; lia) Hne) as (n & Hn & Hb).
    assert (Hn8 : n < 8).
    { destruct (Z.lt_ge_cases n 8); [done|]. rewrite byte_high in Hb by done. done. }
    exists (8 * idx + Z.to_nat n)%nat. specialize (Hx (8 * idx + Z.to_nat n)%nat).
    replace ((8 * idx + Z.to_nat n) / 8)%nat with idx in Hx |- * by lia. rewrite Nat.eqb_refl in Hx.
    replace (Z.of_nat ((8 * idx + Z.to_nat n) mod 8)) with n in Hx by lia. cbn [andb] in Hx.
    split; [done|congruence].
Qed.

(** One half: or-ed in, or refused when it has a bit and no byte. *)
Lemma half_spec x idx out :
  byte_ok x ->
  (forall k, (k / 8 =? idx)%nat && Z.testbit x (Z.of_nat (k mod 8)) = (k / 8 =? idx)%nat && digit_bit digit i k) ->
  length out = out_len -> bytes_ok out ->
  match (if (idx <? out_len)%nat then inl (<[idx := Z.lor (nth idx out 0) x]> out)
         else if negb (x =? 0) then inr StorePathError.InvalidBase32Padding else inl out : bytes + StorePathError) with
  | inl out' => length out' = out_len /\ bytes_ok out' /\
      (forall k, (k < 8 * out_len)%nat -> bitat out' k = bitat out k || ((k / 8 =? idx)%nat && digit_bit digit i k)) /\
      (forall k, (8 * out_len <= k)%nat -> (k / 8 = idx)%nat -> digit_bit digit i k = false)
  | inr e => exists k, (8 * out_len <= k)%nat /\ digit_bit digit i k = true
  end.
Proof.
  intros Hok Hx Hlen Hout. pose proof (half_zero x idx Hok Hx) as Hz.
  destruct (Nat.ltb_spec idx out_len).
  - split_and!; [by rewrite length_insert|by apply or_byte_ok| |lia].
    intros k Hk. rewrite or_byte_bit by lia. by rewrite Hx.
  - destruct (x =? 0); cbn [negb].
    + split_and!; [done..| |auto]. intros k Hk. rewrite (proj2 (Nat.eqb_neq _ _)) by lia. by rewrite orb_false_r.
    + destruct Hz as (k & Hk & Hb). exists k. split; [lia|done].
Qed.

Lemma place_digit_spec out :
  length out = out_len -> bytes_ok out ->
  match place_digit out_len digit i out with
  | inl out' => length out' = out_len /\ bytes_ok out' /\
      (forall k, (k < 8 * out_len)%nat -> bitat out' k = bitat out k || digit_bit digit i k) /\
      (forall k, (8 * out_len <= k)%nat -> digit_bit digit i k = false)
  | inr e => exists k, (8 * out_len <= k)%nat /\ digit_bit digit i k = true
  end.
Proof.
  intros Hlen Hout. unfold place_digit. cbn zeta.
  assert (Hspan : forall k, digit_bit digit i k = true -> (k / 8 = q \/ (k / 8 = q + 1 /\ 3 < o))%nat)
    by (intros k Hk%digit_bit_span; lia).
  pose proof (half_spec lo q out lo_ok lo_bit Hlen Hout) as Hlo.
  destruct (if (q <? out_len)%nat then _ else _) as [out1|e]; [|exact Hlo].
  destruct Hlo as (Hlen1 & Hout1 & Hbit1 & Hpad1). destruct (Nat.ltb_spec 3 o) as [Ho|Ho].
  - pose proof (half_spec hi (q + 1) out1 hi_ok hi_bit Hlen1 Hout1) as Hhi.
    destruct (if (q + 1 <? out_len)%nat then _ else _) as [out2|e]; [|exact Hhi].
    destruct Hhi as (Hlen2 & Hout2 & Hbit2 & Hpad2). split_and!; try done.
    + intros k Hk. rewrite Hbit2, Hbit1, <- orb_assoc, <- andb_orb_distrib_l by done. f_equal.
      destruct (digit_bit digit i k) eqn:Eb; [|by rewrite andb_false_r].
      apply Hspan in Eb as [->|[-> _]]; rewrite Nat.eqb_refl; [done|by rewrite orb_true_r].
    + intros k Hk. destruct (digit_bit digit i k) eqn:Eb; [|done].
      rewrite <- Eb. pose proof (Hspan k Eb) as [Hq|[Hq _]]; auto.
  - split_and!; try done.
    + intros k Hk. rewrite Hbit1 by done. f_equal. destruct (digit_bit digit i k) eqn:Eb; [|apply andb_false_r].
      apply Hspan in Eb as [->|[_ ?]]; [by rewrite Nat.eqb_refl|lia].
    + intros k Hk. destruct (digit_bit digit i k) eqn:Eb; [|done].
      rewrite <- Eb. pose proof (Hspan k Eb) as [Hq|[_ ?]]; [auto|lia].
Qed.
End Place.

(** ** The loop *)

(** The digits of [ds], the first at index [i]. *)
Fixpoint digits_bit (ds : list Z) (i k : nat) : bool :=
  match ds with [] => false | d :: ds => digit_bit d i k || digits_bit ds (S i) k end.

Lemma decode_loop_spec out_len ds cs i out :
  Forall2 (fun c d => char_to_digit c = inl d) cs ds -> length out = out_len -> bytes_ok out ->
  match decode_loop out_len cs i out with
  | inl out' => length out' = out_len /\ bytes_ok out' /\
      (forall k, (k < 8 * out_len)%nat -> bitat out' k = bitat out k || digits_bit ds i k) /\
      (forall k, (8 * out_len <= k)%nat -> digits_bit ds i k = false)
  | inr e => exists k, (8 * out_len <= k)%nat /\ digits_bit ds i k = true
  end.
Proof.
  intros Hcd. revert i out. induction Hcd as [|c d cs ds Hc _ IH]; intros i out Hlen Hout;
    cbn [decode_loop digits_bit].
  { split_and!; try done. intros k _. by rewrite orb_false_r. }
  rewrite Hc. apply char_digit in Hc as [Hd _].
  pose proof (place_digit_spec out_len d i Hd out Hlen Hout) as Hp.
  destruct (place_digit out_len d i out) as [out1|e].
  - destruct Hp as (Hlen1 & Hout1 & Hbit & Hpad). specialize (IH (S i) out1 Hlen1 Hout1).
    destruct (decode_loop out_len cs (S i) out1) as [out'|e].
    + destruct IH as (? & ? & Hbit' & Hpad'). split_and!; try done.
      * intros k Hk. by rewrite Hbit', Hbit, orb_assoc.
      * intros k Hk. by rewrite Hpad, Hpad'.
    + destruct IH as (k & Hk & Hb). exists k. split; [done|]. by rewrite Hb, orb_true_r.
  - destruct Hp as (k & Hk & Hb). exists k. split; [done|]. by rewrite Hb.
Qed.

Lemma decode_loop_digits out_len cs i out out' :
  decode_loop out_len cs i out = inl out' -> exists ds, Forall2 (fun c d => char_to_digit c = inl d) cs ds.
Proof.
  revert i out. induction cs as [|c cs IH]; intros i out; cbn [decode_loop]; [by exists []|].
  destruct (char_to_digit c) as [d|] eqn:Ec; [|done].
  destruct (place_digit out_len d i out) as [out1|]; [|done].
  intros (ds & Hds)%IH. exists (d :: ds). by constructor.
Qed.

Lemma digits_bit_lookup ds i k :
  Forall (fun d => 0 <= d < 32) ds ->
  digits_bit ds i k = if (5 * i <=? k)%nat then Z.testbit (nth ((k - 5 * i) / 5) ds 0) (Z.of_nat (k mod 5)) else false.
Proof.
  intros Hds. revert i. induction Hds as [|d ds Hd _ IH]; intros i; cbn [digits_bit].
  { rewrite nth_overflow by (cbn; lia). rewrite Z.testbit_0_l. by destruct (5 * i <=? k)%nat. }
  rewrite IH. unfold digit_bit. destruct (Nat.leb_spec (5 * i) k); cbn [andb].
  - destruct (Nat.leb_spec (5 * S i) k).
    + rewrite digit_high by lia. cbn [orb]. replace ((k - 5 * i) / 5)%nat with (S ((k - 5 * S i) / 5)) by lia. done.
    + replace ((k - 5 * i) / 5)%nat with 0%nat by lia. cbn [nth]. rewrite orb_false_r. f_equal. lia.
  - by rewrite (proj2 (Nat.leb_gt (5 * S i) k)) by lia.
Qed.

(** ** Round trips *)

Definition encoded_len (n : nat) : nat := div_ceil (n * 8) 5.

Lemma encode_unfold input :
  encode input = rev (List.map (fun i => nth (Z.to_nat (encode_digit input i)) CHARS 0)
    (seq 0 (encoded_len (length input)))).
Proof. by destruct input. Qed.

Lemma encode_length input : length (encode input) = encoded_len (length input).
Proof. by rewrite encode_unfold, length_rev, length_map, length_seq. Qed.

Lemma encode_chars input :
  Forall2 (fun c d => char_to_digit c = inl d) (rev (encode input))
    (List.map (encode_digit input) (seq 0 (encoded_len (length input)))).
Proof.
  rewrite encode_unfold, rev_involutive. induction (seq 0 _) as [|i l IH]; cbn; constructor; [|done].
  apply digit_char, encode_digit_range.
Qed.

Lemma encode_digits_bit input k :
  bytes_ok input -> digits_bit (List.map (encode_digit input) (seq 0 (encoded_len (length input)))) 0 k = bitat input k.
Proof.
  intros Hin. rewrite digits_bit_lookup.
  2:{ apply Forall_forall. intros d (i & <- & _)%list_elem_of_In%in_map_iff. apply encode_digit_range. }
  cbn [Nat.leb Nat.mul]. rewrite Nat.sub_0_r. destruct (Nat.lt_ge_cases (k / 5) (encoded_len (length input))).
  - rewrite (nth_indep _ 0 (encode_digit input 0)) by (by rewrite length_map, length_seq).
    rewrite map_nth, seq_nth, encode_digit_bit by (done || lia). f_equal. lia.
  - rewrite nth_overflow by (by rewrite length_map, length_seq). rewrite Z.testbit_0_l.
    rewrite bitat_overflow; [done|]. unfold encoded_len, div_ceil in *. lia.
Qed.

Lemma decode_length s l : decode s = inl l -> length l = (length s * 5 / 8)%nat /\ bytes_ok l.
Proof.
  unfold decode. intros H. destruct (decode_loop_digits _ _ _ _ _ H) as [ds Hds].
  pose proof (decode_loop_spec _ ds (rev s) 0 (repeat 0 (length s * 5 / 8)) Hds
    (repeat_length _ _)) as Hs. rewrite H in Hs.
  destruct Hs as (? & ? & _); [|done]. apply Forall_forall. intros x Hx%list_elem_of_In%repeat_spec. subst.
  unfold byte_ok. lia.
Qed.

Lemma bitat_zeros n k : bitat (repeat 0 n) k = false.
Proof. unfold bitat. rewrite nth_repeat. apply Z.testbit_0_l. Qed.

Lemma zeros_ok n : bytes_ok (repeat 0 n).
Proof. apply Forall_forall. intros x Hx%list_elem_of_In%repeat_spec. subst. unfold byte_ok. lia. Qed.

Lemma decode_encode input : bytes_ok input -> decode (encode input) = inl input.
Proof.
  intros Hin. unfold decode. set (n := (length (encode input) * 5 / 8)%nat).
  assert (Hn : n = length input).
  { unfold n. rewrite encode_length. unfold encoded_len, div_ceil. lia. }
  pose proof (decode_loop_spec n _ _ 0 (repeat 0 n) (encode_chars input) (repeat_length _ _) (zeros_ok n)) as Hs.
  destruct (decode_loop n (rev (encode input)) 0 (repeat 0 n)) as [out|e].
  - destruct Hs as (Hlen & Hok & Hbit & _). f_equal. apply bits_eq; [done..|congruence|].
    intros k Hk. rewrite Hbit, bitat_zeros, encode_digits_bit by (done || lia). done.
  - destruct Hs as (k & Hk & Hb). rewrite encode_digits_bit, bitat_overflow in Hb by (done || lia). done.
Qed.

Lemma encode_decode s l : decode s = inl l -> length s = encoded_len (length l) -> encode l = s.
Proof.
  intros Hd Hlen. destruct (decode_length _ _ Hd) as [Hll Hok]. unfold decode in Hd.
  destruct (decode_loop_digits _ _ _ _ _ Hd) as [ds Hds].
  pose proof (decode_loop_spec _ ds (rev s) 0 _ Hds (repeat_length 0 (length s * 5 / 8)) (zeros_ok _)) as Hs.
  rewrite Hd in Hs. destruct Hs as (_ & _ & Hbit & Hpad).
  assert (Hrange : Forall (fun d => 0 <= d < 32) ds).
  { clear -Hds. induction Hds as [|c d cs ds Hc _ IH]; constructor; [|done]. by apply char_digit in Hc as [? _]. }
  assert (Hdl : length ds = length s) by (rewrite <- (length_rev s); symmetry; by eapply Forall2_length).
  assert (Hdig : forall i, (i < length s)%nat -> encode_digit l i = nth i ds 0).
  { intros i Hi. assert (Hr : 0 <= nth i ds 0 < 32).
    { rewrite Forall_forall in Hrange. apply Hrange. apply list_elem_of_In, nth_In. lia. }
    pose proof (encode_digit_range l i) as Hr'. apply Z.bits_inj'. intros j Hj.
    destruct (Z.lt_ge_cases j 5) as [Hj5|Hj5]; [|by rewrite !digit_high].
    rewrite <- (Z2Nat.id j) by lia. rewrite encode_digit_bit by (done || lia). set (k := (5 * i + Z.to_nat j)%nat).
    transitivity (digits_bit ds 0 k).
    - destruct (Nat.lt_ge_cases k (8 * length l)).
      + rewrite Hbit, bitat_zeros by lia. done.
      + rewrite bitat_overflow, Hpad by lia. done.
    - rewrite digits_bit_lookup by done. cbn [Nat.leb Nat.mul]. rewrite Nat.sub_0_r.
      unfold k. replace ((5 * i + Z.to_nat j) / 5)%nat with i by lia. f_equal. lia. }
  rewrite encode_unfold, <- Hlen. rewrite <- (rev_involutive s) at 2. f_equal.
  apply (nth_ext _ _ 0 0); [by rewrite length_map, length_seq, length_rev|].
  rewrite length_map, length_seq. intros i Hi.
  rewrite (nth_indep _ 0 (nth (Z.to_nat (encode_digit l 0)) CHARS 0)) by (by rewrite length_map, length_seq).
  rewrite (map_nth (fun i => nth (Z.to_nat (encode_digit l i)) CHARS 0)), seq_nth by done.
  cbn [Nat.add]. rewrite Hdig by done.
  assert (Hc : char_to_digit (nth i (rev s) 0) = inl (nth i ds 0)).
  { destruct (Forall2_lookup_l _ _ _ i (nth i (rev s) 0) Hds) as (d & Hd' & Hc).
    - destruct (nth_lookup_or_length (rev s) i 0) as [|H]; [done|]. rewrite length_rev in H. lia.
    - by rewrite (nth_lookup_Some _ _ 0 _ Hd'). }
  by apply char_digit in Hc as [_ ->].
Qed.

(** nixbase32 round-trips.  Every byte string decodes back from its
    encoding, whatever its length; and a string that decodes is the encoding of
    what it decoded to whenever its length is that of an encoding, so a 32-character
    store-path hash or a 52-character digest has one accepted spelling. *)
Theorem nixbase32_roundtrip :
  (forall input, bytes_ok input -> decode (encode input) = inl input) /\
  (forall s l, decode s = inl l -> length s = encoded_len (length l) -> encode l = s).
Proof. split; [apply decode_encode|apply encode_decode]. Qed.

(** The SHA-256 of [hello]. *)
Definition hello_digest : bytes :=
  [44; 242; 77; 186; 95; 176; 163; 14; 38; 232; 59; 42; 197; 185; 226; 158; 27; 22; 30; 92; 31; 167; 66; 94;
   115; 4; 51; 98; 147; 139; 152; 36].

Lemma nixbase32_roundtrip_witness :
  encode hello_digest = str "094qif9n4cq4fdg459qzbhg1c6wywawwaaivx0k0x8xhbyx4vwic" /\
  decode (encode hello_digest) = inl hello_digest /\
  encode hello_digest = str "094qif9n4cq4fdg459qzbhg1c6wywawwaaivx0k0x8xhbyx4vwic".
Proof.
  split; [by vm_compute|]. split.
  - apply (proj1 nixbase32_roundtrip). repeat constructor; by vm_compute.
  - apply (proj2 nixbase32_roundtrip); by vm_compute.
Defined.

Example decode_padding : decode (str "zz") = inr StorePathError.InvalidBase32Padding.
Proof. by vm_compute. Qed.
