(* ===== verification/NixStorePath.v ===== *)
(** * Nix formats: store paths and hashes

    [src/rio-nix/src/store_path.rs] and [src/rio-nix/src/hash.rs]: parsing and
    validation, the log key of a derivation, the content-addressed, text and
    output path computations, and the textual forms of a hash.  SHA-256 and
    base64 are parameters. *)

From Stdlib Require Import Sorted.
From S2P Require Import Prelude NixBytes NixBase32.

#[local] Open Scope Z_scope.

Definition STORE_DIR : bytes := str "/nix/store".
Definition STORE_PREFIX : bytes := str "/nix/store/".
Definition HASH_CHARS : nat := 32.
Definition HASH_BYTES : nat := 20.
Definition MAX_NAME_LEN : nat := 211.

Definition DASH : Z := 45.
Definition DOT : Z := 46.
Definition SLASH : Z := 47.
Definition COLON : Z := 58.

(** The free function [basename]. *)
Definition path_basename (s : bytes) : option bytes := strip_prefix STORE_PREFIX s.

Definition output_path_name (drv_name output_name : bytes) : bytes :=
  if bytes_eqb output_name (str "out") then drv_name else drv_name ++ [DASH] ++ output_name.

Record StorePath : Type := mkStorePath {
  sp_hash : bytes;
  sp_name : bytes;
  sp_full : bytes;
}.

Definition is_valid_name_char (c : Z) : bool :=
  ((48 <=? c) && (c <=? 57)) || ((65 <=? c) && (c <=? 90)) || ((97 <=? c) && (c <=? 122))
  || existsb (Z.eqb c) (str "+-._?=").

Definition starts_with (p s : bytes) : bool :=
  match strip_prefix p s with Some _ => true | None => false end.

(** The [for ch in name.chars()] loop.  A character outside ASCII is never valid
    and neither is its first byte, so the bytes can be walked; the error carries
    the whole character. *)
Fixpoint first_bad_char (s : bytes) : option Z :=
  match s with
  | [] => None
  | b :: rest => if is_valid_name_char b then first_bad_char rest else Some (decode_char s)
  end.

(** [None] is [Ok(())]. *)
Definition validate_name (name : bytes) : option StorePathError :=
  if bytes_eqb name [] then Some StorePathError.EmptyName
  else if (MAX_NAME_LEN <? length name)%nat then Some (StorePathError.NameTooLong (length name))
  else if starts_with [DOT] name
          && (bytes_eqb name [DOT] || bytes_eqb name [DOT; DOT]
              || bool_decide (name !! 1%nat = Some DASH)
              || (starts_with [DOT; DOT] name && bool_decide (name !! 2%nat = Some DASH)))
  then Some StorePathError.NameStartsWithDot
  else option_map StorePathError.InvalidNameChar (first_bad_char name).

(** [str::is_char_boundary]: not inside a multi-byte sequence. *)
Definition is_char_boundary (s : bytes) (i : nat) : bool :=
  if (i =? 0)%nat then true
  else match s !! i with
       | Some b => negb ((128 <=? b) && (b <? 192))
       | None => (i =? length s)%nat
       end.

(** [StorePath::parse]. *)
Definition parse (s : bytes) : StorePath + StorePathError :=
  match strip_prefix STORE_DIR s ≫= strip_prefix [SLASH] with
  | None => inr StorePathError.InvalidPrefix
  | Some rest =>
      if (length rest <? HASH_CHARS + 1)%nat || negb (is_char_boundary rest HASH_CHARS)
      then inr StorePathError.TooShort
      else
        let hash_str := take HASH_CHARS rest in
        match strip_prefix [DASH] (drop HASH_CHARS rest) with
        | None => inr StorePathError.MissingDash
        | Some remainder =>
            if bytes_eqb remainder [] then inr StorePathError.EmptyName
            else match validate_name remainder with
                 | Some e => inr e
                 | None =>
                     match decode hash_str with
                     | inr e => inr e
                     | inl hash => inl (mkStorePath hash remainder s)
                     end
                 end
        end
  end.

Definition hash_part (sp : StorePath) : bytes := encode (sp_hash sp).

(** [StorePath::basename]. *)
Definition sp_basename (sp : StorePath) : bytes := drop (length STORE_PREFIX) (sp_full sp).

Definition ends_with (suffix s : bytes) : bool := starts_with (rev suffix) (rev s).
Definition is_derivation (sp : StorePath) : bool := ends_with (str ".drv") (sp_name sp).

Definition drv_log_hash (s : bytes) : bytes :=
  match parse s with
  | inl sp => hash_part sp
  | inr _ =>
      let base := default s (path_basename s) in
      match split_once DASH base with Some (h, _) => h | None => base end
  end.

(** ** Hashes *)

Module HashAlgo.
Inductive HashAlgo : Type := SHA256 | SHA512 | SHA1.
End HashAlgo.
Abbreviation HashAlgo := HashAlgo.HashAlgo.

#[export] Instance HashAlgo_eq_dec : EqDecision HashAlgo.
Proof. solve_decision. Defined.

Module HashError.
Inductive HashError : Type :=
| UnknownAlgorithm (s : bytes)
| InvalidFormat (s : bytes)
| InvalidBase64
| InvalidNixbase32 (e : StorePathError)
| WrongDigestLength (algo : HashAlgo) (expected got : nat).
End HashError.
Abbreviation HashError := HashError.HashError.

(** [to_lowercase], on the letters that can yield an algorithm name. *)
Definition lowercase (s : bytes) : bytes :=
  List.map (fun c => if (65 <=? c) && (c <=? 90) then c + 32 else c) s.

Definition digest_len (a : HashAlgo) : nat :=
  match a with HashAlgo.SHA256 => 32 | HashAlgo.SHA512 => 64 | HashAlgo.SHA1 => 20 end.

Definition algo_str (a : HashAlgo) : bytes :=
  match a with HashAlgo.SHA256 => str "sha256" | HashAlgo.SHA512 => str "sha512" | HashAlgo.SHA1 => str "sha1" end.

Definition algo_from_str (s : bytes) : HashAlgo + HashError :=
  let l := lowercase s in
  if bytes_eqb l (str "sha256") then inl HashAlgo.SHA256
  else if bytes_eqb l (str "sha512") then inl HashAlgo.SHA512
  else if bytes_eqb l (str "sha1") then inl HashAlgo.SHA1
  else inr (HashError.UnknownAlgorithm s).

Record NixHash : Type := mkNixHash {
  nh_algo : HashAlgo;
  nh_digest : bytes;
}.

Definition nix_hash_new (algo : HashAlgo) (digest : bytes) : NixHash + HashError :=
  if negb (length digest =? digest_len algo)%nat
  then inr (HashError.WrongDigestLength algo (digest_len algo) (length digest))
  else inl (mkNixHash algo digest).

Definition parse_colon (s : bytes) : NixHash + HashError :=
  match split_once COLON s with
  | None => inr (HashError.InvalidFormat s)
  | Some (algo_part, digest_part) =>
      match algo_from_str algo_part with
      | inr e => inr e
      | inl algo =>
          match decode digest_part with
          | inr e => inr (HashError.InvalidNixbase32 e)
          | inl digest => nix_hash_new algo digest
          end
      end
  end.

Definition to_colon (h : NixHash) : bytes := algo_str (nh_algo h) ++ [COLON] ++ encode (nh_digest h).
Definition to_hex (h : NixHash) : bytes := hex_encode (nh_digest h).

(** The crates: SHA-256 and standard base64. *)
Class NixCrypto : Type := {
  sha256 : bytes -> bytes;
  base64_encode : bytes -> bytes;
  base64_decode : bytes -> option bytes;
}.

(** A digest is 32 bytes; base64 decodes its own output, which has neither
    [:] nor [-]. *)
Class NixCryptoLaws (C : NixCrypto) : Prop := {
  sha256_length m : length (sha256 m) = 32%nat;
  sha256_bytes m : bytes_ok (sha256 m);
  base64_roundtrip m : bytes_ok m -> base64_decode (base64_encode m) = Some m;
  base64_no_colon m : bytes_ok m -> COLON ∉ base64_encode m;
}.

Section Computed.
Context {C : NixCrypto}.

Definition parse_sri (s : bytes) : NixHash + HashError :=
  match split_once DASH s with
  | None => inr (HashError.InvalidFormat s)
  | Some (algo_part, digest_part) =>
      match algo_from_str algo_part with
      | inr e => inr e
      | inl algo =>
          match base64_decode digest_part with
          | None => inr HashError.InvalidBase64
          | Some digest => nix_hash_new algo digest
          end
      end
  end.

(** [NixHash::parse]. *)
Definition parse_hash (s : bytes) : NixHash + HashError :=
  if existsb (Z.eqb COLON) s then parse_colon s
  else if existsb (Z.eqb DASH) s then parse_sri s
  else inr (HashError.InvalidFormat s).

Definition to_sri (h : NixHash) : bytes := algo_str (nh_algo h) ++ [DASH] ++ base64_encode (nh_digest h).

(** ** Computed paths *)

Fixpoint xor_fold (digest : bytes) (i : nat) (acc : bytes) : bytes :=
  match digest with
  | [] => acc
  | b :: rest =>
      let j := (i mod HASH_BYTES)%nat in
      xor_fold rest (S i) (<[j := Z.lxor (nth j acc 0) b]> acc)
  end.

Definition from_fingerprint (name fingerprint : bytes) : StorePath + StorePathError :=
  match validate_name name with
  | Some e => inr e
  | None =>
      let compressed := xor_fold (sha256 fingerprint) 0 (repeat 0 HASH_BYTES) in
      inl (mkStorePath compressed name (STORE_DIR ++ [SLASH] ++ encode compressed ++ [DASH] ++ name))
  end.

Fixpoint insert_bytes (x : bytes) (l : list bytes) : list bytes :=
  match l with
  | [] => [x]
  | y :: t => if bytes_ltb y x then y :: insert_bytes x t else x :: l
  end.

(** [sort_unstable]. *)
Definition sort_bytes (l : list bytes) : list bytes := fold_right insert_bytes [] l.

(** [dedup]. *)
Fixpoint dedup (l : list bytes) : list bytes :=
  match l with
  | [] => []
  | x :: t => match dedup t with
              | y :: t' => if bytes_eqb x y then y :: t' else x :: y :: t'
              | [] => [x]
              end
  end.

Definition type_string (kind : bytes) (references : list StorePath) : bytes :=
  fold_left (fun acc r => acc ++ [COLON] ++ r) (dedup (sort_bytes (List.map sp_full references))) kind.

Definition make_fixed_output (name : bytes) (hash : NixHash) (is_recursive : bool)
    (references : list StorePath) : StorePath + StorePathError :=
  if is_recursive && bool_decide (nh_algo hash = HashAlgo.SHA256) then
    from_fingerprint name (type_string (str "source") references ++ str ":sha256:"
      ++ hex_encode (nh_digest hash) ++ str ":" ++ STORE_DIR ++ str ":" ++ name)
  else if negb (match references with [] => true | _ => false end)
  then inr (StorePathError.FixedOutputRefsNotAllowed (algo_str (nh_algo hash)) is_recursive)
  else
    let inner := str "fixed:out:" ++ (if is_recursive then str "r:" else []) ++ algo_str (nh_algo hash)
                 ++ str ":" ++ hex_encode (nh_digest hash) ++ str ":" in
    from_fingerprint name (str "output:out:sha256:" ++ hex_encode (sha256 inner) ++ str ":" ++ STORE_DIR
      ++ str ":" ++ name).

Definition make_output (output_name drv_hash drv_name : bytes) : StorePath + StorePathError :=
  let name := output_path_name drv_name output_name in
  from_fingerprint name (str "output:" ++ output_name ++ str ":sha256:" ++ hex_encode drv_hash ++ str ":"
    ++ STORE_DIR ++ str ":" ++ name).

Definition make_text (name : bytes) (hash : NixHash) (references : list StorePath)
    : StorePath + StorePathError :=
  if negb (bool_decide (nh_algo hash = HashAlgo.SHA256))
  then inr (StorePathError.TextHashMustBeSha256 (algo_str (nh_algo hash)))
  else from_fingerprint name (type_string (str "text") references ++ str ":sha256:"
         ++ hex_encode (nh_digest hash) ++ str ":" ++ STORE_DIR ++ str ":" ++ name).

End Computed.

(** ** Names and parsing *)

(** A store-path name as the store accepts it. *)
Definition name_ok (n : bytes) : Prop :=
  n <> [] /\ (length n <= MAX_NAME_LEN)%nat /\ Forall (fun c => is_valid_name_char c = true) n /\
  n <> [DOT] /\ n <> [DOT; DOT] /\
  ~ (exists r, n = [DOT; DASH] ++ r) /\ ~ (exists r, n = [DOT; DOT; DASH] ++ r).

Lemma first_bad_char_None s : first_bad_char s = None <-> Forall (fun c => is_valid_name_char c = true) s.
Proof.
  induction s as [|b s IH]; cbn [first_bad_char]; [split; constructor|].
  rewrite Forall_cons. destruct (is_valid_name_char b); naive_solver.
Qed.

Lemma starts_with_true p s : starts_with p s = true <-> exists r, s = p ++ r.
Proof.
  unfold starts_with. destruct (strip_prefix p s) as [r|] eqn:H.
  - split; [|done]. exists r. by apply strip_prefix_Some.
  - split; [done|]. intros [r Hr%strip_prefix_Some]. congruence.
Qed.

(** The names the dot rule refuses. *)
Definition dot_name (n : bytes) : Prop :=
  n = [DOT] \/ n = [DOT; DOT] \/ (exists r, n = [DOT; DASH] ++ r) \/ (exists r, n = [DOT; DOT; DASH] ++ r).

Lemma dot_rule n :
  starts_with [DOT] n
  && (bytes_eqb n [DOT] || bytes_eqb n [DOT; DOT] || bool_decide (n !! 1%nat = Some DASH)
      || (starts_with [DOT; DOT] n && bool_decide (n !! 2%nat = Some DASH))) = true <-> dot_name n.
Proof.
  unfold bytes_eqb, dot_name.
  rewrite !andb_true_iff, !orb_true_iff, andb_true_iff, !starts_with_true, !bool_decide_eq_true. split.
  - intros [[r ->] [[[-> | ->]|H]|[[r' H'] H]]]; [by left|by right; left| |]; right; right.
    + destruct r; cbn in *; simplify_eq. left. by eexists.
    + right. rewrite H' in H |- *. destruct r'; cbn in *; simplify_eq. by eexists.
  - intros [-> | [-> | [[r ->] | [r ->]]]]; cbn; naive_solver.
Qed.

Lemma validate_name_None n : validate_name n = None <-> name_ok n.
Proof.
  assert (Hok : name_ok n <-> n <> [] /\ (length n <= MAX_NAME_LEN)%nat /\ ~ dot_name n /\ first_bad_char n = None).
  { unfold name_ok, dot_name. rewrite first_bad_char_None. tauto. }
  rewrite Hok, <- dot_rule. unfold validate_name at 1. unfold bytes_eqb at 1.
  case_bool_decide; [split; [done|tauto]|]. destruct (Nat.ltb_spec MAX_NAME_LEN (length n)) as [Hl|Hl].
  { split; [done|]. lia. }
  destruct (_ && _); [split; [done|tauto]|]. destruct (first_bad_char n); cbn; intuition discriminate.
Qed.

Lemma store_prefix_split s r :
  strip_prefix STORE_DIR s ≫= strip_prefix [SLASH] = Some r <-> s = STORE_PREFIX ++ r.
Proof.
  split.
  - intros (m & ->%strip_prefix_Some & ->%strip_prefix_Some)%bind_Some. reflexivity.
  - intros ->. apply bind_Some. exists ([SLASH] ++ r). split; by apply strip_prefix_Some.
Qed.

(** The text of a store path. *)
Definition render (h n : bytes) : bytes := STORE_DIR ++ [SLASH] ++ encode h ++ [DASH] ++ n.

Lemma encode_hash_length h : length h = HASH_BYTES -> length (encode h) = HASH_CHARS.
Proof. intros Hh. by rewrite encode_length, Hh. Qed.

Lemma parse_render h n :
  bytes_ok h -> length h = HASH_BYTES -> name_ok n -> parse (render h n) = inl (mkStorePath h n (render h n)).
Proof.
  intros Hb Hh Hn. pose proof (encode_hash_length h Hh) as He. unfold parse.
  rewrite (proj2 (store_prefix_split (render h n) (encode h ++ [DASH] ++ n)) eq_refl).
  rewrite length_app, He. assert (n <> []) by apply Hn.
  replace (HASH_CHARS + length ([DASH] ++ n) <? HASH_CHARS + 1)%nat with false
    by (symmetry; apply Nat.ltb_ge; cbn; lia).
  unfold is_char_boundary. rewrite lookup_app_r by lia. rewrite He. cbn -[take drop render].
  rewrite <- He, take_app_length, drop_app_length. cbn -[render decode encode]. unfold bytes_eqb. rewrite bool_decide_eq_false_2 by done.
  rewrite (proj2 (validate_name_None n) Hn), decode_encode by done. done.
Qed.

Lemma parse_inv s sp :
  parse s = inl sp ->
  bytes_ok (sp_hash sp) /\ length (sp_hash sp) = HASH_BYTES /\ name_ok (sp_name sp) /\
  s = render (sp_hash sp) (sp_name sp) /\ sp_full sp = s.
Proof.
  unfold parse. destruct (_ ≫= _) as [rest|] eqn:Hs; [|done]. apply store_prefix_split in Hs.
  destruct (_ || _) eqn:Hl; [done|]. apply orb_false_iff in Hl as [Hl%Nat.ltb_ge _].
  destruct (strip_prefix [DASH] _) as [n|] eqn:Hd; [|done]. apply strip_prefix_Some in Hd.
  destruct (bytes_eqb _ _); [done|]. destruct (validate_name n) eqn:Hn; [done|].
  apply validate_name_None in Hn. destruct (decode _) as [h|] eqn:Hh; [|done]. intros [= <-]. cbn.
  destruct (decode_length _ _ Hh) as [Hlen Hok].
  assert (Htake : length (take HASH_CHARS rest) = HASH_CHARS) by (rewrite length_take; lia).
  rewrite Htake in Hlen. split_and!; try done. unfold render.
  rewrite (encode_decode _ _ Hh); [|by rewrite Htake, Hlen].
  by rewrite <- (take_drop HASH_CHARS rest) in Hs; rewrite Hd in Hs.
Qed.

(** [StorePath::parse] accepts exactly the strings [/nix/store/<h>-<name>]
    with [h] the canonical nixbase32 text of 20 bytes and [name] a legal name
    (1 to 211 characters of the alphabet, not [.], [..], [.-*] or [..-*]); it
    returns those bytes and that name and keeps the text, so two accepted texts
    are equal when their hash and name are. *)
Theorem store_path_parse_exact s sp :
  parse s = inl sp <->
  exists h n, bytes_ok h /\ length h = HASH_BYTES /\ name_ok n /\ s = render h n /\ sp = mkStorePath h n s.
Proof.
  split.
  - intros H. destruct (parse_inv s sp H) as (? & ? & ? & ? & Hf). exists (sp_hash sp), (sp_name sp).
    split_and!; try done. destruct sp; cbn in *; congruence.
  - intros (h & n & Hb & Hh & Hn & -> & ->). by apply parse_render.
Qed.

Example parse_hello :
  parse (str "/nix/store/aaaaaaaaaaaaaaaaaaaaaaaaaaaaaaaa-hello-2.12.1") =
    inl (mkStorePath [74; 41; 165; 148; 82; 74; 41; 165; 148; 82; 74; 41; 165; 148; 82; 74; 41; 165; 148; 82]
      (str "hello-2.12.1") (str "/nix/store/aaaaaaaaaaaaaaaaaaaaaaaaaaaaaaaa-hello-2.12.1")).
Proof. by vm_compute. Qed.

Example parse_errors :
  parse (str "/nix/other/x") = inr StorePathError.InvalidPrefix /\
  parse (str "/nix/store/short-name") = inr StorePathError.TooShort /\
  parse (str "/nix/store/aaaaaaaaaaaaaaaaaaaaaaaaaaaaaaaa-") = inr StorePathError.EmptyName /\
  parse (str "/nix/store/aaaaaaaaaaaaaaaaaaaaaaaaaaaaaaaa-.-x") = inr StorePathError.NameStartsWithDot /\
  parse (str "/nix/store/eaaaaaaaaaaaaaaaaaaaaaaaaaaaaaaa-x") = inr (StorePathError.InvalidBase32Char 101).
Proof. by vm_compute. Qed.

(** ** The log key of a derivation *)

Lemma split_once_app sep l r : sep ∉ l -> split_once sep (l ++ [sep] ++ r) = Some (l, r).
Proof. intros Hl. by apply split_once_Some. Qed.

Lemma CHARS_no c : bool_decide (c ∈ CHARS ++ [0]) = false -> forall h, c ∉ encode h.
Proof.
  intros Hc%bool_decide_eq_false h Hin. apply Hc. rewrite encode_unfold in Hin.
  apply list_elem_of_In, in_rev, in_map_iff in Hin as (i & <- & _).
  apply elem_of_app. set (k := Z.to_nat _). destruct (nth_in_or_default k CHARS 0) as [H| ->].
  - left. by apply list_elem_of_In.
  - right. by apply list_elem_of_singleton.
Qed.

Lemma path_basename_None s : head s <> Some SLASH -> path_basename s = None.
Proof.
  intros Hs. unfold path_basename. destruct (strip_prefix STORE_PREFIX s) as [r|] eqn:H; [|done].
  apply strip_prefix_Some in H as ->. by contradict Hs.
Qed.

Lemma parse_not_absolute s sp : head s <> Some SLASH -> parse s <> inl sp.
Proof.
  intros Hs (_ & _ & _ & -> & _)%parse_inv. by contradict Hs.
Qed.

Lemma encode_head h : head (encode h) <> Some SLASH.
Proof.
  destruct (encode h) as [|c l] eqn:He; [done|]. cbn. intros [= ->].
  apply (CHARS_no SLASH eq_refl h). rewrite He. by left.
Qed.

(** What [drv_log_hash] does to a string that does not start with a slash. *)
Lemma drv_log_hash_relative s :
  head s <> Some SLASH -> drv_log_hash s = match split_once DASH s with Some (h, _) => h | None => s end.
Proof.
  intros Hs. unfold drv_log_hash. destruct (parse s) eqn:Hp; [by apply parse_not_absolute in Hp|].
  by rewrite path_basename_None.
Qed.

(** the build-log key of a derivation: its full store path, its basename and
    its bare hash all have the hash as key, so a writer and a reader that hold
    different forms of the identifier use the same log; applying the function to
    the key changes nothing. *)
Theorem drv_log_hash_forms s sp :
  parse s = inl sp ->
  drv_log_hash s = hash_part sp /\ drv_log_hash (sp_basename sp) = hash_part sp /\
  drv_log_hash (hash_part sp) = hash_part sp /\
  drv_log_hash (drv_log_hash s) = drv_log_hash s.
Proof.
  intros Hp. assert (H1 : drv_log_hash s = hash_part sp) by (unfold drv_log_hash; by rewrite Hp).
  destruct (parse_inv _ _ Hp) as (Hb & Hh & Hn & Hs & Hf).
  pose proof (encode_head (sp_hash sp)) as Hhd.
  pose proof (encode_hash_length _ Hh) as Hlen.
  assert (H3 : drv_log_hash (hash_part sp) = hash_part sp).
  { rewrite drv_log_hash_relative by done. unfold hash_part.
    by rewrite (proj2 (split_once_None DASH _) (CHARS_no DASH eq_refl (sp_hash sp))). }
  split_and!; [done| |done|by rewrite H1].
  unfold sp_basename. rewrite Hf, Hs. change (drop _ _) with (encode (sp_hash sp) ++ [DASH] ++ sp_name sp).
  rewrite drv_log_hash_relative; [|by destruct (encode (sp_hash sp))].
  rewrite split_once_app; [done|]. by apply CHARS_no.
Qed.

Definition hello_drv : bytes := str "/nix/store/aaaaaaaaaaaaaaaaaaaaaaaaaaaaaaaa-hello-2.12.1.drv".

Lemma drv_log_hash_forms_witness : exists sp, parse hello_drv = inl sp /\
  drv_log_hash (sp_basename sp) = hash_part sp /\ drv_log_hash hello_drv = str "aaaaaaaaaaaaaaaaaaaaaaaaaaaaaaaa".
Proof.
  destruct (parse hello_drv) as [sp|] eqn:H; [|by vm_compute in H]. exists sp.
  destruct (drv_log_hash_forms hello_drv sp H) as (H1 & H2 & _). split_and!; [done..|by vm_compute].
Defined.

(** Outside those forms the key is not stable: a nested prefix loses one level
    per application. *)
Example drv_log_hash_nested :
  drv_log_hash (str "/nix/store//nix/store/x") = str "/nix/store/x" /\
  drv_log_hash (str "/nix/store/x") = str "x".
Proof. by vm_compute. Qed.

(** ** Hash texts *)

Definition hash_wf (h : NixHash) : Prop := length (nh_digest h) = digest_len (nh_algo h) /\ bytes_ok (nh_digest h).

Lemma nix_hash_new_wf h : hash_wf h -> nix_hash_new (nh_algo h) (nh_digest h) = inl h.
Proof. intros [Hl _]. unfold nix_hash_new. rewrite Hl, Nat.eqb_refl. by destruct h. Qed.

Lemma algo_roundtrip a : algo_from_str (algo_str a) = inl a.
Proof. by destruct a. Qed.

Lemma algo_str_no c a : bool_decide (c ∈ str "sha256" ++ str "sha512" ++ str "sha1") = false -> c ∉ algo_str a.
Proof. intros H%bool_decide_eq_false. destruct a; cbn in *; set_solver. Qed.

Lemma existsb_elem c s : existsb (Z.eqb c) s = bool_decide (c ∈ s).
Proof.
  apply eq_true_iff_eq. rewrite bool_decide_eq_true, existsb_exists. split.
  - intros (x & Hx & ->%Z.eqb_eq). by apply list_elem_of_In.
  - intros H%list_elem_of_In. exists c. split; [done|]. apply Z.eqb_refl.
Qed.

Section Laws.
Context {C : NixCrypto} {L : NixCryptoLaws C}.

(** the texts of a hash: for a digest of the length its algorithm has,
    parsing the colon (nixbase32) form or the SRI (base64) form gives back the
    hash, and so does the parser that chooses by separator. *)
Theorem hash_text_roundtrip h :
  hash_wf h ->
  parse_colon (to_colon h) = inl h /\ parse_hash (to_colon h) = inl h /\
  parse_sri (to_sri h) = inl h /\ parse_hash (to_sri h) = inl h.
Proof.
  intros Hwf. pose proof (nix_hash_new_wf h Hwf) as Hn. pose proof (proj2 Hwf) as Hb.
  assert (Hc : parse_colon (to_colon h) = inl h).
  { unfold parse_colon, to_colon. rewrite split_once_app by by apply algo_str_no.
    by rewrite algo_roundtrip, decode_encode. }
  assert (Hs : parse_sri (to_sri h) = inl h).
  { unfold parse_sri, to_sri. rewrite split_once_app by by apply algo_str_no.
    by rewrite algo_roundtrip, base64_roundtrip. }
  split_and!; try done; unfold parse_hash; rewrite !existsb_elem.
  - rewrite bool_decide_eq_true_2; [done|]. unfold to_colon. rewrite !elem_of_app, list_elem_of_singleton. tauto.
  - rewrite bool_decide_eq_false_2, bool_decide_eq_true_2; [done| |]; unfold to_sri;
      rewrite !elem_of_app, list_elem_of_singleton; [tauto|].
    intros [H|[H|H]]; [|done|]; [by apply algo_str_no in H|by apply base64_no_colon in H].
Qed.

(** ** Computed paths *)

Lemma xor_fold_ok digest i acc :
  bytes_ok digest -> bytes_ok acc -> bytes_ok (xor_fold digest i acc) /\
  length (xor_fold digest i acc) = length acc.
Proof.
  intros Hd. revert i acc. induction Hd as [|b rest Hb _ IH]; intros i acc Ha; cbn [xor_fold]; [done|].
  destruct (IH (S i) (<[(i mod HASH_BYTES)%nat := Z.lxor (nth (i mod HASH_BYTES) acc 0) b]> acc)) as [H1 H2].
  - apply Forall_insert; [done|]. by apply byte_ok_lxor; [apply nth_ok|].
  - split; [done|]. by rewrite H2, length_insert.
Qed.

Lemma from_fingerprint_spec name fp sp :
  from_fingerprint name fp = inl sp ->
  name_ok name /\ parse (sp_full sp) = inl sp /\ sp_name sp = name.
Proof.
  unfold from_fingerprint. destruct (validate_name name) eqn:Hn; [done|]. apply validate_name_None in Hn.
  intros [= <-]. cbn [sp_full sp_name]. split_and!; try done.
  destruct (xor_fold_ok (sha256 fp) 0 (repeat 0 HASH_BYTES) (sha256_bytes fp) (zeros_ok _)) as [Hb Hl].
  exact (parse_render _ _ Hb Hl Hn).
Qed.

Lemma from_fingerprint_ok name fp : (exists sp, from_fingerprint name fp = inl sp) <-> name_ok name.
Proof.
  rewrite <- validate_name_None. unfold from_fingerprint.
  destruct (validate_name name); split; naive_solver.
Qed.

Lemma no_refs (references : list StorePath) :
  negb (match references with [] => true | _ => false end) = false <-> references = [].
Proof. by destruct references. Qed.

Lemma make_fixed_output_spec name hash is_recursive references :
  match make_fixed_output name hash is_recursive references with
  | inl sp => exists fp, from_fingerprint name fp = inl sp
  | inr e => True
  end /\
  ((exists sp, make_fixed_output name hash is_recursive references = inl sp) <->
   name_ok name /\ (references = [] \/ is_recursive = true /\ nh_algo hash = HashAlgo.SHA256)).
Proof.
  unfold make_fixed_output. rewrite <- no_refs. destruct (is_recursive && _) eqn:Hr.
  - apply andb_true_iff in Hr as [-> Ha%bool_decide_eq_true]. rewrite from_fingerprint_ok.
    split; [destruct (from_fingerprint _ _) eqn:E; [by eexists|done]|tauto].
  - assert (Hr' : ~ (is_recursive = true /\ nh_algo hash = HashAlgo.SHA256)).
    { intros [-> Ha]. rewrite Ha in Hr. done. }
    destruct (negb _) eqn:Href; [split; [done|split; [naive_solver|naive_solver]]|].
    rewrite from_fingerprint_ok. split; [destruct (from_fingerprint _ _) eqn:E; [by eexists|done]|tauto].
Qed.

Lemma make_text_spec name hash references :
  match make_text name hash references with
  | inl sp => exists fp, from_fingerprint name fp = inl sp
  | inr e => True
  end /\
  ((exists sp, make_text name hash references = inl sp) <-> name_ok name /\ nh_algo hash = HashAlgo.SHA256).
Proof.
  unfold make_text. case_bool_decide; cbn [negb]; [|split; [done|naive_solver]].
  rewrite from_fingerprint_ok. split; [destruct (from_fingerprint _ _) eqn:E; [by eexists|done]|tauto].
Qed.

(** the computed store paths.  A fixed-output path exists exactly when the
    name is legal and either there are no references or the content hash is a
    recursive SHA-256; a text path exactly when the name is legal and the hash is
    SHA-256; an output path exactly when the name derived from the output is
    legal.  Every path computed has that name and parses back to itself: its
    hash part is the canonical text of the 20 folded bytes. *)
Theorem computed_paths_exact name hash is_recursive references output_name drv_hash drv_name :
  ((exists sp, make_fixed_output name hash is_recursive references = inl sp) <->
   name_ok name /\ (references = [] \/ is_recursive = true /\ nh_algo hash = HashAlgo.SHA256)) /\
  ((exists sp, make_text name hash references = inl sp) <-> name_ok name /\ nh_algo hash = HashAlgo.SHA256) /\
  ((exists sp, make_output output_name drv_hash drv_name = inl sp) <->
   name_ok (output_path_name drv_name output_name)) /\
  (forall sp, make_fixed_output name hash is_recursive references = inl sp \/
     make_text name hash references = inl sp -> parse (sp_full sp) = inl sp /\ sp_name sp = name) /\
  (forall sp, make_output output_name drv_hash drv_name = inl sp ->
     parse (sp_full sp) = inl sp /\ sp_name sp = output_path_name drv_name output_name).
Proof.
  destruct (make_fixed_output_spec name hash is_recursive references) as [Hf Hfo].
  destruct (make_text_spec name hash references) as [Ht Hto].
  split_and!; [done..| | |].
  - unfold make_output. apply from_fingerprint_ok.
  - intros sp [H|H].
    + rewrite H in Hf. destruct Hf as [fp Hfp]. by apply from_fingerprint_spec in Hfp as (_ & ? & ?).
    + rewrite H in Ht. destruct Ht as [fp Hfp]. by apply from_fingerprint_spec in Hfp as (_ & ? & ?).
  - intros sp H. by apply from_fingerprint_spec in H as (_ & ? & ?).
Qed.

End Laws.

(** ** The reference set *)

Abbreviation bytes_lt := (fun a b => bytes_ltb a b = true).
Abbreviation bytes_le := (fun a b => bytes_ltb b a = false).

Lemma bytes_ltb_asym a b : bytes_ltb a b = true -> bytes_ltb b a = false.
Proof.
  intros H. destruct (bytes_ltb b a) eqn:H'; [|done].
  pose proof (bytes_ltb_trans a b a H H'). by rewrite bytes_ltb_irrefl in *.
Qed.

Lemma insert_bytes_elem x y l : y ∈ insert_bytes x l <-> y = x \/ y ∈ l.
Proof.
  induction l as [|z l IH]; cbn [insert_bytes]; [set_solver|]. case_match; [|set_solver].
  rewrite !elem_of_cons, IH. tauto.
Qed.

Lemma sort_bytes_elem y l : y ∈ sort_bytes l <-> y ∈ l.
Proof.
  induction l as [|x l IH]; cbn [sort_bytes fold_right]; [done|].
  fold (sort_bytes l). rewrite insert_bytes_elem, IH. set_solver.
Qed.

Lemma insert_bytes_sorted x l : StronglySorted bytes_le l -> StronglySorted bytes_le (insert_bytes x l).
Proof.
  induction 1 as [|y l Hs IH Hy]; cbn [insert_bytes]; [by repeat constructor|].
  destruct (bytes_ltb y x) eqn:Hyx; constructor; try done.
  - apply Forall_forall. intros z [-> |Hz]%insert_bytes_elem; [by apply bytes_ltb_asym|].
    eapply Forall_forall in Hy; [exact Hy|done].
  - by constructor.
  - constructor; [done|]. apply Forall_forall. intros z Hz. eapply Forall_forall in Hy; [|exact Hz].
    cbn in Hy. destruct (bytes_ltb z x) eqn:Hzx; [|done].
    destruct (bytes_ltb_total y z) as [H|[->|H]]; [|congruence..].
    by rewrite (bytes_ltb_trans y z x) in Hyx.
Qed.

Lemma sort_bytes_sorted l : StronglySorted bytes_le (sort_bytes l).
Proof. induction l; cbn; [constructor|]. by apply insert_bytes_sorted. Qed.

Lemma dedup_spec l :
  StronglySorted bytes_le l -> StronglySorted bytes_lt (dedup l) /\ forall y, y ∈ dedup l <-> y ∈ l.
Proof.
  induction 1 as [|x l Hs [IHs IHe] Hx]; cbn [dedup]; [split; [constructor|done]|].
  destruct (dedup l) as [|y t] eqn:Hd.
  { split; [by repeat constructor|]. intros z. specialize (IHe z). set_solver. }
  unfold bytes_eqb. case_bool_decide as Hxy.
  { subst y. split; [done|]. intros z. rewrite IHe, elem_of_cons. split; [auto|].
    intros [->|]; [|done]. apply IHe. by left. }
  assert (Hlt : bytes_ltb x y = true).
  { destruct (bytes_ltb_total x y) as [|[|H]]; [done..|].
    rewrite Forall_forall in Hx. rewrite Hx in H; [done|]. apply IHe. by left. }
  split; [|intros z; rewrite elem_of_cons, IHe, elem_of_cons; tauto].
  constructor; [done|]. constructor; [done|]. inversion IHs as [|? ? ? Hyt]; subst.
  eapply Forall_impl; [exact Hyt|]. intros z Hz. exact (bytes_ltb_trans x y z Hlt Hz).
Qed.

(** A strictly sorted list is determined by its elements. *)
Lemma sorted_unique l l' :
  StronglySorted bytes_lt l -> StronglySorted bytes_lt l' -> (forall y, y ∈ l <-> y ∈ l') -> l = l'.
Proof.
  intros Hs. revert l'. induction Hs as [|x l Hs IH Hx]; intros l' Hs' He; destruct Hs' as [|x' l' Hs' Hx'].
  - done.
  - exfalso. specialize (He x'). set_solver.
  - exfalso. specialize (He x). set_solver.
  - rewrite Forall_forall in Hx, Hx'. assert (x = x') as <-.
    { pose proof (proj1 (He x) ltac:(by left)) as [->|H1]%elem_of_cons; [done|].
      pose proof (proj2 (He x') ltac:(by left)) as [->|H2]%elem_of_cons; [done|].
      pose proof (bytes_ltb_asym _ _ (Hx _ H2)) as H3. rewrite Hx' in H3; done. }
    f_equal. apply IH; [done|]. intros y. split; intros Hy.
    + pose proof (proj1 (He y) ltac:(by right)) as [->|]%elem_of_cons; [|done].
      specialize (Hx _ Hy). cbn in Hx. by rewrite bytes_ltb_irrefl in Hx.
    + pose proof (proj2 (He y) ltac:(by right)) as [->|]%elem_of_cons; [|done].
      specialize (Hx' _ Hy). cbn in Hx'. by rewrite bytes_ltb_irrefl in Hx'.
Qed.

Lemma dedup_sort_unique l l' : (forall y, y ∈ l <-> y ∈ l') -> dedup (sort_bytes l) = dedup (sort_bytes l').
Proof.
  intros He. destruct (dedup_spec _ (sort_bytes_sorted l)) as [H1 H2].
  destruct (dedup_spec _ (sort_bytes_sorted l')) as [H3 H4]. apply sorted_unique; [done..|].
  intros y. by rewrite H2, H4, !sort_bytes_elem.
Qed.

(** a content-addressed path depends on the references only as a set: order
    and repetitions, which the wire protocol does not fix, change neither a
    fixed-output path nor a text path, nor whether it is refused. *)
Theorem references_as_set `{C : NixCrypto} name hash is_recursive references references' :
  (forall p, p ∈ List.map sp_full references <-> p ∈ List.map sp_full references') ->
  make_fixed_output name hash is_recursive references = make_fixed_output name hash is_recursive references' /\
  make_text name hash references = make_text name hash references'.
Proof.
  intros He. unfold make_fixed_output, make_text, type_string. rewrite (dedup_sort_unique _ _ He).
  split; [|done]. destruct references as [|r t], references' as [|r' t']; [done| | |done].
  - specialize (He (sp_full r')). cbn in He. set_solver.
  - specialize (He (sp_full r)). cbn in He. set_solver.
Qed.

(** ** A concrete instance *)

Definition unhex_digit (c : Z) : Z := if c <? 58 then c - 48 else c - 87.

Fixpoint unhex (s : bytes) : option bytes :=
  match s with
  | [] => Some []
  | a :: b :: s => option_map (cons (16 * unhex_digit a + unhex_digit b)) (unhex s)
  | _ => None
  end.

Lemma hex_digit_range n : 0 <= n < 16 -> unhex_digit (hex_digit n) = n /\ hex_digit n <> COLON.
Proof.
  intros Hn. unfold hex_digit, unhex_digit, COLON. destruct (Z.ltb_spec n 10).
  - replace (48 + n <? 58) with true by lia. lia.
  - replace (87 + n <? 58) with false by lia. lia.
Qed.

Lemma unhex_hex_encode m : bytes_ok m -> unhex (hex_encode m) = Some m /\ COLON ∉ hex_encode m.
Proof.
  induction 1 as [|b m Hb _ [IH1 IH2]]; cbn; [split; [done|set_solver]|]. fold (hex_encode m). unfold byte_ok in Hb.
  destruct (hex_digit_range (b / 16) ltac:(lia)) as [H1 H1'], (hex_digit_range (b mod 16) ltac:(lia)) as [H2 H2'].
  rewrite H1, H2, IH1. split; [cbn; f_equal; f_equal; lia|]. rewrite !elem_of_cons. naive_solver.
Qed.

#[local] Instance example_crypto : NixCrypto := {
  sha256 m := repeat (fold_left Z.add m 0 mod 256) 32;
  base64_encode := hex_encode;
  base64_decode := unhex;
}.

#[local] Instance example_crypto_laws : NixCryptoLaws example_crypto.
Proof.
  split; cbn [sha256 base64_encode base64_decode example_crypto].
  - intros m. by rewrite repeat_length.
  - intros m. apply Forall_forall. intros x Hx%list_elem_of_In%repeat_spec. subst. unfold byte_ok. lia.
  - intros m Hm. apply (unhex_hex_encode m Hm).
  - intros m Hm. apply (unhex_hex_encode m Hm).
Qed.

Definition hello_hash : NixHash := mkNixHash HashAlgo.SHA256 hello_digest.

Lemma hello_hash_wf : hash_wf hello_hash.
Proof. split; [done|]. apply (bool_decide_unpack _). by vm_compute. Qed.

Lemma hash_text_roundtrip_witness :
  parse_hash (to_colon hello_hash) = inl hello_hash /\ parse_hash (to_sri hello_hash) = inl hello_hash.
Proof. destruct (hash_text_roundtrip hello_hash hello_hash_wf) as (_ & H1 & _ & H2). exact (conj H1 H2). Defined.

Lemma computed_paths_exact_witness :
  exists sp, make_text (str "builder.sh") hello_hash [] = inl sp /\ parse (sp_full sp) = inl sp.
Proof.
  destruct (computed_paths_exact (str "builder.sh") hello_hash true [] (str "out") hello_digest (str "hello"))
    as (_ & Ht & _ & Hp & _).
  destruct (proj2 Ht) as [sp Hsp].
  { split; [|done]. apply validate_name_None. by vm_compute. }
  exists sp. split; [done|]. apply (Hp sp). by right.
Defined.

Lemma references_as_set_witness :
  let a := mkStorePath [] [] (str "/nix/store/a") in let b := mkStorePath [] [] (str "/nix/store/b") in
  make_text (str "x") hello_hash [b; a; b] = make_text (str "x") hello_hash [a; b].
Proof.
  cbn zeta. apply (references_as_set (str "x") hello_hash true). intros p. cbn [List.map sp_full]. set_solver.
Defined.
