(* ===== verification/NixRefScan.v ===== *)
(** * Nix formats: the streaming reference scanner

    [src/rio-nix/src/refscan.rs]: the skip-scan for 32-character hash parts in a
    byte stream that arrives in chunks, and the candidate set that maps the
    hashes found back to store paths. *)

From Stdlib Require Import Sorted.
From S2P Require Import Prelude NixBytes NixBase32 NixStorePath.

#[local] Open Scope nat_scope.

(** The lookup table, filled from the alphabet. *)
Definition IS_BASE32 : list bool :=
  fold_left (fun t c => <[Z.to_nat c := true]> t) CHARS (repeat false 256).

Definition is_base32 (b : Z) : bool := nth (Z.to_nat b) IS_BASE32 false.

Record RefScanSink : Type := mkRefScanSink {
  remaining : gset bytes;
  found : gset bytes;
  tail : bytes;
}.

(** [RefScanSink::new]. *)
Definition sink_new (candidates : list bytes) : RefScanSink :=
  mkRefScanSink (list_to_set candidates) ∅ [].

(** The inner loop of [search]: from offset [j] down, the first byte of the
    window at [i] outside the alphabet. *)
Fixpoint window_gap (data : bytes) (i j : nat) : option nat :=
  if negb (is_base32 (nth (i + j) data 0%Z)) then Some j
  else match j with 0 => None | S j => window_gap data i j end.

(** Probe the candidates with a window: [remaining.remove], then [found.insert]. *)
Definition probe (window : bytes) (s : RefScanSink) : RefScanSink :=
  if bool_decide (window ∈ remaining s)
  then mkRefScanSink (remaining s ∖ {[window]}) ({[window]} ∪ found s) (tail s)
  else s.

(** The outer loop of [search]; [i] grows in every round. *)
Fixpoint search_loop (fuel : nat) (data : bytes) (i : nat) (s : RefScanSink) : RefScanSink :=
  match fuel with
  | 0 => s
  | S fuel =>
      if i + HASH_CHARS <=? length data then
        match window_gap data i (HASH_CHARS - 1) with
        | Some j => search_loop fuel data (i + (j + 1)) s
        | None => search_loop fuel data (i + 1) (probe (take HASH_CHARS (drop i data)) s)
        end
      else s
  end.

Definition search (s : RefScanSink) (data : bytes) : RefScanSink :=
  if (length data <? HASH_CHARS) || bool_decide (remaining s = ∅) then s
  else search_loop (S (length data)) data 0 s.

(** The tail kept for the next seam: [drain], [extend_from_slice], cap. *)
Definition next_tail (t data : bytes) : bytes :=
  let head_len := Nat.min (length data) HASH_CHARS in
  let rest := HASH_CHARS - head_len in
  let t := if rest <? length t then drop (length t - rest) t else t in
  let t := t ++ drop (length data - head_len) data in
  if HASH_CHARS <=? length t then drop (length t - (HASH_CHARS - 1)) t else t.

(** [io::Write::write]; the result is [Ok] of the second component. *)
Definition write (s : RefScanSink) (data : bytes) : RefScanSink * nat :=
  if bool_decide (remaining s = ∅) then (s, length data)
  else
    let head_len := Nat.min (length data) HASH_CHARS in
    let s := match tail s with [] => s | _ => search s (tail s ++ take head_len data) end in
    let s := search s data in
    (mkRefScanSink (remaining s) (found s) (next_tail (tail s) data), length data).

(** A stream written chunk by chunk. *)
Definition write_all (s : RefScanSink) (chunks : list bytes) : RefScanSink :=
  fold_left (fun s d => fst (write s d)) chunks s.

(** ** Candidates *)

Definition hash_part_of (path : bytes) : option bytes :=
  match parse path with inl sp => Some (hash_part sp) | inr _ => None end.

Abbreviation CandidateSet := (gmap bytes bytes).

(** [collect] into a [HashMap]: a later path replaces an earlier one. *)
Definition from_paths (paths : list bytes) : CandidateSet :=
  fold_left (fun m p => match hash_part_of p with Some h => <[h := p]> m | None => m end) paths ∅.

Definition hashes (m : CandidateSet) : list bytes := elements (dom m).

Definition resolve (m : CandidateSet) (fs : gset bytes) : list bytes :=
  sort_bytes (omap (fun h => m !! h) (elements fs)).

(** ** The naive specification *)

#[local] Opaque is_base32.

(** A hash part: 32 characters of the alphabet. *)
Definition base32_hash (w : bytes) : Prop :=
  length w = HASH_CHARS /\ Forall (fun c => is_base32 c = true) w.

(** It appears somewhere in the data. *)
Definition occurs (w data : bytes) : Prop := exists p q, data = p ++ w ++ q.

Definition window_at (data : bytes) (k : nat) : bytes := take HASH_CHARS (drop k data).

Lemma occurs_window w data :
  length w = HASH_CHARS -> occurs w data <-> exists k, k + HASH_CHARS <= length data /\ window_at data k = w.
Proof.
  intros Hw. split.
  - intros (p & q & ->). exists (length p). rewrite !length_app. split; [lia|].
    unfold window_at. rewrite drop_app_length, <- Hw, take_app_length. done.
  - intros (k & Hk & <-). exists (take k data), (drop (k + HASH_CHARS) data).
    unfold window_at. rewrite <- drop_drop, !take_drop. done.
Qed.

Lemma window_at_length data k : k + HASH_CHARS <= length data -> length (window_at data k) = HASH_CHARS.
Proof. intros Hk. unfold window_at. rewrite length_take, length_drop. lia. Qed.

Lemma window_at_nth data k o :
  o < HASH_CHARS -> k + HASH_CHARS <= length data -> nth o (window_at data k) 0%Z = nth (k + o) data 0%Z.
Proof.
  intros Ho Hk. unfold window_at. rewrite !nth_lookup. rewrite lookup_take_lt, lookup_drop by lia. done.
Qed.

Lemma window_gap_None data i j :
  window_gap data i j = None <-> forall o, o <= j -> is_base32 (nth (i + o) data 0%Z) = true.
Proof.
  induction j as [|j IH]; cbn [window_gap].
  - destruct (is_base32 _) eqn:H; cbn [negb]; split; try done.
    + intros _ o Ho. by replace o with 0 by lia.
    + intros Ha. by rewrite Ha in H by lia.
  - destruct (is_base32 (nth (i + S j) data 0%Z)) eqn:H; cbn [negb].
    + rewrite IH. split; [|auto]. intros Ha o Ho. destruct (Nat.eq_dec o (S j)) as [->|]; [done|]. apply Ha. lia.
    + split; [done|]. intros Ha. by rewrite Ha in H by lia.
Qed.

Lemma window_gap_Some data i j o :
  window_gap data i j = Some o -> o <= j /\ is_base32 (nth (i + o) data 0%Z) = false.
Proof.
  induction j as [|j IH]; cbn [window_gap]; case_match eqn:H; try done.
  - intros [= <-]. apply negb_true_iff in H. auto.
  - intros [= <-]. apply negb_true_iff in H. auto.
  - intros [? ?]%IH. auto.
Qed.

Lemma base32_window data k :
  k + HASH_CHARS <= length data ->
  Forall (fun c => is_base32 c = true) (window_at data k) <->
  forall o, o < HASH_CHARS -> is_base32 (nth (k + o) data 0%Z) = true.
Proof.
  intros Hk. pose proof (window_at_length data k Hk) as Hl. rewrite Forall_forall. split.
  - intros H o Ho. rewrite <- window_at_nth by done. apply H, list_elem_of_In, nth_In. lia.
  - intros H c Hc. apply list_elem_of_In, (In_nth _ _ 0%Z) in Hc as (o & Ho & <-).
    rewrite window_at_nth by lia. apply H. lia.
Qed.

(** Hits of [w] at offset [i] or later. *)
Definition hit_from (data : bytes) (i : nat) (w : bytes) : Prop :=
  base32_hash w /\ exists k, i <= k /\ k + HASH_CHARS <= length data /\ window_at data k = w.

(** The sink after probing the hits that satisfy [P]. *)
Definition probed (P : bytes -> Prop) (s s' : RefScanSink) : Prop :=
  tail s' = tail s /\
  forall w, (w ∈ found s' <-> w ∈ found s \/ w ∈ remaining s /\ P w) /\
            (w ∈ remaining s' <-> w ∈ remaining s /\ ~ P w).

Lemma probed_iff P Q s s' : (forall w, P w <-> Q w) -> probed P s s' -> probed Q s s'.
Proof. intros H [Ht Hs]. split; [done|]. intros w. rewrite <- H. apply Hs. Qed.

Lemma probed_refl s : probed (fun _ => False) s s.
Proof. split; [done|]. naive_solver. Qed.

Lemma probed_trans P Q s1 s2 s3 : probed P s1 s2 -> probed Q s2 s3 -> probed (fun w => P w \/ Q w) s1 s3.
Proof.
  intros [Ht1 H1] [Ht2 H2]. split; [congruence|]. intros w. destruct (H1 w) as [H1f H1r], (H2 w) as [H2f H2r].
  rewrite H2r, H1r, H2f. destruct (decide (w ∈ found s2)) as [Hf|Hf]; tauto.
Qed.

Lemma probe_probed w s : probed (fun v => v = w) s (probe w s).
Proof.
  unfold probe. case_bool_decide as Hw; (split; [done|]); intros v; cbn [found remaining].
  - rewrite elem_of_union, elem_of_difference, !elem_of_singleton. naive_solver.
  - naive_solver.
Qed.

(** A byte outside the alphabet at [i + j] rules out every window that covers it. *)
Lemma hit_from_skip data i j w :
  j < HASH_CHARS -> is_base32 (nth (i + j) data 0%Z) = false ->
  hit_from data i w <-> hit_from data (i + (j + 1)) w.
Proof.
  intros Hj Hb. unfold hit_from. split; intros (Hw & k & Hk & Hl & He); (split; [done|]); exists k; (split; [|done]);
    [|lia]. destruct (Nat.lt_ge_cases k (i + (j + 1))) as [Hlt|]; [|done]. exfalso. subst w.
  pose proof (proj1 (base32_window data k Hl) (proj2 Hw) (i + j - k) ltac:(lia)) as H.
  replace (k + (i + j - k)) with (i + j) in H by lia. congruence.
Qed.

Lemma hit_from_step data i w :
  i + HASH_CHARS <= length data -> (forall o, o < HASH_CHARS -> is_base32 (nth (i + o) data 0%Z) = true) ->
  hit_from data i w <-> w = window_at data i \/ hit_from data (i + 1) w.
Proof.
  intros Hi Hb. unfold hit_from. split.
  - intros (Hw & k & Hk & Hl & He). destruct (Nat.eq_dec k i) as [->|]; [by left|].
    right. split; [done|]. exists k. split; [lia|done].
  - intros [->|(Hw & k & Hk & Hl & He)].
    + split; [split; [by apply window_at_length|by apply base32_window]|]. by exists i.
    + split; [done|]. exists k. split; [lia|done].
Qed.

Lemma search_loop_spec fuel data i s :
  length data < fuel + i -> probed (hit_from data i) s (search_loop fuel data i s).
Proof.
  revert i s. induction fuel as [|fuel IH]; intros i s Hf; cbn [search_loop].
  { eapply probed_iff; [|apply probed_refl]. intros w. unfold hit_from, HASH_CHARS. split; [done|].
    intros (_ & k & ? & ? & _). lia. }
  destruct (Nat.leb_spec (i + HASH_CHARS) (length data)) as [Hl|Hl].
  2:{ eapply probed_iff; [|apply probed_refl]. intros w. unfold hit_from. split; [done|].
      intros (_ & k & ? & ? & _). lia. }
  destruct (window_gap data i (HASH_CHARS - 1)) as [j|] eqn:Hg.
  - apply window_gap_Some in Hg as [Hj Hb]. eapply probed_iff; [|apply IH; lia].
    intros w. symmetry. apply hit_from_skip; [unfold HASH_CHARS in *; lia|done].
  - pose proof (proj1 (window_gap_None data i (HASH_CHARS - 1)) Hg) as Ha.
    eapply probed_iff; [|eapply probed_trans; [apply probe_probed|apply IH; lia]].
    intros w. symmetry. apply hit_from_step; [done|]. intros o Ho. apply Ha. lia.
Qed.

(** The hits of a piece of data. *)
Definition hit (data w : bytes) : Prop := base32_hash w /\ occurs w data.

Lemma hit_from_0 data w : hit_from data 0 w <-> hit data w.
Proof.
  unfold hit_from, hit. split; intros [Hw H]; (split; [done|]); apply (occurs_window w data (proj1 Hw)) || idtac.
  - destruct H as (k & _ & ? & ?). by exists k.
  - apply (occurs_window w data (proj1 Hw)) in H as (k & ? & ?). exists k. split; [lia|done].
Qed.

Lemma search_spec s data : probed (hit data) s (search s data).
Proof.
  unfold search. destruct (Nat.ltb_spec (length data) HASH_CHARS) as [Hl|Hl]; cbn [orb].
  { eapply probed_iff; [|apply probed_refl]. intros w. split; [done|]. intros [Hw Ho].
    apply (occurs_window w data (proj1 Hw)) in Ho as (k & ? & _). lia. }
  case_bool_decide as Hr.
  { split; [done|]. intros w. rewrite Hr. set_solver. }
  eapply probed_iff; [apply hit_from_0|]. apply search_loop_spec. lia.
Qed.

(** ** The stream *)

Definition last_n (n : nat) (l : bytes) : bytes := drop (length l - n) l.

Lemma suffix_unique (p a q b : bytes) : p ++ a = q ++ b -> length a = length b -> a = b.
Proof. intros H Hl. by apply app_inj_2 in H as [_ ?]. Qed.

Lemma last_n_split n l : take (length l - n) l ++ last_n n l = l.
Proof. apply take_drop. Qed.

Lemma last_n_suffix n l p a : l = p ++ a -> length a = Nat.min n (length l) -> a = last_n n l.
Proof.
  intros -> Hl. apply (suffix_unique p a (take (length (p ++ a) - n) (p ++ a))).
  - by rewrite last_n_split.
  - unfold last_n. rewrite length_drop. lia.
Qed.

Lemma next_tail_spec t data : length t <= HASH_CHARS - 1 -> next_tail t data = last_n (HASH_CHARS - 1) (t ++ data).
Proof.
  intros Ht. unfold next_tail. remember (Nat.min (length data) HASH_CHARS) as h eqn:Hh.
  set (t1 := if (HASH_CHARS - h <? length t) then _ else t).
  assert (exists p : bytes, t ++ data = p ++ t1 ++ drop (length data - h) data /\
    length (t1 ++ drop (length data - h) data) = Nat.min HASH_CHARS (length t + length data)) as (p & Hp & Hl).
  { unfold t1. destruct (Nat.ltb_spec (HASH_CHARS - h) (length t)) as [Hr|Hr].
    - destruct (Nat.le_gt_cases HASH_CHARS (length data)).
      + exists (t ++ take (length data - h) data). replace (length t - (HASH_CHARS - h)) with (length t) by lia.
        rewrite drop_all. cbn [app]. rewrite <- app_assoc, take_drop, length_drop. split; [done|lia].
      + replace (length data - h) with 0 by lia. exists (take (length t - (HASH_CHARS - h)) t).
        rewrite app_assoc, take_drop, length_app, !length_drop. split; [done|lia].
    - destruct (Nat.le_gt_cases HASH_CHARS (length data)).
      + destruct t; cbn [length] in Hr; [|lia]. exists (take (length data - h) data). cbn [app].
        rewrite take_drop, length_drop. split; [done|cbn [length]; lia].
      + replace (length data - h) with 0 by lia. exists []. rewrite length_app, drop_0. split; [done|lia]. }
  generalize dependent (t1 ++ drop (length data - h) data). intros u Hp Hl.
  destruct (Nat.leb_spec HASH_CHARS (length u)) as [Hc|Hc].
  - apply (last_n_suffix _ _ (p ++ take (length u - (HASH_CHARS - 1)) u)).
    + by rewrite <- app_assoc, take_drop.
    + rewrite length_drop, length_app. lia.
  - apply (last_n_suffix _ _ p); [done|]. rewrite length_app. lia.
Qed.

Lemma last_n_app n a b : last_n n (last_n n a ++ b) = last_n n (a ++ b).
Proof.
  apply (last_n_suffix _ _ (take (length a - n) a ++ take (length (last_n n a ++ b) - n) (last_n n a ++ b))).
  - by rewrite <- app_assoc, last_n_split, app_assoc, last_n_split.
  - unfold last_n. rewrite !length_drop, !length_app, length_drop. lia.
Qed.

Lemma occurs_infix w data p q : occurs w data -> occurs w (p ++ data ++ q).
Proof. intros (p' & q' & ->). exists (p ++ p'), (q' ++ q). by rewrite <- !app_assoc. Qed.

Lemma hit_infix w data p q : hit data w -> hit (p ++ data ++ q) w.
Proof. intros [Hw Ho]. split; [done|]. by apply occurs_infix. Qed.

(** A hit of a longer stream is in the old stream, in the new data or across
    the seam. *)
Lemma hit_app S d w :
  hit (S ++ d) w <-> hit S w \/ hit (last_n (HASH_CHARS - 1) S ++ take HASH_CHARS d) w \/ hit d w.
Proof.
  split.
  - intros [Hw (p & q & He)]. unfold hit. destruct (app_eq_inv _ _ _ _ He) as [(k & -> & Hk)|(k & -> & ->)].
    2:{ right. right. split; [done|]. by exists k, q. }
    symmetry in Hk. destruct (app_eq_inv _ _ _ _ Hk) as [(k' & -> & ->)|(k' & -> & ->)].
    + left. split; [done|]. by exists p, k'.
    + destruct k' as [|c k']; [left; split; [done|]; exists p, []; by rewrite !app_nil_r|].
      right. left. split; [done|]. destruct Hw as [Hw _]. rewrite length_app in Hw. cbn in Hw.
      exists (drop (length (p ++ k) - (HASH_CHARS - 1)) p), (take (HASH_CHARS - length (c :: k')) q).
      unfold last_n. rewrite drop_app_le by (rewrite length_app; lia).
      rewrite take_app_ge by (cbn; lia). by rewrite <- !app_assoc.
  - intros [H|[H|H]].
    + apply (hit_infix w S [] d H).
    + apply (hit_infix w _ (take (length S - (HASH_CHARS - 1)) S) (drop HASH_CHARS d)) in H.
      by rewrite <- app_assoc, take_drop, app_assoc, last_n_split in H.
    + apply (hit_infix w d S []) in H. by rewrite app_nil_r in H.
Qed.

(** What the sink knows after the stream [S]. *)
Definition scan_inv (cands : gset bytes) (S : bytes) (s : RefScanSink) : Prop :=
  (forall w, (w ∈ found s <-> w ∈ cands /\ hit S w) /\ (w ∈ remaining s <-> w ∈ cands /\ ~ hit S w)) /\
  (remaining s = ∅ \/ tail s = last_n (HASH_CHARS - 1) S).

Lemma write_inv cands S s d : scan_inv cands S s -> scan_inv cands (S ++ d) (fst (write s d)).
Proof.
  intros [Hs Ht]. unfold write. case_bool_decide as Hr; cbn [fst].
  { split; [|by left]. intros w. destruct (Hs w) as [Hf Hw]. rewrite Hr in Hw |- *.
    assert (Hmono : hit S w -> hit (S ++ d) w) by (rewrite hit_app; tauto).
    rewrite Hf. split; [|set_solver]. split; [tauto|]. intros [Hc _]. split; [done|].
    destruct (decide (w ∈ found s)) as [Hin|Hin]; [tauto|]. set_solver. }
  destruct Ht as [|Ht]; [done|].
  set (s1 := match tail s with [] => s | _ => _ end).
  assert (Hp1 : probed (hit (tail s ++ take HASH_CHARS d)) s s1 \/ tail s = [] /\ s1 = s).
  { unfold s1. destruct (tail s) as [|c t]; [by right|]. left. cbn [app].
    replace (take HASH_CHARS d) with (take (Nat.min (length d) HASH_CHARS) d); [apply search_spec|].
    destruct (Nat.min_spec (length d) HASH_CHARS) as [[? ->]|[? ->]]; [|done]. by rewrite !take_ge by lia. }
  assert (Hp : probed (fun w => hit (tail s ++ take HASH_CHARS d) w \/ hit d w) s (search s1 d)).
  { destruct Hp1 as [Hp1|[Hnil ->]]; [eapply probed_trans; [exact Hp1|apply search_spec]|].
    eapply probed_iff; [|apply search_spec]. intros w. rewrite Hnil. cbn [app]. split; [auto|].
    intros [H|H]; [|done]. apply (hit_infix w _ [] (drop HASH_CHARS d)) in H. by rewrite take_drop in H. }
  destruct Hp as [Hpt Hp]. split; cbn [found remaining tail].
  - intros w. destruct (Hs w) as [Hf Hw], (Hp w) as [Hf' Hw']. rewrite Hf', Hw', Hf, Hw, (hit_app S d), Ht.
    destruct (decide (w ∈ found s)) as [Hin|Hin]; tauto.
  - right. rewrite Hpt, Ht, next_tail_spec, last_n_app; [done|]. unfold last_n. rewrite length_drop. lia.
Qed.

Lemma write_all_inv cands S s chunks :
  scan_inv cands S s -> scan_inv cands (S ++ concat chunks) (write_all s chunks).
Proof.
  revert S s. induction chunks as [|d chunks IH]; intros S s H; cbn [concat write_all fold_left].
  - by rewrite app_nil_r.
  - rewrite app_assoc. by apply IH, write_inv.
Qed.

Lemma hit_nil w : ~ hit [] w.
Proof.
  intros [[Hw _] (p & q & He)]. symmetry in He. apply app_eq_nil in He as [_ He].
  apply app_eq_nil in He as [-> _]. done.
Qed.

Lemma sink_new_inv cands : scan_inv (list_to_set cands) [] (sink_new cands).
Proof.
  split; [|by right]. intros w. pose proof (hit_nil w). cbn [found remaining sink_new]. set_solver.
Qed.

(** the skip-scan over a chunked stream finds exactly what a naive search of
    the whole stream would: whatever the chunk boundaries, a candidate is found
    when, and only when, it is 32 characters of the alphabet and occurs
    contiguously in the concatenation of the chunks; nothing that is not a
    candidate is ever reported, and a candidate not found stays pending. *)
Theorem refscan_exact cands chunks w :
  (w ∈ found (write_all (sink_new cands) chunks) <->
   w ∈ cands /\ base32_hash w /\ occurs w (concat chunks)) /\
  (w ∈ remaining (write_all (sink_new cands) chunks) <->
   w ∈ cands /\ ~ (base32_hash w /\ occurs w (concat chunks))).
Proof.
  destruct (write_all_inv _ _ _ chunks (sink_new_inv cands)) as [H _]. cbn [app] in H.
  destruct (H w) as [-> ->]. rewrite elem_of_list_to_set. done.
Qed.

(** ** From hashes back to paths *)

Lemma encode_base32 h : Forall (fun c => is_base32 c = true) (encode h).
Proof.
  rewrite encode_unfold. apply Forall_forall. intros c Hc%list_elem_of_In%in_rev%in_map_iff.
  destruct Hc as (i & <- & _). pose proof (encode_digit_range h i) as Hr.
  assert (Hall : Forall (fun c => is_base32 c = true) CHARS).
  { apply Forall_forall. intros c Hc%list_elem_of_In. revert c Hc. apply forallb_forall. by vm_compute. }
  rewrite Forall_forall in Hall. apply Hall, list_elem_of_In, nth_In. change (length CHARS) with 32. lia.
Qed.

Lemma hash_part_of_base32 p h : hash_part_of p = Some h -> base32_hash h.
Proof.
  unfold hash_part_of. destruct (parse p) as [sp|] eqn:Hp; [|done]. intros [= <-].
  destruct (parse_inv _ _ Hp) as (_ & Hl & _). split; [by apply encode_hash_length|apply encode_base32].
Qed.

Lemma from_paths_snoc paths p :
  from_paths (paths ++ [p]) =
    match hash_part_of p with Some h => <[h := p]> (from_paths paths) | None => from_paths paths end.
Proof. unfold from_paths. by rewrite fold_left_app. Qed.

Lemma from_paths_lookup paths h p :
  from_paths paths !! h = Some p -> p ∈ paths /\ hash_part_of p = Some h.
Proof.
  induction paths as [|q paths IH] using rev_ind; [done|]. rewrite from_paths_snoc, elem_of_app.
  destruct (hash_part_of q) as [h'|] eqn:Hq; [|naive_solver].
  destruct (decide (h' = h)) as [->|Hne]; [rewrite lookup_insert_eq|rewrite lookup_insert_ne by done]; [|naive_solver].
  intros [= ->]. split; [|done]. right. by left.
Qed.

Lemma from_paths_dom paths h : h ∈ dom (from_paths paths) <-> exists p, p ∈ paths /\ hash_part_of p = Some h.
Proof.
  induction paths as [|q paths IH] using rev_ind.
  { unfold from_paths. cbn [fold_left]. rewrite dom_empty_L. set_solver. }
  rewrite from_paths_snoc. destruct (hash_part_of q) as [h'|] eqn:Hq; rewrite ?dom_insert; set_solver.
Qed.

Lemma insert_bytes_perm x l : insert_bytes x l ≡ₚ x :: l.
Proof.
  induction l as [|y l IH]; cbn [insert_bytes]; [done|]. case_match; [|done]. rewrite IH. constructor.
Qed.

Lemma sort_bytes_perm l : sort_bytes l ≡ₚ l.
Proof. induction l as [|x l IH]; cbn; [done|]. by rewrite insert_bytes_perm, IH. Qed.

Lemma sorted_strict l : StronglySorted bytes_le l -> NoDup l -> StronglySorted bytes_lt l.
Proof.
  induction 1 as [|x l Hs IH Hx]; intros Hnd; [constructor|]. apply NoDup_cons in Hnd as [Hni Hnd].
  constructor; [by apply IH|]. rewrite Forall_forall in Hx |- *. intros y Hy.
  destruct (bytes_ltb_total x y) as [|[->|H]]; [done..|]. by rewrite (Hx y Hy) in H.
Qed.

Lemma NoDup_omap_inj (f : bytes -> option bytes) l :
  (forall x y z, f x = Some z -> f y = Some z -> x = y) -> NoDup l -> NoDup (omap f l).
Proof.
  intros Hinj. induction 1 as [|x l Hx Hnd IH]; cbn; [constructor|]. destruct (f x) as [z|] eqn:Hz; [|done].
  constructor; [|done]. intros (y & Hy & Hfy)%list_elem_of_omap. by rewrite (Hinj _ _ _ Hz Hfy) in Hx.
Qed.

(** The references of a stream, as the upload computes them: candidates, scan,
    resolve. *)
Definition scan_references (paths : list bytes) (chunks : list bytes) : list bytes :=
  resolve (from_paths paths) (found (write_all (sink_new (hashes (from_paths paths))) chunks)).

(** C29: the references computed for an output, from candidates to paths: for
    candidate paths whose hash parts differ, a path is in the list exactly when it
    is a well-formed candidate and its hash part occurs in the stream, however
    the stream was chunked; the list is strictly sorted, so it is the same
    whatever the iteration order of the hash sets. *)
Theorem scan_references_exact paths chunks :
  (forall p p' h, p ∈ paths -> p' ∈ paths -> hash_part_of p = Some h -> hash_part_of p' = Some h -> p = p') ->
  StronglySorted bytes_lt (scan_references paths chunks) /\
  forall p, p ∈ scan_references paths chunks <->
    p ∈ paths /\ exists h, hash_part_of p = Some h /\ occurs h (concat chunks).
Proof.
  intros Hd. unfold scan_references, resolve. set (fs := found _). split.
  - apply sorted_strict; [apply sort_bytes_sorted|]. rewrite sort_bytes_perm.
    apply NoDup_omap_inj; [|apply NoDup_elements].
    intros x y z [_ Hx]%from_paths_lookup [_ Hy]%from_paths_lookup. congruence.
  - intros p. rewrite sort_bytes_elem, list_elem_of_omap. unfold fs. setoid_rewrite elem_of_elements.
    setoid_rewrite (fun w => proj1 (refscan_exact (hashes (from_paths paths)) chunks w)).
    unfold hashes. setoid_rewrite elem_of_elements. split.
    + intros (h & (_ & _ & Ho) & Hl). apply from_paths_lookup in Hl as [Hp Hh]. eauto.
    + intros (Hp & h & Hh & Ho). assert (Hin : h ∈ dom (from_paths paths)) by (apply from_paths_dom; eauto).
      exists h. split; [by eauto using hash_part_of_base32|]. apply elem_of_dom in Hin as [q Hq].
      rewrite Hq. f_equal. apply from_paths_lookup in Hq as [Hqp Hqh]. by eapply Hd.
Qed.

Definition example_candidates : list bytes :=
  [str "/nix/store/7rjj5xmrxb3n63wlk6mzlwxzxbvg7r3a-glibc"; str "not a path";
   str "/nix/store/v5sv61sszx301i0x6xysaqzla09nksnd-hello"].

(** A hash across two chunk boundaries. *)
Definition example_chunks : list bytes :=
  [str "x/nix/store/7rjj5xmrxb3n"; str "63wlk6mz"; str "lwxzxbvg7r3a-glibc/lib and more text"].

Lemma scan_references_exact_witness :
  str "/nix/store/7rjj5xmrxb3n63wlk6mzlwxzxbvg7r3a-glibc" ∈ scan_references example_candidates example_chunks.
Proof.
  apply (scan_references_exact example_candidates example_chunks).
  - intros p p' h Hp Hp'. unfold example_candidates in *.
    rewrite !elem_of_cons, elem_of_nil in Hp. rewrite !elem_of_cons, elem_of_nil in Hp'.
    destruct Hp as [->|[->|[->|[]]]], Hp' as [->|[->|[->|[]]]]; vm_compute; congruence.
  - split; [by left|]. eexists. split; [vm_compute; reflexivity|].
    exists (str "x/nix/store/"), (str "-glibc/lib and more text"). by vm_compute.
Defined.

Example scan_references_run :
  scan_references example_candidates example_chunks = [str "/nix/store/7rjj5xmrxb3n63wlk6mzlwxzxbvg7r3a-glibc"].
Proof. by vm_compute. Qed.
