(* ===== verification/NixNar.v ===== *)
(** * Nix formats: the NAR archive

    [src/rio-nix/src/nar/{mod,sync_wire,reader,writer,frame}.rs]: the archive
    tree, the wire primitives over a reader with a position, the parser, and the
    serializer.

    A reader is the bytes that are left and the number consumed.  The nesting
    limit and the directory limit bound the recursion: [parse_node] recurses on
    the levels left below [MAX_NAR_DEPTH] and the entry loop on the entries left
    below [MAX_DIRECTORY_ENTRIES], each returning the limit's error at zero, so
    no other fuel is needed. *)

From stdpp Require Import sorting.
From S2P Require Import Prelude NixBytes.

#[local] Open Scope Z_scope.

(** ** Constants, errors, trees *)

Definition NAR_MAGIC : bytes := str "nix-archive-1".
Definition MAX_CONTENT_SIZE : Z := 256 * 1024 * 1024.
Definition NAR_MAX_NAME_LEN : Z := 256.
Definition MAX_TARGET_LEN : Z := 4096.
Definition MAX_NAR_DEPTH : nat := 256.
Definition MAX_DIRECTORY_ENTRIES : nat := Z.to_nat 1048576.

Module NarError.
Inductive NarError : Type :=
| Io_UnexpectedEof
| Io_Other
| UnsupportedFileType (path : list bytes)
| InvalidMagic (s : bytes)
| UnexpectedToken (expected got : bytes)
| UnknownNodeType (s : bytes)
| ContentTooLarge (n : Z)
| TooManyEntries (n : nat)
| TooManyTotalEntries (n : nat)
| IndexBytesTooLarge (n : Z)
| NonZeroPadding (n : Z)
| NameTooLong (n : Z)
| TargetTooLong (n : Z)
| UnsortedEntries (prev cur : bytes)
| InvalidEntryName (name : bytes)
| NestingTooDeep (n : nat)
| NotSingleFile
| InvalidUtf8 (context : bytes) (offset : nat).
End NarError.
Abbreviation NarError := NarError.NarError.

(** [NarEntry] is the pair of a name and a node. *)
Inductive NarNode : Type :=
| Regular (executable : bool) (contents : bytes)
| Directory (entries : list (bytes * NarNode))
| Symlink (target : bytes).
Abbreviation NarEntry := (bytes * NarNode)%type.

Lemma NarNode_ind' (P : NarNode -> Prop) :
  (forall x c, P (Regular x c)) -> (forall t, P (Symlink t)) ->
  (forall es, Forall (fun e => P (snd e)) es -> P (Directory es)) -> forall n, P n.
Proof.
  intros Hr Hs Hd. fix IH 1. intros [x c|es|t]; [apply Hr| |apply Hs]. apply Hd.
  induction es as [|[n t] es IHes]; constructor; [apply IH|apply IHes].
Qed.

Definition elem_byte (c : Z) (s : bytes) : bool := existsb (Z.eqb c) s.

Definition entry_name_ok (name : bytes) : bool :=
  negb (bytes_eqb name [] || bytes_eqb name (str ".") || bytes_eqb name (str "..")
        || elem_byte 47 name || elem_byte 0 name).

(** ** The reader *)

Record Reader : Type := mkReader {
  rest : bytes;
  pos : Z;
}.

(** A read: the value and the reader after it, or the error. *)
Definition Read (A : Type) : Type := Reader -> (A * Reader) + NarError.

#[export] Instance Read_ret : MRet Read := fun A a r => inl (a, r).
#[export] Instance Read_bind : MBind Read := fun A B f m r =>
  match m r with inl (a, r') => f a r' | inr e => inr e end.

Definition fail {A} (e : NarError) : Read A := fun _ => inr e.

(** [read_exact] of an in-memory reader. *)
Definition read_exact (n : Z) : Read bytes := fun r =>
  if Z.of_nat (length (rest r)) <? n then inr NarError.Io_UnexpectedEof
  else inl (take (Z.to_nat n) (rest r), mkReader (drop (Z.to_nat n) (rest r)) (pos r + n)).

Fixpoint from_le_bytes (b : bytes) : Z :=
  match b with [] => 0 | x :: b => x + 256 * from_le_bytes b end.

Fixpoint to_le_bytes (n : nat) (v : Z) : bytes :=
  match n with 0%nat => [] | S n => v mod 256 :: to_le_bytes n (v / 256) end.

Definition read_u64 : Read Z := b ← read_exact 8; mret (from_le_bytes b).

Definition padding_len (len : Z) : Z := let rem := len mod 8 in if rem =? 0 then 0 else 8 - rem.

Definition consume_padding (len : Z) : Read unit :=
  let pad := padding_len len in
  if 0 <? pad then
    pad_buf ← read_exact pad;
    if existsb (fun b => negb (b =? 0)) pad_buf then fail (NarError.NonZeroPadding len) else mret tt
  else mret tt.

Definition read_padded_bytes (len : Z) : Read bytes :=
  buf ← read_exact len; _ ← consume_padding len; mret buf.

Definition read_bytes_bounded (max_len : Z) : Read bytes :=
  len ← read_u64;
  if max_len <? len then fail (NarError.ContentTooLarge len) else read_padded_bytes len.

Definition read_name_bytes : Read bytes :=
  len ← read_u64;
  if NAR_MAX_NAME_LEN <? len then fail (NarError.NameTooLong len) else read_padded_bytes len.

Definition read_target_bytes : Read bytes :=
  len ← read_u64;
  if MAX_TARGET_LEN <? len then fail (NarError.TargetTooLong len) else read_padded_bytes len.

(** [String::from_utf8] with the error the callers make of it. *)
Definition from_utf8 (context : bytes) (b : bytes) : Read bytes :=
  match utf8_invalid_at b with
  | None => mret b
  | Some offset => fail (NarError.InvalidUtf8 context offset)
  end.

Definition read_string : Read bytes := b ← read_target_bytes; from_utf8 (str "token") b.

Definition expect_str (expected : bytes) : Read unit :=
  got ← read_string;
  if negb (bytes_eqb got expected) then fail (NarError.UnexpectedToken expected got) else mret tt.

Definition validate_entry_name (name : bytes) : Read unit :=
  if entry_name_ok name then mret tt else fail (NarError.InvalidEntryName name).

(** ** The parser *)

(** A token in double quotes, in error texts. *)
Definition quoted (s : string) : bytes := [34] ++ str s ++ [34].

Definition parse_regular : Read NarNode :=
  token ← read_string;
  ec ← (if bytes_eqb token (str "executable") then
          _ ← expect_str (str ""); _ ← expect_str (str "contents");
          contents ← read_bytes_bounded MAX_CONTENT_SIZE; mret (true, contents)
        else if bytes_eqb token (str "contents") then
          contents ← read_bytes_bounded MAX_CONTENT_SIZE; mret (false, contents)
        else fail (NarError.UnexpectedToken (quoted "executable" ++ str " or " ++ quoted "contents") token));
  _ ← expect_str (str ")");
  mret (Regular (fst ec) (snd ec)).

Definition parse_symlink : Read NarNode :=
  _ ← expect_str (str "target");
  b ← read_target_bytes;
  target ← from_utf8 (str "symlink target") b;
  _ ← expect_str (str ")");
  mret (Symlink target).

(** The entry-order guard: [Some e] is the early return. *)
Definition order_check (prev_name : option bytes) (name : bytes) : option NarError :=
  match prev_name with
  | Some prev => if negb (bytes_ltb prev name) then Some (NarError.UnsortedEntries prev name) else None
  | None => None
  end.

(** The loop of [parse_directory]: [cap] is [MAX_DIRECTORY_ENTRIES] less the
    entries read so far, [pn] parses the node of an entry. *)
Fixpoint parse_entries (pn : Read NarNode) (cap : nat) (entries : list NarEntry) (prev_name : option bytes)
    : Read NarNode :=
  match cap with
  | 0%nat => fail (NarError.TooManyEntries (length entries))
  | S cap =>
      token ← read_string;
      if bytes_eqb token (str ")") then mret (Directory entries)
      else if bytes_eqb token (str "entry") then
        _ ← expect_str (str "("); _ ← expect_str (str "name");
        b ← read_name_bytes;
        name ← from_utf8 (str "entry name") b;
        _ ← validate_entry_name name;
        match order_check prev_name name with
        | Some e => fail e
        | None =>
            _ ← expect_str (str "node");
            node ← pn;
            _ ← expect_str (str ")");
            parse_entries pn cap (entries ++ [(name, node)]) (Some name)
        end
      else fail (NarError.UnexpectedToken (quoted "entry" ++ str " or " ++ quoted ")") token)
  end.

Definition parse_directory (pn : Read NarNode) : Read NarNode :=
  parse_entries pn MAX_DIRECTORY_ENTRIES [] None.

(** [parse_node] at depth [MAX_NAR_DEPTH + 1 - levels]. *)
Fixpoint parse_node (levels : nat) : Read NarNode :=
  match levels with
  | 0%nat => fail (NarError.NestingTooDeep (MAX_NAR_DEPTH + 1))
  | S levels =>
      _ ← expect_str (str "("); _ ← expect_str (str "type");
      node_type ← read_string;
      if bytes_eqb node_type (str "regular") then parse_regular
      else if bytes_eqb node_type (str "directory") then parse_directory (parse_node levels)
      else if bytes_eqb node_type (str "symlink") then parse_symlink
      else fail (NarError.UnknownNodeType node_type)
  end.

Definition nar_levels : nat := (MAX_NAR_DEPTH + 1)%nat.

(** [nar::parse]. *)
Definition nar_parse : Read NarNode :=
  magic ← read_string;
  if negb (bytes_eqb magic NAR_MAGIC) then fail (NarError.InvalidMagic magic) else parse_node nar_levels.

Definition extract_single_file (nar_data : bytes) : bytes + NarError :=
  match nar_parse (mkReader nar_data 0) with
  | inl (Regular _ contents, _) => inl contents
  | inl _ => inr NarError.NotSingleFile
  | inr e => inr e
  end.

(** ** The writer

    Writing to a [Vec] appends, so a writer is the bytes it emits. *)

Definition write_u64 (v : Z) : bytes := to_le_bytes 8 v.
Definition zero_pad (len : Z) : bytes := repeat 0 (Z.to_nat (padding_len len)).

Definition write_bytes (data : bytes) : bytes :=
  let len := Z.of_nat (length data) in write_u64 len ++ data ++ zero_pad len.

Definition write_str (s : string) : bytes := write_bytes (str s).

Fixpoint serialize_node (n : NarNode) : bytes :=
  write_str "(" ++ write_str "type" ++
  match n with
  | Regular executable contents =>
      write_str "regular" ++ (if executable then write_str "executable" ++ write_str "" else []) ++
      write_str "contents" ++ write_bytes contents ++ write_str ")"
  | Directory entries =>
      write_str "directory" ++
      flat_map (fun e => write_str "entry" ++ write_str "(" ++ write_str "name" ++ write_bytes (fst e) ++
                         write_str "node" ++ serialize_node (snd e) ++ write_str ")") entries ++
      write_str ")"
  | Symlink target => write_str "symlink" ++ write_str "target" ++ write_bytes target ++ write_str ")"
  end.

Definition serialize (n : NarNode) : bytes := write_bytes NAR_MAGIC ++ serialize_node n.

(** *** The framing emitters of external walkers *)

Module frame.
Definition magic : bytes := write_bytes NAR_MAGIC.
Definition node_open : bytes := write_str "(" ++ write_str "type".
Definition node_close : bytes := write_str ")".
Definition symlink (target : bytes) : bytes := write_str "symlink" ++ write_str "target" ++ write_bytes target.
Definition directory_open : bytes := write_str "directory".
Definition entry_open (name : bytes) : bytes :=
  write_str "entry" ++ write_str "(" ++ write_str "name" ++ write_bytes name ++ write_str "node".
Definition entry_close : bytes := write_str ")".
Definition regular_header (executable : bool) (len : Z) : bytes :=
  write_str "regular" ++ (if executable then write_str "executable" ++ write_str "" else []) ++
  write_str "contents" ++ write_u64 len.
Definition contents_padding (len : Z) : bytes := zero_pad len.
End frame.

Example parse_hello_world :
  let n := Directory [(str "bin", Directory [(str "sh", Symlink (str "bash"))]); (str "hello", Regular true (str "Hello"))] in
  match nar_parse (mkReader (serialize n) 0) with
  | inl (m, r) => m = n /\ rest r = [] /\ pos r = Z.of_nat (length (serialize n))
  | inr _ => False
  end.
Proof. vm_compute. done. Qed.

(** ** Reading what was written *)

Lemma bind_inl {A B} (m : Read A) (f : A -> Read B) r b r' :
  (x ← m; f x) r = inl (b, r') <-> exists a r1, m r = inl (a, r1) /\ f a r1 = inl (b, r').
Proof. unfold mbind, Read_bind. destruct (m r) as [[a r1]|e]; naive_solver. Qed.

Lemma ret_inl {A} (a b : A) r r' : (mret a : Read A) r = inl (b, r') <-> b = a /\ r' = r.
Proof. unfold mret, Read_ret. naive_solver. Qed.

Lemma fail_inl {A} e r (a : A) r' : fail e r = inl (a, r') <-> False.
Proof. unfold fail. naive_solver. Qed.

(** The reader moves over [b]. *)
Definition adv (r : Reader) (b : bytes) (r' : Reader) : Prop :=
  rest r = b ++ rest r' /\ pos r' = pos r + Z.of_nat (length b).

Definition reader_ok (r : Reader) : Prop := bytes_ok (rest r).

Lemma adv_nil r r' : adv r [] r' <-> r' = r.
Proof.
  unfold adv. destruct r, r'; cbn. rewrite Z.add_0_r. naive_solver.
Qed.

Lemma adv_app r a b r' : adv r (a ++ b) r' <-> exists m, adv r a m /\ adv m b r'.
Proof.
  unfold adv. rewrite length_app, <- app_assoc. split.
  - intros [Hr Hp]. exists (mkReader (b ++ rest r') (pos r + Z.of_nat (length a))). cbn. split_and!; try done. lia.
  - intros (m & [-> Hp] & [-> Hp']). split; [done|]. lia.
Qed.

Lemma adv_trans r a m b r' : adv r a m -> adv m b r' -> adv r (a ++ b) r'.
Proof. intros H1 H2. apply adv_app. by exists m. Qed.

Lemma adv_ok r b r' : adv r b r' -> reader_ok r -> reader_ok r' /\ bytes_ok b.
Proof. unfold adv, reader_ok. intros [-> _] [? ?]%Forall_app. done. Qed.

Lemma read_exact_inl n r b r' :
  0 <= n -> read_exact n r = inl (b, r') <-> Z.of_nat (length b) = n /\ adv r b r'.
Proof.
  intros Hn. unfold read_exact, adv. destruct (Z.ltb_spec (Z.of_nat (length (rest r))) n) as [Hl|Hl]; split.
  - done.
  - intros (Hb & Hr & _). apply (f_equal length) in Hr. rewrite length_app in Hr. lia.
  - intros [= <- <-]. cbn. rewrite length_take, take_drop. split_and!; try done; lia.
  - intros (Hb & Hr & Hp). assert (Z.to_nat n = length b) as -> by lia. rewrite Hr, take_app_length, drop_app_length.
    destruct r'; cbn in *. repeat f_equal. lia.
Qed.

Lemma from_le_range b : bytes_ok b -> 0 <= from_le_bytes b < 256 ^ Z.of_nat (length b).
Proof.
  induction 1 as [|x b Hx _ IH]; cbn [from_le_bytes length]; [lia|].
  rewrite Nat2Z.inj_succ, Z.pow_succ_r by lia. unfold byte_ok in Hx. lia.
Qed.

Lemma to_from_le b : bytes_ok b -> to_le_bytes (length b) (from_le_bytes b) = b.
Proof.
  induction 1 as [|x b Hx _ IH]; cbn [from_le_bytes to_le_bytes length]; [done|]. unfold byte_ok in Hx.
  replace ((x + 256 * from_le_bytes b) mod 256) with x by lia.
  replace ((x + 256 * from_le_bytes b) / 256) with (from_le_bytes b) by lia. by rewrite IH.
Qed.

Lemma from_to_le n v : 0 <= v < 256 ^ Z.of_nat n -> from_le_bytes (to_le_bytes n v) = v.
Proof.
  revert v. induction n as [|n IH]; intros v Hv; cbn [from_le_bytes to_le_bytes]; [cbn in Hv; lia|].
  rewrite Nat2Z.inj_succ, Z.pow_succ_r in Hv by lia. rewrite IH; lia.
Qed.

Lemma to_le_length n v : length (to_le_bytes n v) = n.
Proof. revert v. induction n; intros v; cbn; auto. Qed.

Lemma to_le_ok n v : bytes_ok (to_le_bytes n v).
Proof. revert v. induction n; intros v; cbn; constructor; auto. unfold byte_ok. lia. Qed.

Lemma read_u64_inl r v r' :
  reader_ok r -> read_u64 r = inl (v, r') <-> 0 <= v < 2 ^ 64 /\ adv r (write_u64 v) r'.
Proof.
  intros Hr. unfold read_u64. rewrite bind_inl. setoid_rewrite read_exact_inl; [|lia].
  setoid_rewrite ret_inl. unfold write_u64. split.
  - intros (b & r1 & [Hb Ha] & -> & ->). destruct (adv_ok _ _ _ Ha Hr) as [_ Hok].
    pose proof (from_le_range b Hok) as Hrange. pose proof (to_from_le b Hok) as Ht.
    assert (length b = 8%nat) as Hlen by lia. rewrite Hlen in Ht, Hrange. rewrite Ht. split; [|done]. cbn in *. lia.
  - intros [Hv Ha]. exists (to_le_bytes 8 v), r'. rewrite to_le_length, from_to_le by (cbn; lia). done.
Qed.

Lemma padding_len_range len : 0 <= padding_len len < 8.
Proof. unfold padding_len. destruct (Z.eqb_spec (len mod 8) 0); lia. Qed.

Lemma zeros_iff b : existsb (fun b => negb (b =? 0)) b = false <-> b = repeat 0 (length b).
Proof.
  induction b as [|x b IH]; cbn; [done|]. destruct (Z.eqb_spec x 0) as [->|]; cbn.
  - rewrite IH. split; congruence.
  - split; congruence.
Qed.

Lemma consume_padding_inl len r u r' : consume_padding len r = inl (u, r') <-> adv r (zero_pad len) r'.
Proof.
  unfold consume_padding, zero_pad. pose proof (padding_len_range len) as Hp. destruct u.
  destruct (Z.ltb_spec 0 (padding_len len)) as [H0|H0].
  - rewrite bind_inl. setoid_rewrite read_exact_inl; [|lia]. split.
    + intros (b & r1 & [Hb Ha] & He). destruct (existsb _ b) eqn:Hz; [done|]. apply zeros_iff in Hz.
      apply ret_inl in He as [_ ->]. rewrite Hz in Ha. by replace (Z.to_nat (padding_len len)) with (length b) by lia.
    + intros Ha. exists (repeat 0 (Z.to_nat (padding_len len))), r'. rewrite repeat_length. split; [split; [lia|done]|].
      rewrite (proj2 (zeros_iff _)); [done|]. by rewrite repeat_length.
  - replace (padding_len len) with 0 by lia. cbn [Z.to_nat repeat]. rewrite adv_nil, ret_inl. naive_solver.
Qed.

Lemma read_padded_inl len r b r' :
  0 <= len -> read_padded_bytes len r = inl (b, r') <-> Z.of_nat (length b) = len /\ adv r (b ++ zero_pad len) r'.
Proof.
  intros Hl. unfold read_padded_bytes. rewrite bind_inl, adv_app. setoid_rewrite bind_inl.
  setoid_rewrite consume_padding_inl. setoid_rewrite ret_inl. setoid_rewrite read_exact_inl; [|done]. split.
  - intros (b' & r1 & [Hb Ha] & u & r2 & Hz & -> & ->). eauto.
  - intros [Hb (m & Ha & Hz)]. exists b, m. split; [done|]. exists tt, r'. done.
Qed.

(** The three bounded readers. *)
Definition read_bounded (err : Z -> NarError) (max_len : Z) : Read bytes :=
  len ← read_u64; if max_len <? len then fail (err len) else read_padded_bytes len.

Lemma read_bounded_inl err max_len r b r' :
  reader_ok r -> max_len < 2 ^ 64 ->
  read_bounded err max_len r = inl (b, r') <-> Z.of_nat (length b) <= max_len /\ adv r (write_bytes b) r'.
Proof.
  intros Hr Hm. unfold read_bounded, write_bytes. rewrite bind_inl, adv_app. setoid_rewrite read_u64_inl; [|done].
  split.
  - intros (len & r1 & [Hv Ha] & He). destruct (Z.ltb_spec max_len len) as [|Hle]; [done|].
    apply read_padded_inl in He as [<- Hb]; [|lia]. eauto.
  - intros [Hb (m & Ha & Hz)]. exists (Z.of_nat (length b)), m. split; [split; [lia|done]|].
    destruct (Z.ltb_spec max_len (Z.of_nat (length b))); [lia|]. apply read_padded_inl; [lia|done].
Qed.

Lemma from_utf8_inl context b r s r' : from_utf8 context b r = inl (s, r') <-> utf8_valid b = true /\ s = b /\ r' = r.
Proof.
  unfold from_utf8, utf8_valid. destruct (utf8_invalid_at b); [rewrite fail_inl|rewrite ret_inl]; naive_solver.
Qed.

Lemma read_target_inl r b r' :
  reader_ok r -> read_target_bytes r = inl (b, r') <-> Z.of_nat (length b) <= MAX_TARGET_LEN /\ adv r (write_bytes b) r'.
Proof. intros Hr. exact (read_bounded_inl NarError.TargetTooLong MAX_TARGET_LEN r b r' Hr eq_refl). Qed.

Lemma read_name_inl r b r' :
  reader_ok r -> read_name_bytes r = inl (b, r') <-> Z.of_nat (length b) <= NAR_MAX_NAME_LEN /\ adv r (write_bytes b) r'.
Proof. intros Hr. exact (read_bounded_inl NarError.NameTooLong NAR_MAX_NAME_LEN r b r' Hr eq_refl). Qed.

Lemma read_content_inl r b r' :
  reader_ok r ->
  read_bytes_bounded MAX_CONTENT_SIZE r = inl (b, r') <->
  Z.of_nat (length b) <= MAX_CONTENT_SIZE /\ adv r (write_bytes b) r'.
Proof. intros Hr. exact (read_bounded_inl NarError.ContentTooLarge MAX_CONTENT_SIZE r b r' Hr eq_refl). Qed.

(** A token the reader can take: short valid UTF-8. *)
Definition token_ok (b : bytes) : bool := (Z.of_nat (length b) <=? MAX_TARGET_LEN) && utf8_valid b.

Lemma read_string_inl r b r' :
  reader_ok r -> read_string r = inl (b, r') <-> token_ok b = true /\ adv r (write_bytes b) r'.
Proof.
  intros Hr. unfold read_string, token_ok. rewrite bind_inl. setoid_rewrite from_utf8_inl.
  setoid_rewrite read_target_inl; [|done]. rewrite andb_true_iff, Z.leb_le. naive_solver.
Qed.

Lemma expect_str_inl t r u r' :
  reader_ok r -> token_ok t = true -> expect_str t r = inl (u, r') <-> adv r (write_bytes t) r'.
Proof.
  intros Hr Ht. unfold expect_str. rewrite bind_inl. setoid_rewrite read_string_inl; [|done].
  destruct u. unfold bytes_eqb. split.
  - intros (b & r1 & [_ Ha] & He). case_bool_decide; [|done]. subst b. by apply ret_inl in He as [_ ->].
  - intros Ha. exists t, r'. split; [done|]. by rewrite bool_decide_eq_true_2.
Qed.

(** Chaining a read whose success is [adv] over its encoding. *)
Lemma expect_bind {B} t (k : Read B) r b r' :
  reader_ok r -> token_ok t = true ->
  (_ ← expect_str t; k) r = inl (b, r') <-> exists r1, adv r (write_bytes t) r1 /\ reader_ok r1 /\ k r1 = inl (b, r').
Proof.
  intros Hr Ht. rewrite bind_inl. split.
  - intros (u & r1 & Ha & Hk). apply expect_str_inl in Ha; [|done..]. exists r1.
    split_and!; [done| |done]. exact (proj1 (adv_ok _ _ _ Ha Hr)).
  - intros (r1 & Ha & _ & Hk). exists tt, r1. split; [|done]. by apply expect_str_inl.
Qed.

Lemma string_bind {B} (k : bytes -> Read B) r b r' :
  reader_ok r ->
  (t ← read_string; k t) r = inl (b, r') <->
  exists t r1, token_ok t = true /\ adv r (write_bytes t) r1 /\ reader_ok r1 /\ k t r1 = inl (b, r').
Proof.
  intros Hr. rewrite bind_inl. setoid_rewrite read_string_inl; [|done]. split.
  - intros (t & r1 & [Ht Ha] & Hk). exists t, r1. split_and!; try done. exact (proj1 (adv_ok _ _ _ Ha Hr)).
  - intros (t & r1 & Ht & Ha & _ & Hk). eauto.
Qed.

Lemma name_bind {B} prev (k : bytes -> Read B) r b r' :
  reader_ok r ->
  (x ← read_name_bytes; name ← from_utf8 (str "entry name") x; _ ← validate_entry_name name;
   match order_check prev name with Some e => fail e | None => k name end) r = inl (b, r') <->
  exists name r1, (Z.of_nat (length name) <= NAR_MAX_NAME_LEN /\ utf8_valid name = true /\ entry_name_ok name = true) /\
    order_check prev name = None /\ adv r (write_bytes name) r1 /\ reader_ok r1 /\ k name r1 = inl (b, r').
Proof.
  intros Hr. rewrite bind_inl. setoid_rewrite read_name_inl; [|done]. setoid_rewrite bind_inl.
  setoid_rewrite from_utf8_inl. split.
  - intros (name & r1 & [Hl Ha] & ? & ? & (Hu & -> & ->) & Hk). apply bind_inl in Hk as ([] & r2 & Hv & Hk).
    unfold validate_entry_name in Hv. destruct (entry_name_ok name) eqn:Hn; [|done]. apply ret_inl in Hv as [_ ->].
    destruct (order_check prev name) eqn:Ho; [done|]. exists name, r1. split_and!; try done.
    exact (proj1 (adv_ok _ _ _ Ha Hr)).
  - intros (name & r1 & (Hl & Hu & Hn) & Ho & Ha & _ & Hk). exists name, r1. split; [done|]. exists name, r1. split; [done|].
    apply bind_inl. exists tt, r1. unfold validate_entry_name. rewrite Hn, Ho. done.
Qed.

(** What the reader accepts as a tree: [levels] bounds the nesting. *)
Definition name_wf (name : bytes) : Prop :=
  Z.of_nat (length name) <= NAR_MAX_NAME_LEN /\ utf8_valid name = true /\ entry_name_ok name = true.

(** Names in strictly increasing order, after [prev]. *)
Fixpoint names_after (prev : option bytes) (names : list bytes) : Prop :=
  match names with
  | [] => True
  | n :: names => order_check prev n = None /\ names_after (Some n) names
  end.

Definition strictly_sorted (names : list bytes) : Prop := StronglySorted (fun a b => bytes_ltb a b = true) names.

(** A list is sorted after [prev]. *)
Definition sorted_after (prev : option bytes) (names : list bytes) : Prop :=
  strictly_sorted names /\ match prev with Some p => Forall (fun n => bytes_ltb p n = true) names | None => True end.

Lemma sorted_after_cons prev n names :
  sorted_after prev (n :: names) <->
  match prev with Some p => bytes_ltb p n = true | None => True end /\ sorted_after (Some n) names.
Proof.
  unfold sorted_after, strictly_sorted. rewrite StronglySorted_cons. destruct prev as [p|]; [|tauto].
  rewrite Forall_cons. split; [tauto|]. intros (H1 & H2 & H3). split_and!; try done.
  eapply Forall_impl; [exact H3|]. intros x Hx. by eapply bytes_ltb_trans.
Qed.

Lemma sorted_after_None names : sorted_after None names <-> strictly_sorted names.
Proof. unfold sorted_after. tauto. Qed.

Lemma names_after_sorted prev names : names_after prev names <-> sorted_after prev names.
Proof.
  revert prev. induction names as [|n names IH]; intros prev; cbn [names_after].
  { split; [|done]. intros _. split; [constructor|]. by destruct prev. }
  rewrite IH, sorted_after_cons. unfold order_check. destruct prev as [p|]; [|tauto]. destruct (bytes_ltb p n); cbn [negb]; intuition done.
Qed.

Lemma names_after_NoDup prev names : names_after prev names -> NoDup names.
Proof.
  intros [Hs _]%names_after_sorted. unfold strictly_sorted in Hs. induction Hs as [|x l _ IH Hx]; constructor; [|done].
  intros Hin. rewrite Forall_forall in Hx. specialize (Hx x Hin). by rewrite bytes_ltb_irrefl in Hx.
Qed.

Fixpoint node_wf (levels : nat) (n : NarNode) : Prop :=
  match levels with
  | 0%nat => False
  | S levels =>
      match n with
      | Regular _ contents => Z.of_nat (length contents) <= MAX_CONTENT_SIZE
      | Symlink target => token_ok target = true
      | Directory entries =>
          (length entries < MAX_DIRECTORY_ENTRIES)%nat /\ names_after None (List.map fst entries) /\
          Forall (fun e => name_wf (fst e) /\ node_wf levels (snd e)) entries
      end
  end.

Lemma node_wf_S levels n :
  node_wf (S levels) n <->
  match n with
  | Regular _ contents => Z.of_nat (length contents) <= MAX_CONTENT_SIZE
  | Symlink target => token_ok target = true
  | Directory entries =>
      (length entries < MAX_DIRECTORY_ENTRIES)%nat /\ names_after None (List.map fst entries) /\
      Forall (fun e => name_wf (fst e) /\ node_wf levels (snd e)) entries
  end.
Proof. reflexivity. Qed.

(** One entry after its [entry] token. *)
Definition entry_body (e : NarEntry) : bytes :=
  write_str "(" ++ write_str "name" ++ write_bytes (fst e) ++ write_str "node" ++ serialize_node (snd e) ++ write_str ")".

Definition entry_bytes (e : NarEntry) : bytes := write_str "entry" ++ entry_body e.

(** A node after its opening tokens. *)
Definition node_body (n : NarNode) : bytes :=
  match n with
  | Regular executable contents =>
      write_str "regular" ++ (if executable then write_str "executable" ++ write_str "" else []) ++
      write_str "contents" ++ write_bytes contents ++ write_str ")"
  | Directory entries => write_str "directory" ++ flat_map entry_bytes entries ++ write_str ")"
  | Symlink target => write_str "symlink" ++ write_str "target" ++ write_bytes target ++ write_str ")"
  end.

Lemma serialize_unfold n : serialize_node n = write_str "(" ++ write_str "type" ++ node_body n.
Proof. by destruct n. Qed.

(** [p] reads exactly the trees in [P], from their serialization. *)
Definition reads_nodes (p : Read NarNode) (enc : NarNode -> bytes) (P : NarNode -> Prop) : Prop :=
  forall r, reader_ok r -> forall n r', p r = inl (n, r') <-> P n /\ adv r (enc n) r'.

Lemma node_bind {B} p enc P (k : NarNode -> Read B) r b r' :
  reads_nodes p enc P -> reader_ok r ->
  (n ← p; k n) r = inl (b, r') <->
  exists n r1, P n /\ adv r (enc n) r1 /\ reader_ok r1 /\ k n r1 = inl (b, r').
Proof.
  intros Hp Hr. rewrite bind_inl. split.
  - intros (n & r1 & [Hn Ha]%(Hp r Hr) & Hk). exists n, r1. split_and!; try done. exact (proj1 (adv_ok _ _ _ Ha Hr)).
  - intros (n & r1 & Hn & Ha & _ & Hk). exists n, r1. split; [|done]. by apply (Hp r Hr).
Qed.

Section Loop.
Context (pn : Read NarNode) (P : NarNode -> Prop) (Hpn : reads_nodes pn serialize_node P).

Lemma entry_bind {B} prev (k : bytes -> NarNode -> Read B) r b r' :
  reader_ok r ->
  (_ ← expect_str (str "("); _ ← expect_str (str "name"); x ← read_name_bytes;
   name ← from_utf8 (str "entry name") x; _ ← validate_entry_name name;
   match order_check prev name with
   | Some e => fail e
   | None => _ ← expect_str (str "node"); node ← pn; _ ← expect_str (str ")"); k name node
   end) r = inl (b, r') <->
  exists name node r1, name_wf name /\ order_check prev name = None /\ P node /\
    adv r (entry_body (name, node)) r1 /\ reader_ok r1 /\ k name node r1 = inl (b, r').
Proof.
  intros Hr. unfold entry_body. cbn [fst snd]. split.
  - intros (r1 & H1 & Hr1 & (r2 & H2 & Hr2 & (name & r3 & Hn & Ho & H3 & Hr3 &
      (r4 & H4 & Hr4 & (node & r5 & Hnode & H5 & Hr5 & (r6 & H6 & Hr6 & Hk)%expect_bind)%(node_bind _ _ _ _ _ _ _ Hpn))%expect_bind)
      %name_bind)%expect_bind)%expect_bind; try done.
    exists name, node, r6. split_and!; try done.
    exact (adv_trans _ _ _ _ _ H1 (adv_trans _ _ _ _ _ H2 (adv_trans _ _ _ _ _ H3
      (adv_trans _ _ _ _ _ H4 (adv_trans _ _ _ _ _ H5 H6))))).
  - intros (name & node & r6 & Hn & Ho & Hnode & (r1 & H1 & (r2 & H2 & (r3 & H3 & (r4 & H4 &
      (r5 & H5 & H6)%adv_app)%adv_app)%adv_app)%adv_app)%adv_app & Hr6 & Hk).
    pose proof (proj1 (adv_ok _ _ _ H1 Hr)) as Hr1. pose proof (proj1 (adv_ok _ _ _ H2 Hr1)) as Hr2.
    pose proof (proj1 (adv_ok _ _ _ H3 Hr2)) as Hr3. pose proof (proj1 (adv_ok _ _ _ H4 Hr3)) as Hr4.
    pose proof (proj1 (adv_ok _ _ _ H5 Hr4)) as Hr5.
    apply expect_bind; [done..|]. exists r1. split_and!; [done..|].
    apply expect_bind; [done..|]. exists r2. split_and!; [done..|].
    apply name_bind; [done|]. exists name, r3. split_and!; [apply Hn..|done|done|done|].
    apply expect_bind; [done..|]. exists r4. split_and!; [done..|].
    apply (node_bind _ _ _ _ _ _ _ Hpn Hr4). exists node, r5. split_and!; [done..|].
    apply expect_bind; [done..|]. exists r6. done.
Qed.

Lemma parse_entries_inl cap acc prev r n r' :
  reader_ok r ->
  parse_entries pn cap acc prev r = inl (n, r') <->
  exists es, n = Directory (acc ++ es) /\ (length es < cap)%nat /\ names_after prev (List.map fst es) /\
    Forall (fun e => name_wf (fst e) /\ P (snd e)) es /\ adv r (flat_map entry_bytes es ++ write_str ")") r'.
Proof.
  revert acc prev r. induction cap as [|cap IH]; intros acc prev r Hr; cbn [parse_entries].
  { rewrite fail_inl. split; [done|]. intros (es & _ & ? & _). lia. }
  rewrite string_bind by done. unfold bytes_eqb. split.
  - intros (t & r1 & Ht & Ha & Hr1 & Hk). case_bool_decide as H1; [|case_bool_decide as H2; [|done]]; subst t.
    + apply ret_inl in Hk as [-> ->]. exists []. rewrite app_nil_r. split_and!; [done|cbn; lia|done|constructor|done].
    + apply entry_bind in Hk as (name & node & r2 & Hn & Ho & Hnode & Hb & Hr2 & Hk); [|done].
      apply IH in Hk as (es & -> & Hl & Hs & Hf & He); [|done]. exists ((name, node) :: es).
      rewrite <- app_assoc. cbn [app List.map fst length names_after flat_map]. split_and!; try done; [lia|by constructor|].
      rewrite <- app_assoc. unfold entry_bytes at 1. rewrite <- app_assoc. eauto using adv_trans.
  - intros (es & -> & Hl & Hs & Hf & He). destruct es as [|[name node] es]; cbn [flat_map app] in He.
    + exists (str ")"), r'. rewrite app_nil_r. split_and!; [done|done|exact (proj1 (adv_ok _ _ _ He Hr))|done].
    + cbn [List.map fst names_after] in Hs. destruct Hs as [Ho Hs]. apply Forall_cons in Hf as [[Hn Hnode] Hf].
      unfold entry_bytes in He at 1. rewrite <- !app_assoc in He. apply adv_app in He as (r1 & Ha & He).
      apply adv_app in He as (r2 & Hb & He). pose proof (proj1 (adv_ok _ _ _ Ha Hr)) as Hr1.
      pose proof (proj1 (adv_ok _ _ _ Hb Hr1)) as Hr2.
      exists (str "entry"), r1. split_and!; [done..|]. cbn [bool_decide]. 
      rewrite bool_decide_eq_false_2 by done. rewrite bool_decide_eq_true_2 by done.
      apply entry_bind; [done|]. exists name, node, r2. split_and!; try done.
      apply IH; [done|]. exists es. rewrite <- app_assoc. split_and!; try done. cbn in Hl. lia.
Qed.

Lemma parse_directory_inl r n r' :
  reader_ok r ->
  parse_directory pn r = inl (n, r') <->
  exists es, n = Directory es /\ (length es < MAX_DIRECTORY_ENTRIES)%nat /\ names_after None (List.map fst es) /\
    Forall (fun e => name_wf (fst e) /\ P (snd e)) es /\ adv r (flat_map entry_bytes es ++ write_str ")") r'.
Proof. intros Hr. unfold parse_directory. rewrite (parse_entries_inl _ [] None r n r' Hr). reflexivity. Qed.
End Loop.

Ltac adv_next He Hr r1 H1 Hr1 :=
  apply adv_app in He as (r1 & H1 & He); pose proof (proj1 (adv_ok _ _ _ H1 Hr)) as Hr1.

Lemma parse_regular_inl r n r' :
  reader_ok r ->
  parse_regular r = inl (n, r') <->
  exists executable contents, n = Regular executable contents /\ Z.of_nat (length contents) <= MAX_CONTENT_SIZE /\
    adv r ((if executable then write_str "executable" ++ write_str "" else []) ++ write_str "contents" ++
           write_bytes contents ++ write_str ")") r'.
Proof.
  intros Hr. unfold parse_regular. rewrite string_bind by done. unfold bytes_eqb. split.
  - intros (t & r1 & Ht & Ha & Hr1 & Hk). apply bind_inl in Hk as ([x c] & r2 & Hc & Hk).
    case_bool_decide as H1; [|case_bool_decide as H2; [|done]]; subst t.
    + apply expect_bind in Hc as (r3 & H3 & Hr3 & Hc); [|done..]. apply expect_bind in Hc as (r4 & H4 & Hr4 & Hc); [|done..].
      apply bind_inl in Hc as (c' & r5 & Hc & [[= -> ->] ->]%ret_inl). apply read_content_inl in Hc as [Hl Hc]; [|done].
      apply expect_bind in Hk as (r6 & H6 & _ & [-> ->]%ret_inl); [|exact (proj1 (adv_ok _ _ _ Hc Hr4))|done].
      exists true, c'. split_and!; [done..|]. rewrite <- app_assoc. eauto using adv_trans.
    + apply bind_inl in Hc as (c' & r5 & Hc & [[= -> ->] ->]%ret_inl). apply read_content_inl in Hc as [Hl Hc]; [|done].
      apply expect_bind in Hk as (r6 & H6 & _ & [-> ->]%ret_inl); [|exact (proj1 (adv_ok _ _ _ Hc Hr1))|done].
      exists false, c'. split_and!; [done..|]. cbn [app]. eauto using adv_trans.
  - intros (x & c & -> & Hl & He). destruct x; cbn [app] in He; rewrite <- ?app_assoc in He.
    + adv_next He Hr r1 H1 Hr1. adv_next He Hr1 r2 H2 Hr2. adv_next He Hr2 r3 H3 Hr3. adv_next He Hr3 r4 H4 Hr4.
      exists (str "executable"), r1. split_and!; [done..|]. apply bind_inl. exists (true, c), r4. split.
      * rewrite bool_decide_eq_true_2 by done. apply expect_bind; [done..|]. exists r2. split_and!; [done..|].
        apply expect_bind; [done..|]. exists r3. split_and!; [done..|]. apply bind_inl. exists c, r4.
        split; [by apply read_content_inl|done].
      * apply expect_bind; [done..|]. exists r'. split_and!; [done|exact (proj1 (adv_ok _ _ _ He Hr4))|done].
    + adv_next He Hr r1 H1 Hr1. adv_next He Hr1 r2 H2 Hr2.
      exists (str "contents"), r1. split_and!; [done..|]. apply bind_inl. exists (false, c), r2. split.
      * rewrite bool_decide_eq_false_2, bool_decide_eq_true_2 by done. apply bind_inl. exists c, r2.
        split; [by apply read_content_inl|done].
      * apply expect_bind; [done..|]. exists r'. split_and!; [done|exact (proj1 (adv_ok _ _ _ He Hr2))|done].
Qed.

Lemma parse_symlink_inl r n r' :
  reader_ok r ->
  parse_symlink r = inl (n, r') <->
  exists target, n = Symlink target /\ token_ok target = true /\
    adv r (write_str "target" ++ write_bytes target ++ write_str ")") r'.
Proof.
  intros Hr. unfold parse_symlink. split.
  - intros (r1 & H1 & Hr1 & Hk)%expect_bind; [|done..]. apply bind_inl in Hk as (b & r2 & Hb & Hk).
    apply read_target_inl in Hb as [Hl Hb]; [|done]. pose proof (proj1 (adv_ok _ _ _ Hb Hr1)) as Hr2.
    apply bind_inl in Hk as (t & r3 & (Hu & -> & ->)%from_utf8_inl & Hk).
    apply expect_bind in Hk as (r4 & H4 & _ & [-> ->]%ret_inl); [|done..]. exists b. split_and!; [done| |].
    + unfold token_ok. rewrite Hu, (proj2 (Z.leb_le _ _)); done.
    + eauto using adv_trans.
  - intros (t & -> & Ht & He). adv_next He Hr r1 H1 Hr1. adv_next He Hr1 r2 H2 Hr2.
    unfold token_ok in Ht. apply andb_true_iff in Ht as [Hl%Z.leb_le Hu].
    apply expect_bind; [done..|]. exists r1. split_and!; [done..|]. apply bind_inl. exists t, r2.
    split; [by apply read_target_inl|]. apply bind_inl. exists t, r2. split; [by apply from_utf8_inl|].
    apply expect_bind; [done..|]. exists r'. split_and!; [done|exact (proj1 (adv_ok _ _ _ He Hr2))|done].
Qed.

Lemma parse_node_inl levels : reads_nodes (parse_node levels) serialize_node (node_wf levels).
Proof.
  induction levels as [|levels IH]; intros r Hr n r'; cbn [parse_node]; rewrite serialize_unfold.
  { rewrite fail_inl. cbn [node_wf]. tauto. }
  rewrite node_wf_S. split.
  - intros (r1 & H1 & Hr1 & Hk)%expect_bind; [|done..]. apply expect_bind in Hk as (r2 & H2 & Hr2 & Hk); [|done..].
    apply string_bind in Hk as (t & r3 & Ht & H3 & Hr3 & Hk); [|done]. unfold bytes_eqb in Hk.
    case_bool_decide as Ht1; [|case_bool_decide as Ht2; [|case_bool_decide as Ht3; [|done]]]; subst t.
    + apply parse_regular_inl in Hk as (x & c & -> & Hl & He); [|done]. split; [done|]. eauto using adv_trans.
    + apply (parse_directory_inl _ _ IH) in Hk as (es & -> & Hl & Hs & Hf & He); [|done]. split; [done|].
      eauto using adv_trans.
    + apply parse_symlink_inl in Hk as (t & -> & Hl & He); [|done]. split; [done|]. eauto using adv_trans.
  - intros [Hw He]. adv_next He Hr r1 H1 Hr1. adv_next He Hr1 r2 H2 Hr2.
    apply expect_bind; [done..|]. exists r1. split_and!; [done..|]. apply expect_bind; [done..|]. exists r2.
    split_and!; [done..|]. apply string_bind; [done|]. unfold bytes_eqb. destruct n as [x c|es|t].
    + adv_next He Hr2 r3 H3 Hr3. exists (str "regular"), r3. split_and!; [done..|].
      apply parse_regular_inl; [done|]. by exists x, c.
    + adv_next He Hr2 r3 H3 Hr3. exists (str "directory"), r3. split_and!; [done..|].
      apply (parse_directory_inl _ _ IH); [done|]. exists es. destruct Hw as (Hl & Hs & Hf). done.
    + adv_next He Hr2 r3 H3 Hr3. exists (str "symlink"), r3. split_and!; [done..|].
      apply parse_symlink_inl; [done|]. by exists t.
Qed.

Lemma nar_parse_inl : reads_nodes nar_parse serialize (node_wf nar_levels).
Proof.
  intros r Hr n r'. unfold nar_parse, serialize. rewrite string_bind by done. unfold bytes_eqb. split.
  - intros (t & r1 & Ht & Ha & Hr1 & Hk). case_bool_decide as Hm; [|done]. subst t.
    apply (parse_node_inl nar_levels r1 Hr1) in Hk as [Hw He]. split; [done|]. by eapply adv_trans.
  - intros [Hw He]. adv_next He Hr r1 H1 Hr1. exists NAR_MAGIC, r1. split_and!; [done..|].
    rewrite bool_decide_eq_true_2 by done. by apply (parse_node_inl nar_levels r1 Hr1).
Qed.

(** C26: the archive reader accepts exactly the serializations.  On any bytes it
    returns a tree when, and only when, they start with that tree's serialization
    and the tree is well formed: depth at most 256, fewer than 1,048,576 entries
    per directory with valid, strictly increasing names, contents of at most
    256 MiB, targets of at most 4096 bytes of UTF-8.  It stops right after it,
    having consumed its length.  So writing then reading gives the tree back, and
    a tree has one accepted encoding. *)
Theorem nar_parse_exact s n r :
  bytes_ok s ->
  nar_parse (mkReader s 0) = inl (n, r) <->
  node_wf nar_levels n /\ s = serialize n ++ rest r /\ pos r = Z.of_nat (length (serialize n)).
Proof. intros Hs. exact (nar_parse_inl (mkReader s 0) Hs n r). Qed.

Definition example_nar : NarNode :=
  Directory [(str "bin", Directory [(str "sh", Symlink (str "bash"))]); (str "hello", Regular true (str "Hello"))].

Lemma lt_max_dir k : Z.of_nat k < 1048576 <-> (k < MAX_DIRECTORY_ENTRIES)%nat.
Proof. unfold MAX_DIRECTORY_ENTRIES. rewrite Nat2Z.inj_lt, Z2Nat.id; [done|discriminate]. Qed.

Lemma example_nar_wf : node_wf nar_levels example_nar.
Proof.
  change nar_levels with (S (S (S 254))). unfold example_nar. rewrite node_wf_S. cbn [length List.map fst snd].
  split; [by apply lt_max_dir|split; [done|]].
  apply Forall_cons. split; [|apply Forall_cons; split; [|constructor]]; cbn [fst snd]; (split; [done|]);
    rewrite node_wf_S; [|done].
  cbn [length List.map fst snd]. split; [by apply lt_max_dir|split; [done|]]. apply Forall_cons. split; [|constructor]. done.
Qed.

Lemma nar_parse_exact_witness :
  nar_parse (mkReader (serialize example_nar ++ [1; 2; 3]) 0) =
    inl (example_nar, mkReader [1; 2; 3] (Z.of_nat (length (serialize example_nar)))).
Proof.
  apply (nar_parse_exact (serialize example_nar ++ [1; 2; 3])).
  - apply (bool_decide_unpack _). by vm_compute.
  - split; [exact example_nar_wf|done].
Defined.

(** [extract_single_file], which reads an uploaded derivation out of its
    archive, returns contents exactly for an archive whose root is a regular
    file with those contents, of at most 256 MiB. *)
Theorem extract_single_file_exact s contents :
  bytes_ok s ->
  extract_single_file s = inl contents <->
  Z.of_nat (length contents) <= MAX_CONTENT_SIZE /\
  exists executable t, s = serialize (Regular executable contents) ++ t.
Proof.
  intros Hs. unfold extract_single_file. split.
  - destruct (nar_parse (mkReader s 0)) as [[n r]|e] eqn:Hp; [|done]. apply (nar_parse_inl (mkReader s 0) Hs) in Hp as [Hw [Ha _]].
    destruct n as [x c|es|t]; try done. intros [= ->]. split; [exact Hw|]. by exists x, (rest r).
  - intros (Hl & x & t & Ht).
    assert (Hp : nar_parse (mkReader s 0) = inl (Regular x contents, mkReader t (Z.of_nat (length (serialize (Regular x contents)))))).
    { apply (nar_parse_inl (mkReader s 0) Hs). split; [exact Hl|]. by split. }
    by rewrite Hp.
Qed.

Lemma extract_single_file_exact_witness : extract_single_file (serialize (Regular false (str "Derive()"))) = inl (str "Derive()").
Proof.
  apply (extract_single_file_exact (serialize (Regular false (str "Derive()")))).
  - apply (bool_decide_unpack _). by vm_compute.
  - split; [done|]. exists false, []. by rewrite app_nil_r.
Defined.
