(* ===== verification/NixNarLs.v ===== *)
(** * Nix formats: the streaming archive index

    [src/rio-nix/src/nar/ls.rs]: one pass over a NAR that lists its nodes in
    walk order with the byte offset and the BLAKE3 digest of every file, within
    the whole-archive bounds.  BLAKE3 is a parameter: an incremental hasher. *)

From S2P Require Import Prelude NixBytes NixNar.

#[local] Open Scope Z_scope.

Definition MAX_NAR_ENTRIES : Z := 1048576.
Definition MAX_NAR_INDEX_BYTES : Z := 128 * 1024 * 1024.
Definition STREAM_BLOCK : Z := 64 * 1024.

(** The [blake3] crate's hasher. *)
Class Blake3 : Type := {
  hasher : Type;
  hasher_new : hasher;
  hasher_update : hasher -> bytes -> hasher;
  hasher_finalize : hasher -> bytes;
}.

(** Feeding a hasher in pieces is feeding it their concatenation. *)
Class Blake3Laws (H : Blake3) : Prop := {
  update_nil h : hasher_update h [] = h;
  update_app h a b : hasher_update h (a ++ b) = hasher_update (hasher_update h a) b;
}.

Inductive NarEntryKind : Type := KRegular | KDirectory | KSymlink.

Record NarLsEntry : Type := mkNarLsEntry {
  le_path : bytes;
  le_kind : NarEntryKind;
  le_size : Z;
  le_executable : bool;
  le_nar_offset : Z;
  le_target : bytes;
  le_file_digest : bytes;
}.

Record LsOut : Type := mkLsOut {
  lo_entries : list NarLsEntry;
  lo_index_bytes : Z;
}.

(** [escape_ascii] of a byte, for error texts. *)
Definition escape_byte (b : Z) : bytes :=
  if b =? 9 then str "\t" else if b =? 10 then str "\n" else if b =? 13 then str "\r"
  else if (b =? 34) || (b =? 39) || (b =? 92) then [92; b]
  else if (32 <=? b) && (b <=? 126) then [b]
  else str "\x" ++ hex_encode [b].

Definition escape (s : bytes) : bytes := flat_map escape_byte s.

(** [LsOut::push]. *)
Definition push (out : LsOut) (e : NarLsEntry) : LsOut + NarError :=
  let n := Z.of_nat (length (lo_entries out)) in
  if MAX_NAR_ENTRIES <=? n then inr (NarError.TooManyTotalEntries (S (length (lo_entries out))))
  else
    let index_bytes :=
      lo_index_bytes out + (Z.of_nat (length (le_path e)) + Z.of_nat (length (le_target e))) in
    if MAX_NAR_INDEX_BYTES <? index_bytes then inr (NarError.IndexBytesTooLarge index_bytes)
    else inl (mkLsOut (lo_entries out ++ [e]) index_bytes).

Definition lift {A} (x : A + NarError) : Read A := fun r => match x with inl a => inl (a, r) | inr e => inr e end.

Definition expect_token (expected : bytes) : Read unit :=
  got ← read_target_bytes;
  if negb (bytes_eqb got expected)
  then fail (NarError.UnexpectedToken (escape expected) (escape got)) else mret tt.

Definition validate_entry_name_bytes (name : bytes) : Read unit :=
  if entry_name_ok name then mret tt else fail (NarError.InvalidEntryName (escape name)).

(** The order guard of the raw-byte walker. *)
Definition ls_order_check (prev_name : option bytes) (name : bytes) : option NarError :=
  match prev_name with
  | Some prev => if negb (bytes_ltb prev name) then Some (NarError.UnsortedEntries (escape prev) (escape name)) else None
  | None => None
  end.

Section Ls.
Context `{H : Blake3}.

(** The loop of [stream_blake3]: blocks of at most 64 KiB. *)
Fixpoint stream_blocks (fuel : nat) (h : hasher) (remaining : Z) : Read bytes :=
  match fuel with
  | 0%nat => mret (hasher_finalize h)
  | S fuel =>
      if 0 <? remaining then
        let k := Z.min remaining STREAM_BLOCK in
        b ← read_exact k;
        stream_blocks fuel (hasher_update h b) (remaining - k)
      else mret (hasher_finalize h)
  end.

Definition stream_blake3 (len : Z) : Read bytes :=
  stream_blocks (S (Z.to_nat (len / STREAM_BLOCK))) hasher_new len.

Definition no_digest : bytes := repeat 0 32.

Definition ls_regular (path : bytes) (out : LsOut) : Read LsOut :=
  token ← read_target_bytes;
  executable ← (if bytes_eqb token (str "executable") then
                  _ ← expect_token (str ""); _ ← expect_token (str "contents"); mret true
                else if bytes_eqb token (str "contents") then mret false
                else fail (NarError.UnexpectedToken (quoted "executable" ++ str " or " ++ quoted "contents") (escape token)));
  size ← read_u64;
  nar_offset ← (fun r => inl (pos r, r));
  file_digest ← stream_blake3 size;
  _ ← consume_padding (size mod 8);
  _ ← expect_token (str ")");
  lift (push out (mkNarLsEntry path KRegular size executable nar_offset [] file_digest)).

Definition ls_symlink (path : bytes) (out : LsOut) : Read LsOut :=
  _ ← expect_token (str "target");
  target ← read_target_bytes;
  _ ← expect_token (str ")");
  lift (push out (mkNarLsEntry path KSymlink 0 false 0 target no_digest)).

(** The path of a child. *)
Definition join_path (path name : bytes) : bytes :=
  (if negb (bytes_eqb path []) then path ++ [47] else path) ++ name.

(** The loop of [ls_directory]; [cap] is [MAX_DIRECTORY_ENTRIES - count]. *)
Fixpoint ls_entries (ln : bytes -> LsOut -> Read LsOut) (cap : nat) (path : bytes) (prev_name : option bytes)
    (out : LsOut) : Read LsOut :=
  match cap with
  | 0%nat => fail (NarError.TooManyEntries MAX_DIRECTORY_ENTRIES)
  | S cap =>
      token ← read_target_bytes;
      if bytes_eqb token (str ")") then mret out
      else if bytes_eqb token (str "entry") then
        _ ← expect_token (str "("); _ ← expect_token (str "name");
        name ← read_name_bytes;
        _ ← validate_entry_name_bytes name;
        match ls_order_check prev_name name with
        | Some e => fail e
        | None =>
            _ ← expect_token (str "node");
            out ← ln (join_path path name) out;
            _ ← expect_token (str ")");
            ls_entries ln cap path (Some name) out
        end
      else fail (NarError.UnexpectedToken (quoted "entry" ++ str " or " ++ quoted ")") (escape token))
  end.

Definition ls_directory (ln : bytes -> LsOut -> Read LsOut) (path : bytes) (out : LsOut) : Read LsOut :=
  out ← lift (push out (mkNarLsEntry path KDirectory 0 false 0 [] no_digest));
  ls_entries ln MAX_DIRECTORY_ENTRIES path None out.

(** [ls_node] at depth [MAX_NAR_DEPTH + 1 - levels]. *)
Fixpoint ls_node (levels : nat) (path : bytes) (out : LsOut) : Read LsOut :=
  match levels with
  | 0%nat => fail (NarError.NestingTooDeep (MAX_NAR_DEPTH + 1))
  | S levels =>
      _ ← expect_token (str "("); _ ← expect_token (str "type");
      node_type ← read_target_bytes;
      if bytes_eqb node_type (str "regular") then ls_regular path out
      else if bytes_eqb node_type (str "directory") then ls_directory (ls_node levels) path out
      else if bytes_eqb node_type (str "symlink") then ls_symlink path out
      else fail (NarError.UnknownNodeType (escape node_type))
  end.

(** The entries and the reader after the root node. *)
Definition nar_ls_reader (s : bytes) : list NarLsEntry * Reader + NarError :=
  match (magic ← read_target_bytes;
         if negb (bytes_eqb magic NAR_MAGIC) then fail (NarError.InvalidMagic (escape magic))
         else ls_node nar_levels [] (mkLsOut [] 0)) (mkReader s 0) with
  | inl (out, r) => inl (lo_entries out, r)
  | inr e => inr e
  end.

Definition nar_ls (s : bytes) : list NarLsEntry + NarError :=
  match nar_ls_reader s with inl (entries, _) => inl entries | inr e => inr e end.

(** ** The index of a tree *)

Definition digest (contents : bytes) : bytes := hasher_finalize (hasher_update hasher_new contents).

Definition len (b : bytes) : Z := Z.of_nat (length b).

(** The bytes of a node before its file contents. *)
Definition content_header (executable : bool) (contents : bytes) : bytes :=
  write_str "(" ++ write_str "type" ++ write_str "regular" ++
  (if executable then write_str "executable" ++ write_str "" else []) ++ write_str "contents" ++ write_u64 (len contents).

Definition entry_header (name : bytes) : bytes :=
  write_str "entry" ++ write_str "(" ++ write_str "name" ++ write_bytes name ++ write_str "node".

Definition dir_header : bytes := write_str "(" ++ write_str "type" ++ write_str "directory".

(** The nodes of a tree in walk order, [off] the offset where it starts. *)
Fixpoint index_node (n : NarNode) (path : bytes) (off : Z) : list NarLsEntry :=
  match n with
  | Regular executable contents =>
      [mkNarLsEntry path KRegular (len contents) executable (off + len (content_header executable contents)) []
         (digest contents)]
  | Symlink target => [mkNarLsEntry path KSymlink 0 false 0 target no_digest]
  | Directory entries =>
      mkNarLsEntry path KDirectory 0 false 0 [] no_digest ::
      (fix go (es : list NarEntry) (off : Z) : list NarLsEntry :=
         match es with
         | [] => []
         | e :: es => index_node (snd e) (join_path path (fst e)) (off + len (entry_header (fst e))) ++
                      go es (off + len (entry_bytes e))
         end) entries (off + len dir_header)
  end.

Fixpoint index_entries (es : list NarEntry) (path : bytes) (off : Z) : list NarLsEntry :=
  match es with
  | [] => []
  | e :: es => index_node (snd e) (join_path path (fst e)) (off + len (entry_header (fst e))) ++
               index_entries es path (off + len (entry_bytes e))
  end.

Lemma index_directory entries path off :
  index_node (Directory entries) path off =
    mkNarLsEntry path KDirectory 0 false 0 [] no_digest :: index_entries entries path (off + len dir_header).
Proof.
  cbn [index_node]. f_equal. generalize (off + len dir_header). clear off.
  induction entries as [|e es IH]; intros off; cbn [index_entries]; [done|]. by rewrite IH.
Qed.

(** ** Reading the index *)

(** A raw token: short, not necessarily UTF-8. *)
Definition raw_ok (b : bytes) : Prop := Z.of_nat (length b) <= MAX_TARGET_LEN.

Lemma target_bind {B} (k : bytes -> Read B) r b r' :
  reader_ok r ->
  (t ← read_target_bytes; k t) r = inl (b, r') <->
  exists t r1, raw_ok t /\ adv r (write_bytes t) r1 /\ reader_ok r1 /\ k t r1 = inl (b, r').
Proof.
  intros Hr. rewrite bind_inl. setoid_rewrite read_target_inl; [|done]. split.
  - intros (t & r1 & [Ht Ha] & Hk). exists t, r1. split; [done|]. split; [done|]. split; [|done].
    exact (proj1 (adv_ok _ _ _ Ha Hr)).
  - intros (t & r1 & Ht & Ha & _ & Hk). by exists t, r1.
Qed.

Lemma token_bind {B} t (k : Read B) r b r' :
  reader_ok r -> raw_ok t ->
  (_ ← expect_token t; k) r = inl (b, r') <-> exists r1, adv r (write_bytes t) r1 /\ reader_ok r1 /\ k r1 = inl (b, r').
Proof.
  intros Hr Ht. rewrite bind_inl. unfold expect_token, bytes_eqb. split.
  - intros (u & r1 & Hu & Hk). apply target_bind in Hu as (t' & r2 & _ & Ha & Hr2 & Hu); [|done].
    case_bool_decide; [|done]. subst t'. apply ret_inl in Hu as [_ ->]. by exists r2.
  - intros (r1 & Ha & Hr1 & Hk). exists tt, r1. split; [|done]. apply target_bind; [done|]. exists t, r1.
    by rewrite bool_decide_eq_true_2.
Qed.

Lemma lift_inl {A} (x : A + NarError) r a r' : lift x r = inl (a, r') <-> x = inl a /\ r' = r.
Proof. unfold lift. destruct x; naive_solver. Qed.

Section Laws.
Context {L : Blake3Laws H}.

Lemma finalize_inl h r d r' :
  (mret (hasher_finalize h) : Read bytes) r = inl (d, r') <->
  exists b, len b = 0 /\ adv r b r' /\ d = hasher_finalize (hasher_update h b).
Proof.
  rewrite ret_inl. split.
  - intros [-> ->]. exists []. by rewrite adv_nil, update_nil.
  - intros (b & Hb & Ha & ->). destruct b; [|unfold len in Hb; cbn in Hb; lia].
    apply adv_nil in Ha as ->. by rewrite update_nil.
Qed.

Lemma stream_blocks_inl fuel h n r d r' :
  0 <= n <= Z.of_nat fuel * STREAM_BLOCK ->
  stream_blocks fuel h n r = inl (d, r') <->
  exists b, len b = n /\ adv r b r' /\ d = hasher_finalize (hasher_update h b).
Proof.
  revert h n r. induction fuel as [|fuel IH]; intros h n r Hn; cbn [stream_blocks].
  { replace n with 0 by lia. apply finalize_inl. }
  destruct (Z.ltb_spec 0 n) as [Hpos|Hz]; [|replace n with 0 by lia; apply finalize_inl].
  set (k := Z.min n STREAM_BLOCK). assert (Hk : 0 < k <= n /\ n - k <= Z.of_nat fuel * STREAM_BLOCK) by (unfold k, STREAM_BLOCK in *; lia).
  rewrite bind_inl. setoid_rewrite read_exact_inl; [|lia]. split.
  - intros (b1 & r1 & [Hb1 Ha1] & Hk2). apply IH in Hk2 as (b2 & Hb2 & Ha2 & ->); [|lia].
    exists (b1 ++ b2). rewrite update_app. split_and!; [|by eapply adv_trans|done].
    unfold len in *. rewrite length_app. lia.
  - intros (b & Hb & Ha & ->). unfold len in Hb. rewrite <- (take_drop (Z.to_nat k) b) in Ha.
    apply adv_app in Ha as (r1 & Ha1 & Ha2). exists (take (Z.to_nat k) b), r1.
    rewrite length_take. split; [split; [lia|done]|]. apply IH; [lia|]. exists (drop (Z.to_nat k) b).
    unfold len. rewrite length_drop, <- update_app, take_drop. split_and!; [lia|done|done].
Qed.

Lemma stream_blake3_inl n r d r' :
  0 <= n -> stream_blake3 n r = inl (d, r') <-> exists b, len b = n /\ adv r b r' /\ d = digest b.
Proof.
  intros Hn. unfold stream_blake3. apply stream_blocks_inl. unfold STREAM_BLOCK. lia.
Qed.

(** A regular body up to its contents. *)
Definition reg_prefix (executable : bool) (contents : bytes) : bytes :=
  (if executable then write_str "executable" ++ write_str "" else []) ++ write_str "contents" ++ write_u64 (len contents).

Lemma exec_bind {B} (k : bool -> Read B) r b r' :
  reader_ok r ->
  (token ← read_target_bytes;
   executable ← (if bytes_eqb token (str "executable") then
                   _ ← expect_token (str ""); _ ← expect_token (str "contents"); mret true
                 else if bytes_eqb token (str "contents") then mret false
                 else fail (NarError.UnexpectedToken (quoted "executable" ++ str " or " ++ quoted "contents") (escape token)));
   k executable) r = inl (b, r') <->
  exists (executable : bool) r1,
    adv r ((if executable then write_str "executable" ++ write_str "" else []) ++ write_str "contents") r1 /\
    reader_ok r1 /\ k executable r1 = inl (b, r').
Proof.
  intros Hr. rewrite target_bind by done. unfold bytes_eqb. split.
  - intros (t & r1 & _ & Ha & Hr1 & Hk). apply bind_inl in Hk as (x & r2 & Hx & Hk).
    case_bool_decide; [|case_bool_decide; [|done]]; subst t.
    + apply token_bind in Hx as (r3 & H3 & Hr3 & Hx); [|done..]. apply token_bind in Hx as (r4 & H4 & Hr4 & Hx); [|done..].
      apply ret_inl in Hx as [-> ->]. exists true, r4. split; [|done]. rewrite <- app_assoc. eauto using adv_trans.
    + apply ret_inl in Hx as [-> ->]. exists false, r1. done.
  - intros (x & r1 & Ha & Hr1 & Hk). destruct x; cbn [app] in Ha; rewrite <- ?app_assoc in Ha.
    + adv_next Ha Hr r2 H2 Hr2. adv_next Ha Hr2 r3 H3 Hr3. exists (str "executable"), r2. split_and!; [done..|].
      apply bind_inl. exists true, r1. split; [|done]. rewrite bool_decide_eq_true_2 by done.
      apply token_bind; [done..|]. exists r3. split_and!; [done..|]. apply token_bind; [done..|]. by exists r1.
    + exists (str "contents"), r1. split_and!; [done..|]. apply bind_inl. exists false, r1. done.
Qed.

Lemma zero_pad_mod n : zero_pad (n mod 8) = zero_pad n.
Proof. unfold zero_pad, padding_len. by rewrite Z.mod_mod. Qed.

Lemma ls_regular_inl path out r out' r' :
  reader_ok r ->
  ls_regular path out r = inl (out', r') <->
  exists x c, len c < 2 ^ 64 /\ adv r (reg_prefix x c ++ c ++ zero_pad (len c) ++ write_str ")") r' /\
    push out (mkNarLsEntry path KRegular (len c) x (pos r + len (reg_prefix x c)) [] (digest c)) = inl out'.
Proof.
  intros Hr. unfold ls_regular. rewrite exec_bind by done. split.
  - intros (x & r1 & H1 & Hr1 & Hk). apply bind_inl in Hk as (n & r2 & Hn & Hk).
    apply read_u64_inl in Hn as [Hn H2]; [|done]. apply bind_inl in Hk as (o & r3 & [= <- <-] & Hk).
    apply bind_inl in Hk as (d & r4 & Hd & Hk). apply stream_blake3_inl in Hd as (c & <- & Hc & ->); [|lia].
    apply bind_inl in Hk as (u & r5 & Hp & Hk). apply consume_padding_inl in Hp. rewrite zero_pad_mod in Hp.
    pose proof (proj1 (adv_ok _ _ _ Hp (proj1 (adv_ok _ _ _ Hc (proj1 (adv_ok _ _ _ H2 Hr1)))))) as Hr5.
    apply token_bind in Hk as (r6 & H6 & _ & [Hk ->]%lift_inl); [|done..].
    pose proof (adv_trans _ _ _ _ _ H1 H2) as H12. rewrite <- app_assoc in H12.
    exists x, c. split; [lia|]. split; [eauto using adv_trans|].
    by replace (pos r + len (reg_prefix x c)) with (pos r2) by apply H12.
  - intros (x & c & Hc & Ha & Hp). adv_next Ha Hr r2 H2 Hr2. pose proof (proj2 H2) as Hpos. unfold reg_prefix in H2.
    rewrite app_assoc in H2. adv_next H2 Hr r1 H1 Hr1. exists x, r1. split_and!; [done..|].
    adv_next Ha Hr2 r3 H3 Hr3. adv_next Ha Hr3 r4 H4 Hr4.
    apply bind_inl. exists (len c), r2. split; [apply read_u64_inl; [done|]; unfold len in *; split; [lia|done]|].
    apply bind_inl. exists (pos r2), r2. split; [done|]. apply bind_inl. exists (digest c), r3.
    split; [apply stream_blake3_inl; [unfold len; lia|]; by exists c|]. apply bind_inl. exists tt, r4.
    split; [by apply consume_padding_inl; rewrite zero_pad_mod|]. apply token_bind; [done..|]. exists r'.
    split; [done|]. split; [exact (proj1 (adv_ok _ _ _ Ha Hr4))|]. apply lift_inl. by rewrite Hpos.
Qed.

Lemma ls_symlink_inl path out r out' r' :
  reader_ok r ->
  ls_symlink path out r = inl (out', r') <->
  exists t, raw_ok t /\ adv r (write_str "target" ++ write_bytes t ++ write_str ")") r' /\
    push out (mkNarLsEntry path KSymlink 0 false 0 t no_digest) = inl out'.
Proof.
  intros Hr. unfold ls_symlink. rewrite token_bind by done. split.
  - intros (r1 & H1 & Hr1 & Hk). apply target_bind in Hk as (t & r2 & Ht & H2 & Hr2 & Hk); [|done].
    apply token_bind in Hk as (r3 & H3 & _ & [Hk ->]%lift_inl); [|done..]. exists t. eauto using adv_trans.
  - intros (t & Ht & Ha & Hp). adv_next Ha Hr r1 H1 Hr1. adv_next Ha Hr1 r2 H2 Hr2. exists r1. split_and!; [done..|].
    apply target_bind; [done|]. exists t, r2. split_and!; [done..|]. apply token_bind; [done..|]. exists r'.
    split; [done|]. split; [exact (proj1 (adv_ok _ _ _ Ha Hr2))|]. by apply lift_inl.
Qed.

(** Pushing a list of entries. *)
Fixpoint push_all (out : LsOut) (es : list NarLsEntry) : LsOut + NarError :=
  match es with
  | [] => inl out
  | e :: es => match push out e with inl out => push_all out es | inr err => inr err end
  end.

Lemma push_all_app out a b out' :
  push_all out (a ++ b) = inl out' <-> exists m, push_all out a = inl m /\ push_all m b = inl out'.
Proof.
  revert out. induction a as [|e a IH]; intros out; cbn [push_all app]; [naive_solver|].
  destruct (push out e); [apply IH|]. naive_solver.
Qed.

Definition ls_name_wf (name : bytes) : Prop := Z.of_nat (length name) <= NAR_MAX_NAME_LEN /\ entry_name_ok name = true.

(** What the index accepts as a tree. *)
Fixpoint ls_wf (levels : nat) (n : NarNode) : Prop :=
  match levels with
  | 0%nat => False
  | S levels =>
      match n with
      | Regular _ contents => len contents < 2 ^ 64
      | Symlink target => raw_ok target
      | Directory entries =>
          (length entries < MAX_DIRECTORY_ENTRIES)%nat /\ names_after None (List.map fst entries) /\
          Forall (fun e => ls_name_wf (fst e) /\ ls_wf levels (snd e)) entries
      end
  end.

(** [p] lists exactly the trees in [P]. *)
Definition lists_nodes (p : bytes -> LsOut -> Read LsOut) (P : NarNode -> Prop) : Prop :=
  forall path out r, reader_ok r -> forall out' r', p path out r = inl (out', r') <->
    exists n, P n /\ adv r (serialize_node n) r' /\ push_all out (index_node n path (pos r)) = inl out'.

Lemma ls_order_iff prev name : ls_order_check prev name = None <-> order_check prev name = None.
Proof. unfold ls_order_check, order_check. destruct prev; [|done]. by destruct (negb _). Qed.

Lemma ls_name_bind {B} prev (k : bytes -> Read B) r b r' :
  reader_ok r ->
  (name ← read_name_bytes; _ ← validate_entry_name_bytes name;
   match ls_order_check prev name with Some e => fail e | None => k name end) r = inl (b, r') <->
  exists name r1, ls_name_wf name /\ order_check prev name = None /\ adv r (write_bytes name) r1 /\ reader_ok r1 /\
    k name r1 = inl (b, r').
Proof.
  intros Hr. rewrite bind_inl. setoid_rewrite read_name_inl; [|done]. split.
  - intros (name & r1 & [Hl Ha] & Hk). apply bind_inl in Hk as ([] & r2 & Hv & Hk).
    unfold validate_entry_name_bytes in Hv. destruct (entry_name_ok name) eqn:Hn; [|done].
    apply ret_inl in Hv as [_ ->]. destruct (ls_order_check prev name) eqn:Ho; [done|]. apply ls_order_iff in Ho.
    exists name, r1. split_and!; try done. exact (proj1 (adv_ok _ _ _ Ha Hr)).
  - intros (name & r1 & [Hl Hn] & Ho & Ha & _ & Hk). exists name, r1. split; [done|].
    apply bind_inl. exists tt, r1. unfold validate_entry_name_bytes. rewrite Hn, (proj2 (ls_order_iff _ _) Ho). done.
Qed.

Section Loop.
Context (ln : bytes -> LsOut -> Read LsOut) (P : NarNode -> Prop) (Hln : lists_nodes ln P).

Lemma ls_entry_bind {B} prev path out (k : bytes -> LsOut -> Read B) r b r' :
  reader_ok r ->
  (_ ← expect_token (str "("); _ ← expect_token (str "name"); name ← read_name_bytes;
   _ ← validate_entry_name_bytes name;
   match ls_order_check prev name with
   | Some e => fail e
   | None => _ ← expect_token (str "node"); out ← ln (join_path path name) out; _ ← expect_token (str ")"); k name out
   end) r = inl (b, r') <->
  exists name node r1 out1, ls_name_wf name /\ order_check prev name = None /\ P node /\
    adv r (entry_body (name, node)) r1 /\ reader_ok r1 /\
    push_all out (index_node node (join_path path name) (pos r + len (entry_header name) - len (write_str "entry"))) = inl out1 /\
    k name out1 r1 = inl (b, r').
Proof.
  intros Hr. unfold entry_body. cbn [fst snd].
  assert (Hpos : forall name r4, adv r (write_str "(" ++ write_str "name" ++ write_bytes name ++ write_str "node") r4 ->
    pos r + len (entry_header name) - len (write_str "entry") = pos r4).
  { intros name r4 [_ ->]. unfold entry_header, len. rewrite (length_app (write_str "entry")). lia. }
  split.
  - intros (r1 & H1 & Hr1 & Hk)%token_bind; [|done..]. apply token_bind in Hk as (r2 & H2 & Hr2 & Hk); [|done..].
    apply ls_name_bind in Hk as (name & r3 & Hn & Ho & H3 & Hr3 & Hk); [|done].
    apply token_bind in Hk as (r4 & H4 & Hr4 & Hk); [|done..]. apply bind_inl in Hk as (out1 & r5 & Hl & Hk).
    apply Hln in Hl as (node & HP & H5 & Hpush); [|done]. pose proof (proj1 (adv_ok _ _ _ H5 Hr4)) as Hr5.
    apply token_bind in Hk as (r6 & H6 & Hr6 & Hk); [|done..].
    exists name, node, r6, out1. rewrite (Hpos name r4) by eauto using adv_trans. split_and!; try done.
    eauto 8 using adv_trans.
  - intros (name & node & r6 & out1 & Hn & Ho & HP & Ha & Hr6 & Hpush & Hk).
    adv_next Ha Hr r1 H1 Hr1. adv_next Ha Hr1 r2 H2 Hr2. adv_next Ha Hr2 r3 H3 Hr3. adv_next Ha Hr3 r4 H4 Hr4.
    adv_next Ha Hr4 r5 H5 Hr5. rewrite (Hpos name r4) in Hpush by eauto using adv_trans.
    apply token_bind; [done..|]. exists r1. split_and!; [done..|]. apply token_bind; [done..|]. exists r2.
    split_and!; [done..|]. apply ls_name_bind; [done|]. exists name, r3. split_and!; [done..|].
    apply token_bind; [done..|]. exists r4. split_and!; [done..|]. apply bind_inl. exists out1, r5.
    split; [apply (Hln _ _ _ Hr4); by exists node|]. apply token_bind; [done..|]. by exists r6.
Qed.

Lemma ls_entries_inl cap path prev out r out' r' :
  reader_ok r ->
  ls_entries ln cap path prev out r = inl (out', r') <->
  exists es, (length es < cap)%nat /\ names_after prev (List.map fst es) /\
    Forall (fun e => ls_name_wf (fst e) /\ P (snd e)) es /\ adv r (flat_map entry_bytes es ++ write_str ")") r' /\
    push_all out (index_entries es path (pos r)) = inl out'.
Proof.
  revert prev out r. induction cap as [|cap IH]; intros prev out r Hr; cbn [ls_entries].
  { rewrite fail_inl. split; [done|]. intros (es & ? & _). lia. }
  rewrite target_bind by done. unfold bytes_eqb. split.
  - intros (t & r1 & _ & Ha & Hr1 & Hk). case_bool_decide as H1; [|case_bool_decide as H2; [|done]]; subst t.
    + apply ret_inl in Hk as [-> ->]. exists []. split_and!; [cbn; lia|done|constructor|done|done].
    + pose proof (proj2 Ha) as Hp1. apply ls_entry_bind in Hk as (name & node & r2 & out1 & Hn & Ho & HP & Hb & Hr2 & Hpush & Hk); [|done].
      pose proof (proj2 Hb) as Hp2. apply IH in Hk as (es & Hl & Hs & Hf & He & Hpush'); [|done]. exists ((name, node) :: es).
      cbn [app List.map fst length names_after flat_map index_entries snd]. split_and!; try done; [lia|by constructor| |].
      * unfold entry_bytes at 1. rewrite <- !app_assoc. eauto using adv_trans.
      * apply push_all_app. exists out1. split.
        -- rewrite <- Hpush. f_equal. f_equal. change (write_str "entry") with (write_bytes (str "entry")). unfold len. lia.
        -- rewrite <- Hpush'. f_equal. f_equal. unfold entry_bytes, len. change (write_str "entry") with (write_bytes (str "entry")).
           rewrite length_app. lia.
  - intros (es & Hl & Hs & Hf & He & Hpush). destruct es as [|[name node] es]; cbn [flat_map app] in He.
    + exists (str ")"), r'. split_and!; [done|done|exact (proj1 (adv_ok _ _ _ He Hr))|]. cbn in Hpush. by simplify_eq.
    + cbn [List.map fst names_after] in Hs. destruct Hs as [Ho Hs]. apply Forall_cons in Hf as [[Hn HP] Hf].
      unfold entry_bytes in He at 1. rewrite <- !app_assoc in He. adv_next He Hr r1 Ha Hr1. adv_next He Hr1 r2 Hb Hr2.
      pose proof (proj2 Ha) as Hp1. pose proof (proj2 Hb) as Hp2. cbn [index_entries fst snd] in Hpush.
      apply push_all_app in Hpush as (out1 & Hpush & Hpush').
      exists (str "entry"), r1. split_and!; [done..|].
      rewrite bool_decide_eq_false_2 by done. rewrite bool_decide_eq_true_2 by done.
      apply ls_entry_bind; [done|]. exists name, node, r2, out1. split_and!; [done..| |].
      * rewrite <- Hpush. f_equal. f_equal. unfold len. lia.
      * apply IH; [done|]. exists es. cbn [length] in Hl. split_and!; [lia|done|done|done|]. rewrite <- Hpush'. f_equal. f_equal.
        unfold entry_bytes, len. rewrite length_app. lia.
Qed.

Lemma ls_directory_inl path out r out' r' :
  reader_ok r ->
  ls_directory ln path out r = inl (out', r') <->
  exists es, (length es < MAX_DIRECTORY_ENTRIES)%nat /\ names_after None (List.map fst es) /\
    Forall (fun e => ls_name_wf (fst e) /\ P (snd e)) es /\ adv r (flat_map entry_bytes es ++ write_str ")") r' /\
    push_all out (mkNarLsEntry path KDirectory 0 false 0 [] no_digest :: index_entries es path (pos r)) = inl out'.
Proof.
  intros Hr. unfold ls_directory. rewrite bind_inl. setoid_rewrite lift_inl. cbn [push_all]. split.
  - intros (out1 & r1 & [Hp ->] & Hk). rewrite Hp.
    exact (proj1 (ls_entries_inl MAX_DIRECTORY_ENTRIES path None out1 r out' r' Hr) Hk).
  - intros (es & He). destruct (push out _) as [out1|] eqn:Hp; [|destruct He as (_ & _ & _ & _ & He); done].
    exists out1, r. split; [done|]. apply (ls_entries_inl MAX_DIRECTORY_ENTRIES path None out1 r out' r' Hr). by exists es.
Qed.
End Loop.

Lemma ls_wf_S levels n :
  ls_wf (S levels) n <->
  match n with
  | Regular _ contents => len contents < 2 ^ 64
  | Symlink target => raw_ok target
  | Directory entries =>
      (length entries < MAX_DIRECTORY_ENTRIES)%nat /\ names_after None (List.map fst entries) /\
      Forall (fun e => ls_name_wf (fst e) /\ ls_wf levels (snd e)) entries
  end.
Proof. reflexivity. Qed.

Lemma push_all_one out e out' : push_all out [e] = inl out' <-> push out e = inl out'.
Proof. cbn [push_all]. by destruct (push out e). Qed.

Lemma content_header_eq x c :
  content_header x c = (write_str "(" ++ write_str "type" ++ write_str "regular") ++ reg_prefix x c.
Proof. unfold content_header, reg_prefix. by rewrite <- !app_assoc. Qed.

Lemma node_body_regular x c :
  node_body (Regular x c) = write_str "regular" ++ reg_prefix x c ++ c ++ zero_pad (len c) ++ write_str ")".
Proof. unfold node_body, reg_prefix, write_bytes. cbn zeta. by rewrite <- !app_assoc. Qed.

Lemma ls_node_inl levels : lists_nodes (ls_node levels) (ls_wf levels).
Proof.
  induction levels as [|levels IH]; intros path out r Hr out' r'; cbn [ls_node].
  { rewrite fail_inl. split; [done|]. by intros (n & [] & _). }
  split.
  - intros (r1 & H1 & Hr1 & Hk)%token_bind; [|done..]. apply token_bind in Hk as (r2 & H2 & Hr2 & Hk); [|done..].
    apply target_bind in Hk as (t & r3 & Ht & H3 & Hr3 & Hk); [|done]. unfold bytes_eqb in Hk.
    pose proof (adv_trans _ _ _ _ _ H1 (adv_trans _ _ _ _ _ H2 H3)) as H123. destruct H123 as [_ Hpos].
    case_bool_decide as Ht1; [|case_bool_decide as Ht2; [|case_bool_decide as Ht3; [|done]]]; subst t.
    + apply ls_regular_inl in Hk as (x & c & Hc & He & Hp); [|done]. exists (Regular x c).
      rewrite serialize_unfold, node_body_regular. split; [done|]. split; [eauto 8 using adv_trans|].
      apply push_all_one. rewrite <- Hp. f_equal. f_equal. rewrite Hpos, content_header_eq. unfold len.
      rewrite (length_app _ (reg_prefix x c)). change write_str with (fun s => write_bytes (str s)). cbn beta. lia.
    + apply (ls_directory_inl _ _ IH) in Hk as (es & Hl & Hs & Hf & He & Hp); [|done]. exists (Directory es).
      rewrite serialize_unfold, ls_wf_S, index_directory. split; [done|]. split; [eauto 8 using adv_trans|].
      rewrite <- Hp, Hpos. done.
    + apply ls_symlink_inl in Hk as (t & Hl & He & Hp); [|done]. exists (Symlink t). rewrite serialize_unfold.
      split; [done|]. split; [eauto 8 using adv_trans|]. by apply push_all_one.
  - intros (n & Hw & He & Hp). rewrite ls_wf_S in Hw. rewrite serialize_unfold in He.
    adv_next He Hr r1 H1 Hr1. adv_next He Hr1 r2 H2 Hr2.
    apply token_bind; [done..|]. exists r1. split_and!; [done..|]. apply token_bind; [done..|]. exists r2.
    split_and!; [done..|]. apply target_bind; [done|]. unfold bytes_eqb. destruct n as [x c|es|t].
    + rewrite node_body_regular in He. adv_next He Hr2 r3 H3 Hr3. exists (str "regular"), r3. split_and!; [done..|].
      apply ls_regular_inl; [done|]. exists x, c. split_and!; [done..|]. apply push_all_one in Hp. rewrite <- Hp. f_equal. f_equal.
      pose proof (adv_trans _ _ _ _ _ H1 (adv_trans _ _ _ _ _ H2 H3)) as [_ ->].
      rewrite content_header_eq. unfold len. rewrite (length_app _ (reg_prefix x c)). lia.
    + adv_next He Hr2 r3 H3 Hr3. exists (str "directory"), r3. split_and!; [done..|].
      apply (ls_directory_inl _ _ IH); [done|]. exists es. destruct Hw as (Hl & Hs & Hf). split_and!; [done..|].
      rewrite index_directory in Hp. rewrite <- Hp.
      pose proof (adv_trans _ _ _ _ _ H1 (adv_trans _ _ _ _ _ H2 H3)) as [_ ->]. done.
    + adv_next He Hr2 r3 H3 Hr3. exists (str "symlink"), r3. split_and!; [done..|].
      apply ls_symlink_inl; [done|]. exists t. split_and!; [done..|]. by apply push_all_one in Hp.
Qed.

(** The variable-size bytes of an index. *)
Definition index_bytes (es : list NarLsEntry) : Z :=
  fold_right (fun e n => len (le_path e) + len (le_target e) + n) 0 es.

Definition within_bounds (es : list NarLsEntry) : Prop :=
  Z.of_nat (length es) <= MAX_NAR_ENTRIES /\ index_bytes es <= MAX_NAR_INDEX_BYTES.

Lemma index_bytes_nonneg es : 0 <= index_bytes es.
Proof. induction es as [|e es IH]; cbn [index_bytes fold_right]; [done|]. fold (index_bytes es). unfold len. lia. Qed.

Lemma push_all_inl es out out' :
  Z.of_nat (length (lo_entries out)) <= MAX_NAR_ENTRIES -> lo_index_bytes out <= MAX_NAR_INDEX_BYTES ->
  push_all out es = inl out' <->
  out' = mkLsOut (lo_entries out ++ es) (lo_index_bytes out + index_bytes es) /\
  Z.of_nat (length (lo_entries out) + length es) <= MAX_NAR_ENTRIES /\
  lo_index_bytes out + index_bytes es <= MAX_NAR_INDEX_BYTES.
Proof.
  revert out. induction es as [|e es IH]; intros out Hn Hb; cbn [push_all index_bytes fold_right length].
  { rewrite app_nil_r, Nat.add_0_r, Z.add_0_r. destruct out; cbn in *. naive_solver. }
  fold (index_bytes es). pose proof (index_bytes_nonneg es) as H0. unfold push, len.
  destruct (Z.leb_spec MAX_NAR_ENTRIES (Z.of_nat (length (lo_entries out)))) as [|Hlt]; [split; [done|]; lia|].
  set (d := Z.of_nat (length (le_path e)) + Z.of_nat (length (le_target e))).
  destruct (Z.ltb_spec MAX_NAR_INDEX_BYTES (lo_index_bytes out + d)) as [|Hle]; [split; [done|]; lia|].
  rewrite IH; cbn [lo_entries lo_index_bytes]; rewrite ?length_app; cbn [length]; [|lia|done].
  rewrite <- app_assoc. cbn [app].
  replace (lo_index_bytes out + d + index_bytes es) with (lo_index_bytes out + (d + index_bytes es)) by lia.
  replace (length (lo_entries out) + 1 + length es)%nat with (length (lo_entries out) + S (length es))%nat by lia. done.
Qed.

Definition root_offset : Z := len (write_bytes NAR_MAGIC).

Lemma nar_ls_reader_inl s entries r :
  bytes_ok s ->
  nar_ls_reader s = inl (entries, r) <->
  exists n, ls_wf nar_levels n /\ adv (mkReader s 0) (serialize n) r /\ entries = index_node n [] root_offset /\ within_bounds entries.
Proof.
  intros Hs. unfold nar_ls_reader. set (p := _ ← read_target_bytes; _).
  assert (Hp : forall out r', p (mkReader s 0) = inl (out, r') <-> exists n, ls_wf nar_levels n /\
    adv (mkReader s 0) (serialize n) r' /\ push_all (mkLsOut [] 0) (index_node n [] root_offset) = inl out).
  { intros out r'. unfold p, serialize. rewrite target_bind by done. unfold bytes_eqb. split.
    - intros (t & r1 & _ & Ha & Hr1 & Hk). case_bool_decide; [|done]. subst t.
      apply ls_node_inl in Hk as (n & Hw & He & Hpush); [|done]. exists n.
      rewrite (proj2 Ha) in Hpush. split_and!; [done|by eapply adv_trans|done].
    - intros (n & Hw & Ha & Hpush). adv_next Ha Hs r1 H1 Hr1. exists NAR_MAGIC, r1. split_and!; [done..|].
      rewrite bool_decide_eq_true_2 by done. apply (ls_node_inl nar_levels [] _ r1 Hr1). exists n.
      split_and!; [done..|]. by rewrite (proj2 H1). }
  split.
  - destruct (p (mkReader s 0)) as [[out r']|e]; [|done]. intros [= <- <-].
    destruct (proj1 (Hp out r') eq_refl) as (n & Hw & Ha & Hpush). apply push_all_inl in Hpush as (-> & H1 & H2); [|done..].
    by exists n.
  - intros (n & Hw & Ha & -> & H1 & H2).
    rewrite (proj2 (Hp (mkLsOut (index_node n [] root_offset) (index_bytes (index_node n [] root_offset))) r)); [done|]. exists n.
    split_and!; [done|done|]. by apply push_all_inl.
Qed.

Lemma nar_ls_inl s entries :
  bytes_ok s ->
  nar_ls s = inl entries <->
  exists n t, ls_wf nar_levels n /\ s = serialize n ++ t /\ entries = index_node n [] root_offset /\ within_bounds entries.
Proof.
  intros Hs. unfold nar_ls. split.
  - destruct (nar_ls_reader s) as [[es r]|] eqn:Hr; [|done]. intros [= <-].
    apply nar_ls_reader_inl in Hr as (n & Hw & [Ha _] & He & Hb); [|done]. by exists n, (rest r).
  - intros (n & t & Hw & Hst & He & Hb).
    by rewrite (proj2 (nar_ls_reader_inl s entries (mkReader t (len (serialize n))) Hs)) by (by exists n).
Qed.

(** The slice of [s] at [off] of [n] bytes. *)
Definition slice (s : bytes) (off n : Z) : bytes := take (Z.to_nat n) (drop (Z.to_nat off) s).

(** An entry of a file describes its bytes in [s]. *)
Definition describes (s : bytes) (e : NarLsEntry) : Prop :=
  le_kind e = KRegular ->
  0 <= le_nar_offset e /\ 0 <= le_size e /\ le_nar_offset e + le_size e <= len s /\
  le_file_digest e = digest (slice s (le_nar_offset e) (le_size e)).

Lemma slice_app pre c post : slice (pre ++ c ++ post) (len pre) (len c) = c.
Proof. unfold slice, len. by rewrite !Nat2Z.id, drop_app_length, take_app_length. Qed.

Lemma len_app a b : len (a ++ b) = len a + len b.
Proof. unfold len. rewrite length_app. lia. Qed.

Lemma index_describes levels n path pre post e :
  ls_wf levels n -> e ∈ index_node n path (len pre) -> describes (pre ++ serialize_node n ++ post) e.
Proof.
  revert n path pre post e. induction levels as [|levels IH]; intros n path pre post e Hw He; [done|].
  rewrite ls_wf_S in Hw. destruct n as [x c|es|t].
  - cbn [index_node] in He. apply list_elem_of_singleton in He as ->. intros _. cbn [le_nar_offset le_size le_file_digest].
    assert (Hs : pre ++ serialize_node (Regular x c) ++ post =
      (pre ++ content_header x c) ++ c ++ zero_pad (len c) ++ write_str ")" ++ post).
    { rewrite serialize_unfold, node_body_regular, content_header_eq. by rewrite <- !app_assoc. }
    rewrite Hs, <- len_app, slice_app, !len_app. unfold len. split_and!; [lia|lia|lia|done].
  - rewrite index_directory in He. apply elem_of_cons in He as [->|He]; [done|].
    destruct Hw as (_ & _ & Hf). rewrite serialize_unfold. cbn [node_body].
    replace (pre ++ (write_str "(" ++ write_str "type" ++ write_str "directory" ++ flat_map entry_bytes es ++ write_str ")") ++ post)
      with ((pre ++ dir_header) ++ flat_map entry_bytes es ++ write_str ")" ++ post)
      by (unfold dir_header; by rewrite <- !app_assoc).
    rewrite <- len_app in He. revert He. generalize (pre ++ dir_header) (write_str ")" ++ post). clear pre post.
    induction Hf as [|[name node] es [Hn Hnode] _ IHes]; intros pre post He; cbn [index_entries fst snd flat_map] in *; [by apply elem_of_nil in He|].
    rewrite <- app_assoc. apply elem_of_app in He as [He|He]; rewrite <- len_app in He.
    + replace (pre ++ entry_bytes (name, node) ++ flat_map entry_bytes es ++ post)
        with ((pre ++ entry_header name) ++ serialize_node node ++ write_str ")" ++ flat_map entry_bytes es ++ post).
      * by eapply IH.
      * unfold entry_bytes, entry_header, entry_body. cbn [fst snd]. by rewrite <- !app_assoc.
    + rewrite app_assoc. by apply IHes.
  - cbn [index_node] in He. apply list_elem_of_singleton in He as ->. done.
Qed.

(** the streaming index of an archive.  [nar_ls] succeeds exactly when the
    bytes start with the serialization of a well-formed tree whose index is
    within the whole-archive bounds (1,048,576 nodes, 128 MiB of paths and
    targets), and it returns the tree's nodes in walk order with their joined
    paths; the entry of every file carries an offset and a size inside the
    archive, and the BLAKE3 digest of exactly the bytes they delimit, although
    the pass never holds more than one block. *)
Theorem nar_ls_exact s entries :
  bytes_ok s ->
  (nar_ls s = inl entries <->
   exists n t, ls_wf nar_levels n /\ s = serialize n ++ t /\ entries = index_node n [] root_offset /\ within_bounds entries) /\
  (nar_ls s = inl entries -> Forall (describes s) entries).
Proof.
  intros Hs. split; [by apply nar_ls_inl|]. intros (n & t & Hw & -> & -> & _)%nar_ls_inl; [|done].
  apply Forall_forall. intros e He. unfold serialize. rewrite <- app_assoc. by eapply index_describes.
Qed.

Lemma node_wf_ls levels n : node_wf levels n -> ls_wf levels n.
Proof.
  revert n. induction levels as [|levels IH]; intros n; [done|]. rewrite node_wf_S, ls_wf_S.
  destruct n as [x c|es|t].
  - unfold len. change MAX_CONTENT_SIZE with 268435456. lia.
  - intros (Hl & Hs & Hf). split; [done|]. split; [done|]. eapply Forall_impl; [exact Hf|].
    intros e [(H1 & H2 & H3) H4]. split; [done|]. by apply IH.
  - unfold token_ok, raw_ok. intros [H1%Z.leb_le _]%andb_true_iff. done.
Qed.

(** the index agrees with the tree reader: on an archive the reader accepts,
    the index, when it is within the whole-archive bounds, is the list of nodes of
    the very tree the reader returns. *)
Theorem nar_ls_agrees s n r :
  bytes_ok s -> nar_parse (mkReader s 0) = inl (n, r) -> within_bounds (index_node n [] root_offset) ->
  nar_ls s = inl (index_node n [] root_offset).
Proof.
  intros Hs [Hw [Ha _]]%(nar_parse_inl (mkReader s 0) Hs) Hb. apply nar_ls_inl; [done|]. exists n, (rest r).
  split_and!; [by apply node_wf_ls|done|done|exact Hb].
Qed.

End Laws.
End Ls.

(** ** A concrete instance *)

#[local] Instance example_blake3 : Blake3 := {
  hasher := bytes; hasher_new := []; hasher_update := app; hasher_finalize h := [fold_left Z.add h 0 mod 256];
}.

#[local] Instance example_blake3_laws : Blake3Laws example_blake3.
Proof. split; cbn; intros; [apply app_nil_r|apply app_assoc]. Qed.

Lemma example_nar_bytes_ok : bytes_ok (serialize example_nar).
Proof. apply (bool_decide_unpack _). by vm_compute. Qed.

Lemma nar_ls_agrees_witness :
  nar_ls (serialize example_nar) = inl (index_node example_nar [] root_offset) /\
  List.map le_path (index_node example_nar [] root_offset) = [[]; str "bin"; str "bin/sh"; str "hello"].
Proof.
  split; [|by vm_compute].
  apply (nar_ls_agrees (serialize example_nar) example_nar (mkReader [] (len (serialize example_nar)))).
  - exact example_nar_bytes_ok.
  - apply (nar_parse_inl (mkReader (serialize example_nar) 0) example_nar_bytes_ok).
    split; [exact example_nar_wf|]. split; [by rewrite app_nil_r|done].
  - split; by vm_compute.
Defined.

Lemma nar_ls_exact_witness : Forall (describes (serialize example_nar)) (index_node example_nar [] root_offset).
Proof.
  apply (nar_ls_exact (serialize example_nar) (index_node example_nar [] root_offset) example_nar_bytes_ok).
  apply (nar_ls_exact (serialize example_nar) _ example_nar_bytes_ok). exists example_nar, [].
  rewrite app_nil_r. split; [apply node_wf_ls, example_nar_wf|]. split; [done|]. split; [done|]. split; by vm_compute.
Defined.
