(* ===== verification/NixNarFs.v ===== *)
(** * Nix formats: dumping and restoring a directory tree

    [src/rio-nix/src/nar/fs.rs]: the walk that streams a file-system object as an
    archive to a sink, with an observer of its structure, and the walk that reads
    an archive and creates the object.

    The file system is a tree of [Inode]s.  A directory lists its entries in the
    order of [readdir]; a regular file has the length that [fstat] reports and the
    bytes that reads give, which differ when the file changes meanwhile.  Which
    system calls fail and how many bytes a read returns are decided by an
    interface, [Kernel].  The [*at] calls resolve one name in a directory that is
    held open, so an object is looked up in the entries of its parent. *)

From stdpp Require Import sorting.
From S2P Require Import Prelude NixBytes NixNar NixNarLs.

#[local] Open Scope Z_scope.

(** ** Objects *)

(** Mode bits, and the modification time in seconds, [None] for the wall clock. *)
Record Meta : Type := mkMeta {
  mt_mode : Z;
  mt_mtime : option Z;
}.

Inductive Inode : Type :=
| IFile (meta : Meta) (stat_len : nat) (data : bytes)
| IDir (meta : Meta) (entries : list (bytes * Inode))
| ISymlink (target : bytes)
| ISocket
| ISpecial (char_device : bool).

Class Kernel : Type := {
  (** An I/O error of the call that is made on the object at a path. *)
  io_error : list bytes -> bool;
  (** A read at an offset: an error, or at most so many bytes. *)
  read_limit : list bytes -> Z -> option nat;
  (** The bits that [umask] clears in the mode of a new object. *)
  umask : Z;
}.

Inductive Errno : Type := ELOOP | ENXIO | EIO.

Fixpoint assoc (name : bytes) (entries : list (bytes * Inode)) : option Inode :=
  match entries with
  | [] => None
  | (n, i) :: entries => if bytes_eqb n name then Some i else assoc name entries
  end.

Definition STREAM_CHUNK : Z := 256 * 1024.
Definition CANON_MTIME_SECS : Z := 1.

(** [canonical_times] applied through a held descriptor. *)
Definition set_canonical_times (m : Meta) : Meta := mkMeta (mt_mode m) (Some CANON_MTIME_SECS).

(** ** Sinks and observers *)

(** [std::io::Write] as the walk uses it. *)
Class Write (W : Type) : Type := write_all : bytes -> W -> W.

#[export] Instance Vec_write : Write bytes := fun b w => w ++ b.

Record CountingWriter (W : Type) : Type := mkCountingWriter {
  inner : W;
  written : Z;
}.
Arguments mkCountingWriter {W}.
Arguments inner {W}.
Arguments written {W}.

#[export] Instance CountingWriter_write {W} `{Write W} : Write (CountingWriter W) :=
  fun b c => mkCountingWriter (write_all b (inner c)) (written c + Z.of_nat (length b)).

(** How a callback ends: with [Ok] and the observer after it, with an [io::Error],
    or with a panic of its own code. *)
Inductive HookResult (O : Type) : Type :=
| Done (o : O)
| Failed
| Panicked.
Arguments Done {O}.
Arguments Failed {O}.
Arguments Panicked {O}.

(** The structure callbacks. *)
Class WalkObserver (O : Type) : Type := {
  enter_dir : bytes -> O -> HookResult O;
  leave_dir : O -> HookResult O;
  symlink : bytes -> bytes -> O -> HookResult O;
  file_begin : bytes -> bool -> Z -> O -> HookResult O;
  file_data : bytes -> O -> HookResult O;
  file_end : O -> HookResult O;
}.

#[export] Instance unit_observer : WalkObserver unit := {|
  enter_dir _ o := Done o;
  leave_dir o := Done o;
  symlink _ _ o := Done o;
  file_begin _ _ _ o := Done o;
  file_data _ o := Done o;
  file_end o := Done o;
|}.

(** How a walk ends early: its error, or the panic of a callback, which unwinds
    through it. *)
Inductive Halt : Type :=
| Err (e : NarError)
| Panic.

(** ** Dumping *)

Section Dump.
Context `{K : Kernel} {W O : Type} `{HW : Write W} `{HO : WalkObserver O}.

(** A step of the walk on the sink and the observer. *)
Definition Dump (A : Type) : Type := CountingWriter W * O -> (A * (CountingWriter W * O)) + Halt.

#[local] Instance Dump_ret : MRet Dump := fun A a s => inl (a, s).
#[local] Instance Dump_bind : MBind Dump := fun A B f m s =>
  match m s with inl (a, s') => f a s' | inr e => inr e end.

Definition fails {A} (e : NarError) : Dump A := fun _ => inr (Err e).

Definition emit (b : bytes) : Dump unit := fun s => inl (tt, (write_all b (fst s), snd s)).

(** [obs.callback(..)?]: an [io::Error] becomes the error of the walk. *)
Definition hook (f : O -> HookResult O) : Dump unit := fun s =>
  match f (snd s) with
  | Done o => inl (tt, (fst s, o))
  | Failed => inr (Err NarError.Io_Other)
  | Panicked => inr Panic
  end.

(** [openat] with [O_NOFOLLOW] and [O_NONBLOCK]. *)
Definition openat (parent : list (bytes * Inode)) (name : bytes) (path : list bytes) : Inode + Errno :=
  if io_error path then inr EIO
  else
    match assoc name parent with
    | None => inr EIO
    | Some (ISymlink _) => inr ELOOP
    | Some ISocket => inr ENXIO
    | Some i => inl i
    end.

Definition readlinkat (parent : list (bytes * Inode)) (name : bytes) (path : list bytes) : option bytes :=
  if io_error path then None else match assoc name parent with Some (ISymlink t) => Some t | _ => None end.

(** One [read] of at most [to_read] bytes, [rest] being what the file has from
    [off] on: empty only at the end. *)
Definition read_some (path : list bytes) (off : Z) (rest : bytes) (to_read : Z) : option bytes :=
  match read_limit path off with
  | None => None
  | Some k => Some (take (Nat.min (Nat.max 1 k) (Z.to_nat to_read)) rest)
  end.

(** The copy loop of [stream_regular]: a read takes at least one byte. *)
Fixpoint stream_contents (fuel : nat) (path : list bytes) (off : Z) (rest : bytes) (remaining : Z) : Dump unit :=
  if 0 <? remaining then
    match fuel with
    | 0%nat => fails NarError.Io_Other
    | S fuel =>
        match read_some path off rest (Z.min STREAM_CHUNK remaining) with
        | None | Some [] => fails NarError.Io_Other
        | Some b =>
            _ ← emit b;
            _ ← hook (file_data b);
            stream_contents fuel path (off + len b) (drop (length b) rest) (remaining - len b)
        end
    end
  else mret tt.

(** [mode & 0o111 != 0]. *)
Definition is_executable (meta : Meta) : bool := negb (Z.land (mt_mode meta) 73 =? 0).

Definition stream_regular (meta : Meta) (stat_len : nat) (data : bytes) (path : list bytes) (nar_name : bytes) : Dump unit :=
  let executable := is_executable meta in
  let n := Z.of_nat stat_len in
  _ ← emit (frame.regular_header executable n);
  _ ← hook (file_begin nar_name executable n);
  _ ← stream_contents (length data) path 0 data n;
  _ ← emit (frame.contents_padding n);
  hook file_end.

Definition stream_symlink (parent : list (bytes * Inode)) (name : bytes) (path : list bytes) (nar_name : bytes) : Dump unit :=
  match readlinkat parent name path with
  | None => fails NarError.Io_Other
  | Some target =>
      if utf8_valid target then
        _ ← emit (frame.symlink target);
        hook (symlink nar_name target)
      else fails NarError.Io_Other
  end.

(** [readdir] lists the directory itself and its parent too. *)
Definition readdir (entries : list (bytes * Inode)) : list bytes := str "." :: str ".." :: List.map fst entries.

Definition is_dot (name : bytes) : bool := bytes_eqb name (str ".") || bytes_eqb name (str "..").

(** The loop over the sorted names; [node] streams the entry of a name. *)
Fixpoint stream_entries (node : bytes -> Dump unit) (names : list bytes) : Dump unit :=
  match names with
  | [] => mret tt
  | name :: names =>
      if utf8_valid name then
        _ ← emit (frame.entry_open name);
        _ ← node name;
        _ ← emit frame.entry_close;
        stream_entries node names
      else fails NarError.Io_Other
  end.

(** [stream_node] at depth [MAX_NAR_DEPTH + 1 - levels]. *)
Fixpoint stream_node (levels : nat) (parent : list (bytes * Inode)) (name : bytes) (path : list bytes) (nar_name : bytes)
    : Dump unit :=
  match levels with
  | 0%nat => fails (NarError.NestingTooDeep (MAX_NAR_DEPTH + 1))
  | S levels =>
      let opened := openat parent name path in
      _ ← emit frame.node_open;
      _ ← match opened with
          | inr ELOOP => stream_symlink parent name path nar_name
          | inr ENXIO => fails (NarError.UnsupportedFileType path)
          | inr EIO => fails NarError.Io_Other
          | inl (IDir _ entries) =>
              _ ← emit frame.directory_open;
              _ ← hook (enter_dir nar_name);
              let names := List.filter (fun n => negb (is_dot n)) (readdir entries) in
              if (MAX_DIRECTORY_ENTRIES <=? length names)%nat then fails (NarError.TooManyEntries (length names))
              else
                _ ← stream_entries (fun n => stream_node levels entries n (path ++ [n]) n) (merge_sort bytes_le names);
                hook leave_dir
          | inl (IFile meta stat_len data) => stream_regular meta stat_len data path nar_name
          | inl _ => fails (NarError.UnsupportedFileType path)
          end;
      emit frame.node_close
  end.

(** [dump_path_observed] of the object [name] of an opened directory, whose path
    is [path]: the bytes written, and the sink and the observer after. *)
Definition dump_path_observed (parent : list (bytes * Inode)) (name : bytes) (w : W) (o : O) : (Z * W * O) + Halt :=
  match (_ ← emit frame.magic; stream_node nar_levels parent name [] []) (mkCountingWriter w 0, o) with
  | inl (_, (c, o)) => inl (written c, inner c, o)
  | inr e => inr e
  end.
End Dump.

Definition dump_path_streaming `{Kernel} {W} `{Write W} (parent : list (bytes * Inode)) (name : bytes) (w : W)
    : (Z * W) + Halt :=
  match dump_path_observed parent name w tt with inl (n, w, _) => inl (n, w) | inr e => inr e end.

(** ** Restoring *)

Section Restore.
Context `{K : Kernel}.

(** The copy loop of [restore_regular]: [r.read] may return less than asked, but
    nothing only at the end of the stream. *)
Fixpoint restore_contents (fuel : nat) (path : list bytes) (remaining : Z) (acc : bytes) : Read bytes := fun r =>
  if 0 <? remaining then
    match fuel with
    | 0%nat => inr NarError.Io_UnexpectedEof
    | S fuel =>
        match read_some path (pos r) (rest r) (Z.min STREAM_CHUNK remaining) with
        | None => inr NarError.Io_Other
        | Some [] => inr NarError.Io_UnexpectedEof
        | Some b =>
            restore_contents fuel path (remaining - len b) (acc ++ b)
              (mkReader (drop (length b) (rest r)) (pos r + len b))
        end
    end
  else inl (acc, r).

(** Creating an entry with [O_EXCL], [mkdirat] or [symlinkat]. *)
Definition create (parent : list (bytes * Inode)) (name : bytes) (path : list bytes) : Read unit :=
  if io_error path then fail NarError.Io_Other
  else match assoc name parent with Some _ => fail NarError.Io_Other | None => mret tt end.

Definition new_mode (mode : Z) : Z := Z.land mode (Z.lnot umask).

Definition restore_regular (parent : list (bytes * Inode)) (name : bytes) (path : list bytes) : Read Inode :=
  token ← read_string;
  executable ← (if bytes_eqb token (str "executable") then
                  _ ← expect_str (str ""); _ ← expect_str (str "contents"); mret true
                else if bytes_eqb token (str "contents") then mret false
                else fail (NarError.UnexpectedToken (quoted "executable" ++ str " or " ++ quoted "contents") token));
  n ← read_u64;
  _ ← create parent name path;
  data ← (fun r => restore_contents (length (rest r)) path n [] r);
  _ ← consume_padding n;
  let meta := mkMeta (if (executable : bool) then 493 else new_mode 438) None in
  _ ← expect_str (str ")");
  mret (IFile (set_canonical_times meta) (length data) data).

Definition restore_symlink (parent : list (bytes * Inode)) (name : bytes) (path : list bytes) : Read Inode :=
  _ ← expect_str (str "target");
  b ← read_target_bytes;
  target ← from_utf8 (str "symlink target") b;
  if elem_byte 0 target then fail NarError.Io_Other
  else
    _ ← create parent name path;
    _ ← expect_str (str ")");
    mret (ISymlink target).

(** The loop of the directory arm.  Creating an entry refreshes the time of the
    directory, so its metadata is part of the state. *)
Fixpoint restore_entries (rn : list (bytes * Inode) -> bytes -> Read Inode) (cap : nat) (meta : Meta)
    (entries : list (bytes * Inode)) (prev_name : option bytes) : Read (Meta * list (bytes * Inode)) :=
  match cap with
  | 0%nat => fail (NarError.TooManyEntries (length entries))
  | S cap =>
      token ← read_string;
      if bytes_eqb token (str ")") then mret (meta, entries)
      else if bytes_eqb token (str "entry") then
        _ ← expect_str (str "("); _ ← expect_str (str "name");
        b ← read_name_bytes;
        name ← from_utf8 (str "entry name") b;
        _ ← validate_entry_name name;
        match order_check prev_name name with
        | Some e => fail e
        | None =>
            _ ← expect_str (str "node");
            child ← rn entries name;
            _ ← expect_str (str ")");
            restore_entries rn cap (mkMeta (mt_mode meta) None) (entries ++ [(name, child)]) (Some name)
        end
      else fail (NarError.UnexpectedToken (quoted "entry" ++ str " or " ++ quoted ")") token)
  end.

(** [restore_node] at depth [MAX_NAR_DEPTH + 1 - levels]. *)
Fixpoint restore_node (levels : nat) (path : list bytes) (parent : list (bytes * Inode)) (name : bytes) : Read Inode :=
  match levels with
  | 0%nat => fail (NarError.NestingTooDeep (MAX_NAR_DEPTH + 1))
  | S levels =>
      _ ← expect_str (str "("); _ ← expect_str (str "type");
      node_type ← read_string;
      if bytes_eqb node_type (str "regular") then restore_regular parent name path
      else if bytes_eqb node_type (str "directory") then
        _ ← create parent name path;
        me ← restore_entries (fun entries n => restore_node levels (path ++ [n]) entries n) MAX_DIRECTORY_ENTRIES
               (mkMeta (new_mode 511) None) [] None;
        mret (IDir (set_canonical_times (fst me)) (snd me))
      else if bytes_eqb node_type (str "symlink") then restore_symlink parent name path
      else fail (NarError.UnknownNodeType node_type)
  end.

(** [restore_path_streaming] into a new entry [name] of an opened directory. *)
Definition restore_path_streaming (parent : list (bytes * Inode)) (name : bytes) : Read Inode :=
  magic ← read_string;
  if negb (bytes_eqb magic NAR_MAGIC) then fail (NarError.InvalidMagic magic)
  else restore_node nar_levels [] parent name.
End Restore.

(** ** What restoring does *)

(** No system call fails. *)
Definition quiet (K : Kernel) : Prop := forall path, io_error path = false /\ forall off, is_Some (read_limit path off).

Fixpoint restorable (levels : nat) (n : NarNode) : Prop :=
  match levels with
  | 0%nat => False
  | S levels =>
      match n with
      | Regular _ contents => len contents < 2 ^ 64
      | Symlink target => token_ok target = true /\ elem_byte 0 target = false
      | Directory entries =>
          (length entries < MAX_DIRECTORY_ENTRIES)%nat /\ names_after None (List.map fst entries) /\
          Forall (fun e => name_wf (fst e) /\ restorable levels (snd e)) entries
      end
  end.

Lemma restorable_S levels n :
  restorable (S levels) n <->
  match n with
  | Regular _ contents => len contents < 2 ^ 64
  | Symlink target => token_ok target = true /\ elem_byte 0 target = false
  | Directory entries =>
      (length entries < MAX_DIRECTORY_ENTRIES)%nat /\ names_after None (List.map fst entries) /\
      Forall (fun e => name_wf (fst e) /\ restorable levels (snd e)) entries
  end.
Proof. reflexivity. Qed.

(** The object of a tree, with canonical modes and times. *)
Fixpoint restored `{Kernel} (n : NarNode) : Inode :=
  match n with
  | Regular x c => IFile (mkMeta (if x then 493 else new_mode 438) (Some CANON_MTIME_SECS)) (length c) c
  | Directory es => IDir (mkMeta (new_mode 511) (Some CANON_MTIME_SECS)) (List.map (fun e => (fst e, restored (snd e))) es)
  | Symlink t => ISymlink t
  end.

Section RestoreSpec.
Context `{K : Kernel}.

Lemma read_some_spec path off rest to_read b :
  read_some path off rest to_read = Some b -> 0 < to_read ->
  exists t, rest = b ++ t /\ len b <= to_read /\ (b = [] -> rest = []).
Proof.
  unfold read_some. destruct (read_limit path off) as [k|]; [|done]. intros [= <-] Ht. eexists. split; [symmetry; apply take_drop|].
  split; [unfold len; rewrite length_take; lia|]. intros Hn. apply (f_equal length) in Hn. rewrite length_take in Hn.
  destruct rest; [done|]. cbn [length] in Hn. lia.
Qed.

Lemma read_some_live path off rest to_read :
  quiet K -> exists b, read_some path off rest to_read = Some b.
Proof. intros Hq. unfold read_some. destruct (proj2 (Hq path) off) as [k ->]. eauto. Qed.

Lemma restore_contents_sound fuel path n acc r b r' :
  restore_contents fuel path n acc r = inl (b, r') -> 0 <= n -> exists c, b = acc ++ c /\ len c = n /\ adv r c r'.
Proof.
  revert n acc r. induction fuel as [|fuel IH]; intros n acc r; cbn [restore_contents]; destruct (Z.ltb_spec 0 n) as [Hn|Hn].
  - done.
  - intros [= <- <-] H0. exists []. rewrite app_nil_r. split_and!; [done|unfold len; cbn; lia|by apply adv_nil].
  - destruct (read_some _ _ _ _) as [[|x p]|] eqn:Hr; [done| |done].
    apply read_some_spec in Hr as (t & Ht & Hl & _); [|unfold STREAM_CHUNK; lia]. intros Hb _. apply IH in Hb as (c & -> & Hc & Ha); [|lia].
    exists ((x :: p) ++ c). rewrite app_assoc. split_and!; [done|rewrite len_app; lia|]. rewrite Ht, drop_app_length in Ha.
    refine (adv_trans _ _ _ _ _ _ Ha). split; [done|]. cbn [pos]. unfold len. lia.
  - intros [= <- <-] H0. exists []. rewrite app_nil_r. split_and!; [done|unfold len; cbn; lia|by apply adv_nil].
Qed.

Lemma restore_contents_live fuel path n acc r c r' :
  quiet K -> adv r c r' -> len c = n -> (length (rest r) <= fuel)%nat -> restore_contents fuel path n acc r = inl (acc ++ c, r').
Proof.
  intros Hq. revert n acc r c. induction fuel as [|fuel IH]; intros n acc r c Ha Hc Hf; cbn [restore_contents]; destruct (Z.ltb_spec 0 n) as [Hn|Hn].
  - destruct Ha as [Ha _]. rewrite Ha, length_app in Hf. unfold len in Hc. lia.
  - assert (c = []) as -> by (destruct c; [done|unfold len in Hc; cbn in Hc; lia]). apply adv_nil in Ha as ->. by rewrite app_nil_r.
  - destruct (read_some_live path (pos r) (rest r) (Z.min STREAM_CHUNK n) Hq) as [b Hb]. rewrite Hb.
    apply read_some_spec in Hb as (t & Ht & Hl & He); [|unfold STREAM_CHUNK; lia]. destruct Ha as [Ha Hp].
    destruct b as [|x p]; [specialize (He eq_refl); rewrite He in Ha; destruct c; [unfold len in Hc; cbn in Hc; lia|done]|].
    assert (exists c', c = (x :: p) ++ c' /\ t = c' ++ rest r') as (c' & -> & ->).
    { rewrite Ha in Ht. apply app_eq_inv in Ht as [(k & -> & E)|(k & E & ->)]; [by exists k|].
      assert (k = []) as ->.
      { apply (f_equal length) in E. rewrite length_app in E. destruct k; [done|]. unfold len in *. cbn [length] in *. lia. }
      rewrite app_nil_r in E. subst c. exists []. by rewrite app_nil_r. }
    rewrite len_app in Hc. rewrite (IH _ _ _ c').
    + by rewrite app_assoc.
    + rewrite Ht, drop_app_length. split; [done|]. cbn [pos]. rewrite length_app in Hp. unfold len. lia.
    + lia.
    + cbn [rest]. rewrite length_drop. cbn [length]. lia.
  - assert (c = []) as -> by (destruct c; [done|unfold len in Hc; cbn in Hc; lia]). apply adv_nil in Ha as ->. by rewrite app_nil_r.
Qed.

(** The chain of reads of an entry up to its node. *)
Definition entry_prefix (name : bytes) : bytes := write_str "(" ++ write_str "name" ++ write_bytes name ++ write_str "node".

Lemma entry_prefix_bind {B} prev (k : bytes -> Read B) r b r' :
  reader_ok r ->
  (_ ← expect_str (str "("); _ ← expect_str (str "name"); x ← read_name_bytes;
   name ← from_utf8 (str "entry name") x; _ ← validate_entry_name name;
   match order_check prev name with Some e => fail e | None => _ ← expect_str (str "node"); k name end) r = inl (b, r') <->
  exists name r1, name_wf name /\ order_check prev name = None /\ adv r (entry_prefix name) r1 /\ reader_ok r1 /\ k name r1 = inl (b, r').
Proof.
  intros Hr. unfold entry_prefix. split.
  - intros (r1 & H1 & Hr1 & (r2 & H2 & Hr2 & (name & r3 & Hn & Ho & H3 & Hr3 & (r4 & H4 & Hr4 & Hk)%expect_bind)%name_bind)%expect_bind)%expect_bind;
      try done. exists name, r4. split_and!; try done. eauto using adv_trans.
  - intros (name & r4 & Hn & Ho & He & Hr4 & Hk). adv_next He Hr r1 H1 Hr1. adv_next He Hr1 r2 H2 Hr2. adv_next He Hr2 r3 H3 Hr3.
    apply expect_bind; [done..|]. exists r1. split_and!; [done..|]. apply expect_bind; [done..|]. exists r2. split_and!; [done..|].
    apply name_bind; [done|]. exists name, r3. split_and!; [apply Hn..|done|done|done|]. apply expect_bind; [done..|]. by exists r4.
Qed.

Lemma entry_bytes_prefix e : entry_bytes e = write_str "entry" ++ entry_prefix (fst e) ++ serialize_node (snd e) ++ write_str ")".
Proof. unfold entry_bytes, entry_body, entry_prefix. by rewrite <- !app_assoc. Qed.

Lemma create_inl parent name path r u r' : create parent name path r = inl (u, r') -> r' = r.
Proof. unfold create. destruct (io_error path); [done|]. destruct (assoc name parent); [done|]. by intros [_ ->]%ret_inl. Qed.

Lemma create_live parent name path r : quiet K -> assoc name parent = None -> create parent name path r = inl (tt, r).
Proof. intros Hq Ha. unfold create. by rewrite (proj1 (Hq path)), Ha. Qed.

Lemma restore_regular_sound parent name path r i r' :
  reader_ok r -> restore_regular parent name path r = inl (i, r') ->
  exists (x : bool) c, len c < 2 ^ 64 /\ i = restored (Regular x c) /\
    adv r ((if x then write_str "executable" ++ write_str "" else []) ++ write_str "contents" ++ write_bytes c ++ write_str ")") r'.
Proof.
  intros Hr (t & r1 & Ht & Ha & Hr1 & Hk)%string_bind; [|done]. apply bind_inl in Hk as (x & r2 & Hx & Hk).
  assert (adv r ((if x then write_str "executable" ++ write_str "" else []) ++ write_str "contents") r2) as Hh.
  { unfold bytes_eqb in Hx. case_bool_decide as H1; [|case_bool_decide as H2; [|done]]; subst t.
    - apply expect_bind in Hx as (r3 & H3 & Hr3 & Hx); [|done..]. apply expect_bind in Hx as (r4 & H4 & _ & [-> ->]%ret_inl); [|done..].
      rewrite <- app_assoc. eauto using adv_trans.
    - by apply ret_inl in Hx as [-> ->]. }
  pose proof (proj1 (adv_ok _ _ _ Hh Hr)) as Hr2. apply bind_inl in Hk as (n & r3 & [Hn H3]%read_u64_inl & Hk); [|done].
  apply bind_inl in Hk as (u & r4 & ->%create_inl & Hk). apply bind_inl in Hk as (c & r5 & Hc & Hk).
  apply restore_contents_sound in Hc as (c' & -> & Hl & H5); [|lia]. cbn [app] in *.
  apply bind_inl in Hk as (u' & r6 & H6%consume_padding_inl & Hk).
  pose proof (proj1 (adv_ok _ _ _ H3 Hr2)) as Hr3. pose proof (proj1 (adv_ok _ _ _ H5 Hr3)) as Hr5.
  apply expect_bind in Hk as (r7 & H7 & _ & [-> ->]%ret_inl); [|exact (proj1 (adv_ok _ _ _ H6 Hr5))|done].
  exists x, c'. split; [lia|]. split; [done|]. rewrite app_assoc. refine (adv_trans _ _ _ _ _ Hh _). unfold write_bytes.
  rewrite <- !app_assoc. unfold len in Hl. rewrite Hl. eauto using adv_trans.
Qed.

Lemma restore_regular_live parent name path (x : bool) c r r' :
  quiet K -> assoc name parent = None -> reader_ok r -> len c < 2 ^ 64 ->
  adv r ((if x then write_str "executable" ++ write_str "" else []) ++ write_str "contents" ++ write_bytes c ++ write_str ")") r' ->
  restore_regular parent name path r = inl (restored (Regular x c), r').
Proof.
  intros Hq Hp Hr Hl He. unfold write_bytes in He. rewrite <- !app_assoc, (app_assoc (if x then _ else _)) in He. adv_next He Hr r2 H2 Hr2.
  adv_next He Hr2 r3 H3 Hr3. adv_next He Hr3 r4 H4 Hr4. adv_next He Hr4 r5 H5 Hr5.
  assert (Htail : forall r1 (Hr1 : reader_ok r1), r1 = r2 -> (n ← read_u64; _ ← create parent name path;
    data ← (fun r => restore_contents (length (rest r)) path n [] r); _ ← consume_padding n;
    _ ← expect_str (str ")"); mret (IFile (set_canonical_times (mkMeta (if x then 493 else new_mode 438) None)) (length data) data)) r1 =
    inl (restored (Regular x c), r')).
  { intros r1 _ ->. apply bind_inl. exists (len c), r3. split; [apply read_u64_inl; [done|]; split; [unfold len in *; lia|done]|].
    apply bind_inl. exists tt, r3. split; [by apply create_live|]. apply bind_inl. exists c, r4. split; [by apply (restore_contents_live _ _ _ [])|].
    apply bind_inl. exists tt, r5. split; [by apply consume_padding_inl|].
    apply expect_bind; [done..|]. exists r'. split_and!; [done|exact (proj1 (adv_ok _ _ _ He Hr5))|done]. }
  unfold restore_regular. apply string_bind; [done|]. unfold bytes_eqb. destruct x; cbn [app] in H2; rewrite <- ?app_assoc in H2.
  - adv_next H2 Hr r1 H1 Hr1. adv_next H2 Hr1 r1' H1' Hr1'. exists (str "executable"), r1. split_and!; [done..|].
    apply bind_inl. exists true, r2. split; [|by apply Htail]. rewrite bool_decide_eq_true_2 by done.
    apply expect_bind; [done..|]. exists r1'. split_and!; [done..|]. apply expect_bind; [done..|]. by exists r2.
  - exists (str "contents"), r2. split_and!; [done..|]. apply bind_inl. exists false, r2. split; [done|by apply Htail].
Qed.

Lemma restore_symlink_sound parent name path r i r' :
  reader_ok r -> restore_symlink parent name path r = inl (i, r') ->
  exists t, token_ok t = true /\ elem_byte 0 t = false /\ i = ISymlink t /\
    adv r (write_str "target" ++ write_bytes t ++ write_str ")") r'.
Proof.
  intros Hr (r1 & H1 & Hr1 & Hk)%expect_bind; [|done..]. apply bind_inl in Hk as (b & r2 & Hb & Hk).
  apply read_target_inl in Hb as [Hl Hb]; [|done]. pose proof (proj1 (adv_ok _ _ _ Hb Hr1)) as Hr2.
  apply bind_inl in Hk as (t & r3 & (Hu & -> & ->)%from_utf8_inl & Hk). destruct (elem_byte 0 b) eqn:H0; [done|].
  apply bind_inl in Hk as (u & r4 & ->%create_inl & Hk). apply expect_bind in Hk as (r5 & H5 & _ & [-> ->]%ret_inl); [|done..].
  exists b. split; [unfold token_ok; rewrite Hu, (proj2 (Z.leb_le _ _)); done|]. split_and!; [done..|]. eauto using adv_trans.
Qed.

Lemma restore_symlink_live parent name path t r r' :
  quiet K -> assoc name parent = None -> reader_ok r -> token_ok t = true -> elem_byte 0 t = false ->
  adv r (write_str "target" ++ write_bytes t ++ write_str ")") r' -> restore_symlink parent name path r = inl (ISymlink t, r').
Proof.
  intros Hq Hp Hr Ht H0 He. adv_next He Hr r1 H1 Hr1. adv_next He Hr1 r2 H2 Hr2.
  unfold token_ok in Ht. apply andb_true_iff in Ht as [Hl%Z.leb_le Hu].
  apply expect_bind; [done..|]. exists r1. split_and!; [done..|]. apply bind_inl. exists t, r2.
  split; [by apply read_target_inl|]. apply bind_inl. exists t, r2. split; [by apply from_utf8_inl|]. rewrite H0.
  apply bind_inl. exists tt, r2. split; [by apply create_live|].
  apply expect_bind; [done..|]. exists r'. split_and!; [done|exact (proj1 (adv_ok _ _ _ He Hr2))|done].
Qed.

Lemma assoc_None name es : assoc name es = None <-> name ∉ List.map fst es.
Proof.
  induction es as [|[n i] es IH]; cbn [assoc List.map fst]; [split; [set_solver|done]|]. unfold bytes_eqb.
  case_bool_decide as E; rewrite not_elem_of_cons; [split; [done|naive_solver]|]. rewrite IH. naive_solver.
Qed.

Lemma assoc_Some name es i : NoDup (List.map fst es) -> assoc name es = Some i <-> (name, i) ∈ es.
Proof.
  induction es as [|[n j] es IH]; cbn [assoc List.map fst]; [split; [done|set_solver]|]. intros [Hn Hd]%NoDup_cons. unfold bytes_eqb.
  rewrite elem_of_cons. case_bool_decide as E.
  - subst n. split; [intros [= ->]; by left|]. intros [[= ->]|Hi]; [done|]. contradict Hn. apply list_elem_of_In, in_map_iff.
    exists (name, i). by rewrite <- list_elem_of_In.
  - rewrite (IH Hd). naive_solver.
Qed.

Section Entries.
Context (rn : list (bytes * Inode) -> bytes -> Read Inode) (P : NarNode -> Prop).

Lemma restore_entries_sound :
  (forall entries name r i r', reader_ok r -> rn entries name r = inl (i, r') ->
     exists n, P n /\ i = restored n /\ adv r (serialize_node n) r') ->
  forall cap meta entries prev r m es r', reader_ok r -> restore_entries rn cap meta entries prev r = inl ((m, es), r') ->
    mt_mode m = mt_mode meta /\
    exists ns, es = entries ++ List.map (fun e => (fst e, restored (snd e))) ns /\ (length ns < cap)%nat /\ names_after prev (List.map fst ns) /\
      Forall (fun e => name_wf (fst e) /\ P (snd e)) ns /\ adv r (flat_map entry_bytes ns ++ write_str ")") r'.
Proof.
  intros Hrn. induction cap as [|cap IH]; intros meta entries prev r m es r' Hr; cbn [restore_entries]; [done|].
  intros (t & r1 & Ht & Ha & Hr1 & Hk)%string_bind; [|done]. unfold bytes_eqb in Hk. case_bool_decide as H1; [|case_bool_decide as H2; [|done]]; subst t.
  - apply ret_inl in Hk as [[= -> ->] ->]. split; [done|]. exists []. rewrite app_nil_r. split_and!; [done|cbn; lia|done|constructor|done].
  - apply entry_prefix_bind in Hk as (name & r2 & Hn & Ho & Hp & Hr2 & Hk); [|done].
    apply bind_inl in Hk as (i & r3 & (n & HP & -> & Hs)%Hrn & Hk); [|done]. pose proof (proj1 (adv_ok _ _ _ Hs Hr2)) as Hr3.
    apply expect_bind in Hk as (r4 & H4 & Hr4 & Hk); [|done..]. apply IH in Hk as (Hm & ns & -> & Hl & Hna & Hf & He); [|done].
    split; [done|]. exists ((name, n) :: ns). cbn [List.map fst snd names_after length flat_map]. rewrite <- app_assoc.
    split_and!; [done|lia|done|done|by constructor|]. rewrite entry_bytes_prefix, <- !app_assoc. cbn [fst snd]. eauto 6 using adv_trans.
Qed.

Lemma restore_entries_live :
  (forall entries name n r r', reader_ok r -> assoc name entries = None -> P n -> adv r (serialize_node n) r' ->
     rn entries name r = inl (restored n, r')) ->
  forall ns cap meta entries prev r r', reader_ok r -> (length ns < cap)%nat -> names_after prev (List.map fst ns) ->
    NoDup (List.map fst entries ++ List.map fst ns) -> Forall (fun e => name_wf (fst e) /\ P (snd e)) ns ->
    adv r (flat_map entry_bytes ns ++ write_str ")") r' ->
    exists t, restore_entries rn cap meta entries prev r =
      inl ((mkMeta (mt_mode meta) t, entries ++ List.map (fun e => (fst e, restored (snd e))) ns), r').
Proof.
  intros Hrn. induction ns as [|[name n] ns IH]; intros [|cap] meta entries prev r r' Hr Hl Hna Hd Hf He; try (cbn in Hl; lia); cbn [restore_entries].
  - exists (mt_mtime meta). cbn [flat_map app] in He. apply string_bind; [done|]. exists (str ")"), r'. cbn [List.map]. rewrite app_nil_r.
    split_and!; [done|done|exact (proj1 (adv_ok _ _ _ He Hr))|]. by destruct meta.
  - cbn [List.map fst names_after] in Hna, Hd. destruct Hna as [Ho Hna]. apply Forall_cons in Hf as [[Hn HP] Hf]. cbn [fst snd] in *.
    cbn [flat_map] in He. rewrite entry_bytes_prefix, <- !app_assoc in He. cbn [fst snd] in He.
    adv_next He Hr r1 H1 Hr1. adv_next He Hr1 r2 H2 Hr2. adv_next He Hr2 r3 H3 Hr3. adv_next He Hr3 r4 H4 Hr4.
    destruct (IH cap (mkMeta (mt_mode meta) None) (entries ++ [(name, restored n)]) (Some name) r4 r') as [t Hrun]; try done.
    { cbn in Hl. lia. }
    { rewrite List.map_app, <- app_assoc. done. }
    exists t. apply string_bind; [done|]. exists (str "entry"), r1. split_and!; [done..|]. unfold bytes_eqb.
    rewrite bool_decide_eq_false_2, bool_decide_eq_true_2 by done. apply entry_prefix_bind; [done|]. exists name, r2. split_and!; [done..|].
    apply bind_inl. exists (restored n), r3. split.
    { apply Hrn; try done. apply assoc_None. apply NoDup_app in Hd as (_ & Hd & _). intros Hin. specialize (Hd _ Hin). set_solver. }
    apply expect_bind; [done..|]. exists r4. split_and!; [done..|]. rewrite Hrun. cbn [mt_mode List.map fst snd]. by rewrite <- app_assoc.
Qed.
End Entries.

Lemma restore_node_sound levels path parent name r i r' :
  reader_ok r -> restore_node levels path parent name r = inl (i, r') ->
  exists n, restorable levels n /\ i = restored n /\ adv r (serialize_node n) r'.
Proof.
  revert path parent name r i r'. induction levels as [|levels IH]; intros path parent name r i r' Hr; cbn [restore_node]; [done|].
  intros (r1 & H1 & Hr1 & Hk)%expect_bind; [|done..]. apply expect_bind in Hk as (r2 & H2 & Hr2 & Hk); [|done..].
  apply string_bind in Hk as (t & r3 & Ht & H3 & Hr3 & Hk); [|done]. unfold bytes_eqb in Hk.
  case_bool_decide as Ht1; [|case_bool_decide as Ht2; [|case_bool_decide as Ht3; [|done]]]; subst t.
  - apply restore_regular_sound in Hk as (x & c & Hl & -> & He); [|done]. exists (Regular x c). rewrite serialize_unfold.
    split_and!; [done..|]. eauto using adv_trans.
  - apply bind_inl in Hk as (u & r4 & ->%create_inl & Hk). apply bind_inl in Hk as ([m es] & r5 & He & [-> ->]%ret_inl).
    apply (restore_entries_sound _ (restorable levels) (fun entries n r i r' Hr Hn => IH _ _ _ _ _ _ Hr Hn)) in He as (Hm & ns & -> & Hl & Hna & Hf & He); [|done].
    exists (Directory ns). rewrite serialize_unfold. split; [by rewrite restorable_S|]. split.
    + cbn [restored fst snd]. unfold set_canonical_times. rewrite Hm. done.
    + eauto using adv_trans.
  - apply restore_symlink_sound in Hk as (t & Hl & H0 & -> & He); [|done]. exists (Symlink t). rewrite serialize_unfold.
    split_and!; [done..|]. eauto using adv_trans.
Qed.

Lemma restore_node_live levels path parent name n r r' :
  quiet K -> reader_ok r -> assoc name parent = None -> restorable levels n -> adv r (serialize_node n) r' ->
  restore_node levels path parent name r = inl (restored n, r').
Proof.
  intros Hq. revert path parent name n r r'. induction levels as [|levels IH]; intros path parent name n r r' Hr Hp; [done|].
  rewrite restorable_S, serialize_unfold. intros Hw He. cbn [restore_node]. adv_next He Hr r1 H1 Hr1. adv_next He Hr1 r2 H2 Hr2.
  apply expect_bind; [done..|]. exists r1. split_and!; [done..|]. apply expect_bind; [done..|]. exists r2.
  split_and!; [done..|]. apply string_bind; [done|]. unfold bytes_eqb. destruct n as [x c|es|t].
  - adv_next He Hr2 r3 H3 Hr3. exists (str "regular"), r3. split_and!; [done..|]. by apply restore_regular_live.
  - adv_next He Hr2 r3 H3 Hr3. exists (str "directory"), r3. split_and!; [done..|]. destruct Hw as (Hl & Hs & Hf).
    rewrite bool_decide_eq_false_2, bool_decide_eq_true_2 by done.
    apply bind_inl. exists tt, r3. split; [by apply create_live|]. apply bind_inl.
    destruct (restore_entries_live (fun entries n => restore_node levels (path ++ [n]) entries n) (restorable levels)
      (fun entries name n r r' Hr Ha Hn He => IH _ _ _ _ _ _ Hr Ha Hn He) es MAX_DIRECTORY_ENTRIES (mkMeta (new_mode 511) None) [] None r3 r')
      as [t Hrun]; try done; [cbn [List.map app]; by eapply names_after_NoDup|].
    eexists _, r'. split; [exact Hrun|]. done.
  - adv_next He Hr2 r3 H3 Hr3. exists (str "symlink"), r3. split_and!; [done..|]. destruct Hw. by apply restore_symlink_live.
Qed.
End RestoreSpec.

(** ** What dumping does *)

Inductive Event : Type :=
| EEnter (name : bytes)
| ELeave
| ESymlink (name target : bytes)
| EBegin (name : bytes) (executable : bool) (size : Z)
| EData (data : bytes)
| EEnd.

Definition callback {O} `{WalkObserver O} (e : Event) (o : O) : HookResult O :=
  match e with
  | EEnter name => enter_dir name o
  | ELeave => leave_dir o
  | ESymlink name target => symlink name target o
  | EBegin name x size => file_begin name x size o
  | EData b => file_data b o
  | EEnd => file_end o
  end.

Definition apply_event {O} `{WalkObserver O} (e : Event) (o : O) : option O :=
  match callback e o with Done o => Some o | Failed | Panicked => None end.

Lemma apply_event_Some {O} `{WalkObserver O} e (o o' : O) : apply_event e o = Some o' <-> callback e o = Done o'.
Proof. unfold apply_event. destruct (callback e o); naive_solver. Qed.

Fixpoint run_events {O} `{WalkObserver O} (evs : list Event) (o : O) : option O :=
  match evs with
  | [] => Some o
  | e :: evs => match apply_event e o with Some o => run_events evs o | None => None end
  end.

Definition piece_ok (p : bytes) : Prop := p <> [] /\ len p <= STREAM_CHUNK.

(** What an observer may be told of a tree: its structure, and the contents of
    each file in some pieces. *)
Inductive trace : bytes -> NarNode -> list Event -> Prop :=
| trace_regular name x ps :
    Forall piece_ok ps -> trace name (Regular x (concat ps)) (EBegin name x (len (concat ps)) :: List.map EData ps ++ [EEnd])
| trace_symlink name t : trace name (Symlink t) [ESymlink name t]
| trace_directory name es evs : traces es evs -> trace name (Directory es) (EEnter name :: evs ++ [ELeave])
with traces : list NarEntry -> list Event -> Prop :=
| traces_nil : traces [] []
| traces_cons name n es evs1 evs2 : trace name n evs1 -> traces es evs2 -> traces ((name, n) :: es) (evs1 ++ evs2).

Scheme trace_mut := Induction for trace Sort Prop
  with traces_mut := Induction for traces Sort Prop.

(** The archive of an object: [levels] bounds the nesting. *)
Fixpoint dumps (levels : nat) (i : Inode) (n : NarNode) : Prop :=
  match levels with
  | 0%nat => False
  | S levels =>
      match i, n with
      | IFile meta stat_len data, Regular x c => x = is_executable meta /\ (stat_len <= length data)%nat /\ c = take stat_len data
      | ISymlink t, Symlink t' => t' = t /\ utf8_valid t = true
      | IDir _ entries, Directory es =>
          let names := List.filter (fun n => negb (is_dot n)) (List.map fst entries) in
          (length names < MAX_DIRECTORY_ENTRIES)%nat /\
          Forall2 (fun name e => fst e = name /\ utf8_valid name = true /\ exists j, assoc name entries = Some j /\ dumps levels j (snd e))
            (merge_sort bytes_le names) es
      | _, _ => False
      end
  end.

Lemma singles_ok (c : bytes) : Forall piece_ok (List.map (fun b => [b]) c) /\ concat (List.map (fun b => [b]) c) = c.
Proof. split; [|induction c; cbn; congruence]. apply Forall_map, Forall_forall. intros b _. split; [done|]. unfold len, STREAM_CHUNK. cbn. lia. Qed.

Lemma trace_exists name n : exists evs, trace name n evs.
Proof.
  revert name. induction n as [x c|t|es IH] using NarNode_ind'; intros name.
  - destruct (singles_ok c) as [Hs Hc]. pose proof (trace_regular name x _ Hs) as Ht. rewrite Hc in Ht. by eexists.
  - eexists. constructor.
  - assert (exists evs, traces es evs) as [evs Hevs]; [|eexists; by constructor].
    induction IH as [|[m n] es Hn _ IH]; [eexists; constructor|]. destruct IH as [evs2 H2]. destruct (Hn m) as [evs1 H1].
    eexists. by constructor.
Qed.

Lemma run_events_app {O} `{WalkObserver O} a b (o : O) :
  run_events (a ++ b) o = match run_events a o with Some o => run_events b o | None => None end.
Proof. revert o. induction a as [|e a IH]; intros o; cbn [run_events app]; [done|]. by destruct (apply_event e o). Qed.

(** An observer that no walk can make fail. *)
Class ObserverTotal (O : Type) `{WalkObserver O} : Prop :=
  observe name n evs (o : O) : trace name n evs -> is_Some (run_events evs o).

#[export] Instance unit_observer_total : ObserverTotal unit.
Proof. intros name n evs [] _. induction evs as [|[] evs IH]; cbn; by eauto. Qed.

Section DumpSpec.
Context `{K : Kernel} {W O : Type} `{HW : Write W} `{HO : WalkObserver O}.
#[local] Abbreviation Dump := (@Dump W O).
#[local] Existing Instances Dump_ret Dump_bind.

Definition writes (ws : list bytes) (c : CountingWriter W) : CountingWriter W := fold_left (fun c b => write_all b c) ws c.

(** From [s] to [s'] the walk wrote [out] and told [evs]. *)
Definition did (s s' : CountingWriter W * O) (out : bytes) (evs : list Event) : Prop :=
  exists ws, concat ws = out /\ fst s' = writes ws (fst s) /\ run_events evs (snd s) = Some (snd s').

Lemma did_nil s : did s s [] [].
Proof. by exists []. Qed.

Lemma did_trans s s1 s2 a b ea eb : did s s1 a ea -> did s1 s2 b eb -> did s s2 (a ++ b) (ea ++ eb).
Proof.
  intros (w1 & <- & H1 & E1) (w2 & <- & H2 & E2). exists (w1 ++ w2). rewrite concat_app, run_events_app, E1. split_and!; [done| |done].
  rewrite H2, H1. unfold writes. by rewrite fold_left_app.
Qed.

Lemma dump_bind_inl {A B} (m : Dump A) (f : A -> Dump B) s b s' :
  (x ← m; f x) s = inl (b, s') <-> exists a s1, m s = inl (a, s1) /\ f a s1 = inl (b, s').
Proof. unfold mbind, Dump_bind. destruct (m s) as [[a s1]|e]; naive_solver. Qed.

Lemma emit_bind {B} b (k : Dump B) s x s' :
  (_ ← emit b; k) s = inl (x, s') <-> exists s1, did s s1 b [] /\ s1 = (write_all b (fst s), snd s) /\ k s1 = inl (x, s').
Proof.
  rewrite dump_bind_inl. unfold emit. split.
  - intros (u & s1 & [= <- <-] & Hk). eexists. split_and!; [|done|done]. exists [b]. cbn. by rewrite app_nil_r.
  - intros (s1 & _ & -> & Hk). eauto.
Qed.

Lemma hook_inl f ev (s : CountingWriter W * O) u s' :
  (forall o, f o = callback ev o) -> hook f s = inl (u, s') -> did s s' [] [ev].
Proof.
  intros Hf. unfold hook. rewrite Hf. destruct (callback ev (snd s)) as [o| |] eqn:E; [|done..]. intros [= <- <-]. exists []. cbn. unfold apply_event.
  by rewrite E.
Qed.

Lemma stream_contents_sound fuel path off rest remaining s u s' :
  stream_contents fuel path off rest remaining s = inl (u, s') -> 0 <= remaining ->
  exists ps, Forall piece_ok ps /\ len (concat ps) = remaining /\ (exists t, rest = concat ps ++ t) /\ did s s' (concat ps) (List.map EData ps).
Proof.
  revert off rest remaining s. induction fuel as [|fuel IH]; intros off rest remaining s; cbn [stream_contents];
    (destruct (Z.ltb_spec 0 remaining) as [Hn|Hn]; [|intros [= <- <-] H0; exists []; split_and!; [done|unfold len; cbn; lia|by exists rest|apply did_nil]]).
  - done.
  - destruct (read_some _ _ _ _) as [[|x p]|] eqn:Hr; [done| |done].
    apply read_some_spec in Hr as (t & -> & Hl & _); [|unfold STREAM_CHUNK; lia]. intros (s1 & H1 & _ & Hk)%emit_bind _.
    apply dump_bind_inl in Hk as (u1 & s2 & H2 & Hk). apply (hook_inl _ (EData (x :: p))) in H2; [|done].
    rewrite drop_app_length in Hk. apply IH in Hk as (ps & Hps & Hc & (t' & ->) & Hd); [|lia].
    exists ((x :: p) :: ps). cbn [concat List.map]. split_and!.
    + constructor; [|done]. split; [done|lia].
    + rewrite len_app. lia.
    + exists t'. by rewrite app_assoc.
    + refine (did_trans _ _ _ _ _ [_] _ _ Hd). pose proof (did_trans _ _ _ _ _ _ _ H1 H2) as H3. by rewrite app_nil_r in H3.
Qed.

(** Chains of steps: what was written and told adds up. *)
Lemma did_out s s' out out' evs evs' : did s s' out evs -> out = out' -> evs = evs' -> did s s' out' evs'.
Proof. by intros H -> ->. Qed.

Lemma stream_regular_sound meta stat_len data path nar_name s u s' :
  stream_regular meta stat_len data path nar_name s = inl (u, s') ->
  exists evs, (stat_len <= length data)%nat /\ trace nar_name (Regular (is_executable meta) (take stat_len data)) evs /\
    did s s' (frame.regular_header (is_executable meta) (Z.of_nat stat_len) ++ take stat_len data ++ zero_pad (Z.of_nat stat_len)) evs.
Proof.
  intros (s1 & H1 & _ & Hk)%emit_bind. apply dump_bind_inl in Hk as (u1 & s2 & H2 & Hk).
  apply (hook_inl _ (EBegin nar_name (is_executable meta) (Z.of_nat stat_len))) in H2; [|done].
  apply dump_bind_inl in Hk as (u2 & s3 & Hc & Hk). apply stream_contents_sound in Hc as (ps & Hps & Hl & (t & ->) & H3); [|lia].
  apply emit_bind in Hk as (s4 & H4 & _ & H5). apply (hook_inl _ EEnd) in H5; [|done].
  assert (Hn : stat_len = length (concat ps)) by (unfold len in Hl; lia). subst stat_len. rewrite take_app_length. eexists. split_and!.
  - rewrite length_app. lia.
  - by apply trace_regular.
  - eapply did_out; [exact (did_trans _ _ _ _ _ _ _ (did_trans _ _ _ _ _ _ _ H1 H2) (did_trans _ _ _ _ _ _ _ H3 (did_trans _ _ _ _ _ _ _ H4 H5)))| |].
    + by rewrite !app_nil_r.
    + done.
Qed.

Lemma stream_symlink_sound parent name path nar_name s u s' :
  stream_symlink parent name path nar_name s = inl (u, s') ->
  exists t, assoc name parent = Some (ISymlink t) /\ utf8_valid t = true /\ did s s' (frame.symlink t) [ESymlink nar_name t].
Proof.
  unfold stream_symlink, readlinkat. destruct (io_error path); [done|]. destruct (assoc name parent) as [[| |t| |]|] eqn:Ha; try done.
  destruct (utf8_valid t) eqn:Hu; [|done]. intros (s1 & H1 & _ & H2)%emit_bind. apply (hook_inl _ (ESymlink nar_name t)) in H2; [|done].
  exists t. split_and!; [done..|]. pose proof (did_trans _ _ _ _ _ _ _ H1 H2) as H3. by rewrite app_nil_r in H3.
Qed.

Lemma stream_entries_sound node (P : bytes -> NarNode -> Prop) names s u s' :
  (forall name s u s', node name s = inl (u, s') -> exists n evs, P name n /\ trace name n evs /\ did s s' (serialize_node n) evs) ->
  stream_entries node names s = inl (u, s') ->
  exists es evs, Forall2 (fun name e => fst e = name /\ utf8_valid name = true /\ P name (snd e)) names es /\ traces es evs /\
    did s s' (flat_map entry_bytes es) evs.
Proof.
  intros Hnode. revert s. induction names as [|name names IH]; intros s; cbn [stream_entries].
  { intros [= <- <-]. exists [], []. split_and!; [constructor|constructor|apply did_nil]. }
  destruct (utf8_valid name) eqn:Hu; [|done]. intros (s1 & H1 & _ & Hk)%emit_bind. apply dump_bind_inl in Hk as (u1 & s2 & (n & evs & HP & Ht & H2)%Hnode & Hk).
  apply emit_bind in Hk as (s3 & H3 & _ & (es & evs' & Hf & Hts & H4)%IH). exists ((name, n) :: es), (evs ++ evs'). split_and!.
  - by constructor.
  - by constructor.
  - eapply did_out; [exact (did_trans _ _ _ _ _ _ _ H1 (did_trans _ _ _ _ _ _ _ H2 (did_trans _ _ _ _ _ _ _ H3 H4)))| |done].
    cbn [flat_map]. unfold entry_bytes, entry_body, frame.entry_open, frame.entry_close. cbn [fst snd]. by rewrite <- !app_assoc.
Qed.

Lemma readdir_names entries :
  List.filter (fun n => negb (is_dot n)) (readdir entries) = List.filter (fun n => negb (is_dot n)) (List.map fst entries).
Proof. done. Qed.

Lemma stream_node_sound levels parent name path nar_name s u s' :
  stream_node levels parent name path nar_name s = inl (u, s') ->
  exists i n evs, assoc name parent = Some i /\ dumps levels i n /\ trace nar_name n evs /\ did s s' (serialize_node n) evs.
Proof.
  revert parent name path nar_name s u s'. induction levels as [|levels IH]; intros parent name path nar_name s u s'; cbn [stream_node]; [done|].
  intros (s1 & H1 & _ & Hk)%emit_bind. apply dump_bind_inl in Hk as (u1 & s2 & Hk & H3).
  assert (Hc : exists i n evs, assoc name parent = Some i /\ dumps (S levels) i n /\ trace nar_name n evs /\
    did s1 s2 (match n with Regular x c => frame.regular_header x (len c) ++ c ++ zero_pad (len c) | Symlink t => frame.symlink t
               | Directory es => frame.directory_open ++ flat_map entry_bytes es end) evs).
  { unfold openat in Hk. destruct (io_error path); [done|]. destruct (assoc name parent) as [[meta sl data|meta es|t| |]|] eqn:Ha; try done.
    - apply stream_regular_sound in Hk as (evs & Hl & Ht & Hd). eexists _, (Regular (is_executable meta) (take sl data)), evs. split_and!; [done|done|done|].
      unfold len. rewrite length_take. by replace (sl `min` length data)%nat with sl by lia.
    - apply emit_bind in Hk as (s3 & H4 & _ & Hk). apply dump_bind_inl in Hk as (u2 & s4 & H5 & Hk).
      apply (hook_inl _ (EEnter nar_name)) in H5; [|done]. rewrite readdir_names in Hk. destruct (Nat.leb_spec MAX_DIRECTORY_ENTRIES
        (length (List.filter (fun n => negb (is_dot n)) (List.map fst es)))) as [|Hl]; [done|]. apply dump_bind_inl in Hk as (u3 & s5 & Hk & H7).
      apply (hook_inl _ ELeave) in H7; [|done].
      apply (stream_entries_sound _ (fun name n => exists j, assoc name es = Some j /\ dumps levels j n)) in Hk as (ns & evs & Hf & Ht & H6).
      + eexists _, (Directory ns), _. split_and!; [done| |by apply trace_directory|].
        * split; done.
        * eapply did_out; [exact (did_trans _ _ _ _ _ _ _ (did_trans _ _ _ _ _ _ _ H4 H5) (did_trans _ _ _ _ _ _ _ H6 H7))| |done].
          by rewrite !app_nil_r.
      + intros name' t u' t' Hn. apply IH in Hn as (i & n & evs & Hi & Hd & Ht & Hdid). exists n, evs. split_and!; [by exists i|done|done].
    - apply stream_symlink_sound in Hk as (t' & Ha' & Hu & Hd). rewrite Ha in Ha'. injection Ha' as <-. eexists _, (Symlink t), _.
      split_and!; [done|done|constructor|done]. }
  destruct Hc as (i & n & evs & Ha & Hd & Ht & H2). exists i, n, evs. split_and!; [done..|].
  assert (did s2 s' frame.node_close []) as H4.
  { unfold emit in H3. injection H3 as <- <-. exists [frame.node_close]. cbn. by rewrite app_nil_r. }
  eapply did_out; [exact (did_trans _ _ _ _ _ _ _ H1 (did_trans _ _ _ _ _ _ _ H2 H4))| |by rewrite app_nil_r].
  rewrite serialize_unfold. unfold frame.node_open, frame.node_close, frame.regular_header, frame.directory_open, frame.symlink, node_body, write_bytes, len.
  destruct n; by rewrite <- !app_assoc.
Qed.

Lemma bind_live {A B} (m : Dump A) (k : A -> Dump B) s a s1 : m s = inl (a, s1) -> (x ← m; k x) s = k a s1.
Proof. intros H. unfold mbind, Dump_bind. by rewrite H. Qed.

Lemma emit_live {B} b (k : Dump B) s : (_ ← emit b; k) s = k (write_all b (fst s), snd s).
Proof. done. Qed.

Lemma hook_live {B} f ev (k : Dump B) s o :
  (forall o, f o = callback ev o) -> apply_event ev (snd s) = Some o -> (_ ← hook f; k) s = k (fst s, o).
Proof. intros Hf He%apply_event_Some. unfold mbind, Dump_bind, hook. by rewrite Hf, He. Qed.

Lemma hook_last_live f ev (s : CountingWriter W * O) o : (forall o, f o = callback ev o) -> apply_event ev (snd s) = Some o -> hook f s = inl (tt, (fst s, o)).
Proof. intros Hf He%apply_event_Some. unfold hook. by rewrite Hf, He. Qed.

Lemma run_events_head e evs o : is_Some (run_events (e :: evs) o) -> exists o', apply_event e o = Some o' /\ is_Some (run_events evs o').
Proof. cbn [run_events]. intros [o' Ho]. destruct (apply_event e o) as [o1|]; [|done]. eauto. Qed.

Section Live.
Context (Hq : quiet K).

Lemma stream_contents_live fuel path off rest remaining s :
  0 <= remaining <= len rest -> (length rest <= fuel)%nat ->
  (forall ps, Forall piece_ok ps -> concat ps = take (Z.to_nat remaining) rest -> is_Some (run_events (List.map EData ps ++ [EEnd]) (snd s))) ->
  exists s', stream_contents fuel path off rest remaining s = inl (tt, s').
Proof.
  revert off rest remaining s. induction fuel as [|fuel IH]; intros off rest remaining s Hr Hf Ho; cbn [stream_contents];
    (destruct (Z.ltb_spec 0 remaining) as [Hn|Hn]; [|eexists; reflexivity]).
  - unfold len in Hr. lia.
  - destruct (read_some_live path off rest (Z.min STREAM_CHUNK remaining) Hq) as [b Hb]. rewrite Hb.
    apply read_some_spec in Hb as (t & -> & Hl & He); [|unfold STREAM_CHUNK; lia].
    destruct b as [|x p]; [specialize (He eq_refl); rewrite He in Hr; unfold len in Hr; cbn in Hr; lia|]. rewrite len_app in Hr.
    assert (Htake : forall r, (Z.to_nat r = length (x :: p) + Z.to_nat (r - len (x :: p)))%nat -> take (Z.to_nat r) ((x :: p) ++ t) = (x :: p) ++ take (Z.to_nat (r - len (x :: p))) t).
    { intros r ->. by rewrite take_app_add. }
    specialize (Htake remaining ltac:(unfold len in *; lia)). rewrite Htake in Ho.
    assert (Hpo : piece_ok (x :: p)) by (split; [done|lia]).
    destruct (singles_ok (take (Z.to_nat (remaining - len (x :: p))) t)) as [Hs1 Hs2].
    destruct (run_events_head _ _ _ (Ho ((x :: p) :: _) (Forall_cons_2 _ _ _ Hpo Hs1) (f_equal (app (x :: p)) Hs2))) as (o1 & Ho1 & _).
    rewrite emit_live, (hook_live _ (EData (x :: p)) _ _ o1) by done. rewrite drop_app_length. apply IH.
    + lia.
    + rewrite length_app in Hf. cbn [length] in Hf. lia.
    + intros ps Hps Hc. cbn [fst snd]. specialize (Ho ((x :: p) :: ps) (Forall_cons_2 _ _ _ Hpo Hps)). cbn [concat List.map app run_events] in Ho.
      rewrite Ho1 in Ho. apply Ho. by rewrite Hc.
Qed.

Context `{!ObserverTotal O}.

Lemma stream_regular_live meta stat_len data path nar_name s :
  (stat_len <= length data)%nat -> exists s', stream_regular meta stat_len data path nar_name s = inl (tt, s').
Proof.
  intros Hl. unfold stream_regular. rewrite emit_live. set (s1 := (write_all _ _, _)).
  assert (Hall : forall ps, Forall piece_ok ps -> concat ps = take stat_len data ->
    is_Some (run_events (EBegin nar_name (is_executable meta) (Z.of_nat stat_len) :: List.map EData ps ++ [EEnd]) (snd s1))).
  { intros ps Hps Hc. pose proof (observe _ _ _ (snd s1) (trace_regular nar_name (is_executable meta) ps Hps)) as Ho.
    rewrite Hc in Ho. unfold len in Ho. rewrite length_take in Ho. by replace (stat_len `min` length data)%nat with stat_len in Ho by lia. }
  destruct (singles_ok (take stat_len data)) as [Hs1 Hs2]. destruct (run_events_head _ _ _ (Hall _ Hs1 Hs2)) as (o1 & Ho1 & _).
  rewrite (hook_live _ (EBegin nar_name (is_executable meta) (Z.of_nat stat_len)) _ _ o1) by done.
  destruct (stream_contents_live (length data) path 0 data (Z.of_nat stat_len) (fst s1, o1)) as [s2 H2].
  { unfold len. lia. }
  { done. }
  { intros ps Hps Hc. rewrite Nat2Z.id in Hc. specialize (Hall ps Hps Hc). cbn [run_events] in Hall. by rewrite Ho1 in Hall. }
  rewrite (bind_live _ _ _ _ _ H2), emit_live. apply stream_contents_sound in H2 as (ps & Hps & Hc & (t & Hd) & (ws & _ & _ & Hev)); [|lia]. cbn [snd] in Hev.
  assert (Hc' : concat ps = take stat_len data) by (rewrite Hd; unfold len in Hc; replace stat_len with (length (concat ps)) by lia; by rewrite take_app_length).
  specialize (Hall ps Hps Hc'). cbn [run_events] in Hall. rewrite Ho1, run_events_app, Hev in Hall. destruct (run_events_head _ _ _ Hall) as (o3 & Ho3 & _).
  rewrite (hook_last_live _ EEnd _ o3) by done. by eexists.
Qed.

Lemma stream_entries_live (node : bytes -> Dump unit) names (P : bytes -> Prop) s :
  (forall name s, P name -> exists s', node name s = inl (tt, s')) -> Forall (fun name => utf8_valid name = true /\ P name) names ->
  exists s', stream_entries node names s = inl (tt, s').
Proof.
  intros Hnode Hf. revert s. induction Hf as [|name names [Hu HP] _ IH]; intros s; cbn [stream_entries]; [by eexists|].
  rewrite Hu, emit_live. destruct (Hnode name (write_all (frame.entry_open name) (fst s), snd s) HP) as [s1 H1].
  rewrite (bind_live _ _ _ _ _ H1), emit_live. destruct (IH (write_all frame.entry_close (fst s1), snd s1)) as [s2 H2]. by exists s2.
Qed.

Lemma stream_node_live levels parent name path nar_name i n s :
  assoc name parent = Some i -> dumps levels i n -> exists s', stream_node levels parent name path nar_name s = inl (tt, s').
Proof.
  revert parent name path nar_name i n s. induction levels as [|levels IH]; intros parent name path nar_name i n s Ha Hd; [done|].
  cbn [stream_node]. rewrite emit_live. set (s1 := (write_all _ _, _)).
  assert (Hm : forall m : Dump unit, (exists s2, m s1 = inl (tt, s2)) -> exists s', (_ ← m; emit frame.node_close) s1 = inl (tt, s')).
  { intros m [s2 H2]. rewrite (bind_live _ _ _ _ _ H2). by eexists. }
  apply Hm. clear Hm. unfold openat. rewrite (proj1 (Hq path)), Ha. destruct i as [meta sl data|meta es|t| |], n as [x c|ns|t']; cbn [dumps] in Hd; try done.
  - apply stream_regular_live. tauto.
  - destruct Hd as [Hl Hf]. rewrite readdir_names. set (names := List.filter _ _) in *. rewrite emit_live. set (s2 := (write_all _ _, _)).
    destruct (trace_exists nar_name (Directory ns)) as [evs0 Ht0]. inversion Ht0 as [| |? ? evs1 _]; subst.
    destruct (run_events_head _ _ _ (observe _ _ _ (snd s2) Ht0)) as (o3 & Ho3 & _).
    rewrite (hook_live _ (EEnter nar_name) _ _ o3) by done. destruct (Nat.leb_spec MAX_DIRECTORY_ENTRIES (length names)); [lia|].
    destruct (stream_entries_live (fun n => stream_node levels es n (path ++ [n]) n) (merge_sort bytes_le names)
      (fun name => exists j n, assoc name es = Some j /\ dumps levels j n) (fst s2, o3)) as [s4 H4].
    { intros name' s' (j & n' & Hj & Hn'). by eapply IH. }
    { apply Forall_forall. intros x Hx. apply list_elem_of_lookup in Hx as [k Hk]. destruct (Forall2_lookup_l _ _ _ _ _ Hf Hk) as (e & _ & _ & Hu & j & Hj & Hn).
      split; [done|]. by exists j, (snd e). }
    rewrite (bind_live _ _ _ _ _ H4).
    apply (stream_entries_sound _ (fun name n => exists j, assoc name es = Some j /\ dumps levels j n)) in H4 as (ns' & evs & Hf' & Ht & (ws & _ & _ & Hev)).
    + pose proof (observe _ _ _ (snd s2) (trace_directory nar_name _ _ Ht)) as Hall. cbn [run_events] in Hall. rewrite Ho3, run_events_app in Hall.
      cbn [snd] in Hev. rewrite Hev in Hall. destruct (run_events_head _ _ _ Hall) as (o5 & Ho5 & _). rewrite (hook_last_live _ ELeave _ o5) by done. by eexists.
    + intros name' t u' t' Hn. apply stream_node_sound in Hn as (j & n & evs' & Hj & Hd' & Ht & Hdid). exists n, evs'. split_and!; [by exists j|done|done].
  - destruct Hd as [-> Hu]. unfold stream_symlink, readlinkat. rewrite (proj1 (Hq path)), Ha, Hu, emit_live.
    destruct (run_events_head _ _ _ (observe _ _ _ (snd s1) (trace_symlink nar_name t))) as (o2 & Ho2 & _).
    rewrite (hook_last_live _ (ESymlink nar_name t) _ o2) by done. by eexists.
Qed.
End Live.
End DumpSpec.

(** ** What a panic needs *)

(** An observer that keeps an invariant is safe: it says when a callback may run,
    in a file or not and in how many entered directories, and that the callback
    does not panic then. *)
Class ObserverSafe (O : Type) `{WalkObserver O} (Inv : bool -> nat -> O -> Prop) : Prop := {
  safe_enter d name o : Inv false d o -> match enter_dir name o with Done o => Inv false (S d) o | Failed => True | Panicked => False end;
  safe_leave d o : Inv false (S d) o -> match leave_dir o with Done o => Inv false d o | Failed => True | Panicked => False end;
  safe_symlink d name t o : Inv false d o -> match symlink name t o with Done o => Inv false d o | Failed => True | Panicked => False end;
  safe_begin d name x n o : Inv false d o -> match file_begin name x n o with Done o => Inv true d o | Failed => True | Panicked => False end;
  safe_data d b o : Inv true d o -> match file_data b o with Done o => Inv true d o | Failed => True | Panicked => False end;
  safe_end d o : Inv true d o -> match file_end o with Done o => Inv false d o | Failed => True | Panicked => False end;
}.

Create HintDb walk_safe.

Section Safe.
Context `{K : Kernel} {W O : Type} `{HW : Write W} `{HO : WalkObserver O} {Inv : bool -> nat -> O -> Prop} `{!ObserverSafe O Inv}.
#[local] Abbreviation Dump := (@Dump W O).
#[local] Existing Instances Dump_ret Dump_bind.

(** A step from an observer of [P] does not panic, and ends in one of [Q]. *)
Definition safe {A} (P : O -> Prop) (m : Dump A) (Q : O -> Prop) : Prop :=
  forall s, P (snd s) -> match m s with inl (_, s') => Q (snd s') | inr (Err _) => True | inr Panic => False end.

Lemma safe_bind {A B} (P Q R : O -> Prop) (m : Dump A) (k : A -> Dump B) : safe P m Q -> (forall a, safe Q (k a) R) -> safe P (x ← m; k x) R.
Proof. intros Hm Hk s Hs. unfold mbind, Dump_bind. specialize (Hm s Hs). destruct (m s) as [[a s']|]; [|done]. by apply Hk. Qed.

Lemma safe_ret {A} (P : O -> Prop) (a : A) : safe P (mret a) P.
Proof. by intros s. Qed.

Lemma safe_emit (P : O -> Prop) b : safe P (emit b) P.
Proof. by intros s. Qed.

Lemma safe_fails {A} (P Q : O -> Prop) e : safe P (fails (A := A) e) Q.
Proof. by intros s. Qed.

Lemma safe_hook (P Q : O -> Prop) f :
  (forall o, P o -> match f o with Done o => Q o | Failed => True | Panicked => False end) -> safe P (hook f) Q.
Proof. intros Hf s Hs. unfold hook. specialize (Hf _ Hs). by destruct (f (snd s)). Qed.

#[local] Ltac safe_step :=
  lazymatch goal with
  | |- safe _ (_ ← _; _) _ => eapply safe_bind; [|intros ?]
  | |- safe _ (mret _) _ => apply safe_ret
  | |- safe _ (emit _) _ => apply safe_emit
  | |- safe _ (fails _) _ => apply safe_fails
  | |- safe _ (hook (enter_dir _)) _ => apply safe_hook, safe_enter
  | |- safe _ (hook leave_dir) _ => apply safe_hook, safe_leave
  | |- safe _ (hook (symlink _ _)) _ => apply safe_hook, safe_symlink
  | |- safe _ (hook (file_begin _ _ _)) _ => apply safe_hook, safe_begin
  | |- safe _ (hook (file_data _)) _ => apply safe_hook, safe_data
  | |- safe _ (hook file_end) _ => apply safe_hook, safe_end
  | |- safe _ (match ?x with _ => _ end) _ => destruct x
  | _ => solve [eauto with walk_safe]
  end.

Lemma stream_contents_safe fuel path off rest remaining d : safe (Inv true d) (stream_contents fuel path off rest remaining) (Inv true d).
Proof. revert off rest remaining. induction fuel as [|fuel IH]; intros off rest remaining; cbn [stream_contents]; repeat safe_step. Qed.
#[local] Hint Resolve stream_contents_safe : walk_safe.

Lemma stream_regular_safe meta stat_len data path nar_name d :
  safe (Inv false d) (stream_regular meta stat_len data path nar_name) (Inv false d).
Proof. unfold stream_regular. repeat safe_step. Qed.

Lemma stream_symlink_safe parent name path nar_name d : safe (Inv false d) (stream_symlink parent name path nar_name) (Inv false d).
Proof. unfold stream_symlink. repeat safe_step. Qed.

Lemma stream_entries_safe (node : bytes -> Dump unit) names (P : O -> Prop) :
  (forall name, safe P (node name) P) -> safe P (stream_entries node names) P.
Proof. intros Hn. induction names as [|name names IH]; cbn [stream_entries]; repeat safe_step. Qed.
#[local] Hint Resolve stream_regular_safe stream_symlink_safe stream_entries_safe : walk_safe.

(** Whatever the file system holds and the kernel answers, the calls of a walk
    never bring a safe observer to a panic. *)
Lemma stream_node_safe levels parent name path nar_name d : safe (Inv false d) (stream_node levels parent name path nar_name) (Inv false d).
Proof.
  revert parent name path nar_name d. induction levels as [|levels IH]; intros parent name path nar_name d; cbn [stream_node]; cbv zeta;
    repeat safe_step.
Qed.

Lemma dump_observed_safe parent name (w : W) (o : O) : Inv false 0 o -> dump_path_observed parent name w o <> inr Panic.
Proof.
  intros Ho. unfold dump_path_observed. pose proof (safe_bind _ _ _ _ _ (safe_emit (Inv false 0) frame.magic)
    (fun _ => stream_node_safe nar_levels parent name [] [] 0) (mkCountingWriter w 0, o) Ho) as Hs.
  cbv beta in Hs. revert Hs. set (m := _ ← _; _). by destruct (m _) as [[u [c o']]|[e|]].
Qed.
End Safe.

Section DumpPath.
Context `{K : Kernel} {W O : Type} `{HW : Write W} `{HO : WalkObserver O}.

Lemma writes_counting ws (c : CountingWriter W) :
  inner (writes ws c) = fold_left (fun w b => write_all b w) ws (inner c) /\ written (writes ws c) = written c + len (concat ws).
Proof.
  revert c. induction ws as [|b ws IH]; intros c; cbn [writes fold_left concat]; [unfold len; cbn; split; [done|lia]|].
  destruct (IH (write_all b c)) as [H1 H2]. split; [exact H1|]. fold (writes ws (write_all b c)). rewrite H2, len_app. cbn. unfold len. lia.
Qed.

Lemma dump_observed_sound parent name (w : W) (o : O) size w' o' :
  dump_path_observed parent name w o = inl (size, w', o') ->
  exists i n evs ws, assoc name parent = Some i /\ dumps nar_levels i n /\ trace [] n evs /\ run_events evs o = Some o' /\
    concat ws = serialize n /\ w' = fold_left (fun w b => write_all b w) ws w /\ size = len (serialize n).
Proof.
  unfold dump_path_observed. set (m := _ ← emit frame.magic; _). destruct (m _) as [[u [c o1]]|] eqn:E; [|done]. intros [= <- <- <-].
  unfold m in E. apply emit_bind in E as (s1 & H1 & _ & Hk). apply stream_node_sound in Hk as (i & n & evs & Ha & Hd & Ht & H2).
  destruct (did_trans _ _ _ _ _ _ _ H1 H2) as (ws & Hws & Hc & Hev). cbn [fst snd] in *. exists i, n, evs, ws.
  destruct (writes_counting ws (mkCountingWriter w 0)) as [Hi Hw]. rewrite <- Hc in Hi, Hw. split_and!; [done..|].
  rewrite Hw, Hws. cbn [written]. rewrite Z.add_0_l. done.
Qed.

Lemma dump_observed_live parent name i n (w : W) (o : O) :
  quiet K -> ObserverTotal O -> assoc name parent = Some i -> dumps nar_levels i n ->
  exists size w' o', dump_path_observed parent name w o = inl (size, w', o').
Proof.
  intros Hq Ho Ha Hd. unfold dump_path_observed. rewrite emit_live.
  destruct (stream_node_live Hq nar_levels parent name [] [] i n (write_all frame.magic (fst (mkCountingWriter w 0, o)), snd (mkCountingWriter w 0, o)) Ha Hd)
    as [[c o'] ->]. by eexists _, _, _.
Qed.
End DumpPath.

(** An object has one archive. *)
Lemma dumps_det levels i n n' : dumps levels i n -> dumps levels i n' -> n = n'.
Proof.
  revert i n n'. induction levels as [|levels IH]; intros i n n'; cbn [dumps]; [done|].
  destruct i as [meta sl data|meta es|t| |], n as [x c|ns|t1], n' as [x' c'|ns'|t2]; try done.
  - intros (-> & _ & ->) (-> & _ & ->). done.
  - intros [_ H1] [_ H2]. f_equal. revert ns' H2. induction H1 as [|name [m n] names ns (E & _ & j & Hj & Hn) _ IHs]; intros ns' H2; inversion H2 as [|? [m' n'] ? ? (E' & _ & j' & Hj' & Hn') Ht]; subst; [done|]. cbn [fst snd] in *. subst. rewrite Hj in Hj'. injection Hj' as <-.
    f_equal; [|by apply IHs]. f_equal. by eapply IH.
  - intros [-> _] [-> _]. done.
Qed.

Section RoundTrip.
Context `{K : Kernel}.

Lemma sorted_merge_sort names : strictly_sorted names -> merge_sort bytes_le names = names.
Proof.
  intros Hs. apply (StronglySorted_unique_strong bytes_le).
  - intros a b _ _ H1 H2. unfold bytes_le in *. destruct (bytes_ltb_total a b) as [|[|]]; congruence.
  - apply (StronglySorted_merge_sort bytes_le).
  - unfold strictly_sorted in Hs. induction Hs as [|a l _ IH Ha]; constructor; [done|]. eapply Forall_impl; [exact Ha|]. intros b Hb. unfold bytes_le.
    destruct (bytes_ltb b a) eqn:E; [|done]. pose proof (bytes_ltb_trans _ _ _ Hb E) as Hx. by rewrite bytes_ltb_irrefl in Hx.
  - apply merge_sort_Permutation.
Qed.

Lemma ls_name_not_dot name : ls_name_wf name -> is_dot name = false.
Proof.
  intros [_ Hn]. unfold entry_name_ok in Hn. rewrite negb_true_iff, !orb_false_iff in Hn. unfold is_dot. by destruct Hn as [[[[_ ->] ->] _] _].
Qed.

Lemma name_not_dot name : name_wf name -> is_dot name = false.
Proof. intros (Hl & _ & Hn). by apply ls_name_not_dot. Qed.

Lemma restored_executable (x : bool) t : is_executable (mkMeta (if x then 493 else new_mode 438) t) = x.
Proof.
  unfold is_executable, new_mode. cbn [mt_mode]. destruct x; [done|]. rewrite <- Z.land_assoc, (Z.land_comm (Z.lnot _)), Z.land_assoc. done.
Qed.

Lemma restored_dumps levels n : restorable levels n -> dumps levels (restored n) n.
Proof.
  revert n. induction levels as [|levels IH]; intros n; [done|]. rewrite restorable_S. destruct n as [x c|es|t]; cbn [restored].
  - intros _. split; [by rewrite restored_executable|]. split; [done|]. by rewrite take_ge.
  - intros (Hl & Hs & Hf). cbn [dumps].
    assert (Hfst : List.map fst (List.map (fun e : NarEntry => (fst e, restored (snd e))) es) = List.map fst es) by (by rewrite List.map_map). rewrite Hfst.
    assert (List.filter (fun n => negb (is_dot n)) (List.map fst es) = List.map fst es) as ->.
    { apply filter_all. apply Forall_map. eapply Forall_impl; [exact Hf|]. intros e [He _]. cbn. by rewrite name_not_dot. }
    rewrite length_map. split; [done|]. pose proof (names_after_NoDup _ _ Hs) as Hd. apply names_after_sorted in Hs as [Hs _]. rewrite sorted_merge_sort by done.
    apply Forall2_fmap_l. apply Forall2_same_length_lookup_2; [done|]. intros k e e' He He'. rewrite He in He'. injection He' as <-.
    apply list_elem_of_lookup_2 in He. rewrite Forall_forall in Hf. destruct (Hf e He) as [(_ & Hu & _) Hr]. split; [done|]. split; [done|].
    exists (restored (snd e)). split; [|by apply IH]. apply assoc_Some; [by rewrite Hfst|]. apply list_elem_of_In, in_map_iff. exists e. by rewrite <- list_elem_of_In.
  - intros [Ht _]. split; [done|]. unfold token_ok in Ht. by apply andb_true_iff in Ht as [_ ?].
Qed.
End RoundTrip.

(** ** The theorems *)

Lemma vec_writes ws (w : bytes) : fold_left (fun w b => write_all b w) ws w = w ++ concat ws.
Proof. revert w. induction ws as [|b ws IH]; intros w; cbn [fold_left concat]; [by rewrite app_nil_r|]. rewrite IH. cbn. by rewrite app_assoc. Qed.

Section Streaming.
Context `{K : Kernel}.

Lemma dump_streaming_sound parent name (out : bytes) size out' :
  dump_path_streaming parent name out = inl (size, out') ->
  exists i n, assoc name parent = Some i /\ dumps nar_levels i n /\ out' = out ++ serialize n /\ size = len (serialize n).
Proof.
  unfold dump_path_streaming. destruct (dump_path_observed parent name out tt) as [[[s w] []]|] eqn:E; [|done]. intros [= <- <-].
  apply dump_observed_sound in E as (i & n & evs & ws & Ha & Hd & _ & _ & Hc & -> & ->). exists i, n. split_and!; [done..| |done].
  by rewrite vec_writes, Hc.
Qed.

Lemma dump_streaming_live parent name i n (out : bytes) :
  quiet K -> assoc name parent = Some i -> dumps nar_levels i n -> dump_path_streaming parent name out = inl (len (serialize n), out ++ serialize n).
Proof.
  intros Hq Ha Hd. destruct (dump_observed_live parent name i n out tt Hq unit_observer_total Ha Hd) as (size & w & o & E).
  assert (Ed : dump_path_streaming parent name out = inl (size, w)) by (unfold dump_path_streaming; by rewrite E). rewrite Ed.
  apply dump_streaming_sound in Ed as (i' & n' & Ha' & Hd' & -> & ->). rewrite Ha in Ha'. injection Ha' as <-. by rewrite (dumps_det _ _ _ _ Hd Hd').
Qed.

Lemma assoc_single name i : assoc name [(name, i)] = Some i.
Proof. cbn [assoc]. unfold bytes_eqb. by rewrite bool_decide_eq_true_2. Qed.
End Streaming.

(** dumping is exact.  Whatever the kernel does, a dump that succeeds wrote
    exactly the serialization of the object's archive: the entries of each
    directory once, in byte order, whatever the order in which they are listed,
    the first [fstat]-length bytes of each file however the reads were split, and
    it returns the number of bytes.  When no system call fails, it succeeds for
    exactly the objects that have an archive: no special file, no file that
    shrank, depth at most 256, fewer than 1,048,576 entries per directory, and
    names and targets in UTF-8. *)
Theorem dump_exact `{K : Kernel} parent name out :
  (forall size out', dump_path_streaming parent name out = inl (size, out') ->
     exists i n, assoc name parent = Some i /\ dumps nar_levels i n /\ out' = out ++ serialize n /\ size = len (serialize n)) /\
  (quiet K -> (exists r, dump_path_streaming parent name out = inl r) <-> exists i n, assoc name parent = Some i /\ dumps nar_levels i n).
Proof.
  split; [apply dump_streaming_sound|]. intros Hq. split.
  - intros [[size out'] Hd]. apply dump_streaming_sound in Hd as (i & n & Ha & Hd & _). by exists i, n.
  - intros (i & n & Ha & Hd). eexists. by apply (dump_streaming_live parent name i n).
Qed.

(** C19: restoring and dumping are inverse.  If restoring [s] succeeds, whatever
    the kernel does, then [s] starts with the serialization of a tree, the object
    created is that tree with canonical modes and the canonical modification time
    on every file and directory, nothing behind the tree was read, and dumping the
    object gives these bytes back.  And when no system call fails and the name is
    free, every archive that satisfies the limits is restored. *)
Theorem fs_roundtrip `{K : Kernel} parent name s :
  bytes_ok s ->
  (forall i r, restore_path_streaming parent name (mkReader s 0) = inl (i, r) ->
     exists n, restorable nar_levels n /\ s = serialize n ++ rest r /\ i = restored n /\
       forall K', quiet K' -> dump_path_streaming (H := K') [(name, i)] name [] = inl (len (serialize n), serialize n)) /\
  (quiet K -> assoc name parent = None -> forall n t, restorable nar_levels n -> s = serialize n ++ t ->
     restore_path_streaming parent name (mkReader s 0) = inl (restored n, mkReader t (len (serialize n)))).
Proof.
  intros Hs. assert (Hr : reader_ok (mkReader s 0)) by done. unfold restore_path_streaming. split.
  - intros i r (t & r1 & Ht & Ha & Hr1 & Hk)%string_bind; [|done]. unfold bytes_eqb in Hk. case_bool_decide as Hm; [|done]. subst t. cbn [negb] in Hk.
    apply restore_node_sound in Hk as (n & Hn & -> & He); [|done]. exists n. destruct (adv_trans _ _ _ _ _ Ha He) as [Hsn _].
    split_and!; [done..|]. intros K' Hq. apply (dump_streaming_live (K := K') _ _ (@restored K n) n []); [done|apply assoc_single|by apply (restored_dumps (K := K))].
  - intros Hq Hp n t Hn ->. apply string_bind; [done|]. set (r' := mkReader t _).
    assert (Ha : adv (mkReader (serialize n ++ t) 0) (serialize n) r') by done. unfold serialize in Ha at 2. adv_next Ha Hr r1 H1 Hr1.
    exists NAR_MAGIC, r1. split_and!; [done..|]. unfold bytes_eqb. rewrite bool_decide_eq_true_2 by done. by apply restore_node_live.
Qed.

(** ** A concrete file system *)

(** Reads return three bytes at a time. *)
Definition short_kernel : Kernel := {| io_error _ := false; read_limit _ _ := Some 3%nat; umask := 18 |}.

Lemma short_kernel_quiet : quiet short_kernel.
Proof. intros path. split; [done|]. by eexists. Qed.

(** A directory listed out of order. *)
Definition example_object : Inode :=
  IDir (mkMeta 493 None)
    [(str "link", ISymlink (str "bin/sh")); (str "bin", IDir (mkMeta 493 None) [(str "sh", IFile (mkMeta 493 None) 9 (str "#!/bin/sh"))])].

Definition example_object_nar : NarNode :=
  Directory [(str "bin", Directory [(str "sh", Regular true (str "#!/bin/sh"))]); (str "link", Symlink (str "bin/sh"))].

Example dump_example : dump_path_streaming (H := short_kernel) [(str "out", example_object)] (str "out") [] =
  inl (len (serialize example_object_nar), serialize example_object_nar).
Proof. vm_compute. reflexivity. Qed.

Lemma example_object_restorable : restorable nar_levels example_object_nar.
Proof.
  change nar_levels with (S (S (S 254))). unfold example_object_nar. rewrite restorable_S. cbn [length List.map fst snd].
  split; [by apply lt_max_dir|split; [done|]].
  apply Forall_cons. split; [|apply Forall_cons; split; [|constructor]]; cbn [fst snd]; (split; [done|]);
    rewrite restorable_S; [|done].
  cbn [length List.map fst snd]. split; [by apply lt_max_dir|split; [done|]]. apply Forall_cons. split; [|constructor]. done.
Qed.

Lemma fs_roundtrip_witness :
  restore_path_streaming (K := short_kernel) [] (str "out") (mkReader (serialize example_object_nar ++ [7]) 0) =
    inl (restored (H := short_kernel) example_object_nar, mkReader [7] (len (serialize example_object_nar))).
Proof.
  apply (fs_roundtrip (K := short_kernel) [] (str "out") (serialize example_object_nar ++ [7])).
  - apply (bool_decide_unpack _). by vm_compute.
  - exact short_kernel_quiet.
  - done.
  - exact example_object_restorable.
  - done.
Defined.

Lemma dump_exact_witness :
  exists i n, assoc (str "out") [(str "out", example_object)] = Some i /\ dumps nar_levels i n /\
    serialize example_object_nar = [] ++ serialize n /\ len (serialize example_object_nar) = len (serialize n).
Proof. exact (proj1 (dump_exact (K := short_kernel) [(str "out", example_object)] (str "out") []) _ _ dump_example). Defined.
