(* ===== verification/NixAterm.v ===== *)
(** * Nix formats: derivations and their ATerm text

    [src/rio-nix/src/derivation/{mod,aterm}.rs]: the derivation record, its
    predicates, the parser and the serializers, with and without the input
    rewrites of modular hashing.

    A [BTreeMap] is the list of its pairs in key order and a [BTreeSet] the list
    of its elements in order.  The parser walks bytes: every character it tests
    for is ASCII, and no byte of a longer character equals one. *)

From Stdlib Require Import Sorted.
From S2P Require Import Prelude NixBytes NixBase32 NixStorePath NixNar.

#[local] Open Scope Z_scope.

(** ** Ordered maps and sets *)

Fixpoint btree_insert {V} (k : bytes) (v : V) (m : list (bytes * V)) : list (bytes * V) :=
  match m with
  | [] => [(k, v)]
  | (k', v') :: t =>
      if bytes_ltb k k' then (k, v) :: m
      else if bytes_eqb k k' then (k, v) :: t
      else (k', v') :: btree_insert k v t
  end.

Fixpoint btree_get {V} (k : bytes) (m : list (bytes * V)) : option V :=
  match m with
  | [] => None
  | (k', v') :: t => if bytes_eqb k k' then Some v' else btree_get k t
  end.

(** [collect]: a later pair replaces an earlier one. *)
Definition btree_collect {V} (l : list (bytes * V)) : list (bytes * V) :=
  fold_left (fun m kv => btree_insert (fst kv) (snd kv) m) l [].

Definition set_collect (l : list bytes) : list bytes := dedup (sort_bytes l).

(** ** Derivations *)

Record DerivationOutput : Type := mkDerivationOutput {
  do_name : bytes;
  do_path : bytes;
  do_hash_algo : bytes;
  do_hash : bytes;
}.

Record Derivation : Type := mkDerivation {
  drv_outputs : list DerivationOutput;
  drv_input_drvs : list (bytes * list bytes);
  drv_input_srcs : list bytes;
  drv_platform : bytes;
  drv_builder : bytes;
  drv_args : list bytes;
  drv_env : list (bytes * bytes);
}.

Record BasicDerivation : Type := mkBasicDerivation {
  bd_outputs : list DerivationOutput;
  bd_input_srcs : list bytes;
  bd_platform : bytes;
  bd_builder : bytes;
  bd_args : list bytes;
  bd_env : list (bytes * bytes);
}.

Module DerivationError.
Inductive DerivationError : Type :=
| UnexpectedEof
| Expected (expected got : bytes)
| InvalidEscape (c : Z)
| ExpectedStringStart
| EmptyOutputName (i : nat)
| NoOutputs
| CollectionTooLarge (n : nat)
| InputNotFound (s : bytes)
| CycleDetected (s : bytes)
| RecursionLimitExceeded (s : bytes)
| NarExtract (e : NarError)
| InvalidUtf8
| InvalidOutputPath (e : StorePathError).
End DerivationError.
Abbreviation DerivationError := DerivationError.DerivationError.

Definition MAX_ATERM_LIST_ITEMS : nat := Z.to_nat 1048576.

Definition is_nil (s : bytes) : bool := bytes_eqb s [].

(** [DerivationOutput::new]. *)
Definition output_new (name path hash_algo hash : bytes) : DerivationOutput + DerivationError :=
  if is_nil name then inr (DerivationError.EmptyOutputName 0)
  else inl (mkDerivationOutput name path hash_algo hash).

(** The default methods of [DerivationLike], on [outputs()]. *)
Definition is_fixed_output (outs : list DerivationOutput) : bool :=
  match outs with
  | [o] => bytes_eqb (do_name o) (str "out") && negb (is_nil (do_hash_algo o)) && negb (is_nil (do_hash o))
  | _ => false
  end.

Definition has_ca_floating_outputs (outs : list DerivationOutput) : bool :=
  existsb (fun o => negb (is_nil (do_hash_algo o)) && is_nil (do_hash o)) outs.

Definition is_content_addressed (outs : list DerivationOutput) : bool :=
  is_fixed_output outs || has_ca_floating_outputs outs.

Definition static_outputs (outs : list DerivationOutput) : list DerivationOutput :=
  List.filter (fun o => negb (is_nil (do_path o))) outs.

Definition has_unknown_output_paths (outs : list DerivationOutput) : bool :=
  existsb (fun o => is_nil (do_path o)) outs.

(** [BasicDerivation::new]. *)
Definition basic_new outputs input_srcs platform builder args env : BasicDerivation + DerivationError :=
  match outputs with
  | [] => inr DerivationError.NoOutputs
  | _ => inl (mkBasicDerivation outputs input_srcs platform builder args env)
  end.

(** [to_basic]; [None] is the panic of its [expect]. *)
Definition to_basic (d : Derivation) : option BasicDerivation :=
  match basic_new (drv_outputs d) (drv_input_srcs d) (drv_platform d) (drv_builder d) (drv_args d) (drv_env d) with
  | inl b => Some b
  | inr _ => None
  end.

Definition from_resolved (d : Derivation) (extra_srcs : list bytes) : option BasicDerivation :=
  b ← to_basic d;
  Some (mkBasicDerivation (bd_outputs b) (set_collect (bd_input_srcs b ++ extra_srcs)) (bd_platform b)
          (bd_builder b) (bd_args b) (bd_env b)).

(** ** Serialization *)

Definition escape_char (c : Z) : bytes :=
  if c =? 92 then [92; 92] else if c =? 34 then [92; 34] else if c =? 10 then [92; 110]
  else if c =? 13 then [92; 114] else if c =? 9 then [92; 116] else [c].

Definition write_aterm_string (s : bytes) : bytes := [34] ++ flat_map escape_char s ++ [34].

(** Items in brackets, separated by commas. *)
Fixpoint write_items {A} (w : A -> bytes) (l : list A) : bytes :=
  match l with
  | [] => []
  | [x] => w x
  | x :: l => w x ++ str "," ++ write_items w l
  end.

Definition write_list {A} (w : A -> bytes) (l : list A) : bytes := str "[" ++ write_items w l ++ str "]".

Definition write_output (mask_paths : bool) (o : DerivationOutput) : bytes :=
  str "(" ++ write_aterm_string (do_name o) ++ str "," ++
  write_aterm_string (if mask_paths then [] else do_path o) ++ str "," ++
  write_aterm_string (do_hash_algo o) ++ str "," ++ write_aterm_string (do_hash o) ++ str ")".

Definition write_aterm_outputs (outputs : list DerivationOutput) (mask_paths : bool) : bytes :=
  write_list (write_output mask_paths) outputs.

Definition write_input_drv (kv : bytes * list bytes) : bytes :=
  str "(" ++ write_aterm_string (fst kv) ++ str "," ++ write_list write_aterm_string (snd kv) ++ str ")".

Definition write_aterm_input_drvs (drvs : list (bytes * list bytes)) : bytes := write_list write_input_drv drvs.

Definition write_env (mask_env_keys : option (list bytes)) (kv : bytes * bytes) : bytes :=
  let masked := match mask_env_keys with Some s => bool_decide (fst kv ∈ s) | None => false end in
  str "(" ++ write_aterm_string (fst kv) ++ str "," ++ write_aterm_string (if masked then [] else snd kv) ++ str ")".

Definition write_aterm_tail (input_srcs : list bytes) (platform builder : bytes) (args : list bytes)
    (env : list (bytes * bytes)) (mask_env_keys : option (list bytes)) : bytes :=
  write_list write_aterm_string input_srcs ++ str "," ++ write_aterm_string platform ++ str "," ++
  write_aterm_string builder ++ str "," ++ write_list write_aterm_string args ++ str "," ++
  write_list (write_env mask_env_keys) env ++ str ")".

(** [Derivation::to_aterm]. *)
Definition to_aterm (d : Derivation) : bytes :=
  str "Derive(" ++ write_aterm_outputs (drv_outputs d) false ++ str "," ++
  write_aterm_input_drvs (drv_input_drvs d) ++ str "," ++
  write_aterm_tail (drv_input_srcs d) (drv_platform d) (drv_builder d) (drv_args d) (drv_env d) None.

(** [BasicDerivation::to_aterm]. *)
Definition basic_to_aterm (b : BasicDerivation) : bytes :=
  str "Derive(" ++ write_aterm_outputs (bd_outputs b) false ++ str "," ++ str "[]" ++ str "," ++
  write_aterm_tail (bd_input_srcs b) (bd_platform b) (bd_builder b) (bd_args b) (bd_env b) None.

(** The inputs under their replacement keys, output names merged. *)
Fixpoint replace_inputs (rewrites : list (bytes * bytes)) (inputs : list (bytes * list bytes))
    (acc : list (bytes * list bytes)) : list (bytes * list bytes) + DerivationError :=
  match inputs with
  | [] => inl acc
  | (drv_path, output_names) :: inputs =>
      match btree_get drv_path rewrites with
      | None => inr (DerivationError.InputNotFound drv_path)
      | Some new_key =>
          replace_inputs rewrites inputs
            (btree_insert new_key (set_collect (default [] (btree_get new_key acc) ++ output_names)) acc)
      end
  end.

Definition to_aterm_modulo (d : Derivation) (input_rewrites : list (bytes * bytes)) (mask_outputs : bool)
    : bytes + DerivationError :=
  match replace_inputs input_rewrites (drv_input_drvs d) [] with
  | inr e => inr e
  | inl replaced =>
      let mask_env := if mask_outputs then Some (List.map do_name (drv_outputs d)) else None in
      inl (str "Derive(" ++ write_aterm_outputs (drv_outputs d) mask_outputs ++ str "," ++
           write_aterm_input_drvs replaced ++ str "," ++
           write_aterm_tail (drv_input_srcs d) (drv_platform d) (drv_builder d) (drv_args d) (drv_env d) mask_env)
  end.

(** ** The parser *)

(** The rest of the input after a step, or the error. *)
Definition Parse (A : Type) : Type := bytes -> (A * bytes) + DerivationError.

#[export] Instance Parse_ret : MRet Parse := fun A a s => inl (a, s).
#[export] Instance Parse_bind : MBind Parse := fun A B f m s =>
  match m s with inl (a, s') => f a s' | inr e => inr e end.

Definition perr {A} (e : DerivationError) : Parse A := fun _ => inr e.

(** The first [n] characters. *)
Fixpoint take_chars (n : nat) (s : bytes) : bytes :=
  match s with
  | [] => []
  | b :: t =>
      if (128 <=? b) && (b <? 192) then b :: take_chars n t
      else match n with 0%nat => [] | S n => b :: take_chars n t end
  end.

Definition expect (expected : bytes) : Parse unit := fun s =>
  match strip_prefix expected s with
  | Some t => inl (tt, t)
  | None => inr (DerivationError.Expected expected (take_chars (Nat.max (length expected) 10) s))
  end.

(** The character an escape stands for. *)
Definition unescape (c : Z) : option Z :=
  if c =? 110 then Some 10 else if c =? 114 then Some 13 else if c =? 116 then Some 9
  else if c =? 92 then Some 92 else if c =? 34 then Some 34 else None.

(** The loop of [parse_string], after the opening quote. *)
Fixpoint string_loop (s : bytes) : (bytes * bytes) + DerivationError :=
  match s with
  | [] => inr DerivationError.UnexpectedEof
  | c :: t =>
      if c =? 34 then inl ([], t)
      else if c =? 92 then
        match t with
        | [] => inr DerivationError.UnexpectedEof
        | e :: t' =>
            match unescape e with
            | None => inr (DerivationError.InvalidEscape (decode_char t))
            | Some x => match string_loop t' with inl (r, u) => inl (x :: r, u) | inr err => inr err end
            end
        end
      else match string_loop t with inl (r, u) => inl (c :: r, u) | inr err => inr err end
  end.

Definition parse_string : Parse bytes := fun s =>
  match s with
  | 34 :: t => string_loop t
  | _ => inr DerivationError.ExpectedStringStart
  end.

(** The loop of [parse_list]: [cap] is [MAX_ATERM_LIST_ITEMS] less the items so
    far; [item] is given the index. *)
Fixpoint list_loop {A} (item : nat -> Parse A) (cap : nat) (items : list A) : Parse (list A) := fun s =>
  match cap with
  | 0%nat => inr (DerivationError.CollectionTooLarge (length items))
  | S cap =>
      match item (length items) s with
      | inr e => inr e
      | inl (x, t) =>
          match t with
          | 44 :: u => list_loop item cap (items ++ [x]) u
          | 93 :: u => inl (items ++ [x], u)
          | _ => inr DerivationError.UnexpectedEof
          end
      end
  end.

(** After the bracket: the empty list, or the loop. *)
Definition list_rest {A} (item : nat -> Parse A) : Parse (list A) := fun s =>
  match s with
  | 93 :: u => inl ([], u)
  | _ => list_loop item MAX_ATERM_LIST_ITEMS [] s
  end.

Definition parse_list {A} (item : nat -> Parse A) : Parse (list A) := _ ← expect (str "["); list_rest item.

Definition parse_string_list : Parse (list bytes) := parse_list (fun _ => parse_string).

(** A fallible value as a step, with the error the caller makes of it. *)
Definition or_err {A} (e : DerivationError) (x : A + DerivationError) : Parse A := fun s =>
  match x with inl a => inl (a, s) | inr _ => inr e end.

Definition parse_output (i : nat) : Parse DerivationOutput :=
  _ ← expect (str "("); name ← parse_string;
  _ ← expect (str ","); path ← parse_string;
  _ ← expect (str ","); hash_algo ← parse_string;
  _ ← expect (str ","); hash ← parse_string;
  _ ← expect (str ")");
  or_err (DerivationError.EmptyOutputName i) (output_new name path hash_algo hash).

Definition parse_outputs : Parse (list DerivationOutput) := parse_list parse_output.

Definition parse_input_drv (_ : nat) : Parse (bytes * list bytes) :=
  _ ← expect (str "("); drv_path ← parse_string;
  _ ← expect (str ","); names ← parse_string_list;
  _ ← expect (str ")"); mret (drv_path, set_collect names).

Definition parse_input_drvs : Parse (list (bytes * list bytes)) :=
  v ← parse_list parse_input_drv; mret (btree_collect v).

Definition parse_env_item (_ : nat) : Parse (bytes * bytes) :=
  _ ← expect (str "("); key ← parse_string;
  _ ← expect (str ","); value ← parse_string;
  _ ← expect (str ")"); mret (key, value).

Definition parse_env : Parse (list (bytes * bytes)) :=
  v ← parse_list parse_env_item; mret (btree_collect v).

Definition parse_derivation : Parse Derivation :=
  _ ← expect (str "Derive(");
  outputs ← parse_outputs;
  match outputs with
  | [] => perr DerivationError.NoOutputs
  | _ =>
      _ ← expect (str ","); input_drvs ← parse_input_drvs;
      _ ← expect (str ","); input_srcs ← parse_string_list;
      _ ← expect (str ","); platform ← parse_string;
      _ ← expect (str ","); builder ← parse_string;
      _ ← expect (str ","); args ← parse_string_list;
      _ ← expect (str ","); env ← parse_env;
      _ ← expect (str ")");
      mret (mkDerivation outputs input_drvs (set_collect input_srcs) platform builder args env)
  end.

(** [Derivation::parse]. *)
Definition drv_parse (input : bytes) : Derivation + DerivationError :=
  match parse_derivation input with inl (d, _) => inl d | inr e => inr e end.

Definition parse_from_nar (nar_data : bytes) : Derivation + DerivationError :=
  match extract_single_file nar_data with
  | inr e => inr (DerivationError.NarExtract e)
  | inl drv_bytes =>
      if utf8_valid drv_bytes then drv_parse drv_bytes else inr DerivationError.InvalidUtf8
  end.

(** ** Order *)

Definition sorted_keys {V} (m : list (bytes * V)) : Prop := StronglySorted bytes_lt (List.map fst m).

Lemma btree_insert_keys {V} k (v : V) m x :
  x ∈ List.map fst (btree_insert k v m) <-> x = k \/ x ∈ List.map fst m.
Proof.
  induction m as [|[k' v'] m IH]; cbn [btree_insert List.map fst]; [set_solver|].
  destruct (bytes_ltb k k'); cbn [List.map fst]; [set_solver|]. unfold bytes_eqb.
  case_bool_decide; cbn [List.map fst]; [set_solver|]. rewrite !elem_of_cons, IH. tauto.
Qed.

Lemma btree_insert_sorted {V} k (v : V) m : sorted_keys m -> sorted_keys (btree_insert k v m).
Proof.
  unfold sorted_keys. induction m as [|[k' v'] m IH]; cbn [btree_insert List.map fst]; intros Hs; [by repeat constructor|].
  inversion Hs as [|? ? Hm Hk]; subst. destruct (bytes_ltb k k') eqn:Hlt; cbn [List.map fst].
  - constructor; [done|]. constructor; [done|]. eapply Forall_impl; [exact Hk|]. intros x Hx. by eapply bytes_ltb_trans.
  - unfold bytes_eqb. case_bool_decide as He; cbn [List.map fst]; [subst; by constructor|].
    constructor; [by apply IH|]. rewrite Forall_forall in Hk |- *. intros x [-> |Hx]%btree_insert_keys; [|by apply Hk].
    destruct (bytes_ltb_total k k') as [|[|]]; congruence.
Qed.

Lemma btree_insert_length {V} k (v : V) m : (length (btree_insert k v m) <= S (length m))%nat.
Proof.
  induction m as [|[k' v'] m IH]; cbn [btree_insert length]; [done|]. destruct (bytes_ltb k k'); cbn [length]; [lia|].
  destruct (bytes_eqb k k'); cbn [length]; lia.
Qed.

Lemma btree_insert_last {V} k (v : V) m :
  Forall (fun x => bytes_ltb x k = true) (List.map fst m) -> btree_insert k v m = m ++ [(k, v)].
Proof.
  induction m as [|[k' v'] m IH]; cbn [btree_insert List.map fst app]; [done|].
  intros [Hk Hm]%Forall_cons. rewrite (bytes_ltb_asym _ _ Hk). unfold bytes_eqb. case_bool_decide as He.
  - subst. by rewrite bytes_ltb_irrefl in Hk.
  - by rewrite IH.
Qed.

Lemma btree_collect_sorted {V} (l : list (bytes * V)) : sorted_keys (btree_collect l) /\ (length (btree_collect l) <= length l)%nat.
Proof.
  unfold btree_collect. induction l as [|[k v] l IH] using rev_ind; [split; [constructor|done]|].
  rewrite fold_left_app, length_app. cbn [fold_left fst snd length]. destruct IH as [IH1 IH2].
  split; [by apply btree_insert_sorted|]. etransitivity; [apply btree_insert_length|]. lia.
Qed.

Lemma sorted_app_last {V} (m : list (bytes * V)) k v :
  sorted_keys (m ++ [(k, v)]) -> sorted_keys m /\ Forall (fun x => bytes_ltb x k = true) (List.map fst m).
Proof.
  unfold sorted_keys. rewrite map_app. cbn [List.map fst]. generalize (List.map fst m). intros l.
  induction l as [|x l IH]; cbn [app]; intros Hs; [split; constructor|]. inversion Hs as [|? ? Hl Hx]; subst.
  destruct (IH Hl) as [H1 H2]. apply Forall_app in Hx as [Hx1 Hx2]. apply Forall_cons in Hx2 as [Hx2 _].
  split; [by constructor|by constructor].
Qed.

Lemma btree_collect_id {V} (m : list (bytes * V)) : sorted_keys m -> btree_collect m = m.
Proof.
  unfold btree_collect. induction m as [|[k v] m IH] using rev_ind; intros Hs; [done|].
  apply sorted_app_last in Hs as [Hs Hk]. rewrite fold_left_app. cbn [fold_left fst snd].
  rewrite IH by done. by apply btree_insert_last.
Qed.

Lemma set_collect_sorted l : StronglySorted bytes_lt (set_collect l) /\ forall x, x ∈ set_collect l <-> x ∈ l.
Proof.
  destruct (dedup_spec _ (sort_bytes_sorted l)) as [H1 H2]. split; [done|]. intros x. by rewrite H2, sort_bytes_elem.
Qed.

Lemma set_collect_id l : StronglySorted bytes_lt l -> set_collect l = l.
Proof. intros Hl. destruct (set_collect_sorted l) as [H1 H2]. by apply sorted_unique. Qed.

Lemma set_collect_length l : (length (set_collect l) <= length l)%nat.
Proof.
  assert (Hd : forall m, (length (dedup m) <= length m)%nat).
  { induction m as [|x m IH]; cbn [dedup]; [done|]. destruct (dedup m) as [|y t]; [cbn; lia|].
    destruct (bytes_eqb x y); cbn [length] in *; lia. }
  assert (Hi : forall x m, length (insert_bytes x m) = S (length m)).
  { intros x m. induction m as [|y m IH]; cbn; [done|]. destruct (bytes_ltb y x); cbn; lia. }
  assert (Hs : forall m, length (sort_bytes m) = length m).
  { induction m as [|x m IH]; cbn; [done|]. fold (sort_bytes m). rewrite Hi. lia. }
  unfold set_collect. etransitivity; [apply Hd|]. by rewrite Hs.
Qed.

(** ** Reading back a text *)

Lemma expect_app t r : expect t (t ++ r) = inl (tt, r).
Proof. unfold expect. by rewrite (proj2 (strip_prefix_Some t (t ++ r) r) eq_refl). Qed.

Lemma string_loop_write s r : string_loop (flat_map escape_char s ++ 34 :: r) = inl (s, r).
Proof.
  induction s as [|c s IH]; [done|]. cbn [flat_map]. rewrite <- app_assoc. unfold escape_char at 1.
  destruct (Z.eqb_spec c 92) as [->|H1]; [cbn; by rewrite IH|]. destruct (Z.eqb_spec c 34) as [->|H2]; [cbn; by rewrite IH|].
  destruct (Z.eqb_spec c 10) as [->|H3]; [cbn; by rewrite IH|]. destruct (Z.eqb_spec c 13) as [->|H4]; [cbn; by rewrite IH|].
  destruct (Z.eqb_spec c 9) as [->|H5]; [cbn; by rewrite IH|]. cbn [app string_loop].
  rewrite (proj2 (Z.eqb_neq c 34)), (proj2 (Z.eqb_neq c 92)), IH by done. done.
Qed.

Lemma parse_string_write s r : parse_string (write_aterm_string s ++ r) = inl (s, r).
Proof. unfold write_aterm_string. rewrite <- !app_assoc. apply string_loop_write. Qed.

(** An item that reads back what its writer wrote. *)
Definition reads_back {A} (item : nat -> Parse A) (w : A -> bytes) (x : A) : Prop :=
  (forall i r, item i (w x ++ r) = inl (x, r)) /\ exists c t, w x = c :: t /\ c <> 93.

Lemma list_loop_write {A} (item : nat -> Parse A) w l cap acc r :
  l <> [] -> Forall (reads_back item w) l -> (length l <= cap)%nat ->
  list_loop item cap acc (write_items w l ++ 93 :: r) = inl (acc ++ l, r).
Proof.
  intros Hne Hl. revert cap acc Hne. induction Hl as [|x l [Hx _] Hl IH]; intros cap acc Hne Hcap; [done|].
  destruct cap as [|cap]; cbn [length] in Hcap; [lia|]. cbn [list_loop].
  destruct l as [|y l].
  - cbn [write_items]. by rewrite Hx.
  - change (write_items w (x :: y :: l)) with (w x ++ str "," ++ write_items w (y :: l)).
    rewrite <- !app_assoc, Hx. cbn [app str List.map String.list_ascii_of_string].
    change (Z.of_nat (Ascii.nat_of_ascii (Ascii.Ascii false false true true false true false false))) with 44.
    rewrite IH; [by rewrite <- app_assoc|done|lia].
Qed.

Lemma parse_list_write {A} (item : nat -> Parse A) w l r :
  Forall (reads_back item w) l -> (length l <= MAX_ATERM_LIST_ITEMS)%nat ->
  parse_list item (write_list w l ++ r) = inl (l, r).
Proof.
  intros Hl Hmax. unfold parse_list, write_list, mbind, Parse_bind. rewrite <- !app_assoc, expect_app.
  unfold list_rest. destruct l as [|x l]; [done|].
  assert (Hloop : list_loop item MAX_ATERM_LIST_ITEMS [] (write_items w (x :: l) ++ 93 :: r) = inl ([] ++ x :: l, r))
    by (by apply list_loop_write).
  pose proof Hl as [[_ (c & t & Hc & Hne)] _]%Forall_cons.
  assert (Hhd : exists u, write_items w (x :: l) ++ 93 :: r = c :: u).
  { destruct l; cbn [write_items]; rewrite Hc; eauto. }
  change (str "]" ++ r) with (93 :: r). destruct Hhd as [u Hu]. rewrite Hu in Hloop |- *.
  destruct c as [|c|c]; [exact Hloop| |exact Hloop]. repeat (destruct c as [c|c|]; try exact Hloop). done.
Qed.

(** What the parser produces: at least one output, each named, collections in
    order and within the list bound. *)
Definition small {A} (l : list A) : Prop := (length l <= MAX_ATERM_LIST_ITEMS)%nat.

Record drv_wf (d : Derivation) : Prop := {
  wf_outputs : drv_outputs d <> [];
  wf_names : Forall (fun o => do_name o <> []) (drv_outputs d);
  wf_inputs : sorted_keys (drv_input_drvs d);
  wf_input_names : Forall (fun kv => StronglySorted bytes_lt (snd kv) /\ small (snd kv)) (drv_input_drvs d);
  wf_srcs : StronglySorted bytes_lt (drv_input_srcs d);
  wf_env : sorted_keys (drv_env d);
  wf_small : small (drv_outputs d) /\ small (drv_input_drvs d) /\ small (drv_input_srcs d) /\
             small (drv_args d) /\ small (drv_env d);
}.

Lemma step {A B} (m : Parse A) (f : A -> Parse B) s a s' : m s = inl (a, s') -> (x ← m; f x) s = f a s'.
Proof. unfold mbind, Parse_bind. by intros ->. Qed.

(** Run the steps of a parser on the text its writer produced. *)
Ltac run_text :=
  rewrite <- ?app_assoc;
  repeat (erewrite step; [|first [apply expect_app | apply parse_string_write]]; cbv beta).

Lemma reads_back_string s : reads_back (fun _ => parse_string) write_aterm_string s.
Proof. split; [intros _ r; apply parse_string_write|]. by eexists _, _. Qed.

Lemma parse_string_list_write l r : small l -> parse_string_list (write_list write_aterm_string l ++ r) = inl (l, r).
Proof. intros Hl. apply parse_list_write; [|done]. apply Forall_forall. intros x _. apply reads_back_string. Qed.

Lemma reads_back_output o : do_name o <> [] -> reads_back parse_output (write_output false) o.
Proof.
  intros Ho. split; [|by eexists _, _]. intros i r. unfold parse_output, write_output. run_text.
  unfold or_err, output_new, is_nil, bytes_eqb. rewrite bool_decide_eq_false_2 by done. by destruct o.
Qed.

Lemma reads_back_input kv :
  StronglySorted bytes_lt (snd kv) -> small (snd kv) -> reads_back parse_input_drv write_input_drv kv.
Proof.
  intros Hs Hl. split; [|by eexists _, _]. intros i r. unfold parse_input_drv, write_input_drv. run_text.
  erewrite step; [|by apply parse_string_list_write]. cbv beta. run_text.
  unfold mret, Parse_ret. rewrite set_collect_id by done. by destruct kv.
Qed.

Lemma reads_back_env kv : reads_back parse_env_item (write_env None) kv.
Proof.
  split; [|by eexists _, _]. intros i r. unfold parse_env_item, write_env. cbv zeta. run_text. by destruct kv.
Qed.

Lemma parse_derivation_write d r : drv_wf d -> parse_derivation (to_aterm d ++ r) = inl (d, r).
Proof.
  intros [H1 H2 H3 H4 H5 H6 (S1 & S2 & S3 & S4 & S5)]. unfold parse_derivation, to_aterm, write_aterm_tail. run_text.
  erewrite step.
  2:{ apply parse_list_write; [|done]. eapply Forall_impl; [exact H2|]. apply reads_back_output. }
  cbv beta. destruct (drv_outputs d) as [|o os] eqn:Ho; [done|]. run_text.
  erewrite step.
  2:{ unfold parse_input_drvs. erewrite step; [reflexivity|]. apply parse_list_write; [|done].
      eapply Forall_impl; [exact H4|]. intros kv [? ?]. by apply reads_back_input. }
  cbv beta. rewrite btree_collect_id by done. run_text.
  erewrite step; [|by apply parse_string_list_write]. cbv beta. run_text.
  erewrite step; [|by apply parse_string_list_write]. cbv beta. run_text.
  erewrite step.
  2:{ unfold parse_env. erewrite step; [reflexivity|]. apply parse_list_write; [|done].
      apply Forall_forall. intros kv _. apply reads_back_env. }
  cbv beta. rewrite btree_collect_id by done.
  assert (He : expect (str ")") (str ")" ++ r) = inl (tt, r)) by apply expect_app.
  erewrite step; [|exact He]. unfold mret, Parse_ret. rewrite set_collect_id by done. rewrite <- Ho. by destruct d.
Qed.

(** *** What a parse returns is well formed *)

Lemma step_inv {A B} (m : Parse A) (f : A -> Parse B) s b s' :
  (x ← m; f x) s = inl (b, s') -> exists a t, m s = inl (a, t) /\ f a t = inl (b, s').
Proof. unfold mbind, Parse_bind. destruct (m s) as [[a t]|]; [|done]. eauto. Qed.

Lemma list_loop_inv {A} (Q : A -> Prop) (item : nat -> Parse A) n cap acc s l r :
  (forall i s x t, item i s = inl (x, t) -> Q x) -> Forall Q acc -> (length acc + cap = n)%nat ->
  list_loop item cap acc s = inl (l, r) -> Forall Q l /\ (length l <= n)%nat.
Proof.
  intros Hq. revert acc s. induction cap as [|cap IH]; intros acc s Ha Hn; cbn [list_loop]; [done|].
  destruct (item (length acc) s) as [[x t]|] eqn:Hi; [|done]. apply Hq in Hi.
  assert (Ha' : Forall Q (acc ++ [x])) by (apply Forall_app; split; [done|by constructor]).
  assert (Hend : acc ++ [x] = l -> Forall Q l /\ (length l <= n)%nat).
  { intros <-. split; [done|]. rewrite length_app. cbn [length]. lia. }
  destruct t as [|c u]; [done|]. destruct (Z.eqb_spec c 44) as [->|H44].
  - apply IH; [done|]. rewrite length_app. cbn [length]. lia.
  - destruct (Z.eqb_spec c 93) as [->|H93]; [intros [= <- <-]; by apply Hend|].
    destruct c as [|c|c]; try done. repeat (destruct c as [c|c|]; try done).
Qed.

Lemma parse_list_inv {A} (Q : A -> Prop) (item : nat -> Parse A) s l r :
  (forall i s x t, item i s = inl (x, t) -> Q x) -> parse_list item s = inl (l, r) -> Forall Q l /\ small l.
Proof.
  intros Hq (u & t & _ & H)%step_inv. unfold list_rest in H.
  assert (Hloop : list_loop item MAX_ATERM_LIST_ITEMS [] t = inl (l, r) -> Forall Q l /\ small l).
  { apply list_loop_inv; [done|constructor|]. exact (Nat.add_0_l MAX_ATERM_LIST_ITEMS). }
  destruct t as [|c t]; [by apply Hloop|]. destruct (Z.eqb_spec c 93) as [->|Hne].
  - injection H as <- <-. split; [constructor|]. unfold small. apply Nat.le_0_l.
  - destruct c as [|c|c]; try (by apply Hloop). repeat (destruct c as [c|c|]; try (by apply Hloop)).
Qed.

Lemma parse_output_named i s o t : parse_output i s = inl (o, t) -> do_name o <> [].
Proof.
  unfold parse_output. do 9 (intros (? & ? & _ & H)%step_inv; revert H).
  unfold or_err, output_new, is_nil, bytes_eqb. case_bool_decide; [done|]. by intros [= <- <-].
Qed.

Lemma parse_input_drv_inv i s kv t :
  parse_input_drv i s = inl (kv, t) -> StronglySorted bytes_lt (snd kv) /\ small (snd kv).
Proof.
  unfold parse_input_drv. do 3 (intros (? & ? & _ & H)%step_inv; revert H).
  intros (names & ? & Hn & (? & ? & _ & [= <- <-])%step_inv)%step_inv. cbn [snd].
  split; [apply set_collect_sorted|]. unfold small. etransitivity; [apply set_collect_length|].
  eapply (parse_list_inv (fun _ => True)); [done|exact Hn].
Qed.

Lemma btree_insert_forall {V} (Q : bytes * V -> Prop) k v m : Q (k, v) -> Forall Q m -> Forall Q (btree_insert k v m).
Proof.
  intros Hq. induction 1 as [|[k' v'] m Hx Hm IH]; cbn [btree_insert]; [by constructor|].
  destruct (bytes_ltb k k'); [by repeat constructor|]. destruct (bytes_eqb k k'); by constructor.
Qed.

Lemma btree_collect_forall {V} (Q : bytes * V -> Prop) l : Forall Q l -> Forall Q (btree_collect l).
Proof.
  unfold btree_collect. induction l as [|[k v] l IH] using rev_ind; [done|]. rewrite Forall_app, fold_left_app.
  intros [Hl [Hkv _]%Forall_cons]. cbn [fold_left fst snd]. by apply btree_insert_forall; [|apply IH].
Qed.

Lemma parse_derivation_wf s d r : parse_derivation s = inl (d, r) -> drv_wf d.
Proof.
  unfold parse_derivation. intros (? & ? & _ & (outputs & ? & Ho & H)%step_inv)%step_inv.
  destruct (parse_list_inv _ _ _ _ _ parse_output_named Ho) as [Hn Hso].
  assert (Hne : outputs <> []) by (intros ->; done). destruct outputs as [|o os]; [done|]. clear Ho.
  apply step_inv in H as (? & ? & _ & (inputs & ? & (v & ? & Hi & [= <- <-])%step_inv & H)%step_inv).
  destruct (parse_list_inv _ _ _ _ _ parse_input_drv_inv Hi) as [Hin Hsi]. clear Hi.
  apply step_inv in H as (? & ? & _ & (srcs & ? & Hs & H)%step_inv).
  apply (parse_list_inv (fun _ => True)) in Hs as [_ Hss]; [|done].
  do 5 (apply step_inv in H as (? & ? & _ & H)). apply step_inv in H as (args & ? & Ha & H).
  apply (parse_list_inv (fun _ => True)) in Ha as [_ Hsa]; [|done].
  apply step_inv in H as (? & ? & _ & (env & ? & (w & ? & He & [= <- <-])%step_inv & H)%step_inv).
  apply (parse_list_inv (fun _ => True)) in He as [_ Hse]; [|done].
  apply step_inv in H as (? & ? & _ & [= <- <-]).
  destruct (btree_collect_sorted v) as [Hv1 Hv2], (btree_collect_sorted w) as [Hw1 Hw2], (set_collect_sorted srcs) as [Hs1 _].
  split; cbn; try done.
  - by apply btree_collect_forall.
  - unfold small in *. pose proof (set_collect_length srcs).
    split; [done|]. split; [by etransitivity|]. split; [by etransitivity|]. split; [done|]. by etransitivity.
Qed.

(** C32: the derivation text round trip: a well-formed derivation (at least one
    output, every output named, input, source and environment collections in
    order, no list over 1,048,576 items) parses back from its ATerm text, escapes
    included, whatever follows the text; and whatever text the parser accepts, it
    returns a well-formed derivation, so re-serializing and re-parsing it changes
    nothing. *)
Theorem derivation_roundtrip :
  (forall d t, drv_wf d -> drv_parse (to_aterm d ++ t) = inl d) /\
  (forall s d, drv_parse s = inl d -> drv_wf d /\ drv_parse (to_aterm d) = inl d).
Proof.
  assert (H : forall d t, drv_wf d -> drv_parse (to_aterm d ++ t) = inl d).
  { intros d t Hd. unfold drv_parse. by rewrite parse_derivation_write. }
  split; [exact H|]. intros s d. unfold drv_parse at 1. destruct (parse_derivation s) as [[d' r]|] eqn:Hp; [|done].
  intros [= ->]. apply parse_derivation_wf in Hp. split; [done|]. rewrite <- (app_nil_r (to_aterm d)). by apply H.
Qed.

(** ** Modular texts *)

Definition mask_output (o : DerivationOutput) : DerivationOutput :=
  mkDerivationOutput (do_name o) [] (do_hash_algo o) (do_hash o).

(** The derivation whose plain text is hashed: inputs under their replacement
    keys and, when outputs are masked, no output path, neither in the outputs nor
    in the variables named after them. *)
Definition modulo_drv (mask_outputs : bool) (inputs : list (bytes * list bytes)) (d : Derivation) : Derivation :=
  let names := List.map do_name (drv_outputs d) in
  mkDerivation
    (if mask_outputs then List.map mask_output (drv_outputs d) else drv_outputs d)
    inputs (drv_input_srcs d) (drv_platform d) (drv_builder d) (drv_args d)
    (if mask_outputs
     then List.map (fun kv => (fst kv, if bool_decide (fst kv ∈ names) then [] else snd kv)) (drv_env d)
     else drv_env d).

Lemma write_list_map {A B} (w : B -> bytes) (w' : A -> bytes) (f : A -> B) l :
  (forall x, w (f x) = w' x) -> write_list w (List.map f l) = write_list w' l.
Proof.
  intros Hf. unfold write_list. f_equal. f_equal. induction l as [|x [|y l] IH]; cbn [List.map write_items]; [done|done|].
  rewrite Hf. f_equal. f_equal. exact IH.
Qed.

(** the text hashed for a derivation modulo its inputs is the plain text of
    the masked derivation with its inputs renamed: masking in the writer is the
    same as erasing the output paths, and the variables that carry them, from the
    record; the text exists exactly when every input has a replacement. *)
Theorem to_aterm_modulo_exact d rewrites mask_outputs :
  match to_aterm_modulo d rewrites mask_outputs with
  | inl s => exists inputs, replace_inputs rewrites (drv_input_drvs d) [] = inl inputs /\
               s = to_aterm (modulo_drv mask_outputs inputs d)
  | inr e => exists p, e = DerivationError.InputNotFound p /\ p ∈ List.map fst (drv_input_drvs d) /\
               btree_get p rewrites = None
  end.
Proof.
  unfold to_aterm_modulo. destruct (replace_inputs rewrites (drv_input_drvs d) []) as [inputs|e] eqn:Hr.
  - exists inputs. split; [done|]. unfold to_aterm, modulo_drv, write_aterm_outputs, write_aterm_tail.
    cbn [drv_outputs drv_input_drvs drv_input_srcs drv_platform drv_builder drv_args drv_env].
    destruct mask_outputs; [|done]. rewrite (write_list_map _ (write_output true) mask_output) by done.
    by rewrite (write_list_map _ (write_env (Some (List.map do_name (drv_outputs d))))).
  - revert Hr. generalize (@nil (bytes * list bytes)). induction (drv_input_drvs d) as [|[p names] l IH]; intros acc; cbn [replace_inputs]; [done|].
    destruct (btree_get p rewrites) as [k|] eqn:Hg.
    + intros H. destruct (IH _ H) as (q & -> & Hq & Hn). exists q. cbn [List.map fst]. rewrite elem_of_cons. auto.
    + intros [= <-]. exists p. cbn [List.map fst]. rewrite elem_of_cons. auto.
Qed.

Definition example_drv : Derivation :=
  mkDerivation [mkDerivationOutput (str "out") (str "/nix/store/abc-out") [] []]
    [(str "/nix/store/dep.drv", [str "dev"; str "out"])] [str "/nix/store/src"]
    (str "x86_64-linux") (str "/bin/sh") [str "-c"; [101; 99; 104; 111; 32; 34; 9; 92; 10]]
    [(str "name", str "x"); (str "out", str "/nix/store/abc-out")].

Lemma example_drv_wf : drv_wf example_drv.
Proof.
  assert (Hs : forall A (l : list A), Z.of_nat (length l) <= 1048576 -> small l).
  { intros A l Hl. unfold small, MAX_ATERM_LIST_ITEMS. rewrite Nat2Z.inj_le, Z2Nat.id; [done|discriminate]. }
  split; [done|by repeat constructor|by repeat constructor| |by repeat constructor|by repeat constructor|].
  - constructor; [|constructor]. split; [by repeat constructor|by apply Hs].
  - split; [|split; [|split; [|split]]]; by apply Hs.
Qed.

Lemma derivation_roundtrip_witness : drv_parse (to_aterm example_drv ++ str "trailing") = inl example_drv.
Proof. apply (proj1 derivation_roundtrip example_drv (str "trailing") example_drv_wf). Defined.
