(* ===== verification/NixDrvHash.v ===== *)
(** * Nix formats: modular derivation hashes

    [src/rio-nix/src/derivation/hash.rs]: [hash_derivation_modulo] with its memo
    table, cycle check and depth limit, against the plain recursive definition;
    [fill_deferred_outputs] of [src/rio-nix/src/derivation/mod.rs]; and
    [compute_modular_hash_cached] of [src/rio-gateway/src/translate.rs].

    The recursion is on the levels left below [MAX_HASH_RECURSION_DEPTH], which
    returns the limit's error at zero. *)

From S2P Require Import Prelude NixBytes NixBase32 NixStorePath NixNar NixAterm.

#[local] Open Scope Z_scope.

Definition MAX_HASH_RECURSION_DEPTH : nat := 512.

Record HashState : Type := mkHashState {
  hs_cache : gmap bytes bytes;
  hs_visiting : gset bytes;
}.

Definition visit (p : bytes) (s : HashState) : HashState := mkHashState (hs_cache s) ({[p]} ∪ hs_visiting s).
Definition unvisit (p : bytes) (s : HashState) : HashState := mkHashState (hs_cache s) (hs_visiting s ∖ {[p]}).
Definition memo (p h : bytes) (s : HashState) : HashState := mkHashState (<[p := h]> (hs_cache s)) (hs_visiting s).

Section Modulo.
Context `{C : NixCrypto} (resolve : bytes -> option Derivation).

(** The fingerprint of a fixed output. *)
Definition fod_fingerprint (outs : list DerivationOutput) : bytes :=
  match outs with
  | o :: _ => str "fixed:out:" ++ do_hash_algo o ++ str ":" ++ do_hash o ++ str ":" ++ do_path o
  | [] => []
  end.

(** The loop over the inputs: resolve, hash, record the rewrite. *)
Fixpoint hash_inputs (rec : Derivation -> bytes -> HashState -> (bytes + DerivationError) * HashState)
    (keys : list bytes) (rewrites : list (bytes * bytes)) (s : HashState)
    : (list (bytes * bytes) + DerivationError) * HashState :=
  match keys with
  | [] => (inl rewrites, s)
  | k :: keys =>
      match resolve k with
      | None => (inr (DerivationError.InputNotFound k), s)
      | Some d =>
          match rec d k s with
          | (inr e, s) => (inr e, s)
          | (inl h, s) => hash_inputs rec keys (btree_insert k (hex_encode h) rewrites) s
          end
      end
  end.

(** [hash_derivation_modulo_inner] at depth [MAX_HASH_RECURSION_DEPTH - levels]. *)
Fixpoint modulo_inner (levels : nat) (mask_outputs : bool) (drv : Derivation) (drv_path : bytes) (s : HashState)
    : (bytes + DerivationError) * HashState :=
  match (if mask_outputs then None else hs_cache s !! drv_path) with
  | Some cached => (inl cached, s)
  | None =>
      if bool_decide (drv_path ∈ hs_visiting s) then (inr (DerivationError.CycleDetected drv_path), s)
      else
        match levels with
        | 0%nat => (inr (DerivationError.RecursionLimitExceeded drv_path), s)
        | S levels =>
            let s := visit drv_path s in
            let '(result, s) :=
              if is_fixed_output (drv_outputs drv) then (inl (sha256 (fod_fingerprint (drv_outputs drv))), s)
              else
                match hash_inputs (modulo_inner levels false) (List.map fst (drv_input_drvs drv)) [] s with
                | (inr e, s) => (inr e, s)
                | (inl rewrites, s) =>
                    match to_aterm_modulo drv rewrites mask_outputs with
                    | inr e => (inr e, s)
                    | inl t => (inl (sha256 t), s)
                    end
                end in
            let s := unvisit drv_path s in
            match result with
            | inr e => (inr e, s)
            | inl h => (inl h, if mask_outputs then s else memo drv_path h s)
            end
        end
  end.

(** [hash_derivation_modulo]. *)
Definition hash_derivation_modulo (drv : Derivation) (drv_path : bytes) (hash_cache : gmap bytes bytes)
    : (bytes + DerivationError) * gmap bytes bytes :=
  let '(r, s) := modulo_inner MAX_HASH_RECURSION_DEPTH (has_ca_floating_outputs (drv_outputs drv)) drv drv_path
                   (mkHashState hash_cache ∅) in
  (r, hs_cache s).

(** ** The plain definition *)

(** No table, no path bookkeeping; [n] bounds the height of the input graph. *)
Fixpoint modulo_ref (n : nat) (mask_outputs : bool) (drv : Derivation) : option bytes :=
  match n with
  | 0%nat => None
  | S n =>
      if is_fixed_output (drv_outputs drv) then Some (sha256 (fod_fingerprint (drv_outputs drv)))
      else
        rewrites ← mapM (fun k => d ← resolve k; h ← modulo_ref n false d; Some (k, hex_encode h))
                        (List.map fst (drv_input_drvs drv));
        match to_aterm_modulo drv (btree_collect rewrites) mask_outputs with
        | inl t => Some (sha256 t)
        | inr _ => None
        end
  end.

Lemma mapM_mono (f g : bytes -> option (bytes * bytes)) l r :
  (forall x y, f x = Some y -> g x = Some y) -> mapM f l = Some r -> mapM g l = Some r.
Proof.
  intros Hfg. rewrite !mapM_Some. intros Hf. eapply Forall2_impl; [exact Hf|]. intros x y. apply Hfg.
Qed.

Lemma modulo_ref_S n mask drv h : modulo_ref n mask drv = Some h -> modulo_ref (S n) mask drv = Some h.
Proof.
  revert mask drv h. induction n as [|n IH]; intros mask drv h; [done|]. intros H.
  change (modulo_ref (S (S n)) mask drv) with
    (if is_fixed_output (drv_outputs drv) then Some (sha256 (fod_fingerprint (drv_outputs drv)))
     else
       rewrites ← mapM (fun k => d ← resolve k; h ← modulo_ref (S n) false d; Some (k, hex_encode h))
                       (List.map fst (drv_input_drvs drv));
       match to_aterm_modulo drv (btree_collect rewrites) mask with
       | inl t => Some (sha256 t)
       | inr _ => None
       end).
  cbn [modulo_ref] in H. destruct (is_fixed_output _); [done|].
  apply bind_Some in H as (rw & Hm & Ht). apply bind_Some. exists rw. split; [|done].
  eapply mapM_mono; [|exact Hm]. intros k y (d & Hd & (x & Hx & Hy)%bind_Some)%bind_Some.
  apply bind_Some. exists d. split; [done|]. apply bind_Some. exists x. split; [by apply IH|done].
Qed.

Lemma modulo_ref_mono n m mask drv h : (n <= m)%nat -> modulo_ref n mask drv = Some h -> modulo_ref m mask drv = Some h.
Proof. induction 1 as [|m _ IH]; [done|]. intros H. by apply modulo_ref_S, IH. Qed.

Lemma modulo_ref_fun n m mask drv h h' : modulo_ref n mask drv = Some h -> modulo_ref m mask drv = Some h' -> h = h'.
Proof.
  intros H1 H2. apply (modulo_ref_mono n (n + m)) in H1; [|lia]. apply (modulo_ref_mono m (n + m)) in H2; [|lia]. congruence.
Qed.

(** Masking changes the hash, not whether there is one. *)
Lemma modulo_ref_mask n mask mask' drv h :
  modulo_ref n mask drv = Some h -> exists h', modulo_ref n mask' drv = Some h'.
Proof.
  destruct n as [|n]; [done|]. cbn [modulo_ref]. destruct (is_fixed_output _); [eauto|].
  intros (rw & Hm & Ht)%bind_Some. unfold to_aterm_modulo in *. rewrite Hm. cbn.
  destruct (replace_inputs _ _ _); [eauto|done].
Qed.

(** Every memo is the plain hash of what its path resolves to. *)
Definition cache_sound (c : gmap bytes bytes) : Prop :=
  forall p h, c !! p = Some h -> exists d n, resolve p = Some d /\ modulo_ref n false d = Some h.

(** What a call leaves behind. *)
Definition tidy (s s' : HashState) : Prop :=
  cache_sound (hs_cache s') /\ hs_visiting s' = hs_visiting s /\ hs_cache s ⊆ hs_cache s'.

Definition call_ok (rec : Derivation -> bytes -> HashState -> (bytes + DerivationError) * HashState) : Prop :=
  forall d p s, cache_sound (hs_cache s) -> resolve p = Some d ->
    let '(r, s') := rec d p s in tidy s s' /\ forall h, r = inl h -> exists n, modulo_ref n false d = Some h.

Lemma tidy_refl s : cache_sound (hs_cache s) -> tidy s s.
Proof. by split. Qed.

Lemma tidy_trans s1 s2 s3 : tidy s1 s2 -> tidy s2 s3 -> tidy s1 s3.
Proof. intros (H1 & H2 & H3) (H4 & H5 & H6). split; [done|]. split; [congruence|]. by etransitivity. Qed.

(** The rewrites collected for [keys] on top of [acc]. *)
Definition rewrites_of (n : nat) (keys : list bytes) (acc : list (bytes * bytes)) (rw : list (bytes * bytes)) : Prop :=
  exists l, mapM (fun k => d ← resolve k; h ← modulo_ref n false d; Some (k, hex_encode h)) keys = Some l /\
    rw = fold_left (fun m kv => btree_insert (fst kv) (snd kv) m) l acc.

Lemma hash_inputs_ok rec keys acc s :
  call_ok rec -> cache_sound (hs_cache s) ->
  let '(r, s') := hash_inputs rec keys acc s in
  tidy s s' /\ forall rw, r = inl rw -> exists n, rewrites_of n keys acc rw.
Proof.
  intros Hrec. revert acc s. induction keys as [|k keys IH]; intros acc s Hs; cbn [hash_inputs].
  { split; [by apply tidy_refl|]. intros rw [= <-]. exists 0%nat, []. done. }
  destruct (resolve k) as [d|] eqn:Hd; [|split; [by apply tidy_refl|done]].
  specialize (Hrec d k s Hs Hd). destruct (rec d k s) as [[h|e] s1]; [|naive_solver].
  destruct Hrec as [Ht Hh]. destruct (Hh h eq_refl) as [n Hn].
  specialize (IH (btree_insert k (hex_encode h) acc) s1 (proj1 Ht)).
  destruct (hash_inputs rec keys _ s1) as [r s2]. destruct IH as [Ht' Hr]. split; [by eapply tidy_trans|].
  intros rw Hrw. destruct (Hr rw Hrw) as (m & l & Hl & ->). exists (n + m)%nat, ((k, hex_encode h) :: l). split; [|done].
  apply mapM_Some. constructor.
  - rewrite Hd. cbn. rewrite (modulo_ref_mono n (n + m) false d h) by (lia || done). done.
  - apply mapM_Some. eapply mapM_mono; [|exact Hl]. intros x y (d' & Hd' & (x' & Hx & Hy)%bind_Some)%bind_Some.
    apply bind_Some. exists d'. split; [done|]. apply bind_Some. exists x'. split; [|done].
    by apply (modulo_ref_mono m); [lia|].
Qed.

Lemma ref_of_rewrites n mask drv rw t :
  is_fixed_output (drv_outputs drv) = false -> rewrites_of n (List.map fst (drv_input_drvs drv)) [] rw ->
  to_aterm_modulo drv rw mask = inl t -> modulo_ref (S n) mask drv = Some (sha256 t).
Proof.
  intros Hf (l & Hl & ->) Ht. cbn [modulo_ref]. rewrite Hf, Hl. cbn. unfold btree_collect. by rewrite Ht.
Qed.

Lemma modulo_inner_ok levels mask drv p s :
  cache_sound (hs_cache s) -> (mask = false -> resolve p = Some drv) ->
  let '(r, s') := modulo_inner levels mask drv p s in
  tidy s s' /\ forall h, r = inl h -> exists n, modulo_ref n mask drv = Some h.
Proof.
  revert mask drv p s. induction levels as [|levels IH]; intros mask drv p s Hs Hp; cbn [modulo_inner].
  all: destruct (if mask then None else hs_cache s !! p) as [c|] eqn:Hc.
  1,3: destruct mask; [done|]; split; [by apply tidy_refl|]; intros h [= <-];
    destruct (Hs _ _ Hc) as (d & n & Hd & Hn); rewrite (Hp eq_refl) in Hd; injection Hd as <-; eauto.
  all: case_bool_decide as Hv; [split; [by apply tidy_refl|done]|].
  { split; [by apply tidy_refl|done]. }
  set (s1 := visit p s). assert (Hs1 : cache_sound (hs_cache s1)) by done.
  assert (Hbody : let '(r, s2) :=
      (if is_fixed_output (drv_outputs drv) then (inl (sha256 (fod_fingerprint (drv_outputs drv))), s1)
       else match hash_inputs (modulo_inner levels false) (List.map fst (drv_input_drvs drv)) [] s1 with
            | (inr e, s) => (inr e, s)
            | (inl rewrites, s) =>
                match to_aterm_modulo drv rewrites mask with inr e => (inr e, s) | inl t => (inl (sha256 t), s) end
            end) in
    tidy s1 s2 /\ forall h, r = inl h -> exists n, modulo_ref n mask drv = Some h).
  { destruct (is_fixed_output (drv_outputs drv)) eqn:Hf.
    { split; [by apply tidy_refl|]. intros h [= <-]. exists 1%nat. cbn [modulo_ref]. by rewrite Hf. }
    assert (Hrec : call_ok (modulo_inner levels false)).
    { intros d q s' Hs' Hq. by apply IH. }
    pose proof (hash_inputs_ok (modulo_inner levels false) (List.map fst (drv_input_drvs drv)) [] s1 Hrec Hs1) as Hin.
    destruct (hash_inputs _ _ [] s1) as [[rw|e] s2]; destruct Hin as [Ht Hrw]; [|by split].
    destruct (to_aterm_modulo drv rw mask) as [t|e] eqn:Hat; [|by split]. split; [done|]. intros h [= <-].
    destruct (Hrw rw eq_refl) as [n Hn]. exists (S n). by eapply ref_of_rewrites. }
  destruct (if is_fixed_output _ then _ else _) as [r s2]. destruct Hbody as [(Hc2 & Hv2 & Hsub) Hr].
  assert (Hback : hs_visiting (unvisit p s2) = hs_visiting s) by (cbn; rewrite Hv2; set_solver).
  destruct r as [h|e]; [|by split]. destruct (Hr h eq_refl) as [n Hn]. destruct mask.
  { split; [done|]. intros h' [= <-]. eauto. }
  split; [|intros h' [= <-]; eauto]. split; [|split; [done|]]; cbn [memo unvisit hs_cache].
  - intros q hq. destruct (decide (q = p)) as [->|Hne]; [rewrite lookup_insert_eq|rewrite lookup_insert_ne by done; apply Hc2].
    intros [= <-]. exists drv, n. split; [by apply Hp|done].
  - etransitivity; [exact Hsub|]. destruct (hs_cache s2 !! p) as [h2|] eqn:E; [|by apply insert_subseteq].
    apply Hc2 in E as E'. destruct E' as (d & m & Hd & Hm). rewrite (Hp eq_refl) in Hd. injection Hd as <-.
    rewrite (modulo_ref_fun _ _ _ _ _ _ Hn Hm). by rewrite insert_id.
Qed.

(** The input graph below [p] has height at most [n]. *)
Definition good (n : nat) (p : bytes) : Prop := exists d h, resolve p = Some d /\ modulo_ref n false d = Some h.

Lemma good_mono n m p : (n <= m)%nat -> good n p -> good m p.
Proof. intros Hnm (d & h & Hd & Hh). exists d, h. split; [done|]. by eapply modulo_ref_mono. Qed.

Lemma hash_inputs_total n rec keys acc s l :
  call_ok rec -> cache_sound (hs_cache s) ->
  (forall d p s h, cache_sound (hs_cache s) -> resolve p = Some d -> modulo_ref n false d = Some h ->
     (forall v, v ∈ hs_visiting s -> ~ good n v) -> exists s', rec d p s = (inl h, s')) ->
  (forall v, v ∈ hs_visiting s -> ~ good n v) ->
  mapM (fun k => d ← resolve k; h ← modulo_ref n false d; Some (k, hex_encode h)) keys = Some l ->
  exists s', hash_inputs rec keys acc s = (inl (fold_left (fun m kv => btree_insert (fst kv) (snd kv) m) l acc), s').
Proof.
  intros Hok Hs Hrec Hv Hl. revert acc s l Hs Hv Hl. induction keys as [|k keys IH]; intros acc s l Hs Hv Hl.
  { injection Hl as <-. by exists s. }
  apply mapM_Some in Hl. inversion Hl as [|? [k' x] ? l' (d & Hd & (h & Hh & [= <- <-])%bind_Some)%bind_Some Hl']; subst.
  cbn [hash_inputs fold_left fst snd]. rewrite Hd. destruct (Hrec d k s h Hs Hd Hh Hv) as [s1 H1].
  pose proof (Hok d k s Hs Hd) as Ht. rewrite H1 in Ht |- *. destruct Ht as [(Ht1 & Ht2 & _) _].
  apply IH; [done|by rewrite Ht2|by apply mapM_Some].
Qed.

Lemma modulo_inner_total n levels mask drv p s h :
  modulo_ref n mask drv = Some h -> (n <= levels)%nat -> cache_sound (hs_cache s) -> resolve p = Some drv ->
  (forall v, v ∈ hs_visiting s -> ~ good n v) -> exists s', modulo_inner levels mask drv p s = (inl h, s').
Proof.
  revert levels mask drv p s h. induction n as [|n IH]; intros levels mask drv p s h Hh Hn Hs Hp Hv; [done|].
  destruct (modulo_ref n mask drv) as [h0|] eqn:Hlow.
  { rewrite (modulo_ref_fun _ _ _ _ _ _ Hh Hlow). apply (IH levels); [done|lia|done|done|].
    intros v Hin Hg. apply (Hv v Hin). eapply good_mono; [|exact Hg]. lia. }
  assert (Hself : ~ good n p).
  { intros (d & x & Hd & Hx). rewrite Hp in Hd. injection Hd as <-.
    destruct (modulo_ref_mask _ _ mask _ _ Hx) as [y Hy]. congruence. }
  destruct levels as [|levels]; [lia|]. cbn [modulo_inner].
  destruct (if mask then None else hs_cache s !! p) as [c|] eqn:Hc.
  { destruct mask; [done|]. destruct (Hs _ _ Hc) as (d & m & Hd & Hm). rewrite Hp in Hd. injection Hd as <-.
    rewrite (modulo_ref_fun _ _ _ _ _ _ Hh Hm). by exists s. }
  rewrite bool_decide_eq_false_2.
  2:{ intros Hin. apply (Hv p Hin). destruct (modulo_ref_mask _ _ false _ _ Hh) as [y Hy]. by exists drv, y. }
  cbn [modulo_ref] in Hh. destruct (is_fixed_output (drv_outputs drv)) eqn:Hf.
  { injection Hh as <-. eauto. }
  apply bind_Some in Hh as (l & Hl & Ht).
  destruct (hash_inputs_total n (modulo_inner levels false) (List.map fst (drv_input_drvs drv)) [] (visit p s) l) as [s2 H2].
  - intros d q s' Hs' Hq. by apply modulo_inner_ok.
  - done.
  - intros d q s' x Hs' Hq Hx Hv'. apply IH; [done|lia|done|done|done].
  - intros v [->%elem_of_singleton|Hin]%elem_of_union; [done|]. intros Hg. apply (Hv v Hin).
    eapply good_mono; [|exact Hg]. lia.
  - exact Hl.
  - rewrite H2. unfold btree_collect in Ht. destruct (to_aterm_modulo drv _ mask); [|done]. injection Ht as <-. eauto.
Qed.

(** C27: the memoised modular hash equals the plain recursive one.  With a table
    whose entries are plain hashes and a resolver that knows the derivation,
    (1) a hash returned is the plain hash; (2) when the plain definition has a
    value on a graph of at most 512 levels, the call returns it: the table, the
    cycle check and the depth limit never get in the way; (3) in every case,
    errors included, the table left behind extends the old one and all of its
    entries are plain hashes, so it can be shared by later calls. *)
Theorem hash_derivation_modulo_exact drv drv_path hash_cache :
  cache_sound hash_cache -> resolve drv_path = Some drv ->
  let mask := has_ca_floating_outputs (drv_outputs drv) in
  let '(r, hash_cache') := hash_derivation_modulo drv drv_path hash_cache in
  (forall h, r = inl h -> exists n, modulo_ref n mask drv = Some h) /\
  (forall n h, (n <= MAX_HASH_RECURSION_DEPTH)%nat -> modulo_ref n mask drv = Some h -> r = inl h) /\
  cache_sound hash_cache' /\ hash_cache ⊆ hash_cache'.
Proof.
  intros Hc Hr. cbn zeta. unfold hash_derivation_modulo. set (mask := has_ca_floating_outputs _).
  pose proof (modulo_inner_ok MAX_HASH_RECURSION_DEPTH mask drv drv_path (mkHashState hash_cache ∅) Hc (fun _ => Hr)) as H1.
  pose proof (fun n h Hn Hh => modulo_inner_total n MAX_HASH_RECURSION_DEPTH mask drv drv_path (mkHashState hash_cache ∅) h
    Hh Hn Hc Hr ltac:(intros v Hv; by apply elem_of_empty in Hv)) as H2.
  destruct (modulo_inner _ _ _ _ _) as [r s']. destruct H1 as [(H3 & _ & H4) H1]. split; [done|]. split; [|done].
  intros n h Hn Hh. destruct (H2 n h Hn Hh) as [s2 [= -> _]]. done.
Qed.

End Modulo.

(** [compute_modular_hash_cached] of the gateway: the resolver is its cache of
    parsed derivations, keyed by parsed store path ([StorePath] equality is that
    of the text). *)
Definition cache_resolver (drv_cache : gmap bytes Derivation) (p : bytes) : option Derivation :=
  match parse p with inl sp => drv_cache !! sp_full sp | inr _ => None end.

Definition compute_modular_hash_cached `{NixCrypto} (drv : Derivation) (drv_path : bytes)
    (drv_cache : gmap bytes Derivation) (hash_cache : gmap bytes bytes) : option bytes * gmap bytes bytes :=
  match hash_derivation_modulo (cache_resolver drv_cache) drv drv_path hash_cache with
  | (inl h, c) => (Some h, c)
  | (inr _, c) => (None, c)
  end.

(** ** Deferred outputs *)

Definition deferred (o : DerivationOutput) : bool := is_nil (do_path o) && is_nil (do_hash_algo o).

Definition with_path (o : DerivationOutput) (p : bytes) : DerivationOutput :=
  mkDerivationOutput (do_name o) p (do_hash_algo o) (do_hash o).

Section Fill.
Context `{C : NixCrypto}.

(** The loop over the deferred indices; the mutations made before an error stay. *)
Fixpoint fill_loop (drv_hash drv_name : bytes) (idx : list nat) (b : BasicDerivation) (filled : list (bytes * bytes))
    : (list (bytes * bytes) + DerivationError) * BasicDerivation :=
  match idx with
  | [] => (inl filled, b)
  | i :: idx =>
      let o := nth i (bd_outputs b) (mkDerivationOutput [] [] [] []) in
      match make_output (do_name o) drv_hash drv_name with
      | inr e => (inr (DerivationError.InvalidOutputPath e), b)
      | inl sp =>
          fill_loop drv_hash drv_name idx
            (mkBasicDerivation (<[i := with_path o (sp_full sp)]> (bd_outputs b)) (bd_input_srcs b) (bd_platform b)
               (bd_builder b) (bd_args b) (btree_insert (do_name o) (sp_full sp) (bd_env b)))
            (filled ++ [(do_name o, sp_full sp)])
      end
  end.

Definition deferred_indices (outs : list DerivationOutput) : list nat :=
  List.map fst (List.filter (fun io => deferred (snd io)) (combine (seq 0 (length outs)) outs)).

Definition fill_deferred_outputs (b : BasicDerivation) (drv_name : bytes)
    : (list (bytes * bytes) + DerivationError) * BasicDerivation :=
  match deferred_indices (bd_outputs b) with
  | [] => (inl [], b)
  | idx => fill_loop (sha256 (basic_to_aterm b)) drv_name idx b []
  end.

(** The same loop by recursion on the outputs. *)
Fixpoint fill_ref (drv_hash drv_name : bytes) (outs : list DerivationOutput)
    : option (list DerivationOutput * list (bytes * bytes)) :=
  match outs with
  | [] => Some ([], [])
  | o :: outs =>
      if deferred o then
        match make_output (do_name o) drv_hash drv_name with
        | inr _ => None
        | inl sp =>
            '(outs', fl) ← fill_ref drv_hash drv_name outs;
            Some (with_path o (sp_full sp) :: outs', (do_name o, sp_full sp) :: fl)
        end
      else '(outs', fl) ← fill_ref drv_hash drv_name outs; Some (o :: outs', fl)
  end.

Definition set_outputs_env (b : BasicDerivation) outs env : BasicDerivation :=
  mkBasicDerivation outs (bd_input_srcs b) (bd_platform b) (bd_builder b) (bd_args b) env.

Definition env_insert (env : list (bytes * bytes)) (fl : list (bytes * bytes)) : list (bytes * bytes) :=
  fold_left (fun m kv => btree_insert (fst kv) (snd kv) m) fl env.

Lemma fill_loop_ref drv_hash drv_name b pre outs filled :
  bd_outputs b = pre ++ outs ->
  let idx := List.map fst (List.filter (fun io => deferred (snd io)) (combine (seq (length pre) (length outs)) outs)) in
  match fill_ref drv_hash drv_name outs, fill_loop drv_hash drv_name idx b filled with
  | Some (outs', fl), (inl r, b') => r = filled ++ fl /\ b' = set_outputs_env b (pre ++ outs') (env_insert (bd_env b) fl)
  | None, (inr _, _) => True
  | _, _ => False
  end.
Proof.
  revert b pre filled. induction outs as [|o outs IH]; intros b pre filled Hb; cbn zeta.
  { cbn. rewrite app_nil_r in Hb. rewrite !app_nil_r, <- Hb. split; [done|]. by destruct b. }
  cbn [length seq combine List.filter fill_ref snd]. destruct (deferred o) eqn:Hd.
  - cbn [List.map fst fill_loop]. assert (Hnth : nth (length pre) (bd_outputs b) (mkDerivationOutput [] [] [] []) = o).
    { rewrite Hb, app_nth2, Nat.sub_diag by lia. done. }
    rewrite Hnth. destruct (make_output (do_name o) drv_hash drv_name) as [sp|e]; [|done].
    set (b1 := mkBasicDerivation _ _ _ _ _ _).
    specialize (IH b1 (pre ++ [with_path o (sp_full sp)]) (filled ++ [(do_name o, sp_full sp)])).
    rewrite length_app, Nat.add_1_r in IH. cbn zeta in IH. rewrite <- !app_assoc in IH. 
    assert (Hb1 : bd_outputs b1 = pre ++ [with_path o (sp_full sp)] ++ outs).
    { unfold b1. cbn [bd_outputs]. rewrite Hb, insert_app_r_alt, Nat.sub_diag by done. done. }
    specialize (IH Hb1). destruct (fill_ref drv_hash drv_name outs) as [[outs' fl]|]; cbn; [|done].
    destruct (fill_loop _ _ _ b1 _) as [[r|e] b']; [|done]. destruct IH as [-> ->].
    split; by rewrite <- ?app_assoc.
  - specialize (IH b (pre ++ [o]) filled). rewrite length_app, Nat.add_1_r in IH. cbn zeta in IH.
    rewrite <- !app_assoc in IH. specialize (IH Hb).
    destruct (fill_ref drv_hash drv_name outs) as [[outs' fl]|]; cbn; [|done].
    destruct (fill_loop _ _ _ b _) as [[r|e] b']; [|done]. destruct IH as [-> ->].
    split; by rewrite <- ?app_assoc.
Qed.

Lemma fill_ref_spec drv_hash drv_name outs outs' fl :
  fill_ref drv_hash drv_name outs = Some (outs', fl) ->
  Forall2 (fun o o' => if deferred o
             then exists sp, make_output (do_name o) drv_hash drv_name = inl sp /\ o' = with_path o (sp_full sp)
             else o' = o) outs outs' /\
  fl = List.map (fun o => (do_name o, do_path o)) (List.map snd (List.filter (fun p => deferred (fst p)) (combine outs outs'))).
Proof.
  revert outs' fl. induction outs as [|o outs IH]; intros outs' fl; cbn [fill_ref]; [intros [= <- <-]; split; [constructor|done]|].
  destruct (deferred o) eqn:Hd.
  - destruct (make_output (do_name o) drv_hash drv_name) as [sp|] eqn:Hm; [|done].
    intros ([l f] & Hr & [= <- <-])%bind_Some. destruct (IH _ _ Hr) as [H1 ->]. split.
    + constructor; [|done]. rewrite Hd. eauto.
    + cbn [combine List.filter fst]. rewrite Hd. done.
  - intros ([l f] & Hr & [= <- <-])%bind_Some. destruct (IH _ _ Hr) as [H1 ->]. split.
    + constructor; [|done]. by rewrite Hd.
    + cbn [combine List.filter fst]. by rewrite Hd.
Qed.

Lemma deferred_indices_nil outs : deferred_indices outs = [] <-> Forall (fun o => deferred o = false) outs.
Proof.
  unfold deferred_indices. generalize 0%nat. induction outs as [|o outs IH]; intros k; cbn; [split; [constructor|done]|].
  rewrite Forall_cons, <- (IH (S k)). destruct (deferred o); cbn; split; try done; naive_solver.
Qed.

Lemma fill_ref_none drv_hash drv_name outs :
  Forall (fun o => deferred o = false) outs -> fill_ref drv_hash drv_name outs = Some (outs, []).
Proof. induction 1 as [|o outs Ho _ IH]; cbn [fill_ref]; [done|]. rewrite Ho, IH. done. Qed.

Lemma fill_deferred_ref b drv_name :
  match fill_ref (sha256 (basic_to_aterm b)) drv_name (bd_outputs b), fill_deferred_outputs b drv_name with
  | Some (outs', fl), (inl r, b') => r = fl /\ b' = set_outputs_env b outs' (env_insert (bd_env b) fl)
  | None, (inr _, _) => True
  | _, _ => False
  end.
Proof.
  unfold fill_deferred_outputs. destruct (deferred_indices (bd_outputs b)) as [|i idx] eqn:Hi.
  - apply deferred_indices_nil in Hi. rewrite fill_ref_none by done. split; [done|]. by destruct b.
  - rewrite <- Hi. exact (fill_loop_ref (sha256 (basic_to_aterm b)) drv_name b [] (bd_outputs b) [] eq_refl).
Qed.

Lemma computed_path_not_deferred drv_hash drv_name o sp :
  make_output (do_name o) drv_hash drv_name = inl sp -> deferred (with_path o (sp_full sp)) = false.
Proof.
  unfold make_output, from_fingerprint. destruct (validate_name _); [done|]. by intros [= <-].
Qed.

(** filling deferred outputs.  When the call succeeds, exactly the outputs
    with neither a path nor a hash algorithm get the path computed from the hash
    of the derivation as it was before the call; every other output, the sources,
    the arguments and the rest are untouched; the environment receives each
    filled path under its output's name; and nothing deferred is left, so a second
    call fills nothing and changes nothing. *)
Theorem fill_deferred_exact b drv_name filled b' :
  fill_deferred_outputs b drv_name = (inl filled, b') ->
  Forall2 (fun o o' => if deferred o
             then exists sp, make_output (do_name o) (sha256 (basic_to_aterm b)) drv_name = inl sp /\
                  o' = with_path o (sp_full sp)
             else o' = o) (bd_outputs b) (bd_outputs b') /\
  bd_env b' = env_insert (bd_env b) filled /\ b' = set_outputs_env b (bd_outputs b') (bd_env b') /\
  filled = List.map (fun o => (do_name o, do_path o))
             (List.map snd (List.filter (fun p => deferred (fst p)) (combine (bd_outputs b) (bd_outputs b')))) /\
  fill_deferred_outputs b' drv_name = (inl [], b').
Proof.
  intros H. pose proof (fill_deferred_ref b drv_name) as Hr. rewrite H in Hr.
  destruct (fill_ref _ _ _) as [[outs' fl]|] eqn:Hf; [|done]. destruct Hr as [-> ->].
  apply fill_ref_spec in Hf as [H1 H2]. cbn [bd_outputs bd_env set_outputs_env].
  split; [done|]. split; [done|]. split; [done|]. split; [done|].
  unfold fill_deferred_outputs. cbn [bd_outputs set_outputs_env].
  replace (deferred_indices outs') with (@nil nat); [done|]. symmetry. apply deferred_indices_nil. clear H H2.
  induction H1 as [|o o' os os' Ho _ IH]; constructor; [|done]. destruct (deferred o) eqn:Hd; [|by subst].
  destruct Ho as (sp & Hm & ->). by eapply computed_path_not_deferred.
Qed.
End Fill.

(** ** Witnesses *)

#[local] Existing Instance example_crypto.

Definition dep_drv : Derivation :=
  mkDerivation [mkDerivationOutput (str "out") (str "/nix/store/dep") (str "sha256") (str "00ff")] [] []
    (str "x86_64-linux") (str "/bin/sh") [] [].

Definition example_resolve (p : bytes) : option Derivation :=
  if bytes_eqb p (str "/nix/store/dep.drv") then Some dep_drv
  else if bytes_eqb p (str "/nix/store/top.drv") then Some example_drv else None.

Lemma hash_derivation_modulo_exact_witness :
  exists h, modulo_ref example_resolve 2 false example_drv = Some h /\
    fst (hash_derivation_modulo example_resolve example_drv (str "/nix/store/top.drv") ∅) = inl h.
Proof.
  assert (Hs : cache_sound example_resolve ∅) by (intros p h Hp; by rewrite lookup_empty in Hp).
  pose proof (hash_derivation_modulo_exact example_resolve example_drv (str "/nix/store/top.drv") ∅ Hs eq_refl) as H.
  cbn zeta in H. change (has_ca_floating_outputs (drv_outputs example_drv)) with false in H.
  destruct (modulo_ref example_resolve 2 false example_drv) as [h|] eqn:Hh; [|by vm_compute in Hh].
  exists h. split; [done|]. destruct (hash_derivation_modulo _ _ _ ∅) as [r c]. destruct H as (_ & H & _).
  apply (H 2%nat); [apply (bool_decide_unpack _); by vm_compute|done].
Defined.

(** A derivation that is its own input is a cycle, not a loop. *)
Example self_input_cycle :
  let top := str "/nix/store/top.drv" in
  let d := mkDerivation (drv_outputs example_drv) [(top, [str "out"])] [] [] [] [] [] in
  fst (hash_derivation_modulo (fun _ => Some d) d top ∅) = inr (DerivationError.CycleDetected top).
Proof. by vm_compute. Qed.

Definition example_basic : BasicDerivation :=
  mkBasicDerivation [mkDerivationOutput (str "dev") [] [] []; mkDerivationOutput (str "out") [] (str "r:sha256") []]
    [] (str "x86_64-linux") (str "/bin/sh") [] [(str "dev", [])].

Lemma fill_deferred_exact_witness : exists filled b',
  fill_deferred_outputs example_basic (str "hello") = (inl filled, b') /\ List.map fst filled = [str "dev"] /\
  fill_deferred_outputs b' (str "hello") = (inl [], b').
Proof.
  destruct (fill_deferred_outputs example_basic (str "hello")) as [[filled|e] b'] eqn:H; [|by vm_compute in H].
  exists filled, b'. split; [done|]. split; [by vm_compute in H; injection H as <- _|].
  apply (fill_deferred_exact example_basic (str "hello") filled b' H).
Defined.
