(* ===== verification/NixNarInfo.v ===== *)
(** * Nix formats: narinfo

    [src/rio-nix/src/narinfo.rs]: the text parser, the signing fingerprint and the
    verification of signatures against trusted keys.  base64 and Ed25519 are
    parameters. *)

From Stdlib Require Import Sorted.
From S2P Require Import Prelude NixBytes NixBase32 NixStorePath.

#[local] Open Scope Z_scope.

(** ** Text *)

(** The UTF-8 texts of the White_Space characters beyond ASCII: NEL, NBSP, OGHAM
    SPACE, U+2000 to U+200A, LINE and PARAGRAPH SEPARATOR, NNBSP, MMSP,
    IDEOGRAPHIC SPACE. *)
Definition WIDE_SPACES : list bytes :=
  [[194; 133]; [194; 160]; [225; 154; 128]] ++
  List.map (fun b => [226; 128; Z.of_nat b]) (seq 128 11) ++
  [[226; 128; 168]; [226; 128; 169]; [226; 128; 175]; [226; 129; 159]; [227; 128; 128]].

Definition ascii_space (b : Z) : bool := ((9 <=? b) && (b <=? 13)) || (b =? 32).

(** The length of the white space at the head, 0 when there is none. *)
Definition space_len (s : bytes) : nat :=
  match s with
  | [] => 0
  | b :: _ =>
      if ascii_space b then 1
      else match List.find (fun w => starts_with w s) WIDE_SPACES with Some w => length w | None => 0 end
  end.

(** The maximal runs without white space. *)
Fixpoint words (fuel : nat) (s : bytes) (cur : bytes) (acc : list bytes) : list bytes :=
  let flush := if bytes_eqb cur [] then acc else acc ++ [cur] in
  match fuel, s with
  | S fuel, b :: t =>
      match space_len s with
      | 0%nat => words fuel t (cur ++ [b]) acc
      | n => words fuel (drop n s) [] flush
      end
  | _, _ => flush
  end.

Definition split_whitespace (s : bytes) : list bytes := words (S (length s)) s [] [].

Fixpoint trim_start_loop (fuel : nat) (s : bytes) : bytes :=
  match fuel with
  | 0%nat => s
  | S fuel => match space_len s with 0%nat => s | n => trim_start_loop fuel (drop n s) end
  end.

(** The text up to the end of its last non-space: [keep] is what is certain,
    [pend] the spaces seen since. *)
Fixpoint trim_end_loop (fuel : nat) (s keep pend : bytes) : bytes :=
  match fuel, s with
  | S fuel, b :: t =>
      match space_len s with
      | 0%nat => trim_end_loop fuel t (keep ++ pend ++ [b]) []
      | n => trim_end_loop fuel (drop n s) keep (pend ++ take n s)
      end
  | _, _ => keep
  end.

Definition trim (s : bytes) : bytes :=
  let s := trim_start_loop (S (length s)) s in trim_end_loop (S (length s)) s [] [].

(** [str::lines]: split after each newline, drop the terminator. *)
Fixpoint lines_loop (s cur : bytes) : list bytes :=
  match s with
  | [] => if bytes_eqb cur [] then [] else [cur]
  | b :: t =>
      if b =? 10 then
        (match rev cur with 13 :: r => rev r | _ => cur end) :: lines_loop t []
      else lines_loop t (cur ++ [b])
  end.

Definition lines (s : bytes) : list bytes := lines_loop s [].

(** [str::parse::<u64>]: an optional [+], then at least one digit, no overflow. *)
Definition digit_step (acc : option Z) (c : Z) : option Z :=
  a ← acc;
  if (48 <=? c) && (c <=? 57)
  then let v := a * 10 + (c - 48) in if v <? 2 ^ 64 then Some v else None
  else None.

Definition u64_digits (s : bytes) : option Z := fold_left digit_step s (Some 0).

Definition parse_u64 (s : bytes) : option Z :=
  match s with
  | [] => None
  | 43 :: [] => None
  | 43 :: t => u64_digits t
  | _ => u64_digits s
  end.

(** The decimal text of a [u64]. *)
Fixpoint decimal_loop (fuel : nat) (n : Z) (acc : bytes) : bytes :=
  match fuel with
  | 0%nat => acc
  | S fuel =>
      let acc := (48 + n mod 10) :: acc in
      if n <? 10 then acc else decimal_loop fuel (n / 10) acc
  end.

Definition decimal (n : Z) : bytes := decimal_loop 20 n [].

(** ** The record *)

Module NarInfoError.
Inductive NarInfoError : Type :=
| MissingField (f : bytes)
| InvalidNarSize (value : bytes)
| InvalidFileSize (value : bytes)
| DuplicateField (f : bytes)
| InvalidReference (value : bytes) (source : StorePathError)
| InvalidDeriver (value : bytes) (source : StorePathError).
End NarInfoError.
Abbreviation NarInfoError := NarInfoError.NarInfoError.

Record NarInfo : Type := mkNarInfo {
  ni_store_path : bytes;
  ni_url : bytes;
  ni_compression : bytes;
  ni_nar_hash : bytes;
  ni_nar_size : Z;
  ni_references : list bytes;
  ni_deriver : option bytes;
  ni_sigs : list bytes;
  ni_ca : option bytes;
  ni_file_hash : option bytes;
  ni_file_size : option Z;
}.

(** [None] is [Ok(())]. *)
Definition validate_basename (token : bytes) : option StorePathError :=
  match parse (STORE_PREFIX ++ token) with inl _ => None | inr e => Some e end.

(** The locals of [NarInfo::parse]. *)
Record Fields : Type := mkFields {
  f_store_path : option bytes;
  f_url : option bytes;
  f_compression : option bytes;
  f_nar_hash : option bytes;
  f_nar_size : option Z;
  f_references : list bytes;
  f_deriver : option bytes;
  f_sigs : list bytes;
  f_ca : option bytes;
  f_file_hash : option bytes;
  f_file_size : option Z;
  f_refs_seen : bool;
  f_deriver_seen : bool;
}.

Definition no_fields : Fields := mkFields None None None None None [] None [] None None None false false.

(** The [once!] macro. *)
Definition once {A} (field : option A) (name : bytes) (v : A) (set : option A -> Fields) : Fields + NarInfoError :=
  match field with Some _ => inr (NarInfoError.DuplicateField name) | None => inl (set (Some v)) end.

(** The tokens of a [References] line, validated in order. *)
Fixpoint check_references (tokens : list bytes) (acc : list bytes) : list bytes + NarInfoError :=
  match tokens with
  | [] => inl acc
  | t :: tokens =>
      match validate_basename t with
      | Some e => inr (NarInfoError.InvalidReference t e)
      | None => check_references tokens (acc ++ [t])
      end
  end.

Section Set_.
Context (f : Fields).
Definition set_store_path v := mkFields v (f_url f) (f_compression f) (f_nar_hash f) (f_nar_size f) (f_references f) (f_deriver f) (f_sigs f) (f_ca f) (f_file_hash f) (f_file_size f) (f_refs_seen f) (f_deriver_seen f).
Definition set_url v := mkFields (f_store_path f) v (f_compression f) (f_nar_hash f) (f_nar_size f) (f_references f) (f_deriver f) (f_sigs f) (f_ca f) (f_file_hash f) (f_file_size f) (f_refs_seen f) (f_deriver_seen f).
Definition set_compression v := mkFields (f_store_path f) (f_url f) v (f_nar_hash f) (f_nar_size f) (f_references f) (f_deriver f) (f_sigs f) (f_ca f) (f_file_hash f) (f_file_size f) (f_refs_seen f) (f_deriver_seen f).
Definition set_nar_hash v := mkFields (f_store_path f) (f_url f) (f_compression f) v (f_nar_size f) (f_references f) (f_deriver f) (f_sigs f) (f_ca f) (f_file_hash f) (f_file_size f) (f_refs_seen f) (f_deriver_seen f).
Definition set_nar_size v := mkFields (f_store_path f) (f_url f) (f_compression f) (f_nar_hash f) v (f_references f) (f_deriver f) (f_sigs f) (f_ca f) (f_file_hash f) (f_file_size f) (f_refs_seen f) (f_deriver_seen f).
Definition set_references v := mkFields (f_store_path f) (f_url f) (f_compression f) (f_nar_hash f) (f_nar_size f) v (f_deriver f) (f_sigs f) (f_ca f) (f_file_hash f) (f_file_size f) true (f_deriver_seen f).
Definition set_deriver v := mkFields (f_store_path f) (f_url f) (f_compression f) (f_nar_hash f) (f_nar_size f) (f_references f) v (f_sigs f) (f_ca f) (f_file_hash f) (f_file_size f) (f_refs_seen f) true.
Definition add_sig v := mkFields (f_store_path f) (f_url f) (f_compression f) (f_nar_hash f) (f_nar_size f) (f_references f) (f_deriver f) (f_sigs f ++ [v]) (f_ca f) (f_file_hash f) (f_file_size f) (f_refs_seen f) (f_deriver_seen f).
Definition set_ca v := mkFields (f_store_path f) (f_url f) (f_compression f) (f_nar_hash f) (f_nar_size f) (f_references f) (f_deriver f) (f_sigs f) v (f_file_hash f) (f_file_size f) (f_refs_seen f) (f_deriver_seen f).
Definition set_file_hash v := mkFields (f_store_path f) (f_url f) (f_compression f) (f_nar_hash f) (f_nar_size f) (f_references f) (f_deriver f) (f_sigs f) (f_ca f) v (f_file_size f) (f_refs_seen f) (f_deriver_seen f).
Definition set_file_size v := mkFields (f_store_path f) (f_url f) (f_compression f) (f_nar_hash f) (f_nar_size f) (f_references f) (f_deriver f) (f_sigs f) (f_ca f) (f_file_hash f) v (f_refs_seen f) (f_deriver_seen f).
End Set_.

(** The [match key] of the loop. *)
Definition parse_field (key value : bytes) (f : Fields) : Fields + NarInfoError :=
  if bytes_eqb key (str "StorePath") then once (f_store_path f) key value (set_store_path f)
  else if bytes_eqb key (str "URL") then once (f_url f) key value (set_url f)
  else if bytes_eqb key (str "Compression") then once (f_compression f) key value (set_compression f)
  else if bytes_eqb key (str "NarHash") then once (f_nar_hash f) key value (set_nar_hash f)
  else if bytes_eqb key (str "NarSize") then
    match f_nar_size f with
    | Some _ => inr (NarInfoError.DuplicateField key)
    | None => match parse_u64 value with
              | None => inr (NarInfoError.InvalidNarSize value)
              | Some n => inl (set_nar_size f (Some n))
              end
    end
  else if bytes_eqb key (str "References") then
    if f_refs_seen f then inr (NarInfoError.DuplicateField key)
    else match check_references (split_whitespace value) [] with
         | inr e => inr e
         | inl refs => inl (set_references f refs)
         end
  else if bytes_eqb key (str "Deriver") then
    if f_deriver_seen f then inr (NarInfoError.DuplicateField key)
    else if negb (bytes_eqb value (str "unknown-deriver")) then
      match validate_basename value with
      | Some e => inr (NarInfoError.InvalidDeriver value e)
      | None => inl (set_deriver f (Some value))
      end
    else inl (set_deriver f None)
  else if bytes_eqb key (str "Sig") then inl (add_sig f value)
  else if bytes_eqb key (str "CA") then once (f_ca f) key value (set_ca f)
  else if bytes_eqb key (str "FileHash") then once (f_file_hash f) key value (set_file_hash f)
  else if bytes_eqb key (str "FileSize") then
    match f_file_size f with
    | Some _ => inr (NarInfoError.DuplicateField key)
    | None => match parse_u64 value with
              | None => inr (NarInfoError.InvalidFileSize value)
              | Some n => inl (set_file_size f (Some n))
              end
    end
  else inl f.

(** One line of the text. *)
Definition parse_line (line : bytes) (f : Fields) : Fields + NarInfoError :=
  let line := trim line in
  if bytes_eqb line [] then inl f
  else match split_once COLON line with
       | None => inl f
       | Some (key, value) => parse_field (trim key) (trim value) f
       end.

Fixpoint parse_lines (ls : list bytes) (f : Fields) : Fields + NarInfoError :=
  match ls with
  | [] => inl f
  | l :: ls => match parse_line l f with inl f => parse_lines ls f | inr e => inr e end
  end.

(** The record, required fields first to last. *)
Definition finish (f : Fields) : NarInfo + NarInfoError :=
  match f_store_path f, f_url f, f_compression f, f_nar_hash f, f_nar_size f with
  | None, _, _, _, _ => inr (NarInfoError.MissingField (str "StorePath"))
  | _, None, _, _, _ => inr (NarInfoError.MissingField (str "URL"))
  | _, _, None, _, _ => inr (NarInfoError.MissingField (str "Compression"))
  | _, _, _, None, _ => inr (NarInfoError.MissingField (str "NarHash"))
  | _, _, _, _, None => inr (NarInfoError.MissingField (str "NarSize"))
  | Some sp, Some url, Some c, Some h, Some n =>
      inl (mkNarInfo sp url c h n (f_references f) (f_deriver f) (f_sigs f) (f_ca f) (f_file_hash f) (f_file_size f))
  end.

(** [NarInfo::parse]. *)
Definition narinfo_parse (text : bytes) : NarInfo + NarInfoError :=
  match parse_lines (lines text) no_fields with inl f => finish f | inr e => inr e end.

(** ** Fingerprint and signatures *)

(** [join(",")]. *)
Fixpoint join (sep : bytes) (l : list bytes) : bytes :=
  match l with
  | [] => []
  | [x] => x
  | x :: l => x ++ sep ++ join sep l
  end.

Definition fingerprint (store_path nar_hash_sha256 : bytes) (nar_size : Z) (references : list bytes) : bytes :=
  str "1;" ++ store_path ++ str ";" ++ (str "sha256:" ++ encode nar_hash_sha256) ++ str ";" ++ decimal nar_size ++ str ";" ++
  join (str ",") (dedup (sort_bytes references)).

(** [&s[..=s.rfind('/')?]]. *)
Fixpoint upto_last_slash (s : bytes) : option bytes :=
  match s with
  | [] => None
  | b :: t => match upto_last_slash t with
              | Some p => Some (b :: p)
              | None => if b =? SLASH then Some [b] else None
              end
  end.

(** The fingerprint [verify_sig] rebuilds. *)
Definition sig_fingerprint (ni : NarInfo) : option bytes :=
  store_dir ← upto_last_slash (ni_store_path ni);
  let full_refs := dedup (sort_bytes (List.map (fun r => store_dir ++ r) (ni_references ni))) in
  Some (str "1;" ++ ni_store_path ni ++ str ";" ++ ni_nar_hash ni ++ str ";" ++ decimal (ni_nar_size ni) ++ str ";" ++
        join (str ",") full_refs).

(** The [ed25519_dalek] crate: key decoding and verification. *)
Class Ed25519 : Type := {
  VerifyingKey : Type;
  key_from_bytes : bytes -> option VerifyingKey;
  verify : VerifyingKey -> bytes -> bytes -> bool;
}.

Section Verify.
Context `{C : NixCrypto} `{S : Ed25519}.

(** A trusted key: [name:base64], 32 bytes; malformed entries are skipped. *)
Definition trusted_key (k : bytes) : option (bytes * VerifyingKey) :=
  '(name, pk_b64) ← split_once COLON k;
  pk ← base64_decode pk_b64;
  if negb (length pk =? 32)%nat then None else vk ← key_from_bytes pk; Some (name, vk).

(** One [Sig] entry: the name when it verifies. *)
Definition check_sig (keys : list (bytes * VerifyingKey)) (fp sig : bytes) : option bytes :=
  '(sig_name, sig_b64) ← split_once COLON sig;
  '(_, vk) ← List.find (fun k => bytes_eqb (fst k) sig_name) keys;
  sig_bytes ← base64_decode sig_b64;
  if negb (length sig_bytes =? 64)%nat then None
  else if verify vk fp sig_bytes then Some sig_name else None.

Fixpoint first_sig (keys : list (bytes * VerifyingKey)) (fp : bytes) (sigs : list bytes) : option bytes :=
  match sigs with
  | [] => None
  | s :: sigs => match check_sig keys fp s with Some n => Some n | None => first_sig keys fp sigs end
  end.

Definition verify_sig (ni : NarInfo) (trusted_keys : list bytes) : option bytes :=
  let keys := omap trusted_key trusted_keys in
  match keys with
  | [] => None
  | _ => fp ← sig_fingerprint ni; first_sig keys fp (ni_sigs ni)
  end.

End Verify.

Example parse_narinfo :
  match narinfo_parse (str "StorePath: /nix/store/aaaaaaaaaaaaaaaaaaaaaaaaaaaaaaaa-hello" ++ [13; 10] ++
    str "URL: nar/x.nar" ++ [10] ++ str "Compression:  zstd " ++ [10; 10] ++ str "NarHash: sha256:abc" ++ [10] ++
    str "NarSize: 18446744073709551615" ++ [10] ++ str "References: aaaaaaaaaaaaaaaaaaaaaaaaaaaaaaaa-a  bbbbbbbbbbbbbbbbbbbbbbbbbbbbbbbb-b" ++ [10] ++
    str "Deriver: unknown-deriver" ++ [10] ++ str "Sig: k:1" ++ [10] ++ str "Sig: k:2") with
  | inl ni => ni_compression ni = str "zstd" /\ ni_nar_size ni = 18446744073709551615 /\
      ni_references ni = [str "aaaaaaaaaaaaaaaaaaaaaaaaaaaaaaaa-a"; str "bbbbbbbbbbbbbbbbbbbbbbbbbbbbbbbb-b"] /\
      ni_deriver ni = None /\ ni_sigs ni = [str "k:1"; str "k:2"] /\
      ni_store_path ni = str "/nix/store/aaaaaaaaaaaaaaaaaaaaaaaaaaaaaaaa-hello"
  | inr _ => False
  end.
Proof. vm_compute. done. Qed.

(** ** Decimal texts *)

(** The value of a digit string continued from [a]. *)
Definition digits_from (a : Z) (s : bytes) : Z := fold_left (fun v c => v * 10 + (c - 48)) s a.

Definition is_digits (s : bytes) : Prop := Forall (fun c => 48 <= c <= 57) s.

Lemma digits_from_mono a s : is_digits s -> 0 <= a -> a <= digits_from a s.
Proof.
  intros Hs. revert a. induction Hs as [|c s Hc _ IH]; intros a Ha; cbn; [lia|].
  fold (digits_from (a * 10 + (c - 48)) s). specialize (IH (a * 10 + (c - 48)) ltac:(lia)). lia.
Qed.

Lemma u64_digits_value s a :
  is_digits s -> 0 <= a -> digits_from a s < 2 ^ 64 ->
  fold_left digit_step s (Some a) = Some (digits_from a s).
Proof.
  intros Hs. revert a. induction Hs as [|c s Hc Hs IH]; intros a Ha Hlt; cbn [fold_left digit_step mbind option_bind]; [done|].
  replace ((48 <=? c) && (c <=? 57)) with true by lia. cbn zeta.
  change (digits_from a (c :: s)) with (digits_from (a * 10 + (c - 48)) s) in *.
  pose proof (digits_from_mono (a * 10 + (c - 48)) s Hs ltac:(lia)).
  replace (a * 10 + (c - 48) <? 2 ^ 64) with true by lia. apply IH; lia.
Qed.

Lemma digits_from_app a s t : digits_from a (s ++ t) = digits_from (digits_from a s) t.
Proof. unfold digits_from. apply fold_left_app. Qed.

Lemma decimal_loop_spec fuel n acc :
  0 <= n < 10 ^ Z.of_nat fuel -> is_digits acc -> (0 < fuel)%nat ->
  exists d ds, decimal_loop fuel n acc = d :: ds ++ acc /\ is_digits (d :: ds) /\ digits_from 0 (d :: ds) = n.
Proof.
  revert n acc. induction fuel as [|fuel IH]; intros n acc Hn Hacc Hf; [lia|]. cbn [decimal_loop].
  assert (Hd : 48 <= 48 + n mod 10 <= 57) by lia.
  destruct (Z.ltb_spec n 10) as [Hlt|Hge].
  - exists (48 + n mod 10), []. split; [done|]. split; [by constructor|]. cbn. lia.
  - rewrite Nat2Z.inj_succ, Z.pow_succ_r in Hn by lia.
    assert (Hfuel : (0 < fuel)%nat) by (destruct fuel; [cbn in Hn; lia|lia]).
    destruct (IH (n / 10) ((48 + n mod 10) :: acc)) as (d & ds & -> & Hds & Hv); [lia|by constructor|done|].
    exists d, (ds ++ [48 + n mod 10]). split; [by rewrite <- app_assoc|].
    change (d :: ds ++ [48 + n mod 10]) with ((d :: ds) ++ [48 + n mod 10]). split.
    + apply Forall_app. split; [done|by constructor].
    + rewrite digits_from_app, Hv. cbn. lia.
Qed.

Lemma decimal_spec n : 0 <= n < 2 ^ 64 -> is_digits (decimal n) /\ parse_u64 (decimal n) = Some n.
Proof.
  intros Hn. destruct (decimal_loop_spec 20 n []) as (d & ds & Hd & Hds & Hv); [cbn; lia|constructor|lia|].
  unfold decimal. rewrite app_nil_r in Hd. rewrite Hd. split; [done|]. pose proof Hds as [Hd1 _]%Forall_cons.
  assert (Hp : u64_digits (d :: ds) = Some n).
  { unfold u64_digits. rewrite u64_digits_value; [by rewrite Hv|done|lia|lia]. }
  unfold parse_u64. destruct d as [|d|d]; try lia. do 6 (destruct d as [d|d|]; try lia; try exact Hp). 
Qed.

Lemma decimal_inj n m : 0 <= n < 2 ^ 64 -> 0 <= m < 2 ^ 64 -> decimal n = decimal m -> n = m.
Proof.
  intros Hn Hm H. pose proof (proj2 (decimal_spec n Hn)) as H1. pose proof (proj2 (decimal_spec m Hm)) as H2. congruence.
Qed.

Lemma parse_u64_range s n : parse_u64 s = Some n -> 0 <= n < 2 ^ 64.
Proof.
  assert (Hd : forall s a n, 0 <= a < 2 ^ 64 -> fold_left digit_step s (Some a) = Some n -> 0 <= n < 2 ^ 64).
  { clear. induction s as [|c s IH]; intros a n Ha; cbn [fold_left digit_step mbind option_bind]; [intros [= <-]; done|].
    destruct ((48 <=? c) && (c <=? 57)) eqn:Hc.
    - cbn zeta. destruct (Z.ltb_spec (a * 10 + (c - 48)) (2 ^ 64)) as [Hlt|Hge].
      + apply IH. lia.
      + intros H. exfalso. revert H. clear. induction s as [|c s IH]; cbn; [done|apply IH].
    - intros H. exfalso. revert H. clear. induction s as [|c s IH]; cbn; [done|apply IH]. }
  unfold parse_u64, u64_digits. repeat case_match; try done; apply Hd; lia.
Qed.

(** ** Separators *)

Definition SEMI : Z := 59.
Definition COMMA : Z := 44.

Fixpoint count_byte (c : Z) (s : bytes) : nat :=
  match s with [] => 0 | b :: s => (if b =? c then 1 else 0) + count_byte c s end.

Lemma count_byte_app c (a b : bytes) : count_byte c (a ++ b) = (count_byte c a + count_byte c b)%nat.
Proof. induction a as [|x a IH]; cbn; [done|]. lia. Qed.

Lemma count_byte_0 c s : count_byte c s = 0%nat <-> c ∉ s.
Proof.
  induction s as [|b s IH]; cbn; [set_solver|]. rewrite not_elem_of_cons, <- IH.
  destruct (Z.eqb_spec b c); split; intros; [lia|naive_solver|split; [congruence|lia]|lia].
Qed.

Lemma sep_inj (c : Z) (a b x y : bytes) : c ∉ a -> c ∉ b -> a ++ [c] ++ x = b ++ [c] ++ y -> a = b /\ x = y.
Proof.
  intros Ha Hb H. assert (H1 : split_once c (a ++ [c] ++ x) = Some (a, x)) by (by apply split_once_app).
  rewrite H, (split_once_app c b y Hb) in H1. naive_solver.
Qed.

(** Non-empty items without the separator are recovered from their join. *)
Lemma join_inj (c : Z) (l l' : list bytes) :
  Forall (fun s => s <> [] /\ c ∉ s) l -> Forall (fun s => s <> [] /\ c ∉ s) l' -> join [c] l = join [c] l' -> l = l'.
Proof.
  assert (Hne : forall x l, x <> [] -> join [c] (x :: l) <> []) by (intros x [|? ?]; by destruct x).
  intros Hl. revert l'. induction Hl as [|x l [Hx Hcx] Hl IH]; intros l' Hl'; destruct Hl' as [|y l' [Hy Hcy] Hl'].
  - done.
  - intros H. symmetry in H. by apply Hne in H.
  - intros H. by apply Hne in H.
  - destruct l as [|x2 l], l' as [|y2 l'].
    + cbn. by intros ->.
    + change (join [c] (y :: y2 :: l')) with (y ++ [c] ++ join [c] (y2 :: l')). cbn [join]. intros ->.
      exfalso. apply Hcx. rewrite elem_of_app. right. by left.
    + change (join [c] (x :: x2 :: l)) with (x ++ [c] ++ join [c] (x2 :: l)). cbn [join]. intros <-.
      exfalso. apply Hcy. rewrite elem_of_app. right. by left.
    + change (join [c] (x :: x2 :: l)) with (x ++ [c] ++ join [c] (x2 :: l)).
      change (join [c] (y :: y2 :: l')) with (y ++ [c] ++ join [c] (y2 :: l')).
      intros [-> H]%sep_inj; [|done..]. f_equal. by apply IH.
Qed.

Lemma join_no (c d : Z) (l : list bytes) : c <> d -> Forall (fun s => c ∉ s) l -> c ∉ join [d] l.
Proof.
  intros Hne. induction 1 as [|x l Hx Hl IH]; cbn [join]; [set_solver|]. destruct l as [|y l]; [done|].
  rewrite !elem_of_app, list_elem_of_singleton. intros [?|[?|?]]; done.
Qed.

(** No byte outside the alphabets of a store path. *)
Lemma store_path_no c s sp :
  parse s = inl sp -> bool_decide (c ∈ STORE_PREFIX ++ [DASH] ++ CHARS ++ [0]) = false -> is_valid_name_char c = false -> c ∉ s.
Proof.
  intros (_ & _ & (_ & _ & Hn & _) & -> & _)%parse_inv Hc Hv. apply bool_decide_eq_false in Hc.
  unfold render. change (STORE_DIR ++ [SLASH] ++ encode (sp_hash sp) ++ [DASH] ++ sp_name sp)
    with (STORE_PREFIX ++ encode (sp_hash sp) ++ [DASH] ++ sp_name sp). rewrite !elem_of_app in *.
  intros [H|[H|[H|H]]]; [tauto| |tauto|].
  - apply (CHARS_no c) in H; [done|]. apply bool_decide_eq_false. rewrite elem_of_app. tauto.
  - rewrite Forall_forall in Hn. rewrite (Hn c H) in Hv. done.
Qed.

Lemma store_path_nonempty s sp : parse s = inl sp -> s <> [].
Proof. by intros (_ & _ & _ & -> & _)%parse_inv. Qed.

Lemma upto_last_slash_app p r : SLASH ∉ r -> upto_last_slash (p ++ [SLASH] ++ r) = Some (p ++ [SLASH]).
Proof.
  intros Hr. assert (H0 : upto_last_slash r = None).
  { induction r as [|b r IH]; cbn; [done|]. rewrite IH by set_solver. destruct (Z.eqb_spec b SLASH); [set_solver|done]. }
  induction p as [|b p IH]; cbn [app upto_last_slash].
  - rewrite H0. done.
  - cbn [app] in IH. by rewrite IH.
Qed.

Lemma store_path_dir s sp : parse s = inl sp -> upto_last_slash s = Some STORE_PREFIX.
Proof.
  intros (_ & _ & (_ & _ & Hn & _) & -> & _)%parse_inv. unfold render.
  apply (upto_last_slash_app STORE_DIR). rewrite !elem_of_app. intros [H|[H|H]].
  - by apply (CHARS_no SLASH) in H.
  - by apply list_elem_of_singleton in H.
  - rewrite Forall_forall in Hn. by apply Hn in H.
Qed.

(** ** What a parse guarantees *)

Definition valid_basename (t : bytes) : Prop := exists sp, parse (STORE_PREFIX ++ t) = inl sp.

Lemma validate_basename_None t : validate_basename t = None <-> valid_basename t.
Proof. unfold validate_basename, valid_basename. destruct (parse _); naive_solver. Qed.

Definition fields_ok (f : Fields) : Prop :=
  Forall valid_basename (f_references f) /\ (forall t, f_deriver f = Some t -> valid_basename t) /\
  (forall n, f_nar_size f = Some n -> 0 <= n < 2 ^ 64) /\ (forall n, f_file_size f = Some n -> 0 <= n < 2 ^ 64).

Lemma check_references_ok tokens acc refs :
  check_references tokens acc = inl refs -> Forall valid_basename acc -> Forall valid_basename refs.
Proof.
  revert acc. induction tokens as [|t tokens IH]; intros acc; cbn [check_references]; [by intros [= <-]|].
  destruct (validate_basename t) eqn:Ht; [done|]. intros H Ha. apply (IH _ H), Forall_app. split; [done|].
  constructor; [by apply validate_basename_None|constructor].
Qed.

Lemma parse_field_ok key value f f' : fields_ok f -> parse_field key value f = inl f' -> fields_ok f'.
Proof.
  intros (H1 & H2 & H3 & H4). unfold parse_field, once.
  repeat (case_match; try done); intros [= <-]; unfold fields_ok; cbn -[Z.pow];
    (split; [|split; [|split]]); try done.
  - intros n [= <-]. by eapply parse_u64_range.
  - eapply check_references_ok; [eassumption|constructor].
  - intros t [= <-]. by apply validate_basename_None.
  - intros n [= <-]. by eapply parse_u64_range.
Qed.

Lemma parse_lines_ok ls f f' : fields_ok f -> parse_lines ls f = inl f' -> fields_ok f'.
Proof.
  revert f. induction ls as [|l ls IH]; intros f Hf; cbn [parse_lines]; [by intros [= <-]|].
  destruct (parse_line l f) as [f1|] eqn:Hl; [|done]. apply IH. unfold parse_line in Hl.
  repeat (case_match; simplify_eq; try done). by eapply parse_field_ok.
Qed.

Lemma narinfo_parse_ok text ni :
  narinfo_parse text = inl ni ->
  Forall valid_basename (ni_references ni) /\ (forall t, ni_deriver ni = Some t -> valid_basename t) /\
  0 <= ni_nar_size ni < 2 ^ 64.
Proof.
  unfold narinfo_parse. destruct (parse_lines (lines text) no_fields) as [f|] eqn:Hl; [|done].
  assert (Hf : fields_ok f).
  { eapply parse_lines_ok; [|exact Hl]. by repeat split. }
  destruct Hf as (H1 & H2 & H3 & _). unfold finish. repeat (case_match; try done). intros [= <-]. cbn. auto.
Qed.

(** ** A signature binds what it signs *)

(** What a signer publishes about a path. *)
Record PathInfo : Type := mkPathInfo {
  pi_store_path : bytes;
  pi_nar_hash : bytes;
  pi_nar_size : Z;
  pi_references : list bytes;
}.

Definition path_info_ok (i : PathInfo) : Prop :=
  (exists sp, parse (pi_store_path i) = inl sp) /\ 0 <= pi_nar_size i < 2 ^ 64 /\
  Forall (fun r => exists sp, parse r = inl sp) (pi_references i).

Definition info_fingerprint (i : PathInfo) : bytes :=
  fingerprint (pi_store_path i) (pi_nar_hash i) (pi_nar_size i) (pi_references i).

(** The narinfo states exactly the published facts. *)
Definition states (ni : NarInfo) (i : PathInfo) : Prop :=
  ni_store_path ni = pi_store_path i /\ ni_nar_hash ni = str "sha256:" ++ encode (pi_nar_hash i) /\
  ni_nar_size ni = pi_nar_size i /\
  forall p, p ∈ List.map (fun r => STORE_PREFIX ++ r) (ni_references ni) <-> p ∈ pi_references i.

Lemma dedup_sort_elem l p : p ∈ dedup (sort_bytes l) <-> p ∈ l.
Proof. destruct (dedup_spec _ (sort_bytes_sorted l)) as [_ H]. by rewrite H, sort_bytes_elem. Qed.

Lemma decimal_no c n : 0 <= n < 2 ^ 64 -> ~ (48 <= c <= 57) -> c ∉ decimal n.
Proof. intros [Hd _]%decimal_spec Hc H. unfold is_digits in Hd. rewrite Forall_forall in Hd. by apply Hd in H. Qed.

Lemma refs_no c l :
  Forall (fun r => exists sp, parse r = inl sp) l ->
  bool_decide (c ∈ STORE_PREFIX ++ [DASH] ++ CHARS ++ [0]) = false -> is_valid_name_char c = false ->
  Forall (fun s => s <> [] /\ c ∉ s) (dedup (sort_bytes l)).
Proof.
  intros Hl Hc Hv. rewrite Forall_forall in Hl |- *. intros s Hs. rewrite dedup_sort_elem in Hs. destruct (Hl s Hs) as [sp Hsp].
  split; [by eapply store_path_nonempty|by eapply store_path_no].
Qed.

Lemma fingerprint_semis i :
  path_info_ok i ->
  SEMI ∉ pi_store_path i /\ SEMI ∉ str "sha256:" ++ encode (pi_nar_hash i) /\ SEMI ∉ decimal (pi_nar_size i) /\
  SEMI ∉ join (str ",") (dedup (sort_bytes (pi_references i))).
Proof.
  intros ([sp Hsp] & Hn & Hr). split; [by eapply store_path_no|]. split; [|split].
  - rewrite elem_of_app. intros [H|H]; [|by apply (CHARS_no SEMI) in H]. assert (bool_decide (SEMI ∈ str "sha256:") = false) as Hb by (by vm_compute).
    by apply bool_decide_eq_false in Hb.
  - apply decimal_no; [done|unfold SEMI; lia].
  - apply (join_no SEMI COMMA); [done|]. eapply Forall_impl; [by apply (refs_no SEMI)|]. tauto.
Qed.

Lemma fingerprint_binds ni i :
  Forall valid_basename (ni_references ni) -> 0 <= ni_nar_size ni < 2 ^ 64 -> path_info_ok i ->
  sig_fingerprint ni = Some (info_fingerprint i) -> states ni i.
Proof.
  intros Href Hsz Hi. destruct (fingerprint_semis i Hi) as (S1 & S2 & S3 & S4). destruct Hi as ([sp Hsp] & Hn & Hr).
  unfold sig_fingerprint. intros (dir & Hdir & H)%bind_Some. cbn zeta in H. apply (inj Some) in H.
  set (refs := dedup _) in H. unfold info_fingerprint, fingerprint in H.
  apply app_inv_head in H. change (str ";") with [SEMI] in H.
  assert (Hcount : SEMI ∉ ni_store_path ni /\ SEMI ∉ ni_nar_hash ni /\ SEMI ∉ decimal (ni_nar_size ni)).
  { pose proof (f_equal (count_byte SEMI) H) as Hc. rewrite !count_byte_app in Hc.
    apply count_byte_0 in S1, S2, S3, S4. rewrite count_byte_app in S2. rewrite S1, S3, S4 in Hc.
    change (count_byte SEMI [SEMI]) with 1%nat in Hc. rewrite <- !count_byte_0. lia. }
  destruct Hcount as (C1 & C2 & C3). apply sep_inj in H as [Hp H]; [|done..]. apply sep_inj in H as [Hh H]; [|done..].
  apply sep_inj in H as [Hd H]; [|done..]. apply decimal_inj in Hd; [|done..].
  rewrite Hp, (store_path_dir _ _ Hsp) in Hdir. injection Hdir as <-.
  apply (join_inj COMMA) in H; [|apply (refs_no COMMA)|by apply (refs_no COMMA)].
  - split; [done|]. split; [done|]. split; [done|]. intros p. unfold refs in H.
    by rewrite <- dedup_sort_elem, H, dedup_sort_elem.
  - apply Forall_map. exact Href.
  - done.
  - done.
Qed.

Section Trust.
Context `{C : NixCrypto} `{S : Ed25519}.

Lemma first_sig_Some keys fp sigs name :
  first_sig keys fp sigs = Some name ->
  exists vk sig, (name, vk) ∈ keys /\ verify vk fp sig = true.
Proof.
  induction sigs as [|s sigs IH]; cbn [first_sig]; [done|].
  destruct (check_sig keys fp s) as [n|] eqn:Hc; [|exact IH]. intros [= ->]. unfold check_sig in Hc.
  apply bind_Some in Hc as ([sn sb] & _ & Hc). apply bind_Some in Hc as ([kn vk] & Hf & Hc).
  apply bind_Some in Hc as (sig & _ & Hc). destruct (negb _); [done|]. destruct (verify vk fp sig) eqn:Hv; [|done].
  injection Hc as ->. apply find_some in Hf as [Hin He]. cbn in He. unfold bytes_eqb in He.
  apply bool_decide_eq_true in He as ->. exists vk, sig. split; [by apply list_elem_of_In|done].
Qed.

Lemma verify_sig_Some ni trusted_keys name :
  verify_sig ni trusted_keys = Some name ->
  exists k vk fp sig, k ∈ trusted_keys /\ trusted_key k = Some (name, vk) /\ sig_fingerprint ni = Some fp /\
    verify vk fp sig = true.
Proof.
  unfold verify_sig. destruct (omap trusted_key trusted_keys) as [|k0 ks] eqn:Hk; [done|].
  intros (fp & Hfp & (vk & sig & Hin & Hv)%first_sig_Some)%bind_Some. rewrite <- Hk in Hin.
  apply list_elem_of_omap in Hin as (k & Hk1 & Hk2). by exists k, vk, fp, sig.
Qed.

(** C28: a signature binds what it signs.  Suppose the trusted keys only ever
    signed fingerprints of published path infos.  Then a narinfo text that parses
    and passes [verify_sig] states exactly the facts of one published info: the
    same store path, the same archive hash, the same size, and the same set of
    references.  No choice of field contents can make the rebuilt fingerprint
    collide with one of other facts, although the store path and the hash are
    taken from the text unchecked; and the name returned is that of a trusted
    key. *)
Theorem verified_narinfo_published (published : PathInfo -> Prop) text ni trusted_keys name :
  (forall k n vk fp sig, k ∈ trusted_keys -> trusted_key k = Some (n, vk) -> verify vk fp sig = true ->
     exists i, published i /\ path_info_ok i /\ fp = info_fingerprint i) ->
  narinfo_parse text = inl ni -> verify_sig ni trusted_keys = Some name ->
  (exists i, published i /\ states ni i) /\ exists k vk, k ∈ trusted_keys /\ trusted_key k = Some (name, vk).
Proof.
  intros Hsigned (Hrefs & _ & Hsz)%narinfo_parse_ok (k & vk & fp & sig & Hk & Hkey & Hfp & Hv)%verify_sig_Some.
  destruct (Hsigned _ _ _ _ _ Hk Hkey Hv) as (i & Hpub & Hok & ->). split; [|by exists k, vk].
  exists i. split; [done|]. by apply fingerprint_binds.
Qed.
End Trust.

(** ** Witness *)

#[local] Existing Instance example_crypto.

Definition example_info : PathInfo :=
  mkPathInfo (str "/nix/store/aaaaaaaaaaaaaaaaaaaaaaaaaaaaaaaa-hello") hello_digest 12345
    [str "/nix/store/bbbbbbbbbbbbbbbbbbbbbbbbbbbbbbbb-libc"].

#[local] Instance example_ed25519 : Ed25519 := {
  VerifyingKey := unit;
  key_from_bytes _ := Some tt;
  verify _ fp _ := bytes_eqb fp (info_fingerprint example_info);
}.

Definition example_text : bytes :=
  str "StorePath: /nix/store/aaaaaaaaaaaaaaaaaaaaaaaaaaaaaaaa-hello" ++ [10] ++ str "URL: nar/x.nar" ++ [10] ++
  str "Compression: zstd" ++ [10] ++ str "NarHash: sha256:094qif9n4cq4fdg459qzbhg1c6wywawwaaivx0k0x8xhbyx4vwic" ++ [10] ++
  str "NarSize: 12345" ++ [10] ++ str "References: bbbbbbbbbbbbbbbbbbbbbbbbbbbbbbbb-libc" ++ [10] ++
  str "Sig: key-1:" ++ hex_encode (repeat 0 64) ++ [10].

Definition example_keys : list bytes := [str "bad key"; str "key-1:" ++ hex_encode (repeat 0 32)].

Lemma verified_narinfo_published_witness :
  exists ni, narinfo_parse example_text = inl ni /\ verify_sig ni example_keys = Some (str "key-1") /\
    states ni example_info.
Proof.
  destruct (narinfo_parse example_text) as [ni|] eqn:Hp; [|by vm_compute in Hp]. exists ni. split; [done|].
  assert (Hv : verify_sig ni example_keys = Some (str "key-1")).
  { vm_compute in Hp. injection Hp as <-. by vm_compute. }
  split; [done|].
  destruct (verified_narinfo_published (eq example_info) example_text ni example_keys (str "key-1")) as [(i & <- & Hs) _];
    [|done..|done].
  intros k n vk fp sig _ _ H. exists example_info. split; [done|]. split; [|by apply bool_decide_eq_true in H].
  split; [|split].
  - destruct (parse (pi_store_path example_info)) eqn:E; [eauto|by vm_compute in E].
  - cbn [pi_nar_size example_info]. lia.
  - constructor; [|constructor]. destruct (parse (str "/nix/store/bbbbbbbbbbbbbbbbbbbbbbbbbbbbbbbb-libc")) eqn:E; [eauto|by vm_compute in E].
Defined.
