(* ===== verification/NixWire.v ===== *)
(** * Nix formats: the worker protocol's wire primitives

    [src/rio-nix/src/protocol/wire/{mod,framed}.rs]: integers, padded strings,
    string collections with their budget, and framed byte streams read eagerly
    and written. *)

From S2P Require Import Prelude NixBytes NixNar.

#[local] Open Scope Z_scope.

Definition MAX_STRING_LEN : Z := 64 * 1024 * 1024.
Definition MAX_COLLECTION_COUNT : Z := 1048576.
Definition MAX_COLLECTION_TOTAL_BYTES : Z := 64 * 1024 * 1024.
Definition READ_CHUNK : Z := 64 * 1024.
Definition MAX_FRAMED_TOTAL : Z := 4 * 1024 * 1024 * 1024.
Definition MAX_FRAME_SIZE : Z := 64 * 1024 * 1024.

Module WireError.
Inductive WireError : Type :=
| Io_UnexpectedEof
| Io_Other
| StringTooLong (n : Z)
| CollectionTooLarge (n : Z)
| CollectionPayloadTooLarge (n : Z)
| NonZeroPadding (n : Z)
| InvalidUtf8
| InvalidNarHash
| FrameTooLarge (n : Z)
| FramedStreamTooLarge (n : Z).
End WireError.
Abbreviation WireError := WireError.WireError.

Definition Recv (A : Type) : Type := Reader -> (A * Reader) + WireError.

#[export] Instance Recv_ret : MRet Recv := fun A a r => inl (a, r).
#[export] Instance Recv_bind : MBind Recv := fun A B f m r =>
  match m r with inl (a, r') => f a r' | inr e => inr e end.

Definition wfail {A} (e : WireError) : Recv A := fun _ => inr e.

(** [read_exact]. *)
Definition recv_exact (n : Z) : Recv bytes := fun r =>
  match read_exact n r with inl x => inl x | inr _ => inr WireError.Io_UnexpectedEof end.

(** ** Reading *)

Definition recv_u64 : Recv Z := b ← recv_exact 8; mret (from_le_bytes b).

Definition recv_bool : Recv bool := v ← recv_u64; mret (negb (v =? 0)).

(** [read_exact_growing]: the bytes appended, in steps of [READ_CHUNK]. *)
Fixpoint growing_loop (fuel : nat) (len : Z) (buf : bytes) : Recv bytes :=
  match fuel with
  | 0%nat => mret buf
  | S fuel =>
      if 0 <? len then
        let k := Z.min len READ_CHUNK in
        b ← recv_exact k;
        growing_loop fuel (len - k) (buf ++ b)
      else mret buf
  end.

Definition read_exact_growing (len : Z) (buf : bytes) : Recv bytes :=
  growing_loop (S (Z.to_nat (len / READ_CHUNK))) len buf.

Definition read_padded_body (len : Z) : Recv bytes :=
  if len =? 0 then mret []
  else
    buf ← read_exact_growing len [];
    pad_buf ← recv_exact (padding_len len);
    if existsb (fun b => negb (b =? 0)) pad_buf then wfail (WireError.NonZeroPadding len) else mret buf.

Definition read_bytes : Recv bytes :=
  len ← recv_u64;
  if MAX_STRING_LEN <? len then wfail (WireError.StringTooLong len) else read_padded_body len.

Definition recv_utf8 (b : bytes) : Recv bytes :=
  if utf8_valid b then mret b else wfail WireError.InvalidUtf8.

Definition recv_string : Recv bytes := b ← read_bytes; recv_utf8 b.

(** One element of a collection and the budget that is left. *)
Definition read_string_budgeted (budget : Z) : Recv (bytes * Z) :=
  len ← recv_u64;
  if MAX_STRING_LEN <? len then wfail (WireError.StringTooLong len)
  else if budget <? len then wfail (WireError.CollectionPayloadTooLarge (MAX_COLLECTION_TOTAL_BYTES - budget + len))
  else
    b ← read_padded_body len;
    s ← recv_utf8 b;
    mret (s, budget - len).

Fixpoint strings_loop (count : nat) (budget : Z) (result : list bytes) : Recv (list bytes) :=
  match count with
  | 0%nat => mret result
  | S count =>
      sb ← read_string_budgeted budget;
      strings_loop count (snd sb) (result ++ [fst sb])
  end.

Definition read_strings : Recv (list bytes) :=
  count ← recv_u64;
  if MAX_COLLECTION_COUNT <? count then wfail (WireError.CollectionTooLarge count)
  else strings_loop (Z.to_nat count) MAX_COLLECTION_TOTAL_BYTES [].

Fixpoint pairs_loop (count : nat) (budget : Z) (result : list (bytes * bytes)) : Recv (list (bytes * bytes)) :=
  match count with
  | 0%nat => mret result
  | S count =>
      k ← read_string_budgeted budget;
      v ← read_string_budgeted (snd k);
      pairs_loop count (snd v) (result ++ [(fst k, fst v)])
  end.

Definition read_string_pairs : Recv (list (bytes * bytes)) :=
  count ← recv_u64;
  if MAX_COLLECTION_COUNT <? count then wfail (WireError.CollectionTooLarge count)
  else pairs_loop (Z.to_nat count) MAX_COLLECTION_TOTAL_BYTES [].

(** ** Writing: the bytes emitted, or the refusal *)

Definition send_bool (b : bool) : bytes := write_u64 (if b then 1 else 0).

Definition send_bytes (data : bytes) : bytes + WireError :=
  let len := Z.of_nat (length data) in
  if MAX_STRING_LEN <? len then inr (WireError.StringTooLong len)
  else inl (write_u64 len ++ (if bytes_eqb data [] then [] else data ++ zero_pad len)).

(** The items in turn, up to the first refusal. *)
Fixpoint send_all (items : list bytes) : bytes + WireError :=
  match items with
  | [] => inl []
  | x :: items =>
      match send_bytes x with
      | inr e => inr e
      | inl a => match send_all items with inl b => inl (a ++ b) | inr e => inr e end
      end
  end.

Definition send_counted (count : Z) (items : list bytes) : bytes + WireError :=
  if MAX_COLLECTION_COUNT <? count then inr (WireError.CollectionTooLarge count)
  else match send_all items with inl b => inl (write_u64 count ++ b) | inr e => inr e end.

Definition write_strings (items : list bytes) : bytes + WireError :=
  send_counted (Z.of_nat (length items)) items.

Definition write_string_pairs (pairs : list (bytes * bytes)) : bytes + WireError :=
  send_counted (Z.of_nat (length pairs)) (flat_map (fun kv => [fst kv; snd kv]) pairs).

(** ** Framed streams *)

(** The loop of [read_framed_stream]; every round consumes a header. *)
Fixpoint framed_loop (fuel : nat) (result : bytes) : Recv bytes :=
  match fuel with
  | 0%nat => wfail WireError.Io_UnexpectedEof
  | S fuel =>
      frame_len ← recv_u64;
      if frame_len =? 0 then mret result
      else if MAX_FRAME_SIZE <? frame_len then wfail (WireError.FrameTooLarge frame_len)
      else
        let total := Z.of_nat (length result) + frame_len in
        if MAX_FRAMED_TOTAL <? total then wfail (WireError.FramedStreamTooLarge total)
        else result ← read_exact_growing frame_len result; framed_loop fuel result
  end.

Definition read_framed_stream : Recv bytes := fun r => framed_loop (S (length (rest r))) [] r.

(** [slice::chunks]; [None] is its panic on size zero. *)
Fixpoint chunks_loop (fuel : nat) (size : nat) (data : bytes) : list bytes :=
  match fuel, data with
  | S fuel, _ :: _ => take size data :: chunks_loop fuel size (drop size data)
  | _, _ => []
  end.

Definition chunks (size : nat) (data : bytes) : option (list bytes) :=
  match size with 0%nat => None | _ => Some (chunks_loop (length data) size data) end.

Definition frame_bytes (chunk : bytes) : bytes := write_u64 (Z.of_nat (length chunk)) ++ chunk.

(** Frames and the sentinel. *)
Definition frames (cs : list bytes) : bytes := flat_map frame_bytes cs ++ write_u64 0.

Definition write_framed_stream (data : bytes) (chunk_size : nat) : option bytes := option_map frames (chunks chunk_size data).

(** ** Reading what was written *)

Lemma recv_bind_inl {A B} (m : Recv A) (f : A -> Recv B) r b r' :
  (x ← m; f x) r = inl (b, r') <-> exists a r1, m r = inl (a, r1) /\ f a r1 = inl (b, r').
Proof. unfold mbind, Recv_bind. destruct (m r) as [[a r1]|e]; naive_solver. Qed.

Lemma recv_ret_inl {A} (a b : A) r r' : (mret a : Recv A) r = inl (b, r') <-> b = a /\ r' = r.
Proof. unfold mret, Recv_ret. naive_solver. Qed.

Lemma wfail_inl {A} e r (a : A) r' : wfail e r = inl (a, r') <-> False.
Proof. unfold wfail. naive_solver. Qed.

Lemma recv_exact_inl n r b r' :
  0 <= n -> recv_exact n r = inl (b, r') <-> Z.of_nat (length b) = n /\ adv r b r'.
Proof.
  intros Hn. rewrite <- read_exact_inl by done. unfold recv_exact. destruct (read_exact n r); naive_solver.
Qed.

Lemma recv_u64_inl r v r' :
  reader_ok r -> recv_u64 r = inl (v, r') <-> 0 <= v < 2 ^ 64 /\ adv r (write_u64 v) r'.
Proof.
  intros Hr. rewrite <- read_u64_inl by done. unfold recv_u64, read_u64, recv_exact, mbind, Recv_bind, Read_bind.
  destruct (read_exact 8 r) as [[b r1]|e]; [unfold mret, Recv_ret, Read_ret; naive_solver|split; done].
Qed.

Lemma u64_bind {B} (k : Z -> Recv B) r b r' :
  reader_ok r ->
  (v ← recv_u64; k v) r = inl (b, r') <->
  exists v r1, 0 <= v < 2 ^ 64 /\ adv r (write_u64 v) r1 /\ reader_ok r1 /\ k v r1 = inl (b, r').
Proof.
  intros Hr. rewrite recv_bind_inl. setoid_rewrite recv_u64_inl; [|done]. split.
  - intros (v & r1 & [Hv Ha] & Hk). exists v, r1. split; [done|]. split; [done|]. split; [|done].
    exact (proj1 (adv_ok _ _ _ Ha Hr)).
  - intros (v & r1 & Hv & Ha & _ & Hk). by exists v, r1.
Qed.

Lemma growing_done buf r out r' :
  (mret buf : Recv bytes) r = inl (out, r') <-> exists b, Z.of_nat (length b) = 0 /\ out = buf ++ b /\ adv r b r'.
Proof.
  rewrite recv_ret_inl. split.
  - intros [-> ->]. exists []. by rewrite app_nil_r, adv_nil.
  - intros (b & Hb & -> & Ha). destruct b; [|cbn in Hb; lia]. apply adv_nil in Ha as ->. by rewrite app_nil_r.
Qed.

Lemma growing_loop_inl fuel n buf r out r' :
  0 <= n <= Z.of_nat fuel * READ_CHUNK ->
  growing_loop fuel n buf r = inl (out, r') <-> exists b, Z.of_nat (length b) = n /\ out = buf ++ b /\ adv r b r'.
Proof.
  revert n buf r. induction fuel as [|fuel IH]; intros n buf r Hn; cbn [growing_loop].
  { replace n with 0 by lia. apply growing_done. }
  destruct (Z.ltb_spec 0 n) as [Hpos|Hz]; [|replace n with 0 by lia; apply growing_done].
  set (k := Z.min n READ_CHUNK).
  assert (Hk : 0 < k <= n /\ n - k <= Z.of_nat fuel * READ_CHUNK) by (unfold k, READ_CHUNK in *; lia).
  rewrite recv_bind_inl. setoid_rewrite recv_exact_inl; [|lia]. split.
  - intros (b1 & r1 & [Hb1 Ha1] & Hk2). apply IH in Hk2 as (b2 & Hb2 & -> & Ha2); [|lia].
    exists (b1 ++ b2). rewrite length_app, app_assoc. split; [lia|]. split; [done|]. by eapply adv_trans.
  - intros (b & Hb & -> & Ha). rewrite <- (take_drop (Z.to_nat k) b) in Ha.
    apply adv_app in Ha as (r1 & Ha1 & Ha2). exists (take (Z.to_nat k) b), r1.
    rewrite length_take. split; [split; [lia|done]|]. apply IH; [lia|]. exists (drop (Z.to_nat k) b).
    rewrite length_drop, <- app_assoc, take_drop. split; [lia|]. done.
Qed.

Lemma read_exact_growing_inl n buf r out r' :
  0 <= n -> read_exact_growing n buf r = inl (out, r') <->
  exists b, Z.of_nat (length b) = n /\ out = buf ++ b /\ adv r b r'.
Proof. intros Hn. apply growing_loop_inl. unfold READ_CHUNK. lia. Qed.

Lemma zero_pad_read n r r' u :
  (pad_buf ← recv_exact (padding_len n);
   if existsb (fun b => negb (b =? 0)) pad_buf then wfail (WireError.NonZeroPadding n) else (mret u : Recv bytes)) r = inl (u, r') <->
  adv r (zero_pad n) r'.
Proof.
  pose proof (padding_len_range n) as Hp. rewrite recv_bind_inl. setoid_rewrite recv_exact_inl; [|lia]. unfold zero_pad. split.
  - intros (b & r1 & [Hb Ha] & He). destruct (existsb _ b) eqn:Hz; [done|]. apply zeros_iff in Hz.
    apply recv_ret_inl in He as [_ ->]. rewrite Hz in Ha. by replace (Z.to_nat (padding_len n)) with (length b) by lia.
  - intros Ha. exists (repeat 0 (Z.to_nat (padding_len n))), r'. rewrite repeat_length. split; [split; [lia|done]|].
    rewrite (proj2 (zeros_iff _)); [done|]. by rewrite repeat_length.
Qed.

Lemma read_padded_body_inl n r b r' :
  0 <= n -> read_padded_body n r = inl (b, r') <-> Z.of_nat (length b) = n /\ adv r (b ++ zero_pad n) r'.
Proof.
  intros Hn. unfold read_padded_body. destruct (Z.eqb_spec n 0) as [->|Hne].
  { rewrite recv_ret_inl. change (zero_pad 0) with (@nil Z). rewrite app_nil_r. split.
    - intros [-> ->]. by rewrite adv_nil.
    - intros [Hb Ha]. destruct b; [|cbn in Hb; lia]. by apply adv_nil in Ha. }
  rewrite recv_bind_inl, adv_app. setoid_rewrite read_exact_growing_inl; [|done]. split.
  - intros (buf & r1 & (b' & Hb & -> & Ha) & Hk). cbn [app] in Hk.
    pose proof Hk as Hk'. apply recv_bind_inl in Hk' as (p & r2 & _ & Hk'). destruct (existsb _ p); [done|].
    apply recv_ret_inl in Hk' as [-> ->]. apply zero_pad_read in Hk. eauto.
  - intros [Hb (m & Ha & Hz)]. exists b, m. split; [by exists b|]. by apply zero_pad_read.
Qed.

Lemma read_bytes_inl r b r' :
  reader_ok r -> read_bytes r = inl (b, r') <-> Z.of_nat (length b) <= MAX_STRING_LEN /\ adv r (write_bytes b) r'.
Proof.
  intros Hr. unfold read_bytes, write_bytes. rewrite u64_bind, adv_app by done. split.
  - intros (n & r1 & Hn & Ha & _ & Hk). destruct (Z.ltb_spec MAX_STRING_LEN n); [done|].
    apply read_padded_body_inl in Hk as [<- Hb]; [|lia]. eauto.
  - intros [Hb (m & Ha & Hz)]. exists (Z.of_nat (length b)), m. change MAX_STRING_LEN with 67108864 in *. split; [lia|].
    split; [done|]. split; [exact (proj1 (adv_ok _ _ _ Ha Hr))|]. destruct (Z.ltb_spec 67108864 (Z.of_nat (length b))); [lia|].
    apply read_padded_body_inl; [lia|done].
Qed.

Lemma recv_utf8_inl b r s r' : recv_utf8 b r = inl (s, r') <-> utf8_valid b = true /\ s = b /\ r' = r.
Proof. unfold recv_utf8. destruct (utf8_valid b); [rewrite recv_ret_inl|rewrite wfail_inl]; naive_solver. Qed.

(** A string the strict reader takes. *)
Definition wire_string_ok (s : bytes) : Prop := Z.of_nat (length s) <= MAX_STRING_LEN /\ utf8_valid s = true.

Lemma budgeted_inl budget r s b' r' :
  reader_ok r ->
  read_string_budgeted budget r = inl ((s, b'), r') <->
  wire_string_ok s /\ Z.of_nat (length s) <= budget /\ b' = budget - Z.of_nat (length s) /\ adv r (write_bytes s) r'.
Proof.
  intros Hr. unfold read_string_budgeted, write_bytes, wire_string_ok. rewrite u64_bind, adv_app by done. split.
  - intros (n & r1 & Hn & Ha & _ & Hk). destruct (Z.ltb_spec MAX_STRING_LEN n); [done|].
    destruct (Z.ltb_spec budget n); [done|]. apply recv_bind_inl in Hk as (b & r2 & Hb & Hk).
    apply read_padded_body_inl in Hb as [Hl Hb]; [|lia]. apply recv_bind_inl in Hk as (s' & r3 & Hs & Hk).
    apply recv_utf8_inl in Hs as (Hu & -> & ->). apply recv_ret_inl in Hk as [[= -> ->] ->]. subst n. split; [split; [lia|done]|]. split; [lia|]. split; [done|]. by exists r1.
  - intros ((Hl & Hu) & Hb & -> & (m & Ha & Hz)). exists (Z.of_nat (length s)), m. change MAX_STRING_LEN with 67108864 in *.
    split; [lia|]. split; [done|]. split; [exact (proj1 (adv_ok _ _ _ Ha Hr))|].
    destruct (Z.ltb_spec 67108864 (Z.of_nat (length s))); [lia|]. destruct (Z.ltb_spec budget (Z.of_nat (length s))); [lia|].
    apply recv_bind_inl. exists s, r'. split; [apply read_padded_body_inl; [lia|done]|]. apply recv_bind_inl.
    exists s, r'. split; [by apply recv_utf8_inl|done].
Qed.

Lemma budgeted_bind {B} budget (k : bytes * Z -> Recv B) r b r' :
  reader_ok r ->
  (sb ← read_string_budgeted budget; k sb) r = inl (b, r') <->
  exists s r1, wire_string_ok s /\ Z.of_nat (length s) <= budget /\ adv r (write_bytes s) r1 /\ reader_ok r1 /\
    k (s, budget - Z.of_nat (length s)) r1 = inl (b, r').
Proof.
  intros Hr. rewrite recv_bind_inl. split.
  - intros ([s b'] & r1 & (Hs & Hb & -> & Ha)%budgeted_inl & Hk); [|done]. exists s, r1.
    split; [done|]. split; [done|]. split; [done|]. split; [exact (proj1 (adv_ok _ _ _ Ha Hr))|done].
  - intros (s & r1 & Hs & Hb & Ha & _ & Hk). exists (s, budget - Z.of_nat (length s)), r1. split; [|done]. by apply budgeted_inl.
Qed.

Definition payload (l : list bytes) : Z := fold_right (fun s n => Z.of_nat (length s) + n) 0 l.

Lemma payload_nonneg l : 0 <= payload l.
Proof. induction l as [|s l IH]; cbn [payload fold_right]; [done|]. fold (payload l). lia. Qed.

Lemma strings_loop_inl count budget acc r res r' :
  reader_ok r ->
  strings_loop count budget acc r = inl (res, r') <->
  exists l, length l = count /\ Forall wire_string_ok l /\ (l = [] \/ payload l <= budget) /\ res = acc ++ l /\
    adv r (flat_map write_bytes l) r'.
Proof.
  revert budget acc r. induction count as [|count IH]; intros budget acc r Hr; cbn [strings_loop].
  { rewrite recv_ret_inl. split.
    - intros [-> ->]. exists []. rewrite app_nil_r, adv_nil. by repeat split; auto.
    - intros (l & Hl & _ & _ & -> & Ha). destruct l; [|done]. rewrite app_nil_r. by apply adv_nil in Ha. }
  rewrite budgeted_bind by done. cbn [fst snd]. split.
  - intros (s & r1 & Hs & Hb & Ha & Hr1 & Hk). apply IH in Hk as (l & Hl & Hf & Hp & -> & Ha'); [|done].
    exists (s :: l). cbn [length flat_map payload fold_right]. fold (payload l). rewrite <- app_assoc.
    split; [lia|]. split; [by constructor|]. split; [|split; [done|by eapply adv_trans]].
    right. destruct Hp as [->|Hp]; [cbn|]; lia.
  - intros (l & Hl & Hf & Hp & -> & Ha). destruct l as [|s l]; [done|]. cbn [flat_map] in Ha.
    apply adv_app in Ha as (r1 & Ha & Ha'). apply Forall_cons in Hf as [Hs Hf].
    destruct Hp as [|Hp]; [done|]. cbn [payload fold_right] in Hp. fold (payload l) in Hp. pose proof (payload_nonneg l).
    pose proof (proj1 (adv_ok _ _ _ Ha Hr)) as Hr1. exists s, r1. split; [done|]. split; [lia|]. split; [done|]. split; [done|].
    apply IH; [done|]. exists l. cbn [length] in Hl. split; [lia|]. split; [done|]. split; [right; lia|].
    by rewrite <- app_assoc.
Qed.

Definition unpair (l : list (bytes * bytes)) : list bytes := flat_map (fun kv => [fst kv; snd kv]) l.

(** Reading [count] pairs is reading [2 count] strings. *)
Lemma pairs_loop_inl count budget acc r res r' :
  reader_ok r ->
  pairs_loop count budget acc r = inl (res, r') <->
  exists l, length l = count /\ Forall wire_string_ok (unpair l) /\ (l = [] \/ payload (unpair l) <= budget) /\ res = acc ++ l /\
    adv r (flat_map write_bytes (unpair l)) r'.
Proof.
  revert budget acc r. induction count as [|count IH]; intros budget acc r Hr; cbn [pairs_loop].
  { rewrite recv_ret_inl. split.
    - intros [-> ->]. exists []. rewrite app_nil_r. cbn. rewrite adv_nil. by repeat split; auto.
    - intros (l & Hl & _ & _ & -> & Ha). destruct l; [|done]. rewrite app_nil_r. by apply adv_nil in Ha. }
  rewrite budgeted_bind by done. cbn [fst snd]. split.
  - intros (k & r1 & Hk & Hkb & Ha & Hr1 & H). apply budgeted_bind in H as (v & r2 & Hv & Hvb & Ha2 & Hr2 & H); [|done].
    cbn [fst snd] in H. apply IH in H as (l & Hl & Hf & Hp & -> & Ha'); [|done].
    exists ((k, v) :: l). cbn [length unpair flat_map payload fold_right fst snd app]. fold (unpair l). fold (payload (unpair l)).
    rewrite <- app_assoc. split; [lia|]. split; [constructor; [done|by constructor]|]. split; [|split; [done|eauto using adv_trans]].
    right. destruct Hp as [->|Hp]; [cbn|]; lia.
  - intros (l & Hl & Hf & Hp & -> & Ha). destruct l as [|[k v] l]; [done|].
    cbn [unpair flat_map fst snd app] in Ha, Hf. fold (unpair l) in Ha, Hf.
    apply adv_app in Ha as (r1 & Ha & Ha'). apply adv_app in Ha' as (r2 & Ha2 & Ha').
    apply Forall_cons in Hf as [Hk Hf]. apply Forall_cons in Hf as [Hv Hf].
    destruct Hp as [|Hp]; [done|]. cbn [payload unpair flat_map fold_right fst snd app] in Hp. fold (unpair l) in Hp.
    fold (payload (unpair l)) in Hp. pose proof (payload_nonneg (unpair l)).
    pose proof (proj1 (adv_ok _ _ _ Ha Hr)) as Hr1. pose proof (proj1 (adv_ok _ _ _ Ha2 Hr1)) as Hr2.
    exists k, r1. split; [done|]. split; [lia|]. split; [done|]. split; [done|].
    apply budgeted_bind; [done|]. exists v, r2. split; [done|]. split; [lia|]. split; [done|]. split; [done|]. cbn [fst snd].
    apply IH; [done|]. exists l. cbn [length] in Hl. split; [lia|]. split; [done|]. split; [right; lia|].
    by rewrite <- app_assoc.
Qed.

(** The encoding of a collection. *)
Definition counted (n : nat) (l : list bytes) : bytes := write_u64 (Z.of_nat n) ++ flat_map write_bytes l.

(** What a reader accepts as a collection of [n] items with these strings. *)
Definition collection_ok (n : nat) (l : list bytes) : Prop :=
  Z.of_nat n <= MAX_COLLECTION_COUNT /\ Forall wire_string_ok l /\ payload l <= MAX_COLLECTION_TOTAL_BYTES.

Lemma count_bind {B} (k : nat -> Recv B) r b r' :
  reader_ok r ->
  (count ← recv_u64;
   if MAX_COLLECTION_COUNT <? count then wfail (WireError.CollectionTooLarge count) else k (Z.to_nat count)) r = inl (b, r') <->
  exists n r1, Z.of_nat n <= MAX_COLLECTION_COUNT /\ adv r (write_u64 (Z.of_nat n)) r1 /\ reader_ok r1 /\ k n r1 = inl (b, r').
Proof.
  intros Hr. rewrite u64_bind by done. change MAX_COLLECTION_COUNT with 1048576. split.
  - intros (v & r1 & Hv & Ha & Hr1 & Hk). destruct (Z.ltb_spec 1048576 v); [done|]. exists (Z.to_nat v), r1.
    rewrite Z2Nat.id by lia. done.
  - intros (n & r1 & Hn & Ha & Hr1 & Hk). exists (Z.of_nat n), r1. split; [lia|]. split; [done|]. split; [done|].
    destruct (Z.ltb_spec 1048576 (Z.of_nat n)); [lia|]. by rewrite Nat2Z.id.
Qed.

Lemma read_strings_inl r l r' :
  reader_ok r -> read_strings r = inl (l, r') <-> collection_ok (length l) l /\ adv r (counted (length l) l) r'.
Proof.
  intros Hr. unfold read_strings, collection_ok, counted. rewrite (count_bind (fun n => strings_loop n _ [])), adv_app by done. split.
  - intros (n & r1 & Hn & Ha & Hr1 & Hk). apply strings_loop_inl in Hk as (l' & Hl & Hf & Hp & -> & Ha'); [|done].
    cbn [app]. subst n. split; [|eauto]. split; [done|]. split; [done|]. by destruct Hp as [->|].
  - intros [(Hn & Hf & Hp) (m & Ha & Ha')]. exists (length l), m. split; [done|]. split; [done|].
    pose proof (proj1 (adv_ok _ _ _ Ha Hr)) as Hm. split; [done|]. apply strings_loop_inl; [done|]. exists l. auto.
Qed.

Lemma read_string_pairs_inl r l r' :
  reader_ok r ->
  read_string_pairs r = inl (l, r') <-> collection_ok (length l) (unpair l) /\ adv r (counted (length l) (unpair l)) r'.
Proof.
  intros Hr. unfold read_string_pairs, collection_ok, counted. rewrite (count_bind (fun n => pairs_loop n _ [])), adv_app by done. split.
  - intros (n & r1 & Hn & Ha & Hr1 & Hk). apply pairs_loop_inl in Hk as (l' & Hl & Hf & Hp & -> & Ha'); [|done].
    cbn [app]. subst n. split; [|eauto]. split; [done|]. split; [done|]. by destruct Hp as [->|].
  - intros [(Hn & Hf & Hp) (m & Ha & Ha')]. exists (length l), m. split; [done|]. split; [done|].
    pose proof (proj1 (adv_ok _ _ _ Ha Hr)) as Hm. split; [done|]. apply pairs_loop_inl; [done|]. exists l. auto.
Qed.

Lemma send_bytes_inl data s :
  send_bytes data = inl s <-> Z.of_nat (length data) <= MAX_STRING_LEN /\ s = write_bytes data.
Proof.
  unfold send_bytes, write_bytes. cbn zeta. destruct (Z.ltb_spec MAX_STRING_LEN (Z.of_nat (length data))); [split; [done|lia]|].
  unfold bytes_eqb. case_bool_decide as Hd; [subst data|]; naive_solver.
Qed.

Lemma send_all_inl items s :
  send_all items = inl s <-> Forall (fun x => Z.of_nat (length x) <= MAX_STRING_LEN) items /\ s = flat_map write_bytes items.
Proof.
  revert s. induction items as [|x items IH]; intros s; cbn [send_all flat_map]; [naive_solver|]. rewrite Forall_cons.
  destruct (send_bytes x) as [a|e] eqn:Hx.
  - apply send_bytes_inl in Hx as [Hl ->]. destruct (send_all items) as [b|e].
    + destruct (proj1 (IH b) eq_refl) as [Hf ->]. naive_solver.
    + split; [done|]. intros [[_ Hf] _]. by pose proof (proj2 (IH _) (conj Hf eq_refl)).
  - split; [done|]. intros [[Hl _] _]. by rewrite (proj2 (send_bytes_inl x _) (conj Hl eq_refl)) in Hx.
Qed.

Lemma send_counted_inl n items s :
  send_counted (Z.of_nat n) items = inl s <->
  Z.of_nat n <= MAX_COLLECTION_COUNT /\ Forall (fun x => Z.of_nat (length x) <= MAX_STRING_LEN) items /\ s = counted n items.
Proof.
  unfold send_counted, counted. destruct (Z.ltb_spec MAX_COLLECTION_COUNT (Z.of_nat n)); [split; [done|lia]|].
  destruct (send_all items) as [b|e] eqn:Hs.
  - apply send_all_inl in Hs as [Hf ->]. naive_solver.
  - split; [done|]. intros (_ & Hf & _). by rewrite (proj2 (send_all_inl items _) (conj Hf eq_refl)) in Hs.
Qed.

(** string collections on the wire.  The readers accept exactly the encodings
    of collections of at most 1,048,576 items, every string valid UTF-8 of at most
    64 MiB and the payloads together at most 64 MiB, with zero padding, and stop
    right after; the pair reader charges keys and values to one budget.  The
    writers emit that same encoding, so what they write is read back whenever it
    is within the reader's UTF-8 and payload rules. *)
Theorem wire_collections_exact :
  (forall r l r', reader_ok r ->
     read_strings r = inl (l, r') <-> collection_ok (length l) l /\ adv r (counted (length l) l) r') /\
  (forall r l r', reader_ok r ->
     read_string_pairs r = inl (l, r') <-> collection_ok (length l) (unpair l) /\ adv r (counted (length l) (unpair l)) r') /\
  (forall l s, write_strings l = inl s -> s = counted (length l) l) /\
  (forall l s, write_string_pairs l = inl s -> s = counted (length l) (unpair l)).
Proof.
  split; [apply read_strings_inl|]. split; [apply read_string_pairs_inl|].
  split; intros l s H; by apply send_counted_inl in H as (_ & _ & ->).
Qed.

Lemma wire_collections_exact_witness :
  read_strings (mkReader (counted 2 [str "out"; str "dev"] ++ [7]) 0) =
    inl ([str "out"; str "dev"], mkReader [7] (Z.of_nat (length (counted 2 [str "out"; str "dev"])))).
Proof.
  apply (proj1 wire_collections_exact).
  - apply (bool_decide_unpack _). by vm_compute.
  - split; [|done]. split; [done|]. split; [by repeat constructor|done].
Defined.

(** ** Framed streams, read eagerly *)

Definition frame_ok (c : bytes) : Prop := 0 < Z.of_nat (length c) <= MAX_FRAME_SIZE.

Lemma adv_rest_length r b r' : adv r b r' -> (length (rest r) = length b + length (rest r'))%nat.
Proof. intros [-> _]. by rewrite length_app. Qed.

Lemma write_u64_length v : length (write_u64 v) = 8%nat.
Proof. apply to_le_length. Qed.

Lemma framed_loop_inl fuel acc r d r' :
  reader_ok r -> (length (rest r) < fuel)%nat ->
  framed_loop fuel acc r = inl (d, r') <->
  exists cs, Forall frame_ok cs /\ (cs = [] \/ Z.of_nat (length (acc ++ concat cs)) <= MAX_FRAMED_TOTAL) /\
    d = acc ++ concat cs /\ adv r (frames cs) r'.
Proof.
  revert acc r. induction fuel as [|fuel IH]; intros acc r Hr Hf; [lia|]. cbn [framed_loop]. rewrite u64_bind by done. split.
  - intros (n & r1 & Hn & Ha & Hr1 & Hk). destruct (Z.eqb_spec n 0) as [->|Hn0].
    { apply recv_ret_inl in Hk as [-> ->]. exists []. rewrite app_nil_r. by auto. }
    destruct (Z.ltb_spec MAX_FRAME_SIZE n) as [|Hmax]; [done|]. destruct (Z.ltb_spec MAX_FRAMED_TOTAL (Z.of_nat (length acc) + n)) as [|Htot]; [done|].
    apply recv_bind_inl in Hk as (acc' & r2 & Hg & Hk). apply read_exact_growing_inl in Hg as (b & Hb & -> & Ha2); [|lia].
    pose proof (adv_rest_length _ _ _ Ha) as L1. pose proof (adv_rest_length _ _ _ Ha2) as L2. rewrite write_u64_length in L1.
    pose proof (proj1 (adv_ok _ _ _ Ha2 Hr1)) as Hr2. apply IH in Hk as (cs & Hcs & Ht & -> & Ha3); [|done|lia].
    exists (b :: cs). cbn [concat]. rewrite <- app_assoc in *. split; [constructor; [unfold frame_ok; lia|done]|].
    split; [|split; [done|]].
    + right. destruct Ht as [->|Ht]; [|done]. cbn [concat]. rewrite app_nil_r, length_app. lia.
    + unfold frames. cbn [flat_map]. unfold frame_bytes at 1. rewrite Hb, <- !app_assoc. eauto using adv_trans.
  - intros (cs & Hcs & Ht & -> & Ha). destruct cs as [|c cs].
    { exists 0, r'. split; [lia|]. split; [done|]. split; [exact (proj1 (adv_ok _ _ _ Ha Hr))|].
      cbn [concat]. by rewrite app_nil_r. }
    apply Forall_cons in Hcs as [Hc Hcs]. unfold frame_ok in Hc. destruct Ht as [|Ht]; [done|]. cbn [concat] in Ht |- *.
    unfold frames in Ha. cbn [flat_map] in Ha. unfold frame_bytes in Ha at 1. rewrite <- !app_assoc in Ha.
    apply adv_app in Ha as (r1 & Ha & Ha2). apply adv_app in Ha2 as (r2 & Ha2 & Ha3).
    pose proof (proj1 (adv_ok _ _ _ Ha Hr)) as Hr1. pose proof (proj1 (adv_ok _ _ _ Ha2 Hr1)) as Hr2.
    pose proof (adv_rest_length _ _ _ Ha) as L1. pose proof (adv_rest_length _ _ _ Ha2) as L2. rewrite write_u64_length in L1.
    exists (Z.of_nat (length c)), r1. change MAX_FRAME_SIZE with 67108864 in *. split; [lia|]. split; [done|]. split; [done|].
    destruct (Z.eqb_spec (Z.of_nat (length c)) 0); [lia|]. destruct (Z.ltb_spec 67108864 (Z.of_nat (length c))); [lia|].
    rewrite !length_app in Ht. destruct (Z.ltb_spec MAX_FRAMED_TOTAL (Z.of_nat (length acc) + Z.of_nat (length c))); [lia|].
    apply recv_bind_inl. exists (acc ++ c), r2. split; [apply read_exact_growing_inl; [lia|]; by exists c|].
    apply IH; [done|lia|]. exists cs. rewrite <- app_assoc. split; [done|]. split; [right; rewrite !length_app; lia|]. done.
Qed.

Lemma read_framed_stream_inl r d r' :
  reader_ok r ->
  read_framed_stream r = inl (d, r') <->
  exists cs, Forall frame_ok cs /\ Z.of_nat (length (concat cs)) <= MAX_FRAMED_TOTAL /\ d = concat cs /\ adv r (frames cs) r'.
Proof.
  intros Hr. unfold read_framed_stream. rewrite framed_loop_inl by (done || lia). cbn [app]. split.
  - intros (cs & H1 & H2 & H3 & H4). exists cs. split; [done|]. split; [|done]. by destruct H2 as [->|].
  - intros (cs & H1 & H2 & H3 & H4). exists cs. auto.
Qed.

Lemma chunks_loop_spec fuel size data :
  (0 < size)%nat -> (length data <= fuel)%nat ->
  concat (chunks_loop fuel size data) = data /\
  Forall (fun c => (0 < length c <= size)%nat) (chunks_loop fuel size data).
Proof.
  intros Hs. revert data. induction fuel as [|fuel IH]; intros data Hf.
  { destruct data; [|cbn in Hf; lia]. cbn. split; [done|constructor]. }
  destruct data as [|b data]; cbn [chunks_loop]; [split; [done|constructor]|].
  destruct (IH (drop size (b :: data))) as [H1 H2]; [rewrite length_drop; cbn [length] in *; lia|].
  cbn [concat]. rewrite H1, take_drop. split; [done|]. constructor; [|done]. rewrite length_take. cbn [length]. lia.
Qed.

(** framed streams.  The eager reader accepts exactly a sequence of frames of
    1 byte to 64 MiB each, at most 4 GiB in total, closed by the zero sentinel; it
    returns their concatenation and stops right after the sentinel.  A stream
    written in chunks of any size up to the frame limit is read back whole. *)
Theorem framed_stream_exact :
  (forall r d r', reader_ok r ->
     read_framed_stream r = inl (d, r') <->
     exists cs, Forall frame_ok cs /\ Z.of_nat (length (concat cs)) <= MAX_FRAMED_TOTAL /\ d = concat cs /\ adv r (frames cs) r') /\
  (forall data size s t, bytes_ok (s ++ t) -> Z.of_nat size <= MAX_FRAME_SIZE -> Z.of_nat (length data) <= MAX_FRAMED_TOTAL ->
     write_framed_stream data size = Some s ->
     read_framed_stream (mkReader (s ++ t) 0) = inl (data, mkReader t (Z.of_nat (length s)))).
Proof.
  split; [apply read_framed_stream_inl|]. intros data size s t Hok Hsz Hlen. unfold write_framed_stream, chunks.
  destruct size as [|size]; [done|]. cbn [option_map]. intros [= <-].
  destruct (chunks_loop_spec (length data) (S size) data) as [H1 H2]; [lia|done|].
  apply read_framed_stream_inl; [done|]. exists (chunks_loop (length data) (S size) data). rewrite H1.
  split; [|split; [done|split; [done|by split]]]. eapply Forall_impl; [exact H2|]. intros c [Hc1 Hc2]. unfold frame_ok. lia.
Qed.

Lemma framed_stream_exact_witness :
  exists s, write_framed_stream (str "hello world") 4 = Some s /\
    read_framed_stream (mkReader (s ++ [9]) 0) = inl (str "hello world", mkReader [9] (Z.of_nat (length s))).
Proof.
  destruct (write_framed_stream (str "hello world") 4) as [s|] eqn:Hs; [|done]. exists s. split; [done|].
  apply (proj2 framed_stream_exact) with (size := 4%nat); [|done|done|done].
  injection Hs as <-. apply (bool_decide_unpack _). by vm_compute.
Defined.
