(* ===== verification/NixFramed.v ===== *)
(** * Nix formats: the streaming framed reader

    [src/rio-nix/src/protocol/wire/framed.rs]: [FramedStreamReader::poll_read] as a
    state machine.  What the inner reader does at each of its polls is an input:
    not ready, failed, or ready with some bytes, at least one unless it is at its
    end.  A reader sees a sequence of polls with buffers of any size. *)

From S2P Require Import Prelude NixBytes NixNar NixWire.

#[local] Open Scope Z_scope.

Inductive FramedState : Type := ReadingHeader | ReadingData | Done.

#[export] Instance FramedState_eq_dec : EqDecision FramedState.
Proof. solve_decision. Defined.

Record FramedStreamReader : Type := mkFramed {
  fr_inner : bytes;
  fr_state : FramedState;
  fr_header : bytes;
  fr_remaining : Z;
  fr_total : Z;
  fr_max : Z;
}.

(** [new] and [new_unbounded]; [fr_header] is the filled part of [header_buf]. *)
Definition framed_new (inner : bytes) (max_total : Z) : FramedStreamReader :=
  mkFramed inner ReadingHeader [] 0 0 (Z.min max_total MAX_FRAMED_TOTAL).

Definition framed_new_unbounded (inner : bytes) : FramedStreamReader :=
  mkFramed inner ReadingHeader [] 0 0 u64_max.

Module FramedError.
Inductive FramedError : Type :=
| ClosedMidHeader
| ClosedBeforeSentinel
| ClosedMidData
| FrameTooLarge (n : Z)
| TotalTooLarge (n : Z)
| Inner.
End FramedError.
Abbreviation FramedError := FramedError.FramedError.

(** One poll of the inner reader. *)
Inductive InnerPoll : Type := InnerPending | InnerFailed | InnerReady (k : nat).

(** It fills between one byte and [want], as far as there are any. *)
Definition inner_take (want k : nat) : nat := Nat.min want (Nat.max 1 k).

Inductive Poll : Type := PollPending | PollReady (data : bytes) | PollErr (e : FramedError).

(** The state change on a complete header. *)
Definition header_done (this : FramedStreamReader) (header inner : bytes) : FramedStreamReader * option Poll :=
  let frame_len := from_le_bytes header in
  let this := mkFramed inner (fr_state this) [] (fr_remaining this) (fr_total this) (fr_max this) in
  if frame_len =? 0 then (mkFramed inner Done [] (fr_remaining this) (fr_total this) (fr_max this), Some (PollReady []))
  else if MAX_FRAME_SIZE <? frame_len then (this, Some (PollErr (FramedError.FrameTooLarge frame_len)))
  else
    let new_total := fr_total this + frame_len in
    if fr_max this <? new_total then (this, Some (PollErr (FramedError.TotalTooLarge new_total)))
    else (mkFramed inner ReadingData [] frame_len (fr_total this) (fr_max this), None).

(** The [continue] of a finished frame. *)
Definition next_frame (this : FramedStreamReader) : FramedStreamReader :=
  match fr_state this with
  | ReadingData =>
      if fr_remaining this =? 0
      then mkFramed (fr_inner this) ReadingHeader (fr_header this) (fr_remaining this) (fr_total this) (fr_max this)
      else this
  | _ => this
  end.

(** [poll_read] with a buffer of [cap] bytes; [polls] answers the inner polls it
    makes, and an exhausted list is one that is not ready. *)
Fixpoint poll_read (polls : list InnerPoll) (this : FramedStreamReader) (cap : nat) : Poll * FramedStreamReader :=
  let this := next_frame this in
  match fr_state this with
  | Done => (PollReady [], this)
  | ReadingHeader =>
      match polls with
      | [] | InnerPending :: _ => (PollPending, this)
      | InnerFailed :: _ => (PollErr FramedError.Inner, this)
      | InnerReady k :: polls =>
          let n := inner_take (8 - length (fr_header this)) k in
          match take n (fr_inner this) with
          | [] => (PollErr (match fr_header this with [] => FramedError.ClosedBeforeSentinel | _ => FramedError.ClosedMidHeader end), this)
          | b =>
              let header := fr_header this ++ b in
              let inner := drop n (fr_inner this) in
              if (length header <? 8)%nat then
                poll_read polls (mkFramed inner ReadingHeader header (fr_remaining this) (fr_total this) (fr_max this)) cap
              else match header_done this header inner with
                   | (this, Some r) => (r, this)
                   | (this, None) => poll_read polls this cap
                   end
          end
      end
  | ReadingData =>
      if (cap =? 0)%nat then (PollReady [], this)
      else match polls with
           | [] | InnerPending :: _ => (PollPending, this)
           | InnerFailed :: _ => (PollErr FramedError.Inner, this)
           | InnerReady k :: _ =>
               let n := inner_take (Nat.min (Z.to_nat (fr_remaining this)) cap) k in
               match take n (fr_inner this) with
               | [] => (PollErr FramedError.ClosedMidData, this)
               | b =>
                   let got := Z.of_nat (length b) in
                   (PollReady b,
                    mkFramed (drop n (fr_inner this)) ReadingData (fr_header this) (fr_remaining this - got)
                      (fr_total this + got) (fr_max this))
               end
           end
  end.

(** A caller's polls, up to the first error: the bytes delivered, the error and
    the reader. *)
Fixpoint drive (calls : list (nat * list InnerPoll)) (this : FramedStreamReader) (got : bytes)
    : bytes * option FramedError * FramedStreamReader :=
  match calls with
  | [] => (got, None, this)
  | (cap, polls) :: calls =>
      match poll_read polls this cap with
      | (PollPending, this) => drive calls this got
      | (PollReady b, this) => drive calls this (got ++ b)
      | (PollErr e, this) => (got, Some e, this)
      end
  end.

(** ** The invariant of a partially read stream *)

Lemma u64_inj a b x y : 0 <= a < 2 ^ 64 -> 0 <= b < 2 ^ 64 -> write_u64 a ++ x = write_u64 b ++ y -> a = b /\ x = y.
Proof.
  intros Ha Hb H. apply app_inj_1 in H as [H ->]; [|by rewrite !write_u64_length]. split; [|done].
  rewrite <- (from_to_le 8 a), <- (from_to_le 8 b) by (cbn; lia). by f_equal.
Qed.

Lemma frame_ok_u64 c : frame_ok c -> 0 <= Z.of_nat (length c) < 2 ^ 64.
Proof. unfold frame_ok, MAX_FRAME_SIZE. lia. Qed.

(** Frames are uniquely decodable: two streams that start with the same frames. *)
Lemma frames_prefix cs cs' x t :
  Forall frame_ok cs -> Forall frame_ok cs' -> flat_map frame_bytes cs ++ x = frames cs' ++ t ->
  exists cs'', cs' = cs ++ cs'' /\ x = frames cs'' ++ t.
Proof.
  intros Hcs. revert cs'. induction Hcs as [|c cs Hc _ IH]; intros cs' Hcs' H; [by exists cs'|].
  pose proof (frame_ok_u64 c Hc) as Hu. cbn [flat_map] in H. unfold frame_bytes in H at 1. rewrite <- !app_assoc in H.
  unfold frames in H. destruct Hcs' as [|c' cs' Hc' Hcs']; cbn [flat_map app] in H.
  { apply u64_inj in H as [H _]; [|done|lia]. unfold frame_ok in Hc. lia. }
  pose proof (frame_ok_u64 c' Hc') as Hu'. unfold frame_bytes in H at 2. rewrite <- !app_assoc in H.
  apply u64_inj in H as [Hl H]; [|done|done]. apply app_inj_1 in H as [<- H]; [|lia].
  rewrite app_assoc in H. destruct (IH cs' Hcs' H) as (cs'' & -> & ->). by exists cs''.
Qed.

Section Stream.

Context (I : bytes) (M : Z).

(** [I] starts with a stream of these frames, [t] left over. *)
Definition stream_of (cs : list bytes) (t : bytes) : Prop :=
  Forall frame_ok cs /\ Z.of_nat (length (concat cs)) <= M /\ I = frames cs ++ t.

(** What is known of a reader that delivered [got]. *)
Definition framed_at (this : FramedStreamReader) (got : bytes) : Prop :=
  fr_max this = M /\ fr_total this = Z.of_nat (length got) /\
  exists cs, Forall frame_ok cs /\ Z.of_nat (length (concat cs)) <= M /\
  match fr_state this with
  | ReadingHeader =>
      got = concat cs /\ (length (fr_header this) < 8)%nat /\ I = flat_map frame_bytes cs ++ fr_header this ++ fr_inner this
  | ReadingData =>
      fr_header this = [] /\ exists n part,
        0 < n <= MAX_FRAME_SIZE /\ Z.of_nat (length (concat cs)) + n <= M /\ got = concat cs ++ part /\
        fr_remaining this = n - Z.of_nat (length part) /\ 0 <= fr_remaining this /\
        I = flat_map frame_bytes cs ++ write_u64 n ++ part ++ fr_inner this
  | Done => got = concat cs /\ I = frames cs ++ fr_inner this
  end.

(** No stream within the limits is to be read from [I]. *)
Definition doomed : Prop := forall cs t, ~ stream_of cs t.

Lemma next_frame_at this got : framed_at this got -> framed_at (next_frame this) got.
Proof.
  intros H. unfold next_frame. destruct (fr_state this) eqn:Hs; try done. destruct (Z.eqb_spec (fr_remaining this) 0) as [Hr|]; [|done].
  destruct H as (HM & Ht & cs & Hcs & Hl & H). rewrite Hs in H. destruct H as (Hh & n & part & Hn & Hnl & -> & Hrem & _ & HI).
  split; [done|]. split; [done|]. exists (cs ++ [part]). cbn [fr_state fr_header fr_inner].
  assert (Hp : Z.of_nat (length part) = n) by lia. rewrite concat_app. cbn [concat]. rewrite app_nil_r, flat_map_app. cbn [flat_map].
  split; [|split; [|split; [done|split]]].
  - apply Forall_app. split; [done|]. constructor; [unfold frame_ok; lia|done].
  - rewrite length_app. lia.
  - rewrite Hh. cbn. lia.
  - rewrite Hh, HI. unfold frame_bytes at 3. rewrite Hp, app_nil_r, <- !app_assoc. done.
Qed.

Lemma next_frame_idle this got :
  framed_at this got -> fr_state (next_frame this) = ReadingData -> 0 < fr_remaining (next_frame this).
Proof.
  intros (_ & _ & cs & _ & _ & H). unfold next_frame. destruct (fr_state this) eqn:Hs; cbn; try congruence.
  destruct (Z.eqb_spec (fr_remaining this) 0) as [|Hne]; cbn; [done|]. intros _. destruct H as (_ & n & part & H). lia.
Qed.

(** The reasons to stop are real: the stream ends inside a header or a frame, or
    the header asks for too much. *)
Lemma doomed_header cs h :
  Forall frame_ok cs -> (length h < 8)%nat -> I = flat_map frame_bytes cs ++ h -> doomed.
Proof.
  intros Hcs Hh HI cs' t (Hcs' & _ & HI'). rewrite HI in HI'.
  apply frames_prefix in HI' as (cs'' & -> & ->); [|done|done]. revert Hh. unfold frames. destruct cs'' as [|c cs''];
    cbn [flat_map]; unfold frame_bytes; rewrite !length_app, ?write_u64_length; lia.
Qed.

Lemma doomed_frame cs n part :
  Forall frame_ok cs -> 0 < n < 2 ^ 64 -> Z.of_nat (length part) < n -> I = flat_map frame_bytes cs ++ write_u64 n ++ part -> doomed.
Proof.
  intros Hcs Hn Hp HI cs' t (Hcs' & _ & HI'). rewrite HI in HI'.
  apply frames_prefix in HI' as (cs'' & -> & H); [|done|done]. apply Forall_app in Hcs' as [_ Hcs''].
  unfold frames in H. destruct Hcs'' as [|c cs'' Hc]; cbn [flat_map app] in H.
  { apply u64_inj in H as [H _]; lia. }
  pose proof (frame_ok_u64 c Hc) as Hu. unfold frame_bytes in H at 1. rewrite <- !app_assoc in H.
  apply u64_inj in H as [-> ->]; [|lia|done]. rewrite length_app in Hp. lia.
Qed.

Lemma doomed_size cs n x :
  Forall frame_ok cs -> 0 < n < 2 ^ 64 -> MAX_FRAME_SIZE < n \/ M < Z.of_nat (length (concat cs)) + n ->
  I = flat_map frame_bytes cs ++ write_u64 n ++ x -> doomed.
Proof.
  intros Hcs Hn Hbig HI cs' t (Hcs' & Hl & HI'). rewrite HI in HI'.
  apply frames_prefix in HI' as (cs'' & -> & H); [|done|done]. apply Forall_app in Hcs' as [_ Hcs''].
  unfold frames in H. destruct Hcs'' as [|c cs'' Hc]; cbn [flat_map app] in H.
  { apply u64_inj in H as [H _]; lia. }
  pose proof (frame_ok_u64 c Hc) as Hu. unfold frame_bytes in H at 1. rewrite <- !app_assoc in H.
  apply u64_inj in H as [-> ->]; [|lia|done]. unfold frame_ok in Hc.
  rewrite concat_app in Hl. cbn [concat] in Hl. rewrite !length_app in Hl. lia.
Qed.

Hypothesis I_ok : bytes_ok I.

Definition poll_ok (got : bytes) (res : Poll) (this : FramedStreamReader) : Prop :=
  match res with
  | PollPending => framed_at this got
  | PollReady b => framed_at this (got ++ b)
  | PollErr e => e = FramedError.Inner \/ doomed
  end.

(** A complete header moves to the sentinel, to a refusal or into the frame. *)
Lemma header_done_at this cs header inner :
  fr_max this = M -> fr_total this = Z.of_nat (length (concat cs)) ->
  Forall frame_ok cs -> Z.of_nat (length (concat cs)) <= M -> length header = 8%nat ->
  I = flat_map frame_bytes cs ++ header ++ inner ->
  match header_done this header inner with
  | (this', None) => framed_at this' (concat cs) /\ fr_state this' = ReadingData /\ 0 < fr_remaining this'
  | (this', Some (PollReady b)) => b = [] /\ framed_at this' (concat cs) /\ fr_state this' = Done
  | (_, Some PollPending) => False
  | (_, Some (PollErr e)) => e <> FramedError.Inner /\ doomed
  end.
Proof.
  intros HM Ht Hcs Hl Hh HI. assert (Hb : bytes_ok header).
  { revert I_ok. rewrite HI. rewrite !Forall_app. tauto. }
  pose proof (from_le_range header Hb) as Hr. rewrite Hh in Hr. change (256 ^ Z.of_nat 8) with (2 ^ 64) in Hr.
  pose proof (to_from_le header Hb) as Hw. rewrite Hh in Hw. fold (write_u64 (from_le_bytes header)) in Hw.
  unfold header_done. generalize dependent (from_le_bytes header). intros n Hr Hw. cbn [fr_total fr_max]. rewrite <- Hw in HI. clear Hw Hb Hh.
  destruct (Z.eqb_spec n 0) as [->|Hn0].
  { split; [done|]. split; [|done]. split; [done|]. split; [done|]. exists cs. cbn. unfold frames. by rewrite <- app_assoc. }
  destruct (Z.ltb_spec MAX_FRAME_SIZE n) as [Hbig|Hn]; [split; [done|]; apply (doomed_size cs n inner); auto; lia|]. rewrite HM, Ht.
  destruct (Z.ltb_spec M (Z.of_nat (length (concat cs)) + n)) as [Hbig|Hn']; [split; [done|]; apply (doomed_size cs n inner); auto; lia|].
  split; [|cbn; split; [done|lia]]. split; [done|]. split; [done|]. exists cs. split; [done|]. split; [done|]. cbn. split; [done|].
  exists n, []. rewrite app_nil_r. cbn. repeat split; auto; lia.
Qed.

(** One poll of the frame's data. *)
Lemma data_done_at this got n :
  framed_at this got -> fr_state this = ReadingData -> (0 < n <= Z.to_nat (fr_remaining this))%nat ->
  match take n (fr_inner this) with
  | [] => doomed
  | b => framed_at (mkFramed (drop n (fr_inner this)) ReadingData (fr_header this) (fr_remaining this - Z.of_nat (length b))
           (fr_total this + Z.of_nat (length b)) (fr_max this)) (got ++ b)
  end.
Proof.
  intros (HM & Ht & cs & Hcs & Hl & H) Hs Hn. rewrite Hs in H. destruct H as (Hh & m & part & Hm & Hml & -> & Hrem & _ & HI).
  destruct (take n (fr_inner this)) as [|x b] eqn:Hb.
  { apply (doomed_frame cs m part); [done|unfold MAX_FRAME_SIZE in Hm; lia|lia|].
    destruct (fr_inner this); [by rewrite app_nil_r in HI|]. destruct n; [lia|done]. }
  rewrite <- Hb. assert (Hlen : (length (take n (fr_inner this)) <= n)%nat) by (rewrite length_take; lia).
  split; [done|]. split; [cbn; rewrite (length_app _ (take _ _)); lia|]. exists cs. split; [done|]. split; [done|]. cbn. split; [done|].
  exists m, (part ++ take n (fr_inner this)). rewrite length_app, <- !app_assoc, take_drop. repeat split; auto; try lia.
Qed.

Lemma poll_read_at polls this got cap :
  framed_at this got -> poll_ok got (fst (poll_read polls this cap)) (snd (poll_read polls this cap)).
Proof.
  revert this got. induction polls as [|p polls IH]; intros this got H; cbn [poll_read];
    apply next_frame_at in H as H'; pose proof (next_frame_idle this got H) as Hidle;
    generalize dependent (next_frame this); clear this H; intros this H Hidle; destruct (fr_state this) eqn:Hs.
  1: done.
  2, 5: cbn; by rewrite app_nil_r.
  all: try (destruct (Nat.eqb_spec cap 0) as [->|Hcap]; [cbn; by rewrite app_nil_r|]).
  1: done.
  - destruct p as [| |k]; [done|by left|]. destruct H as (HM & Ht & cs & Hcs & Hl & H). rewrite Hs in H.
    destruct H as (-> & Hh & HI). set (n := inner_take _ k).
    assert (Hn : (0 < n <= 8 - length (fr_header this))%nat) by (unfold n, inner_take; lia).
    destruct (take n (fr_inner this)) as [|x b] eqn:Hb.
    { right. apply (doomed_header cs (fr_header this)); [done|done|]. destruct (fr_inner this); [by rewrite app_nil_r in HI|].
      destruct n; [lia|done]. }
    rewrite <- Hb. assert (Hlen : (length (take n (fr_inner this)) <= n)%nat) by (rewrite length_take; lia).
    rewrite <- (take_drop n (fr_inner this)), (app_assoc (fr_header this)) in HI.
    destruct (Nat.ltb_spec (length (fr_header this ++ take n (fr_inner this))) 8) as [Hlt|Hge].
    + apply IH. split; [done|]. split; [done|]. by exists cs.
    + assert (H8 : length (fr_header this ++ take n (fr_inner this)) = 8%nat) by (rewrite length_app in *; lia).
      pose proof (header_done_at this cs _ _ HM Ht Hcs Hl H8 HI) as Hd. destruct (header_done _ _ _) as [this' [[]|]]; [done|..].
      * destruct Hd as (-> & Hd & _). cbn. by rewrite app_nil_r.
      * by right; apply Hd.
      * apply IH, Hd.
  - destruct p as [| |k]; [done|by left|]. set (n := inner_take _ k). specialize (Hidle eq_refl).
    assert (Hn : (0 < n <= Z.to_nat (fr_remaining this))%nat) by (unfold n, inner_take; lia).
    pose proof (data_done_at this got n H Hs Hn) as Hd. destruct (take n (fr_inner this)); [by right|done].
Qed.

Lemma drive_at calls this got out err this' :
  framed_at this got -> drive calls this got = (out, err, this') ->
  got `prefix_of` out /\
  match err with
  | None => framed_at this' out
  | Some e => (e = FramedError.Inner \/ doomed) /\ exists this'', framed_at this'' out
  end.
Proof.
  revert this got. induction calls as [|[cap polls] calls IH]; intros this got H; cbn [drive]; [by intros [= <- <- <-]|].
  pose proof (poll_read_at polls this got cap H) as Hp. destruct (poll_read polls this cap) as [[|b|e] this1]; cbn [fst snd] in Hp.
  - by apply IH.
  - intros Hd. apply IH in Hd as [Hpre Hd]; [|done]. split; [|done]. etrans; [|exact Hpre]. by exists b.
  - intros [= <- <- <-]. eauto.
Qed.

(** What was delivered is the start of the stream. *)
Lemma delivered_prefix this got cs t :
  framed_at this got -> stream_of cs t ->
  got `prefix_of` concat cs /\ (fr_state this = Done -> got = concat cs /\ fr_inner this = t).
Proof.
  intros (_ & _ & cs1 & Hcs1 & _ & H) (Hcs & _ & HI). rewrite HI in H. destruct (fr_state this).
  - destruct H as (-> & _ & H). symmetry in H. apply frames_prefix in H as (cs2 & -> & _); [|done|done].
    rewrite concat_app. split; [by exists (concat cs2)|done].
  - destruct H as (_ & n & part & Hn & _ & -> & Hrem & Hrem0 & H). change MAX_FRAME_SIZE with 67108864 in Hn. symmetry in H.
    apply frames_prefix in H as (cs2 & -> & H); [|done|done]. apply Forall_app in Hcs as [_ Hcs2]. split; [|done].
    unfold frames in H. destruct Hcs2 as [|c cs2 Hc]; cbn [flat_map app] in H.
    { apply u64_inj in H as [H _]; lia. }
    pose proof (frame_ok_u64 c Hc) as Hu. unfold frame_bytes in H at 1. rewrite <- !app_assoc in H.
    apply u64_inj in H as [-> H]; [|lia|done]. rewrite concat_app. cbn [concat]. apply prefix_app.
    assert (Hpc : part = take (length part) c).
    { apply (f_equal (take (length part))) in H. rewrite take_app_length, take_app_le in H by lia. done. }
    rewrite Hpc. etrans; [apply prefix_take|]. by exists (concat cs2).
  - destruct H as (-> & H). unfold frames in H at 2. rewrite <- app_assoc in H. symmetry in H.
    apply frames_prefix in H as (cs2 & -> & H); [|done|done]. apply Forall_app in Hcs as [_ Hcs2].
    unfold frames in H. destruct Hcs2 as [|c cs2 Hc]; cbn [flat_map app] in H.
    { apply u64_inj in H as [_ ->]; [|lia|lia]. rewrite concat_app. cbn [concat]. rewrite app_nil_r. done. }
    pose proof (frame_ok_u64 c Hc) as Hu. unfold frame_bytes in H at 1. rewrite <- !app_assoc in H.
    apply u64_inj in H as [H _]; [|lia|done]. unfold frame_ok in Hc. lia.
Qed.

Definition is_ready (p : InnerPoll) : bool := match p with InnerReady _ => true | _ => false end.

(** An inner reader that is always ready moves every poll on: a byte is
    delivered, the sentinel is reached, or the stream is not one. *)
Definition moved (x : Poll * FramedStreamReader) : Prop :=
  match x with
  | (PollPending, _) => False
  | (PollReady [], this) => fr_state this = Done
  | (PollReady _, _) => True
  | (PollErr e, _) => e <> FramedError.Inner
  end.

Definition polls_left (this : FramedStreamReader) : nat :=
  match fr_state this with ReadingHeader => 9 - length (fr_header this) | ReadingData => 1 | Done => 0 end.

Lemma poll_read_moves polls this got cap :
  framed_at this got -> (0 < cap)%nat -> Forall (fun p => is_ready p = true) polls ->
  (polls_left (next_frame this) <= length polls)%nat -> moved (poll_read polls this cap).
Proof.
  intros H Hcap Hready. revert this got H. induction Hready as [|p polls Hp _ IH]; intros this got H; cbn [poll_read];
    apply next_frame_at in H as H'; pose proof (next_frame_idle this got H) as Hidle;
    generalize dependent (next_frame this); clear this H; intros this H Hidle; unfold polls_left at 1;
    destruct (fr_state this) eqn:Hs; cbn [length]; intros Hlen; try done.
  - destruct H as (_ & _ & cs & _ & _ & H). rewrite Hs in H. lia.
  - lia.
  - destruct p as [| |k]; [done..|]. destruct H as (HM & Ht & cs & Hcs & Hl & H). rewrite Hs in H.
    destruct H as (-> & Hh & HI). set (n := inner_take _ k).
    assert (Hn : (0 < n <= 8 - length (fr_header this))%nat) by (unfold n, inner_take; lia).
    destruct (take n (fr_inner this)) as [|x b] eqn:Hb; [by destruct (fr_header this)|].
    rewrite <- Hb. assert (Hlen' : (0 < length (take n (fr_inner this)) <= n)%nat) by (split; [rewrite Hb; cbn|rewrite length_take]; lia).
    rewrite <- (take_drop n (fr_inner this)), (app_assoc (fr_header this)) in HI.
    destruct (Nat.ltb_spec (length (fr_header this ++ take n (fr_inner this))) 8) as [Hlt|Hge].
    + eapply IH; [split; [done|]; split; [done|]; by exists cs|]. unfold polls_left. cbn. rewrite length_app. lia.
    + assert (H8 : length (fr_header this ++ take n (fr_inner this)) = 8%nat) by (rewrite length_app in *; lia).
      pose proof (header_done_at this cs _ _ HM Ht Hcs Hl H8 HI) as Hd. destruct (header_done _ _ _) as [this' [[]|]]; [done|..].
      * by destruct Hd as (-> & _ & Hd).
      * apply Hd.
      * destruct Hd as (Hd & Hs' & Hr'). eapply IH; [exact Hd|]. unfold polls_left, next_frame. rewrite Hs'.
        destruct (Z.eqb_spec (fr_remaining this') 0); [lia|]. rewrite Hs'. lia.
  - destruct (Nat.eqb_spec cap 0) as [->|_]; [lia|]. destruct p as [| |k]; [done..|].
    by destruct (take _ (fr_inner this)).
Qed.

(** A poll with room to deliver, and an inner reader ready throughout: eight
    polls of one byte for a header and one for data are enough. *)
Definition ready_call (c : nat * list InnerPoll) : Prop :=
  (0 < fst c)%nat /\ Forall (fun p => is_ready p = true) (snd c) /\ (9 <= length (snd c))%nat.

Lemma drive_finishes calls this got cs t :
  framed_at this got -> stream_of cs t -> Forall ready_call calls ->
  fr_state this = Done \/ (length (concat cs) < length got + length calls)%nat ->
  exists this', drive calls this got = (concat cs, None, this') /\ fr_state this' = Done /\ fr_inner this' = t.
Proof.
  intros H Hst Hcalls. revert this got H. induction Hcalls as [|[cap polls] calls (Hcap & Hready & Hlen) _ IH]; intros this got H Hdone.
  - destruct (delivered_prefix this got cs t H Hst) as [Hp Hd]. destruct Hdone as [Hs|Hl].
    + destruct (Hd Hs) as [-> <-]. by exists this.
    + apply prefix_length in Hp. cbn in Hl. lia.
  - cbn [drive fst snd length] in *. destruct (decide (fr_state this = Done)) as [Hs|Hs].
    + replace (poll_read polls this cap) with (PollReady [], this); [rewrite app_nil_r; apply IH; auto|].
      destruct polls; cbn [poll_read]; unfold next_frame; by rewrite Hs, Hs.
    + destruct Hdone as [|Hdone]; [done|]. pose proof (poll_read_at polls this got cap H) as Hok.
      assert (Hmv : moved (poll_read polls this cap)).
      { eapply poll_read_moves; [done..|]. etrans; [|exact Hlen]. unfold polls_left. generalize (next_frame this). intros x. destruct (fr_state x); lia. }
      destruct (poll_read polls this cap) as [[|b|e] this1]; cbn in Hok, Hmv; [done|..].
      * apply IH; [done|]. destruct b; [by left|right]. rewrite length_app. cbn [length]. lia.
      * destruct Hok as [->|Hok]; [done|]. by destruct (Hok cs t).
Qed.
End Stream.

Lemma framed_new_at I max_total :
  0 <= max_total -> framed_at I (Z.min max_total MAX_FRAMED_TOTAL) (framed_new I max_total) [].
Proof.
  intros Hm. split; [done|]. split; [done|]. exists []. split; [done|]. unfold MAX_FRAMED_TOTAL. cbn. split; [lia|]. split; [done|]. split; [lia|done].
Qed.

Lemma eager_stream I max_total d r' :
  bytes_ok I -> read_framed_stream (mkReader I 0) = inl (d, r') -> Z.of_nat (length d) <= max_total ->
  exists cs, stream_of I (Z.min max_total MAX_FRAMED_TOTAL) cs (rest r') /\ d = concat cs.
Proof.
  intros Hok Hr Hd. apply read_framed_stream_inl in Hr as (cs & Hcs & Hl & -> & Ha); [|done]. exists cs. split; [|done].
  split; [done|]. split; [lia|]. exact (proj1 Ha).
Qed.

(** C36: the streaming reader implements the eager one.  However the inner reader
    splits, delays or fails its reads, and whatever buffers the caller offers: once
    the streaming reader has seen the sentinel, the eager reader accepts the same
    input, returns exactly the bytes that were delivered, within the limit, and
    stops at the same place.  On an input that the eager reader accepts within the
    limit, the streaming reader reports no error of its own, delivers a prefix of
    the data at every moment, and with an inner reader that is ready it has
    delivered all of it and seen the sentinel after one poll more than the bytes. *)
Theorem framed_reader_refines I max_total calls got err this :
  bytes_ok I -> 0 <= max_total ->
  drive calls (framed_new I max_total) [] = (got, err, this) ->
  (err = None -> fr_state this = Done ->
     Z.of_nat (length got) <= max_total /\
     exists p, read_framed_stream (mkReader I 0) = inl (got, mkReader (fr_inner this) p)) /\
  (forall d r', read_framed_stream (mkReader I 0) = inl (d, r') -> Z.of_nat (length d) <= max_total ->
     (err = None \/ err = Some FramedError.Inner) /\ got `prefix_of` d /\
     (Forall ready_call calls -> (length d < length calls)%nat ->
        err = None /\ got = d /\ fr_state this = Done /\ fr_inner this = rest r')).
Proof.
  intros Hok Hm Hd. pose proof (framed_new_at I max_total Hm) as H0. pose proof (drive_at _ _ Hok _ _ _ _ _ _ H0 Hd) as [_ Ha]. split.
  - intros -> Hs. destruct Ha as (_ & _ & cs & Hcs & Hl & Ha). rewrite Hs in Ha. destruct Ha as [-> Ha]. split; [lia|].
    exists (Z.of_nat (length (frames cs))). apply read_framed_stream_inl; [done|]. exists cs.
    split; [done|]. split; [lia|]. split; [done|]. by split.
  - intros d r' Hr Hdm. destruct (eager_stream I max_total d r' Hok Hr Hdm) as (cs & Hst & ->). split; [|split].
    + destruct err as [e|]; [|by left]. destruct Ha as [[->|Hx] _]; [by right|by destruct (Hx cs (rest r'))].
    + destruct err as [e|]; [destruct Ha as [_ [this' Ha]]|]; by apply (delivered_prefix _ _ _ _ _ _ Ha Hst).
    + intros Hc Hl. destruct (drive_finishes I _ Hok calls _ [] cs (rest r') H0 Hst Hc) as (this' & Hd' & Hs & Hi); [by right|].
      rewrite Hd in Hd'. by injection Hd' as -> -> ->.
Qed.

(** "abc" in two frames, then a byte that is not part of the stream, read with a
    one-byte buffer from a reader that hands out one byte at a time. *)
Lemma framed_reader_refines_witness :
  let I := frames [str "ab"; str "c"] ++ [7] in
  let calls := repeat (1%nat, repeat (InnerReady 1) 9) 4 in
  exists this, drive calls (framed_new I 100) [] = (str "abc", None, this) /\ fr_inner this = [7].
Proof.
  intros I calls. set (x := drive calls (framed_new I 100) []). destruct x as [[got err] this] eqn:Hx. exists this.
  assert (HI : bytes_ok I) by (apply (bool_decide_unpack _); by vm_compute).
  destruct (framed_reader_refines I 100 calls got err this HI ltac:(lia) Hx) as [_ H].
  destruct (H (str "abc") (mkReader [7] 27)) as (_ & _ & H'); [by vm_compute|by vm_compute|].
  destruct H' as (-> & -> & _ & ->); [|clear; cbn; lia|by clear].
  clear. repeat (apply Forall_cons; split; [split; [cbn; lia|split; [by repeat constructor|cbn; lia]]|]). constructor.
Defined.
