(* ===== verification/LeaseElection.v ===== *)
(** * Leader election: one election round against the lease object

    [src/rio-lease/src/election.rs]: the decision on a fetched lease, the request
    the act phase sends, what its answer means, and the graceful release.  Durations
    and instants are nanoseconds.  The answer of the API server to a request is an
    input: applied, refused with 409, or an error. *)

From S2P Require Import Prelude.

(** ** The lease object *)

Record LeaseSpec : Type := mkSpec {
  holder_identity : option string;
  lease_duration_seconds : option Z;
  acquire_time : option string;
  renew_time : option string;
  lease_transitions : option Z;
}.

Definition empty_spec : LeaseSpec := mkSpec None None None None None.

Record Lease : Type := mkLease {
  resource_version : option string;
  spec : option LeaseSpec;
}.

#[export] Instance LeaseSpec_eq_dec : EqDecision LeaseSpec.
Proof. solve_decision. Defined.

#[export] Instance Lease_eq_dec : EqDecision Lease.
Proof. solve_decision. Defined.

(** The fields behind the [and_then] chains. *)
Definition lease_holder (l : Lease) : option string :=
  match spec l with Some s => holder_identity s | None => None end.

Definition lease_renew (l : Lease) : option string :=
  match spec l with Some s => renew_time s | None => None end.

Definition i32_max : Z := 2147483647.

(** [i32] addition of the release profile. *)
Definition i32_wrapping_add (a b : Z) : Z :=
  (a + b + 2147483648) mod 4294967296 - 2147483648.

(** [u64::try_from(t).unwrap_or(0)]. *)
Definition clamp_transitions (t : Z) : Z := if t <? 0 then 0 else t.

Definition lease_count (l : Lease) : Z :=
  match spec l with
  | Some s => match lease_transitions s with Some t => clamp_transitions t | None => 0 end
  | None => 0
  end.

(** ** The decision *)

Module Decision.
Inductive Decision : Type := Renew | Steal | Standby.
End Decision.

Module HolderKind.
Inductive HolderKind : Type := Empty | Us | Other.
End HolderKind.

Module ObservedUpdate.
Inductive ObservedUpdate : Type := Keep | Clear | StartObserving.
End ObservedUpdate.

Record Observed : Type := mkObserved {
  ob_holder : string;
  ob_renew_time : option string;
  ob_at : Z;
}.

Definition decide_pure (holder : HolderKind.HolderKind) (matched_observation_age_ms : option Z) (steal_after_ms : Z)
    : Decision.Decision * ObservedUpdate.ObservedUpdate :=
  match holder with
  | HolderKind.Empty => (Decision.Steal, ObservedUpdate.Clear)
  | HolderKind.Us => (Decision.Renew, ObservedUpdate.Keep)
  | HolderKind.Other =>
      match matched_observation_age_ms with
      | Some age_ms =>
          if steal_after_ms <? age_ms then (Decision.Steal, ObservedUpdate.Keep)
          else (Decision.Standby, ObservedUpdate.Keep)
      | None => (Decision.Standby, ObservedUpdate.StartObserving)
      end
  end.

Definition holder_kind (holder : option string) (our_id : string) : HolderKind.HolderKind :=
  match holder with
  | None => HolderKind.Empty
  | Some h =>
      if bool_decide (h = ""%string) then HolderKind.Empty
      else if bool_decide (h = our_id) then HolderKind.Us else HolderKind.Other
  end.

(** [Duration::as_millis], and [Instant::duration_since], which saturates. *)
Definition as_millis (d : Z) : Z := d / 1000000.
Definition duration_since (a b : Z) : Z := Z.max 0 (a - b).

Definition matched_age (holder renew : option string) (observed : option Observed) (sent_at : Z) : option Z :=
  match observed with
  | Some o =>
      if bool_decide (holder = Some (ob_holder o)) && bool_decide (ob_renew_time o = renew)
      then Some (as_millis (duration_since sent_at (ob_at o))) else None
  | None => None
  end.

Definition decide (holder renew : option string) (observed : option Observed) (our_id : string)
    (steal_after sent_at confirmed_at : Z) : Decision.Decision * option Observed :=
  let (decision, update) :=
    decide_pure (holder_kind holder our_id) (matched_age holder renew observed sent_at) (as_millis steal_after) in
  (decision,
   match update with
   | ObservedUpdate.Keep => observed
   | ObservedUpdate.Clear => None
   | ObservedUpdate.StartObserving => Some (mkObserved (default ""%string holder) renew confirmed_at)
   end).

(** ** Fetch and act *)

Record LeaderElection : Type := mkElection {
  holder_id : string;
  ttl : Z;
  steal_after : Z;
  observed : option Observed;
}.

Definition set_observed (o : option Observed) (e : LeaderElection) : LeaderElection :=
  mkElection (holder_id e) (ttl e) (steal_after e) o.

Definition election_new (id : string) (ttl steal_after : Z) : LeaderElection := mkElection id ttl steal_after None.

Module FetchOutcome.
Inductive FetchOutcome : Type :=
| Create
| Decided (decision : Decision.Decision) (lease : Lease).
End FetchOutcome.

(** [fetch_and_decide] once the GET has answered with [got]. *)
Definition fetch_and_decide (e : LeaderElection) (got : option Lease) (sent_at confirmed_at : Z)
    : FetchOutcome.FetchOutcome * LeaderElection :=
  match got with
  | None => (FetchOutcome.Create, e)
  | Some lease =>
      let (decision, o) :=
        decide (lease_holder lease) (lease_renew lease) (observed e) (holder_id e) (steal_after e) sent_at confirmed_at in
      (FetchOutcome.Decided decision lease, set_observed o e)
  end.

Module ElectionResult.
Inductive ElectionResult : Type := Leading (transitions : Z) | Standby | Conflict.
End ElectionResult.

(** The body of [create]'s POST; [now] is the wall-clock text. *)
Definition create_body (e : LeaderElection) (now : string) : Lease :=
  mkLease None (Some (mkSpec (Some (holder_id e)) (Some (ttl e / 1000000000)) (Some now) (Some now) (Some 0))).

(** The body of [replace]'s PUT. *)
Definition replace_body (e : LeaderElection) (now : string) (lease : Lease) (steal : bool) : Lease :=
  let s := default empty_spec (spec lease) in
  let s := mkSpec (holder_identity s) (Some (ttl e / 1000000000)) (acquire_time s) (Some now) (lease_transitions s) in
  let s :=
    if steal then
      mkSpec (Some (holder_id e)) (lease_duration_seconds s) (Some now) (renew_time s)
        (Some (i32_wrapping_add (default 0 (lease_transitions s)) 1))
    else s in
  mkLease (resource_version lease) (Some s).

(** The transition count the PUT writes. *)
Definition written_transitions (body : Lease) : Z := lease_count body.

Inductive Request : Type := Post (body : Lease) | Put (body : Lease).

(** [act] up to the answer: nothing to send, or a request with the result its
    success means and whether that success ends the observation. *)
Inductive Act : Type :=
| ActDone (r : ElectionResult.ElectionResult)
| ActSend (q : Request) (on_ok : ElectionResult.ElectionResult) (stole : bool).

Definition act (e : LeaderElection) (now : string) (o : FetchOutcome.FetchOutcome) : Act :=
  match o with
  | FetchOutcome.Create => ActSend (Post (create_body e now)) (ElectionResult.Leading 0) false
  | FetchOutcome.Decided Decision.Standby _ => ActDone ElectionResult.Standby
  | FetchOutcome.Decided Decision.Renew lease =>
      let body := replace_body e now lease false in
      ActSend (Put body) (ElectionResult.Leading (written_transitions body)) false
  | FetchOutcome.Decided Decision.Steal lease =>
      let body := replace_body e now lease true in
      ActSend (Put body) (ElectionResult.Leading (written_transitions body)) true
  end.

(** The server's answer to a mutating request. *)
Inductive Answer : Type := Applied | Refused | Failed.

(** What [create] and [replace] return, and the record after a successful steal. *)
Definition act_answered (e : LeaderElection) (on_ok : ElectionResult.ElectionResult) (stole : bool) (a : Answer)
    : option ElectionResult.ElectionResult * LeaderElection :=
  match a with
  | Applied => (Some on_ok, if stole then set_observed None e else e)
  | Refused => (Some ElectionResult.Conflict, e)
  | Failed => (None, e)
  end.

Record FetchFacts : Type := mkFacts {
  holder_is_us : bool;
  ff_renew_time : option string;
  ff_transitions : Z;
}.

(** The facts [renew_phased] hands to the loop, and whether the act mutates. *)
Definition fetch_facts (e : LeaderElection) (o : FetchOutcome.FetchOutcome) : option FetchFacts :=
  match o with
  | FetchOutcome.Create => None
  | FetchOutcome.Decided _ lease =>
      Some (mkFacts (bool_decide (lease_holder lease = Some (holder_id e))) (lease_renew lease) (lease_count lease))
  end.

Definition mutating (o : FetchOutcome.FetchOutcome) : bool :=
  match o with
  | FetchOutcome.Create => true
  | FetchOutcome.Decided Decision.Standby _ => false
  | FetchOutcome.Decided _ _ => true
  end.

(** ** Graceful release *)

Module StepDownOutcome.
Inductive StepDownOutcome : Type := Released | NotOurs.
End StepDownOutcome.

(** After the GET: nothing of ours, or the body to PUT. *)
Definition step_down_read (e : LeaderElection) (got : option Lease) : StepDownOutcome.StepDownOutcome + Lease :=
  match got with
  | None => inl StepDownOutcome.NotOurs
  | Some lease =>
      if bool_decide (lease_holder lease = Some (holder_id e)) then
        let s := default empty_spec (spec lease) in
        inr (mkLease (resource_version lease)
               (Some (mkSpec None (lease_duration_seconds s) (acquire_time s) (renew_time s) (lease_transitions s))))
      else inl StepDownOutcome.NotOurs
  end.

(** The loop: each round is a GET and, when the lease is ours, the answer to the
    PUT; [inr] is the error that is returned, [None] the deadline of the caller. *)
Fixpoint step_down (e : LeaderElection) (rounds : list ((option Lease + unit) * Answer))
    : option (StepDownOutcome.StepDownOutcome + unit) :=
  match rounds with
  | [] => None
  | (inr _, _) :: _ => Some (inr tt)
  | (inl got, a) :: rounds =>
      match step_down_read e got with
      | inl o => Some (inl o)
      | inr _ =>
          match a with
          | Applied => Some (inl StepDownOutcome.Released)
          | Refused => step_down e rounds
          | Failed => Some (inr tt)
          end
      end
  end.
