(* ===== verification/LeaseState.v ===== *)
(** * Leader election: the shared leader state

    [LeaderState] and [DirtyGen] of [src/rio-lease/src/lib.rs]: atomics that the
    lease loop, the scheduler's recovery and the readers share.  Every method is one
    transition of the record; interleavings are sequences of methods. *)

From S2P Require Import Prelude.

Definition RECOVERY_NOT_COMPLETE : Z := u64_max.
Definition STEP_DOWN_NONE : Z := u64_max.

Record LeaderState : Type := mkLeader {
  generation : Z;
  acquired_transitions : Z;
  is_leader : bool;
  recovery_completed_for : Z;
  renew_rounds_started : Z;
  last_leading_round : Z;
  became_leader_at : option Z;
  step_down_for : Z;
  acquire_instance : Z;
}.

(** [fetch_add] on a [u64]. *)
Definition u64_wrapping_add (a b : Z) : Z := (a + b) mod (u64_max + 1).

(** [always_leader] and [pending]; the starting generation and the clock are
    inputs. *)
Definition always_leader (gen now : Z) : LeaderState :=
  mkLeader gen 0 true 0 0 0 (Some now) STEP_DOWN_NONE 0.

Definition pending (gen : Z) : LeaderState :=
  mkLeader gen 0 false RECOVERY_NOT_COMPLETE 0 0 None STEP_DOWN_NONE 0.

Definition recovery_complete (s : LeaderState) : bool :=
  negb (recovery_completed_for s =? RECOVERY_NOT_COMPLETE)
  && (recovery_completed_for s =? acquired_transitions s).

Definition set_recovery_complete (transitions_at_entry : Z) (s : LeaderState) : LeaderState :=
  mkLeader (generation s) (acquired_transitions s) (is_leader s) transitions_at_entry (renew_rounds_started s)
    (last_leading_round s) (became_leader_at s) (step_down_for s) (acquire_instance s).

Definition invalidate_recovery_completion (s : LeaderState) : LeaderState :=
  set_recovery_complete RECOVERY_NOT_COMPLETE s.

(** The round's id is the new count. *)
Definition begin_renew_round (s : LeaderState) : LeaderState :=
  mkLeader (generation s) (acquired_transitions s) (is_leader s) (recovery_completed_for s)
    (u64_wrapping_add (renew_rounds_started s) 1) (last_leading_round s) (became_leader_at s) (step_down_for s)
    (acquire_instance s).

Definition confirm_leading_round (round : Z) (s : LeaderState) : LeaderState :=
  mkLeader (generation s) (acquired_transitions s) (is_leader s) (recovery_completed_for s)
    (renew_rounds_started s) (Z.max (last_leading_round s) round) (became_leader_at s) (step_down_for s)
    (acquire_instance s).

Definition leader_for (s : LeaderState) (now : Z) : option Z :=
  option_map (fun t => Z.max 0 (now - t)) (became_leader_at s).

Definition seed_generation_from (target : Z) (s : LeaderState) : LeaderState :=
  mkLeader (Z.max (generation s) target) (acquired_transitions s) (is_leader s) (recovery_completed_for s)
    (renew_rounds_started s) (last_leading_round s) (became_leader_at s) (step_down_for s) (acquire_instance s).

Definition with_step_down_for (v : Z) (s : LeaderState) : LeaderState :=
  mkLeader (generation s) (acquired_transitions s) (is_leader s) (recovery_completed_for s)
    (renew_rounds_started s) (last_leading_round s) (became_leader_at s) v (acquire_instance s).

Definition request_step_down (for_instance : Z) (s : LeaderState) : LeaderState := with_step_down_for for_instance s.

(** The request is consumed whenever there is one; it is served when its stamp
    names the current instance. *)
Definition take_step_down_request (current_instance : Z) (s : LeaderState) : bool * LeaderState :=
  if step_down_for s =? STEP_DOWN_NONE then (false, s)
  else (step_down_for s =? current_instance, with_step_down_for STEP_DOWN_NONE s).

Definition on_acquire (transitions now : Z) (s : LeaderState) : LeaderState :=
  mkLeader (Z.max (generation s) (u64_saturating_add transitions 1)) transitions true (recovery_completed_for s)
    (renew_rounds_started s) (last_leading_round s) (Some now) STEP_DOWN_NONE
    (u64_wrapping_add (acquire_instance s) 1).

Definition on_rebound (transitions now : Z) (s : LeaderState) : LeaderState :=
  mkLeader (Z.max (generation s) (u64_saturating_add transitions 1)) transitions (is_leader s) RECOVERY_NOT_COMPLETE
    (renew_rounds_started s) (last_leading_round s) (Some now) STEP_DOWN_NONE
    (u64_wrapping_add (acquire_instance s) 1).

Definition on_lose (s : LeaderState) : LeaderState :=
  mkLeader (generation s) (acquired_transitions s) false RECOVERY_NOT_COMPLETE (renew_rounds_started s)
    (last_leading_round s) None (step_down_for s) (acquire_instance s).

(** ** Histories of the shared state *)

(** What the tasks do to it, in the order of the atomics. *)
Inductive LeaderOp : Type :=
| OpAcquire (transitions now : Z)
| OpRebound (transitions now : Z)
| OpLose
| OpComplete (transitions_at_entry : Z)
| OpInvalidate
| OpBeginRound
| OpConfirmRound (round : Z)
| OpSeed (target : Z)
| OpRequestStepDown (for_instance : Z)
| OpTakeStepDown.

Definition run_op (op : LeaderOp) (s : LeaderState) : LeaderState :=
  match op with
  | OpAcquire t now => on_acquire t now s
  | OpRebound t now => on_rebound t now s
  | OpLose => on_lose s
  | OpComplete t => set_recovery_complete t s
  | OpInvalidate => invalidate_recovery_completion s
  | OpBeginRound => begin_renew_round s
  | OpConfirmRound r => confirm_leading_round r s
  | OpSeed t => seed_generation_from t s
  | OpRequestStepDown i => request_step_down i s
  | OpTakeStepDown => snd (take_step_down_request (acquire_instance s) s)
  end.

Definition run_ops (ops : list LeaderOp) (s : LeaderState) : LeaderState := fold_left (fun s op => run_op op s) ops s.

Lemma run_ops_snoc ops op s : run_ops (ops ++ [op]) s = run_op op (run_ops ops s).
Proof. unfold run_ops. by rewrite fold_left_app. Qed.

(** ** Recovery completion *)

(** The last completion that nothing cleared, newest operation first. *)
Fixpoint standing_completion (rev_ops : list LeaderOp) : option Z :=
  match rev_ops with
  | [] => None
  | OpComplete t :: _ => Some t
  | (OpLose | OpRebound _ _ | OpInvalidate) :: _ => None
  | _ :: rev_ops => standing_completion rev_ops
  end.

(** The last epoch entered. *)
Fixpoint current_epoch (rev_ops : list LeaderOp) : Z :=
  match rev_ops with
  | [] => 0
  | (OpAcquire t _ | OpRebound t _) :: _ => t
  | _ :: rev_ops => current_epoch rev_ops
  end.

Definition op_ok (op : LeaderOp) : Prop := match op with OpComplete t => 0 <= t < u64_max | _ => True end.

Lemma completion_tracks ops gen :
  Forall op_ok ops ->
  let s := run_ops ops (pending gen) in
  acquired_transitions s = current_epoch (rev ops) /\
  recovery_completed_for s = default RECOVERY_NOT_COMPLETE (standing_completion (rev ops)).
Proof.
  induction ops as [|op ops IH] using rev_ind; [done|]. rewrite Forall_app. intros [Hops Hop].
  destruct (IH Hops) as [IHe IHc]. cbn zeta. rewrite run_ops_snoc, rev_app_distr. cbn [rev app].
  destruct op; cbn; try (by split); try done.
  all: unfold take_step_down_request; by destruct (_ =? _).
Qed.

Lemma standing_completion_ok ops t :
  Forall op_ok ops -> standing_completion ops = Some t -> 0 <= t < u64_max.
Proof. induction 1 as [|op ops Hop _ IH]; [done|]. destruct op; cbn in *; naive_solver. Qed.

(** recovery gates dispatch by epoch.  After any interleaving of the lease
    loop, the recovering actor and the readers, recovery counts as complete exactly
    when the last completion was recorded for the epoch that is current now and no
    loss, rebound or invalidation came after it: a completion computed under an
    epoch that a later acquire replaced never opens the gate. *)
Theorem recovery_gate_exact ops gen :
  Forall op_ok ops ->
  recovery_complete (run_ops ops (pending gen)) = true <->
  standing_completion (rev ops) = Some (current_epoch (rev ops)).
Proof.
  intros Hops. destruct (completion_tracks ops gen Hops) as [He Hc]. unfold recovery_complete. rewrite He, Hc.
  rewrite andb_true_iff, negb_true_iff, Z.eqb_neq, Z.eqb_eq. destruct (standing_completion (rev ops)) as [t|] eqn:Hs; cbn.
  - apply standing_completion_ok in Hs; [|by apply Forall_rev]. unfold RECOVERY_NOT_COMPLETE. split; [by intros [_ ->]|].
    intros [= <-]. lia.
  - split; [|done]. by intros [].
Qed.

(** A completion that raced a rebound stays closed; one for the same epoch after a
    false alarm opens. *)
Lemma recovery_gate_exact_witness :
  recovery_complete (run_ops [OpAcquire 3 0; OpRebound 5 1; OpComplete 3] (pending 1)) = false /\
  recovery_complete (run_ops [OpAcquire 3 0; OpLose; OpAcquire 3 1; OpComplete 3] (pending 1)) = true.
Proof.
  split.
  - apply not_true_iff_false. intros H. apply recovery_gate_exact in H; [done|repeat constructor; cbn; lia].
  - apply recovery_gate_exact; [repeat constructor; cbn; lia|done].
Defined.

(** ** Step-down requests *)

(** The pending request of the current instance: filed for it, and neither taken
    nor superseded since. *)
Definition entries (ops : list LeaderOp) : Z :=
  Z.of_nat (length (List.filter (fun op => match op with OpAcquire _ _ | OpRebound _ _ => true | _ => false end) ops)).

Fixpoint filed (rev_ops : list LeaderOp) : option Z :=
  match rev_ops with
  | [] => None
  | OpRequestStepDown i :: _ => Some i
  | (OpAcquire _ _ | OpRebound _ _ | OpTakeStepDown) :: _ => None
  | _ :: rev_ops => filed rev_ops
  end.

Lemma entries_snoc ops op :
  entries (ops ++ [op]) = entries ops + match op with OpAcquire _ _ | OpRebound _ _ => 1 | _ => 0 end.
Proof. unfold entries. rewrite filter_app_bool, length_app. destruct op; cbn; lia. Qed.

Lemma entries_nonneg ops : 0 <= entries ops.
Proof. unfold entries. lia. Qed.

Lemma step_down_tracks ops gen :
  entries ops < u64_max ->
  let s := run_ops ops (pending gen) in
  acquire_instance s = entries ops /\ step_down_for s = default STEP_DOWN_NONE (filed (rev ops)).
Proof.
  induction ops as [|op ops IH] using rev_ind; [done|]. rewrite entries_snoc. intros Hlt. pose proof (entries_nonneg ops) as H0.
  destruct IH as [IHi IHf]; [destruct op; lia|]. cbn zeta. rewrite run_ops_snoc, rev_app_distr. cbn [rev app].
  destruct op; cbn; rewrite ?Z.add_0_r; try (by split).
  all: try (split; [|done]; rewrite IHi; unfold u64_wrapping_add; apply Z.mod_small; lia).
  unfold take_step_down_request. destruct (Z.eqb_spec (step_down_for (run_ops ops (pending gen))) STEP_DOWN_NONE); cbn; [split; congruence|done].
Qed.

(** a step-down is served only to the tenure that asked for it.  Whatever
    order requests, acquires, rebounds and losses come in, a tick takes a request
    as its own exactly when the last thing filed since the current tenure began,
    and not taken since, names that very tenure; the number of tenures so far is
    its name, so no later tenure can match it. *)
Theorem step_down_served_exact ops gen :
  entries ops < u64_max ->
  let s := run_ops ops (pending gen) in
  fst (take_step_down_request (acquire_instance s) s) = true <-> filed (rev ops) = Some (entries ops).
Proof.
  intros Hlt. destruct (step_down_tracks ops gen Hlt) as [Hi Hf]. cbn zeta. unfold take_step_down_request. rewrite Hi, Hf.
  pose proof (entries_nonneg ops). destruct (filed (rev ops)) as [i|]; cbn.
  - destruct (Z.eqb_spec i STEP_DOWN_NONE) as [->|Hn]; cbn; [|rewrite Z.eqb_eq; split; [by intros -> | by intros [= ->]]].
    unfold STEP_DOWN_NONE. split; [done|]. intros [= He]. lia.
  - done.
Qed.

(** Tenure 1 asks, a false alarm re-acquires the same epoch as tenure 2, and the
    old request is not served to it. *)
Lemma step_down_served_exact_witness :
  (let s := run_ops [OpAcquire 4 0; OpRequestStepDown 1] (pending 1) in
   fst (take_step_down_request (acquire_instance s) s) = true) /\
  (let s := run_ops [OpAcquire 4 0; OpLose; OpAcquire 4 1; OpRequestStepDown 1] (pending 1) in
   fst (take_step_down_request (acquire_instance s) s) = false).
Proof.
  split.
  - apply step_down_served_exact; [by vm_compute|done].
  - apply not_true_iff_false. intros H. apply step_down_served_exact in H; [done|by vm_compute].
Defined.

(** ** Marks *)

Record DirtyGen : Type := mkDirty { marked : Z; cleared : Z }.

Definition new_dirty : DirtyGen := mkDirty 1 0.
Definition mark (d : DirtyGen) : DirtyGen := mkDirty (u64_wrapping_add (marked d) 1) (cleared d).
Definition snapshot (d : DirtyGen) : Z := marked d.
Definition is_dirty (d : DirtyGen) : bool := cleared d <? marked d.
Definition clear_through (snap : Z) (d : DirtyGen) : DirtyGen := mkDirty (marked d) (Z.max (cleared d) snap).
