(* ===== verification/LeaseRound.v ===== *)
(** * Leader election: one tick of the lease loop

    [src/rio-lease/src/lib.rs]: the standing algebra, the routing law for completed
    reads, the derivation of a completed round, and the branches of
    [run_lease_loop_with_client]'s body.  The readings of the fence clock and of the
    monotonic clock, the outcome of the round and of a release are inputs.  [None] is
    a failed [expect]. *)

From S2P Require Import Prelude LeaseElection LeaseState.

(** Durations in nanoseconds. *)
Definition SECOND : Z := 1000000000.
Definition LEASE_TTL : Z := 15 * SECOND.
Definition RENEW_INTERVAL : Z := 5 * SECOND.
Definition RENEW_SLOP : Z := 2 * SECOND.
Definition RENEW_PHASE_DEADLINE : Z := 1500 * 1000000.
Definition FENCE_MARGIN : Z := 4 * SECOND.
Definition SELF_FENCE_AFTER : Z := 11 * SECOND.
Definition STEAL_AFTER : Z := 19 * SECOND.

(** ** Standing *)

Record LeaseStanding : Type := mkStanding {
  believes : bool;
  held_unsuperseded : bool;
  conflict_deferred : bool;
}.

Definition standing_new : LeaseStanding := mkStanding false false false.

Module ConflictResolution.
Inductive ConflictResolution : Type := Deferred | Exhausted.
End ConflictResolution.

Definition on_observed_held (s : LeaseStanding) : LeaseStanding := mkStanding true true false.
Definition on_observed_not_leading (s : LeaseStanding) : LeaseStanding := mkStanding false false false.
Definition on_self_fence (s : LeaseStanding) : LeaseStanding := mkStanding false (held_unsuperseded s) false.

Definition on_believing_conflict (s : LeaseStanding) : ConflictResolution.ConflictResolution * LeaseStanding :=
  if conflict_deferred s then (ConflictResolution.Exhausted, s)
  else (ConflictResolution.Deferred, mkStanding (believes s) (held_unsuperseded s) true).

Definition should_release_on_shutdown (s : LeaseStanding) : bool := held_unsuperseded s.

Module CompletedLoseEvidence.
Inductive CompletedLoseEvidence : Type := AnotherHolderObserved | ConflictDeferralExhausted.
End CompletedLoseEvidence.

Definition evidence_apply (e : CompletedLoseEvidence.CompletedLoseEvidence) (s : LeaseStanding) : LeaseStanding :=
  match e with
  | CompletedLoseEvidence.AnotherHolderObserved => on_observed_not_leading s
  | CompletedLoseEvidence.ConflictDeferralExhausted => on_self_fence s
  end.

(** ** Cells of a completed read *)

Module ContentBaseline.
Inductive ContentBaseline : Type := NoCompletedRead | Absent | Present (renew_time : option string).
End ContentBaseline.

Module HolderCell.
Inductive HolderCell : Type := Us | Other | Absent.
End HolderCell.

Definition holder_cell (facts : option FetchFacts) : HolderCell.HolderCell :=
  match facts with
  | Some f => if holder_is_us f then HolderCell.Us else HolderCell.Other
  | None => HolderCell.Absent
  end.

Module ContentCell.
Inductive ContentCell : Type := Moved | Frozen.
End ContentCell.

Definition content_cell (baseline : ContentBaseline.ContentBaseline) (facts : option FetchFacts) : ContentCell.ContentCell :=
  match facts with
  | None => ContentCell.Frozen
  | Some f =>
      let moved :=
        match baseline with
        | ContentBaseline.Present prev => negb (bool_decide (prev = ff_renew_time f))
        | ContentBaseline.Absent => true
        | ContentBaseline.NoCompletedRead => false
        end in
      if moved then ContentCell.Moved else ContentCell.Frozen
  end.

Module LedgerCell.
Inductive LedgerCell : Type := Armed | Empty.
End LedgerCell.

#[export] Instance ContentCell_eq_dec : EqDecision ContentCell.ContentCell.
Proof. solve_decision. Defined.

#[export] Instance LedgerCell_eq_dec : EqDecision LedgerCell.LedgerCell.
Proof. solve_decision. Defined.

Definition ledger_cell (unconfirmed : option Z) : LedgerCell.LedgerCell :=
  match unconfirmed with Some _ => LedgerCell.Armed | None => LedgerCell.Empty end.

Module ActDoubt.
Inductive ActDoubt : Type := Transmitted | Resolved.
End ActDoubt.

Definition act_doubt (put_transmitted : bool) : ActDoubt.ActDoubt :=
  if put_transmitted then ActDoubt.Transmitted else ActDoubt.Resolved.

Module ActFailedAction.
Inductive ActFailedAction : Type :=
| EvidenceResolve | FunnelResolve | EvidencedLose | ObserveOnly | AbsenceLose | AbsenceLoseHoldKept | AbsenceObserve.
End ActFailedAction.

Definition route_act_failed_read (believes : bool) (holder : HolderCell.HolderCell) (content : ContentCell.ContentCell)
    (ledger : LedgerCell.LedgerCell) (doubt : ActDoubt.ActDoubt) : ActFailedAction.ActFailedAction :=
  match believes, holder, content, ledger, doubt with
  | _, HolderCell.Us, ContentCell.Moved, LedgerCell.Armed, _ => ActFailedAction.EvidenceResolve
  | true, HolderCell.Us, ContentCell.Moved, LedgerCell.Empty, _ => ActFailedAction.FunnelResolve
  | true, HolderCell.Us, ContentCell.Frozen, _, _ => ActFailedAction.FunnelResolve
  | true, HolderCell.Other, _, _, _ => ActFailedAction.EvidencedLose
  | true, HolderCell.Absent, _, LedgerCell.Armed, _ => ActFailedAction.AbsenceLoseHoldKept
  | true, HolderCell.Absent, _, LedgerCell.Empty, ActDoubt.Transmitted => ActFailedAction.AbsenceLoseHoldKept
  | true, HolderCell.Absent, _, LedgerCell.Empty, ActDoubt.Resolved => ActFailedAction.AbsenceLose
  | false, HolderCell.Us, ContentCell.Moved, LedgerCell.Empty, _ => ActFailedAction.ObserveOnly
  | false, HolderCell.Us, ContentCell.Frozen, _, _ => ActFailedAction.ObserveOnly
  | false, HolderCell.Other, _, _, _ => ActFailedAction.ObserveOnly
  | false, HolderCell.Absent, _, _, _ => ActFailedAction.AbsenceObserve
  end.

(** ** The derivation of a completed round *)

Module ActCell.
Inductive ActCell : Type := Leading | Standby | Conflict.
End ActCell.

Definition act_cell (r : ElectionResult.ElectionResult) : ActCell.ActCell :=
  match r with
  | ElectionResult.Leading _ => ActCell.Leading
  | ElectionResult.Standby => ActCell.Standby
  | ElectionResult.Conflict => ActCell.Conflict
  end.

Record ReadFacts : Type := mkRead {
  rf_holder : HolderCell.HolderCell;
  rf_content : ContentCell.ContentCell;
  rf_ledger : LedgerCell.LedgerCell;
  evidence_past_fence : bool;
}.

Module ConsumeMode.
Inductive ConsumeMode : Type := StampOnly | Restore | Funnel.
End ConsumeMode.

Definition consume_mode (past_fence believes : bool) : ConsumeMode.ConsumeMode :=
  if past_fence then ConsumeMode.StampOnly
  else if negb believes then ConsumeMode.Restore else ConsumeMode.Funnel.

Definition evidence_acquire_futile (anchor_age : Z) : bool := SELF_FENCE_AFTER <? anchor_age + RENEW_INTERVAL.

Module RoundEdge.
Inductive RoundEdge : Type :=
| Acquire
| StillLeading
| Lose (e : CompletedLoseEvidence.CompletedLoseEvidence)
| LoseObservedAbsent (write_in_doubt : bool)
| Defer
| StandbyObserved
| ConflictHoldKept.
End RoundEdge.

Module StaleReadRefusal.
Inductive StaleReadRefusal : Type := Funnel | Observe | AbsenceObserve.
End StaleReadRefusal.

Module BaselineEdge.
Inductive BaselineEdge : Type := FromRead | NoCompletedRead | ReadObservedAbsent.
End BaselineEdge.

Record RoundTransition : Type := mkTransition {
  consume : option ConsumeMode.ConsumeMode;
  adjudication : option ConflictResolution.ConflictResolution;
  edge : RoundEdge.RoundEdge;
  attempt_stamp : bool;
  clear_ledger_wholesale : bool;
  baseline : BaselineEdge.BaselineEdge;
  confirm : bool;
  read_refusal : option StaleReadRefusal.StaleReadRefusal;
}.

(** What the conflict round's own read decides: the evidence to consume, an absent
    or foreign lease, or a refused reading. *)
Record Consult : Type := mkConsult {
  c_consume : option ConsumeMode.ConsumeMode;
  c_absent : option bool;
  c_other : bool;
  c_refusal : option StaleReadRefusal.StaleReadRefusal;
}.

Definition consult (facts : ReadFacts) (outcome : ActCell.ActCell) (believes : bool) : Consult :=
  match outcome with
  | ActCell.Conflict =>
      match route_act_failed_read believes (rf_holder facts) (rf_content facts) (rf_ledger facts) ActDoubt.Resolved with
      | ActFailedAction.EvidenceResolve =>
          mkConsult (Some (consume_mode (evidence_past_fence facts) believes)) None false None
      | ActFailedAction.EvidencedLose => mkConsult None None true None
      | ActFailedAction.AbsenceLose => mkConsult None (Some false) false None
      | ActFailedAction.AbsenceLoseHoldKept => mkConsult None (Some true) false None
      | ActFailedAction.FunnelResolve => mkConsult None None false (Some StaleReadRefusal.Funnel)
      | ActFailedAction.ObserveOnly => mkConsult None None false (Some StaleReadRefusal.Observe)
      | ActFailedAction.AbsenceObserve => mkConsult None None false (Some StaleReadRefusal.AbsenceObserve)
      end
  | _ => mkConsult None None false None
  end.

Definition funnel_runs (m : option ConsumeMode.ConsumeMode) : bool :=
  match m with Some (ConsumeMode.Restore | ConsumeMode.Funnel) => true | _ => false end.

Definition select_edge (facts : ReadFacts) (outcome : ActCell.ActCell) (c : Consult) (believes deferred : bool)
    : option ConflictResolution.ConflictResolution * RoundEdge.RoundEdge :=
  if c_other c then (None, RoundEdge.Lose CompletedLoseEvidence.AnotherHolderObserved)
  else match c_absent c with
  | Some write_in_doubt => (None, RoundEdge.LoseObservedAbsent write_in_doubt)
  | None =>
      match outcome, believes with
      | ActCell.Leading, false => (None, RoundEdge.Acquire)
      | ActCell.Leading, true => (None, RoundEdge.StillLeading)
      | ActCell.Standby, true => (None, RoundEdge.Lose CompletedLoseEvidence.AnotherHolderObserved)
      | ActCell.Standby, false => (None, RoundEdge.StandbyObserved)
      | ActCell.Conflict, false =>
          match rf_holder facts, rf_ledger facts with
          | HolderCell.Us, _ => (None, RoundEdge.ConflictHoldKept)
          | HolderCell.Other, _ => (None, RoundEdge.StandbyObserved)
          | HolderCell.Absent, LedgerCell.Armed => (None, RoundEdge.ConflictHoldKept)
          | HolderCell.Absent, LedgerCell.Empty => (None, RoundEdge.StandbyObserved)
          end
      | ActCell.Conflict, true =>
          let verdict := fst (on_believing_conflict (mkStanding believes false deferred)) in
          (Some verdict,
           match verdict with
           | ConflictResolution.Exhausted => RoundEdge.Lose CompletedLoseEvidence.ConflictDeferralExhausted
           | ConflictResolution.Deferred => RoundEdge.Defer
           end)
      end
  end.

Definition complete_round (facts : ReadFacts) (outcome : ActCell.ActCell) (standing : LeaseStanding) : RoundTransition :=
  let c := consult facts outcome (believes standing) in
  let runs := funnel_runs (c_consume c) in
  let lost := match c_absent c with Some _ => true | None => false end || c_other c in
  let believes := (believes standing || runs) && negb lost in
  let deferred := conflict_deferred standing && negb runs in
  let (adjudication, edge) := select_edge facts outcome c believes deferred in
  mkTransition (c_consume c) adjudication edge
    (match edge with RoundEdge.Defer => false | _ => true end)
    (match outcome with ActCell.Conflict => false | _ => true end)
    (match rf_holder facts, outcome with
     | HolderCell.Absent, ActCell.Leading => BaselineEdge.NoCompletedRead
     | HolderCell.Absent, _ => BaselineEdge.ReadObservedAbsent
     | _, _ => BaselineEdge.FromRead
     end)
    (match outcome with ActCell.Leading => true | _ => false end)
    (c_refusal c).

(** ** The loop's state *)

Inductive Hook : Type := HookAcquire | HookLose | HookRebound.

Record Loop : Type := mkLoop {
  l_state : LeaderState;
  l_standing : LeaseStanding;
  l_marks : DirtyGen;
  l_blind : Z;
  l_unconfirmed : option Z;
  l_baseline : ContentBaseline.ContentBaseline;
  l_hooks : list Hook;
}.

Definition loop_start (state : LeaderState) (anchor : Z) : Loop :=
  mkLoop state standing_new new_dirty anchor None ContentBaseline.NoCompletedRead [].

Definition with_state (s : LeaderState) (l : Loop) : Loop :=
  mkLoop s (l_standing l) (l_marks l) (l_blind l) (l_unconfirmed l) (l_baseline l) (l_hooks l).
Definition with_standing (s : LeaseStanding) (l : Loop) : Loop :=
  mkLoop (l_state l) s (l_marks l) (l_blind l) (l_unconfirmed l) (l_baseline l) (l_hooks l).
Definition with_baseline (b : ContentBaseline.ContentBaseline) (l : Loop) : Loop :=
  mkLoop (l_state l) (l_standing l) (l_marks l) (l_blind l) (l_unconfirmed l) b (l_hooks l).
Definition with_unconfirmed (u : option Z) (l : Loop) : Loop :=
  mkLoop (l_state l) (l_standing l) (l_marks l) (l_blind l) u (l_baseline l) (l_hooks l).
Definition mark_dirty (l : Loop) : Loop :=
  mkLoop (l_state l) (l_standing l) (mark (l_marks l)) (l_blind l) (l_unconfirmed l) (l_baseline l) (l_hooks l).
Definition fire (h : Hook) (l : Loop) : Loop :=
  mkLoop (l_state l) (l_standing l) (l_marks l) (l_blind l) (l_unconfirmed l) (l_baseline l) (l_hooks l ++ [h]).

(** [BlindClock::stamp] and [blind_for]; [UnconfirmedPut::age_at]. *)
Definition stamp (anchor : Z) (l : Loop) : Loop :=
  mkLoop (l_state l) (l_standing l) (l_marks l) (Z.max (l_blind l) anchor) (l_unconfirmed l) (l_baseline l) (l_hooks l).
Definition blind_for (l : Loop) (now : Z) : Z := Z.max 0 (now - l_blind l).
Definition age_at (anchor now : Z) : Z := Z.max 0 (now - anchor).

(** The effects every lose edge has on the shared state, the hooks and the marks. *)
Definition lose_effects (l : Loop) : Loop := mark_dirty (fire HookLose (with_state (on_lose (l_state l)) l)).

Definition maybe_self_fence (blind : Z) (l : Loop) : Loop :=
  if believes (l_standing l) && (SELF_FENCE_AFTER <? blind)
  then with_standing (on_self_fence (l_standing l)) (lose_effects l)
  else l.

Definition observe_held_while_believing (observed_transitions now : Z) (l : Loop) : Loop :=
  let l :=
    if acquired_transitions (l_state l) =? observed_transitions then l
    else fire HookRebound (with_state (on_rebound observed_transitions now (l_state l)) (mark_dirty l)) in
  with_standing (on_observed_held (l_standing l)) l.

(** The acquire edge: state, marks, hook, observation. *)
Definition acquire_edge (transitions now : Z) (l : Loop) : Loop :=
  observe_held_while_believing transitions now
    (fire HookAcquire (mark_dirty (with_state (on_acquire transitions now (l_state l)) l))).

Definition consume_own_commit_evidence (mode : ConsumeMode.ConsumeMode) (led : Z) (f : FetchFacts) (now : Z) (l : Loop) : Loop :=
  let l := stamp led l in
  match mode with
  | ConsumeMode.StampOnly => l
  | ConsumeMode.Restore => acquire_edge (ff_transitions f) now l
  | ConsumeMode.Funnel => observe_held_while_believing (ff_transitions f) now l
  end.

(** ** The arms of a renew round *)

Definition run_edge (e : RoundEdge.RoundEdge) (result : ElectionResult.ElectionResult) (now : Z) (l : Loop) : option Loop :=
  let leading := match result with ElectionResult.Leading t => Some t | _ => None end in
  match e with
  | RoundEdge.Acquire => t ← leading; Some (acquire_edge t now l)
  | RoundEdge.Lose evidence => Some (with_standing (evidence_apply evidence (l_standing l)) (lose_effects l))
  | RoundEdge.LoseObservedAbsent write_in_doubt =>
      Some (with_standing ((if write_in_doubt then on_self_fence else on_observed_not_leading) (l_standing l)) (lose_effects l))
  | RoundEdge.Defer => Some l
  | RoundEdge.StillLeading => t ← leading; Some (observe_held_while_believing t now l)
  | RoundEdge.StandbyObserved => Some (with_standing (on_observed_not_leading (l_standing l)) l)
  | RoundEdge.ConflictHoldKept => Some (with_standing (on_self_fence (l_standing l)) l)
  end.

(** The snapshot a round is derived from. *)
Definition round_read (facts : option FetchFacts) (fence_now : Z) (l : Loop) : ReadFacts :=
  mkRead (holder_cell facts) (content_cell (l_baseline l) facts) (ledger_cell (l_unconfirmed l))
    (match l_unconfirmed l with Some led => evidence_acquire_futile (age_at led fence_now) | None => false end).

(** The [Completed] arm: consumption, adjudication, ledger, stamp, baseline, edge,
    confirmation. *)
Definition completed (result : ElectionResult.ElectionResult) (facts : option FetchFacts) (attempt_anchor round : Z)
    (fence_now now : Z) (l : Loop) : option Loop :=
  let plan := complete_round (round_read facts fence_now l) (act_cell result) (l_standing l) in
  l ← match consume plan with
      | Some mode =>
          f ← facts; led ← l_unconfirmed l;
          Some (consume_own_commit_evidence mode led f now (with_unconfirmed None l))
      | None => Some l
      end;
  let l := match adjudication plan with
           | Some _ => with_standing (snd (on_believing_conflict (l_standing l))) l
           | None => l
           end in
  let l := if clear_ledger_wholesale plan then with_unconfirmed None l else l in
  let l := if attempt_stamp plan then stamp attempt_anchor l else l in
  l ← match baseline plan with
      | BaselineEdge.FromRead => f ← facts; Some (with_baseline (ContentBaseline.Present (ff_renew_time f)) l)
      | BaselineEdge.NoCompletedRead => Some (with_baseline ContentBaseline.NoCompletedRead l)
      | BaselineEdge.ReadObservedAbsent => Some (with_baseline ContentBaseline.Absent l)
      end;
  l ← run_edge (edge plan) result now l;
  Some (if confirm plan then with_state (confirm_leading_round round (l_state l)) l else l).

(** What the [FetchedActFailed] arm does with its completed read. *)
Definition resolve_read (action : ActFailedAction.ActFailedAction) (facts : option FetchFacts) (fence_now now : Z) (l : Loop)
    : option Loop :=
  let present f := ContentBaseline.Present (ff_renew_time f) in
  match action with
  | ActFailedAction.EvidenceResolve =>
      f ← facts; led ← l_unconfirmed l;
      let mode := consume_mode (evidence_acquire_futile (age_at led fence_now)) (believes (l_standing l)) in
      Some (with_baseline (present f) (consume_own_commit_evidence mode led f now (with_unconfirmed None l)))
  | ActFailedAction.FunnelResolve =>
      f ← facts; Some (with_baseline (present f) (observe_held_while_believing (ff_transitions f) now l))
  | ActFailedAction.EvidencedLose =>
      f ← facts;
      Some (with_baseline (present f) (with_standing (on_observed_not_leading (l_standing l)) (lose_effects l)))
  | ActFailedAction.ObserveOnly => f ← facts; Some (with_baseline (present f) l)
  | ActFailedAction.AbsenceLose =>
      Some (with_baseline ContentBaseline.Absent (with_standing (on_observed_not_leading (l_standing l)) (lose_effects l)))
  | ActFailedAction.AbsenceLoseHoldKept =>
      Some (with_baseline ContentBaseline.Absent (with_standing (on_self_fence (l_standing l)) (lose_effects l)))
  | ActFailedAction.AbsenceObserve => Some (with_baseline ContentBaseline.Absent l)
  end.

(** The [FetchedActFailed] arm; the two readings are those before the evidence and
    before the fence check. *)
Definition act_failed (facts : option FetchFacts) (put_transmitted : bool) (attempt_anchor : Z) (fence_now fence_now' now : Z)
    (l : Loop) : option Loop :=
  let action :=
    route_act_failed_read (believes (l_standing l)) (holder_cell facts) (content_cell (l_baseline l) facts)
      (ledger_cell (l_unconfirmed l)) (act_doubt put_transmitted) in
  l ← resolve_read action facts fence_now now l;
  let l := match l_unconfirmed l with
           | None => if put_transmitted then with_unconfirmed (Some attempt_anchor) l else l
           | Some _ => l
           end in
  Some (maybe_self_fence (blind_for l fence_now') l).

(** The [FetchFailed] arm. *)
Definition fetch_failed (fence_now : Z) (l : Loop) : Loop := maybe_self_fence (blind_for l fence_now) l.

(** ** The tick *)

Inductive TickBranch : Type := ServeStepDown | RenewRound (round attempt_anchor : Z).

(** The top of the loop body: the fence check, then the branch. *)
Definition tick_top (fence_now attempt_anchor : Z) (l : Loop) : TickBranch * Loop :=
  let l := maybe_self_fence (blind_for l fence_now) l in
  if believes (l_standing l) then
    let (serve, s) := take_step_down_request (acquire_instance (l_state l)) (l_state l) in
    if serve then (ServeStepDown, with_state s l)
    else let s := begin_renew_round s in (RenewRound (renew_rounds_started s) attempt_anchor, with_state s l)
  else let s := begin_renew_round (l_state l) in (RenewRound (renew_rounds_started s) attempt_anchor, with_state s l).

(** The step-down branch once the release has answered or timed out. *)
Definition step_down_done (outcome : option (StepDownOutcome.StepDownOutcome + unit)) (l : Loop) : Loop :=
  let s :=
    match outcome with
    | Some (inl _) => on_observed_not_leading (l_standing l)
    | Some (inr _) | None => on_self_fence (l_standing l)
    end in
  lose_effects (with_standing s l).

(** ** Belief, the shared flag and the hooks agree *)

(** A consumer's view of the hooks: it starts out not leading, an acquire finds it
    not leading, a loss and a rebound find it leading. *)
Definition hook_step (b : option bool) (h : Hook) : option bool :=
  match b, h with
  | Some false, HookAcquire => Some true
  | Some true, HookLose => Some false
  | Some true, HookRebound => Some true
  | _, _ => None
  end.

Definition hooks_lead (hooks : list Hook) : option bool := fold_left hook_step hooks (Some false).

#[local] Arguments hooks_lead : simpl never.

Definition agree (l : Loop) : Prop :=
  hooks_lead (l_hooks l) = Some (believes (l_standing l)) /\ is_leader (l_state l) = believes (l_standing l).

Lemma hooks_lead_snoc hooks h : hooks_lead (hooks ++ [h]) = hook_step (hooks_lead hooks) h.
Proof. unfold hooks_lead. by rewrite fold_left_app. Qed.

Lemma observe_held_agree t now l :
  hooks_lead (l_hooks l) = Some true -> is_leader (l_state l) = true -> agree (observe_held_while_believing t now l).
Proof.
  intros Hh Hl. unfold observe_held_while_believing, agree. destruct (_ =? t); cbn; [done|]. by rewrite hooks_lead_snoc, Hh.
Qed.

Lemma acquire_agree t now l : hooks_lead (l_hooks l) = Some false -> agree (acquire_edge t now l).
Proof. intros Hh. apply observe_held_agree; [|done]. cbn. by rewrite hooks_lead_snoc, Hh. Qed.

Lemma lose_agree s l :
  hooks_lead (l_hooks l) = Some true -> believes s = false -> agree (with_standing s (lose_effects l)).
Proof. intros Hh Hs. unfold agree. cbn. by rewrite hooks_lead_snoc, Hh, Hs. Qed.

Lemma maybe_self_fence_agree b l : agree l -> agree (maybe_self_fence b l).
Proof.
  intros [Hh Hl]. unfold maybe_self_fence. destruct (believes (l_standing l)) eqn:Hb; cbn [andb]; [|by split; rewrite Hb].
  destruct (_ <? b); [|by split; rewrite Hb]. by apply lose_agree.
Qed.

(** Changes that [agree] does not look at. *)
Lemma agree_stamp a l : agree (stamp a l) <-> agree l.
Proof. done. Qed.
Lemma agree_unconfirmed u l : agree (with_unconfirmed u l) <-> agree l.
Proof. done. Qed.
Lemma agree_baseline b l : agree (with_baseline b l) <-> agree l.
Proof. done. Qed.
Lemma agree_confirm r l : agree (with_state (confirm_leading_round r (l_state l)) l) <-> agree l.
Proof. done. Qed.

Lemma consume_agree mode led f now l :
  agree l -> (mode = ConsumeMode.Restore -> believes (l_standing l) = false) ->
  (mode = ConsumeMode.Funnel -> believes (l_standing l) = true) ->
  agree (consume_own_commit_evidence mode led f now l).
Proof.
  intros [Hh Hl] Hr Hf. destruct mode; cbn [consume_own_commit_evidence].
  - by split.
  - apply acquire_agree. cbn. by rewrite Hh, Hr.
  - apply observe_held_agree; cbn; by rewrite ?Hh, ?Hl, Hf.
Qed.

(** The consumption mode fits the belief it was derived from. *)
Lemma consume_mode_fits p b :
  (consume_mode p b = ConsumeMode.Restore -> b = false) /\ (consume_mode p b = ConsumeMode.Funnel -> b = true).
Proof. by destruct p, b. Qed.

Lemma consume_believes mode led f now l :
  believes (l_standing (consume_own_commit_evidence mode led f now l)) = believes (l_standing l) || funnel_runs (Some mode).
Proof. destruct mode; cbn; [by rewrite orb_false_r| |]; by rewrite orb_true_r. Qed.

Lemma consume_deferred mode led f now l :
  conflict_deferred (l_standing (consume_own_commit_evidence mode led f now l)) =
  conflict_deferred (l_standing l) && negb (funnel_runs (Some mode)).
Proof. destruct mode; cbn; [by rewrite andb_true_r| |]; by rewrite andb_false_r. Qed.

(** The derivation consumes only what is there: evidence of a present read of our
    lease with an armed ledger, on a conflict. *)
Lemma complete_round_shape read outcome standing :
  let plan := complete_round read outcome standing in
  (forall mode, consume plan = Some mode ->
     outcome = ActCell.Conflict /\ rf_holder read = HolderCell.Us /\ rf_content read = ContentCell.Moved /\
     rf_ledger read = LedgerCell.Armed /\ mode = consume_mode (evidence_past_fence read) (believes standing)) /\
  (baseline plan = BaselineEdge.FromRead <-> rf_holder read <> HolderCell.Absent) /\
  (confirm plan = true <-> outcome = ActCell.Leading) /\
  (edge plan = RoundEdge.Acquire \/ edge plan = RoundEdge.StillLeading -> outcome = ActCell.Leading).
Proof.
  destruct read as [h c d p], outcome, standing as [b u k]; cbn zeta.
  all: destruct h, c, d, b, k, p; cbn; naive_solver.
Qed.

(** Belief after the consumption step of a round. *)
Definition mid_belief (read : ReadFacts) (outcome : ActCell.ActCell) (standing : LeaseStanding) : bool :=
  believes standing || funnel_runs (consume (complete_round read outcome standing)).

(** The edge fits that belief. *)
Lemma complete_round_edge read outcome standing :
  let plan := complete_round read outcome standing in
  match edge plan with
  | RoundEdge.Acquire => mid_belief read outcome standing = false /\ outcome = ActCell.Leading
  | RoundEdge.StillLeading => mid_belief read outcome standing = true /\ outcome = ActCell.Leading
  | RoundEdge.Lose _ | RoundEdge.LoseObservedAbsent _ | RoundEdge.Defer => mid_belief read outcome standing = true
  | RoundEdge.StandbyObserved | RoundEdge.ConflictHoldKept => mid_belief read outcome standing = false
  end.
Proof.
  unfold mid_belief. destruct read as [h c d p], outcome, standing as [b u k]; cbn zeta.
  all: destruct h, c, d, b, k, p; cbn; auto.
Qed.

(** Belief after the edge. *)
Definition edge_belief (e : RoundEdge.RoundEdge) : bool :=
  match e with RoundEdge.Acquire | RoundEdge.StillLeading | RoundEdge.Defer => true | _ => false end.

Lemma run_edge_agree e result now l :
  agree l ->
  match e with
  | RoundEdge.Acquire => believes (l_standing l) = false /\ act_cell result = ActCell.Leading
  | RoundEdge.StillLeading => believes (l_standing l) = true /\ act_cell result = ActCell.Leading
  | RoundEdge.Lose _ | RoundEdge.LoseObservedAbsent _ | RoundEdge.Defer => believes (l_standing l) = true
  | RoundEdge.StandbyObserved | RoundEdge.ConflictHoldKept => believes (l_standing l) = false
  end ->
  exists l', run_edge e result now l = Some l' /\ agree l' /\ believes (l_standing l') = edge_belief e /\
    l_blind l' = l_blind l /\ l_unconfirmed l' = l_unconfirmed l /\ l_baseline l' = l_baseline l.
Proof.
  intros Ha He. pose proof Ha as [Hh Hl]. destruct e as [| |ev|w| | |]; cbn [run_edge].
  - destruct He as [Hb Hr], result as [t| |]; try done. cbn. eexists. split; [done|]. rewrite Hb in *.
    split; [by apply acquire_agree|]. unfold acquire_edge, observe_held_while_believing. cbn. by rewrite Z.eqb_refl.
  - destruct He as [Hb Hr], result as [t| |]; try done. cbn. eexists. split; [done|]. rewrite Hb in *.
    split; [by apply observe_held_agree|]. unfold observe_held_while_believing. by destruct (_ =? t).
  - eexists. split; [done|]. rewrite He in *. split; [by apply lose_agree; [|destruct ev]|]. by destruct ev.
  - eexists. split; [done|]. rewrite He in *. split; [by apply lose_agree; [|destruct w]|]. by destruct w.
  - eexists. by split.
  - eexists. split; [done|]. rewrite He in *. by split.
  - eexists. split; [done|]. rewrite He in *. by split.
Qed.

Lemma consume_frame mode led f now l :
  let l' := consume_own_commit_evidence mode led f now l in
  l_blind l' = Z.max (l_blind l) led /\ l_unconfirmed l' = l_unconfirmed l /\ l_baseline l' = l_baseline l.
Proof.
  destruct mode; cbn zeta; cbn [consume_own_commit_evidence]; [done|..];
    unfold acquire_edge, observe_held_while_believing; cbn; rewrite ?Z.eqb_refl; [done|by destruct (_ =? _)].
Qed.

(** The first step of a completed round. *)
Lemma consume_step_spec facts fence_now now outcome l :
  agree l ->
  let read := round_read facts fence_now l in
  let plan := complete_round read outcome (l_standing l) in
  exists l1,
    match consume plan with
    | Some mode =>
        f ← facts; led ← l_unconfirmed l;
        Some (consume_own_commit_evidence mode led f now (with_unconfirmed None l))
    | None => Some l
    end = Some l1 /\ agree l1 /\ believes (l_standing l1) = mid_belief read outcome (l_standing l) /\
    l_unconfirmed l1 = match consume plan with Some _ => None | None => l_unconfirmed l end /\
    l_blind l1 = match consume plan, l_unconfirmed l with Some _, Some led => Z.max (l_blind l) led | _, _ => l_blind l end /\
    l_baseline l1 = l_baseline l.
Proof.
  intros Ha. cbn zeta. set (read := round_read facts fence_now l). unfold mid_belief.
  destruct (consume (complete_round read outcome (l_standing l))) as [mode|] eqn:Hc.
  - destruct (complete_round_shape read outcome (l_standing l)) as [Hs _].
    destruct (Hs mode Hc) as (_ & Hh & _ & Hled & Hm). cbn in Hh, Hled.
    destruct facts as [f|]; [|done]. destruct (l_unconfirmed l) as [led|] eqn:Hu; [|done]. cbn.
    eexists. split; [done|]. destruct (consume_frame mode led f now (with_unconfirmed None l)) as (H1 & H2 & H3).
    rewrite H1, H2, H3, consume_believes. split; [|done]. apply consume_agree; [done|..]; cbn;
      rewrite Hm; apply consume_mode_fits.
  - exists l. rewrite orb_false_r. by destruct (l_unconfirmed l).
Qed.

Definition next_baseline (e : BaselineEdge.BaselineEdge) (facts : option FetchFacts) : option ContentBaseline.ContentBaseline :=
  match e with
  | BaselineEdge.FromRead => option_map (fun f => ContentBaseline.Present (ff_renew_time f)) facts
  | BaselineEdge.NoCompletedRead => Some ContentBaseline.NoCompletedRead
  | BaselineEdge.ReadObservedAbsent => Some ContentBaseline.Absent
  end.

(** What a completed round leaves behind. *)
Lemma completed_spec result facts anchor round fence_now now l :
  agree l ->
  let plan := complete_round (round_read facts fence_now l) (act_cell result) (l_standing l) in
  exists l', completed result facts anchor round fence_now now l = Some l' /\ agree l' /\
    believes (l_standing l') = edge_belief (edge plan) /\
    l_unconfirmed l' = (if clear_ledger_wholesale plan then None
                        else match consume plan with Some _ => None | None => l_unconfirmed l end) /\
    l_blind l' = (let b := match consume plan, l_unconfirmed l with Some _, Some led => Z.max (l_blind l) led | _, _ => l_blind l end in
                  if attempt_stamp plan then Z.max b anchor else b) /\
    Some (l_baseline l') = next_baseline (baseline plan) facts.
Proof.
  intros Ha. cbn zeta. unfold completed. set (read := round_read facts fence_now l).
  set (plan := complete_round read (act_cell result) (l_standing l)).
  destruct (consume_step_spec facts fence_now now (act_cell result) l Ha) as (l1 & E1 & Ha1 & Hb1 & Hu1 & Hbl1 & Hba1).
  fold read plan in E1, Hb1, Hu1, Hbl1. rewrite E1. cbn [mbind option_bind].
  set (l2 := match adjudication plan with Some _ => _ | None => l1 end).
  assert (H2 : agree l2 /\ believes (l_standing l2) = believes (l_standing l1) /\ l_unconfirmed l2 = l_unconfirmed l1 /\
    l_blind l2 = l_blind l1 /\ l_baseline l2 = l_baseline l1).
  { unfold l2, agree, on_believing_conflict. destruct (adjudication plan); [|done].
    by destruct (conflict_deferred (l_standing l1)). }
  clearbody l2. destruct H2 as (Ha2 & Hb2 & Hu2 & Hbl2 & Hba2).
  set (l3 := if clear_ledger_wholesale plan then _ else l2). set (l4 := if attempt_stamp plan then _ else l3).
  assert (H4 : agree l4 /\ believes (l_standing l4) = believes (l_standing l2)) by
    (unfold l4, l3; destruct (attempt_stamp plan), (clear_ledger_wholesale plan); done).
  assert (Hu4 : l_unconfirmed l4 = if clear_ledger_wholesale plan then None else l_unconfirmed l2) by
    (unfold l4, l3; destruct (attempt_stamp plan), (clear_ledger_wholesale plan); done).
  assert (Hbl4 : l_blind l4 = if attempt_stamp plan then Z.max (l_blind l2) anchor else l_blind l2) by
    (unfold l4, l3; destruct (attempt_stamp plan), (clear_ledger_wholesale plan); done).
  clearbody l4 l3. destruct H4 as [Ha4 Hb4].
  assert (H5 : exists b, next_baseline (baseline plan) facts = Some b).
  { destruct (complete_round_shape read (act_cell result) (l_standing l)) as (_ & Hbase & _). fold plan in Hbase.
    destruct (baseline plan); [|by eexists..]. destruct facts; [by eexists|]. by destruct (proj1 Hbase eq_refl). }
  destruct H5 as [b Hb]. set (l5 := with_baseline b l4).
  replace (match baseline plan with BaselineEdge.FromRead => _ | BaselineEdge.NoCompletedRead => _ | BaselineEdge.ReadObservedAbsent => _ end)
    with (Some l5); [|destruct (baseline plan), facts; naive_solver]. cbn [mbind option_bind].
  pose proof (complete_round_edge read (act_cell result) (l_standing l)) as He. cbn zeta in He. fold plan in He.
  destruct (run_edge_agree (edge plan) result now l5) as (l6 & E6 & Ha6 & Hb6 & Hbl6 & Hu6 & Hba6); [done| |].
  { cbn [l_standing l5 with_baseline]. rewrite Hb4, Hb2, Hb1. exact He. }
  rewrite E6. cbn [mbind option_bind]. eexists. split; [done|]. rewrite Hb. destruct (confirm plan); cbn;
    rewrite Hb6, Hu6, Hbl6, Hba6; cbn; rewrite Hu4, Hbl4, Hu2, Hbl2, Hu1, Hbl1; done.
Qed.

Lemma maybe_self_fence_frame b l :
  let l' := maybe_self_fence b l in
  believes (l_standing l') = believes (l_standing l) && negb (SELF_FENCE_AFTER <? b) /\
  l_blind l' = l_blind l /\ l_unconfirmed l' = l_unconfirmed l /\ l_baseline l' = l_baseline l /\
  acquired_transitions (l_state l') = acquired_transitions (l_state l).
Proof.
  unfold maybe_self_fence. cbn zeta. destruct (believes (l_standing l)) eqn:Hb, (SELF_FENCE_AFTER <? b); cbn; rewrite ?Hb; done.
Qed.

Lemma route_shape b h c d x :
  match route_act_failed_read b h c d x with
  | ActFailedAction.EvidenceResolve => h = HolderCell.Us /\ c = ContentCell.Moved /\ d = LedgerCell.Armed
  | ActFailedAction.FunnelResolve => b = true /\ h = HolderCell.Us
  | ActFailedAction.EvidencedLose => b = true /\ h = HolderCell.Other
  | ActFailedAction.ObserveOnly => b = false /\ h <> HolderCell.Absent
  | ActFailedAction.AbsenceLose | ActFailedAction.AbsenceLoseHoldKept => b = true /\ h = HolderCell.Absent
  | ActFailedAction.AbsenceObserve => b = false /\ h = HolderCell.Absent
  end.
Proof. by destruct b, h, c, d, x. Qed.

Definition is_evidence (a : ActFailedAction.ActFailedAction) : bool :=
  match a with ActFailedAction.EvidenceResolve => true | _ => false end.

Definition read_baseline (facts : option FetchFacts) : ContentBaseline.ContentBaseline :=
  match facts with Some f => ContentBaseline.Present (ff_renew_time f) | None => ContentBaseline.Absent end.

(** Where belief after a resolved read comes from. *)
Definition belief_kept (facts : option FetchFacts) (evidence : bool) (fence_now : Z) (l : Loop) : Prop :=
  holder_cell facts = HolderCell.Us /\
  (believes (l_standing l) = true \/
   evidence = true /\ forall led, l_unconfirmed l = Some led -> evidence_acquire_futile (age_at led fence_now) = false).

Lemma resolve_read_spec facts fence_now now doubt l :
  agree l ->
  let action :=
    route_act_failed_read (believes (l_standing l)) (holder_cell facts) (content_cell (l_baseline l) facts)
      (ledger_cell (l_unconfirmed l)) doubt in
  exists l1, resolve_read action facts fence_now now l = Some l1 /\ agree l1 /\
    l_blind l1 = (match is_evidence action, l_unconfirmed l with true, Some led => Z.max (l_blind l) led | _, _ => l_blind l end) /\
    l_unconfirmed l1 = (if is_evidence action then None else l_unconfirmed l) /\
    l_baseline l1 = read_baseline facts /\
    (believes (l_standing l1) = true -> belief_kept facts (is_evidence action) fence_now l).
Proof.
  intros Ha. pose proof Ha as [Hh Hl]. cbn zeta. unfold belief_kept.
  pose proof (route_shape (believes (l_standing l)) (holder_cell facts) (content_cell (l_baseline l) facts) (ledger_cell (l_unconfirmed l)) doubt) as Hs.
  destruct (route_act_failed_read _ _ _ _ _); cbn [resolve_read is_evidence].
  - destruct Hs as (Hus & _ & Harm). destruct facts as [f|]; [|done]. destruct (l_unconfirmed l) as [led|] eqn:Hu; [|done]. cbn [mbind option_bind].
    eexists. split; [done|]. rewrite agree_baseline. cbn [with_baseline l_blind l_unconfirmed l_baseline l_standing].
    set (mode := consume_mode _ _). destruct (consume_frame mode led f now (with_unconfirmed None l)) as (H1 & H2 & H3).
    rewrite H1, H2. split; [apply consume_agree; [done|..]; apply consume_mode_fits|]. do 3 (split; [done|]).
    rewrite consume_believes. cbn. intros Hb. split; [done|]. destruct (believes (l_standing l)); [by left|right]. split; [done|].
    intros ? [= <-]. unfold mode in Hb. by destruct (evidence_acquire_futile _).
  - destruct Hs as [Hb Hus]. destruct facts as [f|]; [|done]. cbn. eexists. split; [done|]. rewrite agree_baseline, Hb in *.
    split; [by apply observe_held_agree|]. unfold observe_held_while_believing. destruct (_ =? _); (split; [done|split; [done|split; [done|auto]]]).
  - destruct Hs as [Hb Hus]. destruct facts as [f|]; [|done]. cbn. eexists. split; [done|]. rewrite agree_baseline, Hb in *.
    split; [by apply lose_agree|]. done.
  - destruct Hs as [Hb Hus]. destruct facts as [f|]; [|done]. cbn. eexists. split; [done|]. split; [done|]. cbn. by rewrite Hb.
  - destruct Hs as [Hb Hus]. destruct facts as [f|]; [by destruct f as [[] ? ?]|]. cbn. eexists. split; [done|]. rewrite agree_baseline, Hb in *.
    split; [by apply lose_agree|]. done.
  - destruct Hs as [Hb Hus]. destruct facts as [f|]; [by destruct f as [[] ? ?]|]. cbn. eexists. split; [done|]. rewrite agree_baseline, Hb in *.
    split; [by apply lose_agree|]. done.
  - destruct Hs as [Hb Hus]. destruct facts as [f|]; [by destruct f as [[] ? ?]|]. cbn. eexists. split; [done|]. split; [done|]. cbn. by rewrite Hb.
Qed.

(** What the arm of a failed act leaves behind, the fence check included. *)
Lemma act_failed_spec facts sent anchor fence_now fence_now' now l :
  agree l ->
  let evidence := is_evidence
    (route_act_failed_read (believes (l_standing l)) (holder_cell facts) (content_cell (l_baseline l) facts)
       (ledger_cell (l_unconfirmed l)) (act_doubt sent)) in
  exists l', act_failed facts sent anchor fence_now fence_now' now l = Some l' /\ agree l' /\
    l_blind l' = (match evidence, l_unconfirmed l with true, Some led => Z.max (l_blind l) led | _, _ => l_blind l end) /\
    l_unconfirmed l' = (match (if evidence then None else l_unconfirmed l) with
                        | None => if sent then Some anchor else None
                        | Some led => Some led
                        end) /\
    l_baseline l' = read_baseline facts /\
    (believes (l_standing l') = true -> blind_for l' fence_now' <= SELF_FENCE_AFTER /\ belief_kept facts evidence fence_now l).
Proof.
  intros Ha. cbn zeta. unfold act_failed.
  destruct (resolve_read_spec facts fence_now now (act_doubt sent) l Ha) as (l1 & E1 & Ha1 & Hbl & Hu & Hba & Hb).
  rewrite E1. cbn [mbind option_bind]. set (evidence := is_evidence _) in *.
  set (l2 := match l_unconfirmed l1 with Some _ => l1 | None => _ end).
  assert (H2 : agree l2 /\ believes (l_standing l2) = believes (l_standing l1) /\ l_blind l2 = l_blind l1 /\ l_baseline l2 = l_baseline l1 /\
    l_unconfirmed l2 = match l_unconfirmed l1 with None => if sent then Some anchor else None | Some led => Some led end).
  { unfold l2. destruct (l_unconfirmed l1) eqn:E; [done|]. by destruct sent. }
  clearbody l2. destruct H2 as (Ha2 & Hb2 & Hbl2 & Hba2 & Hu2).
  eexists. split; [done|]. split; [by apply maybe_self_fence_agree|].
  destruct (maybe_self_fence_frame (blind_for l2 fence_now') l2) as (F1 & F2 & F3 & F4 & _).
  rewrite F1, F2, F3, F4, Hbl2, Hu2, Hba2, Hbl, Hu, Hba. do 3 (split; [done|]).
  intros [Hbel Hf]%andb_true_iff. apply negb_true_iff, Z.ltb_ge in Hf. unfold blind_for in *. rewrite F2.
  rewrite Hb2 in Hbel. auto.
Qed.

(** ** Whole ticks *)

(** What one iteration of the loop meets: readings of the fence clock, and the
    outcome of the round it runs or of the release it serves. *)
Inductive Round : Type :=
| RoundCompleted (result : ElectionResult.ElectionResult) (facts : option FetchFacts)
| RoundActFailed (facts : option FetchFacts) (put_transmitted : bool)
| RoundFetchFailed.

Record TickInput : Type := mkTick {
  ti_top : Z;
  ti_anchor : Z;
  ti_round : Round;
  ti_release : option (StepDownOutcome.StepDownOutcome + unit);
  ti_fence : Z;
  ti_fence' : Z;
  ti_now : Z;
}.

Definition run_round (i : TickInput) (round anchor : Z) (l : Loop) : option Loop :=
  match ti_round i with
  | RoundCompleted result facts => completed result facts anchor round (ti_fence i) (ti_now i) l
  | RoundActFailed facts sent => act_failed facts sent anchor (ti_fence i) (ti_fence' i) (ti_now i) l
  | RoundFetchFailed => Some (fetch_failed (ti_fence i) l)
  end.

Definition run_tick (i : TickInput) (l : Loop) : option Loop :=
  let (branch, l) := tick_top (ti_top i) (ti_anchor i) l in
  match branch with
  | ServeStepDown => Some (step_down_done (ti_release i) l)
  | RenewRound round anchor => run_round i round anchor l
  end.

(** The operations of the other tasks between two ticks. *)
Definition consumer_op (op : LeaderOp) : bool :=
  match op with
  | OpComplete _ | OpInvalidate | OpSeed _ | OpRequestStepDown _ => true
  | _ => false
  end.

Inductive LoopEvent : Type := Ticked (i : TickInput) | Consumed (op : LeaderOp).

Definition loop_event (l : option Loop) (e : LoopEvent) : option Loop :=
  l ← l;
  match e with
  | Ticked i => run_tick i l
  | Consumed op => Some (if consumer_op op then with_state (run_op op (l_state l)) l else l)
  end.

Definition run_loop (events : list LoopEvent) (l : Loop) : option Loop := fold_left loop_event events (Some l).

Lemma run_loop_snoc events e l : run_loop (events ++ [e]) l = loop_event (run_loop events l) e.
Proof. unfold run_loop. by rewrite fold_left_app. Qed.

(** The top of a tick keeps the agreement, and serves a step-down to a believer
    only. *)
Lemma tick_top_agree fence anchor l :
  agree l ->
  let (branch, l') := tick_top fence anchor l in
  agree l' /\ (branch = ServeStepDown -> believes (l_standing l') = true).
Proof.
  intros Ha. unfold tick_top. apply (maybe_self_fence_agree (blind_for l fence)) in Ha. revert Ha.
  generalize (maybe_self_fence (blind_for l fence) l). intros m Ha. pose proof Ha as [Hh Hl].
  destruct (believes (l_standing m)) eqn:Hb; [|by split].
  unfold take_step_down_request. destruct (_ =? STEP_DOWN_NONE); [by split|].
  by destruct (_ =? _).
Qed.

Lemma step_down_done_agree outcome l :
  agree l -> believes (l_standing l) = true -> agree (step_down_done outcome l) /\ believes (l_standing (step_down_done outcome l)) = false.
Proof.
  intros [Hh Hl] Hb. unfold step_down_done, agree. cbn. rewrite hooks_lead_snoc, Hh, Hb. by destruct outcome as [[]|].
Qed.

Lemma run_tick_agree i l : agree l -> exists l', run_tick i l = Some l' /\ agree l'.
Proof.
  intros Ha. unfold run_tick. pose proof (tick_top_agree (ti_top i) (ti_anchor i) l Ha) as Ht.
  destruct (tick_top _ _ l) as [branch m], Ht as [Hm Hb]. destruct branch as [|round anchor].
  - specialize (Hb eq_refl). eexists. split; [done|]. by apply step_down_done_agree.
  - unfold run_round. destruct (ti_round i) as [result facts|facts sent|].
    + destruct (completed_spec result facts anchor round (ti_fence i) (ti_now i) m Hm) as (l' & E & Hl' & _). by exists l'.
    + destruct (act_failed_spec facts sent anchor (ti_fence i) (ti_fence' i) (ti_now i) m Hm) as (l' & E & Hl' & _). by exists l'.
    + eexists. split; [done|]. by apply maybe_self_fence_agree.
Qed.

(** C25: the loop, the shared leader flag and the consumer's hooks never disagree.
    From a fresh process, through any ticks (every round outcome, any clock
    readings, step-downs, fences) interleaved with any operations of the consumers,
    no tick panics on a missing read or ledger; the flag readers gate on is exactly
    the loop's belief; and the hooks alternate as their contract says, an acquire
    only while not leading, a loss or a rebound only while leading, so that the
    consumer's view of leadership is the same belief. *)
Theorem lease_loop_agrees events gen anchor :
  exists l, run_loop events (loop_start (pending gen) anchor) = Some l /\
    is_leader (l_state l) = believes (l_standing l) /\ hooks_lead (l_hooks l) = Some (believes (l_standing l)).
Proof.
  induction events as [|e events (l & Hr & Hl & Hh)] using rev_ind; [by eexists|].
  rewrite run_loop_snoc, Hr. cbn [loop_event mbind option_bind]. destruct e as [i|op].
  - destruct (run_tick_agree i l (conj Hh Hl)) as (l' & E & Hh' & Hl'). by exists l'.
  - eexists. split; [done|]. destruct op; cbn; done.
Qed.

(** a leader stands down in a completed round only on evidence.  A round whose
    read and act both completed ends the belief of a leader exactly when the act
    resolved to standing by, or the write was refused and the round's read did not
    name us, or it was refused a second time in a row with nothing of ours to show
    for it: one bare conflict is always forgiven, and so is any number of them once
    the read shows that a write of ours did commit. *)
Theorem lose_needs_evidence result facts anchor round fence now l :
  agree l -> believes (l_standing l) = true ->
  let read := round_read facts fence l in
  let committed := bool_decide (rf_content read = ContentCell.Moved) && bool_decide (rf_ledger read = LedgerCell.Armed)
                   && negb (evidence_past_fence read) in
  exists l', completed result facts anchor round fence now l = Some l' /\
    (believes (l_standing l') = false <->
     act_cell result = ActCell.Standby \/
     act_cell result = ActCell.Conflict /\
       (rf_holder read <> HolderCell.Us \/ conflict_deferred (l_standing l) = true /\ committed = false)).
Proof.
  intros Ha Hb. cbn zeta. destruct (completed_spec result facts anchor round fence now l Ha) as (l' & E & _ & Hl' & _).
  exists l'. split; [done|]. rewrite Hl'. set (read := round_read facts fence l). clearbody read. clear - Hb.
  destruct (l_standing l) as [b u k], read as [h c d p]. cbn in Hb. subst b.
  destruct (act_cell result), h, c, d, k, p; vm_compute; naive_solver.
Qed.

(** A leader whose last round was refused. *)
Definition refused_once (unconfirmed : option Z) : Loop :=
  mkLoop (on_acquire 3 0 (pending 1)) (mkStanding true true true) new_dirty 0 unconfirmed
    (ContentBaseline.Present (Some "t0"%string)) [HookAcquire].

(** A second refusal ends its belief when the read still shows the old content, and
    does not when the read shows a write of ours that went unanswered. *)
Lemma lose_needs_evidence_witness :
  (exists l', completed ElectionResult.Conflict (Some (mkFacts true (Some "t0"%string) 3)) 5 2 6 6 (refused_once None) = Some l' /\
     believes (l_standing l') = false) /\
  (exists l', completed ElectionResult.Conflict (Some (mkFacts true (Some "t1"%string) 3)) 5 2 6 6 (refused_once (Some 1)) = Some l' /\
     believes (l_standing l') = true).
Proof.
  split.
  - destruct (lose_needs_evidence ElectionResult.Conflict (Some (mkFacts true (Some "t0"%string) 3)) 5 2 6 6 (refused_once None))
      as (l' & E & H); [done|done|].
    exists l'. split; [exact E|]. apply H. right. split; [done|]. right. by split.
  - destruct (lose_needs_evidence ElectionResult.Conflict (Some (mkFacts true (Some "t1"%string) 3)) 5 2 6 6 (refused_once (Some 1)))
      as (l' & E & H); [done|done|].
    exists l'. split; [exact E|]. apply not_false_iff_true. intros H'. apply H in H'. cbn in H'.
    destruct H' as [H'|[_ [H'|[_ H']]]]; [done|by apply H'|by vm_compute in H'].
Defined.

(** ** What the loop's state is after a tick, for the cluster *)

Definition evidence_blind (evidence : bool) (l : Loop) : Z :=
  match evidence, l_unconfirmed l with true, Some led => Z.max (l_blind l) led | _, _ => l_blind l end.

(** Evidence is a present read of our lease that moved, under an armed ledger. *)
Definition evidence_read (facts : option FetchFacts) (l : Loop) : Prop :=
  holder_cell facts = HolderCell.Us /\ content_cell (l_baseline l) facts = ContentCell.Moved /\ is_Some (l_unconfirmed l).

Lemma completed_answered result facts anchor round fence_now now l l' :
  agree l -> completed result facts anchor round fence_now now l = Some l' -> act_cell result <> ActCell.Conflict ->
  agree l' /\ l_unconfirmed l' = None /\ l_blind l' = Z.max (l_blind l) anchor /\
  (l_baseline l' = ContentBaseline.NoCompletedRead \/ l_baseline l' = read_baseline facts) /\
  (believes (l_standing l') = true -> act_cell result = ActCell.Leading).
Proof.
  intros Ha E Hn. destruct (completed_spec result facts anchor round fence_now now l Ha) as (l2 & E2 & Ha2 & Hb & Hu & Hbl & Hba).
  rewrite E in E2. injection E2 as <-. split; [done|]. revert Hb Hu Hbl Hba.
  set (read := round_read facts fence_now l). assert (Hread : rf_holder read = holder_cell facts) by done. clearbody read.
  destruct (act_cell result) eqn:Hr; [| |done]; unfold complete_round; cbn [consult c_consume c_absent c_other funnel_runs].
  - cbn. destruct (believes (l_standing l)); cbn; intros -> -> -> Hba; (do 2 (split; [done|])); (split; [|done]);
      rewrite Hread in Hba; destruct facts as [[[] ? ?]|]; cbn in *; injection Hba as ->; auto.
  - cbn. destruct (believes (l_standing l)); cbn; intros -> -> -> Hba; (do 2 (split; [done|])); (split; [|done]);
      rewrite Hread in Hba; destruct facts as [[[] ? ?]|]; cbn in *; injection Hba as ->; auto.
Qed.

Lemma completed_refused facts anchor round fence_now now l l' :
  agree l -> completed ElectionResult.Conflict facts anchor round fence_now now l = Some l' ->
  exists evidence, agree l' /\ (evidence = true -> evidence_read facts l) /\
    l_unconfirmed l' = (if evidence then None else l_unconfirmed l) /\
    l_blind l' = (if believes (l_standing l') then evidence_blind evidence l else Z.max (evidence_blind evidence l) anchor) /\
    l_baseline l' = read_baseline facts /\
    (believes (l_standing l') = true -> belief_kept facts evidence fence_now l).
Proof.
  intros Ha E. destruct (completed_spec ElectionResult.Conflict facts anchor round fence_now now l Ha) as (l2 & E2 & Ha2 & Hb & Hu & Hbl & Hba).
  rewrite E in E2. injection E2 as <-. revert Hb Hu Hbl Hba. set (plan := complete_round _ _ _). intros Hb Hu Hbl Hba.
  exists (match consume plan with Some _ => true | None => false end). split; [done|].
  assert (Hst : clear_ledger_wholesale plan = false) by (unfold plan, complete_round; by destruct (select_edge _ _ _ _ _)).
  assert (Has : attempt_stamp plan = negb (edge_belief (edge plan)) /\
    (edge_belief (edge plan) = true -> rf_holder (round_read facts fence_now l) = HolderCell.Us /\
       (believes (l_standing l) = true \/ exists m, consume plan = Some m /\ evidence_past_fence (round_read facts fence_now l) = false))).
  { unfold plan. destruct (round_read facts fence_now l) as [h c d p], (l_standing l) as [b u k]. cbn [act_cell].
    destruct h, c, d, p, b, k; cbn; (split; [done|]); try done; eauto. }
  destruct Has as [Has Hbel]. destruct (complete_round_shape (round_read facts fence_now l) ActCell.Conflict (l_standing l)) as (Hsh & _).
  fold plan in Hsh. rewrite Hst in Hu. rewrite Has in Hbl. rewrite Hb, Hu, Hbl.
  split; [|split; [by destruct (consume plan)|split; [|split]]].
  - destruct (consume plan) as [m|] eqn:Hc; [|done]. intros _. destruct (Hsh m Hc) as (_ & H1 & H2 & H3 & _). cbn in *.
    split; [done|]. split; [done|]. by destruct (l_unconfirmed l).
  - unfold evidence_blind. by destruct (consume plan), (l_unconfirmed l), (edge_belief (edge plan)).
  - revert Hba. unfold plan, complete_round. destruct (select_edge _ _ _ _ _) as [ad ed]. cbn.
    destruct facts as [[[] ? ?]|]; cbn; by intros [= ->].
  - intros He. destruct (Hbel He) as [Hus Hor]. split; [done|]. destruct Hor as [?|(m & -> & Hp)]; [by left|right]. split; [done|].
    intros led Hled. cbn in Hp. by rewrite Hled in Hp.
Qed.

(** The same for a round whose act failed. *)
Lemma act_failed_cases facts sent anchor fence_now fence_now' now l l' :
  agree l -> act_failed facts sent anchor fence_now fence_now' now l = Some l' ->
  exists evidence, agree l' /\ (evidence = true -> evidence_read facts l) /\
    (l_unconfirmed l' = (if evidence then None else l_unconfirmed l) \/ l_unconfirmed l' = Some anchor) /\
    l_blind l' = evidence_blind evidence l /\ l_baseline l' = read_baseline facts /\
    (believes (l_standing l') = true -> belief_kept facts evidence fence_now l).
Proof.
  intros Ha E. destruct (act_failed_spec facts sent anchor fence_now fence_now' now l Ha) as (l2 & E2 & Ha2 & Hbl & Hu & Hba & Hb).
  rewrite E in E2. injection E2 as <-. revert Hbl Hu Hb. set (action := route_act_failed_read _ _ _ _ _). intros Hbl Hu Hb.
  exists (is_evidence action). split; [done|]. split.
  - pose proof (route_shape (believes (l_standing l)) (holder_cell facts) (content_cell (l_baseline l) facts) (ledger_cell (l_unconfirmed l)) (act_doubt sent)) as Hs.
    fold action in Hs. destruct action; try done. intros _. destruct Hs as (? & ? & Hl). split; [done|]. split; [done|].
    by destruct (l_unconfirmed l).
  - split; [|split; [done|split; [done|]]].
    + rewrite Hu. destruct (is_evidence action), (l_unconfirmed l), sent; auto.
    + intros Hbel. by destruct (Hb Hbel).
Qed.

(** The top of a tick leaves the clocks alone and keeps belief only inside the
    fence. *)
Lemma tick_top_frame fence_now anchor l branch l' :
  tick_top fence_now anchor l = (branch, l') ->
  l_blind l' = l_blind l /\ l_unconfirmed l' = l_unconfirmed l /\ l_baseline l' = l_baseline l /\
  (believes (l_standing l') = true -> believes (l_standing l) = true /\ fence_now - l_blind l <= SELF_FENCE_AFTER).
Proof.
  unfold tick_top. destruct (maybe_self_fence_frame (blind_for l fence_now) l) as (F1 & F2 & F3 & F4 & _).
  revert F1 F2 F3 F4. generalize (maybe_self_fence (blind_for l fence_now) l). intros m F1 F2 F3 F4 E.
  assert (Hm : l_blind l' = l_blind m /\ l_unconfirmed l' = l_unconfirmed m /\ l_baseline l' = l_baseline m /\ l_standing l' = l_standing m).
  { destruct (believes (l_standing m)); [|by simplify_eq]. destruct (take_step_down_request _ _) as [[] ?]; by simplify_eq. }
  destruct Hm as (-> & -> & -> & ->). do 3 (split; [done|]). rewrite F1. intros [? Hf]%andb_true_iff. split; [done|].
  apply negb_true_iff, Z.ltb_ge in Hf. unfold blind_for in Hf. lia.
Qed.
