(* ===== verification/LeaseCluster.v ===== *)
(** * Leader election: replicas, clocks and the API server

    Several replicas run the lease loop of [src/rio-lease/src/lib.rs] against one
    lease object.  A replica's iteration is cut where the code awaits: the tick top,
    the arrival of the read, the send, the answer or the deadline.  The server and
    the clocks are interfaces with their documented laws; requests that a deadline
    abandoned stay in the network and may still be applied. *)

From S2P Require Import Prelude LeaseElection LeaseState LeaseRound.

(** ** The API server *)

Class LeaseServer : Type := {
  server : Type;
  srv_get : server -> option Lease;
  srv_used : server -> string -> Prop;
  srv_apply : server -> Request -> server -> Prop;
  srv_touch : server -> server -> Prop;
}.

(** The object after a write: the given spec under a resource version that was
    never handed out before. *)
Definition publishes `{LeaseServer} (s : server) (sp : option LeaseSpec) (s' : server) : Prop :=
  exists v', srv_get s' = Some (mkLease (Some v') sp) /\ ~ srv_used s v' /\ srv_used s' v' /\
    forall v, srv_used s v -> srv_used s' v.

(** Optimistic concurrency: a PUT is applied only on the version it names, a POST
    only when there is no object, and others touch metadata only. *)
Class LeaseServerLaws `{LeaseServer} : Prop := {
  get_used s l : srv_get s = Some l -> exists v, resource_version l = Some v /\ srv_used s v;
  put_law s b s' v :
    srv_apply s (Put b) s' -> resource_version b = Some v ->
    (exists c, srv_get s = Some c /\ resource_version c = Some v) /\ publishes s (spec b) s';
  post_law s b s' : srv_apply s (Post b) s' -> srv_get s = None /\ publishes s (spec b) s';
  touch_law s s' : srv_touch s s' -> exists c, srv_get s = Some c /\ publishes s (spec c) s';
}.

(** ** Clocks *)

(** The fence clock and the monotonic clock of each replica against real time, how
    far they drift over a span, and the least distance of two ticks. *)
Class Clocks : Type := {
  fence : string -> Z -> Z;
  mono : string -> Z -> Z;
  skew : Z;
  spacing : Z;
}.

(** The skew budget is the one [FENCE_MARGIN] documents. *)
Class ClockLaws `{Clocks} : Prop := {
  fence_mono i s t : s <= t -> fence i s <= fence i t;
  fence_slow i s t : s <= t -> t - s <= fence i t - fence i s + skew;
  mono_mono i s t : s <= t -> mono i s <= mono i t;
  mono_fast i s t : s <= t -> mono i t - mono i s <= t - s + skew;
  skew_budget : RENEW_INTERVAL + 2 * skew <= 2 * FENCE_MARGIN;
  spacing_law : SELF_FENCE_AFTER - RENEW_INTERVAL < 2 * spacing;
}.

(** ** Requests and replicas *)

(** A mutating request on its way; [m_tick] is the fence reading of its tick. *)
Record Msg : Type := mkMsg { owner : string; req : Request; release : bool; m_tick : Z }.

Definition req_body (q : Request) : Lease := match q with Post b => b | Put b => b end.

(** A completed read, with the number of renewals and the time of the last one at
    the moment the server answered. *)
Record Read : Type := mkReadAt { rd_got : option Lease; rd_ver : nat; rd_auth : Z; rd_at : Z }.

Inductive Phase : Type :=
| Idle
| Fetching (round t0 : Z)
| Fetched (round t0 : Z) (rd : Read)
| Acting (round t0 : Z) (rd : Read) (o : FetchOutcome.FetchOutcome) (on_ok : ElectionResult.ElectionResult) (stole : bool)
    (m : Msg) (applied : option Z)
| RelGet
| RelGot (got : option Lease)
| RelPut (m : Msg) (applied : bool).

(** [r_check] is the fence reading of the last tick, [r_next] the earliest of the
    next; [r_base] and [r_base_at] say when the baseline was read. *)
Record Replica : Type := mkReplica {
  r_loop : Loop;
  r_election : LeaderElection;
  r_phase : Phase;
  r_check : Z;
  r_next : Z;
  r_base : nat;
  r_base_at : Z;
}.

Definition releasing (p : Phase) : bool :=
  match p with RelGet | RelGot _ | RelPut _ _ => true | _ => false end.

(** The request a replica has sent and the server not yet applied. *)
Definition in_flight (p : Phase) : list Msg :=
  match p with
  | Acting _ _ _ _ _ _ m None => [m]
  | RelPut m false => [m]
  | _ => []
  end.

Definition served (t : Z) (p : Phase) : Phase :=
  match p with
  | Acting round t0 rd o on_ok stole m None => Acting round t0 rd o on_ok stole m (Some t)
  | RelPut m false => RelPut m true
  | p => p
  end.

Definition to_phase (p : Phase) (l : Loop) (r : Replica) : Replica :=
  mkReplica l (r_election r) p (r_check r) (r_next r) (r_base r) (r_base_at r).

(** The end of a round whose read completed. *)
Definition round_done (rd : Read) (e : LeaderElection) (l : Loop) (r : Replica) : Replica :=
  mkReplica l e Idle (r_check r) (r_next r) (rd_ver rd) (rd_at rd).

Section Cluster.
Context `{LeaseServer} `{Clocks}.

Record World : Type := mkWorld {
  now : Z;
  srv : server;
  ver : nat;
  auth : Z;
  written : list (option string * option string);
  zombies : list Msg;
}.

Record State : Type := mkState { world : World; reps : gmap string Replica }.

Definition content (l : Lease) : option string * option string := (lease_holder l, lease_renew l).

Definition fresh_replica (i : string) (gen t : Z) : Replica :=
  mkReplica (loop_start (pending gen) (fence i t)) (election_new i LEASE_TTL STEAL_AFTER) Idle (fence i t) (fence i t) 0 t.

(** ** Steps of one replica *)

(** The requests a step abandons in the network are its last argument. *)
Inductive rstep (w : World) (i : string) (r : Replica) : Replica -> list Msg -> Prop :=
| rstep_tick branch l :
    r_phase r = Idle -> r_next r <= fence i (now w) ->
    tick_top (fence i (now w)) (fence i (now w)) (r_loop r) = (branch, l) ->
    rstep w i r
      (mkReplica l (r_election r)
         (match branch with ServeStepDown => RelGet | RenewRound round _ => Fetching round (now w) end)
         (fence i (now w)) (fence i (now w) + spacing) (r_base r) (r_base_at r)) []
| rstep_read round t0 :
    r_phase r = Fetching round t0 ->
    rstep w i r (to_phase (Fetched round t0 (mkReadAt (srv_get (srv w)) (ver w) (auth w) (now w))) (r_loop r) r) []
| rstep_fetch_failed round t0 :
    r_phase r = Fetching round t0 \/ (exists rd, r_phase r = Fetched round t0 rd) ->
    rstep w i r (to_phase Idle (fetch_failed (fence i (now w)) (r_loop r)) r) []
| rstep_stand_by round t0 rd stamp o e res l :
    r_phase r = Fetched round t0 rd ->
    fetch_and_decide (r_election r) (rd_got rd) (mono i t0) (mono i (now w)) = (o, e) ->
    act e stamp o = ActDone res ->
    completed res (fetch_facts e o) (fence i t0) round (fence i (now w)) (mono i (now w)) (r_loop r) = Some l ->
    rstep w i r (round_done rd e l r) []
| rstep_send round t0 rd stamp o e q on_ok stole :
    r_phase r = Fetched round t0 rd ->
    fetch_and_decide (r_election r) (rd_got rd) (mono i t0) (mono i (now w)) = (o, e) ->
    act e stamp o = ActSend q on_ok stole ->
    rstep w i r
      (mkReplica (r_loop r) e (Acting round t0 rd o on_ok stole (mkMsg i q false (r_check r)) None) (r_check r) (r_next r)
         (r_base r) (r_base_at r)) []
| rstep_answered round t0 rd o on_ok stole m applied a res e l :
    r_phase r = Acting round t0 rd o on_ok stole m applied ->
    match a with Applied => applied <> None | Refused => applied = None | Failed => False end ->
    act_answered (r_election r) on_ok stole a = (Some res, e) ->
    completed res (fetch_facts e o) (fence i t0) round (fence i (now w)) (mono i (now w)) (r_loop r) = Some l ->
    rstep w i r (round_done rd e l r) []
| rstep_act_failed round t0 rd o on_ok stole m applied e l :
    r_phase r = Acting round t0 rd o on_ok stole m applied ->
    act_answered (r_election r) on_ok stole Failed = (None, e) ->
    act_failed (fetch_facts e o) (mutating o) (fence i t0) (fence i (now w)) (fence i (now w)) (mono i (now w)) (r_loop r) = Some l ->
    rstep w i r (round_done rd e l r) (in_flight (r_phase r))
| rstep_rel_read :
    r_phase r = RelGet -> rstep w i r (to_phase (RelGot (srv_get (srv w))) (r_loop r) r) []
| rstep_rel_not_ours got o :
    r_phase r = RelGot got -> step_down_read (r_election r) got = inl o ->
    rstep w i r (to_phase Idle (step_down_done (Some (inl o)) (r_loop r)) r) []
| rstep_rel_send got b :
    r_phase r = RelGot got -> step_down_read (r_election r) got = inr b ->
    rstep w i r (to_phase (RelPut (mkMsg i (Put b) true (r_check r)) false) (r_loop r) r) []
| rstep_rel_released m :
    r_phase r = RelPut m true ->
    rstep w i r (to_phase Idle (step_down_done (Some (inl StepDownOutcome.Released)) (r_loop r)) r) []
| rstep_rel_refused m :
    r_phase r = RelPut m false -> rstep w i r (to_phase RelGet (r_loop r) r) []
| rstep_rel_failed outcome :
    releasing (r_phase r) = true -> outcome = Some (inr tt) \/ outcome = None ->
    rstep w i r (to_phase Idle (step_down_done outcome (r_loop r)) r) (in_flight (r_phase r))
| rstep_consumer op :
    consumer_op op = true ->
    rstep w i r (to_phase (r_phase r) (with_state (run_op op (l_state (r_loop r))) (r_loop r)) r) []
| rstep_restart gen :
    rstep w i r (fresh_replica i gen (now w)) (in_flight (r_phase r)).

(** ** Steps of the world *)

Definition abandon (zs : list Msg) (w : World) : World :=
  mkWorld (now w) (srv w) (ver w) (auth w) (written w) (zs ++ zombies w).

Definition drop_zombies (zs : list Msg) (w : World) : World :=
  mkWorld (now w) (srv w) (ver w) (auth w) (written w) zs.

(** The server applies a request.  No two renewals of one holder carry the same
    renew time. *)
Inductive commits (w : World) (m : Msg) : World -> Prop :=
| commits_intro s' :
    srv_apply (srv w) (req m) s' ->
    (release m = false -> content (req_body (req m)) ∉ written w) ->
    commits w m
      (mkWorld (now w) s' (if release m then ver w else S (ver w)) (if release m then auth w else now w)
         (content (req_body (req m)) :: written w) (zombies w)).

(** The loops are scheduled: between two ticks no more than the renew interval
    passes. *)
Definition punctual (t : Z) (rs : gmap string Replica) : Prop :=
  forall i r, rs !! i = Some r -> fence i t <= r_check r + RENEW_INTERVAL.

Inductive step : State -> State -> Prop :=
| step_replica w rs i r r' zs :
    rs !! i = Some r -> rstep w i r r' zs -> step (mkState w rs) (mkState (abandon zs w) (<[i := r']> rs))
| step_served w rs i r m w' :
    rs !! i = Some r -> in_flight (r_phase r) = [m] -> commits w m w' ->
    step (mkState w rs) (mkState w' (<[i := to_phase (served (now w) (r_phase r)) (r_loop r) r]> rs))
| step_zombie w rs zs1 m zs2 w' :
    zombies w = zs1 ++ m :: zs2 -> commits (drop_zombies (zs1 ++ zs2) w) m w' -> step (mkState w rs) (mkState w' rs)
| step_touch w rs s' :
    srv_touch (srv w) s' ->
    step (mkState w rs) (mkState (mkWorld (now w) s' (ver w) (auth w) (written w) (zombies w)) rs)
| step_time w rs t :
    now w <= t -> punctual t rs ->
    step (mkState w rs) (mkState (mkWorld t (srv w) (ver w) (auth w) (written w) (zombies w)) rs).

(** Every replica fresh, any lease object. *)
Definition initial (s : State) : Prop :=
  zombies (world s) = [] /\ auth (world s) <= now (world s) /\
  (forall l, srv_get (srv (world s)) = Some l -> content l ∈ written (world s)) /\
  forall i r, reps s !! i = Some r -> i <> ""%string /\ exists gen, r = fresh_replica i gen (now (world s)).

Definition reachable (s : State) : Prop := exists s0, initial s0 /\ rtc step s0 s.

End Cluster.
