(* ===== verification/LeaseSafety.v ===== *)
(** * Leader election: at most one leader

    The invariant of the cluster of [LeaseCluster] and its consequence: outside the
    service of a step-down, a replica whose leader flag is up holds the lease. *)

From S2P Require Import Prelude LeaseElection LeaseState LeaseRound LeaseCluster.

Section Safety.
Context `{Srv : LeaseServer} `{SrvLaws : !LeaseServerLaws} `{Clk : Clocks} `{ClkLaws : !ClockLaws}.

Implicit Types (w : World) (i j : string) (r : Replica) (m : Msg) (l c : Lease) (u led : Z) (rd : Read).

(** ** Holding the lease *)

Definition cur_holder w : option string := l ← srv_get (srv w); lease_holder l.

(** A renewal at [u] is old enough to be stolen. *)
Definition late w u : Prop := u + STEAL_AFTER - skew < now w.

(** The lease still names the replica that renewed it at [u] or later, or enough
    time has passed. *)
Definition held w i u : Prop := cur_holder w = Some i /\ u <= auth w \/ late w u.

(** A lease that replica [j] may overwrite. *)
Definition takeable w j c : Prop :=
  lease_holder c = Some j \/ lease_holder c = None \/ lease_holder c = Some ""%string \/ late w (auth w).

(** ** Requests *)

Definition used_version w l : Prop := exists v, resource_version l = Some v /\ srv_used (srv w) v.

Definition same_version w b (P : Lease -> Prop) : Prop :=
  forall c, srv_get (srv w) = Some c -> resource_version c = resource_version b -> P c.

Definition msg_ok w m : Prop :=
  match req m with
  | Post b => release m = false /\ lease_holder b = Some (owner m)
  | Put b =>
      used_version w b /\
      if release m then lease_holder b = None /\ same_version w b (fun c => lease_holder c = Some (owner m) /\ lease_renew b = lease_renew c)
      else lease_holder b = Some (owner m) /\ same_version w b (takeable w (owner m))
  end.

(** A request the server could still apply. *)
Definition live w m : Prop :=
  match req m with
  | Post _ => srv_get (srv w) = None
  | Put b => exists c, srv_get (srv w) = Some c /\ resource_version c = resource_version b
  end.

(** ** Reads *)

Definition facts_of i (got : option Lease) : option FetchFacts :=
  option_map (fun l => mkFacts (bool_decide (lease_holder l = Some i)) (lease_renew l) (lease_count l)) got.

Definition known w (got : option Lease) : Prop :=
  forall l, got = Some l -> used_version w l /\ same_version w l (fun c => c = l).

Definition armed r (P : Z -> Prop) : Prop := forall led, l_unconfirmed (r_loop r) = Some led -> P led.

Definition moved r i rd : Prop := content_cell (l_baseline (r_loop r)) (facts_of i (rd_got rd)) = ContentCell.Moved.

(** A write that was in doubt before the replica's last release. *)
Definition doomed r : Prop := armed r (fun led => led + 2 * spacing <= r_check r).

Definition same_renew w (got : option Lease) : Prop :=
  option_map lease_renew got = option_map lease_renew (srv_get (srv w)).

Record rd_ok w i r (t0 : Z) rd : Prop := {
  rd_times : t0 <= rd_at rd <= now w;
  rd_ver_le : (rd_ver rd <= ver w)%nat;
  rd_current : rd_ver rd = ver w -> same_renew w (rd_got rd);
  rd_passed : (rd_ver rd < ver w)%nat -> rd_at rd <= auth w;
  rd_known : known w (rd_got rd);
  rd_written : forall l, rd_got rd = Some l -> content l ∈ written w;
  rd_moved : moved r i rd -> armed r (fun led => led <= fence i (rd_auth rd) /\ (r_base r < rd_ver rd)%nat);
  rd_held : forall l, rd_got rd = Some l -> lease_holder l = Some i ->
    held w i (rd_auth rd) \/ believes (l_standing (r_loop r)) = false /\ (moved r i rd -> doomed r);
}.

(** ** Replicas *)

Definition round_ok w i r (t0 : Z) : Prop :=
  t0 <= now w /\ r_check r = fence i t0 /\ r_next r = r_check r + spacing /\
  armed r (fun led => led + spacing <= r_check r /\ l_blind (r_loop r) + spacing <= r_check r).

Definition outcome_of (o : FetchOutcome.FetchOutcome) (got : option Lease) : Prop :=
  match got with
  | None => o = FetchOutcome.Create
  | Some l => exists d, o = FetchOutcome.Decided d l /\ d <> Decision.Standby
  end.

Definition phase_ok w i r : Prop :=
  match r_phase r with
  | Idle => True
  | Fetching _ t0 => round_ok w i r t0
  | Fetched _ t0 rd => round_ok w i r t0 /\ rd_ok w i r t0 rd
  | Acting _ t0 rd o on_ok _ m applied =>
      round_ok w i r t0 /\ rd_ok w i r t0 rd /\ outcome_of o (rd_got rd) /\ act_cell on_ok = ActCell.Leading /\
      owner m = i /\ release m = false /\
      match applied with None => msg_ok w m | Some t => t0 <= t /\ held w i t end
  | RelGet | RelGot _ | RelPut _ _ =>
      r_next r = r_check r + spacing /\ armed r (fun led => led + spacing <= r_check r) /\
      believes (l_standing (r_loop r)) = true /\
      match r_phase r with
      | RelGot got => known w got
      | RelPut m applied => owner m = i /\ release m = true /\ m_tick m = r_check r /\ (applied = false -> msg_ok w m)
      | _ => True
      end
  end.

Definition read_of (p : Phase) : option Read :=
  match p with Fetched _ _ rd | Acting _ _ rd _ _ _ _ _ => Some rd | _ => None end.

Definition in_round (p : Phase) : bool :=
  match p with Fetching _ _ | Fetched _ _ _ | Acting _ _ _ _ _ _ _ _ => true | _ => false end.

Definition served_write (p : Phase) : bool := match p with Acting _ _ _ _ _ _ _ (Some _) => true | _ => false end.

(** What an abandoned release that could still be applied means for its replica. *)
Record release_pending w m r : Prop := {
  rp_belief : believes (l_standing (r_loop r)) = false;
  rp_served : served_write (r_phase r) = false;
  rp_read : forall rd, read_of (r_phase r) = Some rd -> rd_ver rd = ver w;
  rp_ledger : armed r (fun led => (r_base r < ver w)%nat ->
    led + spacing <= m_tick m /\ m_tick m + spacing <= r_next r /\ (in_round (r_phase r) = true -> m_tick m + spacing <= r_check r));
}.

Definition releases_ok w i r : Prop :=
  forall m, m ∈ zombies w -> owner m = i -> release m = true -> live w m -> release_pending w m r.

Definition obs_ok w i (o : Observed) : Prop :=
  (Some (ob_holder o), ob_renew_time o) ∈ written w /\
  exists t, ob_at o = mono i t /\ t <= now w /\
    forall c, srv_get (srv w) = Some c -> content c = (Some (ob_holder o), ob_renew_time o) -> auth w <= t.

Definition base_ok w r : Prop :=
  r_base_at r <= now w /\
  match l_baseline (r_loop r) with
  | ContentBaseline.NoCompletedRead => True
  | b =>
      (r_base r <= ver w)%nat /\ ((r_base r < ver w)%nat -> r_base_at r <= auth w) /\
      (r_base r = ver w ->
       match b with
       | ContentBaseline.Present rt => exists c, srv_get (srv w) = Some c /\ lease_renew c = rt
       | _ => srv_get (srv w) = None
       end)
  end.

Definition belief_ok w i r : Prop :=
  believes (l_standing (r_loop r)) = true -> releasing (r_phase r) = false ->
  exists u, l_blind (r_loop r) <= fence i u /\ held w i u.

Record rep_ok w i r : Prop := {
  ro_id : i <> ""%string;
  ro_agree : agree (r_loop r);
  ro_election : holder_id (r_election r) = i /\ steal_after (r_election r) = STEAL_AFTER;
  ro_clock : l_blind (r_loop r) <= r_check r <= fence i (now w) /\ fence i (now w) <= r_check r + RENEW_INTERVAL;
  ro_ledger : armed r (fun led => led <= r_check r /\ led <= fence i (r_base_at r) /\ led + spacing <= r_next r /\
    l_blind (r_loop r) + spacing <= r_next r /\ (l_blind (r_loop r) <= led \/ led + spacing <= l_blind (r_loop r)));
  ro_fenced : believes (l_standing (r_loop r)) = true -> r_check r - SELF_FENCE_AFTER <= l_blind (r_loop r);
  ro_belief : belief_ok w i r;
  ro_obs : forall o, observed (r_election r) = Some o -> obs_ok w i o;
  ro_base : base_ok w r;
  ro_phase : phase_ok w i r;
  ro_releases : releases_ok w i r;
}.

Definition world_ok w : Prop :=
  (forall m, m ∈ zombies w -> msg_ok w m) /\ auth w <= now w /\
  forall l, srv_get (srv w) = Some l -> content l ∈ written w.

Definition inv (s : State) : Prop :=
  world_ok (world s) /\ forall i r, reps s !! i = Some r -> rep_ok (world s) i r.

(** ** The theorem from the invariant *)

Lemma leader_holds w i r :
  rep_ok w i r -> is_leader (l_state (r_loop r)) = true -> releasing (r_phase r) = false -> cur_holder w = Some i.
Proof.
  intros R Hl Hr. destruct (ro_agree _ _ _ R) as [_ Ha]. rewrite Hl in Ha. symmetry in Ha.
  destruct (ro_belief _ _ _ R Ha Hr) as (u & Hu & [[Hh _]|Hlate]); [done|].
  pose proof (ro_fenced _ _ _ R Ha) as Hf. destruct (ro_clock _ _ _ R) as [_ Hc]. unfold late in Hlate.
  assert (u <= now w \/ now w < u) as [Hle|Hgt] by lia.
  - pose proof (fence_slow i u (now w) Hle) as Hs. pose proof skew_budget as Hk.
    unfold STEAL_AFTER, SELF_FENCE_AFTER, RENEW_INTERVAL, FENCE_MARGIN, SECOND in *. lia.
  - pose proof skew_budget as Hk. unfold STEAL_AFTER, RENEW_INTERVAL, FENCE_MARGIN, SECOND in *. lia.
Qed.

(** ** What the rest of the world does to a replica *)

(** Time passes, or the object is rewritten: by others' metadata, by a release of
    [rel], by a renewal or a theft. *)
Inductive effect w : option string -> World -> Prop :=
| effect_time t :
    now w <= t -> effect w None (mkWorld t (srv w) (ver w) (auth w) (written w) (zombies w))
| effect_touch s' c :
    srv_get (srv w) = Some c -> publishes (srv w) (spec c) s' ->
    effect w None (mkWorld (now w) s' (ver w) (auth w) (written w) (zombies w))
| effect_release j s' c b zs :
    srv_get (srv w) = Some c -> lease_holder c = Some j -> lease_holder b = None -> lease_renew b = lease_renew c ->
    publishes (srv w) (spec b) s' -> zs ⊆ zombies w ->
    effect w (Some j) (mkWorld (now w) s' (ver w) (auth w) (content b :: written w) zs)
| effect_write j s' b zs :
    lease_holder b = Some j -> content b ∉ written w ->
    (forall c, srv_get (srv w) = Some c -> takeable w j c) ->
    publishes (srv w) (spec b) s' -> zs ⊆ zombies w ->
    effect w None (mkWorld (now w) s' (S (ver w)) (now w) (content b :: written w) zs).

(** A rewrite outdates everything that names an older version. *)
Lemma publishes_fresh s sp s' l c :
  publishes s sp s' -> (exists v, resource_version l = Some v /\ srv_used s v) ->
  srv_get s' = Some c -> resource_version c = resource_version l -> False.
Proof. intros (v' & Hg & Hf & _) (v & Hl & Hv) Hc He. rewrite Hg in Hc. injection Hc as <-. cbn in He. congruence. Qed.

Lemma publishes_used w sp w' l : publishes (srv w) sp (srv w') -> used_version w l -> used_version w' l.
Proof. intros (v' & _ & _ & _ & Hm) (v & Hl & Hv). exists v. auto. Qed.

Lemma publishes_same_version w sp w' b (P Q : Lease -> Prop) :
  publishes (srv w) sp (srv w') -> used_version w b -> same_version w b P -> same_version w' b Q.
Proof. intros Hp Hu _ c Hc Hv. by destruct (publishes_fresh _ _ _ _ _ Hp Hu Hc Hv). Qed.

Lemma publishes_known w sp w' got : publishes (srv w) sp (srv w') -> known w got -> known w' got.
Proof.
  intros Hp Hk l Hl. destruct (Hk l Hl) as [Hu Hs].
  split; [by eapply publishes_used|by eapply publishes_same_version].
Qed.

Lemma publishes_msg w sp w' m : publishes (srv w) sp (srv w') -> msg_ok w m -> msg_ok w' m.
Proof.
  intros Hp. unfold msg_ok. destruct (req m) as [b|b]; [done|]. intros [Hu Hm]. split; [by eapply publishes_used|].
  destruct (release m), Hm as [Hb Hs]; (split; [done|by eapply publishes_same_version]).
Qed.

Lemma publishes_dead w sp w' m : publishes (srv w) sp (srv w') -> msg_ok w m -> ~ live w' m.
Proof.
  intros Hp Hm. unfold msg_ok, live in *. destruct (req m) as [b|b].
  - destruct Hp as (v' & Hg & _). by rewrite Hg.
  - intros (c & Hc & Hv). destruct Hm as [Hu _]. by apply (publishes_fresh _ _ _ b c Hp Hu).
Qed.

Lemma late_later w w' u : now w <= now w' -> late w u -> late w' u.
Proof. unfold late. lia. Qed.

Lemma msg_time w w' m : srv w' = srv w -> auth w' = auth w -> now w <= now w' -> msg_ok w m -> msg_ok w' m.
Proof.
  intros Es Ea Hn. unfold msg_ok, used_version, same_version, takeable. rewrite Es, Ea.
  destruct (req m) as [b|b]; [done|]. intros [Hu Hm]. split; [done|]. destruct (release m); [done|].
  destruct Hm as [Hb Hs]. split; [done|]. intros c Hc Hv. destruct (Hs c Hc Hv) as [?|[?|[?|?]]]; eauto using late_later.
Qed.

(** Effects keep requests valid, and rewrites kill them. *)
Lemma effect_msg w rel w' m : effect w rel w' -> msg_ok w m -> msg_ok w' m.
Proof. intros [] Hm; [by eapply (msg_time w)|by eapply (publishes_msg w)..]. Qed.

Lemma effect_live w rel w' m :
  effect w rel w' -> msg_ok w m -> live w' m -> srv w' = srv w /\ ver w' = ver w /\ zombies w' = zombies w.
Proof. intros [] Hm Hl; [done|..]; exfalso; (eapply (publishes_dead w); [..|exact Hl]; [eassumption|exact Hm]). Qed.

Lemma effect_known w rel w' got : effect w rel w' -> known w got -> known w' got.
Proof. intros [] Hk; [exact Hk|by eapply (publishes_known w)..]. Qed.

Lemma effect_now w rel w' : effect w rel w' -> now w <= now w' /\ (auth w <= now w -> auth w' <= now w').
Proof. intros []; cbn; (split; [lia|]); intros; lia. Qed.

Lemma effect_zombies w rel w' : effect w rel w' -> zombies w' ⊆ zombies w.
Proof. by intros []. Qed.

Lemma effect_written w rel w' : effect w rel w' -> written w ⊆ written w'.
Proof. intros []; cbn; set_solver. Qed.

Lemma effect_held w rel w' i u :
  effect w rel w' -> i <> ""%string -> auth w <= now w -> rel <> Some i -> held w i u -> held w' i u.
Proof.
  intros He Hi Ha Hrel [[Hh Hu]|Hl]; [|right; eapply late_later; [by apply (effect_now _ _ _ He)|done]].
  unfold cur_holder in Hh. destruct (srv_get (srv w)) as [l|] eqn:Hg; [|done]. cbn in Hh.
  destruct He as [t Ht|s' c Hc Hp|j s' c b zs Hc Hj|j s' b zs Hb Hf Ht Hp Hz].
  - left. unfold cur_holder. cbn. by rewrite Hg.
  - left. destruct Hp as (v' & Hg' & _). unfold cur_holder. cbn. rewrite Hg'. simplify_eq. by split.
  - congruence.
  - destruct (base.decide (j = i)) as [->|Hn].
    + left. destruct Hp as (v' & Hg' & _). unfold cur_holder. cbn. rewrite Hg'. cbn. split; [done|lia].
    + right. unfold late in *. cbn. destruct (Ht l Hg) as [?|[?|[?|?]]]; try congruence. unfold late in *. lia.
Qed.

(** The renew time of the object, and what a stale baseline says. *)
Lemma effect_renew w rel w' :
  effect w rel w' -> (ver w' = ver w /\ auth w' = auth w /\ option_map lease_renew (srv_get (srv w')) = option_map lease_renew (srv_get (srv w))) \/
                     (ver w' = S (ver w) /\ auth w' = now w).
Proof.
  intros [t Ht|s' c Hc Hp|j s' c b zs Hc Hj Hb Hr Hp Hz|j s' b zs Hb Hf Ht Hp Hz]; [by left|left|left|by right]; cbn.
  - destruct Hp as (v' & -> & _). by rewrite Hc.
  - destruct Hp as (v' & -> & _). rewrite Hc. cbn. by rewrite <- Hr.
Qed.

Lemma effect_obs w rel w' i o : effect w rel w' -> obs_ok w i o -> obs_ok w' i o.
Proof.
  intros He (Hw & t & Ht & Hn & Hc). split; [by apply (effect_written _ _ _ He)|]. exists t. split; [done|].
  split; [pose proof (effect_now _ _ _ He); lia|]. intros c'.
  destruct He as [t' Ht'|s' c Hg Hp|j s' c b zs Hg Hj Hb Hr Hp Hz|j s' b zs Hb Hf Htk Hp Hz]; cbn; [apply Hc|..];
    destruct Hp as (v' & -> & _); intros [= <-].
  - intros He. apply (Hc c Hg). exact He.
  - unfold content. change (lease_holder (mkLease (Some v') (spec b))) with (lease_holder b). by rewrite Hb.
  - change (content (mkLease (Some v') (spec b))) with (content b). intros E. by rewrite E in Hf.
Qed.

Lemma effect_base w rel w' r : effect w rel w' -> base_ok w r -> base_ok w' r.
Proof.
  intros He [Hat Hb]. pose proof (effect_now _ _ _ He) as [Hn _]. split; [lia|]. destruct (l_baseline (r_loop r)) as [| |rt]; [done|..].
  all: destruct Hb as (Hle & Hlt & Heq); destruct (effect_renew _ _ _ He) as [(-> & -> & Hr)|(-> & ->)].
  1,3: split; [done|]; split; [done|]; intros E; specialize (Heq E).
  - rewrite Heq in Hr. by destruct (srv_get (srv w')).
  - destruct Heq as (c & Hc & <-). rewrite Hc in Hr. cbn in Hr. destruct (srv_get (srv w')) as [c'|]; [|done]. exists c'. by simplify_eq/=.
  - split; [lia|]. split; [done|lia].
  - split; [lia|]. split; [done|lia].
Qed.

Lemma effect_rd w rel w' i r t0 rd :
  effect w rel w' -> i <> ""%string -> auth w <= now w ->
  (rel = Some i -> believes (l_standing (r_loop r)) = false /\ (moved r i rd -> doomed r)) ->
  rd_ok w i r t0 rd -> rd_ok w' i r t0 rd.
Proof.
  intros He Hi Ha Hrel R. pose proof (effect_now _ _ _ He) as [Hn _]. destruct R as [H1 H2 H3 H4 H5 H6 H7 H8]. split.
  - lia.
  - destruct (effect_renew _ _ _ He) as [(-> & _)|(-> & _)]; lia.
  - unfold same_renew. destruct (effect_renew _ _ _ He) as [(-> & _ & ->)|(-> & _)]; [done|lia].
  - destruct (effect_renew _ _ _ He) as [(-> & -> & _)|(-> & ->)]; [done|lia].
  - by eapply effect_known.
  - intros l Hl. by apply (effect_written _ _ _ He), H6.
  - done.
  - intros l Hl Hh. destruct (base.decide (rel = Some i)) as [E|E]; [right; auto|].
    destruct (H8 l Hl Hh) as [Hh'|?]; [left; by eapply effect_held|by right].
Qed.

(** A release of the replica's own can only be applied while it serves a step-down,
    or when it was abandoned. *)
Definition release_license w i r (rel : option string) : Prop :=
  rel = Some i -> releasing (r_phase r) = true \/ exists m, release_pending w m r.

Lemma license_rd w i r rel t0 rd :
  release_license w i r rel -> read_of (r_phase r) = Some rd -> in_round (r_phase r) = true -> releasing (r_phase r) = false ->
  rd_ok w i r t0 rd -> rel = Some i -> believes (l_standing (r_loop r)) = false /\ (moved r i rd -> doomed r).
Proof.
  intros Hl Hrd Hin Hnr R ->. destruct (Hl eq_refl) as [Hc|(m & [Hb _ Hver Hled])]; [congruence|]. split; [done|].
  intros Hm led Hu. destruct (rd_moved _ _ _ _ _ R Hm led Hu) as [_ Hlt].
  rewrite (Hver rd Hrd) in Hlt. destruct (Hled led Hu Hlt) as (? & _ & Hx). specialize (Hx Hin). lia.
Qed.

Lemma effect_phase w rel w' i r :
  effect w rel w' -> i <> ""%string -> auth w <= now w -> release_license w i r rel -> phase_ok w i r -> phase_ok w' i r.
Proof.
  intros He Hi Ha Hl. pose proof (effect_now _ _ _ He) as [Hn _].
  assert (Hro : forall t0, round_ok w i r t0 -> round_ok w' i r t0) by (intros t0 (? & ? & ?); split; [lia|done]).
  pose proof (fun t0 rd => license_rd w i r rel t0 rd Hl) as Hrd. unfold phase_ok.
  destruct (r_phase r) as [|? t0|? t0 rd|? t0 rd o ok st m ap| |got|m ap] eqn:Hp; [done|by auto|..].
  - intros [H1 H2]. split; [by auto|]. eapply effect_rd; [done..| |done]. intros Hr. by eapply Hrd.
  - intros (H1 & H2 & H3 & H4 & H5 & H6 & H7). split; [by auto|]. split.
    { eapply effect_rd; [done..| |done]. intros Hr. by eapply Hrd. }
    do 4 (split; [done|]). destruct ap as [t|]; [|by eapply effect_msg]. destruct H7 as [Ht Hh]. split; [done|].
    eapply effect_held; [done..| |done]. intros ->. destruct (Hl eq_refl) as [Hc|(m' & [_ Hs _ _])]; [|by rewrite Hp in Hs].
    by rewrite Hp in Hc.
  - done.
  - intros (? & ? & ? & ?). do 3 (split; [done|]). by eapply effect_known.
  - intros (? & ? & ? & ? & ? & ? & H7). do 6 (split; [done|]). intros E. eapply effect_msg; [done|by apply H7].
Qed.

Lemma rep_frame w rel w' i r :
  effect w rel w' -> world_ok w -> release_license w i r rel -> fence i (now w') <= r_check r + RENEW_INTERVAL ->
  rep_ok w i r -> rep_ok w' i r.
Proof.
  intros He (Hz & Ha & _) Hl Hp R. pose proof (effect_now _ _ _ He) as [Hn _]. destruct R as [R1 R2 R3 R4 R5 R6 R7 R8 R9 R10 R11].
  split; try done.
  - pose proof (fence_mono i _ _ Hn). lia.
  - intros Hb Hr. destruct (R7 Hb Hr) as (u & Hu & Hh). exists u. split; [done|]. eapply effect_held; [done..| |done].
    intros E. destruct (Hl E) as [?|(m & [? _ _ _])]; congruence.
  - intros o Ho. eapply effect_obs; [done|]. by apply R8.
  - by eapply effect_base.
  - by eapply effect_phase.
  - intros m Hm Ho Hr Hv. apply (effect_zombies _ _ _ He) in Hm.
    destruct (effect_live _ _ _ _ He (Hz m Hm) Hv) as (Es & Ev & _).
    destruct (R11 m Hm Ho Hr) as [P1 P2 P3 P4]; [by unfold live in *; rewrite Es in Hv|].
    split; [done|done| |]; by rewrite Ev.
Qed.

Lemma world_frame w rel w' : effect w rel w' -> world_ok w -> world_ok w'.
Proof.
  intros He (Hz & Ha & Hw). split; [|split].
  - intros m Hm. eapply effect_msg; [done|]. by apply Hz, (effect_zombies _ _ _ He).
  - by apply (effect_now _ _ _ He).
  - destruct He as [t Ht|s' c Hg Hp|j s' c b zs Hg Hj Hb Hr Hp Hs|j s' b zs Hb Hf Htk Hp Hs]; cbn; [done|..];
      destruct Hp as (v' & -> & _); intros l [= <-].
    + apply (Hw c Hg).
    + left.
    + left.
Qed.

(** ** Rewrites by requests *)

Lemma commits_effect zs w m w' :
  commits (drop_zombies zs w) m w' -> zs ⊆ zombies w -> msg_ok w m ->
  now w' = now w /\ live w m /\ effect w (if release m then Some (owner m) else None) w' /\
  (release m = false -> cur_holder w' = Some (owner m) /\ auth w' = now w /\ ver w' = S (ver w)).
Proof.
  intros [s' Hap Hf] Hz Hm. cbn in *. split; [done|]. unfold msg_ok in Hm. unfold live. destruct (req m) as [b|b]; cbn [req_body] in *.
  - destruct Hm as [Hr Hb]. rewrite Hr in *. destruct (post_law _ _ _ Hap) as [Hg Hp]. split; [done|]. split.
    + apply (effect_write w (owner m)); try done; [by apply Hf|]. intros c Hc. congruence.
    + intros _. destruct Hp as (v' & Hg' & _). unfold cur_holder. cbn. by rewrite Hg'.
  - destruct Hm as [(v & Hv & Hu) Hm]. destruct (put_law _ _ _ v Hap Hv) as [(c & Hc & Hcv) Hp].
    split; [exists c; split; [done|congruence]|]. destruct (release m).
    + destruct Hm as [Hb Hs]. destruct (Hs c Hc) as [Hh Hr]; [congruence|]. split; [|done]. by apply (effect_release w (owner m) _ c).
    + destruct Hm as [Hb Hs]. split.
      * apply (effect_write w (owner m)); try done; [by apply Hf|]. intros c' Hc'. assert (c' = c) as -> by congruence.
        apply Hs; [done|congruence].
      * intros _. destruct Hp as (v' & Hg' & _). unfold cur_holder. cbn. by rewrite Hg'.
Qed.

Lemma drop_none w : drop_zombies (zombies w) w = w.
Proof. by destruct w. Qed.

(** A read is judged by the loop's belief, ledger and baseline. *)
Lemma rd_transfer w i r r' t0 rd :
  believes (l_standing (r_loop r')) = believes (l_standing (r_loop r)) ->
  l_unconfirmed (r_loop r') = l_unconfirmed (r_loop r) -> l_baseline (r_loop r') = l_baseline (r_loop r) ->
  r_base r' = r_base r -> r_check r' = r_check r -> rd_ok w i r t0 rd -> rd_ok w i r' t0 rd.
Proof.
  intros Es Eu Eb Er Ec [H1 H2 H3 H4 H5 H6 H7 H8].
  split; try done; unfold moved, doomed, armed in *; rewrite ?Es, ?Eu, ?Eb, ?Er, ?Ec; done.
Qed.

(** The fields of [rep_ok] that a change of phase and of the shared flag leaves to
    prove. *)
Lemma rep_phase w i r p (lo : Loop) :
  rep_ok w i r -> agree lo -> (believes (l_standing lo) = true -> believes (l_standing (r_loop r)) = true) ->
  l_blind lo = l_blind (r_loop r) -> l_unconfirmed lo = l_unconfirmed (r_loop r) -> l_baseline lo = l_baseline (r_loop r) ->
  (believes (l_standing lo) = true -> releasing p = false -> releasing (r_phase r) = false) ->
  phase_ok w i (to_phase p lo r) -> releases_ok w i (to_phase p lo r) -> rep_ok w i (to_phase p lo r).
Proof.
  intros [R1 R2 R3 R4 R5 R6 R7 R8 R9 R10 R11] Ha Es Eb Eu Ebl Hrel Hp Hr.
  split; unfold armed, belief_ok, base_ok in *; cbn; rewrite ?Eb, ?Eu, ?Ebl; auto.
Qed.

(** Back to waiting for the next tick. *)
Lemma rep_idle w i r (lo : Loop) :
  rep_ok w i r -> agree lo -> (believes (l_standing lo) = true -> believes (l_standing (r_loop r)) = true /\ releasing (r_phase r) = false) ->
  l_blind lo = l_blind (r_loop r) -> l_unconfirmed lo = l_unconfirmed (r_loop r) -> l_baseline lo = l_baseline (r_loop r) ->
  rep_ok w i (to_phase Idle lo r).
Proof.
  intros R Ha Hb Eb Eu Ebl. apply rep_phase; try done; [by intros [? _]%Hb|by intros [_ ?]%Hb|].
  intros m Hm Ho Hr Hl. destruct (ro_releases _ _ _ R m Hm Ho Hr Hl) as [P1 P2 P3 P4]. split; cbn; try done.
  - destruct (believes (l_standing lo)); [|done]. destruct (Hb eq_refl). congruence.
  - intros led Hu Hlt. cbn in Hu. rewrite Eu in Hu. destruct (P4 led Hu Hlt) as (? & ? & _). done.
Qed.

Lemma served_ok w i r m w' :
  world_ok w -> rep_ok w i r -> in_flight (r_phase r) = [m] -> commits w m w' ->
  rep_ok w' i (to_phase (served (now w) (r_phase r)) (r_loop r) r).
Proof.
  intros Hw R Hin Hc. pose proof (ro_phase _ _ _ R) as Hph.
  assert (Hmo : msg_ok w m /\ owner m = i /\ (if release m then releasing (r_phase r) = true else exists round t0 rd o ok st, r_phase r = Acting round t0 rd o ok st m None)).
  { unfold phase_ok in Hph. destruct (r_phase r) as [| | |round t0 rd o ok st m' [t|]| | |m' []] eqn:E; try done; injection Hin as ->.
    - destruct Hph as (_ & _ & _ & _ & ? & Hr & ?). rewrite Hr. eauto 10.
    - destruct Hph as (_ & _ & _ & ? & Hr & _ & ?). rewrite Hr. auto. }
  destruct Hmo as (Hmo & Ho & Hcase). rewrite <- (drop_none w) in Hc.
  destruct (commits_effect _ _ _ _ Hc) as (Hnow & Hlive & He & Hwr); [done|done|]. rewrite Ho in *.
  assert (R' : rep_ok w' i r).
  { eapply rep_frame; [done|done| | |done]; [|rewrite Hnow; apply (ro_clock _ _ _ R)].
    destruct (release m); [by left|]. by intros. }
  pose proof (ro_phase _ _ _ R') as Hph'. destruct (release m) eqn:Hrel.
  - destruct (r_phase r) as [| | | | | |m' []] eqn:E; try done. injection Hin as ->. apply rep_phase; try done; [apply (ro_agree _ _ _ R)|..].
    + unfold phase_ok in *. rewrite E in Hph'. destruct Hph' as (? & ? & ? & ? & ? & ? & ?). cbn. done.
    + intros m1 Hm1 Ho1 Hr1 Hl1. destruct (ro_releases _ _ _ R' m1 Hm1 Ho1 Hr1 Hl1) as [P1 P2 P3 P4]. rewrite E in *. split; done.
  - destruct Hcase as (round & t0 & rd & o & ok & st & E). rewrite E in *. destruct (Hwr eq_refl) as (Hh & Hau & Hv).
    apply rep_phase; try done; [apply (ro_agree _ _ _ R)|by rewrite E|..].
    + unfold phase_ok in *. rewrite E in Hph'. destruct Hph' as (H1 & H2 & H3 & H4 & H5 & H6 & _). cbn.
      split; [done|]. split; [by apply (rd_transfer w' i r)|]. do 4 (split; [done|]). split; [rewrite <- Hnow; apply H1|]. left. split; [done|lia].
    + intros m1 Hm1 Ho1 Hr1 Hl1. apply (effect_zombies _ _ _ He) in Hm1. destruct Hw as (Hz & _).
      destruct (effect_live _ _ _ _ He (Hz m1 Hm1) Hl1) as (_ & Hv' & _). lia.
Qed.

(** ** Abandoned requests *)

Lemma phase_abandon w zs i r : phase_ok w i r -> phase_ok (abandon zs w) i r.
Proof.
  assert (Hrd : forall t0 rd, rd_ok w i r t0 rd -> rd_ok (abandon zs w) i r t0 rd) by (intros t0 rd []; by split).
  unfold phase_ok. destruct (r_phase r) as [| | | | | |]; try done.
  - intros [? ?]. split; [done|auto].
  - intros (? & ? & ?). split; [done|auto].
Qed.

Lemma rep_abandon w zs i r :
  rep_ok w i r -> (forall m, m ∈ zs -> owner m = i -> release m = true -> live w m -> release_pending w m r) ->
  rep_ok (abandon zs w) i r.
Proof.
  intros [R1 R2 R3 R4 R5 R6 R7 R8 R9 R10 R11] Hzs. split; try done; [by apply phase_abandon|].
  intros m [Hm|Hm]%elem_of_app Ho Hr Hl; [destruct (Hzs m Hm Ho Hr Hl)|destruct (R11 m Hm Ho Hr Hl)]; by split.
Qed.

Lemma world_abandon w zs : world_ok w -> (forall m, m ∈ zs -> msg_ok w m) -> world_ok (abandon zs w).
Proof. intros (Hz & Ha & Hw) Hzs. split; [|done]. intros m [Hm|Hm]%elem_of_app; [by apply Hzs|by apply Hz]. Qed.

Lemma in_flight_ok w i r m :
  rep_ok w i r -> m ∈ in_flight (r_phase r) -> msg_ok w m /\ owner m = i /\ (release m = true -> releasing (r_phase r) = true /\ m_tick m = r_check r).
Proof.
  intros R Hm. pose proof (ro_phase _ _ _ R) as Hp. unfold phase_ok in Hp.
  destruct (r_phase r) as [| | |round t0 rd o ok st m' [t|]| | |m' []]; cbn in Hm; try (by apply elem_of_nil in Hm).
  - apply list_elem_of_singleton in Hm as ->. destruct Hp as (_ & _ & _ & _ & ? & -> & ?). by split; [|split].
  - apply list_elem_of_singleton in Hm as ->. destruct Hp as (_ & _ & _ & ? & ? & ? & ?). by split; [auto|split].
Qed.

(** ** The end of a round *)

(** Evidence that is fresh enough for a restore is not doomed. *)
Lemma fresh_evidence w i r led :
  rep_ok w i r -> l_unconfirmed (r_loop r) = Some led -> evidence_acquire_futile (age_at led (fence i (now w))) = false ->
  r_check r - SELF_FENCE_AFTER <= led /\ r_check r < led + 2 * spacing.
Proof.
  intros R Hu Hf. apply Z.ltb_ge in Hf. destruct (ro_clock _ _ _ R) as [Hc _]. pose proof spacing_law as Hs.
  unfold age_at, SELF_FENCE_AFTER, RENEW_INTERVAL, SECOND in *. lia.
Qed.

Lemma held_max w i u u' : held w i u -> held w i u' -> held w i (Z.max u u').
Proof. destruct (Z.max_spec u u') as [[_ ->]|[_ ->]]; auto. Qed.

Lemma facts_us i got : holder_cell (facts_of i got) = HolderCell.Us -> exists l, got = Some l /\ lease_holder l = Some i.
Proof.
  destruct got as [l|]; [|done]. cbn. destruct (bool_decide _) eqn:E; [|done]. apply bool_decide_eq_true in E. by exists l.
Qed.

(** Belief at the end of a round without an answered write: where it comes from. *)
Lemma kept_belief w i r t0 rd evidence :
  rep_ok w i r -> round_ok w i r t0 -> rd_ok w i r t0 rd -> releasing (r_phase r) = false ->
  (evidence = true -> evidence_read (facts_of i (rd_got rd)) (r_loop r)) ->
  belief_kept (facts_of i (rd_got rd)) evidence (fence i (now w)) (r_loop r) ->
  (exists u, evidence_blind evidence (r_loop r) <= fence i u /\ held w i u) /\
  r_check r - SELF_FENCE_AFTER <= evidence_blind evidence (r_loop r).
Proof.
  intros R Hro Hrd Hnr Hev [Hus Hk]. destruct (facts_us _ _ Hus) as (l & Hl & Hh). unfold evidence_blind.
  destruct evidence; [|destruct Hk as [Hb|[? _]]; [|done]; split; [by apply (ro_belief _ _ _ R)|by apply (ro_fenced _ _ _ R)]].
  destruct (Hev eq_refl) as (_ & Hm & led & Hu). rewrite Hu.
  destruct (rd_moved _ _ _ _ _ Hrd Hm led Hu) as [Hled _]. pose proof (rd_held _ _ _ _ _ Hrd l Hl Hh) as Hheld.
  destruct (believes (l_standing (r_loop r))) eqn:Hb.
  - destruct Hheld as [Hheld|[? _]]; [|done]. destruct (ro_belief _ _ _ R Hb Hnr) as (u & Hbl & Hu').
    pose proof (ro_fenced _ _ _ R Hb). split; [|lia]. exists (Z.max u (rd_auth rd)). split; [|by apply held_max].
    pose proof (fence_mono i u (Z.max u (rd_auth rd)) ltac:(lia)). pose proof (fence_mono i (rd_auth rd) (Z.max u (rd_auth rd)) ltac:(lia)). lia.
  - destruct Hk as [?|[_ Hf]]; [done|]. destruct (fresh_evidence w i r led R Hu (Hf led Hu)) as [F1 F2].
    destruct Hheld as [Hheld|[_ Hd]]; [|specialize (Hd Hm led Hu); cbv beta in Hd; lia]. destruct Hro as (_ & _ & _ & Hro).
    destruct (Hro led Hu) as [H1 H2]. destruct (ro_ledger _ _ _ R led Hu) as (_ & _ & _ & _ & [Hx|Hx]); [|lia].
    split; [|lia]. exists (rd_auth rd). split; [lia|done].
Qed.

(** A release that is still pending keeps belief down through such a round. *)
Lemma pending_belief w i r t0 rd evidence m :
  rep_ok w i r -> rd_ok w i r t0 rd -> read_of (r_phase r) = Some rd -> in_round (r_phase r) = true -> release_pending w m r ->
  (evidence = true -> evidence_read (facts_of i (rd_got rd)) (r_loop r)) ->
  belief_kept (facts_of i (rd_got rd)) evidence (fence i (now w)) (r_loop r) -> False.
Proof.
  intros R Hrd Hr Hin [P1 P2 P3 P4] Hev [Hus [Hb|[-> Hf]]]; [congruence|]. destruct (Hev eq_refl) as (_ & Hm & led & Hu).
  destruct (rd_moved _ _ _ _ _ Hrd Hm led Hu) as [_ Hlt]. rewrite (P3 rd Hr) in Hlt. destruct (P4 led Hu Hlt) as (H1 & _ & H2).
  destruct (fresh_evidence w i r led R Hu (Hf led Hu)). specialize (H2 Hin). lia.
Qed.

(** The replica after a round whose read completed. *)
Lemma round_done_ok w i r t0 rd e (lo : Loop) :
  rep_ok w i r -> round_ok w i r t0 -> rd_ok w i r t0 rd -> read_of (r_phase r) = Some rd ->
  holder_id e = i -> steal_after e = STEAL_AFTER -> (forall o, observed e = Some o -> obs_ok w i o) ->
  agree lo -> l_blind lo <= r_check r ->
  (l_baseline lo = ContentBaseline.NoCompletedRead \/ l_baseline lo = read_baseline (facts_of i (rd_got rd))) ->
  (forall led, l_unconfirmed lo = Some led ->
     led = r_check r \/
     l_unconfirmed (r_loop r) = Some led /\ (l_blind lo = l_blind (r_loop r) \/ l_blind lo = r_check r)) ->
  (believes (l_standing lo) = true ->
     (exists u, l_blind lo <= fence i u /\ held w i u) /\ r_check r - SELF_FENCE_AFTER <= l_blind lo /\
     forall m, ~ release_pending w m r) ->
  rep_ok w i (round_done rd e lo r).
Proof.
  intros R Hro Hrd Hr He1 He2 Hobs Hag Hbl Hbase Hled Hbel. pose proof (ro_clock _ _ _ R) as Hc. pose proof Hro as (Ht0 & Ht & Hnx & Har).
  destruct (rd_times _ _ _ _ _ Hrd) as [Hat Hat']. pose proof (fence_mono i _ _ Hat) as Hf.
  split; try done.
  - apply (ro_id _ _ _ R).
  - cbn. lia.
  - intros led Hu. cbn in Hu |- *. destruct (Hled led Hu) as [->|[Hu' Hb]]; [lia|].
    destruct (ro_ledger _ _ _ R led Hu') as (H1 & H2 & H3 & H4 & H5). destruct (Har led Hu') as [H6 H7]. destruct Hb as [Hb|Hb]; lia.
  - intros Hb. by apply Hbel.
  - intros Hb _. by apply Hbel.
  - split; cbn; [lia|]. destruct Hbase as [->| ->]; [done|]. pose proof (rd_current _ _ _ _ _ Hrd) as Hcur. unfold same_renew in Hcur.
    destruct (rd_got rd) as [l|] eqn:Hg; cbn in *; (split; [apply (rd_ver_le _ _ _ _ _ Hrd)|]); (split; [apply (rd_passed _ _ _ _ _ Hrd)|]); intros E;
      specialize (Hcur E); destruct (srv_get (srv w)) as [c|]; try done. exists c. by simplify_eq/=.
  - intros m Hm Ho Hrl Hl. pose proof (ro_releases _ _ _ R m Hm Ho Hrl Hl) as P. split; cbn; try done.
    + destruct (believes (l_standing lo)) eqn:E; [|done]. exfalso. by apply (proj2 (proj2 (Hbel eq_refl)) m).
    + intros led Hu Hlt. cbn in *. rewrite (rp_read _ _ _ P rd Hr) in Hlt. lia.
Qed.

(** ** The decision on a read *)

Definition decided (e : LeaderElection) (l : Lease) (sent : Z) (d : Decision.Decision) : Prop :=
  match d with
  | Decision.Renew => lease_holder l = Some (holder_id e)
  | Decision.Steal =>
      lease_holder l = None \/ lease_holder l = Some ""%string \/
      exists o, observed e = Some o /\ content l = (Some (ob_holder o), ob_renew_time o) /\ steal_after e < sent - ob_at o
  | Decision.Standby => True
  end.

Lemma holder_kind_us h id : holder_kind h id = HolderKind.Us -> h = Some id.
Proof. destruct h as [h|]; [|done]. cbn. destruct (bool_decide (h = ""%string)), (bool_decide (h = id)) eqn:E; try done. apply bool_decide_eq_true in E. by subst. Qed.

Lemma holder_kind_empty h id : holder_kind h id = HolderKind.Empty -> h = None \/ h = Some ""%string.
Proof. destruct h as [h|]; [|by left]. cbn. destruct (bool_decide (h = ""%string)) eqn:E, (bool_decide (h = id)); try done; apply bool_decide_eq_true in E; subst; by right. Qed.

Lemma holder_kind_other h id : holder_kind h id = HolderKind.Other -> exists o, h = Some o.
Proof. destruct h as [h|]; [|done]. by exists h. Qed.

Lemma matched_age_some h rt ob sent a :
  matched_age h rt ob sent = Some a ->
  exists o, ob = Some o /\ h = Some (ob_holder o) /\ ob_renew_time o = rt /\ a = as_millis (duration_since sent (ob_at o)).
Proof.
  unfold matched_age. destruct ob as [o|]; [|done]. destruct (bool_decide (h = _)) eqn:E1; [|done].
  destruct (bool_decide (_ = rt)) eqn:E2; [|done]. apply bool_decide_eq_true in E1, E2. intros [= <-]. by exists o.
Qed.

Lemma age_past d sent at_ : 0 <= d -> as_millis d < as_millis (duration_since sent at_) -> d < sent - at_.
Proof.
  intros Hd Hlt. unfold as_millis, duration_since in *. destruct (Z.le_gt_cases (Z.max 0 (sent - at_)) d) as [Hle|Hgt]; [|lia].
  apply (Z.div_le_mono _ _ 1000000) in Hle; lia.
Qed.

(** The observation record after a decision: kept, dropped, or started now. *)
Lemma fetch_and_decide_spec e got sent conf o e' :
  fetch_and_decide e got sent conf = (o, e') -> 0 <= steal_after e ->
  holder_id e' = holder_id e /\ steal_after e' = steal_after e /\
  fetch_facts e' o = facts_of (holder_id e) got /\
  match got with
  | None => o = FetchOutcome.Create
  | Some l => exists d, o = FetchOutcome.Decided d l /\ decided e l sent d
  end /\
  (forall ob, observed e' = Some ob -> observed e = Some ob \/
     exists l, got = Some l /\ content l = (Some (ob_holder ob), ob_renew_time ob) /\ ob_at ob = conf).
Proof.
  unfold fetch_and_decide, decide. destruct got as [l|]; [|intros [= <- <-] _; cbn; by eauto 10].
  destruct (holder_kind (lease_holder l) (holder_id e)) eqn:Hk; cbn [decide_pure].
  - intros [= <- <-] _. cbn. do 3 (split; [done|]). split; [|done]. eexists. split; [done|]. apply holder_kind_empty in Hk as [?|?]; cbn; auto.
  - intros [= <- <-] _. cbn. do 3 (split; [done|]). split; [|by auto]. eexists. split; [done|]. by apply holder_kind_us in Hk.
  - apply holder_kind_other in Hk as [h Hh]. destruct (matched_age _ _ _ _) as [a|] eqn:Hm.
    + apply matched_age_some in Hm as (ob & Hob & Hho & Hrt & ->). destruct (_ <? _) eqn:Hlt; intros [= <- <-] Hs; cbn;
        (do 3 (split; [done|])); (split; [|by auto]); (eexists; split; [done|]); [|done].
      right. right. exists ob. split; [done|]. split; [by unfold content; rewrite Hho, Hrt|]. apply Z.ltb_lt in Hlt. by apply age_past.
    + intros [= <- <-] _. cbn. do 3 (split; [done|]). split; [by exists Decision.Standby|]. intros ob [= <-]. right. exists l. unfold content. cbn. by rewrite Hh.
Qed.

Lemma decided_obs_ok w i r t0 rd e o :
  world_ok w -> rep_ok w i r -> rd_ok w i r t0 rd -> fetch_and_decide (r_election r) (rd_got rd) (mono i t0) (mono i (now w)) = (o, e) ->
  forall ob, observed e = Some ob -> obs_ok w i ob.
Proof.
  intros (_ & Ha & _) R Hrd Hf ob Hob. destruct (ro_election _ _ _ R) as [_ Hs].
  destruct (fetch_and_decide_spec _ _ _ _ _ _ Hf) as (_ & _ & _ & _ & Ho); [by rewrite Hs|].
  destruct (Ho ob Hob) as [?|(l & Hl & Hc & Hat)]; [by apply (ro_obs _ _ _ R)|].
  split; [rewrite <- Hc; by apply (rd_written _ _ _ _ _ Hrd)|]. exists (now w). split; [done|]. split; [lia|]. by intros.
Qed.

(** The request sent on a decision. *)
Lemma sent_ok w i r t0 rd e o stamp q on_ok stole :
  rep_ok w i r -> round_ok w i r t0 -> rd_ok w i r t0 rd ->
  fetch_and_decide (r_election r) (rd_got rd) (mono i t0) (mono i (now w)) = (o, e) -> act e stamp o = ActSend q on_ok stole ->
  outcome_of o (rd_got rd) /\ act_cell on_ok = ActCell.Leading /\ msg_ok w (mkMsg i q false (r_check r)).
Proof.
  intros R (Ht0 & _) Hrd Hf Hact. destruct (ro_election _ _ _ R) as [Hid Hs].
  destruct (fetch_and_decide_spec _ _ _ _ _ _ Hf) as (He & _ & _ & Ho & _); [by rewrite Hs|]. rewrite Hid in He. unfold outcome_of.
  pose proof (rd_known _ _ _ _ _ Hrd) as Hk. destruct (rd_got rd) as [l|].
  - destruct Ho as (d & -> & Hd). destruct (Hk l eq_refl) as [Hu Hsame]. destruct d; cbn in Hact; [..|done]; injection Hact as <- <- <-.
    + split; [by eauto|]. split; [done|]. cbn in Hd. rewrite Hid in Hd. split; [done|]. cbn. split.
      * unfold lease_holder in *. cbn. by destruct (spec l).
      * intros c Hc Hv. rewrite (Hsame c Hc Hv). by left.
    + split; [by eauto|]. split; [done|]. split; [done|]. cbn. split; [by rewrite He|]. intros c Hc Hv. rewrite (Hsame c Hc Hv).
      destruct Hd as [?|[?|(ob & Hob & Hcon & Hage)]]; [by right; left|by right; right; left|]. right. right. right.
      destruct (ro_obs _ _ _ R ob Hob) as (_ & t & Hat & Hn & Hau). specialize (Hau c Hc). rewrite (Hsame c Hc Hv) in Hau.
      specialize (Hau Hcon). rewrite Hs, Hat in Hage. unfold late.
      destruct (Z.le_gt_cases t t0) as [Hle|Hgt]; [pose proof (mono_fast i _ _ Hle); lia|].
      pose proof (mono_mono i t0 t ltac:(lia)). unfold STEAL_AFTER, SECOND in *. lia.
  - subst o. cbn in Hact. injection Hact as <- <- <-. split; [done|]. split; [done|]. split; [done|]. cbn. by rewrite He.
Qed.

(** ** The steps of a replica *)

Lemma tick_ok w i r branch (lo : Loop) :
  world_ok w -> rep_ok w i r -> r_phase r = Idle -> r_next r <= fence i (now w) ->
  tick_top (fence i (now w)) (fence i (now w)) (r_loop r) = (branch, lo) ->
  rep_ok w i
    (mkReplica lo (r_election r)
       (match branch with ServeStepDown => RelGet | RenewRound round _ => Fetching round (now w) end)
       (fence i (now w)) (fence i (now w) + spacing) (r_base r) (r_base_at r)).
Proof.
  intros Hw R Hp Hn Ht. pose proof (ro_clock _ _ _ R) as Hc. pose proof (tick_top_agree (fence i (now w)) (fence i (now w)) (r_loop r) (ro_agree _ _ _ R)) as Ha.
  rewrite Ht in Ha. destruct Ha as [Ha Hs]. destruct (tick_top_frame _ _ _ _ _ Ht) as (Eb & Eu & Ebl & Hb).
  pose proof spacing_law as Hsp. unfold SELF_FENCE_AFTER, RENEW_INTERVAL, SECOND in Hsp.
  assert (Har : forall led, l_unconfirmed lo = Some led -> led + spacing <= fence i (now w) /\ l_blind lo + spacing <= fence i (now w) /\ led <= fence i (r_base_at r) /\ (l_blind lo <= led \/ led + spacing <= l_blind lo)).
  { intros led Hu. rewrite Eu in Hu. rewrite Eb. destruct (ro_ledger _ _ _ R led Hu) as (H1 & H2 & H3 & H4 & H5). lia. }
  split.
  - apply (ro_id _ _ _ R).
  - done.
  - apply (ro_election _ _ _ R).
  - cbn. unfold RENEW_INTERVAL, SECOND. lia.
  - intros led Hu. destruct (Har led Hu) as (? & ? & ? & ?). cbn. lia.
  - intros Hbel. cbn in *. destruct (Hb Hbel). lia.
  - intros Hbel _. cbn in *. rewrite Eb. destruct (Hb Hbel). apply (ro_belief _ _ _ R); [done|by rewrite Hp].
  - apply (ro_obs _ _ _ R).
  - pose proof (ro_base _ _ _ R) as Hbase. unfold base_ok in *. cbn. by rewrite Ebl.
  - unfold phase_ok. destruct branch; cbn; unfold round_ok, armed; cbn.
    + split; [done|]. split; [|by split; [apply Hs|]]. intros led Hu. by destruct (Har led Hu).
    + split; [lia|]. do 2 (split; [done|]). intros led Hu. destruct (Har led Hu) as (? & ? & _). done.
  - intros m Hm Ho Hr Hl. destruct (ro_releases _ _ _ R m Hm Ho Hr Hl) as [P1 P2 P3 P4].
    assert (Hf : believes (l_standing lo) = false) by (destruct (believes (l_standing lo)); [destruct (Hb eq_refl); congruence|done]).
    destruct branch as [|round a]; [by rewrite Hs in Hf|]. split; cbn; try done.
    intros led Hu Hlt. cbn in *. rewrite Eu in Hu. destruct (P4 led Hu Hlt) as (? & ? & _). lia.
Qed.

Lemma read_ok w i r round t0 :
  world_ok w -> rep_ok w i r -> r_phase r = Fetching round t0 ->
  rep_ok w i (to_phase (Fetched round t0 (mkReadAt (srv_get (srv w)) (ver w) (auth w) (now w))) (r_loop r) r).
Proof.
  intros (Hz & Ha & Hw) R Hp. pose proof (ro_phase _ _ _ R) as Hph. unfold phase_ok in Hph. rewrite Hp in Hph.
  apply rep_phase; try done; [apply (ro_agree _ _ _ R)|by rewrite Hp|..].
  - split; [done|]. split; cbn; try done.
    + split; [apply Hph|done].
    + lia.
    + intros l Hl. split; [by apply get_used|]. intros c Hc _. congruence.
    + intros Hm led Hu. unfold moved in Hm. cbn in Hm, Hu. pose proof (ro_base _ _ _ R) as [_ Hb].
      destruct (ro_ledger _ _ _ R led Hu) as (_ & Hled & _).
      assert (Hlt : (r_base r < ver w)%nat /\ r_base_at r <= auth w).
      { unfold content_cell in Hm. destruct (l_baseline (r_loop r)) as [| |rt]; [by destruct (srv_get (srv w))|..].
        all: destruct Hb as (Hle & Hlt & Heq); assert (r_base r <> ver w) as Hne; [|split; [lia|apply Hlt; lia]].
        - intros E. by rewrite (Heq E) in Hm.
        - intros E. destruct (Heq E) as (c & Hc & <-). rewrite Hc in Hm. cbn in Hm. by rewrite bool_decide_eq_true_2 in Hm. }
      destruct Hlt as [Hlt Hat]. split; [|done]. pose proof (fence_mono i _ _ Hat). lia.
    + intros l Hl Hh. left. left. split; [|lia]. unfold cur_holder. by rewrite Hl.
  - intros m Hm Ho Hr Hl. destruct (ro_releases _ _ _ R m Hm Ho Hr Hl) as [P1 P2 P3 P4]. split; cbn; try done.
    + by intros rd [= <-].
    + rewrite Hp in P4. exact P4.
Qed.

Lemma fetch_failed_ok w i r :
  rep_ok w i r -> releasing (r_phase r) = false -> rep_ok w i (to_phase Idle (fetch_failed (fence i (now w)) (r_loop r)) r).
Proof.
  intros R Hp. unfold fetch_failed. destruct (maybe_self_fence_frame (blind_for (r_loop r) (fence i (now w))) (r_loop r)) as (F1 & F2 & F3 & F4 & _).
  apply rep_idle; try done; [apply maybe_self_fence_agree, (ro_agree _ _ _ R)|]. rewrite F1. by intros [? _]%andb_true_iff.
Qed.

Lemma step_down_done_ok w i r outcome :
  rep_ok w i r -> believes (l_standing (r_loop r)) = true -> rep_ok w i (to_phase Idle (step_down_done outcome (r_loop r)) r).
Proof.
  intros R Hb. destruct (step_down_done_agree outcome (r_loop r) (ro_agree _ _ _ R) Hb) as [Ha Hf]. apply rep_idle; try done.
  by rewrite Hf.
Qed.

(** A round that was answered other than by a refusal. *)
Lemma resolved_ok w i r round t0 rd res facts e (lo : Loop) :
  rep_ok w i r -> round_ok w i r t0 -> rd_ok w i r t0 rd -> read_of (r_phase r) = Some rd ->
  holder_id e = i -> steal_after e = STEAL_AFTER -> (forall ob, observed e = Some ob -> obs_ok w i ob) ->
  facts = facts_of i (rd_got rd) ->
  completed res facts (fence i t0) round (fence i (now w)) (mono i (now w)) (r_loop r) = Some lo ->
  act_cell res <> ActCell.Conflict ->
  (act_cell res = ActCell.Leading -> served_write (r_phase r) = true /\ exists t, t0 <= t /\ held w i t) ->
  rep_ok w i (round_done rd e lo r).
Proof.
  intros R Hro Hrd Hr He1 He2 Hobs -> Hc Hn Hlead.
  destruct (completed_answered _ _ _ _ _ _ _ _ (ro_agree _ _ _ R) Hc Hn) as (Ha & Hu & Hbl & Hba & Hb).
  pose proof (ro_clock _ _ _ R) as Hclk. pose proof Hro as (_ & Ht & _).
  eapply round_done_ok; try done; [lia|by rewrite Hu|]. intros Hbel. destruct (Hlead (Hb Hbel)) as (Hsv & t & Htt & Hh).
  split; [|split; [unfold SELF_FENCE_AFTER, SECOND; lia|]].
  - exists t. split; [|done]. pose proof (fence_mono i _ _ Htt). lia.
  - intros m' [_ P _ _]. congruence.
Qed.

(** A round that ended without an answer that settles it: what its read left. *)
Lemma unsettled_ok w i r t0 rd e evidence (lo : Loop) :
  rep_ok w i r -> round_ok w i r t0 -> rd_ok w i r t0 rd -> read_of (r_phase r) = Some rd ->
  holder_id e = i -> steal_after e = STEAL_AFTER -> (forall ob, observed e = Some ob -> obs_ok w i ob) ->
  agree lo -> (evidence = true -> evidence_read (facts_of i (rd_got rd)) (r_loop r)) ->
  (l_unconfirmed lo = (if evidence then None else l_unconfirmed (r_loop r)) \/ l_unconfirmed lo = Some (fence i t0)) ->
  (l_blind lo = evidence_blind evidence (r_loop r) \/
   believes (l_standing lo) = false /\ l_blind lo = Z.max (evidence_blind evidence (r_loop r)) (fence i t0)) ->
  l_baseline lo = read_baseline (facts_of i (rd_got rd)) ->
  (believes (l_standing lo) = true -> belief_kept (facts_of i (rd_got rd)) evidence (fence i (now w)) (r_loop r)) ->
  rep_ok w i (round_done rd e lo r).
Proof.
  intros R Hro Hrd Hr He1 He2 Hobs Ha Hev Hu Hbl Hba Hb.
  assert (Hin : in_round (r_phase r) = true /\ releasing (r_phase r) = false) by (by destruct (r_phase r)). destruct Hin as [Hin Hnr].
  pose proof (ro_clock _ _ _ R) as Hclk. pose proof Hro as (_ & Ht & _ & Har).
  assert (Heb : evidence_blind evidence (r_loop r) <= r_check r).
  { unfold evidence_blind. destruct evidence; [|lia]. destruct (l_unconfirmed (r_loop r)) as [led|] eqn:El; [|lia].
    destruct (ro_ledger _ _ _ R led El). lia. }
  eapply round_done_ok; try done; [lia|by right|..].
  - intros led Hl. rewrite Ht. destruct Hu as [Hu|Hu]; [|left; congruence]. right. destruct evidence; [congruence|]. rewrite Hl in Hu.
    split; [done|]. cbn in Hbl. destruct Hbl as [Hbl|[_ Hbl]]; [by left|right; lia].
  - intros Hbel. destruct Hbl as [Hbl|[? _]]; [|congruence]. rewrite Hbl.
    destruct (kept_belief w i r t0 rd evidence) as [H1 H2]; auto. split; [done|]. split; [done|]. intros m P.
    eapply pending_belief; eauto.
Qed.

Lemma outcome_facts i e o got : outcome_of o got -> holder_id e = i -> fetch_facts e o = facts_of i got.
Proof. intros Ho <-. destruct got as [l|]; cbn in Ho; [|by subst]. by destruct Ho as (d & -> & _). Qed.

Lemma answered_ok w i r round t0 rd o on_ok stole m applied a res e (lo : Loop) :
  rep_ok w i r -> r_phase r = Acting round t0 rd o on_ok stole m applied ->
  match a with Applied => applied <> None | Refused => applied = None | Failed => False end ->
  act_answered (r_election r) on_ok stole a = (Some res, e) ->
  completed res (fetch_facts e o) (fence i t0) round (fence i (now w)) (mono i (now w)) (r_loop r) = Some lo ->
  rep_ok w i (round_done rd e lo r).
Proof.
  intros R Hp Hap Hans Hc. pose proof (ro_phase _ _ _ R) as Hph. unfold phase_ok in Hph. rewrite Hp in Hph.
  destruct Hph as (Hro & Hrd & Hoc & Hok & _ & _ & Happ). destruct (ro_election _ _ _ R) as [He1 He2].
  assert (He : holder_id e = i /\ steal_after e = STEAL_AFTER /\ forall ob, observed e = Some ob -> observed (r_election r) = Some ob)
    by (destruct a, stole; simplify_eq/=; done).
  destruct He as (He3 & He4 & Hobs). rewrite (outcome_facts i e o (rd_got rd)) in Hc; [|done|done].
  destruct a; [| |done]; simplify_eq/=.
  - eapply resolved_ok; try done; [by rewrite Hp|intros ob ?; by apply (ro_obs _ _ _ R), Hobs|congruence|]. intros _.
    destruct applied as [t|]; [|done]. rewrite Hp. split; [done|]. by exists t.
  - destruct (completed_refused _ _ _ _ _ _ _ (ro_agree _ _ _ R) Hc) as (ev & Ha & Hev & Hu & Hbl & Hba & Hb).
    eapply (unsettled_ok _ _ _ _ _ _ ev); try done; [by rewrite Hp|intros ob ?; by apply (ro_obs _ _ _ R), Hobs|by left|].
    destruct (believes (l_standing lo)); auto.
Qed.

Lemma act_failed_ok w i r round t0 rd o on_ok stole m applied e (lo : Loop) :
  rep_ok w i r -> r_phase r = Acting round t0 rd o on_ok stole m applied ->
  act_answered (r_election r) on_ok stole Failed = (None, e) ->
  act_failed (fetch_facts e o) (mutating o) (fence i t0) (fence i (now w)) (fence i (now w)) (mono i (now w)) (r_loop r) = Some lo ->
  rep_ok w i (round_done rd e lo r).
Proof.
  intros R Hp [= <-] Hc. pose proof (ro_phase _ _ _ R) as Hph. unfold phase_ok in Hph. rewrite Hp in Hph.
  destruct Hph as (Hro & Hrd & Hoc & _). destruct (ro_election _ _ _ R) as [He1 He2].
  rewrite (outcome_facts i (r_election r) o (rd_got rd)) in Hc; [|done|done].
  destruct (act_failed_cases _ _ _ _ _ _ _ _ (ro_agree _ _ _ R) Hc) as (ev & Ha & Hev & Hu & Hbl & Hba & Hb).
  eapply (unsettled_ok _ _ _ _ _ _ ev); try done; [by rewrite Hp|apply (ro_obs _ _ _ R)|by left].
Qed.

Lemma stand_by_ok w i r round t0 rd stamp o e res (lo : Loop) :
  world_ok w -> rep_ok w i r -> r_phase r = Fetched round t0 rd ->
  fetch_and_decide (r_election r) (rd_got rd) (mono i t0) (mono i (now w)) = (o, e) -> act e stamp o = ActDone res ->
  completed res (fetch_facts e o) (fence i t0) round (fence i (now w)) (mono i (now w)) (r_loop r) = Some lo ->
  rep_ok w i (round_done rd e lo r).
Proof.
  intros Hw R Hp Hf Hact Hc. pose proof (ro_phase _ _ _ R) as Hph. unfold phase_ok in Hph. rewrite Hp in Hph. destruct Hph as [Hro Hrd].
  destruct (ro_election _ _ _ R) as [He1 He2]. destruct (fetch_and_decide_spec _ _ _ _ _ _ Hf) as (H1 & H2 & H3 & H4 & _); [by rewrite He2|].
  assert (res = ElectionResult.Standby) as ->.
  { destruct (rd_got rd); [destruct H4 as ([] & -> & _)|subst o]; cbn in Hact; congruence. }
  apply (resolved_ok w i r round t0 rd ElectionResult.Standby (fetch_facts e o)); try done; try congruence; [by rewrite Hp|by eapply decided_obs_ok].
Qed.

Lemma send_ok w i r round t0 rd stamp o e q on_ok stole :
  world_ok w -> rep_ok w i r -> r_phase r = Fetched round t0 rd ->
  fetch_and_decide (r_election r) (rd_got rd) (mono i t0) (mono i (now w)) = (o, e) -> act e stamp o = ActSend q on_ok stole ->
  rep_ok w i
    (mkReplica (r_loop r) e (Acting round t0 rd o on_ok stole (mkMsg i q false (r_check r)) None) (r_check r) (r_next r)
       (r_base r) (r_base_at r)).
Proof.
  intros Hw R Hp Hf Hact. pose proof (ro_phase _ _ _ R) as Hph. unfold phase_ok in Hph. rewrite Hp in Hph. destruct Hph as [Hro Hrd].
  destruct (ro_election _ _ _ R) as [He1 He2]. destruct (fetch_and_decide_spec _ _ _ _ _ _ Hf) as (H1 & H2 & _); [by rewrite He2|].
  destruct (sent_ok _ _ _ _ _ _ _ _ _ _ _ R Hro Hrd Hf Hact) as (Ho & Hok & Hm).
  pose proof R as [R1 R2 R3 R4 R5 R6 R7 R8 R9 R10 R11]. split; try done.
  - cbn. split; congruence.
  - intros Hb _. apply R7; [done|by rewrite Hp].
  - by eapply decided_obs_ok.
  - split; [done|]. split; [by apply (rd_transfer w i r)|done].
  - intros m1 Hm1 Ho1 Hr1 Hl1. destruct (R11 m1 Hm1 Ho1 Hr1 Hl1) as [P1 P2 P3 P4]. rewrite Hp in *. by split.
Qed.

Lemma release_read_ok w e got b :
  step_down_read e got = inr b -> known w got -> msg_ok w (mkMsg (holder_id e) (Put b) true (0)).
Proof.
  unfold step_down_read. destruct got as [l|]; [|done]. destruct (bool_decide _) eqn:E; [|done]. apply bool_decide_eq_true in E.
  intros [= <-] Hk. destruct (Hk l eq_refl) as [Hu Hs]. split; [done|]. cbn. split; [done|].
  intros c Hc Hv. rewrite (Hs c Hc Hv). split; [done|]. unfold lease_renew. cbn. by destruct (spec l).
Qed.

(** While a step-down is served no release of the replica is pending. *)
Lemma releasing_ok w i r p :
  rep_ok w i r -> releasing (r_phase r) = true -> releasing p = true ->
  (r_next r = r_check r + spacing -> armed r (fun led => led + spacing <= r_check r) -> believes (l_standing (r_loop r)) = true ->
   phase_ok w i (to_phase p (r_loop r) r)) ->
  rep_ok w i (to_phase p (r_loop r) r).
Proof.
  intros R Hr Hp Hph. pose proof (ro_phase _ _ _ R) as Hph0. unfold phase_ok in Hph0.
  assert (H : r_next r = r_check r + spacing /\ armed r (fun led => led + spacing <= r_check r) /\ believes (l_standing (r_loop r)) = true)
    by (destruct (r_phase r); try done; by destruct Hph0 as (? & ? & ? & ?)).
  destruct H as (H1 & H2 & H3). apply rep_phase; try done; [apply (ro_agree _ _ _ R)|congruence|by apply Hph|].
  intros m Hm Ho Hrl Hl. destruct (ro_releases _ _ _ R m Hm Ho Hrl Hl) as [P1 _ _ _]. congruence.
Qed.

Lemma fresh_ok w i gen : world_ok w -> i <> ""%string -> rep_ok w i (fresh_replica i gen (now w)).
Proof.
  intros (_ & Ha & _) Hi. split; try done; cbn; unfold RENEW_INTERVAL, SECOND; lia.
Qed.

Lemma consumer_ok w i r op :
  rep_ok w i r -> consumer_op op = true ->
  rep_ok w i (to_phase (r_phase r) (with_state (run_op op (l_state (r_loop r))) (r_loop r)) r).
Proof.
  intros R Hop. apply rep_phase; try done.
  - destruct (ro_agree _ _ _ R) as [Hh Hl]. split; [done|]. cbn. rewrite <- Hl. by destruct op.
  - pose proof (ro_phase _ _ _ R) as Hph. unfold phase_ok in *. cbn. destruct (r_phase r) eqn:E; try done.
    + destruct Hph as [? ?]. split; [done|]. by apply (rd_transfer w i r).
    + destruct Hph as (? & ? & ?). split; [done|]. split; [by apply (rd_transfer w i r)|done].
  - intros m Hm Ho Hr Hl. destruct (ro_releases _ _ _ R m Hm Ho Hr Hl) as [P1 P2 P3 P4]. by split.
Qed.

(** A replica that stopped believing, waiting for its next tick, tolerates the
    release it abandoned. *)
Lemma abandoned_release w i r m lo :
  rep_ok w i r -> m ∈ in_flight (r_phase r) -> release m = true -> believes (l_standing lo) = false ->
  l_unconfirmed lo = l_unconfirmed (r_loop r) -> release_pending w m (to_phase Idle lo r).
Proof.
  intros R Hm Hr Hb Hu. destruct (in_flight_ok _ _ _ _ R Hm) as (_ & _ & Hrel). destruct (Hrel Hr) as [Hp Ht].
  split; cbn; try done. intros led Hl _. cbn in Hl. rewrite Hu in Hl. rewrite Ht.
  pose proof (ro_phase _ _ _ R) as Hph. unfold phase_ok in Hph.
  destruct (r_phase r); try done; destruct Hph as (Hn & Har & _); specialize (Har led Hl); cbv beta in Har; (split; [done|split; [lia|done]]).
Qed.

Lemma releasing_believes w i r : rep_ok w i r -> releasing (r_phase r) = true -> believes (l_standing (r_loop r)) = true.
Proof.
  intros R Hr. pose proof (ro_phase _ _ _ R) as Hp. unfold phase_ok in Hp. destruct (r_phase r); try done; by destruct Hp as (_ & _ & ? & _).
Qed.

Lemma rep_abandon_none w i r : rep_ok w i r -> rep_ok (abandon [] w) i r.
Proof. intros R. apply rep_abandon; [done|]. intros m Hm. by apply elem_of_nil in Hm. Qed.

Lemma rstep_ok w i r r' zs :
  world_ok w -> rep_ok w i r -> rstep w i r r' zs ->
  rep_ok (abandon zs w) i r' /\ forall m, m ∈ zs -> msg_ok w m /\ owner m = i.
Proof.
  intros Hw R Hstep.
  assert (Hin : forall m, m ∈ in_flight (r_phase r) -> msg_ok w m /\ owner m = i)
    by (intros m Hm; by destruct (in_flight_ok _ _ _ _ R Hm) as (? & ? & _)).
  assert (Hnil : forall m, m ∈ @nil Msg -> msg_ok w m /\ owner m = i) by (intros m Hm; by apply elem_of_nil in Hm).
  destruct Hstep; (split; [|done]).
  - by apply rep_abandon_none, tick_ok.
  - by apply rep_abandon_none, read_ok.
  - apply rep_abandon_none, fetch_failed_ok; [done|]. by destruct H as [->|[? ->]].
  - eapply rep_abandon_none, stand_by_ok; done.
  - eapply rep_abandon_none, send_ok; done.
  - eapply rep_abandon_none, answered_ok; done.
  - apply rep_abandon; [by eapply act_failed_ok|]. intros m' Hm' _ Hr'.
    destruct (in_flight_ok _ _ _ _ R Hm') as (_ & _ & Hrel). destruct (Hrel Hr') as [Hc _]. by rewrite H in Hc.
  - apply rep_abandon_none, releasing_ok; try done; [by rewrite H|]. intros H1 H2 H3. do 3 (split; [done|]).
    intros l Hl. split; [by apply get_used|]. intros c Hc _. congruence.
  - apply rep_abandon_none, step_down_done_ok; [done|]. apply (releasing_believes w i r R). by rewrite H.
  - apply rep_abandon_none, releasing_ok; try done; [by rewrite H|]. intros H1 H2 H3. do 6 (split; [done|]). intros _.
    pose proof (ro_phase _ _ _ R) as Hp. unfold phase_ok in Hp. rewrite H in Hp. destruct Hp as (_ & _ & _ & Hk).
    destruct (ro_election _ _ _ R) as [Hid _]. rewrite <- Hid. by apply (release_read_ok w _ got).
  - apply rep_abandon_none, step_down_done_ok; [done|]. apply (releasing_believes w i r R). by rewrite H.
  - apply rep_abandon_none, releasing_ok; try done. by rewrite H.
  - pose proof (releasing_believes w i r R H) as Hb. apply rep_abandon; [by apply step_down_done_ok|].
    intros m Hm _ Hr _. apply (abandoned_release w i); try done. by apply step_down_done_agree; [apply (ro_agree _ _ _ R)|].
  - by apply rep_abandon_none, consumer_ok.
  - apply rep_abandon; [by apply fresh_ok, (ro_id _ _ _ R)|]. intros m Hm _ Hr _. by split.
Qed.

(** ** The invariant holds *)

Lemma rep_frame_others w rel w' (rs : gmap string Replica) :
  effect w rel w' -> world_ok w -> now w' = now w ->
  (forall i r, rs !! i = Some r -> rep_ok w i r -> release_license w i r rel) ->
  (forall i r, rs !! i = Some r -> rep_ok w i r) -> forall i r, rs !! i = Some r -> rep_ok w' i r.
Proof.
  intros He Hw Hn Hl Hr i r Hi. pose proof (Hr i r Hi) as R.
  eapply rep_frame; [done|done|by apply Hl| |done]. rewrite Hn. apply (ro_clock _ _ _ R).
Qed.

Lemma initial_inv s : initial s -> inv s.
Proof.
  intros (Hz & Ha & Hw & Hr). assert (W : world_ok (world s)).
  { split; [|done]. rewrite Hz. intros m Hm. by apply elem_of_nil in Hm. }
  split; [done|]. intros i r Hi. destruct (Hr i r Hi) as (Hne & gen & ->). by apply fresh_ok.
Qed.

Lemma cluster_step_inv s s' : inv s -> step s s' -> inv s'.
Proof.
  intros [W Hr] Hs. destruct Hs as [w rs i r r' zs Hi Hstep|w rs i r m w' Hi Hin Hc|w rs zs1 m zs2 w' Hz Hc|w rs s' Ht|w rs t Hn Hp]; cbn in *.
  - destruct (rstep_ok w i r r' zs W (Hr i r Hi) Hstep) as [R' Hzs]. split; cbn.
    + apply world_abandon; [done|]. intros m Hm. by apply Hzs.
    + intros j rj. destruct (base.decide (j = i)) as [->|Hne]; [rewrite lookup_insert_eq; by intros [= <-]|].
      rewrite lookup_insert_ne by done. intros Hj. apply rep_abandon; [by apply Hr|]. intros m Hm Ho. destruct (Hzs m Hm). congruence.
  - pose proof (Hr i r Hi) as R. destruct (in_flight_ok w i r m R) as (Hmo & Ho & Hrel); [rewrite Hin; by apply list_elem_of_singleton|].
    pose proof Hc as Hc'. rewrite <- (drop_none w) in Hc'. destruct (commits_effect _ _ _ _ Hc') as (Hnow & _ & He & _); [done|done|].
    split; cbn; [by eapply world_frame|]. intros j rj.
    destruct (base.decide (j = i)) as [->|Hne]; [rewrite lookup_insert_eq; intros [= <-]; by eapply served_ok|].
    rewrite lookup_insert_ne by done. intros Hj. eapply (rep_frame_others w _ w' (delete i rs)); try done.
    + intros k rk Hk _ E. apply lookup_delete_Some in Hk as [? _]. destruct (release m); simplify_eq.
    + intros k rk Hk. apply lookup_delete_Some in Hk as [_ Hk]. by apply Hr.
    + by rewrite lookup_delete_ne.
  - destruct W as (Hzm & W). assert (Hm : m ∈ zombies w) by (rewrite Hz; set_solver).
    destruct (commits_effect _ _ _ _ Hc) as (Hnow & Hl & He & _); [rewrite Hz; set_solver|by apply Hzm|].
    split; cbn; [by eapply world_frame|]. eapply rep_frame_others; try done. intros i r Hi R E. right. exists m.
    destruct (release m) eqn:Erel; [|done]. injection E as E. by apply (ro_releases _ _ _ R).
  - destruct (touch_law _ _ Ht) as (c & Hc & Hpub). assert (He := effect_touch w s' c Hc Hpub).
    split; cbn; [by eapply world_frame|]. eapply rep_frame_others; done.
  - assert (He := effect_time w t Hn). split; cbn; [by eapply world_frame|]. intros i r Hi.
    eapply rep_frame; [done|done|done| |by apply Hr]. by apply Hp.
Qed.

Lemma reachable_inv s : reachable s -> inv s.
Proof. intros (s0 & H0 & Hr). apply initial_inv in H0. induction Hr as [|s1 s2 s3 Hs _ IH]; [done|]. by apply IH, (cluster_step_inv s1). Qed.

(** C1: no two leaders.  Whatever replicas tick, read, write, time out, restart and
    serve step-downs in any order, with requests applied long after they were given
    up, foreign metadata writes, and clocks that drift within the budget the fence
    margin documents: a replica whose leader flag is up, unless it is just serving
    a step-down, is the holder the lease names, so that no two such replicas lead
    at once. *)
Theorem never_dual s i ri j rj :
  reachable s -> reps s !! i = Some ri -> reps s !! j = Some rj ->
  is_leader (l_state (r_loop ri)) = true -> releasing (r_phase ri) = false ->
  is_leader (l_state (r_loop rj)) = true -> releasing (r_phase rj) = false ->
  cur_holder (world s) = Some i /\ j = i.
Proof.
  intros Hr Hi Hj Li Pi Lj Pj. destruct (reachable_inv s Hr) as [_ R].
  pose proof (leader_holds _ _ _ (R i ri Hi) Li Pi) as Ei. pose proof (leader_holds _ _ _ (R j rj Hj) Lj Pj) as Ej.
  split; [done|]. congruence.
Qed.

End Safety.
