(* ===== verification/LeaseDual.v ===== *)
(** * Leader election: runs of the cluster

    A server kept in memory and clocks without drift, an executable form of the
    cluster's steps for them, and two runs: one leader holds the lease; a leader
    that serves a step-down still has its flag up when its successor takes over. *)

From S2P Require Import Prelude LeaseElection LeaseState LeaseRound LeaseCluster LeaseSafety.

(** ** A server and clocks *)

(** The resource version of the [n]-th write. *)
Fixpoint version (n : nat) : string := match n with O => ""%string | S n => String (Ascii.ascii_of_nat 118) (version n) end.

Lemma version_length n : String.length (version n) = n.
Proof. induction n as [|n IH]; [done|]. cbn [version String.length]. by rewrite IH. Qed.

Lemma version_inj n k : version n = version k -> n = k.
Proof. intros H. by rewrite <- (version_length n), H, version_length. Qed.

Record MemServer : Type := mkMem { object : option (option LeaseSpec); writes : nat }.

Definition mem_get (s : MemServer) : option Lease := option_map (mkLease (Some (version (writes s)))) (object s).

Definition mem_apply (s : MemServer) (q : Request) : option MemServer :=
  match q with
  | Post b => match object s with None => Some (mkMem (Some (spec b)) (S (writes s))) | Some _ => None end
  | Put b =>
      match object s with
      | Some _ =>
          if bool_decide (resource_version b = Some (version (writes s))) then Some (mkMem (Some (spec b)) (S (writes s))) else None
      | None => None
      end
  end.

#[export] Instance mem_server : LeaseServer := {
  server := MemServer;
  srv_get := mem_get;
  srv_used s v := exists k, (k <= writes s)%nat /\ v = version k;
  srv_apply s q s' := mem_apply s q = Some s';
  srv_touch s s' := exists o, object s = Some o /\ s' = mkMem (Some o) (S (writes s));
}.

Lemma mem_publishes (s : MemServer) sp : publishes (s : server) sp (mkMem (Some sp) (S (writes s))).
Proof.
  exists (version (S (writes s))). split; [done|]. split; [|split].
  - intros (k & Hk & Hv). apply version_inj in Hv. lia.
  - by exists (S (writes s)).
  - intros v (k & Hk & ->). exists k. cbn. split; [lia|done].
Qed.

#[export] Instance mem_server_laws : LeaseServerLaws.
Proof.
  split.
  - intros s l Hl. exists (version (writes s)). cbn in Hl. unfold mem_get in Hl. destruct (object s); [|done]. cbn in Hl.
    injection Hl as <-. split; [done|]. by exists (writes s).
  - intros s b s' v Hap Hv. cbn in Hap. destruct (object s) as [o|] eqn:E; [|done]. rewrite Hv in Hap.
    destruct (bool_decide _) eqn:Eb; [|done]. apply bool_decide_eq_true in Eb. injection Hap as <-. injection Eb as ->.
    split; [|apply mem_publishes]. exists (mkLease (Some (version (writes s))) o). cbn. unfold mem_get. by rewrite E.
  - intros s b s' Hap. cbn in Hap. destruct (object s) eqn:E; [done|]. injection Hap as <-.
    split; [cbn; unfold mem_get; by rewrite E|apply mem_publishes].
  - intros s s' (o & Ho & ->). exists (mkLease (Some (version (writes s))) o). cbn. unfold mem_get. rewrite Ho. split; [done|apply mem_publishes].
Qed.

#[export] Instance exact_clocks : Clocks := { fence _ t := t; mono _ t := t; skew := 0; spacing := RENEW_INTERVAL }.

#[export] Instance exact_clocks_laws : ClockLaws.
Proof. split; cbn; intros; unfold RENEW_INTERVAL, FENCE_MARGIN, SELF_FENCE_AFTER, SECOND in *; lia. Qed.

(** ** Executable steps *)

Inductive Command : Type :=
| Tick (i : string)
| ReadAnswer (i : string)
| Decide (i stamp : string)
| Serve (i : string)
| AnswerWrite (i : string)
| FailAct (i : string)
| ReleaseRead (i : string)
| ReleaseDecide (i : string)
| ApplyZombie
| Consumer (i : string) (op : LeaderOp)
| Elapse (t : Z).

Definition exec_replica (c : Command) (w : World) (i : string) (r : Replica) : option (Replica * list Msg) :=
  let nw := now w in
  match c, r_phase r with
  | Tick _, Idle =>
      if r_next r <=? fence i nw then
        let (branch, l) := tick_top (fence i nw) (fence i nw) (r_loop r) in
        Some (mkReplica l (r_election r)
                (match branch with ServeStepDown => RelGet | RenewRound round _ => Fetching round nw end)
                (fence i nw) (fence i nw + spacing) (r_base r) (r_base_at r), [])
      else None
  | ReadAnswer _, Fetching round t0 =>
      Some (to_phase (Fetched round t0 (mkReadAt (srv_get (srv w)) (ver w) (auth w) nw)) (r_loop r) r, [])
  | Decide _ stamp, Fetched round t0 rd =>
      let (o, e) := fetch_and_decide (r_election r) (rd_got rd) (mono i t0) (mono i nw) in
      match act e stamp o with
      | ActDone res =>
          l ← completed res (fetch_facts e o) (fence i t0) round (fence i nw) (mono i nw) (r_loop r);
          Some (round_done rd e l r, [])
      | ActSend q on_ok stole =>
          Some (mkReplica (r_loop r) e (Acting round t0 rd o on_ok stole (mkMsg i q false (r_check r)) None) (r_check r)
                  (r_next r) (r_base r) (r_base_at r), [])
      end
  | AnswerWrite _, Acting round t0 rd o on_ok stole m applied =>
      let (res, e) := act_answered (r_election r) on_ok stole (match applied with Some _ => Applied | None => Refused end) in
      res ← res; l ← completed res (fetch_facts e o) (fence i t0) round (fence i nw) (mono i nw) (r_loop r);
      Some (round_done rd e l r, [])
  | FailAct _, Acting round t0 rd o on_ok stole m applied =>
      l ← act_failed (fetch_facts (r_election r) o) (mutating o) (fence i t0) (fence i nw) (fence i nw) (mono i nw) (r_loop r);
      Some (round_done rd (r_election r) l r, in_flight (r_phase r))
  | ReleaseRead _, RelGet => Some (to_phase (RelGot (srv_get (srv w))) (r_loop r) r, [])
  | ReleaseDecide _, RelGot got =>
      match step_down_read (r_election r) got with
      | inl o => Some (to_phase Idle (step_down_done (Some (inl o)) (r_loop r)) r, [])
      | inr b => Some (to_phase (RelPut (mkMsg i (Put b) true (r_check r)) false) (r_loop r) r, [])
      end
  | Consumer _ op, _ =>
      if consumer_op op then Some (to_phase (r_phase r) (with_state (run_op op (l_state (r_loop r))) (r_loop r)) r, []) else None
  | _, _ => None
  end.

Definition exec_commit (m : Msg) (w : World) : option World :=
  match mem_apply (srv w) (req m) with
  | Some s' =>
      if negb (release m) && bool_decide (content (req_body (req m)) ∈ written w) then None
      else Some (mkWorld (now w) (s' : server) (if release m then ver w else S (ver w)) (if release m then auth w else now w)
                   (content (req_body (req m)) :: written w) (zombies w))
  | None => None
  end.

Definition command_of (c : Command) : option string :=
  match c with
  | Tick i | ReadAnswer i | Decide i _ | AnswerWrite i | FailAct i | ReleaseRead i | ReleaseDecide i | Consumer i _ => Some i
  | _ => None
  end.

Definition exec (c : Command) (s : State) : option State :=
  let w := world s in
  match c with
  | Serve i =>
      r ← reps s !! i;
      match in_flight (r_phase r) with
      | [m] => w' ← exec_commit m w; Some (mkState w' (<[i := to_phase (served (now w) (r_phase r)) (r_loop r) r]> (reps s)))
      | _ => None
      end
  | ApplyZombie =>
      match zombies w with
      | m :: zs => w' ← exec_commit m (drop_zombies zs w); Some (mkState w' (reps s))
      | [] => None
      end
  | Elapse t =>
      if (now w <=? t) && bool_decide (map_Forall (fun i r => fence i t <= r_check r + RENEW_INTERVAL) (reps s))
      then Some (mkState (mkWorld t (srv w) (ver w) (auth w) (written w) (zombies w)) (reps s)) else None
  | c =>
      i ← command_of c; r ← reps s !! i; '(r', zs) ← exec_replica c w i r;
      Some (mkState (abandon zs w) (<[i := r']> (reps s)))
  end.

Definition run (cs : list Command) (s : State) : option State := fold_left (fun s c => s ← s; exec c s) cs (Some s).

Lemma exec_commit_sound m w w' : exec_commit m w = Some w' -> commits w m w'.
Proof.
  unfold exec_commit. destruct (mem_apply (srv w) (req m)) as [s'|] eqn:E; [|done]. cbn.
  destruct (_ && _) eqn:Eb; [done|]. intros [= <-]. constructor; [done|]. intros Hr. rewrite Hr in Eb. cbn in Eb.
  by apply bool_decide_eq_false in Eb.
Qed.

#[local] Opaque exact_clocks mem_server.

Lemma exec_replica_sound c w i r r' zs : exec_replica c w i r = Some (r', zs) -> rstep w i r r' zs.
Proof.
  unfold exec_replica. destruct c; destruct (r_phase r) eqn:Hp; try done.
  all: try (destruct (consumer_op op) eqn:Hop; [|done]; intros [= <- <-]; rewrite <- Hp; by apply rstep_consumer).
  - destruct (Z.leb_spec (r_next r) (fence i (now w))); [|done]. destruct (tick_top _ _ _) as [branch l] eqn:Ht. intros [= <- <-].
    by apply (rstep_tick w i r branch l).
  - intros [= <- <-]. by apply rstep_read.
  - destruct (fetch_and_decide _ _ _ _) as [o e] eqn:Hf. destruct (act e stamp o) as [res|q on_ok stole] eqn:Hact.
    + destruct (completed _ _ _ _ _ _ _) as [l|] eqn:Hc; [|done]. intros [= <- <-]. by eapply rstep_stand_by.
    + intros [= <- <-]. by eapply rstep_send.
  - destruct (act_answered _ _ _ _) as [[res|] e] eqn:Ha; [|done]. cbn.
    destruct (completed _ _ _ _ _ _ _) as [l|] eqn:Hc; [|done]. intros [= <- <-].
    eapply (rstep_answered w i r _ _ _ _ _ _ _ _ _ res); [done| |done|done]. by destruct applied.
  - destruct (act_failed _ _ _ _ _ _ _) as [l|] eqn:Hc; [|done]. intros [= <- <-].
    pose proof (rstep_act_failed w i r _ _ _ _ _ _ _ _ _ l Hp eq_refl Hc) as X. by rewrite Hp in X.
  - intros [= <- <-]. by apply rstep_rel_read.
  - destruct (step_down_read _ _) eqn:Hs; intros [= <- <-]; [by eapply rstep_rel_not_ours|by eapply rstep_rel_send].
Qed.

Lemma exec_sound c s s' : exec c s = Some s' -> step s s'.
Proof.
  destruct s as [w rs]. unfold exec. cbn [world reps].
  assert (Hrep : forall i, (r ← rs !! i; '(r', zs) ← exec_replica c w i r; Some (mkState (abandon zs w) (<[i := r']> rs))) = Some s' -> step (mkState w rs) s').
  { intros i. destruct (rs !! i) as [r|] eqn:Hi; [|done]. cbn. destruct (exec_replica c w i r) as [[r' zs]|] eqn:He; [|done]. intros [= <-].
    apply (step_replica w rs i r); [done|by eapply exec_replica_sound]. }
  destruct c; cbn [command_of mbind option_bind]; try (apply Hrep).
  - destruct (rs !! i) as [r|] eqn:Hi; [|done]. cbn. destruct (in_flight (r_phase r)) as [|m [|]] eqn:Hin; try done.
    destruct (exec_commit m w) as [w'|] eqn:Hc; [|done]. intros [= <-]. eapply step_served; [done|done|]. by apply exec_commit_sound.
  - destruct (zombies w) as [|m zs] eqn:Hz; [done|]. destruct (exec_commit m _) as [w'|] eqn:Hc; [|done]. intros [= <-].
    apply (step_zombie w rs [] m zs); [done|]. by apply exec_commit_sound.
  - destruct (Z.leb_spec (now w) t); [|done]. cbn. destruct (bool_decide _) eqn:Eb; [|done]. apply bool_decide_eq_true in Eb.
    intros [= <-]. by apply step_time.
Qed.

Lemma run_sound cs s s' : run cs s = Some s' -> rtc step s s'.
Proof.
  revert s'. induction cs as [|c cs IH] using rev_ind; intros s'; [by intros [= <-]|].
  unfold run in *. rewrite fold_left_app. cbn. destruct (fold_left _ cs (Some s)) as [s1|] eqn:E; [|done]. cbn. intros Hc.
  eapply rtc_r; [by apply IH|]. by apply (exec_sound c).
Qed.

#[local] Transparent exact_clocks mem_server.

(** ** Two replicas *)

Definition two_fresh : State :=
  mkState (mkWorld 0 (mkMem None 0) 0 0 [] [])
    (<["a"%string := fresh_replica "a" 0 0]> (<["b"%string := fresh_replica "b" 0 0]> ∅)).

Lemma two_fresh_initial : initial two_fresh.
Proof.
  split; [done|]. split; [done|]. split; [done|]. intros i r. cbn.
  rewrite !lookup_insert_Some, lookup_empty. intros [[<- <-]|[_ [[<- <-]|[_ ?]]]]; [by eauto..|done].
Qed.

(** Replica [i] runs one round to its answer. *)
Definition full_round (i stamp : string) : list Command := [Tick i; ReadAnswer i; Decide i stamp; Serve i; AnswerWrite i].

Definition first_leader : list Command := full_round "a" "t0".

(** The leader is asked to step down and releases the lease; before the answer
    reaches it, the other replica acquires. *)
Definition handover : list Command :=
  first_leader ++ [Tick "b"; ReadAnswer "b"; Decide "b" "t1"; Consumer "a" (OpRequestStepDown 1); Elapse (5 * SECOND)] ++
  [Tick "a"; ReleaseRead "a"; ReleaseDecide "a"; Serve "a"] ++ full_round "b" "t2".

Definition flag_of (i : string) (s : State) : option (bool * bool) :=
  r ← reps s !! i; Some (is_leader (l_state (r_loop r)), releasing (r_phase r)).

Lemma flag_of_some i s f g :
  flag_of i s = Some (f, g) -> exists r, reps s !! i = Some r /\ is_leader (l_state (r_loop r)) = f /\ releasing (r_phase r) = g.
Proof. unfold flag_of. destruct (reps s !! i) as [r|]; [|done]. cbn. intros [= <- <-]. by exists r. Qed.

Lemma run_reachable cs s : run cs two_fresh = Some s -> reachable s.
Proof. intros Hr. exists two_fresh. split; [apply two_fresh_initial|by eapply run_sound]. Qed.

Definition outcome (cs : list Command) : option (option (bool * bool) * option (bool * bool) * option string) :=
  s ← run cs two_fresh; Some (flag_of "a" s, flag_of "b" s, cur_holder (world s)).

(** The first replica to create the lease leads, alone, and the lease names it. *)
Lemma never_dual_witness :
  exists s ri, reachable s /\ reps s !! "a"%string = Some ri /\ is_leader (l_state (r_loop ri)) = true /\
    cur_holder (world s) = Some "a"%string.
Proof.
  assert (Ho : outcome first_leader = Some (Some (true, false), Some (false, false), Some "a"%string)) by (vm_compute; reflexivity).
  unfold outcome in Ho. destruct (run first_leader two_fresh) as [s|] eqn:Hr; [|done]. apply run_reachable in Hr. cbn in Ho. injection Ho as Ha _ _.
  apply flag_of_some in Ha as (r & Hi & Hl & Hp). exists s, r. split; [exact Hr|]. split; [exact Hi|]. split; [exact Hl|].
  exact (proj1 (never_dual s "a" r "a" r Hr Hi Hi Hl Hp Hl Hp)).
Defined.

(** A run in which a served step-down has two leaders, so the condition of the
    safety theorem is needed.  The lease is released while the leader flag of the
    replica that serves the step-down is still up; when its successor takes the
    lease before the answer is back, both flags are up. *)
Example step_down_dual :
  exists s ri rj, reachable s /\ reps s !! "a"%string = Some ri /\ reps s !! "b"%string = Some rj /\
    is_leader (l_state (r_loop ri)) = true /\ is_leader (l_state (r_loop rj)) = true /\
    releasing (r_phase ri) = true /\ cur_holder (world s) = Some "b"%string.
Proof.
  assert (Ho : outcome handover = Some (Some (true, true), Some (true, false), Some "b"%string)) by (vm_compute; reflexivity).
  unfold outcome in Ho. destruct (run handover two_fresh) as [s|] eqn:Hr; [|done]. apply run_reachable in Hr. cbn in Ho. injection Ho as Ha Hb Hh.
  apply flag_of_some in Ha as (ra & Hia & Hla & Hpa), Hb as (rb & Hib & Hlb & Hpb).
  exists s, ra, rb. split; [exact Hr|]. repeat split; assumption.
Qed.
