(* ===== verification/StoreManifest.v ===== *)
(** * Store: the chunk manifest

    [src/rio-store/src/manifest.rs]: the byte layout of a path's chunk list, a
    version byte and then one 36-byte entry per chunk.  The limits it is derived
    from are those of [src/rio-common/src/limits.rs] and
    [src/rio-store/src/chunker.rs]. *)

From S2P Require Import Prelude NixBytes NixNar NixNarLs.

#[local] Open Scope Z_scope.

Definition MAX_NAR_SIZE : Z := 4 * 1024 * 1024 * 1024.
Definition FASTCDC_MIN_BYTES : Z := 16 * 1024.
Definition FASTCDC_MAX_BYTES : Z := 256 * 1024.
Definition CHUNK_MIN : Z := FASTCDC_MIN_BYTES.
Definition CHUNK_MAX : Z := FASTCDC_MAX_BYTES.

Record ManifestEntry : Type := mkManifestEntry {
  me_hash : bytes;
  me_size : Z;
}.

Module Manifest.

Definition VERSION : Z := 2.
Definition ENTRY_SIZE : nat := 36.
Definition MAX_CHUNKS : Z := MAX_NAR_SIZE / CHUNK_MIN + MAX_NAR_ENTRIES.

Inductive ManifestError : Type :=
  | Empty
  | UnknownVersion (version : Z)
  | BadLength (body_len : nat)
  | TooManyChunks (count : nat).

Definition entry_encode (e : ManifestEntry) : bytes := me_hash e ++ to_le_bytes 4 (me_size e).

Definition serialize (entries : list ManifestEntry) : bytes := VERSION :: flat_map entry_encode entries.

(** [chunks_exact]: [count] pieces of [size] bytes. *)
Fixpoint chunks_exact (count size : nat) (b : bytes) : list bytes :=
  match count with
  | 0%nat => []
  | S count => take size b :: chunks_exact count size (drop size b)
  end.

Definition entry_decode (chunk : bytes) : ManifestEntry :=
  mkManifestEntry (take 32 chunk) (from_le_bytes (take 4 (drop 32 chunk))).

Definition deserialize (data : bytes) : list ManifestEntry + ManifestError :=
  match data with
  | [] => inr Empty
  | version :: body =>
      if negb (version =? VERSION) then inr (UnknownVersion version)
      else if negb (Nat.eqb (length body mod ENTRY_SIZE) 0) then inr (BadLength (length body))
      else
        let count := (length body / ENTRY_SIZE)%nat in
        if MAX_CHUNKS <? Z.of_nat count then inr (TooManyChunks count)
        else inl (List.map entry_decode (chunks_exact count ENTRY_SIZE body))
  end.

(** A [u64] sum; [total_size_fits] below shows that it cannot wrap. *)
Definition total_size (entries : list ManifestEntry) : Z := fold_right (fun e n => me_size e + n) 0 entries.

(** ** The layout *)

(** A value of the Rust type: a 32-byte array and a [u32]. *)
Definition entry_ok (e : ManifestEntry) : Prop :=
  length (me_hash e) = 32%nat /\ bytes_ok (me_hash e) /\ 0 <= me_size e < 2 ^ 32.

(** The widths that the layout relies on. *)
Definition entry_fits (e : ManifestEntry) : Prop := length (me_hash e) = 32%nat /\ 0 <= me_size e < 2 ^ 32.

Lemma entry_ok_fits es : Forall entry_ok es -> Forall entry_fits es.
Proof. intros Ho. eapply Forall_impl; [exact Ho|]. by intros e (? & _ & ?). Qed.

Lemma entry_encode_length e : entry_fits e -> length (entry_encode e) = ENTRY_SIZE.
Proof. intros (H & _). unfold entry_encode. by rewrite length_app, H, to_le_length. Qed.

Lemma entry_encode_bytes e : entry_ok e -> bytes_ok (entry_encode e).
Proof. intros (_ & H & _). apply Forall_app. split; [done|apply to_le_ok]. Qed.

Lemma entry_decode_encode e : entry_fits e -> entry_decode (entry_encode e) = e.
Proof.
  intros (H & Hs). unfold entry_decode, entry_encode. rewrite <- H, take_app_length, drop_app_length.
  rewrite take_ge by (by rewrite to_le_length). rewrite from_to_le by (cbn; lia). by destruct e.
Qed.

Lemma entry_encode_decode c :
  bytes_ok c -> length c = ENTRY_SIZE -> entry_encode (entry_decode c) = c /\ entry_ok (entry_decode c).
Proof.
  intros Hb Hl. unfold ENTRY_SIZE in Hl. unfold entry_decode, entry_encode, entry_ok. cbn [me_hash me_size].
  assert (H4 : length (take 4 (drop 32 c)) = 4%nat) by (rewrite length_take, length_drop; lia).
  assert (Hb4 : bytes_ok (take 4 (drop 32 c))) by (by apply Forall_take, Forall_drop).
  pose proof (from_le_range _ Hb4) as Hr. rewrite H4 in Hr. split.
  - pose proof (to_from_le _ Hb4) as Ht. rewrite H4 in Ht. rewrite Ht, (take_ge (drop 32 c)) by (rewrite length_drop; lia).
    apply take_drop.
  - split_and!; [rewrite length_take; lia|by apply Forall_take|cbn in Hr; lia..].
Qed.

Lemma flat_map_length es :
  Forall entry_fits es -> length (flat_map entry_encode es) = (length es * ENTRY_SIZE)%nat.
Proof.
  induction 1 as [|e es He _ IH]; cbn [flat_map length]; [done|]. rewrite length_app, IH, entry_encode_length by done. lia.
Qed.

Lemma chunks_exact_encode es :
  Forall entry_fits es -> chunks_exact (length es) ENTRY_SIZE (flat_map entry_encode es) = List.map entry_encode es.
Proof.
  induction 1 as [|e es He _ IH]; cbn [flat_map chunks_exact List.map length]; [done|].
  rewrite <- (entry_encode_length e He) at 1 3. by rewrite take_app_length, drop_app_length, IH.
Qed.

Lemma decode_chunks count b :
  bytes_ok b -> length b = (count * ENTRY_SIZE)%nat ->
  let es := List.map entry_decode (chunks_exact count ENTRY_SIZE b) in
  flat_map entry_encode es = b /\ Forall entry_ok es /\ length es = count.
Proof.
  revert b. induction count as [|count IH]; intros b Hb Hl; cbn [chunks_exact List.map flat_map length].
  { destruct b; [|done]. by split_and!. }
  destruct (IH (drop ENTRY_SIZE b)) as (He & Ho & Hn); [by apply Forall_drop|rewrite length_drop; lia|].
  destruct (entry_encode_decode (take ENTRY_SIZE b)) as [Hc Hk]; [by apply Forall_take|rewrite length_take; lia|].
  rewrite He, Hc, take_drop. split_and!; [done|by constructor|by rewrite Hn].
Qed.

(** What [deserialize] answers, on every byte string. *)
Definition rejects (data : bytes) (e : ManifestError) : Prop :=
  match e with
  | Empty => data = []
  | UnknownVersion v => head data = Some v /\ v <> VERSION
  | BadLength n => head data = Some VERSION /\ length data = S n /\ (n mod ENTRY_SIZE)%nat <> 0%nat
  | TooManyChunks n => head data = Some VERSION /\ length data = S (n * ENTRY_SIZE) /\ MAX_CHUNKS < Z.of_nat n
  end.

Lemma deserialize_serialize es : Forall entry_fits es -> Z.of_nat (length es) <= MAX_CHUNKS -> deserialize (serialize es) = inl es.
Proof.
  intros Ho Hn. unfold deserialize, serialize. rewrite Z.eqb_refl. cbn [negb]. rewrite flat_map_length by done.
  rewrite Nat.Div0.mod_mul, Nat.div_mul by done. cbn [Nat.eqb negb].
  destruct (Z.ltb_spec MAX_CHUNKS (Z.of_nat (length es))); [lia|]. rewrite chunks_exact_encode by done.
  f_equal. rewrite List.map_map. apply list_eq_Forall2, Forall2_fmap_l, Forall_Forall2_diag.
  eapply Forall_impl; [exact Ho|]. apply entry_decode_encode.
Qed.

Lemma deserialize_inl data es :
  bytes_ok data ->
  deserialize data = inl es <-> Forall entry_ok es /\ data = serialize es /\ Z.of_nat (length es) <= MAX_CHUNKS.
Proof.
  intros Hb. unfold deserialize, serialize. split.
  - destruct data as [|v body]; [done|]. apply Forall_cons in Hb as [_ Hb].
    destruct (Z.eqb_spec v VERSION) as [->|]; [|done]. cbn [negb]. destruct (Nat.eqb_spec (length body mod ENTRY_SIZE) 0) as [Hm|]; [|done].
    cbn [negb]. destruct (Z.ltb_spec MAX_CHUNKS (Z.of_nat (length body / ENTRY_SIZE))) as [|Hc]; [done|]. intros Hes.
    destruct (decode_chunks (length body / ENTRY_SIZE) body Hb) as (He & Ho & Hn).
    { pose proof (Nat.div_mod_eq (length body) ENTRY_SIZE). lia. }
    assert (es = List.map entry_decode (chunks_exact (length body / ENTRY_SIZE) ENTRY_SIZE body)) as -> by congruence.
    rewrite He, Hn. by split_and!.
  - intros (Ho & -> & Hn). apply deserialize_serialize; [by apply entry_ok_fits|done].
Qed.

Lemma deserialize_inr data e : deserialize data = inr e <-> rejects data e.
Proof.
  unfold deserialize. destruct data as [|v body]; [destruct e; cbn; naive_solver|].
  destruct (Z.eqb_spec v VERSION) as [->|Hv]; cbn [negb]; [|destruct e; cbn; naive_solver].
  pose proof (Nat.div_mod_eq (length body) ENTRY_SIZE) as Hd.
  destruct (Nat.eqb_spec (length body mod ENTRY_SIZE) 0) as [Hm|Hm]; cbn [negb].
  - rewrite Hm, Nat.add_0_r in Hd. destruct (Z.ltb_spec MAX_CHUNKS (Z.of_nat (length body / ENTRY_SIZE))) as [Hc|Hc].
    + destruct e as [|v|n|n]; cbn [rejects head length]; [naive_solver..| |].
      * split; [done|]. intros (_ & [= <-] & Hn). done.
      * split; [intros H; assert (n = length body / ENTRY_SIZE)%nat as -> by congruence; split_and!; [done|lia|done]|]. intros (_ & [= Hl] & _). by rewrite Hl, Nat.div_mul.
    + destruct e as [|v|n|n]; cbn [rejects head length]; [naive_solver..| |].
      * split; [done|]. intros (_ & [= <-] & Hn). done.
      * split; [done|]. intros (_ & [= Hl] & Hn). rewrite Hl, Nat.div_mul in Hc by done. lia.
  - destruct e as [|v|n|n]; cbn [rejects head length]; [naive_solver..| |].
    + split; [intros [= <-]; done|]. by intros (_ & [= <-] & _).
    + split; [done|]. intros (_ & [= Hl] & _). by rewrite Hl, Nat.Div0.mod_mul in Hm.
Qed.

(** Every list of chunks within the cap has a sum that fits a [u64]. *)
Lemma total_size_fits es :
  Forall entry_ok es -> Z.of_nat (length es) <= MAX_CHUNKS -> 0 <= total_size es < 2 ^ 64.
Proof.
  intros Ho Hn. assert (H : 0 <= total_size es <= Z.of_nat (length es) * 2 ^ 32).
  { clear Hn. induction Ho as [|e es (_ & _ & He) _ IH]; cbn [total_size fold_right length]; [done|]. fold (total_size es). lia. }
  change MAX_CHUNKS with 1310720 in Hn. lia.
Qed.

(** the chunk manifest codec is exact: a byte string is accepted as a list
    of entries if and only if it is the serialization of that list and the list
    is within [MAX_CHUNKS]; every other byte string gets the error of its
    first defect in the order empty, version, length, count; and whatever is
    accepted has a total size that the [u64] sum does not wrap. *)
Theorem manifest_codec_exact data :
  bytes_ok data ->
  (forall es, deserialize data = inl es <->
     Forall entry_ok es /\ data = serialize es /\ Z.of_nat (length es) <= MAX_CHUNKS) /\
  (forall e, deserialize data = inr e <-> rejects data e) /\
  (forall es, deserialize data = inl es -> 0 <= total_size es < 2 ^ 64).
Proof.
  intros Hb. split; [intros es; by apply deserialize_inl|]. split; [apply deserialize_inr|].
  intros es (Ho & _ & Hn)%deserialize_inl; [|done]. by apply total_size_fits.
Qed.

Definition example_manifest : list ManifestEntry :=
  [mkManifestEntry (repeat 170 32) 65536; mkManifestEntry (repeat 187 32) 12345].

Lemma manifest_codec_exact_witness : deserialize (serialize example_manifest) = inl example_manifest.
Proof.
  apply (manifest_codec_exact (serialize example_manifest)).
  - apply Forall_forall. intros x Hx. assert (H : forallb (fun b => (0 <=? b) && (b <? 256)) (serialize example_manifest) = true)
      by (vm_compute; reflexivity).
    apply list_elem_of_In in Hx. rewrite forallb_forall in H. specialize (H x Hx). unfold byte_ok. lia.
  - split_and!; [|reflexivity|vm_compute; discriminate].
    repeat constructor; cbn; lia.
Defined.

End Manifest.
