(* ===== verification/StoreCastore.v ===== *)
(** * Store: the content-addressed directory tree

    [src/rio-proto/src/castore_util.rs] and the walk of
    [src/rio-store/src/castore_nar.rs]: directory bodies keyed by the BLAKE3
    digest of their encoding, the validation of one body, and the canonical walk
    over the tree that a root node and a map of bodies denote.  The prost
    encoding of the two message types is a parameter, a class with its
    round-trip law; BLAKE3 is the class of [NixNarLs]. *)

From stdpp Require Import sorting.
From S2P Require Import Prelude NixBytes NixNar NixNarLs.

#[local] Open Scope Z_scope.

(** ** Draining an iterator *)

Section Drain.
Context {St A : Type} (next : St -> option A * St).

(** Up to [2 ^ fuel] calls of [next], stopping at the first [None]: the items,
    and the state when there may be more. *)
Fixpoint drain (fuel : nat) (s : St) : list A * option St :=
  match fuel with
  | 0%nat => match next s with (None, _) => ([], None) | (Some a, s) => ([a], Some s) end
  | S fuel =>
      match drain fuel s with
      | (l, None) => (l, None)
      | (l, Some s) => let (l', r) := drain fuel s in (l ++ l', r)
      end
  end.

(** [s] yields [l] and is then [s']. *)
Inductive emits : St -> list A -> St -> Prop :=
  | emits_nil s : emits s [] s
  | emits_cons s a s1 l s' : next s = (Some a, s1) -> emits s1 l s' -> emits s (a :: l) s'.

(** [s] yields [l] and ends. *)
Definition drains (s : St) (l : list A) : Prop := exists s', emits s l s' /\ fst (next s') = None.

Lemma emits_app s l1 s1 l2 s2 : emits s l1 s1 -> emits s1 l2 s2 -> emits s (l1 ++ l2) s2.
Proof. induction 1; intros; cbn; [done|]. econstructor; eauto. Qed.

Lemma emits_det s l1 s1 : emits s l1 s1 -> forall s2, emits s l1 s2 -> s1 = s2.
Proof.
  induction 1 as [|s a s1 l s' Hn _ IH]; intros s2 H2; inversion H2 as [|? ? s1' ? ? Hn' He]; subst; [done|].
  rewrite Hn in Hn'. injection Hn' as <-. by apply IH.
Qed.

Lemma emits_split s l1 l2 s2 : emits s (l1 ++ l2) s2 -> exists s1, emits s l1 s1 /\ emits s1 l2 s2.
Proof.
  revert s. induction l1 as [|a l1 IH]; intros s H; cbn in H; [by exists s; split; [constructor|]|].
  inversion H as [|? ? s1 ? ? Hn He]; subst. destruct (IH _ He) as (s3 & H3 & H4). exists s3. split; [|done].
  by econstructor.
Qed.

Lemma emits_drains s l s' k : emits s l s' -> drains s' k -> drains s (l ++ k).
Proof. intros H (s2 & H2 & H0). exists s2. split; [by eapply emits_app|done]. Qed.

Lemma drains_det s l1 l2 : drains s l1 -> drains s l2 -> l1 = l2.
Proof.
  intros (s1 & H1 & E1) (s2 & H2 & E2). revert l2 H2. induction H1 as [s|s a s1 l s' Hn _ IH]; intros l2 H2.
  - inversion H2 as [|? ? ? ? ? Hn]; subst; [done|]. by rewrite Hn in E1.
  - inversion H2 as [|? ? s1' ? ? Hn' He]; subst; [by rewrite Hn in E2|]. rewrite Hn in Hn'. injection Hn' as <- <-. f_equal. by apply IH.
Qed.

Lemma drain_spec fuel s :
  match drain fuel s with
  | (l, None) => drains s l
  | (l, Some s') => emits s l s' /\ length l = (2 ^ fuel)%nat
  end.
Proof.
  revert s. induction fuel as [|fuel IH]; intros s; cbn [drain].
  - destruct (next s) as [[a|] s'] eqn:Hn.
    + split; [|done]. econstructor; [exact Hn|constructor].
    + exists s. split; [constructor|]. by rewrite Hn.
  - pose proof (IH s) as H1. destruct (drain fuel s) as [l [s1|]]; [|done]. destruct H1 as [H1 L1].
    pose proof (IH s1) as H2. destruct (drain fuel s1) as [l2 [s2|]].
    + destruct H2 as [H2 L2]. split; [by eapply emits_app|]. rewrite length_app. cbn [Nat.pow]. lia.
    + by eapply emits_drains.
Qed.

(** With a measure that every call decreases, [measure s < 2 ^ fuel] calls
    reach the end. *)
Lemma drain_total (measure : St -> nat) (ok : St -> Prop) fuel s :
  (forall s a s', ok s -> next s = (Some a, s') -> ok s' /\ (measure s' < measure s)%nat) ->
  ok s -> (measure s < 2 ^ fuel)%nat -> exists l, drain fuel s = (l, None) /\ drains s l.
Proof.
  intros Hm Hs Hf. pose proof (drain_spec fuel s) as Hd. destruct (drain fuel s) as [l [s'|]]; [|by exists l].
  destruct Hd as [He Hl]. assert (measure s' + length l <= measure s)%nat; [|lia].
  clear Hf Hl. induction He as [|s a s1 l s' Hn _ IH]; cbn [length]; [lia|].
  destruct (Hm _ _ _ Hs Hn) as [H1 H2]. specialize (IH H1). lia.
Qed.
End Drain.

(** ** The messages of [rio.castore] *)

Module castore.
Record DirectoryEntry : Type := mkDirectoryEntry { d_name : bytes; d_digest : bytes; d_size : Z }.
Record FileEntry : Type := mkFileEntry { f_name : bytes; f_digest : bytes; f_size : Z; f_executable : bool }.
Record SymlinkEntry : Type := mkSymlinkEntry { s_name : bytes; s_target : bytes }.
Record Directory : Type := mkDirectory {
  directories : list DirectoryEntry;
  files : list FileEntry;
  symlinks : list SymlinkEntry;
}.
Inductive Node : Type := DirDigest (d : bytes) | File (f : FileEntry) | Symlink (s : SymlinkEntry).
Record RootNode : Type := mkRootNode { node : option Node }.

#[export] Instance DirectoryEntry_eq_dec : EqDecision DirectoryEntry.
Proof. solve_decision. Defined.
#[export] Instance FileEntry_eq_dec : EqDecision FileEntry.
Proof. solve_decision. Defined.
#[export] Instance SymlinkEntry_eq_dec : EqDecision SymlinkEntry.
Proof. solve_decision. Defined.
#[export] Instance Directory_eq_dec : EqDecision Directory.
Proof. solve_decision. Defined.
End castore.
Import castore.

(** The generated encoders and decoders of the two messages. *)
Class Prost : Type := {
  directory_encode : castore.Directory -> bytes;
  directory_decode : bytes -> option castore.Directory;
  root_encode : RootNode -> bytes;
  root_decode : bytes -> option RootNode;
}.

Class ProstLaws (P : Prost) : Prop := {
  directory_decode_encode d : directory_decode (directory_encode d) = Some d;
  root_decode_encode r : root_decode (root_encode r) = Some r;
}.

Definition directory_digest `{Blake3, Prost} (d : castore.Directory) : bytes := digest (directory_encode d).

(** ** Validation of one body *)

Definition MAX_CASTORE_NAME_BYTES : Z := 256.
Definition MAX_CASTORE_TARGET_BYTES : Z := 4096.
Definition MAX_CASTORE_DIR_ENTRIES : Z := 1048576.

Module DirectoryError.
Inductive DirectoryError : Type :=
  | InvalidName (name : bytes)
  | Unsorted (name : bytes)
  | DuplicateName (name : bytes)
  | BadDigestLen (name : bytes) (n : nat)
  | NameTooLong (name : bytes) (n : nat)
  | BadTarget (name : bytes) (n : nat)
  | TooManyEntries (n : nat).
End DirectoryError.
Abbreviation DirectoryError := DirectoryError.DirectoryError.

(** A name in an error text: escaped, cut at 64 bytes with an ellipsis. *)
Definition show (name : bytes) : bytes :=
  let head := take 64 name in escape head ++ (if (length head <? length name)%nat then [226; 128; 166] else []).

Definition valid_component (name : bytes) : bool :=
  negb (bytes_eqb name []) && negb (bytes_eqb name (str ".")) && negb (bytes_eqb name (str "..")) &&
  negb (elem_byte 47 name) && negb (elem_byte 0 name).

Fixpoint check_sorted (prev : option bytes) (names : list bytes) : option DirectoryError :=
  match names with
  | [] => None
  | n :: names =>
      if negb (valid_component n) then Some (DirectoryError.InvalidName (show n))
      else if MAX_CASTORE_NAME_BYTES <? len n then Some (DirectoryError.NameTooLong (show n) (length n))
      else if match prev with Some p => negb (bytes_ltb p n) | None => false end
      then Some (DirectoryError.Unsorted (show n))
      else check_sorted (Some n) names
  end.

Fixpoint check_digests (es : list (bytes * bytes)) : option DirectoryError :=
  match es with
  | [] => None
  | (name, d) :: es =>
      if negb (Nat.eqb (length d) 32) then Some (DirectoryError.BadDigestLen (show name) (length d)) else check_digests es
  end.

Definition target_ok (target : bytes) : bool :=
  negb (bytes_eqb target [] || (MAX_CASTORE_TARGET_BYTES <? len target) || elem_byte 0 target).

Fixpoint check_targets (es : list SymlinkEntry) : option DirectoryError :=
  match es with
  | [] => None
  | e :: es =>
      if negb (target_ok (s_target e)) then Some (DirectoryError.BadTarget (show (s_name e)) (length (s_target e)))
      else check_targets es
  end.

Fixpoint check_unique (seen : list bytes) (names : list bytes) : option DirectoryError :=
  match names with
  | [] => None
  | n :: names =>
      if bool_decide (n ∈ seen) then Some (DirectoryError.DuplicateName (show n)) else check_unique (n :: seen) names
  end.

Definition dir_names (d : castore.Directory) : list bytes := List.map d_name (directories d).
Definition file_names (d : castore.Directory) : list bytes := List.map f_name (files d).
Definition symlink_names (d : castore.Directory) : list bytes := List.map s_name (symlinks d).

Definition entry_count (d : castore.Directory) : nat :=
  (length (directories d) + length (files d) + length (symlinks d))%nat.

(** [?] on the checks, in order: the first error. *)
Definition first_error {E} (checks : list (option E)) : option E :=
  fold_right (fun c rest => match c with Some e => Some e | None => rest end) None checks.

Definition validate_directory (d : castore.Directory) : option DirectoryError :=
  if MAX_CASTORE_DIR_ENTRIES <? Z.of_nat (entry_count d) then Some (DirectoryError.TooManyEntries (entry_count d))
  else first_error [
    check_sorted None (dir_names d);
    check_sorted None (file_names d);
    check_sorted None (symlink_names d);
    check_digests (List.map (fun e => (d_name e, d_digest e)) (directories d));
    check_digests (List.map (fun e => (f_name e, f_digest e)) (files d));
    check_targets (symlinks d);
    check_unique [] (dir_names d ++ file_names d ++ symlink_names d)].

(** ** The walk *)

Module WalkEvent.
Inductive WalkEvent : Type :=
  | EnterDir (name : bytes)
  | LeaveDir
  | File (name digest : bytes) (size : Z) (executable : bool)
  | Symlink (name target : bytes).
End WalkEvent.
Abbreviation WalkEvent := WalkEvent.WalkEvent.

Module WalkError.
Inductive WalkError : Type :=
  | MissingDirectory (hex : bytes)
  | TooManyNodes (n : Z)
  | TooDeep (n : nat)
  | IndexBytesTooLarge (n : Z)
  | BadRoot (what : string).
End WalkError.
Abbreviation WalkError := WalkError.WalkError.

Inductive Child : Type :=
  | CDir (e : DirectoryEntry)
  | CFile (e : FileEntry)
  | CSymlink (e : SymlinkEntry).

(** [Child::name]. *)
Definition child_name (c : Child) : bytes :=
  match c with CDir e => d_name e | CFile e => f_name e | CSymlink e => s_name e end.

Record Frame : Type := mkFrame {
  fr_children : list Child;
  fr_next : nat;
  fr_prefix_len : Z;
}.

(** The mutable fields of [TreeWalk]; [dirs] and [max_nodes], which never
    change, are arguments.  The head of [w_stack] is the last frame. *)
Record TreeWalk : Type := mkTreeWalk {
  w_stack : list Frame;
  w_pending_root : option RootNode;
  w_emitted : Z;
  w_index_bytes : Z;
  w_done : bool;
}.

(** [a.name().cmp(b.name()) <= 0]. *)
Definition name_le (a b : Child) : Prop := bytes_ltb (child_name b) (child_name a) = false.

#[export] Instance name_le_dec : RelDecision name_le := fun a b => decide (bytes_ltb (child_name b) (child_name a) = false).

(** The children of a body in name order.  The sort of the code is unstable:
    it may order entries of equal names either way, which no validated
    body has. *)
Definition merged_children (d : castore.Directory) : list Child :=
  merge_sort name_le
    (List.map CDir (directories d) ++ List.map CFile (files d) ++ List.map CSymlink (symlinks d)).

Definition walk (root : RootNode) : TreeWalk := mkTreeWalk [] (Some root) 0 0 false.

Section Walk.
Context (dirs : gmap bytes castore.Directory) (max_nodes : Z).

Definition enter (d : bytes) (prefix : Z) (w : TreeWalk) : option WalkError * TreeWalk :=
  match dirs !! d with
  | None => (Some (WalkError.MissingDirectory (hex_encode d)), w)
  | Some dir =>
      (None, mkTreeWalk (mkFrame (merged_children dir) 0 prefix :: w_stack w) (w_pending_root w) (w_emitted w)
               (w_index_bytes w) (w_done w))
  end.

Definition bump (w : TreeWalk) : option WalkError * TreeWalk :=
  let w := mkTreeWalk (w_stack w) (w_pending_root w) (w_emitted w + 1) (w_index_bytes w) (w_done w) in
  (if max_nodes <? w_emitted w then Some (WalkError.TooManyNodes max_nodes) else None, w).

Definition charge_index_bytes (n : Z) (w : TreeWalk) : option WalkError * TreeWalk :=
  let w := mkTreeWalk (w_stack w) (w_pending_root w) (w_emitted w) (w_index_bytes w + n) (w_done w) in
  (if MAX_NAR_INDEX_BYTES <? w_index_bytes w then Some (WalkError.IndexBytesTooLarge (w_index_bytes w)) else None, w).

Abbreviation item := (WalkEvent + WalkError)%type.

(** [.map(|()| ev)] on the result of one of the above. *)
Definition yields (r : option WalkError * TreeWalk) (ev : WalkEvent) : option item * TreeWalk :=
  match r with (Some e, w) => (Some (inr e), w) | (None, w) => (Some (inl ev), w) end.

(** The first call of [step]. *)
Definition step_root (root : RootNode) (w : TreeWalk) : option item * TreeWalk :=
  match bump w with
  | (Some e, w) => (Some (inr e), w)
  | (None, w) =>
      match node root with
      | Some (DirDigest d) =>
          if negb (Nat.eqb (length d) 32) then (Some (inr (WalkError.BadRoot "dir_digest not 32 bytes")), w)
          else yields (enter d 0 w) (WalkEvent.EnterDir [])
      | Some (castore.File f) =>
          if Nat.eqb (length (f_digest f)) 32
          then (Some (inl (WalkEvent.File [] (f_digest f) (f_size f) (f_executable f))), w)
          else (Some (inr (WalkError.BadRoot "file digest not 32 bytes")), w)
      | Some (castore.Symlink s) =>
          yields (charge_index_bytes (len (s_target s)) w) (WalkEvent.Symlink [] (s_target s))
      | None => (Some (inr (WalkError.BadRoot "RootNode.node unset")), w)
      end
  end.

Definition target_len (c : Child) : Z := match c with CSymlink e => len (s_target e) | _ => 0 end.

(** One child, the cursor of its frame already advanced. *)
Definition step_child (c : Child) (prefix : Z) (w : TreeWalk) : option item * TreeWalk :=
  let depth := length (w_stack w) in
  if (MAX_NAR_DEPTH <? depth)%nat then (Some (inr (WalkError.TooDeep depth)), w)
  else
    match bump w with
    | (Some e, w) => (Some (inr e), w)
    | (None, w) =>
        let name_len := len (child_name c) in
        match charge_index_bytes (prefix + name_len + target_len c) w with
        | (Some e, w) => (Some (inr e), w)
        | (None, w) =>
            match c with
            | CDir e =>
                if negb (Nat.eqb (length (d_digest e)) 32)
                then (Some (inr (WalkError.BadRoot "child dir digest not 32 bytes")), w)
                else yields (enter (d_digest e) (prefix + name_len + 1) w) (WalkEvent.EnterDir (d_name e))
            | CFile e =>
                if Nat.eqb (length (f_digest e)) 32
                then (Some (inl (WalkEvent.File (f_name e) (f_digest e) (f_size e) (f_executable e))), w)
                else (Some (inr (WalkError.BadRoot "child file digest not 32 bytes")), w)
            | CSymlink e => (Some (inl (WalkEvent.Symlink (s_name e) (s_target e))), w)
            end
        end
    end.

Definition step (w : TreeWalk) : option item * TreeWalk :=
  match w_pending_root w with
  | Some root => step_root root (mkTreeWalk (w_stack w) None (w_emitted w) (w_index_bytes w) (w_done w))
  | None =>
      match w_stack w with
      | [] => (None, w)
      | frame :: below =>
          match fr_children frame !! fr_next frame with
          | None => (Some (inl WalkEvent.LeaveDir), mkTreeWalk below None (w_emitted w) (w_index_bytes w) (w_done w))
          | Some c =>
              let frame' := mkFrame (fr_children frame) (S (fr_next frame)) (fr_prefix_len frame) in
              step_child c (fr_prefix_len frame) (mkTreeWalk (frame' :: below) None (w_emitted w) (w_index_bytes w) (w_done w))
          end
      end
  end.

Definition finish (w : TreeWalk) : TreeWalk :=
  mkTreeWalk (w_stack w) (w_pending_root w) (w_emitted w) (w_index_bytes w) true.

(** [Iterator::next]. *)
Definition walk_next (w : TreeWalk) : option item * TreeWalk :=
  if w_done w then (None, w)
  else
    match step w with
    | (Some (inl ev), w) => (Some (inl ev), w)
    | (item, w) => (item, finish w)
    end.

(** Everything the iterator yields.  [2 * max_nodes + 3] calls are enough; the
    loop doubles its reach with each unit of fuel. *)
Definition walk_fuel : nat := Z.to_nat (Z.log2_up (2 * max_nodes + 4)).

Definition walk_items (root : RootNode) : list item := fst (drain walk_next walk_fuel (walk root)).
End Walk.
