(* ===== verification/StoreWalk.v ===== *)
(** * Store: what the walk yields

    The tree that a root node and a map of directory bodies denote, and the
    proof that the explicit-stack walk of [StoreCastore] yields exactly its
    nodes in canonical order, ends on every map of bodies, cyclic ones included,
    and fails exactly when there is no such tree within the bounds. *)

From S2P Require Import Prelude NixBytes NixNar NixNarLs StoreCastore.
Import castore.

#[local] Open Scope Z_scope.

(** A tree without its file contents. *)
Inductive Tree : Type :=
  | TFile (digest : bytes) (size : Z) (executable : bool)
  | TSymlink (target : bytes)
  | TDir (entries : list (bytes * Tree)).

Lemma Tree_ind' (P : Tree -> Prop) :
  (forall d s x, P (TFile d s x)) -> (forall t, P (TSymlink t)) ->
  (forall es, Forall (fun e => P (snd e)) es -> P (TDir es)) -> forall t, P t.
Proof.
  intros Hf Hs Hd. fix IH 1. intros [d s x|t|es]; [apply Hf|apply Hs|]. apply Hd.
  induction es as [|[n t] es IHes]; constructor; [apply IH|apply IHes].
Qed.

(** ** Denotation *)

Section Denotes.
Context (dirs : gmap bytes castore.Directory).

(** The child [c] of a body is the tree [t]. *)
Fixpoint denotes (c : Child) (t : Tree) {struct t} : Prop :=
  match c, t with
  | CFile e, TFile d s x => length (f_digest e) = 32%nat /\ d = f_digest e /\ s = f_size e /\ x = f_executable e
  | CSymlink e, TSymlink target => target = s_target e
  | CDir e, TDir ts =>
      length (d_digest e) = 32%nat /\
      exists dir, dirs !! d_digest e = Some dir /\
        (fix all (cs : list Child) (ts : list (bytes * Tree)) {struct ts} : Prop :=
           match cs, ts with
           | [], [] => True
           | c :: cs, (n, t) :: ts => n = child_name c /\ denotes c t /\ all cs ts
           | _, _ => False
           end) (merged_children dir) ts
  | _, _ => False
  end.

Definition denotes_entry (c : Child) (e : bytes * Tree) : Prop := fst e = child_name c /\ denotes c (snd e).

Lemma denotes_dir e ts :
  denotes (CDir e) (TDir ts) <->
  length (d_digest e) = 32%nat /\ exists dir, dirs !! d_digest e = Some dir /\ Forall2 denotes_entry (merged_children dir) ts.
Proof.
  cbn [denotes]. set (all := fix all (cs : list Child) (ts : list (bytes * Tree)) {struct ts} : Prop := _).
  assert (H : forall ts cs, all cs ts <-> Forall2 denotes_entry cs ts).
  { clear. induction ts as [|[n t] ts IH]; intros [|c cs]; cbn.
    - split; [constructor|done].
    - split; [done|]. by inversion 1.
    - split; [done|]. by inversion 1.
    - rewrite Forall2_cons, (IH cs). unfold denotes_entry. cbn. naive_solver. }
  split; intros (Hl & dir & Hd & Ha); (split; [done|]); exists dir; (split; [done|]); by apply H.
Qed.

(** The root is the tree [t]. *)
Definition root_denotes (root : RootNode) (t : Tree) : Prop :=
  match node root, t with
  | Some (DirDigest d), TDir ts => denotes (CDir (mkDirectoryEntry [] d 0)) (TDir ts)
  | Some (castore.File f), TFile d s x => denotes (CFile f) (TFile d s x)
  | Some (castore.Symlink s), TSymlink target => denotes (CSymlink s) (TSymlink target)
  | _, _ => False
  end.

Lemma denotes_det c t1 t2 : denotes c t1 -> denotes c t2 -> t1 = t2.
Proof.
  revert c t2. induction t1 as [d s x|tg|ts IH] using Tree_ind'; intros [e|e|e] t2 H1 H2; try done; destruct t2 as [d2 s2 x2|tg2|ts2]; try done.
  - cbn in *. destruct_and!. congruence.
  - cbn in *. congruence.
  - apply denotes_dir in H1 as (_ & dir & Hd & H1). apply denotes_dir in H2 as (_ & dir2 & Hd2 & H2).
    rewrite Hd in Hd2. injection Hd2 as <-. f_equal. revert ts2 H2. clear Hd.
    generalize dependent (merged_children dir). clear dir. induction IH as [|[n t] ts Ht _ IHts]; intros cs H1 ts2 H2.
    + inversion H1; subst. by inversion H2.
    + inversion H1 as [|c ? cs' ? [Hn Hc] H1']; subst. inversion H2 as [|? [n2 t2] ? ts2' [Hn2 Hc2] H2']; subst.
      cbn in *. f_equal; [|by eapply IHts]. rewrite Hn, Hn2. f_equal. by eapply Ht.
Qed.

Lemma root_denotes_det root t1 t2 : root_denotes root t1 -> root_denotes root t2 -> t1 = t2.
Proof.
  unfold root_denotes. destruct (node root) as [[d|f|s]|]; [| | |done]; destruct t1, t2; try done; apply denotes_det.
Qed.
End Denotes.

(** ** Size of a tree *)

Fixpoint nodes (t : Tree) : Z :=
  match t with
  | TDir es => 1 + fold_right (fun e n => nodes (snd e) + n) 0 es
  | _ => 1
  end.

Fixpoint depth (t : Tree) : nat :=
  match t with TDir es => fold_right (fun e n => Nat.max (S (depth (snd e))) n) 0%nat es | _ => 0%nat end.

(** The bytes of joined paths and targets of the node called [name] below a
    prefix of [p] bytes. *)
Fixpoint tree_bytes (p : Z) (name : bytes) (t : Tree) : Z :=
  match t with
  | TFile _ _ _ => p + len name
  | TSymlink target => p + len name + len target
  | TDir es => p + len name + fold_right (fun e n => tree_bytes (p + len name + 1) (fst e) (snd e) + n) 0 es
  end.

Definition nodes_of (es : list (bytes * Tree)) : Z := fold_right (fun e n => nodes (snd e) + n) 0 es.
Definition depth_of (es : list (bytes * Tree)) : nat := fold_right (fun e n => Nat.max (S (depth (snd e))) n) 0%nat es.
Definition bytes_of (p : Z) (es : list (bytes * Tree)) : Z := fold_right (fun e n => tree_bytes p (fst e) (snd e) + n) 0 es.

(** Of a root, whose path is empty and whose children have bare names. *)
Definition root_bytes (t : Tree) : Z :=
  match t with TFile _ _ _ => 0 | TSymlink target => len target | TDir es => bytes_of 0 es end.

Definition tree_fits (max_nodes : Z) (t : Tree) : Prop :=
  nodes t <= max_nodes /\ root_bytes t <= MAX_NAR_INDEX_BYTES /\ (depth t <= MAX_NAR_DEPTH)%nat.

(** The events of a tree. *)
Fixpoint events (name : bytes) (t : Tree) : list WalkEvent :=
  match t with
  | TFile d s x => [WalkEvent.File name d s x]
  | TSymlink target => [WalkEvent.Symlink name target]
  | TDir es => WalkEvent.EnterDir name :: flat_map (fun e => events (fst e) (snd e)) es ++ [WalkEvent.LeaveDir]
  end.

Definition events_of (es : list (bytes * Tree)) : list WalkEvent := flat_map (fun e => events (fst e) (snd e)) es.

Lemma nodes_pos t : 1 <= nodes t.
Proof.
  induction t as [| |es IH] using Tree_ind'; cbn [nodes]; [lia..|]. fold (nodes_of es).
  assert (0 <= nodes_of es); [|lia]. induction IH as [|e es He _ IHes]; cbn; [done|]. fold (nodes_of es). lia.
Qed.

Lemma nodes_of_nonneg es : 0 <= nodes_of es.
Proof. induction es as [|e es IH]; cbn; [done|]. fold (nodes_of es). pose proof (nodes_pos (snd e)). lia. Qed.

Lemma tree_bytes_nonneg p n t : 0 <= p -> 0 <= tree_bytes p n t.
Proof.
  revert p n. induction t as [| |es IH] using Tree_ind'; intros p n Hp; cbn [tree_bytes]; unfold len in *; [lia..|].
  assert (H : 0 <= bytes_of (p + Z.of_nat (length n) + 1) es); [|unfold bytes_of in H; lia].
  induction IH as [|e es He _ IHes]; cbn; [done|]. fold (bytes_of (p + Z.of_nat (length n) + 1) es).
  specialize (He (p + Z.of_nat (length n) + 1) (fst e)). lia.
Qed.

Lemma bytes_of_nonneg p es : 0 <= p -> 0 <= bytes_of p es.
Proof.
  intros Hp. induction es as [|e es IH]; cbn; [done|]. fold (bytes_of p es). pose proof (tree_bytes_nonneg p (fst e) (snd e) Hp). lia.
Qed.

(** ** One call of the iterator *)

Section Steps.
Context (dirs : gmap bytes castore.Directory) (max_nodes : Z).

Abbreviation item := (WalkEvent + WalkError)%type.
Abbreviation next := (walk_next dirs max_nodes).

(** A running walk. *)
Definition running (st : list Frame) (e b : Z) : TreeWalk := mkTreeWalk st None e b false.

Lemma next_leave cs i p below e b :
  cs !! i = None -> next (running (mkFrame cs i p :: below) e b) = (Some (inl WalkEvent.LeaveDir), running below e b).
Proof. intros H. unfold walk_next, step. cbn. by rewrite H. Qed.

(** What yielding the child [c] does: the event, the frames it pushes. *)
Definition child_event (c : Child) (p : Z) (ev : WalkEvent) (pushed : list Frame) : Prop :=
  match c with
  | CFile f => length (f_digest f) = 32%nat /\ ev = WalkEvent.File (f_name f) (f_digest f) (f_size f) (f_executable f) /\ pushed = []
  | CSymlink s => ev = WalkEvent.Symlink (s_name s) (s_target s) /\ pushed = []
  | CDir d =>
      length (d_digest d) = 32%nat /\ exists dir, dirs !! d_digest d = Some dir /\ ev = WalkEvent.EnterDir (d_name d) /\
        pushed = [mkFrame (merged_children dir) 0 (p + len (d_name d) + 1)]
  end.

Definition charge_of (c : Child) (p : Z) : Z := p + len (child_name c) + target_len c.

Lemma next_child cs i p below e b c ev w' :
  cs !! i = Some c ->
  next (running (mkFrame cs i p :: below) e b) = (Some (inl ev), w') <->
  (S (length below) <= MAX_NAR_DEPTH)%nat /\ e + 1 <= max_nodes /\ b + charge_of c p <= MAX_NAR_INDEX_BYTES /\
  exists pushed, child_event c p ev pushed /\
    w' = running (pushed ++ mkFrame cs (S i) p :: below) (e + 1) (b + charge_of c p).
Proof.
  intros Hc. unfold walk_next, step, running, charge_of. cbn [w_done w_pending_root w_stack fr_children fr_next]. rewrite Hc.
  unfold step_child, bump, charge_index_bytes. cbn [w_stack length w_emitted w_index_bytes w_pending_root w_done fr_prefix_len].
  destruct (Nat.ltb_spec MAX_NAR_DEPTH (S (length below))) as [|Hd]; [split; [done|lia]|].
  destruct (Z.ltb_spec max_nodes (e + 1)) as [|He]; [split; [done|lia]|]. cbn [w_stack w_emitted w_index_bytes w_pending_root w_done].
  destruct (Z.ltb_spec MAX_NAR_INDEX_BYTES (b + (p + len (child_name c) + target_len c))) as [|Hb]; [split; [done|lia]|].
  destruct c as [d|f|s]; cbn [child_event child_name].
  - destruct (Nat.eqb_spec (length (d_digest d)) 32) as [Hl|Hl]; cbn [negb]; [|split; [done|naive_solver]].
    unfold yields, enter. destruct (dirs !! d_digest d) as [dir|]; [|split; [done|naive_solver]]. cbn. split.
    + intros [= <- <-]. split_and!; [done..|]. eexists. split; [by eauto|done].
    + intros (_ & _ & _ & ? & (_ & dir' & [= <-] & -> & ->) & ->). done.
  - destruct (Nat.eqb_spec (length (f_digest f)) 32) as [Hl|Hl]; [|split; [done|naive_solver]]. cbn. split.
    + intros [= <- <-]. split_and!; [done..|]. by eexists.
    + by intros (_ & _ & _ & ? & (_ & -> & ->) & ->).
  - cbn. split.
    + intros [= <- <-]. split_and!; [done..|]. by eexists.
    + by intros (_ & _ & _ & ? & (-> & ->) & ->).
Qed.

(** Every call that yields something decreases this. *)
Definition walk_measure (w : TreeWalk) : nat :=
  if w_done w then 0%nat
  else (2 * Z.to_nat (max_nodes + 1 - w_emitted w) + length (w_stack w) + (if w_pending_root w then 1 else 0))%nat.

Definition walk_ok (w : TreeWalk) : Prop := w_done w = true \/ w_emitted w <= max_nodes.

(** The state after a step that yields an event. *)
Lemma step_event w ev w' :
  walk_ok w -> w_done w = false -> step dirs max_nodes w = (Some (inl ev), w') -> walk_ok w' /\ (walk_measure w' < walk_measure w)%nat.
Proof.
  intros [|Ho] Hd; [congruence|]. unfold step, walk_ok, walk_measure. rewrite Hd.
  destruct (w_pending_root w) as [root|] eqn:Hp.
  - unfold step_root, bump. cbn. destruct (Z.ltb_spec max_nodes (w_emitted w + 1)); [done|].
    destruct (node root) as [[d|f|s]|]; [| | |done]; cbn.
    + destruct (negb _); [done|]. unfold yields, enter. cbn. destruct (dirs !! d); [|done]. intros [= _ <-]. cbn. lia.
    + destruct (Nat.eqb _ _); [|done]. intros [= _ <-]. cbn. lia.
    + unfold yields, charge_index_bytes. cbn. destruct (_ <? _); [done|]. intros [= _ <-]. cbn. lia.
  - destruct (w_stack w) as [|[cs i p] below] eqn:Hs; [done|]. cbn [fr_children fr_next fr_prefix_len length].
    destruct (cs !! i) as [c|]; [|intros [= _ <-]; cbn; lia].
    unfold step_child, bump, charge_index_bytes. cbn [w_stack length w_emitted w_index_bytes w_pending_root w_done].
    destruct (_ <? _)%nat; [done|]. destruct (Z.ltb_spec max_nodes (w_emitted w + 1)); [done|]. cbn [w_stack w_emitted w_index_bytes w_pending_root w_done].
    destruct (_ <? _); [done|]. destruct c as [e|f|s].
    + destruct (negb _); [done|]. unfold yields, enter. cbn. destruct (dirs !! _); [|done]. intros [= _ <-]. cbn. lia.
    + destruct (Nat.eqb _ _); [|done]. intros [= _ <-]. cbn. lia.
    + intros [= _ <-]. cbn. lia.
Qed.

Lemma next_measure w it w' :
  walk_ok w -> next w = (Some it, w') -> walk_ok w' /\ (walk_measure w' < walk_measure w)%nat.
Proof.
  intros Ho. unfold walk_next. destruct (w_done w) eqn:Hd; [done|]. destruct (step dirs max_nodes w) as [[[ev|err]|] w1] eqn:Hs; [| |done].
  - intros [= <- <-]. by eapply step_event.
  - intros [= <- <-]. destruct Ho as [|Ho]; [congruence|]. split; [by left|]. unfold walk_measure at 1. cbn.
    unfold walk_measure. rewrite Hd. lia.
Qed.

(** The iterator ends: [walk_items] is everything it yields. *)
Lemma walk_items_drains root : 0 <= max_nodes -> drains next (walk root) (walk_items dirs max_nodes root).
Proof.
  intros Hm. destruct (drain_total next walk_measure walk_ok (walk_fuel max_nodes) (walk root)) as (l & Hl & Hd).
  - intros s a s' Ho Hn. by eapply next_measure.
  - right. cbn. lia.
  - unfold walk_fuel, walk_measure. cbn. rewrite Z.sub_0_r. pose proof (Z.log2_up_spec (2 * max_nodes + 4)) as [_ H]; [lia|].
    assert (Z.of_nat (2 ^ Z.to_nat (Z.log2_up (2 * max_nodes + 4))) = 2 ^ Z.log2_up (2 * max_nodes + 4)) as Hp.
    { rewrite Nat2Z.inj_pow, Z2Nat.id by apply Z.log2_up_nonneg. done. }
    lia.
  - unfold walk_items. by rewrite Hl.
Qed.

(** An error is the last item. *)
Lemma drains_items w l : drains next w l -> exists evs, l = List.map inl evs \/ exists e, l = List.map inl evs ++ [inr e].
Proof.
  intros (w' & He & Hn). induction He as [w|w it w1 l w' H1 He IH]; [by exists []; left|].
  destruct it as [ev|e].
  - destruct (IH Hn) as (evs & [->|(e & ->)]); exists (ev :: evs); [by left|right; by exists e].
  - exists []. right. exists e. cbn. f_equal. unfold walk_next in H1. destruct (w_done w); [done|].
    destruct (step dirs max_nodes w) as [[[ev|err]|] w2]; [done| |done]. injection H1 as <- <-.
    inversion He as [|? ? ? ? ? H2]; subst; [done|]. by unfold walk_next in H2.
Qed.

(** ** The events of a tree *)

Lemma lookup_cursor {A} (pre : list A) c cs : (pre ++ c :: cs) !! length pre = Some c.
Proof. by rewrite lookup_app_r, Nat.sub_diag. Qed.

(** The child under the cursor is [t]: the walk yields its events. *)
Definition child_walks (t : Tree) : Prop :=
  forall cs i c n p below e b,
    cs !! i = Some c -> denotes_entry dirs c (n, t) -> 0 <= p -> (S (length below + depth t) <= MAX_NAR_DEPTH)%nat ->
    e + nodes t <= max_nodes -> b + tree_bytes p n t <= MAX_NAR_INDEX_BYTES ->
    emits next (running (mkFrame cs i p :: below) e b) (List.map inl (events n t))
      (running (mkFrame cs (S i) p :: below) (e + nodes t) (b + tree_bytes p n t)).

(** The same for the rest of a frame. *)
Lemma entries_walk es cs p below :
  Forall (fun e => child_walks (snd e)) es -> 0 <= p -> (length below + depth_of es <= MAX_NAR_DEPTH)%nat ->
  forall pre rest e b, cs = pre ++ rest ->
  Forall2 (denotes_entry dirs) rest es -> e + nodes_of es <= max_nodes -> b + bytes_of p es <= MAX_NAR_INDEX_BYTES ->
  emits next (running (mkFrame cs (length pre) p :: below) e b) (List.map inl (events_of es))
    (running (mkFrame cs (length cs) p :: below) (e + nodes_of es) (b + bytes_of p es)).
Proof.
  intros Hw Hp. induction Hw as [|[n t] es Ht _ IH]; intros Hd pre rest e b -> H2 He Hb.
  { inversion H2; subst. rewrite app_nil_r. cbn. rewrite !Z.add_0_r. constructor. }
  inversion H2 as [|c ? rest' ? Hc H2']; subst.
  change (nodes_of ((n, t) :: es)) with (nodes t + nodes_of es) in *.
  change (bytes_of p ((n, t) :: es)) with (tree_bytes p n t + bytes_of p es) in *.
  change (events_of ((n, t) :: es)) with (events n t ++ events_of es).
  change (depth_of ((n, t) :: es)) with (Nat.max (S (depth t)) (depth_of es)) in *.
  pose proof (nodes_of_nonneg es). pose proof (bytes_of_nonneg p es Hp).
  rewrite List.map_app, !Z.add_assoc. eapply emits_app.
  - apply (Ht (pre ++ c :: rest') (length pre) c n p below e b); [apply lookup_cursor|done|done|cbn; lia|cbn in *; lia..].
  - replace (S (length pre)) with (length (pre ++ [c])) by (rewrite length_app; cbn; lia).
    apply (IH ltac:(lia) (pre ++ [c]) rest'); [by rewrite <- app_assoc|done|lia..].
Qed.

Lemma child_walks_all t : child_walks t.
Proof.
  induction t as [d s x|tg|es IH] using Tree_ind'; intros cs i c n p below e b Hc [Hn Hden] Hp Hd He Hb; cbn in Hn; subst n;
    cbn [snd] in Hden; destruct c as [de|fe|se]; try done; cbn [nodes tree_bytes depth events List.map] in *.
  - destruct Hden as (Hl & -> & -> & ->). econstructor; [|constructor].
    apply (next_child cs i p below e b (CFile fe)); [done|]. unfold charge_of. cbn [child_name target_len] in *. split_and!; [lia..|].
    exists []. split; [done|]. cbn [app]. by rewrite Z.add_0_r.
  - cbn in Hden. subst tg. econstructor; [|constructor].
    apply (next_child cs i p below e b (CSymlink se)); [done|]. unfold charge_of. cbn [child_name target_len] in *. split_and!; [lia..|].
    by exists [].
  - apply denotes_dir in Hden as (Hl & dir & Hdir & H2). fold (nodes_of es) in He |- *. fold (depth_of es) in Hd.
    change (fold_right _ 0 es) with (bytes_of (p + len (child_name (CDir de)) + 1) es) in Hb |- *. cbn [child_name] in *.
    change (flat_map _ es) with (events_of es).
    pose proof (nodes_of_nonneg es). pose proof (bytes_of_nonneg (p + len (d_name de) + 1) es ltac:(unfold len; lia)).
    econstructor.
    { apply (next_child cs i p below e b (CDir de)); [done|]. unfold charge_of. cbn [child_name target_len]. split_and!; [lia..|].
      eexists. split; [by cbn; eauto|reflexivity]. }
    rewrite List.map_app. unfold charge_of. cbn [child_name target_len app List.map]. rewrite Z.add_0_r. eapply emits_app.
    { apply (entries_walk es (merged_children dir) _ (mkFrame cs (S i) p :: below)) with (pre := []) (rest := merged_children dir);
        [done|unfold len; lia|cbn; lia|done|done|lia..]. }
    econstructor; [apply next_leave, lookup_ge_None; lia|].
    rewrite !Z.add_assoc. constructor.
Qed.

Lemma walk_complete root t :
  root_denotes dirs root t -> tree_fits max_nodes t -> drains next (walk root) (List.map inl (events [] t)).
Proof.
  intros Hr (Hn & Hb & Hd). unfold root_denotes in Hr. pose proof (nodes_pos t).
  assert (Hstep : forall it w', step_root dirs max_nodes root (running [] 0 0) = (Some (inl it), w') -> next (walk root) = (Some (inl it), w')).
  { intros it w' H1. unfold walk_next, walk, step. cbn [w_done w_pending_root w_stack w_emitted w_index_bytes].
    unfold running in H1. by rewrite H1. }
  assert (Hb1 : (max_nodes <? 0 + 1) = false) by lia.
  destruct (node root) as [[d|f|s]|] eqn:Hroot; [| | |done]; destruct t as [fd fs fx|tg|es]; try done; cbn [events List.map].
  - apply denotes_dir in Hr as (Hl & dir & Hdir & H2). cbn [d_digest] in *.
    pose proof (nodes_of_nonneg es). cbn [nodes depth root_bytes] in *. fold (nodes_of es) in Hn. fold (depth_of es) in Hd.
    exists (running [] (1 + nodes_of es) (0 + bytes_of 0 es)). split; [|done]. econstructor.
    { apply Hstep. unfold step_root, bump, running. cbn. rewrite Hb1, Hroot, Hl. cbn. unfold enter. rewrite Hdir. reflexivity. }
    cbn [w_stack w_pending_root w_emitted w_index_bytes w_done]. rewrite List.map_app. eapply emits_app.
    { apply (entries_walk es (merged_children dir) 0 []) with (pre := []) (rest := merged_children dir); [|done|cbn; lia|done|done|cbn; lia..].
      apply Forall_true. intros e. apply child_walks_all. }
    econstructor; [apply next_leave, lookup_ge_None; lia|]. constructor.
  - destruct Hr as (Hl & -> & -> & ->). exists (running [] 1 0). split; [|done]. econstructor; [|constructor].
    apply Hstep. unfold step_root, bump, running. cbn. rewrite Hb1, Hroot, Hl. reflexivity.
  - cbn in Hr. subst tg. cbn [root_bytes] in Hb. exists (running [] 1 (0 + len (s_target s))). split; [|done]. econstructor; [|constructor].
    apply Hstep. unfold step_root, bump, running. cbn. rewrite Hb1, Hroot. unfold yields, charge_index_bytes.
    cbn [w_stack w_pending_root w_emitted w_index_bytes w_done]. by destruct (Z.ltb_spec MAX_NAR_INDEX_BYTES (0 + len (s_target s))); [lia|].
Qed.

(** ** The tree of the events *)

Lemma next_running f below e b : fst (next (running (f :: below) e b)) <> None.
Proof.
  unfold walk_next, step, running. cbn [w_done w_pending_root w_stack]. destruct (_ !! _) as [c|]; [|done].
  destruct (step_child _ _ _ _ _) as [[[?|?]|] ?] eqn:Hs; try done.
  revert Hs. unfold step_child, yields. repeat (case_match; try done).
Qed.

(** The counters are within the bounds. *)
Definition in_bounds (below : list Frame) (e b : Z) : Prop :=
  (length below <= MAX_NAR_DEPTH)%nat /\ e <= max_nodes /\ b <= MAX_NAR_INDEX_BYTES.

(** A frame that is walked without an error has trees for its children, within
    the bounds. *)
Definition frame_result (rest : list Child) (p : Z) (below : list Frame) (e b : Z) (l : list WalkEvent)
    (es : list (bytes * Tree)) (l' : list WalkEvent) : Prop :=
  Forall2 (denotes_entry dirs) rest es /\ l = events_of es ++ WalkEvent.LeaveDir :: l' /\
  (length below + depth_of es <= MAX_NAR_DEPTH)%nat /\ e + nodes_of es <= max_nodes /\
  b + bytes_of p es <= MAX_NAR_INDEX_BYTES /\
  drains next (running below (e + nodes_of es) (b + bytes_of p es)) (List.map inl l').

(** Prepending a child of which the tree [t] has been walked. *)
Lemma frame_result_cons c n t rest p below e b l1 l es l' :
  denotes_entry dirs c (n, t) -> (S (length below + depth t) <= MAX_NAR_DEPTH)%nat -> l1 = events n t ->
  frame_result rest p below (e + nodes t) (b + tree_bytes p n t) l es l' ->
  frame_result (c :: rest) p below e b (l1 ++ l) ((n, t) :: es) l'.
Proof.
  intros Hc Hd -> (H2 & -> & Hd' & He & Hb & Hr). unfold frame_result.
  change (nodes_of ((n, t) :: es)) with (nodes t + nodes_of es).
  change (bytes_of p ((n, t) :: es)) with (tree_bytes p n t + bytes_of p es).
  change (events_of ((n, t) :: es)) with (events n t ++ events_of es).
  change (depth_of ((n, t) :: es)) with (Nat.max (S (depth t)) (depth_of es)).
  rewrite <- app_assoc, !Z.add_assoc. split_and!; [by constructor|done|lia|done..].
Qed.

Lemma frame_sound k : forall l, (length l <= k)%nat -> forall cs p below e b pre rest,
  cs = pre ++ rest -> 0 <= p -> in_bounds below e b ->
  drains next (running (mkFrame cs (length pre) p :: below) e b) (List.map inl l) ->
  exists es l', frame_result rest p below e b l es l' /\ (length l' < length l)%nat.
Proof.
  induction k as [|k IH]; intros l Hk cs p below e b pre rest -> Hp (Hd & He & Hb) (w' & Hem & Hw).
  { destruct l; [|cbn in Hk; lia]. inversion Hem; subst. by apply next_running in Hw. }
  destruct l as [|ev l]; inversion Hem as [|? ? w1 ? ? Hn Hem']; subst; [by apply next_running in Hw|]. cbn [length] in Hk.
  assert (Hdr : drains next w1 (List.map inl l)) by (by exists w'). clear Hem Hem' Hw. destruct rest as [|c rest].
  { rewrite next_leave in Hn by (rewrite app_nil_r; by apply lookup_ge_None). injection Hn as <- <-. exists [], l.
    split; [|cbn; lia]. unfold frame_result. cbn. rewrite !Z.add_0_r, Nat.add_0_r. split_and!; [constructor|done..]. }
  apply (next_child (pre ++ c :: rest) (length pre) p below e b c) in Hn; [|apply lookup_cursor].
  destruct Hn as (Hd1 & He1 & Hb1 & pushed & Hev & ->).
  assert (IHrest : forall l1 e1 b1, (length l1 <= k)%nat -> in_bounds below e1 b1 ->
    drains next (running (mkFrame (pre ++ c :: rest) (S (length pre)) p :: below) e1 b1) (List.map inl l1) ->
    exists es l', frame_result rest p below e1 b1 l1 es l' /\ (length l' < length l1)%nat).
  { intros l1 e1 b1 Hl1 Hin H1. apply (IH l1 Hl1 (pre ++ c :: rest) p below e1 b1 (pre ++ [c]) rest); [by rewrite <- app_assoc|done|done|].
    by replace (length (pre ++ [c])) with (S (length pre)) by (rewrite length_app; cbn; lia). }
  unfold charge_of in *. destruct c as [de|fe|se]; cbn [child_event child_name target_len] in *.
  - destruct Hev as (Hl32 & dir & Hdir & -> & ->). cbn [app] in Hdr. rewrite Z.add_0_r in *.
    apply (IH l ltac:(lia) (merged_children dir) (p + len (d_name de) + 1) (mkFrame (pre ++ CDir de :: rest) (S (length pre)) p :: below)
      (e + 1) (b + (p + len (d_name de))) [] (merged_children dir)) in Hdr as (es & l1 & (H2 & -> & Hd2 & He2 & Hb2 & Hdr) & Hlen);
      [|done|unfold len; lia|split_and!; cbn [length]; lia].
    rewrite length_app in *. cbn [length] in *.
    apply IHrest in Hdr as (es' & l' & Hr & Hlen'); [|lia|split_and!; lia].
    exists ((d_name de, TDir es) :: es'), l'. split; [|cbn [length]; rewrite length_app; cbn [length]; lia].
    replace (WalkEvent.EnterDir (d_name de) :: events_of es ++ WalkEvent.LeaveDir :: l1)
      with ((WalkEvent.EnterDir (d_name de) :: events_of es ++ [WalkEvent.LeaveDir]) ++ l1) by (cbn; by rewrite <- app_assoc).
    apply (frame_result_cons (CDir de)); [split; [done|]; apply denotes_dir; eauto|cbn [depth]; fold (depth_of es); lia|done|].
    cbn [nodes tree_bytes]. fold (nodes_of es). change (fold_right _ 0 es) with (bytes_of (p + len (d_name de) + 1) es).
    by rewrite !Z.add_assoc in *.
  - destruct Hev as (Hl32 & -> & ->). cbn [app] in Hdr. rewrite Z.add_0_r in *.
    apply IHrest in Hdr as (es & l' & Hr & Hlen); [|lia|split_and!; lia].
    exists ((f_name fe, TFile (f_digest fe) (f_size fe) (f_executable fe)) :: es), l'. split; [|cbn; lia].
    apply (frame_result_cons (CFile fe) _ _ rest p below e b [_]); [done|cbn [depth]; lia|done|done].
  - destruct Hev as (-> & ->). cbn [app] in Hdr.
    apply IHrest in Hdr as (es & l' & Hr & Hlen); [|lia|split_and!; lia].
    exists ((s_name se, TSymlink (s_target se)) :: es), l'. split; [|cbn; lia].
    apply (frame_result_cons (CSymlink se) _ _ rest p below e b [_]); [done|cbn [depth]; lia|done|done].
Qed.

Lemma walk_sound root l :
  0 <= max_nodes -> drains next (walk root) (List.map inl l) ->
  exists t, root_denotes dirs root t /\ tree_fits max_nodes t /\ l = events [] t.
Proof.
  intros Hm (w' & He & Hw).
  assert (Hnone : forall e b, fst (next (running [] e b)) = None) by done.
  destruct l as [|ev l].
  { inversion He; subst. exfalso. revert Hw. unfold walk_next, walk, step, step_root. cbn.
    repeat (case_match; try done); unfold yields in *; repeat (case_match; try done). }
  inversion He as [|? ? w1 ? ? Hn He']; subst. assert (Hdr : drains next w1 (List.map inl l)) by (by exists w'). clear He He' Hw.
  revert Hn. unfold walk_next, walk, step. cbn [w_done w_pending_root w_stack w_emitted w_index_bytes].
  unfold step_root, bump. cbn [w_done w_pending_root w_stack w_emitted w_index_bytes].
  destruct (Z.ltb_spec max_nodes (0 + 1)) as [|Hmax]; [done|]. unfold root_denotes, tree_fits.
  destruct (node root) as [[d|f|s]|]; [| | |done].
  - destruct (Nat.eqb_spec (length d) 32) as [Hl|]; cbn [negb]; [|done]. unfold yields, enter.
    destruct (dirs !! d) as [dir|] eqn:Hdir; [|done]. intros [= <- <-].
    apply (frame_sound (length l) l (le_n _) (merged_children dir) 0 [] 1 0 [] (merged_children dir)) in Hdr
      as (es & l' & (H2 & -> & Hd & Hc & Hb & Hdr) & _); [|done|done|split_and!; cbn [length]; [lia..|done]].
    destruct l' as [|ev l']; [|destruct Hdr as (? & Hem & _); inversion Hem as [|? ? ? ? ? Hx]; done].
    exists (TDir es). cbn [nodes depth root_bytes events]. fold (nodes_of es). fold (depth_of es).
    split_and!; [apply denotes_dir; by eauto|done..|done].
  - destruct (Nat.eqb_spec (length (f_digest f)) 32) as [Hl|]; [|done]. intros [= <- <-].
    destruct l as [|ev l]; [|destruct Hdr as (? & Hem & _); inversion Hem as [|? ? ? ? ? Hx]; done].
    exists (TFile (f_digest f) (f_size f) (f_executable f)). cbn [nodes depth root_bytes events]. split_and!; [done..|lia|done].
  - unfold yields, charge_index_bytes. cbn [w_done w_pending_root w_stack w_emitted w_index_bytes].
    destruct (Z.ltb_spec MAX_NAR_INDEX_BYTES (0 + len (s_target s))) as [|Hb]; [done|]. intros [= <- <-].
    destruct l as [|ev l]; [|destruct Hdr as (? & Hem & _); inversion Hem as [|? ? ? ? ? Hx]; done].
    exists (TSymlink (s_target s)). cbn [nodes depth root_bytes events]. split_and!; [done|lia..|done].
Qed.

(** The items of a walk without an error. *)
Lemma walk_items_inl root l :
  0 <= max_nodes ->
  walk_items dirs max_nodes root = List.map inl l <->
  exists t, root_denotes dirs root t /\ tree_fits max_nodes t /\ l = events [] t.
Proof.
  intros Hm. pose proof (walk_items_drains root Hm) as Hd. split.
  - intros He. rewrite He in Hd. by apply walk_sound.
  - intros (t & Ht & Hf & ->). eapply drains_det; [exact Hd|]. by apply walk_complete.
Qed.

End Steps.

(** the directory walk is exact and total.  For every map of bodies, also
    one with cycles or shared subtrees, and every node cap, the iterator ends;
    it yields either events only or events and then one error; and it yields
    the events [l] without an error if and only if the root denotes a tree
    within the node, index-byte and depth bounds whose nodes in canonical order
    are [l]. *)
Theorem walk_exact dirs max_nodes root :
  0 <= max_nodes ->
  drains (walk_next dirs max_nodes) (walk root) (walk_items dirs max_nodes root) /\
  (exists evs, walk_items dirs max_nodes root = List.map inl evs \/
     exists e, walk_items dirs max_nodes root = List.map inl evs ++ [inr e]) /\
  (forall l, walk_items dirs max_nodes root = List.map inl l <->
     exists t, root_denotes dirs root t /\ tree_fits max_nodes t /\ l = events [] t).
Proof.
  intros Hm. pose proof (walk_items_drains dirs max_nodes root Hm) as Hd. split; [done|].
  split; [by eapply drains_items|]. intros l. by apply walk_items_inl.
Qed.
