(* ===== verification/StoreNar.v ===== *)
(** * Store: the archive of a directory tree

    The framing adapter of [src/rio-store/src/castore_nar.rs], which turns the
    walk into archive bytes with holes for the file contents, and
    [tree_to_entries] of [src/rio-store/src/grpc/put_path_chunked/commit.rs],
    which derives the archive index from the same walk. *)

From S2P Require Import Prelude NixBytes NixNar NixNarLs StoreCastore StoreWalk.
Import castore.

#[local] Open Scope Z_scope.

Module NarPiece.
Inductive NarPiece : Type :=
  | Framing (b : bytes)
  | Contents (digest : bytes) (size : Z).
End NarPiece.
Abbreviation NarPiece := NarPiece.NarPiece.

Definition FRAMING_FLUSH_BYTES : Z := 256 * 1024.

Abbreviation walk_item := (WalkEvent + WalkError)%type.

(** [NarPieces]; the [walk] field is what the walk has yet to yield. *)
Record NarPieces : Type := mkNarPieces {
  np_walk : list walk_item;
  np_buf : bytes;
  np_pending : option NarPiece;
  np_depth : nat;
  np_done : bool;
}.

Definition nar_pieces_of (items : list walk_item) : NarPieces := mkNarPieces items frame.magic None 0 false.

(** [nar_pieces]. *)
Definition nar_pieces (dirs : gmap bytes castore.Directory) (max_nodes : Z) (root : RootNode) : NarPieces :=
  nar_pieces_of (walk_items dirs max_nodes root).

Definition entry_open_at (depth : nat) (name : bytes) : bytes := if (0 <? depth)%nat then frame.entry_open name else [].
Definition entry_close_at (depth : nat) : bytes := if (0 <? depth)%nat then frame.entry_close else [].

(** [push_event]: the buffer, the pending piece and the depth after [ev]. *)
Definition push_event (ev : WalkEvent) (buf : bytes) (depth : nat) : bytes * option NarPiece * nat :=
  match ev with
  | WalkEvent.EnterDir name => (buf ++ entry_open_at depth name ++ frame.node_open ++ frame.directory_open, None, S depth)
  | WalkEvent.LeaveDir => (buf ++ frame.node_close ++ entry_close_at (depth - 1), None, (depth - 1)%nat)
  | WalkEvent.Symlink name target =>
      (buf ++ entry_open_at depth name ++ frame.node_open ++ frame.symlink target ++ frame.node_close ++ entry_close_at depth,
       None, depth)
  | WalkEvent.File name digest size executable =>
      (buf ++ entry_open_at depth name ++ frame.node_open ++ frame.regular_header executable size,
       Some (NarPiece.Contents digest size), depth)
  end.

(** [close_file]. *)
Definition close_file (size : Z) (buf : bytes) (depth : nat) : bytes :=
  buf ++ frame.contents_padding size ++ frame.node_close ++ entry_close_at depth.

Abbreviation piece_item := (NarPiece + WalkError)%type.

(** The loop of [NarPieces::next]. *)
Fixpoint pieces_loop (items : list walk_item) (buf : bytes) (depth : nat) : option piece_item * NarPieces :=
  match items with
  | inl ev :: items =>
      let '(buf, pending, depth) := push_event ev buf depth in
      if match pending with Some _ => true | None => false end || (FRAMING_FLUSH_BYTES <=? len buf)
      then (Some (inl (NarPiece.Framing buf)), mkNarPieces items [] pending depth false)
      else pieces_loop items buf depth
  | inr e :: items => (Some (inr e), mkNarPieces items buf None depth true)
  | [] =>
      (match buf with [] => None | _ => Some (inl (NarPiece.Framing buf)) end, mkNarPieces [] [] None depth true)
  end.

Definition pieces_next (p : NarPieces) : option piece_item * NarPieces :=
  if np_done p then (None, p)
  else
    match np_pending p with
    | Some piece =>
        let buf := match piece with NarPiece.Contents _ size => close_file size (np_buf p) (np_depth p) | _ => np_buf p end in
        (Some (inl piece), mkNarPieces (np_walk p) buf None (np_depth p) (np_done p))
    | None => pieces_loop (np_walk p) (np_buf p) (np_depth p)
    end.

(** All pieces: at most two per event and one more. *)
Definition pieces (p : NarPieces) : list piece_item :=
  fst (drain pieces_next (Nat.log2_up (2 * length (np_walk p) + 4)) p).

(** ** The index from the walk *)

(** The running state of [tree_to_entries]. *)
Record TreeIndex : Type := mkTreeIndex {
  ti_counter : Z;
  ti_out : list NarLsEntry;
  ti_components : list bytes;
  ti_depth : nat;
}.

(** The [join] closure. *)
Definition join_components (components : list bytes) (name : bytes) (depth : nat) : bytes :=
  match depth with
  | 0%nat => []
  | S _ => flat_map (fun c => c ++ [47]) components ++ name
  end.

Definition index_event (s : TreeIndex) (ev : WalkEvent) : TreeIndex :=
  let depth := ti_depth s in
  match ev with
  | WalkEvent.EnterDir name =>
      mkTreeIndex (ti_counter s + len (entry_open_at depth name) + len frame.node_open + len frame.directory_open)
        (ti_out s ++ [mkNarLsEntry (join_components (ti_components s) name depth) KDirectory 0 false 0 [] no_digest])
        (if (0 <? depth)%nat then ti_components s ++ [name] else ti_components s) (S depth)
  | WalkEvent.LeaveDir =>
      mkTreeIndex (ti_counter s + len frame.node_close + len (entry_close_at (depth - 1))) (ti_out s)
        (if (0 <? depth - 1)%nat then removelast (ti_components s) else ti_components s) (depth - 1)
  | WalkEvent.File name digest size executable =>
      let nar_offset := ti_counter s + len (entry_open_at depth name) + len frame.node_open + len (frame.regular_header executable size) in
      mkTreeIndex (nar_offset + size + len (frame.contents_padding size) + len frame.node_close + len (entry_close_at depth))
        (ti_out s ++ [mkNarLsEntry (join_components (ti_components s) name depth) KRegular size executable nar_offset [] digest])
        (ti_components s) depth
  | WalkEvent.Symlink name target =>
      mkTreeIndex (ti_counter s + len (entry_open_at depth name) + len frame.node_open + len (frame.symlink target) +
                   len frame.node_close + len (entry_close_at depth))
        (ti_out s ++ [mkNarLsEntry (join_components (ti_components s) name depth) KSymlink 0 false 0 target no_digest])
        (ti_components s) depth
  end.

Fixpoint tree_to_entries_loop (items : list walk_item) (s : TreeIndex) : list NarLsEntry + WalkError :=
  match items with
  | [] => inl (ti_out s)
  | inr e :: _ => inr e
  | inl ev :: items => tree_to_entries_loop items (index_event s ev)
  end.

Definition tree_to_entries (dirs : gmap bytes castore.Directory) (max_nodes : Z) (root : RootNode)
    : list NarLsEntry + WalkError :=
  tree_to_entries_loop (walk_items dirs max_nodes root) (mkTreeIndex (len frame.magic) [] [] 0).

(** ** Archive bytes with holes *)

(** A byte of the archive or the contents of a file. *)
Abbreviation atom := (Z + bytes * Z)%type.

Definition piece_atoms (p : NarPiece) : list atom :=
  match p with NarPiece.Framing b => List.map inl b | NarPiece.Contents d s => [inr (d, s)] end.

(** What [ev] contributes at [depth]. *)
Definition event_atoms (ev : WalkEvent) (depth : nat) : list atom :=
  let '(buf, pending, depth') := push_event ev [] depth in
  List.map inl buf ++
  match pending with
  | Some (NarPiece.Contents d s) => inr (d, s) :: List.map inl (close_file s [] depth')
  | _ => []
  end.

Definition depth_after (ev : WalkEvent) (depth : nat) : nat := snd (push_event ev [] depth).

Fixpoint events_atoms (evs : list WalkEvent) (depth : nat) : list atom :=
  match evs with
  | [] => []
  | ev :: evs => event_atoms ev depth ++ events_atoms evs (depth_after ev depth)
  end.

(** What a tree contributes: its framing with holes. *)
Fixpoint tree_atoms (t : Tree) : list atom :=
  match t with
  | TFile d s x =>
      List.map inl (frame.node_open ++ frame.regular_header x s) ++
      inr (d, s) :: List.map inl (frame.contents_padding s ++ frame.node_close)
  | TSymlink target => List.map inl (frame.node_open ++ frame.symlink target ++ frame.node_close)
  | TDir es =>
      List.map inl (frame.node_open ++ frame.directory_open) ++
      flat_map (fun e => List.map inl (frame.entry_open (fst e)) ++ tree_atoms (snd e) ++ List.map inl frame.entry_close) es ++
      List.map inl frame.node_close
  end.

(** The archive when the holes are filled with [contents] in order. *)
Fixpoint fill (atoms : list atom) (contents : list bytes) : option bytes :=
  match atoms with
  | [] => match contents with [] => Some [] | _ => None end
  | inl b :: atoms => match fill atoms contents with Some r => Some (b :: r) | None => None end
  | inr (_, size) :: atoms =>
      match contents with
      | c :: contents =>
          if len c =? size then match fill atoms contents with Some r => Some (c ++ r) | None => None end else None
      | [] => None
      end
  end.

(** The tree of an archive, and its file contents in walk order. *)
Section Skeleton.
Context `{H : Blake3}.

Fixpoint skel (n : NarNode) : Tree :=
  match n with
  | Regular x c => TFile (digest c) (len c) x
  | NixNar.Symlink target => TSymlink target
  | NixNar.Directory es => TDir (List.map (fun e => (fst e, skel (snd e))) es)
  end.
End Skeleton.

Fixpoint contents (n : NarNode) : list bytes :=
  match n with
  | Regular _ c => [c]
  | NixNar.Symlink _ => []
  | NixNar.Directory es => flat_map (fun e => contents (snd e)) es
  end.

(** ** The pieces are the archive *)

Lemma push_event_buf ev buf depth :
  push_event ev buf depth = (buf ++ fst (fst (push_event ev [] depth)), snd (fst (push_event ev [] depth)), depth_after ev depth).
Proof. by destruct ev. Qed.

(** Only file contents are pending. *)
Definition pending_ok (p : NarPieces) : Prop := match np_pending p with Some (NarPiece.Framing _) => False | _ => True end.

(** What is still to come, when the walk yields no error. *)
Definition rest_atoms (p : NarPieces) (evs : list WalkEvent) : list atom :=
  if np_done p then []
  else
    match np_pending p with
    | Some (NarPiece.Contents d s) => [inr (d, s)] ++ List.map inl (close_file s (np_buf p) (np_depth p))
    | _ => List.map inl (np_buf p)
    end ++ events_atoms evs (np_depth p).

Lemma pieces_loop_spec evs buf depth it p' :
  pieces_loop (List.map inl evs) buf depth = (it, p') ->
  match it with
  | Some (inl piece) => exists evs', np_walk p' = List.map inl evs' /\ pending_ok p' /\
      List.map inl buf ++ events_atoms evs depth = piece_atoms piece ++ rest_atoms p' evs'
  | Some (inr _) => False
  | None => List.map inl buf ++ events_atoms evs depth = []
  end.
Proof.
  revert buf depth. induction evs as [|ev evs IH]; intros buf depth; cbn [pieces_loop List.map].
  - intros [= <- <-]. destruct buf; [done|]. exists []. cbn. by rewrite app_nil_r.
  - rewrite push_event_buf. cbn [events_atoms]. unfold event_atoms. destruct (push_event ev [] depth) as [[new pending] depth'] eqn:Hp.
    assert (Hd : depth_after ev depth = depth') by (unfold depth_after; by rewrite Hp). rewrite Hd. cbn [fst snd].
    destruct pending as [piece|]; cbn [orb].
    + assert (exists d s, piece = NarPiece.Contents d s) as (d & s & ->) by (destruct ev; cbn in Hp; naive_solver).
      intros [= <- <-]. exists evs. split; [done|]. split; [done|]. unfold rest_atoms. cbn [np_done np_pending np_buf np_depth piece_atoms app]. rewrite List.map_app, <- !app_assoc. done.
    + rewrite app_nil_r. destruct (_ <=? _).
      * intros [= <- <-]. exists evs. split; [done|]. split; [done|]. unfold rest_atoms. cbn [np_done np_pending np_buf np_depth piece_atoms app]. rewrite List.map_app, <- !app_assoc. done.
      * intros Hl%IH. by rewrite List.map_app, <- app_assoc in Hl.
Qed.

Lemma pieces_next_spec p evs it p' :
  np_walk p = List.map inl evs -> pending_ok p -> pieces_next p = (it, p') ->
  match it with
  | Some (inl piece) => exists evs', np_walk p' = List.map inl evs' /\ pending_ok p' /\
      rest_atoms p evs = piece_atoms piece ++ rest_atoms p' evs'
  | Some (inr _) => False
  | None => rest_atoms p evs = []
  end.
Proof.
  intros Hw Hp. unfold pieces_next, rest_atoms at 1 3. destruct (np_done p) eqn:Hd; [intros [= <- <-]; done|].
  unfold pending_ok in Hp. destruct (np_pending p) as [[b|d s]|]; [done| |].
  - intros [= <- <-]. exists evs. split; [done|]. split; [done|]. unfold rest_atoms. cbn. by rewrite <- ?app_assoc.
  - rewrite Hw. intros Hl%pieces_loop_spec. done.
Qed.

(** Without an error from the walk, the pieces are framing and contents that
    together are the atoms of the events. *)
Lemma drains_pieces p l evs :
  drains pieces_next p l -> np_walk p = List.map inl evs -> pending_ok p ->
  exists ps, l = List.map inl ps /\ flat_map piece_atoms ps = rest_atoms p evs.
Proof.
  intros (p' & He & Hn). revert evs. induction He as [p|p it p1 l p' H1 _ IH]; intros evs Hw Hp.
  - exists []. split; [done|]. destruct (pieces_next p) as [it q] eqn:Hq. cbn in Hn. subst it.
    by apply (pieces_next_spec p evs) in Hq.
  - apply (pieces_next_spec p evs) in H1; [|done..]. destruct it as [piece|e]; [|done].
    destruct H1 as (evs' & Hw' & Hp' & Hr). destruct (IH Hn evs' Hw' Hp') as (ps & -> & Hps). exists (piece :: ps).
    split; [done|]. cbn. by rewrite Hps, Hr.
Qed.

Definition pieces_measure (p : NarPieces) : nat :=
  if np_done p then 0%nat else (2 * length (np_walk p) + (if np_pending p then 1 else 0) + 1)%nat.

Lemma pieces_loop_measure items buf depth it p' :
  pieces_loop items buf depth = (Some it, p') -> (pieces_measure p' < 2 * length items + 1)%nat.
Proof.
  revert buf depth. induction items as [|[ev|e] items IH]; intros buf depth; cbn [pieces_loop length].
  - intros [= _ <-]. cbn. lia.
  - destruct (push_event ev buf depth) as [[b pend] d]. destruct (_ || _).
    + intros [= _ <-]. unfold pieces_measure. cbn. destruct pend; lia.
    + intros Hl%IH. lia.
  - intros [= _ <-]. cbn. lia.
Qed.

Lemma pieces_measure_next p it p' : pieces_next p = (Some it, p') -> (pieces_measure p' < pieces_measure p)%nat.
Proof.
  unfold pieces_next. destruct (np_done p) eqn:Hd; [done|]. unfold pieces_measure at 2. rewrite Hd.
  destruct (np_pending p) as [piece|].
  - intros [= _ <-]. unfold pieces_measure. cbn. lia.
  - intros Hl%pieces_loop_measure. lia.
Qed.

Lemma pieces_drains items : drains pieces_next (nar_pieces_of items) (pieces (nar_pieces_of items)).
Proof.
  unfold pieces. edestruct (drain_total pieces_next pieces_measure (fun _ => True)) as (l & Hl & Hd); [| | |rewrite Hl; exact Hd].
  - intros s a s' _ Hn. split; [done|]. by eapply pieces_measure_next.
  - done.
  - pose proof (Nat.log2_up_spec (2 * length (np_walk (nar_pieces_of items)) + 4)) as [_ H]; [lia|].
    unfold pieces_measure. cbn in *. lia.
Qed.

(** A walk that ends in an error ends the pieces with that error. *)
Lemma drains_pieces_error p l evs e :
  drains pieces_next p l -> np_done p = false -> np_walk p = List.map inl evs ++ [inr e] ->
  exists ps, l = List.map inl ps ++ [inr e].
Proof.
  intros (p' & He & Hn). revert evs. induction He as [p|p it p1 l p' H1 He IH]; intros evs Hd Hw.
  - exfalso. revert Hn. unfold pieces_next. rewrite Hd, Hw. destruct (np_pending p); [done|]. clear Hw.
    generalize (np_buf p), (np_depth p). induction evs as [|ev evs IH]; intros b d; cbn; [done|].
    destruct (push_event ev b d) as [[? ?] ?]. destruct (_ || _); [done|apply IH].
  - unfold pieces_next in H1. rewrite Hd, Hw in H1. destruct (np_pending p) as [piece|].
    + injection H1 as <- <-. destruct (IH Hn evs) as (ps & ->); [done|done|]. by exists (piece :: ps).
    + revert H1. generalize (np_buf p), (np_depth p). clear Hw. induction evs as [|ev evs IHe]; intros b d; cbn [pieces_loop List.map app].
      * intros [= <- <-]. exists []. inversion He as [|? ? ? ? ? H2]; subst; [done|]. done.
      * destruct (push_event ev b d) as [[b' pend] d']. destruct (_ || _); [|apply IHe].
        intros [= <- <-]. destruct (IH Hn evs) as (ps & ->); [done|done|]. by exists (NarPiece.Framing b' :: ps).
Qed.

(** The atoms of a node called [name] at [depth]. *)
Definition at_depth (depth : nat) (name : bytes) (a : list atom) : list atom :=
  List.map inl (entry_open_at depth name) ++ a ++ List.map inl (entry_close_at depth).

Lemma events_atoms_tree t name depth rest :
  events_atoms (events name t ++ rest) depth = at_depth depth name (tree_atoms t) ++ events_atoms rest depth.
Proof.
  revert name depth rest. induction t as [d s x|tg|es IH] using Tree_ind'; intros name depth rest; unfold at_depth.
  - cbn [events app events_atoms tree_atoms]. unfold event_atoms, depth_after, close_file. cbn [push_event fst snd app].
    rewrite !List.map_app, <- !app_assoc. cbn [app]. by rewrite <- !app_assoc.
  - cbn [events app events_atoms tree_atoms]. unfold event_atoms, depth_after. cbn [push_event fst snd app].
    rewrite app_nil_r, !List.map_app, <- !app_assoc. done.
  - cbn [events app events_atoms tree_atoms]. unfold event_atoms at 1, depth_after at 1. cbn [push_event fst snd app].
    rewrite app_nil_r, !List.map_app, <- !app_assoc. do 3 f_equal.
    assert (Hes : forall rest, events_atoms (flat_map (fun e => events (fst e) (snd e)) es ++ rest) (S depth) =
      flat_map (fun e => List.map inl (frame.entry_open (fst e)) ++ tree_atoms (snd e) ++ List.map inl frame.entry_close) es ++
      events_atoms rest (S depth)).
    { clear rest. induction IH as [|e es He _ IHes]; intros rest; cbn [flat_map app]; [done|].
      rewrite <- !app_assoc, He, IHes. unfold at_depth. cbn [entry_open_at entry_close_at Nat.ltb Nat.leb]. by rewrite <- !app_assoc. }
    rewrite Hes. f_equal. cbn [app events_atoms]. unfold event_atoms, depth_after. cbn [push_event fst snd app].
    rewrite Nat.sub_succ, Nat.sub_0_r, app_nil_r, List.map_app, <- app_assoc. done.
Qed.

Lemma fill_bytes b rest cs : fill (List.map inl b ++ rest) cs = (app b) <$> fill rest cs.
Proof. induction b as [|x b IH]; cbn; [by destruct (fill rest cs)|]. rewrite IH. by destruct (fill rest cs). Qed.

Section Fill.
Context `{H : Blake3}.

(** Filling the holes of an archive's tree with its contents is the archive. *)
Lemma fill_tree n rest cs :
  fill (tree_atoms (skel n) ++ rest) (contents n ++ cs) = (app (serialize_node n)) <$> fill rest cs.
Proof.
  revert rest cs. induction n as [x c|t|es IH] using NarNode_ind'; intros rest cs; rewrite serialize_unfold; cbn [skel tree_atoms contents].
  - rewrite <- app_assoc, fill_bytes. cbn [app fill]. rewrite Z.eqb_refl, fill_bytes.
    destruct (fill rest cs) as [r|]; [|done]. cbn [fmap option_fmap option_map]. f_equal. unfold node_body, write_bytes, frame.node_open, frame.regular_header,
      frame.contents_padding, frame.node_close, len. by rewrite <- !app_assoc.
  - rewrite fill_bytes. cbn [app]. unfold node_body, frame.node_open, frame.symlink, frame.node_close. by rewrite <- !app_assoc.
  - rewrite <- !app_assoc, fill_bytes.
    assert (Hes : forall rest cs, fill (flat_map (fun e => List.map inl (frame.entry_open (fst e)) ++ tree_atoms (snd e) ++
        List.map inl frame.entry_close) (List.map (fun e => (fst e, skel (snd e))) es) ++ rest) (flat_map (fun e => contents (snd e)) es ++ cs) =
      (app (flat_map entry_bytes es)) <$> fill rest cs).
    { clear rest cs. induction IH as [|e es He _ IHes]; intros rest cs; cbn [flat_map List.map app fst snd]; [by destruct (fill rest cs)|].
      rewrite <- !app_assoc, fill_bytes, He, fill_bytes, IHes. destruct (fill rest cs) as [r|]; [|done]. cbn [fmap option_fmap option_map]. f_equal.
      unfold entry_bytes, entry_body, frame.entry_open, frame.entry_close. by rewrite <- !app_assoc. }
    rewrite Hes, fill_bytes. destruct (fill rest cs) as [r|]; [|done]. cbn [fmap option_fmap option_map]. f_equal.
    unfold node_body, frame.node_open, frame.directory_open, frame.node_close. by rewrite <- !app_assoc.
Qed.

(** The pieces of a tree that the walk accepts, filled, are the archive. *)
Lemma pieces_fill dirs max_nodes root n :
  0 <= max_nodes -> root_denotes dirs root (skel n) -> tree_fits max_nodes (skel n) ->
  exists ps, pieces (nar_pieces dirs max_nodes root) = List.map inl ps /\
    fill (flat_map piece_atoms ps) (contents n) = Some (serialize n).
Proof.
  intros Hm Hr Hf. pose proof (proj2 (walk_items_inl dirs max_nodes root (events [] (skel n)) Hm)) as Hw.
  unfold nar_pieces. rewrite Hw by eauto.
  destruct (drains_pieces _ _ (events [] (skel n)) (pieces_drains (List.map inl (events [] (skel n))))) as (ps & -> & Ha); [done..|].
  exists ps. split; [done|]. rewrite Ha. unfold rest_atoms. cbn [np_done np_pending np_buf np_depth nar_pieces_of].
  rewrite fill_bytes. rewrite <- (app_nil_r (events [] (skel n))), events_atoms_tree. unfold at_depth.
  cbn [entry_open_at entry_close_at Nat.ltb Nat.leb app List.map events_atoms]. rewrite app_nil_r, <- (app_nil_r (contents n)), fill_tree.
  cbn [fill fmap option_fmap option_map]. by rewrite app_nil_r.
Qed.
End Fill.

(** ** The index of the walk is the index of the archive *)

(** Every entry below [n] has a name. *)
Fixpoint named (n : NarNode) : Prop :=
  match n with
  | NixNar.Directory es => fold_right (fun e P => (fst e <> [] /\ named (snd e)) /\ P) True es
  | _ => True
  end.

Lemma named_directory es : named (NixNar.Directory es) <-> Forall (fun e => fst e <> [] /\ named (snd e)) es.
Proof. cbn [named]. induction es as [|e es IH]; cbn [fold_right]; [done|]. by rewrite IH, Forall_cons. Qed.

Lemma join_root name n : join_components [] n 1 = join_path (join_components [] name 0) n.
Proof. done. Qed.

Lemma join_below comps name depth n :
  name <> [] -> join_components (comps ++ [name]) n (S (S depth)) = join_path (join_components comps name (S depth)) n.
Proof.
  intros Hn. unfold join_components, join_path, bytes_eqb. rewrite flat_map_app. cbn [flat_map]. rewrite app_nil_r.
  rewrite bool_decide_eq_false_2; [cbn [negb]; by rewrite <- !app_assoc|]. intros [_ ?]%app_nil. done.
Qed.

(** Below the directory [name] at [depth], the components give the path. *)
Definition inner_components (comps : list bytes) (name : bytes) (depth : nat) : list bytes :=
  if (0 <? depth)%nat then comps ++ [name] else comps.

Lemma join_inner comps name depth n :
  (depth = 0%nat -> comps = []) -> (depth <> 0%nat -> name <> []) ->
  join_components (inner_components comps name depth) n (S depth) = join_path (join_components comps name depth) n.
Proof.
  intros H0 H1. destruct depth as [|depth]; [by rewrite H0|]. apply join_below. by apply H1.
Qed.

Lemma len_serialize_regular x c :
  len (serialize_node (Regular x c)) =
    len frame.node_open + len (frame.regular_header x (len c)) + len c + len (frame.contents_padding (len c)) + len frame.node_close.
Proof.
  rewrite <- !len_app, serialize_unfold. unfold node_body, write_bytes, frame.node_open, frame.regular_header,
    frame.contents_padding, frame.node_close, len. by rewrite <- !app_assoc.
Qed.

Lemma len_serialize_directory es :
  len (serialize_node (NixNar.Directory es)) = len dir_header + len (flat_map entry_bytes es) + len frame.node_close.
Proof.
  rewrite <- !len_app, serialize_unfold. unfold node_body, dir_header, frame.node_close. by rewrite <- !app_assoc.
Qed.

Lemma len_entry e :
  len (entry_bytes e) = len (frame.entry_open (fst e)) + len (serialize_node (snd e)) + len frame.entry_close.
Proof. rewrite <- !len_app. unfold entry_bytes, entry_body, frame.entry_open, frame.entry_close. by rewrite <- !app_assoc. Qed.

Section Index.
Context `{H : Blake3}.

(** What walking [n] does to the running index. *)
Definition after_node (s : TreeIndex) (name : bytes) (n : NarNode) : TreeIndex :=
  let off := ti_counter s + len (entry_open_at (ti_depth s) name) in
  mkTreeIndex (off + len (serialize_node n) + len (entry_close_at (ti_depth s)))
    (ti_out s ++ index_node n (join_components (ti_components s) name (ti_depth s)) off) (ti_components s) (ti_depth s).

Definition index_ok (s : TreeIndex) (name : bytes) : Prop :=
  (ti_depth s = 0%nat -> ti_components s = []) /\ (ti_depth s <> 0%nat -> name <> []).

Definition indexes_node (n : NarNode) : Prop :=
  forall s name, named n -> index_ok s name -> fold_left index_event (events name (skel n)) s = after_node s name n.

(** The children of an entered directory. *)
Lemma index_children es path :
  Forall (fun e => indexes_node (snd e)) es -> Forall (fun e => fst e <> [] /\ named (snd e)) es ->
  forall s depth, ti_depth s = S depth ->
  (forall n, join_components (ti_components s) n (S depth) = join_path path n) ->
  fold_left index_event (flat_map (fun e => events (fst e) (snd e)) (List.map (fun e => (fst e, skel (snd e))) es)) s =
    mkTreeIndex (ti_counter s + len (flat_map entry_bytes es)) (ti_out s ++ index_entries es path (ti_counter s))
      (ti_components s) (S depth).
Proof.
  intros Hi Hn. induction Hi as [|e es He _ IH]; intros s depth Hd Hj; cbn [flat_map List.map fold_left index_entries fst snd].
  { rewrite app_nil_r, Z.add_0_r. destruct s. cbn in Hd. by subst. }
  apply Forall_cons in Hn as [[Hne Hnn] Hn]. rewrite fold_left_app, He; [|done|split; rewrite Hd; done].
  unfold after_node. rewrite Hd. cbn [entry_open_at entry_close_at Nat.ltb Nat.leb ti_depth].
  rewrite (IH Hn _ depth); cbn [ti_depth ti_components ti_out ti_counter]; [|done|done].
  f_equal.
  - rewrite len_app, len_entry. lia.
  - rewrite <- app_assoc, Hj. do 2 f_equal. rewrite len_entry. f_equal. lia.
Qed.

Lemma index_events n : indexes_node n.
Proof.
  induction n as [x c|t|es IH] using NarNode_ind'; intros s name Hn Ho; unfold after_node; cbn [skel events fold_left index_event].
  - rewrite len_serialize_regular. cbn [index_node]. unfold content_header.
    assert (Hc : len (write_str "(" ++ write_str "type" ++ write_str "regular" ++ (if x then write_str "executable" ++ write_str "" else []) ++
      write_str "contents" ++ write_u64 (len c)) = len frame.node_open + len (frame.regular_header x (len c))).
    { rewrite <- len_app. unfold frame.node_open, frame.regular_header. by rewrite <- !app_assoc. }
    rewrite Hc. f_equal; [lia|]. by rewrite Z.add_assoc.
  - f_equal. rewrite serialize_unfold. rewrite <- !Z.add_assoc, <- !len_app. f_equal. f_equal. f_equal.
    unfold node_body, frame.node_open, frame.symlink, frame.node_close. rewrite <- !app_assoc. done.
  - rewrite fold_left_app. apply named_directory in Hn. rewrite index_directory, len_serialize_directory.
    assert (Hh : len dir_header = len frame.node_open + len frame.directory_open).
    { rewrite <- len_app. unfold dir_header, frame.node_open, frame.directory_open. by rewrite <- !app_assoc. }
    change (if (0 <? ti_depth s)%nat then ti_components s ++ [name] else ti_components s) with (inner_components (ti_components s) name (ti_depth s)).
    rewrite (index_children es (join_components (ti_components s) name (ti_depth s)) IH Hn _ (ti_depth s)); cbn [ti_depth ti_components ti_out ti_counter];
      [|done|intros m; by apply join_inner; apply Ho].
    cbn [fold_left index_event ti_depth ti_components ti_out ti_counter]. rewrite Nat.sub_succ, Nat.sub_0_r. f_equal.
    + rewrite Hh. lia.
    + rewrite <- app_assoc. cbn [app]. by rewrite Hh, !Z.add_assoc.
    + unfold inner_components. destruct (0 <? ti_depth s)%nat; [by rewrite removelast_last|done].
Qed.

Lemma tree_to_entries_loop_inl evs s :
  tree_to_entries_loop (List.map inl evs) s = inl (ti_out (fold_left index_event evs s)).
Proof. revert s. induction evs as [|ev evs IH]; intros s; cbn; [done|apply IH]. Qed.

(** The index that the upload derives from the walk is the archive's. *)
Lemma tree_to_entries_index dirs max_nodes root n :
  0 <= max_nodes -> root_denotes dirs root (skel n) -> tree_fits max_nodes (skel n) -> named n ->
  tree_to_entries dirs max_nodes root = inl (index_node n [] root_offset).
Proof.
  intros Hm Hr Hf Hn. unfold tree_to_entries. rewrite (proj2 (walk_items_inl dirs max_nodes root (events [] (skel n)) Hm)) by eauto.
  rewrite tree_to_entries_loop_inl, index_events by done. unfold after_node. cbn [ti_out ti_counter ti_components ti_depth app].
  cbn [entry_open_at Nat.ltb Nat.leb join_components]. change (len []) with 0. rewrite Z.add_0_r. done.
Qed.
End Index.
