(* ===== verification/StoreValid.v ===== *)
(** * Store: a validated tree can be read back

    What [validate_directory] accepts, and that a tree of validated bodies which
    the bounded walk accepts is one whose regenerated archive every reader
    accepts, with the index that the upload persisted. *)

From stdpp Require Import sorting.
From S2P Require Import Prelude NixBytes NixNar NixNarLs StoreCastore StoreWalk StoreNar.
Import castore.

#[local] Open Scope Z_scope.

(** ** One body *)

Record directory_valid (d : castore.Directory) : Prop := {
  dv_count : Z.of_nat (entry_count d) <= MAX_CASTORE_DIR_ENTRIES;
  dv_names : Forall ls_name_wf (dir_names d ++ file_names d ++ symlink_names d);
  dv_sorted : strictly_sorted (dir_names d) /\ strictly_sorted (file_names d) /\ strictly_sorted (symlink_names d);
  dv_unique : NoDup (dir_names d ++ file_names d ++ symlink_names d);
  dv_dir_digests : Forall (fun e => length (d_digest e) = 32%nat) (directories d);
  dv_file_digests : Forall (fun e => length (f_digest e) = 32%nat) (files d);
  dv_targets : Forall (fun e => target_ok (s_target e) = true) (symlinks d);
}.

Lemma valid_component_ok n : valid_component n = entry_name_ok n.
Proof.
  unfold valid_component, entry_name_ok. by rewrite !negb_orb.
Qed.

Lemma check_sorted_None prev names :
  check_sorted prev names = None <-> Forall ls_name_wf names /\ sorted_after prev names.
Proof.
  revert prev. induction names as [|n names IH]; intros prev; cbn [check_sorted].
  { split; [|done]. intros _. split; [constructor|]. split; [constructor|]. by destruct prev. }
  rewrite Forall_cons, sorted_after_cons, valid_component_ok. unfold ls_name_wf at 1.
  destruct (entry_name_ok n) eqn:Hn; cbn [negb]; [|split; [done|naive_solver]].
  change NAR_MAX_NAME_LEN with MAX_CASTORE_NAME_BYTES. unfold len.
  destruct (Z.ltb_spec MAX_CASTORE_NAME_BYTES (Z.of_nat (length n))) as [|Hl]; [split; [done|lia]|].
  destruct prev as [p|]; [destruct (bytes_ltb p n) eqn:Hp; cbn [negb]|]; rewrite ?IH; intuition (done || lia).
Qed.

Lemma check_digests_None es : check_digests es = None <-> Forall (fun e => length (snd e) = 32%nat) es.
Proof.
  induction es as [|[n d] es IH]; cbn [check_digests]; [done|]. rewrite Forall_cons. cbn.
  destruct (Nat.eqb_spec (length d) 32); cbn [negb]; [rewrite IH|]; naive_solver.
Qed.

Lemma check_targets_None es : check_targets es = None <-> Forall (fun e => target_ok (s_target e) = true) es.
Proof.
  induction es as [|e es IH]; cbn [check_targets]; [done|]. rewrite Forall_cons.
  destruct (target_ok (s_target e)); cbn [negb]; [rewrite IH|]; naive_solver.
Qed.

Lemma check_unique_None seen names :
  check_unique seen names = None <-> NoDup names /\ forall n, n ∈ names -> n ∉ seen.
Proof.
  revert seen. induction names as [|n names IH]; intros seen; cbn [check_unique].
  { split; [|done]. intros _. split; [constructor|set_solver]. }
  rewrite NoDup_cons. case_bool_decide as Hn; [split; [done|set_solver]|]. rewrite IH. set_solver.
Qed.

Lemma first_error_None {E} (checks : list (option E)) : first_error checks = None <-> Forall (eq None) checks.
Proof.
  induction checks as [|[e|] cs IH]; cbn [first_error fold_right]; [done| |].
  - split; [done|]. by inversion 1.
  - rewrite Forall_cons, <- IH. unfold first_error. tauto.
Qed.

Lemma validate_directory_None d : validate_directory d = None <-> directory_valid d.
Proof.
  unfold validate_directory. destruct (Z.ltb_spec MAX_CASTORE_DIR_ENTRIES (Z.of_nat (entry_count d))) as [Hc|Hc].
  { split; [done|]. intros []. lia. }
  rewrite first_error_None, !Forall_cons, Forall_nil. split.
  - intros (H1 & H2 & H3 & H4 & H5 & H6 & H7 & _).
    symmetry in H1, H2, H3, H4, H5, H6, H7. apply check_sorted_None in H1 as [N1 S1], H2 as [N2 S2], H3 as [N3 S3].
    apply check_digests_None in H4, H5. apply check_targets_None in H6. apply check_unique_None in H7 as [Hu _].
    rewrite sorted_after_None in *. rewrite List.Forall_map in H4, H5. constructor; try done. by rewrite !Forall_app.
  - intros [_ Hn (S1 & S2 & S3) Hu H4 H5 H6]. rewrite !Forall_app in Hn. destruct Hn as (N1 & N2 & N3).
    split_and!; [| | | | | | |done]; symmetry; [apply check_sorted_None; by rewrite sorted_after_None..| | | |].
    + apply check_digests_None. by rewrite List.Forall_map.
    + apply check_digests_None. by rewrite List.Forall_map.
    + by apply check_targets_None.
    + apply check_unique_None. split; [done|set_solver].
Qed.

(** ** The children in canonical order *)

#[export] Instance name_le_total : Total name_le.
Proof. intros a b. apply (total bytes_le). Qed.

#[export] Instance name_le_trans : Transitive name_le.
Proof. intros a b c. apply (transitivity (R := bytes_le)). Qed.

Lemma merged_permutation d :
  merged_children d ≡ₚ List.map CDir (directories d) ++ List.map CFile (files d) ++ List.map CSymlink (symlinks d).
Proof. apply merge_sort_Permutation. Qed.

Lemma merged_names_permutation d :
  List.map child_name (merged_children d) ≡ₚ dir_names d ++ file_names d ++ symlink_names d.
Proof.
  rewrite (Permutation_map child_name (merged_permutation d)), !List.map_app, !List.map_map. done.
Qed.

(** Without equal names, the canonical order is strict. *)
Lemma merged_names_after d : NoDup (dir_names d ++ file_names d ++ symlink_names d) -> names_after None (List.map child_name (merged_children d)).
Proof.
  intros Hu. rewrite <- merged_names_permutation in Hu. apply names_after_sorted, sorted_after_None.
  pose proof (StronglySorted_merge_sort name_le
    (List.map CDir (directories d) ++ List.map CFile (files d) ++ List.map CSymlink (symlinks d))) as Hs.
  change (merge_sort _ _) with (merged_children d) in Hs. revert Hu. unfold strictly_sorted.
  induction Hs as [|c cs Hs IH Hc]; cbn [List.map]; [constructor|]. intros [Hn Hu]%NoDup_cons. constructor; [by apply IH|].
  apply Forall_forall. intros n Hin. apply list_elem_of_In, in_map_iff in Hin as (c' & <- & Hin).
  rewrite Forall_forall in Hc. apply list_elem_of_In in Hin. specialize (Hc c' Hin). unfold name_le in Hc.
  destruct (bytes_ltb_total (child_name c) (child_name c')) as [H|[H|H]]; [done| |congruence].
  exfalso. apply Hn. rewrite H. apply list_elem_of_In, in_map. by apply list_elem_of_In.
Qed.

(** ** Reading a validated tree back *)

(** The fields of a body have the ranges of their Rust types. *)
Definition directory_typed (d : castore.Directory) : Prop := Forall (fun e => 0 <= f_size e < 2 ^ 64) (files d).

Definition bodies_valid (dirs : gmap bytes castore.Directory) : Prop :=
  forall k d, dirs !! k = Some d -> directory_typed d /\ validate_directory d = None.

(** What [validate_directory] guarantees of one child. *)
Definition child_ok (c : Child) : Prop :=
  match c with CFile e => 0 <= f_size e < 2 ^ 64 | CSymlink e => raw_ok (s_target e) | CDir _ => True end.

Lemma target_raw t : target_ok t = true -> raw_ok t.
Proof.
  unfold target_ok, raw_ok, len. rewrite negb_true_iff, !orb_false_iff. intros [[_ H] _].
  unfold MAX_CASTORE_TARGET_BYTES, MAX_TARGET_LEN in *. lia.
Qed.

Lemma merged_child_ok d c :
  directory_typed d -> directory_valid d -> c ∈ merged_children d -> child_ok c /\ ls_name_wf (child_name c).
Proof.
  intros Ht Hv Hc. split.
  - rewrite merged_permutation, !elem_of_app in Hc. rewrite !list_elem_of_In, !in_map_iff in Hc.
    destruct Hc as [(e & <- & _)|[(e & <- & He)|(e & <- & He)]]; cbn; [done| |].
    + apply (proj1 (Forall_forall _ _) Ht e). by apply list_elem_of_In.
    + apply target_raw. apply (proj1 (Forall_forall _ _) (dv_targets _ Hv) e). by apply list_elem_of_In.
  - pose proof (dv_names _ Hv) as Hn. rewrite <- merged_names_permutation in Hn.
    apply (proj1 (Forall_forall _ _) Hn). apply list_elem_of_In, in_map. by apply list_elem_of_In.
Qed.

Section Readable.
Context `{H : Blake3}.

Lemma nodes_of_length es : Z.of_nat (length es) <= nodes_of es.
Proof. induction es as [|e es IH]; cbn [length nodes_of fold_right]; [lia|]. fold (nodes_of es). pose proof (nodes_pos (snd e)). lia. Qed.

Lemma nodes_of_elem es e : e ∈ es -> nodes (snd e) <= nodes_of es.
Proof.
  induction es as [|x es IH]; [by intros ?%elem_of_nil|]. cbn [nodes_of fold_right]. fold (nodes_of es).
  pose proof (nodes_of_nonneg es). pose proof (nodes_pos (snd x)). intros [->|Hin]%elem_of_cons; [lia|]. specialize (IH Hin). lia.
Qed.

Lemma depth_of_elem es e : e ∈ es -> (S (depth (snd e)) <= depth_of es)%nat.
Proof.
  induction es as [|x es IH]; [by intros ?%elem_of_nil|]. cbn [depth_of fold_right]. fold (depth_of es).
  intros [->|Hin]%elem_of_cons; [lia|]. specialize (IH Hin). lia.
Qed.

Lemma Forall2_names dirs cs es : Forall2 (denotes_entry dirs) cs es -> List.map fst es = List.map child_name cs.
Proof. induction 1 as [|c e cs es [Hn _] _ IH]; cbn; [done|]. by rewrite Hn, IH. Qed.

(** A child that is the tree of [n]: the readers accept [n]. *)
Lemma denotes_ls_wf dirs n :
  bodies_valid dirs -> forall c levels, denotes dirs c (skel n) -> child_ok c -> (depth (skel n) < levels)%nat ->
  nodes (skel n) <= MAX_NAR_ENTRIES -> ls_wf levels n.
Proof.
  intros Hb. induction n as [x b|t|es IH] using NarNode_ind'; intros c levels Hden Hc Hd Hn;
    (destruct levels as [|levels]; [lia|]); apply ls_wf_S; destruct c as [e|e|e]; try done; cbn [skel] in *.
  - destruct Hden as (_ & _ & Hs & _). cbn in Hc. lia.
  - cbn in Hden. by subst.
  - apply denotes_dir in Hden as (_ & dir & Hdir & H2). destruct (Hb _ _ Hdir) as [Ht Hv%validate_directory_None].
    cbn [nodes depth] in Hd, Hn. set (ts := List.map (fun e => (fst e, skel (snd e))) es) in *.
    fold (nodes_of ts) in Hn. fold (depth_of ts) in Hd.
    assert (Hl : length ts = length es) by apply length_map.
    assert (Hnames : List.map fst es = List.map child_name (merged_children dir)).
    { rewrite <- (Forall2_names _ _ _ H2). unfold ts. by rewrite List.map_map. }
    split_and!.
    + apply lt_max_dir. pose proof (nodes_of_length ts). unfold MAX_NAR_ENTRIES in *. lia.
    + rewrite Hnames. apply merged_names_after, dv_unique, Hv.
    + apply Forall_forall. intros e' He'. assert (Hin : (fst e', skel (snd e')) ∈ ts).
      { apply list_elem_of_In, in_map_iff. exists e'. split; [done|]. by apply list_elem_of_In. }
      destruct (list_elem_of_lookup_1 _ _ Hin) as (i & Hi).
      destruct (Forall2_lookup_r _ _ _ _ _ H2 Hi) as (c' & Hc' & Hn' & Hden').
      apply list_elem_of_lookup_2 in Hc'. destruct (merged_child_ok _ _ Ht Hv Hc') as [Hok Hname].
      cbn in Hn', Hden'. rewrite Hn'. split; [done|]. rewrite Forall_forall in IH.
      apply (IH e' He' c' levels Hden' Hok).
      * pose proof (depth_of_elem _ _ Hin) as H1. cbn in H1. lia.
      * pose proof (nodes_of_elem _ _ Hin) as H1. cbn in H1. lia.
Qed.

(** The root node passed [decode_root_node]. *)
Definition root_ok (root : RootNode) : Prop :=
  match node root with
  | Some (castore.File f) => 0 <= f_size f < 2 ^ 64
  | Some (castore.Symlink s) => raw_ok (s_target s)
  | _ => True
  end.

Lemma root_ls_wf dirs root n :
  bodies_valid dirs -> root_ok root -> root_denotes dirs root (skel n) -> tree_fits MAX_NAR_ENTRIES (skel n) -> ls_wf nar_levels n.
Proof.
  intros Hb Hr Hden (Hn & _ & Hd). unfold root_denotes, root_ok in *. unfold nar_levels.
  destruct (node root) as [[d|f|s]|]; [| | |done]; destruct (skel n) as [fd fs fx|tg|ts] eqn:Hs; try done; rewrite <- Hs in *;
    (eapply denotes_ls_wf; [done|exact Hden|done|lia|done]).
Qed.

Lemma ls_name_nonempty name : ls_name_wf name -> name <> [].
Proof. intros [_ Hn] ->. done. Qed.

Lemma ls_wf_named n levels : ls_wf levels n -> named n.
Proof.
  revert levels. induction n as [x b|t|es IH] using NarNode_ind'; intros [|levels] Hw; try done.
  apply ls_wf_S in Hw as (_ & _ & Hf). apply named_directory. rewrite Forall_forall in *. intros e He.
  destruct (Hf e He) as [Hn Hw]. split; [by apply ls_name_nonempty|]. by eapply IH.
Qed.

(** ** The bounds of the walk are the bounds of the index *)

Lemma index_length n path off : Z.of_nat (length (index_node n path off)) = nodes (skel n).
Proof.
  revert path off. induction n as [x b|t|es IH] using NarNode_ind'; intros path off; [done..|].
  rewrite index_directory. cbn [length skel nodes]. rewrite Nat2Z.inj_succ. generalize (off + len dir_header). clear off.
  induction IH as [|e es He _ IHes]; intros off; cbn [index_entries List.map fold_right snd]; [done|].
  rewrite length_app, Nat2Z.inj_add, He. specialize (IHes (off + len (entry_bytes e))). lia.
Qed.

Lemma index_bytes_app a b : index_bytes (a ++ b) = index_bytes a + index_bytes b.
Proof. induction a as [|e a IH]; cbn [app index_bytes fold_right]; [done|]. fold (index_bytes (a ++ b)) (index_bytes a). lia. Qed.

Lemma len_join path name : path <> [] -> len (join_path path name) = len path + 1 + len name.
Proof.
  intros Hp. unfold join_path, bytes_eqb. rewrite bool_decide_eq_false_2 by done. cbn [negb]. rewrite !len_app.
  change (len [47]) with 1. lia.
Qed.

Lemma join_nonempty path name : name <> [] -> join_path path name <> [].
Proof. intros Hn [_ ?]%app_nil. done. Qed.

(** The entries below a directory whose children's paths have a prefix of [p]
    bytes. *)
Lemma index_entries_bytes es path off p :
  Forall (fun e => forall path off name, path <> [] -> named (snd e) ->
    index_bytes (index_node (snd e) path off) = tree_bytes (len path - len name) name (skel (snd e))) es ->
  Forall (fun e => fst e <> [] /\ named (snd e)) es ->
  (forall name, len (join_path path name) = p + len name) ->
  index_bytes (index_entries es path off) = bytes_of p (List.map (fun e => (fst e, skel (snd e))) es).
Proof.
  intros Hi Hn Hp. revert off. induction Hi as [|e es He _ IH]; intros off; cbn [index_entries List.map]; [done|].
  apply Forall_cons in Hn as [[Hne Hnn] Hn]. rewrite index_bytes_app, IH by done.
  rewrite (He _ _ (fst e)) by (done || by apply join_nonempty).
  change (bytes_of p (?x :: ?l)) with (tree_bytes p (fst x) (snd x) + bytes_of p l). cbn [fst snd]. do 2 f_equal. rewrite Hp. lia.
Qed.

Lemma index_node_bytes n path off name :
  path <> [] -> named n -> index_bytes (index_node n path off) = tree_bytes (len path - len name) name (skel n).
Proof.
  revert path off name. induction n as [x b|t|es IH] using NarNode_ind'; intros path off name Hp Hn.
  - cbn [index_node index_bytes fold_right le_path le_target skel tree_bytes]. change (len []) with 0. lia.
  - cbn [index_node index_bytes fold_right le_path le_target skel tree_bytes]. lia.
  - rewrite index_directory. apply named_directory in Hn. cbn [index_bytes fold_right le_path le_target skel tree_bytes].
    change (len []) with 0. fold (index_bytes (index_entries es path (off + len dir_header))).
    rewrite (index_entries_bytes es path _ (len path + 1) IH Hn) by (intros m; rewrite len_join by done; lia).
    change (fold_right _ 0 _) with (bytes_of (len path - len name + len name + 1) (List.map (fun e => (fst e, skel (snd e))) es)).
    replace (len path - len name + len name + 1) with (len path + 1) by lia. lia.
Qed.

Lemma index_root_bytes n off : named n -> index_bytes (index_node n [] off) = root_bytes (skel n).
Proof.
  intros Hn. destruct n as [x b|es|t]; [done| |].
  - rewrite index_directory. apply named_directory in Hn. cbn [index_bytes fold_right le_path le_target skel root_bytes].
    change (len []) with 0. fold (index_bytes (index_entries es [] (off + len dir_header))).
    rewrite (index_entries_bytes es [] _ 0) by (done || by apply Forall_true; intros; apply index_node_bytes). lia.
  - cbn [index_node index_bytes fold_right le_path le_target skel root_bytes]. change (len []) with 0. lia.
Qed.

(** A tree that fits the upload's cap has an index that fits the readers'. *)
Lemma fits_within_bounds n :
  named n -> tree_fits MAX_NAR_ENTRIES (skel n) -> within_bounds (index_node n [] root_offset).
Proof. intros Hn (H1 & H2 & _). split; [by rewrite index_length|by rewrite index_root_bytes]. Qed.

(** And conversely, for what the readers accept. *)
Lemma depth_levels n levels : ls_wf levels n -> (depth (skel n) < levels)%nat.
Proof.
  revert levels. induction n as [x b|t|es IH] using NarNode_ind'; intros [|levels] Hw; try done; [cbn; lia..|].
  apply ls_wf_S in Hw as (_ & _ & Hf). cbn [skel depth]. fold (depth_of (List.map (fun e => (fst e, skel (snd e))) es)).
  assert (depth_of (List.map (fun e => (fst e, skel (snd e))) es) <= levels)%nat; [|lia].
  induction IH as [|e es He _ IHes]; cbn [List.map depth_of fold_right snd]; [lia|]. apply Forall_cons in Hf as [[_ Hw] Hf].
  specialize (He _ Hw). specialize (IHes Hf). unfold depth_of in IHes. lia.
Qed.

Lemma within_bounds_fits n off :
  ls_wf nar_levels n -> within_bounds (index_node n [] off) -> tree_fits MAX_NAR_ENTRIES (skel n).
Proof.
  intros Hw [H1 H2]. pose proof (depth_levels _ _ Hw) as Hd. unfold nar_levels in Hd. rewrite index_length in H1.
  rewrite index_root_bytes in H2 by (by eapply ls_wf_named). split_and!; [done|done|lia].
Qed.

Lemma tree_fits_mono a b t : a <= b -> tree_fits a t -> tree_fits b t.
Proof. intros Hab (H1 & H2 & H3). split_and!; [lia|done..]. Qed.
End Readable.

(** [MAX_WALK_NODES] of [get_path.rs]. *)
Definition MAX_WALK_NODES : Z := 2 ^ 24.

Lemma entries_fit dirs root t entries max_nodes :
  0 <= max_nodes -> root_denotes dirs root t -> tree_to_entries dirs max_nodes root = inl entries -> tree_fits max_nodes t.
Proof.
  intros Hm Hden. unfold tree_to_entries.
  destruct (drains_items _ _ _ _ (walk_items_drains dirs max_nodes root Hm)) as (evs & [Hw|(e & Hw)]).
  - intros _. apply walk_items_inl in Hw as (t' & Ht & Hf & _); [|done]. by rewrite (root_denotes_det _ _ _ _ Hden Ht).
  - rewrite Hw. clear Hw. intros He. exfalso. revert He. generalize (mkTreeIndex (len frame.magic) [] [] 0).
    induction evs as [|ev evs IH]; intros s; cbn; [done|apply IH].
Qed.

(** complete implies servable.  A tree of validated bodies whose index the
    upload derived is served: for every archive [n] of that tree, the download
    walk under its own node cap regenerates pieces that, filled with the file
    contents in order, are the archive of [n] bit for bit; every reader's index
    pass accepts those bytes; and the index it computes is the one the upload
    persisted. *)
Theorem validated_tree_servable `{H : Blake3} `{!Blake3Laws H} dirs root n entries :
  bodies_valid dirs -> root_ok root -> root_denotes dirs root (skel n) -> bytes_ok (serialize n) ->
  tree_to_entries dirs MAX_NAR_ENTRIES root = inl entries ->
  (exists ps, pieces (nar_pieces dirs MAX_WALK_NODES root) = List.map inl ps /\
     fill (flat_map piece_atoms ps) (contents n) = Some (serialize n)) /\
  nar_ls (serialize n) = inl entries.
Proof.
  intros Hb Hr Hden Hbytes He.
  pose proof (entries_fit dirs root (skel n) entries MAX_NAR_ENTRIES ltac:(done) Hden He) as Hfit.
  pose proof (root_ls_wf dirs root n Hb Hr Hden Hfit) as Hwf. pose proof (ls_wf_named _ _ Hwf) as Hn.
  rewrite (tree_to_entries_index dirs MAX_NAR_ENTRIES root n ltac:(done) Hden Hfit Hn) in He. injection He as <-. split.
  - apply pieces_fill; [done|exact Hden|]. by apply (tree_fits_mono MAX_NAR_ENTRIES).
  - apply (nar_ls_inl (serialize n) _ Hbytes). exists n, []. rewrite app_nil_r.
    split; [exact Hwf|]. split; [done|]. split; [done|by apply fits_within_bounds].
Qed.
