(* ===== verification/StoreBuild.v ===== *)
(** * Store: the directory bodies of an archive index

    [src/rio-store/src/castore.rs]: the bottom-up pass that turns the entry list
    of an archive into directory bodies, a root node and the table of file
    blobs, and [decode_dag] of [src/rio-store/src/castore_nar.rs], which reads
    them back.  A panic of the code is [None]. *)

From stdpp Require Import sorting.
From S2P Require Import Prelude NixBytes NixNar NixNarLs StoreCastore StoreWalk StoreNar StoreValid.
Import castore.

#[local] Open Scope Z_scope.

Record DirectoryDag : Type := mkDirectoryDag {
  dag_directories : list (bytes * bytes);
  dag_file_blobs : list (bytes * (Z * Z));
  dag_root_node : bytes;
  dag_root_digest : bytes;
  dag_dir_digests : list bytes;
}.

(** [rsplit_once_byte]. *)
Fixpoint rsplit_once (sep : Z) (s : bytes) : option (bytes * bytes) :=
  match s with
  | [] => None
  | b :: s =>
      match rsplit_once sep s with
      | Some (l, r) => Some (b :: l, r)
      | None => if b =? sep then Some ([], s) else None
      end
  end.

Definition basename (path : bytes) : bytes := match rsplit_once 47 path with Some (_, base) => base | None => path end.

(** The parent path of an entry. *)
Definition parent_path (path : bytes) : bytes := match rsplit_once 47 path with Some (parent, _) => parent | None => [] end.

(** [path_to_idx]: a later entry of the same path replaces an earlier one. *)
Fixpoint index_paths (i : nat) (paths : list bytes) (m : gmap bytes nat) : gmap bytes nat :=
  match paths with
  | [] => m
  | p :: paths => index_paths (S i) paths (<[p := i]> m)
  end.

Definition path_to_idx (entries : list NarLsEntry) : gmap bytes nat := index_paths 0 (List.map le_path entries) ∅.

(** The loop that fills [children], from the entry at [i]. *)
Fixpoint fill_children (idx : gmap bytes nat) (i : nat) (paths : list bytes) (children : list (list nat))
    : option (list (list nat)) :=
  match paths with
  | [] => Some children
  | p :: paths =>
      match idx !! parent_path p with
      | None => None
      | Some parent => fill_children idx (S i) paths (alter (fun l => l ++ [i]) parent children)
      end
  end.

Record BuildState : Type := mkBuildState {
  b_dir_digests : list bytes;
  b_dir_sizes : list Z;
  b_bodies : gmap bytes bytes;
}.

(** A distinct file's first offset in the blob stream and its size. *)
Definition add_blob (acc : gmap bytes (Z * Z) * Z) (e : NarLsEntry) : gmap bytes (Z * Z) * Z :=
  let (m, blob_offset) := acc in
  match le_kind e with
  | KRegular =>
      (match m !! le_file_digest e with Some _ => m | None => <[le_file_digest e := (blob_offset, le_size e)]> m end,
       blob_offset + le_size e)
  | _ => acc
  end.

(** [sort_unstable_by_key] on distinct keys. *)
Definition key_le {A} (a b : bytes * A) : Prop := bytes_ltb (fst b) (fst a) = false.

#[export] Instance key_le_dec {A} : RelDecision (@key_le A) := fun a b => decide (bytes_ltb (fst b) (fst a) = false).

Section Build.
Context `{H : Blake3} `{P : Prost}.

(** One child of the directory being built: its message and the running size. *)
Definition add_child (entries : list NarLsEntry) (st : BuildState) (acc : option (castore.Directory * Z)) (c : nat)
    : option (castore.Directory * Z) :=
  match acc, entries !! c with
  | Some (d, size), Some child =>
      let name := basename (le_path child) in
      match le_kind child with
      | KRegular =>
          Some (mkDirectory (directories d)
                  (files d ++ [mkFileEntry name (le_file_digest child) (le_size child) (le_executable child)]) (symlinks d), size + 1)
      | KDirectory =>
          match b_dir_digests st !! c, b_dir_sizes st !! c with
          | Some digest, Some dsize =>
              Some (mkDirectory (directories d ++ [mkDirectoryEntry name digest dsize]) (files d) (symlinks d), size + 1 + dsize)
          | _, _ => None
          end
      | KSymlink =>
          Some (mkDirectory (directories d) (files d) (symlinks d ++ [mkSymlinkEntry name (le_target child)]), size + 1)
      end
  | _, _ => None
  end.

(** The body of the reverse loop at index [i]. *)
Definition build_step (entries : list NarLsEntry) (children : list (list nat)) (i : nat) (acc : option BuildState)
    : option BuildState :=
  match acc, entries !! i, children !! i with
  | Some st, Some e, Some cs =>
      match le_kind e with
      | KDirectory =>
          match fold_left (add_child entries st) cs (Some (mkDirectory [] [] [], 0)) with
          | Some (dir, size) =>
              let body := directory_encode dir in
              let dg := digest body in
              Some (mkBuildState (<[i := dg]> (b_dir_digests st)) (<[i := size]> (b_dir_sizes st))
                      (match b_bodies st !! dg with Some _ => b_bodies st | None => <[dg := body]> (b_bodies st) end))
          | None => None
          end
      | _ => Some st
      end
  | _, _, _ => None
  end.

Definition root_of (root : NarLsEntry) (root_dir_digest : bytes) : RootNode :=
  mkRootNode (Some (match le_kind root with
                    | KDirectory => DirDigest root_dir_digest
                    | KRegular => castore.File (mkFileEntry [] (le_file_digest root) (le_size root) (le_executable root))
                    | KSymlink => castore.Symlink (mkSymlinkEntry [] (le_target root))
                    end)).

Definition build (entries : list NarLsEntry) : option DirectoryDag :=
  match entries with
  | [] => None
  | root :: rest =>
      let n := length entries in
      match fill_children (path_to_idx entries) 1 (List.map le_path rest) (repeat [] n) with
      | None => None
      | Some children =>
          match fold_right (build_step entries children) (Some (mkBuildState (repeat no_digest n) (repeat 0 n) ∅)) (seq 0 n) with
          | None => None
          | Some st =>
              let root_dir_digest := default no_digest (b_dir_digests st !! 0%nat) in
              Some (mkDirectoryDag
                (merge_sort key_le (map_to_list (b_bodies st)))
                (merge_sort key_le (map_to_list (fst (fold_left add_blob entries (∅, 0)))))
                (root_encode (root_of root root_dir_digest))
                (match le_kind root with KDirectory => root_dir_digest | _ => [] end)
                (b_dir_digests st))
          end
      end
  end.

(** The bodies by recomputed digest. *)
Fixpoint decode_bodies (bodies : list bytes) (dirs : gmap bytes castore.Directory) : option (gmap bytes castore.Directory) :=
  match bodies with
  | [] => Some dirs
  | body :: bodies =>
      match directory_decode body with
      | None => None
      | Some dir => decode_bodies bodies (<[directory_digest dir := dir]> dirs)
      end
  end.

Definition decode_dag (root_node : bytes) (bodies : list bytes) : option (RootNode * gmap bytes castore.Directory) :=
  match root_decode root_node with
  | None => None
  | Some root => match decode_bodies bodies ∅ with Some dirs => Some (root, dirs) | None => None end
  end.
End Build.

(** ** Paths as component lists *)

Definition plain (name : bytes) : Prop := name <> [] /\ 47 ∉ name.

(** The path of a component list. *)
Fixpoint joinc (cs : list bytes) : bytes :=
  match cs with [] => [] | [c] => c | c :: cs => c ++ 47 :: joinc cs end.

Lemma rsplit_none s : 47 ∉ s -> rsplit_once 47 s = None.
Proof.
  induction s as [|b s IH]; intros Hs; cbn; [done|]. rewrite IH by set_solver. destruct (Z.eqb_spec b 47); [set_solver|done].
Qed.

Lemma rsplit_some a s : 47 ∉ s -> rsplit_once 47 (a ++ 47 :: s) = Some (a, s).
Proof.
  intros Hs. induction a as [|b a IH]; cbn; [by rewrite rsplit_none|]. by rewrite IH.
Qed.

Lemma joinc_snoc cs c : cs <> [] -> joinc (cs ++ [c]) = joinc cs ++ 47 :: c.
Proof.
  induction cs as [|x cs IH]; [done|]. intros _. destruct cs as [|y cs]; [done|].
  change (joinc ((x :: y :: cs) ++ [c])) with (x ++ 47 :: joinc ((y :: cs) ++ [c])). rewrite IH by done.
  change (joinc (x :: y :: cs)) with (x ++ 47 :: joinc (y :: cs)). by rewrite <- app_assoc.
Qed.

Lemma joinc_nonempty cs : Forall plain cs -> cs <> [] -> joinc cs <> [].
Proof.
  intros Hp Hn. destruct cs as [|c cs]; [done|]. apply Forall_cons in Hp as [[Hc _] _].
  destruct cs; cbn; [done|]. by destruct c.
Qed.

Lemma joinc_join cs c : Forall plain cs -> joinc (cs ++ [c]) = join_path (joinc cs) c.
Proof.
  intros Hp. unfold join_path, bytes_eqb. destruct (decide (cs = [])) as [->|Hn]; [done|].
  rewrite joinc_snoc by done. rewrite bool_decide_eq_false_2 by (by apply joinc_nonempty). cbn [negb]. by rewrite <- app_assoc.
Qed.

Lemma parent_joinc cs c : plain c -> parent_path (joinc (cs ++ [c])) = joinc cs.
Proof.
  intros [_ Hc]. unfold parent_path. destruct (decide (cs = [])) as [->|Hn]; [cbn; by rewrite rsplit_none|].
  by rewrite joinc_snoc, rsplit_some.
Qed.

Lemma basename_joinc cs c : plain c -> basename (joinc (cs ++ [c])) = c.
Proof.
  intros [_ Hc]. unfold basename. destruct (decide (cs = [])) as [->|Hn]; [cbn; by rewrite rsplit_none|].
  by rewrite joinc_snoc, rsplit_some.
Qed.

Lemma joinc_inj a b : Forall plain a -> Forall plain b -> joinc a = joinc b -> a = b.
Proof.
  revert b. induction a as [|x a IH] using rev_ind; intros b Ha Hb E.
  - destruct b as [|y b]; [done|]. exfalso. by apply (joinc_nonempty _ Hb).
  - destruct b as [|y b _] using rev_ind; [exfalso; by apply (joinc_nonempty _ Ha); [destruct a|]|].
    apply Forall_app in Ha as [Ha [Hx _]%Forall_cons]. apply Forall_app in Hb as [Hb [Hy _]%Forall_cons]. f_equal.
    + apply IH; [done..|]. by rewrite <- (parent_joinc a x Hx), E, parent_joinc.
    + by rewrite <- (basename_joinc a x Hx), E, basename_joinc.
Qed.

(** ** The nodes of an archive in walk order *)

Fixpoint subnodes (n : NarNode) (cs : list bytes) : list (list bytes * NarNode) :=
  (cs, n) :: match n with
             | NixNar.Directory es => flat_map (fun e => subnodes (snd e) (cs ++ [fst e])) es
             | _ => []
             end.

Definition below (es : list NarEntry) (cs : list bytes) : list (list bytes * NarNode) :=
  flat_map (fun e => subnodes (snd e) (cs ++ [fst e])) es.

Definition below_of (n : NarNode) (cs : list bytes) : list (list bytes * NarNode) :=
  match n with NixNar.Directory es => below es cs | _ => [] end.

Lemma subnodes_unfold n cs : subnodes n cs = (cs, n) :: below_of n cs.
Proof. by destruct n. Qed.

(** Names are plain and siblings are distinct. *)
Fixpoint tidy (n : NarNode) : Prop :=
  match n with
  | NixNar.Directory es =>
      NoDup (List.map fst es) /\ fold_right (fun e Q => (plain (fst e) /\ tidy (snd e)) /\ Q) True es
  | _ => True
  end.

Lemma tidy_directory es :
  tidy (NixNar.Directory es) <-> NoDup (List.map fst es) /\ Forall (fun e => plain (fst e) /\ tidy (snd e)) es.
Proof.
  cbn [tidy]. assert (Hf : forall es, fold_right (fun e Q => (plain (fst e) /\ tidy (snd e)) /\ Q) True es <->
    Forall (fun e => plain (fst e) /\ tidy (snd e)) es).
  { clear es. induction es as [|e es IH]; cbn [fold_right]; [done|]. by rewrite IH, Forall_cons. }
  by rewrite Hf.
Qed.

(** Every node of a subtree is below its root. *)
Lemma subnodes_prefix n cs x : x ∈ subnodes n cs -> exists s, fst x = cs ++ s.
Proof.
  revert cs. induction n as [b c|t|es IH] using NarNode_ind'; intros cs; rewrite subnodes_unfold.
  - intros ->%list_elem_of_singleton. exists []. by rewrite app_nil_r.
  - intros ->%list_elem_of_singleton. exists []. by rewrite app_nil_r.
  - intros [->|Hx]%elem_of_cons; [exists []; by rewrite app_nil_r|].
    apply list_elem_of_In, in_flat_map in Hx as (e & He & Hx). rewrite Forall_forall in IH.
    apply list_elem_of_In in He, Hx. destruct (IH e He _ Hx) as (s & ->). exists (fst e :: s). by rewrite <- app_assoc.
Qed.

Lemma below_prefix es cs x : x ∈ below es cs -> exists name s, name ∈ List.map fst es /\ fst x = cs ++ name :: s.
Proof.
  intros Hx. apply list_elem_of_In, in_flat_map in Hx as (e & He & Hx). apply list_elem_of_In in Hx.
  destruct (subnodes_prefix _ _ _ Hx) as (s & ->). exists (fst e), s. rewrite <- app_assoc. split; [|done].
  apply list_elem_of_In. by apply in_map.
Qed.

Lemma subnodes_NoDup n cs : tidy n -> NoDup (List.map fst (subnodes n cs)).
Proof.
  revert cs. induction n as [b c|t|es IH] using NarNode_ind'; intros cs Ht; rewrite subnodes_unfold; cbn [List.map fst].
  1, 2: apply NoDup_singleton.
  apply tidy_directory in Ht as [Hu Hf]. apply NoDup_cons. split.
  - intros Hin. apply list_elem_of_In, in_map_iff in Hin as (x & Hx & Hin). apply list_elem_of_In in Hin.
    destruct (below_prefix _ _ _ Hin) as (name & s & _ & E). rewrite Hx in E. apply (f_equal length) in E.
    rewrite length_app in E. cbn in E. lia.
  - induction IH as [|e es He _ IHes]; cbn [below_of below flat_map List.map]; [constructor|].
    cbn [List.map] in Hu. apply NoDup_cons in Hu as [Hn Hu]. apply Forall_cons in Hf as [[_ Hte] Hf].
    rewrite List.map_app. apply NoDup_app. split_and!; [by apply He| |by apply IHes].
    intros c Hc Hc'. apply list_elem_of_In, in_map_iff in Hc as (x & <- & Hx). apply list_elem_of_In, in_map_iff in Hc' as (y & Hxy & Hy).
    apply list_elem_of_In in Hx, Hy. destruct (subnodes_prefix _ _ _ Hx) as (s & E). destruct (below_prefix _ _ _ Hy) as (name & s' & Hin & E').
    rewrite <- Hxy, E', <- app_assoc in E. apply (inj (app cs)) in E. injection E as -> _. done.
Qed.

(** ** The children of a node *)

Definition kids (cs : list bytes) (m : NarNode) : list (list bytes * NarNode) :=
  match m with NixNar.Directory es => List.map (fun e => (cs ++ [fst e], snd e)) es | _ => [] end.

Definition child_of (p : list bytes) (x : list bytes * NarNode) : Prop := removelast (fst x) = p.

#[local] Instance child_of_dec p x : Decision (child_of p x) := decide (removelast (fst x) = p).

Lemma removelast_cons {A} (cs : list A) x s : removelast (cs ++ x :: s) = cs ++ removelast (x :: s).
Proof. by rewrite removelast_app. Qed.

Lemma filter_no_member {A} (Q : A -> Prop) `{!forall x, Decision (Q x)} l : (forall x, x ∈ l -> ~ Q x) -> filter Q l = [].
Proof.
  intros Hl. induction l as [|x l IH]; [done|]. rewrite filter_cons_False by (apply Hl; set_solver). apply IH. set_solver.
Qed.

(** The subtree at [cs ++ [name]] has no child of a node elsewhere. *)
Lemma filter_elsewhere n cs name p :
  p <> cs -> (forall s, p <> cs ++ name :: s) -> filter (child_of p) (subnodes n (cs ++ [name])) = [].
Proof.
  intros Hp Hs. apply filter_no_member. intros x Hx Hc. destruct (subnodes_prefix _ _ _ Hx) as (s & E). unfold child_of in Hc.
  rewrite E, <- app_assoc in Hc. cbn [app] in Hc. rewrite removelast_cons in Hc. destruct s as [|y s].
  - cbn in Hc. rewrite app_nil_r in Hc. done.
  - by apply (Hs (removelast (y :: s))).
Qed.

(** The children of the root of a subtree. *)
Lemma filter_root es cs : filter (child_of cs) (below es cs) = kids cs (NixNar.Directory es).
Proof.
  unfold below. cbn [kids]. induction es as [|e es IH]; cbn [flat_map List.map]; [done|]. rewrite filter_app, IH, subnodes_unfold.
  rewrite filter_cons_True by (unfold child_of; cbn; by rewrite removelast_last). rewrite (filter_no_member _ (below_of _ _)); [done|].
  destruct (snd e) as [b c|es'|t]; [set_solver| |set_solver]. intros x Hx Hc. destruct (below_prefix _ _ _ Hx) as (name & s & _ & E).
  unfold child_of in Hc. rewrite E, removelast_cons, <- app_assoc in Hc. cbn in Hc. apply (f_equal length) in Hc.
  rewrite length_app in Hc. cbn in Hc. lia.
Qed.

Lemma kids_filter n cs p m :
  tidy n -> (p, m) ∈ subnodes n cs -> filter (child_of p) (below_of n cs) = kids p m.
Proof.
  revert cs. induction n as [b c|t|es IH] using NarNode_ind'; intros cs Ht Hin; rewrite subnodes_unfold in Hin.
  1, 2: apply list_elem_of_singleton in Hin; injection Hin as -> ->; done.
  apply elem_of_cons in Hin as [[= -> ->]|Hin]; [apply filter_root|]. apply tidy_directory in Ht as [Hu Hf]. cbn [below_of]. unfold below in *.
  induction IH as [|e es He _ IHes]; cbn [flat_map] in *; [by apply elem_of_nil in Hin|]. cbn [List.map] in Hu.
  apply NoDup_cons in Hu as [Hn Hu]. apply Forall_cons in Hf as [[_ Hte] Hf]. rewrite filter_app. apply elem_of_app in Hin as [Hin|Hin].
  - pose proof (subnodes_prefix _ _ _ Hin) as (s & Hp). cbn in Hp. rewrite <- app_assoc in Hp. cbn in Hp.
    rewrite subnodes_unfold. rewrite filter_cons_False.
    2: { unfold child_of. cbn. rewrite removelast_last, Hp. intros E. apply (f_equal length) in E. rewrite length_app in E. cbn in E. lia. }
    rewrite (He _ Hte Hin), filter_no_member; [apply app_nil_r|]. intros x Hx Hc. destruct (below_prefix es cs x Hx) as (name & s' & Hname & E).
    unfold child_of in Hc. rewrite E, removelast_cons, Hp in Hc. apply (inj (app cs)) in Hc. destruct s' as [|y s']; [done|].
    change (removelast (name :: y :: s')) with (name :: removelast (y :: s')) in Hc. injection Hc as -> _. done.
  - pose proof (below_prefix es cs _ Hin) as (name & s & Hname & Hp). cbn in Hp. rewrite (filter_elsewhere _ cs (fst e)); [by apply IHes| |].
    + rewrite Hp. intros E. apply (f_equal length) in E. rewrite length_app in E. cbn in E. lia.
    + intros s' E. rewrite Hp in E. apply (inj (app cs)) in E. injection E as -> _. done.
Qed.

Lemma flat_map_lookup {A B} (f : A -> list B) l k x :
  flat_map f l !! k = Some x ->
  exists l1 a l2 i, l = l1 ++ a :: l2 /\ k = (length (flat_map f l1) + i)%nat /\ f a !! i = Some x.
Proof.
  revert k. induction l as [|a l IH]; intros k Hk; cbn [flat_map] in Hk; [done|].
  apply lookup_app_Some in Hk as [Hk|[Hl Hk]]; [by exists [], a, l, k|].
  destruct (IH _ Hk) as (l1 & a' & l2 & i & -> & Hi & Hx). exists (a :: l1), a', l2, i. split_and!; [done| |done].
  cbn [flat_map]. rewrite length_app. lia.
Qed.

(** A node's parent is a node before it. *)
Lemma parent_before n cs k x :
  subnodes n cs !! S k = Some x -> exists j m, (j < S k)%nat /\ subnodes n cs !! j = Some (removelast (fst x), m).
Proof.
  revert cs k. induction n as [b c|t|es IH] using NarNode_ind'; intros cs k; rewrite subnodes_unfold; cbn [below_of]; [done..|].
  cbn [lookup list_lookup]. intros Hk. apply flat_map_lookup in Hk as (es1 & e & es2 & i & -> & -> & Hx). destruct i as [|i].
  - rewrite subnodes_unfold in Hx. injection Hx as <-. exists 0%nat, (NixNar.Directory (es1 ++ e :: es2)). cbn.
    rewrite removelast_last. split; [lia|done].
  - rewrite Forall_forall in IH. destruct (IH e ltac:(set_solver) _ _ Hx) as (j & m & Hj & Hm).
    exists (S (length (below es1 cs) + j)), m. split; [unfold below; lia|].
    change (below (es1 ++ e :: es2) cs !! (length (below es1 cs) + j)%nat = Some (removelast (fst x), m)). unfold below.
    rewrite flat_map_app. cbn [flat_map]. rewrite lookup_app_r by lia. rewrite Nat.add_comm, Nat.add_sub.
    by apply lookup_app_l_Some.
Qed.

Lemma subnodes_plain n cs x : Forall plain cs -> tidy n -> x ∈ subnodes n cs -> Forall plain (fst x) /\ tidy (snd x).
Proof.
  revert cs. induction n as [b c|t|es IH] using NarNode_ind'; intros cs Hc Ht; rewrite subnodes_unfold; cbn [below_of].
  1, 2: by intros ->%list_elem_of_singleton.
  intros [->|Hx]%elem_of_cons; [done|]. apply list_elem_of_In, in_flat_map in Hx as (e & He & Hx). apply list_elem_of_In in He, Hx.
  apply tidy_directory in Ht as [_ Hf]. rewrite Forall_forall in IH, Hf. destruct (Hf e He) as [Hp Hte].
  apply (IH e He (cs ++ [fst e])); [|done|done]. apply Forall_app. split; [done|]. by constructor.
Qed.

(** A node below the root has a last component. *)
Lemma below_snoc n x : x ∈ below_of n [] -> fst x = removelast (fst x) ++ [List.last (fst x) []].
Proof.
  destruct n as [b c|es|t]; cbn [below_of]; [by intros ?%elem_of_nil| |by intros ?%elem_of_nil].
  intros Hx. destruct (below_prefix _ _ _ Hx) as (name & s & _ & E). apply app_removelast_last. by rewrite E.
Qed.

(** ** The index of the paths *)

Lemma index_paths_other i paths m p : p ∉ paths -> index_paths i paths m !! p = m !! p.
Proof.
  revert i m. induction paths as [|q paths IH]; intros i m Hp; cbn [index_paths]; [done|].
  rewrite IH by set_solver. apply lookup_insert_ne. set_solver.
Qed.

Lemma index_paths_lookup i paths m p j :
  NoDup paths -> paths !! j = Some p -> index_paths i paths m !! p = Some (i + j)%nat.
Proof.
  revert i m j. induction paths as [|q paths IH]; intros i m j Hu Hj; [done|]. apply NoDup_cons in Hu as [Hq Hu]. cbn [index_paths].
  destruct j as [|j]; cbn in Hj.
  - injection Hj as ->. rewrite index_paths_other by done. rewrite lookup_insert_eq. f_equal. lia.
  - rewrite (IH (S i) _ j) by done. f_equal. lia.
Qed.

(** The positions, from [i], of the paths whose parent has index [j]. *)
Fixpoint positions (idx : gmap bytes nat) (i : nat) (paths : list bytes) (j : nat) : list nat :=
  match paths with
  | [] => []
  | p :: paths => (if decide (idx !! parent_path p = Some j) then [i] else []) ++ positions idx (S i) paths j
  end.

Lemma fill_children_spec idx i paths ch :
  Forall (fun p => is_Some (idx !! parent_path p)) paths ->
  exists ch', fill_children idx i paths ch = Some ch' /\ length ch' = length ch /\
    forall j, ch' !! j = (fun l => l ++ positions idx i paths j) <$> ch !! j.
Proof.
  intros Hs. revert i ch. induction Hs as [|p paths [q Hq] _ IH]; intros i ch; cbn [fill_children positions].
  - exists ch. split_and!; [done..|]. intros j. destruct (ch !! j); cbn; [by rewrite app_nil_r|done].
  - rewrite Hq. destruct (IH (S i) (alter (fun l => l ++ [i]) q ch)) as (ch' & -> & Hl & Hj). exists ch'. split; [done|].
    split; [by rewrite Hl, length_alter|]. intros j. rewrite Hj. destruct (decide (Some q = Some j)) as [[= ->]|Hne].
    + rewrite list_lookup_alter_eq. destruct (ch !! j); cbn; [by rewrite <- app_assoc|done].
    + rewrite list_lookup_alter_ne by congruence. done.
Qed.

(** ** The nodes and the entries *)

Section Entries.
Context `{H : Blake3}.

Definition entry_of (x : list bytes * NarNode) (e : NarLsEntry) : Prop :=
  le_path e = joinc (fst x) /\
  match snd x with
  | Regular x c => le_kind e = KRegular /\ le_size e = len c /\ le_executable e = x /\ le_file_digest e = digest c
  | NixNar.Directory _ => le_kind e = KDirectory
  | NixNar.Symlink t => le_kind e = KSymlink /\ le_target e = t
  end.

Lemma index_entry_of n cs off :
  Forall plain cs -> tidy n -> Forall2 entry_of (subnodes n cs) (index_node n (joinc cs) off).
Proof.
  revert cs off. induction n as [b c|t|es IH] using NarNode_ind'; intros cs off Hc Ht; rewrite subnodes_unfold; cbn [below_of].
  - repeat constructor.
  - repeat constructor.
  - rewrite index_directory. constructor; [done|]. apply tidy_directory in Ht as [_ Hf].
    generalize (off + len dir_header). clear off. unfold below.
    induction IH as [|e es He _ IHes]; intros off; cbn [flat_map index_entries]; [constructor|].
    apply Forall_cons in Hf as [[Hp Hte] Hf]. apply Forall2_app; [|by apply IHes]. rewrite <- joinc_join by done.
    apply He; [|done]. apply Forall_app. split; [done|]. by constructor.
Qed.

Context (n : NarNode) (entries : list NarLsEntry).
Hypothesis Htidy : tidy n.
Let N := subnodes n [].
Hypothesis Hentries : Forall2 entry_of N entries.

Lemma entries_paths : List.map le_path entries = List.map (fun x => joinc (fst x)) N.
Proof.
  assert (Hg : forall l l', Forall2 entry_of l l' -> List.map le_path l' = List.map (fun x => joinc (fst x)) l); [|by apply Hg].
  induction 1 as [|x e l l' [Hp _] _ IH]; cbn; [done|]. by rewrite Hp, IH.
Qed.

Lemma N_plain j c m : N !! j = Some (c, m) -> Forall plain c /\ tidy m.
Proof. intros Hj%list_elem_of_lookup_2. apply (subnodes_plain n [] (c, m)); [constructor|done|done]. Qed.

Lemma paths_NoDup : NoDup (List.map (fun x => joinc (fst x)) N).
Proof.
  pose proof (subnodes_NoDup n [] Htidy) as Hu. apply NoDup_alt. intros i j p Hi Hj.
  change (List.map (fun x => joinc (fst x)) N) with ((fun x => joinc (fst x)) <$> N) in Hi, Hj.
  apply list_lookup_fmap_Some in Hi as ((c & m) & -> & Hi). apply list_lookup_fmap_Some in Hj as ((c' & m') & E & Hj). cbn in E.
  apply joinc_inj in E; [|exact (proj1 (N_plain _ _ _ Hi))|exact (proj1 (N_plain _ _ _ Hj))]. subst c'.
  change (NoDup (fst <$> N)) in Hu. eapply (NoDup_lookup _ i j c Hu); by rewrite list_lookup_fmap, ?Hi, ?Hj.
Qed.

Lemma idx_lookup j c m : N !! j = Some (c, m) -> path_to_idx entries !! joinc c = Some j.
Proof.
  intros Hj. unfold path_to_idx. rewrite entries_paths. rewrite (index_paths_lookup 0 _ _ _ j); [done|apply paths_NoDup|].
  change (List.map ?f N) with (f <$> N). by rewrite list_lookup_fmap, Hj.
Qed.

(** The parent of a node below the root, by its path. *)
Lemma idx_parent k x :
  N !! S k = Some x -> exists j m, (j < S k)%nat /\ N !! j = Some (removelast (fst x), m) /\
    path_to_idx entries !! parent_path (joinc (fst x)) = Some j.
Proof.
  intros Hx. destruct (parent_before n [] k x Hx) as (j & m & Hj & Hm). exists j, m. split_and!; [done|done|].
  assert (Hb : x ∈ below_of n []).
  { unfold N in Hx. rewrite subnodes_unfold in Hx. apply (list_elem_of_lookup_2 _ k). exact Hx. }
  pose proof (below_snoc n x Hb) as Hs. destruct x as [c mx]. destruct (N_plain _ _ _ Hx) as [Hpl _]. cbn [fst] in *.
  assert (Hlast : plain (List.last c [])) by (rewrite Hs in Hpl; by apply Forall_app in Hpl as [_ [Hl _]%Forall_cons]).
  rewrite Hs at 1. rewrite parent_joinc by done. by eapply idx_lookup.
Qed.

Lemma N_index_unique j j' c m m' : N !! j = Some (c, m) -> N !! j' = Some (c, m') -> j = j'.
Proof. intros Hj Hj'. apply idx_lookup in Hj, Hj'. congruence. Qed.

(** The children found through the paths are the children in the tree. *)
Lemma positions_nodes j p m pre rest :
  N !! j = Some (p, m) -> N = pre ++ rest -> pre <> [] ->
  let cl := positions (path_to_idx entries) (length pre) (List.map (fun x => joinc (fst x)) rest) j in
  List.map (fun k => N !! k) cl = List.map Some (filter (child_of p) rest) /\ Forall (fun k => (j < k)%nat) cl.
Proof.
  intros Hj. revert pre. induction rest as [|x rest IH]; intros pre Hpre Hne; cbn [positions List.map]; [by split|].
  destruct (IH (pre ++ [x])) as [IH1 IH2]; [by rewrite <- app_assoc|by destruct pre|].
  rewrite length_app in IH1, IH2. cbn [length] in IH1, IH2. rewrite Nat.add_1_r in IH1, IH2.
  assert (Hx : N !! length pre = Some x) by (rewrite Hpre; apply lookup_cursor).
  assert (exists k, length pre = S k) as (k & Hk) by (destruct pre; [done|by eexists]). rewrite Hk in Hx |- *.
  destruct (idx_parent k x Hx) as (j' & m' & Hlt & Hj' & Hidx). rewrite Hidx, <- Hk.
  destruct (decide (Some j' = Some j)) as [[= ->]|Hne'].
  - rewrite Hj in Hj'. injection Hj' as Hp _. rewrite filter_cons_True by done. cbn [app List.map]. rewrite Hk, Hx, <- Hk. split; [by rewrite IH1|].
    constructor; [lia|done].
  - rewrite filter_cons_False; [done|]. unfold child_of. intros Hp. rewrite Hp in Hj'. apply Hne'. f_equal. by eapply N_index_unique.
Qed.

Lemma lookup_repeat {A} (x : A) k i : (i < k)%nat -> repeat x k !! i = Some x.
Proof. revert i. induction k as [|k IH]; intros [|i] Hi; cbn; [lia..|done|]. apply IH. lia. Qed.

(** The table of children that [build] computes. *)
Lemma build_children root rest :
  entries = root :: rest ->
  exists children, fill_children (path_to_idx entries) 1 (List.map le_path rest) (repeat [] (length entries)) = Some children /\
    forall j p m, N !! j = Some (p, m) -> exists cl, children !! j = Some cl /\ Forall (fun k => (j < k)%nat) cl /\
      List.map (fun k => N !! k) cl = List.map Some (kids p m).
Proof.
  intros He. pose proof entries_paths as Hp. rewrite He in Hp. assert (HN : N = ([], n) :: below_of n []) by apply subnodes_unfold.
  rewrite HN in Hp. cbn [List.map] in Hp. injection Hp as _ Hp. rewrite Hp.
  edestruct (fill_children_spec (path_to_idx entries) 1 (List.map (fun x => joinc (fst x)) (below_of n [])) (repeat [] (length entries)))
    as (ch & Hch & Hlen & Hl).
  { apply Forall_forall. intros q Hq. apply list_elem_of_In, in_map_iff in Hq as (x & <- & Hx). apply list_elem_of_In in Hx.
    apply list_elem_of_lookup_1 in Hx as (k & Hk). destruct (idx_parent k x) as (j & m & _ & _ & Hidx); [by rewrite HN|]. by exists j. }
  exists ch. split; [done|]. intros j p m Hj. exists (positions (path_to_idx entries) 1 (List.map (fun x => joinc (fst x)) (below_of n [])) j).
  rewrite Hl, lookup_repeat. 2: { rewrite <- (Forall2_length _ _ _ Hentries). by eapply lookup_lt_Some. }
  destruct (positions_nodes j p m [([], n)] (below_of n []) Hj HN ltac:(done)) as [Hpos Hlt]. split; [done|]. split; [done|].
  cbn [length] in Hpos. rewrite Hpos. f_equal. apply kids_filter; [done|]. by eapply list_elem_of_lookup_2.
Qed.
End Entries.
