(* ===== verification/StoreRoundTrip.v ===== *)
(** * Store: an archive survives its directory bodies

    The bottom-up pass of [StoreBuild] yields the directory messages of the
    tree, [decode_dag] reads them back, and the walk over them is the walk over
    the archive's tree. *)

From stdpp Require Import sorting.
From S2P Require Import Prelude NixBytes NixNar NixNarLs StoreCastore StoreWalk StoreNar StoreValid StoreBuild.
Import castore.

#[local] Open Scope Z_scope.

(** ** The messages of a tree *)

(** The number of nodes below [n]. *)
Fixpoint node_size (n : NarNode) : Z :=
  match n with NixNar.Directory es => fold_right (fun e s => 1 + node_size (snd e) + s) 0 es | _ => 0 end.

Definition size_of (es : list NarEntry) : Z := fold_right (fun e s => 1 + node_size (snd e) + s) 0 es.

Section Message.
Context `{H : Blake3} `{P : Prost}.

Definition cons_entry (name : bytes) (n : NarNode) (dg : bytes) (d : castore.Directory) : castore.Directory :=
  match n with
  | Regular x c => mkDirectory (directories d) (mkFileEntry name (digest c) (len c) x :: files d) (symlinks d)
  | NixNar.Directory _ => mkDirectory (mkDirectoryEntry name dg (node_size n) :: directories d) (files d) (symlinks d)
  | NixNar.Symlink t => mkDirectory (directories d) (files d) (mkSymlinkEntry name t :: symlinks d)
  end.

Fixpoint node_digest (n : NarNode) : bytes :=
  match n with
  | NixNar.Directory es =>
      directory_digest (fold_right (fun e d => cons_entry (fst e) (snd e) (node_digest (snd e)) d) (mkDirectory [] [] []) es)
  | _ => no_digest
  end.

(** The message of a directory with entries [es]. *)
Definition message (es : list NarEntry) : castore.Directory :=
  fold_right (fun e d => cons_entry (fst e) (snd e) (node_digest (snd e)) d) (mkDirectory [] [] []) es.

Lemma node_digest_directory es : node_digest (NixNar.Directory es) = digest (directory_encode (message es)).
Proof. done. Qed.

Definition dir_app (a b : castore.Directory) : castore.Directory :=
  mkDirectory (directories a ++ directories b) (files a ++ files b) (symlinks a ++ symlinks b).

Lemma dir_app_nil_r d : dir_app d (mkDirectory [] [] []) = d.
Proof. unfold dir_app. cbn. rewrite !app_nil_r. by destruct d. Qed.

(** ** The bottom-up pass *)

Context (n : NarNode) (entries : list NarLsEntry).
Hypothesis Htidy : tidy n.
Let N := subnodes n [].
Hypothesis Hentries : Forall2 entry_of N entries.

Lemma entry_at k x : N !! k = Some x -> exists e, entries !! k = Some e /\ entry_of x e.
Proof. intros Hk. by destruct (Forall2_lookup_l _ _ _ _ _ Hentries Hk) as (e & He & Ho); exists e. Qed.

(** The state knows the directory at [k]. *)
Definition knows (st : BuildState) (k : nat) : Prop :=
  forall c es, N !! k = Some (c, NixNar.Directory es) ->
    b_dir_digests st !! k = Some (node_digest (NixNar.Directory es)) /\ b_dir_sizes st !! k = Some (node_size (NixNar.Directory es)).

Lemma add_child_one st d s k p e :
  N !! k = Some (p ++ [fst e], snd e) -> plain (fst e) -> knows st k ->
  add_child entries st (Some (d, s)) k =
    Some (dir_app d (cons_entry (fst e) (snd e) (node_digest (snd e)) (mkDirectory [] [] [])), s + (1 + node_size (snd e))).
Proof.
  intros Hk Hp Hkn. destruct (entry_at _ _ Hk) as (le & Hle & Hpath & Ho). cbn [fst snd] in *. unfold add_child, dir_app. rewrite Hle, Hpath, basename_joinc by done.
  destruct (snd e) as [x c|es|t] eqn:Hn.
  - destruct Ho as (-> & -> & -> & ->). cbn. by rewrite !app_nil_r.
  - rewrite Ho. destruct (Hkn _ _ Hk) as [-> ->]. cbn [cons_entry directories files symlinks]. rewrite !app_nil_r, Z.add_assoc. done.
  - destruct Ho as (-> & ->). cbn. by rewrite !app_nil_r.
Qed.

Lemma add_children st p es cl :
  List.map (fun k => N !! k) cl = List.map Some (List.map (fun e => (p ++ [fst e], snd e)) es) ->
  Forall (fun e => plain (fst e)) es -> Forall (knows st) cl ->
  forall d s, fold_left (add_child entries st) cl (Some (d, s)) = Some (dir_app d (message es), s + size_of es).
Proof.
  revert es. induction cl as [|k cl IH]; intros es Hm Hp Hk d s; destruct es as [|e es]; try done; cbn [List.map] in Hm.
  { cbn. by rewrite dir_app_nil_r, Z.add_0_r. }
  injection Hm as Hk1 Hm. apply Forall_cons in Hp as [Hp1 Hp]. apply Forall_cons in Hk as [Hkn Hk]. cbn [fold_left].
  rewrite (add_child_one st d s k p e) by done. rewrite (IH es) by done. f_equal. f_equal.
  - cbn [message fold_right]. fold (message es). unfold dir_app, cons_entry. destruct (snd e); cbn; by rewrite <- ?app_assoc.
  - cbn [size_of fold_right]. fold (size_of es). lia.
Qed.

Definition is_body (d b : bytes) : Prop :=
  exists k c es, N !! k = Some (c, NixNar.Directory es) /\ d = node_digest (NixNar.Directory es) /\ b = directory_encode (message es).

(** The state when the loop has done the indices from [k] on. *)
Record built (k : nat) (st : BuildState) : Prop := {
  built_lengths : length (b_dir_digests st) = length N /\ length (b_dir_sizes st) = length N;
  built_knows : forall j, (k <= j)%nat -> knows st j;
  built_bodies : forall d b, b_bodies st !! d = Some b -> is_body d b;
  built_all : forall j c es, (k <= j)%nat -> N !! j = Some (c, NixNar.Directory es) ->
    is_Some (b_bodies st !! node_digest (NixNar.Directory es));
}.

Context (children : list (list nat)).
Hypothesis Hchildren : forall j p m, N !! j = Some (p, m) -> exists cl, children !! j = Some cl /\ Forall (fun k => (j < k)%nat) cl /\
  List.map (fun k => N !! k) cl = List.map Some (kids p m).

Lemma build_step_spec k st :
  (k < length N)%nat -> built (S k) st -> exists st', build_step entries children k (Some st) = Some st' /\ built k st'.
Proof.
  intros Hlt [[Hl1 Hl2] Hkn Hbo Hall]. destruct (lookup_lt_is_Some_2 N k Hlt) as ((p & m) & Hk).
  destruct (entry_at _ _ Hk) as (e & He & Hpath & Ho). destruct (Hchildren _ _ _ Hk) as (cl & Hcl & Hgt & Hmap).
  unfold build_step. rewrite He, Hcl. cbn [snd] in Ho.
  assert (Hskip : (forall es, m <> NixNar.Directory es) -> built k st).
  { intros Hnd. constructor; [done| |done|].
    - intros j Hj. destruct (decide (j = k)) as [->|]; [|apply Hkn; lia]. intros c es Hj'. rewrite Hk in Hj'. injection Hj' as _ ->. by destruct (Hnd es).
    - intros j c es Hj Hj'. destruct (decide (j = k)) as [->|]; [|eapply Hall; [|exact Hj']; lia]. rewrite Hk in Hj'. injection Hj' as _ ->. by destruct (Hnd es). }
  destruct m as [x c|es|t]; [destruct Ho as (-> & _); eauto| |destruct Ho as (-> & _); eauto]. rewrite Ho.
  destruct (subnodes_plain n [] (p, NixNar.Directory es) (Forall_nil_2 _) Htidy (list_elem_of_lookup_2 _ _ _ Hk)) as [_ Ht].
  apply tidy_directory in Ht as [_ Hf].
  rewrite (add_children st p es cl); [|done|eapply Forall_impl; [exact Hf|by intros ? []]|eapply Forall_impl; [exact Hgt|intros j Hj; apply Hkn; cbn in Hj; lia]].
  eexists. split; [reflexivity|]. rewrite Z.add_0_l. change (dir_app (mkDirectory [] [] []) (message es)) with
    (mkDirectory (directories (message es)) (files (message es)) (symlinks (message es))).
  assert (Heta : mkDirectory (directories (message es)) (files (message es)) (symlinks (message es)) = message es) by (by destruct (message es)).
  rewrite Heta, <- node_digest_directory. constructor; cbn [b_dir_digests b_dir_sizes b_bodies].
  - by rewrite !length_insert.
  - intros j Hj c es' Hj'. cbn [b_dir_digests b_dir_sizes]. destruct (decide (j = k)) as [->|Hne].
    + rewrite Hk in Hj'. injection Hj' as _ <-. rewrite !list_lookup_insert_eq by lia. done.
    + rewrite !list_lookup_insert_ne by done. apply (Hkn j ltac:(lia) _ _ Hj').
  - intros d b. destruct (b_bodies st !! node_digest (NixNar.Directory es)) eqn:Hb; [apply Hbo|].
    rewrite lookup_insert_Some. intros [[<- <-]|[_ Hd]]; [by exists k, p, es|by apply Hbo].
  - intros j c es' Hj Hj'. destruct (decide (j = k)) as [->|Hne].
    + rewrite Hk in Hj'. injection Hj' as _ <-. destruct (b_bodies st !! node_digest (NixNar.Directory es)) eqn:Hb; [by rewrite Hb|].
      by rewrite lookup_insert_eq.
    + destruct (Hall j c es' ltac:(lia) Hj') as [b Hb]. destruct (b_bodies st !! node_digest (NixNar.Directory es)) eqn:Hb'; [by eauto|].
      rewrite lookup_insert_ne by congruence. by eauto.
Qed.

Lemma build_loop m k :
  (k + m = length N)%nat ->
  exists st, fold_right (build_step entries children)
      (Some (mkBuildState (repeat no_digest (length N)) (repeat 0 (length N)) ∅)) (seq k m) = Some st /\ built k st.
Proof.
  revert k. induction m as [|m IH]; intros k Hk; cbn [seq fold_right].
  - eexists. split; [reflexivity|]. constructor; cbn [b_dir_digests b_dir_sizes b_bodies].
    + by rewrite !repeat_length.
    + intros j Hj c es Hj'. apply lookup_lt_Some in Hj'. lia.
    + intros d b Hd. by rewrite lookup_empty in Hd.
    + intros j c es Hj Hj'. apply lookup_lt_Some in Hj'. lia.
  - destruct (IH (S k) ltac:(lia)) as (st & -> & Hst). destruct (build_step_spec k st) as (st' & -> & Hst'); [lia|done|]. eauto.
Qed.
End Message.

(** ** The children of a message *)

Section Children.
Context `{H : Blake3} `{P : Prost}.

Definition entry_child (e : NarEntry) : Child :=
  match snd e with
  | Regular x c => CFile (mkFileEntry (fst e) (digest c) (len c) x)
  | NixNar.Directory es => CDir (mkDirectoryEntry (fst e) (node_digest (snd e)) (node_size (snd e)))
  | NixNar.Symlink t => CSymlink (mkSymlinkEntry (fst e) t)
  end.

Lemma entry_child_name e : child_name (entry_child e) = fst e.
Proof. unfold entry_child. by destruct (snd e). Qed.

Lemma message_permutation es :
  List.map CDir (directories (message es)) ++ List.map CFile (files (message es)) ++ List.map CSymlink (symlinks (message es)) ≡ₚ
  List.map entry_child es.
Proof.
  induction es as [|e es IH]; [done|]. cbn [message fold_right List.map]. fold (message es). rewrite <- IH.
  unfold entry_child. destruct (snd e) as [x c|es'|t]; cbn [cons_entry directories files symlinks List.map app].
  - symmetry. apply Permutation_middle.
  - done.
  - rewrite !app_assoc. symmetry. apply Permutation_middle.
Qed.

Lemma entry_children_sorted es : names_after None (List.map fst es) -> StronglySorted name_le (List.map entry_child es).
Proof.
  intros [Hs _]%names_after_sorted. unfold strictly_sorted in Hs. induction es as [|e es IH]; cbn [List.map] in *; [constructor|].
  apply StronglySorted_cons in Hs as [Hx Hs]. constructor; [by apply IH|]. apply Forall_forall. intros c Hc.
  apply list_elem_of_In, in_map_iff in Hc as (e' & <- & He'). unfold name_le. rewrite !entry_child_name.
  rewrite Forall_forall in Hx. assert (Hlt : bytes_ltb (fst e) (fst e') = true) by (apply Hx, list_elem_of_In; by apply in_map).
  destruct (bytes_ltb (fst e') (fst e)) eqn:E; [|done]. pose proof (bytes_ltb_trans _ _ _ Hlt E) as Hi. by rewrite bytes_ltb_irrefl in Hi.
Qed.

Lemma merged_message es : names_after None (List.map fst es) -> merged_children (message es) = List.map entry_child es.
Proof.
  intros Hn. apply (StronglySorted_unique_strong name_le).
  - intros c1 c2 H1 H2 L1 L2. rewrite merged_permutation, message_permutation in H1.
    apply list_elem_of_In, in_map_iff in H1 as (e1 & <- & H1). apply list_elem_of_In, in_map_iff in H2 as (e2 & <- & H2).
    unfold name_le in *. rewrite !entry_child_name in *. assert (E : fst e1 = fst e2).
    { destruct (bytes_ltb_total (fst e1) (fst e2)) as [?|[?|?]]; [congruence|done|congruence]. }
    apply list_elem_of_In, list_elem_of_lookup_1 in H1 as (i & Hi). apply list_elem_of_In, list_elem_of_lookup_1 in H2 as (j & Hj).
    pose proof (names_after_NoDup _ _ Hn) as Hu. change (NoDup (fst <$> es)) in Hu.
    rewrite (NoDup_lookup _ i j (fst e1) Hu) in Hi; [congruence|by rewrite list_lookup_fmap, Hi|by rewrite list_lookup_fmap, Hj, E].
  - apply StronglySorted_merge_sort; apply _.
  - by apply entry_children_sorted.
  - by rewrite merged_permutation, message_permutation.
Qed.
End Children.

(** ** Reading the bodies back *)

(** BLAKE3 digests are 32 bytes. *)
Class Blake3Width (H : Blake3) : Prop := { digest_length b : length (digest b) = 32%nat }.

(** No two directories of [n] collide: bodies of equal digest are equal. *)
Definition no_collision `{Blake3, Prost} (n : NarNode) : Prop :=
  forall c1 es1 c2 es2, (c1, NixNar.Directory es1) ∈ subnodes n [] -> (c2, NixNar.Directory es2) ∈ subnodes n [] ->
    node_digest (NixNar.Directory es1) = node_digest (NixNar.Directory es2) -> message es1 = message es2.

Section Decode.
Context `{H : Blake3} `{P : Prost} `{!ProstLaws P} `{!Blake3Width H}.

(** Every body is an encoding, and equal digests are equal directories. *)
Lemma decode_bodies_spec bodies dirs :
  Forall (fun b => exists d, b = directory_encode d) bodies ->
  exists dirs', decode_bodies bodies dirs = Some dirs' /\
    forall d, (forall d', directory_encode d' ∈ bodies -> directory_digest d' = directory_digest d -> d' = d) ->
      (directory_encode d ∈ bodies \/ dirs !! directory_digest d = Some d) -> dirs' !! directory_digest d = Some d.
Proof.
  intros Hb. revert dirs. induction Hb as [|b bodies [d0 ->] _ IH]; intros dirs; cbn [decode_bodies].
  { exists dirs. split; [done|]. intros d _ [Hd|Hd]; [by apply elem_of_nil in Hd|done]. }
  rewrite directory_decode_encode. destruct (IH (<[directory_digest d0 := d0]> dirs)) as (dirs' & -> & Hd'). exists dirs'. split; [done|].
  intros d Hu Hd. apply Hd'; [intros d' Hin; apply Hu; by right|]. destruct (decide (directory_digest d0 = directory_digest d)) as [E|E].
  - right. rewrite (Hu d0 (list_elem_of_here _ _) E). apply lookup_insert_eq.
  - rewrite lookup_insert_ne by done. destruct Hd as [[E'|Hd]%elem_of_cons|Hd]; [|by left|by right].
    exfalso. apply E. unfold directory_digest. by rewrite <- E'.
Qed.

(** Names are strictly increasing in every directory. *)
Fixpoint ordered (m : NarNode) : Prop :=
  match m with
  | NixNar.Directory es => names_after None (List.map fst es) /\ fold_right (fun (e : NarEntry) Q => ordered (snd e) /\ Q) True es
  | _ => True
  end.

Lemma ordered_directory es :
  ordered (NixNar.Directory es) <-> names_after None (List.map fst es) /\ Forall (fun e => ordered (snd e)) es.
Proof.
  cbn [ordered]. assert (Hf : forall es, fold_right (fun (e : NarEntry) Q => ordered (snd e) /\ Q) True es <-> Forall (fun e => ordered (snd e)) es).
  { clear es. induction es as [|e es IH]; cbn [fold_right]; [done|]. by rewrite IH, Forall_cons. }
  by rewrite Hf.
Qed.

(** A map that has every directory of [m]. *)
Definition holds_bodies (dirs : gmap bytes castore.Directory) (m : NarNode) (cs : list bytes) : Prop :=
  forall c es, (c, NixNar.Directory es) ∈ subnodes m cs -> dirs !! node_digest (NixNar.Directory es) = Some (message es).

(** A node is denoted by its entry in its parent's message. *)
Lemma denotes_entry_child dirs m : forall name cs,
  ordered m -> holds_bodies dirs m cs -> denotes dirs (entry_child (name, m)) (skel m).
Proof.
  induction m as [x c|t|es IH] using NarNode_ind'; intros name cs Ho Hb.
  - cbn. by rewrite digest_length.
  - done.
  - apply ordered_directory in Ho as [Hn Hf]. unfold entry_child. cbn [fst snd skel]. apply denotes_dir. cbn [d_digest].
    split; [rewrite node_digest_directory; apply digest_length|]. exists (message es).
    split; [apply (Hb cs); rewrite subnodes_unfold; left|]. rewrite merged_message by done.
    apply Forall2_fmap_2. apply Forall_Forall2_diag, Forall_forall. intros e He. unfold denotes_entry. cbn [fst snd].
    rewrite entry_child_name. split; [done|]. rewrite Forall_forall in IH, Hf. destruct e as [nm m]. cbn [fst snd] in *.
    apply (IH (nm, m) He nm (cs ++ [nm])); [by apply (Hf (nm, m))|]. intros c es' Hin. apply (Hb c).
    rewrite subnodes_unfold. right. cbn [below_of]. unfold below. apply list_elem_of_In, in_flat_map. exists (nm, m).
    split; by apply list_elem_of_In.
Qed.

(** The root node that [build] stores denotes the archive's tree. *)
Lemma root_of_denotes dirs n e :
  ordered n -> holds_bodies dirs n [] -> entry_of ([], n) e -> root_denotes dirs (root_of e (node_digest n)) (skel n).
Proof.
  intros Ho Hb [_ He]. pose proof (denotes_entry_child dirs n [] [] Ho Hb) as Hd. unfold root_denotes, root_of. cbn [node snd] in *.
  destruct n as [x c|es|t].
  - destruct He as (-> & -> & -> & ->). exact Hd.
  - rewrite He. unfold entry_child in Hd. cbn [fst snd] in Hd. cbn [skel] in *. apply denotes_dir in Hd. by apply denotes_dir.
  - destruct He as (-> & ->). exact Hd.
Qed.

(** The bodies that the pass stored, read back in any order. *)
Lemma decode_built n st bodies :
  no_collision n -> built n 0 st -> bodies ≡ₚ List.map snd (merge_sort key_le (map_to_list (b_bodies st))) ->
  exists dirs, decode_bodies bodies ∅ = Some dirs /\ holds_bodies dirs n [].
Proof.
  intros Hc Hb Hperm.
  assert (Hin : forall b, b ∈ bodies <-> exists d, b_bodies st !! d = Some b).
  { intros b. rewrite Hperm. change (List.map snd ?l) with (snd <$> l). rewrite list_elem_of_fmap. setoid_rewrite merge_sort_Permutation.
    split; [intros ((d & b') & -> & Hd); exists d; by apply elem_of_map_to_list|].
    intros (d & Hd). exists (d, b). split; [done|]. by apply elem_of_map_to_list. }
  destruct (decode_bodies_spec bodies ∅) as (dirs & Hdirs & Hd).
  { apply Forall_forall. intros b (d & Hd)%Hin. destruct (built_bodies _ _ _ Hb _ _ Hd) as (k & c & es & _ & _ & ->). by eexists. }
  exists dirs. split; [done|]. intros c es Hes. pose proof Hes as (k & Hk)%list_elem_of_lookup_1.
  destruct (built_all _ _ _ Hb k c es ltac:(lia) Hk) as (b & Hbk).
  assert (Hsame : forall d b, b_bodies st !! d = Some b -> d = node_digest (NixNar.Directory es) -> b = directory_encode (message es)).
  { intros d b' Hbd ->. destruct (built_bodies _ _ _ Hb _ _ Hbd) as (k' & c' & es' & Hk' & E & ->).
    by rewrite (Hc _ _ _ _ Hes (list_elem_of_lookup_2 _ _ _ Hk') E). }
  apply (Hd (message es)).
  - intros d' (d & Hdd)%Hin Eq. destruct (built_bodies _ _ _ Hb _ _ Hdd) as (k' & c' & es' & _ & E & Eb).
    assert (Heq : directory_encode d' = directory_encode (message es)).
    { apply (Hsame _ _ Hdd). rewrite E, node_digest_directory, <- Eb. exact Eq. }
    apply (f_equal directory_decode) in Heq. rewrite !directory_decode_encode in Heq. by injection Heq.
  - left. apply Hin. exists (node_digest (NixNar.Directory es)). by rewrite Hbk, (Hsame _ _ Hbk).
Qed.

(** [build] and [decode_dag] on the index of a tidy archive. *)
Lemma build_decode n entries :
  tidy n -> ordered n -> no_collision n -> Forall2 entry_of (subnodes n []) entries ->
  exists dag, build entries = Some dag /\
    dag_file_blobs dag = merge_sort key_le (map_to_list (fst (fold_left add_blob entries (∅, 0)))) /\
    forall bodies, bodies ≡ₚ List.map snd (dag_directories dag) ->
      exists root dirs, decode_dag (dag_root_node dag) bodies = Some (root, dirs) /\ root_denotes dirs root (skel n).
Proof.
  intros Ht Ho Hc He. pose proof (subnodes_unfold n []) as HN. pose proof He as He0. rewrite HN in He0.
  inversion He0 as [|? e0 ? rest Hroot _ E0 E1]. clear E0. subst entries. clear He0.
  destruct (build_children n (e0 :: rest) Ht He e0 rest eq_refl) as (ch & Hch & Hkids).
  destruct (build_loop n (e0 :: rest) Ht He ch Hkids (length (subnodes n [])) 0 eq_refl) as (st & Hst & Hb).
  rewrite (Forall2_length _ _ _ He) in Hst. unfold build. rewrite Hch, Hst. eexists. split; [reflexivity|].
  cbn [dag_root_node dag_directories dag_file_blobs]. split; [reflexivity|]. intros bodies Hperm.
  destruct (decode_built n st bodies Hc Hb Hperm) as (dirs & Hdirs & Hhold). eexists _, dirs.
  unfold decode_dag. rewrite root_decode_encode, Hdirs. split; [reflexivity|].
  assert (Hdig : forall es, n = NixNar.Directory es -> default no_digest (b_dir_digests st !! 0%nat) = node_digest n).
  { intros es ->. destruct (built_knows _ _ _ Hb 0%nat ltac:(lia) [] es) as [-> _]; [by rewrite HN|done]. }
  pose proof (root_of_denotes dirs n e0 Ho Hhold Hroot) as Hr. destruct n as [fx fc|es|t]; [|by rewrite (Hdig es)|].
  - destruct Hroot as (_ & Hk & _). unfold root_of in *. by rewrite Hk in *.
  - destruct Hroot as (_ & Hk & _). unfold root_of in *. by rewrite Hk in *.
Qed.
End Decode.

(** ** What the index pass accepts is tidy *)

Lemma name_plain name : ls_name_wf name -> plain name.
Proof.
  intros [_ Hn]. unfold entry_name_ok in Hn. rewrite negb_true_iff, !orb_false_iff in Hn. destruct Hn as [[[[H1 _] _] H4] _]. split.
  - intros ->. done.
  - intros Hin. assert (elem_byte 47 name = true); [|congruence]. apply existsb_exists. exists 47.
    split; [by apply list_elem_of_In|apply Z.eqb_refl].
Qed.

Lemma ls_wf_tidy levels n : ls_wf levels n -> tidy n /\ ordered n.
Proof.
  revert levels. induction n as [x c|t|es IH] using NarNode_ind'; intros [|levels] Hw; try done.
  apply ls_wf_S in Hw as (_ & Hn & Hf). rewrite tidy_directory, ordered_directory.
  split; (split; [by eauto using names_after_NoDup|]); rewrite Forall_forall in *; intros e He; destruct (Hf e He) as [Hp Hw];
    destruct (IH e He levels Hw) as [Ht Ho]; [split; [by apply name_plain|done]|done].
Qed.

(** ** The table of file blobs *)

Section Blobs.
Context `{H : Blake3}.

(** The contents of the regular files of a list of nodes, back to back. *)
Definition blob_stream (l : list (list bytes * NarNode)) : bytes :=
  flat_map (fun x => match snd x with Regular _ c => c | _ => [] end) l.

Lemma blob_stream_app a b : blob_stream (a ++ b) = blob_stream a ++ blob_stream b.
Proof. apply flat_map_app. Qed.

Lemma concat_contents n cs : concat (contents n) = blob_stream (subnodes n cs).
Proof.
  revert cs. induction n as [x c|t|es IH] using NarNode_ind'; intros cs; rewrite subnodes_unfold; cbn [contents below_of]; [done..|].
  change (blob_stream ((cs, NixNar.Directory es) :: below es cs)) with (blob_stream (below es cs)). unfold below.
  induction IH as [|e es He _ IHes]; cbn [flat_map]; [done|]. by rewrite concat_app, blob_stream_app, IHes, (He (cs ++ [fst e])).
Qed.

Lemma contents_subnode n cs c : c ∈ contents n -> exists p x, (p, Regular x c) ∈ subnodes n cs.
Proof.
  revert cs. induction n as [x b|t|es IH] using NarNode_ind'; intros cs; rewrite subnodes_unfold; cbn [contents below_of].
  - intros ->%list_elem_of_singleton. exists cs, x. left.
  - by intros ?%elem_of_nil.
  - intros Hin. apply list_elem_of_In, in_flat_map in Hin as (e & He & Hin). apply list_elem_of_In in He, Hin. rewrite Forall_forall in IH.
    destruct (IH e He (cs ++ [fst e]) Hin) as (p & x & Hp). exists p, x. right. apply list_elem_of_In, in_flat_map. exists e.
    split; by apply list_elem_of_In.
Qed.

(** The table after the entries of [pre]. *)
Definition blobs_ok (pre : list (list bytes * NarNode)) (m : gmap bytes (Z * Z)) (off : Z) : Prop :=
  off = len (blob_stream pre) /\
  (forall d o s, m !! d = Some (o, s) -> exists c, d = digest c /\ s = len c /\ 0 <= o /\ o + s <= off /\ slice (blob_stream pre) o s = c) /\
  (forall p x c, (p, Regular x c) ∈ pre -> is_Some (m !! digest c)).

Lemma slice_prefix a b o s : 0 <= o -> 0 <= s -> o + s <= len a -> slice (a ++ b) o s = slice a o s.
Proof.
  intros Ho Hs Hl. unfold slice, len in *. rewrite drop_app_le by lia. apply take_app_le. rewrite length_drop. lia.
Qed.

Lemma slice_end a c b : slice (a ++ c ++ b) (len a) (len c) = c.
Proof.
  unfold slice, len. rewrite !Nat2Z.id, drop_app_length. apply take_app_length.
Qed.

Lemma add_blob_ok pre x e m off :
  entry_of x e -> blobs_ok pre m off -> blobs_ok (pre ++ [x]) (fst (add_blob (m, off) e)) (snd (add_blob (m, off) e)).
Proof.
  intros [_ He] (Hoff & Hm & Hall). destruct x as [p n]. cbn [snd] in He. unfold blobs_ok. rewrite blob_stream_app.
  assert (Hold : forall c, blob_stream [(p, n)] = c -> forall d o s, m !! d = Some (o, s) ->
    exists c', d = digest c' /\ s = len c' /\ 0 <= o /\ o + s <= off + len c /\ slice (blob_stream pre ++ c) o s = c').
  { intros c _ d o s Hd. destruct (Hm _ _ _ Hd) as (c' & -> & -> & Ho & Hs & Hsl). exists c'. split_and!; try done; [unfold len in *; lia|].
    rewrite slice_prefix; [done|done|unfold len; lia|lia]. }
  unfold add_blob. destruct n as [fx c|es|t].
  - destruct He as (-> & -> & _ & ->). change (blob_stream [(p, Regular fx c)]) with (c ++ []). rewrite app_nil_r. cbn [fst snd].
    split_and!; [by rewrite len_app, Hoff| |].
    + destruct (m !! digest c) as [v|] eqn:Hc; [by apply Hold; apply app_nil_r|]. intros d o s.
      rewrite lookup_insert_Some. intros [[<- [= <- <-]]|[_ Hd]]; [|by apply (Hold c (app_nil_r c))].
      exists c. split_and!; [done|done|unfold len in *; lia|lia|]. rewrite Hoff. rewrite <- (app_nil_r c) at 1. apply slice_end.
    + intros q y c' [Hin|Heq%list_elem_of_singleton]%elem_of_app.
      * destruct (Hall _ _ _ Hin) as [v Hv]. destruct (m !! digest c) eqn:Hc; [by eauto|]. rewrite lookup_insert_ne by congruence. by eauto.
      * injection Heq as _ _ ->. destruct (m !! digest c) eqn:Hc; [by rewrite Hc|]. by rewrite lookup_insert_eq.
  - rewrite He. cbn [fst snd]. change (blob_stream [(p, NixNar.Directory es)]) with (@nil Z). rewrite app_nil_r. split_and!; [done|done|].
    intros q y c [Hin|Heq%list_elem_of_singleton]%elem_of_app; [by eapply Hall|done].
  - destruct He as [-> _]. cbn [fst snd]. change (blob_stream [(p, NixNar.Symlink t)]) with (@nil Z). rewrite app_nil_r. split_and!; [done|done|].
    intros q y c [Hin|Heq%list_elem_of_singleton]%elem_of_app; [by eapply Hall|done].
Qed.

Lemma fold_blobs_ok l es pre m off :
  Forall2 entry_of l es -> blobs_ok pre m off ->
  let r := fold_left add_blob es (m, off) in blobs_ok (pre ++ l) (fst r) (snd r).
Proof.
  intros Hl. revert pre m off. induction Hl as [|x e l es Hx _ IH]; intros pre m off Ho; cbn [fold_left]; [by rewrite app_nil_r|].
  pose proof (add_blob_ok pre x e m off Hx Ho) as H1. destruct (add_blob (m, off) e) as [m1 off1]. cbn [fst snd] in H1.
  specialize (IH _ _ _ H1). by rewrite <- app_assoc in IH.
Qed.
End Blobs.

(** ** The theorem *)

(** C20: an archive survives the store's directory form.  For every byte string
    that the index pass accepts, the bottom-up pass does not panic; its root
    node and bodies decode; the download walk over them yields pieces that,
    filled with the archive's file contents, are the archive bit for bit; the
    upload's index over them is the index it started from; and every row of the
    blob table addresses, in the concatenation of the file contents, bytes of
    the row's digest and size, with a row for every file.  BLAKE3 is assumed not
    to collide on the directories of this archive. *)
Theorem archive_roundtrip `{H : Blake3} `{P : Prost} `{!Blake3Laws H} `{!Blake3Width H} `{!ProstLaws P} s entries :
  bytes_ok s -> nar_ls s = inl entries -> (forall n t, s = serialize n ++ t -> no_collision n) ->
  exists n t dag root dirs ps,
    s = serialize n ++ t /\ build entries = Some dag /\
    decode_dag (dag_root_node dag) (List.map snd (dag_directories dag)) = Some (root, dirs) /\
    pieces (nar_pieces dirs MAX_WALK_NODES root) = List.map inl ps /\
    fill (flat_map piece_atoms ps) (contents n) = Some (serialize n) /\
    tree_to_entries dirs MAX_NAR_ENTRIES root = inl entries /\
    (forall d o sz, (d, (o, sz)) ∈ dag_file_blobs dag ->
       0 <= o /\ o + sz <= len (concat (contents n)) /\ d = digest (slice (concat (contents n)) o sz) /\
       len (slice (concat (contents n)) o sz) = sz) /\
    (forall c, c ∈ contents n -> exists o sz, (digest c, (o, sz)) ∈ dag_file_blobs dag).
Proof.
  intros Hs Hls Hc. apply nar_ls_inl in Hls as (n & t & Hw & -> & -> & Hb); [|done].
  destruct (ls_wf_tidy _ _ Hw) as [Ht Ho]. pose proof (ls_wf_named _ _ Hw) as Hn.
  pose proof (index_entry_of n [] root_offset (Forall_nil_2 _) Ht) as He. change (joinc []) with (@nil Z) in He.
  destruct (build_decode n _ Ht Ho (Hc n t eq_refl) He) as (dag & Hbuild & Hblobs & Hrows).
  destruct (Hrows _ (Permutation_refl _)) as (root & dirs & Hdec & Hden). clear Hrows.
  assert (Hfit : tree_fits MAX_NAR_ENTRIES (skel n)) by (by apply (within_bounds_fits n root_offset)).
  destruct (pieces_fill dirs MAX_WALK_NODES root n ltac:(done) Hden (tree_fits_mono MAX_NAR_ENTRIES MAX_WALK_NODES _ ltac:(done) Hfit)) as (ps & Hps & Hfill).
  exists n, t, dag, root, dirs, ps. split; [done|]. split; [done|]. split; [done|]. split; [done|]. split; [done|].
  split; [by apply tree_to_entries_index|].
  pose proof (fold_blobs_ok _ _ [] ∅ 0 He) as Hok. destruct Hok as (Hoff & Hrows & Hall).
  { split_and!; [done|by intros d o sz Hd; rewrite lookup_empty in Hd|by intros p x c ?%elem_of_nil]. }
  cbn [app] in *. rewrite Hblobs, (concat_contents n []). setoid_rewrite merge_sort_Permutation. setoid_rewrite elem_of_map_to_list. split.
  - intros d o sz Hd. destruct (Hrows _ _ _ Hd) as (c & -> & -> & H0 & H1 & Hsl). rewrite Hsl, <- Hoff. by split_and!.
  - intros c Hin. destruct (contents_subnode n [] c Hin) as (p & x & Hp). destruct (Hall _ _ _ Hp) as [[o sz] Hrow]. by exists o, sz.
Qed.

(** ** A concrete digest and codec *)

(** A collision-free hash of 32 numbers: the code of the whole input. *)
Definition example_blake3 : Blake3 := {|
  hasher := bytes;
  hasher_new := [];
  hasher_update h b := h ++ b;
  hasher_finalize h := Zpos (encode h) :: repeat 0 31;
|}.

Lemma example_blake3_laws : Blake3Laws example_blake3.
Proof. split; [apply app_nil_r|]. intros h a b. apply app_assoc. Qed.

Lemma example_blake3_width : Blake3Width example_blake3.
Proof. split. intros b. reflexivity. Qed.

Lemma example_digest_inj a b : @digest example_blake3 a = @digest example_blake3 b -> a = b.
Proof. intros E. injection E as E. by apply (inj encode) in E. Qed.

#[local] Instance DirectoryEntry_countable : Countable DirectoryEntry.
Proof.
  apply (inj_countable' (fun e => (d_name e, d_digest e, d_size e)) (fun '(a, b, c) => mkDirectoryEntry a b c)). by intros [].
Defined.
#[local] Instance FileEntry_countable : Countable FileEntry.
Proof.
  apply (inj_countable' (fun e => (f_name e, f_digest e, f_size e, f_executable e)) (fun '(a, b, c, d) => mkFileEntry a b c d)).
  by intros [].
Defined.
#[local] Instance SymlinkEntry_countable : Countable SymlinkEntry.
Proof. apply (inj_countable' (fun e => (s_name e, s_target e)) (fun '(a, b) => mkSymlinkEntry a b)). by intros []. Defined.
#[local] Instance Directory_countable : Countable castore.Directory.
Proof. apply (inj_countable' (fun d => (directories d, files d, symlinks d)) (fun '(a, b, c) => mkDirectory a b c)). by intros []. Defined.

Definition node_sum (n : Node) : bytes + FileEntry + SymlinkEntry :=
  match n with DirDigest d => inl (inl d) | castore.File f => inl (inr f) | castore.Symlink s => inr s end.
Definition sum_node (x : bytes + FileEntry + SymlinkEntry) : Node :=
  match x with inl (inl d) => DirDigest d | inl (inr f) => castore.File f | inr s => castore.Symlink s end.

#[local] Instance Node_eq_dec : EqDecision Node.
Proof. solve_decision. Defined.
#[local] Instance RootNode_eq_dec : EqDecision RootNode.
Proof. solve_decision. Defined.
#[local] Instance Node_countable : Countable Node.
Proof. apply (inj_countable' node_sum sum_node). by intros []. Defined.
#[local] Instance RootNode_countable : Countable RootNode.
Proof. apply (inj_countable' node mkRootNode). by intros []. Defined.

Definition decode_one {A} `{Countable A} (b : bytes) : option A := match b with [Zpos p] => decode p | _ => None end.

Definition example_prost : Prost := {|
  directory_encode d := [Zpos (encode d)];
  directory_decode := decode_one;
  root_encode r := [Zpos (encode r)];
  root_decode := decode_one;
|}.

Lemma example_prost_laws : ProstLaws example_prost.
Proof. split; intros x; apply decode_encode. Qed.

Lemma example_no_collision n : @no_collision example_blake3 example_prost n.
Proof.
  intros c1 es1 c2 es2 _ _ E. rewrite !node_digest_directory in E. apply example_digest_inj in E. injection E as E.
  by apply (inj encode) in E.
Qed.

(** A shared subtree and a file that occurs twice. *)
Definition example_archive : NarNode :=
  NixNar.Directory
    [(str "a", NixNar.Directory [(str "x", Regular false (str "hello"))]);
     (str "b", NixNar.Directory [(str "x", Regular false (str "hello"))]);
     (str "c", NixNar.Symlink (str "a/x"));
     (str "empty", Regular true [])].

Lemma example_archive_bytes_ok : bytes_ok (serialize example_archive).
Proof. apply (bool_decide_unpack _). by vm_compute. Qed.

Lemma example_archive_wf : ls_wf nar_levels example_archive.
Proof.
  change nar_levels with (S (S (S 254))). unfold example_archive. rewrite ls_wf_S. cbn [length List.map fst snd].
  split; [by apply lt_max_dir|split; [done|]].
  repeat (apply Forall_cons; split); [| | | |constructor]; cbn [fst snd]; (split; [by split|]); rewrite ls_wf_S; [| |done|done];
    (split; [by apply lt_max_dir|split; [done|]]); (apply Forall_cons; split; [|constructor]); cbn [fst snd];
    (split; [by split|by rewrite ls_wf_S]).
Qed.

Lemma example_archive_ls :
  @nar_ls example_blake3 (serialize example_archive) = inl (@index_node example_blake3 example_archive [] root_offset).
Proof.
  apply (@nar_ls_inl example_blake3 example_blake3_laws); [apply example_archive_bytes_ok|]. exists example_archive, [].
  rewrite app_nil_r. split; [apply example_archive_wf|]. split; [done|]. split; [done|split; by vm_compute].
Qed.

Lemma archive_roundtrip_witness :
  exists n t dag root dirs,
    serialize example_archive = serialize n ++ t /\
    @build example_blake3 example_prost (@index_node example_blake3 example_archive [] root_offset) = Some dag /\
    @decode_dag example_blake3 example_prost (dag_root_node dag) (List.map snd (dag_directories dag)) = Some (root, dirs).
Proof.
  destruct (@archive_roundtrip example_blake3 example_prost example_blake3_laws example_blake3_width example_prost_laws
    (serialize example_archive) _ example_archive_bytes_ok example_archive_ls (fun n _ _ => example_no_collision n))
    as (n & t & dag & root & dirs & ps & H1 & H2 & H3 & _).
  exists n, t, dag, root, dirs. by split_and!.
Defined.

(** A directory with itself as an entry. *)
Definition cyclic_dirs : gmap bytes castore.Directory :=
  {[ repeat 7 32 := mkDirectory [mkDirectoryEntry (str "d") (repeat 7 32) 1] [] [] ]}.

Lemma walk_exact_witness :
  drains (walk_next cyclic_dirs MAX_NAR_ENTRIES) (walk (mkRootNode (Some (DirDigest (repeat 7 32)))))
    (walk_items cyclic_dirs MAX_NAR_ENTRIES (mkRootNode (Some (DirDigest (repeat 7 32))))) /\
  last (walk_items cyclic_dirs MAX_NAR_ENTRIES (mkRootNode (Some (DirDigest (repeat 7 32))))) = Some (inr (WalkError.TooDeep 257)).
Proof.
  split; [apply (walk_exact cyclic_dirs MAX_NAR_ENTRIES (mkRootNode (Some (DirDigest (repeat 7 32))))); vm_compute; discriminate|].
  vm_compute. reflexivity.
Defined.

Definition example_es : list NarEntry := [(str "f", Regular false (str "hi")); (str "l", NixNar.Symlink (str "f"))].

Definition example_dirs : gmap bytes castore.Directory :=
  {[ @node_digest example_blake3 example_prost (NixNar.Directory example_es) := @message example_blake3 example_prost example_es ]}.

Definition example_root : RootNode :=
  mkRootNode (Some (DirDigest (@node_digest example_blake3 example_prost (NixNar.Directory example_es)))).

Lemma validated_tree_servable_witness :
  @nar_ls example_blake3 (serialize (NixNar.Directory example_es)) =
    inl (@index_node example_blake3 (NixNar.Directory example_es) [] root_offset).
Proof.
  apply (@validated_tree_servable example_blake3 example_blake3_laws example_dirs example_root (NixNar.Directory example_es)).
  - intros k d Hd. unfold example_dirs in Hd. apply lookup_singleton_Some in Hd as [_ <-].
    split; [|vm_compute; reflexivity]. constructor; [split; vm_compute; [discriminate|reflexivity]|constructor].
  - exact I.
  - apply denotes_dir. split; [reflexivity|]. exists (@message example_blake3 example_prost example_es).
    split; [apply lookup_singleton_eq|]. rewrite merged_message by done. repeat constructor.
  - apply (bool_decide_unpack _). vm_compute. reflexivity.
  - vm_compute. reflexivity.
Defined.
