(* ===== verification/StorePut.v ===== *)
(** * Store: validation of a chunked upload

    [src/rio-store/src/grpc/put_path_chunked/validate.rs]: the first frame of a
    chunked upload against the caller's claims.  Of a [Status] the code is kept
    and the message is not; strings are byte strings. *)

From S2P Require Import AuthToken.
From S2P Require Import Prelude NixBytes NixStorePath NixNar NixNarLs StoreManifest StoreCastore StoreWalk StoreNar StoreValid.
Import castore.

#[local] Open Scope Z_scope.

(** The codes of the statuses that the upload returns. *)
Inductive Code : Type :=
  | InvalidArgument
  | PermissionDenied
  | Unavailable
  | DataLoss
  | FailedPrecondition
  | Internal.

(** [?] on a [Result]. *)
Notation "x <-? m ; k" := (match m with inl x => k | inr e => inr e end)
  (at level 100, m at next level, k at level 200, right associativity).

(** ** The request *)

Record ChunkMeta : Type := mkChunkMeta { cm_digest : bytes; cm_size : Z }.

Record ChunkedOutput : Type := mkChunkedOutput {
  co_store_path : bytes;
  co_nar_hash : bytes;
  co_nar_size : Z;
  co_references : list bytes;
  co_root_node : option RootNode;
  co_chunk_manifest : list ChunkMeta;
}.

Record PutPathChunkedBegin : Type := mkBegin {
  pb_deriver : bytes;
  pb_outputs : list ChunkedOutput;
  pb_directories : list castore.Directory;
  pb_novel : list bytes;
  pb_input_closure : list bytes;
}.

(** ** The result *)

Record FileRun : Type := mkFileRun {
  run_digest : bytes;
  run_size : Z;
  run_chunks : nat * nat;
}.

Record ValidatedOutput : Type := mkValidatedOutput {
  vo_store_path : StorePath;
  vo_nar_hash : bytes;
  vo_nar_size : Z;
  vo_references : list StorePath;
  vo_root_node : RootNode;
  vo_chunk_manifest : list (bytes * Z);
  vo_is_ca : bool;
  vo_file_runs : list FileRun;
}.

Record ValidatedBegin : Type := mkValidatedBegin {
  vb_outputs : list ValidatedOutput;
  vb_directories : gmap bytes castore.Directory;
  vb_novel : list bytes;
}.

Definition MAX_BATCH_OUTPUTS : Z := 16.
Definition MAX_INPUT_CLOSURE : Z := 50000.
Definition MAX_DIR_NODES : Z := 1048576.
Definition MAX_REFERENCES : Z := 10000.

Definition check_bound (got : nat) (max : Z) : unit + Code :=
  if max <? Z.of_nat got then inr InvalidArgument else inl tt.

(** [<[u8; 32]>::try_from]. *)
Definition digest32 (d : bytes) : bytes + Code := if Nat.eqb (length d) 32 then inl d else inr InvalidArgument.

(** [iter().map(f).collect::<Result<_, _>>()]. *)
Fixpoint collect {A B E} (f : A -> B + E) (l : list A) : list B + E :=
  match l with
  | [] => inl []
  | a :: l => b <-? f a; bs <-? collect f l; inl (b :: bs)
  end.

Section Validate.
Context `{H : Blake3} `{P : Prost}.

(** [AssignmentClaims::digest_input_closure]. *)
Definition digest_input_closure (closure : list bytes) : bytes :=
  hex_encode (digest (match closure with [] => [] | c :: cs => c ++ flat_map (fun p => 10 :: p) cs end)).

Definition parse_path (p : bytes) : StorePath + Code := match parse p with inl sp => inl sp | inr _ => inr InvalidArgument end.

Definition deriver_matches_drv_hash (deriver : StorePath) (drv_hash : bytes) : bool :=
  if bytes_eqb (hash_part deriver) drv_hash then true
  else match parse drv_hash with inl p => bytes_eqb (hash_part p) (hash_part deriver) | inr _ => false end.

(** The bodies by recomputed digest; a duplicate is an error. *)
Fixpoint index_bodies (bodies : list castore.Directory) (dirs : gmap bytes castore.Directory)
    : gmap bytes castore.Directory + Code :=
  match bodies with
  | [] => inl dirs
  | d :: bodies =>
      match validate_directory d with
      | Some _ => inr InvalidArgument
      | None =>
          match dirs !! directory_digest d with
          | Some _ => inr InvalidArgument
          | None => index_bodies bodies (<[directory_digest d := d]> dirs)
          end
      end
  end.

Definition decode_root_node (root : option RootNode) : RootNode + Code :=
  match root with
  | None => inr InvalidArgument
  | Some root =>
      match node root with
      | None => inr InvalidArgument
      | Some (DirDigest d) => if negb (Nat.eqb (length d) 32) then inr InvalidArgument else inl root
      | Some (castore.File f) => if negb (Nat.eqb (length (f_digest f)) 32) then inr InvalidArgument else inl root
      | Some (castore.Symlink s) => if negb (target_ok (s_target s)) then inr InvalidArgument else inl root
      end
  end.

Definition decode_chunk (c : ChunkMeta) : (bytes * Z) + Code :=
  d <-? digest32 (cm_digest c);
  if (cm_size c =? 0) || (FASTCDC_MAX_BYTES <? cm_size c) then inr InvalidArgument else inl (d, cm_size c).

Definition sum_sizes (cs : list (bytes * Z)) : Z := fold_right (fun c n => snd c + n) 0 cs.

(** One output's scalars and claims. *)
Definition validate_output (claims : AssignmentClaims) (allowed_refs : list bytes) (o : ChunkedOutput)
    : ValidatedOutput + Code :=
  store_path <-? parse_path (co_store_path o);
  if negb (AssignmentClaims.is_ca claims) &&
     negb (existsb (fun e => bytes_eqb (str e) (sp_full store_path)) (AssignmentClaims.expected_outputs claims))
  then inr PermissionDenied
  else
    nar_hash <-? digest32 (co_nar_hash o);
    if (co_nar_size o =? 0) || (MAX_NAR_SIZE <? co_nar_size o) then inr InvalidArgument
    else
      _ <-? check_bound (length (co_references o)) MAX_REFERENCES;
      references <-? collect (fun r => if negb (bool_decide (r ∈ allowed_refs)) then inr InvalidArgument else parse_path r)
                       (co_references o);
      _ <-? check_bound (length (co_chunk_manifest o)) Manifest.MAX_CHUNKS;
      chunk_manifest <-? collect decode_chunk (co_chunk_manifest o);
      if co_nar_size o <? sum_sizes chunk_manifest then inr InvalidArgument
      else
        root_node <-? decode_root_node (co_root_node o);
        inl (mkValidatedOutput store_path nar_hash (co_nar_size o) references root_node chunk_manifest
               (AssignmentClaims.is_ca claims) []).

(** ** Reachability *)

(** [reached.insert] and [frontier.push] for one digest. *)
Definition reach (acc : gset bytes * list bytes) (d : bytes) : gset bytes * list bytes :=
  let (reached, frontier) := acc in
  if bool_decide (d ∈ reached) then (reached, frontier) else ({[d]} ∪ reached, d :: frontier).

Fixpoint reach_roots (dirs : gmap bytes castore.Directory) (outputs : list ValidatedOutput) (acc : gset bytes * list bytes)
    : (gset bytes * list bytes) + Code :=
  match outputs with
  | [] => inl acc
  | out :: outputs =>
      match node (vo_root_node out) with
      | Some (DirDigest d) =>
          let acc := reach acc d in
          match dirs !! d with None => inr InvalidArgument | Some _ => reach_roots dirs outputs acc end
      | _ => reach_roots dirs outputs acc
      end
  end.

(** The frontier is popped from its end, the head of the list. *)
Fixpoint reach_loop (fuel : nat) (dirs : gmap bytes castore.Directory) (acc : gset bytes * list bytes) : option (gset bytes + Code) :=
  match fuel with
  | 0%nat => None
  | S fuel =>
      match acc with
      | (reached, []) => Some (inl reached)
      | (reached, d :: frontier) =>
          match dirs !! d with
          | None => Some (inr InvalidArgument)
          | Some body => reach_loop fuel dirs (fold_left reach (List.map d_digest (directories body)) (reached, frontier))
          end
      end
  end.

(** Every body is popped at most once: one call per body, one for a missing
    body, one for the empty frontier.  [None] never happens. *)
Definition reachable_digests (outputs : list ValidatedOutput) (dirs : gmap bytes castore.Directory) : option (gset bytes + Code) :=
  match reach_roots dirs outputs (∅, []) with
  | inr e => Some (inr e)
  | inl acc => reach_loop (size dirs + 2) dirs acc
  end.

(** ** Directory sizes *)

Definition checked_add (a b : Z) : option Z := if a + b <? 2 ^ 64 then Some (a + b) else None.

Definition claimed_descendants (child : castore.Directory) : option Z :=
  fold_left (fun acc c => match acc with Some a => checked_add a (d_size c) | None => None end) (directories child)
    (Some (Z.of_nat (entry_count child))).

Definition entry_size_ok (dirs : gmap bytes castore.Directory) (e : DirectoryEntry) : bool :=
  match dirs !! d_digest e with
  | Some child => bool_decide (claimed_descendants child = Some (d_size e))
  | None => false
  end.

Definition check_directory_entry_sizes (dirs : gmap bytes castore.Directory) : unit + Code :=
  if forallb (fun kv => forallb (entry_size_ok dirs) (directories (snd kv))) (map_to_list dirs) then inl tt
  else inr InvalidArgument.

(** ** Chunk runs *)

(** The inner loop: entries from [cursor] until [size] bytes are covered. *)
Fixpoint cover (manifest : list (bytes * Z)) (cursor : nat) (covered size : Z) : (nat * Z) + Code :=
  if covered <? size then
    match manifest with
    | [] => inr InvalidArgument
    | (_, chunk_size) :: manifest => cover manifest (S cursor) (covered + chunk_size) size
    end
  else inl (cursor, covered).

Fixpoint align_loop (manifest : list (bytes * Z)) (items : list walk_item) (cursor : nat) (runs : list FileRun)
    : (nat * list FileRun) + Code :=
  match items with
  | [] => inl (cursor, runs)
  | inr _ :: _ => inr InvalidArgument
  | inl (WalkEvent.File _ digest size _) :: items =>
      c <-? cover (drop cursor manifest) cursor 0 size;
      if negb (snd c =? size) then inr InvalidArgument
      else align_loop manifest items (fst c) (runs ++ [mkFileRun digest size (cursor, fst c)])
  | inl _ :: items => align_loop manifest items cursor runs
  end.

Definition align_chunk_runs (dirs : gmap bytes castore.Directory) (out : ValidatedOutput) : list FileRun + Code :=
  r <-? align_loop (vo_chunk_manifest out) (walk_items dirs MAX_NAR_ENTRIES (vo_root_node out)) 0 [];
  if negb (Nat.eqb (fst r) (length (vo_chunk_manifest out))) then inr InvalidArgument else inl (snd r).

Definition set_runs (out : ValidatedOutput) (runs : list FileRun) : ValidatedOutput :=
  mkValidatedOutput (vo_store_path out) (vo_nar_hash out) (vo_nar_size out) (vo_references out) (vo_root_node out)
    (vo_chunk_manifest out) (vo_is_ca out) runs.

(** The same digest at two sizes. *)
Fixpoint check_sizes (chunks : list (bytes * Z)) (sizes : gmap bytes Z) : unit + Code :=
  match chunks with
  | [] => inl tt
  | (d, s) :: chunks =>
      match sizes !! d with
      | Some s' => if s' =? s then check_sizes chunks sizes else inr InvalidArgument
      | None => check_sizes chunks (<[d := s]> sizes)
      end
  end.

(** ** The novel digests *)

Fixpoint first_occurrence (digests : list bytes) (m : gmap bytes nat) : gmap bytes nat :=
  match digests with
  | [] => m
  | d :: digests => first_occurrence digests (match m !! d with Some _ => m | None => <[d := size m]> m end)
  end.

Fixpoint check_novel (first : gmap bytes nat) (prev : option nat) (novel : list bytes) : list bytes + Code :=
  match novel with
  | [] => inl []
  | d :: novel =>
      d <-? digest32 d;
      match first !! d with
      | None => inr InvalidArgument
      | Some pos =>
          if match prev with Some p => (pos <=? p)%nat | None => false end then inr InvalidArgument
          else parsed <-? check_novel first (Some pos) novel; inl (d :: parsed)
      end
  end.

Definition all_chunks (outputs : list ValidatedOutput) : list (bytes * Z) := flat_map vo_chunk_manifest outputs.

Definition validate_novel (novel : list bytes) (outputs : list ValidatedOutput) : list bytes + Code :=
  _ <-? check_bound (length novel) (MAX_BATCH_OUTPUTS * Manifest.MAX_CHUNKS);
  check_novel (first_occurrence (List.map fst (all_chunks outputs)) ∅) None novel.

(** ** The whole frame *)

Fixpoint has_duplicate (seen : list bytes) (l : list bytes) : bool :=
  match l with [] => false | p :: l => bool_decide (p ∈ seen) || has_duplicate (p :: seen) l end.

(** [None] when the reachability loop runs out of fuel, which it never does. *)
Definition validate_tree (begin : PutPathChunkedBegin) (outputs : list ValidatedOutput) (dirs : gmap bytes castore.Directory)
    : option (ValidatedBegin + Code) :=
  match reachable_digests outputs dirs with
  | None => None
  | Some (inr e) => Some (inr e)
  | Some (inl reachable) =>
      Some (if negb (Nat.eqb (size reachable) (size dirs)) then inr InvalidArgument
            else
              _ <-? check_directory_entry_sizes dirs;
              outputs <-? collect (fun out => runs <-? align_chunk_runs dirs out; inl (set_runs out runs)) outputs;
              _ <-? check_sizes (all_chunks outputs) ∅;
              novel <-? validate_novel (pb_novel begin) outputs;
              inl (mkValidatedBegin outputs dirs novel))
  end.

Definition validate_begin (begin : PutPathChunkedBegin) (claims : AssignmentClaims) : option (ValidatedBegin + Code) :=
  match
    (if bool_decide (pb_outputs begin = []) then inr InvalidArgument
     else
       _ <-? check_bound (length (pb_outputs begin)) MAX_BATCH_OUTPUTS;
       _ <-? check_bound (length (pb_input_closure begin)) MAX_INPUT_CLOSURE;
       _ <-? check_bound (length (pb_directories begin)) MAX_DIR_NODES;
       if negb (bytes_eqb (str (AssignmentClaims.input_closure_digest claims)) []) &&
          negb (bytes_eqb (digest_input_closure (pb_input_closure begin)) (str (AssignmentClaims.input_closure_digest claims)))
       then inr PermissionDenied
       else
         _ <-? collect parse_path (pb_input_closure begin);
         deriver <-? parse_path (pb_deriver begin);
         if negb (is_derivation deriver) then inr InvalidArgument
         else if negb (AssignmentClaims.is_ca claims) &&
                 negb (deriver_matches_drv_hash deriver (str (AssignmentClaims.drv_hash claims)))
         then inr PermissionDenied
         else
           dirs <-? index_bodies (pb_directories begin) ∅;
           let paths := List.map co_store_path (pb_outputs begin) in
           if has_duplicate [] paths then inr InvalidArgument
           else
             outputs <-? collect (validate_output claims (paths ++ pb_input_closure begin)) (pb_outputs begin);
             inl (outputs, dirs))
  with
  | inr e => Some (inr e)
  | inl (outputs, dirs) => validate_tree begin outputs dirs
  end.
End Validate.
