(* ===== verification/StorePutSound.v ===== *)
(** * Store: what a validated upload guarantees

    The reachability loop of the validation ends and computes exactly the
    reachable bodies; the chunk runs carve the manifest along the files of the
    tree; the novel digests are a subsequence of the global first-occurrence
    order; the claimed directory sizes are the sizes of the trees. *)

From S2P Require Import AuthToken.
From S2P Require Import Prelude NixBytes NixStorePath NixNar NixNarLs StoreManifest StoreCastore StoreWalk StoreNar StoreValid StoreRoundTrip StorePut.
Import castore.

#[local] Open Scope Z_scope.

(** ** Reachability *)

Section Reach.
Context (dirs : gmap bytes castore.Directory) (outputs : list ValidatedOutput).

Definition is_root (outs : list ValidatedOutput) (d : bytes) : Prop :=
  exists out, out ∈ outs /\ node (vo_root_node out) = Some (DirDigest d).

Definition has_child (d c : bytes) : Prop := exists body, dirs !! d = Some body /\ c ∈ List.map d_digest (directories body).

(** [DirectoryEntry.digest] edges from the outputs' roots. *)
Inductive reachable : bytes -> Prop :=
  | reachable_root d : is_root outputs d -> reachable d
  | reachable_edge d c : reachable d -> has_child d c -> reachable c.

(** The state of the loop: [popped] are the bodies already expanded. *)
Record reach_inv (reached : gset bytes) (frontier : list bytes) (popped : gset bytes) : Prop := {
  ri_split : forall d, d ∈ reached <-> d ∈ popped \/ d ∈ frontier;
  ri_nodup : NoDup frontier;
  ri_disjoint : forall d, d ∈ frontier -> d ∉ popped;
  ri_supplied : popped ⊆ dom dirs;
  ri_sound : forall d, d ∈ reached -> reachable d;
}.

Lemma reach_cases reached frontier d :
  (d ∈ reached /\ reach (reached, frontier) d = (reached, frontier)) \/
  (d ∉ reached /\ reach (reached, frontier) d = ({[d]} ∪ reached, d :: frontier)).
Proof. unfold reach. case_bool_decide; [by left|by right]. Qed.

(** Pushing reachable digests keeps everything but the closure obligation of
    the body being expanded. *)
Lemma reach_step reached frontier popped d :
  reach_inv reached frontier popped -> reachable d ->
  let (reached', frontier') := reach (reached, frontier) d in
  reach_inv reached' frontier' popped /\ d ∈ reached' /\ reached ⊆ reached'.
Proof.
  intros Hi Hd. destruct (reach_cases reached frontier d) as [[Hin ->]|[Hin ->]]; [by split_and!|].
  destruct Hi as [Hs Hn Hj Hp Ho]. split_and!; [|set_solver..]. constructor.
  - intros x. rewrite elem_of_cons. set_solver.
  - constructor; [|done]. intros Hf. apply Hin, Hs. by right.
  - intros x [->|Hx]%elem_of_cons; [|by apply Hj]. intros Hx. apply Hin, Hs. by left.
  - done.
  - intros x [->%elem_of_singleton|Hx]%elem_of_union; [done|by apply Ho].
Qed.

Lemma reach_fold ds reached frontier popped :
  reach_inv reached frontier popped -> (forall d, d ∈ ds -> reachable d) ->
  let (reached', frontier') := fold_left reach ds (reached, frontier) in
  reach_inv reached' frontier' popped /\ (forall d, d ∈ ds -> d ∈ reached') /\ reached ⊆ reached'.
Proof.
  revert reached frontier. induction ds as [|d ds IH]; intros reached frontier Hi Hd; cbn [fold_left]; [split_and!; [done|set_solver|done]|].
  pose proof (reach_step _ _ _ d Hi (Hd d (list_elem_of_here _ _))) as H1. destruct (reach (reached, frontier) d) as [r1 f1].
  destruct H1 as (Hi1 & Hin & Hsub). specialize (IH r1 f1 Hi1 (fun x Hx => Hd x (list_elem_of_further _ _ _ Hx))).
  destruct (fold_left reach ds (r1, f1)) as [r2 f2]. destruct IH as (Hi2 & Hall & Hsub2). split_and!; [done| |set_solver].
  intros x [->|Hx]%elem_of_cons; [set_solver|by apply Hall].
Qed.

(** What the loop returns. *)
Definition reach_result (roots : gset bytes) (r : gset bytes + Code) : Prop :=
  match r with
  | inl reached => roots ⊆ reached /\ reached ⊆ dom dirs /\ (forall d c, d ∈ reached -> has_child d c -> c ∈ reached) /\
      (forall d, d ∈ reached -> reachable d)
  | inr _ => exists d, reachable d /\ d ∉ dom dirs
  end.

Definition closed (reached popped : gset bytes) : Prop := forall d c, d ∈ popped -> has_child d c -> c ∈ reached.

Lemma reach_pop reached frontier popped d body :
  reach_inv reached (d :: frontier) popped -> closed reached popped -> dirs !! d = Some body ->
  let (reached', frontier') := fold_left reach (List.map d_digest (directories body)) (reached, frontier) in
  reach_inv reached' frontier' ({[d]} ∪ popped) /\ closed reached' ({[d]} ∪ popped) /\ reached ⊆ reached' /\
  size ({[d]} ∪ popped) = S (size popped).
Proof.
  intros [Hs Hn Hj Hp Ho] Hc Hb. apply NoDup_cons in Hn as [Hd Hn].
  assert (Hr : reachable d) by (apply Ho, Hs; right; left).
  assert (Hi : reach_inv reached frontier ({[d]} ∪ popped)).
  { constructor; [| | | |done].
    - intros x. rewrite Hs, elem_of_cons, elem_of_union, elem_of_singleton. tauto.
    - done.
    - intros x Hx. assert (x <> d) by (by intros ->). specialize (Hj x). set_solver.
    - apply union_subseteq. split; [|done]. apply singleton_subseteq_l, elem_of_dom. by eexists. }
  pose proof (reach_fold (List.map d_digest (directories body)) reached frontier _ Hi) as Hf.
  destruct (fold_left reach _ _) as [r f]. destruct Hf as (Hi' & Hall & Hsub).
  { intros c Hin. apply (reachable_edge d); [done|]. by exists body. }
  split_and!; [done| |done|].
  - intros x c [->%elem_of_singleton|Hx]%elem_of_union Hxc; [|apply Hsub; by eapply Hc]. destruct Hxc as (b & Hb' & Hin).
    rewrite Hb in Hb'. injection Hb' as <-. by apply Hall.
  - rewrite size_union, size_singleton; [lia|]. specialize (Hj d (list_elem_of_here _ _)). set_solver.
Qed.

Lemma reach_loop_spec fuel reached frontier popped :
  reach_inv reached frontier popped -> closed reached popped -> (size dirs + 2 <= fuel + size popped)%nat ->
  exists r, reach_loop fuel dirs (reached, frontier) = Some r /\ reach_result reached r.
Proof.
  revert reached frontier popped. induction fuel as [|fuel IH]; intros reached frontier popped Hi Hc Hf.
  { pose proof (subseteq_size _ _ (ri_supplied _ _ _ Hi)) as Hle. rewrite size_dom in Hle. lia. }
  cbn [reach_loop]. destruct frontier as [|d frontier].
  - exists (inl reached). split; [done|]. destruct Hi as [Hs _ _ Hp Ho]. split_and!; [done| | |done].
    + intros x [Hx|Hx%elem_of_nil]%Hs; [by apply Hp|done].
    + intros x c [Hx|Hx%elem_of_nil]%Hs Hxc; [by eapply Hc|done].
  - destruct (dirs !! d) as [body|] eqn:Hb.
    + pose proof (reach_pop reached frontier popped d body Hi Hc Hb) as Hpop.
      destruct (fold_left reach _ _) as [r f]. destruct Hpop as (Hi' & Hc' & Hsub & Hsz).
      destruct (IH r f _ Hi' Hc') as (res & -> & Hres); [lia|]. exists res. split; [done|]. destruct res as [R|]; [|done].
      destruct Hres as (H1 & H2). split; [set_solver|done].
    + exists (inr InvalidArgument). split; [done|]. exists d. split; [|by apply not_elem_of_dom].
      apply (ri_sound _ _ _ Hi), (ri_split _ _ _ Hi). right. left.
Qed.

Lemma reach_roots_spec outs reached frontier :
  (forall out, out ∈ outs -> out ∈ outputs) -> reach_inv reached frontier ∅ ->
  match reach_roots dirs outs (reached, frontier) with
  | inl (r, f) => reach_inv r f ∅ /\ reached ⊆ r /\ forall d, is_root outs d -> d ∈ r
  | inr _ => exists d, reachable d /\ d ∉ dom dirs
  end.
Proof.
  revert reached frontier. induction outs as [|out outs IH]; intros reached frontier Hin Hi; cbn [reach_roots].
  { split_and!; [done..|]. by intros d (out & ?%elem_of_nil & _). }
  assert (Hin' : forall o, o ∈ outs -> o ∈ outputs) by (intros o Ho; apply Hin; by right).
  destruct (node (vo_root_node out)) as [[d|f|s]|] eqn:Hn.
  - assert (Hr : reachable d) by (apply reachable_root; exists out; split; [apply Hin; left|done]).
    pose proof (reach_step _ _ _ d Hi Hr) as H1. destruct (reach (reached, frontier) d) as [r1 f1]. destruct H1 as (Hi1 & Hd & Hsub).
    destruct (dirs !! d) eqn:Hb; [|exists d; split; [done|by apply not_elem_of_dom]].
    specialize (IH r1 f1 Hin' Hi1). destruct (reach_roots dirs outs (r1, f1)) as [[r f]|]; [|done].
    destruct IH as (Hi2 & Hsub2 & Hall). split_and!; [done|set_solver|]. intros x (o & [->|Ho]%elem_of_cons & Hox).
    + rewrite Hn in Hox. injection Hox as <-. set_solver.
    + apply Hall. by exists o.
  - specialize (IH _ _ Hin' Hi). destruct (reach_roots dirs outs (reached, frontier)) as [[r ff]|]; [|done].
    destruct IH as (? & ? & Hall). split_and!; [done..|]. intros x (o & [->|Ho]%elem_of_cons & Hox); [congruence|]. apply Hall. by exists o.
  - specialize (IH _ _ Hin' Hi). destruct (reach_roots dirs outs (reached, frontier)) as [[r ff]|]; [|done].
    destruct IH as (? & ? & Hall). split_and!; [done..|]. intros x (o & [->|Ho]%elem_of_cons & Hox); [congruence|]. apply Hall. by exists o.
  - specialize (IH _ _ Hin' Hi). destruct (reach_roots dirs outs (reached, frontier)) as [[r ff]|]; [|done].
    destruct IH as (? & ? & Hall). split_and!; [done..|]. intros x (o & [->|Ho]%elem_of_cons & Hox); [congruence|]. apply Hall. by exists o.
Qed.

(** The loop ends; it returns the reachable digests exactly when all of them
    have a body. *)
Lemma reachable_digests_spec :
  exists r, reachable_digests outputs dirs = Some r /\
    match r with
    | inl reached => (forall d, d ∈ reached <-> reachable d) /\ reached ⊆ dom dirs
    | inr _ => exists d, reachable d /\ d ∉ dom dirs
    end.
Proof.
  unfold reachable_digests. assert (H0 : reach_inv ∅ [] ∅).
  { constructor; [set_solver|constructor|set_solver..]. }
  pose proof (reach_roots_spec outputs ∅ [] (fun _ Hx => Hx) H0) as Hr.
  destruct (reach_roots dirs outputs (∅, [])) as [[r f]|e]; [|by exists (inr e)]. destruct Hr as (Hi & _ & Hroots).
  destruct (reach_loop_spec (size dirs + 2) r f ∅ Hi) as (res & -> & Hres); [intros d c Hd; set_solver|rewrite size_empty; lia|].
  exists res. split; [done|]. destruct res as [R|]; [|done]. destruct Hres as (Hsub & Hdom & Hcl & Hso). split; [|done].
  intros d. split; [apply Hso|]. induction 1 as [d Hd|d c _ IHd Hdc]; [apply Hsub; by apply Hroots|by eapply Hcl].
Qed.
End Reach.

(** ** Chunk runs *)

(** The files of a tree in walk order. *)
Fixpoint tree_files (t : Tree) : list (bytes * Z) :=
  match t with
  | TFile d s _ => [(d, s)]
  | TSymlink _ => []
  | TDir es => flat_map (fun e => tree_files (snd e)) es
  end.

Definition event_files (evs : list WalkEvent) : list (bytes * Z) :=
  flat_map (fun ev => match ev with WalkEvent.File _ d s _ => [(d, s)] | _ => [] end) evs.

Lemma event_files_app a b : event_files (a ++ b) = event_files a ++ event_files b.
Proof. apply flat_map_app. Qed.

Lemma event_files_tree name t : event_files (events name t) = tree_files t.
Proof.
  revert name. induction t as [d s x|tg|es IH] using Tree_ind'; intros name; [done..|]. cbn [events tree_files].
  change (event_files (?a :: ?l)) with (event_files l). rewrite event_files_app. cbn [event_files flat_map]. rewrite app_nil_r.
  induction IH as [|e es He _ IHes]; cbn [flat_map]; [done|]. by rewrite event_files_app, He, IHes.
Qed.

Definition positive (cs : list (bytes * Z)) : Prop := Forall (fun c => 0 < snd c) cs.

Lemma sum_sizes_app a b : sum_sizes (a ++ b) = sum_sizes a + sum_sizes b.
Proof. induction a as [|c a IH]; cbn; [done|]. fold (sum_sizes (a ++ b)) (sum_sizes a). lia. Qed.

Lemma sum_sizes_nonneg cs : positive cs -> 0 <= sum_sizes cs.
Proof. induction 1 as [|c cs Hc _ IH]; cbn; [done|]. fold (sum_sizes cs). lia. Qed.

(** [cover] takes the shortest prefix that reaches [size]. *)
Lemma cover_spec ms cursor covered size :
  positive ms ->
  forall c, cover ms cursor covered size = inl c -> snd c = size -> covered <= size ->
  exists part rest, ms = part ++ rest /\ covered + sum_sizes part = size /\ fst c = (cursor + length part)%nat.
Proof.
  intros Hp. revert cursor covered. induction Hp as [|[d s] ms Hs _ IH]; intros cursor covered c; cbn [cover].
  - destruct (Z.ltb_spec covered size); [done|]. intros [= <-] _ Hle. exists [], []. cbn. split_and!; [done|lia|lia].
  - destruct (Z.ltb_spec covered size) as [Hlt|Hge].
    + intros Hc Hsz Hle. cbn in Hs. destruct (decide (covered + s <= size)) as [Hle'|Hgt].
      * destruct (IH _ _ c Hc Hsz Hle') as (part & rest & -> & Hsum & Hf). exists ((d, s) :: part), rest. cbn. fold (sum_sizes part).
        split_and!; [done|lia|lia].
      * exfalso. clear IH Hle. destruct ms; cbn [cover] in Hc; destruct (Z.ltb_spec (covered + s) size); [lia| |lia|];
          injection Hc as <-; cbn in Hsz; lia.
    + intros [= <-] _ Hle. exists [], ((d, s) :: ms). cbn. split_and!; [done|lia|lia].
Qed.

Lemma cover_part part rest cursor covered size :
  positive part -> covered + sum_sizes part = size ->
  cover (part ++ rest) cursor covered size = inl ((cursor + length part)%nat, size).
Proof.
  intros Hp. revert cursor covered. induction Hp as [|[d s] part Hs Hpos IH]; intros cursor covered Hsum; cbn [cover app length].
  - cbn in Hsum. replace covered with size by lia. rewrite Nat.add_0_r. destruct rest as [|[d' s'] rest]; cbn [cover]; by rewrite Z.ltb_irrefl.
  - cbn in Hsum, Hs. fold (sum_sizes part) in Hsum. pose proof (sum_sizes_nonneg part Hpos).
    destruct (Z.ltb_spec covered size); [|lia]. rewrite IH by lia. do 2 f_equal. lia.
Qed.

(** The runs of a list of files whose chunks are [parts]. *)
Fixpoint runs_of (start : nat) (files : list (bytes * Z)) (parts : list (list (bytes * Z))) : list FileRun :=
  match files, parts with
  | f :: files, p :: parts => mkFileRun (fst f) (snd f) (start, (start + length p)%nat) :: runs_of (start + length p) files parts
  | _, _ => []
  end.

(** The parts are the chunks of the files. *)
Definition parts_of (files : list (bytes * Z)) (parts : list (list (bytes * Z))) : Prop :=
  Forall2 (fun f p => sum_sizes p = snd f) files parts.

Lemma length_concat_cons {A} (p : list A) ps : length (concat (p :: ps)) = (length p + length (concat ps))%nat.
Proof. cbn. apply length_app. Qed.

Lemma align_loop_spec manifest evs cursor runs end_ runs' :
  positive manifest -> Forall (fun f => 0 <= snd f) (event_files evs) ->
  align_loop manifest (List.map inl evs) cursor runs = inl (end_, runs') <->
  exists parts, parts_of (event_files evs) parts /\ (exists rest, drop cursor manifest = concat parts ++ rest) /\
    end_ = (cursor + length (concat parts))%nat /\ runs' = runs ++ runs_of cursor (event_files evs) parts.
Proof.
  intros Hp. revert cursor runs. induction evs as [|ev evs IH]; intros cursor runs Hnn; cbn [align_loop List.map].
  { split.
    - intros [= <- <-]. exists []. cbn. rewrite app_nil_r. split_and!; [constructor|by eexists|lia|done].
    - intros (parts & H2 & _ & -> & ->). inversion H2; subst. cbn. rewrite app_nil_r. do 2 f_equal. lia. }
  destruct ev as [name| |name d size x|name target]; try exact (IH cursor runs Hnn).
  change (event_files (WalkEvent.File name d size x :: evs)) with ((d, size) :: event_files evs) in *.
  apply Forall_cons in Hnn as [Hsz Hnn]. cbn [snd] in Hsz.
  assert (Hdrop : positive (drop cursor manifest)) by (by apply Forall_drop).
  split.
  - destruct (cover (drop cursor manifest) cursor 0 size) as [c|] eqn:Hc; [|done]. destruct (Z.eqb_spec (snd c) size) as [Hs|]; cbn [negb]; [|done].
    destruct (cover_spec _ _ _ _ Hdrop c Hc Hs Hsz) as (part & rest & Hpr & Hsum & Hf). rewrite Hf. intros Hal.
    apply IH in Hal as (parts & H2 & (rest' & Hrest) & -> & ->); [|done]. exists (part :: parts). split; [constructor; [cbn; lia|done]|].
    rewrite <- drop_drop, Hpr, drop_app_length in Hrest. cbn [concat]. rewrite Hpr, Hrest. split; [exists rest'; by rewrite <- app_assoc|].
    rewrite length_app. split; [lia|]. cbn [runs_of fst snd]. by rewrite <- app_assoc.
  - intros (parts & H2 & (rest & Hrest) & -> & ->). inversion H2 as [|? part ? parts' Hsum H2']; subst. cbn [fst snd concat] in *.
    rewrite <- app_assoc in Hrest. rewrite Hrest, cover_part; [|rewrite Hrest in Hdrop; by apply Forall_app in Hdrop as [? _]|done].
    cbn [fst snd]. rewrite Z.eqb_refl. cbn [negb]. apply IH; [done|]. exists parts'. split; [done|]. split.
    + exists rest. by rewrite <- drop_drop, Hrest, drop_app_length.
    + rewrite length_app. split; [lia|]. cbn [runs_of fst snd]. by rewrite <- app_assoc.
Qed.

(** The file sizes of a typed tree are not negative. *)
Lemma denotes_files_nonneg dirs c t :
  bodies_valid dirs -> child_ok c -> denotes dirs c t -> Forall (fun f => 0 <= snd f) (tree_files t).
Proof.
  intros Hb. revert c. induction t as [d s x|tg|es IH] using Tree_ind'; intros c Hc Hd; destruct c as [e|e|e]; try done.
  - destruct Hd as (_ & _ & -> & _). cbn in Hc. constructor; [cbn; lia|constructor].
  - apply denotes_dir in Hd as (_ & dir & Hdir & H2). destruct (Hb _ _ Hdir) as [Ht Hv%validate_directory_None]. cbn [tree_files].
    apply List.Forall_flat_map, Forall_forall. intros e' He'. apply list_elem_of_lookup_1 in He' as (i & Hi).
    destruct (Forall2_lookup_r _ _ _ _ _ H2 Hi) as (c' & Hc' & _ & Hd'). apply list_elem_of_lookup_2 in Hc', Hi. rewrite Forall_forall in IH.
    apply (IH e' Hi c'); [|done]. by eapply merged_child_ok.
Qed.

Lemma root_files_nonneg dirs root t :
  bodies_valid dirs -> root_ok root -> root_denotes dirs root t -> Forall (fun f => 0 <= snd f) (tree_files t).
Proof.
  intros Hb Hr Hd. unfold root_denotes, root_ok in *. destruct (node root) as [[d|f|s]|]; [| | |done]; destruct t; try done;
    (eapply denotes_files_nonneg; [done| |exact Hd]; done).
Qed.

(** What the alignment of one output accepts. *)
Lemma align_chunk_runs_spec dirs out runs :
  bodies_valid dirs -> root_ok (vo_root_node out) -> positive (vo_chunk_manifest out) ->
  align_chunk_runs dirs out = inl runs <->
  exists t parts, root_denotes dirs (vo_root_node out) t /\ tree_fits MAX_NAR_ENTRIES t /\
    parts_of (tree_files t) parts /\ vo_chunk_manifest out = concat parts /\ runs = runs_of 0 (tree_files t) parts.
Proof.
  intros Hb Hr Hp. unfold align_chunk_runs. pose proof (drains_items _ _ _ _ (walk_items_drains dirs MAX_NAR_ENTRIES (vo_root_node out) ltac:(done))) as (evs & Hw).
  assert (Hfiles : forall t, root_denotes dirs (vo_root_node out) t -> Forall (fun f => 0 <= snd f) (event_files (events [] t))).
  { intros t Ht. rewrite event_files_tree. by eapply root_files_nonneg. }
  split.
  - destruct Hw as [Hw|(e & Hw)].
    + rewrite Hw. apply walk_items_inl in Hw as (t & Ht & Hf & ->); [|done].
      destruct (align_loop _ _ _ _) as [[end_ runs']|] eqn:Ha; [|done]. apply align_loop_spec in Ha; [|done|by apply Hfiles].
      destruct Ha as (parts & H2 & (rest & Hrest) & -> & ->). cbn [fst snd]. destruct (Nat.eqb_spec (0 + length (concat parts)) (length (vo_chunk_manifest out))) as [Hl|]; [|done].
      intros [= <-]. exists t, parts. rewrite event_files_tree in *. rewrite drop_0 in Hrest. split_and!; [done..| |done]. rewrite Hrest in Hl |- *.
      rewrite length_app in Hl. destruct rest; [by rewrite app_nil_r|cbn in Hl; lia].
    + rewrite Hw. destruct (align_loop _ _ _ _) as [r|] eqn:Ha; [|done]. exfalso. clear -Ha. revert Ha. generalize 0%nat (@nil FileRun).
      induction evs as [|ev evs IH]; intros c rs; cbn [List.map app align_loop]; [done|]. destruct ev; try apply IH.
      destruct (cover _ _ _ _) as [cc|]; [|done]. destruct (negb _); [done|apply IH].
  - intros (t & parts & Ht & Hf & H2 & Hm & ->). rewrite (proj2 (walk_items_inl dirs MAX_NAR_ENTRIES (vo_root_node out) (events [] t) ltac:(done))) by eauto.
    rewrite (proj2 (align_loop_spec _ (events [] t) 0 [] (length (concat parts)) (runs_of 0 (tree_files t) parts) Hp (Hfiles t Ht))).
    + cbn [fst snd]. by rewrite Hm, Nat.eqb_refl.
    + exists parts. rewrite event_files_tree. rewrite drop_0. cbn [Nat.add app]. split_and!; [done| |done|done]. exists []. by rewrite app_nil_r.
Qed.

(** ** One size per digest *)

Lemma check_sizes_inl cs m :
  check_sizes cs m = inl tt <->
  (forall d s s', (d, s) ∈ cs -> m !! d = Some s' -> s' = s) /\ (forall d s s', (d, s) ∈ cs -> (d, s') ∈ cs -> s = s').
Proof.
  revert m. induction cs as [|[d s] cs IH]; intros m; cbn [check_sizes].
  { split; [|done]. intros _. split; intros ? ? ? ?%elem_of_nil; done. }
  destruct (m !! d) as [s0|] eqn:Hd.
  - destruct (Z.eqb_spec s0 s) as [->|Hne].
    + rewrite IH. split.
      * intros [H1 H2]. split.
        -- intros d' a b [[= -> ->]|Hin]%elem_of_cons Hm; [congruence|by eapply H1].
        -- intros d' a b [[= -> ->]|Ha]%elem_of_cons [[= E1]|Hb]%elem_of_cons; subst; [done| | |by eapply H2].
           ++ by eapply H1.
           ++ symmetry. by eapply H1.
      * intros [H1 H2]. split; intros d' a b Ha Hb; [eapply H1; [right|]; done|eapply H2; right; done].
    + split; [done|]. intros [H1 _]. destruct Hne. eapply H1; [left|done].
  - rewrite IH. split.
    + intros [H1 H2]. assert (H3 : forall a, (d, a) ∈ cs -> s = a) by (intros a Ha; eapply H1; [done|apply lookup_insert_eq]).
      split.
      * intros d' a b [[= -> ->]|Hin]%elem_of_cons Hm; [congruence|]. eapply H1; [done|]. rewrite lookup_insert_ne; [done|congruence].
      * intros d' a b [[= -> ->]|Ha]%elem_of_cons [[= E1]|Hb]%elem_of_cons; subst; [done|by apply H3|by symmetry; apply H3|by eapply H2].
    + intros [H1 H2]. split.
      * intros d' a b Hin. rewrite lookup_insert_Some. intros [[<- <-]|[_ Hm]]; [eapply H2; [left|by right]|eapply H1; [by right|done]].
      * intros d' a b Ha Hb. eapply H2; right; done.
Qed.

(** ** The novel digests *)

(** The distinct elements in order of first occurrence. *)
Fixpoint distinct (seen : list bytes) (ds : list bytes) : list bytes :=
  match ds with
  | [] => []
  | d :: ds => if bool_decide (d ∈ seen) then distinct seen ds else d :: distinct (d :: seen) ds
  end.

Lemma distinct_In seen ds d : d ∈ distinct seen ds <-> d ∈ ds /\ d ∉ seen.
Proof.
  revert seen. induction ds as [|x ds IH]; intros seen; cbn [distinct]; [set_solver|].
  case_bool_decide; [rewrite IH; set_solver|]. rewrite !elem_of_cons, IH. destruct (decide (d = x)); set_solver.
Qed.

Lemma distinct_NoDup seen ds : NoDup (distinct seen ds).
Proof.
  revert seen. induction ds as [|x ds IH]; intros seen; cbn [distinct]; [constructor|]. case_bool_decide; [done|].
  constructor; [|done]. rewrite distinct_In. set_solver.
Qed.

(** The table of first occurrences is the position in that order. *)
Lemma first_occurrence_spec ds seen m :
  (forall d, d ∈ seen <-> is_Some (m !! d)) ->
  forall d i, first_occurrence ds m !! d = Some i <->
    m !! d = Some i \/ exists k, i = (size m + k)%nat /\ distinct seen ds !! k = Some d.
Proof.
  revert seen m. induction ds as [|x ds IH]; intros seen m Hs d i; cbn [first_occurrence distinct].
  { split; [by left|]. intros [?|(k & _ & ?)]; done. }
  destruct (m !! x) as [j|] eqn:Hx.
  - rewrite bool_decide_eq_true_2 by (apply Hs; by eexists). by apply IH.
  - assert (Hns : x ∉ seen) by (rewrite Hs, Hx; by intros []). rewrite bool_decide_eq_false_2 by done.
    rewrite (IH (x :: seen)).
    2: { intros y. rewrite elem_of_cons, Hs, lookup_insert_is_Some'. destruct (decide (x = y)); naive_solver. }
    rewrite map_size_insert_None by done. rewrite lookup_insert_Some. split.
    + intros [[[-> <-]|[Hne Hm]]|(k & -> & Hk)]; [right; exists 0%nat; split; [lia|done]|by left|]. right. exists (S k). split; [lia|done].
    + intros [Hm|(k & -> & Hk)].
      * left. right. split; [congruence|done].
      * destruct k as [|k]; [left; left; cbn in Hk; split; [congruence|lia]|]. right. exists k. split; [lia|done].
Qed.

Definition after (prev : option nat) (l : list bytes) : list bytes := match prev with Some p => drop (S p) l | None => l end.

Definition start_of (prev : option nat) : nat := match prev with Some p => S p | None => 0%nat end.

Lemma after_drop prev l : after prev l = drop (start_of prev) l.
Proof. destruct prev; [done|by rewrite drop_0]. Qed.

(** Strictly increasing positions are a subsequence. *)
Lemma check_novel_inl first l :
  NoDup l -> Forall (fun d => length d = 32%nat) l -> (forall d i, first !! d = Some i <-> l !! i = Some d) ->
  forall novel prev parsed, check_novel first prev novel = inl parsed <-> parsed = novel /\ novel `sublist_of` after prev l.
Proof.
  intros Hu Hl Hf. induction novel as [|d novel IH]; intros prev parsed; cbn [check_novel].
  { split; [intros [= <-]; split; [done|apply sublist_nil_l]|by intros [-> _]]. }
  unfold digest32. split.
  - destruct (Nat.eqb_spec (length d) 32) as [Hd|]; [|done]. destruct (first !! d) as [pos|] eqn:Hpos; [|done].
    apply Hf in Hpos. destruct (match prev with Some p => (pos <=? p)%nat | None => false end) eqn:Hp; [done|].
    destruct (check_novel first (Some pos) novel) as [ps|] eqn:Hc; [|done]. intros [= <-]. apply IH in Hc as [-> Hsub]. split; [done|].
    rewrite after_drop. assert (Hle : (start_of prev <= pos)%nat) by (destruct prev; cbn; [apply Nat.leb_gt in Hp|]; lia).
    assert (Hsplit : drop (start_of prev) l = take (pos - start_of prev) (drop (start_of prev) l) ++ d :: drop (S pos) l).
    { rewrite <- (take_drop (pos - start_of prev) (drop (start_of prev) l)) at 1. f_equal. rewrite drop_drop.
      replace (start_of prev + (pos - start_of prev))%nat with pos by lia. by rewrite (drop_S l d pos). }
    rewrite Hsplit. apply sublist_inserts_l. by apply sublist_skip.
  - intros [-> Hsub]. rewrite after_drop in Hsub. apply sublist_cons_l in Hsub as (k1 & k2 & Hk & Hsub).
    assert (Hpos : l !! (start_of prev + length k1)%nat = Some d) by (rewrite <- lookup_drop, Hk; apply lookup_cursor).
    rewrite (Forall_lookup_1 _ _ _ _ Hl Hpos). cbn [Nat.eqb]. rewrite (proj2 (Hf _ _) Hpos).
    replace (match prev with Some p => (start_of prev + length k1 <=? p)%nat | None => false end) with false
      by (destruct prev; [symmetry; apply Nat.leb_gt; unfold start_of; lia|done]).
    rewrite (proj2 (IH _ novel)); [done|]. split; [done|]. cbn [after].
    assert (Hdrop : drop (S (start_of prev + length k1)) l = k2).
    { replace (S (start_of prev + length k1)) with (start_of prev + (length k1 + 1))%nat by lia.
      rewrite <- drop_drop, Hk, <- drop_drop, drop_app_length. done. }
    by rewrite Hdrop.
Qed.

Lemma validate_novel_inl novel outputs parsed :
  Forall (fun c => length (fst c) = 32%nat) (all_chunks outputs) ->
  validate_novel novel outputs = inl parsed ->
  parsed = novel /\ novel `sublist_of` distinct [] (List.map fst (all_chunks outputs)).
Proof.
  intros Hl. unfold validate_novel. destruct (check_bound _ _); [|done]. intros Hc.
  apply (check_novel_inl _ (distinct [] (List.map fst (all_chunks outputs)))) in Hc; [done|apply distinct_NoDup| |].
  - apply Forall_forall. intros d [Hd _]%distinct_In. apply list_elem_of_In, in_map_iff in Hd as (c & <- & Hc').
    rewrite Forall_forall in Hl. apply Hl. by apply list_elem_of_In.
  - intros d i. rewrite (first_occurrence_spec _ []).
    + rewrite lookup_empty, map_size_empty. naive_solver.
    + intros x. rewrite lookup_empty. split; [by intros ?%elem_of_nil|by intros []].
Qed.

(** ** Directory sizes *)

Definition sizes_of (ds : list DirectoryEntry) : Z := fold_right (fun e n => d_size e + n) 0 ds.

Lemma claimed_fold ds a v :
  fold_left (fun acc c => match acc with Some a => checked_add a (d_size c) | None => None end) ds a = Some v ->
  exists a0, a = Some a0 /\ v = a0 + sizes_of ds.
Proof.
  revert a. induction ds as [|d ds IH]; intros a; cbn [fold_left sizes_of fold_right].
  { intros ->. exists v. split; [done|lia]. }
  intros (a1 & H1 & ->)%IH. destruct a as [a0|]; [|done]. unfold checked_add in H1. destruct (_ <? _); [|done]. injection H1 as <-.
  exists a0. split; [done|]. fold (sizes_of ds). lia.
Qed.

(** The weight of a child that claims its own size. *)
Definition claimed_weight (c : Child) : Z := match c with CDir e => 1 + d_size e | _ => 1 end.

Definition weights (cs : list Child) : Z := fold_right (fun c n => claimed_weight c + n) 0 cs.

Lemma weights_app a b : weights (a ++ b) = weights a + weights b.
Proof. induction a as [|c a IH]; cbn; [done|]. fold (weights (a ++ b)) (weights a). lia. Qed.

Lemma weights_perm a b : a ≡ₚ b -> weights a = weights b.
Proof. induction 1; cbn in *; unfold weights in *; lia. Qed.

Lemma merged_weights d : weights (merged_children d) = Z.of_nat (entry_count d) + sizes_of (directories d).
Proof.
  rewrite (weights_perm _ _ (merged_permutation d)), !weights_app. unfold entry_count.
  assert (H1 : forall l, weights (List.map CDir l) = Z.of_nat (length l) + sizes_of l).
  { induction l as [|e l IH]; cbn [List.map weights fold_right length sizes_of claimed_weight]; [done|].
    fold (weights (List.map CDir l)) (sizes_of l). lia. }
  assert (H2 : forall l, weights (List.map CFile l) = Z.of_nat (length l)).
  { induction l as [|e l IH]; cbn [List.map weights fold_right length claimed_weight]; [done|]. fold (weights (List.map CFile l)). lia. }
  assert (H3 : forall l, weights (List.map CSymlink l) = Z.of_nat (length l)).
  { induction l as [|e l IH]; cbn [List.map weights fold_right length claimed_weight]; [done|]. fold (weights (List.map CSymlink l)). lia. }
  rewrite H1, H2, H3. lia.
Qed.

(** Local consistency of the claims is global correctness. *)
Lemma directory_size_exact dirs :
  check_directory_entry_sizes dirs = inl tt ->
  forall t k body e, dirs !! k = Some body -> e ∈ directories body -> denotes dirs (CDir e) t -> nodes t = 1 + d_size e.
Proof.
  intros Hc. unfold check_directory_entry_sizes in Hc. destruct (forallb _ _) eqn:Hall; [|done]. clear Hc. rewrite forallb_forall in Hall.
  assert (Hok : forall k body e, dirs !! k = Some body -> e ∈ directories body -> entry_size_ok dirs e = true).
  { intros k body e Hk He. assert (Hin : In (k, body) (map_to_list dirs)) by (by apply list_elem_of_In, elem_of_map_to_list).
    specialize (Hall _ Hin). rewrite forallb_forall in Hall. apply Hall. by apply list_elem_of_In. }
  clear Hall. intros t. induction t as [d s x|tg|ts IH] using Tree_ind'; intros k body e Hk He Hd; try done.
  apply denotes_dir in Hd as (_ & dir & Hdir & H2). pose proof (Hok _ _ _ Hk He) as Hs. unfold entry_size_ok in Hs. rewrite Hdir in Hs.
  apply bool_decide_eq_true in Hs. apply claimed_fold in Hs as (a0 & [= <-] & Hs). rewrite Hs, <- merged_weights. cbn [nodes]. f_equal.
  assert (Hch : forall c, c ∈ merged_children dir -> match c with CDir e' => e' ∈ directories dir | _ => True end).
  { intros c Hin. rewrite merged_permutation in Hin. apply list_elem_of_In in Hin. rewrite !in_app_iff, !in_map_iff in Hin.
    destruct Hin as [(e' & <- & He')|[(e' & <- & _)|(e' & <- & _)]]; [by apply list_elem_of_In|done..]. }
  clear Hs. revert IH Hch. generalize dependent (merged_children dir). intros cs H2 IH Hch.
  induction H2 as [|c et cs ts [Hn Hden] _ IHes]; [done|]. apply Forall_cons in IH as [Ht IH].
  cbn [fold_right weights]. fold (weights cs). rewrite IHes; [|done|intros c' Hc'; apply Hch; by right]. f_equal.
  specialize (Hch c (list_elem_of_here _ _)). destruct c as [e'|f|s]; destruct et as [nm t]; cbn [snd] in *.
  - by apply (Ht (d_digest e) dir e').
  - by destruct t.
  - by destruct t.
Qed.

(** ** The whole frame *)

Lemma collect_inl {A B E} (f : A -> B + E) l bs : collect f l = inl bs <-> Forall2 (fun a b => f a = inl b) l bs.
Proof.
  revert bs. induction l as [|a l IH]; intros bs; cbn [collect].
  { split; [intros [= <-]; constructor|by inversion 1]. }
  split.
  - destruct (f a) as [b|] eqn:Ha; [|done]. destruct (collect f l) as [bs'|]; [|done]. intros [= <-]. constructor; [done|]. by apply IH.
  - inversion 1 as [|? b ? bs' Hb H2]; subst. rewrite Hb. by rewrite (proj2 (IH bs') H2).
Qed.

(** The numbers of the message have the ranges of their types. *)
Definition root_typed (r : option RootNode) : Prop :=
  match r with
  | Some r => match node r with Some (castore.File f) => 0 <= f_size f < 2 ^ 64 | _ => True end
  | None => True
  end.

Definition begin_typed (begin : PutPathChunkedBegin) : Prop :=
  Forall directory_typed (pb_directories begin) /\
  Forall (fun o => 0 <= co_nar_size o /\ Forall (fun c => 0 <= cm_size c) (co_chunk_manifest o) /\ root_typed (co_root_node o))
    (pb_outputs begin).

Definition chunk_ok (c : bytes * Z) : Prop := length (fst c) = 32%nat /\ 1 <= snd c <= FASTCDC_MAX_BYTES.

(** What validation guarantees of one output's scalars. *)
Record output_scalars (claims : AssignmentClaims) (allowed : list bytes) (o : ChunkedOutput) (out : ValidatedOutput) : Prop := {
  ov_path : parse (co_store_path o) = inl (vo_store_path out);
  ov_authorized : AssignmentClaims.is_ca claims = true \/
    sp_full (vo_store_path out) ∈ List.map str (AssignmentClaims.expected_outputs claims);
  ov_references : Forall2 (fun r sp => r ∈ allowed /\ parse r = inl sp) (co_references o) (vo_references out);
  ov_nar : vo_nar_hash out = co_nar_hash o /\ length (vo_nar_hash out) = 32%nat /\ vo_nar_size out = co_nar_size o /\
    1 <= vo_nar_size out <= MAX_NAR_SIZE;
  ov_chunks : Forall chunk_ok (vo_chunk_manifest out) /\ Z.of_nat (length (vo_chunk_manifest out)) <= Manifest.MAX_CHUNKS /\
    sum_sizes (vo_chunk_manifest out) <= vo_nar_size out;
  ov_root : root_ok (vo_root_node out);
}.

(** The output's root is the tree [t], within the bounds, its manifest is the
    chunks [parts] of the tree's files, and the runs say so. *)
Definition output_tree (dirs : gmap bytes castore.Directory) (out : ValidatedOutput) (t : Tree) (parts : list (list (bytes * Z))) : Prop :=
  root_denotes dirs (vo_root_node out) t /\ tree_fits MAX_NAR_ENTRIES t /\
  parts_of (tree_files t) parts /\ vo_chunk_manifest out = concat parts /\ vo_file_runs out = runs_of 0 (tree_files t) parts.

Definition output_valid (claims : AssignmentClaims) (allowed : list bytes) (dirs : gmap bytes castore.Directory)
    (o : ChunkedOutput) (out : ValidatedOutput) : Prop :=
  output_scalars claims allowed o out /\ exists t parts, output_tree dirs out t parts.

Section Whole.
Context `{H : Blake3} `{P : Prost}.

Lemma index_bodies_spec bodies dirs dirs' :
  index_bodies bodies dirs = inl dirs' ->
  forall k d, dirs' !! k = Some d -> dirs !! k = Some d \/ d ∈ bodies /\ k = directory_digest d /\ validate_directory d = None.
Proof.
  revert dirs. induction bodies as [|b bodies IH]; intros dirs; cbn [index_bodies]; [intros [= <-]; by left|].
  destruct (validate_directory b) eqn:Hv; [done|]. destruct (dirs !! directory_digest b); [done|]. intros Hi k d Hk.
  destruct (IH _ Hi k d Hk) as [Hl|(Hin & Hkd & Hvd)]; [|right; split_and!; [by right|done..]].
  apply lookup_insert_Some in Hl as [[<- <-]|[_ Hl]]; [right; split_and!; [left|done..]|by left].
Qed.

Lemma decode_root_spec r root :
  root_typed r -> decode_root_node r = inl root -> r = Some root /\ root_ok root.
Proof.
  unfold decode_root_node, root_typed, root_ok. destruct r as [r|]; [|done]. destruct (node r) as [[d|f|s]|] eqn:Hn; [| | |done]; intros Ht.
  - destruct (negb _); [done|]. intros [= <-]. by rewrite Hn.
  - destruct (negb _); [done|]. intros [= <-]. by rewrite Hn.
  - destruct (target_ok (s_target s)) eqn:Hs; cbn [negb]; [|done]. intros [= <-]. rewrite Hn. split; [done|by apply target_raw].
Qed.

Lemma decode_chunk_spec c x : 0 <= cm_size c -> decode_chunk c = inl x -> chunk_ok x.
Proof.
  unfold decode_chunk, digest32. intros Hc. destruct (Nat.eqb_spec (length (cm_digest c)) 32); [|done].
  destruct (Z.eqb_spec (cm_size c) 0); [done|]. destruct (Z.ltb_spec FASTCDC_MAX_BYTES (cm_size c)); [done|]. cbn [orb]. intros [= <-].
  split; cbn; [done|lia].
Qed.

(** The guards of one output, before its tree. *)
Lemma validate_output_spec claims allowed o out :
  0 <= co_nar_size o -> Forall (fun c => 0 <= cm_size c) (co_chunk_manifest o) -> root_typed (co_root_node o) ->
  validate_output claims allowed o = inl out -> output_scalars claims allowed o out.
Proof.
  intros Hn Hc Hr. unfold validate_output, parse_path. destruct (parse (co_store_path o)) as [sp|] eqn:Hp; [|done].
  destruct (negb (AssignmentClaims.is_ca claims) && negb (existsb _ _)) eqn:Ha; [done|]. unfold digest32.
  destruct (Nat.eqb_spec (length (co_nar_hash o)) 32) as [Hh|]; [|done].
  destruct (Z.eqb_spec (co_nar_size o) 0); [done|]. destruct (Z.ltb_spec MAX_NAR_SIZE (co_nar_size o)) as [|Hm]; [done|]. cbn [orb].
  unfold check_bound at 1. destruct (_ <? _); [done|]. destruct (collect _ (co_references o)) as [refs|] eqn:Hrefs; [|done].
  unfold check_bound. destruct (Z.ltb_spec Manifest.MAX_CHUNKS (Z.of_nat (length (co_chunk_manifest o)))) as [|Hk]; [done|].
  destruct (collect decode_chunk (co_chunk_manifest o)) as [ms|] eqn:Hms; [|done].
  destruct (Z.ltb_spec (co_nar_size o) (sum_sizes ms)) as [|Hsum]; [done|].
  destruct (decode_root_node (co_root_node o)) as [root|] eqn:Hroot; [|done]. intros [= <-].
  apply collect_inl in Hms, Hrefs. constructor; cbn [vo_store_path vo_nar_hash vo_nar_size vo_references vo_root_node vo_chunk_manifest]; [done| | | | |].
  - destruct (AssignmentClaims.is_ca claims); [by left|]. right. cbn [negb andb] in Ha. apply negb_false_iff, existsb_exists in Ha as (e & He & Heq).
    apply bool_decide_eq_true in Heq. rewrite <- Heq. apply list_elem_of_In. by apply in_map.
  - eapply Forall2_impl; [exact Hrefs|]. intros r s. cbn. case_bool_decide; cbn [negb]; [|done]. destruct (parse r) eqn:Hpr; [|done]. intros [= <-]. done.
  - split_and!; [done..|lia|done].
  - split_and!; [|by rewrite <- (Forall2_length _ _ _ Hms)|done]. clear -Hms Hc. induction Hms as [|c x cs xs Hx _ IH]; [constructor|].
    apply Forall_cons in Hc as [Hc1 Hc]. constructor; [by eapply decode_chunk_spec|by apply IH].
  - by eapply decode_root_spec.
Qed.

(** What validation guarantees of the whole upload. *)
Record begin_valid (begin : PutPathChunkedBegin) (claims : AssignmentClaims) (vb : ValidatedBegin) : Prop := {
  bv_closure : AssignmentClaims.input_closure_digest claims = "" \/
    digest_input_closure (pb_input_closure begin) = str (AssignmentClaims.input_closure_digest claims);
  bv_deriver : exists deriver, parse (pb_deriver begin) = inl deriver /\ is_derivation deriver = true /\
    (AssignmentClaims.is_ca claims = true \/ deriver_matches_drv_hash deriver (str (AssignmentClaims.drv_hash claims)) = true);
  bv_bodies : bodies_valid (vb_directories vb);
  bv_keys : forall k d, vb_directories vb !! k = Some d -> k = directory_digest d;
  bv_reachable : forall d, d ∈ dom (vb_directories vb) <-> reachable (vb_directories vb) (vb_outputs vb) d;
  bv_outputs : Forall2 (output_valid claims (List.map co_store_path (pb_outputs begin) ++ pb_input_closure begin) (vb_directories vb))
    (pb_outputs begin) (vb_outputs vb);
  bv_sizes : forall d s s', (d, s) ∈ all_chunks (vb_outputs vb) -> (d, s') ∈ all_chunks (vb_outputs vb) -> s = s';
  bv_novel : vb_novel vb = pb_novel begin /\
    vb_novel vb `sublist_of` distinct [] (List.map fst (all_chunks (vb_outputs vb)));
  bv_dir_sizes : forall t k body e, vb_directories vb !! k = Some body -> e ∈ directories body ->
    denotes (vb_directories vb) (CDir e) t -> nodes t = 1 + d_size e;
}.

Lemma reachable_same dirs a b d :
  Forall2 (fun x y => vo_root_node x = vo_root_node y) a b -> reachable dirs a d -> reachable dirs b d.
Proof.
  intros H2. induction 1 as [d (out & Hin & Hn)|d c _ IH Hc]; [|by eapply reachable_edge]. apply reachable_root.
  apply list_elem_of_lookup_1 in Hin as (i & Hi). destruct (Forall2_lookup_l _ _ _ _ _ H2 Hi) as (y & Hy & E). exists y.
  split; [by eapply list_elem_of_lookup_2|congruence].
Qed.

(** The validation of the trees, on outputs whose scalars are valid. *)
Lemma validate_tree_spec begin outputs dirs vb :
  bodies_valid dirs -> Forall (fun out => root_ok (vo_root_node out) /\ Forall chunk_ok (vo_chunk_manifest out)) outputs ->
  validate_tree begin outputs dirs = Some (inl vb) ->
  vb_directories vb = dirs /\
  Forall2 (fun out out' => exists runs, out' = set_runs out runs /\ align_chunk_runs dirs out = inl runs) outputs (vb_outputs vb) /\
  (forall d, d ∈ dom dirs <-> reachable dirs (vb_outputs vb) d) /\
  check_directory_entry_sizes dirs = inl tt /\
  (forall d s s', (d, s) ∈ all_chunks (vb_outputs vb) -> (d, s') ∈ all_chunks (vb_outputs vb) -> s = s') /\
  vb_novel vb = pb_novel begin /\ vb_novel vb `sublist_of` distinct [] (List.map fst (all_chunks (vb_outputs vb))).
Proof.
  intros Hb Hok. unfold validate_tree. destruct (reachable_digests_spec dirs outputs) as (r & -> & Hr). destruct r as [reached|]; [|done].
  destruct Hr as [Hiff Hsub]. destruct (Nat.eqb_spec (size reached) (size dirs)) as [Hsz|]; cbn [negb]; [|done].
  destruct (check_directory_entry_sizes dirs) as [[]|] eqn:Hds; [|done].
  destruct (collect _ outputs) as [outs|] eqn:Hcol; [|done]. destruct (check_sizes _ _) as [[]|] eqn:Hcs; [|done].
  destruct (validate_novel _ _) as [novel|] eqn:Hnov; [|done]. intros [= <-]. cbn [vb_directories vb_outputs vb_novel].
  apply collect_inl in Hcol. assert (Hruns : Forall2 (fun out out' => exists runs, out' = set_runs out runs /\ align_chunk_runs dirs out = inl runs) outputs outs).
  { eapply Forall2_impl; [exact Hcol|]. intros x y Hxy. cbn in Hxy. destruct (align_chunk_runs dirs x) as [runs|]; [|done].
    injection Hxy as <-. by exists runs. }
  apply check_sizes_inl in Hcs as [_ Hcs]. apply validate_novel_inl in Hnov as [-> Hnov].
  2: { clear -Hruns Hok. induction Hruns as [|x y xs ys (runs & -> & _) _ IH]; [constructor|]. apply Forall_cons in Hok as [[_ Hc] Hok].
       unfold all_chunks. cbn [flat_map set_runs vo_chunk_manifest]. apply Forall_app. split; [|by apply IH].
       eapply Forall_impl; [exact Hc|]. by intros c [? _]. }
  assert (Hdom : dom dirs ≡ reached).
  { symmetry. apply set_subseteq_size_equiv; [done|]. rewrite size_dom, Hsz. done. }
  split_and!; [done|done| |done|done|done|done]. intros d. rewrite (Hdom d), Hiff.
  split; apply reachable_same; [|apply Forall2_flip]; (eapply Forall2_impl; [exact Hruns|]); by intros x y (runs & -> & _).
Qed.

Lemma chunks_positive ms : Forall chunk_ok ms -> positive ms.
Proof. intros Hc. eapply Forall_impl; [exact Hc|]. intros c [_ ?]. cbn. lia. Qed.

Lemma outputs_ok claims allowed os outs :
  Forall2 (output_scalars claims allowed) os outs ->
  Forall (fun out => root_ok (vo_root_node out) /\ Forall chunk_ok (vo_chunk_manifest out)) outs.
Proof. induction 1 as [|o out os outs Hs _ IH]; constructor; [|done]. split; apply Hs. Qed.

Lemma validate_begin_valid begin claims vb :
  begin_typed begin -> validate_begin begin claims = Some (inl vb) -> begin_valid begin claims vb.
Proof.
  intros [Htd Hto]. unfold validate_begin. case_bool_decide; [done|]. do 3 (destruct (check_bound _ _); [|done]).
  destruct (negb (bytes_eqb (str (AssignmentClaims.input_closure_digest claims)) []) && _) eqn:Hcl; [done|].
  destruct (collect parse_path _); [|done]. unfold parse_path. destruct (parse (pb_deriver begin)) as [deriver|] eqn:Hder; [|done].
  destruct (is_derivation deriver) eqn:Hisd; cbn [negb]; [|done].
  destruct (negb (AssignmentClaims.is_ca claims) && _) eqn:Hm; [done|].
  destruct (index_bodies (pb_directories begin) ∅) as [dirs|] eqn:Hi; [|done]. destruct (has_duplicate _ _); [done|].
  destruct (collect (validate_output _ _) _) as [outs|] eqn:Ho; [|done]. apply collect_inl in Ho. intros Ht.
  assert (Hbodies : forall k d, dirs !! k = Some d -> d ∈ pb_directories begin /\ k = directory_digest d /\ validate_directory d = None).
  { intros k d Hk. destruct (index_bodies_spec _ _ _ Hi k d Hk) as [Hx|Hx]; [by rewrite lookup_empty in Hx|done]. }
  assert (Hbv : bodies_valid dirs).
  { intros k d Hk. destruct (Hbodies k d Hk) as (Hin & _ & Hv). split; [|done]. rewrite Forall_forall in Htd. by apply Htd. }
  assert (Hsc : Forall2 (output_scalars claims (List.map co_store_path (pb_outputs begin) ++ pb_input_closure begin)) (pb_outputs begin) outs).
  { clear -Ho Hto. revert Ho. generalize (List.map co_store_path (pb_outputs begin) ++ pb_input_closure begin) as allowed. intros allowed Ho.
    induction Ho as [|o out os outs Ho _ IH]; [constructor|]. apply Forall_cons in Hto as [(H1 & H2 & H3) Hto]. constructor; [|by apply IH].
    by apply validate_output_spec. }
  apply validate_tree_spec in Ht as (Hvd & Hruns & Hreach & Hds & Hcs & Hnov); [|done|by eapply outputs_ok].
  constructor; rewrite ?Hvd; [| |done|by intros k d (_ & ? & _)%Hbodies|done| |done|done|by apply directory_size_exact].
  - apply andb_false_iff in Hcl as [Hcl|Hcl]; apply negb_false_iff, bool_decide_eq_true in Hcl; [left|by right].
    destruct (AssignmentClaims.input_closure_digest claims); [done|discriminate Hcl].
  - exists deriver. split_and!; [done..|]. apply andb_false_iff in Hm as [Hm|Hm]; apply negb_false_iff in Hm; [by left|by right].
  - clear -Hsc Hruns Hbv. revert Hsc. generalize (List.map co_store_path (pb_outputs begin) ++ pb_input_closure begin) as allowed. intros allowed Hsc.
    revert Hruns. generalize (vb_outputs vb). induction Hsc as [|o out os outs Hs _ IH]; intros vos Hr; inversion Hr as [|? vo ? vos' (runs & -> & Hal) Hr']; subst; constructor; [|by apply IH].
    split; [by destruct Hs; constructor|]. apply align_chunk_runs_spec in Hal; [|done|by apply Hs|by eapply chunks_positive, Hs].
    destruct Hal as (t & parts & H1 & H2 & H3 & H4 & ->). by exists t, parts.
Qed.

(** The reachability loop always ends. *)
Lemma validate_begin_total begin claims : is_Some (validate_begin begin claims).
Proof.
  unfold validate_begin. match goal with |- context [match ?x with inl _ => _ | inr _ => _ end] => destruct x as [[outs dirs]|] end; [|by eexists].
  unfold validate_tree. destruct (reachable_digests_spec dirs outs) as (r & -> & _). destruct r; by eexists.
Qed.
End Whole.

(** C16: Validation of a chunked upload decides and is sound: for every first
    frame of the wire types and every claims it returns, and a frame that it
    accepts satisfies [begin_valid].  The frame's input closure has the digest that
    the token commits to, when the token carries one (an empty digest leaves the
    closure unattested); its deriver is a derivation path, and the assigned one
    unless the token says that the derivation is content-addressed; the Directory
    bodies are well formed, keyed by their own digests and exactly those that
    the outputs' roots reach; each output's path is one the token expects
    (unless the derivation is content-addressed), its references lie in the
    batch or in the input closure, its root denotes a tree within the node and
    depth bounds, and its chunk manifest is carved without gap or overlap along
    that tree's files, in order, by the recorded runs; a digest has one size;
    the novel digests are distinct and in the order of first occurrence; and
    every claimed directory size is the number of descendants of the directory
    it names. *)
Theorem validate_begin_sound `{H : Blake3} `{P : Prost} begin claims :
  begin_typed begin ->
  exists r, validate_begin begin claims = Some r /\ forall vb, r = inl vb -> begin_valid begin claims vb.
Proof.
  intros Ht. destruct (validate_begin_total begin claims) as [r Hr]. exists r. split; [done|]. intros vb ->.
  by apply validate_begin_valid.
Qed.

(** ** A concrete upload *)

(** A positional number as a hash of 32 numbers. *)
Definition upload_blake3 : Blake3 := {|
  hasher := Z;
  hasher_new := 0;
  hasher_update h b := fold_left (fun h x => 257 * h + x + 1) b h;
  hasher_finalize h := h :: repeat 0 31;
|}.

(** One output, a directory with one two-chunk file and a symlink. *)
Definition upload_file : FileEntry := mkFileEntry (str "f") (@digest upload_blake3 (str "hello")) 5 false.
Definition upload_dir : castore.Directory := mkDirectory [] [upload_file] [mkSymlinkEntry (str "l") (str "f")].
Definition upload_chunks : list bytes := [str "hel"; str "lo"].

Definition upload_output : ChunkedOutput :=
  mkChunkedOutput (str "/nix/store/aaaaaaaaaaaaaaaaaaaaaaaaaaaaaaaa-out") (repeat 0 32) 500 []
    (Some (mkRootNode (Some (DirDigest (@directory_digest upload_blake3 example_prost upload_dir)))))
    (List.map (fun c => mkChunkMeta (@digest upload_blake3 c) (len c)) upload_chunks).

Definition upload_begin : PutPathChunkedBegin :=
  mkBegin (str "/nix/store/bbbbbbbbbbbbbbbbbbbbbbbbbbbbbbbb-x.drv") [upload_output] [upload_dir]
    (List.map (@digest upload_blake3) upload_chunks) [].

Definition upload_claims : AssignmentClaims :=
  AssignmentClaims.mk "b1" "bbbbbbbbbbbbbbbbbbbbbbbbbbbbbbbb" ["/nix/store/aaaaaaaaaaaaaaaaaaaaaaaaaaaaaaaa-out"] false 2000 None "".

Definition upload_accepted : option ValidatedBegin :=
  match @validate_begin upload_blake3 example_prost upload_begin upload_claims with Some (inl vb) => Some vb | _ => None end.

Lemma upload_typed : begin_typed upload_begin.
Proof.
  split; [apply (bool_decide_unpack _); vm_compute; reflexivity|]. constructor; [|constructor].
  split_and!; [by vm_compute| |exact I]. apply (bool_decide_unpack _). vm_compute. reflexivity.
Qed.

Lemma validate_begin_sound_witness :
  exists vb, upload_accepted = Some vb /\ @begin_valid upload_blake3 example_prost upload_begin upload_claims vb /\
    List.map run_chunks (flat_map vo_file_runs (vb_outputs vb)) = [(0, 2)%nat].
Proof.
  destruct (@validate_begin_sound upload_blake3 example_prost upload_begin upload_claims upload_typed) as (r & Hr & Hv).
  assert (E : match r with inl vb => List.map run_chunks (flat_map vo_file_runs (vb_outputs vb)) | inr _ => [] end = [(0, 2)%nat]).
  { assert (Hc : match @validate_begin upload_blake3 example_prost upload_begin upload_claims with
      | Some (inl vb) => List.map run_chunks (flat_map vo_file_runs (vb_outputs vb)) | _ => [] end = [(0, 2)%nat]) by (vm_compute; reflexivity).
    rewrite Hr in Hc. destruct r; exact Hc. }
  destruct r as [vb|]; [|discriminate E]. exists vb. unfold upload_accepted. rewrite Hr. split; [done|]. split; [by apply Hv|done].
Defined.
