(* ===== verification/StoreVerify.v ===== *)
(** * Store: the receive walk of a chunked upload

    [src/rio-store/src/grpc/put_path_chunked/verify.rs] and [file_digest.rs]:
    the frames after the first are received in the order of the novel digests,
    each body is checked against its digest and length, the backend writes are
    pipelined, and every file digest is recomputed, inline when all the file's
    chunks arrive on the stream and from committed windows or refetched chunks
    otherwise.

    The order in which the spawned writes complete and whether each of them
    succeeds is a parameter, and so are the rows that the database returns and
    the chunks that the backend returns. *)

From stdpp Require Import sorting.
From S2P Require Import Prelude NixBytes NixStorePath NixNar NixNarLs StoreManifest StoreCastore StoreWalk.
From S2P Require Import StoreNar StoreValid StoreBuild StoreRoundTrip StorePut StorePutSound.

#[local] Open Scope Z_scope.

(** ** The stream *)

Inductive Msg : Type :=
  | MBegin (begin : PutPathChunkedBegin)
  | MChunk (digest data : bytes).

(** What is left of the stream; a transport error is a status. *)
Definition Stream : Type := list (option Msg + Code).

Definition next_message (stream : Stream) : (option Msg + Code) * Stream :=
  match stream with
  | [] => (inl None, [])
  | inr e :: stream => (inr e, stream)
  | inl None :: stream => (inr InvalidArgument, stream)
  | inl (Some m) :: stream => (inl (Some m), stream)
  end.

(** ** The write pipeline *)

Record UploadPipeline : Type := mkPipeline {
  backend : gmap bytes bytes;
  in_flight : list (bytes * bytes);
  submitted : gset bytes;
  uploaded : gset bytes;
  max_concurrent : nat;
  joins : nat;
}.

Module UploadPipeline.
Section Pipeline.
(** The [n]-th join: which of the tasks in flight ends, and whether its write succeeded. *)
Context (completes : nat -> nat * bool).

Definition new (backend : gmap bytes bytes) (max_concurrent : nat) : UploadPipeline :=
  mkPipeline backend [] ∅ ∅ (Nat.max max_concurrent 1) 0.

Definition seen (p : UploadPipeline) (digest : bytes) : bool := bool_decide (digest ∈ submitted p).

(** A write that succeeded is in the backend. *)
Definition join_one (p : UploadPipeline) : (unit + unit) * UploadPipeline :=
  let '(i, ok) := completes (joins p) in
  let i := (i mod length (in_flight p))%nat in
  match in_flight p !! i with
  | None => (inl tt, p)
  | Some (digest, body) =>
      let rest := take i (in_flight p) ++ drop (S i) (in_flight p) in
      if ok then
        (inl tt, mkPipeline (<[digest := body]> (backend p)) rest (submitted p) ({[digest]} ∪ uploaded p) (max_concurrent p) (S (joins p)))
      else (inr tt, mkPipeline (backend p) rest (submitted p) (uploaded p) (max_concurrent p) (S (joins p)))
  end.

(** [while in_flight.len() >= bound { join_one()? }]; a task leaves at every turn. *)
Fixpoint join_until (fuel bound : nat) (p : UploadPipeline) : (unit + unit) * UploadPipeline :=
  if (bound <=? length (in_flight p))%nat then
    match fuel with
    | 0%nat => (inl tt, p)
    | S fuel =>
        match join_one p with
        | (inr e, p) => (inr e, p)
        | (inl _, p) => join_until fuel bound p
        end
    end
  else (inl tt, p).

Definition spawn (p : UploadPipeline) (digest body : bytes) : UploadPipeline :=
  mkPipeline (backend p) (in_flight p ++ [(digest, body)]) ({[digest]} ∪ submitted p) (uploaded p) (max_concurrent p) (joins p).

Definition submit (p : UploadPipeline) (digest body : bytes) : (unit + unit) * UploadPipeline :=
  match join_until (length (in_flight p)) (max_concurrent p) p with
  | (inr e, p) => (inr e, p)
  | (inl _, p) => (inl tt, spawn p digest body)
  end.

Definition drain (p : UploadPipeline) : (gset bytes + unit) * UploadPipeline :=
  match join_until (length (in_flight p)) 1 p with
  | (inr e, p) => (inr e, p)
  | (inl _, p) => (inl (uploaded p), p)
  end.
End Pipeline.
End UploadPipeline.

(** ** The walk *)

Record DeferredRun : Type := mkDeferredRun { dr_output : nat; dr_run : nat }.

Inductive Verdict : Type :=
  | Match (uploaded : gset bytes) (deferred : list DeferredRun)
  | Incomplete
  | VUnavailable.

Record VerifyState : Type := mkVerifyState {
  vs_stream : Stream;
  vs_next_novel : nat;
  vs_pipeline : UploadPipeline;
  vs_deferred : list DeferredRun;
}.

Definition set_stream (s : VerifyState) (x : Stream) : VerifyState :=
  mkVerifyState x (vs_next_novel s) (vs_pipeline s) (vs_deferred s).
Definition set_next_novel (s : VerifyState) (x : nat) : VerifyState :=
  mkVerifyState (vs_stream s) x (vs_pipeline s) (vs_deferred s).
Definition set_pipeline (s : VerifyState) (x : UploadPipeline) : VerifyState :=
  mkVerifyState (vs_stream s) (vs_next_novel s) x (vs_deferred s).
Definition set_deferred (s : VerifyState) (x : list DeferredRun) : VerifyState :=
  mkVerifyState (vs_stream s) (vs_next_novel s) (vs_pipeline s) x.

(** The walk's monad: the mutable state, and [return] from the whole function. *)
Definition Walk (A : Type) : Type := VerifyState -> (A + (Verdict + Code)) * VerifyState.

Definition ret {A} (a : A) : Walk A := fun s => (inl a, s).
Definition exit {A} (r : Verdict + Code) : Walk A := fun s => (inr r, s).
Definition bind {A B} (m : Walk A) (k : A -> Walk B) : Walk B :=
  fun s => match m s with (inl a, s) => k a s | (inr r, s) => (inr r, s) end.

Notation "x <~ m ; k" := (bind m (fun x => k)) (at level 100, m at next level, k at level 200, right associativity).

Section Verify.
Context `{H : Blake3} (completes : nat -> nat * bool).
Context (novel : list bytes).

Definition receive : Walk (option Msg) :=
  fun s => match next_message (vs_stream s) with
           | (inl m, stream) => (inl m, set_stream s stream)
           | (inr e, stream) => (inr (inr e), set_stream s stream)
           end.

Definition recv_novel_chunk (expected_digest : bytes) (expected_len : Z) : Walk (option bytes) :=
  msg <~ receive;
  match msg with
  | None => ret None
  | Some (MBegin _) => exit (inr InvalidArgument)
  | Some (MChunk digest data) =>
      if negb (Nat.eqb (length digest) 32) then exit (inr InvalidArgument)
      else fun s =>
        match novel !! vs_next_novel s with
        | None => exit (inr InvalidArgument) s
        | Some expected_novel =>
            if negb (bytes_eqb digest expected_digest) || negb (bytes_eqb expected_digest expected_novel) then
              exit (inr InvalidArgument) s
            else if negb (len data =? expected_len) then exit (inr InvalidArgument) s
            else if negb (bytes_eqb (NixNarLs.digest data) expected_digest) then exit (inr InvalidArgument) s
            else (inl (Some data), set_next_novel s (S (vs_next_novel s)))
        end
  end.

Definition submit_body (digest body : bytes) : Walk unit :=
  fun s => match UploadPipeline.submit completes (vs_pipeline s) digest body with
           | (inl _, p) => (inl tt, set_pipeline s p)
           | (inr _, p) => (inr (inl VUnavailable), set_pipeline s p)
           end.

(** One chunk of a run; the hasher is lost when the bytes are not on the stream. *)
Definition visit_chunk (h : option hasher) (c : bytes * Z) : Walk (option hasher) :=
  let '(digest, len) := c in
  fun s =>
    if bool_decide (digest ∈ novel) && negb (UploadPipeline.seen (vs_pipeline s) digest) then
      (body <~ recv_novel_chunk digest len;
       match body with
       | None => exit (inl Incomplete)
       | Some body =>
           _ <~ submit_body digest body;
           ret (match h with Some h => Some (hasher_update h body) | None => None end)
       end) s
    else (inl None, s).

Fixpoint visit_chunks (h : option hasher) (cs : list (bytes * Z)) : Walk (option hasher) :=
  match cs with
  | [] => ret h
  | c :: cs => h <~ visit_chunk h c; visit_chunks h cs
  end.

(** [chunk_manifest[run.chunks]]; a run of a validated output is in range. *)
Definition run_slice (out : ValidatedOutput) (run : FileRun) : list (bytes * Z) :=
  take (snd (run_chunks run) - fst (run_chunks run)) (drop (fst (run_chunks run)) (vo_chunk_manifest out)).

Definition defer (oi ri : nat) : Walk unit :=
  fun s => (inl tt, set_deferred s (vs_deferred s ++ [mkDeferredRun oi ri])).

Definition visit_run (check : bool) (oi ri : nat) (out : ValidatedOutput) (run : FileRun) : Walk unit :=
  h <~ visit_chunks (if check then Some hasher_new else None) (run_slice out run);
  match h with
  | Some h => if negb (bytes_eqb (hasher_finalize h) (run_digest run)) then exit (inr InvalidArgument) else ret tt
  | None => if check then defer oi ri else ret tt
  end.

Fixpoint visit_runs (check : bool) (oi ri : nat) (out : ValidatedOutput) (runs : list FileRun) : Walk unit :=
  match runs with
  | [] => ret tt
  | run :: runs => _ <~ visit_run check oi ri out run; visit_runs check oi (S ri) out runs
  end.

(** [skipped[oi]]; the vector has an element per output. *)
Definition is_skipped (skipped : list bool) (oi : nat) : bool := default false (skipped !! oi).

Fixpoint visit_outputs (skipped : list bool) (oi : nat) (outs : list ValidatedOutput) : Walk unit :=
  match outs with
  | [] => ret tt
  | out :: outs =>
      _ <~ visit_runs (negb (is_skipped skipped oi)) oi 0 out (vo_file_runs out); visit_outputs skipped (S oi) outs
  end.

(** After the outputs: every novel digest was received, nothing else follows,
    and every write is confirmed. *)
Definition finish_walk : Walk Verdict :=
  fun s =>
    if (vs_next_novel s <? length novel)%nat then exit (inl Incomplete) s
    else
      (msg <~ receive;
       match msg with
       | Some _ => exit (inr InvalidArgument)
       | None => fun s =>
           match UploadPipeline.drain completes (vs_pipeline s) with
           | (inl up, p) => (inl (Match up (vs_deferred s)), set_pipeline s p)
           | (inr _, p) => (inr (inl VUnavailable), set_pipeline s p)
           end
       end) s.
End Verify.

(** The result and the backend it leaves; the writes still in flight are in the
    state. *)
Definition run_verify `{Blake3} (completes : nat -> nat * bool) (stream : Stream) (validated : ValidatedBegin) (skipped : list bool)
    (store : gmap bytes bytes) (chunk_upload_max_concurrent : nat) : (Verdict + Code) * VerifyState :=
  let s := mkVerifyState stream 0 (UploadPipeline.new store chunk_upload_max_concurrent) [] in
  match (_ <~ visit_outputs completes (vb_novel validated) skipped 0 (vb_outputs validated);
         finish_walk completes (vb_novel validated)) s with
  | (inl v, s) => (inl v, s)
  | (inr r, s) => (r, s)
  end.

(** ** Deferred file digests *)

(** [slice::binary_search] on a [Vec<u64>]. *)
Fixpoint search_loop (fuel : nat) (l : list Z) (x : Z) (base size : nat) : nat :=
  match fuel with
  | 0%nat => base
  | S fuel =>
      if (1 <? size)%nat then
        let half := (size / 2)%nat in
        let mid := (base + half)%nat in
        search_loop fuel l x (if x <? default 0 (l !! mid) then base else mid) (size - half)
      else base
  end.

Definition binary_search (l : list Z) (x : Z) : option nat :=
  let i := search_loop (length l) l x 0 (length l) in
  match l !! i with Some y => if y =? x then Some i else None | None => None end.

Module IndexedManifest.
Record IndexedManifest : Type := mk { entries : list ManifestEntry; starts : list Z }.

Fixpoint starts_from (acc : Z) (es : list ManifestEntry) : list Z :=
  match es with
  | [] => [acc]
  | e :: es => acc :: starts_from (acc + me_size e) es
  end.

Definition new (es : list ManifestEntry) : IndexedManifest := mk es (starts_from 0 es).

Definition window (m : IndexedManifest) (offset size : Z) : option (list ManifestEntry) :=
  match binary_search (starts m) offset with
  | None => None
  | Some start =>
      match checked_add offset size with
      | None => None
      | Some last =>
          match binary_search (starts m) last with
          | None => None
          | Some end_ =>
              if (start <=? end_)%nat && (end_ <=? length (entries m))%nat then Some (take (end_ - start) (drop start (entries m)))
              else None
          end
      end
  end.
End IndexedManifest.

Definition window_matches (window : list ManifestEntry) (claimed : list (bytes * Z)) : bool :=
  Nat.eqb (length window) (length claimed) &&
  forallb (fun wc => bytes_eqb (me_hash (fst wc)) (fst (snd wc)) && (me_size (fst wc) =? snd (snd wc))) (zip window claimed).

(** What [ChunkBackend::get] returns: the object, nothing, or a failure. *)
Definition Fetched : Type := option bytes + unit.

(** A row of [trusted_file_windows]: digest, referrer, offset and size ([i64]). *)
Definition WindowRow : Type := bytes * bytes * Z * Z.

Section Deferred.
Context `{H : Blake3}.
(** The database: the committed rows for some digests, and the chunk lists of some paths. *)
Context (trusted_file_windows : list bytes -> list WindowRow + Code).
Context (chunk_lists_for_paths : list bytes -> list (bytes * bytes) + Code).
(** The [n]-th fetch of a chunk. *)
Context (get : nat -> bytes -> Fetched).

(** [collect::<BTreeSet<_>>()] and back to a vector. *)
Definition btree_set (l : list bytes) : list bytes :=
  List.map fst (merge_sort key_le (List.map (fun b => (b, tt)) (remove_dups l))).

Definition deferred_run (validated : ValidatedBegin) (d : DeferredRun) : option (ValidatedOutput * FileRun) :=
  match vb_outputs validated !! dr_output d with
  | Some out => match vo_file_runs out !! dr_run d with Some run => Some (out, run) | None => None end
  | None => None
  end.

Definition index_manifests (lists : list (bytes * bytes)) : gmap bytes IndexedManifest.IndexedManifest :=
  fold_left (fun m pl => match Manifest.deserialize (snd pl) with
                         | inl es => <[fst pl := IndexedManifest.new es]> m
                         | inr _ => m
                         end) lists ∅.

Definition row_window (manifests : gmap bytes IndexedManifest.IndexedManifest) (r : WindowRow) : option (list ManifestEntry) :=
  let '(digest, referrer, offset, size) := r in
  if negb (Nat.eqb (length digest) 32) then None
  else if (offset <? 0) || (size <? 0) then None
  else match manifests !! referrer with Some m => IndexedManifest.window m offset size | None => None end.

Definition insert_window (manifests : gmap bytes IndexedManifest.IndexedManifest) (windows : gmap bytes (list ManifestEntry))
    (r : WindowRow) : gmap bytes (list ManifestEntry) :=
  match row_window manifests r with Some w => <[r.1.1.1 := w]> windows | None => windows end.

(** Indices of deferred runs are those of the validated outputs. *)
Definition trusted_windows (validated : ValidatedBegin) (deferred : list DeferredRun) : gmap bytes (list ManifestEntry) + Code :=
  let digests := btree_set (omap (fun d => run_digest ∘ snd <$> deferred_run validated d) deferred) in
  rows <-? trusted_file_windows digests;
  lists <-? chunk_lists_for_paths (btree_set (List.map (fun r : WindowRow => r.1.1.2) rows));
  inl (fold_left (insert_window (index_manifests lists)) rows ∅).

(** The fetch loop, from the hasher it has reached. *)
Fixpoint refetch (n : nat) (claimed : list (bytes * Z)) (h : hasher) : hasher + Code :=
  match claimed with
  | [] => inl h
  | (digest, l) :: claimed =>
      match get n digest with
      | inl (Some body) =>
          if (len body =? l) && bytes_eqb (NixNarLs.digest body) digest then refetch (S n) claimed (hasher_update h body) else inr DataLoss
      | inl None => inr Unavailable
      | inr _ => inr Unavailable
      end
  end.

Definition refetch_and_verify (n : nat) (run : FileRun) (claimed : list (bytes * Z)) : unit + Code :=
  h <-? refetch n claimed hasher_new;
  if negb (bytes_eqb (hasher_finalize h) (run_digest run)) then inr InvalidArgument else inl tt.

Definition window_agrees (windows : gmap bytes (list ManifestEntry)) (run : FileRun) (claimed : list (bytes * Z)) : bool :=
  match windows !! run_digest run with Some w => window_matches w claimed | None => false end.

Fixpoint verify_runs (windows : gmap bytes (list ManifestEntry)) (validated : ValidatedBegin) (n : nat) (deferred : list DeferredRun)
    : unit + Code :=
  match deferred with
  | [] => inl tt
  | d :: deferred =>
      match deferred_run validated d with
      | None => inr Internal
      | Some (out, run) =>
          let claimed := run_slice out run in
          if window_agrees windows run claimed then verify_runs windows validated n deferred
          else _ <-? refetch_and_verify n run claimed; verify_runs windows validated (n + length claimed) deferred
      end
  end.

Definition verify_deferred_runs (validated : ValidatedBegin) (deferred : list DeferredRun) : unit + Code :=
  match deferred with
  | [] => inl tt
  | _ => windows <-? trusted_windows validated deferred; verify_runs windows validated 0 deferred
  end.
End Deferred.
