(* ===== verification/StoreVerifySound.v ===== *)
(** * Store: what the receive walk of a chunked upload guarantees

    Whatever the stream, the completion order and the failures, only bodies
    that hash to their keys are written, each at most once and never more than
    the bound at a time; when the walk and the deferred proof end well, every
    file of every output that will be committed has content of the claimed
    digest in chunks of the claimed digests and sizes. *)

From stdpp Require Import sorting.
From S2P Require Import Prelude NixBytes NixStorePath NixNar NixNarLs StoreManifest StoreCastore StoreWalk.
From S2P Require Import StoreNar StoreValid StoreBuild StoreRoundTrip StorePut StorePutSound StoreVerify.

#[local] Open Scope Z_scope.

(** ** The pipeline *)

(** What holds at every moment, from a backend and a bound: [rs] are the submitted bodies. *)
Record pipe_safe (start : gmap bytes bytes * nat) (rs : list (bytes * bytes)) (p : UploadPipeline) : Prop := {
  ps_submitted : forall d, d ∈ submitted p <-> d ∈ List.map fst rs;
  ps_nodup : NoDup (List.map fst rs);
  ps_flight : forall x, x ∈ in_flight p -> x ∈ rs;
  ps_uploaded : forall d, d ∈ uploaded p -> d ∈ List.map fst rs;
  ps_backend : forall d b, backend p !! d = Some b -> start.1 !! d = Some b \/ (d, b) ∈ rs;
  ps_max : max_concurrent p = Nat.max start.2 1;
  ps_bound : (length (in_flight p) <= max_concurrent p)%nat;
}.

(** While no write has failed, every body is in flight or in the backend. *)
Definition pipe_live (rs : list (bytes * bytes)) (p : UploadPipeline) : Prop :=
  forall d b, (d, b) ∈ rs -> (d, b) ∈ in_flight p \/ d ∈ uploaded p /\ backend p !! d = Some b.

Lemma new_safe store n : pipe_safe (store, n) [] (UploadPipeline.new store n) /\ pipe_live [] (UploadPipeline.new store n).
Proof. split; [|by intros d b ?%elem_of_nil]. split; cbn; [set_solver|constructor|set_solver|set_solver|by left|done|lia]. Qed.

Lemma elem_of_fst {A B} (d : A) (b : B) rs : (d, b) ∈ rs -> d ∈ List.map fst rs.
Proof. intros ?. rewrite list_elem_of_In. apply in_map_iff. exists (d, b). by rewrite <- list_elem_of_In. Qed.

Lemma fst_inj {A B} (d : A) (b b' : B) rs : NoDup (List.map fst rs) -> (d, b) ∈ rs -> (d, b') ∈ rs -> b = b'.
Proof.
  induction rs as [|[x y] rs IH]; cbn [List.map fst]; [by intros _ ?%elem_of_nil|]. intros [Hn Hd]%NoDup_cons.
  intros [[= -> ->]|H1]%elem_of_cons [[= <-]|H2]%elem_of_cons; [done| | |by apply IH].
  - by apply elem_of_fst in H2.
  - subst. by apply elem_of_fst in H1.
Qed.

Section Pipeline.
Context (completes : nat -> nat * bool) (start : gmap bytes bytes * nat).
Notation pipe_safe := (pipe_safe start).

(** One join, with a task in flight. *)
Lemma join_one_spec rs p :
  pipe_safe rs p -> in_flight p <> [] ->
  exists r p', UploadPipeline.join_one completes p = (r, p') /\ pipe_safe rs p' /\
    length (in_flight p) = S (length (in_flight p')) /\ submitted p' = submitted p /\ max_concurrent p' = max_concurrent p /\
    (r = inl tt -> pipe_live rs p -> pipe_live rs p') /\ ((forall n, (completes n).2 = true) -> r = inl tt).
Proof.
  intros Hs Hne. unfold UploadPipeline.join_one. destruct (completes (joins p)) as [i ok] eqn:Hc.
  set (j := (i mod length (in_flight p))%nat).
  assert (Hj : (j < length (in_flight p))%nat) by (apply Nat.mod_upper_bound; by destruct (in_flight p)).
  destruct (lookup_lt_is_Some_2 _ _ Hj) as [[d b] Hl]. rewrite Hl. rewrite <- delete_take_drop.
  pose proof (delete_Permutation _ _ _ Hl) as Hp.
  assert (Hlen : length (in_flight p) = S (length (delete j (in_flight p)))) by (apply (Permutation_length Hp)).
  destruct Hs as [H1 H2 H3 H4 H5 H6 H7]. assert (Hrs : (d, b) ∈ rs) by (apply H3; rewrite Hp; left).
  assert (Hfl : forall x, x ∈ delete j (in_flight p) -> x ∈ rs) by (intros x Hx; apply H3; rewrite Hp; by right).
  destruct ok; eexists _, _; (split; [reflexivity|]); cbn [in_flight submitted max_concurrent].
  - split; [|split; [done|split; [done|split; [done|split]]]].
    + split; cbn [submitted in_flight uploaded backend max_concurrent]; [done|done|done| | |done|lia].
      * intros d' [->%elem_of_singleton|Hd]%elem_of_union; [by eapply elem_of_fst|by apply H4].
      * intros d' b' [[<- <-]|[_ Hb]]%lookup_insert_Some; [by right|by apply H5].
    + intros _ Hlive d' b' Hin. cbn [in_flight uploaded backend]. destruct (decide (d' = d)) as [->|Hne'].
      * right. rewrite lookup_insert_eq. rewrite (fst_inj d b b' rs) by done. set_solver.
      * destruct (Hlive d' b' Hin) as [Hx|[Hx Hb]]; [left|right].
        -- rewrite Hp in Hx. apply elem_of_cons in Hx as [[= -> ->]|Hx]; done.
        -- rewrite lookup_insert_ne by done. set_solver.
    + done.
  - split; [|split; [done|split; [done|split; [done|split]]]].
    + split; cbn [submitted in_flight uploaded backend max_concurrent]; try done. lia.
    + done.
    + intros Hall. specialize (Hall (joins p)). by rewrite Hc in Hall.
Qed.

Lemma join_until_spec fuel bound rs p :
  pipe_safe rs p -> (1 <= bound)%nat -> (length (in_flight p) <= fuel)%nat ->
  exists r p', UploadPipeline.join_until completes fuel bound p = (r, p') /\ pipe_safe rs p' /\
    submitted p' = submitted p /\ max_concurrent p' = max_concurrent p /\
    (r = inl tt -> (length (in_flight p') < bound)%nat /\ (pipe_live rs p -> pipe_live rs p')) /\
    ((forall n, (completes n).2 = true) -> r = inl tt).
Proof.
  revert p. induction fuel as [|fuel IH]; intros p Hs Hb Hf; cbn [UploadPipeline.join_until];
    destruct (Nat.leb_spec bound (length (in_flight p))) as [Hle|Hlt].
  - lia.
  - eexists _, _. split; [done|]. naive_solver.
  - destruct (join_one_spec rs p Hs) as (r & p' & -> & Hs' & Hl & Hsub & Hm & Hlive & Hok); [intros E; rewrite E in Hle; cbn in Hle; lia|].
    destruct r as [[]|[]].
    + destruct (IH p' Hs' Hb ltac:(lia)) as (r & p'' & -> & Hs'' & Hsub' & Hm' & Hin & Hok'). exists r, p''. split; [done|].
      split; [done|]. split; [congruence|]. split; [congruence|]. split; [|done]. intros Hr. destruct (Hin Hr). split; [done|]. auto.
    + eexists _, _. split; [done|]. split; [done|]. split; [done|]. split; [done|]. split; [done|done].
  - eexists _, _. split; [done|]. naive_solver.
Qed.

Lemma submit_spec rs p d b :
  pipe_safe rs p -> d ∉ submitted p ->
  exists r p', UploadPipeline.submit completes p d b = (r, p') /\ ((forall n, (completes n).2 = true) -> r = inl tt) /\
    match r with
    | inl _ => pipe_safe (rs ++ [(d, b)]) p' /\ submitted p' = {[d]} ∪ submitted p /\ (pipe_live rs p -> pipe_live (rs ++ [(d, b)]) p')
    | inr _ => pipe_safe rs p'
    end.
Proof.
  intros Hs Hd. unfold UploadPipeline.submit.
  destruct (join_until_spec (length (in_flight p)) (max_concurrent p) rs p Hs ltac:(rewrite (ps_max _ _ _ Hs); lia) ltac:(lia))
    as (r & p' & -> & Hs' & Hsub & Hm & Hin & Hok). destruct r as [[]|[]].
  - destruct (Hin eq_refl) as [Hlt Hlive]. eexists _, _. split; [done|]. split; [done|]. destruct Hs' as [H1 H2 H3 H4 H5 H6 H7].
    split; [|split].
    + split; cbn [UploadPipeline.spawn submitted in_flight uploaded backend max_concurrent]; [| | | | |done|rewrite length_app; cbn; lia].
      * intros d'. rewrite map_app, elem_of_union, elem_of_app, H1. cbn. set_solver.
      * rewrite map_app. apply NoDup_app. split; [done|]. split; [|apply NoDup_singleton].
        intros x Hx Hx'. apply list_elem_of_singleton in Hx' as ->. apply Hd. rewrite <- Hsub. by apply H1.
      * intros x. rewrite !elem_of_app. naive_solver.
      * intros x Hx. rewrite map_app, elem_of_app. left. by apply H4.
      * intros d' b' Hb. rewrite elem_of_app. destruct (H5 d' b' Hb); auto.
    + cbn. by rewrite Hsub.
    + intros Hl d' b'. cbn [UploadPipeline.spawn in_flight uploaded backend]. rewrite !elem_of_app. intros [Hx|Hx]; [|auto].
      destruct (Hlive Hl d' b' Hx); auto.
  - eexists _, _. split; [done|]. split; [|done]. intros Hall. by apply Hok in Hall.
Qed.

(** A successful drain: everything submitted is confirmed and in the backend. *)
Lemma pipeline_drain_spec rs p :
  pipe_safe rs p -> pipe_live rs p ->
  exists r p', UploadPipeline.drain completes p = (r, p') /\ pipe_safe rs p' /\
    ((forall n, (completes n).2 = true) -> exists up, r = inl up) /\
    (forall up, r = inl up -> (forall d, d ∈ up <-> d ∈ List.map fst rs) /\ in_flight p' = [] /\
       forall d b, (d, b) ∈ rs -> backend p' !! d = Some b).
Proof.
  intros Hs Hl. unfold UploadPipeline.drain.
  destruct (join_until_spec (length (in_flight p)) 1 rs p Hs ltac:(lia) ltac:(lia)) as (r & p' & -> & Hs' & Hsub & Hm & Hin & Hok).
  destruct r as [[]|[]]; eexists _, _; (split; [done|]); (split; [done|]); split; [by eexists| |by intros ?%Hok|done].
  intros up [= <-]. destruct (Hin eq_refl) as [Hlt Hlive]. specialize (Hlive Hl).
  assert (Hnil : in_flight p' = []) by (by destruct (in_flight p'); [|cbn in Hlt; lia]).
  assert (Hall : forall d b, (d, b) ∈ rs -> d ∈ uploaded p' /\ backend p' !! d = Some b).
  { intros d b Hd. destruct (Hlive d b Hd) as [Hx|]; [rewrite Hnil in Hx; by apply elem_of_nil in Hx|done]. }
  split; [|split; [done|intros d b Hd; by apply Hall]]. intros d. split; [apply (ps_uploaded _ _ _ Hs')|].
  intros Hd. apply list_elem_of_In, in_map_iff in Hd as ([d' b] & <- & Hin'). apply list_elem_of_In in Hin'. by apply (Hall d' b).
Qed.
End Pipeline.

(** ** The walk *)

(** [bs] are bodies for the chunks [cs]. *)
Definition bodies_for `{Blake3} (cs : list (bytes * Z)) (bs : list bytes) : Prop :=
  Forall2 (fun c b => digest b = fst c /\ len b = snd c) cs bs.

(** Chunks of the run's digests and sizes have the run's file digest. *)
Definition run_proven `{Blake3} (out : ValidatedOutput) (run : FileRun) : Prop :=
  exists bs, bodies_for (run_slice out run) bs /\ digest (concat bs) = run_digest run.

Definition frame (r : bytes * bytes) : option Msg + Code := inl (Some (MChunk (fst r) (snd r))).

Definition hashed `{Blake3} (rs : list (bytes * bytes)) : Prop := Forall (fun r => digest (snd r) = fst r) rs.

Section Walk.
Context `{H : Blake3} `{!Blake3Laws H} (completes : nat -> nat * bool).
Context (novel : list bytes) (stream0 : Stream) (start : gmap bytes bytes * nat).

(** Between two steps: [rs] are the bodies received so far. *)
Record walk_inv (rs : list (bytes * bytes)) (s : VerifyState) : Prop := {
  wi_stream : stream0 = List.map frame rs ++ vs_stream s;
  wi_next : vs_next_novel s = length rs;
  wi_novel : List.map fst rs = take (length rs) novel;
  wi_hashed : hashed rs;
  wi_safe : pipe_safe start rs (vs_pipeline s);
  wi_live : pipe_live rs (vs_pipeline s);
}.

Definition safe (s : VerifyState) : Prop := exists rs, hashed rs /\ pipe_safe start rs (vs_pipeline s).

(** An early return: it is not the verdict that commits. *)
Definition exit_safe (r : Verdict + Code) (s : VerifyState) : Prop := (forall up df, r <> inl (Match up df)) /\ safe s.

Lemma inv_safe rs s : walk_inv rs s -> safe s.
Proof. intros Hi. exists rs. by destruct Hi. Qed.

(** A step: it extends the received bodies, or returns from the walk safely. *)
Definition step_ok {A} (m : Walk A) (Q : list (bytes * bytes) -> VerifyState -> A -> VerifyState -> Prop) : Prop :=
  forall rs s, walk_inv rs s ->
    match m s with
    | (inl a, s') => exists new, walk_inv (rs ++ new) s' /\ Q new s a s'
    | (inr r, s') => exit_safe r s'
    end.

Lemma step_weaken {A} (m : Walk A) Q Q' : step_ok m Q -> (forall new s a s', Q new s a s' -> Q' new s a s') -> step_ok m Q'.
Proof.
  intros Hm HQ rs s Hi. specialize (Hm rs s Hi). destruct (m s) as [[a|] s']; [|done]. destruct Hm as (new & ? & ?). exists new. auto.
Qed.

Lemma step_ret {A} (a : A) : step_ok (ret a) (fun new s a' s' => new = [] /\ a' = a /\ s' = s).
Proof. intros rs s Hi. exists []. by rewrite app_nil_r. Qed.

Lemma step_bind {A B} (m : Walk A) (k : A -> Walk B) Q R :
  step_ok m Q -> (forall a, step_ok (k a) (R a)) ->
  step_ok (bind m k) (fun new s b s' => exists n1 n2 a s1, new = n1 ++ n2 /\ Q n1 s a s1 /\ R a n2 s1 b s').
Proof.
  intros Hm Hk rs s Hi. specialize (Hm rs s Hi). unfold bind. destruct (m s) as [[a|] s1]; [|done].
  destruct Hm as (n1 & Hi1 & HQ). specialize (Hk a (rs ++ n1) s1 Hi1). destruct (k a s1) as [[b|] s2]; [|done].
  destruct Hk as (n2 & Hi2 & HR). exists (n1 ++ n2). rewrite app_assoc. split; [done|]. exists n1, n2, a, s1. done.
Qed.

(** The frame received is the next novel digest with a body that fits. *)
Lemma recv_spec d l rs s :
  walk_inv rs s -> d ∉ submitted (vs_pipeline s) ->
  match recv_novel_chunk novel d l s with
  | (inl (Some b), s') => s' = set_next_novel (set_stream s (vs_stream s')) (S (vs_next_novel s)) /\
      vs_stream s = frame (d, b) :: vs_stream s' /\ novel !! length rs = Some d /\ digest b = d /\ len b = l
  | (inl None, s') => safe s'
  | (inr r, s') => exit_safe r s'
  end.
Proof.
  intros Hi Hd. unfold recv_novel_chunk, bind, receive, next_message.
  assert (Hsf : forall st, safe (set_stream s st)) by (intros st; exists rs; by destruct Hi).
  assert (He : forall e st, exit_safe (inr e) (set_stream s st)) by (by split).
  destruct (vs_stream s) as [|[[[bg|dg b]|]|e] st] eqn:Hst; cbn [ret exit]; try exact (He _ _); [apply Hsf|].
  destruct (negb (Nat.eqb (length dg) 32)); [apply He|]. cbn [vs_next_novel set_stream]. rewrite (wi_next _ _ Hi).
  destruct (novel !! length rs) as [nd|] eqn:Hn; [|apply He].
  unfold bytes_eqb. case_bool_decide as E1; cbn [negb orb]; [|apply He]. case_bool_decide as E2; cbn [negb]; [|apply He]. subst dg nd.
  destruct (Z.eqb_spec (len b) l); cbn [negb]; [|apply He]. case_bool_decide; cbn [negb]; [|apply He].
  done.
Qed.

(** The hasher after a chunk is the old one fed with its body, or lost. *)
Definition fed (h h' : option hasher) (cs : list (bytes * Z)) : Prop :=
  forall k, h' = Some k -> exists h0 bs, h = Some h0 /\ bodies_for cs bs /\ k = hasher_update h0 (concat bs).

Lemma visit_chunk_spec h c :
  step_ok (visit_chunk completes novel h c) (fun _ s h' s' => vs_deferred s' = vs_deferred s /\ fed h h' [c]).
Proof.
  intros rs s Hi. destruct c as [d l]. cbn [visit_chunk]. destruct (bool_decide_reflect (d ∈ novel)) as [Hd|_]; cbn [andb];
    [|by exists []; rewrite app_nil_r]. unfold UploadPipeline.seen.
  destruct (bool_decide_reflect (d ∈ submitted (vs_pipeline s))) as [_|Hs]; cbn [negb]; [by exists []; rewrite app_nil_r|].
  pose proof (recv_spec d l rs s Hi Hs) as Hr. unfold bind at 1. destruct (recv_novel_chunk novel d l s) as [[[b|]|] s1]; [|by split|done].
  destruct Hr as (Hs1 & Hst & Hn & Hh & Hl). unfold bind, submit_body.
  assert (Hp1 : vs_pipeline s1 = vs_pipeline s) by (by rewrite Hs1).
  destruct (submit_spec completes start rs (vs_pipeline s1) d b) as (r & p' & -> & _ & Hr); [rewrite Hp1; apply Hi|by rewrite Hp1|].
  assert (Hhr : hashed (rs ++ [(d, b)])) by (apply Forall_app; split; [apply Hi|by constructor]).
  destruct r as [[]|[]]; cbn [ret].
  - destruct Hr as (Hsafe & Hsub & Hlive). exists [(d, b)]. split.
    + split; cbn [vs_stream vs_next_novel vs_pipeline set_pipeline]; [| | |done|done|apply Hlive; rewrite Hp1; apply Hi].
      * rewrite map_app, <- app_assoc. rewrite (wi_stream _ _ Hi), Hst. done.
      * rewrite Hs1, length_app. cbn [vs_next_novel set_next_novel set_stream length]. rewrite (wi_next _ _ Hi). lia.
      * rewrite map_app, length_app, (wi_novel _ _ Hi). cbn [List.map fst length]. rewrite Nat.add_1_r. by rewrite (take_S_r _ _ _ Hn).
    + split; [by rewrite Hs1|]. intros k Hk. destruct h as [h0|]; [|done]. injection Hk as <-. exists h0, [b]. split; [done|].
      split; [by repeat constructor|]. cbn. by rewrite app_nil_r.
  - split; [done|]. exists rs. split; [apply Hi|done].
Qed.

Lemma fed_cons h h' h'' c cs : fed h h' [c] -> fed h' h'' cs -> fed h h'' (c :: cs).
Proof.
  intros H1 H2 k Hk. destruct (H2 k Hk) as (h1 & bs & E1 & Hb & ->). destruct (H1 h1 E1) as (h0 & b1 & E0 & Hb1 & ->).
  exists h0, (b1 ++ bs). split; [done|]. split; [by apply (Forall2_app (l1 := [c]))|]. by rewrite concat_app, update_app.
Qed.

Lemma visit_chunks_spec h cs :
  step_ok (visit_chunks completes novel h cs) (fun _ s h' s' => vs_deferred s' = vs_deferred s /\ fed h h' cs).
Proof.
  revert h. induction cs as [|c cs IH]; intros h; cbn [visit_chunks].
  - eapply step_weaken; [apply step_ret|]. intros new s h' s' (_ & -> & ->). split; [done|]. intros k ->. exists k, [].
    split; [done|]. split; [constructor|]. cbn. by rewrite update_nil.
  - eapply step_weaken; [apply (step_bind _ _ _ _ (visit_chunk_spec h c) IH)|].
    intros new s h' s' (n1 & n2 & h1 & s1 & _ & [Hd1 H1] & [Hd2 H2]). split; [congruence|by eapply fed_cons].
Qed.

(** A run that is checked is proven or deferred. *)
Definition run_outcome (check : bool) (oi ri : nat) (out : ValidatedOutput) (run : FileRun) (s s' : VerifyState) : Prop :=
  (vs_deferred s' = vs_deferred s /\ (check = true -> run_proven out run)) \/
  (check = true /\ vs_deferred s' = vs_deferred s ++ [mkDeferredRun oi ri]).

Lemma visit_run_spec check oi ri out run :
  step_ok (visit_run completes novel check oi ri out run) (fun _ s _ s' => run_outcome check oi ri out run s s').
Proof.
  intros rs s Hi. unfold visit_run, bind.
  pose proof (visit_chunks_spec (if check then Some hasher_new else None) (run_slice out run) rs s Hi) as Hc.
  destruct (visit_chunks _ _ _ _ s) as [[h'|] s1]; [|done]. destruct Hc as (new & Hi1 & Hd & Hf). destruct h' as [k|].
  - destruct (Hf k eq_refl) as (h0 & bs & Eh & Hb & ->). destruct check; [|done]. injection Eh as <-.
    unfold bytes_eqb. case_bool_decide as E; cbn [negb]; [|by split; [|eapply inv_safe]]. exists new. split; [done|]. left. split; [done|].
    intros _. by exists bs.
  - destruct check; [|by exists new; split; [done|left]]. exists new. split; [|right; cbn; by rewrite Hd].
    destruct Hi1. by split.
Qed.

(** The runs of an output, from the [ri]-th. *)
Definition runs_outcome (check : bool) (oi ri : nat) (out : ValidatedOutput) (runs : list FileRun) (s s' : VerifyState) : Prop :=
  exists ds, vs_deferred s' = vs_deferred s ++ ds /\
    (forall d, d ∈ ds -> exists i run, d = mkDeferredRun oi (ri + i) /\ runs !! i = Some run) /\
    (check = true -> forall i run, runs !! i = Some run -> run_proven out run \/ mkDeferredRun oi (ri + i) ∈ ds).

Lemma visit_runs_spec check oi ri out runs :
  step_ok (visit_runs completes novel check oi ri out runs) (fun _ s _ s' => runs_outcome check oi ri out runs s s').
Proof.
  revert ri. induction runs as [|run runs IH]; intros ri; cbn [visit_runs].
  - eapply step_weaken; [apply step_ret|]. intros new s h' s' (_ & _ & ->). exists []. rewrite app_nil_r.
    split; [done|]. split; [by intros d ?%elem_of_nil|done].
  - eapply step_weaken; [apply (step_bind _ _ _ _ (visit_run_spec check oi ri out run) (fun _ => IH (S ri)))|].
    intros new s u s' (n1 & n2 & u' & s1 & _ & H1 & (ds & Hds & Hin & Hall)).
    assert (Hrest : forall ds0, vs_deferred s1 = vs_deferred s ++ ds0 -> (forall d, d ∈ ds0 -> d = mkDeferredRun oi ri) ->
      (check = true -> run_proven out run \/ mkDeferredRun oi ri ∈ ds0) -> runs_outcome check oi ri out (run :: runs) s s').
    { intros ds0 E Hd0 Hr0. exists (ds0 ++ ds). rewrite Hds, E, app_assoc. split; [done|]. split.
      - intros d [Hd|Hd]%elem_of_app; [exists 0%nat, run; rewrite Nat.add_0_r; auto|].
        destruct (Hin d Hd) as (i & r & -> & Hi). exists (S i), r. by rewrite Nat.add_succ_r.
      - intros Hc [|i] r Hr; cbn in Hr; rewrite elem_of_app.
        + injection Hr as <-. rewrite Nat.add_0_r. destruct (Hr0 Hc); auto.
        + rewrite Nat.add_succ_r. destruct (Hall Hc i r Hr); auto. }
    destruct H1 as [[E Hp]|[Hc E]].
    + apply (Hrest []); [by rewrite app_nil_r|by intros d ?%elem_of_nil|by left; apply Hp].
    + apply (Hrest _ E); [by intros d ->%list_elem_of_singleton|by right; apply list_elem_of_singleton].
Qed.

Definition outputs_outcome (skipped : list bool) (oi : nat) (outs : list ValidatedOutput) (ds : list DeferredRun) : Prop :=
  (forall d, d ∈ ds -> exists i out run, dr_output d = (oi + i)%nat /\ outs !! i = Some out /\ vo_file_runs out !! dr_run d = Some run) /\
  forall i out j run, outs !! i = Some out -> vo_file_runs out !! j = Some run -> is_skipped skipped (oi + i) = false ->
    run_proven out run \/ mkDeferredRun (oi + i) j ∈ ds.

Lemma visit_outputs_spec skipped oi outs :
  step_ok (visit_outputs completes novel skipped oi outs)
    (fun _ s _ s' => exists ds, vs_deferred s' = vs_deferred s ++ ds /\ outputs_outcome skipped oi outs ds).
Proof.
  revert oi. induction outs as [|out outs IH]; intros oi; cbn [visit_outputs].
  - eapply step_weaken; [apply step_ret|]. intros new s h' s' (_ & _ & ->). exists []. rewrite app_nil_r.
    split; [done|]. split; [by intros d ?%elem_of_nil|done].
  - eapply step_weaken; [apply (step_bind _ _ _ _ (visit_runs_spec (negb (is_skipped skipped oi)) oi 0 out (vo_file_runs out)) (fun _ => IH (S oi)))|].
    intros new s u s' (n1 & n2 & u' & s1 & _ & (d1 & E1 & Hin1 & Hall1) & (d2 & E2 & Hin2 & Hall2)).
    exists (d1 ++ d2). rewrite E2, E1, app_assoc. split; [done|]. split.
    + intros d [Hd|Hd]%elem_of_app.
      * destruct (Hin1 d Hd) as (i & run & -> & Hr). exists 0%nat, out, run. rewrite Nat.add_0_r. done.
      * destruct (Hin2 d Hd) as (i & o & run & Ho & Hl & Hr). exists (S i), o, run. rewrite Nat.add_succ_r. done.
    + intros [|i] o j run Ho Hr Hsk; rewrite elem_of_app; cbn in Ho.
      * injection Ho as <-. rewrite Nat.add_0_r in *. destruct (Hall1 ltac:(by rewrite Hsk) j run Hr); auto.
      * rewrite Nat.add_succ_r in *. destruct (Hall2 i o j run Ho Hr Hsk); auto.
Qed.
End Walk.

(** The end of the walk. *)
Lemma finish_walk_spec `{H : Blake3} completes novel stream start rs s r s' :
  walk_inv novel stream start rs s -> finish_walk completes novel s = (r, s') ->
  safe start s' /\
  match r with
  | inl (Match up df) => df = vs_deferred s /\ stream = List.map frame rs /\ List.map fst rs = novel /\ (forall d, d ∈ up <-> d ∈ novel) /\
      hashed rs /\ pipe_safe start rs (vs_pipeline s') /\ in_flight (vs_pipeline s') = [] /\
      forall d b, (d, b) ∈ rs -> backend (vs_pipeline s') !! d = Some b
  | inl _ => False
  | inr r => forall up df, r <> inl (Match up df)
  end.
Proof.
  intros Hi. unfold finish_walk. pose proof (inv_safe _ _ _ _ _ Hi) as Hsf. destruct (Nat.ltb_spec (vs_next_novel s) (length novel)) as [|Hn].
  { intros [= <- <-]. done. }
  unfold bind, receive, next_message. destruct (vs_stream s) as [|[[m|]|e] st] eqn:Hst; [|intros [= <- <-]; done..].
  cbn [vs_pipeline set_stream]. destruct (pipeline_drain_spec completes start rs (vs_pipeline s) (wi_safe _ _ _ _ _ Hi) (wi_live _ _ _ _ _ Hi))
    as (r' & p' & -> & Hs' & _ & Hup). rewrite (wi_next _ _ _ _ _ Hi) in Hn. pose proof (wi_novel _ _ _ _ _ Hi) as Hnov. rewrite take_ge in Hnov by done.
  assert (Hsp : safe start (set_pipeline (set_stream s []) p')) by (exists rs; split; [apply Hi|done]).
  destruct r' as [up|]; intros [= <- <-]; [|done]. destruct (Hup up eq_refl) as (Hall & Hfl & Hback). split; [done|].
  split; [done|]. split; [|split; [done|]]. { by rewrite (wi_stream _ _ _ _ _ Hi), Hst, app_nil_r. }
  split; [by rewrite <- Hnov|]. split; [apply Hi|done].
Qed.

(** A walk that ends in [Match] consumed exactly the novel bodies, in order, and
    wrote them all; any other end is safe. *)
Lemma run_verify_spec `{H : Blake3} `{!Blake3Laws H} completes stream vb skipped store max r s :
  run_verify completes stream vb skipped store max = (r, s) ->
  safe (store, max) s /\
  forall up df, r = inl (Match up df) -> exists rs,
      hashed rs /\ stream = List.map frame rs /\ List.map fst rs = vb_novel vb /\ (forall d, d ∈ up <-> d ∈ vb_novel vb) /\
      in_flight (vs_pipeline s) = [] /\ pipe_safe (store, max) rs (vs_pipeline s) /\
      (forall d b, (d, b) ∈ rs -> backend (vs_pipeline s) !! d = Some b) /\ outputs_outcome skipped 0 (vb_outputs vb) df.
Proof.
  unfold run_verify. set (s0 := mkVerifyState _ _ _ _). destruct (new_safe store max) as [Hsafe Hlive].
  assert (Hi0 : walk_inv (vb_novel vb) stream (store, max) [] s0) by (split; cbn; [done..|constructor|done|done]).
  pose proof (visit_outputs_spec completes (vb_novel vb) stream (store, max) skipped 0 (vb_outputs vb) [] s0 Hi0) as Hv.
  unfold bind at 1. destruct (visit_outputs _ _ _ _ _ s0) as [[u|e] s1].
  - destruct Hv as (rs & Hi & ds & Hd & Ho). cbn [app] in *. destruct (finish_walk completes (vb_novel vb) s1) as [r' s'] eqn:Hf.
    apply (finish_walk_spec _ _ _ _ _ _ _ _ Hi) in Hf as [Hsf Hr]. destruct r' as [[up df| |]|e]; [|done..|].
    + intros [= <- <-]. split; [done|]. intros up' df' [= <- <-]. destruct Hr as (-> & Hst & Hnov & Hup & Hh & Hps & Hfl & Hback).
      exists rs. rewrite Hd. split_and!; done.
    + intros [= <- <-]. split; [done|]. intros up df ->. by destruct (Hr up df).
  - intros [= <- <-]. destruct Hv as [Hn Hs]. split; [done|]. intros up df ->. by destruct (Hn up df).
Qed.

(** ** Windows *)

Notation total := Manifest.total_size.

Lemma total_app a b : total (a ++ b) = total a + total b.
Proof. unfold Manifest.total_size. induction a as [|e a IH]; cbn [app fold_right]; lia. Qed.

Lemma starts_lookup es acc i y :
  IndexedManifest.starts_from acc es !! i = Some y <-> (i <= length es)%nat /\ y = acc + total (take i es).
Proof.
  revert acc i. induction es as [|e es IH]; intros acc [|i]; cbn [IndexedManifest.starts_from lookup list_lookup take length].
  - rewrite Z.add_0_r. split; [intros [= <-]; split; [lia|done]|by intros [_ ->]].
  - cbn. split; [done|lia].
  - rewrite Z.add_0_r. split; [intros [= <-]; split; [lia|done]|by intros [_ ->]].
  - rewrite IH. cbn [Manifest.total_size fold_right]. fold (total (take i es)). split; intros [? ->]; (split; [lia|ring]).
Qed.

Lemma starts_length es acc : length (IndexedManifest.starts_from acc es) = S (length es).
Proof. revert acc. induction es as [|e es IH]; intros acc; cbn; [done|]. by rewrite IH. Qed.

Lemma binary_search_Some l x i : binary_search l x = Some i -> l !! i = Some x.
Proof.
  unfold binary_search. destruct (l !! search_loop _ _ _ _ _) as [y|] eqn:Hl; [|done].
  destruct (Z.eqb_spec y x) as [->|]; [|done]. by intros [= <-].
Qed.

(** In a strictly ascending vector the search ends at the only occurrence. *)
Lemma search_loop_finds l x k :
  (forall i j a b, l !! i = Some a -> l !! j = Some b -> (i < j)%nat -> a < b) -> l !! k = Some x ->
  forall fuel base size, (size <= fuel)%nat -> (base <= k < base + size)%nat -> (base + size <= length l)%nat ->
  search_loop fuel l x base size = k.
Proof.
  intros Hasc Hk. induction fuel as [|fuel IH]; intros base size Hf Hb Hl; cbn [search_loop]; [lia|].
  destruct (Nat.ltb_spec 1 size) as [Hs|Hs]; [|lia].
  assert (Hhalf : (1 <= size / 2 < size)%nat) by (split; [apply Nat.div_le_lower_bound; lia|apply Nat.div_lt_upper_bound; lia]).
  destruct (lookup_lt_is_Some_2 l (base + size / 2)%nat ltac:(lia)) as [m Hm]. rewrite Hm. change (default 0 (Some m)) with m.
  destruct (Z.ltb_spec x m) as [Hx|Hx].
  - assert ((k < base + size / 2)%nat). { destruct (Nat.lt_trichotomy k (base + size / 2)) as [|[->|Hgt]]; [done|rewrite Hm in Hk; injection Hk; lia|].
      pose proof (Hasc _ _ _ _ Hm Hk Hgt). lia. }
    apply IH; [lia| |lia]. assert (size / 2 <= size - size / 2)%nat; [|lia].
    pose proof (Nat.mul_div_le size 2 ltac:(lia)). lia.
  - assert ((base + size / 2 <= k)%nat). { destruct (Nat.le_gt_cases (base + size / 2) k) as [|Hgt]; [done|].
      pose proof (Hasc _ _ _ _ Hk Hm Hgt). lia. }
    apply IH; lia.
Qed.

Lemma binary_search_ascending l x k :
  (forall i j a b, l !! i = Some a -> l !! j = Some b -> (i < j)%nat -> a < b) -> l !! k = Some x -> binary_search l x = Some k.
Proof.
  intros Hasc Hk. pose proof (lookup_lt_Some _ _ _ Hk). unfold binary_search.
  rewrite (search_loop_finds l x k Hasc Hk) by lia. by rewrite Hk, Z.eqb_refl.
Qed.

(** The window is a run of the entries that starts at the offset and has the size. *)
Lemma window_Some es offset size w :
  IndexedManifest.window (IndexedManifest.new es) offset size = Some w ->
  exists a b, es = a ++ w ++ b /\ offset = total a /\ size = total w /\ offset + size < 2 ^ 64.
Proof.
  unfold IndexedManifest.window, IndexedManifest.new. cbn [IndexedManifest.starts IndexedManifest.entries].
  destruct (binary_search _ offset) as [i|] eqn:Hi; [|done]. unfold checked_add. destruct (Z.ltb_spec (offset + size) (2 ^ 64)) as [Hlt|]; [|done].
  destruct (binary_search _ (offset + size)) as [j|] eqn:Hj; [|done]. apply binary_search_Some, starts_lookup in Hi as [Hil Ho], Hj as [Hjl He].
  destruct (Nat.leb_spec i j) as [Hij|]; [|done]. destruct (Nat.leb_spec j (length es)); [|done]. intros [= <-].
  exists (take i es), (drop (j - i) (drop i es)). rewrite take_drop, take_drop. split; [done|]. split; [lia|].
  assert (Hj : take j es = take i es ++ take (j - i) (drop i es)) by (rewrite take_take_drop; f_equal; lia).
  rewrite Hj, total_app in He. lia.
Qed.

(** And such a run is found, when every entry has bytes. *)
Lemma window_complete a w b :
  Forall (fun e => 0 < me_size e) (a ++ w ++ b) -> total a + total w < 2 ^ 64 ->
  IndexedManifest.window (IndexedManifest.new (a ++ w ++ b)) (total a) (total w) = Some w.
Proof.
  intros Hp Hlt. unfold IndexedManifest.window, IndexedManifest.new. cbn [IndexedManifest.starts IndexedManifest.entries].
  set (es := a ++ w ++ b) in *.
  assert (Hasc : forall i j x y, IndexedManifest.starts_from 0 es !! i = Some x -> IndexedManifest.starts_from 0 es !! j = Some y -> (i < j)%nat -> x < y).
  { intros i j x y [Hi ->]%starts_lookup [Hj ->]%starts_lookup Hij.
    assert (Hs : take j es = take i es ++ take (j - i) (drop i es)) by (rewrite take_take_drop; f_equal; lia).
    rewrite Hs, total_app. destruct (drop i es) as [|e r] eqn:Hd; [apply (f_equal length) in Hd; rewrite length_drop in Hd; cbn in Hd; lia|].
    destruct (j - i)%nat as [|n] eqn:Hn; [lia|]. cbn [take]. assert (Hf : Forall (fun e => 0 < me_size e) (e :: r)) by (rewrite <- Hd; by apply Forall_drop).
    apply Forall_cons in Hf as [He Hr]. assert (0 <= total (take n r)); [|cbn [Manifest.total_size fold_right]; fold (total (take n r)); lia].
    apply (Forall_take _ n) in Hr. clear -Hr. induction Hr; cbn [Manifest.total_size fold_right]; [lia|]. fold (total l). lia. }
  rewrite (binary_search_ascending _ (total a) (length a)); [|done|].
  - unfold checked_add. destruct (Z.ltb_spec (total a + total w) (2 ^ 64)); [|lia].
    rewrite (binary_search_ascending _ (total a + total w) (length a + length w)); [|done|].
    + destruct (Nat.leb_spec (length a) (length a + length w)); [|lia].
      destruct (Nat.leb_spec (length a + length w) (length es)) as [|Hx]; [|unfold es in Hx; rewrite !length_app in Hx; lia]. cbn [andb].
      unfold es. rewrite drop_app_length, Nat.add_comm, Nat.add_sub. by rewrite take_app_length.
    + apply starts_lookup. unfold es. rewrite !length_app. split; [lia|]. rewrite app_assoc, <- length_app, take_app_length, total_app. done.
  - apply starts_lookup. unfold es. rewrite !length_app, take_app_length. split; [lia|done].
Qed.

(** ** The deferred runs *)

Definition entry_pair (e : ManifestEntry) : bytes * Z := (me_hash e, me_size e).

Section Deferred.
Context `{H : Blake3} `{!Blake3Laws H}.

Lemma bodies_for_app a b bs :
  bodies_for (a ++ b) bs <-> exists ba bb, bs = ba ++ bb /\ bodies_for a ba /\ bodies_for b bb.
Proof.
  unfold bodies_for. split; [intros (ba & bb & H1 & H2 & ->)%Forall2_app_inv_l; eauto|].
  intros (ba & bb & -> & H1 & H2). by apply Forall2_app.
Qed.

Lemma bodies_for_len cs bs : bodies_for cs bs -> len (concat bs) = sum_sizes cs.
Proof.
  induction 1 as [|c b cs bs [_ Hl] _ IH]; [done|]. cbn [concat sum_sizes fold_right]. fold (sum_sizes cs).
  rewrite len_app, IH, Hl. done.
Qed.

Lemma sum_sizes_total es : sum_sizes (List.map entry_pair es) = total es.
Proof. unfold sum_sizes, Manifest.total_size. induction es as [|e es IH]; cbn [List.map fold_right]; [done|]. by rewrite IH. Qed.

(** The bytes of a window are those that the offset and the size select. *)
Lemma window_bytes es bs offset size w :
  bodies_for (List.map entry_pair es) bs -> IndexedManifest.window (IndexedManifest.new es) offset size = Some w ->
  exists ws, bodies_for (List.map entry_pair w) ws /\ slice (concat bs) offset size = concat ws.
Proof.
  intros Hb (a & b & -> & -> & -> & _)%window_Some. rewrite !map_app in Hb.
  apply bodies_for_app in Hb as (ba & bb & -> & Ha & (ws & bc & -> & Hw & _)%bodies_for_app). exists ws. split; [done|].
  rewrite !concat_app, <- !sum_sizes_total, <- (bodies_for_len _ _ Ha), <- (bodies_for_len _ _ Hw). apply slice_end.
Qed.

Lemma window_matches_spec w claimed : window_matches w claimed = true -> List.map entry_pair w = claimed.
Proof.
  unfold window_matches. intros [Hl Hf]%andb_prop. apply Nat.eqb_eq in Hl. revert claimed Hl Hf.
  induction w as [|e w IH]; intros [|[d s] claimed]; cbn; try done. intros [= Hl] [[Hd Hs]%andb_prop Hf]%andb_prop.
  apply bool_decide_eq_true in Hd. apply Z.eqb_eq in Hs. unfold entry_pair. rewrite Hd, Hs. f_equal. by apply IH.
Qed.

(** A committed row: its digest is that of the bytes it names in the referrer's blob stream. *)
Definition row_honest (lists : list (bytes * bytes)) (r : WindowRow) : Prop :=
  let '(d, referrer, offset, size) := r in
  forall list es, (referrer, list) ∈ lists -> Manifest.deserialize list = inl es ->
    exists bs, bodies_for (List.map entry_pair es) bs /\ digest (slice (concat bs) offset size) = d.

Lemma index_manifests_Some lists p m :
  index_manifests lists !! p = Some m ->
  exists list es, (p, list) ∈ lists /\ Manifest.deserialize list = inl es /\ m = IndexedManifest.new es.
Proof.
  unfold index_manifests. assert (Hg : forall ls (m0 : gmap bytes IndexedManifest.IndexedManifest), fold_left (fun m pl => match Manifest.deserialize (snd pl) with
    | inl es => <[fst pl := IndexedManifest.new es]> m | inr _ => m end) ls m0 !! p = Some m ->
    m0 !! p = Some m \/ exists list es, (p, list) ∈ ls /\ Manifest.deserialize list = inl es /\ m = IndexedManifest.new es).
  { induction ls as [|[q l] ls IH]; intros m0 Hl; cbn [fold_left fst snd] in Hl; [by left|].
    destruct (IH _ Hl) as [Hm|(list & es & Hin & Hd & ->)]; [|right; exists list, es; split_and!; [by right|done..]].
    destruct (Manifest.deserialize l) as [es|] eqn:Hd; [|by left]. apply lookup_insert_Some in Hm as [[-> <-]|[_ Hm]]; [|by left].
    right. exists l, es. split_and!; [left|done..]. }
  intros Hl. destruct (Hg lists ∅ Hl) as [Hm|Hm]; [by rewrite lookup_empty in Hm|done].
Qed.

Lemma windows_Some manifests rows ws d w :
  fold_left (insert_window manifests) rows ws !! d = Some w ->
  ws !! d = Some w \/ exists r, r ∈ rows /\ r.1.1.1 = d /\ row_window manifests r = Some w.
Proof.
  revert ws. induction rows as [|r rows IH]; intros ws Hl; cbn [fold_left] in Hl; [by left|].
  destruct (IH _ Hl) as [Hw|(r' & Hin & Hd & Hw)]; [|right; exists r'; split_and!; [by right|done..]].
  unfold insert_window in Hw. destruct (row_window manifests r) as [w'|] eqn:Hr; [|by left].
  apply lookup_insert_Some in Hw as [[<- <-]|[_ Hw]]; [|by left]. right. exists r. split_and!; [left|done..].
Qed.

Section Rows.
Context (rows : list WindowRow) (lists : list (bytes * bytes)) (Hhonest : Forall (row_honest lists) rows).

(** A run that agrees with a committed window inherits its proof. *)
Lemma window_agrees_spec out run :
  window_agrees (fold_left (insert_window (index_manifests lists)) rows ∅) run (run_slice out run) = true -> run_proven out run.
Proof.
  unfold window_agrees. destruct (_ !! run_digest run) as [w|] eqn:Hw; [|done]. intros Hm%window_matches_spec.
  apply windows_Some in Hw as [Hw|([[[d p] o] sz] & Hin & Hd & Hw)]; [by rewrite lookup_empty in Hw|]. cbn in Hd. subst d.
  unfold row_window in Hw. destruct (negb _); [done|]. destruct ((o <? 0) || (sz <? 0)); [done|].
  destruct (index_manifests lists !! p) as [m|] eqn:Hp; [|done]. apply index_manifests_Some in Hp as (list & es & Hl & Hdes & ->).
  rewrite Forall_forall in Hhonest. destruct (Hhonest _ Hin list es Hl Hdes) as (bs & Hb & Hdig).
  destruct (window_bytes es bs o sz w Hb Hw) as (ws & Hws & Hsl). exists ws. rewrite <- Hm. split; [done|]. by rewrite <- Hsl.
Qed.

Lemma refetch_spec get n claimed h k :
  refetch get n claimed h = inl k -> exists bs, bodies_for claimed bs /\ k = hasher_update h (concat bs).
Proof.
  revert n h. induction claimed as [|[d l] claimed IH]; intros n h; cbn [refetch].
  - intros [= <-]. exists []. split; [constructor|]. cbn. by rewrite update_nil.
  - destruct (get n d) as [[b|]|]; [|done..]. destruct (Z.eqb_spec (len b) l) as [Hl|]; [|done].
    unfold bytes_eqb. case_bool_decide as Hd; [|done]. cbn [andb]. intros (bs & Hb & ->)%IH. exists (b :: bs).
    split; [by constructor|]. cbn [concat]. by rewrite update_app.
Qed.

Lemma refetch_and_verify_spec get n out run : refetch_and_verify get n run (run_slice out run) = inl tt -> run_proven out run.
Proof.
  unfold refetch_and_verify. destruct (refetch get n _ hasher_new) as [k|] eqn:Hr; [|done]. apply refetch_spec in Hr as (bs & Hb & ->).
  unfold bytes_eqb. case_bool_decide as Hd; cbn [negb]; [|done]. intros _. by exists bs.
Qed.

Lemma verify_runs_spec get vb n deferred :
  verify_runs get (fold_left (insert_window (index_manifests lists)) rows ∅) vb n deferred = inl tt ->
  Forall (fun d => exists out run, deferred_run vb d = Some (out, run) /\ run_proven out run) deferred.
Proof.
  revert n. induction deferred as [|d deferred IH]; intros n; cbn [verify_runs]; [constructor|].
  destruct (deferred_run vb d) as [[out run]|] eqn:Hd; [|done]. destruct (window_agrees _ run _) eqn:Hw.
  - intros Hr. constructor; [|by eapply IH]. exists out, run. split; [done|]. by apply window_agrees_spec.
  - destruct (refetch_and_verify get n run (run_slice out run)) as [[]|] eqn:Hf; [|done]. intros Hr. constructor; [|by eapply IH].
    exists out, run. split; [done|]. by eapply refetch_and_verify_spec.
Qed.
End Rows.

(** The database returns honest rows. *)
Definition database_honest (trusted_file_windows : list bytes -> list WindowRow + Code)
    (chunk_lists_for_paths : list bytes -> list (bytes * bytes) + Code) : Prop :=
  forall ds ps rows lists, trusted_file_windows ds = inl rows -> chunk_lists_for_paths ps = inl lists -> Forall (row_honest lists) rows.

Lemma verify_deferred_spec tfw clp get vb deferred :
  database_honest tfw clp -> verify_deferred_runs tfw clp get vb deferred = inl tt ->
  Forall (fun d => exists out run, deferred_run vb d = Some (out, run) /\ run_proven out run) deferred.
Proof.
  intros Hh. unfold verify_deferred_runs. destruct deferred as [|d ds]; [constructor|]. unfold trusted_windows.
  destruct (tfw _) as [rows|] eqn:Hr; [|done]. destruct (clp _) as [lists|] eqn:Hl; [|done].
  apply verify_runs_spec. by eapply Hh.
Qed.
End Deferred.

(** ** An honest upload *)

(** The novel digests that are still to be received, in the order of the walk. *)
Fixpoint todo (novel : list bytes) (seen : gset bytes) (ds : list bytes) : list bytes :=
  match ds with
  | [] => []
  | d :: ds => if bool_decide (d ∈ novel) && negb (bool_decide (d ∈ seen)) then d :: todo novel ({[d]} ∪ seen) ds else todo novel seen ds
  end.

Lemma todo_distinct novel seen seen' ds :
  (forall d, d ∈ novel -> d ∈ seen' <-> d ∈ seen) -> todo novel seen' ds = filter (fun d => d ∈ novel) (distinct seen ds).
Proof.
  revert seen seen'. induction ds as [|d ds IH]; intros seen seen' Hs; cbn [todo distinct]; [done|].
  destruct (bool_decide_reflect (d ∈ seen)) as [Hd|Hd], (bool_decide_reflect (d ∈ novel)) as [Hn|Hn]; cbn [andb].
  - rewrite bool_decide_eq_true_2 by (by apply Hs). by apply IH.
  - by apply IH.
  - rewrite bool_decide_eq_false_2 by (by rewrite Hs). cbn [negb]. rewrite filter_cons_True by done. f_equal. apply IH. set_solver.
  - rewrite filter_cons_False by done. apply IH. set_solver.
Qed.

Lemma filter_agree {A} (P Q : A -> Prop) `{!forall x, Decision (P x), !forall x, Decision (Q x)} (l : list A) :
  (forall x, x ∈ l -> P x <-> Q x) -> filter P l = filter Q l.
Proof.
  induction l as [|x l IH]; intros HPQ; [done|]. rewrite !filter_cons, IH by (intros y Hy; apply HPQ; by right).
  destruct (decide (P x)) as [Hp|Hp], (decide (Q x)) as [Hq|Hq]; try done; exfalso;
    [apply Hq, HPQ; [left|done]|apply Hp, HPQ; [left|done]].
Qed.

Lemma filter_sublist {A} `{EqDecision A} (sub l : list A) : sub `sublist_of` l -> NoDup l -> filter (fun x => x ∈ sub) l = sub.
Proof.
  induction 1 as [|x sub l Hs IH|x sub l Hs IH]; intros Hn; [done| |]; apply NoDup_cons in Hn as [Hx Hn].
  - rewrite filter_cons_True by left. f_equal. transitivity (filter (fun y => y ∈ sub) l); [|by apply IH]. apply filter_agree. intros y Hy.
    split; [intros [->|?]%elem_of_cons; done|by right].
  - rewrite filter_cons_False; [by apply IH|]. intros Hin. apply Hx. by eapply elem_of_sublist.
Qed.

(** A validated upload receives exactly its novel digests, in their order. *)
Lemma todo_novel novel ds : novel `sublist_of` distinct [] ds -> todo novel ∅ ds = novel.
Proof. intros Hs. rewrite (todo_distinct _ []) by set_solver. apply filter_sublist; [done|apply distinct_NoDup]. Qed.

(** The runs carve the manifest. *)
Lemma run_slices out files parts pre :
  vo_chunk_manifest out = pre ++ concat parts -> length files = length parts ->
  List.map (run_slice out) (runs_of (length pre) files parts) = parts.
Proof.
  revert files pre. induction parts as [|p parts IH]; intros [|f files] pre Hm Hl; try done. cbn [runs_of List.map]. f_equal.
  - unfold run_slice. cbn [run_chunks fst snd]. rewrite Hm, drop_app_length, Nat.add_comm, Nat.add_sub. apply take_app_length.
  - rewrite <- length_app. apply IH; [|by injection Hl]. by rewrite Hm, <- app_assoc.
Qed.

Section Honest.
Context `{H : Blake3} `{!Blake3Laws H} (completes : nat -> nat * bool) (Hok : forall n, (completes n).2 = true).
Context (novel : list bytes) (start : gmap bytes bytes * nat) (body : bytes -> bytes).

Definition honest_stream : Stream := List.map (fun d => frame (d, body d)) novel.
Notation walk_inv := (walk_inv novel honest_stream start).

Definition body_ok (c : bytes * Z) : Prop := length (fst c) = 32%nat /\ digest (body (fst c)) = fst c /\ len (body (fst c)) = snd c.

(** What is left of the stream is what is left of the walk. *)
Definition alive (rs : list (bytes * bytes)) (s : VerifyState) (rest : list (bytes * Z)) : Prop :=
  walk_inv rs s /\ drop (length rs) novel = todo novel (submitted (vs_pipeline s)) (List.map fst rest).

Lemma alive_stream rs s rest : alive rs s rest -> vs_stream s = List.map (fun d => frame (d, body d)) (drop (length rs) novel).
Proof.
  intros [Hi _]. pose proof (wi_stream _ _ _ _ _ Hi) as E. unfold honest_stream in E.
  rewrite <- (take_drop (length rs) novel) in E at 1. rewrite map_app in E. apply app_inj_1 in E as [_ E]; [done|].
  rewrite !length_map, <- (wi_novel _ _ _ _ _ Hi). by rewrite length_map.
Qed.

Definition fed_body (h h' : option hasher) (cs : list (bytes * Z)) : Prop :=
  forall k, h' = Some k -> exists h0, h = Some h0 /\ k = hasher_update h0 (concat (List.map (body ∘ fst) cs)).

Lemma visit_chunk_live h c rest rs s :
  alive rs s (c :: rest) -> body_ok c ->
  exists h' s' rs', visit_chunk completes novel h c s = (inl h', s') /\ alive rs' s' rest /\ fed_body h h' [c].
Proof.
  intros Ha (H32 & Hd & Hl). pose proof (alive_stream _ _ _ Ha) as Hst. destruct Ha as [Hi Ht]. destruct c as [d l]. cbn [fst snd List.map todo] in *.
  pose proof (visit_chunk_spec completes novel honest_stream start h (d, l) rs s Hi) as Hv. cbn [visit_chunk] in *.
  destruct (bool_decide_reflect (d ∈ novel)) as [Hn|Hn]; cbn [andb] in *; [|by exists None, s, rs].
  unfold UploadPipeline.seen in *. destruct (bool_decide_reflect (d ∈ submitted (vs_pipeline s))) as [Hs|Hs]; cbn [negb] in *; [by exists None, s, rs|].
  rewrite Ht in Hst. cbn [List.map] in Hst. assert (Hnext : novel !! length rs = Some d) by (by rewrite <- (Nat.add_0_r (length rs)), <- lookup_drop, Ht).
  unfold bind in Hv at 1. unfold bind at 1. unfold recv_novel_chunk, bind, receive in Hv |- *. rewrite Hst in Hv |- *.
  cbn [next_message frame fst snd] in Hv |- *. rewrite H32 in Hv |- *. cbn [Nat.eqb negb vs_next_novel set_stream] in Hv |- *.
  rewrite (wi_next _ _ _ _ _ Hi), Hnext in Hv |- *. unfold bytes_eqb in Hv |- *. rewrite !bool_decide_eq_true_2 in Hv |- * by done.
  rewrite Hl, Z.eqb_refl in Hv |- *. cbn [negb orb] in Hv |- *. unfold submit_body in Hv |- *. cbn [vs_pipeline set_next_novel set_stream] in Hv |- *.
  destruct (submit_spec completes start rs (vs_pipeline s) d (body d) (wi_safe _ _ _ _ _ Hi) Hs) as (r & p' & Hsub & Hr & Hp). rewrite Hsub in Hv |- *.
  rewrite (Hr Hok) in Hv, Hp |- *. cbn [ret] in Hv |- *. destruct Hv as (new & Hi' & _ & _), Hp as (_ & Hsubm & _).
  eexists _, _, (rs ++ new). split; [done|]. split; [split; [exact Hi'|]|].
  - rewrite <- (wi_next _ _ _ _ _ Hi'). cbn [vs_next_novel vs_pipeline set_pipeline set_next_novel]. rewrite Hsubm.
    rewrite <- Nat.add_1_r, <- drop_drop, Ht. done.
  - intros k Hk. destruct h as [h0|]; [|done]. injection Hk as <-. exists h0. cbn. by rewrite app_nil_r.
Qed.

Lemma visit_chunks_live h cs rest rs s :
  alive rs s (cs ++ rest) -> Forall body_ok cs ->
  exists h' s' rs', visit_chunks completes novel h cs s = (inl h', s') /\ alive rs' s' rest /\ fed_body h h' cs.
Proof.
  revert h rs s. induction cs as [|c cs IH]; intros h rs s Ha Hb; cbn [visit_chunks].
  - exists h, s, rs. split; [done|]. split; [done|]. intros k ->. exists k. split; [done|]. cbn. by rewrite update_nil.
  - apply Forall_cons in Hb as [Hc Hb]. destruct (visit_chunk_live h c (cs ++ rest) rs s Ha Hc) as (h1 & s1 & rs1 & E1 & Ha1 & Hf1).
    destruct (IH h1 rs1 s1 Ha1 Hb) as (h2 & s2 & rs2 & E2 & Ha2 & Hf2). exists h2, s2, rs2. unfold bind. rewrite E1. split; [done|]. split; [done|].
    intros k Hk. destruct (Hf2 k Hk) as (k1 & Ek & ->). destruct (Hf1 k1 Ek) as (h0 & -> & ->). exists h0. split; [done|].
    cbn [List.map concat]. rewrite app_nil_r. by rewrite update_app.
Qed.

(** The run's claimed digest is that of its bodies. *)
Definition run_honest (out : ValidatedOutput) (run : FileRun) : Prop :=
  digest (concat (List.map (body ∘ fst) (run_slice out run))) = run_digest run.

Lemma visit_runs_live check oi ri out runs rest rs s :
  alive rs s (concat (List.map (run_slice out) runs) ++ rest) -> Forall body_ok (concat (List.map (run_slice out) runs)) ->
  Forall (run_honest out) runs ->
  exists s' rs', visit_runs completes novel check oi ri out runs s = (inl tt, s') /\ alive rs' s' rest.
Proof.
  revert ri rs s. induction runs as [|run runs IH]; intros ri rs s Ha Hb Hr; cbn [visit_runs]; [by exists s, rs|].
  apply Forall_cons in Hr as [Hr1 Hr]. cbn [List.map concat] in Ha, Hb. apply Forall_app in Hb as [Hb1 Hb]. rewrite <- app_assoc in Ha.
  unfold visit_run. unfold bind at 1 2. destruct (visit_chunks_live (if check then Some hasher_new else None) _ _ rs s Ha Hb1) as (h & s1 & rs1 & -> & Ha1 & Hf).
  destruct h as [k|].
  - destruct (Hf k eq_refl) as (h0 & Eh & ->). destruct check; [|done]. injection Eh as <-. unfold bytes_eqb. rewrite bool_decide_eq_true_2 by done.
    cbn [negb ret]. by apply (IH (S ri) rs1 s1).
  - destruct check; cbn [ret]; [|by apply (IH (S ri) rs1 s1)]. unfold defer. apply (IH (S ri) rs1); [|done..].
    destruct Ha1 as [Hi1 Ht1]. split; [|done]. destruct Hi1. by split.
Qed.

(** The runs of an output carve its manifest. *)
Definition runs_carve (out : ValidatedOutput) : Prop := concat (List.map (run_slice out) (vo_file_runs out)) = vo_chunk_manifest out.

Lemma visit_outputs_live skipped oi outs rs s :
  alive rs s (all_chunks outs) -> Forall body_ok (all_chunks outs) -> Forall runs_carve outs ->
  Forall (fun out => Forall (run_honest out) (vo_file_runs out)) outs ->
  exists s' rs', visit_outputs completes novel skipped oi outs s = (inl tt, s') /\ alive rs' s' [].
Proof.
  revert oi rs s. induction outs as [|out outs IH]; intros oi rs s Ha Hb Hc Hr; cbn [visit_outputs]; [by exists s, rs|].
  apply Forall_cons in Hc as [Hc1 Hc], Hr as [Hr1 Hr]. cbn [all_chunks flat_map] in Ha, Hb. rewrite <- Hc1 in Ha, Hb. apply Forall_app in Hb as [Hb1 Hb].
  destruct (visit_runs_live (negb (is_skipped skipped oi)) oi 0 out (vo_file_runs out) _ rs s Ha Hb1 Hr1) as (s1 & rs1 & E1 & Ha1).
  unfold bind. rewrite E1. by apply (IH (S oi) rs1 s1).
Qed.
End Honest.
