(* ===== verification/StoreUpload.v ===== *)
(** * Store: a chunked upload, from the first frame to the commit

    Validation, the receive walk and the deferred proof composed: what a commit
    may rely on, and that an honest client's upload reaches it. *)

From stdpp Require Import sorting.
From S2P Require Import AuthToken.
From S2P Require Import Prelude NixBytes NixStorePath NixNar NixNarLs StoreManifest StoreCastore StoreWalk.
From S2P Require Import StoreNar StoreValid StoreBuild StoreRoundTrip StorePut StorePutSound StoreVerify StoreVerifySound.
Import castore.

#[local] Open Scope Z_scope.

(** ** Trees with contents *)

Section Contents.
Context `{H : Blake3}.

Definition content_ok (f : bytes * Z) (c : bytes) : Prop := digest c = fst f /\ len c = snd f.

(** Contents of the claimed digests and sizes make the tree an archive. *)
Lemma tree_archive t cs : Forall2 content_ok (tree_files t) cs -> exists n, skel n = t /\ contents n = cs.
Proof.
  revert cs. induction t as [d s x|target|es IH] using Tree_ind'; intros cs; cbn [tree_files].
  - intros (c & ? & [Hd Hl] & ->%Forall2_nil_inv_l & ->)%Forall2_cons_inv_l. exists (Regular x c). cbn [skel contents]. cbn in Hd, Hl. by rewrite Hd, Hl.
  - intros ->%Forall2_nil_inv_l. by exists (NixNar.Symlink target).
  - intros H2. assert (Hes : exists ns, List.map (fun e => (fst e, skel (snd e))) ns = es /\ flat_map (fun e => contents (snd e)) ns = cs).
    { revert cs H2. induction IH as [|[name t] es Ht _ IHes]; intros cs; cbn [flat_map snd].
      - intros ->%Forall2_nil_inv_l. by exists [].
      - intros (c1 & c2 & H1 & H2 & ->)%Forall2_app_inv_l. cbn [snd] in Ht. destruct (Ht _ H1) as (n & <- & <-), (IHes _ H2) as (ns & <- & <-).
        by exists ((name, n) :: ns). }
    destruct Hes as (ns & <- & <-). by exists (NixNar.Directory ns).
Qed.

(** The output is the archive [n]: the bodies [bss] of its manifest, grouped by
    file, are the file contents of [n]. *)
Record output_stored (dirs : gmap bytes castore.Directory) (out : ValidatedOutput) (n : NarNode) (bss : list (list bytes)) : Prop := {
  os_root : root_denotes dirs (vo_root_node out) (skel n);
  os_fits : tree_fits MAX_NAR_ENTRIES (skel n);
  os_bodies : bodies_for (vo_chunk_manifest out) (concat bss);
  os_nonempty : Forall (fun b => 0 < len b) (concat bss);
  os_files : List.map (@concat Z) bss = contents n;
}.

Lemma bodies_nonempty cs bs : Forall chunk_ok cs -> bodies_for cs bs -> Forall (fun b => 0 < len b) bs.
Proof. intros Hc Hb. induction Hb as [|c b cs bs [_ Hl] _ IH]; [constructor|]. apply Forall_cons in Hc as [[_ Hc1] Hc]. constructor; [lia|by apply IH]. Qed.

(** Every run proven is every file's content known. *)
Lemma runs_contents files parts bss :
  parts_of files parts -> Forall2 (fun fp bs => bodies_for (snd fp) bs /\ digest (concat bs) = fst (fst fp)) (zip files parts) bss ->
  bodies_for (concat parts) (concat bss) /\ Forall2 content_ok files (List.map (@concat Z) bss).
Proof.
  intros Hp. revert bss. induction Hp as [|f p files parts Hs _ IH]; intros bss; cbn [zip zip_with].
  - intros ->%Forall2_nil_inv_l. split; constructor.
  - intros (bs & bss' & [Hb Hd] & H2 & ->)%Forall2_cons_inv_l. destruct (IH _ H2) as [H3 H4]. cbn [fst snd] in Hb, Hd. split.
    + cbn [concat]. apply bodies_for_app. eauto.
    + cbn [List.map]. constructor; [|done]. split; [done|]. by rewrite (bodies_for_len _ _ Hb).
Qed.

Lemma proven_runs out files parts pre :
  vo_chunk_manifest out = pre ++ concat parts -> parts_of files parts -> Forall (run_proven out) (runs_of (length pre) files parts) ->
  exists bss, Forall2 (fun fp bs => bodies_for (snd fp) bs /\ digest (concat bs) = fst (fst fp)) (zip files parts) bss.
Proof.
  intros Hm Hp. revert pre Hm. induction Hp as [|f p files parts Hs Hp IH]; intros pre Hm; cbn [runs_of zip zip_with]; [by exists []|].
  intros [(bs & Hb & Hd) Hr]%Forall_cons. rewrite <- length_app in Hr. destruct (IH (pre ++ p)) as (bss & H2); [by rewrite Hm, <- app_assoc|done|].
  exists (bs :: bss). constructor; [|done]. split; [|done]. revert Hb. unfold run_slice. cbn [run_chunks fst snd].
  rewrite Hm, drop_app_length. cbn [concat]. by rewrite Nat.add_comm, Nat.add_sub, take_app_length.
Qed.

Lemma output_tree_stored dirs out t parts :
  output_tree dirs out t parts -> Forall chunk_ok (vo_chunk_manifest out) -> Forall (run_proven out) (vo_file_runs out) ->
  exists n bss, output_stored dirs out n bss.
Proof.
  intros (Hr & Hf & Hp & Hm & Hfr) Hc Hruns. rewrite Hfr in Hruns. destruct (proven_runs out (tree_files t) parts [] Hm Hp Hruns) as (bss & H2).
  destruct (runs_contents _ _ _ Hp H2) as [Hb Hcs]. destruct (tree_archive t _ Hcs) as (n & <- & Hn). exists n, bss. rewrite <- Hm in Hb.
  split; [done|done|done|by eapply bodies_nonempty|done].
Qed.
End Contents.

(** ** The theorems *)

Section Upload.
Context `{H : Blake3} `{P : Prost} `{!Blake3Laws H}.

(** C14: Whatever frames the client sends, in whatever order the writes complete
    and whichever of them fail, an upload never harms the chunk store: an object
    in the backend afterwards was there before or hashes to its key, the writes
    still in flight are of bodies that hash to their keys, and at whatever frame
    the walk returns there are no more of them than the configured bound.  When the walk ends in [Match], the
    stream was exactly the novel chunks in their order and nothing else, no
    write is outstanding, and the digests reported as uploaded are the novel
    digests, each stored under its key. *)
Theorem upload_safe completes stream vb skipped store max r s :
  run_verify completes stream vb skipped store max = (r, s) ->
  (forall d b, backend (vs_pipeline s) !! d = Some b -> store !! d = Some b \/ digest b = d) /\
  Forall (fun x => digest (snd x) = fst x) (in_flight (vs_pipeline s)) /\
  (length (in_flight (vs_pipeline s)) <= Nat.max max 1)%nat /\
  forall up df, r = inl (Match up df) ->
    (exists bodies, stream = List.map (fun x => inl (Some (MChunk (fst x) (snd x)))) bodies /\ List.map fst bodies = vb_novel vb) /\
    in_flight (vs_pipeline s) = [] /\ (forall d, d ∈ up <-> d ∈ vb_novel vb) /\
    (forall d, d ∈ up -> exists b, backend (vs_pipeline s) !! d = Some b /\ digest b = d).
Proof.
  intros Hr. apply run_verify_spec in Hr as [(rs & Hh & Hs) Hm]. unfold hashed in Hh. rewrite Forall_forall in Hh.
  pose proof (ps_max _ _ _ Hs) as Hmax. cbn [snd] in Hmax. split; [|split; [|split; [rewrite <- Hmax; apply Hs|]]].
  - intros d b Hb. destruct (ps_backend _ _ _ Hs d b Hb) as [|Hin]; [by left|right]. exact (Hh _ Hin).
  - apply Forall_forall. intros x Hx. apply Hh. by apply (ps_flight _ _ _ Hs).
  - intros up df Hr. destruct (Hm up df Hr) as (rs' & Hh' & Hst & Hnov & Hup & Hfl & _ & Hback & _).
    split; [by exists rs'|]. split; [done|]. split; [done|]. intros d Hd. apply Hup in Hd. rewrite <- Hnov in Hd.
    apply list_elem_of_In, in_map_iff in Hd as ([d' b] & <- & Hin). apply list_elem_of_In in Hin. exists b. split; [by apply Hback|].
    unfold hashed in Hh'. rewrite Forall_forall in Hh'. exact (Hh' _ Hin).
Qed.

Lemma begin_output begin claims vb i out :
  begin_valid begin claims vb -> vb_outputs vb !! i = Some out -> exists o, output_valid claims
    (List.map co_store_path (pb_outputs begin) ++ pb_input_closure begin) (vb_directories vb) o out.
Proof. intros Hv Hi. destruct (Forall2_lookup_r _ _ _ _ _ (bv_outputs _ _ _ Hv) Hi) as (o & _ & Ho). by exists o. Qed.

(** What a commit may rely on.  When a validated upload's walk ends in
    [Match] and the deferred proof succeeds, with the committed rows that the
    proof consulted honest, every output that will be committed is an archive:
    its root denotes a tree within the bounds, there are file contents of
    exactly the digests and sizes that the tree claims, and non-empty bodies of
    the digests and sizes that the chunk manifest lists, grouped file by file,
    concatenate to those contents.  A file digest is never taken on the client's word. *)
Lemma upload_stored completes stream begin claims vb skipped store max up df s tfw clp get :
  begin_typed begin -> validate_begin begin claims = Some (inl vb) ->
  run_verify completes stream vb skipped store max = (inl (Match up df), s) ->
  database_honest tfw clp -> verify_deferred_runs tfw clp get vb df = inl tt ->
  forall i out, vb_outputs vb !! i = Some out -> is_skipped skipped i = false ->
  exists n bss, output_stored (vb_directories vb) out n bss.
Proof.
  intros Ht Hv Hr Hdb Hd i out Hi Hsk. apply validate_begin_valid in Hv; [|done]. destruct (begin_output _ _ _ _ _ Hv Hi) as (o & Hsc & t & parts & Htree).
  apply run_verify_spec in Hr as [_ Hm]. destruct (Hm up df eq_refl) as (rs & _ & _ & _ & _ & _ & _ & _ & Ho).
  apply verify_deferred_spec in Hd; [|done]. rewrite Forall_forall in Hd. eapply output_tree_stored; [exact Htree|apply (ov_chunks _ _ _ _ Hsc)|].
  apply Forall_forall. intros run Hrun. apply list_elem_of_lookup_1 in Hrun as (j & Hj). destruct Ho as [_ Ho].
  destruct (Ho i out j run Hi Hj Hsk) as [|Hin]; [done|]. destruct (Hd _ Hin) as (out' & run' & Hdr & Hp).
  unfold deferred_run in Hdr. cbn [dr_output dr_run Nat.add] in Hdr. rewrite Hi, Hj in Hdr. by injection Hdr as <- <-.
Qed.

(** An honest client: [body] gives the chunks, and the files have the claimed digests. *)
Definition honest_bodies (body : bytes -> bytes) (vb : ValidatedBegin) : Prop :=
  (forall c, c ∈ all_chunks (vb_outputs vb) -> digest (body (fst c)) = fst c /\ len (body (fst c)) = snd c) /\
  forall out run, out ∈ vb_outputs vb -> run ∈ vo_file_runs out -> run_honest body out run.

Lemma valid_carve begin claims vb : begin_valid begin claims vb -> Forall runs_carve (vb_outputs vb).
Proof.
  intros Hv. apply Forall_forall. intros out Ho. apply list_elem_of_lookup_1 in Ho as (i & Hi).
  destruct (begin_output _ _ _ _ _ Hv Hi) as (o & _ & t & parts & _ & _ & Hp & Hm & Hruns). unfold runs_carve. rewrite Hruns, Hm. f_equal.
  apply (run_slices out (tree_files t) parts []); [done|]. by eapply Forall2_length.
Qed.

Lemma valid_body_ok begin claims vb body :
  begin_valid begin claims vb -> honest_bodies body vb -> Forall (body_ok body) (all_chunks (vb_outputs vb)).
Proof.
  intros Hv [Hb _]. apply Forall_forall. intros c Hc. pose proof (Hb c Hc) as Hbc. split; [|done].
  unfold all_chunks in Hc. apply list_elem_of_In, in_flat_map in Hc as (out & Ho & Hc). apply list_elem_of_In in Ho, Hc.
  apply list_elem_of_lookup_1 in Ho as (i & Hi). destruct (begin_output _ _ _ _ _ Hv Hi) as (o & Hs & _).
  destruct (ov_chunks _ _ _ _ Hs) as (Hch & _). rewrite Forall_forall in Hch. apply (Hch c Hc).
Qed.

Lemma refetch_live (get : nat -> bytes -> Fetched) body claimed n h :
  (forall n c, c ∈ claimed -> get n (fst c) = inl (Some (body (fst c)))) -> Forall (body_ok body) claimed ->
  refetch get n claimed h = inl (hasher_update h (concat (List.map (body ∘ fst) claimed))).
Proof.
  intros Hg Hb. revert n h. induction Hb as [|[d l] cs (_ & Hd & Hl) _ IH]; intros n h; cbn [refetch List.map concat]; [by rewrite update_nil|].
  cbn [fst snd] in Hd, Hl. pose proof (Hg n (d, l) ltac:(left)) as Hgd. cbn [fst] in Hgd. rewrite Hgd, Hl, Z.eqb_refl. unfold bytes_eqb.
  rewrite bool_decide_eq_true_2 by done. cbn [andb]. rewrite IH by (intros; apply Hg; by right). unfold compose. cbn [fst]. by rewrite update_app.
Qed.

Lemma run_slice_sub out run c : c ∈ run_slice out run -> c ∈ vo_chunk_manifest out.
Proof. unfold run_slice. intros Hc%elem_of_take. destruct Hc as (i & Hc & _). rewrite lookup_drop in Hc. by eapply list_elem_of_lookup_2. Qed.

Lemma verify_runs_live windows get body vb n df :
  Forall (body_ok body) (all_chunks (vb_outputs vb)) ->
  (forall n c, c ∈ all_chunks (vb_outputs vb) -> get n (fst c) = inl (Some (body (fst c)))) ->
  (forall out run, out ∈ vb_outputs vb -> run ∈ vo_file_runs out -> run_honest body out run) ->
  (forall d, d ∈ df -> exists out run, deferred_run vb d = Some (out, run) /\ out ∈ vb_outputs vb /\ run ∈ vo_file_runs out) ->
  verify_runs get windows vb n df = inl tt.
Proof.
  intros Hb Hg Hr. revert n. induction df as [|d df IH]; intros n Hdf; cbn [verify_runs]; [done|].
  destruct (Hdf d) as (out & run & -> & Ho & Hrun); [left|]. destruct (window_agrees _ run _); [apply IH; intros; apply Hdf; by right|].
  assert (Hsub : forall c, c ∈ run_slice out run -> c ∈ all_chunks (vb_outputs vb)).
  { intros c Hc%run_slice_sub. unfold all_chunks. rewrite list_elem_of_In. apply in_flat_map. exists out. by rewrite <- !list_elem_of_In. }
  unfold refetch_and_verify. rewrite (refetch_live get body).
  - unfold bytes_eqb. rewrite bool_decide_eq_true_2 by (by apply Hr). cbn [negb]. apply IH. intros; apply Hdf; by right.
  - intros m c Hc. by apply Hg, Hsub.
  - apply Forall_forall. intros c Hc. rewrite Forall_forall in Hb. by apply Hb, Hsub.
Qed.

(** The walk and the deferred proofs on an honest stream. *)
Lemma honest_accepted completes begin claims vb skipped store max body tfw clp get :
  begin_typed begin -> validate_begin begin claims = Some (inl vb) -> honest_bodies body vb ->
  (forall n, (completes n).2 = true) ->
  (forall ds, exists rows, tfw ds = inl rows) -> (forall ps, exists lists, clp ps = inl lists) ->
  (forall n c, c ∈ all_chunks (vb_outputs vb) -> get n (fst c) = inl (Some (body (fst c)))) ->
  exists up df s,
    run_verify completes (List.map (fun d => inl (Some (MChunk d (body d)))) (vb_novel vb)) vb skipped store max = (inl (Match up df), s) /\
    verify_deferred_runs tfw clp get vb df = inl tt.
Proof.
  intros Ht Hv Hb Hok Htfw Hclp Hget. apply validate_begin_valid in Hv; [|done]. destruct Hb as [Hb1 Hb2].
  pose proof (valid_body_ok _ _ _ _ Hv (conj Hb1 Hb2)) as Hbo. destruct (bv_novel _ _ _ Hv) as [_ Hnov].
  assert (Hrun : exists up df s, run_verify completes (honest_stream (vb_novel vb) body) vb skipped store max = (inl (Match up df), s)).
  { unfold run_verify. set (s0 := mkVerifyState _ _ _ _). destruct (new_safe store max) as [Hsafe Hlive].
    assert (Hi0 : walk_inv (vb_novel vb) (honest_stream (vb_novel vb) body) (store, max) [] s0) by (split; cbn; [done..|constructor|done|done]).
    destruct (visit_outputs_live completes Hok (vb_novel vb) (store, max) body skipped 0 (vb_outputs vb) [] s0) as (s1 & rs & E & Ha).
    - split; [done|]. cbn [length drop vs_pipeline s0 UploadPipeline.new submitted]. symmetry. by apply todo_novel.
    - done.
    - by eapply valid_carve.
    - apply Forall_forall. intros out Ho. apply Forall_forall. intros run Hrun. by apply Hb2.
    - unfold bind. rewrite E. pose proof (alive_stream _ _ _ _ _ _ Ha) as Hst. destruct Ha as [Hi Hnil]. cbn [List.map todo] in Hnil.
      rewrite Hnil in Hst. unfold finish_walk. rewrite (wi_next _ _ _ _ _ Hi).
      destruct (Nat.ltb_spec (length rs) (length (vb_novel vb))) as [Hlt|_]; [apply (f_equal length) in Hnil; rewrite length_drop in Hnil; cbn in Hnil; lia|].
      unfold bind, receive. rewrite Hst. cbn [List.map next_message vs_pipeline set_stream].
      destruct (pipeline_drain_spec completes (store, max) rs (vs_pipeline s1) (wi_safe _ _ _ _ _ Hi) (wi_live _ _ _ _ _ Hi)) as (r & p & -> & _ & Hr & _).
      destruct (Hr Hok) as (up & ->). by eexists _, _, _. }
  destruct Hrun as (up & df & s & Hrun). exists up, df, s. split; [exact Hrun|]. apply run_verify_spec in Hrun as [_ Hm].
  destruct (Hm up df eq_refl) as (rs & _ & _ & _ & _ & _ & _ & _ & Hdf & _). unfold verify_deferred_runs. destruct df as [|d0 df']; [done|].
  unfold trusted_windows. destruct (Htfw (btree_set (omap (fun d => run_digest ∘ snd <$> deferred_run vb d) (d0 :: df')))) as (rows & ->).
  destruct (Hclp (btree_set (List.map (fun r : WindowRow => r.1.1.2) rows))) as (lists & ->). apply (verify_runs_live _ _ body); [done..|].
  intros d Hd. destruct (Hdf d Hd) as (i & out & run & Ho & Hi & Hr). exists out, run. unfold deferred_run. rewrite Ho. cbn [Nat.add].
  rewrite Hi, Hr. split; [done|]. split; by eapply list_elem_of_lookup_2.
Qed.

(** C15: An honest upload is accepted.  When the client sends, after a frame that
    validation accepts, the body of every novel digest in order, the bodies and
    the file contents have the claimed digests and sizes, the writes succeed,
    the database answers and the backend returns the chunks it is asked for,
    the walk ends in [Match] and every deferred file digest is proven, whatever
    the order in which the writes complete and the bound on their number. *)
Theorem honest_upload_accepted completes begin claims vb skipped store max body tfw clp get :
  begin_typed begin -> validate_begin begin claims = Some (inl vb) -> honest_bodies body vb ->
  (forall n, (completes n).2 = true) ->
  (forall ds, exists rows, tfw ds = inl rows) -> (forall ps, exists lists, clp ps = inl lists) ->
  (forall n c, c ∈ all_chunks (vb_outputs vb) -> get n (fst c) = inl (Some (body (fst c)))) ->
  exists up df s,
    run_verify completes (List.map (fun d => inl (Some (MChunk d (body d)))) (vb_novel vb)) vb skipped store max = (inl (Match up df), s) /\
    verify_deferred_runs tfw clp get vb df = inl tt.
Proof. apply honest_accepted. Qed.
End Upload.

(** ** A concrete upload *)

(** The first chunk is deduplicated, so the file's digest is proven from the backend. *)
Definition dedup_body (d : bytes) : bytes := if bytes_eqb d (@digest upload_blake3 (str "lo")) then str "lo" else str "hel".

Definition dedup_begin : PutPathChunkedBegin :=
  mkBegin (pb_deriver upload_begin) (pb_outputs upload_begin) (pb_directories upload_begin) [@digest upload_blake3 (str "lo")] [].

Definition dedup_valid : option (ValidatedBegin + Code) := @validate_begin upload_blake3 example_prost dedup_begin upload_claims.

Definition dedup_stream (vb : ValidatedBegin) : Stream := List.map (fun d => inl (Some (MChunk d (dedup_body d)))) (vb_novel vb).

Definition dedup_store : gmap bytes bytes := {[ @digest upload_blake3 (str "hel") := str "hel" ]}.

(** The tasks complete in reverse order. *)
Definition dedup_completes (n : nat) : nat * bool := ((n + 1)%nat, true).

Definition dedup_run (vb : ValidatedBegin) : (Verdict + Code) * VerifyState :=
  @run_verify upload_blake3 dedup_completes (dedup_stream vb) vb [false] dedup_store 4.

Definition dedup_deferred (vb : ValidatedBegin) (df : list DeferredRun) : unit + Code :=
  @verify_deferred_runs upload_blake3 (fun _ => inl []) (fun _ => inl []) (fun _ d => inl (Some (dedup_body d))) vb df.

Definition dedup_facts (vb : ValidatedBegin) : bool :=
  forallb (fun c => bytes_eqb (@digest upload_blake3 (dedup_body (fst c))) (fst c) && (len (dedup_body (fst c)) =? snd c))
    (all_chunks (vb_outputs vb)) &&
  forallb (fun out => forallb (fun run => bytes_eqb (@digest upload_blake3 (concat (List.map (dedup_body ∘ fst) (run_slice out run)))) (run_digest run))
    (vo_file_runs out)) (vb_outputs vb) &&
  match dedup_run vb with
  | (inl (Match _ [d]), _) => match dedup_deferred vb [d] with inl _ => true | inr _ => false end
  | _ => false
  end &&
  Nat.eqb (length (vb_outputs vb)) 1.

Lemma dedup_accepted : exists vb, dedup_valid = Some (inl vb) /\ dedup_facts vb = true.
Proof.
  assert (Hc : match dedup_valid with Some (inl vb) => dedup_facts vb | _ => false end = true) by (vm_compute; reflexivity).
  destruct dedup_valid as [[vb|]|]; [|done..]. by exists vb.
Qed.

Lemma upload_blake3_laws : Blake3Laws upload_blake3.
Proof. split; [done|]. intros h a b. apply fold_left_app. Qed.

Lemma dedup_typed : begin_typed dedup_begin.
Proof. exact upload_typed. Qed.

Lemma upload_safe_witness :
  exists vb r s, dedup_run vb = (r, s) /\
    (forall d b, backend (vs_pipeline s) !! d = Some b -> dedup_store !! d = Some b \/ @digest upload_blake3 b = d).
Proof.
  destruct dedup_accepted as (vb & _ & _). destruct (dedup_run vb) as [r s] eqn:Hr. exists vb, r, s. split; [done|].
  apply (@upload_safe upload_blake3 upload_blake3_laws) in Hr as [Hb _]. exact Hb.
Defined.

Lemma honest_upload_accepted_witness :
  exists vb up df s, dedup_valid = Some (inl vb) /\ dedup_run vb = (inl (Match up df), s) /\ dedup_deferred vb df = inl tt.
Proof.
  destruct dedup_accepted as (vb & Hv & Hf). unfold dedup_facts in Hf. apply andb_prop in Hf as [Hf _]. apply andb_prop in Hf as [Hf _].
  apply andb_prop in Hf as [Hc Hr]. rewrite forallb_forall in Hc, Hr.
  destruct (@honest_upload_accepted upload_blake3 example_prost upload_blake3_laws dedup_completes dedup_begin upload_claims vb [false]
    dedup_store 4 dedup_body (fun _ => inl []) (fun _ => inl []) (fun _ d => inl (Some (dedup_body d))))
    as (up & df & s & Hrun & Hd); [exact dedup_typed|exact Hv| |done|by eexists|by eexists|done|].
  - split.
    + intros c Hin. apply list_elem_of_In in Hin. apply Hc, andb_prop in Hin as [H1 H2]. apply bool_decide_eq_true in H1. apply Z.eqb_eq in H2. by split.
    + intros out run Ho Hin. apply list_elem_of_In in Ho, Hin. apply Hr in Ho. rewrite forallb_forall in Ho. apply Ho, bool_decide_eq_true in Hin. exact Hin.
  - exists vb, up, df, s. split; [exact Hv|]. split; [exact Hrun|exact Hd].
Defined.
