(* ===== verification/StoreGet.v ===== *)
(** * Store: ingest of a whole archive, and serving a path

    [src/rio-store/src/cas.rs] (the parsed archive, the chunks of an ingest, the
    upload of the missing ones, the verifying chunk cache), [chunker.rs],
    [metadata/queries.rs] (what is read back for a path) and
    [grpc/get_path.rs] (the stream that [GetPath] sends).

    The rows and the chunks are what the database and the object store return;
    what the receiver of the stream sees is modelled, and a receiver that
    disconnects sees a prefix of it. *)

From stdpp Require Import sorting.
From S2P Require Import Prelude NixBytes NixStorePath NixNar NixNarLs NixWire StoreManifest StoreCastore.
From S2P Require Import StoreWalk StoreNar StoreValid StoreBuild StoreRoundTrip StorePut.
Import castore.

#[local] Open Scope Z_scope.

(** ** Ingest *)

Definition INLINE_THRESHOLD : Z := 256 * 1024.

(** [backend.filter(|_| nar_len >= INLINE_THRESHOLD)]. *)
Definition should_chunk {B} (backend : option B) (nar_len : Z) : option B :=
  match backend with
  | Some b => if INLINE_THRESHOLD <=? nar_len then Some b else None
  | None => None
  end.

Module ParsedNar.
Record ParsedNar : Type := mk {
  entries : list NarLsEntry;
  dag : DirectoryDag;
}.

Inductive ParseError : Type :=
  | Nar (e : NarError)
  | Trailing (bytes : Z)
  | Panic.

Section Parse.
Context `{H : Blake3} `{P : Prost}.

(** The encoded index that the code keeps besides is a function of these two. *)
Definition parse (nar_data : bytes) : ParsedNar + ParseError :=
  match nar_ls_reader nar_data with
  | inr e => inr (Nar e)
  | inl (entries, r) =>
      let consumed := pos r in
      if negb (consumed =? len nar_data) then inr (Trailing (len nar_data - consumed))
      else match build entries with Some dag => inl (mk entries dag) | None => inr Panic end
  end.
End Parse.

Definition is_regular (e : NarLsEntry) : bool := match le_kind e with KRegular => true | _ => false end.

Definition blob_len (p : ParsedNar) : Z := fold_right (fun e n => if is_regular e then le_size e + n else n) 0 (entries p).

Definition content (nar_data : bytes) (e : NarLsEntry) : bytes := slice nar_data (le_nar_offset e) (le_size e).

Definition has_content (e : NarLsEntry) : bool := is_regular e && (0 <? le_size e).

Definition blob_stream (p : ParsedNar) (nar_data : bytes) : bytes :=
  flat_map (fun e => if has_content e then content nar_data e else []) (entries p).
End ParsedNar.

(** [fastcdc::v2020::FastCDC] with the store's parameters, on a non-empty input. *)
Class FastCDC : Type := { cut : bytes -> list bytes }.

(** Its chunks partition the input; none is empty or longer than the maximum. *)
Class FastCDCLaws (F : FastCDC) : Prop := {
  cut_concat b : concat (cut b) = b;
  cut_sizes b : Forall (fun c => 0 < len c <= CHUNK_MAX) (cut b);
}.

Record Chunk : Type := mkChunk { ck_hash : bytes; ck_data : bytes }.

Section Ingest.
Context `{H : Blake3} `{F : FastCDC}.

Definition chunk_nar (nar : bytes) : list Chunk :=
  match nar with [] => [] | _ => List.map (fun d => mkChunk (digest d) d) (cut nar) end.

(** Step 1 of [stage_chunked]. *)
Definition chunk_files (p : ParsedNar.ParsedNar) (nar_data : bytes) : list Chunk :=
  flat_map (fun e => if ParsedNar.has_content e then chunk_nar (ParsedNar.content nar_data e) else []) (ParsedNar.entries p).

Definition manifest_of (chunks : list Chunk) : list ManifestEntry := List.map (fun c => mkManifestEntry (ck_hash c) (len (ck_data c))) chunks.

(** [filter(|c| seen.insert(c.hash))] for the chunks that [keep]. *)
Fixpoint first_chunks (keep : bytes -> bool) (seen : gset bytes) (chunks : list Chunk) : list Chunk :=
  match chunks with
  | [] => []
  | c :: chunks =>
      if keep (ck_hash c) && negb (bool_decide (ck_hash c ∈ seen)) then c :: first_chunks keep ({[ck_hash c]} ∪ seen) chunks
      else first_chunks keep seen chunks
  end.

(** The chunk rows of the upsert. *)
Definition chunk_rows (chunks : list Chunk) : list (bytes * Z) :=
  List.map (fun c => (ck_hash c, len (ck_data c))) (first_chunks (fun _ => true) ∅ chunks).

(** [do_upload]: every write must succeed; the first failure aborts, and leaves at
    most content-addressed objects behind.  The heartbeats it fires on the
    placeholder row are database writes and not part of it. *)
Definition do_upload (put_ok : nat -> bool) (store : gmap bytes bytes) (chunks : list Chunk) (needs_upload : gset bytes)
    : option (gmap bytes bytes * nat) :=
  let to_upload := first_chunks (fun h => bool_decide (h ∈ needs_upload)) ∅ chunks in
  if forallb put_ok (seq 0 (length to_upload)) then
    Some (fold_left (fun m c => <[ck_hash c := ck_data c]> m) to_upload store, (length chunks - length to_upload)%nat)
  else None.

(** [stage_chunked] up to the upload: the chunk list that is persisted, and the
    backend after it.  [needs_upload] is the database's answer to the rows. *)
Definition stage_chunked (put_ok : nat -> bool) (needs_upload : list (bytes * Z) -> gset bytes) (store : gmap bytes bytes)
    (p : ParsedNar.ParsedNar) (nar_data : bytes) : option (bytes * gmap bytes bytes) :=
  let chunks := chunk_files p nar_data in
  if Manifest.MAX_CHUNKS <? Z.of_nat (length chunks) then None
  else
    match do_upload put_ok store chunks (needs_upload (chunk_rows chunks)) with
    | Some (store, _) => Some (Manifest.serialize (manifest_of chunks), store)
    | None => None
    end.
End Ingest.

(** [commit.rs]: the index of a validated upload, from its tree. *)
Definition build_parsed `{Blake3} `{Prost} (root : RootNode) (dirs : gmap bytes castore.Directory) (max_nodes : Z)
    : ParsedNar.ParsedNar + Code :=
  match tree_to_entries dirs max_nodes root with
  | inr _ => inr Internal
  | inl entries => match build entries with Some dag => inl (ParsedNar.mk entries dag) | None => inr Internal end
  end.

Definition build_manifest (chunk_manifest : list (bytes * Z)) : bytes :=
  Manifest.serialize (List.map (fun c => mkManifestEntry (fst c) (snd c)) chunk_manifest).

(** ** One archive *)

Inductive PersistError : Type :=
  | Malformed (e : ParsedNar.ParseError)
  | ChunkedFailed.

(** [persist_nar] up to the completing transaction: the index, and the blob
    stream or the chunk list with the backend after the writes. *)
Definition persist_nar `{Blake3} `{Prost} `{FastCDC} (put_ok : nat -> bool) (needs_upload : list (bytes * Z) -> gset bytes)
    (backend : option (gmap bytes bytes)) (nar_data : bytes)
    : (ParsedNar.ParsedNar * (bytes + bytes * gmap bytes bytes)) + PersistError :=
  match ParsedNar.parse nar_data with
  | inr e => inr (Malformed e)
  | inl parsed =>
      match should_chunk backend (len nar_data) with
      | Some store =>
          match stage_chunked put_ok needs_upload store parsed nar_data with
          | Some r => inl (parsed, inr r)
          | None => inr ChunkedFailed
          end
      | None => inl (parsed, inl (ParsedNar.blob_stream parsed nar_data))
      end
  end.

(** ** The row of a path *)

Record PathRow : Type := mkPathRow {
  row_inline_blob : option bytes;
  row_chunk_list : option bytes;
  row_root_node : option bytes;
  row_dir_bodies : option (list bytes);
}.

Inductive ManifestKind : Type :=
  | Inline (blob : bytes)
  | Chunked (entries : list (bytes * Z)).

Definition decode_chunk_list (chunk_list : bytes) : list (bytes * Z) + Code :=
  match Manifest.deserialize chunk_list with
  | inl es => inl (List.map (fun e => (me_hash e, me_size e)) es)
  | inr _ => inr DataLoss
  end.

(** The errors are those of [metadata_status]. *)
Definition manifest_with_dag (row : PathRow) : (ManifestKind * option (bytes * list bytes)) + Code :=
  kind <-? match row_inline_blob row, row_chunk_list row with
           | Some blob, _ => inl (Inline blob)
           | None, Some chunk_list => entries <-? decode_chunk_list chunk_list; inl (Chunked entries)
           | None, None => inr Internal
           end;
  inl (kind, match row_root_node row with Some root => Some (root, default [] (row_dir_bodies row)) | None => None end).

(** ** The chunk cache *)

Module ChunkCache.
Inductive ChunkError : Type :=
  | NotFound (hash : bytes)
  | Corrupt (expected actual : bytes).

Section Cache.
Context `{H : Blake3}.

Definition verify (expected b : bytes) : bytes + ChunkError :=
  let actual := digest b in
  if bytes_eqb actual expected then inl b else inr (Corrupt expected actual).

(** [fetched] is what the backend gives when the chunk is not cached; a failed
    fetch is a missing chunk. *)
Definition get_verified (lru : gmap bytes bytes) (fetched : option bytes) (hash : bytes) : (bytes + ChunkError) * gmap bytes bytes :=
  match lru !! hash with
  | Some b =>
      match verify hash b with
      | inl v => (inl v, lru)
      | inr e => (inr e, delete hash lru)
      end
  | None =>
      match fetched with
      | None => (inr (NotFound hash), lru)
      | Some b =>
          match verify hash b with
          | inl v => (inl v, <[hash := v]> lru)
          | inr e => (inr e, lru)
          end
      end
  end.
End Cache.
End ChunkCache.

(** ** The stream *)

Definition NAR_CHUNK_SIZE : Z := 256 * 1024.

Record PathInfoRow : Type := mkPathInfoRow {
  info_store_path : bytes;
  info_nar_hash : bytes;
  info_nar_size : Z;
}.

Inductive Response : Type :=
  | RInfo (info : PathInfoRow)
  | RNarChunk (b : bytes).

Definition Item : Type := Response + Code.

Definition stream_bytes (b : bytes) : list Item :=
  List.map (fun piece => inl (RNarChunk piece)) (chunks_loop (length b) (Z.to_nat NAR_CHUNK_SIZE) b).

(** What was sent, and what the loop goes on with; [None] after an error. *)
Definition Served (A : Type) : Type := (list Item * option A)%type.

Definition data_loss {A} : Served A := ([inr DataLoss], None).

Definition sent {A} (items : list Item) (k : Served A) : Served A := (items ++ fst k, snd k).

(** The hasher's input and the byte count. *)
Record Sums : Type := mkSums { fed : bytes; total_bytes : Z }.

Definition feed (s : Sums) (b : bytes) : Sums := mkSums (fed s ++ b) (total_bytes s + len b).

Inductive Source : Type :=
  | SInline (blob : bytes) (cursor : Z)
  | SChunks (next : nat) (remaining : list (bytes * Z)).

Section Serve.
Context `{H : Blake3} `{P : Prost} {C : NixCrypto}.
(** The cache and the backend as the [n]-th chunk of the stream finds them. *)
Context (lru_at : nat -> gmap bytes bytes) (fetch_at : nat -> bytes -> option bytes).

Definition chunk_at (n : nat) (hash : bytes) : bytes + ChunkCache.ChunkError :=
  fst (ChunkCache.get_verified (lru_at n) (fetch_at n hash) hash).

(** [while got < size]. *)
Fixpoint chunk_run (next : nat) (remaining : list (bytes * Z)) (got size : Z) (s : Sums) : Served (nat * list (bytes * Z) * Z * Sums) :=
  if got <? size then
    match remaining with
    | [] => data_loss
    | (hash, _) :: remaining =>
        match chunk_at next hash with
        | inr _ => data_loss
        | inl b => sent (stream_bytes b) (chunk_run (S next) remaining (got + len b) size (feed s b))
        end
    end
  else ([], Some (next, remaining, got, s)).

Definition serve_contents (src : Source) (size : Z) (s : Sums) : Served (Source * Sums) :=
  match src with
  | SInline blob cursor =>
      match checked_add cursor size with
      | Some e =>
          if e <=? len blob then
            let b := slice blob cursor size in
            sent (stream_bytes b) ([], Some (SInline blob (cursor + size), feed s b))
          else data_loss
      | None => data_loss
      end
  | SChunks next remaining =>
      match chunk_run next remaining 0 size s with
      | (items, Some (next, remaining, got, s)) =>
          if negb (got =? size) then sent items data_loss else sent items ([], Some (SChunks next remaining, s))
      | (items, None) => (items, None)
      end
  end.

Fixpoint serve_pieces (ps : list (NarPiece + WalkError)) (src : Source) (s : Sums) : Served Sums :=
  match ps with
  | [] => ([], Some s)
  | inr _ :: _ => data_loss
  | inl (NarPiece.Framing b) :: ps => sent (stream_bytes b) (serve_pieces ps src (feed s b))
  | inl (NarPiece.Contents _ size) :: ps =>
      match serve_contents src size s with
      | (items, Some (src, s)) => sent items (serve_pieces ps src s)
      | (items, None) => (items, None)
      end
  end.

Definition source_of (manifest : ManifestKind) : Source :=
  match manifest with Inline blob => SInline blob 0 | Chunked entries => SChunks 0 entries end.

(** The task that [stream_path] spawns. *)
Definition stream_task (info : PathInfoRow) (manifest : ManifestKind) (root : RootNode) (dirs : gmap bytes castore.Directory) : list Item :=
  inl (RInfo info) ::
  match serve_pieces (pieces (nar_pieces dirs MAX_WALK_NODES root)) (source_of manifest) (mkSums [] 0) with
  | (items, None) => items
  | (items, Some s) =>
      items ++
      (if negb (bytes_eqb (sha256 (fed s)) (info_nar_hash info)) || negb (total_bytes s =? info_nar_size info) then [inr DataLoss] else [])
  end.

Definition stream_path (has_cache : bool) (info : PathInfoRow) (manifest : ManifestKind) (root : RootNode)
    (dirs : gmap bytes castore.Directory) : list Item + Code :=
  match manifest with
  | Chunked _ => if has_cache then inl (stream_task info manifest root dirs) else inr FailedPrecondition
  | Inline _ => inl (stream_task info manifest root dirs)
  end.

Definition decode_dag_for (dag : option (bytes * list bytes)) : (RootNode * gmap bytes castore.Directory) + Code :=
  match dag with
  | None => inr DataLoss
  | Some (root, bodies) => match decode_dag root bodies with Some r => inl r | None => inr DataLoss end
  end.

(** [get_path_impl] once the path's info and row are known and visible. *)
Definition get_path (has_cache : bool) (info : PathInfoRow) (row : PathRow) : list Item + Code :=
  md <-? manifest_with_dag row;
  rd <-? decode_dag_for (snd md);
  stream_path has_cache info (fst md) (fst rd) (snd rd).
End Serve.
