(* ===== verification/StoreGetSound.v ===== *)
(** * Store: what is stored is what is served

    A stream that [GetPath] completes without an error is the archive of the
    path's hash and size, whatever the database, the cache and the object store
    return; and the archive that was ingested, whole or in chunks, is the one
    that is served. *)

From stdpp Require Import sorting.
From S2P Require Import AuthToken.
From S2P Require Import Prelude NixBytes NixStorePath NixNar NixNarLs NixWire StoreManifest StoreCastore.
From S2P Require Import StoreWalk StoreNar StoreValid StoreBuild StoreRoundTrip StorePut StorePutSound StoreVerify.
From S2P Require Import StoreVerifySound StoreUpload StoreGet.
Import castore.

#[local] Open Scope Z_scope.

(** ** Messages *)

Definition payload (items : list Item) : bytes :=
  flat_map (fun i => match i with inl (RNarChunk b) => b | _ => [] end) items.

Lemma payload_app a b : payload (a ++ b) = payload a ++ payload b.
Proof. apply flat_map_app. Qed.

(** Messages of data, none empty and none over the limit. *)
Definition all_data (items : list Item) : Prop := Forall (fun i => exists b, i = inl (RNarChunk b) /\ 0 < len b <= NAR_CHUNK_SIZE) items.

(** Data, and then one error. *)
Definition broken (items : list Item) : Prop := exists data, items = data ++ [inr DataLoss] /\ all_data data.

Lemma broken_app a b : all_data a -> broken b -> broken (a ++ b).
Proof. intros Ha (d & -> & Hd). exists (a ++ d). split; [by rewrite app_assoc|by apply Forall_app]. Qed.

Lemma nar_chunk_positive : (0 < Z.to_nat NAR_CHUNK_SIZE)%nat.
Proof. unfold NAR_CHUNK_SIZE. lia. Qed.

Lemma stream_bytes_spec b : all_data (stream_bytes b) /\ payload (stream_bytes b) = b.
Proof.
  unfold stream_bytes, all_data, payload. destruct (chunks_loop_spec (length b) (Z.to_nat NAR_CHUNK_SIZE) b) as [H1 H2]; [apply nar_chunk_positive|lia|].
  split.
  - apply Forall_map. eapply Forall_impl; [exact H2|]. intros c Hc. exists c. split; [done|]. unfold len, NAR_CHUNK_SIZE in *. lia.
  - etransitivity; [|exact H1]. generalize (chunks_loop (length b) (Z.to_nat NAR_CHUNK_SIZE) b) as l. intros l.
    induction l as [|c l IH]; cbn; [done|]. by rewrite IH.
Qed.

Lemma feed_feed s a b : feed (feed s a) b = feed s (a ++ b).
Proof. unfold feed. cbn. by rewrite <- app_assoc, len_app, Z.add_assoc. Qed.

Lemma feed_nil s : feed s [] = s.
Proof. destruct s. unfold feed. cbn. by rewrite app_nil_r, Z.add_0_r. Qed.

(** The sums are those of the data that was sent, unless it broke off. *)
Definition counted {A} (sums : A -> Sums) (s : Sums) (k : Served A) : Prop :=
  match snd k with
  | Some a => all_data (fst k) /\ sums a = feed s (payload (fst k))
  | None => broken (fst k)
  end.

Lemma counted_data_loss {A} (sums : A -> Sums) s : counted sums s data_loss.
Proof. exists []. split; [done|constructor]. Qed.

Lemma counted_nil {A} (sums : A -> Sums) a : counted sums (sums a) ([], Some a).
Proof. split; [constructor|]. cbn. by rewrite feed_nil. Qed.

Lemma counted_sent {A} (sums : A -> Sums) s b (k : Served A) : counted sums (feed s b) k -> counted sums s (sent (stream_bytes b) k).
Proof.
  destruct (stream_bytes_spec b) as [Hd Hp]. destruct k as [items [a|]]; unfold counted; cbn [sent fst snd].
  - intros [Ha ->]. split; [by apply Forall_app|]. by rewrite payload_app, Hp, feed_feed.
  - by apply broken_app.
Qed.

Section Serve.
Context `{H : Blake3} `{P : Prost} {C : NixCrypto}.
Context (lru_at : nat -> gmap bytes bytes) (fetch_at : nat -> bytes -> option bytes).
Notation chunk_at := (chunk_at lru_at fetch_at).

(** Whatever is cached or fetched, a chunk that is returned hashes to its key. *)
Lemma chunk_at_digest n hash b : chunk_at n hash = inl b -> digest b = hash.
Proof.
  unfold StoreGet.chunk_at, ChunkCache.get_verified, ChunkCache.verify, bytes_eqb.
  destruct (lru_at n !! hash) as [c|]; [|destruct (fetch_at n hash) as [c|]; [|done]]; case_bool_decide as E; cbn; intros Hb; try discriminate Hb;
    by injection Hb as <-.
Qed.

Lemma chunk_run_counted next remaining got size s :
  counted snd s (chunk_run lru_at fetch_at next remaining got size s).
Proof.
  revert next got s. induction remaining as [|[h z] remaining IH]; intros next got s; cbn [chunk_run]; destruct (got <? size);
    try apply counted_data_loss; try apply (counted_nil snd (_, _, _, s)).
  destruct (StoreGet.chunk_at _ _ next h) as [b|]; [|apply counted_data_loss]. apply counted_sent, IH.
Qed.

Lemma serve_contents_counted src size s : counted snd s (serve_contents lru_at fetch_at src size s).
Proof.
  unfold serve_contents. destruct src as [blob cursor|next remaining].
  - destruct (checked_add cursor size) as [e|]; [|apply counted_data_loss]. destruct (e <=? len blob); [|apply counted_data_loss].
    apply counted_sent. apply (counted_nil snd (_, _)).
  - pose proof (chunk_run_counted next remaining 0 size s) as Hc. destruct (chunk_run _ _ next remaining 0 size s) as [items [[[[next' left'] got] s']|]]; [|done].
    destruct Hc as [Hd Hs]. cbn [snd fst] in Hd, Hs. subst s'. destruct (negb (got =? size)); unfold counted, sent; cbn [fst snd].
    + apply broken_app; [done|]. exists []. split; [done|constructor].
    + rewrite app_nil_r. done.
Qed.

Lemma serve_pieces_counted ps src s : counted id s (serve_pieces lru_at fetch_at ps src s).
Proof.
  revert src s. induction ps as [|[[b|d size]|e] ps IH]; intros src s; cbn [serve_pieces].
  - apply (counted_nil id).
  - apply counted_sent, IH.
  - pose proof (serve_contents_counted src size s) as Hc. destruct (serve_contents _ _ src size s) as [items [[src' s']|]]; [|done].
    destruct Hc as [Hd Hs]. cbn [fst snd] in *. subst s'. specialize (IH src' (feed s (payload items))).
    destruct (serve_pieces _ _ ps src' _) as [items' [a|]]; unfold counted, sent in *; cbn [fst snd] in *.
    + destruct IH as [Hd' ->]. split; [by apply Forall_app|]. by rewrite payload_app, feed_feed.
    + by apply broken_app.
  - apply counted_data_loss.
Qed.

(** ** The archive that is served *)

(** The chunks that were stored, and that no other bytes have their digests. *)
Context (known : list bytes) (Hknown : forall a b, a ∈ known -> digest b = digest a -> b = a).

(** The source holds the contents [cs], in order. *)
Definition source_has (src : Source) (cs : list bytes) : Prop :=
  match src with
  | SInline blob cursor => len blob < 2 ^ 64 /\ exists pre, blob = pre ++ concat cs /\ cursor = len pre
  | SChunks _ remaining =>
      exists bss, List.map (@concat Z) bss = cs /\ bodies_for remaining (concat bss) /\ Forall (fun b => 0 < len b) (concat bss) /\
        forall b, b ∈ concat bss -> b ∈ known
  end.

(** The cache or the backend gives every chunk of the list. *)
Definition fetched_all (entries : list (bytes * Z)) : Prop := forall n h z, (h, z) ∈ entries -> exists b, chunk_at n h = inl b.

Definition source_live (src : Source) : Prop := match src with SInline _ _ => True | SChunks _ remaining => fetched_all remaining end.

(** The data sent is [b], or it broke off within [b]; it does not break off when [live]. *)
Definition exact {A} (Q : A -> Prop) (live : Prop) (b : bytes) (k : Served A) : Prop :=
  match snd k with
  | Some a => payload (fst k) = b /\ Q a
  | None => ~ live /\ exists tail, b = payload (fst k) ++ tail
  end.

Lemma payload_data_loss {A} : payload (fst (@data_loss A)) = [].
Proof. done. Qed.

Lemma chunk_run_exact es g rest next got size s :
  bodies_for es g -> Forall (fun b => 0 < len b) g -> (forall b, b ∈ g -> b ∈ known) -> got + len (concat g) = size ->
  exact (fun r => exists next' s', r = (next', rest, size, s')) (fetched_all (es ++ rest)) (concat g)
    (chunk_run lru_at fetch_at next (es ++ rest) got size s).
Proof.
  intros Hb. revert next got s. induction Hb as [|[h z] b es g [Hd Hl] _ IH]; intros next got s Hpos Hk Hsize; cbn [app concat] in *.
  - change (len []) with 0 in Hsize. destruct rest as [|[h z] rest]; cbn [chunk_run]; (destruct (Z.ltb_spec got size); [lia|]); (split; [done|]); assert (got = size) as -> by lia; by eexists _, _.
  - apply Forall_cons in Hpos as [Hp Hpos]. cbn [fst snd] in Hd, Hl. rewrite len_app in Hsize. cbn [chunk_run].
    assert (0 <= len (concat g)) by (unfold len; lia). destruct (Z.ltb_spec got size); [|lia].
    destruct (StoreGet.chunk_at lru_at fetch_at next h) as [c|] eqn:Hc.
    + assert (c = b) as ->. { apply Hknown; [apply Hk; left|]. rewrite (chunk_at_digest _ _ _ Hc). done. }
      specialize (IH (S next) (got + len b) (feed s b) Hpos ltac:(intros; apply Hk; by right) ltac:(lia)).
      destruct (stream_bytes_spec b) as [_ Hpb]. destruct (chunk_run _ _ _ _ _ _ _) as [items [r|]]; unfold exact, sent in *; cbn [fst snd] in *;
        rewrite payload_app, Hpb.
      * destruct IH as [-> Hr]. done.
      * destruct IH as [Hnl (tail & ->)]. split; [|exists tail; by rewrite app_assoc]. intros Hlive. apply Hnl. intros n h' z' Hin. apply (Hlive n h' z'). by right.
    + split; [|by exists (b ++ concat g)]. intros Hlive. destruct (Hlive next h z) as [c' Hc']; [left|]. unfold StoreGet.chunk_at in *. congruence.
Qed.

Lemma slice_mid pre c post : slice (pre ++ c ++ post) (len pre) (len c) = c.
Proof. apply slice_end. Qed.

(** One file. *)
Lemma serve_contents_exact src c cs s :
  source_has src (c :: cs) ->
  exact (fun r => source_has (fst r) cs /\ (source_live src -> source_live (fst r))) (source_live src) c (serve_contents lru_at fetch_at src (len c) s).
Proof.
  intros Hh. destruct src as [blob cursor|next remaining]; cbn [serve_contents source_has] in *.
  - destruct Hh as (Hlt & pre & -> & ->). cbn [concat] in *. unfold checked_add. rewrite !len_app in Hlt. assert (0 <= len (concat cs)) by (unfold len; lia).
    destruct (Z.ltb_spec (len pre + len c) (2 ^ 64)); [|lia]. destruct (Z.leb_spec (len pre + len c) (len (pre ++ c ++ concat cs))) as [_|Hx]; [|rewrite !len_app in Hx; lia].
    rewrite slice_mid. destruct (stream_bytes_spec c) as [_ Hpc]. unfold exact, sent. cbn [fst snd]. rewrite app_nil_r. split; [done|].
    split; [|done]. split; [rewrite !len_app; lia|]. exists (pre ++ c). rewrite len_app. by rewrite <- app_assoc.
  - destruct Hh as (bss & Hm & Hb & Hpos & Hk). destruct bss as [|g bss]; [done|]. cbn [List.map concat] in *. injection Hm as <- <-.
    unfold bodies_for in Hb. apply Forall2_app_inv_r in Hb as (es & rest & Hg & Hrest & ->). apply Forall_app in Hpos as [Hp1 Hp2].
    pose proof (chunk_run_exact es g rest next 0 (len (concat g)) s Hg Hp1 ltac:(intros; apply Hk; set_solver) ltac:(lia)) as He.
    destruct (chunk_run _ _ _ _ _ _ _) as [items [[[[next' left'] got] s']|]]; unfold exact in *; cbn [fst snd] in *; [|done].
    destruct He as [Hpay (n2 & s2 & [= -> -> -> ->])]. rewrite Z.eqb_refl. cbn [negb]. unfold sent. cbn [fst snd]. rewrite app_nil_r. split; [done|]. split.
    + exists bss. split_and!; [done..|]. intros b Hin. apply Hk. set_solver.
    + cbn. intros Hl n h z Hin. apply (Hl n h z). set_solver.
Qed.

(** The pieces of an archive, spliced. *)
Lemma serve_pieces_exact ps cs out src s :
  fill (flat_map piece_atoms ps) cs = Some out -> source_has src cs ->
  exact (fun _ => True) (source_live src) out (serve_pieces lru_at fetch_at (List.map inl ps) src s).
Proof.
  revert cs out src s. induction ps as [|[b|d size] ps IH]; intros cs out src s; cbn [flat_map piece_atoms List.map serve_pieces].
  - cbn [fill]. destruct cs; [|done]. by intros [= <-].
  - rewrite fill_bytes. intros (out' & Hf & ->)%fmap_Some_1 Hh. specialize (IH cs out' src (feed s b) Hf Hh). destruct (stream_bytes_spec b) as [_ Hpb].
    destruct (serve_pieces _ _ _ _ _) as [items [a|]]; unfold exact, sent in *; cbn [fst snd] in *; rewrite payload_app, Hpb.
    + by destruct IH as [-> _].
    + destruct IH as [Hn (tail & ->)]. split; [done|]. exists tail. by rewrite app_assoc.
  - cbn [app fill]. destruct cs as [|c cs]; [done|]. destruct (Z.eqb_spec (len c) size) as [<-|]; [|done].
    destruct (fill (flat_map piece_atoms ps) cs) as [out'|] eqn:Hf; [|done]. intros [= <-] Hh. pose proof (serve_contents_exact src c cs s Hh) as He.
    destruct (serve_contents _ _ _ _ _) as [items [[src' s']|]]; unfold exact in He; cbn [fst snd] in He.
    + destruct He as (Hp & Hh' & Hl). specialize (IH cs out' src' s' Hf Hh').
      destruct (serve_pieces _ _ _ _ _) as [items' [a|]]; unfold exact, sent in *; cbn [fst snd] in *; rewrite payload_app, Hp.
      * by destruct IH as [-> _].
      * destruct IH as [Hn (tail & ->)]. split; [auto|]. exists tail. by rewrite app_assoc.
    + destruct He as [Hn (tail & ->)]. unfold exact. cbn [fst snd]. split; [done|]. exists (tail ++ out'). by rewrite app_assoc.
Qed.
End Serve.

(** ** The row of an archive *)

(** The row reads as the index of [dag] and, besides, an inline blob or a chunk
    list.  The database gives the bodies in any order, and none as NULL. *)
Record row_holds (row : PathRow) (kind : bytes + bytes) (dag : DirectoryDag) : Prop := {
  rh_kind : match kind with
            | inl blob => row_inline_blob row = Some blob
            | inr chunk_list => row_inline_blob row = None /\ row_chunk_list row = Some chunk_list
            end;
  rh_root : row_root_node row = Some (dag_root_node dag);
  rh_bodies : default [] (row_dir_bodies row) ≡ₚ List.map snd (dag_directories dag);
}.

Section Served.
Context `{H : Blake3} `{P : Prost} `{!Blake3Laws H} `{!Blake3Width H} `{!ProstLaws P} {C : NixCrypto}.

(** What [GetPath] sends for an archive: all of it, or part of it and an error,
    the error only when a chunk cannot be had or the hash or size is not its own. *)
Definition serves (info : PathInfoRow) (n : NarNode) (live : Prop) (r : list Item + Code) : Prop :=
  exists data, r = inl (inl (RInfo info) :: data) /\
    ((all_data data /\ payload data = serialize n /\ sha256 (serialize n) = info_nar_hash info /\ len (serialize n) = info_nar_size info) \/
     (broken data /\ (exists tail, serialize n = payload data ++ tail) /\
      ~ (live /\ sha256 (serialize n) = info_nar_hash info /\ len (serialize n) = info_nar_size info))).

Lemma stream_task_serves lru_at fetch_at known info manifest root dirs n :
  (forall a b, a ∈ known -> digest b = digest a -> b = a) ->
  root_denotes dirs root (skel n) -> tree_fits MAX_NAR_ENTRIES (skel n) -> source_has known (source_of manifest) (contents n) ->
  serves info n (source_live lru_at fetch_at (source_of manifest)) (inl (stream_task lru_at fetch_at info manifest root dirs)).
Proof.
  intros Hk Hden Hfit Hsrc. eexists. split; [reflexivity|].
  destruct (pieces_fill dirs MAX_WALK_NODES root n ltac:(done) Hden (tree_fits_mono MAX_NAR_ENTRIES MAX_WALK_NODES _ ltac:(done) Hfit)) as (ps & -> & Hfill).
  pose proof (serve_pieces_exact lru_at fetch_at known Hk ps (contents n) _ (source_of manifest) (mkSums [] 0) Hfill Hsrc) as He.
  pose proof (serve_pieces_counted lru_at fetch_at (List.map inl ps) (source_of manifest) (mkSums [] 0)) as Hc.
  destruct (serve_pieces _ _ _ _ _) as [items [s|]]; unfold exact, counted in He, Hc; cbn [fst snd] in He, Hc.
  - destruct He as [Hp _], Hc as [Hd Hs]. unfold id in Hs. rewrite Hp in Hs. subst s. cbn [feed fed total_bytes app]. unfold bytes_eqb. rewrite Z.add_0_l.
    case_bool_decide as E1; cbn [negb orb]; [destruct (Z.eqb_spec (len (serialize n)) (info_nar_size info)) as [E2|E2]; cbn [negb]|].
    + left. rewrite app_nil_r. done.
    + right. split; [by exists items|]. rewrite payload_app, Hp. split; [exists []; cbn; by rewrite !app_nil_r|]. by intros (_ & _ & ?).
    + right. split; [by exists items|]. rewrite payload_app, Hp. split; [exists []; cbn; by rewrite !app_nil_r|]. by intros (_ & ? & _).
  - destruct He as [Hn Ht]. right. split; [done|]. split; [done|]. by intros [? _].
Qed.

(** The archive's index, read back in any order, serves the archive. *)
Lemma get_path_serves lru_at fetch_at known info row kind dag manifest n :
  (forall a b, a ∈ known -> digest b = digest a -> b = a) -> ls_wf nar_levels n -> tree_fits MAX_NAR_ENTRIES (skel n) -> no_collision n ->
  build (index_node n [] root_offset) = Some dag -> row_holds row kind dag ->
  match kind with inl blob => manifest = Inline blob | inr list => exists es, decode_chunk_list list = inl es /\ manifest = Chunked es end ->
  source_has known (source_of manifest) (contents n) ->
  serves info n (source_live lru_at fetch_at (source_of manifest)) (get_path lru_at fetch_at true info row).
Proof.
  intros Hk Hw Hfit Hcol Hbuild [Hkind Hroot Hbodies] Hm Hsrc. destruct (ls_wf_tidy _ _ Hw) as [Ht Ho].
  pose proof (index_entry_of n [] root_offset (Forall_nil_2 _) Ht) as He. change (joinc []) with (@nil Z) in He.
  destruct (build_decode n _ Ht Ho Hcol He) as (dag' & Hbuild' & _ & Hrows). rewrite Hbuild in Hbuild'. injection Hbuild' as <-.
  destruct (Hrows _ Hbodies) as (root & dirs & Hdec & Hden). unfold get_path, manifest_with_dag, decode_dag_for. rewrite Hroot.
  assert (Hgo : forall m, m = manifest -> stream_path lru_at fetch_at true info m root dirs = inl (stream_task lru_at fetch_at info manifest root dirs))
    by (intros m ->; by destruct manifest).
  destruct kind as [blob|list].
  - rewrite Hkind. cbn [fst snd]. rewrite Hdec. cbn [fst snd]. rewrite (Hgo (Inline blob)) by done. by eapply stream_task_serves.
  - destruct Hkind as [-> ->], Hm as (es & -> & ->). cbn [fst snd]. rewrite Hdec. cbn [fst snd]. rewrite (Hgo (Chunked es)) by done. by eapply stream_task_serves.
Qed.

(** ** The contents that an ingest extracts *)

Lemma fill_length atoms cs out : fill atoms cs = Some out -> len (concat cs) <= len out.
Proof.
  revert cs out. induction atoms as [|[b|[d size]] atoms IH]; intros cs out; cbn [fill].
  - destruct cs; [|done]. by intros [= <-].
  - destruct (fill atoms cs) as [o|] eqn:Hf; [|done]. intros [= <-]. apply IH in Hf. unfold len in *. cbn [length]. lia.
  - destruct cs as [|c cs]; [done|]. destruct (_ =? _); [|done]. destruct (fill atoms cs) as [o|] eqn:Hf; [|done]. intros [= <-]. apply IH in Hf.
    cbn [concat]. rewrite !len_app. lia.
Qed.

Lemma contents_length n : len (concat (contents n)) <= len (serialize n).
Proof.
  pose proof (fill_tree n [] []) as Hf. rewrite !app_nil_r in Hf. cbn [fill fmap option_fmap option_map] in Hf. apply fill_length in Hf.
  rewrite app_nil_r in Hf. unfold serialize. rewrite len_app. unfold len in *. lia.
Qed.

Lemma len_nil_iff (b : bytes) : (0 <? len b) = negb (bool_decide (b = [])).
Proof. destruct b; [done|]. unfold len. cbn [length]. destruct (Z.ltb_spec 0 (Z.of_nat (S (length b)))); [done|lia]. Qed.

(** A function of each file's content range, over the entries of the index. *)
Lemma index_contents {B} (f : bytes -> list B) (Hnil : f [] = []) levels n path pre post :
  ls_wf levels n ->
  flat_map (fun e => if ParsedNar.has_content e then f (ParsedNar.content (pre ++ serialize_node n ++ post) e) else []) (index_node n path (len pre)) =
  flat_map f (contents n).
Proof.
  revert n path pre post. induction levels as [|levels IH]; intros n path pre post Hw; [done|]. rewrite ls_wf_S in Hw. destruct n as [x c|es|t].
  - cbn [index_node flat_map contents]. unfold ParsedNar.has_content, ParsedNar.is_regular. cbn [le_kind le_size andb]. rewrite !app_nil_r, len_nil_iff.
    assert (Hs : pre ++ serialize_node (Regular x c) ++ post = (pre ++ content_header x c) ++ c ++ zero_pad (len c) ++ write_str ")" ++ post).
    { rewrite serialize_unfold, node_body_regular, content_header_eq. by rewrite <- !app_assoc. }
    unfold ParsedNar.content. cbn [le_nar_offset le_size]. rewrite Hs, <- len_app, slice_end. case_bool_decide as E; [subst c; by rewrite Hnil|done].
  - rewrite index_directory. cbn [flat_map contents]. unfold ParsedNar.has_content at 1, ParsedNar.is_regular at 1. cbn [le_kind andb app].
    destruct Hw as (_ & _ & Hf). rewrite serialize_unfold. cbn [node_body].
    replace (pre ++ (write_str "(" ++ write_str "type" ++ write_str "directory" ++ flat_map entry_bytes es ++ write_str ")") ++ post)
      with ((pre ++ dir_header) ++ flat_map entry_bytes es ++ write_str ")" ++ post)
      by (unfold dir_header; by rewrite <- !app_assoc).
    rewrite <- len_app. generalize (pre ++ dir_header) (write_str ")" ++ post). clear pre post.
    induction Hf as [|[name node] es [Hn Hnode] _ IHes]; intros pre post; cbn [index_entries fst snd flat_map] in *; [done|].
    rewrite <- app_assoc, !flat_map_app, <- !len_app. f_equal.
    + replace (pre ++ entry_bytes (name, node) ++ flat_map entry_bytes es ++ post)
        with ((pre ++ entry_header name) ++ serialize_node node ++ write_str ")" ++ flat_map entry_bytes es ++ post).
      * by apply IH.
      * unfold entry_bytes, entry_header, entry_body. cbn [fst snd]. by rewrite <- !app_assoc.
    + rewrite app_assoc. apply IHes.
  - done.
Qed.

(** The same from the start of the archive. *)
Lemma archive_contents {B} (f : bytes -> list B) n :
  f [] = [] -> ls_wf nar_levels n ->
  flat_map (fun e => if ParsedNar.has_content e then f (ParsedNar.content (serialize n) e) else []) (index_node n [] root_offset) = flat_map f (contents n).
Proof.
  intros Hnil Hw. pose proof (index_contents f Hnil nar_levels n [] (write_bytes NAR_MAGIC) [] Hw) as E. rewrite app_nil_r in E. exact E.
Qed.

Lemma parse_inl nar p :
  bytes_ok nar -> ParsedNar.parse nar = inl p ->
  exists n, nar = serialize n /\ ls_wf nar_levels n /\ tree_fits MAX_NAR_ENTRIES (skel n) /\
    ParsedNar.entries p = index_node n [] root_offset /\ build (index_node n [] root_offset) = Some (ParsedNar.dag p).
Proof.
  intros Hok. unfold ParsedNar.parse. destruct (nar_ls_reader nar) as [[es r]|] eqn:Hr; [|done].
  apply nar_ls_reader_inl in Hr as (n & Hw & [Ha Hpos] & -> & Hb); [|done]. cbn [rest pos] in Ha, Hpos.
  destruct (Z.eqb_spec (pos r) (len nar)) as [E|]; cbn [negb]; [|done]. destruct (build _) as [dag|] eqn:Hbuild; [|done]. intros [= <-].
  assert (Hrest : rest r = []).
  { rewrite Ha, len_app in E. unfold len in E. destruct (rest r); [done|]. cbn [length] in E. lia. }
  rewrite Hrest, app_nil_r in Ha. exists n. split_and!; [done|done|by apply (within_bounds_fits n root_offset)|done|done].
Qed.
End Served.

(** ** The chunks of an ingest *)

Section Chunks.
Context `{H : Blake3} `{!Blake3Laws H} `{!Blake3Width H} `{F : FastCDC} `{!FastCDCLaws F}.

(** The chunks of a file. *)
Definition pieces_of (c : bytes) : list bytes := match c with [] => [] | _ => cut c end.

Lemma chunk_nar_pieces c : chunk_nar c = List.map (fun d => mkChunk (digest d) d) (pieces_of c).
Proof. by destruct c. Qed.

Lemma pieces_of_concat c : concat (pieces_of c) = c.
Proof. destruct c; [done|]. apply cut_concat. Qed.

Lemma pieces_of_sizes c : Forall (fun b => 0 < len b <= CHUNK_MAX) (pieces_of c).
Proof. destruct c; [constructor|]. apply cut_sizes. Qed.

Lemma chunk_files_pieces p n :
  ls_wf nar_levels n -> ParsedNar.entries p = index_node n [] root_offset ->
  chunk_files p (serialize n) = List.map (fun d => mkChunk (digest d) d) (flat_map pieces_of (contents n)).
Proof.
  intros Hw He. unfold chunk_files. rewrite He, (archive_contents chunk_nar n eq_refl Hw).
  induction (contents n) as [|c cs IH]; cbn [flat_map]; [done|]. by rewrite map_app, <- IH, chunk_nar_pieces.
Qed.

Lemma flat_map_concat {A B} (f : A -> list B) l : flat_map f l = concat (List.map f l).
Proof. apply flat_map_concat_map. Qed.

Lemma pieces_sizes cs : Forall (fun b => 0 < len b <= CHUNK_MAX) (flat_map pieces_of cs).
Proof. induction cs as [|c cs IH]; cbn [flat_map]; [constructor|]. apply Forall_app. split; [apply pieces_of_sizes|done]. Qed.

(** The chunk list that is persisted is the one that is read back. *)
Lemma manifest_read_back bs :
  Forall (fun b => 0 < len b <= CHUNK_MAX) bs -> Z.of_nat (length bs) <= Manifest.MAX_CHUNKS ->
  decode_chunk_list (Manifest.serialize (manifest_of (List.map (fun d => mkChunk (digest d) d) bs))) = inl (List.map (fun b => (digest b, len b)) bs).
Proof.
  intros Hs Hn. unfold decode_chunk_list. rewrite Manifest.deserialize_serialize.
  - f_equal. unfold manifest_of. by rewrite !List.map_map.
  - unfold manifest_of. rewrite List.map_map. apply Forall_map. eapply Forall_impl; [exact Hs|]. intros b Hb. cbn [ck_hash ck_data].
    split; cbn [me_hash me_size]; [apply digest_length|]. unfold CHUNK_MAX, FASTCDC_MAX_BYTES in Hb. lia.
  - unfold manifest_of. by rewrite !length_map.
Qed.

Definition stored (m : gmap bytes bytes) (h : bytes) : Prop := exists b, m !! h = Some b /\ digest b = h.

Definition tagged (cs : list Chunk) : Prop := Forall (fun c => ck_hash c = digest (ck_data c)) cs.

(** Writing chunks under their digests stores each of them and spoils nothing. *)
Lemma writes_stored cs m h :
  tagged cs -> stored m h \/ h ∈ List.map ck_hash cs -> stored (fold_left (fun m c => <[ck_hash c := ck_data c]> m) cs m) h.
Proof.
  intros Ht. revert m. induction Ht as [|c cs Hc _ IH]; intros m Hs; cbn [fold_left List.map] in *; [by destruct Hs as [|?%elem_of_nil]|].
  apply IH. destruct Hs as [(b & Hb & Hd)|[->|Hin]%elem_of_cons]; [left|left|by right].
  - destruct (decide (ck_hash c = h)) as [<-|Hne]; [|exists b; by rewrite lookup_insert_ne]. exists (ck_data c). by rewrite lookup_insert_eq.
  - exists (ck_data c). by rewrite lookup_insert_eq.
Qed.

Lemma first_chunks_tagged keep seen cs : tagged cs -> tagged (first_chunks keep seen cs).
Proof.
  intros Ht. revert seen. induction Ht as [|c cs Hc _ IH]; intros seen; cbn [first_chunks]; [constructor|].
  destruct (_ && _); [constructor; [done|apply IH]|apply IH].
Qed.

Lemma first_chunks_In keep seen cs h :
  h ∈ List.map ck_hash cs -> keep h = true -> h ∉ seen -> h ∈ List.map ck_hash (first_chunks keep seen cs).
Proof.
  revert seen. induction cs as [|c cs IH]; intros seen; cbn [first_chunks List.map]; [by intros ?%elem_of_nil|]. intros Hin Hk Hs.
  destruct (decide (ck_hash c = h)) as [<-|Hne].
  - rewrite Hk, bool_decide_eq_false_2 by done. left.
  - apply elem_of_cons in Hin as [->|Hin]; [done|]. destruct (_ && _); [right|]; (apply IH; [done|done|set_solver]).
Qed.

(** The database marks a chunk as present only when it is. *)
Definition dedup_sound (store : gmap bytes bytes) (chunks : list Chunk) (needs : gset bytes) : Prop :=
  forall c, c ∈ chunks -> ck_hash c ∉ needs -> stored store (ck_hash c).

Lemma do_upload_stored put_ok store chunks needs store' k :
  tagged chunks -> dedup_sound store chunks needs -> do_upload put_ok store chunks needs = Some (store', k) ->
  forall c, c ∈ chunks -> stored store' (ck_hash c).
Proof.
  intros Ht Hd. unfold do_upload. destruct (forallb _ _); [|done]. intros [= <- _] c Hc. apply writes_stored; [by apply first_chunks_tagged|].
  destruct (decide (ck_hash c ∈ needs)) as [Hn|Hn]; [right|left; by apply Hd].
  apply first_chunks_In; [|by apply bool_decide_eq_true_2|set_solver]. rewrite list_elem_of_In. apply in_map. by rewrite <- list_elem_of_In.
Qed.
End Chunks.

(** The cache holds no corrupted entry, and the backend is [store]. *)
Definition reads_store `{Blake3} (lru_at : nat -> gmap bytes bytes) (fetch_at : nat -> bytes -> option bytes) (store : gmap bytes bytes) : Prop :=
  (forall n h b, lru_at n !! h = Some b -> digest b = h) /\ forall n h, fetch_at n h = store !! h.

Lemma reads_store_live `{H : Blake3} lru_at fetch_at store entries :
  reads_store lru_at fetch_at store -> (forall h z, (h, z) ∈ entries -> stored store h) -> fetched_all lru_at fetch_at entries.
Proof.
  intros [Hl Hf] Hs n h z Hin. destruct (Hs h z Hin) as (b & Hb & Hd). unfold chunk_at, ChunkCache.get_verified, ChunkCache.verify, bytes_eqb.
  destruct (lru_at n !! h) as [c|] eqn:Hc.
  - apply Hl in Hc. rewrite bool_decide_eq_true_2 by done. by exists c.
  - rewrite Hf, Hb, bool_decide_eq_true_2 by done. by exists b.
Qed.

(** ** The theorems *)

(** C13: integrity on read.  Whatever the database row, the cache and the object
    store contain, a [GetPath] stream is the path's info followed either by
    non-empty messages of at most 256 KiB whose bytes have exactly the SHA-256
    and the size that the info claims, or by some messages and a final
    [DATA_LOSS] status: bytes that do not match never end without an error. *)
Theorem get_path_integrity `{H : Blake3} `{P : Prost} {C : NixCrypto} lru_at fetch_at has_cache info row items :
  get_path lru_at fetch_at has_cache info row = inl items ->
  exists data, items = inl (RInfo info) :: data /\
    ((all_data data /\ sha256 (payload data) = info_nar_hash info /\ len (payload data) = info_nar_size info) \/ broken data).
Proof.
  unfold get_path. destruct (manifest_with_dag row) as [md|]; [|done]. destruct (decode_dag_for (snd md)) as [[root dirs]|]; [|done]. cbn [fst snd].
  assert (Ht : forall m, exists data, stream_task lru_at fetch_at info m root dirs = inl (RInfo info) :: data /\
    ((all_data data /\ sha256 (payload data) = info_nar_hash info /\ len (payload data) = info_nar_size info) \/ broken data)).
  { intros m. eexists. split; [reflexivity|]. pose proof (serve_pieces_counted lru_at fetch_at (pieces (nar_pieces dirs MAX_WALK_NODES root)) (source_of m) (mkSums [] 0)) as Hc.
    destruct (serve_pieces _ _ _ _ _) as [its [s|]]; unfold counted in Hc; cbn [fst snd] in Hc; [|by right]. destruct Hc as [Hd Hs]. unfold id in Hs. subst s.
    cbn [feed fed total_bytes app]. unfold bytes_eqb. rewrite Z.add_0_l.
    case_bool_decide as E1; cbn [negb orb]; [destruct (Z.eqb_spec (len (payload its)) (info_nar_size info)) as [E2|E2]; cbn [negb]|].
    - left. by rewrite app_nil_r.
    - right. by exists its.
    - right. by exists its. }
  unfold stream_path. destruct (fst md) as [blob|es]; [|destruct has_cache; [|done]]; intros [= <-]; apply Ht.
Qed.

Section Ingested.
Context `{H : Blake3} `{P : Prost} `{F : FastCDC} `{!Blake3Laws H} `{!Blake3Width H} `{!ProstLaws P} `{!FastCDCLaws F} {C : NixCrypto}.

(** C5: what is ingested is served.  When [persist_nar] accepts a byte string,
    inline or chunked, the row that its transaction leaves makes [GetPath] send
    exactly that byte string and no error: whichever chunks the database
    already had, in whatever order it returns the directory bodies, and
    whichever chunks are cached, provided that the path info has the hash and the
    size of the byte string, that its length is below [2^64], that no two of the
    archive's directories and no chunk collide under BLAKE3, that a chunk is
    marked as present only when it is, that the backend still has what was
    stored, and that every cached entry has the digest of its key (a hit that does
    not makes the read end in [DATA_LOSS]). *)
Theorem ingest_served put_ok needs_upload backend nar p kind row info lru_at fetch_at store :
  bytes_ok nar -> len nar < 2 ^ 64 ->
  persist_nar put_ok needs_upload backend nar = inl (p, kind) ->
  (forall n, nar = serialize n -> no_collision n) ->
  (forall c b, c ∈ chunk_files p nar -> digest b = ck_hash c -> b = ck_data c) ->
  (forall store, backend = Some store -> dedup_sound store (chunk_files p nar) (needs_upload (chunk_rows (chunk_files p nar)))) ->
  row_holds row (match kind with inl blob => inl blob | inr (list, _) => inr list end) (ParsedNar.dag p) ->
  (match kind with inl _ => True | inr (_, store') => store = store' end) -> reads_store lru_at fetch_at store ->
  info_nar_hash info = sha256 nar -> info_nar_size info = len nar ->
  exists data, get_path lru_at fetch_at true info row = inl (inl (RInfo info) :: data) /\ all_data data /\ payload data = nar.
Proof.
  intros Hok Hlen Hp Hcol Hck Hdd Hrow Hst Hread Hh Hz. unfold persist_nar in Hp. destruct (ParsedNar.parse nar) as [p'|] eqn:Hparse; [|done].
  destruct (parse_inl nar p' Hok Hparse) as (n & -> & Hw & Hfit & He & Hbuild).
  assert (Hfin : forall known manifest, (forall a b, a ∈ known -> digest b = digest a -> b = a) -> source_has known (source_of manifest) (contents n) ->
    match (match kind with inl blob => inl blob | inr (list, _) => inr list end) with
      inl blob => manifest = Inline blob | inr list => exists es, decode_chunk_list list = inl es /\ manifest = Chunked es end ->
    p = p' -> source_live lru_at fetch_at (source_of manifest) ->
    exists data, get_path lru_at fetch_at true info row = inl (inl (RInfo info) :: data) /\ all_data data /\ payload data = serialize n).
  { intros known manifest Hk Hsrc Hm -> Hlive.
    destruct (get_path_serves lru_at fetch_at known info row _ _ manifest n Hk Hw Hfit (Hcol n eq_refl) Hbuild Hrow Hm Hsrc) as (data & -> & [Hg|(_ & _ & Hn)]).
    - exists data. by destruct Hg as (? & ? & _).
    - by destruct Hn. }
  destruct (should_chunk backend (len (serialize n))) as [st|] eqn:Hsc.
  - destruct (stage_chunked put_ok needs_upload st p' (serialize n)) as [[list st']|] eqn:Hstage; [|done]. injection Hp as <- <-. subst store.
    unfold stage_chunked in Hstage. pose proof (chunk_files_pieces p' n Hw He) as Hcf. set (bs := flat_map pieces_of (contents n)) in *.
    destruct (Z.ltb_spec Manifest.MAX_CHUNKS (Z.of_nat (length (chunk_files p' (serialize n))))) as [|Hcnt]; [done|].
    destruct (do_upload _ _ _ _) as [[st'' k]|] eqn:Hup; [|done]. injection Hstage as <- <-.
    assert (Hb : backend = Some st) by (unfold should_chunk in Hsc; destruct backend; [|done]; by destruct (_ <=? _)).
    assert (Htag : tagged (chunk_files p' (serialize n))) by (rewrite Hcf; apply Forall_map, Forall_forall; done).
    pose proof (do_upload_stored _ _ _ _ _ _ Htag (Hdd st Hb) Hup) as Hin_store.
    rewrite Hcf, length_map in Hcnt.
    apply (Hfin bs (Chunked (List.map (fun b => (digest b, len b)) bs))); [| | |done|].
    + intros a b Ha Hab. apply (Hck (mkChunk (digest a) a) b); [|done]. rewrite Hcf. apply list_elem_of_In, in_map_iff. exists a. by rewrite <- list_elem_of_In.
    + exists (List.map pieces_of (contents n)). rewrite <- flat_map_concat. fold bs. split; [|split; [|split; [|done]]].
      * rewrite List.map_map. rewrite <- (List.map_id (contents n)) at 2. apply List.map_ext. apply pieces_of_concat.
      * apply Forall2_fmap_l, Forall_Forall2_diag, Forall_forall. done.
      * eapply Forall_impl; [apply pieces_sizes|]. cbn. lia.
    + eexists. split; [|done]. rewrite Hcf. apply manifest_read_back; [apply pieces_sizes|done].
    + apply (reads_store_live _ _ st''); [done|]. intros h z Hin. apply list_elem_of_In, in_map_iff in Hin as (b & [= <- <-] & Hb').
      apply (Hin_store (mkChunk (digest b) b)). rewrite Hcf. apply list_elem_of_In, in_map_iff. by exists b.
  - injection Hp as <- <-. apply (Hfin [] (Inline (ParsedNar.blob_stream p' (serialize n)))); [by intros a b ?%elem_of_nil| |done|done|done].
    unfold ParsedNar.blob_stream. rewrite He, (archive_contents (fun b => b) n eq_refl Hw). cbn [source_of source_has].
    assert (Hcc : flat_map (fun b => b) (contents n) = concat (contents n)) by (by rewrite flat_map_concat, List.map_id). rewrite Hcc.
    split; [|by exists []]. pose proof (contents_length n). lia.
Qed.
End Ingested.
