(* ===== verification/StoreServe.v ===== *)
(** * Store: a chunked upload is served

    The Directory bodies of a validated upload are the canonical messages of the
    archive that they denote, so its index needs no assumption about collisions
    between directories; and what [GetPath] sends for a committed output is the
    archive that was uploaded. *)

From stdpp Require Import sorting.
From S2P Require Import AuthToken.
From S2P Require Import Prelude NixBytes NixStorePath NixNar NixNarLs NixWire StoreManifest StoreCastore.
From S2P Require Import StoreWalk StoreNar StoreValid StoreBuild StoreRoundTrip StorePut StorePutSound StoreVerify.
From S2P Require Import StoreVerifySound StoreUpload StoreGet StoreGetSound.
Import castore.

#[local] Open Scope Z_scope.

(** ** A body from its children *)

Definition as_dir (c : Child) : option DirectoryEntry := match c with CDir e => Some e | _ => None end.
Definition as_file (c : Child) : option FileEntry := match c with CFile e => Some e | _ => None end.
Definition as_symlink (c : Child) : option SymlinkEntry := match c with CSymlink e => Some e | _ => None end.

Definition split_children (cs : list Child) : castore.Directory := mkDirectory (omap as_dir cs) (omap as_file cs) (omap as_symlink cs).

Lemma sorted_map {A} (nm : A -> bytes) l :
  strictly_sorted (List.map nm l) -> StronglySorted (fun a b => bytes_ltb (nm a) (nm b) = true) l.
Proof.
  unfold strictly_sorted. induction l as [|a l IH]; cbn [List.map]; [constructor|]. intros [Hs Ha]%StronglySorted_inv. constructor; [by apply IH|].
  apply Forall_map in Ha. exact Ha.
Qed.

Lemma omap_sorted {A} (f : Child -> option A) (nm : A -> bytes) cs :
  (forall c a, f c = Some a -> child_name c = nm a) ->
  strictly_sorted (List.map child_name cs) -> StronglySorted (fun a b => bytes_ltb (nm a) (nm b) = true) (omap f cs).
Proof.
  intros Hn Hs%sorted_map. induction Hs as [|c cs Hs IH Hc]; cbn [omap list_omap]; [constructor|]. destruct (f c) as [a|] eqn:Hf; [|done].
  constructor; [done|]. apply Forall_forall. intros b (c' & Hc' & Hfb)%list_elem_of_omap. rewrite Forall_forall in Hc. specialize (Hc c' Hc').
  by rewrite (Hn _ _ Hf), (Hn _ _ Hfb) in Hc.
Qed.

(** The entries of one kind, in name order, are those of the body. *)
Lemma merged_omap {A} (f : Child -> option A) (nm : A -> bytes) d l :
  (forall c a, f c = Some a -> child_name c = nm a) -> NoDup (dir_names d ++ file_names d ++ symlink_names d) ->
  omap f (List.map CDir (directories d) ++ List.map CFile (files d) ++ List.map CSymlink (symlinks d)) = l -> strictly_sorted (List.map nm l) ->
  omap f (merged_children d) = l.
Proof.
  intros Hn Hu Hl Hs. apply (StronglySorted_unique_strong (fun a b => bytes_ltb (nm a) (nm b) = true)).
  - intros a b _ _ H1 H2. pose proof (bytes_ltb_trans _ _ _ H1 H2) as Hi. by rewrite bytes_ltb_irrefl in Hi.
  - apply (omap_sorted f nm _ Hn). by destruct (proj1 (names_after_sorted _ _) (merged_names_after d Hu)).
  - by apply sorted_map.
  - rewrite <- Hl. apply omap_Permutation, merged_permutation.
Qed.

Lemma omap_kinds {A} (f : Child -> option A) d :
  omap f (List.map CDir (directories d) ++ List.map CFile (files d) ++ List.map CSymlink (symlinks d)) =
  omap (f ∘ CDir) (directories d) ++ omap (f ∘ CFile) (files d) ++ omap (f ∘ CSymlink) (symlinks d).
Proof.
  rewrite !omap_app. assert (Hm : forall (B : Type) (g : B -> Child) l, omap f (List.map g l) = omap (f ∘ g) l).
  { intros B g l. induction l as [|b l IH]; cbn; [done|]. by rewrite IH. }
  by rewrite !Hm.
Qed.

Lemma omap_some {A} (l : list A) : omap (fun a => Some a) l = l.
Proof. induction l as [|a l IH]; cbn; [done|]. by f_equal. Qed.

Lemma omap_none {A B} (l : list A) : omap (fun _ => @None B) l = [].
Proof. by induction l. Qed.

(** A valid body is determined by its children in name order. *)
Lemma split_merged d : directory_valid d -> split_children (merged_children d) = d.
Proof.
  intros Hv. destruct (dv_sorted _ Hv) as (H1 & H2 & H3). pose proof (dv_unique _ Hv) as Hu. unfold split_children.
  rewrite (merged_omap as_dir d_name d (directories d)), (merged_omap as_file f_name d (files d)), (merged_omap as_symlink s_name d (symlinks d));
    try done; try (by intros [e|e|e] a [= <-]); try (rewrite omap_kinds; unfold compose; cbn [as_dir as_file as_symlink];
      rewrite ?omap_some, ?omap_none, ?app_nil_r; done). by destruct d.
Qed.

Section Canonical.
Context `{H : Blake3} `{P : Prost}.

Lemma split_message es : split_children (List.map entry_child es) = message es.
Proof.
  induction es as [|e es IH]; [done|]. unfold message. cbn [fold_right]. fold (message es). rewrite <- IH. unfold split_children, entry_child.
  cbn [List.map omap list_omap]. by destruct (snd e).
Qed.

Lemma skel_nodes n : nodes (skel n) = 1 + node_size n.
Proof.
  induction n as [x c|t|es IH] using NarNode_ind'; [done|done|]. cbn [skel nodes node_size]. f_equal.
  induction IH as [|e es He _ IHes]; cbn [List.map fold_right snd]; [done|]. rewrite He. by f_equal.
Qed.

Context (dirs : gmap bytes castore.Directory).
Hypothesis Hvalid : bodies_valid dirs.
Hypothesis Hkeys : forall k d, dirs !! k = Some d -> k = directory_digest d.
Hypothesis Hsizes : forall t k body e, dirs !! k = Some body -> e ∈ directories body -> denotes dirs (CDir e) t -> nodes t = 1 + d_size e.

(** The child says what the canonical entry of [n] says, the size of a directory apart. *)
Definition agrees (c : Child) (n : NarNode) : Prop :=
  match c, n with
  | CDir e, NixNar.Directory _ => d_digest e = node_digest n
  | CFile e, Regular x b => f_digest e = digest b /\ f_size e = len b /\ f_executable e = x
  | CSymlink e, NixNar.Symlink t => s_target e = t
  | _, _ => False
  end.

Lemma agrees_entry_child c n :
  agrees c n -> (forall e, c = CDir e -> d_size e = node_size n) -> c = entry_child (child_name c, n).
Proof.
  destruct c as [[nm dg sz]|[nm dg sz x]|[nm tg]], n as [x' b|es|t]; cbn [agrees]; try done; unfold entry_child; cbn [fst snd child_name d_name f_name s_name d_digest f_digest f_size f_executable s_target].
  - intros -> Hs. pose proof (Hs _ eq_refl) as E. cbn [d_size] in E. by rewrite E.
  - intros (-> & -> & ->) _. done.
  - intros -> _. done.
Qed.

(** A denoted directory is the canonical message of its entries, all the way down. *)
Lemma denotes_canonical n : forall c, denotes dirs c (skel n) -> agrees c n /\ forall cs, holds_bodies dirs n cs.
Proof.
  induction n as [x b|t|es IH] using NarNode_ind'; intros c Hd.
  - destruct c as [e|e|e]; try done. destruct Hd as (_ & Hd1 & Hd2 & Hd3). split; [by split_and!|]. intros cs p es Hin. cbn in Hin. by apply list_elem_of_singleton in Hin.
  - destruct c as [e|e|e]; try done. split; [done|]. intros cs p es Hin. cbn in Hin. by apply list_elem_of_singleton in Hin.
  - destruct c as [e|e|e]; try done. cbn [skel] in Hd. apply denotes_dir in Hd as (_ & dir & Hdir & H2). destruct (Hvalid _ _ Hdir) as [_ Hv%validate_directory_None].
    assert (Hkids : Forall2 (fun c e => c = entry_child e /\ forall cs, holds_bodies dirs (snd e) cs) (merged_children dir) es).
    { assert (Hsub : forall e', CDir e' ∈ merged_children dir -> e' ∈ directories dir).
      { intros e' Hin. rewrite merged_permutation in Hin. apply elem_of_app in Hin as [Hin|Hin].
        - apply list_elem_of_In, in_map_iff in Hin as (e0 & [= <-] & Hin). by apply list_elem_of_In.
        - apply elem_of_app in Hin as [Hin|Hin]; by apply list_elem_of_In, in_map_iff in Hin as (e0 & ? & _). }
      clear Hv. revert es IH H2. generalize (merged_children dir) as cs, Hsub. intros cs Hsub' es. revert cs Hsub'.
      induction es as [|[nm m] es IHes]; intros cs Hsub' IH H2; cbn [List.map] in H2.
      - apply Forall2_nil_inv_r in H2 as ->. constructor.
      - apply Forall2_cons_inv_r in H2 as (c & cs' & [Hn Hd] & H2 & ->). apply Forall_cons in IH as [IHm IH]. cbn [fst snd] in *.
        destruct (IHm c Hd) as [Ha Hh]. constructor; [|by apply IHes; [intros e' ?; apply Hsub'; right| |]].
        split; [|done]. rewrite Hn. apply agrees_entry_child; [done|]. intros e' ->. pose proof (Hsizes _ _ _ e' Hdir (Hsub' e' ltac:(left)) Hd) as Hnodes.
        rewrite skel_nodes in Hnodes. lia. }
    assert (Hdir' : dir = message es).
    { rewrite <- (split_merged dir Hv), <- split_message. f_equal. clear -Hkids. induction Hkids as [|c e cs es [-> _] _ IH]; [done|]. cbn [List.map]. by f_equal. }
    assert (Hkey : d_digest e = node_digest (NixNar.Directory es)) by (rewrite (Hkeys _ _ Hdir), Hdir'; done).
    split; [exact Hkey|]. intros cs p es' Hin. rewrite subnodes_unfold in Hin. apply elem_of_cons in Hin as [[= _ ->]|Hin].
    + rewrite <- Hkey, Hdir. by rewrite Hdir'.
    + cbn [below_of] in Hin. unfold below in Hin. apply list_elem_of_In, in_flat_map in Hin as (e' & He' & Hin). apply list_elem_of_In in He', Hin.
      apply list_elem_of_lookup_1 in He' as (i & Hi). destruct (Forall2_lookup_r _ _ _ _ _ Hkids Hi) as (c & _ & _ & Hh). by apply (Hh (cs ++ [fst e']) p).
Qed.

(** No two directories of a validated tree collide. *)
Lemma denoted_no_collision root n : root_denotes dirs root (skel n) -> no_collision n.
Proof.
  intros Hr. assert (Hh : holds_bodies dirs n []).
  { unfold root_denotes in Hr. destruct (node root) as [[d|f|s]|]; [| | |done]; destruct (skel n) eqn:Hs; try done; rewrite <- Hs in Hr;
      by apply denotes_canonical in Hr as [_ Hh]. }
  intros c1 es1 c2 es2 H1 H2 E. apply Hh in H1, H2. rewrite E in H1. congruence.
Qed.
End Canonical.

(** ** The committed output *)

Section Served.
Context `{H : Blake3} `{P : Prost} `{!Blake3Laws H} `{!Blake3Width H} `{!ProstLaws P} {C : NixCrypto}.

(** The row of a committed output reads back as its manifest. *)
Lemma build_manifest_read_back cs :
  Forall chunk_ok cs -> Z.of_nat (length cs) <= Manifest.MAX_CHUNKS -> decode_chunk_list (build_manifest cs) = inl cs.
Proof.
  intros Hc Hn. unfold decode_chunk_list, build_manifest. rewrite Manifest.deserialize_serialize.
  - f_equal. rewrite List.map_map. rewrite <- (List.map_id cs) at 2. apply List.map_ext. by intros [].
  - apply Forall_map. eapply Forall_impl; [exact Hc|]. intros c [H1 H2]. split; cbn [me_hash me_size]; [done|]. unfold FASTCDC_MAX_BYTES in H2. lia.
  - by rewrite length_map.
Qed.

(** C4: a chunked upload is served.  Take any output that a validated, received
    and proven upload commits, over a database whose committed rows are honest:
    the digest of every committed window that it returns is the digest of the
    bytes of the window's chunks (the deferred proof takes such a row as evidence;
    its module documents that as a deploy-time assumption on what was committed
    before).  Then the index that the commit derives from the tree of the output
    exists, and with the row that the commit leaves, whatever the cache and the
    object store return later, [GetPath] sends the archive that the tree and
    the uploaded chunks describe: all of it when every chunk can be had and the
    client's claimed hash and size were those of the archive, and otherwise a
    part of it followed by [DATA_LOSS].  No other bytes are ever sent, provided
    that no other byte string has the BLAKE3 digest of an uploaded chunk;
    directories need no such assumption, because validation makes the bodies
    canonical. *)
Theorem upload_served completes stream begin claims vb skipped store max up df s tfw clp get i out :
  begin_typed begin -> validate_begin begin claims = Some (inl vb) ->
  run_verify completes stream vb skipped store max = (inl (Match up df), s) ->
  database_honest tfw clp -> verify_deferred_runs tfw clp get vb df = inl tt ->
  vb_outputs vb !! i = Some out -> is_skipped skipped i = false ->
  exists n bss parsed, output_stored (vb_directories vb) out n bss /\
    build_parsed (vo_root_node out) (vb_directories vb) MAX_NAR_ENTRIES = inl parsed /\
    forall row lru_at fetch_at,
      row_holds row (inr (build_manifest (vo_chunk_manifest out))) (ParsedNar.dag parsed) ->
      (forall a b, a ∈ concat bss -> digest b = digest a -> b = a) ->
      serves (mkPathInfoRow (sp_full (vo_store_path out)) (vo_nar_hash out) (vo_nar_size out)) n
        (fetched_all lru_at fetch_at (vo_chunk_manifest out))
        (get_path lru_at fetch_at true (mkPathInfoRow (sp_full (vo_store_path out)) (vo_nar_hash out) (vo_nar_size out)) row).
Proof.
  intros Ht Hv Hr Hdb Hd Hi Hsk. pose proof Hv as Hbv. apply validate_begin_valid in Hbv; [|done].
  destruct (begin_output _ _ _ _ _ Hbv Hi) as (o & Hsc & _).
  destruct (upload_stored completes stream begin claims vb skipped store max up df s tfw clp get Ht Hv Hr Hdb Hd i out Hi Hsk) as (n & bss & Hst).
  destruct Hst as [Hroot Hfit Hbodies Hpos Hfiles].
  pose proof (root_ls_wf _ _ n (bv_bodies _ _ _ Hbv) (ov_root _ _ _ _ Hsc) Hroot Hfit) as Hw.
  pose proof (denoted_no_collision _ (bv_bodies _ _ _ Hbv) (bv_keys _ _ _ Hbv) (bv_dir_sizes _ _ _ Hbv) _ n Hroot) as Hcol.
  destruct (ls_wf_tidy _ _ Hw) as [Htd Ho]. pose proof (index_entry_of n [] root_offset (Forall_nil_2 _) Htd) as He. change (joinc []) with (@nil Z) in He.
  destruct (build_decode n _ Htd Ho Hcol He) as (dag & Hbuild & _ & _).
  exists n, bss, (ParsedNar.mk (index_node n [] root_offset) dag). split; [done|]. split.
  - unfold build_parsed. rewrite (tree_to_entries_index _ MAX_NAR_ENTRIES _ n ltac:(done) Hroot Hfit (ls_wf_named _ _ Hw)). by rewrite Hbuild.
  - intros row lru_at fetch_at Hrow Hk. destruct (ov_chunks _ _ _ _ Hsc) as (Hch & Hcnt & _). cbn [ParsedNar.dag] in Hrow.
    apply (get_path_serves lru_at fetch_at (concat bss) _ row (inr (build_manifest (vo_chunk_manifest out))) dag (Chunked (vo_chunk_manifest out)) n); try done.
    + eexists. split; [by apply build_manifest_read_back|done].
    + exists bss. split_and!; [done..|]. done.
Qed.
End Served.

(** ** Concrete paths *)

(** One-byte chunks. *)
Definition example_cdc : FastCDC := {| cut b := List.map (fun x => [x]) b |}.

Lemma example_cdc_laws : FastCDCLaws example_cdc.
Proof.
  split; intros b; cbn [cut example_cdc]; [|by apply Forall_map, Forall_forall]. induction b as [|x b IH]; cbn; [done|]. by rewrite IH.
Qed.

Definition store_crypto : NixCrypto := {| sha256 b := [len b]; base64_encode b := b; base64_decode b := Some b |}.

(** A symlink at the root, served inline. *)
Definition symlink_row : PathRow :=
  mkPathRow (Some []) None (Some (@root_encode example_prost (mkRootNode (Some (castore.Symlink (mkSymlinkEntry [] (str "target"))))))) None.

Definition symlink_info : PathInfoRow := mkPathInfoRow [] [len (serialize (NixNar.Symlink (str "target")))] (len (serialize (NixNar.Symlink (str "target")))).

Lemma get_path_integrity_witness :
  exists items data, @get_path example_blake3 example_prost store_crypto (fun _ => ∅) (fun _ _ => None) true symlink_info symlink_row = inl items /\
    items = inl (RInfo symlink_info) :: data /\ payload data = serialize (NixNar.Symlink (str "target")).
Proof.
  assert (Hc : match @get_path example_blake3 example_prost store_crypto (fun _ => ∅) (fun _ _ => None) true symlink_info symlink_row with
    | inl items => payload items | inr _ => [] end = serialize (NixNar.Symlink (str "target"))) by (vm_compute; reflexivity).
  destruct (@get_path example_blake3 example_prost store_crypto (fun _ => ∅) (fun _ _ => None) true symlink_info symlink_row) as [items|] eqn:Hg; [|discriminate Hc].
  destruct (@get_path_integrity example_blake3 example_prost store_crypto (fun _ => ∅) (fun _ _ => None) true symlink_info symlink_row items Hg) as (data & -> & _).
  exists (inl (RInfo symlink_info) :: data), data. split; [reflexivity|]. split; [reflexivity|exact Hc].
Defined.

Lemma example_parse : exists p, @ParsedNar.parse example_blake3 example_prost (serialize example_archive) = inl p.
Proof.
  unfold ParsedNar.parse. rewrite (proj2 (@nar_ls_reader_inl example_blake3 example_blake3_laws (serialize example_archive)
    (@index_node example_blake3 example_archive [] root_offset) (mkReader [] (len (serialize example_archive))) example_archive_bytes_ok)).
  - cbn [pos]. rewrite Z.eqb_refl. cbn [negb]. destruct (ls_wf_tidy _ _ example_archive_wf) as [Ht Ho].
    pose proof (@index_entry_of example_blake3 example_archive [] root_offset (Forall_nil_2 _) Ht) as He. change (joinc []) with (@nil Z) in He.
    destruct (@build_decode example_blake3 example_prost example_prost_laws example_blake3_width example_archive _ Ht Ho (example_no_collision _) He) as (dag & -> & _).
    by eexists.
  - exists example_archive. split; [apply example_archive_wf|]. split; [split; [by rewrite app_nil_r|reflexivity]|]. split; [done|split; by vm_compute].
Qed.

Definition example_info : PathInfoRow := mkPathInfoRow [] [len (serialize example_archive)] (len (serialize example_archive)).

Lemma ingest_served_witness :
  exists row data, @get_path example_blake3 example_prost store_crypto (fun _ => ∅) (fun _ _ => None) true example_info row = inl (inl (RInfo example_info) :: data) /\
    payload data = serialize example_archive.
Proof.
  destruct example_parse as (p & Hp). exists (mkPathRow (Some (ParsedNar.blob_stream p (serialize example_archive))) None (Some (dag_root_node (ParsedNar.dag p)))
    (Some (List.map snd (dag_directories (ParsedNar.dag p))))).
  destruct (@parse_inl example_blake3 example_prost example_blake3_laws _ p example_archive_bytes_ok Hp) as (n & En & Hw & _ & He & _).
  destruct (@ingest_served example_blake3 example_prost example_cdc example_blake3_laws example_blake3_width example_prost_laws example_cdc_laws store_crypto
    (fun _ => true) (fun _ => ∅) None (serialize example_archive) p (inl (ParsedNar.blob_stream p (serialize example_archive)))
    (mkPathRow (Some (ParsedNar.blob_stream p (serialize example_archive))) None (Some (dag_root_node (ParsedNar.dag p)))
      (Some (List.map snd (dag_directories (ParsedNar.dag p))))) example_info (fun _ => ∅) (fun _ _ => None) ∅) as (data & Hg & _ & Hpay).
  - exact example_archive_bytes_ok.
  - vm_compute. reflexivity.
  - unfold persist_nar. rewrite Hp. reflexivity.
  - intros m _. apply example_no_collision.
  - intros c b Hc Hd. rewrite En, (@chunk_files_pieces example_blake3 example_cdc p n Hw He) in Hc.
    apply list_elem_of_In, in_map_iff in Hc as (d & <- & _). by apply example_digest_inj.
  - done.
  - by split.
  - exact I.
  - by split.
  - reflexivity.
  - reflexivity.
  - exists data. split; [exact Hg|exact Hpay].
Defined.

(** A one-file output in two chunks, the first of them deduplicated. *)
Definition hello_digest (b : bytes) : bytes := @digest example_blake3 b.

Definition hello_body (d : bytes) : bytes := if bytes_eqb d (hello_digest (str "lo")) then str "lo" else str "hel".

Definition hello_node : NarNode := Regular false (str "hello").

Definition hello_begin : PutPathChunkedBegin :=
  mkBegin (str "/nix/store/bbbbbbbbbbbbbbbbbbbbbbbbbbbbbbbb-x.drv")
    [mkChunkedOutput (str "/nix/store/aaaaaaaaaaaaaaaaaaaaaaaaaaaaaaaa-out") (repeat 7 32) (len (serialize hello_node)) []
       (Some (mkRootNode (Some (castore.File (mkFileEntry [] (hello_digest (str "hello")) 5 false)))))
       [mkChunkMeta (hello_digest (str "hel")) 3; mkChunkMeta (hello_digest (str "lo")) 2]]
    [] [hello_digest (str "lo")] [].

Definition hello_run (vb : ValidatedBegin) : (Verdict + Code) * VerifyState :=
  @run_verify example_blake3 (fun n => (n, true)) (List.map (fun d => inl (Some (MChunk d (hello_body d)))) (vb_novel vb)) vb [false] ∅ 4.

Definition hello_deferred (vb : ValidatedBegin) (df : list DeferredRun) : unit + Code :=
  @verify_deferred_runs example_blake3 (fun _ => inl []) (fun _ => inl []) (fun _ d => inl (Some (hello_body d))) vb df.

Definition hello_facts (vb : ValidatedBegin) : bool :=
  match vb_outputs vb, hello_run vb with
  | [_], (inl (Match _ [d]), _) => match hello_deferred vb [d] with inl _ => true | inr _ => false end
  | _, _ => false
  end.

Lemma hello_accepted :
  exists vb, @validate_begin example_blake3 example_prost hello_begin upload_claims = Some (inl vb) /\ hello_facts vb = true.
Proof.
  assert (Hc : match @validate_begin example_blake3 example_prost hello_begin upload_claims with Some (inl vb) => hello_facts vb | _ => false end = true)
    by (vm_compute; reflexivity).
  destruct (@validate_begin example_blake3 example_prost hello_begin upload_claims) as [[vb|]|]; [|done..]. by exists vb.
Qed.

Lemma hello_typed : begin_typed hello_begin.
Proof.
  split; [constructor|]. constructor; [|constructor]. split_and!; [by vm_compute| |split; by vm_compute].
  apply (bool_decide_unpack _). vm_compute. reflexivity.
Qed.

Lemma upload_served_witness :
  exists vb out n row, @validate_begin example_blake3 example_prost hello_begin upload_claims = Some (inl vb) /\ vb_outputs vb = [out] /\
    @serves store_crypto (mkPathInfoRow (sp_full (vo_store_path out)) (vo_nar_hash out) (vo_nar_size out)) n
      (@fetched_all example_blake3 (fun _ => ∅) (fun _ d => Some (hello_body d)) (vo_chunk_manifest out))
      (@get_path example_blake3 example_prost store_crypto (fun _ => ∅) (fun _ d => Some (hello_body d)) true
         (mkPathInfoRow (sp_full (vo_store_path out)) (vo_nar_hash out) (vo_nar_size out)) row).
Proof.
  destruct hello_accepted as (vb & Hv & Hf). unfold hello_facts in Hf.
  destruct (vb_outputs vb) as [|out []] eqn:Ho; [discriminate Hf| |discriminate Hf].
  destruct (hello_run vb) as [[[up [|d []]| |]|] s] eqn:Hrun; try discriminate Hf.
  destruct (hello_deferred vb [d]) as [[]|] eqn:Hd; [|discriminate Hf].
  destruct (@upload_served example_blake3 example_prost example_blake3_laws example_blake3_width example_prost_laws store_crypto
    (fun n => (n, true)) (List.map (fun d => inl (Some (MChunk d (hello_body d)))) (vb_novel vb)) hello_begin upload_claims vb [false] ∅ 4 up [d] s
    (fun _ => inl []) (fun _ => inl []) (fun _ d => inl (Some (hello_body d))) 0%nat out
    hello_typed Hv Hrun ltac:(intros ds ps rows lists [= <-] _; constructor) Hd ltac:(by rewrite Ho) eq_refl) as (n & bss & parsed & _ & _ & Hall).
  exists vb, out, n, (mkPathRow None (Some (build_manifest (vo_chunk_manifest out))) (Some (dag_root_node (ParsedNar.dag parsed)))
    (Some (List.map snd (dag_directories (ParsedNar.dag parsed))))).
  split; [exact Hv|]. split; [exact Ho|].
  apply Hall; [split; [split; reflexivity|reflexivity|reflexivity]|]. intros a b _ Hab. exact (example_digest_inj _ _ Hab).
Defined.
