(* ===== verification/BuilderWalk.v ===== *)
(** * Builder: the fused walk of an output

    [src/rio-builder/src/upload/walk.rs]: one pass over an output computes its
    archive hash and size, its references, its directory messages, and the chunk
    manifest with the place of each chunk on disk.  The pass is the dump of
    [NixNarFs] with a sink that hashes and scans, and an observer that chunks and
    builds directories.

    A [PathBuf] is the list of its components.  An [expect] that fails is [None]
    in the methods of the observer and the outcome [Panicked] of its callback,
    which ends the walk with a panic. *)

From stdpp Require Import sorting.
From S2P Require Import Prelude NixBytes NixStorePath NixRefScan NixNar NixNarLs NixNarFs StoreManifest StoreCastore.
From S2P Require Import StoreWalk StoreNar StoreValid StoreBuild StoreRoundTrip StorePut StoreGet StoreGetSound StoreServe.
Import castore.

#[local] Open Scope Z_scope.

(** ** Data *)

Record ChunkRef : Type := mkChunkRef {
  cr_digest : bytes;
  cr_size : Z;
}.

Record ChunkSource : Type := mkChunkSource {
  src_rel_path : list bytes;
  src_offset : Z;
  src_size : Z;
}.

Definition upper_rel_path (s : ChunkSource) (basename : bytes) : list bytes :=
  match src_rel_path s with [] => [basename] | rel => basename :: rel end.

Record WalkedOutput : Type := mkWalkedOutput {
  wk_nar_hash : bytes;
  wk_nar_size : Z;
  wk_references : list bytes;
  wk_root_node : RootNode;
  wk_directories : gmap bytes castore.Directory;
  wk_chunk_manifest : list ChunkRef;
  wk_chunk_sources : gmap bytes ChunkSource;
}.

(** The SHA-256 state is what it was fed. *)
Record TeeSink : Type := mkTeeSink {
  ts_sha : bytes;
  ts_refs : RefScanSink;
}.

#[export] Instance TeeSink_write : Write TeeSink := fun b t => mkTeeSink (ts_sha t ++ b) (fst (NixRefScan.write (ts_refs t) b)).

Record DirFrame : Type := mkDirFrame {
  df_name : bytes;
  df_body : castore.Directory;
  df_descendants : Z;
}.

Inductive ChildEntry : Type :=
| ChildDir (e : DirectoryEntry)
| ChildFile (e : FileEntry)
| ChildSymlink (e : SymlinkEntry).

Definition own_descendants (c : ChildEntry) : Z := match c with ChildDir e => d_size e | _ => 0 end.

(** [HashMap::entry(k).or_insert(v)]. *)
Definition or_insert {A} (k : bytes) (v : A) (m : gmap bytes A) : gmap bytes A :=
  match m !! k with Some _ => m | None => <[k := v]> m end.

Section Observer.
Context `{H : Blake3} `{P : Prost} `{F : FastCDC}.

Record FileState : Type := mkFileState {
  fs_name : bytes;
  fs_executable : bool;
  fs_hasher : hasher;
  fs_written : Z;
  fs_buf : bytes;
  fs_rel_path : list bytes;
}.

(** [dir_stack] has the innermost directory first. *)
Record FusedObserver : Type := mkFusedObserver {
  dir_stack : list DirFrame;
  rel_dir : list bytes;
  obs_directories : gmap bytes castore.Directory;
  obs_manifest : list ChunkRef;
  obs_sources : gmap bytes ChunkSource;
  obs_file : option FileState;
  obs_root : option Node;
}.

Definition observer_new : FusedObserver := mkFusedObserver [] [] ∅ [] ∅ None None.

Definition set_obs_file (f : option FileState) (o : FusedObserver) : FusedObserver :=
  mkFusedObserver (dir_stack o) (rel_dir o) (obs_directories o) (obs_manifest o) (obs_sources o) f (obs_root o).

Definition set_chunks (cs : list ChunkRef * gmap bytes ChunkSource) (o : FusedObserver) : FusedObserver :=
  mkFusedObserver (dir_stack o) (rel_dir o) (obs_directories o) (fst cs) (snd cs) (obs_file o) (obs_root o).

Definition emit_chunk (cs : list ChunkRef * gmap bytes ChunkSource) (rel_path : list bytes) (file_offset : Z) (b : bytes)
    : option (list ChunkRef * gmap bytes ChunkSource) :=
  let dg := digest b in
  let size := len b in
  if u32_max <? size then None
  else Some (fst cs ++ [mkChunkRef dg size], or_insert dg (mkChunkSource rel_path file_offset size) (snd cs)).

(** The chunks of the tail of a file, from [off] on. *)
Fixpoint emit_chunks (cs : list ChunkRef * gmap bytes ChunkSource) (rel_path : list bytes) (off : Z) (chunks : list bytes)
    : option (list ChunkRef * gmap bytes ChunkSource) :=
  match chunks with
  | [] => Some cs
  | c :: chunks =>
      match emit_chunk cs rel_path off c with
      | Some cs => emit_chunks cs rel_path (off + len c) chunks
      | None => None
      end
  end.

(** The loop in the middle of a file: the first chunk of the buffer, while more
    than the maximum is buffered.  Each chunk is at least one byte. *)
Fixpoint drain_loop (fuel : nat) (cs : list ChunkRef * gmap bytes ChunkSource) (rel_path : list bytes) (off : Z) (buf : bytes)
    : option ((list ChunkRef * gmap bytes ChunkSource) * bytes) :=
  match fuel with
  | 0%nat => Some (cs, buf)
  | S fuel =>
      if FASTCDC_MAX_BYTES <? len buf then
        match cut buf with
        | [] => None
        | first :: _ =>
            match emit_chunk cs rel_path off first with
            | Some cs => drain_loop fuel cs rel_path (off + len first) (drop (length first) buf)
            | None => None
            end
        end
      else Some (cs, buf)
  end.

Definition drain_chunks (at_end : bool) (o : FusedObserver) : option FusedObserver :=
  match obs_file o with
  | None => Some o
  | Some f =>
      let base := fs_written f - len (fs_buf f) in
      let set_buf b := Some (mkFileState (fs_name f) (fs_executable f) (fs_hasher f) (fs_written f) b (fs_rel_path f)) in
      let cs := (obs_manifest o, obs_sources o) in
      if at_end then
        match emit_chunks cs (fs_rel_path f) base (cut (fs_buf f)) with
        | Some cs => Some (set_chunks cs (set_obs_file (set_buf []) o))
        | None => None
        end
      else
        match drain_loop (S (length (fs_buf f))) cs (fs_rel_path f) base (fs_buf f) with
        | Some (cs, buf) => Some (set_chunks cs (set_obs_file (set_buf buf) o))
        | None => None
        end
  end.

Definition push_child (c : ChildEntry) (d : castore.Directory) : castore.Directory :=
  match c with
  | ChildDir e => mkDirectory (directories d ++ [e]) (files d) (symlinks d)
  | ChildFile e => mkDirectory (directories d) (files d ++ [e]) (symlinks d)
  | ChildSymlink e => mkDirectory (directories d) (files d) (symlinks d ++ [e])
  end.

Definition attach_to_parent (c : ChildEntry) (o : FusedObserver) : FusedObserver :=
  match dir_stack o with
  | parent :: stack =>
      let parent := mkDirFrame (df_name parent) (push_child c (df_body parent)) (df_descendants parent + (1 + own_descendants c)) in
      mkFusedObserver (parent :: stack) (rel_dir o) (obs_directories o) (obs_manifest o) (obs_sources o) (obs_file o) (obs_root o)
  | [] =>
      let root := match c with
                  | ChildDir e => DirDigest (d_digest e)
                  | ChildFile e => castore.File e
                  | ChildSymlink e => castore.Symlink e
                  end in
      mkFusedObserver [] (rel_dir o) (obs_directories o) (obs_manifest o) (obs_sources o) (obs_file o) (Some root)
  end.

(** [rel_dir] with the component of an entry; the root has none. *)
Definition rel_join (rel : list bytes) (name : bytes) : list bytes := match name with [] => rel | _ => rel ++ [name] end.

Definition fused_enter_dir (name : bytes) (o : FusedObserver) : option FusedObserver :=
  Some (mkFusedObserver (mkDirFrame name (mkDirectory [] [] []) 0 :: dir_stack o) (rel_join (rel_dir o) name) (obs_directories o)
          (obs_manifest o) (obs_sources o) (obs_file o) (obs_root o)).

Definition fused_leave_dir (o : FusedObserver) : option FusedObserver :=
  match dir_stack o with
  | [] => None
  | frame :: stack =>
      let rel := match df_name frame with [] => rel_dir o | _ => removelast (rel_dir o) end in
      let dg := directory_digest (df_body frame) in
      Some (attach_to_parent (ChildDir (mkDirectoryEntry (df_name frame) dg (df_descendants frame)))
              (mkFusedObserver stack rel (or_insert dg (df_body frame) (obs_directories o)) (obs_manifest o) (obs_sources o)
                 (obs_file o) (obs_root o)))
  end.

Definition fused_symlink (name target : bytes) (o : FusedObserver) : option FusedObserver :=
  Some (attach_to_parent (ChildSymlink (mkSymlinkEntry name target)) o).

Definition fused_file_begin (name : bytes) (executable : bool) (_ : Z) (o : FusedObserver) : option FusedObserver :=
  Some (set_obs_file (Some (mkFileState name executable hasher_new 0 [] (rel_join (rel_dir o) name))) o).

Definition fused_file_data (data : bytes) (o : FusedObserver) : option FusedObserver :=
  match obs_file o with
  | None => None
  | Some f =>
      let f := mkFileState (fs_name f) (fs_executable f) (hasher_update (fs_hasher f) data) (fs_written f + len data)
                 (fs_buf f ++ data) (fs_rel_path f) in
      drain_chunks false (set_obs_file (Some f) o)
  end.

Definition fused_file_end (o : FusedObserver) : option FusedObserver :=
  match drain_chunks true o with
  | None => None
  | Some o =>
      match obs_file o with
      | None => None
      | Some f =>
          Some (attach_to_parent (ChildFile (mkFileEntry (fs_name f) (hasher_finalize (fs_hasher f)) (fs_written f) (fs_executable f)))
                  (set_obs_file None o))
      end
  end.

(** A method that ends ends with [Ok]; none returns an [io::Error]. *)
Definition or_panic (r : option FusedObserver) : HookResult FusedObserver :=
  match r with Some o => Done o | None => Panicked end.

#[export] Instance fused_observer : WalkObserver FusedObserver := {|
  enter_dir name o := or_panic (fused_enter_dir name o);
  leave_dir o := or_panic (fused_leave_dir o);
  NixNarFs.symlink name target o := or_panic (fused_symlink name target o);
  file_begin name x size o := or_panic (fused_file_begin name x size o);
  file_data b o := or_panic (fused_file_data b o);
  file_end o := or_panic (fused_file_end o);
|}.

(** [walk_output_blocking] of the output [name] in an opened directory; [None] is
    a panic, of a callback or of the [expect] on the root. *)
Definition walk_output_blocking `{K : Kernel} {C : NixCrypto} (parent : list (bytes * Inode)) (name : bytes) (candidates : CandidateSet)
    : option (WalkedOutput + NarError) :=
  match dump_path_observed parent name (mkTeeSink [] (sink_new (hashes candidates))) observer_new with
  | inr Panic => None
  | inr (Err e) => Some (inr e)
  | inl (nar_size, sink, o) =>
      match obs_root o with
      | None => None
      | Some root =>
          Some (inl (mkWalkedOutput (sha256 (ts_sha sink)) nar_size (resolve candidates (found (ts_refs sink))) (mkRootNode (Some root))
                       (obs_directories o) (obs_manifest o) (obs_sources o)))
      end
  end.
End Observer.

(** ** Incremental chunking *)

(** FastCDC decides a boundary on the slice from the previous one on, and, when
    the slice is longer than the maximum chunk, without looking past it
    ([cut_gear] clamps what remains to the maximum before it scans). *)
Class FastCDCLocal (F : FastCDC) : Prop := {
  cut_rest b c cs : cut b = c :: cs -> cut (drop (length c) b) = cs;
  cut_stable b t c cs : FASTCDC_MAX_BYTES < len b -> cut b = c :: cs -> exists cs', cut (b ++ t) = c :: cs';
}.

Section Chunking.
Context `{H : Blake3} `{F : FastCDC}.

Definition chunk_ref (b : bytes) : ChunkRef := mkChunkRef (digest b) (len b).

Fixpoint file_sources (rel : list bytes) (off : Z) (ps : list bytes) : list (bytes * ChunkSource) :=
  match ps with
  | [] => []
  | c :: ps => (digest c, mkChunkSource rel off (len c)) :: file_sources rel (off + len c) ps
  end.

(** Insertions in order; the first one of a key stays. *)
Definition insert_all {A} (l : list (bytes * A)) (m : gmap bytes A) : gmap bytes A :=
  fold_left (fun m kv => or_insert (fst kv) (snd kv) m) l m.

Lemma insert_all_app {A} (a b : list (bytes * A)) m : insert_all (a ++ b) m = insert_all b (insert_all a m).
Proof. apply fold_left_app. Qed.

Lemma emit_chunks_spec cs rel off ps :
  Forall (fun c => len c <= CHUNK_MAX) ps ->
  emit_chunks cs rel off ps = Some (fst cs ++ List.map chunk_ref ps, insert_all (file_sources rel off ps) (snd cs)).
Proof.
  intros Hp. revert cs off. induction Hp as [|c ps Hc _ IH]; intros cs off; cbn [emit_chunks List.map file_sources].
  { rewrite app_nil_r. by destruct cs. }
  unfold emit_chunk. destruct (Z.ltb_spec u32_max (len c)) as [Hx|_]; [change CHUNK_MAX with 262144 in Hc; unfold u32_max in Hx; lia|].
  rewrite IH. cbn [fst snd]. by rewrite <- app_assoc.
Qed.

Context `{!FastCDCLaws F} `{!FastCDCLocal F}.

Lemma cut_small b : Forall (fun c => len c <= CHUNK_MAX) (cut b).
Proof. eapply Forall_impl; [apply cut_sizes|]. intros c. cbn. lia. Qed.

Lemma cut_nil : cut [] = [].
Proof.
  pose proof (cut_concat []) as Hc. pose proof (cut_sizes []) as Hs. destruct (cut []) as [|c cs]; [done|].
  apply Forall_cons in Hs as [Hs _]. cbn [concat] in Hc. apply app_eq_nil in Hc as [-> _]. unfold len in Hs. cbn in Hs. lia.
Qed.

(** What the loop takes off the buffer are the chunks that a run over any
    extension of the buffer starts with. *)
Lemma drain_loop_spec fuel cs rel off buf :
  (length buf <= fuel)%nat ->
  exists ps buf', buf = concat ps ++ buf' /\ Forall (fun c => len c <= CHUNK_MAX) ps /\ (forall t, cut (buf ++ t) = ps ++ cut (buf' ++ t)) /\
    drain_loop fuel cs rel off buf = Some ((fst cs ++ List.map chunk_ref ps, insert_all (file_sources rel off ps) (snd cs)), buf').
Proof.
  revert cs off buf. induction fuel as [|fuel IH]; intros cs off buf Hf; cbn [drain_loop].
  { exists [], buf. split_and!; [done|constructor|done|]. cbn. rewrite app_nil_r. by destruct cs. }
  destruct (Z.ltb_spec FASTCDC_MAX_BYTES (len buf)) as [Hl|Hl].
  2:{ exists [], buf. split_and!; [done|constructor|done|]. cbn. rewrite app_nil_r. by destruct cs. }
  pose proof (cut_concat buf) as Hc. pose proof (cut_sizes buf) as Hs. destruct (cut buf) as [|c cs'] eqn:Hcut.
  { cbn in Hc. subst buf. unfold len, FASTCDC_MAX_BYTES in Hl. cbn in Hl. lia. }
  apply Forall_cons in Hs as [Hsc _]. cbn [concat] in Hc.
  assert (emit_chunk cs rel off c = Some (fst cs ++ List.map chunk_ref [c], insert_all (file_sources rel off [c]) (snd cs))) as ->.
  { rewrite <- emit_chunks_spec by (constructor; [lia|constructor]). cbn [emit_chunks]. by destruct (emit_chunk cs rel off c). }
  assert (Hd : drop (length c) buf = concat cs') by (rewrite <- Hc; apply drop_app_length). rewrite Hd.
  destruct (IH (fst cs ++ List.map chunk_ref [c], insert_all (file_sources rel off [c]) (snd cs)) (off + len c) (concat cs')) as (ps & buf' & E & Hp & Hrun & ->).
  { rewrite <- Hc, length_app in Hf. unfold len in Hsc. lia. }
  exists (c :: ps), buf'. cbn [concat]. split_and!.
  - by rewrite <- Hc, E, <- app_assoc.
  - constructor; [lia|done].
  - intros t. destruct (cut_stable buf t c cs' Hl Hcut) as [cs2 H2]. rewrite H2. cbn [app]. f_equal. apply cut_rest in H2.
    rewrite <- H2, <- Hc, <- app_assoc, drop_app_length. apply Hrun.
  - cbn [fst snd List.map file_sources]. by rewrite <- app_assoc.
Qed.
End Chunking.

(** ** What the observer computes *)

Section Observed.
Context `{H : Blake3} `{P : Prost} `{F : FastCDC} `{!Blake3Laws H} `{!FastCDCLaws F} `{!FastCDCLocal F}.

Lemma file_sources_app rel off ps qs : file_sources rel off (ps ++ qs) = file_sources rel off ps ++ file_sources rel (off + len (concat ps)) qs.
Proof.
  revert off. induction ps as [|c ps IH]; intros off; cbn [file_sources app concat]; [unfold len; cbn; by rewrite Z.add_0_r|].
  rewrite IH, len_app. by rewrite Z.add_assoc.
Qed.

(** In the middle of a file: [d] was read, of which the chunks [qs] were cut. *)
Record midfile (o : FusedObserver) (name : bytes) (x : bool) (rel : list bytes) (d : bytes) (qs : list bytes) (o' : FusedObserver) : Prop := {
  mid_buf : exists buf, d = concat qs ++ buf /\ (forall t, cut (d ++ t) = qs ++ cut (buf ++ t)) /\ Forall (fun c => len c <= CHUNK_MAX) qs /\
    o' = set_chunks (obs_manifest o ++ List.map chunk_ref qs, insert_all (file_sources rel 0 qs) (obs_sources o))
           (set_obs_file (Some (mkFileState name x (hasher_update hasher_new d) (len d) buf rel)) o);
}.

Lemma midfile_data o name x rel d qs o' b :
  midfile o name x rel d qs o' -> exists o'' qs', fused_file_data b o' = Some o'' /\ midfile o name x rel (d ++ b) qs' o''.
Proof.
  intros [(buf & Hd & Hcut & Hq & ->)]. unfold fused_file_data, drain_chunks.
  cbn [obs_file set_chunks set_obs_file fs_name fs_executable fs_hasher fs_written fs_buf fs_rel_path obs_manifest obs_sources dir_stack rel_dir obs_directories obs_root fst snd].
  edestruct (drain_loop_spec (S (length (buf ++ b))) (obs_manifest o ++ List.map chunk_ref qs, insert_all (file_sources rel 0 qs) (obs_sources o)) rel
    (len d + len b - len (buf ++ b)) (buf ++ b)) as (ps & buf' & E & Hp & Hrun & ->); [lia|].
  eexists _, (qs ++ ps). split; [reflexivity|]. constructor. exists buf'. split_and!.
  - by rewrite Hd, concat_app, <- !app_assoc, E.
  - intros t. rewrite <- app_assoc, Hcut, app_assoc, Hrun, app_assoc. done.
  - by apply Forall_app.
  - unfold set_chunks, set_obs_file. cbn [fst snd obs_file dir_stack rel_dir obs_directories obs_manifest obs_sources obs_root].
    rewrite List.map_app, app_assoc, file_sources_app, insert_all_app, <- update_app, !len_app.
    replace (len d + len b - (len buf + len b)) with (0 + len (concat qs)) by (rewrite Hd, len_app; lia). done.
Qed.

Lemma midfile_end o name x rel d qs o' :
  midfile o name x rel d qs o' ->
  fused_file_end o' = Some (attach_to_parent (ChildFile (mkFileEntry name (digest d) (len d) x))
    (set_chunks (obs_manifest o ++ List.map chunk_ref (cut d), insert_all (file_sources rel 0 (cut d)) (obs_sources o)) (set_obs_file None o))).
Proof.
  intros [(buf & Hd & Hcut & Hq & ->)]. unfold fused_file_end, drain_chunks.
  cbn [obs_file set_chunks set_obs_file fs_name fs_executable fs_hasher fs_written fs_buf fs_rel_path obs_manifest obs_sources dir_stack rel_dir obs_directories obs_root fst snd].
  rewrite emit_chunks_spec by apply cut_small. specialize (Hcut []). rewrite !app_nil_r in Hcut. rewrite Hcut.
  cbn [fst snd obs_file set_chunks set_obs_file fs_name fs_executable fs_hasher fs_written]. unfold digest. f_equal. f_equal.
  unfold set_chunks, set_obs_file. cbn [fst snd dir_stack rel_dir obs_directories obs_manifest obs_sources obs_root].
  rewrite List.map_app, <- app_assoc, file_sources_app, insert_all_app.
  replace (len d - len buf) with (0 + len (concat qs)) by (rewrite Hd, len_app; lia). done.
Qed.

Lemma midfile_begin o name x size : exists o', fused_file_begin name x size o = Some o' /\ midfile o name x (rel_join (rel_dir o) name) [] [] o'.
Proof.
  eexists. split; [reflexivity|]. constructor. exists []. split_and!; [done|done|constructor|]. rewrite update_nil. cbn [List.map file_sources insert_all fold_left].
  unfold set_chunks, set_obs_file. cbn. by rewrite app_nil_r.
Qed.

Definition fused_event (e : Event) (o : FusedObserver) : option FusedObserver :=
  match e with
  | EEnter name => fused_enter_dir name o
  | ELeave => fused_leave_dir o
  | ESymlink name target => fused_symlink name target o
  | EBegin name x size => fused_file_begin name x size o
  | EData b => fused_file_data b o
  | EEnd => fused_file_end o
  end.

Lemma fused_apply e o : apply_event e o = fused_event e o.
Proof.
  assert (Hr : forall r, match or_panic r with Done o => Some o | Failed | Panicked => None end = r) by (by intros []).
  destruct e; apply Hr.
Qed.

Lemma run_file_data o name x rel d qs o' ps :
  midfile o name x rel d qs o' -> exists o'' qs', run_events (List.map EData ps) o' = Some o'' /\ midfile o name x rel (d ++ concat ps) qs' o''.
Proof.
  revert d qs o'. induction ps as [|b ps IH]; intros d qs o' Hm; cbn [List.map run_events concat]; [rewrite app_nil_r; by eexists _, _|].
  destruct (midfile_data _ _ _ _ _ _ _ b Hm) as (o1 & qs1 & E & Hm1). rewrite fused_apply. cbn [fused_event]. rewrite E. destruct (IH _ _ _ Hm1) as (o2 & qs2 & E2 & Hm2).
  exists o2, qs2. split; [done|]. by rewrite app_assoc.
Qed.

(** *** Of a tree *)

Definition child_entry (name : bytes) (n : NarNode) : ChildEntry :=
  match n with
  | Regular x c => ChildFile (mkFileEntry name (digest c) (len c) x)
  | NixNar.Directory _ => ChildDir (mkDirectoryEntry name (node_digest n) (node_size n))
  | NixNar.Symlink t => ChildSymlink (mkSymlinkEntry name t)
  end.

(** The bodies, children first. *)
Fixpoint node_bodies (n : NarNode) : list (bytes * castore.Directory) :=
  match n with
  | NixNar.Directory es => flat_map (fun e => node_bodies (snd e)) es ++ [(node_digest n, message es)]
  | _ => []
  end.

Definition node_refs (n : NarNode) : list ChunkRef := flat_map (fun c => List.map chunk_ref (cut c)) (contents n).

Lemma node_refs_dir es : node_refs (NixNar.Directory es) = flat_map (fun e => node_refs (snd e)) es.
Proof. unfold node_refs. cbn [contents]. induction es as [|e es IH]; cbn [flat_map]; [done|]. by rewrite flat_map_app, IH. Qed.

Lemma node_refs_flat n : node_refs n = List.map chunk_ref (flat_map cut (contents n)).
Proof. unfold node_refs. induction (contents n) as [|c cs IH]; cbn [flat_map]; [done|]. by rewrite IH, List.map_app. Qed.

(** Where the chunks of the node at [rel] are. *)
Fixpoint node_sources (rel : list bytes) (n : NarNode) : list (bytes * ChunkSource) :=
  match n with
  | Regular _ c => file_sources rel 0 (cut c)
  | NixNar.Directory es => flat_map (fun e => node_sources (rel_join rel (fst e)) (snd e)) es
  | NixNar.Symlink _ => []
  end.

(** The state with the bodies, references and sources of nodes added. *)
Definition absorb (bodies : list (bytes * castore.Directory)) (refs : list ChunkRef) (srcs : list (bytes * ChunkSource)) (f : option FileState)
    (o : FusedObserver) : FusedObserver :=
  mkFusedObserver (dir_stack o) (rel_dir o) (insert_all bodies (obs_directories o)) (obs_manifest o ++ refs) (insert_all srcs (obs_sources o)) f (obs_root o).

Definition extend_frame (es : list NarEntry) (o : FusedObserver) : FusedObserver :=
  match dir_stack o with
  | [] => o
  | fr :: stack =>
      mkFusedObserver (mkDirFrame (df_name fr) (dir_app (df_body fr) (message es)) (df_descendants fr + size_of es) :: stack) (rel_dir o)
        (obs_directories o) (obs_manifest o) (obs_sources o) (obs_file o) (obs_root o)
  end.

Lemma push_child_message body name n es :
  dir_app (push_child (child_entry name n) body) (message es) = dir_app body (message ((name, n) :: es)).
Proof. unfold dir_app, push_child. destruct n; cbn [child_entry message fold_right cons_entry fst snd directories files symlinks]; by rewrite <- app_assoc. Qed.

Lemma own_descendants_size name n : own_descendants (child_entry name n) = node_size n.
Proof. by destruct n. Qed.

Lemma observe_trace name n evs :
  trace name n evs -> forall o, exists f,
    run_events evs o = Some (attach_to_parent (child_entry name n)
      (absorb (node_bodies n) (node_refs n) (node_sources (rel_join (rel_dir o) name) n) f o)).
Proof.
  intros Ht. refine (trace_mut
    (fun name n evs _ => forall o, exists f, run_events evs o = Some (attach_to_parent (child_entry name n)
      (absorb (node_bodies n) (node_refs n) (node_sources (rel_join (rel_dir o) name) n) f o)))
    (fun es evs _ => forall o fr stack, dir_stack o = fr :: stack -> exists f, run_events evs o = Some (extend_frame es
      (absorb (flat_map (fun e => node_bodies (snd e)) es) (flat_map (fun e => node_refs (snd e)) es)
        (flat_map (fun e => node_sources (rel_join (rel_dir o) (fst e)) (snd e)) es) f o))) _ _ _ _ _ name n evs Ht); clear name n evs Ht.
  - intros name x ps _ o. destruct (midfile_begin o name x (len (concat ps))) as (o1 & E1 & Hm). destruct (run_file_data _ _ _ _ _ _ _ ps Hm) as (o2 & qs & E2 & Hm2).
    exists None. cbn [run_events]. rewrite fused_apply. cbn [fused_event]. rewrite E1, run_events_app, E2. cbn [run_events]. rewrite fused_apply. cbn [fused_event].
    rewrite (midfile_end _ _ _ _ _ _ _ Hm2).
    cbn [app child_entry node_bodies node_sources]. unfold node_refs. cbn [contents flat_map]. by rewrite app_nil_r.
  - intros name t o. exists (obs_file o). cbn [run_events]. rewrite fused_apply. cbn [fused_event]. unfold fused_symlink. cbn [child_entry node_bodies node_sources].
    unfold absorb, node_refs. cbn [contents flat_map insert_all fold_left]. rewrite app_nil_r. by destruct o.
  - intros name es evs _ IH o. cbn [run_events]. rewrite fused_apply. cbn [fused_event]. unfold fused_enter_dir. set (o1 := mkFusedObserver _ _ _ _ _ _ _).
    destruct (IH o1 _ _ eq_refl) as [f E]. exists f. rewrite run_events_app, E. cbn [run_events]. rewrite fused_apply. cbn [fused_event].
    unfold fused_leave_dir, extend_frame, absorb.
    cbn [dir_stack o1 rel_dir df_name df_body df_descendants obs_directories obs_manifest obs_sources obs_file obs_root].
    assert (match name with [] => rel_join (rel_dir o) name | _ => removelast (rel_join (rel_dir o) name) end = rel_dir o) as ->.
    { destruct name; [done|]. apply removelast_last. }
    assert (dir_app (mkDirectory [] [] []) (message es) = message es) as -> by (by destruct (message es)).
    cbn [child_entry node_bodies node_sources]. rewrite node_refs_dir, insert_all_app. cbn [insert_all fold_left fst snd].
    by rewrite Z.add_0_l.
  - intros o fr stack Hs. exists (obs_file o). cbn [run_events flat_map]. unfold extend_frame, absorb. cbn [dir_stack insert_all fold_left]. rewrite Hs, app_nil_r.
    cbn [message fold_right size_of]. rewrite dir_app_nil_r, Z.add_0_r. destruct o; cbn in *. subst. by destruct fr.
  - intros name n es evs1 evs2 _ IH1 _ IH2 o fr stack Hs. destruct (IH1 o) as [f1 E1]. rewrite run_events_app, E1. unfold attach_to_parent, absorb. cbn [dir_stack]. rewrite Hs.
    match goal with |- context [run_events evs2 ?o1] => destruct (IH2 o1 _ _ eq_refl) as [f2 ->] end. exists f2. f_equal. unfold extend_frame, absorb.
    cbn [dir_stack rel_dir obs_directories obs_manifest obs_sources obs_file obs_root df_name df_body df_descendants flat_map fst snd].
    rewrite push_child_message, own_descendants_size, !insert_all_app, <- app_assoc. cbn [size_of fold_right snd]. do 2 f_equal. f_equal. fold (size_of es). lia.
Qed.

#[export] Instance fused_total : ObserverTotal FusedObserver.
Proof. intros name n evs o Ht. destruct (observe_trace _ _ _ Ht o) as [f ->]. by eexists. Qed.

(** *** No [expect] fails *)

(** The stack holds a frame per entered directory, and a file is open between
    [file_begin] and [file_end]. *)
Definition fused_inv (in_file : bool) (d : nat) (o : FusedObserver) : Prop :=
  (d <= length (dir_stack o))%nat /\ (in_file = true -> is_Some (obs_file o)).

Lemma or_panic_safe r (Q : FusedObserver -> Prop) :
  (exists o, r = Some o /\ Q o) -> match or_panic r with Done o => Q o | Failed => True | Panicked => False end.
Proof. by intros (o & -> & Ho). Qed.

Lemma attach_depth c o : length (dir_stack (attach_to_parent c o)) = length (dir_stack o).
Proof. unfold attach_to_parent. by destruct (dir_stack o). Qed.

(** Cutting, in the middle of a file or at its end, ends for any open file. *)
Lemma drain_chunks_safe at_end o : exists o', drain_chunks at_end o = Some o' /\ dir_stack o' = dir_stack o /\ (is_Some (obs_file o) -> is_Some (obs_file o')).
Proof.
  unfold drain_chunks. destruct (obs_file o) as [f|] eqn:Hf; [|by exists o]. destruct at_end.
  - rewrite emit_chunks_spec by apply cut_small. by eexists.
  - edestruct (drain_loop_spec (S (length (fs_buf f))) (obs_manifest o, obs_sources o) (fs_rel_path f)
      (fs_written f - len (fs_buf f)) (fs_buf f)) as (ps & buf & _ & _ & _ & ->); [lia|]. by eexists.
Qed.

#[export] Instance fused_safe : ObserverSafe FusedObserver fused_inv.
Proof.
  split; intros d.
  - intros name o [Hd _]. apply or_panic_safe. eexists. split; [done|]. split; [cbn; lia|done].
  - intros o [Hd _]. apply or_panic_safe. unfold fused_leave_dir. destruct (dir_stack o) as [|fr stack]; [cbn in Hd; lia|].
    eexists. split; [done|]. split; [|done]. rewrite attach_depth. cbn in *. lia.
  - intros name t o [Hd _]. apply or_panic_safe. eexists. split; [done|]. split; [by rewrite attach_depth|done].
  - intros name x n o [Hd _]. apply or_panic_safe. eexists. split; [done|]. by split.
  - intros b o [Hd Hf]. apply or_panic_safe. unfold fused_file_data. destruct (Hf eq_refl) as [f ->].
    destruct (drain_chunks_safe false (set_obs_file (Some (mkFileState (fs_name f) (fs_executable f) (hasher_update (fs_hasher f) b)
      (fs_written f + len b) (fs_buf f ++ b) (fs_rel_path f))) o)) as (o' & -> & Hs & Ho). exists o'. split; [done|]. split; [by rewrite Hs|by eauto].
  - intros o [Hd Hf]. apply or_panic_safe. unfold fused_file_end. destruct (drain_chunks_safe true o) as (o' & -> & Hs & Ho).
    destruct (Ho (Hf eq_refl)) as [f ->]. eexists. split; [done|]. split; [|done]. rewrite attach_depth. cbn. by rewrite Hs.
Qed.
End Observed.

(** *** What it adds up to *)

Lemma or_insert_lookup {A} k (v : A) m j w : or_insert k v m !! j = Some w -> m !! j = Some w \/ (j = k /\ w = v).
Proof. unfold or_insert. destruct (m !! k) eqn:E; [by left|]. rewrite lookup_insert_Some. naive_solver. Qed.

Lemma or_insert_dom {A} k (v : A) m j : is_Some (or_insert k v m !! j) <-> is_Some (m !! j) \/ j = k.
Proof.
  unfold or_insert. destruct (m !! k) eqn:E; [split; [by left|by intros [?| ->]; eauto]|]. rewrite lookup_insert_is_Some'. naive_solver.
Qed.

Lemma insert_all_lookup {A} (l : list (bytes * A)) m k v : insert_all l m !! k = Some v -> m !! k = Some v \/ (k, v) ∈ l.
Proof.
  revert m. induction l as [|[j w] l IH]; intros m; [by left|]. intros [Hm|Hin]%IH; [|by right; right]. apply or_insert_lookup in Hm as [|[-> ->]]; [by left|right; left].
Qed.

Lemma insert_all_dom {A} (l : list (bytes * A)) m k : is_Some (insert_all l m !! k) <-> is_Some (m !! k) \/ k ∈ List.map fst l.
Proof.
  revert m. induction l as [|[j w] l IH]; intros m; cbn [List.map]; [rewrite elem_of_nil; tauto|].
  change (insert_all ((j, w) :: l) m) with (insert_all l (or_insert j w m)). rewrite IH, or_insert_dom, elem_of_cons. cbn [fst]. tauto.
Qed.

Lemma file_sources_elem `{Blake3} rel off ps d s :
  (d, s) ∈ file_sources rel off ps -> exists pre c post, ps = pre ++ c :: post /\ d = digest c /\ s = mkChunkSource rel (off + len (concat pre)) (len c).
Proof.
  revert off. induction ps as [|c ps IH]; intros off; cbn [file_sources]; [by intros ?%elem_of_nil|]. intros [[= -> ->]|Hin]%elem_of_cons.
  - exists [], c, ps. cbn [concat]. split_and!; [done..|]. unfold len at 2. cbn. by rewrite Z.add_0_r.
  - apply IH in Hin as (pre & c' & post & -> & -> & ->). exists (c :: pre), c', post. cbn [concat]. by rewrite len_app, Z.add_assoc.
Qed.

Lemma file_sources_fst `{Blake3} rel off ps : List.map fst (file_sources rel off ps) = List.map digest ps.
Proof. revert off. induction ps as [|c ps IH]; intros off; cbn [file_sources List.map fst]; [done|]. by rewrite IH. Qed.

Section Totals.
Context `{H : Blake3} `{P : Prost} `{F : FastCDC} `{!FastCDCLaws F}.

Lemma node_sources_fst rel n : List.map fst (node_sources rel n) = List.map cr_digest (node_refs n).
Proof.
  revert rel. induction n as [x c|t|es IH] using NarNode_ind'; intros rel; [|done|].
  - cbn [node_sources]. unfold node_refs. cbn [contents flat_map]. by rewrite app_nil_r, file_sources_fst, List.map_map.
  - rewrite node_refs_dir. cbn [node_sources]. induction IH as [|e es He _ IHs]; cbn [flat_map]; [done|]. by rewrite !List.map_app, He, IHs.
Qed.

(** A source points at its chunk. *)
Lemma node_sources_elem rel n d s :
  tidy n -> (d, s) ∈ node_sources rel n -> exists x c, (src_rel_path s, Regular x c) ∈ subnodes n rel /\
    0 <= src_offset s /\ src_offset s + src_size s <= len c /\ slice c (src_offset s) (src_size s) ∈ cut c /\
    len (slice c (src_offset s) (src_size s)) = src_size s /\ digest (slice c (src_offset s) (src_size s)) = d.
Proof.
  revert rel. induction n as [x c|t|es IH] using NarNode_ind'; intros rel Ht; cbn [node_sources]; [|by intros ?%elem_of_nil|].
  - intros (pre & p & post & Hc & -> & ->)%file_sources_elem. exists x, c. cbn [src_rel_path src_offset src_size]. rewrite Z.add_0_l. split; [left|].
    assert (Hs : slice c (len (concat pre)) (len p) = p) by (rewrite <- (cut_concat c), Hc, concat_app; cbn [concat]; apply slice_app). rewrite Hs.
    assert (Hl : len c = len (concat pre) + (len p + len (concat post))) by (by rewrite <- (cut_concat c), Hc, concat_app, len_app; cbn [concat]; rewrite len_app).
    rewrite Hl, Hc. split_and!; [unfold len; lia|unfold len; lia|apply elem_of_app; right; left|done|done].
  - intros Hin. apply list_elem_of_In, in_flat_map in Hin as (e & He & Hin). apply list_elem_of_In in He, Hin.
    apply tidy_directory in Ht as [_ Hf]. rewrite Forall_forall in IH, Hf. destruct (Hf e He) as [[Hne _] Hte].
    assert (Hj : rel_join rel (fst e) = rel ++ [fst e]) by (by destruct (fst e)). rewrite Hj in Hin.
    destruct (IH e He _ Hte Hin) as (x & c & Hs & Hrest). exists x, c. split; [|done]. right. cbn [below_of].
    apply list_elem_of_In, in_flat_map. exists e. by rewrite <- !list_elem_of_In.
Qed.

End Totals.

Section Bodies.
Context `{H : Blake3} `{P : Prost}.

Lemma node_bodies_elem n cs d b :
  (d, b) ∈ node_bodies n <-> exists c es, (c, NixNar.Directory es) ∈ subnodes n cs /\ d = node_digest (NixNar.Directory es) /\ b = message es.
Proof.
  revert cs. induction n as [x c|t|es IH] using NarNode_ind'; intros cs.
  - cbn. split; [by intros ?%elem_of_nil|]. intros (c' & es & Hin & _). set_solver.
  - cbn. split; [by intros ?%elem_of_nil|]. intros (c' & es & Hin & _). set_solver.
  - rewrite subnodes_unfold. cbn [node_bodies below_of]. rewrite elem_of_app, list_elem_of_singleton. unfold below. rewrite list_elem_of_In, in_flat_map.
    rewrite Forall_forall in IH. split.
    + intros [(e & He & Hin)|[= -> ->]]; [|exists cs, es; split; [left|done]]. apply list_elem_of_In in He, Hin.
      apply (IH e He (cs ++ [fst e])) in Hin as (c & es' & Hin & Hr). exists c, es'. split; [|done]. right.
      apply list_elem_of_In, in_flat_map. exists e. by rewrite <- !list_elem_of_In.
    + intros (c & es' & Hin & -> & ->). apply elem_of_cons in Hin as [[= -> ->]|Hin]; [by right|left].
      apply list_elem_of_In, in_flat_map in Hin as (e & He & Hin). exists e. split; [done|]. apply list_elem_of_In in He, Hin. apply list_elem_of_In.
      apply (IH e He (cs ++ [fst e])). by exists c, es'.
Qed.

(** The directory messages of a tree. *)
Definition tree_bodies (n : NarNode) : gmap bytes castore.Directory := insert_all (node_bodies n) ∅.

Lemma tree_bodies_sound n d b :
  tree_bodies n !! d = Some b -> exists c es, (c, NixNar.Directory es) ∈ subnodes n [] /\ d = node_digest (NixNar.Directory es) /\ b = message es.
Proof. intros [Hd|Hin]%insert_all_lookup; [by rewrite lookup_empty in Hd|]. by apply node_bodies_elem. Qed.

Lemma tree_bodies_all n c es : (c, NixNar.Directory es) ∈ subnodes n [] -> is_Some (tree_bodies n !! node_digest (NixNar.Directory es)).
Proof.
  intros Hin. apply insert_all_dom. right. change (List.map fst ?l) with (fst <$> l). apply list_elem_of_fmap.
  exists (node_digest (NixNar.Directory es), message es). split; [done|]. apply (node_bodies_elem n []). by exists c, es.
Qed.

(** The map holds every directory when no two collide. *)
Lemma tree_bodies_hold n : no_collision n -> holds_bodies (tree_bodies n) n [].
Proof.
  intros Hc c es Hin. destruct (tree_bodies_all n c es Hin) as [b Hb]. rewrite Hb. f_equal.
  apply tree_bodies_sound in Hb as (c' & es' & Hin' & E & ->). by eapply Hc.
Qed.

Definition tree_root (n : NarNode) : RootNode :=
  mkRootNode (Some (match n with
                    | Regular x c => castore.File (mkFileEntry [] (digest c) (len c) x)
                    | NixNar.Directory _ => DirDigest (node_digest n)
                    | NixNar.Symlink t => castore.Symlink (mkSymlinkEntry [] t)
                    end)).
End Bodies.

Lemma scan_references_chunking paths chunks : scan_references paths chunks = scan_references paths [concat chunks].
Proof.
  unfold scan_references. f_equal. apply set_eq. intros w.
  rewrite !(fun cs => proj1 (refscan_exact (hashes (from_paths paths)) cs w)). cbn [concat]. by rewrite app_nil_r.
Qed.

Lemma tee_writes ws t : fold_left (fun w b => NixNarFs.write_all b w) ws t = mkTeeSink (ts_sha t ++ concat ws) (NixRefScan.write_all (ts_refs t) ws).
Proof.
  revert t. induction ws as [|b ws IH]; intros t; cbn [fold_left concat]; [rewrite app_nil_r; by destruct t|]. rewrite IH. cbn [NixNarFs.write_all TeeSink_write ts_sha ts_refs].
  by rewrite <- app_assoc.
Qed.

Section Walked.
Context `{K : Kernel} `{H : Blake3} `{P : Prost} `{F : FastCDC} {C : NixCrypto} `{!Blake3Laws H} `{!FastCDCLaws F} `{!FastCDCLocal F}.

(** The result for an object whose archive is [n], computed from the whole archive. *)
Definition walked (paths : list bytes) (n : NarNode) : WalkedOutput :=
  mkWalkedOutput (sha256 (serialize n)) (len (serialize n)) (scan_references paths [serialize n]) (tree_root n)
    (tree_bodies n) (List.map chunk_ref (flat_map cut (contents n))) (insert_all (node_sources [] n) ∅).

Lemma walk_spec parent name paths :
  match walk_output_blocking parent name (from_paths paths) with
  | None => False
  | Some (inl r) => exists i n, assoc name parent = Some i /\ dumps nar_levels i n /\ r = walked paths n
  | Some (inr e) => dump_path_observed parent name (mkTeeSink [] (sink_new (hashes (from_paths paths)))) observer_new = inr (Err e)
  end.
Proof.
  unfold walk_output_blocking. destruct (dump_path_observed _ _ _ _) as [[[size w] o]|[e|]] eqn:E; [|done|].
  2:{ apply (dump_observed_safe (Inv := fused_inv)) in E; [done|]. split; [cbn; lia|done]. }
  apply dump_observed_sound in E as (i & n & evs & ws & Ha & Hd & Ht & Hev & Hws & -> & ->).
  destruct (observe_trace [] n evs Ht observer_new) as [f E]. rewrite E in Hev. injection Hev as <-.
  rewrite tee_writes. cbn [ts_sha ts_refs app]. fold (scan_references paths ws).
  assert (Hroot : obs_root (attach_to_parent (child_entry [] n) (absorb (node_bodies n) (node_refs n) (node_sources [] n) f observer_new)) = node (tree_root n)).
  { by destruct n. }
  cbn [rel_join observer_new rel_dir]. fold observer_new. rewrite Hroot. cbn [node tree_root]. exists i, n. split_and!; [done..|]. unfold walked, attach_to_parent, absorb.
  cbn [dir_stack observer_new obs_directories obs_manifest obs_sources app]. rewrite scan_references_chunking, Hws. by rewrite node_refs_flat.
Qed.

Lemma walk_live parent name paths i n :
  quiet K -> assoc name parent = Some i -> dumps nar_levels i n -> walk_output_blocking parent name (from_paths paths) = Some (inl (walked paths n)).
Proof.
  intros Hq Ha Hd. pose proof (walk_spec parent name paths) as Hs.
  destruct (dump_observed_live parent name i n (mkTeeSink [] (sink_new (hashes (from_paths paths)))) observer_new Hq fused_total Ha Hd) as (size & w & o & E).
  destruct (walk_output_blocking _ _ _) as [[r|e]|]; [|by rewrite E in Hs|done]. destruct Hs as (i' & n' & Ha' & Hd' & ->).
  rewrite Ha in Ha'. injection Ha' as <-. by rewrite (dumps_det _ _ _ _ Hd' Hd).
Qed.
End Walked.

(** ** Agreement with the store *)

Section Agree.
Context `{H : Blake3} `{P : Prost}.

(** The bottom-up pass of the store gives the same root and bodies. *)
Lemma build_agrees n entries dag :
  tidy n -> no_collision n -> Forall2 entry_of (subnodes n []) entries -> build entries = Some dag ->
  dag_root_node dag = root_encode (tree_root n) /\
  dag_directories dag = merge_sort key_le (map_to_list (directory_encode <$> tree_bodies n)).
Proof.
  intros Ht Hc He. pose proof (subnodes_unfold n []) as HN. pose proof He as He0. rewrite HN in He0.
  inversion He0 as [|? e0 ? rest Hroot _ E0 E1]. clear E0. subst entries. clear He0.
  destruct (build_children n (e0 :: rest) Ht He e0 rest eq_refl) as (ch & Hch & Hkids).
  destruct (build_loop n (e0 :: rest) Ht He ch Hkids (length (subnodes n [])) 0 eq_refl) as (st & Hst & Hb).
  rewrite (Forall2_length _ _ _ He) in Hst. unfold build. rewrite Hch, Hst. intros [= <-]. cbn [dag_root_node dag_directories]. split.
  - f_equal. unfold root_of, tree_root. do 2 f_equal. destruct Hroot as [_ Hr]. cbn [snd] in Hr. destruct n as [fx fc|es|t].
    + by destruct Hr as (-> & -> & -> & ->).
    + rewrite Hr. destruct (built_knows _ _ _ Hb 0%nat ltac:(lia) [] es) as [-> _]; [by rewrite HN|done].
    + by destruct Hr as (-> & ->).
  - do 2 f_equal. apply map_eq. intros d. rewrite lookup_fmap.
    assert (Hall : forall d', is_Some (b_bodies st !! d') <-> is_Some (tree_bodies n !! d')).
    { intros d'. split.
      - intros [b Hd]. destruct (built_bodies _ _ _ Hb _ _ Hd) as (k & c & es & Hk & -> & _). eapply tree_bodies_all. by eapply list_elem_of_lookup_2.
      - intros [b Hd]. apply tree_bodies_sound in Hd as (c & es & Hin & -> & _). apply list_elem_of_lookup_1 in Hin as [k Hk].
        by apply (built_all _ _ _ Hb k c es ltac:(lia)). }
    specialize (Hall d). destruct (tree_bodies n !! d) as [body|] eqn:Hd; cbn [fmap option_fmap option_map].
    + destruct (proj2 Hall ltac:(eauto)) as [b Hbd]. rewrite Hbd. f_equal.
      destruct (built_bodies _ _ _ Hb _ _ Hbd) as (k & c & es & Hk & E & ->). apply tree_bodies_sound in Hd as (c' & es' & Hin & E' & ->). f_equal.
      eapply Hc; [by eapply list_elem_of_lookup_2|exact Hin|congruence].
    + destruct (b_bodies st !! d); [|done]. destruct (proj1 Hall ltac:(eauto)). done.
Qed.

Context `{F : FastCDC} {C : NixCrypto} `{!Blake3Laws H} `{!Blake3Width H} `{!ProstLaws P} `{!FastCDCLaws F}.

Lemma pieces_of_cut c : pieces_of c = cut c.
Proof. destruct c; [|done]. symmetry. apply cut_nil. Qed.

(** The store ingests the dump of a tree within its limits, and what it computes
    is what the walk computed. *)
Lemma parse_agrees paths n :
  bytes_ok (serialize n) -> ls_wf nar_levels n -> within_bounds (index_node n [] root_offset) -> no_collision n ->
  exists p, ParsedNar.parse (serialize n) = inl p /\
    dag_root_node (ParsedNar.dag p) = root_encode (wk_root_node (walked paths n)) /\
    dag_directories (ParsedNar.dag p) = merge_sort key_le (map_to_list (directory_encode <$> wk_directories (walked paths n))) /\
    manifest_of (chunk_files p (serialize n)) = List.map (fun c => mkManifestEntry (cr_digest c) (cr_size c)) (wk_chunk_manifest (walked paths n)).
Proof.
  intros Hok Hw Hwb Hc. destruct (ls_wf_tidy _ _ Hw) as [Ht Ho].
  pose proof (index_entry_of n [] root_offset (Forall_nil_2 _) Ht) as Hes. change (joinc []) with (@nil Z) in Hes.
  destruct (build_decode n _ Ht Ho Hc Hes) as (dag & Hb & _). exists (ParsedNar.mk (index_node n [] root_offset) dag). split.
  { unfold ParsedNar.parse. rewrite (proj2 (nar_ls_reader_inl (serialize n) (index_node n [] root_offset) (mkReader [] (len (serialize n))) Hok)).
    - cbn [pos]. by rewrite Z.eqb_refl, Hb.
    - exists n. split_and!; [done| |done|apply Hwb..]. split; [by rewrite app_nil_r|]. cbn [pos]. unfold len. lia. }
  destruct (build_agrees n _ _ Ht Hc Hes Hb) as [H1 H2]. split; [exact H1|]. split; [exact H2|].
  rewrite (chunk_files_pieces _ n Hw) by done. unfold manifest_of. cbn [walked wk_chunk_manifest]. rewrite !List.map_map. f_equal.
  apply flat_map_ext. intros c. apply pieces_of_cut.
Qed.
End Agree.

(** ** The theorems *)

(** C3: the fused walk is exact.  Whatever the file system holds and the kernel
    answers, no [expect] of the walk fails, in the callbacks of its observer (a
    frame to leave, an open file, a cut chunk, a chunk length of 32 bits) or on the
    root at the end: the walk returns or ends with the error of the dump.  A walk
    that succeeds returns, for the archive of the object, what
    separate passes over the whole archive would: its SHA-256 and size, the
    references that a scan of it finds, its root node, the message of each of its
    directories and of nothing else, and per file in archive order the chunks
    that FastCDC cuts from the whole file, although it saw the file in pieces of
    at most 256 KiB; the chunks of the manifest and no others have a source, and
    when the names of the tree are plain components and distinct among siblings,
    a source names a file of the tree, an offset and a size at which bytes of the
    chunk's digest are.  When no system call fails, every object that has an
    archive is walked.  FastCDC is assumed to cut a byte string into chunks
    within its bounds, each boundary decided as [cut_gear] documents. *)
Theorem fused_walk_exact `{K : Kernel} `{H : Blake3} `{P : Prost} `{F : FastCDC} {C : NixCrypto} `{!Blake3Laws H} `{!FastCDCLaws F} `{!FastCDCLocal F}
    parent name paths :
  walk_output_blocking parent name (from_paths paths) <> None /\
  (forall r, walk_output_blocking parent name (from_paths paths) = Some (inl r) ->
     exists i n, assoc name parent = Some i /\ dumps nar_levels i n /\
       wk_nar_hash r = sha256 (serialize n) /\ wk_nar_size r = len (serialize n) /\ wk_references r = scan_references paths [serialize n] /\
       wk_root_node r = tree_root n /\
       (forall d b, wk_directories r !! d = Some b ->
          exists c es, (c, NixNar.Directory es) ∈ subnodes n [] /\ d = node_digest (NixNar.Directory es) /\ b = message es) /\
       (forall c es, (c, NixNar.Directory es) ∈ subnodes n [] -> is_Some (wk_directories r !! node_digest (NixNar.Directory es))) /\
       wk_chunk_manifest r = List.map chunk_ref (flat_map cut (contents n)) /\
       (forall d, is_Some (wk_chunk_sources r !! d) <-> d ∈ List.map cr_digest (wk_chunk_manifest r)) /\
       (tidy n -> forall d s, wk_chunk_sources r !! d = Some s ->
          exists x c, (src_rel_path s, Regular x c) ∈ subnodes n [] /\ 0 <= src_offset s /\ src_offset s + src_size s <= len c /\
            digest (slice c (src_offset s) (src_size s)) = d)) /\
  (quiet K -> forall i n, assoc name parent = Some i -> dumps nar_levels i n ->
     exists r, walk_output_blocking parent name (from_paths paths) = Some (inl r)).
Proof.
  pose proof (walk_spec parent name paths) as Hs. split_and!.
  - by destruct (walk_output_blocking _ _ _).
  - intros r Hr. rewrite Hr in Hs. destruct Hs as (i & n & Ha & Hd & ->). exists i, n. split; [done|]. split; [done|]. do 4 (split; [done|]).
    cbn [walked wk_directories wk_chunk_manifest wk_chunk_sources]. split; [apply tree_bodies_sound|]. split; [apply tree_bodies_all|]. split; [done|].
    rewrite <- node_refs_flat. split.
    + intros d. rewrite insert_all_dom, lookup_empty, node_sources_fst. split; [by intros [[]|]|by right].
    + intros Ht d s [Hl|Hin]%insert_all_lookup; [by rewrite lookup_empty in Hl|].
      destruct (node_sources_elem [] n d s Ht Hin) as (x & c & H1 & H2 & H3 & _ & _ & H4). by exists x, c.
  - intros Hq i n Ha Hd. eexists. by apply (walk_live parent name paths i n).
Qed.

(** C17: the builder and the store agree on an output.  When no system call
    fails, for an object that has an archive, of bytes, well formed and within the
    limits of the store's index, whose directories do not collide under BLAKE3,
    the dump and the walk succeed, the store parses the dump of the object, and
    the root node, the directory bodies and the chunk manifest that the store
    computes from the archive are the ones that the walk computed without it;
    so an output has one castore form, whether its archive was ingested whole or
    its chunks were uploaded. *)
Theorem walk_ingest_agree `{K : Kernel} `{H : Blake3} `{P : Prost} `{F : FastCDC} {C : NixCrypto}
    `{!Blake3Laws H} `{!Blake3Width H} `{!ProstLaws P} `{!FastCDCLaws F} `{!FastCDCLocal F} parent name paths i n :
  quiet K -> assoc name parent = Some i -> dumps nar_levels i n ->
  bytes_ok (serialize n) -> ls_wf nar_levels n -> within_bounds (index_node n [] root_offset) -> no_collision n ->
  exists nar w p, dump_path_streaming parent name [] = inl (len nar, nar) /\
    walk_output_blocking parent name (from_paths paths) = Some (inl w) /\ ParsedNar.parse nar = inl p /\
    sha256 nar = wk_nar_hash w /\ len nar = wk_nar_size w /\
    dag_root_node (ParsedNar.dag p) = root_encode (wk_root_node w) /\
    dag_directories (ParsedNar.dag p) = merge_sort key_le (map_to_list (directory_encode <$> wk_directories w)) /\
    manifest_of (chunk_files p nar) = List.map (fun c => mkManifestEntry (cr_digest c) (cr_size c)) (wk_chunk_manifest w).
Proof.
  intros Hq Ha Hd Hok Hw Hb Hc. destruct (parse_agrees paths n Hok Hw Hb Hc) as (p & Hp & Hagree). exists (serialize n), (walked paths n), p.
  split; [by apply (dump_streaming_live parent name i n [])|]. split; [by apply (walk_live parent name paths i n)|]. split; [done|].
  split; [done|]. split; [done|]. exact Hagree.
Qed.

(** ** A concrete walk *)

#[export] Instance example_cdc_local : FastCDCLocal example_cdc.
Proof.
  split.
  - intros [|x b] c cs; cbn [cut example_cdc List.map]; [done|]. by intros [= <- <-].
  - intros [|x b] t c cs _; cbn [cut example_cdc List.map app]; [done|]. intros [= <- _]. by eexists.
Qed.

Lemma example_object_dumps : dumps nar_levels example_object example_object_nar.
Proof.
  change nar_levels with (S (S (S 254))). unfold example_object, example_object_nar. cbn [dumps]. split.
  { apply lt_max_dir. by vm_compute. }
  match goal with |- Forall2 _ ?l _ => replace l with [str "bin"; str "link"] by (by vm_compute) end.
  constructor; [|constructor; [|constructor]]; cbn [fst snd]; (split; [done|]); (split; [done|]).
  - eexists. split; [by vm_compute|]. split; [apply lt_max_dir; by vm_compute|].
    match goal with |- Forall2 _ ?l _ => replace l with [str "sh"] by (by vm_compute) end.
    constructor; [|constructor]. cbn [fst snd]. split; [done|]. split; [done|]. eexists. split; [by vm_compute|]. split_and!; [done|vm_compute; lia|done].
  - eexists. split; [by vm_compute|]. done.
Qed.

(** What is restored can be indexed. *)
Lemma restorable_ls levels n : restorable levels n -> ls_wf levels n.
Proof.
  revert n. induction levels as [|levels IH]; intros n; [done|]. rewrite restorable_S, ls_wf_S. destruct n as [x c|es|t]; [done| |].
  - intros (Hl & Hs & Hf). split; [done|]. split; [done|]. eapply Forall_impl; [exact Hf|]. intros e [(H1 & H2 & H3) H4]. split; [done|]. by apply IH.
  - unfold token_ok, raw_ok. intros [[H1%Z.leb_le _]%andb_true_iff _]. done.
Qed.

Lemma example_object_wf : ls_wf nar_levels example_object_nar.
Proof. apply restorable_ls, example_object_restorable. Qed.

Section Example.
#[local] Existing Instances short_kernel example_blake3 example_blake3_laws example_blake3_width example_prost example_prost_laws
  example_cdc example_cdc_laws store_crypto.

Lemma fused_walk_exact_witness :
  exists r, walk_output_blocking [(str "out", example_object)] (str "out") (from_paths []) = Some (inl r).
Proof.
  refine (proj2 (proj2 (fused_walk_exact [(str "out", example_object)] (str "out") [])) short_kernel_quiet _ _ _ example_object_dumps). by vm_compute.
Defined.

Lemma walk_ingest_agree_witness :
  exists w p, walk_output_blocking [(str "out", example_object)] (str "out") (from_paths []) = Some (inl w) /\
    ParsedNar.parse (serialize example_object_nar) = inl p /\ dag_root_node (ParsedNar.dag p) = root_encode (wk_root_node w).
Proof.
  destruct (walk_ingest_agree [(str "out", example_object)] (str "out") [] example_object example_object_nar) as (nar & w & p & H1 & H2 & H3 & _ & _ & H4 & _).
  - exact short_kernel_quiet.
  - by vm_compute.
  - exact example_object_dumps.
  - apply (bool_decide_unpack _). by vm_compute.
  - exact example_object_wf.
  - split; by vm_compute.
  - apply example_no_collision.
  - exists w, p. rewrite dump_example in H1. injection H1 as _ <-. exact (conj H2 (conj H3 H4)).
Defined.
End Example.
