(* ===== verification/BuilderUpload.v ===== *)
(** * Builder: upload of the outputs of a build

    [src/rio-builder/src/upload/{mod,chunked,common}.rs]: the scan of the overlay
    for new paths, the probe for chunks that are already durable, the assembly of
    the first frame, the reader that re-reads the novel chunks, and the retry loop
    around them.

    What the store answers is a parameter of each call.  A [Status] is a code and
    a message; the messages that the builder itself makes are left empty.  Of a
    time-out only the status is seen, so it is one of the answers. *)

From stdpp Require Import sorting.
From S2P Require Import Prelude NixBytes NixStorePath NixRefScan NixNar NixNarLs NixNarFs StoreManifest StoreCastore StoreBuild.
From S2P Require Import StoreRoundTrip StorePut StoreVerify StoreGet StoreServe BuilderWalk.
Import castore.

#[local] Open Scope Z_scope.

(** ** Statuses *)

Module tonic.
Inductive Code : Type :=
| Ok | Cancelled | Unknown | InvalidArgument | DeadlineExceeded | NotFound | AlreadyExists | PermissionDenied | ResourceExhausted
| FailedPrecondition | Aborted | OutOfRange | Unimplemented | Internal | Unavailable | DataLoss | Unauthenticated.

Record Status : Type := mkStatus { code : Code; message : bytes }.
End tonic.
Abbreviation Status := tonic.Status.

Definition internal : Status := tonic.mkStatus tonic.Internal [].
Definition invalid_argument : Status := tonic.mkStatus tonic.InvalidArgument [].

Definition is_transient (c : tonic.Code) : bool :=
  match c with tonic.Unavailable | tonic.Unknown | tonic.ResourceExhausted | tonic.Aborted => true | _ => false end.

Definition is_retryable (c : tonic.Code) : bool :=
  is_transient c || match c with tonic.DeadlineExceeded | tonic.Internal => true | _ => false end.

Definition is_store_unreachable_code (c : tonic.Code) : bool :=
  match c with tonic.Unavailable | tonic.Unknown | tonic.DeadlineExceeded => true | _ => false end.

Definition CONCURRENT_PUTPATH_MSG : bytes := str "concurrent PutPath in progress".

(** [str::contains]. *)
Fixpoint contains (needle s : bytes) : bool :=
  starts_with needle s || match s with [] => false | _ :: s => contains needle s end.

Inductive UploadError : Type :=
| UploadExhausted (path : bytes) (source : Status)
| UploadRejected (path : bytes) (source : Status)
| Io
| InvalidReference (path : bytes).

Definition is_store_unreachable (e : UploadError) : bool :=
  match e with UploadExhausted _ source => is_store_unreachable_code (tonic.code source) | _ => false end.

(** ** The scan *)

(** [None] is a directory that does not exist; the error is one of [read_dir]. *)
Fixpoint scan_entries (entries : list (bytes * Inode)) : list bytes + UploadError :=
  match entries with
  | [] => inl []
  | (name, i) :: entries =>
      if negb (utf8_valid name) then inr Io
      else
        match scan_entries entries with
        | inr e => inr e
        | inl outputs =>
            if starts_with [DOT] name then inl outputs
            else match i with ISpecial true => inl outputs | _ => inl (name :: outputs) end
        end
  end.

Definition scan_new_outputs (upper_store : option (list (bytes * Inode) + UploadError)) : list bytes + UploadError :=
  match upper_store with
  | None => inl []
  | Some (inr e) => inr e
  | Some (inl entries) =>
      match scan_entries entries with inl outputs => inl (sort_bytes outputs) | inr e => inr e end
  end.

(** ** Results *)

Record ValidatedPathInfo : Type := mkPathInfo {
  pi_store_path : StorePath;
  pi_store_path_hash : bytes;
  pi_deriver : option StorePath;
  pi_nar_hash : bytes;
  pi_nar_size : Z;
  pi_references : list StorePath;
  pi_registration_time : Z;
  pi_ultimate : bool;
  pi_signatures : list bytes;
  pi_content_address : option bytes;
}.

Definition uploaded_info (store_path : StorePath) (nar_hash : bytes) (nar_size : Z) (references : list bytes) (deriver : bytes)
    : ValidatedPathInfo + UploadError :=
  references <-? collect (fun r => match parse r with inl sp => inl sp | inr _ => inr (InvalidReference r) end) references;
  inl (mkPathInfo store_path [] (match parse deriver with inl sp => Some sp | inr _ => None end) nar_hash nar_size references 0 false [] None).

(** ** The idempotency check *)

Section Present.
Context (find_missing_paths : list bytes -> list bytes + Status) (query_path_info : bytes -> option ValidatedPathInfo + Status).

Fixpoint query_all (store_paths : list bytes) : option (list ValidatedPathInfo) :=
  match store_paths with
  | [] => Some []
  | p :: store_paths =>
      match query_path_info p with
      | inl (Some info) => match query_all store_paths with Some infos => Some (info :: infos) | None => None end
      | _ => None
      end
  end.

Definition all_outputs_already_present (basenames : list bytes) : option (list ValidatedPathInfo) :=
  let store_paths := List.map (app STORE_PREFIX) basenames in
  match find_missing_paths store_paths with
  | inr _ => None
  | inl (_ :: _) => None
  | inl [] => query_all store_paths
  end.
End Present.

(** ** The durable chunks *)

Definition HAS_CHUNKS_PROBE_BATCH : nat := Z.to_nat 16384.

(** [slice::chunks]; a batch has at least one element. *)
Fixpoint batches (fuel : nat) {A} (size : nat) (l : list A) : list (list A) :=
  match fuel, l with
  | S fuel, _ :: _ => take size l :: batches fuel size (drop size l)
  | _, _ => []
  end.

(** LSB first within each byte. *)
Definition bit_set (bitmap : bytes) (i : nat) : bool :=
  match bitmap !! (i / 8)%nat with
  | Some byte => negb (Z.land byte (Z.shiftl 1 (Z.of_nat (i mod 8))) =? 0)
  | None => false
  end.

Fixpoint insert_durable (bitmap : bytes) (i : nat) (batch : list bytes) (durable : gset bytes) : gset bytes :=
  match batch with
  | [] => durable
  | d :: batch => insert_durable bitmap (S i) batch (if bit_set bitmap i then {[d]} ∪ durable else durable)
  end.

Section Probe.
(** [attach_assignment_token] succeeds; the answer to the [k]-th probe. *)
Context (token_ok : bool) (has_chunks : nat -> list bytes -> bytes + Status).

Fixpoint probe_batches (k : nat) (bs : list (list bytes)) (durable : gset bytes) : gset bytes :=
  match bs with
  | [] => durable
  | b :: bs =>
      if negb token_ok then durable
      else match has_chunks k b with
           | inl bitmap => probe_batches (S k) bs (insert_durable bitmap 0 b durable)
           | inr _ => durable
           end
  end.

Definition probe_durable_chunks (digests : list bytes) : gset bytes :=
  probe_batches 0 (batches (length digests) HAS_CHUNKS_PROBE_BATCH digests) ∅.
End Probe.

(** ** The first frame *)

Record WalkedTarget : Type := mkWalkedTarget {
  wt_basename : bytes;
  wt_store_path : bytes;
  wt_parsed : StorePath;
  wt_walked : WalkedOutput;
}.

Record ChunkFramePlan : Type := mkChunkFramePlan {
  pl_digest : bytes;
  pl_rel_path : list bytes;
  pl_offset : Z;
  pl_size : Z;
}.

(** The manifest entries of all targets, each with its target. *)
Definition target_chunks (targets : list WalkedTarget) : list (WalkedTarget * ChunkRef) :=
  flat_map (fun t => List.map (pair t) (wk_chunk_manifest (wt_walked t))) targets.

Fixpoint push_unseen (seen : gset bytes) (ds : list bytes) : list bytes :=
  match ds with
  | [] => []
  | d :: ds => if bool_decide (d ∈ seen) then push_unseen seen ds else d :: push_unseen ({[d]} ∪ seen) ds
  end.

Definition first_occurrence_digests (targets : list WalkedTarget) : list bytes :=
  push_unseen ∅ (List.map (fun tc => cr_digest (snd tc)) (target_chunks targets)).

(** The bodies that were not seen before; a [HashMap] is iterated in some order. *)
Fixpoint push_bodies (seen : gset bytes) (ds : list (bytes * castore.Directory)) : list (bytes * castore.Directory) :=
  match ds with
  | [] => []
  | kv :: ds => if bool_decide (fst kv ∈ seen) then push_bodies seen ds else kv :: push_bodies ({[fst kv]} ∪ seen) ds
  end.

Definition frame_directories (targets : list WalkedTarget) : list (bytes * castore.Directory) :=
  merge_sort key_le (push_bodies ∅ (flat_map (fun t => map_to_list (wk_directories (wt_walked t))) targets)).

(** [novel] and the plan; [None] when a digest has no source. *)
Fixpoint plan_chunks (durable seen : gset bytes) (cs : list (WalkedTarget * ChunkRef)) : option (list ChunkFramePlan) :=
  match cs with
  | [] => Some []
  | (t, c) :: cs =>
      let d := cr_digest c in
      if bool_decide (d ∈ seen) then plan_chunks durable seen cs
      else if bool_decide (d ∈ durable) then plan_chunks durable ({[d]} ∪ seen) cs
      else
        match wk_chunk_sources (wt_walked t) !! d with
        | None => None
        | Some src =>
            match plan_chunks durable ({[d]} ∪ seen) cs with
            | None => None
            | Some plan => Some (mkChunkFramePlan d (upper_rel_path src (wt_basename t)) (src_offset src) (src_size src) :: plan)
            end
        end
  end.

Definition chunked_output (t : WalkedTarget) : ChunkedOutput :=
  let w := wt_walked t in
  mkChunkedOutput (wt_store_path t) (wk_nar_hash w) (wk_nar_size w) (wk_references w) (Some (wk_root_node w))
    (List.map (fun c => mkChunkMeta (cr_digest c) (cr_size c)) (wk_chunk_manifest w)).

Definition build_begin (targets : list WalkedTarget) (deriver : bytes) (input_closure : list bytes) (durable : gset bytes)
    : option (PutPathChunkedBegin * list ChunkFramePlan) :=
  match plan_chunks durable ∅ (target_chunks targets) with
  | None => None
  | Some plan =>
      Some (mkBegin deriver (List.map chunked_output targets) (List.map snd (frame_directories targets)) (List.map pl_digest plan) input_closure,
            plan)
  end.

(** ** The reader *)

(** [openat2] with [RESOLVE_BENEATH] and [RESOLVE_NO_SYMLINKS]: the bytes of a
    regular file, [Some None] for another object, and [None] for an error. *)
Fixpoint resolve_beneath (up : list (list (bytes * Inode))) (dir : list (bytes * Inode)) (rel : list bytes) : option (option bytes) :=
  match rel with
  | [] => Some None
  | name :: rel =>
      if bytes_eqb name (str ".") then resolve_beneath up dir rel
      else if bytes_eqb name (str "..") then
        match up with [] => None | parent :: up => resolve_beneath up parent rel end
      else
        match assoc name dir with
        | None | Some (ISymlink _) | Some ISocket => None
        | Some (IDir _ entries) => resolve_beneath (dir :: up) entries rel
        | Some (IFile _ _ data) => match rel with [] => Some (Some data) | _ => None end
        | Some (ISpecial _) => match rel with [] => Some None | _ => None end
        end
  end.

Section Reader.
Context `{K : Kernel} `{H : Blake3}.

Definition open_chunk_source (upper : list (bytes * Inode)) (rel : list bytes) : option bytes :=
  if io_error rel then None
  else match resolve_beneath [] upper rel with Some (Some data) => Some data | _ => None end.

(** [read_exact] from [off] on: reads until [n] bytes are there. *)
Fixpoint read_exact (fuel : nat) (path : list bytes) (off : Z) (rest : bytes) (n : Z) (acc : bytes) : option bytes :=
  if 0 <? n then
    match fuel with
    | 0%nat => None
    | S fuel =>
        match read_some path off rest n with
        | None | Some [] => None
        | Some b => read_exact fuel path (off + len b) (drop (length b) rest) (n - len b) (acc ++ b)
        end
    end
  else Some acc.

(** The loop over the plan: the frames sent, and the bytes streamed or an error;
    [opened] is the file opened last. *)
Fixpoint read_chunks (upper : list (bytes * Inode)) (opened : option (list bytes * bytes)) (total : Z) (plan : list ChunkFramePlan)
    : list Msg * (Z + Status) :=
  match plan with
  | [] => ([], inl total)
  | e :: plan =>
      let file :=
        match opened with
        | Some (p, data) => if bool_decide (p = pl_rel_path e) then Some data else open_chunk_source upper (pl_rel_path e)
        | None => open_chunk_source upper (pl_rel_path e)
        end in
      match file with
      | None => ([], inr internal)
      | Some data =>
          match read_exact (length data) (pl_rel_path e) (pl_offset e) (drop (Z.to_nat (pl_offset e)) data) (pl_size e) [] with
          | None => ([], inr internal)
          | Some buf =>
              if negb (bytes_eqb (digest buf) (pl_digest e)) then ([], inr internal)
              else
                let r := read_chunks upper (Some (pl_rel_path e, data)) (total + pl_size e) plan in
                (MChunk (pl_digest e) buf :: fst r, snd r)
          end
      end
  end.

(** [None] is an upper store that cannot be opened. *)
Definition chunk_reader (upper : option (list (bytes * Inode))) (plan : list ChunkFramePlan) : list Msg * (Z + Status) :=
  match upper with None => ([], inr internal) | Some upper => read_chunks upper None 0 plan end.

(** The store sees the first frame and the frames that the reader sent before it
    ended; its status comes before the reader's. *)
Definition send_chunked (put_path_chunked : PutPathChunkedBegin -> list Msg -> list bool + Status) (token_ok : bool)
    (upper : option (list (bytes * Inode))) (begin : PutPathChunkedBegin) (plan : list ChunkFramePlan) : list bool * Z + Status :=
  let r := chunk_reader upper plan in
  if negb token_ok then inr invalid_argument
  else
    match put_path_chunked begin (fst r) with
    | inr s => inr s
    | inl created => match snd r with inl bytes => inl (created, bytes) | inr s => inr s end
    end.
End Reader.

(** ** The upload *)

Definition MAX_UPLOAD_RETRIES : nat := 8.

Definition GRPC_STREAM_TIMEOUT : Z := 300.

(** In seconds. *)
Definition chunked_stream_timeout (n_outputs : nat) : Z :=
  GRPC_STREAM_TIMEOUT * Z.max (Z.min (Z.of_nat n_outputs) MAX_BATCH_OUTPUTS) 1.

(** What an attempt meets: the disk, and the store's answers. *)
Record Attempt : Type := mkAttempt {
  at_kernel : Kernel;
  at_upper : option (list (bytes * Inode));
  at_has_chunks : nat -> list bytes -> bytes + Status;
  at_put : PutPathChunkedBegin -> list Msg -> list bool + Status;
  at_find_missing : list bytes -> list bytes + Status;
  at_query : bytes -> option ValidatedPathInfo + Status;
}.

Section Upload.
Context `{H : Blake3} `{P : Prost} `{F : FastCDC} {C : NixCrypto}.
Context (token_ok : bool) (deriver : bytes) (input_closure : list bytes).

(** [walk_output]: a walk that hangs is given up, a panic is an internal error. *)
Definition walk_output (kernel : Kernel) (hangs : bool) (upper : list (bytes * Inode)) (basename : bytes) (candidates : CandidateSet)
    : WalkedOutput + Status :=
  if hangs then inr (tonic.mkStatus tonic.DeadlineExceeded [])
  else
    match walk_output_blocking (K := kernel) upper basename candidates with
    | Some (inl w) => inl w
    | Some (inr _) | None => inr internal
    end.

Fixpoint walk_targets (kernel : bytes -> Kernel) (hangs : bytes -> bool) (upper : list (bytes * Inode)) (candidates : CandidateSet)
    (basenames : list bytes) : list WalkedTarget + UploadError :=
  match basenames with
  | [] => inl []
  | b :: basenames =>
      let store_path := STORE_PREFIX ++ b in
      match parse store_path with
      | inr _ => inr (UploadRejected store_path invalid_argument)
      | inl parsed =>
          match walk_output (kernel b) (hangs b) upper b candidates with
          | inr s => inr (UploadRejected store_path s)
          | inl walked =>
              ts <-? walk_targets kernel hangs upper candidates basenames;
              inl (mkWalkedTarget b store_path parsed walked :: ts)
          end
      end
  end.

(** Probe, assemble, stream; [None] when the assembly panics. *)
Definition attempt_upload (targets : list WalkedTarget) (a : Attempt) : option (list bool * Z + Status) :=
  let durable := probe_durable_chunks token_ok (at_has_chunks a) (first_occurrence_digests targets) in
  match build_begin targets deriver input_closure durable with
  | None => None
  | Some (begin, plan) => Some (send_chunked (K := at_kernel a) (at_put a) token_ok (at_upper a) begin plan)
  end.

Definition target_info (t : WalkedTarget) : ValidatedPathInfo + UploadError :=
  uploaded_info (wt_parsed t) (wk_nar_hash (wt_walked t)) (wk_nar_size (wt_walked t)) (wk_references (wt_walked t)) deriver.

Definition chunked_path : bytes := str "<chunked>".

(** After the loop; [None] when no error was recorded. *)
Definition exhausted (last_err : option Status) : option (list ValidatedPathInfo + UploadError) :=
  match last_err with
  | None => None
  | Some source =>
      Some (inr (if is_retryable (tonic.code source) then UploadExhausted chunked_path source else UploadRejected chunked_path source))
  end.

(** [attempts] are what the attempts that are left would meet. *)
Fixpoint attempt_loop (targets : list WalkedTarget) (basenames : list bytes) (attempts : list Attempt) (last_err : option Status)
    : option (list ValidatedPathInfo + UploadError) :=
  match attempts with
  | [] => exhausted last_err
  | a :: attempts =>
      match attempt_upload targets a with
      | None => None
      | Some (inl _) => Some (collect target_info targets)
      | Some (inr status) =>
          if is_retryable (tonic.code status) then
            match
              (if match tonic.code status with tonic.Aborted => true | _ => false end && contains CONCURRENT_PUTPATH_MSG (tonic.message status)
               then all_outputs_already_present (at_find_missing a) (at_query a) basenames else None)
            with
            | Some already_present => Some (inl already_present)
            | None => attempt_loop targets basenames attempts (Some status)
            end
          else exhausted (Some status)
      end
  end.

(** [env] gives what the [k]-th attempt meets. *)
Definition upload_outputs_chunked (kernel : bytes -> Kernel) (hangs : bytes -> bool) (upper : list (bytes * Inode)) (env : nat -> Attempt)
    (basenames : list bytes) : option (list ValidatedPathInfo + UploadError) :=
  let candidates := from_paths (input_closure ++ List.map (app STORE_PREFIX) basenames) in
  match walk_targets kernel hangs upper candidates basenames with
  | inr e => Some (inr e)
  | inl targets => attempt_loop targets basenames (List.map env (seq 0 MAX_UPLOAD_RETRIES)) None
  end.

Definition upload_all_outputs (kernel : bytes -> Kernel) (hangs : bytes -> bool) (upper_store : option (list (bytes * Inode) + UploadError))
    (find_missing_paths : list bytes -> list bytes + Status) (query_path_info : bytes -> option ValidatedPathInfo + Status)
    (env : nat -> Attempt) : option (list ValidatedPathInfo + UploadError) :=
  match scan_new_outputs upper_store with
  | inr e => Some (inr e)
  | inl [] => Some (inl [])
  | inl outputs =>
      match all_outputs_already_present find_missing_paths query_path_info outputs with
      | Some already_present => Some (inl already_present)
      | None =>
          let upper := match upper_store with Some (inl entries) => entries | _ => [] end in
          upload_outputs_chunked kernel hangs upper env outputs
      end
  end.
End Upload.

(** ** The retry loop *)

Section Outcome.
Context `{H : Blake3} `{P : Prost} `{F : FastCDC} {C : NixCrypto} `{!Blake3Laws H} `{!FastCDCLaws F} `{!FastCDCLocal F}.
Context (token_ok : bool) (deriver : bytes) (input_closure : list bytes).

#[local] Abbreviation uploads := (attempt_upload token_ok deriver input_closure).
#[local] Abbreviation loops := (attempt_loop token_ok deriver input_closure).

(** A target as the walk leaves it, for an output whose archive is [n]. *)
Record target_of (paths : list bytes) (t : WalkedTarget) (n : NarNode) : Prop := {
  to_path : wt_store_path t = STORE_PREFIX ++ wt_basename t;
  to_parsed : parse (wt_store_path t) = inl (wt_parsed t);
  to_walked : wt_walked t = walked paths n;
}.

Lemma walked_sources paths n c : c ∈ wk_chunk_manifest (walked paths n) -> is_Some (wk_chunk_sources (walked paths n) !! cr_digest c).
Proof.
  cbn [walked wk_chunk_manifest wk_chunk_sources]. rewrite <- node_refs_flat. intros Hc. apply insert_all_dom. right.
  rewrite node_sources_fst. change (List.map cr_digest ?l) with (cr_digest <$> l). by apply list_elem_of_fmap_2.
Qed.

Lemma target_chunks_elem targets t c : (t, c) ∈ target_chunks targets <-> t ∈ targets /\ c ∈ wk_chunk_manifest (wt_walked t).
Proof.
  unfold target_chunks. rewrite list_elem_of_In, in_flat_map. setoid_rewrite in_map_iff. setoid_rewrite <- list_elem_of_In. naive_solver.
Qed.

(** Every digest of a walked target has a source. *)
Lemma plan_chunks_total paths targets durable :
  Forall (fun t => exists n, target_of paths t n) targets -> is_Some (plan_chunks durable ∅ (target_chunks targets)).
Proof.
  intros Ht. assert (Hs : Forall (fun tc => is_Some (wk_chunk_sources (wt_walked (fst tc)) !! cr_digest (snd tc))) (target_chunks targets)).
  { apply Forall_forall. intros [t c] [Hin Hc]%target_chunks_elem. rewrite Forall_forall in Ht. destruct (Ht t Hin) as [n Hn]. cbn [fst snd].
    rewrite (to_walked _ _ _ Hn) in *. by apply walked_sources. }
  clear Ht. generalize (∅ : gset bytes). induction Hs as [|[t c] cs [s Hc] _ IH]; intros seen; cbn [plan_chunks]; [by eexists|].
  cbn [fst snd] in Hc. rewrite Hc. case_bool_decide; [apply IH|]. case_bool_decide; [apply IH|].
  destruct (IH ({[cr_digest c]} ∪ seen)) as [plan ->]. by eexists.
Qed.

Lemma attempt_upload_total paths targets a : Forall (fun t => exists n, target_of paths t n) targets -> is_Some (uploads targets a).
Proof.
  intros Ht. unfold attempt_upload, build_begin. destruct (plan_chunks_total paths targets (probe_durable_chunks token_ok (at_has_chunks a) (first_occurrence_digests targets)) Ht) as [plan ->].
  by eexists.
Qed.

(** References are candidates, which parse. *)
Lemma scan_references_parse paths chunks r : r ∈ scan_references paths chunks -> exists sp, parse r = inl sp /\ r ∈ paths.
Proof.
  unfold scan_references, resolve. rewrite sort_bytes_elem, list_elem_of_omap. intros (h & _ & [Hp Hh]%from_paths_lookup).
  unfold hash_part_of in Hh. destruct (parse r) as [sp|]; [|done]. by exists sp.
Qed.

Lemma target_info_total paths t n : target_of paths t n -> exists info, target_info deriver t = inl info.
Proof.
  intros Ht. unfold target_info, uploaded_info. rewrite (to_walked _ _ _ Ht). cbn [walked wk_references].
  assert (Hr : Forall (fun r => exists sp, parse r = inl sp) (scan_references paths [serialize n])).
  { apply Forall_forall. intros r (sp & Hsp & _)%scan_references_parse. by exists sp. }
  induction Hr as [|r rs [sp Hsp] _ IH]; cbn [collect]; [by eexists|]. rewrite Hsp. destruct IH as [info IH].
  destruct (collect _ rs); [by eexists|done].
Qed.

Lemma target_infos_total paths targets : Forall (fun t => exists n, target_of paths t n) targets -> exists infos, collect (target_info deriver) targets = inl infos.
Proof.
  induction 1 as [|t ts [n Hn] _ [infos IH]]; cbn [collect]; [by eexists|]. destruct (target_info_total _ _ _ Hn) as [info ->]. rewrite IH. by eexists.
Qed.

(** An attempt that failed, and after which another one is worthwhile. *)
Definition failed (targets : list WalkedTarget) (a : Attempt) (s : Status) (retryable : bool) : Prop :=
  uploads targets a = Some (inr s) /\ is_retryable (tonic.code s) = retryable.

(** What the loop over [attempts] can return. *)
Definition loop_result (targets : list WalkedTarget) (basenames : list bytes) (attempts : list Attempt) (r : list ValidatedPathInfo + UploadError) : Prop :=
  match r with
  | inl infos =>
      exists pre a rest, attempts = pre ++ a :: rest /\ Forall (fun a => exists s, failed targets a s true) pre /\
        ((exists created n, uploads targets a = Some (inl (created, n)) /\ collect (target_info deriver) targets = inl infos) \/
         (exists s, failed targets a s true /\ tonic.code s = tonic.Aborted /\ contains CONCURRENT_PUTPATH_MSG (tonic.message s) = true /\
            all_outputs_already_present (at_find_missing a) (at_query a) basenames = Some infos))
  | inr (UploadExhausted p s) =>
      p = chunked_path /\ exists pre a, attempts = pre ++ [a] /\ Forall (fun a => exists s, failed targets a s true) pre /\ failed targets a s true
  | inr (UploadRejected p s) =>
      p = chunked_path /\ exists pre a rest, attempts = pre ++ a :: rest /\ Forall (fun a => exists s, failed targets a s true) pre /\ failed targets a s false
  | inr _ => False
  end.

Lemma loop_result_retried targets basenames a s attempts r :
  failed targets a s true -> loop_result targets basenames attempts r -> loop_result targets basenames (a :: attempts) r.
Proof.
  intros Hf. assert (Hpre : forall pre, Forall (fun a => exists s, failed targets a s true) pre -> Forall (fun a => exists s, failed targets a s true) (a :: pre)).
  { intros pre Hp. constructor; [by exists s|done]. }
  destruct r as [infos|[p e|p e| |p]]; cbn [loop_result]; [| | |done|done].
  - intros (pre & b & rest & -> & Hp & Hr). exists (a :: pre), b, rest. auto.
  - intros (-> & pre & b & -> & Hp & Hr). split; [done|]. exists (a :: pre), b. auto.
  - intros (-> & pre & b & rest & -> & Hp & Hr). split; [done|]. exists (a :: pre), b, rest. auto.
Qed.

Lemma attempt_loop_spec paths targets basenames attempts last :
  Forall (fun t => exists n, target_of paths t n) targets -> attempts <> [] ->
  exists r, loops targets basenames attempts last = Some r /\ loop_result targets basenames attempts r.
Proof.
  intros Ht. revert last. induction attempts as [|a attempts IH]; intros last Hne; [done|]. cbn [attempt_loop].
  destruct (attempt_upload_total paths targets a Ht) as [[[created n]|s] Ha]; rewrite Ha.
  { destruct (target_infos_total _ _ Ht) as [infos Hi]. rewrite Hi. eexists. split; [done|]. exists [], a, attempts. split; [done|].
    split; [constructor|]. left. by exists created, n. }
  destruct (is_retryable (tonic.code s)) eqn:Hr.
  - match goal with |- context [if ?b then all_outputs_already_present _ _ _ else None] => destruct b eqn:Hc end.
    + apply andb_true_iff in Hc as [Hc Hm]. assert (tonic.code s = tonic.Aborted) as Hab by (by destruct (tonic.code s)).
      destruct (all_outputs_already_present _ _ _) as [infos|] eqn:Hp.
      * eexists. split; [done|]. exists [], a, attempts. split; [done|]. split; [constructor|]. right. by exists s.
      * destruct attempts as [|b attempts]; [|destruct (IH (Some s) ltac:(done)) as (r & -> & Hl); exists r; split; [done|]; by eapply loop_result_retried].
        cbn [attempt_loop exhausted]. rewrite Hr. eexists. split; [done|]. split; [done|]. exists [], a. split; [done|]. split; [constructor|done].
    + destruct attempts as [|b attempts]; [|destruct (IH (Some s) ltac:(done)) as (r & -> & Hl); exists r; split; [done|]; by eapply loop_result_retried].
      cbn [attempt_loop exhausted]. rewrite Hr. eexists. split; [done|]. split; [done|]. exists [], a. split; [done|]. split; [constructor|done].
  - cbn [exhausted]. rewrite Hr. eexists. split; [done|]. split; [done|]. exists [], a, attempts. split; [done|]. split; [constructor|done].
Qed.

(** The walks of the outputs. *)
Lemma walk_targets_spec kernel hangs upper paths basenames :
  match walk_targets kernel hangs upper (from_paths paths) basenames with
  | inl targets => Forall2 (fun b t => wt_basename t = b /\ exists i n, assoc b upper = Some i /\ dumps nar_levels i n /\ target_of paths t n) basenames targets
  | inr e => exists b s, b ∈ basenames /\ e = UploadRejected (STORE_PREFIX ++ b) s
  end.
Proof.
  induction basenames as [|b bs IH]; cbn [walk_targets]; [constructor|]. destruct (parse (STORE_PREFIX ++ b)) as [sp|] eqn:Hp; [|exists b, invalid_argument; split; [left|done]].
  unfold walk_output. destruct (hangs b); [eexists b, _; split; [left|done]|].
  pose proof (walk_spec (K := kernel b) upper b paths) as Hw. destruct (walk_output_blocking (K := kernel b) upper b (from_paths paths)) as [[w|e]|];
    [|exists b, internal; split; [left|done]|done].
  destruct Hw as (i & n & Ha & Hd & ->). destruct (walk_targets kernel hangs upper (from_paths paths) bs) as [ts|e].
  - constructor; [|done]. split; [done|]. exists i, n. split_and!; [done..|]. by constructor.
  - destruct IH as (b' & s & Hin & ->). exists b', s. split; [by right|done].
Qed.
End Outcome.

(** ** The theorem *)

(** C18: what an upload reports.  Whatever the disk and the store do, the upload
    does not panic and reports no invalid reference.  A walk that fails is a
    rejection that names the output, and no attempt is made.  Otherwise, success
    means that an attempt was committed, and the infos are those of the walks, or
    that the store aborted one for a concurrent upload that had finished by then;
    [UploadExhausted] means that all eight attempts failed with a retryable
    status, of which it carries the last; and [UploadRejected] carries the status
    of the only attempt that failed for good.  The attempts before the last one
    all failed with a retryable status, so a rejection may come after several. *)
Theorem upload_outcome `{H : Blake3} `{P : Prost} `{F : FastCDC} {C : NixCrypto} `{!Blake3Laws H} `{!FastCDCLaws F} `{!FastCDCLocal F}
    token_ok deriver input_closure kernel hangs upper env basenames :
  let paths := input_closure ++ List.map (app STORE_PREFIX) basenames in
  exists r, upload_outputs_chunked token_ok deriver input_closure kernel hangs upper env basenames = Some r /\
    match walk_targets kernel hangs upper (from_paths paths) basenames with
    | inr e => r = inr e /\ exists b s, b ∈ basenames /\ e = UploadRejected (STORE_PREFIX ++ b) s
    | inl targets =>
        Forall2 (fun b t => wt_basename t = b /\ exists i n, assoc b upper = Some i /\ dumps nar_levels i n /\ target_of paths t n) basenames targets /\
        loop_result token_ok deriver input_closure targets basenames (List.map env (seq 0 MAX_UPLOAD_RETRIES)) r
    end.
Proof.
  intros paths. unfold upload_outputs_chunked. fold paths. pose proof (walk_targets_spec kernel hangs upper paths basenames) as Hw.
  destruct (walk_targets kernel hangs upper (from_paths paths) basenames) as [targets|e]; [|by eexists].
  destruct (attempt_loop_spec token_ok deriver input_closure paths targets basenames (List.map env (seq 0 MAX_UPLOAD_RETRIES)) None) as (r & Hr & Hl); [|done|by exists r].
  apply Forall_forall. intros t Ht. apply list_elem_of_lookup_1 in Ht as [k Hk]. destruct (Forall2_lookup_r _ _ _ _ _ Hw Hk) as (b & _ & _ & i & n & _ & _ & Hn).
  by exists n.
Qed.

(** ** A concrete upload *)

Definition example_basename : bytes := str "7rjj5xmrxb3n63wlk6mzlwxzxbvg7r3a-glibc".

Definition hello_object : Inode := IFile (mkMeta 420 None) 5 (str "hello").

(** The store is down, then rejects the frame. *)
Definition example_env (k : nat) : Attempt :=
  mkAttempt short_kernel (Some [(example_basename, hello_object)]) (fun _ _ => inr internal)
    (fun _ _ => inr (match k with 0%nat => tonic.mkStatus tonic.Unavailable [] | _ => invalid_argument end)) (fun _ => inr internal) (fun _ => inr internal).

Section Example.
#[local] Existing Instances short_kernel example_blake3 example_blake3_laws example_prost example_cdc example_cdc_laws store_crypto.

Definition example_upload : option (list ValidatedPathInfo + UploadError) :=
  upload_outputs_chunked true [] [] (fun _ => short_kernel) (fun _ => false) [(example_basename, hello_object)] example_env [example_basename].

Lemma upload_outcome_witness :
  example_upload = Some (inr (UploadRejected chunked_path invalid_argument)) /\
  exists r, example_upload = Some r /\
    match walk_targets (fun _ => short_kernel) (fun _ => false) [(example_basename, hello_object)] (from_paths ([] ++ List.map (app STORE_PREFIX) [example_basename])) [example_basename] with
    | inl targets => loop_result true [] [] targets [example_basename] (List.map example_env (seq 0 MAX_UPLOAD_RETRIES)) r
    | inr _ => False
    end.
Proof.
  split; [by vm_compute|].
  destruct (upload_outcome true [] [] (fun _ => short_kernel) (fun _ => false) [(example_basename, hello_object)] example_env [example_basename]) as (r & Hr & Hm).
  exists r. split; [exact Hr|]. destruct (walk_targets _ _ _ _ _) as [targets|e] eqn:Hw; [exact (proj2 Hm)|]. exfalso. revert Hw. by vm_compute.
Defined.
End Example.
