(* ===== verification/BuilderAgree.v ===== *)
(** * Builder and store: the frame of a walked build is accepted

    The frame that the builder assembles from its walks passes the store's
    validation, and the chunks that its reader streams are the ones the store
    asks for; so what the builder has on disk is what readers get. *)

From stdpp Require Import sorting.
From S2P Require Import AuthToken.
From S2P Require Import Prelude NixBytes NixStorePath NixRefScan NixNar NixNarLs NixNarFs StoreManifest StoreCastore StoreWalk StoreNar StoreValid.
From S2P Require Import StoreBuild StoreRoundTrip StorePut StorePutSound StoreVerify StoreVerifySound StoreUpload StoreGet StoreGetSound StoreServe.
From S2P Require Import BuilderWalk BuilderUpload.
Import castore.

#[local] Open Scope Z_scope.

(** ** The message of a directory is valid *)

Section Message.
Context `{H : Blake3} `{P : Prost}.

Lemma map_sorted {A} (nm : A -> bytes) l :
  StronglySorted (fun a b => bytes_ltb (nm a) (nm b) = true) l -> strictly_sorted (List.map nm l).
Proof. unfold strictly_sorted. induction 1 as [|a l _ IH Ha]; cbn [List.map]; constructor; [done|]. by apply Forall_map. Qed.

Lemma message_names es : dir_names (message es) ++ file_names (message es) ++ symlink_names (message es) ≡ₚ List.map fst es.
Proof.
  pose proof (Permutation_map child_name (message_permutation es)) as Hp. rewrite !List.map_app, !List.map_map in Hp.
  rewrite (List.map_ext (fun e => child_name (entry_child e)) fst) in Hp by apply entry_child_name. exact Hp.
Qed.

Lemma message_child c es :
  c ∈ List.map CDir (directories (message es)) ++ List.map CFile (files (message es)) ++ List.map CSymlink (symlinks (message es)) <->
  exists e, e ∈ es /\ c = entry_child e.
Proof. rewrite message_permutation, list_elem_of_In, in_map_iff. setoid_rewrite list_elem_of_In. naive_solver. Qed.

Lemma message_dir es d : d ∈ directories (message es) <-> exists name ns, (name, NixNar.Directory ns) ∈ es /\
  d = mkDirectoryEntry name (node_digest (NixNar.Directory ns)) (size_of ns).
Proof.
  transitivity (exists e, e ∈ es /\ CDir d = entry_child e).
  - rewrite <- message_child, !elem_of_app, !list_elem_of_In, !in_map_iff. naive_solver.
  - split; [intros ([name m] & Hin & He)|intros (name & ns & Hin & ->); by eexists]. destruct m as [|ns|]; try done. injection He as ->. by exists name, ns.
Qed.

Lemma message_file es f : f ∈ files (message es) <-> exists name x c, (name, Regular x c) ∈ es /\ f = mkFileEntry name (digest c) (len c) x.
Proof.
  transitivity (exists e, e ∈ es /\ CFile f = entry_child e).
  - rewrite <- message_child, !elem_of_app, !list_elem_of_In, !in_map_iff. naive_solver.
  - split; [intros ([name m] & Hin & He)|intros (name & x & c & Hin & ->); by eexists]. destruct m as [x c| |]; try done. injection He as ->. by exists name, x, c.
Qed.

Lemma message_symlink es s : s ∈ symlinks (message es) <-> exists name t, (name, NixNar.Symlink t) ∈ es /\ s = mkSymlinkEntry name t.
Proof.
  transitivity (exists e, e ∈ es /\ CSymlink s = entry_child e).
  - rewrite <- message_child, !elem_of_app, !list_elem_of_In, !in_map_iff. naive_solver.
  - split; [intros ([name m] & Hin & He)|intros (name & t & Hin & ->); by eexists]. destruct m as [| |t]; try done. injection He as ->. by exists name, t.
Qed.

Context `{!Blake3Width H}.

Lemma message_valid levels es :
  ls_wf (S levels) (NixNar.Directory es) -> (forall name t, (name, NixNar.Symlink t) ∈ es -> target_ok t = true) ->
  directory_valid (message es) /\ directory_typed (message es).
Proof.
  intros (Hl & Hn & Hf)%ls_wf_S Ht. pose proof (message_names es) as Hp.
  assert (Hs : forall (A : Type) (f : Child -> option A) (nm : A -> bytes), (forall c a, f c = Some a -> child_name c = nm a) -> strictly_sorted (List.map nm (omap f (List.map entry_child es)))).
  { intros A f nm Hnm. apply map_sorted, omap_sorted; [done|]. rewrite List.map_map, (List.map_ext _ fst) by apply entry_child_name.
    by apply names_after_sorted in Hn as [? _]. }
  assert (Hms : message es = split_children (List.map entry_child es)) by (symmetry; apply split_message).
  split; [constructor|].
  - assert (entry_count (message es) = length es) as ->.
    { apply Permutation_length in Hp. rewrite !length_app in Hp. unfold dir_names, file_names, symlink_names in Hp. rewrite !length_map in Hp. unfold entry_count. lia. }
    apply lt_max_dir in Hl. unfold MAX_CASTORE_DIR_ENTRIES. lia.
  - rewrite Hp. apply Forall_map. eapply Forall_impl; [exact Hf|]. by intros e [? _].
  - unfold dir_names, file_names, symlink_names. rewrite Hms. cbn [split_children directories files symlinks].
    split_and!; apply Hs; by intros [] a [= <-].
  - rewrite Hp. by apply names_after_NoDup in Hn.
  - apply Forall_forall. intros d (name & ns & _ & ->)%message_dir. cbn [d_digest]. rewrite node_digest_directory. apply digest_length.
  - apply Forall_forall. intros f (name & x & c & _ & ->)%message_file. cbn [f_digest]. apply digest_length.
  - apply Forall_forall. intros s (name & t & Hin & ->)%message_symlink. cbn [s_target]. by eapply Ht.
  - apply Forall_forall. intros f (name & x & c & Hin & ->)%message_file. cbn [f_size]. rewrite Forall_forall in Hf. destruct (Hf _ Hin) as [_ Hw].
    cbn [snd] in Hw. destruct levels; [done|]. apply ls_wf_S in Hw. split; [apply Nat2Z.is_nonneg|exact Hw].
Qed.

(** ** Sizes *)

Lemma node_size_nonneg n : 0 <= node_size n.
Proof. pose proof (skel_nodes n). pose proof (nodes_pos (skel n)). lia. Qed.

Lemma claimed_live ds a :
  Forall (fun e => 0 <= d_size e) ds -> a + sizes_of ds < 2 ^ 64 ->
  fold_left (fun acc c => match acc with Some a => checked_add a (d_size c) | None => None end) ds (Some a) = Some (a + sizes_of ds).
Proof.
  intros Hd. revert a. induction Hd as [|e ds He Hd IH]; intros a Hb; cbn [fold_left sizes_of fold_right] in *; [by rewrite Z.add_0_r|].
  fold (sizes_of ds) in *. assert (0 <= sizes_of ds) by (clear -Hd; induction Hd; cbn [sizes_of fold_right]; unfold sizes_of in *; lia).
  unfold checked_add. destruct (Z.ltb_spec (a + d_size e) (2 ^ 64)); [|lia]. rewrite IH by lia. f_equal. lia.
Qed.

Lemma message_weights es : weights (List.map entry_child es) = size_of es.
Proof.
  induction es as [|[name n] es IH]; [done|]. cbn [List.map weights size_of fold_right snd]. fold (weights (List.map entry_child es)) (size_of es). rewrite IH.
  f_equal. unfold entry_child. by destruct n.
Qed.

Lemma message_claimed es : size_of es < 2 ^ 64 -> claimed_descendants (message es) = Some (size_of es).
Proof.
  intros Hb. pose proof (merged_weights (message es)) as Hw. rewrite (weights_perm _ _ (merged_permutation _)), (weights_perm _ _ (message_permutation es)), message_weights in Hw.
  unfold claimed_descendants. rewrite claimed_live; [by rewrite Hw| |lia]. apply Forall_forall. intros e (name & ns & _ & ->)%message_dir. cbn [d_size].
  apply (node_size_nonneg (NixNar.Directory ns)).
Qed.

Lemma subnode_size n cs p m : (p, m) ∈ subnodes n cs -> node_size m <= node_size n.
Proof.
  revert cs. induction n as [x c|t|es IH] using NarNode_ind'; intros cs; rewrite subnodes_unfold; cbn [below_of].
  - intros [= _ ->]%list_elem_of_singleton. done.
  - intros [= _ ->]%list_elem_of_singleton. done.
  - intros [[= _ ->]|Hin]%elem_of_cons; [done|]. apply list_elem_of_In, in_flat_map in Hin as (e & He & Hin). apply list_elem_of_In in He, Hin.
    rewrite Forall_forall in IH. apply (IH e He) in Hin. cbn [node_size]. clear -H P He Hin.
    assert (node_size (snd e) <= size_of es); [|unfold size_of in *; lia]. clear Hin. induction es as [|e' es IHs]; [by apply elem_of_nil in He|].
    cbn [size_of fold_right]. fold (size_of es). assert (0 <= size_of es) by apply (node_size_nonneg (NixNar.Directory es)).
    pose proof (node_size_nonneg (snd e')). apply elem_of_cons in He as [->|He]; [lia|]. specialize (IHs He). lia.
Qed.

Lemma subnode_wf levels n cs p m : ls_wf levels n -> (p, m) ∈ subnodes n cs -> exists l, ls_wf (S l) m.
Proof.
  revert levels cs. induction n as [x c|t|es IH] using NarNode_ind'; intros levels cs Hw; rewrite subnodes_unfold; cbn [below_of]; (destruct levels as [|levels]; [done|]).
  - intros [= _ ->]%list_elem_of_singleton. by exists levels.
  - intros [= _ ->]%list_elem_of_singleton. by exists levels.
  - intros [[= _ ->]|Hin]%elem_of_cons; [by exists levels|]. apply list_elem_of_In, in_flat_map in Hin as (e & He & Hin). apply list_elem_of_In in He, Hin.
    apply ls_wf_S in Hw as (_ & _ & Hf). rewrite Forall_forall in IH, Hf. destruct (Hf e He) as [_ Hwe]. by apply (IH e He levels _ Hwe Hin).
Qed.

(** A child of a subdirectory is a node of the tree. *)
Lemma subnodes_child n cs p es name m : (p, NixNar.Directory es) ∈ subnodes n cs -> (name, m) ∈ es -> (p ++ [name], m) ∈ subnodes n cs.
Proof.
  revert cs. induction n as [x c|t|ns IH] using NarNode_ind'; intros cs; rewrite subnodes_unfold; cbn [below_of].
  - intros [=]%list_elem_of_singleton.
  - intros [=]%list_elem_of_singleton.
  - intros Hin Hm. right. apply list_elem_of_In, in_flat_map. apply elem_of_cons in Hin as [[= -> ->]|Hin].
    + exists (name, m). split; [by apply list_elem_of_In|]. apply list_elem_of_In. cbn [fst snd]. rewrite subnodes_unfold. left.
    + apply list_elem_of_In, in_flat_map in Hin as (e & He & Hin). exists e. split; [done|]. apply list_elem_of_In in He, Hin. apply list_elem_of_In.
      rewrite Forall_forall in IH. by apply (IH e He).
Qed.
End Message.

(** ** The bodies of the frame *)

Lemma push_bodies_spec seen ds :
  NoDup (List.map fst (push_bodies seen ds)) /\ Forall (fun kv => fst kv ∉ seen /\ kv ∈ ds) (push_bodies seen ds) /\
  forall k, k ∈ List.map fst ds -> k ∉ seen -> k ∈ List.map fst (push_bodies seen ds).
Proof.
  revert seen. induction ds as [|kv ds IH]; intros seen; cbn [push_bodies List.map].
  { split_and!; [constructor|constructor|done]. }
  case_bool_decide as Hin.
  - destruct (IH seen) as (H1 & H2 & H3). split_and!; [done| |].
    + eapply Forall_impl; [exact H2|]. intros x [? ?]. split; [done|by right].
    + intros k [->|Hk]%elem_of_cons Hs; [done|by apply H3].
  - destruct (IH ({[fst kv]} ∪ seen)) as (H1 & H2 & H3). cbn [List.map]. split_and!.
    + constructor; [|done]. intros Hx. apply list_elem_of_In, in_map_iff in Hx as (x & Hx & Hx2). rewrite Forall_forall in H2.
      apply list_elem_of_In in Hx2. destruct (H2 x Hx2) as [Hn _]. rewrite Hx in Hn. set_solver.
    + constructor; [split; [done|left]|]. eapply Forall_impl; [exact H2|]. intros x [? ?]. split; [set_solver|by right].
    + intros k [->|Hk]%elem_of_cons Hs; [left|]. destruct (decide (k = fst kv)) as [->|]; [left|right]. apply H3; [done|set_solver].
Qed.

Section Index.
Context `{H : Blake3} `{P : Prost}.

(** Valid bodies with distinct digests are indexed. *)
Lemma index_bodies_live l m :
  Forall (fun kv => fst kv = directory_digest (snd kv) /\ directory_valid (snd kv)) l -> NoDup (List.map fst l) ->
  (forall k, k ∈ List.map fst l -> m !! k = None) ->
  exists dirs, index_bodies (List.map snd l) m = inl dirs /\ forall k b, dirs !! k = Some b <-> m !! k = Some b \/ (k, b) ∈ l.
Proof.
  intros Hl. revert m. induction Hl as [|[k b] l [Hk Hv] _ IH]; intros m Hn Hm; cbn [List.map index_bodies snd fst] in *.
  { exists m. split; [done|]. intros k b. rewrite elem_of_nil. tauto. }
  apply NoDup_cons in Hn as [Hnk Hn]. rewrite (proj2 (validate_directory_None b) Hv), <- Hk, (Hm k (list_elem_of_here _ _)).
  destruct (IH (<[k := b]> m) Hn) as (dirs & -> & Hd).
  { intros k' Hk'. rewrite lookup_insert_ne by congruence. apply Hm. by right. }
  exists dirs. split; [done|]. intros k' b'. rewrite Hd, lookup_insert_Some, elem_of_cons. split.
  - intros [[[<- <-]|[_ Hx]]|Hx]; auto.
  - intros [Hx|[[= -> ->]|Hx]]; auto. left. right. split; [|done]. intros ->. rewrite (Hm k' (list_elem_of_here _ _)) in Hx. done.
Qed.

Lemma root_denotes_tree `{!Blake3Width H} dirs n : ordered n -> holds_bodies dirs n [] -> root_denotes dirs (tree_root n) (skel n).
Proof.
  intros Ho Hb. pose proof (denotes_entry_child dirs n [] [] Ho Hb) as Hd. unfold root_denotes, tree_root. cbn [node].
  destruct n as [x c|es|t]; [exact Hd| |exact Hd]. unfold entry_child in Hd. cbn [fst snd skel] in *. apply denotes_dir in Hd. by apply denotes_dir.
Qed.
End Index.

(** The limits that the castore form and the NAR put on one output. *)
Record tree_ok `{Blake3} `{FastCDC} (n : NarNode) : Prop := {
  tk_wf : ls_wf nar_levels n;
  tk_fits : tree_fits MAX_NAR_ENTRIES (skel n);
  tk_targets : forall c t, (c, NixNar.Symlink t) ∈ subnodes n [] -> target_ok t = true;
  tk_nar_size : len (serialize n) <= MAX_NAR_SIZE;
  tk_chunks : Z.of_nat (length (flat_map cut (contents n))) <= Manifest.MAX_CHUNKS;
}.

(** BLAKE3 does not collide on the directories and chunks of the outputs. *)
Record no_collisions `{Blake3, Prost} `{FastCDC} (ns : list NarNode) : Prop := {
  nc_dirs : forall n1 n2 c1 c2 es1 es2, n1 ∈ ns -> n2 ∈ ns -> (c1, NixNar.Directory es1) ∈ subnodes n1 [] -> (c2, NixNar.Directory es2) ∈ subnodes n2 [] ->
    node_digest (NixNar.Directory es1) = node_digest (NixNar.Directory es2) -> message es1 = message es2;
  nc_chunks : forall a b, a ∈ flat_map cut (flat_map contents ns) -> b ∈ flat_map cut (flat_map contents ns) -> digest a = digest b -> a = b;
}.

Section Frame.
Context `{H : Blake3} `{P : Prost} `{F : FastCDC} {C : NixCrypto} `{!Blake3Laws H} `{!Blake3Width H} `{!FastCDCLaws F}.
Context (paths : list bytes) (targets : list WalkedTarget) (ns : list NarNode).
Hypothesis Htargets : Forall2 (target_of paths) targets ns.
Hypothesis Hok : Forall tree_ok ns.
Hypothesis Hcol : no_collisions ns.

Definition is_dir_of (k : bytes) (b : castore.Directory) : Prop :=
  exists n c es, n ∈ ns /\ (c, NixNar.Directory es) ∈ subnodes n [] /\ k = node_digest (NixNar.Directory es) /\ b = message es.

Lemma target_elem t : t ∈ targets -> exists n, n ∈ ns /\ target_of paths t n.
Proof.
  intros Ht. apply list_elem_of_lookup_1 in Ht as [k Hk]. destruct (Forall2_lookup_l _ _ _ _ _ Htargets Hk) as (n & Hn & Hto).
  exists n. split; [by eapply list_elem_of_lookup_2|done].
Qed.

Lemma node_elem n : n ∈ ns -> exists t, t ∈ targets /\ target_of paths t n.
Proof.
  intros Hn. apply list_elem_of_lookup_1 in Hn as [k Hk]. destruct (Forall2_lookup_r _ _ _ _ _ Htargets Hk) as (t & Ht & Hto).
  exists t. split; [by eapply list_elem_of_lookup_2|done].
Qed.

Lemma dir_child k b d : is_dir_of k b -> d ∈ directories b -> exists es, is_dir_of (d_digest d) (message es) /\ d_size d = size_of es.
Proof.
  intros (n & c & es & Hn & Hin & -> & ->) (name & es' & Hes & ->)%message_dir. exists es'. split; [|done].
  exists n, (c ++ [name]), es'. split_and!; [done| |done|done]. by eapply subnodes_child.
Qed.

Lemma is_dir_valid k b : is_dir_of k b -> k = directory_digest b /\ directory_valid b /\ directory_typed b.
Proof.
  intros (n & c & es & Hn & Hin & -> & ->). split; [done|]. rewrite Forall_forall in Hok. pose proof (Hok n Hn) as Hto.
  destruct (subnode_wf _ _ _ _ _ (tk_wf _ Hto) Hin) as [l Hl]. apply (message_valid l); [done|]. intros name t Ht.
  apply (tk_targets _ Hto (c ++ [name])). by eapply subnodes_child.
Qed.

Lemma is_dir_det k b b' : is_dir_of k b -> is_dir_of k b' -> b = b'.
Proof. intros (n & c & es & Hn & Hin & -> & ->) (n' & c' & es' & Hn' & Hin' & E & ->). by eapply (nc_dirs _ Hcol n n'). Qed.

Lemma is_dir_size k es : is_dir_of k (message es) -> size_of es < 2 ^ 64.
Proof.
  intros (n & c & es' & Hn & Hin & _ & E). apply subnode_size in Hin. rewrite Forall_forall in Hok.
  assert (size_of es = size_of es') as ->.
  { rewrite <- !message_weights, <- !(weights_perm _ _ (message_permutation _)). by rewrite E. }
  destruct (tk_fits _ (Hok n Hn)) as (Hf & _). rewrite skel_nodes in Hf. cbn [node_size] in Hin. unfold size_of. change MAX_NAR_ENTRIES with 1048576 in Hf. lia.
Qed.

Lemma frame_directories_elem kv : kv ∈ frame_directories targets -> is_dir_of (fst kv) (snd kv).
Proof.
  unfold frame_directories. rewrite merge_sort_Permutation. destruct (push_bodies_spec ∅ (flat_map (fun t => map_to_list (wk_directories (wt_walked t))) targets)) as (_ & Hf & _).
  intros Hkv. rewrite Forall_forall in Hf. destruct (Hf kv Hkv) as [_ Hin]. apply list_elem_of_In, in_flat_map in Hin as (t & Ht & Hin).
  apply list_elem_of_In in Ht, Hin. destruct kv as [k b]. apply elem_of_map_to_list in Hin. destruct (target_elem t Ht) as (n & Hn & Hto).
  rewrite (to_walked _ _ _ Hto) in Hin. cbn [walked wk_directories] in Hin. apply tree_bodies_sound in Hin as (c & es & Hin & -> & ->). by exists n, c, es.
Qed.

Lemma frame_directories_keys k b : is_dir_of k b -> k ∈ List.map fst (frame_directories targets).
Proof.
  intros (n & c & es & Hn & Hin & -> & ->). unfold frame_directories. rewrite merge_sort_Permutation.
  destruct (push_bodies_spec ∅ (flat_map (fun t => map_to_list (wk_directories (wt_walked t))) targets)) as (_ & _ & Hall). apply Hall; [|set_solver].
  destruct (node_elem n Hn) as (t & Ht & Hto). destruct (tree_bodies_all n c es Hin) as [body Hbody].
  apply list_elem_of_In, in_map_iff. exists (node_digest (NixNar.Directory es), body). split; [done|]. apply in_flat_map. exists t.
  split; [by apply list_elem_of_In|]. apply list_elem_of_In, elem_of_map_to_list. by rewrite (to_walked _ _ _ Hto).
Qed.

(** The index of the frame's bodies holds exactly the directories of the outputs. *)
Lemma frame_index : exists dirs, index_bodies (List.map snd (frame_directories targets)) ∅ = inl dirs /\ forall k b, dirs !! k = Some b <-> is_dir_of k b.
Proof.
  destruct (index_bodies_live (frame_directories targets) ∅) as (dirs & Hi & Hd).
  - apply Forall_forall. intros kv Hkv%frame_directories_elem%is_dir_valid. tauto.
  - unfold frame_directories. rewrite merge_sort_Permutation. apply push_bodies_spec.
  - done.
  - exists dirs. split; [done|]. intros k b. rewrite Hd. split.
    + intros [Hx|Hx]; [by rewrite lookup_empty in Hx|]. by apply (frame_directories_elem (k, b)).
    + intros Hkb. right. pose proof (frame_directories_keys k b Hkb) as Hk. apply list_elem_of_In, in_map_iff in Hk as ([k' b'] & <- & Hk). cbn [fst].
      apply list_elem_of_In in Hk. pose proof (frame_directories_elem _ Hk) as Hkb'. cbn [fst snd] in *. by rewrite (is_dir_det _ _ _ Hkb Hkb').
Qed.

Section Dirs.
Context (dirs : gmap bytes castore.Directory) (Hdirs : forall k b, dirs !! k = Some b <-> is_dir_of k b).

Lemma dirs_valid : bodies_valid dirs.
Proof. intros k b Hk%Hdirs%is_dir_valid. split; [tauto|]. apply validate_directory_None. tauto. Qed.

Lemma dirs_hold n : n ∈ ns -> holds_bodies dirs n [].
Proof. intros Hn c es Hin. apply Hdirs. by exists n, c, es. Qed.

Lemma dirs_denote n : n ∈ ns -> root_denotes dirs (tree_root n) (skel n).
Proof.
  intros Hn. apply root_denotes_tree; [|by apply dirs_hold]. rewrite Forall_forall in Hok. by destruct (ls_wf_tidy _ _ (tk_wf _ (Hok n Hn))).
Qed.

Lemma dirs_sizes : check_directory_entry_sizes dirs = inl tt.
Proof.
  unfold check_directory_entry_sizes. assert (forallb (fun kv => forallb (entry_size_ok dirs) (directories (snd kv))) (map_to_list dirs) = true) as ->; [|done].
  apply forallb_forall. intros [k b] Hkb%list_elem_of_In%elem_of_map_to_list%Hdirs. apply forallb_forall. intros d Hd%list_elem_of_In.
  destruct (dir_child k b d Hkb Hd) as (es & Hes & Hsz). unfold entry_size_ok. rewrite (proj2 (Hdirs _ _) Hes). apply bool_decide_eq_true_2.
  rewrite Hsz. apply message_claimed. by eapply is_dir_size.
Qed.

(** Every directory below a reachable one is reachable. *)
Lemma reach_down outs m : forall cs p es,
  (forall c es', (c, NixNar.Directory es') ∈ subnodes m cs -> is_dir_of (node_digest (NixNar.Directory es')) (message es')) ->
  (forall es0, m = NixNar.Directory es0 -> reachable dirs outs (node_digest m)) ->
  (p, NixNar.Directory es) ∈ subnodes m cs -> reachable dirs outs (node_digest (NixNar.Directory es)).
Proof.
  induction m as [x c|t|ms IH] using NarNode_ind'; intros cs p es Hsub Hr; rewrite subnodes_unfold; cbn [below_of].
  - intros [=]%list_elem_of_singleton.
  - intros [=]%list_elem_of_singleton.
  - intros [[= _ ->]|Hin]%elem_of_cons; [by eapply Hr|]. apply list_elem_of_In, in_flat_map in Hin as (e & He & Hin). apply list_elem_of_In in He, Hin.
    rewrite Forall_forall in IH. apply (IH e He (cs ++ [fst e]) p es); [| |done].
    + intros c es' Hc. apply (Hsub c). rewrite subnodes_unfold. right. apply list_elem_of_In, in_flat_map. exists e. by rewrite <- !list_elem_of_In.
    + intros es0 Hes0. apply (reachable_edge _ _ (node_digest (NixNar.Directory ms))); [by eapply Hr|]. exists (message ms).
      split; [apply Hdirs, (Hsub cs); rewrite subnodes_unfold; left|]. apply list_elem_of_In, in_map_iff.
      exists (mkDirectoryEntry (fst e) (node_digest (NixNar.Directory es0)) (size_of es0)). rewrite Hes0. split; [done|]. apply list_elem_of_In, message_dir.
      exists (fst e), es0. rewrite <- Hes0. split; [by destruct e|done].
Qed.

(** Every body is reached from a root, and no other digest is. *)
Lemma dirs_reachable outs d :
  Forall2 (fun out n => vo_root_node out = tree_root n) outs ns -> d ∈ dom dirs <-> reachable dirs outs d.
Proof.
  intros Ho. rewrite elem_of_dom. split.
  - intros [b (n & c & es & Hn & Hin & -> & _)%Hdirs]. apply list_elem_of_lookup_1 in Hn as Hk. destruct Hk as [k Hk].
    destruct (Forall2_lookup_r _ _ _ _ _ Ho Hk) as (out & Hout & Hroot). apply list_elem_of_lookup_2 in Hout.
    apply (reach_down outs n [] c es); [intros c' es' Hc; by exists n, c', es'| |done].
    intros es0 ->. apply reachable_root. exists out. split; [done|]. by rewrite Hroot.
  - induction 1 as [d (out & Hin & Hr)|d c _ [b Hb] (b' & Hb' & Hc)].
    + apply list_elem_of_lookup_1 in Hin as [k Hk]. destruct (Forall2_lookup_l _ _ _ _ _ Ho Hk) as (n & Hn & E). apply list_elem_of_lookup_2 in Hn.
      rewrite E in Hr. unfold tree_root in Hr. cbn [node] in Hr. destruct n as [x c|es|t]; try done. injection Hr as <-. exists (message es).
      apply Hdirs. exists (NixNar.Directory es), [], es. split_and!; [done| |done|done]. rewrite subnodes_unfold. left.
    + apply list_elem_of_In, in_map_iff in Hc as (e & <- & He). apply list_elem_of_In in He. apply Hdirs in Hb'. destruct (dir_child _ _ _ Hb' He) as (es & Hes & _).
      exists (message es). by apply Hdirs.
Qed.
End Dirs.
End Frame.

(** ** The outputs of the frame *)

Section Outputs.
Context `{H : Blake3} `{P : Prost} `{F : FastCDC} {C : NixCrypto} `{!Blake3Width H} `{!FastCDCLaws F} `{!NixCryptoLaws C}.

Definition piece (b : bytes) : bytes * Z := (digest b, len b).

Definition file_parts (n : NarNode) : list (list (bytes * Z)) := List.map (fun c => List.map piece (cut c)) (contents n).

Lemma concat_parts n : concat (file_parts n) = List.map piece (flat_map cut (contents n)).
Proof. unfold file_parts. induction (contents n) as [|c cs IH]; cbn [List.map concat flat_map]; [done|]. by rewrite IH, List.map_app. Qed.

Lemma sum_pieces bs : sum_sizes (List.map piece bs) = len (concat bs).
Proof. induction bs as [|b bs IH]; cbn [List.map sum_sizes fold_right concat]; [done|]. fold (sum_sizes (List.map piece bs)). rewrite IH, len_app. done. Qed.

Lemma skel_files n : tree_files (skel n) = List.map (fun c => (digest c, len c)) (contents n).
Proof.
  induction n as [x c|t|es IH] using NarNode_ind'; [done|done|]. cbn [skel tree_files contents].
  induction IH as [|e es He _ IHs]; cbn [List.map flat_map fst snd]; [done|]. by rewrite He, IHs, List.map_app.
Qed.

Lemma file_parts_of n : parts_of (tree_files (skel n)) (file_parts n).
Proof.
  unfold parts_of, file_parts. rewrite skel_files. apply Forall2_fmap_2, Forall_Forall2_diag, Forall_forall. intros c _. cbn [snd].
  by rewrite sum_pieces, cut_concat.
Qed.

Lemma pieces_chunk_ok bs : Forall (fun b => 0 < len b <= CHUNK_MAX) bs -> Forall chunk_ok (List.map piece bs).
Proof. intros Hb. apply Forall_map. eapply Forall_impl; [exact Hb|]. intros b Hl. cbv beta in Hl. split; cbn [fst snd piece]; [apply digest_length|unfold CHUNK_MAX in *; lia]. Qed.

Lemma cut_all_sizes cs : Forall (fun b => 0 < len b <= CHUNK_MAX) (flat_map cut cs).
Proof. induction cs as [|c cs IH]; cbn [flat_map]; [constructor|]. apply Forall_app. split; [apply cut_sizes|done]. Qed.

Lemma contents_chunk_ok n : Forall chunk_ok (List.map piece (flat_map cut (contents n))).
Proof. apply pieces_chunk_ok, cut_all_sizes. Qed.

Lemma concat_cut cs : concat (flat_map cut cs) = concat cs.
Proof. induction cs as [|c cs IH]; cbn [flat_map concat]; [done|]. by rewrite concat_app, IH, cut_concat. Qed.

(** What validation makes of the output of [t], which is the archive [n]. *)
Definition validated_output (claims : AssignmentClaims) (runs : NarNode -> list FileRun) (t : WalkedTarget) (n : NarNode) : ValidatedOutput :=
  mkValidatedOutput (wt_parsed t) (sha256 (serialize n)) (len (serialize n))
    (omap (fun r => match parse r with inl sp => Some sp | inr _ => None end) (wk_references (wt_walked t))) (tree_root n)
    (List.map piece (flat_map cut (contents n))) (AssignmentClaims.is_ca claims) (runs n).

Lemma parse_full s sp : parse s = inl sp -> sp_full sp = s.
Proof. unfold parse. intros E. repeat (case_match; [|done] || case_match); simplify_eq; done. Qed.

Lemma collect_chunks bs :
  Forall (fun b => 0 < len b <= CHUNK_MAX) bs ->
  collect decode_chunk (List.map (fun c => mkChunkMeta (cr_digest c) (cr_size c)) (List.map chunk_ref bs)) = inl (List.map piece bs).
Proof.
  intros Hb. apply collect_inl. rewrite List.map_map. apply Forall2_fmap_2, Forall_Forall2_diag. eapply Forall_impl; [exact Hb|]. intros b Hl. cbv beta in Hl |- *.
  unfold decode_chunk, digest32. cbn [cm_digest cm_size chunk_ref cr_digest cr_size]. rewrite digest_length. cbn [Nat.eqb].
  destruct (Z.eqb_spec (len b) 0); [lia|]. destruct (Z.ltb_spec FASTCDC_MAX_BYTES (len b)); [unfold CHUNK_MAX in *; lia|]. done.
Qed.

Lemma tree_root_decodes n : (forall c t, (c, NixNar.Symlink t) ∈ subnodes n [] -> target_ok t = true) -> decode_root_node (Some (tree_root n)) = inl (tree_root n).
Proof.
  intros Ht. unfold decode_root_node, tree_root. cbn [node]. destruct n as [x c|es|t].
  - cbn [f_digest]. by rewrite digest_length.
  - rewrite node_digest_directory, digest_length. done.
  - cbn [s_target]. by rewrite (Ht [] t) by left.
Qed.

Lemma serialize_nonempty n : 0 < len (serialize n).
Proof. unfold serialize. rewrite len_app. pose proof (eq_refl : len (write_bytes NAR_MAGIC) = 24). unfold len in *. lia. Qed.

Lemma validate_output_live paths allowed claims t n :
  target_of paths t n -> tree_ok n -> (forall p, p ∈ paths -> p ∈ allowed) ->
  AssignmentClaims.is_ca claims = true \/ wt_store_path t ∈ List.map str (AssignmentClaims.expected_outputs claims) ->
  Z.of_nat (length (wk_references (wt_walked t))) <= MAX_REFERENCES ->
  validate_output claims allowed (chunked_output t) = inl (validated_output claims (fun _ => []) t n).
Proof.
  intros Ht Hk Hp Hc Hr. pose proof (serialize_nonempty n) as Hpos. unfold validate_output, chunked_output, validated_output, parse_path.
  cbn [co_store_path co_nar_hash co_nar_size co_references co_root_node co_chunk_manifest]. rewrite (to_parsed _ _ _ Ht).
  assert (negb (AssignmentClaims.is_ca claims) && negb (existsb (fun e => bytes_eqb (str e) (sp_full (wt_parsed t))) (AssignmentClaims.expected_outputs claims)) = false) as ->.
  { destruct Hc as [->|Hc]; [done|]. apply andb_false_iff. right. apply negb_false_iff, existsb_exists. apply list_elem_of_In, in_map_iff in Hc as (e & He & Hin).
    exists e. split; [done|]. rewrite (parse_full _ _ (to_parsed _ _ _ Ht)). by apply bool_decide_eq_true_2. }
  rewrite (to_walked _ _ _ Ht) in *. cbn [walked wk_nar_hash wk_nar_size wk_references wk_root_node wk_chunk_manifest] in *.
  unfold digest32, check_bound. rewrite sha256_length. cbn [Nat.eqb]. destruct (Z.eqb_spec (len (serialize n)) 0); [lia|].
  destruct (Z.ltb_spec MAX_NAR_SIZE (len (serialize n))); [pose proof (tk_nar_size _ Hk); lia|]. cbn [orb].
  destruct (Z.ltb_spec MAX_REFERENCES (Z.of_nat (length (scan_references paths [serialize n])))); [lia|].
  assert (collect (fun r => if negb (bool_decide (r ∈ allowed)) then inr InvalidArgument else match parse r with inl sp => inl sp | inr _ => inr InvalidArgument end)
    (scan_references paths [serialize n]) = inl (omap (fun r => match parse r with inl sp => Some sp | inr _ => None end) (scan_references paths [serialize n]))) as ->.
  { assert (Hrefs : Forall (fun r => exists sp, parse r = inl sp /\ r ∈ paths) (scan_references paths [serialize n])).
    { apply Forall_forall. intros r. apply scan_references_parse. }
    clear -Hrefs Hp. induction Hrefs as [|r rs (sp & Hsp & Hin) _ IH]; [done|]. cbn [collect omap list_omap]. rewrite bool_decide_eq_true_2 by (by apply Hp).
    cbn [negb]. by rewrite Hsp, IH. }
  rewrite !length_map. destruct (Z.ltb_spec Manifest.MAX_CHUNKS (Z.of_nat (length (flat_map cut (contents n))))); [pose proof (tk_chunks _ Hk); lia|].
  rewrite collect_chunks.
  2:{ apply cut_all_sizes. }
  rewrite sum_pieces, concat_cut. destruct (Z.ltb_spec (len (serialize n)) (len (concat (contents n)))); [pose proof (contents_length n); lia|].
  by rewrite (tree_root_decodes n (tk_targets _ Hk)).
Qed.
End Outputs.

(** ** The plan *)

Lemma distinct_length seen ds : (length (distinct seen ds) <= length ds)%nat.
Proof. revert seen. induction ds as [|d ds IH]; intros seen; cbn [distinct length]; [lia|]. case_bool_decide; cbn [length]; [specialize (IH seen)|specialize (IH (d :: seen))]; lia. Qed.

Lemma distinct_ext s s' ds : (forall d, d ∈ s <-> d ∈ s') -> distinct s ds = distinct s' ds.
Proof.
  revert s s'. induction ds as [|d ds IH]; intros s s' Hs; cbn [distinct]; [done|]. rewrite (bool_decide_ext (d ∈ s) (d ∈ s')) by done.
  case_bool_decide; [by apply IH|]. f_equal. apply IH. intros x. rewrite !elem_of_cons. by rewrite Hs.
Qed.

(** The plan follows the order of first occurrence, without the durable chunks. *)
Lemma plan_chunks_spec durable seen l cs plan :
  (forall d, d ∈ seen <-> d ∈ l) -> plan_chunks durable seen cs = Some plan ->
  List.map pl_digest plan = filter (fun d => d ∉ durable) (distinct l (List.map (fun tc => cr_digest (snd tc)) cs)) /\
  Forall (fun e => exists t c src, (t, c) ∈ cs /\ wk_chunk_sources (wt_walked t) !! cr_digest c = Some src /\
    e = mkChunkFramePlan (cr_digest c) (upper_rel_path src (wt_basename t)) (src_offset src) (src_size src)) plan.
Proof.
  revert seen l plan. induction cs as [|[t c] cs IH]; intros seen l plan Hl; cbn [plan_chunks List.map distinct snd].
  { intros [= <-]. split; [done|constructor]. }
  assert (Hmono : forall plan', Forall (fun e => exists t' c' src, (t', c') ∈ cs /\ wk_chunk_sources (wt_walked t') !! cr_digest c' = Some src /\
      e = mkChunkFramePlan (cr_digest c') (upper_rel_path src (wt_basename t')) (src_offset src) (src_size src)) plan' ->
    Forall (fun e => exists t' c' src, (t', c') ∈ (t, c) :: cs /\ wk_chunk_sources (wt_walked t') !! cr_digest c' = Some src /\
      e = mkChunkFramePlan (cr_digest c') (upper_rel_path src (wt_basename t')) (src_offset src) (src_size src)) plan').
  { intros plan' Hp. eapply Forall_impl; [exact Hp|]. intros e (t' & c' & src & Hin & Hr). exists t', c', src. split; [by right|done]. }
  rewrite (bool_decide_ext (cr_digest c ∈ seen) (cr_digest c ∈ l)) by done. case_bool_decide as Hs.
  { intros Hp. destruct (IH _ _ _ Hl Hp) as [H1 H2]. split; [done|by apply Hmono]. }
  assert (Hl' : forall d, d ∈ {[cr_digest c]} ∪ seen <-> d ∈ cr_digest c :: l) by (intros d; rewrite elem_of_cons; set_solver).
  case_bool_decide as Hd.
  { intros Hp. destruct (IH _ _ _ Hl' Hp) as [H1 H2]. rewrite filter_cons_False by tauto. split; [done|by apply Hmono]. }
  destruct (wk_chunk_sources (wt_walked t) !! cr_digest c) as [src|] eqn:Hsrc; [|done].
  destruct (plan_chunks durable _ cs) as [plan'|] eqn:Hp; [|done]. intros [= <-]. destruct (IH _ _ _ Hl' Hp) as [H1 H2]. rewrite filter_cons_True by done.
  cbn [List.map pl_digest]. split; [by rewrite H1|]. constructor; [|by apply Hmono]. exists t, c, src. split; [left|done].
Qed.

(** ** The frame is accepted *)

(** What the claims of the assignment and the limits of the request ask for. *)
Record uploadable `{Blake3, Prost} `{FastCDC} {C : NixCrypto} (claims : AssignmentClaims) (deriver : bytes) (input_closure : list bytes)
    (targets : list WalkedTarget) (ns : list NarNode) : Prop := {
  up_targets : Forall2 (target_of (input_closure ++ List.map wt_store_path targets)) targets ns;
  up_count : (1 <= length targets)%nat /\ Z.of_nat (length targets) <= MAX_BATCH_OUTPUTS;
  up_distinct : NoDup (List.map wt_store_path targets);
  up_closure : Z.of_nat (length input_closure) <= MAX_INPUT_CLOSURE /\ Forall (fun p => exists sp, parse p = inl sp) input_closure;
  up_closure_digest : AssignmentClaims.input_closure_digest claims = "" \/
    digest_input_closure input_closure = str (AssignmentClaims.input_closure_digest claims);
  up_deriver : exists d, parse deriver = inl d /\ is_derivation d = true /\
    (AssignmentClaims.is_ca claims = true \/ deriver_matches_drv_hash d (str (AssignmentClaims.drv_hash claims)) = true);
  up_expected : AssignmentClaims.is_ca claims = true \/
    Forall (fun t => wt_store_path t ∈ List.map str (AssignmentClaims.expected_outputs claims)) targets;
  up_references : Forall (fun t => Z.of_nat (length (wk_references (wt_walked t))) <= MAX_REFERENCES) targets;
  up_bodies : Z.of_nat (length (frame_directories targets)) <= MAX_DIR_NODES;
  up_trees : Forall tree_ok ns;
  up_collisions : no_collisions ns;
}.

Section Accepted.
Context `{H : Blake3} `{P : Prost} `{F : FastCDC} {C : NixCrypto} `{!Blake3Laws H} `{!Blake3Width H} `{!FastCDCLaws F} `{!NixCryptoLaws C}.
Context (claims : AssignmentClaims) (deriver : bytes) (input_closure : list bytes) (targets : list WalkedTarget) (ns : list NarNode).
Hypothesis Hup : uploadable claims deriver input_closure targets ns.

Definition file_runs (n : NarNode) : list FileRun := runs_of 0 (tree_files (skel n)) (file_parts n).

Definition frame_outputs (runs : NarNode -> list FileRun) : list ValidatedOutput := zip_with (validated_output claims runs) targets ns.

Definition store_chunks : list (bytes * Z) := List.map piece (flat_map cut (flat_map contents ns)).

Lemma frame_chunks runs : all_chunks (frame_outputs runs) = store_chunks.
Proof.
  unfold frame_outputs, store_chunks, all_chunks. pose proof (up_targets _ _ _ _ _ Hup) as Ht. revert Ht. generalize (input_closure ++ List.map wt_store_path targets) as paths. intros paths Ht.
  clear Hup. induction Ht as [|t n ts ms _ _ IH]; cbn [zip_with flat_map]; [done|]. rewrite IH, flat_map_app, List.map_app. done.
Qed.

Lemma frame_digests : List.map (fun tc => cr_digest (snd tc)) (target_chunks targets) = List.map fst store_chunks.
Proof.
  unfold store_chunks, target_chunks. pose proof (up_targets _ _ _ _ _ Hup) as Ht. revert Ht. generalize (input_closure ++ List.map wt_store_path targets) as paths. intros paths Ht.
  clear Hup. induction Ht as [|t n ts ms Hto _ IH]; cbn [flat_map]; [done|]. rewrite flat_map_app, !List.map_app, IH. f_equal.
  rewrite (to_walked _ _ _ Hto). cbn [walked wk_chunk_manifest]. by rewrite !List.map_map.
Qed.

Lemma frame_roots runs : Forall2 (fun out n => vo_root_node out = tree_root n) (frame_outputs runs) ns.
Proof.
  unfold frame_outputs. pose proof (up_targets _ _ _ _ _ Hup) as Ht. revert Ht. generalize (input_closure ++ List.map wt_store_path targets) as paths. intros paths Ht.
  clear Hup. induction Ht as [|t n ts ms _ _ IH]; cbn [zip_with]; constructor; done.
Qed.

Lemma outputs_collected :
  collect (validate_output claims (List.map co_store_path (List.map chunked_output targets) ++ input_closure)) (List.map chunked_output targets) =
    inl (frame_outputs (fun _ => [])).
Proof.
  apply collect_inl. unfold frame_outputs. rewrite List.map_map. change (List.map (fun x => co_store_path (chunked_output x)) targets) with (List.map wt_store_path targets).
  assert (Hp : forall p, p ∈ input_closure ++ List.map wt_store_path targets -> p ∈ List.map wt_store_path targets ++ input_closure) by (intros p; rewrite !elem_of_app; by intros [?|?]; [right|left]).
  pose proof (up_targets _ _ _ _ _ Hup) as Ht. pose proof (up_trees _ _ _ _ _ Hup) as Hk. pose proof (up_references _ _ _ _ _ Hup) as Hr.
  assert (He : Forall (fun t => AssignmentClaims.is_ca claims = true \/ wt_store_path t ∈ List.map str (AssignmentClaims.expected_outputs claims)) targets).
  { destruct (up_expected _ _ _ _ _ Hup) as [Hc|He]; [apply Forall_forall; intros ? _; by left|eapply Forall_impl; [exact He|]; intros ? ?; by right]. }
  revert Ht Hp. generalize (input_closure ++ List.map wt_store_path targets) as paths, (List.map wt_store_path targets ++ input_closure) as allowed. intros paths allowed Ht Hp.
  clear Hup. induction Ht as [|t n ts ms Hto _ IH]; cbn [List.map zip_with]; [constructor|].
  apply Forall_cons in Hk as [Hk1 Hk], Hr as [Hr1 Hr], He as [He1 He]. constructor; [exact (validate_output_live paths allowed claims t n Hto Hk1 Hp He1 Hr1)|by apply IH].
Qed.

Lemma tree_root_typed n : tree_ok n -> root_typed (Some (tree_root n)).
Proof.
  intros Hk. unfold root_typed, tree_root. cbn [node]. destruct n as [x c| |]; [|done|done]. cbn [f_size]. pose proof (tk_wf _ Hk) as Hw.
  apply ls_wf_S in Hw. unfold len in *. lia.
Qed.

Lemma tree_root_ok n : tree_ok n -> root_ok (tree_root n).
Proof. intros Hk. eapply decode_root_spec; [by apply tree_root_typed|apply tree_root_decodes, (tk_targets _ Hk)]. Qed.

Section Tree.
Context (dirs : gmap bytes castore.Directory) (Hdirs : forall k b, dirs !! k = Some b <-> is_dir_of ns k b).

Lemma outputs_aligned :
  collect (fun out => runs <-? align_chunk_runs dirs out; inl (set_runs out runs)) (frame_outputs (fun _ => [])) = inl (frame_outputs file_runs).
Proof.
  apply collect_inl. unfold frame_outputs. pose proof (up_targets _ _ _ _ _ Hup) as Ht. pose proof (up_trees _ _ _ _ _ Hup) as Hk.
  assert (Hd : Forall (fun n => root_denotes dirs (tree_root n) (skel n)) ns) by (apply Forall_forall; intros n Hn; by apply (dirs_denote ns)).
  assert (Hbv : bodies_valid dirs) by (by apply (dirs_valid ns)).
  revert Ht. generalize (input_closure ++ List.map wt_store_path targets) as paths. intros paths Ht.
  clear Hup Hdirs. induction Ht as [|t n ts ms Hto _ IH]; cbn [zip_with]; [constructor|]. apply Forall_cons in Hk as [Hk1 Hk], Hd as [Hd1 Hd]. constructor; [|exact (IH Hk Hd)].
  assert (align_chunk_runs dirs (validated_output claims (fun _ => []) t n) = inl (file_runs n)) as ->; [|done].
  apply align_chunk_runs_spec; cbn [validated_output vo_root_node vo_chunk_manifest]; [done|by apply tree_root_ok|apply chunks_positive, contents_chunk_ok|].
  exists (skel n), (file_parts n). split_and!; [done|by apply tk_fits|apply file_parts_of|symmetry; apply concat_parts|done].
Qed.

Lemma chunk_sizes_agree : check_sizes store_chunks ∅ = inl tt.
Proof.
  apply check_sizes_inl. split; [by intros d s s' _ Hm|]. intros d s s' Hs Hs'. unfold store_chunks in *.
  apply list_elem_of_In, in_map_iff in Hs as (a & [= <- <-] & Ha). apply list_elem_of_In, in_map_iff in Hs' as (b & [= E <-] & Hb).
  apply list_elem_of_In in Ha, Hb. f_equal. symmetry. by apply (nc_chunks _ (up_collisions _ _ _ _ _ Hup)).
Qed.

Lemma chunks_count : Z.of_nat (length store_chunks) <= MAX_BATCH_OUTPUTS * Manifest.MAX_CHUNKS.
Proof.
  unfold store_chunks. rewrite length_map. destruct (up_count _ _ _ _ _ Hup) as [_ Hn]. rewrite (Forall2_length _ _ _ (up_targets _ _ _ _ _ Hup)) in Hn.
  assert (Hc : Z.of_nat (length (flat_map cut (flat_map contents ns))) <= Z.of_nat (length ns) * Manifest.MAX_CHUNKS).
  { pose proof (up_trees _ _ _ _ _ Hup) as Hk. clear -Hk. induction Hk as [|n ms Hk _ IH]; cbn [flat_map length]; [done|].
    rewrite flat_map_app, length_app. pose proof (tk_chunks _ Hk). lia. }
  assert (0 <= Manifest.MAX_CHUNKS) by (by vm_compute). nia.
Qed.

Lemma novel_validated (durable : gset bytes) :
  validate_novel (filter (fun d => d ∉ durable) (distinct [] (List.map fst store_chunks))) (frame_outputs file_runs) =
    inl (filter (fun d => d ∉ durable) (distinct [] (List.map fst store_chunks))).
Proof.
  unfold validate_novel, check_bound. rewrite frame_chunks. set (l := distinct [] (List.map fst store_chunks)).
  assert (Hle : (length (filter (fun d => d ∉ durable) l) <= length store_chunks)%nat).
  { etrans; [apply sublist_length, sublist_filter|]. etrans; [apply distinct_length|]. by rewrite length_map. }
  destruct (Z.ltb_spec (MAX_BATCH_OUTPUTS * Manifest.MAX_CHUNKS) (Z.of_nat (length (filter (fun d => d ∉ durable) l)))) as [Hgt|_]; [pose proof chunks_count; lia|].
  apply (check_novel_inl _ l); [apply distinct_NoDup| | |split; [done|apply sublist_filter]].
  - apply Forall_forall. intros d [Hd _]%distinct_In. unfold store_chunks in Hd. rewrite List.map_map in Hd. apply list_elem_of_In, in_map_iff in Hd as (b & <- & _).
    apply digest_length.
  - intros d i. rewrite (first_occurrence_spec _ []); [rewrite lookup_empty, map_size_empty; unfold l; naive_solver|].
    intros x. rewrite lookup_empty. split; [by intros ?%elem_of_nil|by intros []].
Qed.

Lemma tree_validated (begin : PutPathChunkedBegin) (durable : gset bytes) :
  pb_novel begin = filter (fun d => d ∉ durable) (distinct [] (List.map fst store_chunks)) ->
  validate_tree begin (frame_outputs (fun _ => [])) dirs = Some (inl (mkValidatedBegin (frame_outputs file_runs) dirs (pb_novel begin))).
Proof.
  intros Hn. unfold validate_tree. destruct (reachable_digests_spec dirs (frame_outputs (fun _ => []))) as (r & -> & Hr).
  assert (Hreach : forall d, d ∈ dom dirs <-> reachable dirs (frame_outputs (fun _ => [])) d) by (intros d; apply (dirs_reachable ns dirs Hdirs), frame_roots).
  destruct r as [reached|e]; [|destruct Hr as (d & Hd & Hnd); by rewrite Hreach in Hnd]. destruct Hr as [Hiff _].
  assert (size reached = size dirs) as ->.
  { rewrite <- (size_dom (D := gset bytes)). f_equal. apply set_eq. intros d. by rewrite Hiff, Hreach. }
  rewrite Nat.eqb_refl. cbn [negb]. rewrite (dirs_sizes ns (up_trees _ _ _ _ _ Hup) dirs Hdirs), outputs_aligned, frame_chunks, chunk_sizes_agree, Hn, novel_validated. done.
Qed.
End Tree.

Lemma no_duplicates seen l : NoDup l -> (forall p, p ∈ l -> p ∉ seen) -> has_duplicate seen l = false.
Proof.
  intros Hn. revert seen. induction Hn as [|p l Hp _ IH]; intros seen Hs; cbn [has_duplicate]; [done|].
  rewrite bool_decide_eq_false_2 by (apply Hs; left). cbn [orb]. apply IH. intros q Hq. apply not_elem_of_cons. split; [by intros ->|]. apply Hs. by right.
Qed.

(** The frame, the plan and what the store makes of them. *)
Lemma frame_accepted (durable : gset bytes) :
  exists begin plan dirs, build_begin targets deriver input_closure durable = Some (begin, plan) /\
    List.map pl_digest plan = filter (fun d => d ∉ durable) (distinct [] (List.map fst store_chunks)) /\
    Forall (fun e => exists t c src, (t, c) ∈ target_chunks targets /\ wk_chunk_sources (wt_walked t) !! cr_digest c = Some src /\
      e = mkChunkFramePlan (cr_digest c) (upper_rel_path src (wt_basename t)) (src_offset src) (src_size src)) plan /\
    (forall k b, dirs !! k = Some b <-> is_dir_of ns k b) /\ begin_typed begin /\ pb_novel begin = List.map pl_digest plan /\
    validate_begin begin claims = Some (inl (mkValidatedBegin (frame_outputs file_runs) dirs (List.map pl_digest plan))).
Proof.
  pose proof (up_targets _ _ _ _ _ Hup) as Ht. pose proof (up_trees _ _ _ _ _ Hup) as Hk. pose proof (up_collisions _ _ _ _ _ Hup) as Hc.
  destruct (plan_chunks_total (input_closure ++ List.map wt_store_path targets) targets durable) as [plan Hplan].
  { apply Forall_forall. intros t Hin. destruct (target_elem _ _ _ Ht t Hin) as (n & _ & Hto). by exists n. }
  pose proof (plan_chunks_spec durable ∅ [] _ _ ltac:(set_solver) Hplan) as [Hd Hsrc]. rewrite frame_digests in Hd.
  destruct (frame_index _ targets ns Ht Hk Hc) as (dirs & Hidx & Hdirs). unfold build_begin. rewrite Hplan. eexists _, plan, dirs. split; [done|].
  split; [done|]. split; [done|]. split; [done|]. split; [|split; [done|]].
  - split; cbn [pb_directories pb_outputs].
    + apply Forall_map, Forall_forall. intros kv Hkv. pose proof (frame_directories_elem _ _ _ Ht kv Hkv) as Hkd. by apply (is_dir_valid ns Hk) in Hkd as (_ & _ & ?).
    + apply Forall_map, Forall_forall. intros t Hin. destruct (target_elem _ _ _ Ht t Hin) as (n & Hn & Hto). cbn [chunked_output co_nar_size co_chunk_manifest co_root_node].
      rewrite (to_walked _ _ _ Hto). cbn [walked wk_nar_size wk_chunk_manifest wk_root_node]. split; [unfold len; lia|]. split.
      * rewrite !List.map_map. apply Forall_map, Forall_forall. intros b _. cbn [cm_size chunk_ref cr_size]. unfold len. lia.
      * apply tree_root_typed. rewrite Forall_forall in Hk. by apply Hk.
  - destruct (up_count _ _ _ _ _ Hup) as [Hn1 Hn2]. destruct (up_closure _ _ _ _ _ Hup) as [Hcl1 Hcl2]. destruct (up_deriver _ _ _ _ _ Hup) as (d & Hdp & Hdd & Hdm).
    unfold validate_begin. cbn [pb_outputs pb_input_closure pb_directories pb_deriver]. rewrite bool_decide_eq_false_2 by (destruct targets; [cbn in Hn1; lia|done]).
    unfold check_bound. rewrite !length_map. destruct (Z.ltb_spec MAX_BATCH_OUTPUTS (Z.of_nat (length targets))); [lia|].
    destruct (Z.ltb_spec MAX_INPUT_CLOSURE (Z.of_nat (length input_closure))); [lia|].
    destruct (Z.ltb_spec MAX_DIR_NODES (Z.of_nat (length (frame_directories targets)))); [pose proof (up_bodies _ _ _ _ _ Hup); lia|].
    assert (negb (bytes_eqb (str (AssignmentClaims.input_closure_digest claims)) []) &&
      negb (bytes_eqb (digest_input_closure input_closure) (str (AssignmentClaims.input_closure_digest claims))) = false) as ->.
    { destruct (up_closure_digest _ _ _ _ _ Hup) as [->|E]; [done|]. rewrite E. apply andb_false_iff. right. apply negb_false_iff. by apply bool_decide_eq_true_2. }
    assert (exists sps, collect parse_path input_closure = inl sps) as [sps ->].
    { clear -Hcl2. induction Hcl2 as [|p ps [sp Hsp] _ [sps IH]]; cbn [collect]; [by eexists|]. unfold parse_path at 1. rewrite Hsp, IH. by eexists. }
    unfold parse_path. rewrite Hdp, Hdd. cbn [negb].
    assert (negb (AssignmentClaims.is_ca claims) && negb (deriver_matches_drv_hash d (str (AssignmentClaims.drv_hash claims))) = false) as ->.
    { destruct Hdm as [-> | ->]; [done|]. by rewrite andb_false_r. }
    rewrite Hidx, no_duplicates; [|rewrite List.map_map; apply (up_distinct _ _ _ _ _ Hup)|intros p _; apply not_elem_of_nil].
    rewrite outputs_collected. rewrite (tree_validated dirs Hdirs _ durable) by (cbn [pb_novel]; exact Hd). done.
Qed.
End Accepted.

(** ** The reader *)

Section Reading.
Context `{K : Kernel} (Hq : quiet K).

Lemma read_exact_live fuel path off rest n acc :
  0 <= n <= len rest -> (length rest <= fuel)%nat -> read_exact fuel path off rest n acc = Some (acc ++ take (Z.to_nat n) rest).
Proof.
  revert off rest n acc. induction fuel as [|fuel IH]; intros off rest n acc Hn Hf; cbn [read_exact];
    (destruct (Z.ltb_spec 0 n) as [Hp|Hp]; [|replace n with 0 by lia; cbn; by rewrite app_nil_r]).
  - unfold len in Hn. lia.
  - destruct (read_some_live path off rest n Hq) as [b Hb]. rewrite Hb. apply read_some_spec in Hb as (t & -> & Hl & He); [|done].
    destruct b as [|x p]; [specialize (He eq_refl); rewrite He in Hn; unfold len in Hn; cbn in Hn; lia|]. rewrite len_app in Hn.
    rewrite drop_app_length, IH; [|lia|rewrite length_app in Hf; cbn in Hf; lia]. f_equal. rewrite <- app_assoc. f_equal.
    replace (Z.to_nat n) with (length (x :: p) + Z.to_nat (n - len (x :: p)))%nat by (unfold len in *; lia). by rewrite take_app_add.
Qed.

Lemma not_dot name : is_dot name = false -> bytes_eqb name (str ".") = false /\ bytes_eqb name (str "..") = false.
Proof. unfold is_dot. by intros [? ?]%orb_false_iff. Qed.

(** A file of a dumped object is found again beneath its parent. *)
Lemma resolve_dumps levels i n : forall lv cs rel x c up dir name,
  dumps levels i n -> ls_wf lv n -> (cs ++ rel, Regular x c) ∈ subnodes n cs -> assoc name dir = Some i -> is_dot name = false ->
  exists data k, resolve_beneath up dir (name :: rel) = Some (Some data) /\ c = take k data.
Proof.
  revert i n. induction levels as [|levels IH]; intros i n lv cs rel x c up dir name Hd Hw Hin Ha Hn; [done|].
  destruct (not_dot name Hn) as [E1 E2]. cbn [resolve_beneath]. rewrite E1, E2, Ha. destruct i as [meta sl data|meta entries|t| |], n as [x' c'|es|t']; cbn [dumps] in Hd; try done.
  - cbn in Hin. apply list_elem_of_singleton in Hin. injection Hin as Hr <- <-. rewrite <- (app_nil_r cs) in Hr at 2. apply app_inv_head in Hr as ->.
    destruct Hd as (_ & _ & ->). by exists data, sl.
  - rewrite subnodes_unfold in Hin. apply elem_of_cons in Hin as [[= ]|Hin]. cbn [below_of] in Hin. unfold below in Hin.
    apply list_elem_of_In, in_flat_map in Hin as (e & He & Hin). apply list_elem_of_In in He, Hin. destruct (subnodes_prefix _ _ _ Hin) as [s Hs]. cbn [fst] in Hs.
    rewrite <- app_assoc in Hs. apply app_inv_head in Hs as ->. destruct Hd as [_ Hf]. apply list_elem_of_lookup_1 in He as [k Hk].
    destruct (Forall2_lookup_r _ _ _ _ _ Hf Hk) as (name' & _ & <- & _ & j & Hj & Hdj). destruct lv as [|lv]; [done|]. apply ls_wf_S in Hw as (_ & _ & Hfw).
    rewrite Forall_forall in Hfw. destruct (Hfw e (list_elem_of_lookup_2 _ _ _ Hk)) as [Hne Hwe]. cbn [app]. rewrite app_assoc in Hin.
    apply (IH j (snd e) lv (cs ++ [fst e]) s x c (dir :: up) entries (fst e)); [done|done|done|done|]. by apply ls_name_not_dot.
  - cbn in Hin. by apply list_elem_of_singleton in Hin.
Qed.
End Reading.

(** ** From disk to reader *)

Section RoundTrip.
Context `{K : Kernel} `{H : Blake3} `{P : Prost} `{F : FastCDC} {C : NixCrypto}.
Context `{!Blake3Laws H} `{!Blake3Width H} `{!ProstLaws P} `{!FastCDCLaws F} `{!NixCryptoLaws C}.
Context (claims : AssignmentClaims) (deriver : bytes) (input_closure : list bytes) (targets : list WalkedTarget) (ns : list NarNode).
Context (upper : list (bytes * Inode)).
Hypothesis Hup : uploadable claims deriver input_closure targets ns.
Hypothesis Hdisk : Forall2 (fun t n => exists i, assoc (wt_basename t) upper = Some i /\ dumps nar_levels i n) targets ns.
Hypothesis Hq : quiet K.

Definition chunk_bodies : list bytes := flat_map cut (flat_map contents ns).

(** The chunk with a digest. *)
Definition body (d : bytes) : bytes := default [] (head (filter (fun b => digest b = d) chunk_bodies)).

Lemma body_chunk b : b ∈ chunk_bodies -> body (digest b) = b.
Proof.
  intros Hb. unfold body. destruct (filter (fun b' => digest b' = digest b) chunk_bodies) as [|b' l] eqn:Hf.
  - assert (Hin : b ∈ filter (fun b' => digest b' = digest b) chunk_bodies) by (by apply list_elem_of_filter). rewrite Hf in Hin. by apply elem_of_nil in Hin.
  - cbn. assert (Hin : b' ∈ filter (fun b' => digest b' = digest b) chunk_bodies) by (rewrite Hf; left). apply list_elem_of_filter in Hin as [E Hin].
    by apply (nc_chunks _ (up_collisions _ _ _ _ _ Hup)).
Qed.

Lemma subnode_content n cs p x c : (p, Regular x c) ∈ subnodes n cs -> c ∈ contents n.
Proof.
  revert cs. induction n as [x' c'|t|es IH] using NarNode_ind'; intros cs; rewrite subnodes_unfold; cbn [below_of contents].
  - intros [= _ _ ->]%list_elem_of_singleton. left.
  - intros [=]%list_elem_of_singleton.
  - intros [[=]|Hin]%elem_of_cons. apply list_elem_of_In, in_flat_map in Hin as (e & He & Hin). apply list_elem_of_In in Hin.
    apply list_elem_of_In, in_flat_map. exists e. split; [done|]. apply list_elem_of_In in He. rewrite Forall_forall in IH. apply list_elem_of_In. by eapply IH.
Qed.

Lemma chunk_of_content n c b : n ∈ ns -> c ∈ contents n -> b ∈ cut c -> b ∈ chunk_bodies.
Proof.
  intros Hn Hc Hb. unfold chunk_bodies. apply list_elem_of_In, in_flat_map. exists c. rewrite <- !list_elem_of_In. split; [|done].
  apply list_elem_of_In, in_flat_map. exists n. by rewrite <- !list_elem_of_In.
Qed.

Lemma basename_not_dot t n : target_of (input_closure ++ List.map wt_store_path targets) t n -> is_dot (wt_basename t) = false.
Proof.
  intros Ht. pose proof (to_parsed _ _ _ Ht) as Hp. rewrite (to_path _ _ _ Ht) in Hp. destruct (is_dot (wt_basename t)) eqn:E; [|done]. exfalso.
  unfold is_dot in E. apply orb_true_iff in E as [E|E]; apply bool_decide_eq_true in E; rewrite E in Hp; by vm_compute in Hp.
Qed.

Definition entry_ok (e : ChunkFramePlan) : Prop :=
  exists data, open_chunk_source upper (pl_rel_path e) = Some data /\ 0 <= pl_offset e /\ 0 <= pl_size e /\ pl_offset e + pl_size e <= len data /\
    slice data (pl_offset e) (pl_size e) = body (pl_digest e) /\ digest (body (pl_digest e)) = pl_digest e.

(** The source that the plan names has the bytes of the chunk. *)
Lemma planned_ok t c src :
  (t, c) ∈ target_chunks targets -> wk_chunk_sources (wt_walked t) !! cr_digest c = Some src ->
  entry_ok (mkChunkFramePlan (cr_digest c) (upper_rel_path src (wt_basename t)) (src_offset src) (src_size src)).
Proof.
  intros [Ht _]%target_chunks_elem Hsrc. apply list_elem_of_lookup_1 in Ht as [k Hk].
  destruct (Forall2_lookup_l _ _ _ _ _ (up_targets _ _ _ _ _ Hup) Hk) as (n & Hn & Hto). destruct (Forall2_lookup_l _ _ _ _ _ Hdisk Hk) as (n' & Hn' & i & Ha & Hd).
  rewrite Hn in Hn'. injection Hn' as <-. apply list_elem_of_lookup_2 in Hn. pose proof (up_trees _ _ _ _ _ Hup) as Hok. rewrite Forall_forall in Hok. pose proof (tk_wf _ (Hok n Hn)) as Hw.
  rewrite (to_walked _ _ _ Hto) in Hsrc. cbn [walked wk_chunk_sources] in Hsrc. apply insert_all_lookup in Hsrc as [Hx|Hsrc]; [by rewrite lookup_empty in Hx|].
  destruct (node_sources_elem [] n _ _ (proj1 (ls_wf_tidy _ _ Hw)) Hsrc) as (x & co & Hin & H0 & H1 & Hcut & Hlen & Hdg).
  destruct (resolve_dumps nar_levels i n nar_levels [] (src_rel_path src) x co [] upper (wt_basename t) Hd Hw Hin Ha (basename_not_dot t n Hto)) as (data & m & Hr & Hco).
  exists data. cbn [pl_rel_path pl_offset pl_size pl_digest]. unfold open_chunk_source. rewrite (proj1 (Hq _)).
  assert (upper_rel_path src (wt_basename t) = wt_basename t :: src_rel_path src) as -> by (unfold upper_rel_path; by destruct (src_rel_path src)). rewrite Hr.
  assert (Hsz : 0 <= src_size src) by (rewrite <- Hlen; unfold len; lia).
  assert (Hsl : slice data (src_offset src) (src_size src) = slice co (src_offset src) (src_size src)).
  { rewrite <- (take_drop m data), <- Hco. by apply slice_prefix. }
  assert (Hb : body (cr_digest c) = slice co (src_offset src) (src_size src)).
  { rewrite <- Hdg. apply body_chunk. eapply chunk_of_content; [done| |done]. by eapply subnode_content. }
  split_and!; [done|done|done| |by rewrite Hsl, Hb|by rewrite Hb].
  etrans; [exact H1|]. rewrite Hco. unfold len. rewrite length_take. lia.
Qed.

Lemma read_chunks_live opened total plan :
  match opened with Some (p, data) => open_chunk_source upper p = Some data | None => True end -> Forall entry_ok plan ->
  read_chunks upper opened total plan =
    (List.map (fun e => MChunk (pl_digest e) (body (pl_digest e))) plan, inl (total + fold_right (fun e s => pl_size e + s) 0 plan)).
Proof.
  intros Ho Hp. revert opened total Ho. induction Hp as [|e plan (data & Hd & H0 & H1 & H2 & Hs & Hdg) _ IH]; intros opened total Ho; cbn [read_chunks List.map fold_right].
  { by rewrite Z.add_0_r. }
  assert (match opened with Some (p, d) => if bool_decide (p = pl_rel_path e) then Some d else open_chunk_source upper (pl_rel_path e)
    | None => open_chunk_source upper (pl_rel_path e) end = Some data) as ->.
  { destruct opened as [[p d]|]; [|done]. case_bool_decide as E; [|done]. rewrite E, Hd in Ho. by injection Ho as ->. }
  rewrite (read_exact_live Hq); [|unfold len in *; rewrite length_drop; lia|rewrite length_drop; lia]. cbn [app].
  fold (slice data (pl_offset e) (pl_size e)). rewrite Hs, Hdg. unfold bytes_eqb. rewrite bool_decide_eq_true_2 by done. cbn [negb].
  rewrite IH by done. cbn [fst snd]. do 2 f_equal. lia.
Qed.

(** ** Honest bodies *)

Lemma bodies_of_cut n c : n ∈ ns -> c ∈ contents n -> List.map (body ∘ fst) (List.map piece (cut c)) = cut c.
Proof.
  intros Hn Hc. rewrite List.map_map. rewrite <- (List.map_id (cut c)) at 2. apply map_ext_in. intros b Hb%list_elem_of_In. unfold compose. cbn [fst piece].
  apply body_chunk. by eapply chunk_of_content.
Qed.

Lemma runs_honest n out pre cs :
  n ∈ ns -> (forall c, c ∈ cs -> c ∈ contents n) -> vo_chunk_manifest out = pre ++ concat (List.map (fun c => List.map piece (cut c)) cs) ->
  Forall (run_honest body out) (runs_of (length pre) (List.map (fun c => (digest c, len c)) cs) (List.map (fun c => List.map piece (cut c)) cs)).
Proof.
  intros Hn. revert pre. induction cs as [|c cs IH]; intros pre Hc Hm; cbn [List.map runs_of]; constructor.
  - unfold run_honest, run_slice. cbn [run_chunks fst snd run_digest]. rewrite Hm, drop_app_length. cbn [List.map concat]. rewrite Nat.add_comm, Nat.add_sub, take_app_length.
    rewrite (bodies_of_cut n) by (done || (apply Hc; left)). by rewrite cut_concat.
  - rewrite <- length_app. apply IH; [intros c' Hc'; apply Hc; by right|]. rewrite Hm. cbn [List.map concat]. by rewrite app_assoc.
Qed.

Lemma frame_output_elem runs k out : frame_outputs claims targets ns runs !! k = Some out ->
  exists t n, targets !! k = Some t /\ ns !! k = Some n /\ out = validated_output claims runs t n.
Proof. unfold frame_outputs. rewrite lookup_zip_with_Some. naive_solver. Qed.

Lemma frame_honest dirs novel : honest_bodies body (mkValidatedBegin (frame_outputs claims targets ns file_runs) dirs novel).
Proof.
  split; cbn [vb_outputs].
  - intros c. rewrite (frame_chunks _ _ _ _ _ Hup). unfold store_chunks. intros Hc. apply list_elem_of_In, in_map_iff in Hc as (b & <- & Hb).
    apply list_elem_of_In in Hb. cbn [fst snd piece]. rewrite (body_chunk b Hb). done.
  - intros out run Ho Hr. apply list_elem_of_lookup_1 in Ho as [k Hk]. apply frame_output_elem in Hk as (t & n & _ & Hn & ->). apply list_elem_of_lookup_2 in Hn.
    pose proof (runs_honest n (validated_output claims file_runs t n) [] (contents n) Hn ltac:(done)) as Hh. rewrite Forall_forall in Hh. apply Hh.
    + cbn [validated_output vo_chunk_manifest app]. by rewrite <- concat_parts.
    + cbn [validated_output vo_file_runs] in Hr. unfold file_runs, file_parts in Hr. by rewrite skel_files in Hr.
Qed.
End RoundTrip.

(** ** Serving *)

Section Serving.
Context `{H : Blake3} `{P : Prost} `{F : FastCDC} {C : NixCrypto}.
Context `{!Blake3Laws H} `{!Blake3Width H} `{!ProstLaws P} `{!FastCDCLaws F} `{!NixCryptoLaws C}.
Context (claims : AssignmentClaims) (deriver : bytes) (input_closure : list bytes) (targets : list WalkedTarget) (ns : list NarNode).
Hypothesis Hup : uploadable claims deriver input_closure targets ns.

(** The row of a committed output serves the archive of the object. *)
Lemma output_served dirs k out n :
  (forall k b, dirs !! k = Some b <-> is_dir_of ns k b) -> frame_outputs claims targets ns file_runs !! k = Some out -> ns !! k = Some n ->
  exists parsed, build_parsed (vo_root_node out) dirs MAX_NAR_ENTRIES = inl parsed /\
    forall row lru_at fetch_at, row_holds row (inr (build_manifest (vo_chunk_manifest out))) (ParsedNar.dag parsed) ->
      (forall a b, a ∈ flat_map cut (contents n) -> digest b = digest a -> b = a) -> fetched_all lru_at fetch_at (vo_chunk_manifest out) ->
      exists data, get_path lru_at fetch_at true (mkPathInfoRow (sp_full (vo_store_path out)) (vo_nar_hash out) (vo_nar_size out)) row =
        inl (inl (RInfo (mkPathInfoRow (sp_full (vo_store_path out)) (vo_nar_hash out) (vo_nar_size out))) :: data) /\ all_data data /\ payload data = serialize n.
Proof.
  intros Hdirs Ho Hn. apply frame_output_elem in Ho as (t & n' & _ & Hn' & ->). rewrite Hn in Hn'. injection Hn' as <-. apply list_elem_of_lookup_2 in Hn.
  pose proof (up_trees _ _ _ _ _ Hup) as Hok. pose proof (up_collisions _ _ _ _ _ Hup) as Hcols. pose proof (dirs_denote ns Hok dirs Hdirs n Hn) as Hden.
  rewrite Forall_forall in Hok. pose proof (tk_wf _ (Hok n Hn)) as Hw. pose proof (tk_fits _ (Hok n Hn)) as Hfit.
  assert (Hcol : no_collision n) by (intros c1 es1 c2 es2 H1 H2; by apply (nc_dirs _ Hcols n n c1 c2)).
  destruct (ls_wf_tidy _ _ Hw) as [Htd Hor]. pose proof (index_entry_of n [] root_offset (Forall_nil_2 _) Htd) as He. change (joinc []) with (@nil Z) in He.
  destruct (build_decode n _ Htd Hor Hcol He) as (dag & Hbuild & _ & _).
  cbn [validated_output vo_root_node vo_chunk_manifest vo_store_path vo_nar_hash vo_nar_size]. exists (ParsedNar.mk (index_node n [] root_offset) dag). split.
  { unfold build_parsed. rewrite (tree_to_entries_index _ MAX_NAR_ENTRIES _ n ltac:(done) Hden Hfit (ls_wf_named _ _ Hw)). by rewrite Hbuild. }
  intros row lru_at fetch_at Hrow Hk Hlive. cbn [ParsedNar.dag] in Hrow. set (info := mkPathInfoRow _ _ _). set (ms := List.map piece _) in *.
  destruct (get_path_serves lru_at fetch_at (flat_map cut (contents n)) info row (inr (build_manifest ms)) dag (Chunked ms) n Hk Hw Hfit Hcol Hbuild Hrow) as (data & Hg & Hs).
  - eexists. split; [|done]. apply build_manifest_read_back; [apply contents_chunk_ok|]. unfold ms. rewrite length_map. apply tk_chunks. by apply Hok.
  - exists (List.map cut (contents n)). rewrite <- flat_map_concat. split_and!; [| | |done].
    + rewrite List.map_map. rewrite <- (List.map_id (contents n)) at 2. apply List.map_ext. intros c. apply cut_concat.
    + unfold ms, bodies_for. apply Forall2_fmap_l. apply Forall_Forall2_diag, Forall_forall. intros b _. done.
    + eapply Forall_impl; [apply cut_all_sizes|]. intros b [? _]. done.
  - exists data. split; [done|]. destruct Hs as [(Hd & Hp & _)|(_ & _ & Hx)]; [done|]. destruct Hx. split; [exact Hlive|done].
Qed.
End Serving.

(** ** The theorems *)

(** C2: a build's outputs reach the readers of the store.  Take outputs that the
    fused walk has walked, whose trees are within the limits of the formats, and
    an assignment that covers them; let the outputs be unchanged on disk and no
    system call of the builder fail.  Whatever chunks the store reported as
    durable, the builder's frame is accepted by the store's validation, and the
    reader re-reads every novel chunk from where the walk found it.  When every
    chunk write of the store succeeds, its database answers both queries and its
    backend returns the chunks of the outputs, the store accepts the stream,
    whatever the order in which its writes complete and the bound on their number,
    and proves every deferred file digest.  For each output, the index that the
    commit stores exists; from a row with the manifest and the tree that the
    commit stores, when the cache or the backend gives every chunk with its
    digest, [GetPath] sends exactly the archive of the object that the build left.
    BLAKE3 is assumed not to collide on the chunks and directories of the
    outputs. *)
Theorem output_roundtrip `{K : Kernel} `{H : Blake3} `{P : Prost} `{F : FastCDC} {C : NixCrypto}
    `{!Blake3Laws H} `{!Blake3Width H} `{!ProstLaws P} `{!FastCDCLaws F} `{!NixCryptoLaws C}
    claims deriver input_closure targets ns upper durable :
  uploadable claims deriver input_closure targets ns ->
  Forall2 (fun t n => exists i, assoc (wt_basename t) upper = Some i /\ dumps nar_levels i n) targets ns -> quiet K ->
  exists begin plan frames total vb,
    build_begin targets deriver input_closure durable = Some (begin, plan) /\
    chunk_reader (Some upper) plan = (frames, inl total) /\
    validate_begin begin claims = Some (inl vb) /\
    (forall completes skipped store max tfw clp get,
       (forall k, (completes k).2 = true) -> (forall ds, exists rows, tfw ds = inl rows) -> (forall ps, exists lists, clp ps = inl lists) ->
       (forall k b, b ∈ flat_map cut (flat_map contents ns) -> get k (digest b) = inl (Some b)) ->
       exists up df s, run_verify completes (List.map (fun m => inl (Some m)) frames) vb skipped store max = (inl (Match up df), s) /\
         verify_deferred_runs tfw clp get vb df = inl tt) /\
    forall k n, ns !! k = Some n -> exists out parsed, vb_outputs vb !! k = Some out /\
      build_parsed (vo_root_node out) (vb_directories vb) MAX_NAR_ENTRIES = inl parsed /\
      forall row lru_at fetch_at, row_holds row (inr (build_manifest (vo_chunk_manifest out))) (ParsedNar.dag parsed) ->
        (forall a b, a ∈ flat_map cut (contents n) -> digest b = digest a -> b = a) -> fetched_all lru_at fetch_at (vo_chunk_manifest out) ->
        exists data, get_path lru_at fetch_at true (mkPathInfoRow (sp_full (vo_store_path out)) (vo_nar_hash out) (vo_nar_size out)) row =
          inl (inl (RInfo (mkPathInfoRow (sp_full (vo_store_path out)) (vo_nar_hash out) (vo_nar_size out))) :: data) /\ all_data data /\ payload data = serialize n.
Proof.
  intros Hup Hdisk Hq. destruct (frame_accepted claims deriver input_closure targets ns Hup durable) as (begin & plan & dirs & Hb & Hd & Hsrc & Hdirs & Hty & Hnov & Hv).
  assert (Hplan : Forall (entry_ok ns upper) plan).
  { eapply Forall_impl; [exact Hsrc|]. intros e (t & c & src & Hin & Hs & ->). by eapply planned_ok. }
  eexists begin, plan, _, _, _. split; [done|]. split; [by apply (read_chunks_live ns upper Hq None 0 plan)|]. split; [exact Hv|]. split.
  - intros completes skipped store max tfw clp get Hc Ht Hl Hg. rewrite List.map_map.
    destruct (honest_accepted completes begin claims _ skipped store max (body ns) tfw clp get Hty Hv (frame_honest claims deriver input_closure targets ns Hup dirs _) Hc Ht Hl) as (up & df & s & Hr & Hdf).
    + intros k c. cbn [vb_outputs]. rewrite (frame_chunks _ _ _ _ _ Hup). unfold store_chunks. intros Hin. apply list_elem_of_In, in_map_iff in Hin as (b & <- & Hin).
      apply list_elem_of_In in Hin. cbn [fst piece]. rewrite (body_chunk claims deriver input_closure targets ns Hup b Hin). by apply Hg.
    + exists up, df, s. split; [|exact Hdf]. cbn [vb_novel] in Hr. by rewrite List.map_map in Hr.
  - intros k n Hn. cbn [vb_outputs vb_directories]. destruct (Forall2_lookup_r _ _ _ _ _ Hdisk Hn) as (t & Ht & _).
    exists (validated_output claims file_runs t n). assert (Hout : frame_outputs claims targets ns file_runs !! k = Some (validated_output claims file_runs t n)).
    { unfold frame_outputs. apply lookup_zip_with_Some. by exists t, n. }
    destruct (output_served claims deriver input_closure targets ns Hup dirs k _ n Hdirs Hout Hn) as (parsed & Hp & Hserve). by exists parsed.
Qed.

(** ** A concrete build *)

Definition build_drv : bytes := str "/nix/store/v5sv61sszx301i0x6xysaqzla09nksnd-hello.drv".

Definition build_claims : AssignmentClaims := AssignmentClaims.mk "builder-1" "v5sv61sszx301i0x6xysaqzla09nksnd" ["/nix/store/7rjj5xmrxb3n63wlk6mzlwxzxbvg7r3a-glibc"%string] false 0 None "".

Section Example.
#[local] Existing Instances short_kernel example_blake3 example_blake3_laws example_blake3_width example_prost example_prost_laws
  example_cdc example_cdc_laws example_crypto example_crypto_laws.

Definition build_path : bytes := STORE_PREFIX ++ example_basename.

Definition build_target : WalkedTarget :=
  mkWalkedTarget example_basename build_path (match parse build_path with inl sp => sp | inr _ => mkStorePath [] [] [] end) (walked [build_path] hello_node).

Lemma build_uploadable : uploadable build_claims build_drv [] [build_target] [hello_node].
Proof.
  constructor.
  - constructor; [|constructor]. split; [done|by vm_compute|done].
  - by vm_compute.
  - apply (bool_decide_unpack _). by vm_compute.
  - split; [by vm_compute|constructor].
  - by left.
  - eexists. split; [by vm_compute|]. split; [by vm_compute|]. right. by vm_compute.
  - right. constructor; [|constructor]. left.
  - constructor; [|constructor]. by vm_compute.
  - by vm_compute.
  - constructor; [|constructor]. split.
    + change nar_levels with (S 256). by apply ls_wf_S.
    + split_and!; [by vm_compute|by vm_compute|apply Nat.leb_le; by vm_compute].
    + intros c t Hin. by apply list_elem_of_singleton in Hin.
    + by vm_compute.
    + by vm_compute.
  - split.
    + intros n1 n2 c1 c2 es1 es2 ->%list_elem_of_singleton _ Hin. by apply list_elem_of_singleton in Hin.
    + intros a b _ _. apply example_digest_inj.
Qed.

Lemma output_roundtrip_witness :
  exists begin plan frames total vb,
    build_begin [build_target] build_drv [] ∅ = Some (begin, plan) /\
    chunk_reader (Some [(example_basename, hello_object)]) plan = (frames, inl total) /\
    validate_begin begin build_claims = Some (inl vb).
Proof.
  destruct (output_roundtrip build_claims build_drv [] [build_target] [hello_node] [(example_basename, hello_object)] ∅) as (begin & plan & frames & total & vb & H1 & H2 & H3 & _).
  - exact build_uploadable.
  - constructor; [|constructor]. exists hello_object. split; [by vm_compute|]. change nar_levels with (S 256). by split_and!.
  - exact short_kernel_quiet.
  - exists begin, plan, frames, total, vb. exact (conj H1 (conj H2 H3)).
Defined.
End Example.
