(* ===== verification/NixStderr.v ===== *)
(** * Nix worker protocol: the STDERR loop

    [src/rio-nix/src/protocol/stderr.rs], the server's writer of log, activity
    and error messages, and the reading half of
    [src/rio-nix/src/protocol/client.rs], with the content strings of
    [wire/mod.rs].

    A writer is a sink ([Sink]) that can fail after any number of bytes, and an
    output ([Out]) of which the flushed part has surely reached the peer.  The
    text of an I/O error is left out. *)

From S2P Require Import Prelude NixBytes NixNar NixWire.

#[local] Open Scope Z_scope.

(** ** Writing to a sink *)

Class Sink : Type := {
  (** A write on top of these bytes: fails after so many of its own. *)
  write_fault : bytes -> option nat;
  (** A flush of these bytes fails. *)
  flush_fault : bytes -> bool;
}.

Record Out : Type := mkOut {
  sent : bytes;
  pending : bytes;
}.

Definition written (o : Out) : bytes := sent o ++ pending o.

(** The output stays as it is when a write fails. *)
Definition Put (A : Type) : Type := Out -> (A + WireError) * Out.

#[export] Instance Put_ret : MRet Put := fun A a o => (inl a, o).
#[export] Instance Put_bind : MBind Put := fun A B f m o =>
  match m o with (inl a, o) => f a o | (inr e, o) => (inr e, o) end.

Definition put_fail {A} (e : WireError) : Put A := fun o => (inr e, o).

Fixpoint put_each {A} (f : A -> Put unit) (l : list A) : Put unit :=
  match l with [] => mret tt | a :: l => _ ← f a; put_each f l end.

Section Put.
Context `{K : Sink}.

Definition put_all (b : bytes) : Put unit := fun o =>
  match write_fault (written o) with
  | None => (inl tt, mkOut (sent o) (pending o ++ b))
  | Some k => (inr WireError.Io_Other, mkOut (sent o) (pending o ++ take k b))
  end.

Definition put_flush : Put unit := fun o =>
  if flush_fault (written o) then (inr WireError.Io_Other, o) else (inl tt, mkOut (written o) []).

Definition put_u64 (v : Z) : Put unit := put_all (write_u64 v).

Definition put_bool (b : bool) : Put unit := put_all (send_bool b).

Definition put_string (s : bytes) : Put unit :=
  match send_bytes s with inl b => put_all b | inr e => put_fail e end.

Definition put_strings (items : list bytes) : Put unit :=
  let count := Z.of_nat (length items) in
  if MAX_COLLECTION_COUNT <? count then put_fail (WireError.CollectionTooLarge count)
  else _ ← put_u64 count; put_each put_string items.

Definition put_string_pairs (pairs : list (bytes * bytes)) : Put unit :=
  let count := Z.of_nat (length pairs) in
  if MAX_COLLECTION_COUNT <? count then put_fail (WireError.CollectionTooLarge count)
  else _ ← put_u64 count; put_each (fun kv => _ ← put_string (fst kv); put_string (snd kv)) pairs.
End Put.

(** ** Content strings *)

Definition REPLACEMENT : bytes := [239; 191; 189].

(** The bytes of an ill-formed sequence at the head that one replacement
    character stands for: those that could still have begun a sequence. *)
Definition utf8_bad_len (s : bytes) : nat :=
  match s with
  | [] => 0
  | b0 :: rest =>
      let b1 := rest !! 0%nat in let b2 := rest !! 1%nat in
      let cont := in_range 128 191 in
      let three (ok : bool) := if ok then 2%nat else 1%nat in
      let four (ok : bool) := if ok then if cont b2 then 3%nat else 2%nat else 1%nat in
      if b0 =? 224 then three (in_range 160 191 b1)
      else if ((225 <=? b0) && (b0 <=? 236)) || ((238 <=? b0) && (b0 <=? 239)) then three (cont b1)
      else if b0 =? 237 then three (in_range 128 159 b1)
      else if b0 =? 240 then four (in_range 144 191 b1)
      else if (241 <=? b0) && (b0 <=? 243) then four (cont b1)
      else if b0 =? 244 then four (in_range 128 143 b1)
      else 1%nat
  end.

Fixpoint lossy_loop (fuel : nat) (s : bytes) : bytes :=
  match s with
  | [] => []
  | _ :: _ =>
      match fuel with
      | 0%nat => []
      | S fuel =>
          match utf8_len s with
          | Some n => take n s ++ lossy_loop fuel (drop n s)
          | None => REPLACEMENT ++ lossy_loop fuel (drop (utf8_bad_len s) s)
          end
      end
  end.

(** [String::from_utf8_lossy]. *)
Definition from_utf8_lossy (s : bytes) : bytes := lossy_loop (length s) s.

Definition read_content_string : Recv bytes := b ← read_bytes; mret (from_utf8_lossy b).

(** ** Messages *)

Definition STDERR_NEXT : Z := 0x6f6c6d67.
Definition STDERR_READ : Z := 0x64617461.
Definition STDERR_WRITE : Z := 0x64617416.
Definition STDERR_LAST : Z := 0x616c7473.
Definition STDERR_ERROR : Z := 0x63787470.
Definition STDERR_START_ACTIVITY : Z := 0x53545254.
Definition STDERR_STOP_ACTIVITY : Z := 0x53544f50.
Definition STDERR_RESULT : Z := 0x52534c54.

Record Position : Type := mkPosition {
  ps_file : bytes;
  ps_line : Z;
  ps_column : Z;
}.

Record Trace : Type := mkTrace {
  tr_position : option Position;
  tr_message : bytes;
}.

Record StderrError : Type := mkStderrError {
  se_error_type : bytes;
  se_level : Z;
  se_name : bytes;
  se_message : bytes;
  se_position : option Position;
  se_traces : list Trace;
}.

(** [StderrError::simple]. *)
Definition simple_error (name message : bytes) : StderrError := mkStderrError (str "Error") 0 name message None [].

Module ActivityType.
Inductive ActivityType : Type :=
| Unknown | CopyPath | FileTransfer | Realise | CopyPaths | Builds | Build | OptimiseStore | VerifyPaths | Substitute | QueryPathInfo
| PostBuildHook | BuildWaiting | FetchTree.

Definition to_u64 (a : ActivityType) : Z :=
  match a with
  | Unknown => 0 | CopyPath => 100 | FileTransfer => 101 | Realise => 102 | CopyPaths => 103 | Builds => 104 | Build => 105
  | OptimiseStore => 106 | VerifyPaths => 107 | Substitute => 108 | QueryPathInfo => 109 | PostBuildHook => 110 | BuildWaiting => 111
  | FetchTree => 112
  end.
End ActivityType.
Abbreviation ActivityType := ActivityType.ActivityType.

Module ResultType.
Inductive ResultType : Type :=
| FileLinked | BuildLogLine | UntrustedPath | CorruptedPath | SetPhase | Progress | SetExpected | PostBuildLogLine | FetchStatus.

Definition to_u64 (a : ResultType) : Z :=
  match a with
  | FileLinked => 100 | BuildLogLine => 101 | UntrustedPath => 102 | CorruptedPath => 103 | SetPhase => 104 | Progress => 105
  | SetExpected => 106 | PostBuildLogLine => 107 | FetchStatus => 108
  end.
End ResultType.
Abbreviation ResultType := ResultType.ResultType.

Inductive ResultField : Type :=
| FInt (v : Z)
| FString (s : bytes).

(** ** The server's writer *)

Record StderrWriter : Type := mkStderrWriter {
  sw_writer : Out;
  sw_next_activity_id : Z;
  sw_finished : bool;
  sw_errored : bool;
}.

Definition u64_wrapping_add (a b : Z) : Z := (a + b) mod 2 ^ 64.

(** [pid] is the process id, a [u32]. *)
Definition writer_new (pid : Z) (writer : Out) : StderrWriter :=
  mkStderrWriter writer (Z.shiftl pid 32 + 1) false false.

(** [None] is the panic of the assertion. *)
Definition inner_mut (w : StderrWriter) : option Out :=
  if sw_finished w && negb (sw_errored w) then Some (sw_writer w) else None.

Definition Serve (A : Type) : Type := StderrWriter -> (A + WireError) * StderrWriter.

#[export] Instance Serve_ret : MRet Serve := fun A a w => (inl a, w).
#[export] Instance Serve_bind : MBind Serve := fun A B f m w =>
  match m w with (inl a, w) => f a w | (inr e, w) => (inr e, w) end.

Definition on_writer {A} (m : Put A) : Serve A := fun w =>
  match m (sw_writer w) with
  | (x, o) => (x, mkStderrWriter o (sw_next_activity_id w) (sw_finished w) (sw_errored w))
  end.

Definition update (f : StderrWriter -> StderrWriter) : Serve unit := fun w => (inl tt, f w).

(** The id that is next; the counter moves on. *)
Definition next_id : Serve Z := fun w =>
  (inl (sw_next_activity_id w),
   mkStderrWriter (sw_writer w) (u64_wrapping_add (sw_next_activity_id w) 1) (sw_finished w) (sw_errored w)).

Definition check_not_finished : Serve unit := fun w =>
  (if sw_finished w || sw_errored w then inr WireError.Io_Other else inl tt, w).

Section Writer.
Context `{K : Sink}.

Definition log (msg : bytes) : Serve unit :=
  _ ← check_not_finished;
  on_writer (_ ← put_u64 STDERR_NEXT; _ ← put_string msg; put_flush).

Definition finish : Serve unit :=
  _ ← check_not_finished;
  _ ← on_writer (_ ← put_u64 STDERR_LAST; put_flush);
  update (fun w => mkStderrWriter (sw_writer w) (sw_next_activity_id w) true (sw_errored w)).

Definition write_position (pos : option Position) : Put unit :=
  match pos with
  | Some p => _ ← put_u64 1; _ ← put_string (ps_file p); _ ← put_u64 (ps_line p); put_u64 (ps_column p)
  | None => put_u64 0
  end.

Definition error (err : StderrError) : Serve unit :=
  _ ← check_not_finished;
  _ ← on_writer (
    _ ← put_u64 STDERR_ERROR;
    _ ← put_string (se_error_type err);
    _ ← put_u64 (se_level err);
    _ ← put_string (se_name err);
    _ ← put_string (se_message err);
    _ ← write_position (se_position err);
    _ ← put_u64 (Z.of_nat (length (se_traces err)));
    _ ← put_each (fun t => _ ← write_position (tr_position t); put_string (tr_message t)) (se_traces err);
    put_flush);
  update (fun w => mkStderrWriter (sw_writer w) (sw_next_activity_id w) (sw_finished w) true).

Definition write_field (f : ResultField) : Put unit :=
  match f with
  | FInt v => _ ← put_u64 0; put_u64 v
  | FString s => _ ← put_u64 1; put_string s
  end.

Definition write_fields (fields : list ResultField) : Put unit :=
  _ ← put_u64 (Z.of_nat (length fields)); put_each write_field fields.

Definition start_activity (activity_type : ActivityType) (text : bytes) (level parent_id : Z) (fields : list ResultField) : Serve Z :=
  _ ← check_not_finished;
  id ← next_id;
  _ ← on_writer (
    _ ← put_u64 STDERR_START_ACTIVITY;
    _ ← put_u64 id;
    _ ← put_u64 level;
    _ ← put_u64 (ActivityType.to_u64 activity_type);
    _ ← put_string text;
    _ ← write_fields fields;
    _ ← put_u64 parent_id;
    put_flush);
  mret id.

Definition stop_activity (id : Z) : Serve unit :=
  _ ← check_not_finished;
  on_writer (_ ← put_u64 STDERR_STOP_ACTIVITY; _ ← put_u64 id; put_flush).

Definition result (activity_id : Z) (result_type : ResultType) (fields : list ResultField) : Serve unit :=
  _ ← check_not_finished;
  on_writer (
    _ ← put_u64 STDERR_RESULT;
    _ ← put_u64 activity_id;
    _ ← put_u64 (ResultType.to_u64 result_type);
    _ ← write_fields fields;
    put_flush).
End Writer.

(** ** The client's reader *)

Inductive StderrMessage : Type :=
| MNext (msg : bytes)
| MRead (count : Z)
| MWrite (data : bytes)
| MLast
| MError (e : StderrError)
| MStartActivity (id level activity_type : Z) (text : bytes) (fields : list ResultField) (parent_id : Z)
| MStopActivity (id : Z)
| MResult (activity_id result_type : Z) (fields : list ResultField).

Fixpoint recv_times {A} (m : Recv A) (n : nat) : Recv (list A) :=
  match n with 0%nat => mret [] | S n => a ← m; l ← recv_times m n; mret (a :: l) end.

(** A count that is checked, then so many items. *)
Definition recv_counted {A} (m : Recv A) : Recv (list A) :=
  count ← recv_u64;
  if MAX_COLLECTION_COUNT <? count then wfail (WireError.CollectionTooLarge count)
  else recv_times m (Z.to_nat count).

Definition read_result_field : Recv ResultField :=
  field_type ← recv_u64;
  if field_type =? 0 then v ← recv_u64; mret (FInt v)
  else if field_type =? 1 then s ← read_content_string; mret (FString s)
  else wfail WireError.Io_Other.

Definition read_result_fields : Recv (list ResultField) := recv_counted read_result_field.

Definition read_position : Recv (option Position) :=
  have_pos ← recv_u64;
  if negb (have_pos =? 0) then
    file ← read_content_string;
    line ← recv_u64;
    column ← recv_u64;
    mret (Some (mkPosition file line column))
  else mret None.

Definition read_trace : Recv Trace :=
  trace_pos ← read_position; trace_msg ← read_content_string; mret (mkTrace trace_pos trace_msg).

Definition read_stderr_error : Recv StderrError :=
  error_type ← recv_string;
  level ← recv_u64;
  name ← recv_string;
  message ← read_content_string;
  position ← read_position;
  traces ← recv_counted read_trace;
  mret (mkStderrError error_type level name message position traces).

Definition read_stderr_message : Recv StderrMessage :=
  msg_type ← recv_u64;
  if msg_type =? STDERR_NEXT then msg ← read_content_string; mret (MNext msg)
  else if msg_type =? STDERR_READ then count ← recv_u64; mret (MRead count)
  else if msg_type =? STDERR_WRITE then data ← read_bytes; mret (MWrite data)
  else if msg_type =? STDERR_LAST then mret MLast
  else if msg_type =? STDERR_ERROR then e ← read_stderr_error; mret (MError e)
  else if msg_type =? STDERR_START_ACTIVITY then
    id ← recv_u64;
    level ← recv_u64;
    activity_type ← recv_u64;
    text ← read_content_string;
    fields ← read_result_fields;
    parent_id ← recv_u64;
    mret (MStartActivity id level activity_type text fields parent_id)
  else if msg_type =? STDERR_STOP_ACTIVITY then id ← recv_u64; mret (MStopActivity id)
  else if msg_type =? STDERR_RESULT then
    activity_id ← recv_u64;
    result_type ← recv_u64;
    fields ← read_result_fields;
    mret (MResult activity_id result_type fields)
  else wfail WireError.Io_Other.

Definition MAX_STDERR_MESSAGES : Z := 100000.

Fixpoint drain_loop (n : nat) : Recv unit :=
  match n with
  | 0%nat => wfail WireError.Io_Other
  | S n =>
      m ← read_stderr_message;
      match m with
      | MLast => mret tt
      | MError _ | MRead _ => wfail WireError.Io_Other
      | _ => drain_loop n
      end
  end.

Definition drain_stderr : Recv unit := drain_loop (Z.to_nat MAX_STDERR_MESSAGES).

(** ** Decoding what was encoded *)

Definition decodes {A} (m : Recv A) (a : A) (s : bytes) : Prop :=
  forall r r', reader_ok r -> adv r s r' -> m r = inl (a, r').

Lemma decodes_ret {A} (a : A) : decodes (mret a) a [].
Proof. intros r r' _ ->%adv_nil. done. Qed.

Lemma decodes_bind {A B} (m : Recv A) (k : A -> Recv B) a b s t :
  decodes m a s -> decodes (k a) b t -> decodes (x ← m; k x) b (s ++ t).
Proof.
  intros Hm Hk r r' Hr (r1 & H1 & H2)%adv_app. apply recv_bind_inl. exists a, r1. split; [by apply Hm|].
  apply Hk; [|done]. exact (proj1 (adv_ok _ _ _ H1 Hr)).
Qed.

Lemma decodes_map {A B} (m : Recv A) (f : A -> B) a s : decodes m a s -> decodes (x ← m; mret (f x)) (f a) s.
Proof. intros H. rewrite <- (app_nil_r s). eapply decodes_bind; [exact H|apply decodes_ret]. Qed.

Lemma decodes_run {A} (m : Recv A) a s t pos :
  decodes m a s -> bytes_ok (s ++ t) -> m (mkReader (s ++ t) pos) = inl (a, mkReader t (pos + Z.of_nat (length s))).
Proof. intros Hd Ht. by apply Hd. Qed.

Definition u64 (v : Z) : Prop := 0 <= v < 2 ^ 64.

Lemma decodes_u64 v : u64 v -> decodes recv_u64 v (write_u64 v).
Proof. intros Hv r r' Hr Ha. by apply recv_u64_inl. Qed.

Lemma decodes_bool b : decodes recv_bool b (send_bool b).
Proof.
  destruct b; [apply (decodes_map recv_u64 (fun v => negb (v =? 0)) 1)|apply (decodes_map recv_u64 (fun v => negb (v =? 0)) 0)];
    apply decodes_u64; unfold u64; lia.
Qed.

Lemma decodes_string s : wire_string_ok s -> decodes recv_string s (write_bytes s).
Proof.
  intros [Hl Hu]. rewrite <- (app_nil_r (write_bytes s)). eapply decodes_bind; [intros r r' Hr Ha; by apply read_bytes_inl|].
  intros r r' _ ->%adv_nil. by apply recv_utf8_inl.
Qed.

Lemma utf8_scan_lossy fuel s p : utf8_scan fuel s p = None -> lossy_loop fuel s = s.
Proof.
  revert s p. induction fuel as [|fuel IH]; intros [|b s] p H; cbn [utf8_scan lossy_loop] in *; [done..|].
  destruct (utf8_len (b :: s)) as [n|]; [|done]. erewrite IH by exact H. apply take_drop.
Qed.

(** Valid text passes unchanged. *)
Lemma lossy_valid s : utf8_valid s = true -> from_utf8_lossy s = s.
Proof. unfold utf8_valid, utf8_invalid_at. destruct (utf8_scan _ _ _) eqn:H; [done|]. intros _. by eapply utf8_scan_lossy. Qed.

Lemma decodes_content s : wire_string_ok s -> decodes read_content_string s (write_bytes s).
Proof.
  intros [Hl Hu]. rewrite <- (lossy_valid s Hu) at 1. apply (decodes_map read_bytes from_utf8_lossy s). intros r r' Hr Ha. by apply read_bytes_inl.
Qed.

Lemma decodes_strings l : collection_ok (length l) l -> decodes read_strings l (counted (length l) l).
Proof. intros Hl r r' Hr Ha. by apply read_strings_inl. Qed.

Lemma decodes_pairs l : collection_ok (length l) (unpair l) -> decodes read_string_pairs l (counted (length l) (unpair l)).
Proof. intros Hl r r' Hr Ha. by apply read_string_pairs_inl. Qed.

Lemma decodes_times {A} (m : Recv A) enc l :
  Forall (fun a => decodes m a (enc a)) l -> decodes (recv_times m (length l)) l (flat_map enc l).
Proof.
  induction 1 as [|a l Ha _ IH]; cbn [recv_times length flat_map]; [apply decodes_ret|].
  eapply decodes_bind; [exact Ha|]. by apply (decodes_map (recv_times m (length l)) (cons a)).
Qed.

Lemma decodes_counted {A} (m : Recv A) enc l :
  Z.of_nat (length l) <= MAX_COLLECTION_COUNT -> Forall (fun a => decodes m a (enc a)) l ->
  decodes (recv_counted m) l (write_u64 (Z.of_nat (length l)) ++ flat_map enc l).
Proof.
  intros Hn Hl. change MAX_COLLECTION_COUNT with 1048576 in Hn. eapply decodes_bind; [apply decodes_u64; unfold u64; lia|].
  change MAX_COLLECTION_COUNT with 1048576. destruct (Z.ltb_spec 1048576 (Z.of_nat (length l))); [lia|]. rewrite Nat2Z.id. by apply decodes_times.
Qed.

(** ** What reaches a sink that does not fail *)

Definition quiet_sink (K : Sink) : Prop := (forall b, write_fault b = None) /\ (forall b, flush_fault b = false).

Definition emits (m : Put unit) (s : bytes) : Prop :=
  forall o, exists o', m o = (inl tt, o') /\ written o' = written o ++ s.

Definition flushed (m : Put unit) (s : bytes) : Prop := forall o, m o = (inl tt, mkOut (written o ++ s) []).

Lemma emits_ret : emits (mret tt) [].
Proof. intros o. exists o. by rewrite app_nil_r. Qed.

Lemma emits_bind (m k : Put unit) s t : emits m s -> emits k t -> emits (_ ← m; k) (s ++ t).
Proof.
  intros Hm Hk o. destruct (Hm o) as (o1 & H1 & E1). destruct (Hk o1) as (o2 & H2 & E2). exists o2.
  unfold mbind, Put_bind. rewrite H1. split; [done|]. by rewrite E2, E1, app_assoc.
Qed.

Lemma flushed_bind (m k : Put unit) s t : emits m s -> flushed k t -> flushed (_ ← m; k) (s ++ t).
Proof.
  intros Hm Hk o. destruct (Hm o) as (o1 & H1 & E1). unfold mbind, Put_bind. rewrite H1, Hk, E1. by rewrite <- app_assoc.
Qed.

Lemma emits_each {A} (f : A -> Put unit) enc l : Forall (fun a => emits (f a) (enc a)) l -> emits (put_each f l) (flat_map enc l).
Proof. induction 1; cbn [put_each flat_map]; [apply emits_ret|by apply emits_bind]. Qed.

Definition string_fits (s : bytes) : Prop := Z.of_nat (length s) <= MAX_STRING_LEN.

Section Quiet.
Context `{K : Sink} (Hq : quiet_sink K).

Lemma emits_all b : emits (put_all b) b.
Proof.
  intros o. unfold put_all. rewrite (proj1 Hq). eexists. split; [done|]. unfold written. cbn [sent pending]. apply app_assoc.
Qed.

Lemma flushed_flush : flushed put_flush [].
Proof. intros o. unfold put_flush. by rewrite (proj2 Hq), app_nil_r. Qed.

Lemma emits_u64 v : emits (put_u64 v) (write_u64 v).
Proof. apply emits_all. Qed.

Lemma emits_string s : string_fits s -> emits (put_string s) (write_bytes s).
Proof. intros Hs. unfold put_string. rewrite (proj2 (send_bytes_inl s _) (conj Hs eq_refl)). apply emits_all. Qed.

Lemma emits_strings l :
  Z.of_nat (length l) <= MAX_COLLECTION_COUNT -> Forall string_fits l -> emits (put_strings l) (counted (length l) l).
Proof.
  intros Hn Hl. unfold put_strings. destruct (Z.ltb_spec MAX_COLLECTION_COUNT (Z.of_nat (length l))); [lia|].
  apply emits_bind; [apply emits_u64|]. apply emits_each. eapply Forall_impl; [exact Hl|]. apply emits_string.
Qed.

Lemma emits_pairs l :
  Z.of_nat (length l) <= MAX_COLLECTION_COUNT -> Forall string_fits (unpair l) -> emits (put_string_pairs l) (counted (length l) (unpair l)).
Proof.
  intros Hn Hl. unfold put_string_pairs, counted. destruct (Z.ltb_spec MAX_COLLECTION_COUNT (Z.of_nat (length l))); [lia|].
  apply emits_bind; [apply emits_u64|]. clear Hn H. induction l as [|[k v] l IH]; cbn [unpair flat_map put_each app fst snd] in *; [apply emits_ret|].
  apply Forall_cons in Hl as [Hk Hl]. apply Forall_cons in Hl as [Hv Hl]. rewrite app_assoc.
  apply emits_bind; [apply emits_bind; by apply emits_string|by apply IH].
Qed.
End Quiet.

(** ** The wire form of a message *)

Definition encode_position (p : option Position) : bytes :=
  match p with
  | Some p => write_u64 1 ++ write_bytes (ps_file p) ++ write_u64 (ps_line p) ++ write_u64 (ps_column p)
  | None => write_u64 0
  end.

Definition encode_trace (t : Trace) : bytes := encode_position (tr_position t) ++ write_bytes (tr_message t).

Definition encode_field (f : ResultField) : bytes :=
  match f with FInt v => write_u64 0 ++ write_u64 v | FString s => write_u64 1 ++ write_bytes s end.

Definition encode_fields (fs : list ResultField) : bytes := write_u64 (Z.of_nat (length fs)) ++ flat_map encode_field fs.

Definition encode_error (e : StderrError) : bytes :=
  write_bytes (se_error_type e) ++ write_u64 (se_level e) ++ write_bytes (se_name e) ++ write_bytes (se_message e) ++
  encode_position (se_position e) ++ write_u64 (Z.of_nat (length (se_traces e))) ++ flat_map encode_trace (se_traces e).

Definition encode_message (m : StderrMessage) : bytes :=
  match m with
  | MNext msg => write_u64 STDERR_NEXT ++ write_bytes msg
  | MRead count => write_u64 STDERR_READ ++ write_u64 count
  | MWrite data => write_u64 STDERR_WRITE ++ write_bytes data
  | MLast => write_u64 STDERR_LAST
  | MError e => write_u64 STDERR_ERROR ++ encode_error e
  | MStartActivity id level ty text fields parent =>
      write_u64 STDERR_START_ACTIVITY ++ write_u64 id ++ write_u64 level ++ write_u64 ty ++ write_bytes text ++ encode_fields fields ++
      write_u64 parent
  | MStopActivity id => write_u64 STDERR_STOP_ACTIVITY ++ write_u64 id
  | MResult id ty fields => write_u64 STDERR_RESULT ++ write_u64 id ++ write_u64 ty ++ encode_fields fields
  end.

(** Texts are valid UTF-8 of at most 64 MiB and lists have at most 1,048,576
    items. *)
Definition position_ok (p : option Position) : Prop :=
  match p with Some p => wire_string_ok (ps_file p) /\ u64 (ps_line p) /\ u64 (ps_column p) | None => True end.

Definition trace_ok (t : Trace) : Prop := position_ok (tr_position t) /\ wire_string_ok (tr_message t).

Definition field_ok (f : ResultField) : Prop := match f with FInt v => u64 v | FString s => wire_string_ok s end.

Definition fields_ok (fs : list ResultField) : Prop := Z.of_nat (length fs) <= MAX_COLLECTION_COUNT /\ Forall field_ok fs.

Definition error_ok (e : StderrError) : Prop :=
  wire_string_ok (se_error_type e) /\ u64 (se_level e) /\ wire_string_ok (se_name e) /\ wire_string_ok (se_message e) /\
  position_ok (se_position e) /\ Z.of_nat (length (se_traces e)) <= MAX_COLLECTION_COUNT /\ Forall trace_ok (se_traces e).

Definition message_ok (m : StderrMessage) : Prop :=
  match m with
  | MNext msg => wire_string_ok msg
  | MRead count => u64 count
  | MWrite data => string_fits data
  | MLast => True
  | MError e => error_ok e
  | MStartActivity id level ty text fields parent => u64 id /\ u64 level /\ u64 ty /\ wire_string_ok text /\ fields_ok fields /\ u64 parent
  | MStopActivity id => u64 id
  | MResult id ty fields => u64 id /\ u64 ty /\ fields_ok fields
  end.

Create HintDb wire.
#[export] Hint Resolve decodes_u64 decodes_string decodes_content decodes_ret : wire.

(** Read the fields in turn; the last step rebuilds the value. *)
Ltac decode_fields := repeat (first [apply decodes_ret | (eapply decodes_bind; [solve [eauto with wire]|cbv beta])]).

Lemma decodes_position p : position_ok p -> decodes read_position p (encode_position p).
Proof.
  intros Hp. unfold read_position. destruct p as [[f l c]|]; cbn [encode_position position_ok ps_file ps_line ps_column] in *.
  - destruct Hp as (Hf & Hl & Hc). eapply decodes_bind; [apply decodes_u64; unfold u64; lia|]. cbn [Z.eqb negb].
    rewrite <- (app_nil_r (write_u64 c)). decode_fields.
  - rewrite <- (app_nil_r (write_u64 0)). eapply decodes_bind; [apply decodes_u64; unfold u64; lia|apply decodes_ret].
Qed.

Lemma decodes_trace t : trace_ok t -> decodes read_trace t (encode_trace t).
Proof.
  intros [Hp Hm]. destruct t as [p m]. unfold encode_trace. eapply decodes_bind; [by apply decodes_position|].
  by apply (decodes_map _ (mkTrace p)), decodes_content.
Qed.

Lemma decodes_field f : field_ok f -> decodes read_result_field f (encode_field f).
Proof.
  intros Hf. unfold read_result_field. destruct f as [v|s]; cbn [encode_field field_ok] in *;
    (eapply decodes_bind; [apply decodes_u64; unfold u64; lia|]); cbn [Z.eqb Pos.eqb].
  - by apply (decodes_map _ FInt), decodes_u64.
  - by apply (decodes_map _ FString), decodes_content.
Qed.

Lemma decodes_fields fs : fields_ok fs -> decodes read_result_fields fs (encode_fields fs).
Proof. intros [Hn Hf]. apply decodes_counted; [done|]. eapply Forall_impl; [exact Hf|]. apply decodes_field. Qed.

Lemma decodes_error e : error_ok e -> decodes read_stderr_error e (encode_error e).
Proof.
  intros (H1 & H2 & H3 & H4 & H5 & H6 & H7). destruct e as [ty lv nm msg p ts]. unfold encode_error, read_stderr_error.
  cbn [se_error_type se_level se_name se_message se_position se_traces] in *.
  do 4 (eapply decodes_bind; [solve [eauto with wire]|]). eapply decodes_bind; [by apply decodes_position|].
  apply (decodes_map _ (mkStderrError ty lv nm msg p)). apply decodes_counted; [done|]. eapply Forall_impl; [exact H7|]. apply decodes_trace.
Qed.

#[export] Hint Resolve decodes_fields decodes_error : wire.

(** Pick the branch of a constant tag. *)
Ltac pick_tag :=
  cbv beta;
  repeat match goal with |- context [if ?a =? ?b then _ else _] => let v := eval vm_compute in (a =? b) in change (a =? b) with v; cbv iota end.

Lemma decodes_tag c k (m : StderrMessage) s :
  u64 c -> decodes (k c) m s -> decodes (x ← recv_u64; k x) m (write_u64 c ++ s).
Proof. intros Hc. apply decodes_bind. by apply decodes_u64. Qed.

Lemma decodes_message m : message_ok m -> decodes read_stderr_message m (encode_message m).
Proof.
  intros Hm. unfold read_stderr_message. destruct m; cbn [encode_message message_ok] in *;
    try (rewrite <- (app_nil_r (write_u64 STDERR_LAST))); (apply decodes_tag; [by vm_compute|]); pick_tag.
  - by apply (decodes_map _ MNext), decodes_content.
  - by apply (decodes_map _ MRead), decodes_u64.
  - apply (decodes_map _ MWrite). intros r r' Hr Ha. by apply read_bytes_inl.
  - apply decodes_ret.
  - by apply (decodes_map _ MError), decodes_error.
  - destruct_and! Hm. do 5 (eapply decodes_bind; [solve [eauto with wire]|]).
    by apply (decodes_map _ (MStartActivity id level activity_type text fields)), decodes_u64.
  - by apply (decodes_map _ MStopActivity), decodes_u64.
  - destruct_and! Hm. do 2 (eapply decodes_bind; [solve [eauto with wire]|]). by apply (decodes_map _ (MResult activity_id result_type)), decodes_fields.
Qed.

(** ** What the server writes *)

Lemma wire_fits s : wire_string_ok s -> string_fits s.
Proof. by intros [? _]. Qed.

Section Emits.
Context `{K : Sink} (Hq : quiet_sink K).
#[local] Hint Resolve emits_u64 emits_string wire_fits flushed_flush : wire.

Lemma emits_position p : position_ok p -> emits (write_position p) (encode_position p).
Proof.
  intros Hp. destruct p as [[f l c]|]; cbn [write_position encode_position position_ok ps_file ps_line ps_column] in *; [|auto with wire].
  destruct Hp as (Hf & _ & _). repeat apply emits_bind; auto with wire.
Qed.

Lemma emits_field f : field_ok f -> emits (write_field f) (encode_field f).
Proof. intros Hf. destruct f; apply emits_bind; auto with wire. Qed.

Lemma emits_fields fs : fields_ok fs -> emits (write_fields fs) (encode_fields fs).
Proof.
  intros [_ Hf]. apply emits_bind; [auto with wire|]. apply emits_each. eapply Forall_impl; [exact Hf|]. apply emits_field.
Qed.

Lemma emits_traces ts :
  Forall trace_ok ts -> emits (put_each (fun t => _ ← write_position (tr_position t); put_string (tr_message t)) ts) (flat_map encode_trace ts).
Proof.
  intros Ht. apply emits_each. eapply Forall_impl; [exact Ht|]. intros t [Hp Hm]. apply emits_bind; [by apply emits_position|auto with wire].
Qed.
End Emits.

(** ** Sequences of calls *)

Inductive Op : Type :=
| OpLog (msg : bytes)
| OpFinish
| OpError (e : StderrError)
| OpStart (ty : ActivityType) (text : bytes) (level parent : Z) (fields : list ResultField)
| OpStop (id : Z)
| OpResult (id : Z) (ty : ResultType) (fields : list ResultField).

(** The id that [start_activity] returns. *)
Definition run_op `{Sink} (op : Op) : Serve (option Z) :=
  match op with
  | OpLog msg => _ ← log msg; mret None
  | OpFinish => _ ← finish; mret None
  | OpError e => _ ← error e; mret None
  | OpStart ty text level parent fields => id ← start_activity ty text level parent fields; mret (Some id)
  | OpStop id => _ ← stop_activity id; mret None
  | OpResult id ty fields => _ ← result id ty fields; mret None
  end.

(** Calls go on after one that failed. *)
Fixpoint run_ops `{Sink} (ops : list Op) (w : StderrWriter) : list (option Z + WireError) * StderrWriter :=
  match ops with
  | [] => ([], w)
  | op :: ops =>
      let r := run_op op w in
      let rs := run_ops ops (snd r) in
      (fst r :: fst rs, snd rs)
  end.

Definition terminal (op : Op) : bool := match op with OpFinish | OpError _ => true | _ => false end.

Definition message_of (next : Z) (op : Op) : StderrMessage :=
  match op with
  | OpLog msg => MNext msg
  | OpFinish => MLast
  | OpError e => MError e
  | OpStart ty text level parent fields => MStartActivity next level (ActivityType.to_u64 ty) text fields parent
  | OpStop id => MStopActivity id
  | OpResult id ty fields => MResult id (ResultType.to_u64 ty) fields
  end.

Definition next_after (next : Z) (op : Op) : Z := match op with OpStart _ _ _ _ _ => next + 1 | _ => next end.

(** The messages of a live writer: up to the first terminal one. *)
Fixpoint messages (next : Z) (ops : list Op) : list StderrMessage :=
  match ops with
  | [] => []
  | op :: ops => message_of next op :: if terminal op then [] else messages (next_after next op) ops
  end.

Definition op_ok (op : Op) : Prop :=
  match op with
  | OpLog msg => wire_string_ok msg
  | OpFinish => True
  | OpError e => error_ok e
  | OpStart _ text level parent fields => wire_string_ok text /\ u64 level /\ u64 parent /\ fields_ok fields
  | OpStop id => u64 id
  | OpResult id _ fields => u64 id /\ fields_ok fields
  end.

Definition live (w : StderrWriter) : Prop := sw_finished w = false /\ sw_errored w = false.

Definition activity_id (m : StderrMessage) : option Z := match m with MStartActivity id _ _ _ _ _ => Some id | _ => None end.

Definition is_last (m : StderrMessage) : bool := match m with MLast => true | _ => false end.
Definition is_error (m : StderrMessage) : bool := match m with MError _ => true | _ => false end.

(** A terminated writer refuses everything, whatever the sink does. *)
Lemma run_op_dead `{K : Sink} op w : ~ live w -> run_op op w = (inr WireError.Io_Other, w).
Proof.
  intros Hd. assert (Hc : check_not_finished w = (inr WireError.Io_Other, w)).
  { unfold check_not_finished. destruct (sw_finished w) eqn:H1; [done|]. destruct (sw_errored w) eqn:H2; [done|]. destruct Hd. by split. }
  destruct op; unfold run_op, log, finish, error, start_activity, stop_activity, result, mbind, Serve_bind; by rewrite Hc.
Qed.

Lemma run_ops_dead `{K : Sink} ops w : ~ live w -> run_ops ops w = (repeat (inr WireError.Io_Other) (length ops), w).
Proof.
  intros Hd. induction ops as [|op ops IH]; cbn [run_ops length repeat]; [done|]. rewrite run_op_dead by done. cbn [fst snd]. by rewrite IH.
Qed.

Lemma on_writer_flushed (m : Put unit) s w :
  flushed m s ->
  on_writer m w = (inl tt, mkStderrWriter (mkOut (written (sw_writer w) ++ s) []) (sw_next_activity_id w) (sw_finished w) (sw_errored w)).
Proof. intros Hm. unfold on_writer. by rewrite Hm. Qed.

Lemma check_live w : live w -> check_not_finished w = (inl tt, w).
Proof. intros [H1 H2]. unfold check_not_finished. by rewrite H1, H2. Qed.

Section Live.
Context `{K : Sink} (Hq : quiet_sink K).
#[local] Hint Resolve emits_u64 emits_string wire_fits emits_position emits_fields emits_traces : wire.

(** Write the fields in turn, then flush. *)
Ltac flush_fields := repeat (eapply flushed_bind; [solve [eauto with wire]|]); by apply flushed_flush.

Lemma run_op_live op w :
  live w -> op_ok op -> 0 <= sw_next_activity_id w -> sw_next_activity_id w + 1 < 2 ^ 64 ->
  let m := message_of (sw_next_activity_id w) op in
  run_op op w =
    (inl (activity_id m),
     mkStderrWriter (mkOut (written (sw_writer w) ++ encode_message m) []) (next_after (sw_next_activity_id w) op) (is_last m) (is_error m)).
Proof.
  intros Hl Hop Hn Hx m. pose proof Hl as [Hf He]. subst m. rewrite <- (app_nil_r (encode_message _)).
  destruct op as [msg| |e|ty text level parent fields|id|id ty fields];
    unfold run_op, log, finish, error, start_activity, stop_activity, result, mbind, Serve_bind; rewrite check_live by done;
    cbn [message_of encode_message next_after activity_id is_last is_error op_ok] in *; unfold encode_error; rewrite <- ?app_assoc.
  - erewrite on_writer_flushed by flush_fields. by rewrite Hf, He.
  - erewrite on_writer_flushed by flush_fields. by cbn [update sw_writer sw_next_activity_id sw_finished sw_errored mret Serve_ret]; rewrite He.
  - destruct_and! Hop. erewrite on_writer_flushed by flush_fields. by cbn [update sw_writer sw_next_activity_id sw_finished sw_errored mret Serve_ret]; rewrite Hf.
  - destruct_and! Hop. cbn [next_id sw_next_activity_id]. erewrite on_writer_flushed by flush_fields. cbn [sw_writer sw_next_activity_id sw_finished sw_errored mret Serve_ret]. rewrite Hf, He.
    unfold u64_wrapping_add. by rewrite (Z.mod_small (_ w + 1)) by lia.
  - erewrite on_writer_flushed by flush_fields. by rewrite Hf, He.
  - destruct_and! Hop. erewrite on_writer_flushed by flush_fields. by rewrite Hf, He.
Qed.
End Live.

Lemma messages_ok next ops :
  Forall op_ok ops -> 0 <= next -> next + Z.of_nat (length ops) < 2 ^ 64 -> Forall message_ok (messages next ops).
Proof.
  intros Hop. revert next. induction Hop as [|op ops Ho _ IH]; intros next Hn Hx; cbn [messages]; [constructor|]. cbn [length] in Hx. constructor.
  - destruct op as [| | |ty text level parent fields| |id ty fields]; cbn [message_of message_ok op_ok] in *; try done.
    + destruct Ho as (H1 & H2 & H3 & H4). unfold u64 in *. split_and!; try done; try lia; by destruct ty; cbn.
    + destruct Ho as (H1 & H2). unfold u64 in *. split_and!; try done; try lia; by destruct ty; cbn.
  - destruct (terminal op); [constructor|]. apply IH; destruct op; cbn [next_after]; lia.
Qed.

Lemma message_terminal next op : terminal op = is_last (message_of next op) || is_error (message_of next op).
Proof. by destruct op. Qed.

(** The first terminal call decides what is sent and how the writer ends. *)
Lemma run_ops_live `{K : Sink} ops w :
  quiet_sink K -> live w -> Forall op_ok ops -> 0 <= sw_next_activity_id w -> sw_next_activity_id w + Z.of_nat (length ops) < 2 ^ 64 ->
  let ms := messages (sw_next_activity_id w) ops in
  exists w', run_ops ops w = (List.map (fun m => inl (activity_id m)) ms ++ repeat (inr WireError.Io_Other) (length ops - length ms), w') /\
    written (sw_writer w') = written (sw_writer w) ++ flat_map encode_message ms /\ (ops <> [] -> pending (sw_writer w') = []) /\
    sw_finished w' = existsb is_last ms /\ sw_errored w' = existsb is_error ms.
Proof.
  intros Hq Hl Hop Hn Hx. revert w Hl Hn Hx. induction Hop as [|op ops Ho _ IH]; intros w Hl Hn Hx; cbn [messages].
  { exists w. destruct Hl. cbn [flat_map]. rewrite !app_nil_r. split_and!; [done..|by intros []|done|done]. }
  cbn [length] in Hx. cbn [run_ops]. rewrite (run_op_live Hq) by (done || lia). cbn [fst snd].
  set (w1 := mkStderrWriter _ _ _ _). set (m := message_of _ op) in *. rewrite (message_terminal (sw_next_activity_id w) op). fold m.
  assert (Hw1 : written (sw_writer w1) = written (sw_writer w) ++ encode_message m) by (unfold w1, written; cbn [sw_writer sent pending]; by rewrite app_nil_r).
  destruct (is_last m || is_error m) eqn:Ht.
  - exists w1. rewrite run_ops_dead by (unfold live, w1; cbn; intros []; destruct (is_last m), (is_error m); done).
    cbn [fst snd List.map app length existsb flat_map]. rewrite Nat.sub_succ, Nat.sub_0_r, Hw1, app_nil_r, !orb_false_r. done.
  - apply orb_false_iff in Ht as [H1 H2]. destruct (IH w1) as (w' & Hr & Hw & Hp & Hf & He).
    + by split.
    + unfold w1. cbn [sw_next_activity_id]. destruct op; cbn [next_after]; lia.
    + unfold w1. cbn [sw_next_activity_id]. destruct op; cbn [next_after]; lia.
    + exists w'. change (sw_next_activity_id w1) with (next_after (sw_next_activity_id w) op) in *. rewrite Hr. cbn [fst snd List.map app length existsb flat_map].
      rewrite Nat.sub_succ, H1, H2, Hw, Hw1, app_assoc. split_and!; try done. intros _. destruct ops; [|by apply Hp]. cbn in Hr. by injection Hr as <-.
Qed.

Lemma last_is_last next ops : existsb is_last (messages next ops) = true -> last (messages next ops) = Some MLast.
Proof.
  revert next. induction ops as [|op ops IH]; intros next; cbn [messages existsb]; [done|]. destruct op; cbn [message_of terminal is_last orb]; try done;
    intros H; apply IH in H; by destruct (messages _ ops).
Qed.

Lemma error_is_last next ops e : MError e ∈ messages next ops -> last (messages next ops) = Some (MError e).
Proof.
  revert next. induction ops as [|op ops IH]; intros next; cbn [messages]; [by intros ?%elem_of_nil|].
  rewrite elem_of_cons. destruct op; cbn [message_of terminal]; intros [Hm|Hm]; simplify_eq; try done; try (by apply elem_of_nil in Hm);
    apply IH in Hm; by destruct (messages _ ops).
Qed.

(** Activity ids count up. *)
Lemma message_ids next ops : omap activity_id (messages next ops) = seqZ next (Z.of_nat (length (omap activity_id (messages next ops)))).
Proof.
  revert next. induction ops as [|op ops IH]; intros next; cbn [messages]; [done|].
  destruct op; cbn [message_of terminal next_after omap list_omap activity_id]; try done; try apply IH.
  fold (omap activity_id (messages (next + 1) ops)). cbn [length]. rewrite Nat2Z.inj_succ, seqZ_cons by lia. rewrite Z.pred_succ, <- Z.add_1_r. by f_equal.
Qed.

(** Draining reads up to the terminal message, and no further. *)
Lemma drain_last next ops n :
  Forall message_ok (messages next ops) -> existsb is_last (messages next ops) = true -> (length (messages next ops) <= n)%nat ->
  decodes (drain_loop n) tt (flat_map encode_message (messages next ops)).
Proof.
  revert next n. induction ops as [|op ops IH]; intros next n; cbn [messages]; [done|]. intros [Hm Hms]%Forall_cons Hl Hn.
  destruct n as [|n]; [cbn in Hn; lia|]. cbn [flat_map drain_loop]. eapply decodes_bind; [by apply decodes_message|].
  destruct op; cbn [message_of terminal existsb is_last orb length] in *; try done; try (apply IH; [done|done|lia]). apply decodes_ret.
Qed.

Lemma drain_error next ops n r r' :
  Forall message_ok (messages next ops) -> existsb is_error (messages next ops) = true -> (length (messages next ops) <= n)%nat ->
  reader_ok r -> adv r (flat_map encode_message (messages next ops)) r' -> drain_loop n r = inr WireError.Io_Other.
Proof.
  revert next n r. induction ops as [|op ops IH]; intros next n r; cbn [messages]; [done|]. intros [Hm Hms]%Forall_cons He Hn Hr Ha.
  destruct n as [|n]; [cbn in Hn; lia|]. cbn [flat_map] in Ha. apply adv_app in Ha as (r1 & H1 & H2). cbn [drain_loop]. unfold mbind, Recv_bind.
  rewrite (decodes_message _ Hm _ _ Hr H1). pose proof (proj1 (adv_ok _ _ _ H1 Hr)) as Hr1.
  destruct op; cbn [message_of terminal existsb is_error orb length] in *; try done; by eapply IH; eauto; lia.
Qed.

(** C33: the STDERR loop.  Take any sequence of fewer than [2^32 - 1] calls on a
    fresh writer of a 32-bit process id, with texts and lists within the limits of
    the reader, over a sink none of whose writes and flushes fails (a terminal
    message whose flush fails leaves the writer open).  The calls up to the first
    [finish] or [error] succeed, each later one is refused and sends nothing; all
    that was accepted is flushed.  The client reads back exactly the messages of
    the accepted calls, in order and to the last byte, and the ids of the
    activities count up from one past the process id's prefix, so they are
    distinct.  At most one terminal message is sent and it is the last one: the
    raw writer is handed out exactly after [finish], and then draining the loop
    (of at most 100,000 messages) succeeds and leaves the reader at the result;
    after [error] it fails. *)
Theorem stderr_exchange `{K : Sink} pid out ops :
  quiet_sink K -> Forall op_ok ops -> 0 <= pid < 2 ^ 32 -> Z.of_nat (length ops) < 2 ^ 32 - 1 ->
  let next := pid * 2 ^ 32 + 1 in
  let ms := messages next ops in
  exists w s, run_ops ops (writer_new pid out) =
      (List.map (fun m => inl (activity_id m)) ms ++ repeat (inr WireError.Io_Other) (length ops - length ms), w) /\
    written (sw_writer w) = written out ++ s /\ (ops <> [] -> pending (sw_writer w) = []) /\
    omap activity_id ms = seqZ next (Z.of_nat (length (omap activity_id ms))) /\
    (is_Some (inner_mut w) <-> last ms = Some MLast) /\
    forall t pos, bytes_ok (s ++ t) ->
      recv_times read_stderr_message (length ms) (mkReader (s ++ t) pos) = inl (ms, mkReader t (pos + Z.of_nat (length s))) /\
      (Z.of_nat (length ms) <= MAX_STDERR_MESSAGES ->
         (last ms = Some MLast -> drain_stderr (mkReader (s ++ t) pos) = inl (tt, mkReader t (pos + Z.of_nat (length s)))) /\
         forall e, last ms = Some (MError e) -> drain_stderr (mkReader (s ++ t) pos) = inr WireError.Io_Other).
Proof.
  intros Hq Hop Hpid Hlen next ms. assert (Hn : sw_next_activity_id (writer_new pid out) = next).
  { unfold writer_new, next. cbn [sw_next_activity_id]. by rewrite Z.shiftl_mul_pow2. }
  assert (Hx : 0 <= next /\ next + Z.of_nat (length ops) < 2 ^ 64) by (unfold next; lia). destruct Hx as [H0 Hx].
  pose proof (messages_ok next ops Hop H0 Hx) as Hok. fold ms in Hok.
  destruct (run_ops_live ops (writer_new pid out) Hq) as (w & Hr & Hw & Hp & Hf & He); [done|done|by rewrite Hn|by rewrite Hn|].
  rewrite Hn in Hr, Hw, Hf, He. fold ms in Hr, Hw, Hf, He. exists w, (flat_map encode_message ms). split; [done|]. split; [done|]. split; [done|].
  split; [apply message_ids|].
  assert (Hlast : forall m, last ms = Some m -> m ∈ ms) by (intros m Hm; by apply last_Some_elem_of).
  assert (Hx1 : last ms = Some MLast -> existsb is_last ms = true) by (intros Hm%Hlast; apply existsb_exists; exists MLast; by rewrite <- list_elem_of_In).
  assert (Hx2 : forall e, last ms = Some (MError e) -> existsb is_error ms = true)
    by (intros e Hm%Hlast; apply existsb_exists; exists (MError e); by rewrite <- list_elem_of_In).
  split.
  - unfold inner_mut. rewrite Hf, He. destruct (existsb is_last ms) eqn:Hl; cbn [andb].
    + pose proof (last_is_last _ _ Hl) as Hla. split; [done|]. intros _. destruct (existsb is_error ms) eqn:Hb; [|done]. exfalso.
      apply existsb_exists in Hb as ([] & Hin & Hb); try done. apply list_elem_of_In in Hin. apply error_is_last in Hin. fold ms in Hla, Hin. congruence.
    + split; [by intros []|]. intros Hm%Hx1. done.
  - intros t pos Ht. split; [|intros Hmax; split].
    + apply decodes_run; [|done]. apply decodes_times. eapply Forall_impl; [exact Hok|]. apply decodes_message.
    + intros Hm%Hx1. apply decodes_run; [|done]. apply drain_last; [done|done|]. fold ms. lia.
    + intros e Hm. apply Hx2 in Hm. apply (drain_error next ops _ _ (mkReader t (pos + Z.of_nat (length (flat_map encode_message ms))))); try done. fold ms. lia.
Qed.

(** ** A concrete session *)

(** A sink that takes everything. *)
Definition perfect_sink : Sink := {| write_fault _ := None; flush_fault _ := false |}.

Definition example_ops : list Op :=
  [OpStart ActivityType.Build (str "building") 3 0 [FString (str "/nix/store/x.drv"); FInt 1];
   OpResult (42 * 2 ^ 32 + 1) ResultType.BuildLogLine [FString (str "cc -c")];
   OpStop (42 * 2 ^ 32 + 1); OpFinish; OpLog (str "too late")].

Lemma stderr_exchange_witness :
  exists w s, run_ops (H := perfect_sink) example_ops (writer_new 42 (mkOut [] [])) =
      ([inl (Some 180388626433); inl None; inl None; inl None; inr WireError.Io_Other], w) /\
    inner_mut w = Some (sw_writer w) /\ sent (sw_writer w) = s /\
    drain_stderr (mkReader (s ++ [1; 2]) 0) = inl (tt, mkReader [1; 2] (Z.of_nat (length s))).
Proof.
  destruct (stderr_exchange (K := perfect_sink) 42 (mkOut [] []) example_ops) as (w & s & Hr & Hs & Hp & _ & Hi & Hd).
  - done.
  - unfold example_ops. repeat constructor; cbn; try done; unfold u64; try lia; by vm_compute.
  - lia.
  - cbn. lia.
  - assert (Hw : w = snd (run_ops (H := perfect_sink) example_ops (writer_new 42 (mkOut [] [])))) by (by rewrite Hr).
    assert (He : s = sent (sw_writer w)).
    { unfold written in Hs. rewrite (Hp ltac:(done)), app_nil_r in Hs. by rewrite Hs. }
    exists w, s. split; [exact Hr|]. split; [by rewrite Hw; vm_compute|]. split; [done|].
    assert (Ht : bytes_ok (s ++ [1; 2])) by (rewrite He, Hw; apply (bool_decide_unpack _); by vm_compute).
    destruct (Hd [1; 2] 0 Ht) as [_ Hdrain]. apply Hdrain; by vm_compute.
Defined.
