(* ===== verification/NixHandshake.v ===== *)
(** * Nix worker protocol: the handshake

    [src/rio-nix/src/protocol/handshake.rs], the server's side, and the client's
    side and its [wopSetOptions] of [src/rio-nix/src/protocol/client.rs].

    A side of a session is a function of what its peer has sent so far: it
    returns, fails, or stops at the end of that input, with the output that it has
    flushed by then.  Two sides are composed by giving each the output of the
    other until nothing changes. *)

From S2P Require Import Prelude NixBytes NixNar NixWire NixStderr.

#[local] Open Scope Z_scope.

Definition WORKER_MAGIC_1 : Z := 0x6e697863.
Definition WORKER_MAGIC_2 : Z := 0x6478696f.
Definition PROTOCOL_VERSION : Z := 0x126.
Definition MIN_CLIENT_VERSION : Z := 0x123.
Definition MIN_DAEMON_VERSION : Z := 0x123.

Definition decode_version (v : Z) : Z * Z := (Z.shiftr v 8, Z.land v 0xFF).
Definition encode_version (major minor : Z) : Z := Z.lor (Z.shiftl major 8) minor.

Record HandshakeResult : Type := mkHandshakeResult { negotiated_version : Z }.

Module HandshakeError.
Inductive HandshakeError : Type :=
| Wire (e : WireError)
| InvalidMagic (magic : Z)
| VersionTooOld (client_major client_minor : Z).
End HandshakeError.
Abbreviation HandshakeError := HandshakeError.HandshakeError.

(** ** Opcodes *)

Module WorkerOp.
Inductive WorkerOp : Type :=
| IsValidPath | AddToStore | AddTextToStore | BuildPaths | EnsurePath | AddTempRoot | SetOptions | QueryPathInfo | QueryPathFromHashPart
| QueryValidPaths | BuildDerivation | AddSignatures | NarFromPath | AddToStoreNar | QueryMissing | QueryDerivationOutputMap
| RegisterDrvOutput | QueryRealisation | AddMultipleToStore | BuildPathsWithResults.

Definition to_u64 (op : WorkerOp) : Z :=
  match op with
  | IsValidPath => 1 | AddToStore => 7 | AddTextToStore => 8 | BuildPaths => 9 | EnsurePath => 10 | AddTempRoot => 11 | SetOptions => 19
  | QueryPathInfo => 26 | QueryPathFromHashPart => 29 | QueryValidPaths => 31 | BuildDerivation => 36 | AddSignatures => 37
  | NarFromPath => 38 | AddToStoreNar => 39 | QueryMissing => 40 | QueryDerivationOutputMap => 41 | RegisterDrvOutput => 42
  | QueryRealisation => 43 | AddMultipleToStore => 44 | BuildPathsWithResults => 46
  end.

Definition from_u64 (v : Z) : option WorkerOp :=
  match v with
  | 1 => Some IsValidPath | 7 => Some AddToStore | 8 => Some AddTextToStore | 9 => Some BuildPaths | 10 => Some EnsurePath
  | 11 => Some AddTempRoot | 19 => Some SetOptions | 26 => Some QueryPathInfo | 29 => Some QueryPathFromHashPart
  | 31 => Some QueryValidPaths | 36 => Some BuildDerivation | 37 => Some AddSignatures | 38 => Some NarFromPath | 39 => Some AddToStoreNar
  | 40 => Some QueryMissing | 41 => Some QueryDerivationOutputMap | 42 => Some RegisterDrvOutput | 43 => Some QueryRealisation
  | 44 => Some AddMultipleToStore | 46 => Some BuildPathsWithResults
  | _ => None
  end.
End WorkerOp.

(** ** A side of a session *)

Definition Sess (E A : Type) : Type := Reader -> Out -> ((A * Reader) + E) * Out.

#[export] Instance Sess_ret {E} : MRet (Sess E) := fun A a r o => (inl (a, r), o).
#[export] Instance Sess_bind {E} : MBind (Sess E) := fun A B f m r o =>
  match m r o with (inl (a, r), o) => f a r o | (inr e, o) => (inr e, o) end.

Definition sess_fail {E A} (e : E) : Sess E A := fun _ o => (inr e, o).

(** A read or a write, with the error conversion of [?]. *)
Definition on_read {E A} (wrap : WireError -> E) (m : Recv A) : Sess E A := fun r o =>
  (match m r with inl x => inl x | inr e => inr (wrap e) end, o).

Definition on_write {E A} (wrap : WireError -> E) (m : Put A) : Sess E A := fun r o =>
  match m o with (inl a, o) => (inl (a, r), o) | (inr e, o) => (inr (wrap e), o) end.

Section Sides.
Context `{K : Sink}.
#[local] Notation receive m := (on_read HandshakeError.Wire m).
#[local] Notation send m := (on_write HandshakeError.Wire m).

Definition server_handshake_split (version_string : bytes) : Sess HandshakeError HandshakeResult :=
  client_magic ← receive recv_u64;
  if negb (client_magic =? WORKER_MAGIC_1) then sess_fail (HandshakeError.InvalidMagic client_magic)
  else
    _ ← send (put_u64 WORKER_MAGIC_2);
    _ ← send (put_u64 PROTOCOL_VERSION);
    _ ← send put_flush;
    client_version ← receive recv_u64;
    if client_version <? MIN_CLIENT_VERSION then
      sess_fail (HandshakeError.VersionTooOld (Z.shiftr client_version 8) (Z.land client_version 0xFF))
    else
      let negotiated_version := Z.min client_version PROTOCOL_VERSION in
      _ ← (if encode_version 1 38 <=? negotiated_version then
             _ ← receive read_strings;
             _ ← send (put_strings []);
             send put_flush
           else mret tt);
      cpu_affinity ← receive recv_u64;
      _ ← (if negb (cpu_affinity =? 0) then _ ← receive recv_u64; mret tt else mret tt);
      _ ← receive recv_u64;
      _ ← send (put_string version_string);
      _ ← send (put_u64 1);
      _ ← send put_flush;
      _ ← send (put_u64 STDERR_LAST);
      _ ← send put_flush;
      mret (mkHandshakeResult negotiated_version).

Definition client_handshake : Sess HandshakeError HandshakeResult :=
  _ ← send (put_u64 WORKER_MAGIC_1);
  _ ← send put_flush;
  server_magic ← receive recv_u64;
  if negb (server_magic =? WORKER_MAGIC_2) then sess_fail (HandshakeError.InvalidMagic server_magic)
  else
    server_version ← receive recv_u64;
    if server_version <? MIN_DAEMON_VERSION then
      sess_fail (HandshakeError.VersionTooOld (Z.shiftr server_version 8) (Z.land server_version 0xFF))
    else
      _ ← send (put_u64 PROTOCOL_VERSION);
      _ ← send put_flush;
      let negotiated_version := Z.min server_version PROTOCOL_VERSION in
      _ ← (if encode_version 1 38 <=? negotiated_version then
             _ ← send (put_strings []);
             _ ← send put_flush;
             _ ← receive read_strings;
             mret tt
           else mret tt);
      _ ← send (put_u64 0);
      _ ← send (put_u64 0);
      _ ← send put_flush;
      _ ← receive recv_string;
      _ ← receive recv_u64;
      _ ← receive drain_stderr;
      mret (mkHandshakeResult negotiated_version).

Definition VOMIT : Z := 7.

Definition set_options_request (max_silent_time build_cores : Z) : Put unit :=
  _ ← put_u64 (WorkerOp.to_u64 WorkerOp.SetOptions);
  _ ← put_bool false;
  _ ← put_bool false;
  _ ← put_bool false;
  _ ← put_u64 0;
  _ ← put_u64 1;
  _ ← put_u64 max_silent_time;
  _ ← put_u64 1;
  _ ← put_u64 VOMIT;
  _ ← put_u64 0;
  _ ← put_u64 0;
  _ ← put_u64 build_cores;
  _ ← put_bool false;
  _ ← put_string_pairs [];
  put_flush.

Definition client_set_options (max_silent_time build_cores : Z) : Sess WireError unit :=
  _ ← on_write id (set_options_request max_silent_time build_cores); on_read id drain_stderr.

(** ** Two sides *)

(** What a side has sent when it has seen these bytes, and how it stands. *)
Definition output {E A} (side : Sess E A) (input : bytes) : bytes := sent (snd (side (mkReader input 0) (mkOut [] []))).

Definition outcome {E A} (side : Sess E A) (input : bytes) : (A * Reader) + E := fst (side (mkReader input 0) (mkOut [] [])).

(** One exchange: what was sent to the server, and to the client. *)
Definition exchange (version_string : bytes) (c : bytes * bytes) : bytes * bytes :=
  (output client_handshake (snd c), output (server_handshake_split version_string) (fst c)).

Definition dialogue (version_string : bytes) (n : nat) : bytes * bytes := Nat.iter n (exchange version_string) ([], []).
End Sides.

(** ** Steps *)

Section Steps.
Context {E : Type} (wrap : WireError -> E).

Lemma on_read_bind {A B} (m : Recv A) (k : A -> Sess E B) r o :
  (x ← on_read wrap m; k x) r o = match m r with inl (a, r1) => k a r1 o | inr e => (inr (wrap e), o) end.
Proof. unfold mbind, Sess_bind, on_read. by destruct (m r) as [[a r1]|e]. Qed.

Lemma sess_assoc {A B C} (m : Sess E A) (f : A -> Sess E B) (g : B -> Sess E C) r o :
  (y ← (x ← m; f x); g y) r o = (x ← m; y ← f x; g y) r o.
Proof. unfold mbind, Sess_bind. by destruct (m r o) as [[[a r1]|e] o1]. Qed.

Context `{K : Sink} (Hq : quiet_sink K).

Lemma put_step {B} b (k : Sess E B) r o : (_ ← on_write wrap (put_all b); k) r o = k r (mkOut (sent o) (pending o ++ b)).
Proof. unfold mbind, Sess_bind, on_write, put_all. by rewrite (proj1 Hq). Qed.

Lemma u64_step {B} v (k : Sess E B) r o : (_ ← on_write wrap (put_u64 v); k) r o = k r (mkOut (sent o) (pending o ++ write_u64 v)).
Proof. apply put_step. Qed.

Lemma string_step {B} s (k : Sess E B) r o :
  string_fits s -> (_ ← on_write wrap (put_string s); k) r o = k r (mkOut (sent o) (pending o ++ write_bytes s)).
Proof. intros Hs. unfold put_string. rewrite (proj2 (send_bytes_inl s _) (conj Hs eq_refl)). apply put_step. Qed.

Lemma no_strings_step {B} (k : Sess E B) r o :
  (_ ← on_write wrap (put_strings []); k) r o = k r (mkOut (sent o) (pending o ++ write_u64 0)).
Proof.
  unfold put_strings. cbn [length Z.of_nat put_each]. change (Z.of_nat 0) with 0. change (MAX_COLLECTION_COUNT <? 0) with false. cbv iota.
  unfold mbind, Sess_bind, Put_bind, on_write, put_u64, put_all, mret, Put_ret. by rewrite (proj1 Hq).
Qed.

Lemma flush_step {B} (k : Sess E B) r o : (_ ← on_write wrap put_flush; k) r o = k r (mkOut (written o) []).
Proof. unfold mbind, Sess_bind, on_write, put_flush. by rewrite (proj2 Hq). Qed.
End Steps.

(** ** What the server accepts *)

(** The negotiated version has features exactly when the peer's has. *)
Lemma min_version v : (encode_version 1 38 <=? Z.min v PROTOCOL_VERSION) = (encode_version 1 38 <=? v).
Proof.
  change (encode_version 1 38) with PROTOCOL_VERSION.
  destruct (Z.leb_spec PROTOCOL_VERSION v), (Z.leb_spec PROTOCOL_VERSION (Z.min v PROTOCOL_VERSION)); lia || done.
Qed.

(** The bytes of a client, and of the server's answer. *)
Definition client_hello (version : Z) (features : list bytes) (affinity mask reserve : Z) : bytes :=
  write_u64 WORKER_MAGIC_1 ++ write_u64 version ++
  (if encode_version 1 38 <=? version then counted (length features) features else []) ++
  write_u64 affinity ++ (if affinity =? 0 then [] else write_u64 mask) ++ write_u64 reserve.

Definition server_greeting : bytes := write_u64 WORKER_MAGIC_2 ++ write_u64 PROTOCOL_VERSION.

Definition server_hello (version : Z) (version_string : bytes) : bytes :=
  server_greeting ++ (if encode_version 1 38 <=? version then write_u64 0 else []) ++ write_bytes version_string ++ write_u64 1 ++
  write_u64 STDERR_LAST.

Section Server.
Context `{K : Sink} (Hq : quiet_sink K) (version_string : bytes) (Hv : string_fits version_string).
#[local] Notation receive m := (on_read HandshakeError.Wire m).
#[local] Notation send m := (on_write HandshakeError.Wire m).

(** After the features. *)
Definition server_tail (negotiated : Z) : Sess HandshakeError HandshakeResult :=
  cpu_affinity ← receive recv_u64;
  _ ← (if negb (cpu_affinity =? 0) then _ ← receive recv_u64; mret tt else mret tt);
  _ ← receive recv_u64;
  _ ← send (put_string version_string);
  _ ← send (put_u64 1);
  _ ← send put_flush;
  _ ← send (put_u64 STDERR_LAST);
  _ ← send put_flush;
  mret (mkHandshakeResult negotiated).

Definition last_words : bytes := write_bytes version_string ++ write_u64 1 ++ write_u64 STDERR_LAST.

Lemma reserve_inl n r o x r' o' :
  reader_ok r ->
  (_ ← receive recv_u64; _ ← send (put_string version_string); _ ← send (put_u64 1); _ ← send put_flush; _ ← send (put_u64 STDERR_LAST);
   _ ← send put_flush; mret (mkHandshakeResult n)) r o = (inl (x, r'), o') <->
  exists reserve, u64 reserve /\ adv r (write_u64 reserve) r' /\ x = mkHandshakeResult n /\ o' = mkOut (written o ++ last_words) [].
Proof.
  intros Hr. rewrite on_read_bind. split.
  - destruct (recv_u64 r) as [[v r1]|] eqn:H; [|done]. apply recv_u64_inl in H as [H1 H2]; [|done].
    rewrite string_step, u64_step, flush_step, u64_step, flush_step by done. intros [= <- <- <-]. exists v. split_and!; [done..|].
    unfold written, last_words. cbn [sent pending app]. by rewrite <- !app_assoc.
  - intros (v & H1 & H2 & -> & ->). rewrite (proj2 (recv_u64_inl r v r' Hr) (conj H1 H2)).
    rewrite string_step, u64_step, flush_step, u64_step, flush_step by done. unfold mret, Sess_ret, written, last_words. cbn [sent pending app].
    by rewrite <- !app_assoc.
Qed.

Lemma server_tail_inl n r o x r' o' :
  reader_ok r ->
  server_tail n r o = (inl (x, r'), o') <->
  exists affinity mask reserve, u64 affinity /\ u64 mask /\ u64 reserve /\
    adv r (write_u64 affinity ++ (if affinity =? 0 then [] else write_u64 mask) ++ write_u64 reserve) r' /\
    x = mkHandshakeResult n /\ o' = mkOut (written o ++ last_words) [].
Proof.
  intros Hr. unfold server_tail. rewrite on_read_bind. split.
  - destruct (recv_u64 r) as [[a r1]|] eqn:H; [|done]. apply recv_u64_inl in H as [Ha H2]; [|done]. pose proof (proj1 (adv_ok _ _ _ H2 Hr)) as Hr1.
    destruct (Z.eqb_spec a 0) as [->|Ha0]; cbn [negb].
    + intros (v & Hv' & Hav & -> & ->)%reserve_inl; [|done]. exists 0, 0, v. unfold u64 in *. split_and!; try done; try lia. cbn [Z.eqb app]. by eapply adv_trans.
    + rewrite sess_assoc, on_read_bind. destruct (recv_u64 r1) as [[m r2]|] eqn:H; [|done]. apply recv_u64_inl in H as [Hm H3]; [|done].
      intros (v & Hv' & Hav & -> & ->)%reserve_inl; [|exact (proj1 (adv_ok _ _ _ H3 Hr1))]. exists a, m, v. split_and!; try done.
      destruct (Z.eqb_spec a 0); [done|]. eauto using adv_trans.
  - intros (a & m & v & Ha & Hm & Hres & Hadv & -> & ->). apply adv_app in Hadv as (r1 & H1 & H2). rewrite (proj2 (recv_u64_inl r a r1 Hr) (conj Ha H1)).
    pose proof (proj1 (adv_ok _ _ _ H1 Hr)) as Hr1. destruct (Z.eqb_spec a 0) as [->|Ha0]; cbn [negb].
    + apply reserve_inl; [done|]. by exists v.
    + apply adv_app in H2 as (r2 & H2 & H3). rewrite sess_assoc, on_read_bind, (proj2 (recv_u64_inl r1 m r2 Hr1) (conj Hm H2)).
      apply reserve_inl; [exact (proj1 (adv_ok _ _ _ H2 Hr1))|]. by exists v.
Qed.
End Server.

Section ServerExact.
Context `{K : Sink} (Hq : quiet_sink K) (version_string : bytes) (Hv : string_fits version_string).
#[local] Notation receive m := (on_read HandshakeError.Wire m).
#[local] Notation send m := (on_write HandshakeError.Wire m).

(** The features are exchanged from 1.38 on. *)
Lemma features_inl cv r o x r' o' :
  reader_ok r ->
  (_ ← (if encode_version 1 38 <=? Z.min cv PROTOCOL_VERSION then _ ← receive read_strings; _ ← send (put_strings []); send put_flush else mret tt);
   server_tail version_string (Z.min cv PROTOCOL_VERSION)) r o = (inl (x, r'), o') <->
  exists fs r1 o1, collection_ok (length fs) fs /\ adv r (if encode_version 1 38 <=? cv then counted (length fs) fs else []) r1 /\ reader_ok r1 /\
    written o1 = written o ++ (if encode_version 1 38 <=? cv then write_u64 0 else []) /\
    server_tail version_string (Z.min cv PROTOCOL_VERSION) r1 o1 = (inl (x, r'), o').
Proof.
  intros Hr. rewrite min_version.
  destruct (encode_version 1 38 <=? cv).
  - rewrite sess_assoc, on_read_bind. split.
    + destruct (read_strings r) as [[fs r1]|] eqn:H; [|done]. apply read_strings_inl in H as [H1 H2]; [|done].
      rewrite sess_assoc, no_strings_step, flush_step by done. intros Hk. exists fs, r1, (mkOut (written (mkOut (sent o) (pending o ++ write_u64 0))) []).
      split_and!; try done; [exact (proj1 (adv_ok _ _ _ H2 Hr))|]. unfold written. cbn [sent pending]. by rewrite app_nil_r, app_assoc.
    + intros (fs & r1 & o1 & H1 & H2 & Hr1 & Ho & Hk). rewrite (proj2 (read_strings_inl r fs r1 Hr) (conj H1 H2)).
      rewrite sess_assoc, no_strings_step, flush_step by done. revert Hk. rewrite !server_tail_inl by done. intros (a & m & v & Ha & Hm & Hv' & Hadv & -> & ->).
      exists a, m, v. split_and!; try done. f_equal. rewrite Ho. unfold written. cbn [sent pending]. by rewrite app_nil_r, app_assoc.
  - split.
    + intros Hk. exists [], r, o. rewrite app_nil_r, adv_nil. by split_and!.
    + intros (fs & r1 & o1 & _ & ->%adv_nil & _ & Ho & Hk). rewrite app_nil_r in Ho. revert Hk. rewrite server_tail_inl by done. rewrite Ho, <- server_tail_inl by done.
      intros Hk. exact Hk.
Qed.

Lemma server_inl r o x r' o' :
  reader_ok r ->
  server_handshake_split version_string r o = (inl (x, r'), o') <->
  exists cv fs affinity mask reserve, MIN_CLIENT_VERSION <= cv < 2 ^ 64 /\ collection_ok (length fs) fs /\ u64 affinity /\ u64 mask /\ u64 reserve /\
    adv r (client_hello cv fs affinity mask reserve) r' /\ x = mkHandshakeResult (Z.min cv PROTOCOL_VERSION) /\
    o' = mkOut (written o ++ server_hello cv version_string) [].
Proof.
  intros Hr. unfold server_handshake_split. rewrite on_read_bind. split.
  - destruct (recv_u64 r) as [[v r1]|] eqn:H; [|done]. apply recv_u64_inl in H as [_ H1]; [|done]. destruct (Z.eqb_spec v WORKER_MAGIC_1) as [->|]; [|done].
    cbn [negb]. rewrite u64_step, u64_step, flush_step, on_read_bind by done. pose proof (proj1 (adv_ok _ _ _ H1 Hr)) as Hr1.
    destruct (recv_u64 r1) as [[cv r2]|] eqn:H; [|done]. apply recv_u64_inl in H as [Hc H2]; [|done]. pose proof (proj1 (adv_ok _ _ _ H2 Hr1)) as Hr2.
    destruct (Z.ltb_spec cv MIN_CLIENT_VERSION); [done|]. intros (fs & r3 & o3 & Hfs & H3 & Hr3 & Ho & Hk)%features_inl; [|done].
    apply server_tail_inl in Hk as (a & m & v & Ha & Hm & Hres & H4 & -> & ->); [|done..]. exists cv, fs, a, m, v. split_and!; try done; try lia.
    + unfold client_hello. eauto using adv_trans.
    + f_equal. rewrite Ho. unfold server_hello, server_greeting, last_words, written. cbn [sent pending]. by rewrite app_nil_r, <- !app_assoc.
  - intros (cv & fs & a & m & v & Hc & Hfs & Ha & Hm & Hres & Hadv & -> & ->). unfold client_hello in Hadv.
    apply adv_app in Hadv as (r1 & H1 & Hadv). apply adv_app in Hadv as (r2 & H2 & Hadv). apply adv_app in Hadv as (r3 & H3 & Hadv).
    pose proof (proj1 (adv_ok _ _ _ H1 Hr)) as Hr1. pose proof (proj1 (adv_ok _ _ _ H2 Hr1)) as Hr2.
    rewrite (proj2 (recv_u64_inl r _ r1 Hr) (conj (conj (ltac:(done) : 0 <= WORKER_MAGIC_1) eq_refl) H1)). rewrite Z.eqb_refl. cbn [negb].
    rewrite u64_step, u64_step, flush_step, on_read_bind by done. change MIN_CLIENT_VERSION with 291 in *.
    rewrite (proj2 (recv_u64_inl r1 cv r2 Hr1)) by (split; [lia|done]). destruct (Z.ltb_spec cv 291); [lia|].
    apply features_inl; [done|]. pose proof (proj1 (adv_ok _ _ _ H3 Hr2)) as Hr3. eexists fs, r3, (mkOut _ []). split_and!; [done|done|done|unfold written at 1; cbn [sent pending]; by rewrite app_nil_r|].
    apply server_tail_inl; [done..|]. exists a, m, v. split_and!; try done.
    f_equal. unfold server_hello, server_greeting, last_words, written. cbn [sent pending]. by rewrite !app_nil_r, <- !app_assoc.
Qed.
End ServerExact.

(** ** What the client accepts *)

Definition daemon_hello (version : Z) (features : list bytes) (version_string : bytes) (trusted : Z) : bytes :=
  write_u64 WORKER_MAGIC_2 ++ write_u64 version ++ (if encode_version 1 38 <=? version then counted (length features) features else []) ++
  write_bytes version_string ++ write_u64 trusted.

Definition client_words (version : Z) : bytes :=
  write_u64 WORKER_MAGIC_1 ++ write_u64 PROTOCOL_VERSION ++ (if encode_version 1 38 <=? version then write_u64 0 else []) ++ write_u64 0 ++ write_u64 0.

Section Client.
Context `{K : Sink} (Hq : quiet_sink K).
#[local] Notation receive m := (on_read HandshakeError.Wire m).
#[local] Notation send m := (on_write HandshakeError.Wire m).

(** After the features. *)
Definition client_tail (negotiated : Z) : Sess HandshakeError HandshakeResult :=
  _ ← send (put_u64 0);
  _ ← send (put_u64 0);
  _ ← send put_flush;
  _ ← receive recv_string;
  _ ← receive recv_u64;
  _ ← receive drain_stderr;
  mret (mkHandshakeResult negotiated).

Lemma client_tail_inl n r o x r' o' :
  reader_ok r ->
  client_tail n r o = (inl (x, r'), o') <->
  exists vs trusted r1, wire_string_ok vs /\ u64 trusted /\ adv r (write_bytes vs ++ write_u64 trusted) r1 /\ drain_stderr r1 = inl (tt, r') /\
    x = mkHandshakeResult n /\ o' = mkOut (written o ++ write_u64 0 ++ write_u64 0) [].
Proof.
  intros Hr. unfold client_tail. rewrite u64_step, u64_step, flush_step, on_read_bind by done.
  assert (Ho : written (mkOut (sent (mkOut (sent o) (pending o ++ write_u64 0))) (pending (mkOut (sent o) (pending o ++ write_u64 0)) ++ write_u64 0)) =
    written o ++ write_u64 0 ++ write_u64 0) by (unfold written; cbn [sent pending]; by rewrite <- !app_assoc). rewrite Ho. split.
  - destruct (recv_string r) as [[vs r1]|] eqn:H; [|done]. apply recv_bind_inl in H as (b & r0 & H1 & H2). apply read_bytes_inl in H1 as [Hl H1]; [|done].
    apply recv_utf8_inl in H2 as (Hu & -> & ->). pose proof (proj1 (adv_ok _ _ _ H1 Hr)) as Hr1. rewrite on_read_bind.
    destruct (recv_u64 r0) as [[tr r2]|] eqn:H; [|done]. apply recv_u64_inl in H as [Ht H2]; [|done]. rewrite on_read_bind.
    destruct (drain_stderr r2) as [[[] r3]|] eqn:Hd; [|done]. intros [= <- <- <-]. exists b, tr, r2. split_and!; try done. by eapply adv_trans.
  - intros (vs & tr & r1 & Hvs & Ht & Hadv & Hd & -> & ->). apply adv_app in Hadv as (r2 & H1 & H2).
    rewrite (decodes_string vs Hvs r r2 Hr H1). pose proof (proj1 (adv_ok _ _ _ H1 Hr)) as Hr1.
    by rewrite on_read_bind, (decodes_u64 tr Ht r2 r1 Hr1 H2), on_read_bind, Hd.
Qed.

Lemma client_features_inl sv r o x r' o' :
  reader_ok r ->
  (_ ← (if encode_version 1 38 <=? Z.min sv PROTOCOL_VERSION then
          _ ← send (put_strings []); _ ← send put_flush; _ ← receive read_strings; mret tt
        else mret tt);
   client_tail (Z.min sv PROTOCOL_VERSION)) r o = (inl (x, r'), o') <->
  exists fs r1 o1, collection_ok (length fs) fs /\ adv r (if encode_version 1 38 <=? sv then counted (length fs) fs else []) r1 /\ reader_ok r1 /\
    written o1 = written o ++ (if encode_version 1 38 <=? sv then write_u64 0 else []) /\
    client_tail (Z.min sv PROTOCOL_VERSION) r1 o1 = (inl (x, r'), o').
Proof.
  intros Hr. rewrite min_version. destruct (encode_version 1 38 <=? sv).
  - rewrite sess_assoc, no_strings_step by done. rewrite sess_assoc, flush_step by done. rewrite sess_assoc, on_read_bind.
    set (o1 := mkOut (written _) []). assert (Ho1 : written o1 = written o ++ write_u64 0) by (unfold o1, written; cbn [sent pending]; by rewrite app_nil_r, app_assoc).
    split.
    + destruct (read_strings r) as [[fs r1]|] eqn:H; [|done]. apply read_strings_inl in H as [H1 H2]; [|done].
      intros Hk. exists fs, r1, o1. split_and!; try done. exact (proj1 (adv_ok _ _ _ H2 Hr)).
    + intros (fs & r1 & o2 & H1 & H2 & Hr1 & Ho & Hk). rewrite (decodes_strings fs H1 r r1 Hr H2). revert Hk.
      rewrite client_tail_inl, Ho, <- Ho1, <- client_tail_inl by done. intros Hk. exact Hk.
  - split.
    + intros Hk. exists [], r, o. rewrite app_nil_r, adv_nil. by split_and!.
    + intros (fs & r1 & o1 & _ & ->%adv_nil & _ & Ho & Hk). rewrite app_nil_r in Ho. revert Hk. rewrite client_tail_inl, Ho, <- client_tail_inl by done.
      intros Hk. exact Hk.
Qed.

Lemma client_inl r o x r' o' :
  reader_ok r ->
  client_handshake r o = (inl (x, r'), o') <->
  exists sv fs vs trusted r1, MIN_DAEMON_VERSION <= sv < 2 ^ 64 /\ collection_ok (length fs) fs /\ wire_string_ok vs /\ u64 trusted /\
    adv r (daemon_hello sv fs vs trusted) r1 /\ drain_stderr r1 = inl (tt, r') /\
    x = mkHandshakeResult (Z.min sv PROTOCOL_VERSION) /\ o' = mkOut (written o ++ client_words sv) [].
Proof.
  intros Hr. unfold client_handshake. rewrite u64_step, flush_step, on_read_bind by done. split.
  - destruct (recv_u64 r) as [[v r1]|] eqn:H; [|done]. apply recv_u64_inl in H as [_ H1]; [|done]. destruct (Z.eqb_spec v WORKER_MAGIC_2) as [->|]; [|done].
    cbn [negb]. rewrite on_read_bind. pose proof (proj1 (adv_ok _ _ _ H1 Hr)) as Hr1.
    destruct (recv_u64 r1) as [[sv r2]|] eqn:H; [|done]. apply recv_u64_inl in H as [Hs H2]; [|done]. pose proof (proj1 (adv_ok _ _ _ H2 Hr1)) as Hr2.
    destruct (Z.ltb_spec sv MIN_DAEMON_VERSION); [done|]. rewrite u64_step, flush_step by done.
    intros (fs & r3 & o3 & Hfs & H3 & Hr3 & Ho & Hk)%client_features_inl; [|done].
    apply client_tail_inl in Hk as (vs & tr & r4 & Hvs & Ht & H4 & Hd & -> & ->); [|done]. exists sv, fs, vs, tr, r4. unfold daemon_hello, client_words.
    split_and!; try done; try lia; [eauto using adv_trans|]. f_equal. rewrite Ho. unfold written. cbn [sent pending app]. by rewrite ?app_nil_r, <- !app_assoc.
  - intros (sv & fs & vs & tr & r4 & Hs & Hfs & Hvs & Ht & Hadv & Hd & -> & ->). unfold daemon_hello in Hadv.
    apply adv_app in Hadv as (r1 & H1 & Hadv). apply adv_app in Hadv as (r2 & H2 & Hadv). apply adv_app in Hadv as (r3 & H3 & Hadv).
    pose proof (proj1 (adv_ok _ _ _ H1 Hr)) as Hr1. pose proof (proj1 (adv_ok _ _ _ H2 Hr1)) as Hr2. pose proof (proj1 (adv_ok _ _ _ H3 Hr2)) as Hr3.
    rewrite (decodes_u64 WORKER_MAGIC_2 ltac:(done) r r1 Hr H1), Z.eqb_refl. cbn [negb]. rewrite on_read_bind. change MIN_DAEMON_VERSION with 291 in *.
    rewrite (decodes_u64 sv ltac:(unfold u64; lia) r1 r2 Hr1 H2). destruct (Z.ltb_spec sv 291); [lia|]. rewrite u64_step, flush_step by done.
    apply client_features_inl; [done|]. eexists fs, r3, (mkOut _ []). split_and!; [done|done|done|unfold written at 1; cbn [sent pending]; by rewrite app_nil_r|].
    apply client_tail_inl; [done|]. exists vs, tr, r4. split_and!; try done. f_equal. unfold client_words, written. cbn [sent pending app].
    by rewrite ?app_nil_r, <- !app_assoc.
Qed.
End Client.

(** ** The theorems *)

(** which peers a handshake accepts.  With a sink that does not fail, the
    server accepts exactly a client that sends the magic, a version of at least
    1.35, its features when that version is at least 1.38, the affinity with its
    mask when it is not zero, and the reserve flag; it negotiates the smaller of
    the two versions and has then flushed exactly its half of the exchange.  On a
    wrong magic it has sent nothing, and a version that is too old is reported
    with its two parts.  The client accepts exactly a daemon that does its half,
    followed by a log that ends without an error. *)
Theorem handshake_exact `{K : Sink} version_string r o :
  quiet_sink K -> string_fits version_string -> reader_ok r ->
  (forall x r' o', server_handshake_split version_string r o = (inl (x, r'), o') <->
     exists cv fs affinity mask reserve, MIN_CLIENT_VERSION <= cv < 2 ^ 64 /\ collection_ok (length fs) fs /\
       u64 affinity /\ u64 mask /\ u64 reserve /\ adv r (client_hello cv fs affinity mask reserve) r' /\
       x = mkHandshakeResult (Z.min cv PROTOCOL_VERSION) /\ o' = mkOut (written o ++ server_hello cv version_string) []) /\
  (forall magic r', u64 magic -> magic <> WORKER_MAGIC_1 -> adv r (write_u64 magic) r' ->
     server_handshake_split version_string r o = (inr (HandshakeError.InvalidMagic magic), o)) /\
  (forall cv r', 0 <= cv < MIN_CLIENT_VERSION -> adv r (write_u64 WORKER_MAGIC_1 ++ write_u64 cv) r' ->
     server_handshake_split version_string r o =
       (inr (HandshakeError.VersionTooOld (cv / 256) (cv mod 256)), mkOut (written o ++ server_greeting) [])) /\
  (forall x r' o', client_handshake r o = (inl (x, r'), o') <->
     exists sv fs vs trusted r1, MIN_DAEMON_VERSION <= sv < 2 ^ 64 /\ collection_ok (length fs) fs /\ wire_string_ok vs /\ u64 trusted /\
       adv r (daemon_hello sv fs vs trusted) r1 /\ drain_stderr r1 = inl (tt, r') /\
       x = mkHandshakeResult (Z.min sv PROTOCOL_VERSION) /\ o' = mkOut (written o ++ client_words sv) []).
Proof.
  intros Hq Hv Hr. split; [intros; by apply server_inl|]. split; [|split; [|intros; by apply client_inl]]; unfold server_handshake_split.
  - intros magic r' Hm Hne Ha. rewrite on_read_bind, (decodes_u64 magic Hm r r' Hr Ha). by destruct (Z.eqb_spec magic WORKER_MAGIC_1).
  - intros cv r' Hc (r1 & H1 & H2)%adv_app. rewrite on_read_bind, (decodes_u64 WORKER_MAGIC_1 ltac:(done) r r1 Hr H1), Z.eqb_refl. cbn [negb].
    rewrite u64_step, u64_step, flush_step, on_read_bind by done. change MIN_CLIENT_VERSION with 291 in *.
    rewrite (decodes_u64 cv ltac:(unfold u64; lia) r1 r' (proj1 (adv_ok _ _ _ H1 Hr)) H2). destruct (Z.ltb_spec cv 291); [|lia].
    unfold sess_fail. change 0xFF with (Z.ones 8). rewrite Z.land_ones, Z.shiftr_div_pow2 by lia. change (2 ^ 8) with 256.
    unfold server_greeting, written. cbn [sent pending]. by rewrite <- !app_assoc.
Qed.

Lemma handshake_exact_witness :
  server_handshake_split (K := perfect_sink) (str "rio-build") (mkReader (client_hello 0x123 [] 0 0 0) 0) (mkOut [] []) =
    (inl (mkHandshakeResult 0x123, mkReader [] 32), mkOut (server_hello 0x123 (str "rio-build")) []).
Proof.
  apply (proj1 (handshake_exact (K := perfect_sink) (str "rio-build") (mkReader (client_hello 0x123 [] 0 0 0) 0) (mkOut [] [])
    ltac:(done) ltac:(by vm_compute) ltac:(apply (bool_decide_unpack _); by vm_compute))).
  exists 0x123, [], 0, 0, 0. split_and!; try done; unfold u64; lia.
Defined.

Lemma server_of_hello version_string :
  let K := perfect_sink in
  let hello := client_hello PROTOCOL_VERSION [] 0 0 0 in
  wire_string_ok version_string ->
  server_handshake_split version_string (mkReader hello 0) (mkOut [] []) =
    (inl (mkHandshakeResult PROTOCOL_VERSION, mkReader [] (Z.of_nat (length hello))), mkOut (server_hello PROTOCOL_VERSION version_string) []).
Proof.
  intros K hello Hv. apply server_inl; [done|by apply wire_fits|apply (bool_decide_unpack _); by vm_compute|]. exists PROTOCOL_VERSION, [], 0, 0, 0.
  split_and!; try done; unfold u64; try lia.
Qed.

Lemma client_of_answer version_string :
  let K := perfect_sink in
  let answer := server_hello PROTOCOL_VERSION version_string in
  wire_string_ok version_string -> bytes_ok version_string ->
  client_handshake (mkReader answer 0) (mkOut [] []) =
    (inl (mkHandshakeResult PROTOCOL_VERSION, mkReader [] (Z.of_nat (length answer))), mkOut (client_hello PROTOCOL_VERSION [] 0 0 0) []).
Proof.
  intros K answer Hv Hb.
  assert (He : answer = daemon_hello PROTOCOL_VERSION [] version_string 1 ++ write_u64 STDERR_LAST).
  { unfold answer, server_hello, server_greeting, daemon_hello, counted. change (encode_version 1 38 <=? PROTOCOL_VERSION) with true.
    cbn [flat_map length]. by rewrite app_nil_r, <- !app_assoc. }
  assert (Ha : bytes_ok answer).
  { rewrite He. unfold daemon_hello, counted, write_bytes. change (encode_version 1 38 <=? PROTOCOL_VERSION) with true. rewrite !Forall_app.
    split_and!; try done; try apply to_le_ok. apply Forall_forall. intros b Hin. apply list_elem_of_In, repeat_spec in Hin as ->. unfold byte_ok. lia. }
  apply client_inl; [done|done|]. eexists PROTOCOL_VERSION, [], version_string, 1, (mkReader (write_u64 STDERR_LAST) _).
  split_and!; [done..|split; [exact He|reflexivity]| |done|done].
  unfold drain_stderr. change MAX_STDERR_MESSAGES with 100000. replace (Z.to_nat 100000) with (S (Z.to_nat 99999)) by lia. cbn [drain_loop]. unfold mbind at 1, Recv_bind at 1.
  rewrite (decodes_message MLast I _ (mkReader [] (Z.of_nat (length answer)))); [done|apply to_le_ok|]. split; [by rewrite app_nil_r|].
  cbn [pos]. rewrite He, length_app. cbn [encode_message]. lia.
Qed.

(** C34: the handshake ends.  A client and a server of this code, each fed with
    what the other has flushed, reach after six exchanges a state that no longer
    changes: no side waits for bytes that the other holds back.  Both have
    returned, with the same version 1.38, and each has read all that the other has
    sent. *)
Theorem handshake_agrees version_string :
  wire_string_ok version_string -> bytes_ok version_string ->
  let K := perfect_sink in
  let hello := client_hello PROTOCOL_VERSION [] 0 0 0 in
  let answer := server_hello PROTOCOL_VERSION version_string in
  (forall n, (6 <= n)%nat -> dialogue version_string n = (hello, answer)) /\
  outcome client_handshake answer = inl (mkHandshakeResult PROTOCOL_VERSION, mkReader [] (Z.of_nat (length answer))) /\
  outcome (server_handshake_split version_string) hello = inl (mkHandshakeResult PROTOCOL_VERSION, mkReader [] (Z.of_nat (length hello))).
Proof.
  intros Hv Hb K hello answer. pose proof (server_of_hello version_string Hv) as Hs. pose proof (client_of_answer version_string Hv Hb) as Hc.
  fold K hello answer in Hs, Hc. unfold outcome. rewrite Hs, Hc. split; [|done].
  assert (Hx : exchange version_string (hello, answer) = (hello, answer)) by (unfold exchange, output; cbn [fst snd]; by rewrite Hs, Hc).
  intros n Hn. replace n with (n - 6 + 6)%nat by lia. induction (n - 6)%nat as [|k IH].
  - change (exchange version_string (dialogue version_string 5) = (hello, answer)).
    assert (H5 : dialogue version_string 5 = (hello, server_greeting ++ write_u64 0)) by (by vm_compute). rewrite H5.
    unfold exchange, output. cbn [fst snd]. rewrite Hs. by f_equal.
  - change (exchange version_string (dialogue version_string (k + 6)) = (hello, answer)). by rewrite IH.
Qed.

Lemma handshake_agrees_witness :
  outcome (client_handshake (K := perfect_sink)) (server_hello PROTOCOL_VERSION (str "rio-build 0.1.0")) =
    inl (mkHandshakeResult 0x126, mkReader [] (Z.of_nat (length (server_hello PROTOCOL_VERSION (str "rio-build 0.1.0"))))).
Proof. apply (handshake_agrees (str "rio-build 0.1.0")); [by vm_compute|apply str_ok]. Defined.

(** [wopSetOptions] sends its fourteen words, then reads the log of the call. *)
Lemma set_options_sends `{K : Sink} max_silent_time build_cores r o :
  quiet_sink K ->
  client_set_options max_silent_time build_cores r o =
    (drain_stderr r, mkOut (written o ++ flat_map write_u64 [19; 0; 0; 0; 0; 1; max_silent_time; 1; 7; 0; 0; build_cores; 0; 0]) []).
Proof.
  intros Hq. assert (Hf : flushed (set_options_request max_silent_time build_cores)
    (flat_map write_u64 [19; 0; 0; 0; 0; 1; max_silent_time; 1; 7; 0; 0; build_cores; 0; 0])).
  { cbn [flat_map]. unfold set_options_request. do 13 (apply flushed_bind; [by first [apply (emits_u64 Hq) | apply (emits_all Hq)]|]).
    apply flushed_bind; [by apply (emits_pairs Hq [])|]. by apply flushed_flush. }
  unfold client_set_options, mbind, Sess_bind, on_write, on_read. rewrite Hf. by destruct (drain_stderr r) as [[[] r']|].
Qed.
