(* ===== verification/NixBuildWire.v ===== *)
(** * Nix worker protocol: derivations, build results, path infos, derived paths

    [src/rio-nix/src/protocol/{build,pathinfo,derived_path}.rs], the build request
    of [client.rs] and the hash field of [wire/mod.rs].  The JSON text of a
    realisation is [serde_json]'s and the reading of hexadecimal is the [hex]
    crate's; both are interfaces with laws. *)

From Stdlib Require Import Sorted.
From S2P Require Import Prelude NixBytes NixBase32 NixStorePath NixNar NixAterm NixWire NixStderr NixHandshake.

#[local] Open Scope Z_scope.

(** ** Interfaces *)

Class RealisationJson : Type := {
  (** The text of the object with this id and [outPath], and empty signatures
      and dependencies. *)
  realisation_text : bytes -> bytes -> bytes;
  (** Parse a text and look up a string [outPath]: [None] is not JSON,
      [Some None] has no such string. *)
  realisation_out_path : bytes -> option (option bytes);
}.

Class RealisationJsonLaws (J : RealisationJson) : Prop := {
  realisation_read id p : utf8_valid id = true -> utf8_valid p = true -> realisation_out_path (realisation_text id p) = Some (Some p);
  realisation_utf8 id p : utf8_valid id = true -> utf8_valid p = true -> utf8_valid (realisation_text id p) = true;
}.

Class HexDecode : Type := { hex_decode : bytes -> option bytes }.

Class HexDecodeLaws (X : HexDecode) : Prop := { hex_decode_encode b : bytes_ok b -> hex_decode (hex_encode b) = Some b }.

(** ** Build results *)

Module BuildMode.
Inductive BuildMode : Type := Normal | Repair | Check_.

Definition to_u64 (m : BuildMode) : Z := match m with Normal => 0 | Repair => 1 | Check_ => 2 end.

Definition try_from (v : Z) : option BuildMode := match v with 0 => Some Normal | 1 => Some Repair | 2 => Some Check_ | _ => None end.
End BuildMode.
Abbreviation BuildMode := BuildMode.BuildMode.

Module BuildStatus.
Inductive BuildStatus : Type :=
| Built | Substituted | AlreadyValid | PermanentFailure | InputRejected | OutputRejected | TransientFailure | CachedFailure | TimedOut
| MiscFailure | DependencyFailed | LogLimitExceeded | NotDeterministic | ResolvesToAlreadyValid | NoSubstituters.

Definition to_u64 (s : BuildStatus) : Z :=
  match s with
  | Built => 0 | Substituted => 1 | AlreadyValid => 2 | PermanentFailure => 3 | InputRejected => 4 | OutputRejected => 5 | TransientFailure => 6
  | CachedFailure => 7 | TimedOut => 8 | MiscFailure => 9 | DependencyFailed => 10 | LogLimitExceeded => 11 | NotDeterministic => 12
  | ResolvesToAlreadyValid => 13 | NoSubstituters => 14
  end.

Definition try_from (v : Z) : option BuildStatus :=
  match v with
  | 0 => Some Built | 1 => Some Substituted | 2 => Some AlreadyValid | 3 => Some PermanentFailure | 4 => Some InputRejected
  | 5 => Some OutputRejected | 6 => Some TransientFailure | 7 => Some CachedFailure | 8 => Some TimedOut | 9 => Some MiscFailure
  | 10 => Some DependencyFailed | 11 => Some LogLimitExceeded | 12 => Some NotDeterministic | 13 => Some ResolvesToAlreadyValid
  | 14 => Some NoSubstituters
  | _ => None
  end.

Definition is_success (s : BuildStatus) : bool :=
  match s with Built | Substituted | AlreadyValid | ResolvesToAlreadyValid => true | _ => false end.
End BuildStatus.
Abbreviation BuildStatus := BuildStatus.BuildStatus.

Record BuiltOutput : Type := mkBuiltOutput {
  bo_drv_output_id : bytes;
  bo_out_path : bytes;
}.

Record BuildResult : Type := mkBuildResult {
  br_status : BuildStatus;
  br_error_msg : bytes;
  br_times_built : Z;
  br_is_non_deterministic : bool;
  br_start_time : Z;
  br_stop_time : Z;
  br_cpu_user : option Z;
  br_cpu_system : option Z;
  br_built_outputs : list BuiltOutput;
}.

(** [BuildResult::success] and [BuildResult::failure]. *)
Definition build_success : BuildResult := mkBuildResult BuildStatus.Built [] 1 false 0 0 None None [].
Definition build_failure (status : BuildStatus) (error_msg : bytes) : BuildResult := mkBuildResult status error_msg 0 false 0 0 None None [].

Definition with_outputs_from_drv (r : BuildResult) (drv : Derivation) (drv_hash_hex : bytes) (realized_overrides : gmap bytes bytes) : BuildResult :=
  let built o :=
    mkBuiltOutput (str "sha256:" ++ drv_hash_hex ++ str "!" ++ do_name o)
      (if bytes_eqb (do_path o) [] then default [] (realized_overrides !! do_name o) else do_path o) in
  mkBuildResult (br_status r) (br_error_msg r) (br_times_built r) (br_is_non_deterministic r) (br_start_time r) (br_stop_time r)
    (br_cpu_user r) (br_cpu_system r) (List.map built (drv_outputs drv)).

(** [as i64] and [as u64]. *)
Definition as_i64 (v : Z) : Z := if v <? 2 ^ 63 then v else v - 2 ^ 64.
Definition as_u64 (v : Z) : Z := v mod 2 ^ 64.

Definition read_optional_i64 : Recv (option Z) :=
  tag ← recv_u64;
  if tag =? 0 then mret None
  else if tag =? 1 then v ← recv_u64; mret (Some (as_i64 v))
  else wfail WireError.Io_Other.

Section Wire.
Context `{K : Sink} `{J : RealisationJson} `{X : HexDecode}.

Definition write_optional_i64 (val : option Z) : Put unit :=
  match val with None => put_u64 0 | Some v => _ ← put_u64 1; put_u64 (as_u64 v) end.

Definition read_built_output : Recv BuiltOutput :=
  drv_output_id ← recv_string;
  json_str ← recv_string;
  match realisation_out_path json_str with
  | Some (Some p) =>
      if starts_with STORE_PREFIX p then mret (mkBuiltOutput drv_output_id p)
      else if bytes_eqb p [] then wfail WireError.Io_Other
      else mret (mkBuiltOutput drv_output_id (STORE_PREFIX ++ p))
  | _ => wfail WireError.Io_Other
  end.

Definition read_build_result (version : Z) : Recv BuildResult :=
  status_val ← recv_u64;
  let status := default BuildStatus.MiscFailure (BuildStatus.try_from status_val) in
  error_msg ← read_content_string;
  times_built ← recv_u64;
  is_non_deterministic ← recv_bool;
  start_time ← recv_u64;
  stop_time ← recv_u64;
  cpu ← (if encode_version 1 37 <=? version then u ← read_optional_i64; s ← read_optional_i64; mret (u, s) else mret (None, None));
  built_outputs ← recv_counted read_built_output;
  mret (mkBuildResult status error_msg times_built is_non_deterministic start_time stop_time (fst cpu) (snd cpu) built_outputs).

Definition out_path_basename (out_path : bytes) : bytes := default out_path (strip_prefix STORE_PREFIX out_path).

Definition write_built_output (output : BuiltOutput) : Put unit :=
  _ ← put_string (bo_drv_output_id output);
  put_string (realisation_text (bo_drv_output_id output) (out_path_basename (bo_out_path output))).

Definition write_build_result (result : BuildResult) (version : Z) : Put unit :=
  _ ← put_u64 (BuildStatus.to_u64 (br_status result));
  _ ← put_string (br_error_msg result);
  _ ← put_u64 (br_times_built result);
  _ ← put_bool (br_is_non_deterministic result);
  _ ← put_u64 (br_start_time result);
  _ ← put_u64 (br_stop_time result);
  _ ← (if encode_version 1 37 <=? version then _ ← write_optional_i64 (br_cpu_user result); write_optional_i64 (br_cpu_system result) else mret tt);
  _ ← put_u64 (Z.of_nat (length (br_built_outputs result)));
  put_each write_built_output (br_built_outputs result).

(** ** Derivations *)

Definition read_derivation_output : Recv DerivationOutput :=
  name ← recv_string;
  path ← recv_string;
  hash_algo ← recv_string;
  hash ← recv_string;
  match output_new name path hash_algo hash with inl o => mret o | inr _ => wfail WireError.Io_Other end.

Definition read_basic_derivation : Recv BasicDerivation :=
  outputs ← recv_counted read_derivation_output;
  input_srcs ← read_strings;
  platform ← recv_string;
  builder ← recv_string;
  args ← read_strings;
  env ← read_string_pairs;
  match basic_new outputs (set_collect input_srcs) platform builder args (btree_collect env) with
  | inl b => mret b
  | inr _ => wfail WireError.Io_Other
  end.

Definition write_derivation_output (o : DerivationOutput) : Put unit :=
  _ ← put_string (do_name o); _ ← put_string (do_path o); _ ← put_string (do_hash_algo o); put_string (do_hash o).

Definition write_basic_derivation (drv : BasicDerivation) : Put unit :=
  _ ← put_u64 (Z.of_nat (length (bd_outputs drv)));
  _ ← put_each write_derivation_output (bd_outputs drv);
  _ ← put_strings (bd_input_srcs drv);
  _ ← put_string (bd_platform drv);
  _ ← put_string (bd_builder drv);
  _ ← put_strings (bd_args drv);
  put_string_pairs (bd_env drv).

Definition client_send_build_derivation (drv_path : bytes) (drv : BasicDerivation) (build_mode : BuildMode) : Put unit :=
  _ ← put_u64 (WorkerOp.to_u64 WorkerOp.BuildDerivation);
  _ ← put_string drv_path;
  _ ← write_basic_derivation drv;
  _ ← put_u64 (BuildMode.to_u64 build_mode);
  put_flush.

(** ** Path infos *)

Record ValidPathInfo : Type := mkValidPathInfo {
  vi_deriver : option bytes;
  vi_nar_hash : bytes;
  vi_references : list bytes;
  vi_registration_time : Z;
  vi_nar_size : Z;
  vi_ultimate : bool;
  vi_signatures : list bytes;
  vi_content_address : option bytes;
}.

Definition read_nar_hash : Recv bytes :=
  s ← recv_string;
  match hex_decode s with Some b => mret b | None => wfail WireError.InvalidNarHash end.

Definition write_nar_hash (hash : bytes) : Put unit := put_string (hex_encode hash).

Definition none_if_empty (s : bytes) : option bytes := if bytes_eqb s [] then None else Some s.

Definition write_valid_path_info (info : ValidPathInfo) : Put unit :=
  _ ← put_string (default [] (vi_deriver info));
  _ ← write_nar_hash (vi_nar_hash info);
  _ ← put_strings (vi_references info);
  _ ← put_u64 (vi_registration_time info);
  _ ← put_u64 (vi_nar_size info);
  _ ← put_bool (vi_ultimate info);
  _ ← put_strings (vi_signatures info);
  put_string (default [] (vi_content_address info)).

Definition read_valid_path_info : Recv ValidPathInfo :=
  deriver ← recv_string;
  nar_hash ← read_nar_hash;
  references ← read_strings;
  registration_time ← recv_u64;
  nar_size ← recv_u64;
  ultimate ← recv_bool;
  signatures ← read_strings;
  content_address ← recv_string;
  mret (mkValidPathInfo (none_if_empty deriver) nar_hash references registration_time nar_size ultimate signatures (none_if_empty content_address)).
End Wire.

(** ** Derived paths *)

Module DerivedPathError.
Inductive DerivedPathError : Type :=
| StorePath (e : StorePathError)
| NotDerivation (s : bytes)
| EmptyOutputName
| DuplicateOutputName
| TooManyOutputs (n : nat).
End DerivedPathError.
Abbreviation DerivedPathError := DerivedPathError.DerivedPathError.

Definition MAX_OUTPUT_NAMES : nat := 256.

Inductive OutputSpec : Type :=
| All
| Names (names : list bytes).

(** [OutputSpec::names]. *)
Definition spec_names (names : list bytes) : OutputSpec + DerivedPathError :=
  match names with
  | [] => inr DerivedPathError.EmptyOutputName
  | _ =>
      if existsb is_nil names then inr DerivedPathError.EmptyOutputName
      else if negb (bool_decide (NoDup names)) then inr DerivedPathError.DuplicateOutputName
      else inl (Names names)
  end.

Inductive DerivedPath : Type :=
| Opaque_ (p : StorePath)
| Built (drv : StorePath) (outputs : OutputSpec).

Definition BANG : Z := 33.
Definition COMMA : Z := 44.
Definition STAR : bytes := [42].

(** [str::split] at one byte; it has at least one piece. *)
Fixpoint split_on (sep : Z) (s : bytes) : list bytes :=
  match s with
  | [] => [[]]
  | b :: s =>
      if b =? sep then [] :: split_on sep s
      else match split_on sep s with [] => [[b]] | x :: xs => (b :: x) :: xs end
  end.

(** [matches(sep).count()]. *)
Definition count_byte (sep : Z) (s : bytes) : nat := length (List.filter (Z.eqb sep) s).

Definition derived_parse (s : bytes) : DerivedPath + DerivedPathError :=
  match split_once BANG s with
  | Some (drv_part, output_part) =>
      match parse drv_part with
      | inr e => inr (DerivedPathError.StorePath e)
      | inl drv =>
          if negb (is_derivation drv) then inr (DerivedPathError.NotDerivation drv_part)
          else if bytes_eqb output_part STAR then inl (Built drv All)
          else
            let n := (count_byte COMMA output_part + 1)%nat in
            if (MAX_OUTPUT_NAMES <? n)%nat then inr (DerivedPathError.TooManyOutputs n)
            else match spec_names (split_on COMMA output_part) with inl outputs => inl (Built drv outputs) | inr e => inr e end
      end
  | None => match parse s with inl p => inl (Opaque_ p) | inr e => inr (DerivedPathError.StorePath e) end
  end.

(** [DerivedPath::store_path]. *)
Definition derived_store_path (d : DerivedPath) : StorePath := match d with Opaque_ p => p | Built drv _ => drv end.

Fixpoint join_names (names : list bytes) : bytes :=
  match names with
  | [] => []
  | [x] => x
  | x :: names => x ++ COMMA :: join_names names
  end.

(** [Display]. *)
Definition derived_display (d : DerivedPath) : bytes :=
  match d with
  | Opaque_ path => sp_full path
  | Built drv All => sp_full drv ++ BANG :: STAR
  | Built drv (Names names) => sp_full drv ++ BANG :: join_names names
  end.

(** ** Values on the wire *)

(** What is written, and read back as the value. *)
Definition carries {A} (m : Put unit) (k : Recv A) (a : A) : Prop := exists s, emits m s /\ decodes k a s.

Lemma carries_bind {A B} (m m' : Put unit) (k : Recv A) (f : A -> Recv B) a b :
  carries m k a -> carries m' (f a) b -> carries (_ ← m; m') (x ← k; f x) b.
Proof. intros (s & H1 & H2) (t & H3 & H4). exists (s ++ t). split; [by apply emits_bind|by eapply decodes_bind]. Qed.

Lemma carries_map {A B} (m : Put unit) (k : Recv A) (f : A -> B) a : carries m k a -> carries m (x ← k; mret (f x)) (f a).
Proof. intros (s & H1 & H2). exists s. split; [done|]. by apply (decodes_map k f a). Qed.

Lemma carries_ret {A} (a : A) : carries (mret tt) (mret a) a.
Proof. exists []. split; [apply emits_ret|apply decodes_ret]. Qed.

(** A count, then the items. *)
Lemma carries_counted {A} `{K : Sink} (w : A -> Put unit) (k : Recv A) l :
  quiet_sink K -> Z.of_nat (length l) <= MAX_COLLECTION_COUNT -> Forall (fun a => carries (w a) k a) l ->
  carries (_ ← put_u64 (Z.of_nat (length l)); put_each w l) (recv_counted k) l.
Proof.
  intros Hq Hn Hl. assert (Ht : exists s, emits (put_each w l) s /\ decodes (recv_times k (length l)) l s).
  { clear Hn. induction Hl as [|a l (s & H1 & H2) _ (t & H3 & H4)]; cbn [put_each recv_times length]; [exists []; split; [apply emits_ret|apply decodes_ret]|].
    exists (s ++ t). split; [by apply emits_bind|]. eapply decodes_bind; [exact H2|]. by apply (decodes_map _ (cons a)). }
  destruct Ht as (s & H1 & H2). exists (write_u64 (Z.of_nat (length l)) ++ s). split; [apply emits_bind; [by apply emits_u64|done]|].
  change MAX_COLLECTION_COUNT with 1048576 in Hn. eapply decodes_bind; [apply decodes_u64; unfold u64; lia|].
  change MAX_COLLECTION_COUNT with 1048576. destruct (Z.ltb_spec 1048576 (Z.of_nat (length l))); [lia|]. by rewrite Nat2Z.id.
Qed.

Lemma carries_assoc {A} (a b c : Put unit) (k : Recv A) v : carries (_ ← (_ ← a; b); c) k v -> carries (_ ← a; _ ← b; c) k v.
Proof.
  intros (s & H & Hd). exists s. split; [|done]. intros o. destruct (H o) as (o' & H1 & H2). exists o'. split; [|done]. revert H1.
  unfold mbind, Put_bind. by destruct (a o) as [[[]|] o1].
Qed.

Section Carries.
Context `{K : Sink} (Hq : quiet_sink K).

Lemma carries_u64 v : u64 v -> carries (put_u64 v) recv_u64 v.
Proof. intros Hv. eexists. split; [by apply emits_u64|by apply decodes_u64]. Qed.

Lemma carries_bool b : carries (put_bool b) recv_bool b.
Proof. eexists. split; [by apply emits_all|apply decodes_bool]. Qed.

Lemma carries_string s : wire_string_ok s -> carries (put_string s) recv_string s.
Proof. intros Hs. eexists. split; [by apply emits_string, wire_fits|by apply decodes_string]. Qed.

Lemma carries_content s : wire_string_ok s -> carries (put_string s) read_content_string s.
Proof. intros Hs. eexists. split; [by apply emits_string, wire_fits|by apply decodes_content]. Qed.

Lemma carries_strings l : collection_ok (length l) l -> carries (put_strings l) read_strings l.
Proof.
  intros Hl. pose proof Hl as (Hn & Hf & _). eexists. split; [|by apply decodes_strings]. apply emits_strings; [done..|].
  eapply Forall_impl; [exact Hf|]. apply wire_fits.
Qed.

Lemma carries_pairs l : collection_ok (length l) (unpair l) -> carries (put_string_pairs l) read_string_pairs l.
Proof.
  intros Hl. pose proof Hl as (Hn & Hf & _). eexists. split; [|by apply decodes_pairs]. apply emits_pairs; [done..|].
  eapply Forall_impl; [exact Hf|]. apply wire_fits.
Qed.

Lemma carries_optional_i64 v : from_option i64_ok True v -> carries (write_optional_i64 v) read_optional_i64 v.
Proof.
  intros Hv. destruct v as [v|]; cbn [write_optional_i64 from_option] in *; unfold read_optional_i64.
  - eapply carries_bind; [by apply (carries_u64 1)|]. cbn [Z.eqb Pos.eqb]. unfold i64_ok, i64_min, i64_max in Hv.
    replace (Some v) with (Some (as_i64 (as_u64 v))); [apply (carries_map _ _ (fun v => Some (as_i64 v))), carries_u64; unfold u64, as_u64; lia|].
    f_equal. unfold as_i64, as_u64. destruct (Z.ltb_spec (v mod 2 ^ 64) (2 ^ 63)); lia.
  - exists (write_u64 0). split; [by apply emits_u64|]. rewrite <- app_nil_r. eapply decodes_bind; [apply decodes_u64; unfold u64; lia|apply decodes_ret].
Qed.
End Carries.

(** The CPU times are not on the wire below 1.37. *)
Definition at_version (version : Z) (r : BuildResult) : BuildResult :=
  if encode_version 1 37 <=? version then r
  else mkBuildResult (br_status r) (br_error_msg r) (br_times_built r) (br_is_non_deterministic r) (br_start_time r) (br_stop_time r) None None (br_built_outputs r).

(** The path of an output is in the store, and its text fits. *)
Definition built_output_ok `{RealisationJson} (o : BuiltOutput) : Prop :=
  wire_string_ok (bo_drv_output_id o) /\
  exists p, bo_out_path o = STORE_PREFIX ++ p /\ p <> [] /\ starts_with STORE_PREFIX p = false /\ utf8_valid p = true /\
    string_fits (realisation_text (bo_drv_output_id o) p).

Definition build_result_ok `{RealisationJson} (r : BuildResult) : Prop :=
  wire_string_ok (br_error_msg r) /\ u64 (br_times_built r) /\ u64 (br_start_time r) /\ u64 (br_stop_time r) /\
  from_option i64_ok True (br_cpu_user r) /\ from_option i64_ok True (br_cpu_system r) /\
  Z.of_nat (length (br_built_outputs r)) <= MAX_COLLECTION_COUNT /\ Forall built_output_ok (br_built_outputs r).

Definition derivation_output_ok (o : DerivationOutput) : Prop :=
  do_name o <> [] /\ wire_string_ok (do_name o) /\ wire_string_ok (do_path o) /\ wire_string_ok (do_hash_algo o) /\ wire_string_ok (do_hash o).

Definition basic_derivation_ok (d : BasicDerivation) : Prop :=
  bd_outputs d <> [] /\ Z.of_nat (length (bd_outputs d)) <= MAX_COLLECTION_COUNT /\ Forall derivation_output_ok (bd_outputs d) /\
  StronglySorted bytes_lt (bd_input_srcs d) /\ collection_ok (length (bd_input_srcs d)) (bd_input_srcs d) /\
  wire_string_ok (bd_platform d) /\ wire_string_ok (bd_builder d) /\ collection_ok (length (bd_args d)) (bd_args d) /\
  sorted_keys (bd_env d) /\ collection_ok (length (bd_env d)) (unpair (bd_env d)).

Definition path_info_ok (i : ValidPathInfo) : Prop :=
  from_option (fun s => s <> [] /\ wire_string_ok s) True (vi_deriver i) /\
  bytes_ok (vi_nar_hash i) /\ wire_string_ok (hex_encode (vi_nar_hash i)) /\
  collection_ok (length (vi_references i)) (vi_references i) /\ u64 (vi_registration_time i) /\ u64 (vi_nar_size i) /\
  collection_ok (length (vi_signatures i)) (vi_signatures i) /\ from_option (fun s => s <> [] /\ wire_string_ok s) True (vi_content_address i).

Lemma at_version_eta version r :
  at_version version r = mkBuildResult (br_status r) (br_error_msg r) (br_times_built r) (br_is_non_deterministic r) (br_start_time r) (br_stop_time r)
    (br_cpu_user (at_version version r)) (br_cpu_system (at_version version r)) (br_built_outputs r).
Proof. unfold at_version. destruct (encode_version 1 37 <=? version); by destruct r. Qed.

Lemma status_round s : BuildStatus.try_from (BuildStatus.to_u64 s) = Some s.
Proof. by destruct s. Qed.

Lemma none_if_empty_round (s : option bytes) :
  from_option (fun s => s <> [] /\ wire_string_ok s) True s -> wire_string_ok (default [] s) /\ none_if_empty (default [] s) = s.
Proof.
  destruct s as [s|]; cbn [from_option default]; intros H; [|done]. destruct H as [Hn Hs]. split; [done|]. unfold none_if_empty, bytes_eqb.
  by rewrite bool_decide_eq_false_2.
Qed.

Section Values.
Context `{K : Sink} (Hq : quiet_sink K) `{J : RealisationJson} `{!RealisationJsonLaws J} `{X : HexDecode} `{!HexDecodeLaws X}.
#[local] Hint Resolve carries_u64 carries_bool carries_string carries_content carries_strings carries_pairs carries_optional_i64 : wire.

(** Write and read one field after the other. *)
Ltac carry := eapply carries_bind; [solve [eauto with wire]|cbv beta].

Lemma carries_built_output o : built_output_ok o -> carries (write_built_output o) read_built_output o.
Proof.
  intros (Hid & p & Ho & Hp & Hs & Hu & Ht). destruct o as [id path]. cbn [bo_out_path] in Ho. subst path. unfold write_built_output, read_built_output. cbn [bo_drv_output_id bo_out_path] in *.
  assert (Hb : out_path_basename (STORE_PREFIX ++ p) = p) by (unfold out_path_basename; by rewrite (proj2 (strip_prefix_Some _ _ p) eq_refl)).
  rewrite Hb. pose proof Hid as [_ Hidu]. carry. destruct (carries_string Hq (realisation_text id p)) as (s & H1 & H2); [split; [done|by apply realisation_utf8]|].
  exists s. split; [done|]. rewrite <- (app_nil_r s). eapply decodes_bind; [exact H2|]. rewrite realisation_read, Hs by done. unfold bytes_eqb.
  rewrite bool_decide_eq_false_2 by done. apply decodes_ret.
Qed.

Lemma carries_cpu r version :
  from_option i64_ok True (br_cpu_user r) -> from_option i64_ok True (br_cpu_system r) ->
  carries (if encode_version 1 37 <=? version then _ ← write_optional_i64 (br_cpu_user r); write_optional_i64 (br_cpu_system r) else mret tt)
    (if encode_version 1 37 <=? version then u ← read_optional_i64; s ← read_optional_i64; mret (u, s) else mret (None, None))
    (br_cpu_user (at_version version r), br_cpu_system (at_version version r)).
Proof.
  intros Hu Hs. unfold at_version. destruct (encode_version 1 37 <=? version); [|apply carries_ret]. carry.
  by apply (carries_map _ _ (pair (br_cpu_user r))), carries_optional_i64.
Qed.

Lemma carries_build_result r version : build_result_ok r -> carries (write_build_result r version) (read_build_result version) (at_version version r).
Proof.
  intros (H1 & H2 & H3 & H4 & H5 & H6 & H7 & H8). unfold write_build_result, read_build_result.
  assert (Hst : u64 (BuildStatus.to_u64 (br_status r))) by (destruct (br_status r); unfold u64; cbn; lia).
  do 6 carry. rewrite status_round. cbn [default from_option id].
  eapply carries_bind; [by apply carries_cpu|]. cbn [fst snd].
  rewrite (at_version_eta version r). cbn [br_cpu_user br_cpu_system].
  apply (carries_map _ _ (mkBuildResult _ _ _ _ _ _ _ _)). apply carries_counted; [done..|]. eapply Forall_impl; [exact H8|]. apply carries_built_output.
Qed.

Lemma carries_derivation_output o : derivation_output_ok o -> carries (write_derivation_output o) read_derivation_output o.
Proof.
  intros (Hn & H1 & H2 & H3 & H4). unfold write_derivation_output, read_derivation_output. do 3 carry.
  destruct (carries_string Hq (do_hash o) H4) as (s & He & Hd). exists s. split; [done|]. rewrite <- (app_nil_r s). eapply decodes_bind; [exact Hd|].
  unfold output_new, is_nil, bytes_eqb. rewrite bool_decide_eq_false_2 by done. destruct o. apply decodes_ret.
Qed.

Lemma carries_basic_derivation d : basic_derivation_ok d -> carries (write_basic_derivation d) read_basic_derivation d.
Proof.
  intros (H1 & H2 & H3 & H4 & H5 & H6 & H7 & H8 & H9 & H10). unfold write_basic_derivation, read_basic_derivation. apply carries_assoc.
  eapply carries_bind; [apply carries_counted; [done..|]; eapply Forall_impl; [exact H3|]; apply carries_derivation_output|]. do 4 carry.
  destruct (carries_pairs Hq (bd_env d) H10) as (s & He & Hd). exists s. split; [done|]. rewrite <- (app_nil_r s). eapply decodes_bind; [exact Hd|].
  rewrite set_collect_id, btree_collect_id by done. destruct d as [outs srcs pl b args env]. cbn [bd_outputs] in H1. unfold basic_new.
  cbn [bd_outputs bd_input_srcs bd_platform bd_builder bd_args bd_env]. destruct outs; [done|]. apply decodes_ret.
Qed.

Lemma carries_nar_hash h : bytes_ok h -> wire_string_ok (hex_encode h) -> carries (write_nar_hash h) read_nar_hash h.
Proof.
  intros Hb Hh. destruct (carries_string Hq _ Hh) as (s & He & Hd). exists s. split; [done|]. unfold read_nar_hash. rewrite <- (app_nil_r s).
  eapply decodes_bind; [exact Hd|]. rewrite hex_decode_encode by done. apply decodes_ret.
Qed.
#[local] Hint Resolve carries_nar_hash : wire.

Lemma carries_path_info i : path_info_ok i -> carries (write_valid_path_info i) read_valid_path_info i.
Proof.
  intros (H1 & H2 & H3 & H4 & H5 & H6 & H7 & H8). apply none_if_empty_round in H1 as [D1 D2]. apply none_if_empty_round in H8 as [C1 C2].
  unfold write_valid_path_info, read_valid_path_info. do 7 carry. rewrite D2.
  destruct i as [d h rs rt ns u sg ca]. cbn [vi_deriver vi_nar_hash vi_references vi_registration_time vi_nar_size vi_ultimate vi_signatures vi_content_address] in *.
  rewrite <- C2 at 2.
  by apply (carries_map _ _ (fun c => mkValidPathInfo _ _ _ _ _ _ _ (none_if_empty c))), carries_string.
Qed.
End Values.

(** ** Splitting *)

Lemma split_on_nonempty sep s : split_on sep s <> [].
Proof. destruct s as [|b s]; cbn [split_on]; [done|]. destruct (b =? sep); [done|]. by destruct (split_on sep s). Qed.

Lemma split_on_join s : join_names (split_on COMMA s) = s.
Proof.
  induction s as [|b s IH]; cbn [split_on]; [done|]. pose proof (split_on_nonempty COMMA s) as Hn. destruct (Z.eqb_spec b COMMA) as [->|].
  - destruct (split_on COMMA s) as [|x xs] eqn:E; [done|]. change (join_names ([] :: x :: xs)) with (COMMA :: join_names (x :: xs)). by rewrite IH.
  - destruct (split_on COMMA s) as [|x [|y xs]] eqn:E; [done|cbn in *; by subst x|]. change (join_names ((b :: x) :: y :: xs)) with (b :: join_names (x :: y :: xs)). by rewrite IH.
Qed.

Lemma split_on_pieces sep s : Forall (fun x => sep ∉ x) (split_on sep s).
Proof.
  induction s as [|b s IH]; cbn [split_on]; [repeat constructor; set_solver|]. destruct (Z.eqb_spec b sep) as [->|].
  - constructor; [set_solver|done].
  - destruct (split_on sep s) as [|x xs]; [constructor; [set_solver|done]|]. apply Forall_cons in IH as [Hx Hxs]. constructor; [set_solver|done].
Qed.

Lemma split_on_piece sep x : sep ∉ x -> split_on sep x = [x].
Proof.
  induction x as [|b x IH]; intros Hx; cbn [split_on]; [done|]. destruct (Z.eqb_spec b sep) as [->|]; [set_solver|]. by rewrite IH by set_solver.
Qed.

Lemma split_on_app sep x s : sep ∉ x -> split_on sep (x ++ sep :: s) = x :: split_on sep s.
Proof.
  induction x as [|b x IH]; intros Hx; cbn [app split_on]; [by rewrite Z.eqb_refl|]. destruct (Z.eqb_spec b sep) as [->|]; [set_solver|]. by rewrite IH by set_solver.
Qed.

Lemma join_split l : l <> [] -> Forall (fun x => COMMA ∉ x) l -> split_on COMMA (join_names l) = l.
Proof.
  intros Hn Hl. induction Hl as [|x l Hx Hl IH]; [done|]. destruct l as [|y l]; [by apply split_on_piece|].
  change (join_names (x :: y :: l)) with (x ++ COMMA :: join_names (y :: l)). by rewrite split_on_app, IH.
Qed.

Lemma split_on_count sep s : length (split_on sep s) = (count_byte sep s + 1)%nat.
Proof.
  unfold count_byte. induction s as [|b s IH]; cbn [split_on List.filter]; [done|]. rewrite (Z.eqb_sym sep b). destruct (b =? sep); cbn [length]; [lia|].
  pose proof (split_on_nonempty sep s). destruct (split_on sep s); [done|]. by rewrite <- IH.
Qed.

(** ** Derived paths *)

Definition path_ok (p : StorePath) : Prop := parse (sp_full p) = inl p.

Definition names_ok (l : list bytes) : Prop :=
  l <> [] /\ Forall (fun n => n <> [] /\ COMMA ∉ n) l /\ NoDup l /\ (length l <= MAX_OUTPUT_NAMES)%nat /\ l <> [STAR].

Definition derived_ok (d : DerivedPath) : Prop :=
  match d with
  | Opaque_ p => path_ok p
  | Built drv All => path_ok drv /\ is_derivation drv = true
  | Built drv (Names l) => path_ok drv /\ is_derivation drv = true /\ names_ok l
  end.

Lemma path_full s p : parse s = inl p -> sp_full p = s /\ path_ok p /\ BANG ∉ s.
Proof.
  intros H. pose proof H as (_ & _ & Hn & Hs & Hf)%parse_inv. unfold path_ok. rewrite Hf. split_and!; [done..|]. rewrite Hs. unfold render.
  rewrite !not_elem_of_app. split_and!; [set_solver|set_solver|by apply CHARS_no|set_solver|]. intros Hin. destruct Hn as (_ & _ & Hc & _).
  apply (proj1 (Forall_forall _ _) Hc) in Hin. by vm_compute in Hin.
Qed.

Lemma spec_names_inl l spec :
  spec_names l = inl spec <-> l <> [] /\ Forall (fun n => n <> []) l /\ NoDup l /\ spec = Names l.
Proof.
  unfold spec_names. destruct l as [|x l]; [naive_solver|]. destruct (existsb is_nil (x :: l)) eqn:He.
  - split; [done|]. intros (_ & Hf & _). apply existsb_exists in He as (y & Hy & Hn). apply list_elem_of_In in Hy.
    rewrite Forall_forall in Hf. apply Hf in Hy. unfold is_nil, bytes_eqb in Hn. by apply bool_decide_eq_true in Hn.
  - assert (Hf : Forall (fun n => n <> []) (x :: l)).
    { apply Forall_forall. intros y Hy ->. assert (existsb is_nil (x :: l) = true); [|congruence]. apply existsb_exists. exists []. by rewrite <- list_elem_of_In. }
    case_bool_decide; naive_solver.
Qed.

(** C39: derived paths.  Parsing accepts exactly the texts of the well-formed
    derived paths, and returns the one that the text displays: a store path, or a
    derivation with [*] for all of its outputs, or with 1 to 256 distinct,
    non-empty output names without a comma that are not the single name [*]. *)
Theorem derived_path_exact s d : derived_parse s = inl d <-> derived_ok d /\ s = derived_display d.
Proof.
  unfold derived_parse. split.
  - destruct (split_once BANG s) as [[l o]|] eqn:Hs; [apply split_once_Some in Hs as [-> Hl]|apply split_once_None in Hs].
    + destruct (parse l) as [drv|] eqn:Hp; [|done]. apply path_full in Hp as (<- & Hok & _). destruct (is_derivation drv) eqn:Hd; [|done]. cbn [negb].
      unfold bytes_eqb. case_bool_decide as Ho; [by intros [= <-]; subst o|]. destruct (Nat.ltb_spec MAX_OUTPUT_NAMES (count_byte COMMA o + 1)) as [|Hmax]; [done|].
      destruct (spec_names _) as [spec|] eqn:Hn; [|done]. intros [= <-]. apply spec_names_inl in Hn as (Hne & Hf & Hnd & ->). cbn [derived_display derived_ok].
      rewrite split_on_join. split_and!; try done. unfold names_ok. rewrite split_on_count. split_and!; try done.
      * apply Forall_and. split; [done|apply split_on_pieces].
      * intros He. pose proof (split_on_join o) as Hj. by rewrite He in Hj.
    + destruct (parse s) as [p|] eqn:Hp; [|done]. apply path_full in Hp as (<- & Hok & _). intros [= <-]. done.
  - intros [Hok ->]. destruct d as [p|drv [|l]]; cbn [derived_display derived_ok] in *.
    + pose proof (path_full _ _ Hok) as (_ & _ & Hb). apply split_once_None in Hb. by rewrite Hb, Hok.
    + destruct Hok as [Hok Hd]. pose proof (path_full _ _ Hok) as (_ & _ & Hb). rewrite (proj2 (split_once_Some BANG _ _ STAR) (conj eq_refl Hb)), Hok, Hd. done.
    + destruct Hok as (Hok & Hd & Hne & Hf & Hnd & Hmax & Hstar). pose proof (path_full _ _ Hok) as (_ & _ & Hb).
      rewrite (proj2 (split_once_Some BANG _ _ (join_names l)) (conj eq_refl Hb)), Hok, Hd. cbn [negb]. apply Forall_and in Hf as [Hf1 Hf2].
      pose proof (join_split l Hne Hf2) as Hj. unfold bytes_eqb. case_bool_decide as Hs.
      { rewrite Hs in Hj. change (split_on COMMA STAR) with [STAR] in Hj. by destruct Hstar. }
      rewrite <- split_on_count, Hj. destruct (Nat.ltb_spec MAX_OUTPUT_NAMES (length l)); [lia|].
      by rewrite (proj2 (spec_names_inl l (Names l))).
Qed.

(** ** The theorem *)

(** A server that reads a build request field by field. *)
Definition read_build_request : Recv (option WorkerOp.WorkerOp * bytes * BasicDerivation * option BuildMode) :=
  op ← recv_u64;
  drv_path ← recv_string;
  drv ← read_basic_derivation;
  mode ← recv_u64;
  mret (WorkerOp.from_u64 op, drv_path, drv, BuildMode.try_from mode).

Lemma send_build_derivation `{K : Sink} drv_path d mode :
  quiet_sink K -> wire_string_ok drv_path -> basic_derivation_ok d ->
  exists s, flushed (client_send_build_derivation drv_path d mode) s /\
    decodes read_build_request (Some WorkerOp.BuildDerivation, drv_path, d, Some mode) s.
Proof.
  intros Hq Hp Hd. destruct (carries_basic_derivation Hq d Hd) as (s & He & Hs).
  exists (write_u64 36 ++ write_bytes drv_path ++ s ++ write_u64 (BuildMode.to_u64 mode) ++ []). split.
  - repeat apply flushed_bind; [by apply emits_u64|by apply emits_string, wire_fits|done|by apply emits_u64|by apply flushed_flush].
  - unfold read_build_request. eapply decodes_bind; [apply decodes_u64; unfold u64; lia|]. eapply decodes_bind; [by apply decodes_string|].
    eapply decodes_bind; [exact Hs|]. replace (Some mode) with (BuildMode.try_from (BuildMode.to_u64 mode)) by (by destruct mode). rewrite app_nil_r.
    apply (decodes_map _ (fun m => (Some WorkerOp.BuildDerivation, drv_path, d, BuildMode.try_from m))), decodes_u64. destruct mode; unfold u64; cbn; lia.
Qed.

(** C35: values on the wire.  With a sink that does not fail, what the writers of
    build results, derivations and path infos emit is read back as the value that
    was written, whatever follows it, within the limits of the readers: a build
    result at any protocol version, without its CPU times below 1.37 and with
    paths that are on the wire as base names; a derivation with its set of sources
    and its environment in order; a path info with its hash in hexadecimal and
    absent fields as empty strings.  A build request is flushed and read as the
    opcode, the path, the derivation and the mode that were asked for. *)
Theorem wire_values_roundtrip `{K : Sink} `{J : RealisationJson} `{X : HexDecode} `{!RealisationJsonLaws J} `{!HexDecodeLaws X} :
  quiet_sink K ->
  (forall r version, build_result_ok r -> carries (write_build_result r version) (read_build_result version) (at_version version r)) /\
  (forall d, basic_derivation_ok d -> carries (write_basic_derivation d) read_basic_derivation d) /\
  (forall i, path_info_ok i -> carries (write_valid_path_info i) read_valid_path_info i) /\
  (forall drv_path d mode, wire_string_ok drv_path -> basic_derivation_ok d ->
     exists s, flushed (client_send_build_derivation drv_path d mode) s /\
       decodes read_build_request (Some WorkerOp.BuildDerivation, drv_path, d, Some mode) s).
Proof.
  intros Hq. split_and!; intros; [by apply carries_build_result|by apply carries_basic_derivation|by apply carries_path_info|by apply send_build_derivation].
Qed.

(** ** Concrete values *)

(** A text that is the path alone. *)
#[export] Instance example_json : RealisationJson := {| realisation_text _ p := p; realisation_out_path t := Some (Some t) |}.
#[export] Instance example_json_laws : RealisationJsonLaws example_json.
Proof. by split. Qed.

#[export] Instance example_hex : HexDecode := {| hex_decode := unhex |}.
#[export] Instance example_hex_laws : HexDecodeLaws example_hex.
Proof. split. intros b Hb. by apply unhex_hex_encode. Qed.

Definition example_result : BuildResult :=
  mkBuildResult BuildStatus.Built [] 1 false 100 200 (Some (-1)) None
    [mkBuiltOutput (str "sha256:00!out") (str "/nix/store/7rjj5xmrxb3n63wlk6mzlwxzxbvg7r3a-glibc")].

Lemma wire_values_roundtrip_witness :
  build_result_ok example_result /\
  carries (write_build_result (K := perfect_sink) example_result 0x126) (read_build_result 0x126) example_result.
Proof.
  assert (Hok : build_result_ok example_result).
  { unfold example_result, build_result_ok. cbn [br_error_msg br_times_built br_start_time br_stop_time br_cpu_user br_cpu_system br_built_outputs from_option].
    split_and!; try done; unfold u64, i64_ok, i64_min, i64_max; try lia. constructor; [|constructor]. split; [by vm_compute|].
    exists (str "7rjj5xmrxb3n63wlk6mzlwxzxbvg7r3a-glibc"). split_and!; by vm_compute. }
  split; [done|]. exact (proj1 (wire_values_roundtrip (K := perfect_sink) ltac:(done)) example_result 0x126 Hok).
Defined.
